(* ===== verification/_CoqProject ===== *)
-Q . S2P
Prelude.v
GoStd.v
Json.v
Thinking.v
AuthTypes.v
Weight.v
Smooth.v
Availability.v
AvailabilityEquiv.v
Capacity.v
Errors.v
Classify.v
QuotaSignals.v
Cooldown.v
ExecutionResult.v
ResultProofs.v
ResultInvariant.v
QuotaReach.v
CooldownRecord.v
Rotation.v
Selector.v
Shard.v
Unavailable.v
Scheduler.v
SchedulerInvariant.v
Routing.v
Mixed.v
Lifecycle.v
Snapshots.v
Manager.v
Handover.v
Clearing.v
SessionCache.v
SessionSpec.v
SessionProofs.v
SessionUse.v
Affinity.v
AffinityProofs.v
Registry.v
RegistryCounts.v
RegistryInvariant.v
RegistryExample.v
RegistryProofs.v
RegistryUse.v
RegistryRouting.v
ConcurrencyConfig.v
ExecutionRegistry.v
ExecutionInvariant.v
ExecutionProofs.v
ExecutionRun.v
ReleaseFlusher.v
ExecErrors.v
Retry.v
Execution.v
ExecutionProtocol.v
ExecutionBounds.v
ExecutionExample.v
Metadata.v
Merge.v
CredentialStore.v
CredentialLog.v
CredentialSave.v
CredentialDelivery.v
CredentialExample.v
TokenAccounting.v
UsageQueue.v
UsageManager.v
