(* ===== verification/Prelude.v ===== *)
(** * Verification of the CLIProxyAPI credential router

    CLIProxyAPI ([src/CLIProxyAPI], Go) is a proxy that serves API requests with a pool
    of upstream credentials.  Its core decides which credential serves a request, and
    learns from each result which credentials to leave alone and for how long.  This
    development models that core and proves it right.

    ** The parts and how they interact

    A request names a model, perhaps with a thinking suffix ([Thinking]).  The session
    affinity selector ([Affinity]) looks its session up in the session cache
    ([SessionCache]) and, without a binding, asks another selector ([Selector]) or the
    incremental scheduler ([Scheduler] over the shards of [Shard]); both judge a credential
    by [Availability], rank it by its quota ([Capacity]) and share the rotation
    ([Rotation]) and the smooth weighted round robin ([Smooth]).  What the model registry
    ([Registry]) says a credential offers, the scheduler schedules it for.  The result of
    the execution goes to the manager ([Manager]), which classifies it ([Classify]),
    changes the credential ([ExecutionResult] with [Cooldown]), notifies the registry and
    the selectors and hands the scheduler a new snapshot; the next selections see it
    ([Handover]).  Cooldowns are written down and restored ([CooldownRecord]).

    Around it all the execution ([Execution]) goes round by round: it picks a credential,
    calls it, refreshes it after a 401, reports the result, reads from the error
    ([ExecErrors]) whether another credential may help, and asks for a further round
    ([Retry]).  The credentials themselves are registered, updated and removed in the
    credential store ([CredentialStore]), which merges what executors and users make of
    them ([Metadata], [Merge]) and tells the scheduler.  Executions on behalf of a home control plane are entered in the execution
    registry ([ExecutionRegistry], settings in [ConcurrencyConfig]), whose releases the
    flusher reports ([ReleaseFlusher]).

    ** Files and sources

    Everything is under [src/CLIProxyAPI]; [auth/] is [sdk/cliproxy/auth/].
    - [Prelude], [GoStd], [Json]: shared lists, sorting and sums; the part of Go and of
      its standard library the sources use; [encoding/json].
    - [Thinking]: [internal/thinking] ([suffix.go], [convert.go], [validate.go], [types.go]).
    - [AuthTypes], [Weight], [Errors]: [auth/types.go], [classification.go], [status.go];
      [weight.go], [priority.go], [internal/credentialweight]; [errors.go].
    - [Availability], [AvailabilityEquiv], [Capacity]: when a credential is blocked
      ([auth/selector.go], [credential_policy.go]), [capacity.go], [quota_pin.go].
    - [Smooth], [Rotation], [Selector]: the stand-alone selectors of [auth/selector.go].
    - [Shard], [Unavailable], [Scheduler] ([auth/scheduler.go]): one type per struct, one
      definition per method; [SchedulerInvariant], [Routing], [Mixed], [Lifecycle],
      [Snapshots] prove about them.
    - [Classify], [QuotaSignals], [Cooldown], [ExecutionResult], [CooldownRecord],
      [Manager] ([auth/conductor_cooldown.go], [quota_signals.go], [cooldown_state.go],
      [internal/clienterror]); [ResultProofs], [ResultInvariant], [QuotaReach],
      [Clearing], [Handover] prove about them.
    - [SessionCache] ([auth/session_cache.go]) with [SessionSpec], [SessionProofs],
      [SessionUse]; [Affinity] ([SessionAffinitySelector] of [auth/selector.go]) with
      [AffinityProofs].
    - [Registry] ([internal/registry/model_registry.go]) with [RegistryCounts],
      [RegistryInvariant], [RegistryExample], [RegistryProofs], [RegistryUse], and
      [RegistryRouting], where it meets the scheduler.
    - [ExecutionRegistry] ([sdk/cliproxy/executionregistry]) with [ExecutionInvariant],
      [ExecutionProofs], [ExecutionRun]; [ConcurrencyConfig]
      ([internal/config/credential_concurrency.go]); [ReleaseFlusher]
      ([internal/home/concurrency_release.go]).
    - [ExecErrors], [Retry], [Execution] ([auth/conductor_execution.go],
      [conductor_selection.go], [conductor_cooldown.go], [conductor_request_scoped_errors.go],
      [executor/tls_handshake_timeout.go]) with [ExecutionProtocol], the automaton every
      log is a run of, [ExecutionBounds] and [ExecutionExample].
    - [Metadata], [Merge] ([auth/metadata_keys.go], [metadata_merge.go],
      [conductor_refresh.go], [internal/auth/codex/refresh_patch.go]); [CredentialStore]
      ([auth/conductor_lifecycle.go], [conductor_persistence.go]) with [CredentialLog],
      its steps and their invariant, [CredentialSave], [CredentialDelivery], where it
      meets the scheduler, and [CredentialExample].
    - [TokenAccounting], [UsageManager] ([sdk/cliproxy/usage/accounting.go],
      [manager.go]) and [UsageQueue] ([internal/redisqueue/queue.go]): sorting reported
      token counts, delivering usage records to plugins, and the queue with subscribers
      they end in.

    ** What the theorems show

    - Selection: what is picked is a candidate of the best tier that is free for the
      model, and an error is true of every candidate ([pickSingle_sound],
      [pickMixed_sound], [RoundRobin_Pick_sound], [QuotaDrain_Pick_sound],
      [WeightedRoundRobin_Pick_sound]); rotation and weighted rotation are fair
      ([RoundRobin_fair], [smooth_round_exact], [smooth_round_deviation]).
    - The scheduler's bookkeeping is right after any history ([run_invariant]), removed
      credentials stay removed ([tombstone_safe]), a result takes effect
      ([result_visible]) and a failed credential is not picked again while its cooldown
      runs ([failed_credential_not_picked]).
    - Results: one model's failure leaves the other models alone ([results_isolated]), a
      credential-wide quota closes all of them ([credential_quota_reaches_all]), late
      successes do not open a cooldown ([stale_success_keeps_cooldown]), excused failures
      change nothing ([excused_failure_neutral]), the invariant of the quota fields is
      kept ([results_keep_invariant]), cooldowns survive a restart
      ([cooldowns_survive_restart]) and a reset frees ([ResetQuota_frees]).
    - Sessions: the cache with its four indexes refines a list of sessions
      ([session_cache_refines]), eviction ends ([eviction_ends]), a bound session keeps
      its credential ([affinity_repeat]) and is released when that one fails
      ([failure_releases]).
    - Registry: counts are exact along every history ([registry_counts]), listings are
      never stale ([listing_cache_coherent]), of two changes of a
      registration decided on at one epoch the second is refused ([registration_fence]), what is registered is what is scheduled
      ([registration_scheduled]).
    - Execution registry: draining and closing leave nothing behind ([drain_complete],
      [close_complete]), an end can always return by itself and reaches the sink once ([end_returns],
      [release_delivered]), nobody who waits is forgotten ([waiters_wake]), the barrier
      covers what was dispatched before it ([barrier_covers]); tickets and releases are
      acknowledged exactly ([ticket_exact], [releases_acknowledged]).
    - Execution: whatever its surroundings do an execution ends and its log is a run of
      the protocol ([execution_protocol]), a success ends it ([success_is_last]), rounds,
      waits and credentials are bounded ([execution_bounds]), a further round is granted
      for good reasons ([retry_granted]) and waits within bounds ([jitter_bounds]); the
      markers around errors come off ([markers_come_off]) and what is reported of a
      failure agrees with it ([report_agrees]).
    - Credentials: a prepared credential is merged three ways ([merge_is_three_way]), a
      refresh respects what happened while it ran ([refresh_respects]) and a refresh patch
      takes effect where it was made from ([patch_roundtrip]).  However operations
      interleave around their saves, publications are stamped in their order
      ([publications_increase]), what runtime writers did during a save survives it
      ([save_keeps_runtime]), versions tell new tokens from old
      ([version_tracks_credentials]), what refers to a removed registration stays out
      ([removed_stays_removed]), and the scheduler, told in any order, ends up with what
      the manager holds ([deliveries_converge]).
    - Usage: what is attached to a report is well formed ([breakdown_valid]) and sorted
      exactly when the counts add up in integers without bound ([accounting_exact]); the
      total of an unknown provider is a lower bound ([lower_bound_sound]).  Accepted
      records are delivered to every plugin, in order, and no wakeup is lost
      ([usage_delivered], [usage_in_order]); the queue is a list whose front expires
      ([usage_queue_fifo]), never uses a closed channel ([queue_never_panics]), and shows a
      subscriber everything up to its end ([subscriber_no_gap]).

    ** Conventions, bounds and fuel

    A call under a mutex is one step.  The clock is an argument ([now]); where a call
    reads it several times each reading is one.  A range over a Go map visits a list of
    its keys; either the result is shown not to depend on the order or the order is an
    argument.  Integers are [Z], wrapped at 64 bits where the code can leave the range.
    Fuel is always enough, by proof: the binary search of [sort_Search] has the length of
    the list as fuel, the JSON parser the length of its input, the search for an expiry in
    nested metadata its depth, the eviction loop the length of the eviction order, a
    round of an execution one more than the credentials there are, its rounds one more
    than the retries allowed.  The steps of the execution registry are counted below 2^63.
    Code outside the repository is an argument with its documented behaviour as
    hypotheses: [GoHost] (time layouts, base64, JSON numbers), [TimeFormat], the path
    queries of gjson, token stores.

    ** Not modelled, and why

    Executors, translators of request bodies, HTTP handlers, plugins, the home client and
    the command line are input and output around gjson/sjson, net/http and other
    libraries; what an executor answers is an argument of the execution ([Surroundings]).
    The streaming execution, the execution through the home control plane and the
    rewriting of requests and responses are not modelled.  Goroutines, timers and locks appear only as the atomic steps they protect;
    file and database stores are arguments.  The extraction of session identifiers from
    requests is an input.  Logging and metrics are left out.  Text of error causes is not
    rendered.

    ** Plan

    Next: model aliases, the home control plane's dispatch and the streaming execution;
    then the background refresh loop. *)
From Stdlib Require Import ZArith Lia Ascii String Bool Permutation Sorted.
From stdpp Require Import prelude gmap strings sorting.

(** ** Functional record update

    [r <| f := v |>] is the struct [r] after the assignment [r.f = v].  A record
    declares how it is rebuilt field by field ([Eta]); the setter of a field is
    derived from it. *)

Class Eta (R : Type) := eta : R → R.
Class Setter {R T : Type} (proj : R → T) := upd : (T → T) → R → R.
Arguments upd {R T} proj {_} _ _ /.

Ltac derive_setter :=
  lazymatch goal with
  | |- @Setter ?R ?T ?proj =>
      let inst := constr:(_ : Eta R) in
      let body := constr:(fun (f : T → T) (r : R) =>
        ltac:(
          let e := eval red in inst in
          let b := eval cbv beta in (e r) in
          lazymatch eval pattern (proj r) in b with
          | ?g _ => let res := eval cbv beta in (g (f (proj r))) in exact res
          end)) in
      exact body
  end.
#[export] Hint Extern 0 (Setter _) => derive_setter : typeclass_instances.

Declare Scope record_scope.
Delimit Scope record_scope with rec.
Notation "r <| f := v |>" := (upd f (λ _, v) r)
  (at level 1, f at next level, v at level 200, left associativity) : record_scope.
Open Scope record_scope.

(** ** Tactics of the development *)

(** Closes a goal by case analysis on every [if]/[match] it or its hypotheses
    test, then arithmetic or congruence. *)
Ltac split_cases :=
  repeat (simplify_eq/=; try case_match); simplify_eq/=; try done; try lia; try congruence.

(** Turns boolean tests of the code into propositions. *)
Ltac to_prop :=
  repeat match goal with
  | H : context [negb _ = true] |- _ => rewrite negb_true_iff in H
  | H : context [negb _ = false] |- _ => rewrite negb_false_iff in H
  | H : _ && _ = true |- _ => apply andb_true_iff in H as [??]
  | H : _ || _ = false |- _ => apply orb_false_iff in H as [??]
  | H : (_ <? _)%Z = true |- _ => apply Z.ltb_lt in H
  | H : (_ <? _)%Z = false |- _ => apply Z.ltb_ge in H
  | H : (_ <=? _)%Z = true |- _ => apply Z.leb_le in H
  | H : (_ <=? _)%Z = false |- _ => apply Z.leb_gt in H
  | H : (_ =? _)%Z = true |- _ => apply Z.eqb_eq in H
  | H : (_ =? _)%Z = false |- _ => apply Z.eqb_neq in H
  | H : (_ <? _)%nat = true |- _ => apply Nat.ltb_lt in H
  | H : (_ <? _)%nat = false |- _ => apply Nat.ltb_ge in H
  | H : (_ =? _)%nat = true |- _ => apply Nat.eqb_eq in H
  | H : (_ =? _)%nat = false |- _ => apply Nat.eqb_neq in H
  | H : String.eqb _ _ = true |- _ => apply String.eqb_eq in H
  | H : String.eqb _ _ = false |- _ => apply String.eqb_neq in H
  end.

(** [to_prop] for decided propositions and booleans as well. *)
Ltac reflect_bools :=
  to_prop; repeat match goal with
  | H : bool_decide _ = true |- _ => apply bool_decide_eq_true in H
  | H : bool_decide _ = false |- _ => apply bool_decide_eq_false in H
  | H : Bool.eqb _ _ = true |- _ => apply eqb_prop in H
  | H : ?a || ?b = true |- _ => apply orb_true_iff in H
  end.

Create HintDb proxy discriminated.

(** ** Stable insertion sort: the result of [sort.SliceStable], and of
    [sort.Slice] when the order is strict on the elements present *)

Section isort.
Context {A : Type} (less : A → A → bool).

(** [less] is the Go comparison; [x] may stay in front of [y] unless [y] is
    strictly smaller. *)
Fixpoint insert_by (x : A) (l : list A) : list A :=
  match l with
  | [] => [x]
  | y :: l' => if less y x then y :: insert_by x l' else x :: l
  end.

Definition sort_by (l : list A) : list A := foldr insert_by [] l.

Lemma insert_by_perm x l : insert_by x l ≡ₚ x :: l.
Proof.
  induction l as [|y l IH]; simpl; [done|].
  destruct (less y x); [|done]. rewrite IH. constructor.
Qed.

Lemma sort_by_perm l : sort_by l ≡ₚ l.
Proof. induction l as [|x l IH]; simpl; [done|]. by rewrite insert_by_perm, IH. Qed.

Lemma elem_of_sort_by x l : x ∈ sort_by l ↔ x ∈ l.
Proof. by rewrite sort_by_perm. Qed.

Lemma length_sort_by l : length (sort_by l) = length l.
Proof. apply Permutation_length, sort_by_perm. Qed.

(** [not_after x y]: [y] is not strictly smaller than [x]. *)
Definition not_after (x y : A) : Prop := less y x = false.

Lemma insert_by_hd x y l :
  not_after y x → HdRel not_after y l → HdRel not_after y (insert_by x l).
Proof. intros Hyx Hl. destruct l as [|z l]; simpl; [by constructor|].
  inversion Hl; subst. destruct (less z x); by constructor. Qed.

Lemma insert_by_sorted x l :
  (∀ a b, less a b = true → less b a = false) →
  Sorted not_after l → Sorted not_after (insert_by x l).
Proof.
  intros Hasym. induction l as [|y l IH]; simpl; intros Hs.
  { repeat constructor. }
  destruct (less y x) eqn:E.
  - inversion Hs; subst. constructor; [by apply IH|].
    apply insert_by_hd; [|done]. by apply Hasym.
  - constructor; [done|]. by constructor.
Qed.

Lemma sort_by_sorted l :
  (∀ a b, less a b = true → less b a = false) → Sorted not_after (sort_by l).
Proof. intros H. induction l; simpl; [constructor|by apply insert_by_sorted]. Qed.

(** A strict order that tells the elements apart leaves one sorted arrangement. *)
Lemma sort_by_unique l1 l2 :
  (∀ a b, less a b = true → less b a = false) →
  (∀ a b c, not_after a b → not_after b c → not_after a c) →
  (∀ a b, a ∈ l1 → b ∈ l1 → not_after a b → not_after b a → a = b) →
  l1 ≡ₚ l2 → sort_by l1 = sort_by l2.
Proof.
  intros Hasym Htrans Hanti Hp.
  assert (Transitive not_after) as Ht by (intros a b c; apply Htrans).
  eapply StronglySorted_unique_strong;
    [|apply Sorted_StronglySorted; [exact Ht|by apply sort_by_sorted]..|].
  2:{ by rewrite !sort_by_perm. }
  intros x y Hx Hy. rewrite elem_of_sort_by in Hx, Hy. rewrite <-Hp in Hy. by apply Hanti.
Qed.
End isort.

(** ** Sorting by a string key, the order of every Go [ID < ID] comparison *)

Section keyed.
Context {A : Type} (key : A → string).

Definition key_less (x y : A) : bool := String.ltb (key x) (key y).
Definition sort_by_key : list A → list A := sort_by key_less.
Definition key_le (x y : A) : Prop := String.le (key x) (key y).

Lemma string_ltb_leb s t : String.ltb s t = negb (String.leb t s).
Proof.
  unfold String.ltb, String.leb. rewrite (String.compare_antisym s t).
  by destruct (String.compare t s).
Qed.

Lemma not_after_key x y : not_after key_less x y ↔ key_le x y.
Proof.
  unfold not_after, key_less, key_le, String.le. rewrite string_ltb_leb.
  rewrite negb_false_iff. unfold Is_true. split_cases.
Qed.

Lemma key_less_asym a b : key_less a b = true → key_less b a = false.
Proof.
  unfold key_less, String.ltb. rewrite (String.compare_antisym (key a) (key b)).
  by destruct (String.compare (key b) (key a)).
Qed.

Lemma sort_by_key_sorted l : StronglySorted key_le (sort_by_key l).
Proof.
  apply Sorted_StronglySorted.
  { intros x y z ??. unfold key_le in *. etrans; eassumption. }
  assert (Sorted (not_after key_less) (sort_by_key l)) as H
    by apply sort_by_sorted, key_less_asym.
  revert H. generalize (sort_by_key l). clear l. intros l.
  induction 1 as [|x l Hs IH Hd]; constructor; [done|].
  inversion Hd; subst; constructor. by apply not_after_key.
Qed.

(** Go ranges over a map in an arbitrary order; once sorted by a key that is
    distinct on the elements, the order no longer matters. *)
Lemma sort_by_key_unique l1 l2 :
  l1 ≡ₚ l2 → NoDup (key <$> l1) → sort_by_key l1 = sort_by_key l2.
Proof.
  intros Hp Hnd.
  eapply StronglySorted_unique_strong;
    [| apply sort_by_key_sorted | apply sort_by_key_sorted |].
  2:{ unfold sort_by_key. by rewrite !sort_by_perm. }
  intros x y Hx Hy Hxy Hyx.
  unfold sort_by_key in *. rewrite elem_of_sort_by in Hx, Hy.
  rewrite <-Hp in Hy.
  assert (key x = key y) as Hk.
  { unfold key_le in *. by apply (anti_symm String.le). }
  apply list_elem_of_lookup in Hx as [i Hi]. apply list_elem_of_lookup in Hy as [j Hj].
  assert (i = j) as ->; [|congruence].
  eapply (NoDup_lookup (key <$> l1)); [done| |];
    rewrite list_lookup_fmap; [by rewrite Hi|]. rewrite Hj; simpl. by rewrite Hk.
Qed.
End keyed.

(** ** [sort.Search]: the binary search of Go's standard library *)

Fixpoint search_loop (fuel : nat) (f : nat → bool) (i j : nat) : nat :=
  match fuel with
  | O => i
  | S fuel =>
      if (i <? j)%nat then
        let h := Nat.div2 (i + j) in
        if f h then search_loop fuel f i h else search_loop fuel f (S h) j
      else i
  end.

(** The interval halves at every turn, so [n] turns are always enough. *)
Definition sort_Search (n : nat) (f : nat → bool) : nat := search_loop n f 0 n.

Definition monotone (n : nat) (f : nat → bool) : Prop :=
  ∀ i j, (i ≤ j < n)%nat → f i = true → f j = true.

Lemma search_loop_spec fuel f n i j :
  monotone n f → (i ≤ j ≤ n)%nat → (j - i ≤ fuel)%nat →
  (∀ k, (k < i)%nat → f k = false) → (∀ k, (j ≤ k < n)%nat → f k = true) →
  let r := search_loop fuel f i j in
  (i ≤ r ≤ j)%nat ∧ (∀ k, (k < r)%nat → f k = false) ∧ (∀ k, (r ≤ k < n)%nat → f k = true).
Proof.
  intros Hm. revert i j. induction fuel as [|fuel IH]; intros i j Hij Hf Hlo Hhi; simpl.
  { assert (i = j) by lia. subst. split; [lia|done]. }
  destruct (Nat.ltb_spec i j) as [Hlt|Hge].
  - assert (i ≤ Nat.div2 (i + j) < j)%nat as Hh.
    { rewrite Nat.div2_div. split; [apply Nat.div_le_lower_bound; lia|
        apply Nat.Div0.div_lt_upper_bound; lia]. }
    set (h := Nat.div2 (i + j)) in *. destruct (f h) eqn:E.
    + destruct (IH i h) as (?&?&?); try done; try lia.
      { intros k Hk. apply (Hm h k); [lia|done]. }
      split; [lia|done].
    + destruct (IH (S h) j) as (?&?&?); try done; try lia.
      { intros k Hk. destruct (f k) eqn:Ek; [|done].
        rewrite (Hm k h) in E; [done|lia|done]. }
      split; [lia|done].
  - assert (i = j) by lia. subst. split; [lia|done].
Qed.

(** On a monotone predicate the search returns the first index that satisfies it. *)
Lemma sort_Search_spec n f :
  monotone n f →
  (sort_Search n f ≤ n)%nat ∧ (∀ k, (k < sort_Search n f)%nat → f k = false) ∧
  (∀ k, (sort_Search n f ≤ k < n)%nat → f k = true).
Proof.
  intros Hm. destruct (search_loop_spec n f n 0 n) as (?&?&?); try done; try lia.
  unfold sort_Search. split; [lia|done].
Qed.

(** ** Sums of integers over a list *)

Definition zsum {A} (f : A → Z) (l : list A) : Z := foldr (λ a s, (f a + s)%Z) 0%Z l.

Lemma zsum_app {A} (f : A → Z) l1 l2 : zsum f (l1 ++ l2) = (zsum f l1 + zsum f l2)%Z.
Proof. induction l1 as [|a l IH]; simpl; [done|]. rewrite IH. lia. Qed.

Lemma zsum_perm {A} (f : A → Z) l1 l2 : l1 ≡ₚ l2 → zsum f l1 = zsum f l2.
Proof. induction 1; simpl; lia. Qed.

Lemma zsum_ext {A} (f g : A → Z) l : (∀ a, a ∈ l → f a = g a) → zsum f l = zsum g l.
Proof.
  induction l as [|a l IH]; intros H; simpl; [done|].
  rewrite IH, (H a); [done|by left|]. intros. apply H. by right.
Qed.

Lemma zsum_le {A} (f g : A → Z) l : (∀ a, a ∈ l → (f a ≤ g a)%Z) → (zsum f l ≤ zsum g l)%Z.
Proof.
  induction l as [|a l IH]; intros H; simpl; [done|].
  apply Z.add_le_mono; [by apply H; left|]. apply IH. intros. apply H. by right.
Qed.

Lemma zsum_add {A} (f g : A → Z) l : zsum (λ a, f a + g a)%Z l = (zsum f l + zsum g l)%Z.
Proof. induction l as [|a l IH]; simpl; [done|]. rewrite IH. lia. Qed.

Lemma zsum_mul {A} (c : Z) (f : A → Z) l : zsum (λ a, c * f a)%Z l = (c * zsum f l)%Z.
Proof. induction l as [|a l IH]; simpl; [lia|]. rewrite IH. lia. Qed.

Lemma zsum_const {A} (c : Z) (l : list A) : zsum (λ _, c) l = (c * Z.of_nat (length l))%Z.
Proof. induction l as [|a l IH]; simpl; [lia|]. rewrite IH. lia. Qed.

(** A sum in which exactly one element counts. *)
Lemma zsum_single {A} (key : A → string) (f : A → Z) l p :
  NoDup (key <$> l) → p ∈ l → zsum (λ a, if bool_decide (key a = key p) then f a else 0)%Z l = f p.
Proof.
  induction l as [|a l IH]; intros Hnd Hp; [by apply not_elem_of_nil in Hp|].
  simpl in *. apply NoDup_cons in Hnd as [Hn Hnd]. apply elem_of_cons in Hp as [->|Hp].
  - rewrite bool_decide_eq_true_2 by done. rewrite (zsum_ext _ (λ _, 0%Z)).
    { rewrite zsum_const. lia. }
    intros b Hb. rewrite bool_decide_eq_false_2; [done|]. intros E. apply Hn.
    rewrite <-E. by apply list_elem_of_fmap_2.
  - rewrite bool_decide_eq_false_2, IH by (try done; intros E; apply Hn; rewrite E;
      by apply list_elem_of_fmap_2). lia.
Qed.

(** Elements with equal keys are equal when the keys are distinct. *)
Lemma key_inj_NoDup {A} (key : A → string) l a b :
  NoDup (key <$> l) → a ∈ l → b ∈ l → key a = key b → a = b.
Proof.
  intros Hnd [i Hi]%list_elem_of_lookup [j Hj]%list_elem_of_lookup E.
  assert (i = j) as ->; [|congruence].
  eapply (NoDup_lookup (key <$> l)); [done| |];
    rewrite list_lookup_fmap; [by rewrite Hi|]. rewrite Hj; simpl. by rewrite E.
Qed.

Lemma zsum_elem {A} (f : A → Z) l a :
  (∀ b, b ∈ l → (0 ≤ f b)%Z) → a ∈ l → (f a ≤ zsum f l)%Z.
Proof.
  intros Hf. induction l as [|b l IH]; intros Ha; [by apply not_elem_of_nil in Ha|]. simpl.
  assert (0 ≤ zsum f l)%Z.
  { transitivity (zsum (λ _ : A, 0%Z) l); [rewrite zsum_const; lia|].
    apply zsum_le. intros. apply Hf. by right. }
  pose proof (Hf b (list_elem_of_here _ _)).
  apply elem_of_cons in Ha as [->|Ha]; [lia|].
  specialize (IH (λ b Hb, Hf b (list_elem_of_further _ _ _ Hb)) Ha). lia.
Qed.

Lemma zsum_swap {A B} (f : A → B → Z) l k :
  zsum (λ a, zsum (f a) k) l = zsum (λ b, zsum (λ a, f a b) l) k.
Proof.
  induction l as [|a l IH]; simpl.
  - rewrite zsum_const. lia.
  - rewrite IH, <-zsum_add. done.
Qed.

(** ** Left-to-right stable insertion sort

    [sort.SliceStable] on up to 20 elements inserts each element from the right,
    moving it left while it is smaller; this matters for a comparison that is
    not transitive.  (On longer inputs Go merges blocks of 20, with the same
    result whenever the comparison is a strict weak order.) *)
Section stable.
Context {A : Type} (less : A → A → bool).

(** [acc] is the sorted prefix, last element first. *)
Fixpoint insert_right (x : A) (acc : list A) : list A :=
  match acc with
  | [] => [x]
  | y :: acc' => if less x y then y :: insert_right x acc' else x :: acc
  end.

Definition sort_stable (l : list A) : list A :=
  reverse (fold_left (λ acc x, insert_right x acc) l []).

Lemma insert_right_perm x l : insert_right x l ≡ₚ x :: l.
Proof.
  induction l as [|y l IH]; simpl; [done|].
  destruct (less x y); [|done]. rewrite IH. constructor.
Qed.

Lemma sort_stable_perm l : sort_stable l ≡ₚ l.
Proof.
  unfold sort_stable. rewrite reverse_Permutation.
  assert (∀ acc, fold_left (λ acc x, insert_right x acc) l acc ≡ₚ l ++ acc) as H.
  { induction l as [|x l IH]; intros acc; simpl; [done|].
    rewrite IH, insert_right_perm. symmetry. apply Permutation_middle. }
  by rewrite H, app_nil_r.
Qed.
End stable.

(** ** Grouping by an integer key, as [m[k] = append(m[k], x)] in a loop *)

Definition group_by {A} (key : A → Z) (l : list A) : gmap Z (list A) :=
  fold_left (λ m x, <[key x := default [] (m !! key x) ++ [x]]> m) l ∅.

Lemma group_by_lookup {A} (key : A → Z) l p :
  group_by key l !! p = match filter (λ x, key x = p) l with [] => None | l' => Some l' end.
Proof.
  unfold group_by.
  induction l as [|x l IH] using rev_ind; [done|].
  rewrite fold_left_app, filter_app. cbn [fold_left]. rewrite filter_cons, filter_nil.
  case_decide as E.
  - subst p. rewrite lookup_insert_eq, IH. by destruct (filter _ l).
  - rewrite lookup_insert_ne, app_nil_r by done. exact IH.
Qed.

(** The elements of a list that satisfy a boolean test, first one. *)
Fixpoint find_first {A} (f : A → bool) (l : list A) : option A :=
  match l with [] => None | x :: l => if f x then Some x else find_first f l end.

Lemma find_first_Some {A} (f : A → bool) l x : find_first f l = Some x → x ∈ l ∧ f x = true.
Proof.
  induction l as [|y l IH]; simpl; [done|]. destruct (f y) eqn:E.
  - intros [= <-]. split; [by left|done].
  - intros [??]%IH. split; [by right|done].
Qed.

Lemma find_first_None {A} (f : A → bool) l : find_first f l = None ↔ ∀ x, x ∈ l → f x = false.
Proof.
  induction l as [|y l IH]; simpl.
  - split; [|done]. intros _ x Hx. by apply not_elem_of_nil in Hx.
  - destruct (f y) eqn:E.
    + split; [done|]. intros H. rewrite H in E; [done|by left].
    + rewrite IH. split; intros H x; [intros [->|?]%elem_of_cons; [done|by apply H]|].
      intros. apply H. by right.
Qed.

(** ** Filters that keep all or nothing *)

Lemma filter_all {A} (P : A → Prop) `{∀ x, Decision (P x)} (l : list A) : (∀ x, x ∈ l → P x) → filter P l = l.
Proof.
  induction l as [|x l IH]; intros Hl; [done|]. rewrite filter_cons_True by (apply Hl; left).
  f_equal. apply IH. intros y Hy. apply Hl. by right.
Qed.
Lemma filter_none {A} (P : A → Prop) `{∀ x, Decision (P x)} (l : list A) : (∀ x, x ∈ l → ¬ P x) → filter P l = [].
Proof.
  induction l as [|x l IH]; intros Hl; [done|]. rewrite filter_cons_False by (apply Hl; left).
  apply IH. intros y Hy. apply Hl. by right.
Qed.
Lemma elem_of_concat {A} (x : A) (ls : list (list A)) : x ∈ concat ls ↔ ∃ l, x ∈ l ∧ l ∈ ls.
Proof. rewrite list_elem_of_In, in_concat. setoid_rewrite list_elem_of_In. naive_solver. Qed.
Lemma elem_of_option_list {A} (x : A) o : x ∈ option_list o ↔ o = Some x.
Proof. destruct o; simpl; rewrite ?list_elem_of_singleton, ?elem_of_nil; naive_solver. Qed.
