(* ===== verification/GoStd.v ===== *)
(** * The part of the Go language and standard library the router relies on

    Machine integers at their width, byte strings and the [strings]/[strconv]
    functions the sources call, [time.Time]/[time.Duration], binary64 floats and
    the dynamically typed values ([any]) decoded from JSON credential files.

    Conventions.
    - An [int]/[int64] is a [Z]; arithmetic that can leave the range is wrapped
      ([wrap64]) where the code does not saturate or test.
    - A string is its bytes ([String.string]).  White space follows
      [unicode.IsSpace] on UTF-8; letter case is exact on ASCII and on the
      non-ASCII letters whose lower case or fold is ASCII (the Kelvin sign, the
      dotted capital I and the long s); other letters keep their case.
    - A [time.Time] is the number of nanoseconds since 0001-01-01 UTC, so Go's
      zero time is [0]; a [time.Duration] is a number of nanoseconds.  Monotonic
      clock readings are not represented ([Round(0)] is the identity).
    - A [float64] is Rocq's executable binary64 ([SpecFloat], no axioms). *)
From Stdlib Require Import ZArith Lia Ascii String Bool SpecFloat.
From stdpp Require Import prelude gmap strings pretty.
From S2P Require Import Prelude.
Local Open Scope string_scope.
Local Open Scope list_scope.
Local Open Scope Z_scope.

(** ** Machine integers *)

Definition MaxInt64 : Z := 9223372036854775807.
Definition MinInt64 : Z := -9223372036854775808.
Definition in_int64 (z : Z) : bool := (MinInt64 <=? z) && (z <=? MaxInt64).
Definition is_int64 (z : Z) : Prop := MinInt64 ≤ z ≤ MaxInt64.
Definition is_uint64 (z : Z) : Prop := 0 ≤ z < 2 ^ 64.
Definition wrap64 (z : Z) : Z := (z + 2 ^ 63) mod 2 ^ 64 - 2 ^ 63.
Definition wrapu64 (z : Z) : Z := z mod 2 ^ 64.

(** A Go conversion to [int32]/[int16]/[int8] keeps the low bits. *)
Definition wrap_bits (w : Z) (z : Z) : Z := (z + 2 ^ (w - 1)) mod 2 ^ w - 2 ^ (w - 1).

Lemma wrap64_id z : is_int64 z → wrap64 z = z.
Proof. unfold is_int64, wrap64, MinInt64, MaxInt64. intros H. rewrite Z.mod_small; lia. Qed.

Lemma wrap64_range z : is_int64 (wrap64 z).
Proof.
  unfold is_int64, wrap64, MinInt64, MaxInt64.
  pose proof (Z.mod_pos_bound (z + 2 ^ 63) (2 ^ 64) ltac:(lia)). lia.
Qed.

Lemma wrapu64_range z : is_uint64 (wrapu64 z).
Proof. unfold is_uint64, wrapu64. apply Z.mod_pos_bound. lia. Qed.

Lemma wrapu64_id z : is_uint64 z → wrapu64 z = z.
Proof. unfold is_uint64, wrapu64. intros. by apply Z.mod_small. Qed.

Lemma in_int64_spec z : in_int64 z = true ↔ is_int64 z.
Proof. unfold in_int64, is_int64. rewrite andb_true_iff, !Z.leb_le. done. Qed.

(** ** Strings *)

Definition bytes (s : string) : list ascii := list_ascii_of_string s.
Definition of_bytes (l : list ascii) : string := string_of_list_ascii l.
Definition byte_val (c : ascii) : Z := Z.of_N (N_of_ascii c).

Lemma of_bytes_bytes s : of_bytes (bytes s) = s.
Proof. apply string_of_list_ascii_of_string. Qed.
Lemma bytes_of_bytes l : bytes (of_bytes l) = l.
Proof. apply list_ascii_of_string_of_list_ascii. Qed.

(** Byte length of the white-space rune a byte string starts with, 0 if none. *)
Definition space_len (l : list ascii) : nat :=
  match byte_val <$> take 3 l with
  | b :: r =>
      if ((9 <=? b) && (b <=? 13)) || (b =? 32) then 1%nat else
      match r with
      | c :: r' =>
          if (b =? 194) && ((c =? 133) || (c =? 160)) then 2%nat else
          match r' with
          | [d] =>
              if ((b =? 225) && (c =? 154) && (d =? 128))
                 || ((b =? 226) && (c =? 128) &&
                     (((128 <=? d) && (d <=? 138)) || (d =? 168) || (d =? 169) || (d =? 175)))
                 || ((b =? 226) && (c =? 129) && (d =? 159))
                 || ((b =? 227) && (c =? 128) && (d =? 128)) then 3%nat else 0%nat
          | _ => 0%nat
          end
      | [] => 0%nat
      end
  | [] => 0%nat
  end.

(** The same for the rune a reversed byte string ends with. *)
Definition rspace_len (l : list ascii) : nat :=
  if (space_len (take 1 l) =? 1)%nat then 1
  else if (space_len (rev (take 2 l)) =? 2)%nat then 2
  else if (space_len (rev (take 3 l)) =? 3)%nat then 3 else 0.

Fixpoint trim_by (len : list ascii → nat) (skip : nat) (l : list ascii) : list ascii :=
  match l with
  | [] => []
  | _ :: l' =>
      match skip with
      | S k => trim_by len k l'
      | O => match len l with O => l | S k => trim_by len k l' end
      end
  end.

(** [strings.TrimSpace] *)
Definition TrimSpace (s : string) : string :=
  of_bytes (rev (trim_by rspace_len 0 (rev (trim_by space_len 0 (bytes s))))).

(** Trimming stops where no white space starts, at a suffix of the input. *)
Lemma trim_by_stops len l skip : trim_by len skip l = [] ∨ len (trim_by len skip l) = O.
Proof.
  revert skip. induction l as [|c l IH]; intros skip; [by left|]. simpl.
  destruct skip as [|k]; [|apply IH]. destruct (len (c :: l)) eqn:E; [by right|apply IH].
Qed.
Lemma trim_by_suffix len l skip : trim_by len skip l `suffix_of` l.
Proof.
  revert skip. induction l as [|c l IH]; intros skip; [done|]. simpl.
  destruct skip as [|k]; [destruct (len (c :: l)); [done|]|]; by apply suffix_cons_r.
Qed.
Lemma trim_by_none len l : len l = O → trim_by len 0 l = l.
Proof. destruct l as [|c l]; [done|]. simpl. by intros ->. Qed.

(** A prefix that starts with white space makes the whole start with it. *)
Lemma space_len_prefix l k : space_len l ≠ O → space_len (l ++ k) ≠ O.
Proof.
  unfold space_len. destruct l as [|a [|b [|c l]]]; [done| | |by rewrite <-!app_comm_cons].
  - simpl. destruct (_ || _); [by destruct k as [|? [|? ?]]|done].
  - simpl. destruct (_ || _); [by destruct k|]. destruct (_ && _); [by destruct k|done].
Qed.

Lemma TrimSpace_idemp s : TrimSpace (TrimSpace s) = TrimSpace s.
Proof.
  unfold TrimSpace. rewrite bytes_of_bytes. set (l := trim_by space_len 0 (bytes s)).
  set (r := trim_by rspace_len 0 (rev l)).
  assert (trim_by space_len 0 (rev r) = rev r) as ->.
  { destruct (decide (rev r = [])) as [->|Hr]; [done|]. apply trim_by_none.
    destruct (trim_by_suffix rspace_len (rev l) 0) as [k Hk]. fold r in Hk.
    assert (l = rev r ++ rev k) as Hl by (rewrite <-rev_app_distr, <-Hk; by rewrite rev_involutive).
    destruct (trim_by_stops space_len (bytes s) 0) as [He|He]; fold l in He.
    - rewrite He in Hl. symmetry in Hl. by apply app_nil in Hl as [? _].
    - destruct (decide (space_len (rev r) = O)) as [|Hn]; [done|].
      apply (space_len_prefix _ (rev k)) in Hn. by rewrite <-Hl in Hn. }
  rewrite rev_involutive. f_equal. f_equal.
  destruct (trim_by_stops rspace_len (rev l) 0) as [He|He]; fold r in He; [by rewrite He|by apply trim_by_none].
Qed.

Definition lower_byte (c : ascii) : ascii :=
  let n := byte_val c in
  if (65 <=? n) && (n <=? 90) then ascii_of_N (Z.to_N (n + 32)) else c.

(** Rune-wise mapping: [special] recognises the non-ASCII letters that map to
    an ASCII one and says how many bytes they take. *)
Fixpoint map_letters (special : list ascii → option (nat * ascii)) (skip : nat)
    (l : list ascii) : list ascii :=
  match l with
  | [] => []
  | c :: l' =>
      match skip with
      | S k => map_letters special k l'
      | O => match special l with
             | Some (n, c') => c' :: map_letters special (n - 1) l'
             | None => lower_byte c :: map_letters special 0 l'
             end
      end
  end.

Definition lower_special (l : list ascii) : option (nat * ascii) :=
  match byte_val <$> take 3 l with
  | b :: c :: r =>
      if (b =? 226) && (c =? 132) && bool_decide (r = [170]) then Some (3%nat, "k"%char)
      else if (b =? 196) && (c =? 176) then Some (2%nat, "i"%char) else None
  | _ => None
  end.

Definition fold_special (l : list ascii) : option (nat * ascii) :=
  match byte_val <$> take 3 l with
  | b :: c :: r =>
      if (b =? 226) && (c =? 132) && bool_decide (r = [170]) then Some (3%nat, "k"%char)
      else if (b =? 197) && (c =? 191) then Some (2%nat, "s"%char) else None
  | _ => None
  end.

(** [strings.ToLower] and [strings.EqualFold] *)
Definition ToLower (s : string) : string := of_bytes (map_letters lower_special 0 (bytes s)).
Definition fold_case (s : string) : string := of_bytes (map_letters fold_special 0 (bytes s)).
Definition EqualFold (s t : string) : bool := String.eqb (fold_case s) (fold_case t).

(** [strings.HasPrefix], [strings.HasSuffix], [strings.Contains] *)
Definition HasPrefix (s p : string) : bool := String.prefix p s.
Definition HasSuffix (s p : string) : bool :=
  let n := String.length s in let k := String.length p in
  (k <=? n)%nat && String.eqb (String.substring (n - k) k s) p.
Definition Contains (s p : string) : bool :=
  match String.index 0 p s with Some _ => true | None => false end.

(** Index of the last byte equal to [c]: [strings.LastIndex] on one byte. *)
Fixpoint last_index_aux (c : ascii) (l : list ascii) (i : nat) (acc : option nat) : option nat :=
  match l with
  | [] => acc
  | x :: l' => last_index_aux c l' (S i) (if Ascii.eqb x c then Some i else acc)
  end.
Definition LastIndexByte (s : string) (c : ascii) : option nat := last_index_aux c (bytes s) 0 None.

(** Go slicing [s[i:j]] for [i ≤ j ≤ len(s)]. *)
Definition slice (s : string) (i j : nat) : string := String.substring i (j - i) s.

(** [strings.Split] on one byte *)
Fixpoint split_aux (c : ascii) (l : list ascii) (cur : list ascii) : list string :=
  match l with
  | [] => [of_bytes (rev cur)]
  | x :: l' => if Ascii.eqb x c then of_bytes (rev cur) :: split_aux c l' [] else split_aux c l' (x :: cur)
  end.
Definition SplitByte (s : string) (c : ascii) : list string := split_aux c (bytes s) [].

(** *** Byte-list characterisations of the string functions *)

Lemma bytes_app s t : bytes (s +:+ t) = bytes s ++ bytes t.
Proof. induction s as [|a s IH]; simpl; [done|]. by rewrite <-IH. Qed.

Lemma length_bytes s : length (bytes s) = String.length s.
Proof. induction s as [|a s IH]; simpl; [done|]. by rewrite <-IH. Qed.

Lemma bytes_inj s t : bytes s = bytes t → s = t.
Proof. intros H. by rewrite <-(of_bytes_bytes s), H, of_bytes_bytes. Qed.

Lemma bytes_substring i n s : bytes (String.substring i n s) = take n (drop i (bytes s)).
Proof.
  revert i n. induction s as [|a s IH]; intros [|i] [|n]; simpl; try done.
  f_equal. apply (IH 0%nat).
Qed.

Lemma bytes_slice s i j : bytes (slice s i j) = take (j - i) (drop i (bytes s)).
Proof. apply bytes_substring. Qed.

Lemma HasSuffix_spec s p : HasSuffix s p = true ↔ ∃ l, bytes s = l ++ bytes p.
Proof.
  unfold HasSuffix. rewrite andb_true_iff, Nat.leb_le, String.eqb_eq. split.
  - intros [Hk He]. exists (take (String.length s - String.length p) (bytes s)).
    rewrite <-He at 2. rewrite bytes_substring. rewrite (take_ge (drop _ _)).
    { by rewrite take_drop. }
    rewrite length_drop, length_bytes. lia.
  - intros [l Hl].
    assert (String.length s = length l + String.length p)%nat as Hlen.
    { rewrite <-!length_bytes, Hl, length_app. lia. }
    split; [lia|]. apply bytes_inj. rewrite bytes_substring, Hl.
    replace (String.length s - String.length p)%nat with (length l) by lia.
    rewrite drop_app_length, take_ge; [done|]. rewrite length_bytes. lia.
Qed.

Lemma last_index_aux_spec c l i acc :
  match last_index_aux c l i acc with
  | Some k => acc = Some k ∧ c ∉ l ∨ ∃ l1 l2, l = l1 ++ c :: l2 ∧ c ∉ l2 ∧ k = (i + length l1)%nat
  | None => acc = None ∧ c ∉ l
  end.
Proof.
  revert i acc. induction l as [|x l IH]; intros i acc; simpl.
  { destruct acc; [left|]; split; auto; apply not_elem_of_nil. }
  specialize (IH (S i) (if Ascii.eqb x c then Some i else acc)).
  destruct (Ascii.eqb_spec x c) as [->|Hne].
  - destruct (last_index_aux c l (S i) (Some i)) as [k|]; [|naive_solver].
    destruct IH as [[[= ->] Hn]|(l1&l2&->&Hn&->)]; right.
    + exists [], l. simpl. split_and!; auto.
    + exists (c :: l1), l2. simpl. split_and!; auto.
  - destruct (last_index_aux c l (S i) acc) as [k|].
    + destruct IH as [[-> Hn]|(l1&l2&->&Hn&->)]; [left|right].
      * split; [done|]. rewrite elem_of_cons. naive_solver.
      * exists (x :: l1), l2. simpl. split_and!; auto.
    + destruct IH as [-> Hn]. split; [done|]. rewrite elem_of_cons. naive_solver.
Qed.

Lemma last_split_unique {A} (c : A) l1 l2 l1' l2' :
  l1 ++ c :: l2 = l1' ++ c :: l2' → c ∉ l2 → c ∉ l2' → l1 = l1' ∧ l2 = l2'.
Proof.
  revert l1'. induction l1 as [|x l1 IH]; intros [|y l1'] H Hn Hn'; simplify_eq/=.
  - done.
  - exfalso. apply Hn. apply elem_of_app. right. apply elem_of_cons. by left.
  - exfalso. apply Hn'. apply elem_of_app. right. apply elem_of_cons. by left.
  - destruct (IH l1') as [-> ->]; done.
Qed.

Lemma LastIndexByte_Some s c l1 l2 :
  bytes s = l1 ++ c :: l2 → c ∉ l2 → LastIndexByte s c = Some (length l1).
Proof.
  intros Hs Hn. unfold LastIndexByte.
  pose proof (last_index_aux_spec c (bytes s) 0 None) as H. rewrite Hs in *.
  destruct (last_index_aux c _ 0 None) as [k|].
  - destruct H as [[? _]|(m1&m2&He&Hm&->)]; [done|].
    destruct (last_split_unique c l1 l2 m1 m2) as [-> _]; done.
  - destruct H as [_ H]. exfalso. apply H. apply elem_of_app. right. apply elem_of_cons. by left.
Qed.

Lemma LastIndexByte_None s c : LastIndexByte s c = None → c ∉ bytes s.
Proof.
  unfold LastIndexByte. pose proof (last_index_aux_spec c (bytes s) 0 None) as H.
  destruct (last_index_aux c _ 0 None); naive_solver.
Qed.

Lemma LastIndexByte_inv s c i :
  LastIndexByte s c = Some i → ∃ l1 l2, bytes s = l1 ++ c :: l2 ∧ c ∉ l2 ∧ length l1 = i.
Proof.
  unfold LastIndexByte. pose proof (last_index_aux_spec c (bytes s) 0 None) as H.
  intros E. rewrite E in H. destruct H as [[? _]|(l1&l2&?&?&->)]; [done|]. exists l1, l2. done.
Qed.

(** ** [strconv] *)

Definition digit_val (c : ascii) : option Z :=
  let n := byte_val c in if (48 <=? n) && (n <=? 57) then Some (n - 48) else None.

Fixpoint digits_val (acc : Z) (l : list ascii) : option Z :=
  match l with
  | [] => Some acc
  | c :: l' => match digit_val c with Some d => digits_val (10 * acc + d) l' | None => None end
  end.

(** [strconv.ParseInt(s, 10, 64)]; also [strconv.Atoi] (a 64-bit [int]) and
    [json.Number.Int64].  [None] is a syntax or range error. *)
Definition ParseInt64 (s : string) : option Z :=
  let '(neg, ds) := match bytes s with
                    | "-"%char :: l => (true, l)
                    | "+"%char :: l => (false, l)
                    | l => (false, l)
                    end in
  match ds with
  | [] => None
  | _ => match digits_val 0 ds with
         | Some v => let z := if (neg : bool) then - v else v in if in_int64 z then Some z else None
         | None => None
         end
  end.

(** [strconv.ParseBool] *)
Definition ParseBool (s : string) : option bool :=
  if bool_decide (s ∈ ["1"; "t"; "T"; "TRUE"; "true"; "True"]) then Some true
  else if bool_decide (s ∈ ["0"; "f"; "F"; "FALSE"; "false"; "False"]) then Some false
  else None.

(** [strconv.FormatInt(z, 10)] *)
Definition FormatInt (z : Z) : string := pretty z.

Lemma ParseInt64_range s z : ParseInt64 s = Some z → is_int64 z.
Proof.
  unfold ParseInt64.
  match goal with |- context [let '(_, _) := ?e in _] => destruct e as [neg ds] end.
  destruct ds; [done|]. destruct (digits_val 0 (a :: ds)) as [v|]; [|done].
  intros H. case_match eqn:E; [|done]. simplify_eq. by apply in_int64_spec.
Qed.

(** ** Time *)

Definition time := Z.
Definition duration := Z.
Definition zero_time : time := 0.
Definition Nanosecond : duration := 1.
Definition Second : duration := 1000000000.
Definition Minute : duration := 60 * Second.
Definition Hour : duration := 60 * Minute.

Definition IsZero (t : time) : bool := t =? 0.
Definition After (t u : time) : bool := u <? t.
Definition Before (t u : time) : bool := t <? u.
Definition TimeEqual (t u : time) : bool := t =? u.
Definition Add (t : time) (d : duration) : time := t + d.

(** [t.Sub(u)] saturates at the extreme durations. *)
Definition Sub (t u : time) : duration :=
  let d := t - u in if d <? MinInt64 then MinInt64 else if MaxInt64 <? d then MaxInt64 else d.

(** [time.Unix(sec, 0)] and [time.UnixMilli(ms)] *)
Definition unix_offset : Z := 62135596800.
Definition Unix (sec : Z) : time := (unix_offset + sec) * Second.
Definition UnixMilli (ms : Z) : time := unix_offset * Second + ms * 1000000.
(** [t.Unix()] *)
Definition UnixSeconds (t : time) : Z := t / Second - unix_offset.

Lemma Sub_range t u : is_int64 (Sub t u).
Proof. unfold Sub, is_int64, MinInt64, MaxInt64. split_cases; to_prop; lia. Qed.

(** ** binary64 *)

Definition float64 := spec_float.
Definition prec : Z := 53.
Definition emax : Z := 1024.
Definition f_of_Z (z : Z) : float64 := binary_normalize prec emax z 0 false.
Definition f_add : float64 → float64 → float64 := SFadd prec emax.
Definition f_sub : float64 → float64 → float64 := SFsub prec emax.
Definition f_div : float64 → float64 → float64 := SFdiv prec emax.
Definition f_abs : float64 → float64 := SFabs.
Definition f_ltb : float64 → float64 → bool := SFltb.
Definition f_leb : float64 → float64 → bool := SFleb.
Definition f_eqb : float64 → float64 → bool := SFeqb.
Definition f_gtb (x y : float64) : bool := SFltb y x.
Definition f_is_nan (x : float64) : bool := match x with S754_nan => true | _ => false end.
Definition f_is_inf (x : float64) : bool := match x with S754_infinity _ => true | _ => false end.

(** Truncation towards zero; [None] for NaN and infinities. *)
Definition f_trunc (x : float64) : option Z :=
  match x with
  | S754_zero _ => Some 0
  | S754_finite s m e =>
      let a := if 0 <=? e then Z.pos m * 2 ^ e else Z.pos m / 2 ^ (- e) in
      Some (if s then - a else a)
  | _ => None
  end.

(** [math.Trunc(x) == x] for a finite [x] *)
Definition f_integral (x : float64) : bool :=
  match x with
  | S754_zero _ => true
  | S754_finite _ m e => (0 <=? e) || (Z.pos m mod 2 ^ (- e) =? 0)
  | _ => false
  end.

(** The conversion [int64(x)]; a value out of range gives the most negative
    integer, as the amd64 conversion instruction does. *)
Definition f_to_int64 (x : float64) : Z :=
  match f_trunc x with
  | Some z => if in_int64 z then z else MinInt64
  | None => MinInt64
  end.

(** [d.Hours()]: whole hours plus the remaining nanoseconds as a fraction. *)
Definition DurationHours (d : duration) : float64 :=
  f_add (f_of_Z (Z.quot d Hour)) (f_div (f_of_Z (Z.rem d Hour)) (f_of_Z Hour)).

(** ** Dynamically typed values *)

(** The dynamic types the sources switch on; [VOther] is any other type. *)
Inductive goval :=
| VNil
| VBool (b : bool)
| VInt (z : Z)
| VInt8 (z : Z)
| VInt16 (z : Z)
| VInt32 (z : Z)
| VInt64 (z : Z)
| VUint (z : Z)
| VUint8 (z : Z)
| VUint16 (z : Z)
| VUint32 (z : Z)
| VUint64 (z : Z)
| VFloat64 (f : float64)
| VFloat32 (f : float64)
| VNumber (s : string)
| VString (s : string)
| VBytes (s : string)
| VMap (m : list (string * goval))
| VStrMap (m : list (string * string))
| VList (l : list goval)
| VStrings (l : list string)
| VOther.

(** A [map[string]any] decoded from JSON, as its key/value pairs. *)
Abbreviation gomap := (list (string * goval)).

Fixpoint assoc {A} (k : string) (m : list (string * A)) : option A :=
  match m with
  | [] => None
  | (k', v) :: m' => if String.eqb k k' then Some v else assoc k m'
  end.

(** A Go map read [m[k]] of a missing key gives the zero value. *)
Definition attr (m : gmap string string) (k : string) : string := default "" (m !! k).

(** The values JSON decoding and the callers can store: integers at their width. *)
Definition goval_ok (v : goval) : Prop :=
  match v with
  | VInt z | VInt64 z => is_int64 z
  | VInt8 z => -128 ≤ z < 128
  | VInt16 z => -32768 ≤ z < 32768
  | VInt32 z => - 2 ^ 31 ≤ z < 2 ^ 31
  | VUint z | VUint64 z => is_uint64 z
  | VUint8 z => 0 ≤ z < 256
  | VUint16 z => 0 ≤ z < 65536
  | VUint32 z => 0 ≤ z < 2 ^ 32
  | _ => True
  end.

(** [parseBoolAny] and [parseIntAny] of types.go *)
Definition parseBoolAny (v : goval) : option bool :=
  match v with
  | VBool b => Some b
  | VString s =>
      let t := TrimSpace s in
      if String.eqb t "" then None else ParseBool t
  | VFloat64 f => Some (negb (f_eqb f (f_of_Z 0)))
  | VNumber s => (λ z, negb (z =? 0)) <$> ParseInt64 s
  | _ => None
  end.

Definition parseIntAny (v : goval) : option Z :=
  match v with
  | VInt z | VInt32 z | VInt64 z => Some z
  | VFloat64 f => Some (f_to_int64 f)
  | VNumber s => ParseInt64 s
  | VString s =>
      let t := TrimSpace s in
      if String.eqb t "" then None else ParseInt64 t
  | _ => None
  end.

Example TrimSpace_ex : TrimSpace "  a b  " = "a b".
Proof. vm_compute. reflexivity. Qed.
Example ToLower_ex : ToLower "OpenAI-Compat" = "openai-compat".
Proof. vm_compute. reflexivity. Qed.
Example ParseInt_ex : ParseInt64 "-0012" = Some (-12).
Proof. vm_compute. reflexivity. Qed.
Example Hours_ex : f_eqb (DurationHours (90 * Minute)) (f_div (f_of_Z 3) (f_of_Z 2)) = true.
Proof. vm_compute. reflexivity. Qed.
