(* ===== verification/Json.v ===== *)
(** * JSON as [encoding/json] reads it

    [Valid] and [Unmarshal] into an [any]: the grammar of RFC 8259 with the
    package's limits (nesting of at most 10000, a number must fit a binary64) and
    its repairs (invalid UTF-8 and lone surrogates become U+FFFD).  Objects keep
    their members in order of appearance; a Go map keeps the last member of a
    name, see [as_any]. *)
From Stdlib Require Import ZArith Lia Ascii String Bool.
From stdpp Require Import prelude strings.
From S2P Require Import Prelude GoStd.
Local Open Scope string_scope.
Local Open Scope list_scope.
Local Open Scope Z_scope.

Inductive json :=
| JNull
| JBool (b : bool)
| JNumber (literal : string)
| JString (s : string)
| JArray (items : list json)
| JObject (members : list (string * json)).

Definition byte (z : Z) : ascii := ascii_of_N (Z.to_N z).
(** The list without its first byte when that byte is [c]. *)
Definition eat (c : ascii) (l : list ascii) : option (list ascii) :=
  match l with
  | x :: r => if Ascii.eqb x c then Some r else None
  | [] => None
  end.
Definition option_bind {A B} (x : option A) (f : A → option B) : option B :=
  match x with Some a => f a | None => None end.
Definition is_ws (c : ascii) : bool := bool_decide (byte_val c ∈ [32; 9; 10; 13]).
Fixpoint skip_ws (l : list ascii) : list ascii :=
  match l with
  | c :: r => if is_ws c then skip_ws r else l
  | [] => []
  end.

(** ** UTF-8 *)

Definition cont (c : ascii) : bool := (128 <=? byte_val c) && (byte_val c <=? 191).

(** Bytes of the well-formed rune at the head, 0 when it is malformed. *)
Definition rune_len (l : list ascii) : nat :=
  match l with
  | [] => 0%nat
  | a :: r =>
      let b0 := byte_val a in
      if b0 <? 128 then 1%nat else
      match r with
      | b :: r2 =>
          let b1 := byte_val b in
          if (194 <=? b0) && (b0 <=? 223) then (if cont b then 2%nat else 0%nat) else
          match r2 with
          | c :: r3 =>
              let low := if b0 =? 224 then 160 else 128 in
              let high := if b0 =? 237 then 159 else 191 in
              if (224 <=? b0) && (b0 <=? 239)
              then (if (low <=? b1) && (b1 <=? high) && cont c then 3%nat else 0%nat)
              else match r3 with
              | d :: _ =>
                  let low := if b0 =? 240 then 144 else 128 in
                  let high := if b0 =? 244 then 143 else 191 in
                  if (240 <=? b0) && (b0 <=? 244) && (low <=? b1) && (b1 <=? high) && cont c && cont d
                  then 4%nat else 0%nat
              | [] => 0%nat
              end
          | [] => 0%nat
          end
      | [] => 0%nat
      end
  end.

Definition encode_rune (u : Z) : list ascii :=
  if u <? 128 then [byte u]
  else if u <? 2048 then [byte (192 + u / 64); byte (128 + u mod 64)]
  else if u <? 65536 then [byte (224 + u / 4096); byte (128 + (u / 64) mod 64); byte (128 + u mod 64)]
  else [byte (240 + u / 262144); byte (128 + (u / 4096) mod 64);
        byte (128 + (u / 64) mod 64); byte (128 + u mod 64)].
Definition replacement : list ascii := encode_rune 65533.

(** ** Strings *)

Definition hex_val (c : ascii) : option Z :=
  let n := byte_val c in
  if (48 <=? n) && (n <=? 57) then Some (n - 48)
  else if (97 <=? n) && (n <=? 102) then Some (n - 87)
  else if (65 <=? n) && (n <=? 70) then Some (n - 55) else None.

Definition hex4 (l : list ascii) : option (Z * list ascii) :=
  match l with
  | a :: b :: c :: d :: r =>
      match hex_val a, hex_val b, hex_val c, hex_val d with
      | Some a, Some b, Some c, Some d => Some (4096 * a + 256 * b + 16 * c + d, r)
      | _, _, _, _ => None
      end
  | _ => None
  end.

(** The low half of a surrogate pair, when one follows the high half [u]. *)
Definition low_half (u : Z) (l : list ascii) : option (Z * list ascii) :=
  match option_bind (option_bind (eat "\" l) (eat "u")) hex4 with
  | Some (v, r) =>
      if (55296 <=? u) && (u <? 56320) && (56320 <=? v) && (v <? 57344)
      then Some (65536 + (u - 55296) * 1024 + (v - 56320), r) else None
  | None => None
  end.

Definition simple_escape (c : ascii) : option ascii :=
  let n := byte_val c in
  if bool_decide (n ∈ [34; 92; 47]) then Some c
  else if n =? 98 then Some (byte 8) else if n =? 102 then Some (byte 12)
  else if n =? 110 then Some (byte 10) else if n =? 114 then Some (byte 13)
  else if n =? 116 then Some (byte 9) else None.

(** The bytes of a string literal after its opening quote, and what follows it. *)
Fixpoint string_body (fuel : nat) (l : list ascii) : option (list ascii * list ascii) :=
  match fuel with
  | O => None
  | S fuel =>
      let after out r := match string_body fuel r with
                         | Some (s, rest) => Some (out ++ s, rest)
                         | None => None
                         end in
      match l with
      | [] => None
      | c :: r =>
          if byte_val c =? 34 then Some ([], r)
          else if byte_val c =? 92 then
            match r with
            | [] => None
            | e :: r' =>
                if byte_val e =? 117 then
                  match hex4 r' with
                  | None => None
                  | Some (u, r2) =>
                      if (55296 <=? u) && (u <? 57344) then
                        match low_half u r2 with
                        | Some (cp, r3) => after (encode_rune cp) r3
                        | None => after replacement r2
                        end
                      else after (encode_rune u) r2
                  end
                else match simple_escape e with Some b => after [b] r' | None => None end
            end
          else if byte_val c <? 32 then None
          else match rune_len l with
               | O => after replacement r
               | n => after (take n l) (drop n l)
               end
      end
  end.

(** ** Numbers *)

Definition is_digit (c : ascii) : bool := (48 <=? byte_val c) && (byte_val c <=? 57).
Fixpoint digits (l : list ascii) : list ascii * list ascii :=
  match l with
  | c :: r => if is_digit c then let '(ds, rest) := digits r in (c :: ds, rest) else ([], l)
  | [] => ([], [])
  end.

(** sign, integer digits, fraction digits, exponent sign and digits, rest *)
Record number := mkNumber {
  n_neg : bool; n_int : list ascii; n_frac : list ascii; n_exp_neg : bool; n_exp : list ascii }.

(** An optional sign, and whether it is a minus. *)
Definition sign (plus : bool) (l : list ascii) : bool * list ascii :=
  match eat "-" l with
  | Some r => (true, r)
  | None => match eat "+" l with Some r => if plus then (false, r) else (false, l) | None => (false, l) end
  end.

(** [0], or digits that do not start with [0] *)
Definition int_part (l : list ascii) : list ascii * list ascii :=
  match eat "0" l with
  | Some r => (["0"%char], r)
  | None => digits l
  end.

Definition frac_part (l : list ascii) : option (list ascii * list ascii) :=
  match eat "." l with
  | Some r => let '(ds, r) := digits r in match ds with [] => None | _ => Some (ds, r) end
  | None => Some ([], l)
  end.

Definition exp_part (l : list ascii) : option (bool * list ascii * list ascii) :=
  match (match eat "e" l with Some r => Some r | None => eat "E" l end) with
  | Some r =>
      let '(neg, r) := sign true r in
      let '(ds, r) := digits r in
      match ds with [] => None | _ => Some (neg, ds, r) end
  | None => Some (false, [], l)
  end.

Definition number_body (l : list ascii) : option (number * list ascii) :=
  let '(neg, l) := sign false l in
  let '(int, l) := int_part l in
  match int with
  | [] => None
  | _ =>
      match frac_part l with
      | None => None
      | Some (frac, l) =>
          match exp_part l with
          | None => None
          | Some (eneg, es, l) => Some (mkNumber neg int frac eneg es, l)
          end
      end
  end.

(** The literal rounds to an infinity: [strconv.ParseFloat] reports a range error. *)
Definition number_overflows (n : number) : bool :=
  let value l := default 0 (digits_val 0 l) in
  let mantissa := value (n_int n ++ n_frac n) in
  let k := (if n_exp_neg n then - value (n_exp n) else value (n_exp n)) - Z.of_nat (length (n_frac n)) in
  let width := Z.log2 mantissa / 3 + 1 in    (* no fewer than the number of decimal digits *)
  let bound := 2 ^ 1024 - 2 ^ 970 in
  if mantissa <=? 0 then false
  else if width + k <=? 308 then false
  else if 310 <? k then true
  else if 0 <=? k then bound <=? mantissa * 10 ^ k
  else bound * 10 ^ (- k) <=? mantissa.

(** ** Values *)

Definition literal (name : string) (l : list ascii) : option (list ascii) :=
  let n := length (bytes name) in
  if bool_decide (take n l = bytes name) then Some (drop n l) else None.

Definition maxNestingDepth : nat := Z.to_nat 10000.

(** [strict] also rejects numbers outside binary64, as [Unmarshal] does. *)
Fixpoint value (strict : bool) (fuel depth : nat) (l : list ascii) : option (json * list ascii) :=
  match fuel with
  | O => None
  | S fuel =>
      match skip_ws l with
      | [] => None
      | c :: r =>
          let b := byte_val c in
          if b =? 34 then
            match string_body (S (length r)) r with
            | Some (s, r) => Some (JString (of_bytes s), r)
            | None => None
            end
          else if b =? 123 then
            match depth with
            | O => None
            | S depth =>
                match eat "}" (skip_ws r) with
                | Some r => Some (JObject [], r)
                | None => match members strict fuel depth r with
                       | Some (ms, r) => Some (JObject ms, r)
                       | None => None
                       end
                end
            end
          else if b =? 91 then
            match depth with
            | O => None
            | S depth =>
                match eat "]" (skip_ws r) with
                | Some r => Some (JArray [], r)
                | None => match items strict fuel depth r with
                       | Some (vs, r) => Some (JArray vs, r)
                       | None => None
                       end
                end
            end
          else if b =? 116 then (λ r, (JBool true, r)) <$> literal "true" (c :: r)
          else if b =? 102 then (λ r, (JBool false, r)) <$> literal "false" (c :: r)
          else if b =? 110 then (λ r, (JNull, r)) <$> literal "null" (c :: r)
          else match number_body (c :: r) with
               | Some (n, rest) =>
                   if strict && number_overflows n then None
                   else Some (JNumber (of_bytes (take (length (c :: r) - length rest) (c :: r))), rest)
               | None => None
               end
      end
  end
with items (strict : bool) (fuel depth : nat) (l : list ascii) : option (list json * list ascii) :=
  match fuel with
  | O => None
  | S fuel =>
      match value strict fuel depth l with
      | None => None
      | Some (v, r) =>
          match eat "," (skip_ws r) with
          | Some r => match items strict fuel depth r with
                      | Some (vs, r) => Some (v :: vs, r)
                      | None => None
                      end
          | None => (λ r, ([v], r)) <$> eat "]" (skip_ws r)
          end
      end
  end
with members (strict : bool) (fuel depth : nat) (l : list ascii)
    : option (list (string * json) * list ascii) :=
  match fuel with
  | O => None
  | S fuel =>
      match option_bind (eat "034" (skip_ws l)) (λ r, string_body (S (length r)) r) with
      | None => None
      | Some (key, r) =>
          match option_bind (eat ":" (skip_ws r)) (value strict fuel depth) with
          | None => None
          | Some (v, r) =>
              match eat "," (skip_ws r) with
              | Some r => match members strict fuel depth r with
                          | Some (ms, r) => Some ((of_bytes key, v) :: ms, r)
                          | None => None
                          end
              | None => (λ r, ([(of_bytes key, v)], r)) <$> eat "}" (skip_ws r)
              end
          end
      end
  end.

Definition parse (strict : bool) (s : string) : option json :=
  match value strict (3 * String.length s + 1) maxNestingDepth (bytes s) with
  | Some (v, r) => match skip_ws r with [] => Some v | _ => None end
  | None => None
  end.

(** What a Go map holds after decoding: the last member of each name. *)
Fixpoint last_members {A} (ms : list (string * A)) : list (string * A) :=
  match ms with
  | [] => []
  | (k, v) :: ms => if bool_decide (k ∈ ms.*1) then last_members ms else (k, v) :: last_members ms
  end.
Fixpoint as_any (v : json) : json :=
  match v with
  | JArray vs => JArray (map as_any vs)
  | JObject ms => JObject (last_members (map (λ kv, (kv.1, as_any kv.2)) ms))
  | _ => v
  end.

(** [json.Valid] and [json.Unmarshal] into an [any] *)
Definition Valid (s : string) : bool := bool_decide (is_Some (parse false s)).
Definition Unmarshal (s : string) : option json := as_any <$> parse true s.

(** ** The fuel is enough

    Every reader leaves less than it was given, so the fuel of [parse] (three per
    byte and one) never runs out: more of it changes nothing. *)

Lemma skip_ws_length l : (length (skip_ws l) ≤ length l)%nat.
Proof. induction l as [|c l IH]; simpl; [lia|]. case_match; simpl; lia. Qed.

Ltac lengths :=
  repeat match goal with
  | H : context [skip_ws ?l] |- _ =>
      lazymatch goal with
      | _ : (length (skip_ws l) ≤ length l)%nat |- _ => fail
      | _ => pose proof (skip_ws_length l)
      end
  end; rewrite ?length_drop, ?length_app in *; simpl in *; try lia.

Lemma eat_length c l r : eat c l = Some r → length l = S (length r).
Proof. destruct l as [|x l]; simpl; [done|]. case_match; [|done]. by intros [= <-]. Qed.

Lemma hex4_length l u r : hex4 l = Some (u, r) → (length r < length l)%nat.
Proof. unfold hex4. intros H. repeat case_match; simplify_eq/=; lia. Qed.

Lemma low_half_length u l v r : low_half u l = Some (v, r) → (length r < length l)%nat.
Proof.
  unfold low_half. intros H.
  destruct (eat "\" l) as [l1|] eqn:E1; simpl in H; [|done].
  destruct (eat "u" l1) as [l2|] eqn:E2; simpl in H; [|done].
  destruct (hex4 l2) as [[w l3]|] eqn:E3; [|done]. case_match; [|done]. simplify_eq.
  apply eat_length in E1, E2. apply hex4_length in E3. lia.
Qed.

Lemma string_body_length f l s r : string_body f l = Some (s, r) → (length r < length l)%nat.
Proof.
  revert l s r. induction f as [|f IH]; intros l s r; simpl; [done|].
  intros H. repeat (case_match; simplify_eq/=); try lia;
    repeat match goal with
    | H : string_body f _ = Some _ |- _ => apply IH in H
    | H : hex4 _ = Some _ |- _ => apply hex4_length in H
    | H : low_half _ _ = Some _ |- _ => apply low_half_length in H
    end; lengths.
Qed.

Lemma digits_length l ds r : digits l = (ds, r) → length l = (length ds + length r)%nat.
Proof.
  revert ds r. induction l as [|c l IH]; intros ds r; simpl; [by intros [= <- <-]|].
  case_match; [|by intros [= <- <-]]. destruct (digits l) as [ds' r'] eqn:E.
  intros [= <- <-]. simpl. by rewrite (IH ds' r').
Qed.

Lemma sign_length b l n r : sign b l = (n, r) → (length r ≤ length l)%nat.
Proof.
  unfold sign. intros H. repeat (case_match; simplify_eq/=); try lia;
    match goal with H : eat _ _ = Some _ |- _ => apply eat_length in H end; lia.
Qed.

Lemma int_part_length l ds r : int_part l = (ds, r) → length l = (length ds + length r)%nat.
Proof.
  unfold int_part. destruct (eat "0" l) as [l'|] eqn:E; [|apply digits_length].
  intros [= <- <-]. apply eat_length in E. simpl. lia.
Qed.

Lemma frac_part_length l ds r : frac_part l = Some (ds, r) → (length r ≤ length l)%nat.
Proof.
  unfold frac_part. destruct (eat "." l) as [l'|] eqn:E; [|by intros [= <- <-]].
  apply eat_length in E. destruct (digits l') as [es r'] eqn:Ed. apply digits_length in Ed.
  destruct es; intros; simplify_eq. simpl in *. lia.
Qed.

Lemma exp_part_length l n es r : exp_part l = Some (n, es, r) → (length r ≤ length l)%nat.
Proof.
  unfold exp_part. intros H.
  destruct (match eat "e" l with Some r => Some r | None => eat "E" l end) as [l'|] eqn:E;
    [|by simplify_eq].
  assert (length l = S (length l')) as Hl.
  { destruct (eat "e" l) eqn:E'; simplify_eq; [by apply eat_length in E'|by apply eat_length in E]. }
  destruct (sign true l') as [neg l2] eqn:Es. apply sign_length in Es.
  destruct (digits l2) as [ds l3] eqn:Ed. apply digits_length in Ed.
  destruct ds; simplify_eq. simpl in *. lia.
Qed.

Lemma number_body_length l n r : number_body l = Some (n, r) → (length r < length l)%nat.
Proof.
  unfold number_body. destruct (sign false l) as [neg l1] eqn:E1. apply sign_length in E1.
  destruct (int_part l1) as [[|i int] l2] eqn:E2; [done|]. apply int_part_length in E2.
  destruct (frac_part l2) as [[frac l3]|] eqn:E3; [|done]. apply frac_part_length in E3.
  destruct (exp_part l3) as [[[eneg es] l4]|] eqn:E4; [|done]. apply exp_part_length in E4.
  intros [= <- <-]. simpl in *. lia.
Qed.

Lemma literal_length name l r : name ≠ "" → literal name l = Some r → (length r < length l)%nat.
Proof.
  unfold literal. intros Hn. case_bool_decide as H; [|done]. intros [= <-].
  apply (f_equal length) in H. rewrite length_take in H. rewrite length_drop.
  assert (0 < length (bytes name))%nat by (destruct name; [done|]; simpl; lia). lia.
Qed.

Lemma string_body_fuel f g l :
  (length l < f)%nat → (length l < g)%nat → string_body f l = string_body g l.
Proof.
  revert g l. induction f as [|f IH]; intros [|g] l Hf Hg; simpl; try lia.
  assert (∀ r, (length r < length l)%nat → string_body f r = string_body g r) as Hr.
  { intros r Hl. apply IH; lia. }
  destruct l as [|c l]; [done|]. clear IH. simpl in *.
  repeat (case_match; simplify_eq/=; try done);
    match goal with
    | H1 : string_body f ?r = _, H2 : string_body g ?r = _ |- _ =>
        rewrite Hr in H1; [congruence|]
    end;
    repeat match goal with
    | H : hex4 _ = Some _ |- _ => apply hex4_length in H
    | H : low_half _ _ = Some _ |- _ => apply low_half_length in H
    end; lengths.
Qed.

Arguments string_body : simpl never.
Arguments number_body : simpl never.
Arguments literal : simpl never.

(** Each reader leaves strictly less than it was given. *)
Lemma value_length strict f :
  (∀ depth l v r, value strict f depth l = Some (v, r) → (length r < length l)%nat) ∧
  (∀ depth l v r, items strict f depth l = Some (v, r) → (length r < length l)%nat) ∧
  (∀ depth l v r, members strict f depth l = Some (v, r) → (length r < length l)%nat).
Proof.
  induction f as [|f (IHv & IHi & IHm)]; [done|]. split_and!; intros depth l v r; simpl.
  - pose proof (skip_ws_length l) as Hl. destruct (skip_ws l) as [|c l'] eqn:E; [done|]. simpl in Hl.
    destruct (_ =? 34).
    { destruct (string_body _ l') as [[s r1]|] eqn:E1; [|done].
      apply string_body_length in E1. intros [= <- <-]. lia. }
    destruct (_ =? 123).
    { destruct depth as [|depth]; [done|]. pose proof (skip_ws_length l').
      destruct (eat "}" _) as [r1|] eqn:E1.
      - apply eat_length in E1. intros [= <- <-]. lia.
      - destruct (members strict f depth l') as [[ms r1]|] eqn:E2; [|done].
        apply IHm in E2. intros [= <- <-]. lia. }
    destruct (_ =? 91).
    { destruct depth as [|depth]; [done|]. pose proof (skip_ws_length l').
      destruct (eat "]" _) as [r1|] eqn:E1.
      - apply eat_length in E1. intros [= <- <-]. lia.
      - destruct (items strict f depth l') as [[ms r1]|] eqn:E2; [|done].
        apply IHi in E2. intros [= <- <-]. lia. }
    do 3 (destruct (_ =? _);
      [intros (r1&E1&[= -> ->])%fmap_Some; apply literal_length in E1; [simpl in E1; lia|done]|]).
    destruct (number_body (c :: l')) as [[n r1]|] eqn:E1; [|done]. apply number_body_length in E1.
    destruct (strict && _); [done|]. intros [= <- <-]. simpl in E1. lia.
  - destruct (value strict f depth l) as [[v1 r1]|] eqn:E1; [|done]. apply IHv in E1.
    destruct (eat "," _) as [r2|] eqn:E2.
    + apply eat_length in E2. destruct (items strict f depth r2) as [[vs r3]|] eqn:E3; [|done].
      apply IHi in E3. intros [= <- <-]. lengths.
    + intros (r3&E3&[= -> ->])%fmap_Some. apply eat_length in E3. lengths.
  - destruct (eat "034" _) as [r0|] eqn:E0; simpl; [|done]. apply eat_length in E0.
    destruct (string_body _ r0) as [[k r1]|] eqn:E1; [|done]. apply string_body_length in E1.
    destruct (eat ":" _) as [r2|] eqn:E2; simpl; [|done]. apply eat_length in E2.
    destruct (value strict f depth r2) as [[v2 r3]|] eqn:E3; [|done]. apply IHv in E3.
    destruct (eat "," _) as [r4|] eqn:E4.
    + apply eat_length in E4. destruct (members strict f depth r4) as [[ms r5]|] eqn:E5; [|done].
      apply IHm in E5. intros [= <- <-]. lengths.
    + intros (r5&E5&[= -> ->])%fmap_Some. apply eat_length in E5. lengths.
Qed.

(** Enough fuel is as good as any other amount. *)
Lemma value_fuel strict f :
  (∀ g depth l, (3 * length l < f)%nat → (3 * length l < g)%nat →
     value strict f depth l = value strict g depth l) ∧
  (∀ g depth l, (3 * length l + 1 < f)%nat → (3 * length l + 1 < g)%nat →
     items strict f depth l = items strict g depth l) ∧
  (∀ g depth l, (3 * length l < f)%nat → (3 * length l < g)%nat →
     members strict f depth l = members strict g depth l).
Proof.
  induction f as [|f (IHv & IHi & IHm)].
  { split_and!; intros; lia. }
  split_and!; intros [|g] depth l Hf Hg; try lia; simpl.
  - pose proof (skip_ws_length l) as Hl. destruct (skip_ws l) as [|c l'] eqn:E; [done|]. simpl in Hl.
    assert (∀ d, items strict f d l' = items strict g d l') as Hi by (intros; apply IHi; lia).
    assert (∀ d, members strict f d l' = members strict g d l') as Hm by (intros; apply IHm; lia).
    destruct depth as [|d]; [done|]. by rewrite (Hi d), (Hm d).
  - rewrite (IHv g depth l) by lia.
    destruct (value strict g depth l) as [[v1 r1]|] eqn:E1; [|done].
    apply value_length in E1. destruct (eat "," _) as [r2|] eqn:E2; [|done].
    apply eat_length in E2. rewrite (IHi g depth r2); [done| |]; lengths.
  - destruct (eat "034" _) as [r0|] eqn:E0; simpl; [|done]. apply eat_length in E0.
    destruct (string_body _ r0) as [[k r1]|] eqn:E1; [|done]. apply string_body_length in E1.
    destruct (eat ":" _) as [r2|] eqn:E2; simpl; [|done]. apply eat_length in E2.
    assert ((3 * length r2 < f) ∧ 3 * length r2 < g)%nat as [??] by (split; lengths).
    rewrite (IHv g depth r2) by lia.
    destruct (value strict g depth r2) as [[v2 r3]|] eqn:E3; [|done]. apply value_length in E3.
    destruct (eat "," _) as [r4|] eqn:E4; [|done]. apply eat_length in E4.
    rewrite (IHm g depth r4); [done| |]; lengths.
Qed.

(** [parse] reads with as much fuel as it could ever use. *)
Lemma parse_fuel strict s f :
  (3 * String.length s < f)%nat →
  parse strict s = match value strict f maxNestingDepth (bytes s) with
                   | Some (v, r) => match skip_ws r with [] => Some v | _ => None end
                   | None => None
                   end.
Proof.
  intros Hf. unfold parse. destruct (value_fuel strict f) as [H _].
  rewrite (H (3 * String.length s + 1)%nat); [done| |]; rewrite length_bytes; lia.
Qed.

(** An apostrophe for a quotation mark, to write documents in strings. *)
Definition quoted (s : string) : string :=
  of_bytes (map (λ c, if Ascii.eqb c "'" then "034"%char else c) (bytes s)).
Example parse_ex :
  Unmarshal (quoted " {'a': [1, -2.5e3, true, null], 'b':'x\u0041\n'} ")
  = Some (JObject [("a", JArray [JNumber "1"; JNumber "-2.5e3"; JBool true; JNull]);
                   ("b", JString ("xA" +:+ of_bytes [byte 10]))]).
Proof. vm_compute. reflexivity. Qed.
Example parse_bad : (Valid "[1,]", Valid "01", Valid "1e999", Unmarshal "1e999") = (false, false, true, None).
Proof. vm_compute. reflexivity. Qed.
