(* ===== verification/Thinking.v ===== *)
(** * Thinking configuration: suffix parsing, conversion and validation

    Models [internal/thinking]: [suffix.go] (Module [Suffix]), [convert.go]
    (Module [Convert]), the suffix/configuration helpers of [apply.go] and
    [validate.go] (Module [Validate]).  Error messages (free text for the
    client) are not represented; error codes and models are. *)
From Stdlib Require Import ZArith Lia Ascii String Bool.
From stdpp Require Import prelude strings.
From S2P Require Import Prelude GoStd.
Local Open Scope string_scope.
Local Open Scope list_scope.
Local Open Scope Z_scope.

(** ** Types (types.go) *)

Inductive ThinkingMode := ModeBudget | ModeLevel | ModeNone | ModeAuto.
#[export] Instance ThinkingMode_eq_dec : EqDecision ThinkingMode.
Proof. solve_decision. Defined.

Abbreviation ThinkingLevel := string (only parsing).
Definition LevelNone : string := "none".
Definition LevelAuto : string := "auto".
Definition LevelMinimal : string := "minimal".
Definition LevelLow : string := "low".
Definition LevelMedium : string := "medium".
Definition LevelHigh : string := "high".
Definition LevelXHigh : string := "xhigh".
Definition LevelMax : string := "max".

Record ThinkingConfig := mkConfig { Mode : ThinkingMode; Budget : Z; Level : string }.
#[export] Instance ThinkingConfig_eta : Eta ThinkingConfig :=
  λ c, mkConfig (Mode c) (Budget c) (Level c).

(** The zero value [ThinkingConfig{}]. *)
Definition emptyConfig : ThinkingConfig := mkConfig ModeBudget 0 "".

Record SuffixResult := mkSuffix { ModelName : string; HasSfx : bool; RawSuffix : string }.

(** ** Suffix parsing (suffix.go) *)
Module Suffix.

Definition ParseSuffix (model : string) : SuffixResult :=
  match LastIndexByte model "("%char with
  | None => mkSuffix model false ""
  | Some lastOpen =>
      if HasSuffix model ")" then
        mkSuffix (slice model 0 lastOpen) true
          (slice model (S lastOpen) (String.length model - 1))
      else mkSuffix model false ""
  end.

Definition ParseNumericSuffix (rawSuffix : string) : option Z :=
  if String.eqb rawSuffix "" then None else
  match ParseInt64 rawSuffix with
  | None => None
  | Some value => if value <? 0 then None else Some value
  end.

Definition ParseSpecialSuffix (rawSuffix : string) : option ThinkingMode :=
  if String.eqb rawSuffix "" then None else
  let l := ToLower rawSuffix in
  if String.eqb l "none" then Some ModeNone
  else if String.eqb l "auto" || String.eqb l "-1" then Some ModeAuto
  else None.

Definition ParseLevelSuffix (rawSuffix : string) : option string :=
  if String.eqb rawSuffix "" then None else
  let l := ToLower rawSuffix in
  if String.eqb l "minimal" then Some LevelMinimal
  else if String.eqb l "low" then Some LevelLow
  else if String.eqb l "medium" then Some LevelMedium
  else if String.eqb l "high" then Some LevelHigh
  else if String.eqb l "xhigh" then Some LevelXHigh
  else if String.eqb l "max" then Some LevelMax
  else None.

(** [parseSuffixToConfig] of apply.go (provider and model are only logged). *)
Definition parseSuffixToConfig (rawSuffix : string) : ThinkingConfig :=
  match ParseSpecialSuffix rawSuffix with
  | Some ModeNone => mkConfig ModeNone 0 ""
  | Some ModeAuto => mkConfig ModeAuto (-1) ""
  | _ =>
      match ParseLevelSuffix rawSuffix with
      | Some level => mkConfig ModeLevel 0 level
      | None =>
          match ParseNumericSuffix rawSuffix with
          | Some budget =>
              if budget =? 0 then mkConfig ModeNone 0 "" else mkConfig ModeBudget budget ""
          | None => emptyConfig
          end
      end
  end.

Definition hasThinkingConfig (config : ThinkingConfig) : bool :=
  negb (bool_decide (Mode config = ModeBudget)) || negb (Budget config =? 0)
    || negb (String.eqb (Level config) "").

Definition HasThinkingSuffix (model : string) : bool :=
  let result := ParseSuffix model in
  HasSfx result && hasThinkingConfig (parseSuffixToConfig (RawSuffix result)).

End Suffix.
Export Suffix.

(** ** Level/budget conversion (convert.go) *)
Module Convert.

Definition levelToBudgetMap : list (string * Z) :=
  [("none", 0); ("auto", -1); ("minimal", 512); ("low", 1024); ("medium", 8192);
   ("high", 24576); ("xhigh", 32768); ("max", 128000)].

Definition ConvertLevelToBudget (level : string) : option Z :=
  assoc (ToLower level) levelToBudgetMap.

Definition ThresholdMinimal : Z := 512.
Definition ThresholdLow : Z := 1024.
Definition ThresholdMedium : Z := 8192.
Definition ThresholdHigh : Z := 24576.

Definition ConvertBudgetToLevel (budget : Z) : option string :=
  if budget <? -1 then None
  else if budget =? -1 then Some LevelAuto
  else if budget =? 0 then Some LevelNone
  else if budget <=? ThresholdMinimal then Some LevelMinimal
  else if budget <=? ThresholdLow then Some LevelLow
  else if budget <=? ThresholdMedium then Some LevelMedium
  else if budget <=? ThresholdHigh then Some LevelHigh
  else Some LevelXHigh.

Definition HasLevel (levels : list string) (target : string) : bool :=
  existsb (λ level, EqualFold (TrimSpace level) target) levels.

Definition MapToClaudeEffort (level : string) (supportsMax : bool) : option string :=
  let level := ToLower (TrimSpace level) in
  if String.eqb level "" then None
  else if String.eqb level "minimal" then Some "low"
  else if String.eqb level "low" || String.eqb level "medium" || String.eqb level "high"
    then Some level
  else if String.eqb level "xhigh" || String.eqb level "max" then
    Some (if supportsMax then "max" else "high")
  else if String.eqb level "auto" then Some "high"
  else None.

End Convert.
Export Convert.

(** ** Model capabilities (registry.ThinkingSupport, registry.ModelInfo) *)

Record ThinkingSupport := mkSupport
  { Min : Z; Max : Z; ZeroAllowed : bool; DynamicAllowed : bool; Levels : list string }.

(** The fields of [registry.ModelInfo] the validation reads. *)
Record ModelInfo := mkModelInfo
  { MI_ID : string; MI_Type : string; MI_UserDefined : bool; MI_Thinking : option ThinkingSupport }.

Inductive ErrorCode :=
| ErrInvalidSuffix | ErrUnknownLevel | ErrThinkingNotSupported
| ErrLevelNotSupported | ErrBudgetOutOfRange | ErrProviderMismatch.

Record ThinkingError := mkThinkingError { Err_Code : ErrorCode; Err_Model : string }.

Inductive ModelCapability :=
| CapabilityUnknown | CapabilityNone | CapabilityBudgetOnly | CapabilityLevelOnly | CapabilityHybrid.
#[export] Instance ModelCapability_eq_dec : EqDecision ModelCapability.
Proof. solve_decision. Defined.

(** ** Validation (validate.go) *)
Module Validate.

Definition detectModelCapability (modelInfo : option ModelInfo) : ModelCapability :=
  match modelInfo with
  | None => CapabilityUnknown
  | Some mi =>
      match MI_Thinking mi with
      | None => CapabilityNone
      | Some support =>
          let hasBudget := (0 <? Min support) || (0 <? Max support) in
          let hasLevels := match Levels support with [] => false | _ => true end in
          if hasBudget && hasLevels then CapabilityHybrid
          else if hasBudget then CapabilityBudgetOnly
          else if hasLevels then CapabilityLevelOnly
          else CapabilityNone
      end
  end.

Definition standardLevelOrder : list string :=
  [LevelMinimal; LevelLow; LevelMedium; LevelHigh; LevelXHigh; LevelMax].

Fixpoint index_fold (level : string) (l : list string) (i : Z) : Z :=
  match l with
  | [] => -1
  | x :: l' => if EqualFold level x then i else index_fold level l' (i + 1)
  end.

Definition levelIndex (level : string) : Z := index_fold level standardLevelOrder 0.

(** [standardLevelOrder[idx]] for an index the code has found. *)
Definition levelAt (idx : Z) : string := nth (Z.to_nat idx) standardLevelOrder "".

Definition isLevelSupported (level : string) (supported : list string) : bool :=
  existsb (λ s, EqualFold level (TrimSpace s)) supported.

(** One turn of the loop of [lowestSupportedLevel]. *)
Definition lowest_step (bestIdx : Z) (s : string) : Z :=
  let idx := levelIndex (TrimSpace s) in
  if negb (idx =? -1) then
    if (bestIdx =? -1) || (idx <? bestIdx) then idx else bestIdx
  else bestIdx.

Definition lowestSupportedLevel (supported : list string) : option string :=
  let bestIdx := fold_left lowest_step supported (-1) in
  if 0 <=? bestIdx then Some (levelAt bestIdx) else None.

Definition abs (x : Z) : Z := if x <? 0 then - x else x.

Definition clamp_step (pos : Z) (best : Z * Z) (s : string) : Z * Z :=
  let '(bestIdx, bestDist) := best in
  let idx := levelIndex (TrimSpace s) in
  if negb (idx =? -1) then
    let dist := abs (pos - idx) in
    if (dist <? bestDist) || ((dist =? bestDist) && (idx <? bestIdx))
    then (idx, dist) else best
  else best.

(** The provider argument of the Go function is only logged. *)
Definition clampLevel (level : string) (modelInfo : option ModelInfo) : string :=
  let supported :=
    match modelInfo with
    | Some mi => match MI_Thinking mi with Some t => Levels t | None => [] end
    | None => []
    end in
  if (match supported with [] => true | _ => false end) || isLevelSupported level supported
  then level
  else
    let pos := levelIndex level in
    if pos =? -1 then level else
    let '(bestIdx, _) :=
      fold_left (clamp_step pos) supported (-1, Z.of_nat (length standardLevelOrder) + 1) in
    if 0 <=? bestIdx then levelAt bestIdx else level.

Definition clampBudget (value : Z) (modelInfo : option ModelInfo) : Z :=
  match mi ← modelInfo; MI_Thinking mi with
  | None => value
  | Some support =>
      if value =? -1 then value else
      let min := Min support in let max := Max support in
      if (value =? 0) && negb (ZeroAllowed support) then min
      else if (min =? 0) && (max =? 0) then value
      else if value <? min then
        if (value =? 0) && ZeroAllowed support then 0 else min
      else if max <? value then max
      else value
  end.

Definition isGeminiFamily (provider : string) : bool :=
  String.eqb provider "gemini" || String.eqb provider "antigravity".

Definition isOpenAIFamily (provider : string) : bool :=
  String.eqb provider "openai" || String.eqb provider "openai-response"
    || String.eqb provider "codex".

Definition isSameProviderFamily (from to : string) : bool :=
  if String.eqb from to then true
  else (isGeminiFamily from && isGeminiFamily to) || (isOpenAIFamily from && isOpenAIFamily to).

Definition isBudgetCapableProvider (provider : string) : bool :=
  String.eqb provider "gemini" || String.eqb provider "antigravity" || String.eqb provider "claude".

Definition convertAutoToMidRange (config : ThinkingConfig) (support : ThinkingSupport)
    : ThinkingConfig :=
  if (match Levels support with [] => false | _ => true end)
     && (Min support =? 0) && (Max support =? 0)
  then mkConfig ModeLevel 0 LevelMedium
  else
    let mid := Z.quot (wrap64 (Min support + Max support)) 2 in
    if (mid <=? 0) && ZeroAllowed support then config <| Mode := ModeNone |> <| Budget := 0 |>
    else if mid <=? 0 then config <| Mode := ModeBudget |> <| Budget := Min support |>
    else config <| Mode := ModeBudget |> <| Budget := mid |>.

(** First stage: convert between budget and level formats.  The flag says the
    budget was derived from a level. *)
Definition convertForCapability (config : ThinkingConfig) (modelInfo : option ModelInfo)
    : ThinkingConfig * bool + ThinkingError :=
  match detectModelCapability modelInfo with
  | CapabilityBudgetOnly =>
      if bool_decide (Mode config = ModeLevel) then
        if String.eqb (Level config) LevelAuto then inl (config, false)
        else match ConvertLevelToBudget (Level config) with
             | None => inr (mkThinkingError ErrUnknownLevel "")
             | Some budget => inl (mkConfig ModeBudget budget "", true)
             end
      else inl (config, false)
  | CapabilityLevelOnly =>
      if bool_decide (Mode config = ModeBudget) then
        match ConvertBudgetToLevel (Budget config) with
        | None => inr (mkThinkingError ErrUnknownLevel "")
        | Some level => inl (mkConfig ModeLevel 0 (clampLevel level modelInfo), false)
        end
      else inl (config, false)
  | _ => inl (config, false)
  end.

(** Second stage: the special levels and budgets become modes. *)
Definition normalizeSpecial (config : ThinkingConfig) : ThinkingConfig :=
  let c1 := if bool_decide (Mode config = ModeLevel) && String.eqb (Level config) LevelNone
            then mkConfig ModeNone 0 "" else config in
  let c2 := if bool_decide (Mode c1 = ModeLevel) && String.eqb (Level c1) LevelAuto
            then mkConfig ModeAuto (-1) "" else c1 in
  if bool_decide (Mode c2 = ModeBudget) && (Budget c2 =? 0)
  then c2 <| Mode := ModeNone |> <| Level := "" |> else c2.

(** Last stage: how a disabled or budget configuration is finished. *)
Definition finishConfig (config : ThinkingConfig) (modelInfo : option ModelInfo)
    (support : ThinkingSupport) (toFormat : string) : ThinkingConfig :=
  if bool_decide (Mode config = ModeNone) && String.eqb toFormat "claude" then
    if negb (ZeroAllowed support) then
      match lowestSupportedLevel (Levels support) with
      | Some lowest => mkConfig ModeLevel 0 lowest
      | None => config <| Budget := 0 |> <| Level := "" |>
      end
    else config <| Budget := 0 |> <| Level := "" |>
  else
    let c := match Mode config with
             | ModeBudget | ModeAuto | ModeNone =>
                 config <| Budget := clampBudget (Budget config) modelInfo |>
             | ModeLevel => config
             end in
    let cannotDisableLevelModel :=
      negb (ZeroAllowed support) && negb (isLevelSupported LevelNone (Levels support)) in
    if bool_decide (Mode c = ModeNone) && (match Levels support with [] => false | _ => true end)
       && ((0 <? Budget c) || cannotDisableLevelModel)
    then match lowestSupportedLevel (Levels support) with
         | Some lowest => c <| Level := lowest |>
         | None => c
         end
    else c.

Definition ValidateConfig (config : ThinkingConfig) (modelInfo : option ModelInfo)
    (fromFormat toFormat : string) (fromSuffix : bool) : ThinkingConfig + ThinkingError :=
  let fromFormat := ToLower (TrimSpace fromFormat) in
  let toFormat := ToLower (TrimSpace toFormat) in
  let model := match modelInfo with
               | Some mi => if String.eqb (MI_ID mi) "" then "unknown" else MI_ID mi
               | None => "unknown" end in
  match mi ← modelInfo; MI_Thinking mi with
  | None =>
      if bool_decide (Mode config = ModeNone) then inl config
      else inr (mkThinkingError ErrThinkingNotSupported model)
  | Some support =>
      let toCapability := detectModelCapability modelInfo in
      let toHasLevelSupport :=
        bool_decide (toCapability = CapabilityLevelOnly) || bool_decide (toCapability = CapabilityHybrid) in
      let modelFamilyMismatch :=
        match modelInfo with
        | Some mi =>
            let modelType := ToLower (TrimSpace (MI_Type mi)) in
            negb (String.eqb modelType "") &&
            ((negb (String.eqb fromFormat "") && negb (isSameProviderFamily fromFormat modelType))
             || (negb (String.eqb toFormat "") && negb (isSameProviderFamily toFormat modelType)))
        | None => false
        end in
      let allowClampUnsupported :=
        toHasLevelSupport && (negb (isSameProviderFamily fromFormat toFormat) || modelFamilyMismatch) in
      let strictBudget :=
        negb fromSuffix && negb (String.eqb fromFormat "")
          && isSameProviderFamily fromFormat toFormat && negb modelFamilyMismatch in
      match convertForCapability config modelInfo with
      | inr e => inr e
      | inl (converted, budgetDerivedFromLevel) =>
          let c := normalizeSpecial converted in
          let hasLevels := match Levels support with [] => false | _ => true end in
          let checkLevel := hasLevels && bool_decide (Mode c = ModeLevel)
                            && negb (isLevelSupported (Level c) (Levels support)) in
          let c' := if checkLevel && allowClampUnsupported
                    then c <| Level := clampLevel (Level c) modelInfo |> else c in
          if checkLevel && negb (isLevelSupported (Level c') (Levels support))
          then inr (mkThinkingError ErrLevelNotSupported "") else
          if strictBudget && bool_decide (Mode c' = ModeBudget) && negb budgetDerivedFromLevel
             && (negb (Min support =? 0) || negb (Max support =? 0))
             && ((Budget c' <? Min support) || (Max support <? Budget c')
                 || ((Budget c' =? 0) && negb (ZeroAllowed support)))
          then inr (mkThinkingError ErrBudgetOutOfRange "") else
          let c2 :=
            if bool_decide (Mode c' = ModeAuto) && negb (DynamicAllowed support) then
              let m := convertAutoToMidRange c' support in
              if bool_decide (Mode m = ModeLevel) && hasLevels
                 && negb (isLevelSupported (Level m) (Levels support))
              then m <| Level := clampLevel (Level m) modelInfo |> else m
            else c' in
          inl (finishConfig c2 modelInfo support toFormat)
      end
  end.

End Validate.
Export Validate.

(** ** Helpers of apply.go around the validation *)
Module Apply.

Definition thinkingIsFullyDisabled (config : ThinkingConfig) : bool :=
  bool_decide (Mode config = ModeNone) && (Budget config =? 0) && String.eqb (Level config) "".

Definition thinkingRequestedOff (config : ThinkingConfig) : bool :=
  bool_decide (Mode config = ModeNone)
    || (bool_decide (Mode config = ModeBudget) && (Budget config =? 0)).

Definition IsUserDefinedModel (modelInfo : option ModelInfo) : bool :=
  match modelInfo with None => true | Some mi => MI_UserDefined mi end.

Definition shouldMapConfiguredHighIntent (fromFormat toFormat : string)
    (modelInfo : option ModelInfo) : bool :=
  let fromFormat := ToLower (TrimSpace fromFormat) in
  let toFormat := ToLower (TrimSpace toFormat) in
  if negb (String.eqb fromFormat toFormat) then true else
  match modelInfo with
  | None => false
  | Some mi =>
      let modelType := ToLower (TrimSpace (MI_Type mi)) in
      negb (String.eqb modelType "") && negb (isSameProviderFamily toFormat modelType)
  end.

Definition mapConfiguredHighIntent (level : string) (modelInfo : option ModelInfo) : string :=
  match mi ← modelInfo; MI_Thinking mi with
  | None => level
  | Some support =>
      if (match Levels support with [] => true | _ => false end) then level else
      let level := ToLower (TrimSpace level) in
      let candidates :=
        if String.eqb level LevelXHigh then [LevelXHigh; LevelMax; LevelHigh]
        else if String.eqb level LevelMax then [LevelMax; LevelXHigh; LevelHigh]
        else [] in
      match List.find (λ candidate, isLevelSupported candidate (Levels support)) candidates with
      | Some candidate => candidate
      | None => level
      end
  end.

Definition normalizeUserDefinedConfig (config : ThinkingConfig) (toFormat : string)
    : ThinkingConfig :=
  if negb (bool_decide (Mode config = ModeLevel)) then config
  else if String.eqb toFormat "claude" then config
  else if negb (isBudgetCapableProvider toFormat) then config
  else match ConvertLevelToBudget (Level config) with
       | None => config
       | Some budget => mkConfig ModeBudget budget ""
       end.

Definition reasoningEffortFromConfig (config : ThinkingConfig) : string :=
  if negb (hasThinkingConfig config) then "" else
  match Mode config with
  | ModeNone => LevelNone
  | ModeAuto => LevelAuto
  | ModeLevel => ToLower (TrimSpace (Level config))
  | ModeBudget => default "" (ConvertBudgetToLevel (Budget config))
  end.

Definition reasoningEffortFromSuffix (suffix : SuffixResult) : string :=
  if HasSfx suffix then reasoningEffortFromConfig (parseSuffixToConfig (RawSuffix suffix)) else "".

End Apply.
Export Apply.

(** * Properties *)

(** ** Suffixes *)

Lemma bytes_parens name suf :
  bytes (name +:+ "(" +:+ suf +:+ ")") = bytes name ++ "("%char :: bytes suf ++ [")"%char].
Proof. by rewrite !bytes_app. Qed.

(** parsing a model name splits it without losing anything.  When a suffix
    is reported, the model is exactly [name(suffix)] and the suffix holds no
    opening parenthesis; otherwise the name is returned unchanged. *)
Theorem ParseSuffix_reconstructs model :
  let r := ParseSuffix model in
  if HasSfx r
  then model = ModelName r +:+ "(" +:+ RawSuffix r +:+ ")" ∧ "("%char ∉ bytes (RawSuffix r)
  else ModelName r = model ∧ RawSuffix r = "".
Proof.
  unfold ParseSuffix. destruct (LastIndexByte model "(") as [i|] eqn:Ei; [|done].
  destruct (HasSuffix model ")") eqn:Hs; [|done]. simpl.
  apply LastIndexByte_inv in Ei as (l1 & l2 & Hm & Hn & <-).
  apply HasSuffix_spec in Hs as [l Hl]. simpl in Hl.
  destruct l2 as [|c l2 _] using rev_ind.
  { rewrite Hl in Hm. apply app_inj_tail in Hm as [_ ?]. done. }
  assert (c = ")"%char) as ->.
  { rewrite Hl, app_comm_cons, app_assoc in Hm. by apply app_inj_tail in Hm as [_ <-]. }
  assert (bytes (slice model 0 (length l1)) = l1) as H1.
  { rewrite bytes_slice, Hm, drop_0, Nat.sub_0_r. by rewrite take_app_length. }
  assert (bytes (slice model (S (length l1)) (String.length model - 1)) = l2) as H2.
  { rewrite bytes_slice, <-length_bytes, Hm, length_app. simpl. rewrite length_app. simpl.
    replace (l1 ++ "("%char :: l2 ++ [")"%char]) with ((l1 ++ ["("%char]) ++ l2 ++ [")"%char])
      by (by rewrite <-app_assoc).
    replace (S (length l1)) with (length (l1 ++ ["("%char])) by (rewrite length_app; simpl; lia).
    rewrite drop_app_length, length_app. simpl.
    replace (length l1 + S (length l2 + 1) - 1 - (length l1 + 1))%nat with (length l2) by lia.
    by rewrite take_app_length. }
  split; [|rewrite H2; set_solver].
  apply bytes_inj. by rewrite bytes_parens, H1, H2.
Qed.

(** writing a suffix that holds no opening parenthesis after any name and
    parsing the result gives both back. *)
Theorem ParseSuffix_roundtrip name suf :
  "("%char ∉ bytes suf → ParseSuffix (name +:+ "(" +:+ suf +:+ ")") = mkSuffix name true suf.
Proof.
  intros Hn. unfold ParseSuffix.
  rewrite (LastIndexByte_Some _ _ (bytes name) (bytes suf ++ [")"%char])); [|apply bytes_parens|set_solver].
  assert (HasSuffix (name +:+ "(" +:+ suf +:+ ")") ")" = true) as ->.
  { apply HasSuffix_spec. exists (bytes name ++ "("%char :: bytes suf).
    rewrite bytes_parens. by rewrite <-app_assoc. }
  f_equal; apply bytes_inj.
  - rewrite bytes_slice, bytes_parens, drop_0, Nat.sub_0_r. by rewrite take_app_length.
  - rewrite bytes_slice, <-length_bytes, bytes_parens.
    replace (bytes name ++ "("%char :: bytes suf ++ [")"%char])
      with ((bytes name ++ ["("%char]) ++ bytes suf ++ [")"%char]) by (by rewrite <-app_assoc).
    replace (S (length (bytes name))) with (length (bytes name ++ ["("%char]))
      by (rewrite length_app; simpl; lia).
    rewrite drop_app_length, !length_app. simpl.
    replace (_ - 1 - _)%nat with (length (bytes suf)) by lia. by rewrite take_app_length.
Qed.

Lemma ParseSuffix_roundtrip_witness :
  "("%char ∉ bytes "high" ∧ ParseSuffix ("gpt-5(x)" +:+ "(" +:+ "high" +:+ ")") = mkSuffix "gpt-5(x)" true "high".
Proof.
  assert ("("%char ∉ bytes "high") as H by (vm_compute; set_solver).
  split; [exact H|exact (ParseSuffix_roundtrip "gpt-5(x)" "high" H)].
Defined.

(** ** Levels: index, lowest and nearest supported level *)

#[local] Arguments levelIndex : simpl never.
#[local] Arguments clamp_step : simpl never.
#[local] Arguments lowest_step : simpl never.
#[local] Arguments TrimSpace : simpl never.
#[local] Arguments ToLower : simpl never.
#[local] Arguments EqualFold : simpl never.
#[local] Arguments abs : simpl never.

Lemma EqualFold_sym s t : EqualFold s t = EqualFold t s.
Proof. apply String.eqb_sym. Qed.

Lemma EqualFold_trans s t u : EqualFold s t = true → EqualFold t u = true → EqualFold s u = true.
Proof. unfold EqualFold. rewrite !String.eqb_eq. congruence. Qed.

Lemma index_fold_spec level l i :
  0 ≤ i →
  index_fold level l i = -1 ∨
  ∃ x, i ≤ index_fold level l i < i + Z.of_nat (length l) ∧
       l !! Z.to_nat (index_fold level l i - i) = Some x ∧ EqualFold level x = true.
Proof.
  revert i. induction l as [|x l IH]; intros i Hi; simpl; [by left|].
  destruct (EqualFold level x) eqn:E.
  { right. exists x. rewrite Z.sub_diag. split_and!; [lia|lia|done|done]. }
  destruct (IH (i + 1)) as [->|(y&Hr&Hl&He)]; [lia|by left|].
  right. exists y. split_and!; [lia|lia| |done].
  replace (Z.to_nat (index_fold level l (i + 1) - i))
    with (S (Z.to_nat (index_fold level l (i + 1) - (i + 1)))) by lia. done.
Qed.

Lemma levelIndex_spec s :
  levelIndex s ≠ -1 → 0 ≤ levelIndex s < 6 ∧ EqualFold s (levelAt (levelIndex s)) = true.
Proof.
  intros Hn. unfold levelIndex in *.
  destruct (index_fold_spec s standardLevelOrder 0) as [?|(x&Hr&Hl&He)]; [lia|lia|].
  change (Z.of_nat (length standardLevelOrder)) with 6 in Hr.
  split; [lia|]. rewrite Z.sub_0_r in Hl.
  unfold levelAt. by rewrite (nth_lookup_Some _ _ _ _ Hl).
Qed.

Lemma levelIndex_range s : -1 ≤ levelIndex s < 6.
Proof. destruct (decide (levelIndex s = -1)) as [->|H]; [lia|]. apply levelIndex_spec in H; lia. Qed.

Lemma levelIndex_levelAt i : 0 ≤ i < 6 → levelIndex (levelAt i) = i.
Proof.
  intros H. assert (i = 0 ∨ i = 1 ∨ i = 2 ∨ i = 3 ∨ i = 4 ∨ i = 5) as Hc by lia.
  by destruct_or!; subst; vm_compute.
Qed.

Lemma isLevelSupported_true level L :
  isLevelSupported level L = true ↔ ∃ s, s ∈ L ∧ EqualFold level (TrimSpace s) = true.
Proof.
  unfold isLevelSupported. rewrite existsb_exists.
  split; intros (s&Hs&He); exists s; (split; [|done]); by apply list_elem_of_In.
Qed.

(** The index found for a listed level is itself supported. *)
Lemma levelAt_supported s L :
  s ∈ L → levelIndex (TrimSpace s) ≠ -1 →
  isLevelSupported (levelAt (levelIndex (TrimSpace s))) L = true.
Proof.
  intros Hs Hn. apply isLevelSupported_true. exists s. split; [done|].
  rewrite EqualFold_sym. by apply levelIndex_spec.
Qed.

(** [L] names at least one canonical effort level. *)
Definition has_standard (L : list string) : Prop := ∃ s, s ∈ L ∧ levelIndex (TrimSpace s) ≠ -1.

Lemma lowest_fold_spec L acc :
  -1 ≤ acc →
  let r := fold_left lowest_step L acc in
  (r = acc ∨ ∃ s, s ∈ L ∧ levelIndex (TrimSpace s) = r ∧ r ≠ -1) ∧
  (acc ≠ -1 → r ≠ -1 ∧ r ≤ acc) ∧
  (∀ s, s ∈ L → levelIndex (TrimSpace s) ≠ -1 → r ≠ -1 ∧ r ≤ levelIndex (TrimSpace s)).
Proof.
  revert acc. induction L as [|s L IH]; intros acc Hacc; simpl.
  { split_and!; [by left|done|]. intros s Hs. by apply not_elem_of_nil in Hs. }
  pose proof (levelIndex_range (TrimSpace s)) as Hr.
  set (acc' := lowest_step acc s).
  assert (-1 ≤ acc') as Hacc' by (unfold acc', lowest_step; split_cases).
  destruct (IH acc' Hacc') as (Ha & Hb & Hc). split_and!.
  - destruct Ha as [->|(s'&?&?&?)]; [|right; exists s'; split_and!; auto; set_solver].
    unfold acc', lowest_step. destruct (Z.eqb_spec (levelIndex (TrimSpace s)) (-1)); simpl; [by left|].
    destruct ((acc =? -1) || _); [right; exists s; split_and!; auto; set_solver|by left].
  - intros Hn. unfold acc', lowest_step in *.
    destruct (Z.eqb_spec (levelIndex (TrimSpace s)) (-1)); simpl in *; [by apply Hb|].
    destruct (Z.eqb_spec acc (-1)); [done|]; simpl in *.
    destruct (Z.ltb_spec (levelIndex (TrimSpace s)) acc); [|by apply Hb].
    destruct Hb; [done|]. split; [done|lia].
  - intros s' [->|Hs']%elem_of_cons Hn; [|by apply Hc]. unfold acc', lowest_step in *.
    destruct (Z.eqb_spec (levelIndex (TrimSpace s)) (-1)); simpl in *; [done|].
    destruct (Z.eqb_spec acc (-1)); simpl in *; [by apply Hb|].
    destruct (Z.ltb_spec (levelIndex (TrimSpace s)) acc); [by apply Hb|].
    destruct Hb; [done|]. split; [done|lia].
Qed.

(** The lowest level is supported, and no listed canonical level is below it. *)
Lemma lowestSupportedLevel_spec L l :
  lowestSupportedLevel L = Some l →
  isLevelSupported l L = true ∧ levelIndex l ≠ -1 ∧
  ∀ s, s ∈ L → levelIndex (TrimSpace s) ≠ -1 → levelIndex l ≤ levelIndex (TrimSpace s).
Proof.
  unfold lowestSupportedLevel. set (r := fold_left _ _ _).
  destruct (lowest_fold_spec L (-1)) as (Ha & _ & Hc); [lia|]. fold r in Ha, Hc.
  destruct (Z.leb_spec 0 r) as [Hr|]; [|done]. intros [= <-].
  destruct Ha as [?|(s&Hs&He&Hn)]; [lia|].
  assert (0 ≤ r < 6) as Hr6 by (rewrite <-He; apply levelIndex_spec; lia).
  rewrite levelIndex_levelAt by done. split_and!; [|lia|by intros; apply Hc].
  rewrite <-He. apply levelAt_supported; [done|lia].
Qed.

Lemma lowestSupportedLevel_some L : has_standard L → is_Some (lowestSupportedLevel L).
Proof.
  intros (s&Hs&Hn). unfold lowestSupportedLevel. set (r := fold_left _ _ _).
  destruct (lowest_fold_spec L (-1)) as (Ha & _ & Hc); [lia|]. fold r in Ha, Hc.
  destruct (Hc s Hs Hn) as [Hr _]. destruct Ha as [?|(s'&_&He&_)]; [done|].
  destruct (Z.leb_spec 0 r); [by eauto|].
  pose proof (levelIndex_range (TrimSpace s')). lia.
Qed.

Lemma clamp_step_cases pos best s :
  let idx := levelIndex (TrimSpace s) in let d := abs (pos - idx) in
  (idx = -1 ∧ clamp_step pos best s = best) ∨
  (idx ≠ -1 ∧ (d < best.2 ∨ d = best.2 ∧ idx < best.1) ∧ clamp_step pos best s = (idx, d)) ∨
  (idx ≠ -1 ∧ (best.2 < d ∨ d = best.2 ∧ best.1 ≤ idx) ∧ clamp_step pos best s = best).
Proof.
  destruct best as [bi bd]. unfold clamp_step. cbn zeta. simpl fst. simpl snd.
  destruct (Z.eqb_spec (levelIndex (TrimSpace s)) (-1)); simpl negb; cbn iota; [by left|].
  destruct (Z.ltb_spec (abs (pos - levelIndex (TrimSpace s))) bd); simpl orb; cbn iota;
    [right; left; auto|].
  destruct (Z.eqb_spec (abs (pos - levelIndex (TrimSpace s))) bd); simpl andb; cbn iota;
    [|right; right; split_and!; auto; lia].
  destruct (Z.ltb_spec (levelIndex (TrimSpace s)) bi); [right; left; auto|].
  right; right; auto.
Qed.

(** The state of the loop of [clampLevel]: nothing found yet, or an index with
    its distance to [pos]. *)
Definition clamp_inv (pos : Z) (b : Z * Z) : Prop :=
  b.1 = -1 ∧ 6 < b.2 ∨ 0 ≤ b.1 < 6 ∧ b.2 = abs (pos - b.1).

Lemma clamp_fold_spec pos L best :
  clamp_inv pos best → 0 ≤ pos < 6 →
  let r := fold_left (clamp_step pos) L best in
  (r = best ∨ ∃ s, s ∈ L ∧ levelIndex (TrimSpace s) = r.1 ∧ r.1 ≠ -1) ∧
  clamp_inv pos r ∧
  (r.2 < best.2 ∨ r.2 = best.2 ∧ r.1 ≤ best.1) ∧
  (∀ s, s ∈ L → levelIndex (TrimSpace s) ≠ -1 →
     r.2 < abs (pos - levelIndex (TrimSpace s)) ∨
       r.2 = abs (pos - levelIndex (TrimSpace s)) ∧ r.1 ≤ levelIndex (TrimSpace s)).
Proof.
  intros Hb Hpos. revert best Hb. induction L as [|s L IH]; intros best Hb; simpl.
  { split_and!; [by left|done|lia|]. intros s Hs. by apply not_elem_of_nil in Hs. }
  pose proof (levelIndex_range (TrimSpace s)) as Hr.
  pose proof (clamp_step_cases pos best s) as Hstep. cbn zeta in Hstep.
  set (b := clamp_step pos best s) in *. set (idx := levelIndex (TrimSpace s)) in *.
  assert (clamp_inv pos b) as Hb'.
  { destruct Hstep as [[_ ->]|[(?&_&->)|(_&_&->)]]; [done| |done].
    right. simpl. split; [lia|done]. }
  generalize (IH b Hb'). generalize (fold_left (clamp_step pos) L b) as r.
  intros r (Ha & Hi & Hc & Hd). split_and!; [|done| |].
  - destruct Ha as [->|(s'&?&?&?)]; [|right; exists s'; split_and!; auto; set_solver].
    destruct Hstep as [[_ ->]|[(?&_&->)|(_&_&->)]]; [by left| |by left].
    right. exists s. split_and!; simpl; auto. set_solver.
  - destruct Hstep as [[_ E]|[(_&?&E)|(_&_&E)]]; rewrite E in Hc; simpl in Hc; lia.
  - intros s' [->|Hs']%elem_of_cons Hn; [|by apply Hd]. fold idx in Hn |- *.
    destruct Hstep as [[? _]|[(_&_&E)|(_&?&E)]]; [done| |]; rewrite E in Hc; simpl in Hc; lia.
Qed.

(** Nearer, or as near and lower: the order by which the clamp chooses. *)
Definition nearer (level r s : string) : Prop :=
  let d := abs (levelIndex level - levelIndex r) in
  let d' := abs (levelIndex level - levelIndex s) in
  d < d' ∨ d = d' ∧ levelIndex r ≤ levelIndex s.

(** An unsupported canonical level is replaced by the best listed one. *)
Lemma clampLevel_best level mi support :
  MI_Thinking mi = Some support → has_standard (Levels support) → levelIndex level ≠ -1 →
  isLevelSupported level (Levels support) = false →
  let r := clampLevel level (Some mi) in
  isLevelSupported r (Levels support) = true ∧
  ∀ s, s ∈ Levels support → levelIndex (TrimSpace s) ≠ -1 → nearer level r (TrimSpace s).
Proof.
  intros Hmi (s0 & Hs0 & Hn0) Hn Esup. unfold clampLevel. rewrite Hmi.
  destruct (Levels support) as [|l0 L0] eqn:EL; [by apply not_elem_of_nil in Hs0|].
  rewrite <-EL in *. simpl orb. rewrite Esup.
  destruct (Z.eqb_spec (levelIndex level) (-1)); [done|].
  pose proof (levelIndex_spec level Hn) as [Hpos _].
  destruct (clamp_fold_spec (levelIndex level) (Levels support)
    (-1, Z.of_nat (length standardLevelOrder) + 1)) as (Ha & Hi & _ & Hd); [by left|done|].
  destruct (fold_left _ _ _) as [bi bd] eqn:Ef. simpl in Ha, Hi, Hd.
  assert (bi ≠ -1) as Hbi.
  { intros ->. destruct Hi as [[_ Hi]|[? _]]; simpl in *; [|lia].
    specialize (Hd s0 Hs0 Hn0). pose proof (levelIndex_range (TrimSpace s0)).
    unfold abs in Hd. case_match; to_prop; lia. }
  destruct Hi as [[? _]|[Hbr Hbd]]; simpl in *; [done|].
  destruct (Z.leb_spec 0 bi); [|lia]. cbn zeta. unfold nearer.
  rewrite levelIndex_levelAt by done. split.
  - destruct Ha as [?|(s&Hs&He&_)]; [simplify_eq; lia|]. subst bi. by apply levelAt_supported.
  - intros s Hs Hns. rewrite <-Hbd. by apply Hd.
Qed.

Lemma clampLevel_supported level mi support :
  MI_Thinking mi = Some support → has_standard (Levels support) → levelIndex level ≠ -1 →
  isLevelSupported (clampLevel level (Some mi)) (Levels support) = true.
Proof.
  intros Hmi Hst Hn. destruct (isLevelSupported level (Levels support)) eqn:E;
    [|by apply clampLevel_best].
  unfold clampLevel. rewrite Hmi, E. by destruct (Levels support).
Qed.

(** clamping a canonical level to a model that lists at least one canonical
    level gives a supported level, and no supported level is nearer; among the
    nearest ones the lower is chosen. *)
Theorem clampLevel_nearest level mi support :
  MI_Thinking mi = Some support → has_standard (Levels support) → levelIndex level ≠ -1 →
  let r := clampLevel level (Some mi) in
  isLevelSupported r (Levels support) = true ∧
  (isLevelSupported level (Levels support) = true → r = level) ∧
  (isLevelSupported level (Levels support) = false →
   ∀ s, s ∈ Levels support → levelIndex (TrimSpace s) ≠ -1 → nearer level r (TrimSpace s)).
Proof.
  intros Hmi Hst Hn r. split_and!; [by apply clampLevel_supported| |].
  - intros E. unfold r, clampLevel. rewrite Hmi, E. by destruct (Levels support).
  - intros E. by apply clampLevel_best.
Qed.

Definition gpt5 : ModelInfo := mkModelInfo "gpt-5" "openai" false
  (Some (mkSupport 0 0 false false ["low"; "medium"; "High"])).
Definition gemini25 : ModelInfo := mkModelInfo "gemini-2.5-pro" "gemini" false
  (Some (mkSupport 128 32768 false true [])).

Lemma clampLevel_nearest_witness :
  levelIndex "max" ≠ -1 ∧ isLevelSupported (clampLevel "max" (Some gpt5)) ["low"; "medium"; "High"] = true.
Proof.
  split; [by vm_compute|].
  refine (proj1 (clampLevel_nearest "max" gpt5 (mkSupport 0 0 false false ["low"; "medium"; "High"])
    eq_refl _ _)); [|by vm_compute].
  exists "low". split; [simpl; set_solver|by vm_compute].
Defined.

(** ** Soundness of the validation *)

#[local] Arguments clampLevel : simpl never.
#[local] Arguments isLevelSupported : simpl never.
#[local] Arguments lowestSupportedLevel : simpl never.

Lemma clampBudget_range value mi support :
  MI_Thinking mi = Some support → Min support ≤ Max support →
  Min support ≠ 0 ∨ Max support ≠ 0 → value ≠ 0 ∨ ZeroAllowed support = false →
  clampBudget value (Some mi) = -1 ∨
  Min support ≤ clampBudget value (Some mi) ≤ Max support.
Proof.
  intros Hmi Hle Hnz Hv. unfold clampBudget. simpl. rewrite Hmi.
  destruct (Z.eqb_spec value (-1)); [by left|].
  destruct (Z.eqb_spec value 0); simpl.
  - destruct Hv as [?| ->]; [done|]. simpl. right. lia.
  - destruct (Z.eqb_spec (Min support) 0), (Z.eqb_spec (Max support) 0); simpl;
      [lia|..]; destruct (Z.ltb_spec value (Min support)); [right; lia| |right; lia| |right; lia|];
      destruct (Z.ltb_spec (Max support) value); right; lia.
Qed.

(** What the last stage needs of the configuration it finishes. *)
Record finishable (support : ThinkingSupport) (c : ThinkingConfig) : Prop := {
  fin_level : Mode c = ModeLevel → has_standard (Levels support) →
              isLevelSupported (Level c) (Levels support) = true;
  fin_auto : Mode c = ModeAuto → DynamicAllowed support = true;
  fin_budget : Mode c = ModeBudget → Budget c ≠ 0 ∨ ZeroAllowed support = false }.

(** What a validated configuration promises to the provider applier. *)
Record applicable (support : ThinkingSupport) (c : ThinkingConfig) : Prop := {
  app_level : Mode c = ModeLevel → has_standard (Levels support) →
              isLevelSupported (Level c) (Levels support) = true;
  app_auto : Mode c = ModeAuto → DynamicAllowed support = true;
  app_budget : Mode c = ModeBudget → Min support ≤ Max support →
               Min support ≠ 0 ∨ Max support ≠ 0 →
               Budget c = -1 ∨ Min support ≤ Budget c ≤ Max support;
  app_none : Mode c = ModeNone → ZeroAllowed support = false →
             has_standard (Levels support) →
             isLevelSupported LevelNone (Levels support) = false →
             isLevelSupported (Level c) (Levels support) = true }.

Lemma has_standard_cons L : has_standard L → L ≠ [].
Proof. intros (s&Hs&_) ->. by apply not_elem_of_nil in Hs. Qed.

Lemma finishConfig_applicable mi support c to :
  MI_Thinking mi = Some support → finishable support c →
  applicable support (finishConfig c (Some mi) support to).
Proof.
  intros Hmi [Hl Ha Hb]. unfold finishConfig.
  destruct (bool_decide (Mode c = ModeNone) && String.eqb to "claude") eqn:Ec.
  { apply andb_true_iff in Ec as [Hm%bool_decide_eq_true _].
    destruct (ZeroAllowed support) eqn:Ez; simpl.
    { split; simpl; congruence. }
    destruct (lowestSupportedLevel (Levels support)) as [l|] eqn:El; simpl.
    - apply lowestSupportedLevel_spec in El as (?&?&?). split; simpl; intros; congruence.
    - split; simpl; intros; try congruence.
      destruct (lowestSupportedLevel_some (Levels support)); [done|congruence]. }
  destruct (Mode c) eqn:Em; simpl.
  - (* ModeBudget *) rewrite Em. simpl. split; simpl; rewrite ?Em; intros; try congruence.
    apply clampBudget_range; auto.
  - (* ModeLevel *) rewrite Em. simpl. split; simpl; rewrite ?Em; intros; auto; congruence.
  - (* ModeNone *) rewrite Em. simpl.
    set (b := clampBudget (Budget c) (Some mi)).
    match goal with |- context [if ?t then _ else _] => destruct t eqn:E end.
    + destruct (lowestSupportedLevel (Levels support)) as [l|] eqn:El; simpl.
      * apply lowestSupportedLevel_spec in El as (?&?&?).
        split; simpl; rewrite ?Em; intros; congruence.
      * split; simpl; rewrite ?Em; intros; try congruence.
        destruct (lowestSupportedLevel_some (Levels support)); [done|congruence].
    + split; simpl; rewrite ?Em; try congruence. intros _ Hz Hst Hn.
      rewrite Hz, Hn in E. apply has_standard_cons in Hst.
      destruct (Levels support); [done|]. simpl in E. by rewrite orb_true_r in E.
  - (* ModeAuto *) rewrite Em. simpl. split; simpl; rewrite ?Em; intros; auto; congruence.
Qed.

Lemma normalizeSpecial_budget c : Mode (normalizeSpecial c) = ModeBudget → Budget (normalizeSpecial c) ≠ 0.
Proof.
  unfold normalizeSpecial. cbn zeta.
  match goal with |- context [if bool_decide (Mode ?c2 = ModeBudget) && _ then _ else _] => set (k := c2) end.
  destruct (bool_decide (Mode k = ModeBudget) && (Budget k =? 0)) eqn:E; simpl; [done|].
  intros Hm. rewrite bool_decide_eq_true_2 in E by done. simpl in E. by apply Z.eqb_neq.
Qed.

(** The conversion of an automatic budget to a fixed one never yields an
    unsupported level nor keeps the automatic mode. *)
Lemma autoToMid_finishable mi support c :
  MI_Thinking mi = Some support →
  let m := convertAutoToMidRange c support in
  let hasLevels := match Levels support with [] => false | _ => true end in
  finishable support
    (if bool_decide (Mode m = ModeLevel) && hasLevels && negb (isLevelSupported (Level m) (Levels support))
     then m <| Level := clampLevel (Level m) (Some mi) |> else m).
Proof.
  intros Hmi. cbn zeta. unfold convertAutoToMidRange.
  destruct (_ && (Min support =? 0) && (Max support =? 0)) eqn:E.
  - simpl Mode. simpl Level. rewrite bool_decide_eq_true_2 by done.
    destruct (Levels support) as [|l L] eqn:EL; [done|]. rewrite <-EL. simpl.
    destruct (isLevelSupported LevelMedium (Levels support)) eqn:Es; simpl.
    + split; simpl; [by intros|done|done].
    + split; simpl; [intros _ Hst|done|done].
      apply clampLevel_supported; auto.
  - destruct ((_ <=? 0) && ZeroAllowed support) eqn:E2; simpl;
      [split; simpl; congruence|].
    destruct (Z.leb_spec (wrap64 (Min support + Max support) ÷ 2) 0); simpl;
      split; simpl; try congruence; intros _.
    + right. by destruct (ZeroAllowed support).
    + left. lia.
Qed.

(** every configuration the validation accepts for a thinking model can be
    applied: a level is one the model supports, the automatic mode is only kept
    when the model is dynamic, a budget is [-1] or inside the model's range, and
    a disabled configuration of a model that cannot be disabled carries a
    supported level. *)
Theorem ValidateConfig_sound config mi support fromFormat toFormat fromSuffix c :
  MI_Thinking mi = Some support →
  ValidateConfig config (Some mi) fromFormat toFormat fromSuffix = inl c →
  applicable support c.
Proof.
  intros Hmi. unfold ValidateConfig. simpl mbind. rewrite Hmi. cbn zeta.
  destruct (convertForCapability config (Some mi)) as [[conv derived]|]; [|done].
  pose proof (normalizeSpecial_budget conv) as Hnb.
  generalize dependent (normalizeSpecial conv). intros c0 Hnb.
  match goal with |- context [if ?chk && ?allow then c0 <| Level := ?l |> else c0] =>
    set (check := chk); set (c' := if check && allow then c0 <| Level := l |> else c0) end.
  assert (Mode c' = Mode c0 ∧ Budget c' = Budget c0) as [Hm' Hb'].
  { unfold c'. by destruct (check && _). }
  destruct (check && negb (isLevelSupported (Level c') (Levels support))) eqn:Echk; [done|].
  match goal with |- (if ?b then inr _ else _) = _ → _ => destruct b; [done|] end.
  intros [= <-]. apply finishConfig_applicable; [done|].
  destruct (bool_decide (Mode c' = ModeAuto) && negb (DynamicAllowed support)) eqn:Eauto.
  { by apply autoToMid_finishable. }
  split; rewrite ?Hm', ?Hb'; intros Hm; [intros Hst| |].
  - apply has_standard_cons in Hst as Hne.
    destruct (isLevelSupported (Level c') (Levels support)) eqn:Es; [done|].
    rewrite andb_true_r in Echk. unfold c' in Es. rewrite Echk in Es. simpl in Es.
    unfold check in Echk. rewrite Es, (bool_decide_eq_true_2 _ Hm) in Echk.
    by destruct (Levels support).
  - rewrite <-Hm' in Hm. rewrite (bool_decide_eq_true_2 _ Hm) in Eauto. simpl in Eauto.
    by destruct (DynamicAllowed support).
  - left. by apply Hnb.
Qed.

Lemma ValidateConfig_sound_witness :
  applicable (mkSupport 0 0 false false ["low"; "medium"; "High"]) (mkConfig ModeLevel 0 "high").
Proof.
  apply (ValidateConfig_sound (mkConfig ModeBudget 90000 "") gpt5 _ "claude" "codex" false); [reflexivity|].
  vm_compute. reflexivity.
Defined.
