(* ===== verification/AuthTypes.v ===== *)
(** * The credential record and what can be read off it

    Models [sdk/cliproxy/auth/types.go] (the [Auth], [ModelState], [QuotaState]
    and [CapacityState] structs, cloning, the ring of recent requests, the
    per-credential overrides), [status.go], [classification.go] and the token
    accessors of [conductor_refresh.go].

    A pointer that the code tests against [nil] is an [option].  A [nil] map is
    the empty map: no operation modelled here tells them apart.  Three fields of
    [Auth] hold opaque host objects no modelled operation reads ([Storage],
    [CodexRefreshPatch], [Runtime]); they are left out. *)
From Stdlib Require Import ZArith Lia Ascii String Bool Sorted.
From stdpp Require Import prelude gmap strings.
From S2P Require Import Prelude GoStd.
Local Open Scope string_scope.
Local Open Scope list_scope.
Local Open Scope Z_scope.

(** ** Status (status.go) *)

Definition Status := string.
Definition StatusUnknown : Status := "unknown".
Definition StatusActive : Status := "active".
Definition StatusPending : Status := "pending".
Definition StatusRefreshing : Status := "refreshing".
Definition StatusError : Status := "error".
Definition StatusDisabled : Status := "disabled".

(** ** Errors (errors.go) *)

Record Error := mkError {
  E_Code : string; E_Message : string; E_Retryable : bool; E_HTTPStatus : Z }.
#[export] Instance Error_eta : Eta Error :=
  λ e, mkError (E_Code e) (E_Message e) (E_Retryable e) (E_HTTPStatus e).
#[export] Instance Error_dec : EqDecision Error.
Proof. solve_decision. Defined.

(** ** Quota and capacity snapshots (types.go) *)

Record QuotaState := mkQuota {
  Q_Exceeded : bool; Q_Reason : string; Q_NextRecoverAt : time; Q_BackoffLevel : Z;
  Q_ObservedAt : time; Q_Signals : gmap string string }.
#[export] Instance QuotaState_eta : Eta QuotaState :=
  λ q, mkQuota (Q_Exceeded q) (Q_Reason q) (Q_NextRecoverAt q) (Q_BackoffLevel q)
               (Q_ObservedAt q) (Q_Signals q).
#[export] Instance QuotaState_dec : EqDecision QuotaState.
Proof. solve_decision. Defined.
Definition zeroQuota : QuotaState := mkQuota false "" 0 0 0 ∅.

Record CapacityWindow := mkWindow {
  W_ID : string; W_Label : string; W_ScopeModel : string;
  W_UsedPercent : float64; W_RemainingPercent : float64; W_ResetAt : time;
  W_Known : bool; W_HardExhausted : bool; W_Routing : bool; W_PeriodSeconds : Z }.
#[export] Instance CapacityWindow_eta : Eta CapacityWindow :=
  λ w, mkWindow (W_ID w) (W_Label w) (W_ScopeModel w) (W_UsedPercent w) (W_RemainingPercent w)
         (W_ResetAt w) (W_Known w) (W_HardExhausted w) (W_Routing w) (W_PeriodSeconds w).

Record CapacityState := mkCapacity {
  C_Provider : string; C_Supported : bool; C_FetchedAt : time; C_StaleAt : time;
  C_LastAttemptAt : time; C_LastError : string; C_Windows : list CapacityWindow;
  C_ResetGrants : string }.
#[export] Instance CapacityState_eta : Eta CapacityState :=
  λ c, mkCapacity (C_Provider c) (C_Supported c) (C_FetchedAt c) (C_StaleAt c)
         (C_LastAttemptAt c) (C_LastError c) (C_Windows c) (C_ResetGrants c).
Definition zeroCapacity : CapacityState := mkCapacity "" false 0 0 0 "" [] "".

Record RoutingSelectionState := mkRouting {
  RS_Selected : bool; RS_Model : string; RS_SelectedAt : time; RS_ExpiresAt : time }.
Definition RoutingActive (s : RoutingSelectionState) (now : time) : bool :=
  RS_Selected s && negb (IsZero (RS_SelectedAt s)) && After (RS_ExpiresAt s) now.

(** ** Per-model execution state (types.go) *)

Inductive ModelState := mkModelState {
  M_Status : Status; M_StatusMessage : string; M_Unavailable : bool;
  M_NextRetryAfter : time; M_LastError : option Error; M_Quota : QuotaState;
  M_UpdatedAt : time; cooldownRecordedSeq : Z;
  credentialQuotaShadow : option ModelState; credentialQuotaPropagated : bool }.
#[export] Instance ModelState_eta : Eta ModelState :=
  λ m, mkModelState (M_Status m) (M_StatusMessage m) (M_Unavailable m) (M_NextRetryAfter m)
         (M_LastError m) (M_Quota m) (M_UpdatedAt m) (cooldownRecordedSeq m)
         (credentialQuotaShadow m) (credentialQuotaPropagated m).
Definition zeroModelState : ModelState :=
  mkModelState "" "" false 0 None zeroQuota 0 0 None false.

(** ** Recent requests: a ring of 20 ten-minute buckets *)

Definition recentRequestBucketSeconds : Z := 600.
Definition recentRequestBucketCount : nat := 20.
Record recentRequestBucket := mkBucket { bucketID : Z; b_success : Z; b_failed : Z }.
#[export] Instance recentRequestBucket_eta : Eta recentRequestBucket :=
  λ b, mkBucket (bucketID b) (b_success b) (b_failed b).
Abbreviation recentRequestRing := (list recentRequestBucket).
Definition zeroRing : recentRequestRing := replicate recentRequestBucketCount (mkBucket 0 0 0).

(** ** The credential *)

Record Auth := mkAuth {
  ID : string; RegistrationEpoch : Z; CredentialVersion : Z; Generation : Z;
  Index : string; Provider : string; Prefix : string; FileName : string;
  Label : string; A_Status : Status; StatusMessage : string; Disabled : bool;
  Unavailable : bool; ProxyURL : string; Attributes : gmap string string;
  Metadata : gomap; Quota : QuotaState; Capacity : CapacityState;
  RoutingSelection : RoutingSelectionState; LastError : option Error;
  CreatedAt : time; UpdatedAt : time; LastRefreshedAt : time; NextRefreshAfter : time;
  RefreshFailures : Z; NextRetryAfter : time;
  ModelStates : gmap string (option ModelState);
  RejectedAccessToken : string; RejectedSIWCAccessToken : string;
  Success : Z; Failed : Z; authCooldownRecordedSeq : Z;
  recentRequests : recentRequestRing; indexAssigned : bool;
  fileSnapshotPath : string; fileSnapshotDigest : string }.
#[export] Instance Auth_eta : Eta Auth := λ a,
  mkAuth (ID a) (RegistrationEpoch a) (CredentialVersion a) (Generation a)
    (Index a) (Provider a) (Prefix a) (FileName a)
    (Label a) (A_Status a) (StatusMessage a) (Disabled a)
    (Unavailable a) (ProxyURL a) (Attributes a) (Metadata a) (Quota a) (Capacity a)
    (RoutingSelection a) (LastError a)
    (CreatedAt a) (UpdatedAt a) (LastRefreshedAt a) (NextRefreshAfter a)
    (RefreshFailures a) (NextRetryAfter a) (ModelStates a)
    (RejectedAccessToken a) (RejectedSIWCAccessToken a)
    (Success a) (Failed a) (authCooldownRecordedSeq a)
    (recentRequests a) (indexAssigned a) (fileSnapshotPath a) (fileSnapshotDigest a).

(** The zero value of the struct, and a credential with only an ID and a provider. *)
Definition zeroAuth : Auth :=
  mkAuth "" 0 0 0 "" "" "" "" "" "" "" false false "" ∅ [] zeroQuota zeroCapacity
    (mkRouting false "" 0 0) None 0 0 0 0 0 0 ∅ "" "" 0 0 0 zeroRing false "" "".
Definition simpleAuth (id provider : string) : Auth :=
  zeroAuth <| ID := id |> <| Provider := provider |>.

(** ** Copies *)

(** [Clone] keeps one level of shadow: shadows never nest. *)
Definition cloneShallow (m : ModelState) : ModelState := m <| credentialQuotaShadow := None |>.
Definition ModelState_Clone (m : ModelState) : ModelState :=
  m <| credentialQuotaShadow := cloneShallow <$> credentialQuotaShadow m |>.
Definition Auth_Clone (a : Auth) : Auth :=
  a <| ModelStates := option_map ModelState_Clone <$> ModelStates a |>.

(** ** Reading attributes and metadata (classification.go) *)

Definition authAttribute (auth : option Auth) (key : string) : string :=
  match auth with
  | None => ""
  | Some a => TrimSpace (attr (Attributes a) key)
  end.

Definition authMetadataString (auth : option Auth) (key : string) : string :=
  match auth with
  | None => ""
  | Some a => match assoc key (Metadata a) with
              | Some (VString v) => TrimSpace v
              | _ => ""
              end
  end.

(** A non-empty nested section [meta[key].(map[string]any)]. *)
Definition section (meta : gomap) (key : string) : option gomap :=
  match assoc key meta with
  | Some (VMap m) => match m with [] => None | _ => Some m end
  | _ => None
  end.

Definition AttributeAPIKey := "api_key".
Definition AttributeAuthKind := "auth_kind".
Definition AttributeWeight := "weight".
Definition AttributePluginVirtual := "plugin_virtual".
Definition AttributeVirtualSource := "virtual_source".
Definition AttributeAuthIndexSeed := "auth_index_seed".
Definition AuthKindAPIKey := "apikey".
Definition AuthKindOAuth := "oauth".
Definition AuthSourceConfig := "config".
Definition AuthSourceFile := "file".
Definition AuthSourceGit := "git".
Definition AuthSourceMemory := "memory".
Definition AuthSourceObjectStore := "objectstore".
Definition AuthSourcePostgres := "postgres".

Definition IsCodexUseSIWC (auth : option Auth) : bool :=
  match auth with
  | None => false
  | Some a =>
      let raw := TrimSpace (attr (Attributes a) "use_siwc") in
      let enabled :=
        if String.eqb raw "" then false
        else default false (parseBoolAny (VString raw)) in
      if enabled then true
      else match assoc "use_siwc" (Metadata a) with
           | Some v => default false (parseBoolAny v)
           | None => false
           end
  end.

Definition normalizeAuthKind (kind : string) : string :=
  let k := ToLower (TrimSpace kind) in
  if bool_decide (k ∈ [AuthKindAPIKey; "api_key"; "api-key"]) then AuthKindAPIKey
  else if bool_decide (k ∈ [AuthKindOAuth; "oauth2"]) then AuthKindOAuth
  else "".

Definition normalizeAuthSourceKind (source : string) : string :=
  let k := ToLower (TrimSpace source) in
  if bool_decide (k = AuthSourceConfig) then AuthSourceConfig
  else if bool_decide (k ∈ [AuthSourceFile; "filesystem"]) then AuthSourceFile
  else if bool_decide (k = AuthSourceGit) then AuthSourceGit
  else if bool_decide (k ∈ [AuthSourceMemory; "runtime"; "runtime_only"]) then AuthSourceMemory
  else if bool_decide (k ∈ [AuthSourceObjectStore; "object-store"]) then AuthSourceObjectStore
  else if bool_decide (k ∈ [AuthSourcePostgres; "postgresql"; "database"; "db"]) then AuthSourcePostgres
  else "".

Definition authHasOAuthMetadata (auth : option Auth) : bool :=
  match auth with
  | None => false
  | Some a =>
      existsb (λ key, negb (String.eqb (authMetadataString auth key) ""))
        ["access_token"; "refresh_token"; "id_token"; "email"; "token_type"; "expires_at"; "expired"]
      || existsb (λ key, match section (Metadata a) key with Some _ => true | None => false end)
        ["token"; "siwc"; "service_account"]
  end.

(** [AuthKind]: explicit metadata first, the shape of the fields second. *)
Definition AuthKind (auth : option Auth) : string :=
  match auth with
  | None => ""
  | Some _ =>
      if IsCodexUseSIWC auth then AuthKindOAuth
      else
        let k1 := normalizeAuthKind (authAttribute auth AttributeAuthKind) in
        if negb (String.eqb k1 "") then k1 else
        let k2 := normalizeAuthKind (authMetadataString auth AttributeAuthKind) in
        if negb (String.eqb k2 "") then k2 else
        if negb (String.eqb (authAttribute auth AttributeAPIKey) "") then AuthKindAPIKey
        else if authHasOAuthMetadata auth then AuthKindOAuth else ""
  end.

Definition AuthSourceKind (auth : option Auth) : string :=
  match auth with
  | None => ""
  | Some a =>
      if EqualFold (authAttribute auth "runtime_only") "true" then AuthSourceMemory else
      let s1 := normalizeAuthSourceKind (authAttribute auth "source_backend") in
      if negb (String.eqb s1 "") then s1 else
      let source := authAttribute auth "source" in
      if negb (String.eqb source "") then
        if HasPrefix (ToLower source) (AuthSourceConfig +:+ ":") then AuthSourceConfig else
        let n := normalizeAuthSourceKind source in
        if negb (String.eqb n "") then n else AuthSourceFile
      else if negb (String.eqb (authAttribute auth "path") "") then AuthSourceFile
      else if negb (String.eqb (TrimSpace (FileName a)) "") then AuthSourceFile
      else ""
  end.

(** ** Overrides carried by the metadata *)

(** The first of [keys] whose value parses. *)
Fixpoint first_parsed {A} (parse : goval → option A) (m : gomap) (keys : list string) : option A :=
  match keys with
  | [] => None
  | k :: keys =>
      match assoc k m with
      | Some v => match parse v with Some x => Some x | None => first_parsed parse m keys end
      | None => first_parsed parse m keys
      end
  end.

Definition DisableCoolingOverride (auth : option Auth) : bool * bool :=
  match auth with
  | None => (false, false)
  | Some a => match first_parsed parseBoolAny (Metadata a) ["disable_cooling"; "disable-cooling"] with
              | Some parsed => (parsed, true)
              | None => (false, false)
              end
  end.

Definition ToolPrefixDisabled (auth : option Auth) : bool :=
  match auth with
  | None => false
  | Some a => default false
      (first_parsed parseBoolAny (Metadata a) ["tool_prefix_disabled"; "tool-prefix-disabled"])
  end.

(** A negative value found under either key means "unset" and ends the search. *)
Definition RequestRetryOverride (auth : option Auth) : Z * bool :=
  match auth with
  | None => (0, false)
  | Some a => match first_parsed parseIntAny (Metadata a) ["request_retry"; "request-retry"] with
              | Some parsed => if parsed <? 0 then (0, false) else (parsed, true)
              | None => (0, false)
              end
  end.

Definition AccountInfo (auth : option Auth) : string * string :=
  match auth with
  | None => ("", "")
  | Some a =>
      let kind := AuthKind auth in
      if String.eqb kind AuthKindOAuth then
        let email := match assoc "email" (Metadata a) with
                     | Some (VString v) => TrimSpace v | _ => "" end in
        if negb (String.eqb email "") then ("oauth", email) else
        let sa_email := match assoc "service_account" (Metadata a) with
                        | Some (VMap sa) =>
                            match assoc "client_email" sa with
                            | Some (VString v) => TrimSpace v | _ => "" end
                        | _ => "" end in
        ("oauth", sa_email)
      else if String.eqb kind AuthKindAPIKey then ("api_key", authAttribute auth AttributeAPIKey)
      else ("", "")
  end.

Definition IsPluginVirtualAuth (auth : option Auth) : bool :=
  match auth with
  | None => false
  | Some a => EqualFold (TrimSpace (attr (Attributes a) AttributePluginVirtual)) "true"
  end.

(** [strings.Join(parts, "|")] of the index seed *)
Definition MarkPluginVirtualAuth (a : Auth) (sourcePath : string) (ordinal : Z) : Auth :=
  let attrs1 := <[AttributePluginVirtual := "true"]> (Attributes a) in
  let source := TrimSpace sourcePath in
  let attrs2 := if negb (String.eqb source "")
                then <[AttributeVirtualSource := source]> attrs1 else attrs1 in
  let seed1 := TrimSpace (ID a) in
  let seed2 := if String.eqb seed1 "" then TrimSpace (FileName a) else seed1 in
  let seed := if String.eqb seed2 "" then FormatInt ordinal else seed2 in
  a <| Attributes := <[AttributeAuthIndexSeed :=
         ToLower (TrimSpace (Provider a)) +:+ "|" +:+ source +:+ "|" +:+ seed
           +:+ "|" +:+ FormatInt ordinal]> attrs2 |>.

(** ** Access tokens (conductor_refresh.go) *)

Definition authOuterAccessToken (auth : option Auth) : string :=
  let token := authMetadataString auth "access_token" in
  if negb (String.eqb token "") then token else authMetadataString auth "accessToken".

Definition authRefreshToken (auth : option Auth) : string :=
  let token := authMetadataString auth "refresh_token" in
  if negb (String.eqb token "") then token else authMetadataString auth "refreshToken".

Definition authSIWCTokenField (auth : option Auth) (key : string) : string :=
  match auth with
  | None => ""
  | Some a => match section (Metadata a) "siwc" with
              | Some siwcMap => match assoc key siwcMap with
                                | Some (VString v) => TrimSpace v
                                | _ => ""
                                end
              | None => ""
              end
  end.

Definition authAccessToken (auth : option Auth) : string :=
  if IsCodexUseSIWC auth then authSIWCTokenField auth "access_token" else authOuterAccessToken auth.

Definition isSIWCAccessTokenRejected (auth : option Auth) (siwcToken : string) : bool :=
  match auth with
  | None => false
  | Some a =>
      let t := TrimSpace siwcToken in
      if String.eqb t "" then false else
      (negb (String.eqb (RejectedSIWCAccessToken a) "") && String.eqb (RejectedSIWCAccessToken a) t)
      || (negb (String.eqb (RejectedAccessToken a) "") && String.eqb (RejectedAccessToken a) t)
  end.

(** ** Expiration times

    Three standard-library parsers whose input format is not the router's own
    stay abstract, so every theorem holds for whatever they answer: [time.Parse]
    under the five layouts of [parseTimeValue], the floating-point reading of a
    JSON number, and the ["exp"] claim of a JSON payload after base64 decoding
    (with or without padding). *)
Class GoHost := {
  time_Parse : string → string → option time;
  Number_Float64 : string → option float64;
  base64_URL : string → option string;
  base64_RawURL : string → option string;
  json_exp_claim : string → option goval }.

Definition normaliseUnix (raw : Z) : time :=
  if raw <=? 0 then zero_time
  else if 1000000000000 <? raw then UnixMilli raw
  else Unix raw.

Definition time_layouts : list string :=
  ["2006-01-02T15:04:05Z07:00"; "2006-01-02T15:04:05.999999999Z07:00";
   "2006-01-02 15:04:05"; "2006-01-02 15:04"; "2006-01-02T15:04:05Z07:00"].

Section expiry.
Context `{GoHost}.

Fixpoint parse_layouts (layouts : list string) (s : string) : option time :=
  match layouts with
  | [] => None
  | l :: layouts => match time_Parse l s with
                    | Some ts => Some ts
                    | None => parse_layouts layouts s
                    end
  end.

Definition parseTimeValue (v : goval) : option time :=
  match v with
  | VString value =>
      let s := TrimSpace value in
      if String.eqb s "" then None else
      match parse_layouts time_layouts s with
      | Some ts => Some ts
      | None => normaliseUnix <$> ParseInt64 s
      end
  | VFloat64 f => Some (normaliseUnix (f_to_int64 f))
  | VInt z | VInt32 z | VInt64 z => Some (normaliseUnix z)
  | VNumber s =>
      match ParseInt64 s with
      | Some i => Some (normaliseUnix i)
      | None => (λ f, normaliseUnix (f_to_int64 f)) <$> Number_Float64 s
      end
  | _ => None
  end.

Definition parseRelativeExpirySeconds (meta : gomap) : option Z :=
  first_parsed (λ v, match parseIntAny v with
                     | Some seconds => if 0 <? seconds then Some seconds else None
                     | None => None
                     end) meta ["expires_in"; "expiresIn"].

Definition parseRelativeExpiryTimestamp (meta : gomap) : option time :=
  first_parsed (λ v, match parseTimeValue v with
                     | Some ts => if IsZero ts then None else Some ts
                     | None => None
                     end) meta ["timestamp"; "issued_at"; "issuedAt"].

Definition lookupMetadataTime (meta : gomap) (keys : list string) : option time :=
  first_parsed parseTimeValue meta keys.

Definition expireKeys : list string :=
  ["expired"; "expire"; "expires_at"; "expiresAt"; "expiry"; "expires"].

(** [time.Duration(seconds) * time.Second] wraps on 64 bits. *)
Definition seconds_duration (seconds : Z) : duration := wrap64 (seconds * Second).

(** The maps nest: the fuel bounds how deep the recursion may go. *)
Fixpoint expirationFromMap_fuel (fuel : nat) (meta : gomap) : option time :=
  match fuel with
  | O => None
  | S fuel =>
      match first_parsed parseTimeValue meta expireKeys with
      | Some ts => Some ts
      | None =>
          match parseRelativeExpirySeconds meta, parseRelativeExpiryTimestamp meta with
          | Some expiresIn, Some timestamp => Some (Add timestamp (seconds_duration expiresIn))
          | _, _ =>
              first_parsed (λ nested, match nested with
                | VMap val => expirationFromMap_fuel fuel val
                | VStrMap val =>
                    expirationFromMap_fuel fuel (prod_map id VString <$> val)
                | _ => None
                end) meta ["token"; "Token"]
          end
      end
  end.

(** [parseJWTExp]: the ["exp"] claim of a three-part token. *)
Definition parseJWTExp (token : string) : option time :=
  let t := TrimSpace token in
  if String.eqb t "" then None else
  match SplitByte t "."%char with
  | [_; payloadSegment; _] =>
      let padded := match Nat.modulo (String.length payloadSegment) 4 with
                    | 2%nat => payloadSegment +:+ "=="
                    | 3%nat => payloadSegment +:+ "="
                    | _ => payloadSegment
                    end in
      let payload := match base64_URL padded with
                     | Some p => Some p
                     | None => base64_RawURL payloadSegment
                     end in
      match payload ≫= json_exp_claim with
      | Some (VFloat64 f) =>
          if f_gtb f (f_of_Z 0) then Some (normaliseUnix (f_to_int64 f)) else None
      | Some (VInt64 z) | Some (VInt z) => if 0 <? z then Some (normaliseUnix z) else None
      | Some (VString s) =>
          match ParseInt64 (TrimSpace s) with
          | Some sec => if 0 <? sec then Some (normaliseUnix sec) else None
          | None => None
          end
      | _ => None
      end
  | _ => None
  end.
End expiry.

(** Depth of the nesting of a value, and of a map. *)
Fixpoint val_depth (v : goval) : nat :=
  match v with
  | VMap m =>
      S ((fix go (m : gomap) : nat :=
            match m with [] => O | (_, v) :: m => Nat.max (val_depth v) (go m) end) m)
  | VStrMap _ => 1
  | _ => 0
  end.
Definition map_depth (m : gomap) : nat := foldr (λ kv, Nat.max (val_depth kv.2)) O m.

Lemma val_depth_VMap m : val_depth (VMap m) = S (map_depth m).
Proof. simpl. f_equal. induction m as [|[k v] m IH]; simpl; [done|]. by rewrite IH. Qed.

Lemma assoc_depth k m v : assoc k m = Some v → (val_depth v ≤ map_depth m)%nat.
Proof.
  induction m as [|[k' v'] m IH]; simpl; [done|]. intros E. case_match; simplify_eq; [lia|].
  apply IH in E. lia.
Qed.

Lemma strmap_depth (m : list (string * string)) : map_depth (prod_map id VString <$> m) = O.
Proof. by induction m. Qed.

Section expiry_total.
Context `{GoHost}.

Lemma first_parsed_ext {A} (f g : goval → option A) m keys :
  (∀ k v, assoc k m = Some v → f v = g v) → first_parsed f m keys = first_parsed g m keys.
Proof.
  intros E. induction keys as [|k keys IH]; simpl; [done|].
  destruct (assoc k m) as [v|] eqn:Ev; [|done]. by rewrite (E k v Ev), IH.
Qed.

(** A map is never deeper than itself: one more than its depth is enough fuel,
    and more fuel changes nothing. *)
Lemma expirationFromMap_enough n m :
  (map_depth m < n)%nat →
  expirationFromMap_fuel n m = expirationFromMap_fuel (S (map_depth m)) m.
Proof.
  revert m. induction n as [n IH] using lt_wf_ind. intros m Hn.
  destruct n as [|n]; [lia|]. cbn [expirationFromMap_fuel].
  destruct (first_parsed parseTimeValue m expireKeys); [done|].
  assert (∀ k v, assoc k m = Some v →
    match v with
    | VMap val => expirationFromMap_fuel n val
    | VStrMap val => expirationFromMap_fuel n (prod_map id VString <$> val)
    | _ => None end =
    match v with
    | VMap val => expirationFromMap_fuel (map_depth m) val
    | VStrMap val => expirationFromMap_fuel (map_depth m) (prod_map id VString <$> val)
    | _ => None end) as E.
  { intros k v Hk%assoc_depth. destruct v as [| | | | | | | | | | | | | | | | |l|l| | |]; try done.
    - rewrite val_depth_VMap in Hk. rewrite (IH n), (IH (map_depth m)); [done|lia..].
    - simpl in Hk. rewrite (IH n), (IH (map_depth m)); [done|rewrite ?strmap_depth; lia..]. }
  repeat case_match; try done; by apply first_parsed_ext.
Qed.

Definition expirationFromMap (meta : gomap) : option time :=
  expirationFromMap_fuel (S (map_depth meta)) meta.
End expiry_total.

Definition CodexSIWCRefreshLead : duration := 5 * Minute.
Inductive SIWCStatus := SIWCStatusOff | SIWCStatusValid | SIWCStatusInvalid.

(** [ts, ok := f(); ok && !ts.IsZero()] *)
Definition nonzero (o : option time) : option time :=
  match o with Some t => if IsZero t then None else Some t | None => None end.

Section tokens.
Context `{GoHost}.

(** The token section's own token, read untrimmed. *)
Definition siwc_raw_exp (siwcMap : gomap) : option time :=
  match assoc "access_token" siwcMap with
  | Some (VString rawToken) =>
      if String.eqb (TrimSpace rawToken) "" then None else nonzero (parseJWTExp rawToken)
  | _ => None
  end.

Definition SIWCRealExpirationTime (auth : option Auth) : option time :=
  match auth with
  | None => None
  | Some a =>
      match section (Metadata a) "siwc" with
      | None => None
      | Some siwcMap =>
          match nonzero (lookupMetadataTime siwcMap ["expires_at"; "expiresAt"]) with
          | Some ts => Some ts
          | None =>
              match parseRelativeExpirySeconds siwcMap,
                    nonzero (lookupMetadataTime siwcMap
                      ["last_refresh"; "lastRefresh"; "timestamp"; "issued_at"; "issuedAt"]) with
              | Some expiresIn, Some ts => Some (Add ts (seconds_duration expiresIn))
              | _, _ => siwc_raw_exp siwcMap
              end
          end
      end
  end.

Definition SIWCExpirationTime (auth : option Auth) : option time :=
  match auth with
  | None => None
  | Some a =>
      match section (Metadata a) "siwc" with
      | None => None
      | Some siwcMap =>
          match nonzero (expirationFromMap siwcMap) with
          | Some ts => Some ts
          | None => siwc_raw_exp siwcMap
          end
      end
  end.

Definition rejected (a : Auth) (token : string) : bool :=
  negb (String.eqb (RejectedAccessToken a) "") && String.eqb (RejectedAccessToken a) token.

Definition OuterExpirationTime (auth : option Auth) : option time :=
  match auth with
  | None => None
  | Some a =>
      let tokenStr := authOuterAccessToken auth in
      let hasToken := negb (String.eqb tokenStr "") in
      if hasToken && rejected a tokenStr then Some (Unix 0) else
      match (if hasToken then parseJWTExp tokenStr else None) with
      | Some jwtExp => Some jwtExp
      | None => expirationFromMap (Metadata a)
      end
  end.

Definition ExpirationTime (auth : option Auth) : option time :=
  match auth with
  | None => None
  | Some _ =>
      if IsCodexUseSIWC auth then
        if isSIWCAccessTokenRejected auth (authSIWCTokenField auth "access_token")
        then Some (Unix 0) else SIWCExpirationTime auth
      else OuterExpirationTime auth
  end.

Definition AccessTokenExpirationTime (auth : option Auth) : option time :=
  match auth with
  | None => None
  | Some a =>
      let tokenStr := authAccessToken auth in
      if String.eqb tokenStr "" then None else
      if rejected a tokenStr || (IsCodexUseSIWC auth && isSIWCAccessTokenRejected auth tokenStr)
      then Some (Unix 0) else
      match parseJWTExp tokenStr with
      | Some jwtExp => Some jwtExp
      | None =>
          match (if IsCodexUseSIWC auth then nonzero (SIWCRealExpirationTime auth) else None) with
          | Some realExp => Some realExp
          | None => ExpirationTime auth
          end
      end
  end.

Definition HasValidAccessToken (auth : option Auth) (now : time) : bool :=
  match auth with
  | None => false
  | Some _ =>
      if String.eqb (authAccessToken auth) "" then false else
      match AccessTokenExpirationTime auth with
      | Some exp => After exp now
      | None => true
      end
  end.

(** [wall] is the clock, read when the caller passes the zero time. *)
Definition CodexSIWCStatus (auth : option Auth) (now wall : time) : SIWCStatus :=
  if negb (IsCodexUseSIWC auth) then SIWCStatusOff else
  let siwcToken := authSIWCTokenField auth "access_token" in
  if String.eqb siwcToken "" then SIWCStatusInvalid else
  let now := if IsZero now then wall else now in
  match nonzero (SIWCRealExpirationTime auth) with
  | None => SIWCStatusInvalid
  | Some realExp =>
      if negb (After realExp now) then SIWCStatusInvalid
      else if isSIWCAccessTokenRejected auth siwcToken then SIWCStatusInvalid
      else SIWCStatusValid
  end.

(** [(dueAt, hasRefresh, needsRefresh)] of the nested section. *)
Definition CodexSIWCNeedsRefresh (auth : option Auth) (now : time) : time * bool * bool :=
  match auth with
  | None => (zero_time, false, false)
  | Some a =>
      match section (Metadata a) "siwc" with
      | None => (zero_time, false, false)
      | Some siwcMap =>
          let str key := match assoc key siwcMap with Some (VString s) => TrimSpace s | _ => "" end in
          if String.eqb (str "refresh_token") "" || String.eqb (str "client_id") ""
          then (zero_time, false, false) else
          let siwcToken := str "access_token" in
          if String.eqb siwcToken "" then (now, true, true) else
          if isSIWCAccessTokenRejected auth siwcToken then (now, true, true) else
          let dueAt due := if negb (After due now) then (now, true, true) else (due, true, false) in
          match nonzero (SIWCExpirationTime auth) with
          | Some expiry => dueAt (Add expiry (- CodexSIWCRefreshLead))
          | None =>
              match nonzero (lookupMetadataTime siwcMap ["last_refresh"; "lastRefresh"]) with
              | Some lastRefresh => dueAt (Add lastRefresh CodexSIWCRefreshLead)
              | None => (now, true, true)
              end
          end
      end
  end.

Definition authHasRefreshCredential (auth : option Auth) (now : time) : bool :=
  negb (String.eqb (authMetadataString auth "refresh_token") "")
  || negb (String.eqb (authMetadataString auth "refreshToken") "")
  || (CodexSIWCNeedsRefresh auth now).1.2
  || match auth with
     | None => false
     | Some a => EqualFold (TrimSpace (Provider a)) "meta" &&
         (negb (String.eqb (authMetadataString auth "dca_token") "")
          || negb (String.eqb (TrimSpace (attr (Attributes a) "dca_token")) ""))
     end.
End tokens.

(** Whether the authentication material of two records differs. *)
Definition CredentialsChanged (existing incoming : option Auth) : bool :=
  match existing, incoming with
  | Some e, Some i =>
      let either (a : option Auth) k1 k2 :=
        let v := authMetadataString a k1 in if String.eqb v "" then authMetadataString a k2 else v in
      let apiKey (x : Auth) :=
        let v := attr (Attributes x) AttributeAPIKey in
        if String.eqb v "" then authMetadataString (Some x) "api_key" else v in
      let siwcDiffers k :=
        negb (String.eqb (authSIWCTokenField existing k) (authSIWCTokenField incoming k)) in
      let useSIWC (x : Auth) := match assoc "use_siwc" (Metadata x) with
                                | Some v => parseBoolAny v | None => None end in
      negb (String.eqb (authAccessToken existing) (authAccessToken incoming))
      || negb (String.eqb (authOuterAccessToken existing) (authOuterAccessToken incoming))
      || negb (String.eqb (authRefreshToken existing) (authRefreshToken incoming))
      || negb (String.eqb (either existing "id_token" "idToken") (either incoming "id_token" "idToken"))
      || negb (String.eqb (apiKey e) (apiKey i))
      || existsb siwcDiffers ["access_token"; "refresh_token"; "id_token"; "client_id"]
      || negb (bool_decide (useSIWC e = useSIWC i))
  | _, _ => false
  end.

Definition effectiveRejectedSIWCToken (auth : option Auth) : string :=
  match auth with
  | None => ""
  | Some a =>
      let siwcTok := authSIWCTokenField auth "access_token" in
      if String.eqb siwcTok "" then ""
      else if negb (String.eqb (RejectedSIWCAccessToken a) "")
              && String.eqb (RejectedSIWCAccessToken a) siwcTok then siwcTok
      else if rejected a siwcTok then siwcTok else ""
  end.

Definition shouldPreserveRejectedSIWCAccessToken (existing updated : option Auth) : option string :=
  let rejectedSIWC := effectiveRejectedSIWCToken existing in
  if String.eqb rejectedSIWC "" then None else
  match updated with
  | None => None
  | Some _ => if String.eqb (authSIWCTokenField updated "access_token") rejectedSIWC
              then Some rejectedSIWC else None
  end.

(** ** The ring of recent requests *)

(** Integer division truncates towards zero. *)
Definition recentRequestBucketID (now : time) : Z :=
  if IsZero now then 0 else Z.quot (UnixSeconds now) recentRequestBucketSeconds.

Definition recentRequestBucketIndex (bucketID : Z) : nat :=
  let m := Z.rem bucketID (Z.of_nat recentRequestBucketCount) in
  Z.to_nat (if m <? 0 then m + Z.of_nat recentRequestBucketCount else m).

Definition recordRecentRequest (ring : recentRequestRing) (now : time) (success : bool)
    : recentRequestRing :=
  let id := recentRequestBucketID now in
  let idx := recentRequestBucketIndex id in
  match ring !! idx with
  | None => ring
  | Some bucket =>
      let b := if bool_decide (bucketID bucket = id) then bucket else mkBucket id 0 0 in
      <[idx := if success then b <| b_success := wrap64 (b_success b + 1) |>
               else b <| b_failed := wrap64 (b_failed b + 1) |>]> ring
  end.

Definition Auth_recordRecentRequest (a : Auth) (now : time) (success : bool) : Auth :=
  a <| recentRequests := recordRecentRequest (recentRequests a) now success |>.

(** One entry of the snapshot, without its label: [(bucket id, success, failed)]. *)
Definition snapshotEntry (ring : recentRequestRing) (id : Z) : Z * Z * Z :=
  match ring !! recentRequestBucketIndex id with
  | Some bucket => if bool_decide (bucketID bucket = id)
                   then (id, b_success bucket, b_failed bucket) else (id, 0, 0)
  | None => (id, 0, 0)
  end.

(** Oldest bucket first. *)
Definition RecentRequestsSnapshot (ring : recentRequestRing) (now : time) : list (Z * Z * Z) :=
  (λ i, snapshotEntry ring (recentRequestBucketID now - Z.of_nat i))
    <$> reverse (seq 0 recentRequestBucketCount).

(** The requests the ring is asked to remember, most recent first. *)
Abbreviation events := (list (time * bool)).
Definition ring_of (evs : events) : recentRequestRing :=
  foldr (λ e ring, recordRecentRequest ring e.1 e.2) zeroRing evs.
Definition chronological (evs : events) : Prop :=
  StronglySorted (λ e e', recentRequestBucketID e'.1 ≤ recentRequestBucketID e.1) evs.
Definition count (id : Z) (ok : bool) (evs : events) : Z :=
  Z.of_nat (length (filter (λ e, recentRequestBucketID e.1 = id ∧ e.2 = ok) evs)).

Lemma bucketIndex_lt id : (recentRequestBucketIndex id < recentRequestBucketCount)%nat.
Proof.
  unfold recentRequestBucketIndex, recentRequestBucketCount.
  pose proof (Z.rem_bound_abs id 20 ltac:(lia)). cbn zeta.
  change (Z.of_nat 20) with 20. case_match; to_prop; lia.
Qed.

(** Buckets that share a slot are a multiple of 20 apart. *)
Lemma bucketIndex_mod id : Z.of_nat (recentRequestBucketIndex id) = id mod 20.
Proof.
  unfold recentRequestBucketIndex, recentRequestBucketCount. change (Z.of_nat 20) with 20. cbn zeta.
  pose proof (Z.rem_bound_abs id 20 ltac:(lia)).
  pose proof (Z.quot_rem' id 20) as E.
  destruct (Z.ltb_spec (Z.rem id 20) 0).
  - rewrite Z2Nat.id by lia. apply Z.mod_unique with (Z.quot id 20 - 1); lia.
  - rewrite Z2Nat.id by lia. apply Z.mod_unique with (Z.quot id 20); lia.
Qed.

Lemma bucketIndex_inj a b :
  recentRequestBucketIndex a = recentRequestBucketIndex b → a mod 20 = b mod 20.
Proof. intros E. by rewrite <-!bucketIndex_mod, E. Qed.

Lemma count_cons id ok e evs :
  count id ok (e :: evs) =
  (if bool_decide (recentRequestBucketID e.1 = id ∧ e.2 = ok) then 1 else 0) + count id ok evs.
Proof.
  unfold count. rewrite filter_cons. case_decide; case_bool_decide; simpl; try done; lia.
Qed.

Lemma count_range id ok evs : 0 ≤ count id ok evs ≤ Z.of_nat (length evs).
Proof. unfold count. pose proof (length_filter (λ e : time * bool, recentRequestBucketID e.1 = id ∧ e.2 = ok) evs). lia. Qed.

Lemma count_zero id ok evs :
  (∀ e, e ∈ evs → recentRequestBucketID e.1 ≠ id) → count id ok evs = 0.
Proof.
  induction evs as [|e evs IH]; intros Hn; [done|].
  rewrite count_cons, IH; [|set_solver].
  rewrite bool_decide_eq_false_2; [done|]. intros [? _]. by apply (Hn e); [left|].
Qed.

(** What every slot of the ring holds after [evs]. *)
Record ring_ok (evs : events) (ring : recentRequestRing) : Prop := {
  ring_length : length ring = recentRequestBucketCount;
  ring_held : ∀ id b, ring !! recentRequestBucketIndex id = Some b → bucketID b = id →
    b_success b = count id true evs ∧ b_failed b = count id false evs;
  ring_missing : ∀ id b, (∀ e, head evs = Some e → recentRequestBucketID e.1 - 20 < id) →
    ring !! recentRequestBucketIndex id = Some b → bucketID b ≠ id →
    ∀ ok, count id ok evs = 0 }.

Lemma ring_ok_zero : ring_ok [] zeroRing.
Proof.
  split; [done| |done]. intros id b [-> _]%lookup_replicate. done.
Qed.

Lemma ring_ok_lookup evs ring id :
  ring_ok evs ring → ∃ b, ring !! recentRequestBucketIndex id = Some b.
Proof.
  intros H. apply lookup_lt_is_Some_2. rewrite (ring_length _ _ H). apply bucketIndex_lt.
Qed.

Lemma chronological_bound e evs id :
  chronological (e :: evs) → recentRequestBucketID e.1 < id → ∀ ok, count id ok (e :: evs) = 0.
Proof.
  intros Hc Hid ok. inversion Hc as [|?? _ Hf]; subst. apply count_zero.
  intros e' [->|He']%elem_of_cons; [lia|]. rewrite Forall_forall in Hf.
  specialize (Hf e' He'). simpl in Hf. lia.
Qed.

Lemma ring_ok_record evs ring e :
  Z.of_nat (length evs) < MaxInt64 → chronological (e :: evs) → ring_ok evs ring →
  ring_ok (e :: evs) (recordRecentRequest ring e.1 e.2).
Proof.
  intros Hlen Hc Hok. unfold recordRecentRequest.
  set (n := recentRequestBucketID e.1).
  destruct (ring_ok_lookup evs ring n Hok) as [b Hb]. rewrite Hb.
  set (b0 := if bool_decide (bucketID b = n) then b else mkBucket n 0 0).
  assert (∀ e', head evs = Some e' → recentRequestBucketID e'.1 ≤ n) as Hlast.
  { intros e' He'. inversion Hc as [|?? _ Hf]; subst. destruct evs as [|e1 evs]; [done|].
    inversion Hf; subst. naive_solver. }
  assert (bucketID b0 = n ∧ b_success b0 = count n true evs ∧ b_failed b0 = count n false evs)
    as (Hb0 & Hs & Hf).
  { unfold b0. case_bool_decide as Hid; simpl.
    - split; [done|]. by apply (ring_held _ _ Hok n).
    - assert (∀ ok, count n ok evs = 0) as Hz; [|by rewrite !Hz].
      apply (ring_missing _ _ Hok n b); [|done..]. intros e' He'%Hlast. lia. }
  assert (∀ ok, wrap64 (count n ok evs + 1) = count n ok evs + 1) as Hw.
  { intros ok. apply wrap64_id. pose proof (count_range n ok evs).
    unfold is_int64, MinInt64, MaxInt64 in *. lia. }
  clearbody b0. clear Hb.
  set (b1 := if e.2 then _ else _).
  assert (bucketID b1 = n ∧ b_success b1 = count n true (e :: evs)
          ∧ b_failed b1 = count n false (e :: evs)) as (Hb1 & Hs1 & Hf1).
  { rewrite !count_cons. fold n. unfold b1. destruct (e.2); simpl; rewrite ?Hs, ?Hf, ?Hw;
      repeat case_bool_decide; naive_solver lia. }
  clearbody b1. split.
  - rewrite length_insert. apply Hok.
  - intros id b' Hl Hid. 
    destruct (decide (recentRequestBucketIndex id = recentRequestBucketIndex n)) as [Ei|Ei].
    + rewrite Ei, list_lookup_insert_eq in Hl by (rewrite (ring_length _ _ Hok); apply bucketIndex_lt).
      injection Hl as <-. by rewrite <-Hid, Hb1.
    + rewrite list_lookup_insert_ne in Hl by done. rewrite !count_cons. fold n.
      rewrite !bool_decide_eq_false_2 by (intros [-> _]; done). simpl.
      by apply (ring_held _ _ Hok).
  - intros id b' Hwin Hl Hid ok. specialize (Hwin e eq_refl). fold n in Hwin.
    destruct (decide (recentRequestBucketIndex id = recentRequestBucketIndex n)) as [Ei|Ei].
    + rewrite Ei, list_lookup_insert_eq in Hl by (rewrite (ring_length _ _ Hok); apply bucketIndex_lt).
      assert (n ≠ id) as Hne by (injection Hl as <-; congruence).
      apply bucketIndex_inj in Ei.
      apply chronological_bound; [done|]. fold n.
      pose proof (Z.div_mod id 20 ltac:(lia)). pose proof (Z.div_mod n 20 ltac:(lia)). lia.
    + rewrite list_lookup_insert_ne in Hl by done. rewrite count_cons. fold n.
      rewrite bool_decide_eq_false_2 by (intros [-> _]; done). simpl.
      eapply (ring_missing _ _ Hok); [|done..]. intros e' He'%Hlast. lia.
Qed.

Lemma ring_of_ok evs :
  Z.of_nat (length evs) ≤ MaxInt64 → chronological evs → ring_ok evs (ring_of evs).
Proof.
  induction evs as [|e evs IH]; intros Hl Hc; [apply ring_ok_zero|].
  simpl in *. apply ring_ok_record; [lia|done|]. apply IH; [lia|]. by inversion Hc.
Qed.

(** the snapshot of the recent requests counts exactly the successes and
    the failures of each of the last twenty ten-minute buckets, whatever was
    recorded before and however often the ring wrapped around. *)
Theorem RecentRequestsSnapshot_exact evs now :
  Z.of_nat (length evs) ≤ MaxInt64 → chronological evs →
  (∀ e, head evs = Some e → recentRequestBucketID e.1 ≤ recentRequestBucketID now) →
  RecentRequestsSnapshot (ring_of evs) now =
    (λ i, let id := recentRequestBucketID now - Z.of_nat i in
          (id, count id true evs, count id false evs)) <$> reverse (seq 0 recentRequestBucketCount).
Proof.
  intros Hl Hc Hnow. pose proof (ring_of_ok evs Hl Hc) as Hok.
  unfold RecentRequestsSnapshot. apply list_fmap_ext. intros k i Hi.
  set (id := recentRequestBucketID now - Z.of_nat i). cbn zeta. fold id. unfold snapshotEntry.
  destruct (ring_ok_lookup _ _ id Hok) as [b Hb]. rewrite Hb. case_bool_decide as Hid.
  - destruct (ring_held _ _ Hok id b Hb Hid) as [-> ->]. done.
  - assert (∀ ok, count id ok evs = 0) as Hz; [|by rewrite !Hz].
    apply (ring_missing _ _ Hok id b); [|done..]. intros e He%Hnow.
    apply list_elem_of_lookup_2 in Hi. rewrite elem_of_reverse, elem_of_seq in Hi.
    unfold id, recentRequestBucketCount in *. lia.
Qed.

Lemma RecentRequestsSnapshot_exact_witness :
  let evs := [(Unix 12700, true); (Unix 12650, false); (Unix 1200, true); (Unix 100, true)] in
  last (RecentRequestsSnapshot (ring_of evs) (Unix 12710)) = Some (21, 1, 1).
Proof.
  intros evs. rewrite (RecentRequestsSnapshot_exact evs (Unix 12710)).
  - vm_compute. reflexivity.
  - vm_compute. discriminate.
  - unfold chronological, evs. repeat constructor; vm_compute; discriminate.
  - intros e [= <-]. vm_compute. discriminate.
Defined.
