(* ===== verification/Weight.v ===== *)
(** * Credential weights and priorities

    Models [internal/credentialweight/weight.go], [weight.go], [priority.go] and
    the accessors [authPriority], [authWeight] and [authWebsocketsEnabled] of
    [selector.go]: how the routing weight and tier of a credential are read from
    its attributes and metadata. *)
From Stdlib Require Import ZArith Lia Ascii String Bool SpecFloat.
From stdpp Require Import prelude gmap strings pretty.
From S2P Require Import Prelude GoStd AuthTypes.
Local Open Scope string_scope.
Local Open Scope list_scope.
Local Open Scope Z_scope.

Module credentialweight.
Definition Default : Z := 1.
Definition Max : Z := 1000000.

(** The two failures the package reports. *)
Inductive weightError := NotInteger | TooLarge.

Definition Normalize (weight : Z) : Z + weightError :=
  if weight <=? 0 then inl 0
  else if Max <? weight then inr TooLarge
  else inl weight.

Definition ParseString (raw : string) : Z + weightError :=
  let raw := TrimSpace raw in
  if String.eqb raw "" then inl Default
  else match ParseInt64 raw with
       | None => inr NotInteger
       | Some weight => Normalize weight
       end.

Definition ParseFloat (typed : float64) : Z + weightError :=
  if f_is_nan typed || f_is_inf typed || negb (f_integral typed) then inr NotInteger
  else if f_leb typed (f_of_Z 0) then inl 0
  else if f_gtb typed (f_of_Z Max) then inr TooLarge
  else inl (f_to_int64 typed).

Definition ParseValue (value : goval) : Z + weightError :=
  match value with
  | VInt z | VInt8 z | VInt16 z | VInt32 z | VInt64 z => Normalize z
  | VUint z | VUint32 z | VUint64 z => if Max <? z then inr TooLarge else inl z
  | VUint8 z | VUint16 z => inl z
  | VFloat64 f | VFloat32 f => ParseFloat f
  | VNumber s => match ParseInt64 s with
                 | None => inr NotInteger
                 | Some weight => Normalize weight
                 end
  | VString s => ParseString s
  | _ => inr NotInteger
  end.
End credentialweight.
Import credentialweight.

(** [ValidateAuthWeight]: every explicit weight source must parse. *)
Definition ValidateAuthWeight (auth : option Auth) : option weightError :=
  match auth with
  | None => None
  | Some a =>
      match (match Attributes a !! AttributeWeight with
             | Some raw => match ParseString raw with inr e => Some e | inl _ => None end
             | None => None end) with
      | Some e => Some e
      | None =>
          match assoc AttributeWeight (Metadata a) with
          | Some raw => match ParseValue raw with inr e => Some e | inl _ => None end
          | None => None
          end
      end
  end.

(** [ApplyAuthWeightMetadata]; [None] for a [nil] metadata map. *)
Definition ApplyAuthWeightMetadata (a : Auth) (metadata : option gomap) : Auth + weightError :=
  match ValidateAuthWeight (Some a) with
  | Some e => inr e
  | None =>
      match metadata ≫= assoc AttributeWeight with
      | None => inl a
      | Some raw =>
          match ParseValue raw with
          | inr e => inr e
          | inl weight =>
              inl (a <| Attributes := <[AttributeWeight := FormatInt weight]> (Attributes a) |>)
          end
      end
  end.

Definition AttributeFilePriority := "file_priority".

(** A map write [m[k] = v] on an association list. *)
Definition gomap_set (k : string) (v : goval) (m : gomap) : gomap :=
  (k, v) :: filter (λ kv, kv.1 ≠ k) m.

Definition ApplyAuthPriorityMetadata (a : Auth) (metadata : gomap) : Auth :=
  let a := a <| Attributes := delete AttributeFilePriority (Attributes a) |> in
  match assoc "priority" metadata with
  | None => a
  | Some rawPriority =>
      let priority := match rawPriority with
                      | VFloat64 f => Some (FormatInt (f_to_int64 f))
                      | VString s =>
                          let p := TrimSpace s in
                          match ParseInt64 p with Some _ => Some p | None => None end
                      | _ => None
                      end in
      match priority with
      | None => a
      | Some p =>
          a <| Metadata := gomap_set "priority" rawPriority (Metadata a) |>
            <| Attributes := <[AttributeFilePriority := "true"]>
                 (<["priority" := p]> (Attributes a)) |>
      end
  end.

(** ** The accessors of selector.go *)

Definition authPriority (auth : option Auth) : Z :=
  match auth with
  | None => 0
  | Some a =>
      let raw := TrimSpace (attr (Attributes a) "priority") in
      if String.eqb raw "" then 0 else default 0 (ParseInt64 raw)
  end.

(** An unparsable explicit weight excludes the credential. *)
Definition authWeight (auth : option Auth) : Z :=
  match auth with
  | None => Default
  | Some a =>
      let of_result r := match r with inl weight => weight | inr _ => 0 end in
      let from_metadata := match assoc AttributeWeight (Metadata a) with
                           | Some raw => of_result (ParseValue raw)
                           | None => Default
                           end in
      match Attributes a !! AttributeWeight with
      | Some raw => if String.eqb (TrimSpace raw) "" then from_metadata
                    else of_result (ParseString raw)
      | None => from_metadata
      end
  end.

Definition authWebsocketsEnabled (auth : option Auth) : bool :=
  match auth with
  | None => false
  | Some a =>
      let raw := TrimSpace (attr (Attributes a) "websockets") in
      match (if String.eqb raw "" then None else ParseBool raw) with
      | Some parsed => parsed
      | None =>
          match assoc "websockets" (Metadata a) with
          | Some (VBool v) => v
          | Some (VString v) => default false (ParseBool (TrimSpace v))
          | _ => false
          end
      end
  end.

(** ** Printing and parsing decimal numbers *)

Definition is_digit (c : ascii) : Prop := 48 ≤ byte_val c ≤ 57.

Lemma pretty_char_digit x : (x < 10)%N →
  digit_val (pretty_N_char x) = Some (Z.of_N x) ∧ is_digit (pretty_N_char x).
Proof.
  intros Hx. unfold is_digit.
  assert (x = 0 ∨ x = 1 ∨ x = 2 ∨ x = 3 ∨ x = 4 ∨ x = 5 ∨ x = 6 ∨ x = 7 ∨ x = 8 ∨ x = 9)%N as H by lia.
  repeat (destruct H as [->|H]; [split; [done|split; vm_compute; discriminate]|]).
  subst. split; [done|split; vm_compute; discriminate].
Qed.

Lemma pretty_go_spec x s :
  digits_val 0 (bytes (pretty_N_go x s)) = digits_val (Z.of_N x) (bytes s) ∧
  (Forall is_digit (bytes s) → Forall is_digit (bytes (pretty_N_go x s))) ∧
  (bytes s ≠ [] ∨ x ≠ 0%N → bytes (pretty_N_go x s) ≠ []).
Proof.
  revert s. induction (N.lt_wf_0 x) as [x _ IH]. intros s.
  destruct (decide (0 < x)%N) as [Hx|Hx].
  - rewrite pretty_N_go_step by done.
    pose proof (N.mod_lt x 10 ltac:(done)) as Hlt.
    pose proof (N.div_mod x 10 ltac:(done)) as Hdm.
    destruct (pretty_char_digit (x `mod` 10)%N Hlt) as [Hv Hd].
    destruct (IH (x `div` 10)%N ltac:(apply N.div_lt; lia)
      (String (pretty_N_char (x `mod` 10)) s)) as (E & F & G).
    split_and!.
    + rewrite E. simpl. rewrite Hv. f_equal. lia.
    + intros Hs. apply F. simpl. by constructor.
    + intros _. apply G. left. done.
  - assert (x = 0)%N as -> by lia. rewrite pretty_N_go_0. split_and!; [done..|]. naive_solver.
Qed.

Lemma pretty_N_spec x :
  digits_val 0 (bytes (pretty x)) = Some (Z.of_N x) ∧
  Forall is_digit (bytes (pretty x)) ∧ bytes (pretty x) ≠ [].
Proof.
  unfold pretty, pretty_N. case_decide as Hx.
  - subst. split_and!; [done| |done]. repeat constructor; vm_compute; discriminate.
  - destruct (pretty_go_spec x "") as (E & F & G). split_and!; [by rewrite E|by apply F|].
    apply G. by right.
Qed.

Lemma FormatInt_nonneg z : 0 ≤ z → FormatInt z = pretty (Z.to_N z).
Proof. intros Hz. unfold FormatInt. by destruct z. Qed.

Lemma digit_no_space c l : is_digit c → space_len (c :: l) = O.
Proof.
  unfold is_digit, space_len. intros Hc. simpl.
  destruct (Z.leb_spec 9 (byte_val c)), (Z.leb_spec (byte_val c) 13), (Z.eqb_spec (byte_val c) 32),
    (Z.eqb_spec (byte_val c) 194), (Z.eqb_spec (byte_val c) 225), (Z.eqb_spec (byte_val c) 226),
    (Z.eqb_spec (byte_val c) 227); try lia; simpl.
  all: repeat case_match; done.
Qed.

Lemma digits_no_space l : Forall is_digit l → space_len l = O.
Proof. intros [|c l' Hc]; [done|]. by apply digit_no_space. Qed.

Lemma TrimSpace_digits s : Forall is_digit (bytes s) → TrimSpace s = s.
Proof.
  intros Hs. unfold TrimSpace.
  assert (∀ len l, (∀ c l', l = c :: l' → len l = O) → trim_by len 0 l = l) as Hid.
  { intros len [|c l] H; [done|]. simpl. by rewrite (H c l eq_refl). }
  rewrite (Hid space_len) by (intros; by apply digits_no_space).
  rewrite Hid.
  - by rewrite rev_involutive, of_bytes_bytes.
  - intros c l' E. unfold rspace_len.
    assert (Forall is_digit (rev (bytes s))) as Hr.
    { by apply List.Forall_rev. }
    assert (∀ k, Forall is_digit (rev (take k (rev (bytes s))))) as Hk.
    { intros k. apply List.Forall_rev, Forall_take, List.Forall_rev, Hs. }
    rewrite !digits_no_space; [done|apply Hk..|by apply Forall_take].
Qed.

(** Printing a natural number and parsing it back. *)
Lemma ParseInt64_FormatInt z : 0 ≤ z ≤ MaxInt64 → ParseInt64 (FormatInt z) = Some z.
Proof.
  intros Hz. rewrite FormatInt_nonneg by lia. unfold ParseInt64.
  destruct (pretty_N_spec (Z.to_N z)) as (Hv & Hd & Hne).
  destruct (bytes (pretty (Z.to_N z))) as [|c l] eqn:E; [done|].
  inversion Hd as [|? ? Hc _]; subst.
  assert (c ≠ "-"%char ∧ c ≠ "+"%char) as [Hm Hp].
  { unfold is_digit in Hc. split; intros ->; vm_compute in Hc; destruct Hc; by destruct H. }
  replace (match (c :: l) with "-"%char :: l => (true, l) | "+"%char :: l => (false, l)
           | l => (false, l) end) with (false, c :: l).
  - rewrite Hv, Z2N.id by lia. simpl.
    assert (in_int64 z = true) as ->; [|done].
    apply in_int64_spec. unfold is_int64, MinInt64, MaxInt64 in *. lia.
  - destruct c as [[] [] [] [] [] [] [] []]; done.
Qed.

(** ** The range of a weight *)

Lemma Normalize_range z w : Normalize z = inl w → 0 ≤ w ≤ Max.
Proof. unfold Normalize, Max. intros. split_cases; to_prop; lia. Qed.

Lemma Normalize_id z : 0 ≤ z ≤ Max → Normalize z = inl z.
Proof. unfold Normalize, Max. intros. split_cases; to_prop; f_equal; lia. Qed.

Lemma ParseString_range s w : ParseString s = inl w → 0 ≤ w ≤ Max.
Proof.
  unfold ParseString. cbn zeta. intros H.
  case_match; [simplify_eq; unfold Default, Max; lia|]. case_match; [|done].
  by eapply Normalize_range.
Qed.

Lemma digits2_pos_lt m : Z.pos m < 2 ^ Z.pos (digits2_pos m).
Proof.
  induction m as [m IH|m IH|]; [| |done]; simpl digits2_pos;
    rewrite Pos2Z.inj_succ, Z.pow_succ_r by lia; lia.
Qed.

(** A finite binary64 number is at most [2^53] units of its exponent. *)
Lemma valid_mantissa s m e : valid_binary prec emax (S754_finite s m e) = true → Z.pos m < 2 ^ 53.
Proof.
  simpl. unfold bounded, canonical_mantissa, fexp, SpecFloat.emin, prec, emax.
  intros [H%Zeq_bool_eq _]%andb_true_iff.
  assert (Z.pos (digits2_pos m) ≤ 53) by lia.
  pose proof (digits2_pos_lt m).
  pose proof (Z.pow_le_mono_r 2 (Z.pos (digits2_pos m)) 53 ltac:(lia) ltac:(lia)). lia.
Qed.

Lemma ParseFloat_range f w :
  valid_binary prec emax f = true → ParseFloat f = inl w → 0 ≤ w ≤ Max.
Proof.
  unfold ParseFloat, Max. intros Hv H.
  destruct (f_is_nan f || f_is_inf f || negb (f_integral f)) eqn:Ei; [done|]. to_prop.
  destruct (f_leb f (f_of_Z 0)) eqn:Ez; [simplify_eq; lia|].
  destruct (f_gtb f (f_of_Z 1000000)) eqn:Em; [done|]. injection H as <-.
  destruct f as [[]|[]| |[] m e]; try done.
  pose proof (valid_mantissa _ _ _ Hv) as Hm.
  assert (f_of_Z 1000000 = S754_finite false 8589934592000000 (-33)) as Hf by by vm_compute.
  unfold f_gtb in Em. rewrite Hf in Em.
  unfold SFltb, SFcompare in Em.
  unfold f_to_int64, f_trunc.
  assert (0 ≤ (if 0 <=? e then Z.pos m * 2 ^ e else Z.pos m / 2 ^ (- e)) ≤ 1000000) as Hr.
  { destruct (Z.compare_spec (-33) e) as [He|He|He]; [|done|].
    - subst e. simpl (0 <=? -33). cbv iota. change (2 ^ - -33) with 8589934592.
      split; [apply Z.div_pos; lia|]. 
      destruct (Pos.compare_cont Eq 8589934592000000 m) eqn:Ec; [| done |].
      + apply Pos.compare_eq in Ec. subst. by vm_compute.
      + apply Pos.compare_gt_iff in Ec. clear -Ec. apply Z.div_le_upper_bound; [done|].
        change (8589934592 * 1000000) with (Z.pos 8589934592000000).
        by apply Pos2Z.pos_le_pos, Pos.lt_le_incl.
    - destruct (Z.leb_spec 0 e); [lia|].
      split; [apply Z.div_pos; lia|].
      transitivity (Z.pos m / 2 ^ 34).
      + apply Z.div_le_compat_l; [lia|]. split; [lia|]. apply Z.pow_le_mono_r; lia.
      + apply Z.div_le_upper_bound; lia. }
  destruct (in_int64 _) eqn:E; [exact Hr|].
  exfalso. rewrite <-not_true_iff_false in E. apply E, in_int64_spec.
  unfold is_int64, MinInt64, MaxInt64. lia.
Qed.

(** The dynamic values a decoder can produce. *)
Definition value_ok (v : goval) : Prop :=
  goval_ok v ∧ match v with
               | VFloat64 f | VFloat32 f => valid_binary prec emax f = true
               | _ => True
               end.

Lemma ParseValue_range v w : value_ok v → ParseValue v = inl w → 0 ≤ w ≤ Max.
Proof.
  intros [Hv Hf]. destruct v; simpl in *; try done;
    try (by apply Normalize_range); try (by apply ParseFloat_range); try (by apply ParseString_range).
  1-5: unfold is_uint64, Max in *; intros; split_cases; to_prop; lia.
  case_match; [|done]. by apply Normalize_range.
Qed.

(** The weight both sources declare: the attribute unless it is blank, then the
    metadata, then the default. *)
Definition declaredWeight (a : Auth) : Z + weightError :=
  match Attributes a !! AttributeWeight with
  | Some raw => if String.eqb (TrimSpace raw) "" then
                  match assoc AttributeWeight (Metadata a) with
                  | Some v => ParseValue v | None => inl Default end
                else ParseString raw
  | None => match assoc AttributeWeight (Metadata a) with
            | Some v => ParseValue v | None => inl Default end
  end.

Lemma authWeight_declared a :
  authWeight (Some a) = match declaredWeight a with inl w => w | inr _ => 0 end.
Proof. unfold authWeight, declaredWeight. repeat case_match; simplify_eq; done. Qed.

(** a credential's routing weight is always between 0 and one million; it
    is the declared weight when the validation accepts the credential, and an
    unparsable declaration excludes the credential (weight 0). *)
Theorem authWeight_sound a :
  (∀ v, assoc AttributeWeight (Metadata a) = Some v → value_ok v) →
  0 ≤ authWeight (Some a) ≤ Max ∧
  (ValidateAuthWeight (Some a) = None → declaredWeight a = inl (authWeight (Some a))) ∧
  (∀ e, declaredWeight a = inr e → authWeight (Some a) = 0).
Proof.
  intros Hok. rewrite authWeight_declared. split; [|split].
  - destruct (declaredWeight a) as [w|] eqn:E; [|unfold Max; lia].
    unfold declaredWeight in E.
    destruct (assoc AttributeWeight (Metadata a)) as [v|];
      repeat case_match; simplify_eq; try (unfold Default, Max; lia);
      first [by eapply ParseString_range|eapply ParseValue_range; [|eassumption]; by apply Hok].
  - unfold ValidateAuthWeight. intros Hv.
    destruct (declaredWeight a) as [w|e] eqn:E; [done|]. exfalso.
    unfold declaredWeight in E. repeat case_match; simplify_eq.
  - by intros e ->.
Qed.

Lemma authWeight_sound_witness :
  let a := zeroAuth <| Metadata := [("weight", VFloat64 (f_of_Z 250))] |> in
  0 ≤ authWeight (Some a) ≤ Max ∧ authWeight (Some a) = 250.
Proof.
  intros a. split; [|by vm_compute].
  apply (authWeight_sound a). intros v [= <-]. split; [done|by vm_compute].
Defined.

(** applying the weight of an auth file makes it the routing weight, and
    the attribute it leaves behind reads back as the same number. *)
Theorem ApplyAuthWeightMetadata_roundtrip a metadata v a' :
  value_ok v → assoc AttributeWeight metadata = Some v →
  ApplyAuthWeightMetadata a (Some metadata) = inl a' →
  ParseValue v = inl (authWeight (Some a')) ∧ ValidateAuthWeight (Some a') = None.
Proof.
  intros Hok Hv. unfold ApplyAuthWeightMetadata.
  destruct (ValidateAuthWeight (Some a)) eqn:Hval; [done|]. simpl. rewrite Hv.
  destruct (ParseValue v) as [w|] eqn:Ew; [|done]. intros [= <-].
  pose proof (ParseValue_range v w Hok Ew) as Hw. unfold Max in Hw.
  destruct (pretty_N_spec (Z.to_N w)) as (Hd & Hf & Hne).
  assert (TrimSpace (FormatInt w) = FormatInt w) as Ht.
  { rewrite FormatInt_nonneg by lia. by apply TrimSpace_digits. }
  assert (FormatInt w ≠ "") as Hnn.
  { rewrite FormatInt_nonneg by lia. intros E. by rewrite E in Hne. }
  assert (ParseString (FormatInt w) = inl w) as Hp.
  { unfold ParseString. rewrite Ht. cbn zeta. destruct (String.eqb_spec (FormatInt w) ""); [done|].
    rewrite ParseInt64_FormatInt by (unfold MaxInt64; lia).
    apply Normalize_id. unfold Max. lia. }
  split.
  - unfold authWeight. simpl. rewrite lookup_insert_eq, Ht.
    destruct (String.eqb_spec (FormatInt w) ""); [done|]. by rewrite Hp.
  - unfold ValidateAuthWeight in *. simpl. rewrite lookup_insert_eq, Hp. by repeat case_match.
Qed.

Lemma ApplyAuthWeightMetadata_roundtrip_witness :
  ParseValue (VString " 42 ") = inl (authWeight (Some
    (zeroAuth <| Attributes := {["weight" := "42"]} |>))).
Proof.
  refine (proj1 (ApplyAuthWeightMetadata_roundtrip zeroAuth [("weight", VString " 42 ")] _ _ _ eq_refl _)).
  - split; done.
  - vm_compute. reflexivity.
Defined.
