(* ===== verification/Smooth.v ===== *)
(** * Smooth weighted round-robin

    Models [smoothWeightedState] of [selector.go] ([prepare], [pruneStale],
    [weightsConfigChanged], [saturatingAddInt64]) and the credit loop that
    [pickSmoothWeightedAuth] and [pickSmoothWeightedScheduled] share, written once
    over the type of the candidates.  The main result is fairness: as many rounds
    as the total weight give every candidate exactly its weight in picks and
    bring every credit back to zero. *)
From Stdlib Require Import ZArith Lia String Bool.
From stdpp Require Import prelude gmap strings.
From S2P Require Import Prelude GoStd.
Local Open Scope string_scope.
Local Open Scope list_scope.
Local Open Scope Z_scope.

Definition saturatingAddInt64 (value delta : Z) : Z :=
  if (0 <? delta) && (MaxInt64 - delta <? value) then MaxInt64
  else if (delta <? 0) && (value <? MinInt64 - delta) then MinInt64
  else value + delta.

(** [credit m id] is the Go map read [m[id]]. *)
Definition credit (m : gmap string Z) (id : string) : Z := default 0 (m !! id).

Record smoothWeightedState := mkSmooth { current : gmap string Z; weights : gmap string Z }.
#[export] Instance smoothWeightedState_eta : Eta smoothWeightedState :=
  λ s, mkSmooth (current s) (weights s).
Definition zeroSmooth : smoothWeightedState := mkSmooth ∅ ∅.

Definition maxSmoothWeightedStateEntries : nat := 1024.

Definition weightsConfigChanged (left right : gmap string Z) : bool :=
  bool_decide (left ≠ ∅) &&
  existsb (λ '(authID, weight), match left !! authID with
                                | Some previous => negb (previous =? weight)
                                | None => false
                                end) (map_to_list right).

Definition keep_known (ws m : gmap string Z) : gmap string Z :=
  filter (λ kv, is_Some (ws !! kv.1)) m.

Definition pruneStale (s : smoothWeightedState) (ws : gmap string Z) : smoothWeightedState :=
  if (size (current s) <=? maxSmoothWeightedStateEntries)%nat
     && (size (weights s) <=? maxSmoothWeightedStateEntries)%nat then s
  else mkSmooth (keep_known ws (current s)) (keep_known ws (weights s)).

Definition prepare (s : smoothWeightedState) (ws : gmap string Z) : smoothWeightedState :=
  let cur := if weightsConfigChanged (weights s) ws then ∅ else current s in
  pruneStale (mkSmooth cur (ws ∪ weights s)) ws.

(** ** The credit loop *)

Section pick.
Context {A : Type} (id : A → string) (weight : A → Z) (keep : A → bool).

(** The guard both loops start with. *)
Definition eligible (e : A) : bool := negb (weight e <=? 0) && keep e.

Definition weightVector (entries : list A) : gmap string Z :=
  fold_left (λ ws e, if eligible e then <[id e := weight e]> ws else ws) entries ∅.

(** The loop variables: [picked] with [pickedCurrent], [totalWeight], [current]. *)
Record loop := mkLoop { l_picked : option (A * Z); l_total : Z; l_current : gmap string Z }.

Definition pick_step (s : loop) (e : A) : loop :=
  if eligible e then
    let c := saturatingAddInt64 (credit (l_current s) (id e)) (weight e) in
    mkLoop (match l_picked s with
            | None => Some (e, c)
            | Some (_, pickedCurrent) => if pickedCurrent <? c then Some (e, c) else l_picked s
            end)
           (saturatingAddInt64 (l_total s) (weight e))
           (<[id e := c]> (l_current s))
  else s.

Definition pick_loop (entries : list A) (cur : gmap string Z) : loop :=
  fold_left pick_step entries (mkLoop None 0 cur).

Definition pickSmoothWeighted (entries : list A) (cur : gmap string Z)
    : option A * gmap string Z :=
  let s := pick_loop entries cur in
  match l_picked s with
  | None => (None, l_current s)
  | Some (e, _) =>
      (Some e, <[id e := saturatingAddInt64 (credit (l_current s) (id e)) (- l_total s)]> (l_current s))
  end.

(** One weighted pick of a view: the vector is synchronised, then the loop runs. *)
Definition pick_round (entries : list A) (s : smoothWeightedState)
    : option A * smoothWeightedState :=
  let s := prepare s (weightVector entries) in
  let '(picked, cur) := pickSmoothWeighted entries (current s) in
  (picked, s <| current := cur |>).

Fixpoint pick_rounds (n : nat) (entries : list A) (s : smoothWeightedState)
    : list A * smoothWeightedState :=
  match n with
  | O => ([], s)
  | S n =>
      let '(picked, s) := pick_round entries s in
      let '(l, s) := pick_rounds n entries s in
      (match picked with Some e => e :: l | None => l end, s)
  end.
End pick.

(** ** Saturation *)

Ltac sat_cases :=
  unfold MinInt64, MaxInt64 in *;
  repeat match goal with |- context [?a <? ?b] => destruct (Z.ltb_spec a b) end; simpl; lia.

(** The saturating addition is the exact one clamped to 64 bits. *)
Lemma saturatingAddInt64_clamp v d :
  is_int64 v → is_int64 d → saturatingAddInt64 v d = Z.max MinInt64 (Z.min MaxInt64 (v + d)).
Proof. unfold saturatingAddInt64, is_int64. intros. sat_cases. Qed.

Lemma saturatingAddInt64_exact v d : is_int64 (v + d) → saturatingAddInt64 v d = v + d.
Proof. unfold saturatingAddInt64, is_int64. intros. sat_cases. Qed.

Lemma saturatingAddInt64_range v d : is_int64 v → is_int64 d → is_int64 (saturatingAddInt64 v d).
Proof. intros ? ?. rewrite saturatingAddInt64_clamp by done. unfold is_int64, MinInt64, MaxInt64 in *. lia. Qed.

Lemma credit_insert m i j c :
  credit (<[i := c]> m) j = if bool_decide (i = j) then c else credit m j.
Proof.
  unfold credit. case_bool_decide; subst; [by rewrite lookup_insert_eq|by rewrite lookup_insert_ne].
Qed.

(** ** Preparing the state *)

Lemma weightsConfigChanged_spec l r :
  weightsConfigChanged l r = true ↔ ∃ i w w', r !! i = Some w ∧ l !! i = Some w' ∧ w' ≠ w.
Proof.
  unfold weightsConfigChanged. rewrite andb_true_iff, bool_decide_eq_true, existsb_exists. split.
  - intros [_ ((i & w) & Hin & H)]. apply list_elem_of_In, elem_of_map_to_list in Hin.
    destruct (l !! i) as [w'|] eqn:E; [|done]. to_prop. by exists i, w, w'.
  - intros (i & w & w' & Hr & Hl & Hne). split; [intros ->; by rewrite lookup_empty in Hl|].
    exists (i, w). split; [by apply list_elem_of_In, elem_of_map_to_list|].
    rewrite Hl. by apply negb_true_iff, Z.eqb_neq.
Qed.

(** A candidate set whose configured weights are the recorded ones keeps the
    credits: a smaller set is not a configuration change. *)
Lemma prepare_keeps s ws :
  (∀ i w w', ws !! i = Some w → weights s !! i = Some w' → w' = w) →
  ∀ i, is_Some (ws !! i) → credit (current (prepare s ws)) i = credit (current s) i.
Proof.
  intros Hc i Hi. unfold prepare.
  assert (weightsConfigChanged (weights s) ws = false) as ->.
  { apply not_true_iff_false. rewrite weightsConfigChanged_spec. intros (j & w & w' & ? & ? & Hne).
    apply Hne. eauto. }
  unfold pruneStale. case_match; [done|]. simpl. unfold credit, keep_known. f_equal.
  destruct (current s !! i) as [c|] eqn:E.
  - by apply map_lookup_filter_Some.
  - apply map_lookup_filter_None. by left.
Qed.

(** Memory is bounded: an accumulator never outgrows the larger of the bound and
    the current candidate set. *)
Lemma prepare_bounded s ws :
  (size (weights (prepare s ws)) ≤ Nat.max maxSmoothWeightedStateEntries (size ws))%nat ∧
  (size (current (prepare s ws)) ≤ Nat.max maxSmoothWeightedStateEntries (size ws))%nat.
Proof.
  assert (∀ m, size (keep_known ws m) ≤ size ws)%nat as Hk.
  { intros m. rewrite <-!size_dom. apply subseteq_size. intros i.
    rewrite !elem_of_dom. intros [c Hc]. by apply map_lookup_filter_Some in Hc as [_ ?]. }
  unfold prepare, pruneStale. set (cur := if weightsConfigChanged _ _ then _ else _). simpl.
  match goal with |- context [if ?b then _ else _] => destruct b eqn:E end; simpl.
  - apply andb_true_iff in E as [?%Nat.leb_le ?%Nat.leb_le]. lia.
  - pose proof (Hk (ws ∪ weights s)). pose proof (Hk cur). lia.
Qed.

(** ** One turn of the loop *)

Section fairness.
Context {A : Type} (id : A → string) (weight : A → Z) (keep : A → bool).
Implicit Types (e p : A) (cur : gmap string Z).
Local Notation eligible := (eligible weight keep).

Definition candidates (entries : list A) : list A := filter (λ e, eligible e = true) entries.
Definition totalWeight (entries : list A) : Z := zsum weight (candidates entries).

Lemma elem_of_candidates e entries : e ∈ candidates entries ↔ e ∈ entries ∧ eligible e = true.
Proof using Type. unfold candidates. by rewrite list_elem_of_filter, (comm (∧)). Qed.

Lemma candidate_weight e entries : e ∈ candidates entries → 0 < weight e.
Proof using Type.
  rewrite elem_of_candidates. unfold Smooth.eligible. intros [_ H]. to_prop. lia.
Qed.

Lemma pick_loop_candidates entries cur :
  pick_loop id weight keep entries cur = pick_loop id weight keep (candidates entries) cur.
Proof.
  unfold pick_loop. generalize (mkLoop (A:=A) None 0 cur). unfold candidates.
  induction entries as [|e l IH]; intros s; simpl; [done|].
  rewrite filter_cons. case_decide as He; simpl; [by rewrite IH|].
  unfold pick_step at 2. destruct (eligible e); [done|]. apply IH.
Qed.

Lemma weightVector_candidates entries :
  weightVector id weight keep entries = weightVector id weight keep (candidates entries).
Proof.
  unfold weightVector. generalize (∅ : gmap string Z). unfold candidates.
  induction entries as [|e l IH]; intros ws; simpl; [done|].
  rewrite filter_cons. case_decide as He; simpl; [by rewrite IH|].
  destruct (eligible e); [done|]. apply IH.
Qed.

(** What candidate [e] would have after the turn's credit. *)
Definition offer cur e : Z := credit cur (id e) + weight e.

Lemma pick_loop_spec l cur :
  (∀ e, e ∈ l → eligible e = true) → NoDup (id <$> l) →
  (∀ e, e ∈ l → is_int64 (offer cur e)) → zsum weight l ≤ MaxInt64 →
  let s := pick_loop id weight keep l cur in
  l_total s = zsum weight l ∧
  (∀ i, credit (l_current s) i = credit cur i + zsum (λ e, if bool_decide (id e = i) then weight e else 0) l) ∧
  match l_picked s with
  | None => l = []
  | Some (p, c) => p ∈ l ∧ c = offer cur p ∧ ∀ e, e ∈ l → offer cur e ≤ c
  end.
Proof.
  induction l as [|x l IH] using rev_ind; intros Hel Hnd Hb Hw; [simpl; split_and!; try done; intros; lia|].
  assert (eligible x = true) as Hx by (apply Hel; set_solver).
  rewrite fmap_app in Hnd. apply NoDup_app in Hnd as (Hnd & Hdis & _).
  rewrite zsum_app in *. simpl in Hw.
  assert (0 < weight x) as Hwx.
  { unfold Smooth.eligible in Hx. to_prop. lia. }
  destruct IH as (Ht & Hc & Hp); [set_solver|done|set_solver|lia|].
  unfold pick_loop in *. rewrite fold_left_app. simpl.
  set (s := fold_left _ l _) in *. unfold pick_step. rewrite Hx.
  assert (credit (l_current s) (id x) = credit cur (id x)) as Hcx.
  { rewrite Hc. rewrite (zsum_ext _ (λ _, 0)); [rewrite zsum_const; lia|].
    intros e He. rewrite bool_decide_eq_false_2; [done|]. intros E.
    apply (Hdis (id x)); [rewrite <-E; by apply list_elem_of_fmap_2|simpl; by left]. }
  assert (0 ≤ zsum weight l) as Hnn.
  { transitivity (zsum (λ _ : A, 0) l); [rewrite zsum_const; lia|]. apply zsum_le.
    intros e He. assert (eligible e = true) as H by (apply Hel; set_solver).
    unfold Smooth.eligible in H. to_prop. lia. }
  rewrite !saturatingAddInt64_exact.
  2:{ rewrite Ht. unfold is_int64, MinInt64. lia. }
  2:{ rewrite Hcx. apply Hb. set_solver. }
  rewrite Hcx. simpl. split_and!.
  - rewrite Ht. lia.
  - intros i. rewrite credit_insert, zsum_app. simpl. case_bool_decide as Hi; [|rewrite Hc; lia].
    subst i. specialize (Hc (id x)). lia.
  - destruct (l_picked s) as [[p c]|]; simpl.
    + destruct Hp as (Hp & -> & Hmax). unfold offer in *.
      destruct (Z.ltb_spec (credit cur (id p) + weight p) (credit cur (id x) + weight x));
        (split_and!; [set_solver|done|]); intros e [He| ->%list_elem_of_singleton]%elem_of_app;
        try lia; specialize (Hmax e He); lia.
    + subst l. split_and!; [set_solver|done|]. intros e ->%list_elem_of_singleton. unfold offer. lia.
Qed.

(** A turn without saturation: the candidate with the largest offer wins and
    pays the total weight; the offers of the others become their credit. *)
Lemma pickSmoothWeighted_spec entries cur :
  let E := candidates entries in
  NoDup (id <$> E) → E ≠ [] → (∀ e, e ∈ E → is_int64 (offer cur e)) →
  totalWeight entries ≤ MaxInt64 →
  (∀ e, e ∈ E → MinInt64 + totalWeight entries ≤ offer cur e) →
  ∃ p cur', pickSmoothWeighted id weight keep entries cur = (Some p, cur') ∧ p ∈ E ∧
    (∀ e, e ∈ E → offer cur e ≤ offer cur p) ∧
    (∀ e, e ∈ E → credit cur' (id e) =
       offer cur e - (if bool_decide (id p = id e) then totalWeight entries else 0)).
Proof.
  intros E Hnd Hne Hb Hw Hmin. unfold pickSmoothWeighted. rewrite pick_loop_candidates. fold E.
  destruct (pick_loop_spec E cur) as (Ht & Hc & Hp); [|done..|].
  { intros e He. by apply elem_of_candidates in He as [_ ?]. }
  set (s := pick_loop id weight keep E cur) in *.
  destruct (l_picked s) as [[p c]|]; [|done].
  destruct Hp as (Hp & -> & Hmax).
  assert (∀ e, e ∈ E → credit (l_current s) (id e) = offer cur e) as Hcr.
  { intros e He. rewrite Hc, (zsum_single id weight) by done. done. }
  eexists p, _. split_and!; [done|done|done|].
  intros e He. rewrite Ht, !Hcr by done. rewrite saturatingAddInt64_exact.
  - rewrite credit_insert. fold (totalWeight entries). case_bool_decide as Hpe.
    + rewrite (key_inj_NoDup id E p e) by done. unfold totalWeight. fold E. lia.
    + rewrite Hcr by done. lia.
  - specialize (Hb p Hp). specialize (Hmin p Hp). unfold totalWeight in *. fold E in Hmin, Hw |- *.
    assert (0 ≤ zsum weight E).
    { transitivity (zsum (λ _ : A, 0) E); [rewrite zsum_const; lia|]. apply zsum_le.
      intros x Hx%candidate_weight. lia. }
    unfold is_int64 in *. lia.
Qed.
End fairness.

(** ** Rounds *)

Section rounds.
Context {A : Type} (id : A → string) (weight : A → Z) (keep : A → bool).
Context (entries : list A).
Local Notation E := (candidates weight keep entries).
Local Notation W := (totalWeight weight keep entries).
Local Notation vector := (weightVector id weight keep entries).

(** How often the candidate [e] occurs among the picks. *)
Definition picks_of (e : A) (picks : list A) : Z :=
  zsum (λ p, if bool_decide (id p = id e) then 1 else 0) picks.

(** The recorded weights do not contradict the configured ones. *)
Definition compatible (s : smoothWeightedState) : Prop :=
  ∀ i w w', vector !! i = Some w → weights s !! i = Some w' → w' = w.

(** A state that owes nothing: in particular the zero state. *)
Definition settled (s : smoothWeightedState) : Prop :=
  compatible s ∧ ∀ e, e ∈ E → credit (current s) (id e) = 0.

(** After [k] rounds a candidate's credit is what it has earned minus what its
    picks cost, and it never owes a whole turn. *)
Record fair (k : Z) (picks : list A) (s : smoothWeightedState) : Prop := {
  fair_length : Z.of_nat (length picks) = k;
  fair_member : ∀ p, p ∈ picks → p ∈ E;
  fair_credit : ∀ e, e ∈ E → credit (current s) (id e) = k * weight e - W * picks_of e picks;
  fair_debt : ∀ e, e ∈ E → - W < credit (current s) (id e);
  fair_compat : compatible s }.

Lemma vector_lookup e : NoDup (id <$> E) → e ∈ E → vector !! id e = Some (weight e).
Proof.
  rewrite weightVector_candidates. unfold weightVector.
  assert (∀ e, e ∈ E → eligible weight keep e = true) as Hel.
  { intros x Hx. by apply elem_of_candidates in Hx as [_ ?]. }
  revert Hel. generalize E. intros l. induction l as [|x l IH] using rev_ind; intros Hel Hnd He.
  { by apply not_elem_of_nil in He. }
  rewrite fold_left_app. simpl. rewrite Hel by set_solver.
  rewrite fmap_app in Hnd. apply NoDup_app in Hnd as (Hnd & Hdis & _).
  apply elem_of_app in He as [He| ->%list_elem_of_singleton]; [|by rewrite lookup_insert_eq].
  rewrite lookup_insert_ne; [apply IH; [set_solver|done|done]|].
  intros Ex. apply (Hdis (id e)); [by apply list_elem_of_fmap_2|]. rewrite <-Ex. simpl. by left.
Qed.

Lemma prepare_weights s i w : vector !! i = Some w → weights (prepare s vector) !! i = Some w.
Proof.
  intros Hw. unfold prepare, pruneStale.
  assert ((vector ∪ weights s) !! i = Some w) as Hu by by apply lookup_union_Some_l.
  case_match; simpl; [done|]. apply map_lookup_filter_Some. split; [done|]. simpl. by rewrite Hw.
Qed.

Lemma prepare_credit s e :
  NoDup (id <$> E) → compatible s → e ∈ E →
  credit (current (prepare s vector)) (id e) = credit (current s) (id e).
Proof. intros Hnd Hc He. apply prepare_keeps; [done|]. rewrite vector_lookup by done. done. Qed.

Context (Hnd : NoDup (id <$> E)) (Hne : E ≠ []).
Context (Hbound : (Z.of_nat (length E) + 1) * W ≤ MaxInt64).

Lemma weight_total e : e ∈ E → 0 < weight e ≤ W.
Proof.
  intros He. split; [by apply (candidate_weight weight keep e entries)|].
  apply zsum_elem; [|done]. intros b Hb. pose proof (candidate_weight weight keep b entries Hb). lia.
Qed.

Lemma total_pos : 0 < W.
Proof.
  destruct E as [|e l] eqn:El; [done|].
  assert (e ∈ E) as He by (rewrite El; by left). pose proof (weight_total e He). lia.
Qed.

Lemma picks_total picks :
  (∀ p, p ∈ picks → p ∈ E) → zsum (λ e, picks_of e picks) E = Z.of_nat (length picks).
Proof.
  intros Hp. unfold picks_of. rewrite zsum_swap.
  rewrite (zsum_ext _ (λ _, 1)); [rewrite zsum_const; lia|].
  intros p Hin. rewrite (zsum_ext _ (λ e, if bool_decide (id e = id p) then 1 else 0)).
  - by rewrite (zsum_single id (λ _, 1)) by auto.
  - intros e _. repeat case_bool_decide; congruence.
Qed.

(** Credits add up to zero, so nobody is ahead by more than the others owe. *)
Lemma fair_sum k picks s : fair k picks s → zsum (λ e, credit (current s) (id e)) E = 0.
Proof.
  intros [Hl Hm Hc _ _]. rewrite (zsum_ext _ _ _ Hc).
  transitivity (zsum (λ e, k * weight e) E + zsum (λ e, - W * picks_of e picks) E).
  - rewrite <-zsum_add. apply zsum_ext. intros. lia.
  - rewrite !zsum_mul, picks_total by done. unfold totalWeight. lia.
Qed.

Lemma fair_ahead k picks s e :
  fair k picks s → e ∈ E → credit (current s) (id e) + W ≤ Z.of_nat (length E) * W.
Proof.
  intros Hf He.
  transitivity (zsum (λ e, credit (current s) (id e) + W) E).
  - apply (zsum_elem (λ e, credit (current s) (id e) + W)); [|done].
    intros b Hb. pose proof (fair_debt _ _ _ Hf b Hb). lia.
  - rewrite zsum_add, (fair_sum _ _ _ Hf), zsum_const. lia.
Qed.

(** One round keeps the books. *)
Lemma fair_round k picks s :
  fair k picks s →
  ∃ p s', pick_round id weight keep entries s = (Some p, s') ∧ fair (k + 1) (picks ++ [p]) s'.
Proof.
  intros Hf. pose proof total_pos as HW. unfold pick_round.
  set (s1 := prepare s vector).
  assert (∀ e, e ∈ E → credit (current s1) (id e) = credit (current s) (id e)) as Hs1.
  { intros e He. apply prepare_credit; [done|by apply Hf|done]. }
  assert (∀ e, e ∈ E → 1 - W ≤ offer id weight (current s1) e ≤ MaxInt64) as Hoff.
  { intros e He. unfold offer. rewrite Hs1 by done. pose proof (weight_total e He).
    pose proof (fair_debt _ _ _ Hf e He). pose proof (fair_ahead _ _ _ e Hf He). lia. }
  assert (W + W ≤ MaxInt64) as HWm.
  { assert (1 ≤ Z.of_nat (length E)) by (destruct E; simpl in *; [done|lia]). nia. }
  destruct (pickSmoothWeighted_spec id weight keep entries (current s1)) as (p & cur' & -> & Hp & Hmax & Hcr);
    try done.
  { intros e He. specialize (Hoff e He). unfold is_int64, MinInt64, MaxInt64 in *. lia. }
  { lia. }
  { intros e He. specialize (Hoff e He). unfold MinInt64, MaxInt64 in *. lia. }
  eexists p, _. split; [done|].
  assert (0 < offer id weight (current s1) p) as Hpos.
  { destruct (Z.lt_decidable 0 (offer id weight (current s1) p)) as [|Hn]; [done|].
    assert (zsum (offer id weight (current s1)) E ≤ zsum (λ _, 0) E) as H.
    { apply zsum_le. intros e He. specialize (Hmax e He). lia. }
    rewrite zsum_const in H. unfold offer in H. rewrite zsum_add in H.
    rewrite (zsum_ext _ _ _ Hs1), (fair_sum _ _ _ Hf) in H. unfold totalWeight in HW. lia. }
  assert (∀ e, picks_of e (picks ++ [p]) =
    picks_of e picks + (if bool_decide (id p = id e) then 1 else 0)) as Hcount.
  { intros e. unfold picks_of. rewrite zsum_app. simpl. lia. }
  split.
  - rewrite length_app. simpl. pose proof (fair_length _ _ _ Hf). lia.
  - intros q [Hq|Hq%list_elem_of_singleton]%elem_of_app; [by eapply fair_member|by subst].
  - intros e He. simpl. rewrite Hcr, Hcount by done. unfold offer. rewrite Hs1 by done.
    rewrite (fair_credit _ _ _ Hf e He). case_bool_decide; lia.
  - intros e He. simpl. rewrite Hcr by done. case_bool_decide as Hpe.
    + rewrite <-(key_inj_NoDup id E p e) by done. lia.
    + unfold offer. rewrite Hs1 by done. pose proof (weight_total e He).
      pose proof (fair_debt _ _ _ Hf e He). lia.
  - intros i w w' Hi Hw'. simpl in Hw'. fold s1 in Hw'.
    pose proof (prepare_weights s i w Hi) as Hs. fold s1 in Hs. congruence.
Qed.

Lemma fair_rounds n k picks s :
  fair k picks s →
  ∃ l s', pick_rounds id weight keep n entries s = (l, s') ∧ fair (k + Z.of_nat n) (picks ++ l) s'.
Proof.
  revert k picks s. induction n as [|n IH]; intros k picks s Hf; cbn [pick_rounds].
  { exists [], s. rewrite app_nil_r. split; [done|]. by replace (k + Z.of_nat 0) with k by lia. }
  destruct (fair_round k picks s Hf) as (p & s1 & -> & Hf1).
  destruct (IH _ _ _ Hf1) as (l & s2 & -> & Hf2).
  exists (p :: l), s2. split; [done|]. rewrite <-app_assoc in Hf2.
  by replace (k + Z.of_nat (S n)) with (k + 1 + Z.of_nat n) by lia.
Qed.

Lemma settled_fair s : settled s → fair 0 [] s.
Proof.
  intros [Hc Hz]. pose proof total_pos. split; try done.
  - intros p Hp. by apply not_elem_of_nil in Hp.
  - intros e He. rewrite Hz by done. unfold picks_of. simpl. lia.
  - intros e He. rewrite Hz by done. lia.
Qed.
End rounds.

Lemma settled_zero {A} (id : A → string) weight keep entries : settled id weight keep entries zeroSmooth.
Proof. split; [|done]. intros i w w' _ H. simpl in H. by rewrite lookup_empty in H. Qed.

(** over as many rounds as the total weight, smooth weighted round-robin
    picks every candidate exactly as often as its weight says, and ends in a
    state that owes nothing, so the schedule repeats. *)
Theorem smooth_round_exact {A} (id : A → string) weight keep entries s :
  let E := candidates weight keep entries in
  let W := totalWeight weight keep entries in
  NoDup (id <$> E) → E ≠ [] → (Z.of_nat (length E) + 1) * W ≤ MaxInt64 →
  settled id weight keep entries s →
  let '(picks, s') := pick_rounds id weight keep (Z.to_nat W) entries s in
  (∀ e, e ∈ E → picks_of id e picks = weight e) ∧ settled id weight keep entries s'.
Proof.
  intros E W Hnd Hne Hb Hs. pose proof (total_pos id weight keep entries Hnd Hne Hb) as HW.
  destruct (fair_rounds id weight keep entries Hnd Hne Hb (Z.to_nat W) 0 [] s) as (l & s' & -> & Hf);
    [by apply settled_fair|].
  rewrite Z2Nat.id in Hf by (unfold W; lia). simpl in Hf.
  assert (∀ e, e ∈ E → credit (current s') (id e) = 0) as Hz.
  { intros e He. assert (zsum (λ e, credit (current s') (id e)) E = 0) as Hsum by by eapply fair_sum.
    assert (∀ b, b ∈ E → 0 ≤ credit (current s') (id b)) as Hnn.
    { intros b Hbin. pose proof (fair_credit _ _ _ _ _ _ _ Hf b Hbin) as Hc.
      pose proof (fair_debt _ _ _ _ _ _ _ Hf b Hbin) as Hd. fold W in Hc, Hd.
      assert (0 ≤ weight b - picks_of id b l) by (fold W in HW; nia). fold W in HW. nia. }
    pose proof (zsum_elem (λ e, credit (current s') (id e)) E e Hnn He). specialize (Hnn e He).
    unfold E in *. lia. }
  split; [|split; [by eapply fair_compat|done]].
  intros e He. pose proof (fair_credit _ _ _ _ _ _ _ Hf e He) as Hc. rewrite Hz in Hc by done.
  fold W in Hc, HW. nia.
Qed.

Lemma smooth_round_exact_witness :
  let entries := [("a", 5); ("b", 1); ("c", 1)] in
  (pick_rounds fst snd (λ _, true) 7 entries zeroSmooth).1.*1 = ["a"; "a"; "b"; "a"; "c"; "a"; "a"] ∧
  picks_of fst ("a", 5) (pick_rounds fst snd (λ _, true) 7 entries zeroSmooth).1 = 5.
Proof.
  intros entries. split; [by vm_compute|].
  pose proof (smooth_round_exact fst snd (λ _, true) entries zeroSmooth) as H.
  cbn zeta in H. change (Z.to_nat (totalWeight snd (λ _, true) entries)) with 7%nat in H.
  destruct (pick_rounds fst snd (λ _, true) 7 entries zeroSmooth) as [l s'].
  destruct H as [H _]; [|done| |apply settled_zero|].
  - by apply (bool_decide_unpack _).
  - vm_compute. discriminate.
  - apply (H ("a", 5)). vm_compute. left.
Defined.

(** at any moment of the rotation no candidate is a full turn ahead of its
    share of the rounds played, nor further behind than the other candidates
    together can be ahead: a candidate with positive weight is never starved. *)
Theorem smooth_round_deviation {A} (id : A → string) weight keep entries s n e :
  let E := candidates weight keep entries in
  let W := totalWeight weight keep entries in
  NoDup (id <$> E) → (Z.of_nat (length E) + 1) * W ≤ MaxInt64 →
  settled id weight keep entries s → e ∈ E →
  let picks := picks_of id e (pick_rounds id weight keep n entries s).1 in
  W * (picks - 1) < Z.of_nat n * weight e ∧
  Z.of_nat n * weight e ≤ W * (picks + Z.of_nat (length E) - 1).
Proof.
  intros E W Hnd Hb Hs He.
  assert (E ≠ []) as Hne by (intros Hn; rewrite Hn in He; by apply not_elem_of_nil in He).
  destruct (fair_rounds id weight keep entries Hnd Hne Hb n 0 [] s) as (l & s' & -> & Hf);
    [by apply settled_fair|].
  simpl in *. pose proof (fair_credit _ _ _ _ _ _ _ Hf e He) as Hc.
  pose proof (fair_debt _ _ _ _ _ _ _ Hf e He) as Hd.
  assert (credit (current s') (id e) + W ≤ Z.of_nat (length E) * W) as Ha by by eapply fair_ahead.
  fold W E in Hc, Hd, Ha. simpl in Hc. nia.
Qed.

Lemma smooth_round_deviation_witness :
  let entries := [("a", 5); ("b", 1); ("c", 1)] in
  7 * (picks_of fst ("b", 1) (pick_rounds fst snd (λ _, true) 12 entries zeroSmooth).1 - 1) < 12 * 1.
Proof.
  intros entries.
  refine (proj1 (smooth_round_deviation fst snd (λ _, true) entries zeroSmooth 12 ("b", 1) _ _ _ _)).
  - by apply (bool_decide_unpack _).
  - vm_compute. discriminate.
  - apply settled_zero.
  - vm_compute. right. left.
Defined.

(** Saturation or not, a pick is a candidate, and there is one unless there are
    no candidates. *)
Lemma pickSmoothWeighted_member {A} (id : A → string) weight keep entries cur :
  match (pickSmoothWeighted id weight keep entries cur).1 with
  | Some e => e ∈ candidates weight keep entries
  | None => candidates weight keep entries = []
  end.
Proof.
  unfold pickSmoothWeighted, pick_loop.
  assert (∀ s, let r := fold_left (pick_step id weight keep) entries s in
    match l_picked r with
    | Some (e, _) => e ∈ candidates weight keep entries ∨ ∃ c, l_picked s = Some (e, c)
    | None => l_picked s = None ∧ candidates weight keep entries = []
    end) as H.
  { induction entries as [|x l IH]; intros s; simpl.
    { destruct (l_picked s) as [[e c]|]; [right; by exists c|done]. }
    specialize (IH (pick_step id weight keep s x)). cbn zeta in IH.
    unfold candidates in *. rewrite filter_cons.
    destruct (l_picked (fold_left _ l _)) as [[e c]|].
    - destruct IH as [He|[c' He]]; [left; case_decide; [by right|done]|].
      unfold pick_step in He. destruct (eligible weight keep x) eqn:Ex; simpl in He.
      + rewrite decide_True by done. destruct (l_picked s) as [[p pc]|] eqn:Ep.
        * destruct (pc <? _); simplify_eq; [left; by left|right; by exists c'].
        * simplify_eq. left. by left.
      + rewrite decide_False by done. right. by exists c'.
    - destruct IH as [He Hc]. unfold pick_step in He. destruct (eligible weight keep x) eqn:Ex; simpl in He.
      + destruct (l_picked s) as [[p pc]|]; [by destruct (pc <? _)|done].
      + by rewrite decide_False by done. }
  specialize (H (mkLoop None 0 cur)). cbn zeta in H.
  destruct (l_picked (fold_left _ entries _)) as [[e c]|]; simpl in *.
  - by destruct H as [?|[? ?]].
  - by destruct H.
Qed.
