(* ===== verification/Availability.v ===== *)
(** * When a credential may serve a model

    Models the availability tests of [selector.go] ([canonicalModelKey],
    [availabilityBlock], [isAuthBlockedForModel]), [isCredentialBlocked] of
    [scheduler.go], [hasUnauthorizedAuthFailure] of [conductor_cooldown.go], the
    provider keys of [conductor_execution.go]/[internal/util/provider.go], and the
    request eligibility of [conductor_selection.go] and [credential_policy.go].

    [isAuthBlockedForModel] ranges over a Go map; the model ranges over a list of
    its entries and shows what does and does not depend on the order. *)
From Stdlib Require Import ZArith Lia Ascii String Bool.
From stdpp Require Import prelude gmap strings.
From S2P Require Import Prelude GoStd Thinking AuthTypes Weight.
Local Open Scope string_scope.
Local Open Scope list_scope.
Local Open Scope Z_scope.

(** ** Model and provider keys *)

Definition canonicalModelKey (model : string) : string :=
  let model := TrimSpace model in
  if String.eqb model "" then "" else
  let modelName := TrimSpace (ModelName (Suffix.ParseSuffix model)) in
  if String.eqb modelName "" then model else modelName.

Definition openAICompatibleProviderPrefix := "openai-compatible-".

Definition OpenAICompatibleProviderKey (name : string) : string :=
  let name := ToLower (TrimSpace name) in
  if String.eqb name "" then "openai-compatibility"
  else if String.eqb name "openai-compatibility" || HasPrefix name openAICompatibleProviderPrefix then name
  else openAICompatibleProviderPrefix +:+ name.

Definition canonicalSchedulingProvider (key : string) : string :=
  let lower := ToLower (TrimSpace key) in
  if String.eqb lower "kimi.com" then "kimi"
  else if String.eqb lower "kimi.ai" then "kimi-ai" else lower.

Definition executorKeyFromAuth (auth : option Auth) : string :=
  match auth with
  | None => ""
  | Some a =>
      let providerKey := TrimSpace (attr (Attributes a) "provider_key") in
      let compatName := TrimSpace (attr (Attributes a) "compat_name") in
      if negb (String.eqb compatName "") then
        OpenAICompatibleProviderKey (if String.eqb providerKey "" then compatName else providerKey)
      else if EqualFold (TrimSpace (Provider a)) "openai-compatibility" then
        let label := TrimSpace (Label a) in
        OpenAICompatibleProviderKey (if String.eqb label "" then "openai-compatibility" else label)
      else
        let provider := ToLower (TrimSpace (Provider a)) in
        if String.eqb provider "kimi.com" then "kimi"
        else if String.eqb provider "kimi.ai" then "kimi-ai" else provider
  end.

Definition providerPrefersWebsocketTransport (providerKey : string) : bool :=
  bool_decide (ToLower (TrimSpace providerKey) ∈ ["codex"; "xai"]).

(** ** Request eligibility *)

Definition CredentialPolicyCodexAlphaSearchV1 := "codex_alpha_search_v1".

Definition normalizeCredentialPolicy (policy : string) : string :=
  if String.eqb (ToLower (TrimSpace policy)) CredentialPolicyCodexAlphaSearchV1
  then CredentialPolicyCodexAlphaSearchV1 else "".

Definition credentialPolicyAllows (policy : string) (auth : option Auth) : bool :=
  match auth with
  | None => false
  | Some a =>
      if String.eqb policy CredentialPolicyCodexAlphaSearchV1 then
        if negb (EqualFold (TrimSpace (Provider a)) "codex") then false
        else if String.eqb (AuthKind auth) AuthKindOAuth then true
        else if String.eqb (AuthKind auth) AuthKindAPIKey
        then EqualFold (authAttribute auth "codex_alpha_search") "true"
        else false
      else false
  end.

Definition isFreeCodexAuth (auth : option Auth) : bool :=
  match auth with
  | None => false
  | Some a => EqualFold (TrimSpace (Provider a)) "codex"
              && EqualFold (TrimSpace (attr (Attributes a) "plan_type")) "free"
  end.

Definition PinnedAuthMetadataKey := "pinned_auth_id".
Definition DisallowFreeAuthMetadataKey := "disallow_free_auth".

Definition pinnedAuthIDFromMetadata (meta : gomap) : string :=
  match assoc PinnedAuthMetadataKey meta with
  | Some (VString val) | Some (VBytes val) => TrimSpace val
  | _ => ""
  end.

Definition disallowFreeAuthFromMetadata (meta : gomap) : bool :=
  match assoc DisallowFreeAuthMetadataKey meta with
  | Some (VBool val) => val
  | Some (VString val) | Some (VBytes val) => default false (ParseBool (TrimSpace val))
  | _ => false
  end.

Record authSelectionEligibility := mkEligibility {
  requiredKind : string; credentialPolicy : string; disallowFreeAuth : bool }.

(** What the selection reads from the request context and options. *)
Record request := mkRequest {
  ctx_required_kind : string; ctx_credential_policy : string; ctx_downstream_websocket : bool;
  opts_metadata : gomap }.

Definition authSelectionEligibilityForRequest (r : request) : authSelectionEligibility :=
  mkEligibility (ctx_required_kind r) (ctx_credential_policy r)
    (disallowFreeAuthFromMetadata (opts_metadata r)).

Definition allows (e : authSelectionEligibility) (auth : option Auth) : bool :=
  match auth with
  | None => false
  | Some _ =>
      if negb (String.eqb (requiredKind e) "") && negb (String.eqb (AuthKind auth) (requiredKind e))
      then false
      else if negb (String.eqb (credentialPolicy e) "")
              && negb (credentialPolicyAllows (credentialPolicy e) auth)
      then false
      else negb (disallowFreeAuth e) || negb (isFreeCodexAuth auth)
  end.

(** ** Blocks *)

Inductive blockReason := blockReasonNone | blockReasonCooldown | blockReasonDisabled | blockReasonOther.
#[export] Instance blockReason_dec : EqDecision blockReason.
Proof. solve_decision. Defined.

(** [blocked, reason, next] as returned by the tests below. *)
Definition block := (bool * blockReason * time)%type.
Definition unblocked : block := (false, blockReasonNone, zero_time).

(** The later of two recovery times that are still to come, zero if neither is. *)
Definition latest_future (a b now : time) : time :=
  let next := if After a now then a else zero_time in
  if After b now && (IsZero next || After b next) then b else next.

Definition availabilityBlock (unavailable quotaExceeded : bool)
    (nextRetryAfter nextRecoverAt now : time) : block :=
  if negb unavailable && negb quotaExceeded then unblocked else
  let hasRecoveryTime := negb (IsZero nextRetryAfter) || negb (IsZero nextRecoverAt) in
  let next := latest_future nextRetryAfter nextRecoverAt now in
  if negb (IsZero next) then
    (true, if quotaExceeded then blockReasonCooldown else blockReasonOther, next)
  else if hasRecoveryTime then unblocked
  else (true, blockReasonOther, zero_time).

Definition hasUnauthorizedAuthFailure (auth : option Auth) : bool :=
  match auth with
  | None => false
  | Some a =>
      match LastError a with
      | None => false
      | Some e =>
          Unavailable a && bool_decide (A_Status a = StatusError)
          && IsZero (NextRefreshAfter a) && IsZero (NextRetryAfter a)
          && ((E_HTTPStatus e =? 401) || EqualFold (E_Code e) "unauthorized")
      end
  end.

Definition credential_quota (a : Auth) (now : time) : bool :=
  Q_Exceeded (Quota a) && String.eqb (Q_Reason (Quota a)) "credential_quota"
  && After (Q_NextRecoverAt (Quota a)) now.

(** The per-model loop.  [acc] is [matched, blocked, blockedReason, nextRetry];
    an early return leaves the loop with [inr]. *)
Definition states_acc := (bool * bool * blockReason * time)%type.

Definition state_step (modelKey : string) (now : time) (acc : states_acc + block)
    (entry : string * option ModelState) : states_acc + block :=
  match acc with
  | inr r => inr r
  | inl (matched, blocked, blockedReason, nextRetry) =>
      match entry.2 with
      | None => acc
      | Some state =>
          if negb (String.eqb (canonicalModelKey entry.1) modelKey) then acc
          else if bool_decide (M_Status state = StatusDisabled)
          then inr (true, blockReasonDisabled, zero_time)
          else
            match availabilityBlock (M_Unavailable state) (Q_Exceeded (M_Quota state))
                    (M_NextRetryAfter state) (Q_NextRecoverAt (M_Quota state)) now with
            | (false, _, _) => inl (true, blocked, blockedReason, nextRetry)
            | (true, reason, next) =>
                if IsZero next then inr (true, reason, zero_time)
                else if negb blocked || After next nextRetry
                        || (TimeEqual next nextRetry && bool_decide (reason = blockReasonCooldown))
                then inl (true, true, reason, next)
                else inl (true, blocked, blockedReason, nextRetry)
            end
      end
  end.

Definition states_block (states : list (string * option ModelState)) (modelKey : string) (now : time)
    : block :=
  match fold_left (state_step modelKey now) states (inl (false, false, blockReasonNone, zero_time)) with
  | inr r => r
  | inl (true, blocked, blockedReason, nextRetry) => (blocked, blockedReason, nextRetry)
  | inl (false, _, _, _) => unblocked
  end.

Section blocked.
Context `{GoHost}.

(** [exp, ok := auth.AccessTokenExpirationTime(); ok && !exp.IsZero() && !exp.After(now)] *)
Definition token_expired (auth : option Auth) (now : time) : bool :=
  match AccessTokenExpirationTime auth with
  | Some exp => negb (IsZero exp) && negb (After exp now)
  | None => false
  end.

(** [states] is [auth.ModelStates] in the order Go happens to range over it. *)
Definition isAuthBlockedForModel_in (states : list (string * option ModelState))
    (auth : option Auth) (model : string) (now : time) : block :=
  match auth with
  | None => (true, blockReasonOther, zero_time)
  | Some a =>
      if Disabled a || bool_decide (A_Status a = StatusDisabled)
      then (true, blockReasonDisabled, zero_time)
      else if hasUnauthorizedAuthFailure auth then (true, blockReasonOther, zero_time)
      else if token_expired auth now then (true, blockReasonOther, zero_time)
      else if credential_quota a now then (true, blockReasonCooldown, Q_NextRecoverAt (Quota a))
      else if negb (String.eqb model "") then
        match states with
        | [] => availabilityBlock (Unavailable a) (Q_Exceeded (Quota a)) (NextRetryAfter a)
                  (Q_NextRecoverAt (Quota a)) now
        | _ => states_block states (canonicalModelKey model) now
        end
      else
        let quotaExceeded :=
          match states with
          | [] => Q_Exceeded (Quota a)
          | _ => if negb (String.eqb (Q_Reason (Quota a)) "credential_quota") && negb (Unavailable a)
                 then false else Q_Exceeded (Quota a)
          end in
        availabilityBlock (Unavailable a) quotaExceeded (NextRetryAfter a)
          (Q_NextRecoverAt (Quota a)) now
  end.

Definition isAuthBlockedForModel (auth : option Auth) (model : string) (now : time) : block :=
  isAuthBlockedForModel_in (match auth with Some a => map_to_list (ModelStates a) | None => [] end)
    auth model now.

(** [isCredentialBlocked]: blocked for every model. *)
Definition isCredentialBlocked (auth : option Auth) (supportedModelCount : nat) (now : time) : bool :=
  match auth with
  | None => true
  | Some a =>
      if Disabled a || bool_decide (A_Status a = StatusDisabled) then true
      else if hasUnauthorizedAuthFailure auth then true
      else if token_expired auth now then true
      else if credential_quota a now then true
      else if (size (ModelStates a) =? 0)%nat then
        Unavailable a || Q_Exceeded (Quota a)
        || (negb (IsZero (NextRetryAfter a)) && After (NextRetryAfter a) now)
      else if (0 <? supportedModelCount)%nat && (size (ModelStates a) <? supportedModelCount)%nat
      then false
      else Unavailable a
  end.
End blocked.

#[global] Arguments isAuthBlockedForModel : simpl never.
#[global] Arguments token_expired : simpl never.
#[global] Arguments canonicalModelKey : simpl never.
#[global] Arguments executorKeyFromAuth : simpl never.
#[global] Arguments allows : simpl never.

(** ** The block of one state *)

Lemma latest_future_spec a b now :
  0 ≤ now →
  latest_future a b now = (if (now <? a) || (now <? b) then Z.max a b else 0).
Proof.
  intros Hn. unfold latest_future, After, IsZero, zero_time.
  destruct (Z.ltb_spec now a), (Z.ltb_spec now b); simpl; try done;
    repeat case_match; to_prop; try lia; destruct (Z.eqb_spec a 0), (Z.ltb_spec a b); simpl in *; try done; lia.
Qed.

(** The whole behaviour of the test, as one table. *)
Lemma availabilityBlock_spec unavailable exceeded retry recover now :
  0 ≤ now →
  availabilityBlock unavailable exceeded retry recover now =
    if negb (unavailable || exceeded) then unblocked
    else if (now <? retry) || (now <? recover) then
      (true, if exceeded then blockReasonCooldown else blockReasonOther, Z.max retry recover)
    else if (retry =? 0) && (recover =? 0) then (true, blockReasonOther, 0) else unblocked.
Proof.
  intros Hn. unfold availabilityBlock. rewrite negb_orb. case_match; [done|].
  rewrite latest_future_spec by done. unfold IsZero, zero_time.
  destruct ((now <? retry) || (now <? recover)) eqn:E.
  - destruct (Z.eqb_spec (Z.max retry recover) 0); [|done]. exfalso.
    apply orb_true_iff in E as [?%Z.ltb_lt|?%Z.ltb_lt]; lia.
  - simpl. rewrite <-negb_andb. by destruct ((retry =? 0) && (recover =? 0)).
Qed.

Definition is_blocked (b : block) : bool := b.1.1.
Definition block_reason (b : block) : blockReason := b.1.2.
Definition block_next (b : block) : time := b.2.

(** Well-formed blocks: a retry time is in the future, a cooldown has one, and
    nothing is recorded for an unblocked credential. *)
Definition block_ok (b : block) (now : time) : Prop :=
  (is_blocked b = false → b = unblocked) ∧
  (block_next b ≠ 0 → now < block_next b) ∧
  (block_reason b = blockReasonCooldown → block_next b ≠ 0) ∧
  (block_reason b = blockReasonDisabled → block_next b = 0) ∧
  (block_reason b = blockReasonNone → is_blocked b = false).

Lemma availabilityBlock_ok u q r c now : 0 ≤ now → block_ok (availabilityBlock u q r c now) now.
Proof.
  intros Hn. rewrite availabilityBlock_spec by done. unfold unblocked.
  case_match; [by repeat split|].
  destruct ((now <? r) || (now <? c)) eqn:E.
  - assert (now < Z.max r c) by (apply orb_true_iff in E as [?%Z.ltb_lt|?%Z.ltb_lt]; lia).
    unfold block_ok, is_blocked, block_reason, block_next; simpl. split_and!; destruct q; try done; lia.
  - case_match; by repeat split.
Qed.

(** *** Time passing *)

(** A credential that is free stays free. *)
Lemma availabilityBlock_free u q r c t t' :
  0 ≤ t → t ≤ t' → is_blocked (availabilityBlock u q r c t) = false →
  is_blocked (availabilityBlock u q r c t') = false.
Proof.
  intros H0 Ht. rewrite !availabilityBlock_spec by lia. case_match; [done|].
  destruct ((t <? r) || (t <? c)) eqn:E; [done|]. to_prop.
  assert ((t' <? r) || (t' <? c) = false) as -> by (apply orb_false_iff; split; apply Z.ltb_ge; lia).
  by case_match.
Qed.

(** A block holds until its retry time, for ever if it has none. *)
Lemma availabilityBlock_holds u q r c t t' :
  0 ≤ t → t ≤ t' → is_blocked (availabilityBlock u q r c t) = true →
  (block_next (availabilityBlock u q r c t) ≠ 0 → t' < block_next (availabilityBlock u q r c t)) →
  availabilityBlock u q r c t' = availabilityBlock u q r c t.
Proof.
  intros H0 Ht. rewrite !availabilityBlock_spec by lia. case_match; [done|].
  destruct ((t <? r) || (t <? c)) eqn:E.
  - intros _ Hn. unfold block_next in Hn. simpl in Hn.
    assert (t < Z.max r c) by (apply orb_true_iff in E as [?%Z.ltb_lt|?%Z.ltb_lt]; lia).
    assert ((t' <? r) || (t' <? c) = true) as ->; [|done].
    apply orb_true_iff. rewrite !Z.ltb_lt. lia.
  - destruct ((r =? 0) && (c =? 0)) eqn:E0; [|done]. intros _ _. to_prop.
    assert ((t' <? r) || (t' <? c) = false) as ->; [|done].
    apply orb_false_iff; split; apply Z.ltb_ge; lia.
Qed.

(** Once its retry time has come, a block is over. *)
Lemma availabilityBlock_heals u q r c t t' :
  0 ≤ t → t ≤ t' → is_blocked (availabilityBlock u q r c t) = true →
  block_next (availabilityBlock u q r c t) ≠ 0 → block_next (availabilityBlock u q r c t) ≤ t' →
  is_blocked (availabilityBlock u q r c t') = false.
Proof.
  intros H0 Ht. rewrite !availabilityBlock_spec by lia. case_match; [done|].
  destruct ((t <? r) || (t <? c)) eqn:E.
  - intros _ _ Hn. unfold block_next in Hn. simpl in Hn.
    assert (t < Z.max r c) by (apply orb_true_iff in E as [?%Z.ltb_lt|?%Z.ltb_lt]; lia).
    assert ((t' <? r) || (t' <? c) = false) as ->.
    { apply orb_false_iff; split; apply Z.ltb_ge; lia. }
    destruct (Z.eqb_spec r 0), (Z.eqb_spec c 0); simpl; try done. lia.
  - by case_match.
Qed.

(** ** The block of several states, whatever the order

    The states of one model are summarised by the worst of them: a state without
    a retry time blocks for good, otherwise the latest retry time counts. *)

Definition state_block (now : time) (s : ModelState) : block :=
  if bool_decide (M_Status s = StatusDisabled) then (true, blockReasonDisabled, zero_time)
  else availabilityBlock (M_Unavailable s) (Q_Exceeded (M_Quota s)) (M_NextRetryAfter s)
         (Q_NextRecoverAt (M_Quota s)) now.

Definition matching (modelKey : string) (states : list (string * option ModelState)) : list ModelState :=
  omap (λ e, match e.2 with
             | Some s => if String.eqb (canonicalModelKey e.1) modelKey then Some s else None
             | None => None
             end) states.

Definition hard (b : block) : bool := is_blocked b && IsZero (block_next b).
Definition max_next (l : list block) : time := foldr (λ b n, Z.max (block_next b) n) 0 l.
Definition cooling_at (t : time) (b : block) : bool :=
  bool_decide (block_reason b = blockReasonCooldown) && TimeEqual (block_next b) t.

Definition summary (l : list block) : block :=
  if existsb hard l then (true, blockReasonOther, zero_time)
  else if existsb is_blocked l then
    (true, if existsb (cooling_at (max_next l)) l then blockReasonCooldown else blockReasonOther,
     max_next l)
  else unblocked.

(** Up to which of the two reasons of a lasting block was met first. *)
Definition coarse (b : block) : block :=
  (is_blocked b, if bool_decide (block_reason b = blockReasonDisabled) then blockReasonOther
                 else block_reason b, block_next b).

Lemma state_block_ok now s : 0 ≤ now → block_ok (state_block now s) now.
Proof.
  intros Hn. unfold state_block. case_bool_decide; [|by apply availabilityBlock_ok].
  unfold block_ok, is_blocked, block_reason, block_next; simpl. by split_and!.
Qed.

(** One turn of the loop, on the block of the state it looks at. *)
Definition merge_block (acc : states_acc + block) (b : block) : states_acc + block :=
  match acc with
  | inr r => inr r
  | inl (matched, blocked, reason, next) =>
      if is_blocked b then
        if IsZero (block_next b) then inr (true, block_reason b, zero_time)
        else if negb blocked || After (block_next b) next
                || (TimeEqual (block_next b) next && bool_decide (block_reason b = blockReasonCooldown))
        then inl (true, true, block_reason b, block_next b)
        else inl (true, blocked, reason, next)
      else inl (true, blocked, reason, next)
  end.

Lemma state_step_merge modelKey now acc states :
  fold_left (state_step modelKey now) states acc
  = fold_left merge_block (state_block now <$> matching modelKey states) acc.
Proof.
  revert acc. induction states as [|[k [s|]] l IH]; intros acc; [done| |].
  - cbn [fold_left]. rewrite IH. unfold matching at 2. simpl.
    destruct (String.eqb (canonicalModelKey k) modelKey) eqn:Ek; simpl; f_equal;
      unfold state_step; simpl; rewrite Ek; simpl.
    + unfold merge_block, state_block. destruct acc as [[[[m b] r] n]|]; [|done].
      case_bool_decide; [done|].
      by destruct (availabilityBlock _ _ _ _ _) as [[[] ?] ?].
    + by destruct acc as [[[[m b] r] n]|].
  - cbn [fold_left]. rewrite IH. unfold matching at 2. simpl. f_equal.
    by destruct acc as [[[[? ?] ?] ?]|].
Qed.

Lemma max_next_app l b : max_next (l ++ [b]) = Z.max (max_next l) (block_next b).
Proof. unfold max_next. induction l as [|x l IH]; simpl in *; [lia|]. rewrite IH. lia. Qed.

Lemma max_next_ge l b : b ∈ l → block_next b ≤ max_next l.
Proof.
  induction l as [|x l IH]; intros Hb; [by apply not_elem_of_nil in Hb|]. simpl.
  apply elem_of_cons in Hb as [->|Hb]; [lia|]. specialize (IH Hb). lia.
Qed.

Lemma max_next_nonneg l : 0 ≤ max_next l.
Proof. induction l; simpl; lia. Qed.

Lemma cooling_none_above l t : max_next l < t → existsb (cooling_at t) l = false.
Proof.
  intros Ht. apply not_true_iff_false. rewrite existsb_exists. intros (b & Hb & H).
  apply list_elem_of_In in Hb. pose proof (max_next_ge l b Hb).
  unfold cooling_at, TimeEqual in H. to_prop. lia.
Qed.

Lemma existsb_snoc {A} (f : A → bool) l x : existsb f (l ++ [x]) = existsb f l || f x.
Proof. rewrite existsb_app. simpl. by rewrite orb_false_r. Qed.

(** Invariant of the loop over the blocks [l] seen so far. *)
Lemma merge_blocks now l :
  0 ≤ now → Forall (λ b, block_ok b now) l →
  match fold_left merge_block l (inl (false, false, blockReasonNone, zero_time)) with
  | inr r => existsb hard l = true ∧
             (r = (true, blockReasonOther, zero_time) ∨ r = (true, blockReasonDisabled, zero_time))
  | inl (matched, blocked, reason, next) =>
      existsb hard l = false ∧ matched = bool_decide (l ≠ []) ∧ (blocked, reason, next) = summary l
  end.
Proof.
  intros Hn. induction l as [|b l IH] using rev_ind; intros Hok; [done|].
  apply Forall_app in Hok as [Hok [Hb _]%Forall_cons]. specialize (IH Hok).
  rewrite fold_left_app. simpl.
  destruct (fold_left merge_block l _) as [[[[m bl] r] n]|r]; rewrite existsb_snoc.
  2:{ destruct IH as [-> ?]. done. }
  destruct IH as (Hh & -> & E). rewrite Hh. unfold summary in *. rewrite Hh in E.
  rewrite !existsb_snoc, max_next_app, Hh. simpl.
  destruct Hb as (Hu & Hfut & Hcool & Hdis & Hnone).
  pose proof (max_next_nonneg l) as Hmn.
  assert (hard b = is_blocked b && IsZero (block_next b)) as -> by done.
  destruct (is_blocked b) eqn:Ebb; simpl.
  - destruct (IsZero (block_next b)) eqn:Ez; simpl.
    { split; [done|]. unfold IsZero in Ez. to_prop.
      destruct (block_reason b); [|by specialize (Hcool eq_refl)|by right|by left].
      by specialize (Hnone eq_refl). }
    unfold IsZero in Ez. to_prop. specialize (Hfut Ez). rewrite !orb_true_r.
    assert (block_reason b = blockReasonCooldown ∨ block_reason b = blockReasonOther) as Hrs.
    { destruct (block_reason b); auto; exfalso; [by specialize (Hnone eq_refl)|by apply Ez, Hdis]. }
    assert (true = bool_decide (l ++ [b] ≠ [])) as Hm by (by rewrite bool_decide_eq_true_2 by (by destruct l)).
    assert (∀ t, cooling_at t b = bool_decide (block_reason b = blockReasonCooldown) && (block_next b =? t)) as Hca by done.
    destruct (existsb is_blocked l) eqn:Eb; [simplify_eq/=|].
    + unfold After, TimeEqual. destruct (Z.ltb_spec (max_next l) (block_next b)); simpl.
      * (* later *) split_and!; [done|done|].
        rewrite Z.max_r by lia. rewrite cooling_none_above, Hca, Z.eqb_refl by done.
        by destruct Hrs as [-> | ->].
      * rewrite (Z.max_l (max_next l)) by lia. rewrite !Hca.
        destruct (Z.eqb_spec (block_next b) (max_next l)) as [En|Hne]; simpl.
        -- rewrite andb_true_r, En. destruct Hrs as [-> | ->]; simpl.
           ++ rewrite orb_true_r. by split_and!.
           ++ rewrite orb_false_r. by split_and!.
        -- rewrite andb_false_r, orb_false_r. by split_and!.
    + unfold unblocked in E. simplify_eq/=. split_and!; [done|done|].
      assert (max_next l = 0) as Hz.
      { clear -Eb Hok. induction l as [|x l IHl]; [done|]. simpl in *.
        apply orb_false_iff in Eb as [Ex El]. apply Forall_cons in Hok as [(Hx & _) Hok].
        rewrite (IHl El Hok), (Hx Ex). done. }
      rewrite Hz, Z.max_r by lia. rewrite cooling_none_above, Hca, Z.eqb_refl by lia.
      by destruct Hrs as [-> | ->].
  - rewrite (Hu eq_refl). simpl. rewrite !orb_false_r, Z.max_l by done.
    split_and!; [done|by rewrite bool_decide_eq_true_2 by (by destruct l)|].
    destruct (existsb is_blocked l); simplify_eq/=; done.
Qed.

Lemma states_block_summary states modelKey now :
  0 ≤ now →
  coarse (states_block states modelKey now) = summary (state_block now <$> matching modelKey states).
Proof.
  intros Hn. unfold states_block. rewrite state_step_merge.
  set (l := state_block now <$> matching modelKey states).
  assert (Forall (λ b, block_ok b now) l) as Hok.
  { apply Forall_fmap, Forall_forall. intros s _. by apply state_block_ok. }
  pose proof (merge_blocks now l Hn Hok) as H.
  destruct (fold_left merge_block l _) as [[[[m b] r] n]|r].
  - destruct H as (Hh & -> & Hs).
    assert (coarse (summary l) = summary l) as Hc.
    { unfold summary, coarse. rewrite Hh.
      by destruct (existsb is_blocked l), (existsb (cooling_at (max_next l)) l). }
    case_bool_decide as Hl; [by rewrite Hs|].
    by rewrite Hl.
  - destruct H as [Hh [-> | ->]]; unfold summary; by rewrite Hh.
Qed.

Lemma max_next_perm l l' : l ≡ₚ l' → max_next l = max_next l'.
Proof. induction 1; simpl; lia. Qed.

Lemma existsb_perm {A} (f : A → bool) l l' : l ≡ₚ l' → existsb f l = existsb f l'.
Proof. induction 1; simpl; try congruence. destruct (f x), (f y); done. Qed.

Lemma summary_perm l l' : l ≡ₚ l' → summary l = summary l'.
Proof.
  intros Hp. unfold summary. rewrite (max_next_perm _ _ Hp). by rewrite !(existsb_perm _ _ _ Hp).
Qed.

Lemma is_blocked_coarse b : is_blocked (coarse b) = is_blocked b.
Proof. done. Qed.
Lemma next_coarse b : block_next (coarse b) = block_next b.
Proof. done. Qed.
Lemma cooldown_coarse b : block_reason (coarse b) = blockReasonCooldown ↔ block_reason b = blockReasonCooldown.
Proof. unfold coarse, block_reason; simpl. case_bool_decide; naive_solver congruence. Qed.

Lemma summary_is_blocked l : is_blocked (summary l) = existsb is_blocked l.
Proof.
  unfold summary. destruct (existsb hard l) eqn:Eh.
  - symmetry. apply existsb_exists in Eh as (b & Hb & H). apply existsb_exists.
    exists b. split; [done|]. unfold hard in H. by to_prop.
  - by destruct (existsb is_blocked l).
Qed.

Lemma matching_perm k l l' : l ≡ₚ l' → matching k l ≡ₚ matching k l'.
Proof. intros Hp. unfold matching. by rewrite Hp. Qed.

(** *** The states of a model as time passes *)

Lemma state_block_free s t t' :
  0 ≤ t → t ≤ t' → is_blocked (state_block t s) = false → is_blocked (state_block t' s) = false.
Proof. unfold state_block. intros ??. case_bool_decide; [done|]. by apply availabilityBlock_free. Qed.

Lemma state_block_holds s t t' :
  0 ≤ t → t ≤ t' → is_blocked (state_block t s) = true →
  (block_next (state_block t s) ≠ 0 → t' < block_next (state_block t s)) →
  is_blocked (state_block t' s) = true.
Proof.
  unfold state_block. intros ??. case_bool_decide; [done|]. intros Hb Hn.
  by rewrite (availabilityBlock_holds _ _ _ _ t).
Qed.

Lemma states_free ms t t' :
  0 ≤ t → t ≤ t' → is_blocked (summary (state_block t <$> ms)) = false →
  is_blocked (summary (state_block t' <$> ms)) = false.
Proof.
  rewrite !summary_is_blocked. intros ?? Hf. apply not_true_iff_false.
  rewrite existsb_exists. intros (b & Hb & Hx). apply list_elem_of_In in Hb.
  apply list_elem_of_fmap in Hb as (s & -> & Hs).
  rewrite (state_block_free s t t') in Hx; [done..|].
  apply not_true_iff_false. intros Hs'. apply not_true_iff_false in Hf. apply Hf.
  apply existsb_exists. exists (state_block t s). split; [|done].
  by apply list_elem_of_In, list_elem_of_fmap_2.
Qed.

Lemma max_next_attained l : max_next l ≠ 0 → ∃ b, b ∈ l ∧ block_next b = max_next l.
Proof.
  induction l as [|b l IH]; simpl; [done|]. intros Hn.
  destruct (Z.max_spec (block_next b) (max_next l)) as [[Hlt E]|[Hle E]]; rewrite E in *.
  - destruct IH as (b' & ? & ?); [lia|]. exists b'. split; [by right|done].
  - exists b. split; [by left|done].
Qed.

Lemma states_hold ms t t' :
  0 ≤ t → t ≤ t' → is_blocked (summary (state_block t <$> ms)) = true →
  (block_next (summary (state_block t <$> ms)) ≠ 0 →
   t' < block_next (summary (state_block t <$> ms))) →
  is_blocked (summary (state_block t' <$> ms)) = true.
Proof.
  intros H0 Ht Hb Hn. rewrite summary_is_blocked. apply existsb_exists.
  assert (∃ s, s ∈ ms ∧ is_blocked (state_block t s) = true ∧
    (block_next (state_block t s) ≠ 0 → t' < block_next (state_block t s))) as (s & Hs & Hsb & Hsn).
  { unfold summary in Hb, Hn. destruct (existsb hard _) eqn:Eh.
    - apply existsb_exists in Eh as (b & Hb' & H). apply list_elem_of_In in Hb'.
      apply list_elem_of_fmap in Hb' as (s & -> & Hs). exists s. unfold hard, IsZero in H. to_prop.
      split_and!; [done|done|]. intros ?. congruence.
    - destruct (existsb is_blocked _) eqn:Eb; [|done]. unfold block_next at 1 2 in Hn. simpl in Hn.
      destruct (decide (max_next (state_block t <$> ms) = 0)) as [Hz|Hz].
      + (* blocked states without a retry time are hard *) exfalso.
        apply existsb_exists in Eb as (b & Hb' & H). apply list_elem_of_In in Hb' as Hbl.
        pose proof (max_next_ge _ _ Hbl) as Hge.
        assert (hard b = true) as Hh.
        { unfold hard, IsZero. rewrite H. simpl. apply Z.eqb_eq.
          apply list_elem_of_fmap in Hbl as (s & -> & _).
          destruct (state_block_ok t s H0) as (_ & Hf & _).
          destruct (decide (block_next (state_block t s) = 0)); [done|]. specialize (Hf n). lia. }
        apply not_true_iff_false in Eh. apply Eh, existsb_exists. by exists b.
      + destruct (max_next_attained _ Hz) as (b & Hbl & E).
        apply list_elem_of_fmap in Hbl as (s & -> & Hs). exists s.
        destruct (state_block_ok t s H0) as (Hu & _). split_and!; [done| |].
        * destruct (is_blocked (state_block t s)) eqn:Es; [done|]. exfalso.
          apply Hz. rewrite <-E, (Hu eq_refl). done.
        * rewrite E. by apply Hn. }
  exists (state_block t' s). split; [by apply list_elem_of_In, list_elem_of_fmap_2|].
  by eapply state_block_holds.
Qed.

Lemma summary_ok now l : 0 ≤ now → Forall (λ b, block_ok b now) l → block_ok (summary l) now.
Proof.
  intros Hn Hok. unfold summary. destruct (existsb hard l) eqn:Eh.
  { unfold block_ok, is_blocked, block_reason, block_next; simpl. by split_and!. }
  destruct (existsb is_blocked l) eqn:Eb; [|by repeat split].
  assert (max_next l ≠ 0) as Hz.
  { apply existsb_exists in Eb as (b & Hin & Hb). apply list_elem_of_In in Hin as Hbl.
    pose proof (max_next_ge l b Hbl) as Hge. rewrite Forall_forall in Hok.
    destruct (Hok b Hbl) as (_ & Hf & _). intros Hmax.
    assert (block_next b = 0) as Hb0.
    { destruct (decide (block_next b = 0)) as [|Hne]; [done|]. specialize (Hf Hne). lia. }
    apply not_true_iff_false in Eh. apply Eh, existsb_exists. exists b. split; [done|].
    unfold hard, IsZero. by rewrite Hb, Hb0. }
  assert (now < max_next l) as Hlt.
  { destruct (max_next_attained l Hz) as (b & Hbl & E). rewrite Forall_forall in Hok.
    destruct (Hok b Hbl) as (_ & Hf & _). rewrite <-E. apply Hf. by rewrite E. }
  unfold block_ok, is_blocked, block_reason, block_next; simpl.
  split_and!; try done; by destruct (existsb (cooling_at _) l).
Qed.

(** ** The credential as a whole *)

Section auth.
Context `{GoHost}.
Implicit Types (a : Auth) (model : string).

(** The block of a credential, in one expression over the summary. *)
Definition auth_block (auth : option Auth) (model : string) (now : time) : block :=
  coarse (isAuthBlockedForModel auth model now).

Lemma map_to_list_nonempty (a : Auth) : map_to_list (ModelStates a) = [] ↔ ModelStates a = ∅.
Proof. apply map_to_list_empty_iff. Qed.

Lemma isAuthBlockedForModel_perm states states' auth model now :
  0 ≤ now → states ≡ₚ states' →
  coarse (isAuthBlockedForModel_in states auth model now)
  = coarse (isAuthBlockedForModel_in states' auth model now).
Proof.
  intros Hn Hp. destruct auth as [a|]; [|done]. unfold isAuthBlockedForModel_in.
  repeat (case_match; [done|]).
  assert (states = [] ↔ states' = []) as He.
  { by destruct states, states'; split; try done; [intros _; apply Permutation_nil in Hp|
      intros _; apply Permutation_sym, Permutation_nil in Hp]. }
  destruct (negb (String.eqb model "")).
  - destruct states as [|e l], states' as [|e' l']; try naive_solver.
    rewrite !states_block_summary by done. apply summary_perm. by rewrite (matching_perm _ _ _ Hp).
  - destruct states as [|e l], states' as [|e' l']; naive_solver.
Qed.

Lemma token_expired_mono auth t t' : t ≤ t' → token_expired auth t = true → token_expired auth t' = true.
Proof.
  unfold token_expired. destruct (AccessTokenExpirationTime auth); [|done].
  unfold After. intros ? [-> Hx%negb_true_iff%Z.ltb_ge]%andb_true_iff. simpl.
  apply negb_true_iff, Z.ltb_ge. lia.
Qed.

(** A free credential stays free until its token expires. *)
Lemma auth_free auth model t t' :
  0 ≤ t → t ≤ t' → token_expired auth t' = false →
  is_blocked (isAuthBlockedForModel auth model t) = false →
  is_blocked (isAuthBlockedForModel auth model t') = false.
Proof.
  intros H0 Ht Hx. unfold isAuthBlockedForModel, isAuthBlockedForModel_in.
  destruct auth as [a|]; [|done].
  destruct (_ || _); [done|]. destruct (hasUnauthorizedAuthFailure _); [done|].
  destruct (token_expired (Some a) t) eqn:Et; [done|]. rewrite Hx.
  destruct (credential_quota a t) eqn:Eq; [done|].
  assert (credential_quota a t' = false) as ->.
  { unfold credential_quota in *. apply andb_false_iff in Eq as [->|Eq]; [done|].
    unfold After in *. apply andb_false_iff. right. apply Z.ltb_ge. apply Z.ltb_ge in Eq. lia. }
  destruct (negb _).
  - destruct (map_to_list (ModelStates a)) as [|e l]; [by apply availabilityBlock_free|].
    rewrite <-!(is_blocked_coarse (states_block _ _ _)), !states_block_summary by lia.
    by apply states_free.
  - by apply availabilityBlock_free.
Qed.

(** A block holds until its retry time, and for good without one. *)
Lemma auth_holds auth model t t' :
  0 ≤ t → t ≤ t' → is_blocked (isAuthBlockedForModel auth model t) = true →
  (block_next (isAuthBlockedForModel auth model t) ≠ 0 →
   t' < block_next (isAuthBlockedForModel auth model t)) →
  is_blocked (isAuthBlockedForModel auth model t') = true.
Proof.
  intros H0 Ht. unfold isAuthBlockedForModel, isAuthBlockedForModel_in.
  destruct auth as [a|]; [|done].
  destruct (_ || _); [done|]. destruct (hasUnauthorizedAuthFailure _); [done|].
  destruct (token_expired (Some a) t) eqn:Et; [by rewrite (token_expired_mono _ t)|].
  destruct (token_expired (Some a) t'); [done|].
  destruct (credential_quota a t) eqn:Eq.
  - intros _ Hn. unfold block_next in Hn. simpl in Hn. unfold credential_quota, After in *. to_prop.
    assert (Q_NextRecoverAt (Quota a) ≠ 0) as Hnz by lia. specialize (Hn Hnz).
    rewrite H1, H3. simpl. apply Z.ltb_lt in Hn. by rewrite Hn.
  - intros Hb Hn. destruct (credential_quota a t'); [done|].
    destruct (negb _).
    + destruct (map_to_list (ModelStates a)) as [|e l].
      { by rewrite (availabilityBlock_holds _ _ _ _ t t'). }
      rewrite <-next_coarse, states_block_summary in Hn by lia.
      rewrite <-is_blocked_coarse, states_block_summary in Hb by lia.
      rewrite <-is_blocked_coarse, states_block_summary by lia. by eapply states_hold.
    + by rewrite (availabilityBlock_holds _ _ _ _ t t').
Qed.

Lemma isAuthBlockedForModel_ok auth model now :
  0 ≤ now → block_ok (coarse (isAuthBlockedForModel auth model now)) now.
Proof.
  intros Hn. unfold isAuthBlockedForModel, isAuthBlockedForModel_in.
  assert (∀ r, r = blockReasonOther ∨ r = blockReasonDisabled → block_ok (coarse (true, r, zero_time)) now) as Hz.
  { intros r [-> | ->]; unfold block_ok, is_blocked, block_reason, block_next; simpl; by split_and!. }
  destruct auth as [a|]; [|apply Hz; by left].
  destruct (_ || _); [apply Hz; by right|].
  destruct (hasUnauthorizedAuthFailure _); [apply Hz; by left|].
  destruct (token_expired _ _); [apply Hz; by left|].
  assert (∀ b, block_ok b now → block_reason b ≠ blockReasonDisabled → block_ok (coarse b) now) as Hc.
  { intros [[bl r] n] Hb Hr. unfold coarse, block_reason in *. simpl in *.
    by rewrite bool_decide_eq_false_2. }
  assert (∀ u q r c, block_reason (availabilityBlock u q r c now) ≠ blockReasonDisabled) as Hav.
  { intros u q r c. rewrite availabilityBlock_spec by done. unfold block_reason, unblocked.
    repeat case_match; simplify_eq/=; done. }
  destruct (credential_quota a now) eqn:Eq.
  { apply Hc; [|done]. unfold credential_quota, After in Eq. to_prop.
    unfold block_ok, is_blocked, block_reason, block_next; simpl. split_and!; try done; lia. }
  destruct (negb _); [destruct (map_to_list _) as [|e l]|];
    try (apply Hc; [by apply availabilityBlock_ok|by apply Hav]).
  rewrite states_block_summary by done. apply summary_ok; [done|].
  apply Forall_fmap, Forall_forall. intros s _. by apply state_block_ok.
Qed.

(** A "disabled" block has no retry time. *)
Lemma auth_disabled_next auth model now :
  0 ≤ now → block_reason (isAuthBlockedForModel auth model now) = blockReasonDisabled →
  block_next (isAuthBlockedForModel auth model now) = 0.
Proof.
  intros Hn. unfold isAuthBlockedForModel, isAuthBlockedForModel_in.
  destruct auth as [a|]; [|done].
  destruct (_ || _); [done|]. destruct (hasUnauthorizedAuthFailure _); [done|].
  destruct (token_expired _ _); [done|]. destruct (credential_quota a now); [done|].
  assert (∀ u q r c, block_reason (availabilityBlock u q r c now) = blockReasonDisabled →
                     block_next (availabilityBlock u q r c now) = 0) as Hav.
  { intros u q r c. by apply availabilityBlock_ok. }
  destruct (negb _); [destruct (map_to_list _) as [|e l]|]; try by apply Hav.
  unfold states_block. rewrite state_step_merge.
  set (bs := state_block now <$> _).
  assert (Forall (λ b, block_ok b now) bs) as Hok.
  { apply Forall_fmap, Forall_forall. intros s _. by apply state_block_ok. }
  pose proof (merge_blocks now bs Hn Hok) as Hm.
  destruct (fold_left merge_block bs _) as [[[[m b] r] n]|r].
  - destruct Hm as (Hh & -> & Hs). case_bool_decide; [|done].
    intros Hr. unfold summary in Hs. rewrite Hh in Hs. unfold block_reason in Hr. simpl in Hr. subst r.
    revert Hs. by repeat case_match.
  - by destruct Hm as [_ [-> | ->]].
Qed.

Lemma token_expired_blocked auth model now :
  token_expired auth now = true → is_blocked (isAuthBlockedForModel auth model now) = true.
Proof.
  intros Ht. unfold isAuthBlockedForModel, isAuthBlockedForModel_in.
  destruct auth as [a|]; [|done].
  destruct (_ || _); [done|]. destruct (hasUnauthorizedAuthFailure _); [done|]. by rewrite Ht.
Qed.
End auth.

Lemma states_heal ms t t' :
  0 ≤ t → t ≤ t' → block_next (summary (state_block t <$> ms)) ≠ 0 →
  block_next (summary (state_block t <$> ms)) ≤ t' →
  is_blocked (summary (state_block t' <$> ms)) = false.
Proof.
  intros H0 Ht Hnz Hle. rewrite summary_is_blocked. apply not_true_iff_false.
  rewrite existsb_exists. intros (b & Hb & Hx). apply list_elem_of_In in Hb.
  apply list_elem_of_fmap in Hb as (s & -> & Hs).
  assert (state_block t s ∈ state_block t <$> ms) as Hin by by apply list_elem_of_fmap_2.
  unfold summary in Hnz, Hle. destruct (existsb hard _) eqn:Eh; [done|].
  destruct (existsb is_blocked _) eqn:Eb; [|done]. unfold block_next in Hle at 1. simpl in Hle.
  pose proof (max_next_ge _ _ Hin) as Hge.
  destruct (is_blocked (state_block t s)) eqn:Es.
  - assert (block_next (state_block t s) ≠ 0) as Hn.
    { intros E. apply not_true_iff_false in Eh. apply Eh, existsb_exists.
      exists (state_block t s). split; [by apply list_elem_of_In|]. unfold hard, IsZero. by rewrite Es, E. }
    apply not_false_iff_true in Hx. apply Hx. unfold state_block in *. case_bool_decide; [done|].
    eapply availabilityBlock_heals; [..|done|done|]; lia.
  - rewrite (state_block_free s t t') in Hx; done.
Qed.

Section timeline.
Context `{GoHost}.

(** whether a credential is blocked for a model, until when, and whether
    it is a cooldown, do not depend on the order in which Go ranges over the
    per-model states; only "disabled" and "other" can stand for each other. *)
Theorem isAuthBlockedForModel_order a model now states :
  0 ≤ now → states ≡ₚ map_to_list (ModelStates a) →
  coarse (isAuthBlockedForModel_in states (Some a) model now)
  = coarse (isAuthBlockedForModel (Some a) model now).
Proof. intros Hn Hp. by apply isAuthBlockedForModel_perm. Qed.

(** a credential is free for a model exactly when it is enabled, its last
    failure is not a terminal 401, its token is valid, it is under no
    credential-wide quota, and every state recorded for the model (or the
    credential's own state when none is recorded at all) is free. *)
Theorem isAuthBlockedForModel_free_iff a model now :
  0 ≤ now → model ≠ "" →
  is_blocked (isAuthBlockedForModel (Some a) model now) = false ↔
    Disabled a = false ∧ A_Status a ≠ StatusDisabled ∧
    hasUnauthorizedAuthFailure (Some a) = false ∧ token_expired (Some a) now = false ∧
    credential_quota a now = false ∧
    if decide (ModelStates a = ∅)
    then is_blocked (availabilityBlock (Unavailable a) (Q_Exceeded (Quota a)) (NextRetryAfter a)
           (Q_NextRecoverAt (Quota a)) now) = false
    else ∀ k s, ModelStates a !! k = Some (Some s) → canonicalModelKey k = canonicalModelKey model →
         M_Status s ≠ StatusDisabled ∧ is_blocked (state_block now s) = false.
Proof.
  intros Hn Hm. unfold isAuthBlockedForModel, isAuthBlockedForModel_in.
  destruct (Disabled a); [split; [done|by intros (?&?)]|]. cbn [orb].
  case_bool_decide; [split; [done|by intros (?&?&?)]|].
  destruct (hasUnauthorizedAuthFailure (Some a)); [split; [done|by intros (_&_&?&_)]|].
  destruct (token_expired (Some a) now); [split; [done|by intros (_&_&_&?&_)]|].
  destruct (credential_quota a now); [split; [done|by intros (_&_&_&_&?&_)]|].
  apply String.eqb_neq in Hm. rewrite Hm. cbn [negb].
  case_decide as He.
  { rewrite He, map_to_list_empty. split; [by intros|by intros (_&_&_&_&_&?)]. }
  destruct (map_to_list (ModelStates a)) as [|e l] eqn:El.
  { by apply map_to_list_empty_iff in El. }
  rewrite <-is_blocked_coarse, states_block_summary, summary_is_blocked, <-El by done.
  rewrite <-not_true_iff_false, existsb_exists. split.
  - intros Hf. split_and!; try done. intros k s Hk Hkm.
    assert (is_blocked (state_block now s) = false) as Hs.
    { apply not_true_iff_false. intros Hs. apply Hf. exists (state_block now s). split; [|done].
      apply list_elem_of_In, list_elem_of_fmap_2, list_elem_of_omap.
      exists (k, Some s). split; [by apply elem_of_map_to_list|]. simpl. by rewrite Hkm, String.eqb_refl. }
    split; [|done]. intros Hd. unfold state_block in Hs. by rewrite bool_decide_eq_true_2 in Hs.
  - intros (_ & _ & _ & _ & _ & Hf) (b & Hb & Hbl). apply list_elem_of_In in Hb.
    apply list_elem_of_fmap in Hb as (s & -> & Hs). apply list_elem_of_omap in Hs as ([k o] & Hk & Ho).
    simpl in Ho. destruct o as [s'|]; [|done]. case_match eqn:Ek; [|done]. simplify_eq. to_prop.
    apply elem_of_map_to_list in Hk. destruct (Hf k s Hk Ek) as [_ Hs]. congruence.
Qed.

(** as time passes a block without a retry time stays, a block with one
    stays until that time and, the token being valid and no credential-wide
    quota involved, is lifted when it comes; a free credential stays free as
    long as its token is valid. *)
Theorem isAuthBlockedForModel_timeline a model t t' :
  0 ≤ t → t ≤ t' →
  let b := isAuthBlockedForModel (Some a) model t in
  let b' := isAuthBlockedForModel (Some a) model t' in
  (is_blocked b = true → block_next b = 0 ∨ t' < block_next b → is_blocked b' = true) ∧
  (is_blocked b = true → block_next b ≠ 0 → block_next b ≤ t' →
   token_expired (Some a) t' = false → credential_quota a t = false → is_blocked b' = false) ∧
  (is_blocked b = false → token_expired (Some a) t' = false → is_blocked b' = false) ∧
  (block_next b ≠ 0 → is_blocked b = true ∧ t < block_next b).
Proof.
  intros H0 Ht b b'. unfold b, b'. split_and!.
  - intros Hb Hn. eapply auth_holds; [done..|]. intros. naive_solver.
  - intros Hb Hn Hle Hx Hq. revert Hb Hn Hle. unfold isAuthBlockedForModel, isAuthBlockedForModel_in.
    destruct (_ || _); [done|]. destruct (hasUnauthorizedAuthFailure _); [done|].
    destruct (token_expired (Some a) t); [done|]. rewrite Hx, Hq.
    assert (credential_quota a t' = false) as ->.
    { unfold credential_quota, After in *. apply andb_false_iff in Hq as [->|Hq]; [done|].
      apply andb_false_iff. right. apply Z.ltb_ge. apply Z.ltb_ge in Hq. lia. }
    destruct (negb _); [destruct (map_to_list _) as [|e l]|]; try by apply availabilityBlock_heals.
    intros _. rewrite <-(next_coarse (states_block _ _ t)), states_block_summary by lia. intros Hn Hle.
    rewrite <-is_blocked_coarse, states_block_summary by lia. by eapply states_heal.
  - intros Hb Hx. by eapply auth_free.
  - intros Hn. destruct (isAuthBlockedForModel_ok (Some a) model t H0) as (Hu & Hf & _).
    rewrite next_coarse, is_blocked_coarse in *. split; [|by apply Hf].
    apply not_false_iff_true. intros Hb. apply Hn. specialize (Hu Hb).
    by rewrite <-next_coarse, Hu.
Qed.
End timeline.

(** A host whose parsers recognise nothing, for the concrete examples. *)
Definition no_host : GoHost :=
  {| time_Parse := λ _ _, None; Number_Float64 := λ _, None; base64_URL := λ _, None;
     base64_RawURL := λ _, None; json_exp_claim := λ _, None |}.

Definition cooling_state (until : time) : ModelState :=
  zeroModelState <| M_Unavailable := true |> <| M_NextRetryAfter := until |>
    <| M_Quota := zeroQuota <| Q_Exceeded := true |> <| Q_NextRecoverAt := until |> |>.
Definition cooling_auth : Auth :=
  (simpleAuth "a" "codex") <| ModelStates := {["gpt-5(high)" := Some (cooling_state 500)]} |>.

Lemma isAuthBlockedForModel_order_witness :
  coarse (@isAuthBlockedForModel_in no_host [("gpt-5(high)", Some (cooling_state 500))]
            (Some cooling_auth) "gpt-5" 100) = (true, blockReasonCooldown, 500).
Proof.
  rewrite (@isAuthBlockedForModel_order no_host cooling_auth); [vm_compute; reflexivity|lia|].
  vm_compute. constructor. constructor.
Defined.

Lemma isAuthBlockedForModel_free_iff_witness :
  is_blocked (@isAuthBlockedForModel no_host (Some cooling_auth) "gpt-5" 100) = true ∧
  is_blocked (@isAuthBlockedForModel no_host (Some cooling_auth) "gpt-4" 100) = false.
Proof.
  split; [by vm_compute|].
  apply (@isAuthBlockedForModel_free_iff no_host cooling_auth "gpt-4" 100); [lia|done|].
  do 5 (split; [vm_compute; done|]). rewrite decide_False by apply insert_non_empty.
  intros k s E. change (({["gpt-5(high)" := Some (cooling_state 500)]} : gmap string (option ModelState)) !! k = Some (Some s)) in E.
  apply lookup_singleton_Some in E as [<- _]. intros E. vm_compute in E. done.
Defined.

Lemma isAuthBlockedForModel_timeline_witness :
  is_blocked (@isAuthBlockedForModel no_host (Some cooling_auth) "gpt-5" 499) = true ∧
  is_blocked (@isAuthBlockedForModel no_host (Some cooling_auth) "gpt-5" 500) = false.
Proof.
  split.
  - refine (proj1 (@isAuthBlockedForModel_timeline no_host cooling_auth "gpt-5" 100 499 _ _) _ _);
      [lia|lia|vm_compute; reflexivity|right; vm_compute; reflexivity].
  - refine (proj1 (proj2 (@isAuthBlockedForModel_timeline no_host cooling_auth "gpt-5" 100 500 _ _)) _ _ _ _ _);
      vm_compute; done.
Defined.
