(* ===== verification/AvailabilityEquiv.v ===== *)
(** * What the availability of a credential depends on

    [isAuthBlockedForModel] passes a row of gates (disabled, terminal 401, expired
    token, credential-wide quota) and then looks either at the states recorded for
    the model or at the credential's own fields.  This file states it in one
    equation, shows that the states of a model count as a set, and defines the
    equivalence of credentials that no availability test can tell apart; the result
    handler is proved against it. *)
From Stdlib Require Import ZArith Lia String Bool.
From stdpp Require Import prelude gmap strings.
From S2P Require Import Prelude GoStd AuthTypes Availability.
Local Open Scope string_scope.
Local Open Scope list_scope.
Local Open Scope Z_scope.

(** ** Blocks as a set *)

Lemma summary_set l l' : (∀ b, b ∈ l ↔ b ∈ l') → summary l = summary l'.
Proof.
  intros Hl.
  assert (∀ f, existsb f l = existsb f l') as He.
  { intros f. apply eq_true_iff_eq. rewrite !existsb_exists.
    setoid_rewrite <-list_elem_of_In. split; intros (b&Hb&Hf); exists b; by rewrite ?Hl in *. }
  assert (max_next l = max_next l') as Hm.
  { assert (∀ l1 l2, (∀ b, b ∈ l1 → b ∈ l2) → max_next l1 ≤ max_next l2) as Hle.
    { intros l1 l2 H. destruct (decide (max_next l1 = 0)) as [->|Hn]; [apply max_next_nonneg|].
      destruct (max_next_attained l1 Hn) as (b&Hb&<-). by apply max_next_ge, H. }
    apply Z.le_antisymm; apply Hle; intros b; by rewrite Hl. }
  unfold summary. by rewrite Hm, !He.
Qed.

(** The blocks the states of a model give. *)
Definition model_block (m : gmap string (option ModelState)) (key : string) (now : time) (b : block) : Prop :=
  ∃ k s, m !! k = Some (Some s) ∧ canonicalModelKey k = key ∧ b = state_block now s.

Lemma elem_of_model_blocks m key now b :
  b ∈ state_block now <$> matching key (map_to_list m) ↔ model_block m key now b.
Proof.
  rewrite list_elem_of_fmap. unfold matching, model_block. split.
  - intros (s&->&Hs). apply list_elem_of_omap in Hs as ([k o]&Hk&Ho). simpl in Ho.
    destruct o as [s'|]; [|done]. case_match eqn:E; [|done]. simplify_eq. to_prop.
    apply elem_of_map_to_list in Hk. by exists k, s.
  - intros (k&s&Hk&<-&->). exists s. split; [done|]. apply list_elem_of_omap. exists (k, Some s).
    split; [by apply elem_of_map_to_list|]. simpl. by rewrite String.eqb_refl.
Qed.

Section gates.
Context {gh : GoHost}.

(** ** The gates every model passes *)

Definition gates (a : Auth) (now : time) : option block :=
  if Disabled a || bool_decide (A_Status a = StatusDisabled) then Some (true, blockReasonDisabled, zero_time)
  else if hasUnauthorizedAuthFailure (Some a) then Some (true, blockReasonOther, zero_time)
  else if token_expired (Some a) now then Some (true, blockReasonOther, zero_time)
  else if credential_quota a now then Some (true, blockReasonCooldown, Q_NextRecoverAt (Quota a))
  else None.

(** The credential's own fields, used without a model or without states. *)
Definition own_block (a : Auth) (now : time) : block :=
  availabilityBlock (Unavailable a)
    (if bool_decide (ModelStates a = ∅) || Unavailable a
        || String.eqb (Q_Reason (Quota a)) "credential_quota"
     then Q_Exceeded (Quota a) else false)
    (NextRetryAfter a) (Q_NextRecoverAt (Quota a)) now.

Lemma auth_block_eq a model now :
  0 ≤ now →
  auth_block (Some a) model now =
    match gates a now with
    | Some b => coarse b
    | None => if String.eqb model "" || bool_decide (ModelStates a = ∅) then coarse (own_block a now)
              else summary (state_block now <$> matching (canonicalModelKey model) (map_to_list (ModelStates a)))
    end.
Proof.
  intros Hn. unfold auth_block, gates, own_block, isAuthBlockedForModel, isAuthBlockedForModel_in.
  destruct (_ || _); [done|]. destruct (hasUnauthorizedAuthFailure _); [done|].
  destruct (token_expired _ _); [done|]. destruct (credential_quota _ _); [done|].
  destruct (bool_decide (ModelStates a = ∅)) eqn:He.
  - apply bool_decide_eq_true in He. rewrite He, map_to_list_empty. simpl.
    by destruct (String.eqb model "").
  - apply bool_decide_eq_false in He.
    destruct (map_to_list (ModelStates a)) as [|e l] eqn:El; [by apply map_to_list_empty_iff in El|].
    destruct (String.eqb model ""); simpl.
    + by destruct (Unavailable a), (String.eqb (Q_Reason (Quota a)) "credential_quota").
    + by apply states_block_summary.
Qed.

(** ** Credentials that no availability test tells apart *)

Definition same_state (s t : ModelState) : Prop :=
  M_Status s = M_Status t ∧ M_Unavailable s = M_Unavailable t ∧ M_NextRetryAfter s = M_NextRetryAfter t
  ∧ Q_Exceeded (M_Quota s) = Q_Exceeded (M_Quota t)
  ∧ Q_NextRecoverAt (M_Quota s) = Q_NextRecoverAt (M_Quota t).
#[export] Instance same_state_equiv : Equivalence same_state.
Proof. unfold same_state. split; [by intros s|intros s t; naive_solver|intros s t u; naive_solver congruence]. Qed.

Lemma same_state_block s t now : same_state s t → state_block now s = state_block now t.
Proof. unfold same_state, state_block. by intros (->&->&->&->&->). Qed.

Record same_availability (a b : Auth) : Prop := {
  same_gates : ∀ now, gates a now = gates b now;
  same_own : Unavailable a = Unavailable b ∧ NextRetryAfter a = NextRetryAfter b
             ∧ Q_Exceeded (Quota a) = Q_Exceeded (Quota b) ∧ Q_Reason (Quota a) = Q_Reason (Quota b)
             ∧ Q_NextRecoverAt (Quota a) = Q_NextRecoverAt (Quota b);
  same_states : ∀ k, option_Forall2 (option_Forall2 same_state) (ModelStates a !! k) (ModelStates b !! k) }.

#[export] Instance same_availability_equiv : Equivalence same_availability.
Proof.
  split.
  - intros a. split; [done|done|]. intros k. reflexivity.
  - intros a b [Hg Ho Hs]. split; [done|naive_solver|]. intros k. by symmetry.
  - intros a b c [Hg Ho Hs] [Hg' Ho' Hs']. split; [by intros now; rewrite Hg|intuition congruence|].
    intros k. transitivity (ModelStates b !! k); [apply Hs|apply Hs'].
Qed.

Lemma same_states_empty a b :
  same_availability a b → bool_decide (ModelStates a = ∅) = bool_decide (ModelStates b = ∅).
Proof.
  intros [_ _ Hs]. apply bool_decide_ext. split; intros He; apply map_eq; intros k; rewrite lookup_empty;
    specialize (Hs k); rewrite He, lookup_empty in Hs; by inversion Hs.
Qed.

Lemma same_model_block a b key now blk :
  same_availability a b → model_block (ModelStates a) key now blk → model_block (ModelStates b) key now blk.
Proof.
  intros [_ _ Hs] (k&s&Hk&Hkey&->). specialize (Hs k). rewrite Hk in Hs.
  inversion Hs as [? o Hso Ho1 Ho2|]; subst. inversion Hso as [? t Hst|]; subst.
  exists k, t. split_and!; [done|done|]. by apply same_state_block.
Qed.

(** The equivalence is sound: the test gives the same answer at every time. *)
#[export] Instance auth_block_proper now :
  0 ≤ now → Proper (same_availability ==> eq ==> eq) (λ a model, auth_block (Some a) model now).
Proof.
  intros Hn a b Hab model ? <-. rewrite !auth_block_eq by done.
  rewrite (same_gates _ _ Hab), (same_states_empty _ _ Hab). destruct (gates b now); [done|].
  destruct (_ || _).
  - unfold own_block. rewrite (same_states_empty _ _ Hab).
    by destruct (same_own _ _ Hab) as (->&->&->&->&->).
  - apply summary_set. intros blk. rewrite !elem_of_model_blocks.
    split; apply same_model_block; [done|by symmetry].
Qed.

Lemma same_availability_block a b model now :
  0 ≤ now → same_availability a b → auth_block (Some a) model now = auth_block (Some b) model now.
Proof. intros Hn Hab. exact (auth_block_proper now Hn a b Hab model model eq_refl). Qed.

(** ** Blocked by one state, or by the whole credential *)

Lemma gates_blocked a now b : gates a now = Some b → is_blocked b = true.
Proof.
  unfold gates. intros E. repeat case_match; simplify_eq; done.
Qed.

Lemma auth_block_blocked a model now :
  is_blocked (isAuthBlockedForModel (Some a) model now) = is_blocked (auth_block (Some a) model now).
Proof. done. Qed.

Lemma blocked_by_state a model now k s :
  0 ≤ now → ModelStates a !! k = Some (Some s) → canonicalModelKey k = canonicalModelKey model → model ≠ "" →
  is_blocked (state_block now s) = true → is_blocked (isAuthBlockedForModel (Some a) model now) = true.
Proof.
  intros Hn Hs Hk Hm Hb. rewrite auth_block_blocked, auth_block_eq by done.
  destruct (gates a now) eqn:Eg; [rewrite is_blocked_coarse; by eapply gates_blocked|].
  rewrite (proj2 (String.eqb_neq _ _) Hm), bool_decide_eq_false_2 by (intros E; by rewrite E, lookup_empty in Hs).
  simpl. rewrite summary_is_blocked. apply existsb_exists. exists (state_block now s).
  split; [|done]. apply list_elem_of_In, elem_of_model_blocks. by exists k, s.
Qed.

Lemma state_until_blocked s now : 0 ≤ now → M_Unavailable s = true → now < M_NextRetryAfter s →
  is_blocked (state_block now s) = true.
Proof.
  intros Hn Hu Hr. unfold state_block. case_bool_decide; [done|].
  rewrite availabilityBlock_spec, Hu by done. simpl. by rewrite (proj2 (Z.ltb_lt _ _) Hr).
Qed.

Lemma wrapped_blocked a model now :
  credential_quota a now = true → is_blocked (isAuthBlockedForModel (Some a) model now) = true.
Proof.
  intros Hq. unfold isAuthBlockedForModel, isAuthBlockedForModel_in.
  destruct (_ || _); [done|]. destruct (hasUnauthorizedAuthFailure _); [done|].
  destruct (token_expired _ _); [done|]. by rewrite Hq.
Qed.
End gates.
