(* ===== verification/Capacity.v ===== *)
(** * Proactive capacity ranking and the quota-drain pin

    Models [capacity.go] (ranking a credential by the quota windows its provider
    reports) and [quota_pin.go] (the sticky choice of quota-drain routing). *)
From Stdlib Require Import ZArith Lia String Bool SpecFloat.
From stdpp Require Import prelude gmap strings.
From S2P Require Import Prelude GoStd AuthTypes Availability.
Local Open Scope string_scope.
Local Open Scope list_scope.
Local Open Scope Z_scope.

(** ** Ranks (capacity.go) *)

(** The constants 0.0001 and 1e-9, correctly rounded. *)
Definition capacityPercentEpsilon : float64 := f_div (f_of_Z 1) (f_of_Z 10000).
Definition capacityUrgencyEpsilon : float64 := f_div (f_of_Z 1) (f_of_Z 1000000000).
Definition budgetWindowMinPeriod : duration := 24 * Hour.
Definition minUrgencyHorizon : duration := Hour.

Record capacityWindowRank := mkWindowRank { wr_remaining : float64; wr_resetAt : time }.

Record capacityRank := mkRank {
  known : bool; exhausted : bool; remaining : float64; resetAt : time;
  windows : list capacityWindowRank; urgencyKnown : bool; urgency : float64; budgetResetAt : time }.
#[export] Instance capacityRank_eta : Eta capacityRank :=
  λ r, mkRank (known r) (exhausted r) (remaining r) (resetAt r) (windows r) (urgencyKnown r)
         (urgency r) (budgetResetAt r).
Definition zeroRank : capacityRank := mkRank false false (f_of_Z 0) 0 [] false (f_of_Z 0) 0.

Definition normalizedCapacityPercent (value : float64) : float64 :=
  if f_is_nan value || f_is_inf value then f_of_Z 0
  else if f_ltb value (f_of_Z 0) then f_of_Z 0
  else if f_gtb value (f_of_Z 100) then f_of_Z 100
  else value.

Definition capacityScopeMatches (scopeModel model : string) : bool :=
  let scopeModel := ToLower (canonicalModelKey scopeModel) in
  if String.eqb scopeModel "" then true else
  let model := ToLower (canonicalModelKey model) in
  negb (String.eqb model "") && String.eqb scopeModel model.

Definition resetBefore (left right : time) : bool :=
  if IsZero left then false else IsZero right || Before left right.

(** [|left - right| > eps] *)
Definition differs (eps left right : float64) : bool := f_gtb (f_abs (f_sub left right)) eps.

Definition capacityWindowRankLess (left right : capacityWindowRank) : bool :=
  if differs capacityPercentEpsilon (wr_remaining left) (wr_remaining right)
  then f_ltb (wr_remaining left) (wr_remaining right)
  else if negb (TimeEqual (wr_resetAt left) (wr_resetAt right))
  then resetBefore (wr_resetAt left) (wr_resetAt right)
  else false.

Definition capacityWindowRanksEqual (left right : capacityWindowRank) : bool :=
  f_leb (f_abs (f_sub (wr_remaining left) (wr_remaining right))) capacityPercentEpsilon
  && TimeEqual (wr_resetAt left) (wr_resetAt right).

(** The guards at the top of the loop: the window takes part in routing. *)
Definition window_counts (model : string) (now : time) (window : CapacityWindow) : bool :=
  W_Routing window && W_Known window && capacityScopeMatches (W_ScopeModel window) model
  && (IsZero (W_ResetAt window) || After (W_ResetAt window) now).

Definition window_step (model : string) (now : time) (rank : capacityRank) (window : CapacityWindow)
    : capacityRank :=
  if negb (window_counts model now window) then rank else
  let rem := normalizedCapacityPercent (W_RemainingPercent window) in
  let rank := rank <| known := true |>
                   <| windows := windows rank ++ [mkWindowRank rem (W_ResetAt window)] |> in
  let period := seconds_duration (W_PeriodSeconds window) in
  let rank :=
    if budgetWindowMinPeriod <=? period then
      let '(horizon, rank) :=
        if negb (IsZero (W_ResetAt window)) then
          (Sub (W_ResetAt window) now,
           if After (W_ResetAt window) (budgetResetAt rank)
           then rank <| budgetResetAt := W_ResetAt window |> else rank)
        else (period, rank) in
      let horizon := if horizon <? minUrgencyHorizon then minUrgencyHorizon else horizon in
      let u := f_div rem (DurationHours horizon) in
      (if negb (urgencyKnown rank) || f_ltb u (urgency rank) then rank <| urgency := u |> else rank)
        <| urgencyKnown := true |>
    else rank in
  if W_HardExhausted window then
    let rank := rank <| exhausted := true |> in
    if resetBefore (W_ResetAt window) (resetAt rank)
    then rank <| resetAt := W_ResetAt window |> else rank
  else rank.

Definition quotaCapacityRank (auth : option Auth) (model : string) (now : time) : capacityRank :=
  match auth with
  | None => zeroRank
  | Some a =>
      let state := Capacity a in
      if negb (C_Supported state) || IsZero (C_FetchedAt state) then zeroRank
      else if negb (IsZero (C_StaleAt state)) && negb (Before now (C_StaleAt state)) then zeroRank
      else
        let rank := fold_left (window_step model now) (C_Windows state)
                      (zeroRank <| remaining := f_of_Z 100 |>) in
        if negb (known rank) then rank else
        match sort_stable capacityWindowRankLess (windows rank) with
        | [] => rank
        | w :: ws =>
            let rank := rank <| windows := w :: ws |> <| remaining := wr_remaining w |> in
            if negb (exhausted rank) then rank <| resetAt := wr_resetAt w |> else rank
        end
  end.

Definition quotaCapacityExhausted (auth : option Auth) (model : string) (now : time) : bool :=
  let rank := quotaCapacityRank auth model now in known rank && exhausted rank.

(** The first pair of windows that are not equal decides. *)
Fixpoint windows_less (l r : list capacityWindowRank) : option bool :=
  match l, r with
  | x :: l, y :: r => if capacityWindowRanksEqual x y then windows_less l r
                      else Some (capacityWindowRankLess x y)
  | _, _ => None
  end.

Definition quotaRankLess (left right : capacityRank) : bool :=
  if negb (Bool.eqb (known left) (known right)) then known left
  else if negb (known left) then false
  else if urgencyKnown left && urgencyKnown right
          && differs capacityUrgencyEpsilon (urgency left) (urgency right)
  then f_gtb (urgency left) (urgency right)
  else match windows_less (windows left) (windows right) with
       | Some b => b
       | None => (length (windows right) <? length (windows left))%nat
       end.

Definition quotaRanksEqual (left right : capacityRank) : bool :=
  if negb (Bool.eqb (known left) (known right)) then false
  else if negb (known left) then true
  else if urgencyKnown left && urgencyKnown right
          && differs capacityUrgencyEpsilon (urgency left) (urgency right) then false
  else (length (windows left) =? length (windows right))%nat
       && forallb (λ p, capacityWindowRanksEqual p.1 p.2) (zip (windows left) (windows right)).

(** ** The pin (quota_pin.go) *)

Definition budgetRolloverTolerance : duration := Hour.

Record quotaPinCandidate := mkCandidate { c_id : string; c_rank : capacityRank; c_allowed : bool }.
Record quotaDrainPin := mkPin { authID : string; members : gmap string time }.
#[export] Instance quotaDrainPin_eta : Eta quotaDrainPin := λ p, mkPin (authID p) (members p).
Definition zeroPin : quotaDrainPin := mkPin "" ∅.

Definition budgetRolledOver (recorded current : time) : bool :=
  if negb (Bool.eqb (IsZero recorded) (IsZero current)) then true else
  let diff := Sub current recorded in
  let diff := if diff <? 0 then wrap64 (- diff) else diff in
  budgetRolloverTolerance <? diff.

(** [(pinned, true)] is [Some pinned]. *)
Fixpoint validFor_loop (p : quotaDrainPin) (candidates : list quotaPinCandidate) (index : nat)
    (pinned : option nat) : option nat :=
  match candidates with
  | [] => pinned
  | candidate :: rest =>
      match members p !! c_id candidate with
      | None => None
      | Some recorded =>
          if budgetRolledOver recorded (budgetResetAt (c_rank candidate)) then None
          else validFor_loop p rest (S index)
                 (if String.eqb (c_id candidate) (authID p) then Some index else pinned)
      end
  end.

Definition validFor (pin : option quotaDrainPin) (candidates : list quotaPinCandidate) : option nat :=
  match pin with
  | None => None
  | Some p => if String.eqb (authID p) "" then None else validFor_loop p candidates 0 None
  end.

Definition pin_members (candidates : list quotaPinCandidate) : gmap string time :=
  fold_left (λ m c, <[c_id c := budgetResetAt (c_rank c)]> m) candidates ∅.

Definition pin_set (id : string) (candidates : list quotaPinCandidate) : quotaDrainPin :=
  mkPin id (pin_members candidates).

(** The loop of [bestQuotaCandidate]; an index out of range would panic in Go and
    is skipped here (the callers pass a permutation of the indexes). *)
Definition best_step (candidates : list quotaPinCandidate) (allowedOnly : bool) (best : option nat)
    (index : nat) : option nat :=
  match candidates !! index with
  | None => best
  | Some candidate =>
      if allowedOnly && negb (c_allowed candidate) then best else
      match best ≫= λ b, candidates !! b with
      | None => Some index
      | Some b => if quotaRankLess (c_rank candidate) (c_rank b) then Some index else best
      end
  end.

Definition bestQuotaCandidate (candidates : list quotaPinCandidate) (order : list nat)
    (allowedOnly : bool) : option nat :=
  fold_left (best_step candidates allowedOnly) order None.

(** The choice ([None] for [-1]) and the pin afterwards. *)
Definition pickQuotaPinned (pin : option quotaDrainPin) (candidates : list quotaPinCandidate)
    (order : list nat) : option nat * option quotaDrainPin :=
  match candidates with
  | [] => (None, pin)
  | _ =>
      let allowed i := match candidates !! i with Some c => c_allowed c | None => false end in
      match validFor pin candidates with
      | Some pinned =>
          if allowed pinned then (Some pinned, pin)
          else (bestQuotaCandidate candidates order true, pin)
      | None =>
          let best := bestQuotaCandidate candidates order false in
          let pin := match best ≫= λ b, candidates !! b, pin with
                     | Some c, Some _ => Some (pin_set (c_id c) candidates)
                     | _, _ => pin
                     end in
          match best with
          | Some b => if allowed b then (Some b, pin)
                      else (bestQuotaCandidate candidates order true, pin)
          | None => (bestQuotaCandidate candidates order true, pin)
          end
      end
  end.

(** ** Exhaustion *)

(** The earliest reset time a list of windows reports, zero if none does. *)
Definition earliest_reset (l : list CapacityWindow) : time :=
  fold_left (λ t w, if resetBefore (W_ResetAt w) t then W_ResetAt w else t) l zero_time.

Definition hard_windows (model : string) (now : time) (l : list CapacityWindow) : list CapacityWindow :=
  filter (λ w, window_counts model now w = true ∧ W_HardExhausted w = true) l.

(** What one window changes in the fields the exhaustion depends on. *)
Lemma window_step_fields model now r w :
  let r' := window_step model now r w in
  let c := window_counts model now w in
  known r' = known r || c ∧
  exhausted r' = exhausted r || (c && W_HardExhausted w) ∧
  resetAt r' = (if c && W_HardExhausted w && resetBefore (W_ResetAt w) (resetAt r)
                then W_ResetAt w else resetAt r) ∧
  (c = false → r' = r) ∧ (c = true → windows r' ≠ []).
Proof.
  cbn zeta. unfold window_step. destruct (window_counts model now w); simpl.
  2:{ rewrite !orb_false_r. by repeat split. }
  set (r1 := if budgetWindowMinPeriod <=? _ then _ else _).
  assert (known r1 = true ∧ exhausted r1 = exhausted r ∧ resetAt r1 = resetAt r ∧ windows r1 ≠ [])
    as (Hk & He & Hr & Hw).
  { unfold r1. repeat case_match; simplify_eq/=; repeat case_match; simplify_eq/=; repeat split;
      by destruct (windows r). }
  clearbody r1. rewrite !orb_true_r. destruct (W_HardExhausted w); simpl.
  - rewrite orb_true_r, Hr. by destruct (resetBefore _ _).
  - by rewrite orb_false_r.
Qed.

Lemma windows_fold model now l r :
  (known r = true → windows r ≠ []) →
  let r' := fold_left (window_step model now) l r in
  known r' = known r || existsb (window_counts model now) l ∧
  exhausted r' = exhausted r || existsb (λ w, window_counts model now w && W_HardExhausted w) l ∧
  resetAt r' = fold_left (λ t w, if resetBefore (W_ResetAt w) t then W_ResetAt w else t)
                 (hard_windows model now l) (resetAt r) ∧
  (known r' = true → windows r' ≠ []).
Proof.
  cbn zeta. revert r. induction l as [|w l IH]; intros r Hr; simpl.
  { by rewrite !orb_false_r. }
  destruct (window_step_fields model now r w) as (Hk & He & Hrs & Hsame & Hws).
  destruct (IH (window_step model now r w)) as (-> & -> & Hr' & Hw).
  { destruct (window_counts model now w); [by intros _; apply Hws|by rewrite Hsame]. }
  rewrite Hk, He, !orb_assoc. split; [done|split; [done|split; [|by rewrite Hk in Hw]]].
  rewrite Hr', Hrs. unfold hard_windows. rewrite filter_cons.
  destruct (window_counts model now w) eqn:Ec, (W_HardExhausted w) eqn:Eh; simpl;
    try case_decide; naive_solver.
Qed.

Lemma sort_stable_nil {A} (less : A → A → bool) l : sort_stable less l = [] → l = [].
Proof. intros E. pose proof (sort_stable_perm less l) as Hp. rewrite E in Hp. by apply Permutation_nil in Hp. Qed.

Definition snapshot_usable (a : Auth) (now : time) : bool :=
  C_Supported (Capacity a) && negb (IsZero (C_FetchedAt (Capacity a)))
  && (IsZero (C_StaleAt (Capacity a)) || Before now (C_StaleAt (Capacity a))).

Lemma quotaCapacityRank_fields a model now :
  let r := quotaCapacityRank (Some a) model now in
  let ws := C_Windows (Capacity a) in
  known r = snapshot_usable a now && existsb (window_counts model now) ws ∧
  (known r = true → exhausted r = existsb (λ w, window_counts model now w && W_HardExhausted w) ws) ∧
  (known r = true → exhausted r = true → resetAt r = earliest_reset (hard_windows model now ws)).
Proof.
  cbn zeta. unfold quotaCapacityRank, snapshot_usable.
  destruct (C_Supported (Capacity a)); [|done].
  destruct (IsZero (C_FetchedAt (Capacity a))); [done|].
  destruct (IsZero (C_StaleAt (Capacity a))), (Before now (C_StaleAt (Capacity a))); try done; cbn [negb andb orb].
  all: destruct (windows_fold model now (C_Windows (Capacity a)) (zeroRank <| remaining := f_of_Z 100 |>))
    as (Hk & He & Hr & Hw); [done|]; simpl orb in Hk, He.
  all: set (r := fold_left _ _ _) in *; destruct (known r) eqn:Ek; cbn [negb]; rewrite ?Ek; [|done].
  all: destruct (sort_stable capacityWindowRankLess (windows r)) as [|w ws] eqn:Es;
    [by apply sort_stable_nil in Es; destruct (Hw eq_refl)|].
  all: cbn zeta; destruct (exhausted r) eqn:Ex; cbn [negb]; simpl; rewrite ?Ek, ?Ex; done.
Qed.

Lemma earliest_reset_acc l t :
  let r := fold_left (λ t w, if resetBefore (W_ResetAt w) t then W_ResetAt w else t) l t in
  (r = t ∨ ∃ w, w ∈ l ∧ r = W_ResetAt w) ∧
  (t ≠ 0 → r ≠ 0 ∧ r ≤ t) ∧
  (∀ w, w ∈ l → W_ResetAt w ≠ 0 → r ≠ 0 ∧ r ≤ W_ResetAt w).
Proof.
  cbn zeta. revert t. induction l as [|w l IH]; intros t; simpl.
  { split_and!; [by left|lia|]. intros w Hw. by apply not_elem_of_nil in Hw. }
  destruct (IH (if resetBefore (W_ResetAt w) t then W_ResetAt w else t)) as (Ha & Hb & Hc).
  set (r := fold_left _ l _) in *. clearbody r.
  unfold resetBefore, IsZero, Before, zero_time in *.
  destruct (Z.eqb_spec (W_ResetAt w) 0) as [Hz|Hz]; simpl in *.
  - split_and!; [destruct Ha as [?|(x&?&?)]; [by left|right; exists x; set_solver]|done|].
    intros x [->|Hx]%elem_of_cons; [done|by apply Hc].
  - destruct (Z.eqb_spec t 0) as [->|Ht]; simpl in *.
    + destruct (Hb Hz) as [Hr Hle].
      split_and!; [right; destruct Ha as [?|(x&?&?)]; [exists w|exists x]; set_solver|done|].
      intros x [->|Hx]%elem_of_cons ?; [done|by apply Hc].
    + destruct (Z.ltb_spec (W_ResetAt w) t); simpl in *.
      * destruct (Hb Hz) as [Hr Hle].
        split; [|split; [intros; split; [done|lia]|]].
        -- right; destruct Ha as [?|(x&?&?)]; [exists w|exists x]; set_solver.
        -- intros x [->|Hx]%elem_of_cons ?; [done|by apply Hc].
      * destruct (Hb Ht) as [Hr Hle].
        split_and!; [destruct Ha as [?|(x&?&?)]; [by left|right; exists x; set_solver]|done|].
        intros x [->|Hx]%elem_of_cons ?; [split; [done|lia]|by apply Hc].
Qed.

(** a credential is excluded for exhausted capacity exactly when its
    snapshot is supported, fetched and not stale and one of the windows in force
    for the model is marked exhausted; the reset time reported is then the
    earliest one of those windows. *)
Theorem quotaCapacityExhausted_iff a model now :
  let hard := hard_windows model now (C_Windows (Capacity a)) in
  let r := quotaCapacityRank (Some a) model now in
  (quotaCapacityExhausted (Some a) model now = true ↔ snapshot_usable a now = true ∧ hard ≠ []) ∧
  (quotaCapacityExhausted (Some a) model now = true →
   (∀ w, w ∈ hard → W_ResetAt w ≠ 0 → resetAt r ≠ 0 ∧ resetAt r ≤ W_ResetAt w) ∧
   (resetAt r ≠ 0 → ∃ w, w ∈ hard ∧ resetAt r = W_ResetAt w)).
Proof.
  intros hard r. destruct (quotaCapacityRank_fields a model now) as (Hk & He & Hr). fold r in Hk, He, Hr.
  assert (existsb (λ w, window_counts model now w && W_HardExhausted w) (C_Windows (Capacity a)) = true
          ↔ hard ≠ []) as Hhard.
  { rewrite existsb_exists. unfold hard, hard_windows. split.
    - intros (w & Hw & H%andb_true_iff) E. apply list_elem_of_In in Hw.
      eapply not_elem_of_nil. rewrite <-E. by apply list_elem_of_filter.
    - intros Hne. destruct (filter _ _) as [|w l] eqn:E; [done|]. exists w.
      assert (w ∈ w :: l) as Hw by by left. rewrite <-E in Hw.
      apply list_elem_of_filter in Hw as [[Ha Hb] Hw]. split; [by apply list_elem_of_In|]. by rewrite Ha, Hb. }
  assert (quotaCapacityExhausted (Some a) model now = known r && exhausted r) as Hq by done. split.
  - rewrite Hq, andb_true_iff. split.
    + intros [Hkt Het]. rewrite He in Het by done. apply Hhard in Het. rewrite Hk in Hkt. by to_prop.
    + intros [Hu Hh]. apply Hhard in Hh as Hx. assert (known r = true) as Hkt; [|by rewrite He].
      rewrite Hk, Hu. simpl. apply existsb_exists in Hx as (w & Hw & H). to_prop.
      apply existsb_exists. by exists w.
  - rewrite Hq. intros [Hkt Het]%andb_true_iff. rewrite (Hr Hkt Het). fold hard.
    destruct (earliest_reset_acc hard zero_time) as (Ha & _ & Hc). split; [done|].
    intros Hn. destruct Ha as [Ha|Ha]; [|done]. exfalso. by apply Hn.
Qed.

Definition exhausted_window : CapacityWindow :=
  mkWindow "5h" "5h" "" (f_of_Z 100) (f_of_Z 0) 700 true true true 18000.
Definition weekly_window (left : Z) (reset : time) : CapacityWindow :=
  mkWindow "7d" "7d" "" (f_of_Z (100 - left)) (f_of_Z left) reset true false true 604800.
Definition capacity_auth (id : string) (ws : list CapacityWindow) : Auth :=
  (simpleAuth id "codex") <| Capacity := mkCapacity "codex" true 10 0 10 "" ws "" |>.

Lemma quotaCapacityExhausted_iff_witness :
  quotaCapacityExhausted (Some (capacity_auth "a" [weekly_window 40 900; exhausted_window])) "gpt-5" 100 = true
  ∧ resetAt (quotaCapacityRank (Some (capacity_auth "a" [weekly_window 40 900; exhausted_window])) "gpt-5" 100) ≠ 0.
Proof.
  set (a := capacity_auth "a" [weekly_window 40 900; exhausted_window]).
  assert (quotaCapacityExhausted (Some a) "gpt-5" 100 = true) as Hq by (vm_compute; reflexivity).
  split; [done|].
  refine (proj1 (proj1 (proj2 (quotaCapacityExhausted_iff a "gpt-5" 100) Hq) exhausted_window _ _)).
  - apply list_elem_of_filter. split; [split; vm_compute; reflexivity|]. right. left.
  - done.
Defined.

(** ** The pin keeps its choice *)

Section pin.
Implicit Types (p : quotaDrainPin) (cs : list quotaPinCandidate).

(** The pin still describes the pool: every candidate is a member whose budget
    window has not rolled over. *)
Definition pool_ok p cs : Prop :=
  ∀ c, c ∈ cs → ∃ r, members p !! c_id c = Some r ∧ budgetRolledOver r (budgetResetAt (c_rank c)) = false.

Lemma validFor_loop_Some p cs idx pinned k :
  validFor_loop p cs idx pinned = Some k →
  pool_ok p cs ∧ (pinned = Some k ∨ ∃ j c, cs !! j = Some c ∧ k = (idx + j)%nat ∧ c_id c = authID p).
Proof.
  revert idx pinned. induction cs as [|c cs IH]; intros idx pinned; simpl.
  { intros ->. split; [intros c Hc; by apply not_elem_of_nil in Hc|by left]. }
  destruct (members p !! c_id c) as [r|] eqn:Em; [|done].
  destruct (budgetRolledOver _ _) eqn:Er; [done|]. intros [Hok Hk]%IH. split.
  - intros c' [->|Hc']%elem_of_cons; [by exists r|by apply Hok].
  - destruct Hk as [Hk|(j & c' & Hj & -> & Hid)].
    + destruct (String.eqb_spec (c_id c) (authID p)) as [He|]; [|by left].
      simplify_eq. right. exists 0%nat, c. split_and!; [done|lia|done].
    + right. exists (S j), c'. split_and!; [done|lia|done].
Qed.

Lemma validFor_loop_keep p cs idx pinned :
  pool_ok p cs → (∀ c, c ∈ cs → c_id c ≠ authID p) → validFor_loop p cs idx pinned = pinned.
Proof.
  revert idx pinned. induction cs as [|c cs IH]; intros idx pinned Hok Hne; simpl; [done|].
  destruct (Hok c) as (r & -> & ->); [by left|].
  destruct (String.eqb_spec (c_id c) (authID p)); [by destruct (Hne c); [left|]|].
  apply IH; intros x Hx; [apply Hok|apply Hne]; by right.
Qed.

Lemma validFor_loop_ok p cs idx pinned j c :
  pool_ok p cs → NoDup (c_id <$> cs) → cs !! j = Some c → c_id c = authID p →
  validFor_loop p cs idx pinned = Some (idx + j)%nat.
Proof.
  revert idx pinned j. induction cs as [|c' cs IH]; intros idx pinned j Hok Hnd Hj Hid; simpl; [done|].
  destruct (Hok c') as (r & -> & ->); [by left|]. simpl in Hnd. apply NoDup_cons in Hnd as [Hn Hnd].
  destruct j as [|j]; simpl in Hj.
  - simplify_eq. rewrite Hid, String.eqb_refl. rewrite validFor_loop_keep; [f_equal; lia| |].
    + intros x Hx. apply Hok. by right.
    + intros x Hx Hxid. apply Hn. rewrite Hid, <-Hxid. by apply list_elem_of_fmap_2.
  - destruct (String.eqb_spec (c_id c') (authID p)) as [He|].
    + exfalso. apply Hn. rewrite He, <-Hid. by apply list_elem_of_fmap_2, (list_elem_of_lookup_2 _ j).
    + rewrite (IH (S idx) pinned j); [f_equal; lia| |done..]. intros x Hx. apply Hok. by right.
Qed.

Definition qualifies cs (allowedOnly : bool) (i : nat) : Prop :=
  ∃ c, cs !! i = Some c ∧ (allowedOnly = true → c_allowed c = true).

Lemma best_fold cs ao order best :
  (∀ b, best = Some b → is_Some (cs !! b)) →
  let r := fold_left (best_step cs ao) order best in
  (r = None ↔ best = None ∧ ∀ i, i ∈ order → ¬ qualifies cs ao i) ∧
  (∀ i, r = Some i → best = Some i ∨ i ∈ order ∧ qualifies cs ao i).
Proof.
  cbn zeta. revert best. induction order as [|x order IH]; intros best Hb; simpl.
  { split; [|naive_solver]. split; [intros ->; split; [done|]|naive_solver].
    intros i Hi. by apply not_elem_of_nil in Hi. }
  unfold best_step at 2 4. destruct (cs !! x) as [c|] eqn:Ex.
  2:{ destruct (IH best Hb) as [H1 H2]. split.
      - rewrite H1. split; intros [-> Hq]; (split; [done|]); [|set_solver].
        intros i [->|Hi]%elem_of_cons; [intros (c & Hc & _); congruence|by apply Hq].
      - intros i [?|[? ?]]%H2; [by left|right; split; [by right|done]]. }
  destruct (ao && negb (c_allowed c)) eqn:Eao.
  { destruct (IH best Hb) as [H1 H2]. to_prop. subst ao. split.
    - rewrite H1. split; intros [-> Hq]; (split; [done|]); [|set_solver].
      intros i [->|Hi]%elem_of_cons; [|by apply Hq]. intros (c' & Hc & Ha).
      rewrite Ex in Hc. simplify_eq. rewrite Ha in H0; done.
    - intros i [?|[? ?]]%H2; [by left|right; split; [by right|done]]. }
  assert (qualifies cs ao x) as Hqx.
  { exists c. split; [done|]. intros ->. simpl in Eao. by destruct (c_allowed c). }
  set (best' := match best ≫= _ with None => Some x | Some b => _ end).
  assert (best' = Some x ∨ best' = best ∧ best ≠ None) as Hb'.
  { unfold best'. destruct best as [b|]; simpl; [|by left].
    destruct (Hb b eq_refl) as [cb ->]. destruct (quotaRankLess _ _); [by left|by right]. }
  destruct (IH best') as [H1 H2].
  { intros b Hbb. destruct Hb' as [Hb'|[Hb' _]]; rewrite Hb' in Hbb; simplify_eq; [by rewrite Ex|by apply Hb]. }
  split.
  - rewrite H1. split; [intros [Hn _]; destruct Hb' as [Hb'|[Hb' Hne]]; congruence|].
    intros [-> Hq]. exfalso. apply (Hq x); [by left|done].
  - intros i [Hi|[? ?]]%H2.
    + destruct Hb' as [Hb'|[Hb' _]]; rewrite Hb' in Hi; [|by left]. simplify_eq. right. split; [by left|done].
    + right. split; [by right|done].
Qed.

Lemma bestQuotaCandidate_spec cs order ao :
  let r := bestQuotaCandidate cs order ao in
  (r = None ↔ ∀ i, i ∈ order → ¬ qualifies cs ao i) ∧ (∀ i, r = Some i → i ∈ order ∧ qualifies cs ao i).
Proof.
  cbn zeta. unfold bestQuotaCandidate. destruct (best_fold cs ao order None) as [H1 H2]; [done|].
  split; [rewrite H1; naive_solver|]. intros i Hi. by destruct (H2 i Hi).
Qed.

Lemma pin_members_lookup cs c :
  NoDup (c_id <$> cs) → c ∈ cs → pin_members cs !! c_id c = Some (budgetResetAt (c_rank c)).
Proof.
  unfold pin_members. induction cs as [|x cs IH] using rev_ind; intros Hnd Hc.
  { by apply not_elem_of_nil in Hc. }
  rewrite fold_left_app. simpl. rewrite fmap_app in Hnd. apply NoDup_app in Hnd as (Hnd & Hdis & _).
  apply elem_of_app in Hc as [Hc| ->%list_elem_of_singleton]; [|by rewrite lookup_insert_eq].
  rewrite lookup_insert_ne; [by apply IH|]. intros E.
  apply (Hdis (c_id c)); [by apply list_elem_of_fmap_2|]. rewrite <-E. simpl. by left.
Qed.

Lemma budgetRolledOver_refl t : budgetRolledOver t t = false.
Proof. unfold budgetRolledOver, Sub. rewrite Bool.eqb_reflx, Z.sub_diag. done. Qed.
End pin.

(** A quota-drain choice is always an allowed candidate, and one is made
    whenever the order lists an allowed candidate. *)
Lemma pickQuotaPinned_sound pin cs order :
  (∀ i, (i < length cs)%nat → i ∈ order) →
  let r := (pickQuotaPinned pin cs order).1 in
  (∀ i, r = Some i → ∃ c, cs !! i = Some c ∧ c_allowed c = true) ∧
  (r = None → ∀ c, c ∈ cs → c_allowed c = false).
Proof.
  intros Hord. cbn zeta. unfold pickQuotaPinned. destruct cs as [|c0 cs0] eqn:Ecs.
  { split; [done|]. intros _ c Hc. by apply not_elem_of_nil in Hc. }
  rewrite <-Ecs in *. clear Ecs.
  assert (∀ i, bestQuotaCandidate cs order true = Some i → ∃ c, cs !! i = Some c ∧ c_allowed c = true) as H1.
  { intros i Hi. destruct (bestQuotaCandidate_spec cs order true) as [_ H].
    destruct (H i Hi) as [_ (c & ? & ?)]. exists c. auto. }
  assert (bestQuotaCandidate cs order true = None → ∀ c, c ∈ cs → c_allowed c = false) as H2.
  { intros Hn c [i Hi]%list_elem_of_lookup. destruct (bestQuotaCandidate_spec cs order true) as [H _].
    destruct (c_allowed c) eqn:Ea; [|done]. exfalso. apply (proj1 H Hn i); [|by exists c].
    apply Hord. by eapply lookup_lt_Some. }
  assert (∀ i, match cs !! i with Some c => c_allowed c | None => false end = true →
    ∃ c, cs !! i = Some c ∧ c_allowed c = true) as H3.
  { intros i. destruct (cs !! i) as [c|]; [|done]. by exists c. }
  destruct (validFor pin cs) as [k|].
  - destruct (match cs !! k with Some c => c_allowed c | None => false end) eqn:Ek; simpl; [|by split].
    split; [|done]. intros i [= <-]. by apply H3.
  - destruct (bestQuotaCandidate cs order false) as [b|]; cbn [fst]; [|by split].
    destruct (match cs !! b with Some c => c_allowed c | None => false end) eqn:Eb; simpl; [|by split].
    split; [|done]. intros i [= <-]. by apply H3.
Qed.

(** the pin is sticky: while it describes the pool it is never moved, its
    credential is chosen whenever it is allowed, and an exclusion of that
    credential for one request leaves the pin where it is. *)
Theorem pickQuotaPinned_sticky p cs order j c :
  pool_ok p cs → NoDup (c_id <$> cs) → authID p ≠ "" → cs !! j = Some c → c_id c = authID p →
  (pickQuotaPinned (Some p) cs order).2 = Some p ∧
  (c_allowed c = true → (pickQuotaPinned (Some p) cs order).1 = Some j) ∧
  (c_allowed c = false →
   (pickQuotaPinned (Some p) cs order).1 = bestQuotaCandidate cs order true).
Proof.
  intros Hok Hnd Hne Hj Hid. unfold pickQuotaPinned. destruct cs as [|c0 cs0] eqn:Ecs; [done|].
  rewrite <-Ecs in *. clear Ecs. apply String.eqb_neq in Hne.
  assert (validFor (Some p) cs = Some j) as ->.
  { unfold validFor. rewrite Hne. by rewrite (validFor_loop_ok p cs 0 None j c). }
  rewrite Hj. by destruct (c_allowed c).
Qed.

(** a fresh choice pins itself: the pin it leaves behind describes the very
    pool it was made from, so the same pool gives the same credential again. *)
Theorem pickQuotaPinned_stable p cs order order' i p' :
  NoDup (c_id <$> cs) → (∀ c, c ∈ cs → c_id c ≠ "" ∧ c_allowed c = true) →
  pickQuotaPinned (Some p) cs order = (Some i, Some p') →
  pickQuotaPinned (Some p') cs order' = (Some i, Some p').
Proof.
  intros Hnd Hall. unfold pickQuotaPinned at 1. destruct cs as [|c0 cs0] eqn:Ecs; [done|].
  rewrite <-Ecs in *. clear Ecs.
  assert (∀ k ck, cs !! k = Some ck → c_allowed ck = true) as Hal.
  { intros k ck Hk. apply Hall. by eapply list_elem_of_lookup_2. }
  assert (∀ q k ck, pool_ok q cs → authID q ≠ "" → cs !! k = Some ck → c_id ck = authID q →
    pickQuotaPinned (Some q) cs order' = (Some k, Some q)) as Hagain.
  { intros q k ck Hok Hne Hk Hid. unfold pickQuotaPinned. destruct cs as [|c1 cs1] eqn:Ecs; [done|].
    rewrite <-Ecs in *. clear Ecs. apply String.eqb_neq in Hne.
    unfold validFor. rewrite Hne, (validFor_loop_ok q cs 0 None k ck) by done.
    simpl. by rewrite Hk, (Hal k ck Hk). }
  destruct (validFor (Some p) cs) as [k|] eqn:Ev.
  - unfold validFor in Ev. destruct (String.eqb_spec (authID p) ""); [done|].
    apply validFor_loop_Some in Ev as [Hok [?|(j & c & Hj & -> & Hid)]]; [done|].
    simpl. rewrite Hj, (Hal _ _ Hj). intros [= <- <-]. by eapply Hagain.
  - destruct (bestQuotaCandidate_spec cs order false) as [_ Hbest].
    destruct (bestQuotaCandidate cs order false) as [b|] eqn:Eb.
    2:{ destruct (bestQuotaCandidate_spec cs order true) as [_ Hb2]. intros [= H _].
        destruct (bestQuotaCandidate_spec cs order false) as [Hn _]. rewrite Eb in Hn.
        destruct (Hb2 i H) as [Hin (c & Hc & _)]. exfalso.
        by apply (proj1 Hn eq_refl i Hin); exists c. }
    destruct (Hbest b eq_refl) as [Hin (c & Hc & _)]. cbn [mbind option_bind]. rewrite Hc, (Hal _ _ Hc).
    intros [= <- <-]. apply (Hagain _ b c); [|by apply Hall; eapply list_elem_of_lookup_2|done|done].
    intros x Hx. exists (budgetResetAt (c_rank x)). split; [by apply pin_members_lookup|].
    apply budgetRolledOver_refl.
Qed.

Definition pool2 : list quotaPinCandidate :=
  [mkCandidate "a" (quotaCapacityRank (Some (capacity_auth "a" [weekly_window 20 900000000000000])) "m" 100) true;
   mkCandidate "b" (quotaCapacityRank (Some (capacity_auth "b" [weekly_window 80 900000000000000])) "m" 100) true].

(** "b" has more budget left per hour and is pinned; later it stays pinned even
    though its budget is spent. *)
Lemma pickQuotaPinned_sticky_witness :
  (pickQuotaPinned (Some (pin_set "b" pool2)) pool2 [0%nat; 1%nat]).1 = Some 1%nat.
Proof.
  refine (proj1 (proj2 (pickQuotaPinned_sticky (pin_set "b" pool2) pool2 [0%nat; 1%nat] 1
    (mkCandidate "b" (quotaCapacityRank (Some (capacity_auth "b" [weekly_window 80 900000000000000])) "m" 100) true)
    _ _ _ _ _)) _); try done.
  - intros c Hc. unfold pool2 in Hc. apply elem_of_cons in Hc as [-> | ->%list_elem_of_singleton];
      exists 900000000000000; (split; [vm_compute; reflexivity|vm_compute; reflexivity]).
  - by apply (bool_decide_unpack _).
Defined.

Lemma pickQuotaPinned_stable_witness :
  (pickQuotaPinned (Some (pin_set "b" pool2)) pool2 [0%nat; 1%nat]).1 = Some 1%nat.
Proof.
  rewrite (pickQuotaPinned_stable zeroPin pool2 [1%nat; 0%nat] [0%nat; 1%nat] 1 (pin_set "b" pool2)); [done| | |].
  - by apply (bool_decide_unpack _).
  - intros c Hc. unfold pool2 in Hc. apply elem_of_cons in Hc as [-> | ->%list_elem_of_singleton]; done.
  - vm_compute. reflexivity.
Defined.
