(* ===== verification/Errors.v ===== *)
(** * The errors of a failed selection

    Models [errors.go], the [modelCooldownError] of [selector.go] and
    [safeRetryAfterHeader] of [home_concurrency.go]: what a caller is told when no
    credential can be picked.  Text rendering of causes is not modelled. *)
From Stdlib Require Import ZArith Lia String Bool.
From stdpp Require Import prelude strings.
From S2P Require Import Prelude GoStd AuthTypes.
Local Open Scope string_scope.
Local Open Scope list_scope.
Local Open Scope Z_scope.

Definition ErrorCodeRequestScoped := "request_scoped".
Definition ErrorCodeConnectionLifecycle := "connection_lifecycle".
Definition ErrorCodeTransientTransport := "transient_transport".
Definition ErrorCodeForceCooldown := "force_cooldown".

(** [Error.Error], [StatusCode], [IsRequestScoped], [MarkRequestScoped] *)
Definition Error_text (e : Error) : string :=
  if String.eqb (E_Code e) "" then E_Message e else E_Code e +:+ ": " +:+ E_Message e.
Definition StatusCode (e : option Error) : Z := match e with None => 0 | Some e => E_HTTPStatus e end.
Definition IsRequestScoped (e : option Error) : bool :=
  match e with None => false | Some e => String.eqb (E_Code e) ErrorCodeRequestScoped end.
Definition MarkRequestScoped (e : Error) : Error := e <| E_Code := ErrorCodeRequestScoped |>.
Definition NewRequestScopedError (message : string) (httpStatus : Z) : Error :=
  mkError ErrorCodeRequestScoped message false httpStatus.

(** The last upstream failure an error carries: an [Error] value or [errors.New]. *)
Inductive cause := CauseErr (e : Error) | CauseMsg (m : string).

Inductive routeError :=
| ErrPlain (base : Error)
| ErrWithCause (base : Error) (c : cause)
| ErrTerminalAuth (base : Error) (c : option cause)
| ErrAuthUnavailable (base : Error) (retryAfter : duration) (c : option cause)
| ErrModelCooldown (model provider : string) (resetIn : duration) (c : option cause).

Definition WithCause (err : Error) (c : option cause) : routeError :=
  match c with None => ErrPlain err | Some c => ErrWithCause err c end.
Definition NewTerminalAuthError (err : Error) (c : option cause) : routeError := ErrTerminalAuth err c.

Definition newModelCooldownErrorWithCause (model provider : string) (resetIn : duration)
    (c : option cause) : routeError :=
  ErrModelCooldown model provider (if resetIn <? 0 then 0 else resetIn) c.
Definition newModelCooldownError (model provider : string) (resetIn : duration) : routeError :=
  newModelCooldownErrorWithCause model provider resetIn None.

Definition newAuthUnavailableErrorWithCause (next now : time) (c : option cause) : routeError :=
  let err := mkError "auth_unavailable" "no auth available" false 0 in
  if After next now then
    ErrAuthUnavailable (err <| E_HTTPStatus := 503 |> <| E_Retryable := true |>) (Sub next now) c
  else match c with Some c => WithCause err (Some c) | None => ErrPlain err end.
Definition newAuthUnavailableError (next now : time) : routeError :=
  newAuthUnavailableErrorWithCause next now None.

Definition err_not_found : Error := mkError "auth_not_found" "no auth available" false 0.
Definition err_no_candidates : Error := mkError "auth_not_found" "no auth candidates" false 0.
Definition err_no_provider : Error := mkError "provider_not_found" "no provider supplied" false 0.
Definition err_unavailable : Error := mkError "auth_unavailable" "no auth available" false 0.
Definition err_terminal : Error := mkError "auth_unavailable" "no auth available" false 503.
Definition err_no_weight : Error :=
  mkError "auth_unavailable" "no auth available with positive weight" false 0.

(** The HTTP status of each error. *)
Definition route_status (e : routeError) : Z :=
  match e with
  | ErrPlain b | ErrWithCause b _ | ErrTerminalAuth b _ | ErrAuthUnavailable b _ _ => E_HTTPStatus b
  | ErrModelCooldown _ _ _ _ => 429
  end.

(** [IsTerminalAuthError] *)
Definition IsTerminalAuth (e : routeError) : bool :=
  match e with ErrTerminalAuth _ _ => true | _ => false end.

(** Whole seconds, rounded up, at least one: [safeRetryAfterHeader]. *)
Definition safeRetryAfterHeader (retryAfter : duration) : option Z :=
  if retryAfter <=? 0 then None else
  let seconds := Z.quot retryAfter Second in
  let seconds := if negb (Z.rem retryAfter Second =? 0) then seconds + 1 else seconds in
  Some (if seconds <? 1 then 1 else seconds).

(** A client that waits for the announced number of seconds never comes back
    early, nor more than a second late. *)
Lemma safeRetryAfterHeader_spec d s :
  safeRetryAfterHeader d = Some s → 0 < d ∧ 1 ≤ s ∧ d ≤ s * Second < d + Second.
Proof.
  unfold safeRetryAfterHeader. destruct (Z.leb_spec d 0); [done|].
  rewrite Z.quot_div_nonneg, Z.rem_mod_nonneg by (unfold Second; lia).
  pose proof (Z.div_mod d Second ltac:(done)). pose proof (Z.mod_pos_bound d Second ltac:(done)).
  destruct (Z.eqb_spec (d mod Second) 0); simpl; unfold Second in *; repeat case_match; intros [= <-];
    to_prop; lia.
Qed.

(** Two errors a caller must be able to tell apart: a cooldown names the time to
    wait, and it is never negative. *)
Definition wait_of (e : routeError) : option duration :=
  match e with
  | ErrModelCooldown _ _ d _ | ErrAuthUnavailable _ d _ => Some d
  | _ => None
  end.

(** The wrapped [*Error] of an error that has one. *)
Definition base_of (e : routeError) : option Error :=
  match e with
  | ErrPlain b | ErrWithCause b _ | ErrTerminalAuth b _ | ErrAuthUnavailable b _ _ => Some b
  | ErrModelCooldown _ _ _ _ => None
  end.

Lemma newModelCooldownErrorWithCause_wait model provider d c :
  wait_of (newModelCooldownErrorWithCause model provider d c) = Some (Z.max 0 d).
Proof. unfold newModelCooldownErrorWithCause. simpl. case_match; to_prop; f_equal; lia. Qed.

Lemma newAuthUnavailable_wait next now c d :
  wait_of (newAuthUnavailableErrorWithCause next now c) = Some d → 0 < d ∧ now < next.
Proof.
  unfold newAuthUnavailableErrorWithCause, After. destruct (Z.ltb_spec now next).
  - intros [= <-]. unfold Sub, MinInt64, MaxInt64. split; [|done]. repeat case_match; to_prop; lia.
  - by destruct c.
Qed.
