(* ===== verification/Classify.v ===== *)
(** * What a failure says: classification of upstream errors

    Models [internal/clienterror/client_error.go] and the classification half of
    [conductor_cooldown.go], on the [*Error] values of a [Result]: is a failure the
    caller's fault, a dropped connection, a transport hiccup, an unsupported model,
    a Cloudflare challenge, a revoked grant?  The answer decides whether the
    credential is put on a cooldown.  [encoding/json] is the model of [Json]; the
    path queries of [gjson] are a parameter. *)
From Stdlib Require Import ZArith Lia Ascii String Bool.
From stdpp Require Import prelude strings.
From S2P Require Import Prelude GoStd AuthTypes Errors Json.
Local Open Scope string_scope.
Local Open Scope list_scope.
Local Open Scope Z_scope.

(** ** The [strings] functions used here *)

Fixpoint drop_while (p : ascii → bool) (l : list ascii) : list ascii :=
  match l with
  | c :: r => if p c then drop_while p r else l
  | [] => []
  end.
Definition in_set (cutset : string) (c : ascii) : bool := bool_decide (c ∈ bytes cutset).
Definition TrimLeft (s cutset : string) : string := of_bytes (drop_while (in_set cutset) (bytes s)).
Definition TrimRight (s cutset : string) : string :=
  of_bytes (rev (drop_while (in_set cutset) (rev (bytes s)))).
Definition Trim (s cutset : string) : string := TrimRight (TrimLeft s cutset) cutset.
Definition TrimPrefix (s p : string) : string :=
  if HasPrefix s p then slice s (String.length p) (String.length s) else s.

(** What follows the last byte of a set, when there is one. *)
Fixpoint after_last (p : ascii → bool) (l : list ascii) : option (list ascii) :=
  match l with
  | [] => None
  | c :: r => match after_last p r with Some x => Some x | None => if p c then Some r else None end
  end.
Fixpoint take_until (p : ascii → bool) (l : list ascii) : list ascii :=
  match l with
  | c :: r => if p c then [] else c :: take_until p r
  | [] => []
  end.
(** [strings.NewReplacer] with single-byte pairs mapping a set to ["_"] *)
Definition underscored (cutset s : string) : string :=
  of_bytes (map (λ c, if in_set cutset c then "_"%char else c) (bytes s)).

(** The characters [" .!;\t\r\n"] *)
Definition punctuation : string := " .!;" +:+ of_bytes [byte 9; byte 13; byte 10].

(** ** HTTP statuses *)

Definition BadRequest : Z := 400.
Definition Unauthorized : Z := 401.
Definition PaymentRequired : Z := 402.
Definition NotFound : Z := 404.
Definition Conflict : Z := 409.
Definition RequestEntityTooLarge : Z := 413.
Definition UnprocessableEntity : Z := 422.
Definition TooManyRequests : Z := 429.

(** ** Text of dropped connections and transport failures *)

Definition contains_any (text : string) (patterns : list string) : bool := existsb (Contains text) patterns.

Definition isHTTP2ClosedConnectionMessage (lower : string) : bool :=
  contains_any lower ["http2: client connection force closed via clientconn.close";
                      "http2: client conn is closed"].

Definition isConnectionLifecycleMessage (message : string) : bool :=
  let lower := ToLower (TrimSpace message) in
  if String.eqb lower "" then false
  else if bool_decide (lower ∈ ["context canceled"; "context deadline exceeded"; "eof"; "unexpected eof"])
  then true
  else if contains_any lower ["websocket: close 1000"; "websocket: close 1001"; "websocket: close 1006"]
  then true
  else Contains lower "unexpected eof" || isHTTP2ClosedConnectionMessage lower.

Definition isTransientTransportMessage (message : string) : bool :=
  let lower := ToLower (TrimSpace message) in
  if String.eqb lower "" then false
  else contains_any lower
         ["tls: tls handshake"; "tls handshake timeout"; "wsarecv"; "wsasend";
          "a connection attempt failed"; "connection refused"; "connection reset"; "i/o timeout";
          "no such host"; "server misbehaving"; "network is unreachable"; "no route to host";
          "broken pipe"; "connection aborted"; "use of closed network connection"; "unexpected eof"]
       || isHTTP2ClosedConnectionMessage lower.

Definition isConnectionLifecycleResultError (err : option Error) : bool :=
  match err with
  | None => false
  | Some e =>
      if String.eqb (E_Code e) ErrorCodeConnectionLifecycle then true
      else if String.eqb (E_Code e) ErrorCodeTransientTransport then false
      else if negb (StatusCode err =? 0) then false
      else isConnectionLifecycleMessage (E_Message e)
  end.

Definition isTransientTransportResultError (err : option Error) : bool :=
  match err with
  | None => false
  | Some e =>
      if String.eqb (E_Code e) ErrorCodeTransientTransport then true
      else if negb (StatusCode err =? 0) then false
      else if Contains (ToLower (E_Message e)) "tls handshake timeout" then false
      else isTransientTransportMessage (E_Message e)
  end.

(** ** Text of credential and model failures *)

Definition isModelSupportErrorMessage (message : string) : bool :=
  let lower := ToLower (TrimSpace message) in
  if String.eqb lower "" then false
  else contains_any lower
         ["model_not_supported"; "requested model is not supported"; "requested model is unsupported";
          "requested model is unavailable"; "model is not supported"; "model not supported";
          "unsupported model"; "model unavailable"; "not available for your plan";
          "not available for your account"].

Definition isInvalidGrantErrorMessage (message : string) : bool :=
  Contains (ToLower message) "invalid_grant".

Definition isCloudflareChallengeErrorMessage (message : string) : bool :=
  let lower := ToLower (TrimSpace message) in
  contains_any lower ["challenge-platform"; "cf-mitigated"; "cloudflare challenge"]
  || (Contains lower "just a moment" && Contains lower "cloudflare").

Definition isInvalidGrantResultError (err : option Error) : bool :=
  match err with
  | None => false
  | Some e =>
      if negb (isInvalidGrantErrorMessage (E_Code e)) && negb (isInvalidGrantErrorMessage (E_Message e))
      then false
      else bool_decide (StatusCode err ∈ [BadRequest; Unauthorized; 0])
  end.

Definition isCloudflareChallengeResultError (err : option Error) : bool :=
  match err with
  | None => false
  | Some e => if 500 <=? StatusCode err then false else isCloudflareChallengeErrorMessage (E_Message e)
  end.

Definition isUnauthorizedError (err : option Error) : bool :=
  match err with
  | None => false
  | Some e =>
      if StatusCode err =? Unauthorized then true
      else contains_any (ToLower (Error_text e)) ["status 401"; "401 unauthorized"]
  end.

(** ** "Model not found", in identifiers, documents and prose *)

Definition isModelNotFoundIdentifier (value : string) : bool :=
  let candidate := ToLower (TrimSpace value) in
  let candidate :=
    match after_last (Ascii.eqb "#") (bytes candidate) with
    | Some (c :: r) => of_bytes (c :: r)
    | _ =>
        let candidate := of_bytes (take_until (Ascii.eqb "?") (bytes candidate)) in
        let candidate := TrimRight candidate "/" in
        match after_last (in_set "/:") (bytes candidate) with
        | Some r => of_bytes r
        | None => candidate
        end
    end in
  bool_decide (underscored "- " candidate ∈
    ["model_not_found"; "model_not_found_error"; "unknown_model"; "model_does_not_exist"; "model_not_exist"]).

Definition isNotFoundErrorIdentifier (value : string) : bool :=
  bool_decide (underscored "- " (ToLower (TrimSpace value)) ∈ ["not_found"; "not_found_error"]).

Definition isMissingModelPhrase (value : string) : bool :=
  bool_decide (Trim value punctuation ∈
    ["not found"; "was not found"; "could not be found"; "does not exist"; "doesn't exist";
     "not exist"; "is unknown"; "does not exist or you do not have access to it"]).

(** What follows the requested model at the start of [value], when it is there. *)
Definition trimRequestedModelReference (value requestedModel : string) : option string :=
  let model := ToLower (TrimSpace requestedModel) in
  if String.eqb model "" then None else
  let quote c := of_bytes [c] +:+ model +:+ of_bytes [c] in
  (fix go candidates := match candidates with
   | [] => None
   | candidate :: candidates =>
       if String.eqb value candidate then Some ""
       else if negb (HasPrefix value candidate) then go candidates
       else
         let remainder := slice value (String.length candidate) (String.length value) in
         match bytes remainder with
         | [] => Some (TrimLeft remainder " :,")
         | c :: _ => if in_set " :," c then Some (TrimLeft remainder " :,") else go candidates
         end
   end) [model; quote "'"%char; quote "034"%char; quote "`"%char].

(** The first of [prefixes] that starts [lower] as a word, and what follows it. *)
Fixpoint after_prefix (prefixes : list string) (lower : string) : option string :=
  match prefixes with
  | [] => None
  | prefix :: prefixes =>
      if negb (String.eqb lower prefix) && negb (HasPrefix lower (prefix +:+ " "))
         && negb (HasPrefix lower (prefix +:+ ":"))
      then after_prefix prefixes lower
      else Some (TrimSpace (TrimPrefix (TrimSpace (TrimPrefix lower prefix)) ":"))
  end.
Definition model_prefixes : list string := ["the requested model"; "requested model"; "the model"; "model"].

Definition isExplicitModelNotFoundMessage (message requestedModel : string) : bool :=
  let lower := Trim (ToLower (TrimSpace message)) punctuation in
  if String.eqb lower "" then false
  else if contains_any lower ["in request"; "in body"; "request body"] then false
  else if contains_any (underscored "-" lower) ["model_not_found"; "unknown_model"] then true
  else match after_prefix ["no such model"; "unknown model"] lower with
  | Some remainder =>
      String.eqb remainder ""
      || bool_decide (trimRequestedModelReference remainder requestedModel = Some "")
  | None =>
      match after_prefix model_prefixes lower with
      | Some remainder =>
          isMissingModelPhrase remainder
          || match trimRequestedModelReference remainder requestedModel with
             | Some suffix => isMissingModelPhrase suffix
             | None => false
             end
      | None => false
      end
  end.

Definition isExactRequestedModelReference (message requestedModel : string) : bool :=
  let lower := Trim (ToLower (TrimSpace message)) punctuation in
  match after_prefix model_prefixes lower with
  | Some remainder => bool_decide (trimRequestedModelReference remainder requestedModel = Some "")
  | None => false
  end.

(** What one string member of an object says: the request is for a missing model,
    the error is of type "not found", the text names the requested model. *)
Definition member_says (requestedModel key text : string) : bool * bool * bool :=
  let key := ToLower (TrimSpace key) in
  if String.eqb key "code" then (isModelNotFoundIdentifier text, false, false)
  else if String.eqb key "type" then
    (isModelNotFoundIdentifier text, isNotFoundErrorIdentifier text, false)
  else if bool_decide (key ∈ ["error"; "message"; "detail"; "error_description"; "title"]) then
    (isExplicitModelNotFoundMessage text requestedModel, false,
     isExactRequestedModelReference text requestedModel)
  else (false, false, false).

Fixpoint containsStructuredModelNotFound (value : json) (requestedModel : string) : bool :=
  match value with
  | JObject ms =>
      let says kv := match kv.2 with
                     | JString text => member_says requestedModel kv.1 text
                     | _ => (false, false, false)
                     end in
      existsb (λ kv, (says kv).1.1 || containsStructuredModelNotFound kv.2 requestedModel) ms
      || (existsb (λ kv, (says kv).1.2) ms && existsb (λ kv, (says kv).2) ms)
  | JArray vs =>
      existsb (λ v, match v with
                    | JString text => isExplicitModelNotFoundMessage text requestedModel
                    | _ => false
                    end || containsStructuredModelNotFound v requestedModel) vs
  | _ => false
  end.

Definition isStructuredModelNotFoundError (message requestedModel : string) : bool :=
  match Unmarshal (TrimSpace message) with
  | Some payload => containsStructuredModelNotFound payload requestedModel
  | None => false
  end.

(** On an [*Error], which wraps nothing. *)
Definition isExplicitModelNotFoundError (err : option Error) (requestedModel : string) : bool :=
  match err with
  | None => false
  | Some e =>
      isModelNotFoundIdentifier (E_Code e)
      || isStructuredModelNotFoundError (E_Message e) requestedModel
      || isStructuredModelNotFoundError (Error_text e) requestedModel
  end.

(** [isModelSupportError] reads the rendered error, its variant for results the message. *)
Definition isModelSupport_on (text : string) (err : option Error) : bool :=
  match err with
  | None => false
  | Some e =>
      if isExplicitModelNotFoundError err "" then true
      else if negb (bool_decide (StatusCode err ∈ [BadRequest; UnprocessableEntity; NotFound])) then false
      else isModelSupportErrorMessage text
  end.
Definition isModelSupportError (err : option Error) : bool :=
  isModelSupport_on (match err with Some e => Error_text e | None => "" end) err.
Definition isModelSupportResultError (err : option Error) : bool :=
  isModelSupport_on (match err with Some e => E_Message e | None => "" end) err.

(** ** Request faults (clienterror) *)

(** [gjson.Get(body, path).String()] *)
Class Gjson := { gjson_String : string → string → string }.

Definition IsItemNotPersisted (message : string) : bool :=
  let lower := ToLower message in
  Contains lower "item with id" && Contains lower "not found"
  && Contains lower "items are not persisted when `store` is set to false".

Definition requestFaultCodes : list string :=
  ["cyber_policy"; "context_length_exceeded"; "message_too_big"; "string_above_max_length";
   "invalid_prompt"; "invalid_value"; "unsupported_value"; "invalid_request_error";
   "previous_response_not_found"].
Definition requestFaultTypes : list string :=
  ["invalid_request"; "invalid_request_error"; "bad_request_error"; "invalid_prompt"].
Definition code_paths : list string := ["error.code"; "code"; "response.error.code"; "body.error.code"].
Definition type_paths : list string := ["error.type"; "type"; "response.error.type"; "body.error.type"].

Section RequestFaults.
Context {gj : Gjson}.

(** [text] is [err.Error()]; an [*Error] carries no [ResponseBody]. *)
Definition IsClaudeThreadNotFound (status : Z) (text : string) : bool :=
  if negb (status =? NotFound) then false else
  let body := TrimSpace text in
  if String.eqb body "" then false else
  if Valid body then
    EqualFold (TrimSpace (gjson_String body "error.type")) "not_found_error"
    && Contains (ToLower (gjson_String body "error.message")) "thread state"
    && Contains (ToLower (gjson_String body "error.message")) "previous_message_id"
  else
    let lower := ToLower body in
    Contains lower "thread state" && Contains lower "previous_message_id".

(** Some path of the JSON body of the error holds one of [values]. *)
Definition body_has (text : string) (paths values : list string) : bool :=
  let body := TrimSpace text in
  if String.eqb body "" || negb (Valid body) then false
  else existsb (λ path, bool_decide (ToLower (TrimSpace (gjson_String body path)) ∈ values)) paths.

Definition hasModelNotFoundErrorBody (text : string) : bool :=
  body_has text code_paths ["model_not_found"; "model_not_found_error"].
Definition hasAuthenticationErrorBody (text : string) : bool :=
  body_has text type_paths ["authentication_error"].
Definition hasRequestFaultBody (text : string) : bool :=
  body_has text code_paths requestFaultCodes || body_has text type_paths requestFaultTypes.

(** [IsRequestFault] on a non-nil error whose status is the one passed. *)
Definition IsRequestFault (status : Z) (text : string) : bool :=
  if (status =? PaymentRequired) || (status =? TooManyRequests) then false
  else if (status =? Unauthorized) && hasAuthenticationErrorBody text then false
  else if IsClaudeThreadNotFound status text then true
  else if hasModelNotFoundErrorBody text then false
  else if hasRequestFaultBody text then true
  else if IsItemNotPersisted text then true
  else bool_decide (status ∈ [BadRequest; Conflict; RequestEntityTooLarge; UnprocessableEntity]).

Definition isRequestInvalidError (err : option Error) : bool :=
  match err with
  | None => false
  | Some e =>
      let text := Error_text e in
      let status := StatusCode err in
      if IsRequestScoped err then true
      else if (status <? 500) && isCloudflareChallengeErrorMessage text then false
      else if isInvalidGrantErrorMessage text && bool_decide (status ∈ [BadRequest; Unauthorized; 0]) then false
      else if isModelSupportError err then false
      else if IsRequestFault status text then true
      else negb (String.eqb (E_Message e) "") && IsRequestFault status (E_Message e)
  end.

Definition isRequestScopedNotFoundResultError (err : option Error) : bool :=
  match err with
  | None => false
  | Some e => if negb (StatusCode err =? NotFound) then false else IsItemNotPersisted (E_Message e)
  end.

Definition isRequestScopedResultError (err : option Error) : bool :=
  match err with
  | None => false
  | Some _ => if IsRequestScoped err || isRequestScopedNotFoundResultError err then true
              else isRequestInvalidError err
  end.

Definition shouldSkipCredentialCooldown (err : option Error) : bool :=
  if match err with Some e => String.eqb (E_Code e) ErrorCodeForceCooldown | None => false end then false
  else isRequestScopedResultError err || isConnectionLifecycleResultError err
       || isTransientTransportResultError err.

(** ** What the text of an error cannot change *)

(** The codes that excuse a credential, set where the error is first seen. *)
Definition excusing_codes : list string :=
  [ErrorCodeRequestScoped; ErrorCodeConnectionLifecycle; ErrorCodeTransientTransport].

Lemma quota_status_not_fault status text :
  status ∈ [PaymentRequired; TooManyRequests] → IsRequestFault status text = false.
Proof.
  intros H. unfold IsRequestFault.
  assert ((status =? PaymentRequired) || (status =? TooManyRequests) = true) as ->; [|done].
  rewrite orb_true_iff, !Z.eqb_eq. rewrite !elem_of_cons in H. set_solver.
Qed.

Lemma isRequestInvalidError_code e :
  E_HTTPStatus e ∈ [PaymentRequired; TooManyRequests] →
  isRequestInvalidError (Some e) = String.eqb (E_Code e) ErrorCodeRequestScoped.
Proof.
  intros H. pose proof (quota_status_not_fault _ (Error_text e) H) as H1.
  pose proof (quota_status_not_fault _ (E_Message e) H) as H2.
  unfold isRequestInvalidError, IsRequestScoped, StatusCode. rewrite H1, H2, andb_false_r.
  destruct (String.eqb (E_Code e) _); [done|].
  destruct ((_ <? 500) && _); [done|]. destruct (_ && bool_decide _); [done|].
  by destruct (isModelSupportError _).
Qed.

(** A rate limit or a payment failure is never explained away by its text: the
    credential is spared its cooldown only when the error was coded so at its
    origin. *)
Theorem quota_failure_not_excused (e : Error)
    (Hstatus : E_HTTPStatus e ∈ [PaymentRequired; TooManyRequests]) :
  shouldSkipCredentialCooldown (Some e) = bool_decide (E_Code e ∈ excusing_codes).
Proof.
  assert (E_HTTPStatus e <> 0) as Hnz.
  { rewrite !elem_of_cons in Hstatus. destruct Hstatus as [->|[->|H%elem_of_nil]]; done. }
  assert ((E_HTTPStatus e =? NotFound) = false) as Hnf.
  { rewrite !elem_of_cons in Hstatus. destruct Hstatus as [->|[->|H%elem_of_nil]]; done. }
  unfold shouldSkipCredentialCooldown, isRequestScopedResultError, isRequestScopedNotFoundResultError,
    isConnectionLifecycleResultError, isTransientTransportResultError, StatusCode.
  rewrite (isRequestInvalidError_code e Hstatus), Hnf, (proj2 (Z.eqb_neq _ _) Hnz).
  cbn [negb]. unfold IsRequestScoped. apply eq_true_iff_eq. rewrite bool_decide_eq_true.
  unfold excusing_codes. rewrite !elem_of_cons. pose proof (elem_of_nil (E_Code e)).
  destruct (String.eqb_spec (E_Code e) ErrorCodeForceCooldown) as [E|_].
  { rewrite E. split; [done|]. by intros [?|[?|[?|?%elem_of_nil]]]. }
  destruct (String.eqb_spec (E_Code e) ErrorCodeRequestScoped) as [E1|E1]; [tauto|].
  destruct (String.eqb_spec (E_Code e) ErrorCodeConnectionLifecycle) as [E2|E2]; [tauto|].
  destruct (String.eqb_spec (E_Code e) ErrorCodeTransientTransport) as [E3|E3]; [tauto|].
  simpl. intuition congruence.
Qed.
End RequestFaults.

(** A reader of JSON paths that finds nothing, and the errors of the examples. *)
Definition no_gjson : Gjson := {| gjson_String := λ _ _, "" |}.
Definition rate_limit_error : Error := mkError "" "Rate limit reached" false TooManyRequests.
Definition bad_request_error : Error :=
  mkError "" "invalid_request_error: messages must not be empty" false BadRequest.

Lemma quota_failure_not_excused_witness :
  @shouldSkipCredentialCooldown no_gjson (Some rate_limit_error) = false.
Proof.
  rewrite (@quota_failure_not_excused no_gjson rate_limit_error); [by vm_compute|].
  right. left.
Defined.
