(* ===== verification/QuotaSignals.v ===== *)
(** * Passive quota observation

    Models [quota_signals.go]: which response headers are kept as a credential's
    quota snapshot, how the snapshot is bounded, and the split of [QuotaState] into
    cooldown fields and observation fields.  An [http.Header] is the list of its
    entries in the order the range loop visits them. *)
From Stdlib Require Import ZArith Lia Ascii String Bool Sorted.
From stdpp Require Import prelude gmap strings sorting.
From S2P Require Import Prelude GoStd AuthTypes.
Local Open Scope string_scope.
Local Open Scope list_scope.
Local Open Scope Z_scope.

Abbreviation Header := (list (string * list string)).

(** ** [http.CanonicalHeaderKey] *)

(** The bytes of an RFC 7230 token. *)
Definition token_byte (c : ascii) : bool :=
  let n := byte_val c in
  ((48 <=? n) && (n <=? 57)) || ((65 <=? n) && (n <=? 90)) || ((97 <=? n) && (n <=? 122))
  || bool_decide (c ∈ bytes "!#$%&'*+-.^_`|~").
Definition upper_byte (c : ascii) : ascii :=
  let n := byte_val c in
  if (97 <=? n) && (n <=? 122) then ascii_of_N (Z.to_N (n - 32)) else c.
Fixpoint canonical_bytes (upper : bool) (l : list ascii) : list ascii :=
  match l with
  | [] => []
  | c :: r => (if upper then upper_byte c else lower_byte c) :: canonical_bytes (Ascii.eqb c "-") r
  end.
Definition CanonicalHeaderKey (s : string) : string :=
  if forallb token_byte (bytes s) then of_bytes (canonical_bytes true (bytes s)) else s.

(** ** Which headers count *)

Definition maxQuotaSignalHeaders : nat := 64.
Definition maxQuotaSignalValue : nat := 512.

Definition ProviderSupportsQuotaObservation (provider : string) : bool :=
  bool_decide (ToLower (TrimSpace provider) ∈ ["claude"; "codex"; "devin"]).

Definition validQuotaSignalValue (value : string) : bool :=
  if String.eqb value "" || (maxQuotaSignalValue <? String.length value)%nat then false
  else forallb (λ c, negb ((byte_val c <? 32) || (byte_val c =? 127))) (bytes value).

Definition quotaSignalRetentionRank (name : string) : Z :=
  let lower := ToLower (TrimSpace name) in
  if String.eqb lower "retry-after" || HasPrefix lower "anthropic-ratelimit-unified-" then 0
  else if bool_decide (lower ∈ ["x-codex-plan-type"; "x-codex-active-limit"])
          || HasPrefix lower "x-codex-credits-" then 1
  else if bool_decide (lower ∈ ["x-codex-allowed"; "x-codex-limit-reached"])
          || HasPrefix lower "x-codex-primary-" || HasPrefix lower "x-codex-secondary-" then 2
  else if HasPrefix lower "x-codex-code-review-" then 3
  else if HasPrefix lower "x-codex-additional-" then 5
  else if HasPrefix lower "x-codex-" then 4
  else 6.

Definition signal_markers : list string :=
  ["-allowed"; "-limit-reached"; "-limit-name"; "-used-percent"; "-window-minutes";
   "-reset-after-seconds"; "-reset-at"; "-over-secondary-limit-percent"].

Definition isQuotaSignalHeaderForProvider (provider name : string) : bool :=
  let provider := ToLower (TrimSpace provider) in
  let name := ToLower (TrimSpace name) in
  if String.eqb name "retry-after" then bool_decide (provider ∈ ["claude"; "codex"])
  else if HasPrefix name "anthropic-ratelimit-unified-" then String.eqb provider "claude"
  else if HasPrefix name "x-ratelimit-" then String.eqb provider "codex"
  else if negb (HasPrefix name "x-codex-") then false
  else if negb (String.eqb provider "codex") then false
  else if bool_decide (name ∈ ["x-codex-active-limit"; "x-codex-plan-type"])
          || HasPrefix name "x-codex-credits-" then true
  else existsb (Contains name) signal_markers.

(** ** The snapshot of one response *)

(** One turn of the loop over the headers: [names] in order of first appearance. *)
Definition signal_step (provider : string) (acc : list string * gmap string string)
    (entry : string * list string) : list string * gmap string string :=
  let '(names, values) := acc in
  let canonicalKey := CanonicalHeaderKey (TrimSpace entry.1) in
  if negb (isQuotaSignalHeaderForProvider provider canonicalKey) then acc else
  match last entry.2 with
  | None => acc
  | Some raw =>
      let value := TrimSpace raw in
      if negb (validQuotaSignalValue value) then acc else
      (match values !! canonicalKey with Some _ => names | None => names ++ [canonicalKey] end,
       <[canonicalKey := value]> values)
  end.

Definition signal_less (x y : string) : bool :=
  let rx := quotaSignalRetentionRank x in let ry := quotaSignalRetentionRank y in
  if negb (rx =? ry) then rx <? ry else String.ltb x y.

(** The loop that copies the retained names. *)
Definition keep_signals (values : gmap string string) (kept : list string) : gmap string string :=
  fold_left (λ signals name, <[name := attr values name]> signals) kept ∅.

Definition collectQuotaSignals (provider : string) (headers : Header) : gmap string string :=
  let '(names, values) := fold_left (signal_step provider) headers ([], ∅) in
  let kept := take maxQuotaSignalHeaders (sort_by signal_less names) in
  keep_signals values kept.

(** ** Cooldown fields and observation fields *)

Definition ClearObservationSignals (q : QuotaState) : QuotaState * bool :=
  if bool_decide (Q_Signals q = ∅) && IsZero (Q_ObservedAt q) then (q, false)
  else (q <| Q_Signals := ∅ |> <| Q_ObservedAt := zero_time |>, true).

(** [clock] is what [time.Now] returns when the caller passes no time. *)
Definition ObserveResponseHeadersForProvider (q : QuotaState) (provider : string) (headers : Header)
    (observedAt clock : time) : QuotaState * bool :=
  if negb (ProviderSupportsQuotaObservation provider) then ClearObservationSignals q else
  let next := collectQuotaSignals provider headers in
  if bool_decide (next = ∅) then (q, false) else
  let observedAt := if IsZero observedAt then clock else observedAt in
  (q <| Q_Signals := next |> <| Q_ObservedAt := observedAt |>, true).

Definition cooldownFieldsOf (q : QuotaState) : QuotaState :=
  mkQuota (Q_Exceeded q) (Q_Reason q) (Q_NextRecoverAt q) (Q_BackoffLevel q) zero_time ∅.
Definition applyCooldownFields (dst cooldown : QuotaState) : QuotaState :=
  dst <| Q_Exceeded := Q_Exceeded cooldown |> <| Q_Reason := Q_Reason cooldown |>
      <| Q_NextRecoverAt := Q_NextRecoverAt cooldown |> <| Q_BackoffLevel := Q_BackoffLevel cooldown |>.
Definition mergeQuotaObservation (target source : QuotaState) : QuotaState :=
  if IsZero (Q_ObservedAt source) || Before (Q_ObservedAt source) (Q_ObservedAt target) then target
  else target <| Q_ObservedAt := Q_ObservedAt source |> <| Q_Signals := Q_Signals source |>.

(** ** What one header contributes, and the loop as a map *)

Definition signal (provider : string) (entry : string * list string) : option (string * string) :=
  let name := CanonicalHeaderKey (TrimSpace entry.1) in
  match last entry.2 with
  | Some raw => if isQuotaSignalHeaderForProvider provider name && validQuotaSignalValue (TrimSpace raw)
                then Some (name, TrimSpace raw) else None
  | None => None
  end.
Definition signals (provider : string) (headers : Header) : list (string * string) :=
  omap (signal provider) headers.

Arguments signal_step : simpl never.
Arguments signal : simpl never.

Lemma signal_step_signal provider names values entry :
  signal_step provider (names, values) entry =
  match signal provider entry with
  | Some (name, value) =>
      (match values !! name with Some _ => names | None => names ++ [name] end, <[name := value]> values)
  | None => (names, values)
  end.
Proof.
  unfold signal_step, signal. destruct (last entry.2) as [raw|]; [|by destruct (isQuotaSignalHeaderForProvider _ _)].
  destruct (isQuotaSignalHeaderForProvider _ _); simpl; [|done].
  by destruct (validQuotaSignalValue _).
Qed.

Lemma signals_cons provider h headers :
  signals provider (h :: headers) =
  match signal provider h with
  | Some s => s :: signals provider headers
  | None => signals provider headers
  end.
Proof. done. Qed.

(** With distinct names the loop collects every contribution. *)
Lemma signal_loop provider headers names values :
  NoDup (names ++ (signals provider headers).*1) → (∀ n, n ∈ names ↔ is_Some (values !! n)) →
  fold_left (signal_step provider) headers (names, values)
  = (names ++ (signals provider headers).*1, list_to_map (signals provider headers) ∪ values).
Proof.
  revert names values. induction headers as [|h headers IH]; intros names values Hnd Hdom; simpl.
  { by rewrite app_nil_r, (left_id_L ∅ (∪)). }
  rewrite signal_step_signal. rewrite signals_cons in *.
  destruct (signal provider h) as [[n v]|] eqn:E; [|by apply IH].
  simpl in *. assert (values !! n = None) as Hn.
  { apply eq_None_not_Some. rewrite <-Hdom. intros Hin. apply NoDup_app in Hnd as (_&Hd&_).
    eapply Hd; [exact Hin|by left]. }
  rewrite Hn, IH.
  - rewrite <-(assoc_L (++)). simpl. f_equal.
    apply NoDup_app in Hnd as (_&_&Hnd). apply NoDup_cons in Hnd as [Hn' _].
    assert (list_to_map (signals provider headers) !! n = (None : option string)) as Hl
      by (by apply not_elem_of_list_to_map_1).
    rewrite <-insert_union_l, insert_union_r by done. done.
  - by rewrite <-(assoc_L (++)).
  - intros m. rewrite elem_of_app, list_elem_of_singleton, lookup_insert_is_Some, Hdom.
    destruct (decide (n = m)) as [->|]; intuition congruence.
Qed.

(** Copying the kept names out of the table restricts it to them. *)
Lemma keep_lookup (values : gmap string string) kept n :
  keep_signals values kept !! n = if bool_decide (n ∈ kept) then Some (attr values n) else None.
Proof.
  unfold keep_signals.
  assert (∀ acc : gmap string string,
    fold_left (λ signals name, <[name := attr values name]> signals) kept acc !! n
    = if bool_decide (n ∈ kept) then Some (attr values n) else acc !! n) as H; [|by rewrite H].
  induction kept as [|k kept IH]; intros acc; simpl.
  { done. }
  rewrite IH. destruct (decide (n ∈ kept)) as [Hin|Hn].
  - rewrite bool_decide_eq_true_2 by done. by rewrite bool_decide_eq_true_2 by (by right).
  - rewrite bool_decide_eq_false_2 by done. destruct (decide (n = k)) as [->|Hne].
    + rewrite lookup_insert_eq, bool_decide_eq_true_2; [done|by left].
    + rewrite lookup_insert_ne, bool_decide_eq_false_2; [done| |done].
      by intros [?|?]%elem_of_cons.
Qed.

(** ** The retention order *)

Lemma signal_not_after x y :
  not_after signal_less x y ↔
  quotaSignalRetentionRank x < quotaSignalRetentionRank y
  ∨ quotaSignalRetentionRank x = quotaSignalRetentionRank y ∧ String.le x y.
Proof.
  unfold not_after, signal_less. rewrite string_ltb_leb. unfold String.le, Is_true.
  destruct (Z.eqb_spec (quotaSignalRetentionRank y) (quotaSignalRetentionRank x)) as [E|E]; simpl.
  - destruct (String.leb x y); simpl; split; try done; try lia; by right.
  - destruct (Z.ltb_spec (quotaSignalRetentionRank y) (quotaSignalRetentionRank x)); split;
      try done; try lia; intros; left; lia.
Qed.

Lemma signal_less_asym a b : signal_less a b = true → signal_less b a = false.
Proof.
  unfold signal_less. rewrite (Z.eqb_sym (quotaSignalRetentionRank b)).
  destruct (Z.eqb_spec (quotaSignalRetentionRank a) (quotaSignalRetentionRank b)); simpl.
  - apply (key_less_asym id).
  - intros H. to_prop. apply Z.ltb_ge. lia.
Qed.

Lemma signal_not_after_trans a b c :
  not_after signal_less a b → not_after signal_less b c → not_after signal_less a c.
Proof.
  rewrite !signal_not_after. intros [H1|[H1 L1]] [H2|[H2 L2]]; try (left; lia).
  right. split; [lia|]. by etrans.
Qed.

Lemma signal_not_after_anti a b : not_after signal_less a b → not_after signal_less b a → a = b.
Proof.
  rewrite !signal_not_after. intros [H1|[H1 L1]] [H2|[H2 L2]]; try lia. by apply (anti_symm String.le).
Qed.

Lemma sorted_signals l : StronglySorted (not_after signal_less) (sort_by signal_less l).
Proof.
  apply Sorted_StronglySorted.
  - intros a b c. apply signal_not_after_trans.
  - apply sort_by_sorted, signal_less_asym.
Qed.

Lemma sort_signals_perm l l' : l ≡ₚ l' → sort_by signal_less l = sort_by signal_less l'.
Proof.
  apply sort_by_unique; [apply signal_less_asym|apply signal_not_after_trans|].
  intros a b _ _. apply signal_not_after_anti.
Qed.

(** The names kept of a response: the first ones in the retention order. *)
Definition retained (provider : string) (headers : Header) : list string :=
  take maxQuotaSignalHeaders (sort_by signal_less (signals provider headers).*1).

Lemma retained_sub provider headers n : n ∈ retained provider headers → n ∈ (signals provider headers).*1.
Proof.
  intros H. rewrite <-(sort_by_perm signal_less).
  eapply sublist_subseteq; [apply sublist_take|exact H].
Qed.

(** The snapshot is what the response carries, restricted to those names. *)
Lemma collectQuotaSignals_lookup provider headers n :
  NoDup (signals provider headers).*1 →
  collectQuotaSignals provider headers !! n
  = if bool_decide (n ∈ retained provider headers)
    then list_to_map (M := gmap string string) (signals provider headers) !! n else None.
Proof.
  intros Hnd. unfold collectQuotaSignals. rewrite signal_loop; simpl; [|done|].
  2:{ intros m. rewrite lookup_empty. split; [by intros ?%elem_of_nil|by intros [??]]. }
  rewrite keep_lookup, (right_id_L ∅ (∪)). fold (retained provider headers).
  case_bool_decide as H; [|done]. apply retained_sub in H.
  apply list_elem_of_fmap in H as ([n' v]&->&Hin). simpl. unfold attr.
  by rewrite (elem_of_list_to_map_1 _ n' v).
Qed.

Lemma signal_ok provider entry n v :
  signal provider entry = Some (n, v) →
  isQuotaSignalHeaderForProvider provider n = true ∧ validQuotaSignalValue v = true.
Proof.
  unfold signal. destruct (last entry.2); [|done]. case_match eqn:E; [|done].
  intros [= <- <-]. by apply andb_true_iff in E.
Qed.

(** The passive quota snapshot of a response: at most 64 headers, each allowed
    for the provider and of a bounded printable value, each as the response carries
    it; when headers are dropped, every kept one precedes every dropped one in the
    retention order; and the result does not depend on the order in which the
    header map is visited. *)
Theorem collectQuotaSignals_bounded (provider : string) (headers : Header)
    (Hdistinct : NoDup (signals provider headers).*1) :
  let carried : gmap string string := list_to_map (signals provider headers) in
  let snapshot := collectQuotaSignals provider headers in
  size snapshot = Nat.min maxQuotaSignalHeaders (size carried)
  ∧ snapshot ⊆ carried
  ∧ (∀ n v, snapshot !! n = Some v →
       isQuotaSignalHeaderForProvider provider n = true ∧ validQuotaSignalValue v = true)
  ∧ (∀ kept dropped, kept ∈ dom snapshot → dropped ∈ dom carried → dropped ∉ dom snapshot →
       signal_less kept dropped = true)
  ∧ (∀ headers', headers' ≡ₚ headers → collectQuotaSignals provider headers' = snapshot).
Proof.
  intros carried snapshot.
  assert (∀ n, snapshot !! n = if bool_decide (n ∈ retained provider headers) then carried !! n else None)
    as Hs by (intros n; by apply collectQuotaSignals_lookup).
  assert (dom carried = list_to_set (signals provider headers).*1) as Hdc by apply dom_list_to_map_L.
  assert (dom snapshot = list_to_set (retained provider headers)) as Hds.
  { apply set_eq. intros n. rewrite elem_of_dom, elem_of_list_to_set, Hs.
    case_bool_decide as H; [|by split; [intros [??]|]].
    split; [done|]. intros _. apply elem_of_dom. rewrite Hdc, elem_of_list_to_set. by apply retained_sub. }
  assert (NoDup (sort_by signal_less (signals provider headers).*1)) as Hnd by (by rewrite sort_by_perm).
  split_and!.
  - rewrite <-!size_dom, Hds, Hdc, !size_list_to_set; [|done|].
    + unfold retained. by rewrite length_take, length_sort_by.
    + unfold retained. eapply sublist_NoDup; [exact Hnd|apply sublist_take].
  - apply map_subseteq_spec. intros n v. rewrite Hs. by case_bool_decide.
  - intros n v. rewrite Hs. case_bool_decide; [|done]. intros Hc.
    apply elem_of_list_to_map_2 in Hc. apply list_elem_of_omap in Hc as (h&_&Hc). by apply signal_ok in Hc.
  - intros kept dropped. rewrite Hds, Hdc, !elem_of_list_to_set. intros Hk Hd Hn.
    rewrite <-(sort_by_perm signal_less) in Hd.
    pose proof (sorted_signals (signals provider headers).*1) as Hsort. unfold retained in *.
    rewrite <-(take_drop maxQuotaSignalHeaders (sort_by _ _)) in Hd, Hsort.
    apply elem_of_app in Hd as [?|Hd]; [done|].
    destruct (signal_less kept dropped) eqn:E; [done|].
    assert (not_after signal_less kept dropped) as Hkd
      by exact (StronglySorted_app_1_elem_of _ _ _ _ _ Hsort Hk Hd).
    assert (kept = dropped) as ->; [|done]. by apply signal_not_after_anti.
  - intros headers' Hp. apply map_eq. intros n.
    assert (signals provider headers' ≡ₚ signals provider headers) as Hps
      by (unfold signals; by rewrite Hp).
    rewrite Hs, collectQuotaSignals_lookup by (by rewrite Hps). unfold retained, carried.
    rewrite (sort_signals_perm (signals provider headers').*1 (signals provider headers).*1)
      by (by rewrite Hps).
    case_bool_decide; [|done]. f_equal. apply list_to_map_proper; [by rewrite Hps|done].
Qed.

Definition sample_headers : Header :=
  [("Retry-After", ["30"]); ("X-Codex-Plan-Type", ["plus"; " pro "]); ("Date", ["today"]);
   ("x-codex-primary-used-percent", ["71"])].
Lemma collectQuotaSignals_bounded_witness :
  collectQuotaSignals "codex" sample_headers !! "X-Codex-Plan-Type" = Some "pro"
  ∧ size (collectQuotaSignals "codex" sample_headers) = 3%nat
  ∧ collectQuotaSignals "codex" (reverse sample_headers) = collectQuotaSignals "codex" sample_headers.
Proof.
  assert (NoDup (signals "codex" sample_headers).*1) as Hnd.
  { apply (bool_decide_unpack _). by vm_compute. }
  pose proof (collectQuotaSignals_bounded "codex" sample_headers Hnd) as H. cbn zeta in H.
  destruct H as (Hsize&_&_&_&Hperm).
  split; [by vm_compute|]. split; [rewrite Hsize; by vm_compute|].
  apply Hperm. apply reverse_Permutation.
Defined.
