(* ===== verification/Cooldown.v ===== *)
(** * Cooldowns: how long, and what they do to a credential

    Models the first half of [conductor_cooldown.go] and its helpers in
    [conductor_refresh.go]: whether cooling is enabled for a credential, the back-off
    ladder, the states of models (normalising, merging, resetting), the aggregated
    availability of a credential, and [applyAuthFailureState].

    The two process-wide settings and the configuration are a class argument
    ([Settings]).  A range over [ModelStates] visits [map_to_list]; where the order
    matters ([normalizeModelStates]) it is an argument. *)
From Stdlib Require Import ZArith Lia Ascii String Bool.
From stdpp Require Import prelude gmap strings.
From S2P Require Import Prelude GoStd AuthTypes Errors Json Classify Availability QuotaSignals.
Local Open Scope string_scope.
Local Open Scope list_scope.
Local Open Scope Z_scope.

(** ** Settings *)

Record OpenAICompatibility := mkCompat {
  OC_Name : string; OC_Disabled : bool; OC_DisableCooling : option bool }.
Record Config := mkConfig {
  HomeEnabled : bool; CF_DisableCooling : bool; CF_OpenAICompatibility : list OpenAICompatibility }.

(** [quotaCooldownDisabled] and [transientErrorCooldownSeconds], and the runtime
    configuration of the manager, when there is one. *)
Class Settings := {
  quotaCooldownDisabled : bool;
  transientErrorCooldownSeconds : Z;
  runtimeConfig : option Config }.

Definition quotaBackoffBase : duration := Second.
Definition quotaBackoffMax : duration := 30 * Minute.
Definition minQuotaCooldownFloor : duration := 10 * Second.
Definition transientErrorCooldown : duration := Minute.
Definition refreshFailureBackoff : duration := 5 * Minute.
Definition quotaRefreshFailureCount : Z := 4.
Definition devinQuotaRevalidateInterval : duration := Hour.

Definition resolveOpenAICompatConfig (cfg : option Config) (providerKey compatName authProvider : string)
    : option OpenAICompatibility :=
  match cfg with
  | None => None
  | Some cfg =>
      let candidates := filter (λ c, c ≠ "")
        [TrimSpace compatName; TrimSpace providerKey; TrimSpace authProvider] in
      find_first (λ compat, negb (OC_Disabled compat)
                            && existsb (λ c, EqualFold (TrimSpace c) (OC_Name compat)) candidates)
        (CF_OpenAICompatibility cfg)
  end.

Definition providerCoolingOverrideForAuth (auth : option Auth) (cfg : option Config) : bool * bool :=
  match auth, cfg with
  | Some a, Some _ =>
      let provider := ToLower (TrimSpace (Provider a)) in
      if String.eqb provider "" then (false, false) else
      let providerKey := TrimSpace (attr (Attributes a) "provider_key") in
      let compatName := TrimSpace (attr (Attributes a) "compat_name") in
      if String.eqb providerKey "" && String.eqb compatName ""
         && negb (String.eqb provider "openai-compatibility") then (false, false) else
      let providerKey := if String.eqb providerKey "" then provider else providerKey in
      match resolveOpenAICompatConfig cfg providerKey compatName provider with
      | Some entry => match OC_DisableCooling entry with
                      | Some disable => (disable, true)
                      | None => (false, false)
                      end
      | None => (false, false)
      end
  | _, _ => (false, false)
  end.

Section cooldown.
Context {gj : Gjson} {st : Settings}.

Definition quotaCooldownDisabledForAuthWithConfig (auth : option Auth) (cfg : option Config) : bool :=
  if match cfg with Some c => HomeEnabled c | None => false end then true else
  let global := match cfg with Some c => CF_DisableCooling c | None => false end
                || quotaCooldownDisabled in
  match auth with
  | None => global
  | Some _ =>
      let '(override, ok) := DisableCoolingOverride auth in
      if (ok : bool) then override else
      let '(override, ok) := providerCoolingOverrideForAuth auth cfg in
      if (ok : bool) then override else global
  end.
Definition cooldownDisabledForAuth (auth : option Auth) : bool :=
  quotaCooldownDisabledForAuthWithConfig auth runtimeConfig.

(** ** Deadlines *)

Definition recoverableFailureRetryAfterWithHint (now : time) (retryAfter : option duration)
    (disableCooling : bool) : time :=
  if disableCooling then zero_time else
  let seconds := transientErrorCooldownSeconds in
  if seconds <? 0 then zero_time else
  match retryAfter with
  | Some d => if 0 <? d then Add now d
              else if seconds =? 0 then Add now transientErrorCooldown
              else Add now (wrap64 (seconds * Second))
  | None => if seconds =? 0 then Add now transientErrorCooldown
            else Add now (wrap64 (seconds * Second))
  end.
Definition recoverableFailureRetryAfter (now : time) (disableCooling : bool) : time :=
  recoverableFailureRetryAfterWithHint now None disableCooling.

(** [time.Duration(1<<level)]: the shift drops the bits above the 64th. *)
Definition shl1 (level : Z) : Z := if level <? 64 then wrap64 (2 ^ level) else 0.

Definition nextQuotaCooldown (prevLevel : Z) (disableCooling : bool) : duration * Z :=
  let prevLevel := if prevLevel <? 0 then 0 else prevLevel in
  if disableCooling then (0, prevLevel) else
  let cooldown := wrap64 (quotaBackoffBase * shl1 prevLevel) in
  let cooldown := if cooldown <? quotaBackoffBase then quotaBackoffBase else cooldown in
  if quotaBackoffMax <=? cooldown then (quotaBackoffMax, prevLevel)
  else (cooldown, prevLevel + 1).

Definition quotaCooldownAfterFailure (quota : QuotaState) (now : time) : time * Z :=
  if After (Q_NextRecoverAt quota) now then (Q_NextRecoverAt quota, Q_BackoffLevel quota) else
  let '(cooldown, nextLevel) := nextQuotaCooldown (Q_BackoffLevel quota) false in
  (if 0 <? cooldown then Add now cooldown else zero_time, nextLevel).

Definition nextCloudflareCooldown (backoffLevel : Z) (disableCooling : bool) (now : time) : time * Z :=
  if disableCooling then (zero_time, backoffLevel) else
  let '(cooldown, nextLevel) := nextQuotaCooldown backoffLevel disableCooling in
  let cooldown := if cooldown <? 10 * Second then 10 * Second else cooldown in
  (if 0 <? cooldown then Add now cooldown else zero_time, nextLevel).

(** ** States of models *)

Definition resetModelState (state : ModelState) (now : time) : ModelState :=
  state <| M_Unavailable := false |> <| M_Status := StatusActive |> <| M_StatusMessage := "" |>
        <| M_NextRetryAfter := zero_time |> <| M_LastError := None |>
        <| M_Quota := applyCooldownFields (M_Quota state) zeroQuota |>
        <| cooldownRecordedSeq := 0 |> <| credentialQuotaShadow := None |>
        <| credentialQuotaPropagated := false |> <| M_UpdatedAt := now |>.

Definition isModelStateActiveCooldown (state : option ModelState) (now : time) : bool :=
  match state with
  | None => false
  | Some s =>
      if bool_decide (M_Status s = StatusDisabled) then true
      else if negb (IsZero (M_NextRetryAfter s)) && After (M_NextRetryAfter s) now then true
      else if negb (IsZero (Q_NextRecoverAt (M_Quota s))) && After (Q_NextRecoverAt (M_Quota s)) now then true
      else Q_Exceeded (M_Quota s) && IsZero (Q_NextRecoverAt (M_Quota s))
  end.

Definition isAuthActiveCooldown (auth : option Auth) (now : time) : bool :=
  match auth with
  | None => false
  | Some a =>
      if Disabled a || bool_decide (A_Status a = StatusDisabled) then false
      else if negb (IsZero (NextRetryAfter a)) && After (NextRetryAfter a) now then true
      else if negb (IsZero (Q_NextRecoverAt (Quota a))) && After (Q_NextRecoverAt (Quota a)) now then true
      else Q_Exceeded (Quota a) && IsZero (Q_NextRecoverAt (Quota a))
  end.

Definition modelStateIsClean (state : option ModelState) : bool :=
  match state with
  | None => true
  | Some s =>
      bool_decide (M_Status s = StatusActive)
      && negb (M_Unavailable s || negb (String.eqb (M_StatusMessage s) "")
               || negb (IsZero (M_NextRetryAfter s)) || bool_decide (is_Some (M_LastError s)))
      && negb (Q_Exceeded (M_Quota s) || negb (String.eqb (Q_Reason (M_Quota s)) "")
               || negb (IsZero (Q_NextRecoverAt (M_Quota s))) || negb (Q_BackoffLevel (M_Quota s) =? 0))
  end.

(** [merged.Quota]: the longer window of both, the reason of the newer. *)
Definition merge_quota (t s preferred fallback : ModelState) : QuotaState :=
  let quota := mkQuota (Q_Exceeded (M_Quota t) || Q_Exceeded (M_Quota s)) (Q_Reason (M_Quota preferred))
                 (Q_NextRecoverAt (M_Quota t)) (Q_BackoffLevel (M_Quota t)) zero_time ∅ in
  let quota := mergeQuotaObservation quota (M_Quota fallback) in
  let quota := mergeQuotaObservation quota (M_Quota preferred) in
  let quota := if After (Q_NextRecoverAt (M_Quota s)) (Q_NextRecoverAt quota)
               then quota <| Q_NextRecoverAt := Q_NextRecoverAt (M_Quota s) |> else quota in
  let quota := if Q_BackoffLevel quota <? Q_BackoffLevel (M_Quota s)
               then quota <| Q_BackoffLevel := Q_BackoffLevel (M_Quota s) |> else quota in
  if String.eqb (Q_Reason quota) "" then quota <| Q_Reason := Q_Reason (M_Quota fallback) |> else quota.

Definition mergeModelState (target source : option ModelState) : option ModelState :=
  match target, source with
  | None, _ => source
  | Some _, None => target
  | Some t, Some s =>
      let '(preferred, fallback) := if After (M_UpdatedAt s) (M_UpdatedAt t) then (s, t) else (t, s) in
      let quota := merge_quota t s preferred fallback in
      let unavailable := M_Unavailable t || M_Unavailable s in
      let wrapped :=
        bool_decide (Q_Reason quota ∈ ["credential_quota"; "quota"])
        || credentialQuotaPropagated t || credentialQuotaPropagated s
        || bool_decide (is_Some (credentialQuotaShadow t)) || bool_decide (is_Some (credentialQuotaShadow s)) in
      let shadow := match credentialQuotaShadow preferred with
                    | Some sh => Some sh
                    | None => credentialQuotaShadow fallback
                    end in
      Some (mkModelState
        (if bool_decide (M_Status t = StatusDisabled) || bool_decide (M_Status s = StatusDisabled)
         then StatusDisabled
         else if unavailable || Q_Exceeded quota then StatusError else M_Status preferred)
        (if String.eqb (M_StatusMessage preferred) "" then M_StatusMessage fallback
         else M_StatusMessage preferred)
        unavailable
        (if After (M_NextRetryAfter s) (M_NextRetryAfter t) then M_NextRetryAfter s else M_NextRetryAfter t)
        (match M_LastError preferred with Some e => Some e | None => M_LastError fallback end)
        quota
        (if After (M_UpdatedAt s) (M_UpdatedAt t) then M_UpdatedAt s else M_UpdatedAt t)
        (if cooldownRecordedSeq t <? cooldownRecordedSeq s then cooldownRecordedSeq s
         else cooldownRecordedSeq t)
        (if wrapped then cloneShallow <$> shadow else None)
        (wrapped && (credentialQuotaPropagated t || credentialQuotaPropagated s)))
  end.

(** The key under which [normalizeModelStates] files a state. *)
Definition normal_key (model : string) : string :=
  let modelKey := canonicalModelKey model in
  if String.eqb modelKey "" then TrimSpace model else modelKey.

Definition normalize_step (acc : gmap string (option ModelState) * bool)
    (entry : string * option ModelState) : gmap string (option ModelState) * bool :=
  let '(normalized, changed) := acc in
  let '(model, state) := entry in
  let modelKey := normal_key model in
  let changed := changed || negb (String.eqb modelKey model) in
  match normalized !! modelKey with
  | Some existing => (<[modelKey := mergeModelState existing state]> normalized, true)
  | None => (<[modelKey := state]> normalized, changed)
  end.

(** [visit] is [auth.ModelStates] in the order Go happens to range over it. *)
Definition normalizeModelStates_in (visit : list (string * option ModelState)) (auth : Auth) : Auth :=
  let '(normalized, changed) := fold_left normalize_step visit (∅, false) in
  if (changed : bool) then auth <| ModelStates := normalized |> else auth.
Definition normalizeModelStates (auth : Auth) : Auth :=
  normalizeModelStates_in (map_to_list (ModelStates auth)) auth.

Definition existingModelState (auth : Auth) (model : string) : option ModelState :=
  let model := canonicalModelKey model in
  if String.eqb model "" then None else default None (ModelStates auth !! model).

(** The state of [model], created when there is none; [None] is the [nil] of an
    empty model name. *)
Definition ensureModelState (auth : Auth) (model : string) : Auth * option ModelState :=
  let model := canonicalModelKey model in
  if String.eqb model "" then (auth, None) else
  let auth := normalizeModelStates auth in
  match ModelStates auth !! model with
  | Some (Some state) => (auth, Some state)
  | _ =>
      let state := zeroModelState <| M_Status := StatusActive |> in
      (auth <| ModelStates := <[model := Some state]> (ModelStates auth) |>, Some state)
  end.

(** Writing through the pointer [ensureModelState] returned. *)
Definition put_state (auth : Auth) (model : string) (state : ModelState) : Auth :=
  auth <| ModelStates := <[canonicalModelKey model := Some state]> (ModelStates auth) |>.

(** ** Aggregated availability of a credential *)

Definition clearAggregatedAvailability (auth : Auth) : Auth :=
  auth <| Unavailable := false |> <| NextRetryAfter := zero_time |>
       <| Quota := applyCooldownFields (Quota auth) zeroQuota |>.

(** A cooldown of the whole credential is running. *)
Definition credential_wrap (auth : Auth) (now : time) : bool :=
  Q_Exceeded (Quota auth) && String.eqb (Q_Reason (Quota auth)) "credential_quota"
  && After (Q_NextRecoverAt (Quota auth)) now.

(** What the loop does to one state: an expired block is cleared in place. *)
Definition expire_state (now : time) (state : ModelState) : ModelState :=
  if negb (bool_decide (M_Status state = StatusDisabled)) && M_Unavailable state
     && negb (IsZero (M_NextRetryAfter state)) && negb (After (M_NextRetryAfter state) now)
  then state <| M_Unavailable := false |> <| M_NextRetryAfter := zero_time |>
  else state.

Record aggregate := mkAggregate {
  allUnavailable : bool; earliestRetry : time; quotaExceeded : bool; quotaRecover : time;
  maxBackoffLevel : Z; hasState : bool }.

Definition stateUnavailable (state : ModelState) (now : time) : bool :=
  if bool_decide (M_Status state = StatusDisabled) then true
  else M_Unavailable state && negb (IsZero (M_NextRetryAfter state)) && After (M_NextRetryAfter state) now.

(** One turn of the loop over the states. *)
Definition aggregate_step (now : time) (acc : aggregate) (state : option ModelState) : aggregate :=
  match state with
  | None => acc
  | Some s =>
      let retry := M_NextRetryAfter s in
      let counted := negb (bool_decide (M_Status s = StatusDisabled)) && stateUnavailable s now in
      let recover := Q_NextRecoverAt (M_Quota s) in
      mkAggregate (allUnavailable acc && stateUnavailable s now)
        (if counted && (IsZero (earliestRetry acc) || Before retry (earliestRetry acc))
         then retry else earliestRetry acc)
        (quotaExceeded acc || Q_Exceeded (M_Quota s))
        (if Q_Exceeded (M_Quota s)
            && (IsZero (quotaRecover acc) || (negb (IsZero recover) && Before recover (quotaRecover acc)))
         then recover else quotaRecover acc)
        (if Q_Exceeded (M_Quota s) && (maxBackoffLevel acc <? Q_BackoffLevel (M_Quota s))
         then Q_BackoffLevel (M_Quota s) else maxBackoffLevel acc)
        true
  end.
Definition aggregate_of (now : time) (states : list (option ModelState)) : aggregate :=
  fold_left (aggregate_step now) states (mkAggregate true zero_time false zero_time 0 false).

(** [visit] is the range order over [auth.ModelStates]. *)
Definition updateAggregatedAvailability_in (visit : list (option ModelState)) (auth : Auth) (now : time) : Auth :=
  if hasUnauthorizedAuthFailure (Some auth) then auth <| Unavailable := true |>
  else if credential_wrap auth now then auth <| Unavailable := true |>
  else
  let agg := aggregate_of now visit in
  if negb (hasState agg) then clearAggregatedAvailability auth else
  let auth := auth <| ModelStates := option_map (expire_state now) <$> ModelStates auth |> in
  let auth := auth <| Unavailable := allUnavailable agg |>
                   <| NextRetryAfter := if allUnavailable agg then earliestRetry agg else zero_time |> in
  let q := Quota auth in
  if quotaExceeded agg then
    let recover := if After (Q_NextRecoverAt q) (quotaRecover agg) then Q_NextRecoverAt q
                   else quotaRecover agg in
    auth <| Quota := q <| Q_Exceeded := true |> <| Q_Reason := "quota" |>
                       <| Q_NextRecoverAt := recover |> <| Q_BackoffLevel := maxBackoffLevel agg |> |>
  else if Q_Exceeded q && After (Q_NextRecoverAt q) now then auth
  else auth <| Quota := applyCooldownFields q zeroQuota |>.
Definition updateAggregatedAvailability (auth : Auth) (now : time) : Auth :=
  updateAggregatedAvailability_in (map_to_list (ModelStates auth)).*2 auth now.

Definition state_error (now : time) (state : option ModelState) : bool :=
  match state with
  | None => false
  | Some s =>
      if bool_decide (is_Some (M_LastError s)) then true
      else bool_decide (M_Status s = StatusError) && M_Unavailable s
           && (IsZero (M_NextRetryAfter s) || After (M_NextRetryAfter s) now)
  end.
Definition hasModelError (auth : Auth) (now : time) : bool :=
  existsb (state_error now) (map_to_list (ModelStates auth)).*2.

Definition clearAuthStateOnSuccess (auth : Auth) (now : time) : Auth :=
  if hasUnauthorizedAuthFailure (Some auth) then auth <| Unavailable := true |>
  else auth <| Unavailable := false |> <| A_Status := StatusActive |> <| StatusMessage := "" |>
            <| Quota := applyCooldownFields (Quota auth) zeroQuota |> <| LastError := None |>
            <| NextRetryAfter := zero_time |> <| authCooldownRecordedSeq := 0 |> <| UpdatedAt := now |>.

Definition clear_state (now : time) (state : ModelState) : ModelState * bool :=
  if M_Unavailable state || negb (IsZero (M_NextRetryAfter state)) || Q_Exceeded (M_Quota state)
     || negb (IsZero (Q_NextRecoverAt (M_Quota state))) || bool_decide (is_Some (credentialQuotaShadow state))
     || credentialQuotaPropagated state
  then (state <| M_Unavailable := false |> <| M_NextRetryAfter := zero_time |>
              <| M_Quota := applyCooldownFields (M_Quota state) zeroQuota |>
              <| credentialQuotaShadow := None |> <| credentialQuotaPropagated := false |>
              <| M_UpdatedAt := now |>, true)
  else (state, false).

(** [Generation] is a [uint64]. *)
Definition bump_generation (auth : Auth) : Auth := auth <| Generation := wrapu64 (Generation auth + 1) |>.

Definition clearCooldownStateForAuth (auth : Auth) (now : time) : Auth * bool :=
  if hasUnauthorizedAuthFailure (Some auth) then (auth, false) else
  let dirty := Unavailable auth || negb (IsZero (NextRetryAfter auth)) || Q_Exceeded (Quota auth)
               || negb (IsZero (Q_NextRecoverAt (Quota auth))) in
  let auth := if dirty then (clearAggregatedAvailability auth) <| UpdatedAt := now |> else auth in
  let changed := dirty || existsb (λ s, match s with Some s => (clear_state now s).2 | None => false end)
                            (map_to_list (ModelStates auth)).*2 in
  let auth := auth <| ModelStates := option_map (λ s, (clear_state now s).1) <$> ModelStates auth |> in
  let auth := if bool_decide (ModelStates auth = ∅) then auth else updateAggregatedAvailability auth now in
  if changed then ((bump_generation auth) <| UpdatedAt := now |>, true) else (auth, false).

(** ** A failure of the whole credential *)

Definition force_cooldown (err : option Error) : bool :=
  match err with Some e => String.eqb (E_Code e) ErrorCodeForceCooldown | None => false end.

(** A hint in a 404: wait that long when it is positive, else half a day. *)
Definition not_found_deadline (now : time) (retryAfter : option duration) : time :=
  match retryAfter with
  | Some d => if 0 <? d then Add now d else Add now (12 * Hour)
  | None => Add now (12 * Hour)
  end.

Definition gateway_status (status : Z) : bool :=
  bool_decide (status ∈ [408; 500; 502; 503; 504; 520; 521; 522; 523; 524; 525; 526]).

(** The deadline and the back-off level of a rate limit, before it is joined with a
    quota window that is still open. *)
Definition quota_deadline (quota : QuotaState) (retryAfter : option duration) (now : time) : time * Z :=
  match retryAfter with
  | Some d => (Add now (if d <? minQuotaCooldownFloor then minQuotaCooldownFloor else d), Q_BackoffLevel quota)
  | None => quotaCooldownAfterFailure quota now
  end.
(** [if quota.Exceeded && quota.NextRecoverAt.After(next) { next = quota.NextRecoverAt }] *)
Definition extend_open (quota : QuotaState) (next : time) : time :=
  if Q_Exceeded quota && After (Q_NextRecoverAt quota) next then Q_NextRecoverAt quota else next.

(** The switch on the kind of failure: the fields it writes. *)
Definition auth_failure_fields (auth : Auth) (resultErr : option Error) (retryAfter : option duration)
    (now : time) (disableCooling : bool) : Auth :=
  let half_hour := if disableCooling then zero_time else Add now (30 * Minute) in
  let status := StatusCode resultErr in
  if isCloudflareChallengeResultError resultErr then
    let '(next, level) := nextCloudflareCooldown (Q_BackoffLevel (Quota auth)) disableCooling now in
    auth <| StatusMessage := "cloudflare challenge" |>
         <| Quota := applyCooldownFields (Quota auth) (mkQuota true "cloudflare challenge" next level 0 ∅) |>
         <| NextRetryAfter := next |>
  else if isInvalidGrantResultError resultErr then
    auth <| StatusMessage := "invalid_grant" |> <| NextRetryAfter := half_hour |>
  else if status =? 401 then
    auth <| StatusMessage := "unauthorized" |> <| NextRetryAfter := half_hour |>
  else if (status =? 402) || (status =? 403) then
    auth <| StatusMessage := "payment_required" |> <| NextRetryAfter := half_hour |>
  else if status =? 404 then
    auth <| StatusMessage := "not_found" |>
         <| NextRetryAfter := if disableCooling then zero_time else not_found_deadline now retryAfter |>
  else if status =? 429 then
    let quota := (Quota auth) <| Q_Exceeded := true |> <| Q_Reason := "quota" |> in
    let '(next, level) :=
      if disableCooling then (zero_time, Q_BackoffLevel quota)
      else let '(next, level) := quota_deadline quota retryAfter now in (extend_open quota next, level) in
    auth <| StatusMessage := "quota exhausted" |>
         <| Quota := quota <| Q_BackoffLevel := level |> <| Q_NextRecoverAt := next |> |>
         <| NextRetryAfter := next |>
  else if gateway_status status then
    let next := recoverableFailureRetryAfterWithHint now retryAfter disableCooling in
    auth <| StatusMessage := "transient upstream error" |> <| NextRetryAfter := next |>
         <| Unavailable := negb (IsZero next) |>
  else
    let next := recoverableFailureRetryAfter now disableCooling in
    auth <| StatusMessage := if String.eqb (StatusMessage auth) "" then "request failed" else StatusMessage auth |>
         <| NextRetryAfter := next |> <| Unavailable := negb (IsZero next) |>.

(** A later failure only extends a cooldown that is still running. *)
Definition extend_running (previous next now : time) : time :=
  if negb (IsZero next) && After previous next && After previous now then previous else next.

Definition applyAuthFailureState (auth : Auth) (resultErr : option Error) (retryAfter : option duration)
    (now : time) (disableCooling : bool) : Auth :=
  if shouldSkipCredentialCooldown resultErr then auth else
  let previous := NextRetryAfter auth in
  let auth := auth <| Unavailable := true |> <| A_Status := StatusError |> <| UpdatedAt := now |> in
  let auth := match resultErr with
              | Some e => auth <| LastError := Some e |>
                               <| StatusMessage := if String.eqb (E_Message e) "" then StatusMessage auth
                                                   else E_Message e |>
              | None => auth
              end in
  let auth := auth_failure_fields auth resultErr retryAfter now disableCooling in
  let auth := auth <| NextRetryAfter := extend_running previous (NextRetryAfter auth) now |> in
  let auth := if force_cooldown resultErr && IsZero (NextRetryAfter auth)
              then auth <| NextRetryAfter := Add now transientErrorCooldown |> <| Unavailable := true |>
              else auth in
  (* the deferred correction *)
  if disableCooling && IsZero (NextRetryAfter auth) && IsZero (Q_NextRecoverAt (Quota auth))
  then auth <| Unavailable := false |> <| Quota := (Quota auth) <| Q_Exceeded := false |> |>
  else auth.
(** ** The back-off ladder *)

Lemma shl1_small level : 0 ≤ level ≤ 33 → wrap64 (quotaBackoffBase * shl1 level) = 2 ^ level * Second.
Proof.
  intros H. unfold shl1. rewrite (proj2 (Z.ltb_lt level 64)) by lia.
  assert (1 ≤ 2 ^ level ≤ 2 ^ 33) as Hp.
  { split; [|by apply Z.pow_le_mono_r; lia]. pose proof (Z.pow_pos_nonneg 2 level). lia. }
  unfold quotaBackoffBase, Second. change (2 ^ 33) with 8589934592 in Hp.
  rewrite (wrap64_id (2 ^ level)) by (unfold is_int64, MinInt64, MaxInt64; lia).
  rewrite wrap64_id; [lia|]. unfold is_int64, MinInt64, MaxInt64. lia.
Qed.

(** One step on the levels the ladder reaches. *)
Lemma nextQuotaCooldown_low level :
  0 ≤ level ≤ 11 →
  nextQuotaCooldown level false = (Z.min (2 ^ level * Second) quotaBackoffMax, Z.min (level + 1) 11).
Proof.
  intros H. unfold nextQuotaCooldown. rewrite (proj2 (Z.ltb_ge level 0)) by lia.
  rewrite shl1_small by lia.
  assert (level ∈ [0;1;2;3;4;5;6;7;8;9;10;11]) as Hl.
  { rewrite !elem_of_cons. lia. }
  clear H. repeat (apply elem_of_cons in Hl as [->|Hl]; [by vm_compute|]). by apply elem_of_nil in Hl.
Qed.

(** Whatever the recorded level, also one that overflows the shift: between a
    second and half an hour, and at most one level up. *)
Lemma nextQuotaCooldown_range level :
  Second ≤ (nextQuotaCooldown level false).1 ≤ quotaBackoffMax
  ∧ Z.max 0 level ≤ (nextQuotaCooldown level false).2 ≤ Z.max 0 level + 1.
Proof.
  unfold nextQuotaCooldown. set (c := wrap64 _). clearbody c.
  unfold quotaBackoffBase, quotaBackoffMax, Minute, Second.
  destruct (Z.ltb_spec level 0); destruct (Z.ltb_spec c 1000000000); simpl;
    repeat case_match; to_prop; simpl; lia.
Qed.

(** The level after [n] windows that all ended in a failure. *)
Definition ladder (n : nat) : Z := Nat.iter n (λ level, (nextQuotaCooldown level false).2) 0.

Lemma ladder_level n : ladder n = Z.min (Z.of_nat n) 11.
Proof.
  induction n as [|n IH]; [done|]. unfold ladder in *. rewrite Nat.iter_succ, IH.
  rewrite nextQuotaCooldown_low by lia. simpl. lia.
Qed.

(** Repeated quota failures double the cooldown from one second up to half an
    hour and no further; the level stops at 11, well below the levels at which the
    64-bit shift of the code would overflow. *)
Theorem backoff_ladder (n : nat) :
  ladder n = Z.min (Z.of_nat n) 11
  ∧ (nextQuotaCooldown (ladder n) false).1 = Z.min (2 ^ Z.of_nat n * Second) (30 * Minute).
Proof.
  split; [apply ladder_level|]. rewrite ladder_level.
  rewrite nextQuotaCooldown_low by lia. cbn [fst]. unfold quotaBackoffMax.
  destruct (Z.le_gt_cases (Z.of_nat n) 11); [by rewrite (Z.min_l (Z.of_nat n)) by lia|].
  rewrite (Z.min_r (Z.of_nat n)) by lia.
  assert (2 ^ 11 ≤ 2 ^ Z.of_nat n) by (apply Z.pow_le_mono_r; lia).
  unfold Minute, Second. change (2 ^ 11) with 2048 in *. lia.
Qed.

(** ** A failure keeps the credential off until its deadline *)

(** The transient cooldown is configured, and as a duration does not overflow. *)
Definition transient_cooling : Prop := 0 ≤ transientErrorCooldownSeconds ≤ 9223372036.

Lemma recoverable_after now hint : transient_cooling → now < recoverableFailureRetryAfterWithHint now hint false.
Proof.
  intros [H1 H2]. unfold recoverableFailureRetryAfterWithHint, Add, transientErrorCooldown, Minute, Second.
  rewrite (proj2 (Z.ltb_ge _ _) H1).
  rewrite (wrap64_id (_ * 1000000000)) by (unfold is_int64, MinInt64, MaxInt64; lia).
  repeat case_match; to_prop; lia.
Qed.

Lemma not_found_after now hint : now < not_found_deadline now hint.
Proof. unfold not_found_deadline, Add, Hour, Minute, Second. repeat case_match; to_prop; lia. Qed.

Lemma quotaCooldownAfterFailure_after quota now : now < (quotaCooldownAfterFailure quota now).1.
Proof.
  unfold quotaCooldownAfterFailure, After, Add. destruct (Z.ltb_spec now (Q_NextRecoverAt quota)); [done|].
  destruct (nextQuotaCooldown _ false) as [c l] eqn:E.
  pose proof (nextQuotaCooldown_range (Q_BackoffLevel quota)) as H'. rewrite E in H'. simpl in *.
  unfold Second in H'. destruct (Z.ltb_spec 0 c); lia.
Qed.

Lemma quota_deadline_after quota hint now : now < (quota_deadline quota hint now).1.
Proof.
  destruct hint as [d|]; [|apply quotaCooldownAfterFailure_after]. simpl.
  unfold minQuotaCooldownFloor, Add, Second. case_match; to_prop; lia.
Qed.

Lemma cloudflare_after level now : now < (nextCloudflareCooldown level false now).1.
Proof.
  unfold nextCloudflareCooldown, Add, Second. destruct (nextQuotaCooldown level false) as [c l].
  simpl. repeat case_match; to_prop; lia.
Qed.

Lemma extend_open_ge quota next : next ≤ extend_open quota next.
Proof. unfold extend_open, After. case_match; to_prop; lia. Qed.

Lemma extend_running_max previous next now :
  0 ≤ now → now < next → extend_running previous next now = Z.max previous next.
Proof.
  intros H0 Hn. unfold extend_running, IsZero, After.
  destruct (Z.eqb_spec next 0); [lia|]. simpl.
  destruct (Z.ltb_spec next previous), (Z.ltb_spec now previous); simpl; lia.
Qed.

Lemma is_set_true next : next ≠ 0 → negb (IsZero next) = true.
Proof. unfold IsZero. by destruct (Z.eqb_spec next 0). Qed.

Arguments recoverableFailureRetryAfterWithHint : simpl never.

(** Every kind of failure writes a deadline in the future and marks the credential. *)
Lemma auth_failure_fields_after auth err hint now :
  transient_cooling → 0 ≤ now → Unavailable auth = true →
  let auth' := auth_failure_fields auth err hint now false in
  now < NextRetryAfter auth' ∧ Unavailable auth' = true ∧ ModelStates auth' = ModelStates auth
  ∧ LastError auth' = LastError auth ∧ A_Status auth' = A_Status auth.
Proof.
  intros Ht H0 Hu. unfold auth_failure_fields.
  assert (now < Add now (30 * Minute)) as Hh by (unfold Add, Minute, Second; lia).
  pose proof (cloudflare_after (Q_BackoffLevel (Quota auth)) now) as Hc.
  destruct (isCloudflareChallengeResultError err).
  { destruct (nextCloudflareCooldown _ false now) as [n l]. by simpl. }
  destruct (isInvalidGrantResultError err); [by simpl|].
  destruct (_ =? 401); [by simpl|]. destruct (_ || _); [by simpl|].
  destruct (_ =? 404).
  { simpl. split; [apply not_found_after|done]. }
  destruct (_ =? 429).
  { pose proof (quota_deadline_after ((Quota auth) <| Q_Exceeded := true |> <| Q_Reason := "quota" |>) hint now) as Hq.
    destruct (quota_deadline _ hint now) as [n l]. simpl in *. split; [|done].
    eapply Z.lt_le_trans; [exact Hq|apply extend_open_ge]. }
  destruct (gateway_status _); simpl.
  - pose proof (recoverable_after now hint Ht). split; [done|]. split; [|done]. apply is_set_true. lia.
  - pose proof (recoverable_after now None Ht) as Hr. unfold recoverableFailureRetryAfter.
    split; [done|]. split; [|done]. apply is_set_true. lia.
Qed.

(** ** Failures of one credential over time *)

(** The credential as marked before the kind of failure is looked at. *)
Definition noted (auth : Auth) (err : option Error) (now : time) : Auth :=
  let marked := auth <| Unavailable := true |> <| A_Status := StatusError |> <| UpdatedAt := now |> in
  match err with
  | Some e => marked <| LastError := Some e |>
                     <| StatusMessage := if String.eqb (E_Message e) "" then StatusMessage marked
                                         else E_Message e |>
  | None => marked
  end.

Lemma noted_fields auth err now :
  Unavailable (noted auth err now) = true ∧ ModelStates (noted auth err now) = ModelStates auth
  ∧ Quota (noted auth err now) = Quota auth.
Proof. by destruct err. Qed.

(** With cooling on, a failure that writes a future deadline only joins it with the
    one that was running. *)
Lemma applyAuthFailureState_counts auth err hint now :
  0 ≤ now → shouldSkipCredentialCooldown err = false →
  now < NextRetryAfter (auth_failure_fields (noted auth err now) err hint now false) →
  applyAuthFailureState auth err hint now false =
    (auth_failure_fields (noted auth err now) err hint now false)
      <| NextRetryAfter := Z.max (NextRetryAfter auth)
           (NextRetryAfter (auth_failure_fields (noted auth err now) err hint now false)) |>.
Proof.
  intros Hnow Hcounts Hd. unfold applyAuthFailureState. rewrite Hcounts. cbv zeta.
  change (match err with Some _ => _ | None => _ end) with (noted auth err now).
  set (failed := auth_failure_fields (noted auth err now) err hint now false) in *.
  rewrite (extend_running_max _ _ _ Hnow Hd).
  assert (IsZero (Z.max (NextRetryAfter auth) (NextRetryAfter failed)) = false) as Hz
    by (unfold IsZero; apply Z.eqb_neq; lia).
  cbn -[IsZero]. by rewrite Hz, andb_false_r.
Qed.

(** Without per-model states, an unavailable credential is off until its deadline. *)
Lemma blocked_until {gh : GoHost} auth model t :
  ModelStates auth = ∅ → Unavailable auth = true → 0 ≤ t < NextRetryAfter auth →
  is_blocked (isAuthBlockedForModel (Some auth) model t) = true.
Proof.
  intros Hm Hu Ht.
  assert (∀ exceeded recover,
    is_blocked (availabilityBlock true exceeded (NextRetryAfter auth) recover t) = true) as Hb.
  { intros exceeded recover. rewrite availabilityBlock_spec by lia. simpl.
    by rewrite (proj2 (Z.ltb_lt t _)) by apply Ht. }
  unfold isAuthBlockedForModel, isAuthBlockedForModel_in. rewrite Hm, Hu, map_to_list_empty.
  destruct (_ || _); [done|]. destruct (hasUnauthorizedAuthFailure _); [done|].
  destruct (token_expired _ _); [done|]. destruct (credential_quota _ _); [done|].
  destruct (negb _); apply Hb.
Qed.

(** A failure that counts keeps the credential off: the deadline is in the
    future and never earlier than a cooldown that was running, and until then a
    credential without per-model states serves no model. *)
Theorem auth_failure_blocks {gh : GoHost} (auth : Auth) (err : option Error) (hint : option duration) (now : time)
    (Hcool : transient_cooling) (Hnow : 0 ≤ now) (Hcounts : shouldSkipCredentialCooldown err = false) :
  let auth' := applyAuthFailureState auth err hint now false in
  now < NextRetryAfter auth'
  ∧ (now < NextRetryAfter auth → NextRetryAfter auth ≤ NextRetryAfter auth')
  ∧ Unavailable auth' = true
  ∧ (ModelStates auth = ∅ → ∀ model t, now ≤ t < NextRetryAfter auth' →
       is_blocked (isAuthBlockedForModel (Some auth') model t) = true).
Proof.
  destruct (noted_fields auth err now) as (Hu&Hm&_).
  destruct (auth_failure_fields_after (noted auth err now) err hint now Hcool Hnow Hu) as (Hd&Hu'&Hm'&_&_).
  rewrite applyAuthFailureState_counts by done.
  set (failed := auth_failure_fields (noted auth err now) err hint now false) in *.
  simpl. split_and!; [lia|lia|done|]. intros He model t Ht.
  rewrite He in Hm. rewrite Hm in Hm'. apply blocked_until; [done|done|simpl; lia].
Qed.

(** A rate limit as the upstream reports it, without a hint. *)
Definition plain_rate_limit (e : Error) : Prop :=
  E_HTTPStatus e = TooManyRequests ∧ isCloudflareChallengeErrorMessage (E_Message e) = false
  ∧ E_Code e ∉ excusing_codes ∧ E_Code e ≠ ErrorCodeForceCooldown.

Lemma rate_limit_fields auth e now :
  plain_rate_limit e →
  let quota := (Quota auth) <| Q_Exceeded := true |> <| Q_Reason := "quota" |> in
  let '(next, level) := quotaCooldownAfterFailure quota now in
  let auth' := auth_failure_fields auth (Some e) None now false in
  Quota auth' = quota <| Q_BackoffLevel := level |> <| Q_NextRecoverAt := extend_open quota next |>
  ∧ NextRetryAfter auth' = extend_open quota next.
Proof.
  intros (Hs&Hc&_). unfold auth_failure_fields, isCloudflareChallengeResultError, isInvalidGrantResultError,
    StatusCode. rewrite Hs, Hc. cbn -[quotaCooldownAfterFailure extend_open quota_deadline].
  destruct (_ && _); cbn -[quotaCooldownAfterFailure extend_open quota_deadline]; unfold quota_deadline;
    by destruct (quotaCooldownAfterFailure _ now).
Qed.

Lemma rate_limit_counts e : plain_rate_limit e → shouldSkipCredentialCooldown (Some e) = false.
Proof.
  intros (Hs&_&Hn&Hf). unfold shouldSkipCredentialCooldown.
  destruct (String.eqb_spec (E_Code e) ErrorCodeForceCooldown); [done|].
  assert (E_HTTPStatus e ∈ [PaymentRequired; TooManyRequests]) as Hin
    by (rewrite Hs; right; left).
  unfold excusing_codes in Hn. rewrite !not_elem_of_cons in Hn. destruct Hn as (H1&H2&H3&_).
  unfold isRequestScopedResultError, isRequestScopedNotFoundResultError, isConnectionLifecycleResultError,
    isTransientTransportResultError, StatusCode, IsRequestScoped.
  rewrite isRequestInvalidError_code, Hs by done.
  rewrite (proj2 (String.eqb_neq _ _) H1), (proj2 (String.eqb_neq _ _) H2), (proj2 (String.eqb_neq _ _) H3).
  done.
Qed.

(** What a rate limit writes, in full. *)
Lemma rate_limit_effect auth e now :
  0 ≤ now → plain_rate_limit e →
  let quota := (Quota auth) <| Q_Exceeded := true |> <| Q_Reason := "quota" |> in
  let next := (quotaCooldownAfterFailure quota now).1 in
  let level := (quotaCooldownAfterFailure quota now).2 in
  let auth' := applyAuthFailureState auth (Some e) None now false in
  Quota auth' = quota <| Q_BackoffLevel := level |> <| Q_NextRecoverAt := next |>
  ∧ NextRetryAfter auth' = Z.max (NextRetryAfter auth) next ∧ now < next.
Proof.
  intros H0 He quota next level auth'.
  pose proof (quotaCooldownAfterFailure_after quota now) as Hn. fold next in Hn.
  assert (extend_open quota next = next) as Hx.
  { unfold extend_open, next, quotaCooldownAfterFailure. simpl. unfold After.
    destruct (Z.ltb_spec now (Q_NextRecoverAt (Quota auth))) as [Ho|Ho]; simpl.
    - by rewrite Z.ltb_irrefl.
    - rewrite (proj2 (Z.ltb_ge _ _)); [done|]. subst next. unfold quotaCooldownAfterFailure, After in Hn.
      simpl in Hn. rewrite (proj2 (Z.ltb_ge _ _) Ho) in Hn. lia. }
  pose proof (rate_limit_fields (noted auth (Some e) now) e now He) as Hf. cbv zeta in Hf.
  destruct (noted_fields auth (Some e) now) as (_&_&Hq). rewrite Hq in Hf. fold quota in Hf.
  destruct (quotaCooldownAfterFailure quota now) as [n l] eqn:E. subst next level. cbn [fst snd] in *.
  rewrite Hx in Hf. destruct Hf as [Hf1 Hf2]. unfold auth'.
  rewrite applyAuthFailureState_counts; [|done|by apply rate_limit_counts|by rewrite Hf2].
  rewrite Hf2. split; [exact Hf1|]. by split.
Qed.

Definition rate_limited (auth : Auth) (failure : Error * time) : Auth :=
  applyAuthFailureState auth (Some failure.1) None failure.2 false.

(** Rate limits that arrive while the quota window of an earlier one is open,
    as a burst of requests in flight does, reuse that window: neither the deadline
    nor the back-off level moves, and the first of them raised the level at most
    once. *)
Theorem rate_limit_burst (auth : Auth) (e : Error) (now : time) (later : list (Error * time))
    (Hnow : 0 ≤ now) (He : plain_rate_limit e) :
  let first := rate_limited auth (e, now) in
  let window := Q_NextRecoverAt (Quota first) in
  now < window
  ∧ Q_BackoffLevel (Quota first) ≤ Z.max (Q_BackoffLevel (Quota auth)) (Z.max 0 (Q_BackoffLevel (Quota auth)) + 1)
  ∧ (Forall (λ f, plain_rate_limit f.1 ∧ now ≤ f.2 < window) later →
     let last := fold_left rate_limited later first in
     Quota last = Quota first ∧ NextRetryAfter last = NextRetryAfter first).
Proof.
  intros first window.
  destruct (rate_limit_effect auth e now Hnow He) as (Hq&Hr&Hn). cbv zeta in Hq, Hr, Hn.
  change (applyAuthFailureState auth (Some e) None now false) with first in Hq, Hr.
  set (quota := (Quota auth) <| Q_Exceeded := true |> <| Q_Reason := "quota" |>) in *.
  assert (window = (quotaCooldownAfterFailure quota now).1) as Hw by (unfold window; by rewrite Hq).
  split; [by rewrite Hw|]. split.
  { rewrite Hq. pose proof (nextQuotaCooldown_range (Q_BackoffLevel (Quota auth))) as [_ H'].
    cbn -[Z.max nextQuotaCooldown]. unfold quotaCooldownAfterFailure.
    change (Q_BackoffLevel quota) with (Q_BackoffLevel (Quota auth)).
    destruct (After _ now); cbn [snd]; [lia|].
    destruct (nextQuotaCooldown (Q_BackoffLevel (Quota auth)) false) as [c l]. cbn [snd] in *. lia. }
  assert (Q_Exceeded (Quota first) = true ∧ Q_Reason (Quota first) = "quota") as [Hex Hre] by (by rewrite Hq).
  assert (window ≤ NextRetryAfter first) as Hle by (rewrite Hr, <-Hw; lia).
  clear Hq Hr Hw. intros Hl. cbv zeta.
  assert (∀ a, Quota a = Quota first → NextRetryAfter a = NextRetryAfter first →
    Quota (fold_left rate_limited later a) = Quota first
    ∧ NextRetryAfter (fold_left rate_limited later a) = NextRetryAfter first) as Hall; [|by apply Hall].
  induction Hl as [|[f t] later [Hf Ht] _ IH]; intros a Hqa Hra; [done|]. simpl in *.
  destruct (rate_limit_effect a f t ltac:(lia) Hf) as (Hq&Hr&_).
  unfold quotaCooldownAfterFailure in Hq, Hr. simpl in Hq, Hr. rewrite Hqa in Hq, Hr.
  fold window in Hq, Hr. unfold After in Hq, Hr.
  rewrite (proj2 (Z.ltb_lt t window)) in Hq, Hr by lia. simpl in Hq, Hr.
  apply IH.
  - change (Quota (rate_limited a (f, t)) = Quota first). unfold rate_limited. simpl. rewrite Hq.
    destruct (Quota first) as [ex re nr bl oa si]. simpl in *. by rewrite Hex, Hre.
  - change (NextRetryAfter (rate_limited a (f, t)) = NextRetryAfter first). unfold rate_limited. simpl.
    rewrite Hr, Hra. lia.
Qed.

(** ** Aggregation does not depend on the order of the range *)

(** The earlier of two deadlines, [0] standing for none. *)
Definition earlier (a r : time) : time := if (a =? 0) || (r <? a) then r else a.
Lemma earlier_comm a x y : x ≠ 0 → y ≠ 0 → earlier (earlier a x) y = earlier (earlier a y) x.
Proof.
  intros Hx Hy. unfold earlier.
  destruct (Z.eqb_spec a 0), (Z.ltb_spec x a), (Z.ltb_spec y a); simpl;
    repeat match goal with
    | |- context [?u =? 0] => destruct (Z.eqb_spec u 0); simpl
    | |- context [?u <? ?v] => destruct (Z.ltb_spec u v); simpl
    end; lia.
Qed.

Definition earlier_set (a r : time) : time := if (a =? 0) || (negb (r =? 0) && (r <? a)) then r else a.
Lemma earlier_set_comm a x y : earlier_set (earlier_set a x) y = earlier_set (earlier_set a y) x.
Proof.
  destruct (Z.eqb_spec x 0) as [->|Hx], (Z.eqb_spec y 0) as [->|Hy].
  - done.
  - unfold earlier_set. rewrite (proj2 (Z.eqb_neq y 0)) by done.
    destruct (Z.eqb_spec a 0); simpl; [rewrite (proj2 (Z.eqb_neq y 0)) by done|destruct (y <? a)];
      repeat case_match; to_prop; simpl in *; try done; lia.
  - unfold earlier_set. rewrite (proj2 (Z.eqb_neq x 0)) by done.
    destruct (Z.eqb_spec a 0); simpl; [rewrite (proj2 (Z.eqb_neq x 0)) by done|destruct (x <? a)];
      repeat case_match; to_prop; simpl in *; try done; lia.
  - assert (∀ b r, r ≠ 0 → earlier_set b r = earlier b r) as E.
    { intros b r Hr. unfold earlier_set, earlier. by rewrite (proj2 (Z.eqb_neq r 0)). }
    rewrite !E by done. by apply earlier_comm.
Qed.

Lemma aggregate_step_comm now acc s1 s2 :
  aggregate_step now (aggregate_step now acc s1) s2 = aggregate_step now (aggregate_step now acc s2) s1.
Proof.
  destruct s1 as [s1|], s2 as [s2|]; try done. unfold aggregate_step. simpl.
  f_equal.
  - by rewrite <-!andb_assoc, (andb_comm (stateUnavailable s1 now)).
  - assert (∀ s, negb (bool_decide (M_Status s = StatusDisabled)) && stateUnavailable s now = true →
              M_NextRetryAfter s ≠ 0) as Hne.
    { intros s. unfold stateUnavailable, IsZero. case_bool_decide; simpl; [done|].
      intros H'. to_prop. done. }
    pose proof (Hne s1) as H1. pose proof (Hne s2) as H2.
    destruct (_ && stateUnavailable s1 now), (_ && stateUnavailable s2 now); simpl; try done.
    apply (earlier_comm (earliestRetry acc)); [by apply H1|by apply H2].
  - by rewrite <-!orb_assoc, (orb_comm (Q_Exceeded (M_Quota s1))).
  - destruct (Q_Exceeded (M_Quota s1)), (Q_Exceeded (M_Quota s2)); simpl; try done.
    apply (earlier_set_comm (quotaRecover acc)).
  - assert (∀ a l, (if a <? l then l else a) = Z.max a l) as Hmax
      by (intros a l; destruct (Z.ltb_spec a l); lia).
    destruct (Q_Exceeded (M_Quota s1)), (Q_Exceeded (M_Quota s2)); simpl; rewrite ?Hmax; lia.
Qed.

Lemma aggregate_of_perm now l1 l2 : l1 ≡ₚ l2 → aggregate_of now l1 = aggregate_of now l2.
Proof.
  unfold aggregate_of. intros Hp. generalize (mkAggregate true zero_time false zero_time 0 false).
  induction Hp as [|s l1 l2 _ IH|s1 s2 l|l1 l2 l3 _ IH1 _ IH2]; intros acc; simpl; [done|apply IH|..].
  - by rewrite aggregate_step_comm.
  - by rewrite IH1.
Qed.

(** ** What the aggregate says *)

(** A state whose deadline enters the minimum. *)
Definition cooling_model (state : ModelState) (now : time) : bool :=
  negb (bool_decide (M_Status state = StatusDisabled)) && stateUnavailable state now.

Definition aggregate_ok (now : time) (states : list ModelState) (agg : aggregate) : Prop :=
  allUnavailable agg = forallb (λ s, stateUnavailable s now) states
  ∧ hasState agg = negb (bool_decide (states = []))
  ∧ (∀ s, s ∈ states → cooling_model s now = true →
       earliestRetry agg ≠ 0 ∧ earliestRetry agg ≤ M_NextRetryAfter s)
  ∧ (earliestRetry agg ≠ 0 →
       ∃ s, s ∈ states ∧ cooling_model s now = true ∧ M_NextRetryAfter s = earliestRetry agg).

Lemma cooling_state_retry s now : cooling_model s now = true → M_NextRetryAfter s ≠ 0 ∧ now < M_NextRetryAfter s.
Proof.
  unfold cooling_model, stateUnavailable, IsZero, After. case_bool_decide; simpl; [done|].
  intros H'. to_prop. done.
Qed.

Lemma forallb_snoc {A} (f : A → bool) l x : forallb f (l ++ [x]) = forallb f l && f x.
Proof. rewrite forallb_app. simpl. by rewrite andb_true_r. Qed.

(** The states of a credential that has them. *)
Definition states_of (l : list (option ModelState)) : list ModelState := omap id l.

Lemma aggregate_of_ok now l : aggregate_ok now (states_of l) (aggregate_of now l).
Proof.
  unfold aggregate_of, states_of. induction l as [| [s | ] l IH] using rev_ind.
  - unfold aggregate_ok. simpl. split_and!; [done|done| |done]. intros s Hs. by apply not_elem_of_nil in Hs.
  - rewrite fold_left_app, omap_app. simpl.
    set (acc := fold_left _ l _) in *. destruct IH as (Ha&Hh&Hr&He).
    unfold aggregate_ok. simpl. rewrite forallb_snoc, Ha.
    fold (cooling_model s now). split_and!; [done| |..].
    + by destruct (omap id l).
    + intros s' Hs' Hc. apply elem_of_app in Hs' as [Hs'|Hs']; [|apply list_elem_of_singleton in Hs' as ->].
      * destruct (Hr s' Hs' Hc) as [Hn Hle]. destruct (cooling_model s now) eqn:Es; [|done].
        apply cooling_state_retry in Es as [Es _]. unfold IsZero, Before. simpl.
        destruct (Z.eqb_spec (earliestRetry acc) 0), (Z.ltb_spec (M_NextRetryAfter s) (earliestRetry acc));
          simpl; split; try done; lia.
      * rewrite Hc. apply cooling_state_retry in Hc as [Hc _]. unfold IsZero, Before. simpl.
        destruct (Z.eqb_spec (earliestRetry acc) 0), (Z.ltb_spec (M_NextRetryAfter s) (earliestRetry acc));
          simpl; split; try done; lia.
    + destruct (cooling_model s now && _) eqn:E.
      * to_prop. intros _. exists s. split_and!; [|done|done]. apply elem_of_app. right. by left.
      * intros Hn. destruct (He Hn) as (s'&?&?&?). exists s'. split; [|done]. apply elem_of_app. by left.
  - rewrite fold_left_app, omap_app, app_nil_r. exact IH.
Qed.

(** The fields the aggregation writes, when it gets past its early returns. *)
Lemma updateAggregatedAvailability_fields visit auth now :
  hasUnauthorizedAuthFailure (Some auth) = false → credential_wrap auth now = false →
  states_of visit ≠ [] →
  let agg := aggregate_of now visit in
  let auth' := updateAggregatedAvailability_in visit auth now in
  Unavailable auth' = allUnavailable agg
  ∧ NextRetryAfter auth' = (if allUnavailable agg then earliestRetry agg else 0)
  ∧ ModelStates auth' = option_map (expire_state now) <$> ModelStates auth.
Proof.
  intros Hp Hw Hs. unfold updateAggregatedAvailability_in. rewrite Hp, Hw.
  destruct (aggregate_of_ok now visit) as (_&Hh&_). rewrite Hh, bool_decide_eq_false_2 by done. simpl.
  destruct (quotaExceeded _); [done|]. by destruct (_ && _).
Qed.

(** The aggregated availability of a credential: it is unavailable exactly when
    every state is, its deadline is the moment the first of them comes back, and
    the order of the range over the map does not matter. *)
Theorem aggregated_availability (auth : Auth) (now : time) (visit : list (option ModelState))
    (Hvisit : visit ≡ₚ (map_to_list (ModelStates auth)).*2)
    (Hplain : hasUnauthorizedAuthFailure (Some auth) = false) (Hwrap : credential_wrap auth now = false)
    (Hsome : states_of visit ≠ []) :
  let auth' := updateAggregatedAvailability_in visit auth now in
  auth' = updateAggregatedAvailability auth now
  ∧ (Unavailable auth' = true ↔ ∀ s, s ∈ states_of visit → stateUnavailable s now = true)
  ∧ (Unavailable auth' = true → ∀ t s, now ≤ t → NextRetryAfter auth' = 0 ∨ t < NextRetryAfter auth' →
       s ∈ states_of visit → stateUnavailable s t = true)
  ∧ (Unavailable auth' = true → NextRetryAfter auth' ≠ 0 →
       now < NextRetryAfter auth'
       ∧ ∃ s, s ∈ states_of visit ∧ stateUnavailable s (NextRetryAfter auth') = false)
  ∧ (Unavailable auth' = false → NextRetryAfter auth' = 0).
Proof.
  intros auth'.
  destruct (updateAggregatedAvailability_fields visit auth now Hplain Hwrap Hsome) as (Hu&Hn&_).
  cbv zeta in Hu, Hn. fold auth' in Hu, Hn.
  destruct (aggregate_of_ok now visit) as (Ha&_&Hr&He). rewrite Hu, Hn. split.
  { unfold auth', updateAggregatedAvailability, updateAggregatedAvailability_in.
    by rewrite (aggregate_of_perm now visit _ Hvisit). }
  assert (allUnavailable (aggregate_of now visit) = true ↔
          ∀ s, s ∈ states_of visit → stateUnavailable s now = true) as Hall.
  { rewrite Ha, forallb_forall. by setoid_rewrite list_elem_of_In. }
  split; [exact Hall|]. split_and!.
  - intros Hon. rewrite Hon. intros t s Ht Hd Hs. pose proof (proj1 Hall Hon s Hs) as Hnow.
    pose proof (Hr s Hs) as Hs'. unfold cooling_model in Hs'. rewrite Hnow in Hs'.
    unfold stateUnavailable in *. destruct (bool_decide (M_Status s = StatusDisabled)); [done|].
    destruct (Hs' eq_refl) as [H1 H2]. apply andb_true_iff in Hnow as [Hnow _]. rewrite Hnow. simpl.
    apply Z.ltb_lt. lia.
  - intros Hon. rewrite Hon. intros Hne. destruct (He Hne) as (s&Hs&Hc&<-).
    pose proof (cooling_state_retry s now Hc) as [_ Hlt]. split; [done|]. exists s. split; [done|].
    unfold cooling_model in Hc. unfold stateUnavailable. destruct (bool_decide _); [done|].
    unfold After. by rewrite Z.ltb_irrefl, andb_false_r.
  - by intros ->.
Qed.
End cooldown.

(** ** The theorems at concrete credentials *)

Definition default_settings : Settings :=
  {| quotaCooldownDisabled := false; transientErrorCooldownSeconds := 0; runtimeConfig := None |}.
Definition plain_auth : Auth := (simpleAuth "a" "codex") <| A_Status := StatusActive |>.
Definition noon : time := 1000 * Second.

Lemma plain_rate_limit_error : plain_rate_limit rate_limit_error.
Proof. split_and!; [done|by vm_compute| |done]. by apply (bool_decide_unpack _). Defined.

Lemma auth_failure_blocks_witness :
  let auth' := @applyAuthFailureState no_gjson default_settings plain_auth (Some rate_limit_error) None noon false in
  NextRetryAfter auth' = 1001 * Second
  ∧ is_blocked (@isAuthBlockedForModel no_host (Some auth') "gpt-5" (noon + 1)) = true.
Proof.
  assert (@transient_cooling default_settings) as Ht by (unfold transient_cooling; simpl; lia).
  pose proof (@auth_failure_blocks no_gjson default_settings no_host plain_auth (Some rate_limit_error) None noon
    Ht ltac:(by vm_compute) ltac:(by vm_compute)) as H. cbn zeta in H. destruct H as (_&_&_&H).
  split; [by vm_compute|]. apply H; [by vm_compute|]. split; by vm_compute.
Defined.

Lemma rate_limit_burst_witness :
  let first := @rate_limited no_gjson default_settings plain_auth (rate_limit_error, noon) in
  let last := fold_left (@rate_limited no_gjson default_settings)
                [(rate_limit_error, noon + 1); (rate_limit_error, noon + 2)] first in
  Quota last = Quota first ∧ Q_BackoffLevel (Quota last) = 1.
Proof.
  pose proof (@rate_limit_burst no_gjson default_settings plain_auth rate_limit_error noon
    [(rate_limit_error, noon + 1); (rate_limit_error, noon + 2)] ltac:(by vm_compute)
    plain_rate_limit_error) as H. cbn zeta in H. destruct H as (_&_&H).
  split; [|by vm_compute]. apply H. repeat constructor; by (apply plain_rate_limit_error || vm_compute).
Defined.

Definition two_models : Auth :=
  plain_auth <| ModelStates := {["gpt-5" := Some (cooling_state 500); "gpt-4" := Some (cooling_state 700)]} |>.

Lemma aggregated_availability_witness :
  Unavailable (updateAggregatedAvailability two_models 100) = true
  ∧ NextRetryAfter (updateAggregatedAvailability two_models 100) = 500
  ∧ updateAggregatedAvailability_in [Some (cooling_state 700); Some (cooling_state 500)] two_models 100
    = updateAggregatedAvailability two_models 100.
Proof.
  split; [by vm_compute|]. split; [by vm_compute|].
  assert ([Some (cooling_state 700); Some (cooling_state 500)] ≡ₚ (map_to_list (ModelStates two_models)).*2) as Hp
    by (vm_compute; reflexivity || apply Permutation_swap).
  assert (states_of [Some (cooling_state 700); Some (cooling_state 500)] ≠ []) as Hs by done.
  exact (proj1 (aggregated_availability two_models 100 _ Hp ltac:(by vm_compute) ltac:(by vm_compute) Hs)).
Defined.
