(* ===== verification/ExecutionResult.v ===== *)
(** * What a finished execution does to its credential

    Models [MarkResult] of [conductor_cooldown.go] on the credential it is about:
    stale results, request counters, the two layers of a cooldown (a model's own and
    the one a credential-wide quota wraps around every model), success and failure on
    a model or on the whole credential, rejected tokens and the refresh of an
    unauthorized credential.  The manager around it is in [Manager].

    A [*ModelState] is shared between [auth.ModelStates] and a local variable of the
    handler; here the local is written back under its key, and the loops over "the
    other states" skip that key.  [M_Error] of a result is the [*Error] value. *)
From Stdlib Require Import ZArith Lia Ascii String Bool.
From stdpp Require Import prelude gmap strings.
From S2P Require Import Prelude GoStd AuthTypes Errors Json Classify Availability QuotaSignals Cooldown.
Local Open Scope string_scope.
Local Open Scope list_scope.
Local Open Scope Z_scope.

(** ** Results (conductor.go) *)

Record Result := mkResult {
  R_AuthID : string; R_Provider : string; R_Model : string; RouteModel : string;
  R_Success : bool; CountTokens : bool; RetryAfter : option duration; CredentialScope : bool;
  R_Error : option Error; SkipQuotaObservation : bool; R_AccessToken : string;
  R_CredentialVersion : Z; R_RegistrationEpoch : Z; ExecutionSeq : Z }.
#[export] Instance Result_eta : Eta Result := λ r,
  mkResult (R_AuthID r) (R_Provider r) (R_Model r) (RouteModel r) (R_Success r) (CountTokens r)
    (RetryAfter r) (CredentialScope r) (R_Error r) (SkipQuotaObservation r) (R_AccessToken r)
    (R_CredentialVersion r) (R_RegistrationEpoch r) (ExecutionSeq r).

Definition isStaleEpoch (result : Result) (current : Auth) : bool :=
  (0 <? R_RegistrationEpoch result) && (R_RegistrationEpoch result <? RegistrationEpoch current).

(** The result of a superseded credential or of an earlier registration. *)
Definition isStaleExecutionResult (result : Result) (current : option Auth) : bool :=
  match current with
  | None => false
  | Some a =>
      if isStaleEpoch result a then true
      else if negb (String.eqb (R_AccessToken result) "")
              && String.eqb (authAccessToken current) (R_AccessToken result) then false
      else (R_CredentialVersion result <? CredentialVersion a)
           && ((0 <? R_CredentialVersion result) || (1 <? CredentialVersion a))
  end.

(** [recordRejectedTokenOnAuth]; the flag says whether anything changed. *)
Definition recordRejectedTokenOnAuth (auth : Auth) (failedToken : string) : Auth * bool :=
  let failedToken := TrimSpace failedToken in
  if String.eqb failedToken "" then (auth, false) else
  let siwcTok := authSIWCTokenField (Some auth) "access_token" in
  let '(auth, changed) :=
    if negb (String.eqb siwcTok "") && String.eqb siwcTok failedToken
       && negb (String.eqb (RejectedSIWCAccessToken auth) failedToken)
    then (auth <| RejectedSIWCAccessToken := failedToken |>, true) else (auth, false) in
  if String.eqb (authAccessToken (Some auth)) failedToken
     && negb (String.eqb (RejectedAccessToken auth) failedToken)
  then (auth <| RejectedAccessToken := failedToken |>, true) else (auth, changed).

(** ** Devin's quota messages (conductor_refresh.go) *)

Definition isDevinQuotaExhaustionMessage (text : string) : bool :=
  let lower := ToLower text in
  if negb (Contains lower "quota") || negb (Contains lower "exhausted") then false
  else Contains lower "weekly" || Contains lower "daily".

Definition devinStateErrorText (state : option ModelState) : string :=
  match state with
  | None => ""
  | Some s =>
      match M_LastError s with
      | Some e => if negb (String.eqb (TrimSpace (E_Message e)) "") then E_Message e else M_StatusMessage s
      | None => M_StatusMessage s
      end
  end.
Definition credential_derived (s : ModelState) : bool :=
  isDevinQuotaExhaustionMessage (devinStateErrorText (Some s)).

Definition devinQuotaRevalidateAt (auth : option Auth) (now : time) : option time :=
  match auth with
  | None => None
  | Some a =>
      if negb (EqualFold (TrimSpace (Provider a)) "devin") then None
      else if negb (credential_wrap a now) then None
      else
        let since := if IsZero (LastRefreshedAt a) then Q_ObservedAt (Quota a) else LastRefreshedAt a in
        if IsZero since then Some now else
        let next := Add since devinQuotaRevalidateInterval in
        Some (if After next (Q_NextRecoverAt (Quota a)) then Q_NextRecoverAt (Quota a) else next)
  end.

(** ** The two layers of a model's cooldown *)

(** A state that a credential-wide quota was wrapped around. *)
Definition wrapped (s : ModelState) : bool :=
  credentialQuotaPropagated s || String.eqb (Q_Reason (M_Quota s)) "credential_quota".

(** When the wrap of a state has expired, its own layer comes back, or a clean slate. *)
Definition unwrap_expired (auth : Auth) (now : time) (s : ModelState) : ModelState :=
  if wrapped s && negb (credential_wrap auth now) then
    match credentialQuotaShadow s with
    | Some shadow => if isModelStateActiveCooldown (Some shadow) now then cloneShallow shadow
                     else resetModelState s now
    | None => resetModelState s now
    end
  else s.

(** A failure of its own is filed on the layer below a running credential quota. *)
Definition own_layer_pending (result : Result) (auth : Auth) (now : time) : bool :=
  negb (CredentialScope result) && String.eqb (Q_Reason (Quota auth)) "credential_quota"
  && After (Q_NextRecoverAt (Quota auth)) now.

Definition credential_quota_fields (next : time) (level : Z) : QuotaState :=
  mkQuota true "credential_quota" next level 0 ∅.

(** The outer layer shown once the own layer has been updated. *)
Definition compose_layers (auth : Auth) (saved own : ModelState) (now : time) (seq : Z) : ModelState :=
  let independent := cloneShallow own in
  let outer := (cloneShallow saved)
    <| credentialQuotaShadow := if isModelStateActiveCooldown (Some independent) now
                                then Some independent else None |>
    <| cooldownRecordedSeq := seq |> <| credentialQuotaPropagated := true |>
    <| M_Unavailable := true |> <| M_Status := StatusError |> <| M_UpdatedAt := now |>
    <| M_LastError := M_LastError own |> <| M_StatusMessage := M_StatusMessage own |> in
  let outer := if After (M_NextRetryAfter own) (M_NextRetryAfter outer)
               then outer <| M_NextRetryAfter := M_NextRetryAfter own |> else outer in
  let outer := if After (Q_NextRecoverAt (Quota auth)) (M_NextRetryAfter outer)
               then outer <| M_NextRetryAfter := Q_NextRecoverAt (Quota auth) |> else outer in
  if Q_Exceeded (M_Quota outer) && String.eqb (Q_Reason (M_Quota outer)) "credential_quota" then outer
  else outer <| M_Quota := applyCooldownFields (M_Quota outer)
                  (credential_quota_fields (Q_NextRecoverAt (Quota auth)) (Q_BackoffLevel (Quota auth))) |>.

(** A credential-wide quota reaching another model of the credential. *)
Definition propagate_quota (auth : Auth) (now credentialNext : time) (level : Z) (s : ModelState) : ModelState :=
  let s := unwrap_expired auth now s in
  let s := if wrapped s then s
           else s <| credentialQuotaShadow :=
                       if isModelStateActiveCooldown (Some s) now && negb (credential_derived s)
                       then Some (cloneShallow s) else None |> in
  let s := s <| credentialQuotaPropagated := true |> <| M_Unavailable := true |> <| M_Status := StatusError |> in
  let quotaNext := extend_open (M_Quota s) credentialNext in
  let retry := if negb (IsZero (M_NextRetryAfter s)) && After (M_NextRetryAfter s) quotaNext
               then M_NextRetryAfter s else quotaNext in
  s <| M_NextRetryAfter := retry |>
    <| M_Quota := applyCooldownFields (M_Quota s) (credential_quota_fields quotaNext level) |>.

(** Applying a function to every state but the one of [key]. *)
Definition other_states (key : string) (f : ModelState → ModelState) (auth : Auth) : Auth :=
  auth <| ModelStates := map_imap (λ k s, Some (if String.eqb k key then s else option_map f s))
            (ModelStates auth) |>.

Section result.
Context {gh : GoHost} {gj : Gjson} {st : Settings}.

(** ** A rate limit on a model *)

Definition quota_held (auth : Auth) : bool :=
  Q_Exceeded (Quota auth) && String.eqb (Q_Reason (Quota auth)) "credential_quota".

(** The deadline before it is joined with the model's open window, and the level. *)
Definition model_quota_deadline (result : Result) (auth : Auth) (state : ModelState) (now : time) : time * Z :=
  let level := if CredentialScope result
               then if quota_held auth then Q_BackoffLevel (Quota auth) else 0
               else Q_BackoffLevel (M_Quota state) in
  match RetryAfter result with
  | Some d => (Add now (if d <? minQuotaCooldownFloor then minQuotaCooldownFloor else d), level)
  | None =>
      let quota := if CredentialScope result
                   then if quota_held auth then Quota auth
                        else (M_Quota state) <| Q_NextRecoverAt := zero_time |> <| Q_BackoffLevel := 0 |>
                   else M_Quota state in
      quotaCooldownAfterFailure quota now
  end.

(** What the reporting model keeps below the quota it reports. *)
Definition reporting_shadow (result : Result) (state saved : ModelState) (previous now : time)
    : option ModelState :=
  if negb (CredentialScope result) then None
  else if negb (credentialQuotaPropagated state)
          && negb (String.eqb (Q_Reason (M_Quota saved)) "credential_quota") then
    if After previous now && negb (credential_derived saved)
    then Some ((cloneShallow saved) <| M_NextRetryAfter := previous |> <| M_Unavailable := true |>
                                    <| M_Status := StatusError |>)
    else None
  else credentialQuotaShadow state.

Definition model_quota_failure (result : Result) (wasTerminal disableCooling : bool) (key : string)
    (now : time) (saved : ModelState) (auth : Auth) (state : ModelState) : Auth * ModelState :=
  let previous := M_NextRetryAfter state in
  let '(credentialNext, level) :=
    if disableCooling
    then (zero_time, if CredentialScope result
                     then if quota_held auth then Q_BackoffLevel (Quota auth) else 0
                     else Q_BackoffLevel (M_Quota state))
    else model_quota_deadline result auth state now in
  let next := if disableCooling then zero_time else extend_open (M_Quota state) credentialNext in
  let state := state <| M_NextRetryAfter := next |>
                     <| M_Quota := applyCooldownFields (M_Quota state) (mkQuota true "quota" next level 0 ∅) |> in
  let state := state <| credentialQuotaShadow := reporting_shadow result state saved previous now |> in
  if CredentialScope result && negb disableCooling then
    let auth := other_states key (propagate_quota auth now credentialNext level) auth in
    if wasTerminal then (auth, state) else
    let authNext := if quota_held auth && After (Q_NextRecoverAt (Quota auth)) credentialNext
                    then Q_NextRecoverAt (Quota auth) else credentialNext in
    (auth <| Unavailable := true |>
          <| Quota := applyCooldownFields (Quota auth) (credential_quota_fields authNext level) |>
          <| NextRetryAfter := authNext |>,
     state <| credentialQuotaPropagated := true |>)
  else (auth, state).

(** ** A failure on a model *)

(** The switch on the kind of failure. *)
Definition model_failure_fields (result : Result) (wasTerminal disableCooling : bool) (key : string)
    (now : time) (saved : ModelState) (auth : Auth) (state : ModelState) : Auth * ModelState :=
  let half_hour := if disableCooling then zero_time else Add now (30 * Minute) in
  let hinted := if disableCooling then zero_time else not_found_deadline now (RetryAfter result) in
  let status := StatusCode (R_Error result) in
  if isModelSupportResultError (R_Error result) then (auth, state <| M_NextRetryAfter := hinted |>)
  else if isCloudflareChallengeResultError (R_Error result) then
    let '(next, level) := nextCloudflareCooldown (Q_BackoffLevel (M_Quota state)) disableCooling now in
    (if bool_decide (is_Some (LastError auth)) && negb wasTerminal
     then auth <| StatusMessage := "cloudflare challenge" |> else auth,
     state <| M_NextRetryAfter := next |> <| M_StatusMessage := "cloudflare challenge" |>
           <| M_Quota := applyCooldownFields (M_Quota state) (mkQuota true "cloudflare challenge" next level 0 ∅) |>)
  else if isInvalidGrantResultError (R_Error result) then (auth, state <| M_NextRetryAfter := half_hour |>)
  else if bool_decide (status ∈ [401; 402; 403]) then (auth, state <| M_NextRetryAfter := half_hour |>)
  else if status =? 404 then (auth, state <| M_NextRetryAfter := hinted |>)
  else if status =? 429 then model_quota_failure result wasTerminal disableCooling key now saved auth state
  else
    let next := if gateway_status status
                then recoverableFailureRetryAfterWithHint now (RetryAfter result) disableCooling
                else recoverableFailureRetryAfter now disableCooling in
    (auth, state <| M_NextRetryAfter := next |> <| M_Unavailable := negb (IsZero next) |>).

(** The corrections after the switch, on the state. *)
Definition settle_state (result : Result) (disableCooling : bool) (previous now : time) (seq : Z)
    (state : ModelState) : ModelState :=
  let state := if disableCooling && IsZero (M_NextRetryAfter state) && IsZero (Q_NextRecoverAt (M_Quota state))
               then state <| M_Unavailable := false |> <| M_Quota := (M_Quota state) <| Q_Exceeded := false |> |>
               else state in
  let state := if force_cooldown (R_Error result) && IsZero (M_NextRetryAfter state)
               then state <| M_NextRetryAfter := Add now transientErrorCooldown |> <| M_Unavailable := true |>
               else state in
  state <| M_NextRetryAfter := extend_running previous (M_NextRetryAfter state) now |>
        <| cooldownRecordedSeq := seq |>.

(** A failure that counts, on the model of [modelKey]; [seq] is the latest execution
    sequence issued. *)
Definition mark_model_failure (result : Result) (wasTerminal : bool) (modelKey : string) (now : time)
    (seq : Z) (auth : Auth) : Auth :=
  let disableCooling := if force_cooldown (R_Error result) then false
                        else cooldownDisabledForAuth (Some auth) in
  let key := canonicalModelKey modelKey in
  match ensureModelState auth modelKey with
  | (auth, None) => auth
  | (auth, Some state) =>
      let state := unwrap_expired auth now state in
      let saved := cloneShallow state in
      let pending := own_layer_pending result auth now in
      let state := if pending then match credentialQuotaShadow state with
                                   | Some shadow => cloneShallow shadow
                                   | None => zeroModelState
                                   end else state in
      let state := state <| M_Unavailable := true |> <| M_Status := StatusError |> <| M_UpdatedAt := now |> in
      let previous := M_NextRetryAfter state in
      let '(auth, state) :=
        match R_Error result with
        | Some e =>
            (if wasTerminal then auth
             else auth <| LastError := Some e |> <| StatusMessage := E_Message e |>,
             state <| M_LastError := Some e |> <| M_StatusMessage := E_Message e |>)
        | None => (auth, state)
        end in
      let '(auth, state) := model_failure_fields result wasTerminal disableCooling key now saved auth state in
      let state := settle_state result disableCooling previous now seq state in
      let state := if pending then compose_layers auth saved state now seq else state in
      let auth := put_state auth modelKey state in
      let auth := if CredentialScope result && negb disableCooling && (StatusCode (R_Error result) =? 429)
                  then other_states key (λ s, s <| cooldownRecordedSeq := seq |>)
                         (auth <| authCooldownRecordedSeq := seq |>)
                  else auth in
      updateAggregatedAvailability (auth <| A_Status := StatusError |>) now
  end.

Definition mark_failure (result : Result) (wasTerminal : bool) (modelKey : string) (now : time)
    (seq : Z) (auth : Auth) : Auth :=
  if negb (String.eqb modelKey "") then
    if shouldSkipCredentialCooldown (R_Error result) then auth
    else mark_model_failure result wasTerminal modelKey now seq auth
  else
    let disableCooling := if force_cooldown (R_Error result) then false
                          else cooldownDisabledForAuth (Some auth) in
    if wasTerminal then auth
    else (applyAuthFailureState auth (R_Error result) (RetryAfter result) now disableCooling)
           <| authCooldownRecordedSeq := seq |>.

(** ** A success *)

(** A success dispatched before the cooldown was recorded proves nothing about it. *)
Definition retain_model_cooldown (result : Result) (wasTerminal : bool) (modelKey : string) (auth : Auth)
    (now : time) : bool :=
  negb (String.eqb modelKey "") && negb wasTerminal && (0 <? ExecutionSeq result)
  && match existingModelState auth modelKey with
     | Some s => isModelStateActiveCooldown (Some s) now && (0 <? cooldownRecordedSeq s)
                 && (ExecutionSeq result <=? cooldownRecordedSeq s)
     | None => false
     end.
Definition retain_auth_cooldown (result : Result) (wasTerminal : bool) (modelKey : string) (auth : Auth)
    (now : time) : bool :=
  String.eqb modelKey "" && negb wasTerminal && (0 <? ExecutionSeq result)
  && isAuthActiveCooldown (Some auth) now && (0 <? authCooldownRecordedSeq auth)
  && (ExecutionSeq result <=? authCooldownRecordedSeq auth).

(** [if !hasModelError { LastError = nil; StatusMessage = ""; Status = StatusActive }] *)
Definition clear_error (auth : Auth) (now : time) : Auth :=
  if hasModelError auth now then auth
  else auth <| LastError := None |> <| StatusMessage := "" |> <| A_Status := StatusActive |>.

Definition reset_model (auth : Auth) (modelKey : string) (now : time) : Auth :=
  match ensureModelState auth modelKey with
  | (auth, Some state) => put_state auth modelKey (resetModelState state now)
  | (auth, None) => auth
  end.

Definition mark_success (result : Result) (wasTerminal : bool) (modelKey : string) (now : time)
    (auth : Auth) : Auth :=
  if wasTerminal then
    if negb (String.eqb modelKey "") then reset_model auth modelKey now else auth
  else if String.eqb (Q_Reason (Quota auth)) "credential_quota" && After (Q_NextRecoverAt (Quota auth)) now
  then auth
  else if retain_model_cooldown result wasTerminal modelKey auth now
          || retain_auth_cooldown result wasTerminal modelKey auth now then auth
  else if CountTokens result then clear_error (updateAggregatedAvailability auth now) now
  else if negb (String.eqb modelKey "")
  then clear_error (updateAggregatedAvailability (reset_model auth modelKey now) now) now
  else clearAuthStateOnSuccess auth now.

(** ** Rejected tokens and the refresh of an unauthorized credential *)

Definition unauthorized_failure (result : Result) : bool :=
  negb (R_Success result) && negb (shouldSkipCredentialCooldown (R_Error result))
  && ((StatusCode (R_Error result) =? 401) || isUnauthorizedError (R_Error result)).

(** The flag says that a refresh is to be scheduled. *)
Definition mark_unauthorized (result : Result) (wasTerminal : bool) (now : time) (auth : Auth) : Auth * bool :=
  let auth := if unauthorized_failure result
              then (recordRejectedTokenOnAuth auth
                      (if String.eqb (R_AccessToken result) "" then authAccessToken (Some auth)
                       else R_AccessToken result)).1
              else auth in
  if wasTerminal then
    (auth <| Unavailable := true |> <| A_Status := StatusError |> <| NextRefreshAfter := zero_time |>
          <| NextRetryAfter := zero_time |>, false)
  else if unauthorized_failure result && authHasRefreshCredential (Some auth) now then
    (if IsZero (NextRefreshAfter auth) then
       auth <| NextRefreshAfter :=
         if negb (IsZero (LastRefreshedAt auth)) && (Sub now (LastRefreshedAt auth) <? refreshFailureBackoff)
         then Add now refreshFailureBackoff else now |>
     else auth, true)
  else (auth, false).

(** The snapshot of response headers, on the credential and on the model's state. *)
Definition observed (result : Result) (headers : Header) (now : time) (q : QuotaState) : QuotaState :=
  (ObserveResponseHeadersForProvider q (R_Provider result) headers now now).1.
Definition observe (result : Result) (modelKey : string) (headers : Header) (now : time) (auth : Auth) : Auth :=
  if SkipQuotaObservation result then auth else
  let auth := auth <| Quota := observed result headers now (Quota auth) |> in
  match existingModelState auth modelKey with
  | Some s => put_state auth modelKey (s <| M_Quota := observed result headers now (M_Quota s) |>)
  | None => auth
  end.

(** ** The whole transition of a credential, for a result that is not stale

    [seq] is the latest execution sequence issued, [headers] the response headers. *)
Definition mark_counters (result : Result) (now : time) (auth : Auth) : Auth :=
  let auth := Auth_recordRecentRequest auth now (R_Success result) in
  if R_Success result then auth <| Success := wrap64 (Success auth + 1) |>
  else auth <| Failed := wrap64 (Failed auth + 1) |>.

Definition mark_outcome (result : Result) (modelKey : string) (seq : Z) (now : time) (auth : Auth)
    : Auth * bool :=
  let auth := mark_counters result now auth in
  let wasTerminal := hasUnauthorizedAuthFailure (Some auth) in
  let auth := if R_Success result then mark_success result wasTerminal modelKey now auth
              else mark_failure result wasTerminal modelKey now seq auth in
  mark_unauthorized result wasTerminal now auth.

Definition mark_auth (result : Result) (modelKey : string) (headers : Header) (seq : Z) (now : time)
    (auth : Auth) : Auth * bool :=
  let '(auth, refresh) := mark_outcome result modelKey seq now auth in
  (observe result modelKey headers now ((bump_generation auth) <| UpdatedAt := now |>), refresh).

(** A stale failure still reports the token the upstream refused. *)
Definition mark_stale (result : Result) (now : time) (auth : Auth) : Auth :=
  if negb (isStaleEpoch result auth) && unauthorized_failure result
     && negb (String.eqb (R_AccessToken result) "") then
    match recordRejectedTokenOnAuth auth (R_AccessToken result) with
    | (auth, true) => (bump_generation auth) <| UpdatedAt := now |>
    | (auth, false) => auth
    end
  else auth.
End result.
