(* ===== verification/ResultProofs.v ===== *)
(** * What a result may and may not change

    Theorems about [ExecutionResult]: the parts of the handler that leave the
    availability of a credential alone, and the isolation of models from each other. *)
From Stdlib Require Import ZArith Lia Ascii String Bool.
From stdpp Require Import prelude gmap strings.
From S2P Require Import Prelude GoStd AuthTypes Errors Json Classify Availability AvailabilityEquiv QuotaSignals Cooldown ExecutionResult.
Local Open Scope string_scope.
Local Open Scope list_scope.
Local Open Scope Z_scope.

Section proofs.
Context {gh : GoHost} {gj : Gjson} {st : Settings}.

(** ** Bookkeeping that no availability test sees *)

Lemma observed_quota result headers now q :
  let q' := observed result headers now q in
  Q_Exceeded q' = Q_Exceeded q ∧ Q_Reason q' = Q_Reason q ∧ Q_NextRecoverAt q' = Q_NextRecoverAt q
  ∧ Q_BackoffLevel q' = Q_BackoffLevel q.
Proof.
  unfold observed, ObserveResponseHeadersForProvider, ClearObservationSignals.
  by repeat (case_match; simpl).
Qed.

(** Replacing one state by one no test tells apart. *)
Lemma put_state_same auth key s t :
  existingModelState auth key = Some s → same_state t s → same_availability (put_state auth key t) auth.
Proof.
  unfold existingModelState, put_state. case_match; [done|]. intros Hs Hst.
  split; [done|done|]. intros k. simpl. destruct (decide (k = canonicalModelKey key)) as [->|Hne].
  - rewrite lookup_insert_eq. destruct (ModelStates auth !! _) as [o|]; [|done]. simpl in Hs. subst.
    by do 2 constructor.
  - rewrite lookup_insert_ne by done. reflexivity.
Qed.

Lemma set_quota_same auth q :
  Q_Exceeded q = Q_Exceeded (Quota auth) → Q_Reason q = Q_Reason (Quota auth) →
  Q_NextRecoverAt q = Q_NextRecoverAt (Quota auth) → same_availability (auth <| Quota := q |>) auth.
Proof.
  intros He Hr Hn. split; [|done|].
  - intros now. unfold gates, credential_quota. simpl. by rewrite He, Hr, Hn.
  - intros k. reflexivity.
Qed.

Lemma observe_same result key headers now auth :
  same_availability (observe result key headers now auth) auth.
Proof.
  unfold observe. case_match; [reflexivity|].
  set (noted := auth <| Quota := observed result headers now (Quota auth) |>).
  assert (same_availability noted auth) as Hn.
  { destruct (observed_quota result headers now (Quota auth)) as (?&?&?&_).
    by apply set_quota_same. }
  destruct (existingModelState noted key) as [s|] eqn:Es; [|done].
  transitivity noted; [|done]. apply (put_state_same _ _ s); [done|].
  destruct (observed_quota result headers now (M_Quota s)) as (?&?&?&_).
  unfold same_state. simpl. by split_and!.
Qed.

Lemma bump_same auth now : same_availability ((bump_generation auth) <| UpdatedAt := now |>) auth.
Proof. split; [done|done|]. intros k. reflexivity. Qed.

Lemma counters_same result now auth : same_availability (mark_counters result now auth) auth.
Proof. unfold mark_counters. case_match; (split; [done|done|]; intros k; reflexivity). Qed.

(** The availability after a result is decided by [mark_outcome]. *)
Lemma mark_auth_same result key headers seq now auth :
  same_availability (mark_auth result key headers seq now auth).1 (mark_outcome result key seq now auth).1.
Proof.
  unfold mark_auth. destruct (mark_outcome result key seq now auth) as [a r]. simpl.
  transitivity ((bump_generation a) <| UpdatedAt := now |>); [apply observe_same|apply bump_same].
Qed.

Lemma unauthorized_none result auth now :
  unauthorized_failure result = false → mark_unauthorized result false now auth = (auth, false).
Proof. unfold mark_unauthorized. by intros ->. Qed.

(** ** Results that prove nothing *)

(** A success that was dispatched before a cooldown was recorded proves nothing
    about it: whatever the headers, the credential stays exactly as blocked as it
    was, for every model and at every time. *)
Theorem stale_success_keeps_cooldown (result : Result) (modelKey : string) (headers : Header)
    (seq now : Z) (auth : Auth)
    (Hsuccess : R_Success result = true) (Hplain : hasUnauthorizedAuthFailure (Some auth) = false)
    (Hseq : 0 < ExecutionSeq result)
    (Hstale : (∃ s, existingModelState auth modelKey = Some s ∧ modelKey ≠ ""
                 ∧ isModelStateActiveCooldown (Some s) now = true ∧ ExecutionSeq result ≤ cooldownRecordedSeq s)
              ∨ (modelKey = "" ∧ isAuthActiveCooldown (Some auth) now = true
                 ∧ ExecutionSeq result ≤ authCooldownRecordedSeq auth)) :
  let auth' := (mark_auth result modelKey headers seq now auth).1 in
  ∀ model t, 0 ≤ t → auth_block (Some auth') model t = auth_block (Some auth) model t.
Proof.
  intros auth' model t Ht. apply same_availability_block; [done|]. unfold auth'.
  etransitivity; [apply mark_auth_same|]. unfold mark_outcome. rewrite Hsuccess.
  set (counted := mark_counters result now auth).
  assert (same_availability counted auth) as Hc by apply counters_same.
  assert (hasUnauthorizedAuthFailure (Some counted) = false) as Hp.
  { unfold counted, mark_counters. by rewrite Hsuccess. }
  rewrite Hp. assert (mark_success result false modelKey now counted = counted) as ->.
  { unfold mark_success. case_match; [done|].
    assert (retain_model_cooldown result false modelKey counted now
            || retain_auth_cooldown result false modelKey counted now = true) as ->; [|done].
    assert (∀ key, existingModelState counted key = existingModelState auth key) as Hex.
    { intros key. unfold counted, mark_counters. by rewrite Hsuccess. }
    assert (isAuthActiveCooldown (Some counted) now = isAuthActiveCooldown (Some auth) now
            ∧ authCooldownRecordedSeq counted = authCooldownRecordedSeq auth) as [Hac Has].
    { unfold counted, mark_counters. by rewrite Hsuccess. }
    unfold retain_model_cooldown, retain_auth_cooldown. rewrite Hex, Hac, Has. apply orb_true_iff.
    destruct Hstale as [(s&->&Hk&Ha&Hle)|(->&Ha&Hle)]; [left|right]; rewrite Ha;
      rewrite (proj2 (Z.ltb_lt 0 (ExecutionSeq result))) by done.
    - rewrite (proj2 (String.eqb_neq _ _) Hk). simpl.
      rewrite (proj2 (Z.leb_le _ _) Hle), (proj2 (Z.ltb_lt 0 (cooldownRecordedSeq s))) by lia. done.
    - simpl. rewrite (proj2 (Z.leb_le _ _) Hle), (proj2 (Z.ltb_lt 0 (authCooldownRecordedSeq auth))) by lia.
      done. }
  rewrite unauthorized_none; [done|]. unfold unauthorized_failure. by rewrite Hsuccess.
Qed.

(** A failure that is the caller's fault or the connection's, not the
    credential's, leaves the credential exactly as available as it was. *)
Theorem excused_failure_neutral (result : Result) (modelKey : string) (headers : Header)
    (seq now : Z) (auth : Auth)
    (Hfailure : R_Success result = false) (Hplain : hasUnauthorizedAuthFailure (Some auth) = false)
    (Hexcused : shouldSkipCredentialCooldown (R_Error result) = true) :
  let '(auth', refresh) := mark_auth result modelKey headers seq now auth in
  refresh = false
  ∧ ∀ model t, 0 ≤ t → auth_block (Some auth') model t = auth_block (Some auth) model t.
Proof.
  pose proof (mark_auth_same result modelKey headers seq now auth) as Hsame.
  assert (same_availability (mark_outcome result modelKey seq now auth).1 auth
          ∧ (mark_outcome result modelKey seq now auth).2 = false) as [Ho Hr].
  { unfold mark_outcome. rewrite Hfailure.
    set (counted := mark_counters result now auth).
    assert (same_availability counted auth) as Hc by apply counters_same.
    assert (hasUnauthorizedAuthFailure (Some counted) = false) as ->.
    { unfold counted, mark_counters. by rewrite Hfailure. }
    rewrite unauthorized_none by (unfold unauthorized_failure; by rewrite Hfailure, Hexcused).
    split; [|done]. simpl. etransitivity; [|exact Hc]. unfold mark_failure, applyAuthFailureState.
    rewrite Hexcused. case_match; [reflexivity|]. split; [done|done|]. intros k. reflexivity. }
  unfold mark_auth in *. destruct (mark_outcome result modelKey seq now auth) as [a r]. simpl in *.
  split; [done|]. intros model t Ht. apply same_availability_block; [done|]. by etransitivity.
Qed.

(** ** Normal keys *)

(** Every state is filed under its canonical key, as each result leaves it. *)
Definition normal (key : string) : Prop := canonicalModelKey key = key ∧ key ≠ "".
Definition keys_normal (auth : Auth) : Prop := ∀ k, is_Some (ModelStates auth !! k) → normal k.

Lemma normal_key_id key : normal key → normal_key key = key.
Proof. intros [Hc Hn]. unfold normal_key. by rewrite Hc, (proj2 (String.eqb_neq _ _) Hn). Qed.

Lemma normalize_unchanged l acc :
  NoDup l.*1 → (∀ k, k ∈ l.*1 → normal k ∧ acc !! k = None) →
  (fold_left normalize_step l (acc, false)).2 = false.
Proof.
  revert acc. induction l as [|[k o] l IH]; intros acc Hnd Hl; [done|].
  simpl in *. apply NoDup_cons in Hnd as [Hk Hnd].
  destruct (Hl k (list_elem_of_here _ _)) as [Hn Ha].
  rewrite (normal_key_id k Hn), Ha, String.eqb_refl. simpl. apply IH; [done|].
  intros k' Hk'. destruct (Hl k' (list_elem_of_further _ _ _ Hk')) as [Hn' Ha']. split; [done|].
  rewrite lookup_insert_ne; [done|]. intros ->. done.
Qed.

Lemma normalize_id auth : keys_normal auth → normalizeModelStates auth = auth.
Proof.
  intros Hk. unfold normalizeModelStates, normalizeModelStates_in.
  destruct (fold_left normalize_step _ _) as [m changed] eqn:E.
  assert (changed = false) as ->; [|done].
  apply (f_equal snd) in E. simpl in E. rewrite <-E. apply normalize_unchanged.
  - apply NoDup_fst_map_to_list.
  - intros k Hin. split; [|apply lookup_empty]. apply Hk.
    apply list_elem_of_fmap in Hin as ([k' o]&->&Hin). apply elem_of_map_to_list in Hin. by eexists.
Qed.

Definition fresh_state : ModelState := zeroModelState <| M_Status := StatusActive |>.

Lemma existing_normal auth key : normal key → existingModelState auth key = default None (ModelStates auth !! key).
Proof. intros [Hc Hn]. unfold existingModelState. by rewrite Hc, (proj2 (String.eqb_neq _ _) Hn). Qed.

Lemma put_normal auth key s : normal key →
  put_state auth key s = auth <| ModelStates := <[key := Some s]> (ModelStates auth) |>.
Proof. intros [Hc _]. unfold put_state. by rewrite Hc. Qed.

(** Ensuring a state leaves the rest of the credential alone. *)
Lemma ensure_normal auth key :
  keys_normal auth → normal key →
  ensureModelState auth key =
    (auth <| ModelStates := <[key := Some (default fresh_state (existingModelState auth key))]> (ModelStates auth) |>,
     Some (default fresh_state (existingModelState auth key))).
Proof.
  intros Hk Hn. rewrite existing_normal by done. destruct Hn as [Hc Hne].
  unfold ensureModelState. rewrite Hc, (proj2 (String.eqb_neq _ _) Hne), normalize_id by done.
  destruct (ModelStates auth !! key) as [[s|]|] eqn:E; simpl; [|done|done].
  rewrite insert_id by done. by destruct auth.
Qed.

(** ** Well-formed quotas *)

(** A quota is exceeded exactly while it has a recovery time. *)
Definition quota_wf (q : QuotaState) : Prop :=
  Q_Exceeded q = negb (IsZero (Q_NextRecoverAt q)) ∧ 0 ≤ Q_NextRecoverAt q.
Definition state_wf (s : ModelState) : Prop :=
  quota_wf (M_Quota s) ∧ match credentialQuotaShadow s with Some sh => quota_wf (M_Quota sh) | None => True end.
Definition auth_wf (auth : Auth) : Prop :=
  quota_wf (Quota auth) ∧ ∀ k s, ModelStates auth !! k = Some (Some s) → state_wf s.

(** ** Keeping the other models as they are *)

(** The block an entry of the map gives, if it has a state. *)
Definition block_at (t : time) (o : option (option ModelState)) : option block :=
  match o with Some (Some s) => Some (state_block t s) | _ => None end.
Definition kept (now : time) (o o' : option (option ModelState)) : Prop :=
  (is_Some o ↔ is_Some o') ∧ ∀ t, now ≤ t → block_at t o = block_at t o'.
#[export] Instance kept_equiv now : Equivalence (kept now).
Proof.
  unfold kept. split; [by intros o|intros o o' [Hi H]; split; [done|intros t Ht; symmetry; by apply H]|].
  intros o1 o2 o3 [Hi1 H1] [Hi2 H2]. split; [by rewrite Hi1|]. intros t Ht. by rewrite H1, H2.
Qed.

Definition others_kept (now : time) (key : string) (auth auth' : Auth) : Prop :=
  ∀ k, k ≠ key → kept now (ModelStates auth !! k) (ModelStates auth' !! k).
#[export] Instance others_kept_equiv now key : Equivalence (others_kept now key).
Proof.
  unfold others_kept. split; [by intros a k|intros a b H k Hk; symmetry; by apply H|].
  intros a b c H1 H2 k Hk. by rewrite H1, H2.
Qed.

Lemma others_kept_states now key auth auth' :
  (∀ k, k ≠ key → ModelStates auth' !! k = ModelStates auth !! k) → others_kept now key auth auth'.
Proof. intros H k Hk. by rewrite H. Qed.

Lemma others_kept_put now key auth s : normal key → others_kept now key auth (put_state auth key s).
Proof. intros Hn. apply others_kept_states. intros k Hk. rewrite put_normal by done. simpl. by rewrite lookup_insert_ne. Qed.

(** Clearing an expired block in place changes no answer from now on. *)
Lemma expire_state_block s now t :
  0 ≤ now → now ≤ t → quota_wf (M_Quota s) → state_block t (expire_state now s) = state_block t s.
Proof.
  intros H0 Ht Hwf. unfold expire_state. destruct (_ && _) eqn:E; [|done].
  unfold After, IsZero in E. to_prop. unfold state_block. simpl.
  destruct (bool_decide (M_Status s = StatusDisabled)); [done|].
  rewrite !availabilityBlock_spec by lia. destruct Hwf as [Hwf _]. unfold IsZero in Hwf.
  rewrite Hwf. unfold zero_time.
  destruct (Z.eqb_spec (Q_NextRecoverAt (M_Quota s)) 0) as [Hz|Hz]; simpl.
  - rewrite Hz. destruct (M_Unavailable s); [|done]. simpl.
    destruct (Z.ltb_spec t (M_NextRetryAfter s)), (Z.ltb_spec t 0), (Z.eqb_spec (M_NextRetryAfter s) 0);
      simpl; done || lia.
  - rewrite orb_true_r. simpl.
    destruct (Z.ltb_spec t (M_NextRetryAfter s)), (Z.ltb_spec t 0), (Z.ltb_spec t (Q_NextRecoverAt (M_Quota s)));
      simpl; try lia; [by rewrite !Z.max_r by lia|].
    by rewrite andb_false_r.
Qed.

Lemma updateAggregatedAvailability_states auth now :
  ModelStates (updateAggregatedAvailability auth now) = ModelStates auth
  ∨ ModelStates (updateAggregatedAvailability auth now) = option_map (expire_state now) <$> ModelStates auth.
Proof.
  unfold updateAggregatedAvailability, updateAggregatedAvailability_in.
  destruct (hasUnauthorizedAuthFailure _); [by left|]. destruct (credential_wrap _ _); [by left|].
  destruct (negb _); [by left|]. right. simpl. destruct (quotaExceeded _); [done|]. by destruct (_ && _).
Qed.

Lemma others_kept_aggregate now key auth :
  0 ≤ now → (∀ k s, k ≠ key → ModelStates auth !! k = Some (Some s) → quota_wf (M_Quota s)) →
  others_kept now key auth (updateAggregatedAvailability auth now).
Proof.
  intros H0 Hwf k Hk.
  destruct (updateAggregatedAvailability_states auth now) as [-> | ->]; [done|].
  rewrite lookup_fmap. split; [by rewrite fmap_is_Some|]. intros t Ht.
  destruct (ModelStates auth !! k) as [[s|]|] eqn:E; simpl; [|done|done].
  rewrite expire_state_block; [done..|]. by eapply Hwf.
Qed.

(** A model's answer depends on the states filed under its key. *)
Lemma others_kept_model now key auth auth' model t :
  others_kept now key auth auth' → normal key → canonicalModelKey model ≠ key → now ≤ t →
  summary (state_block t <$> matching (canonicalModelKey model) (map_to_list (ModelStates auth')))
  = summary (state_block t <$> matching (canonicalModelKey model) (map_to_list (ModelStates auth))).
Proof.
  intros Ho [Hc _] Hm Ht. apply summary_set. intros b. rewrite !elem_of_model_blocks.
  assert (∀ a a' : Auth, (∀ k, k ≠ key → block_at t (ModelStates a !! k) = block_at t (ModelStates a' !! k)) →
    model_block (ModelStates a) (canonicalModelKey model) t b →
    model_block (ModelStates a') (canonicalModelKey model) t b) as H.
  { intros a a' Hb (k&s&Hs&Hck&->). assert (k ≠ key) as Hne by (intros ->; congruence).
    specialize (Hb k Hne). rewrite Hs in Hb. simpl in Hb.
    destruct (ModelStates a' !! k) as [[s'|]|] eqn:E; simplify_eq/=. by exists k, s'. }
  split; apply H; intros k Hne; [symmetry|]; by apply (Ho k Hne).
Qed.

(** ** A failure on one model *)

Lemma quota_failure_own result wt dis key now saved auth s :
  CredentialScope result = false →
  let '(a', s') := model_quota_failure result wt dis key now saved auth s in
  a' = auth ∧ M_Status s' = M_Status s ∧ M_Unavailable s' = M_Unavailable s
  ∧ (dis = false → now < M_NextRetryAfter s').
Proof.
  intros Hs. unfold model_quota_failure, model_quota_deadline. rewrite Hs. destruct dis; simpl.
  { by split_and!. }
  assert (∀ d, now < d → now < extend_open (M_Quota s) d) as Hx.
  { intros d Hd. eapply Z.lt_le_trans; [exact Hd|apply extend_open_ge]. }
  destruct (RetryAfter result) as [d|]; simpl.
  - split_and!; try done. intros _. apply Hx.
    unfold Add, minQuotaCooldownFloor, Second. case_match; to_prop; lia.
  - pose proof (quotaCooldownAfterFailure_after (M_Quota s) now) as Hq.
    destruct (quotaCooldownAfterFailure _ now) as [n l]. simpl in *. split_and!; try done.
    intros _. by apply Hx.
Qed.

Lemma failure_fields_own result wt dis key now saved auth s :
  CredentialScope result = false →
  let '(a', s') := model_failure_fields result wt dis key now saved auth s in
  ModelStates a' = ModelStates auth ∧ Quota a' = Quota auth
  ∧ M_Status s' = M_Status s
  ∧ (dis = false → transient_cooling → 0 ≤ now → M_Unavailable s = true →
     M_Unavailable s' = true ∧ now < M_NextRetryAfter s').
Proof.
  intros Hs. unfold model_failure_fields.
  assert (now < Add now (30 * Minute)) as Hh by (unfold Add, Minute, Second; lia).
  pose proof (not_found_after now (RetryAfter result)) as Hnf.
  destruct (isModelSupportResultError _).
  { simpl. split_and!; try done. by intros ->. }
  destruct (isCloudflareChallengeResultError _).
  { pose proof (cloudflare_after (Q_BackoffLevel (M_Quota s)) now) as Hc.
    destruct (nextCloudflareCooldown _ dis now) as [n l] eqn:En. simpl.
    split; [by destruct (_ && _)|]. split; [by destruct (_ && _)|]. split; [done|].
    intros -> _ _ Hu. rewrite En in Hc. by split. }
  destruct (isInvalidGrantResultError _).
  { simpl. split_and!; try done. by intros ->. }
  destruct (bool_decide _).
  { simpl. split_and!; try done. by intros ->. }
  destruct (_ =? 404).
  { simpl. split_and!; try done. by intros ->. }
  destruct (_ =? 429).
  { pose proof (quota_failure_own result wt dis key now saved auth s Hs) as Hq.
    destruct (model_quota_failure _ _ _ _ _ _ _ _) as [a' s']. destruct Hq as (->&->&->&Hq).
    split_and!; try done. intros Hd _ _ Hu. split; [done|]. by apply Hq. }
  set (next := if gateway_status _ then _ else _).
  assert (dis = false → transient_cooling → now < next) as Hn.
  { intros -> Ht. unfold next. destruct (gateway_status _); by apply recoverable_after. }
  clearbody next. simpl. split_and!; try done. intros Hd Ht H0 _. specialize (Hn Hd Ht).
  split; [|done]. apply is_set_true. lia.
Qed.

Lemma settle_own result dis previous now seq s :
  0 ≤ now → dis = false → now < M_NextRetryAfter s →
  settle_state result dis previous now seq s =
    s <| M_NextRetryAfter := Z.max previous (M_NextRetryAfter s) |> <| cooldownRecordedSeq := seq |>.
Proof.
  intros H0 -> Hn. unfold settle_state. simpl.
  assert (IsZero (M_NextRetryAfter s) = false) as Hz by (unfold IsZero; apply Z.eqb_neq; lia).
  rewrite Hz, andb_false_r. by rewrite extend_running_max.
Qed.

(** The outer layer is blocked at least as long as both its layers. *)
Lemma compose_deadline auth saved own now seq :
  let s := compose_layers auth saved own now seq in
  M_Unavailable s = true ∧ M_Status s = StatusError
  ∧ M_NextRetryAfter own ≤ M_NextRetryAfter s ∧ M_NextRetryAfter saved ≤ M_NextRetryAfter s.
Proof.
  unfold compose_layers. cbv zeta.
  set (outer := (cloneShallow saved) <| credentialQuotaShadow := _ |> <| cooldownRecordedSeq := _ |>
    <| credentialQuotaPropagated := _ |> <| M_Unavailable := _ |> <| M_Status := _ |> <| M_UpdatedAt := _ |>
    <| M_LastError := _ |> <| M_StatusMessage := _ |>).
  assert (M_Unavailable outer = true ∧ M_Status outer = StatusError
          ∧ M_NextRetryAfter outer = M_NextRetryAfter saved) as (Hu&Hst&Hr) by done.
  clearbody outer. unfold After.
  destruct (Z.ltb_spec (M_NextRetryAfter outer) (M_NextRetryAfter own)); simpl;
    match goal with |- context [?x <? ?y] => destruct (Z.ltb_spec x y) end; simpl;
    match goal with |- context [Q_Exceeded ?q && _] => destruct (Q_Exceeded q && _) end; simpl;
    split_and!; try done; lia.
Qed.

(** Cooling is on for this failure. *)
Definition cooling_on (result : Result) (auth : Auth) : Prop :=
  force_cooldown (R_Error result) = true ∨ cooldownDisabledForAuth (Some auth) = false.

(** A state the handler leaves on the failing model: off until a deadline that is in
    the future and no earlier than the running one of a state that is not waiting
    to be unwrapped. *)
Definition failed_state (auth : Auth) (before : option ModelState) (now : time) (s' : ModelState) : Prop :=
  M_Unavailable s' = true ∧ M_Status s' = StatusError ∧ now < M_NextRetryAfter s'
  ∧ ∀ s, before = Some s → wrapped s = false ∨ credential_wrap auth now = true →
      now < M_NextRetryAfter s → M_NextRetryAfter s ≤ M_NextRetryAfter s'.

Lemma unwrap_running auth now s :
  wrapped s = false ∨ credential_wrap auth now = true → unwrap_expired auth now s = s.
Proof. unfold unwrap_expired. intros [-> | ->]; [done|by rewrite andb_false_r]. Qed.

Lemma mark_model_failure_own result wt key now seq auth :
  keys_normal auth → normal key → CredentialScope result = false →
  ∃ a s', mark_model_failure result wt key now seq auth = updateAggregatedAvailability a now
    ∧ ModelStates a = <[key := Some s']> (ModelStates auth) ∧ Quota a = Quota auth
    ∧ (cooling_on result auth → transient_cooling → 0 ≤ now →
       failed_state auth (existingModelState auth key) now s').
Proof.
  intros Hk Hn Hs. pose proof (ensure_normal auth key Hk Hn) as He. unfold mark_model_failure. rewrite He.
  set (s0 := default fresh_state (existingModelState auth key)).
  set (auth1 := auth <| ModelStates := _ |>).
  assert (Quota auth1 = Quota auth) as Hq1 by done.
  set (s1 := unwrap_expired auth1 now s0). rewrite Hs. cbn [andb].
  set (s2 := if own_layer_pending result auth1 now then _ else s1).
  set (s3 := s2 <| M_Unavailable := true |> <| M_Status := StatusError |> <| M_UpdatedAt := now |>).
  set (dis := if force_cooldown _ then _ else _).
  assert (∃ auth2 s4, (match R_Error result with
     | Some e => (if wt then auth1 else auth1 <| LastError := Some e |> <| StatusMessage := E_Message e |>,
                  s3 <| M_LastError := Some e |> <| M_StatusMessage := E_Message e |>)
     | None => (auth1, s3) end) = (auth2, s4)
     ∧ ModelStates auth2 = ModelStates auth1 ∧ Quota auth2 = Quota auth1
     ∧ M_Unavailable s4 = true ∧ M_Status s4 = StatusError) as (auth2&s4&->&Hm2&Hq2&Hu4&Hst4).
  { destruct (R_Error result); do 2 eexists; (split; [reflexivity|]); by destruct wt. }
  destruct (proj1 (conj Hn Hn)) as [Hc _].
  pose proof (failure_fields_own result wt dis (canonicalModelKey key) now (cloneShallow s1) auth2 s4 Hs) as Hf.
  destruct (model_failure_fields _ _ _ _ _ _ auth2 s4) as [auth3 s5].
  destruct Hf as (Hm3&Hq3&Hst5&Hf).
  set (s6 := settle_state result dis (M_NextRetryAfter s3) now seq s5).
  set (s7 := if own_layer_pending result auth1 now then compose_layers auth3 (cloneShallow s1) s6 now seq else s6).
  exists ((put_state auth3 key s7) <| A_Status := StatusError |>), s7. split; [done|].
  split; [rewrite put_normal by done; simpl; rewrite Hm3, Hm2; unfold auth1; simpl; by rewrite insert_insert_eq|].
  split; [rewrite put_normal by done; simpl; by rewrite Hq3, Hq2|].
  intros Hcool Ht H0. assert (dis = false) as Hd.
  { unfold dis. by destruct Hcool as [-> | ->]; destruct (force_cooldown _). }
  destruct (Hf Hd Ht H0 Hu4) as [Hu5 Hr5].
  assert (s6 = s5 <| M_NextRetryAfter := Z.max (M_NextRetryAfter s3) (M_NextRetryAfter s5) |>
                  <| cooldownRecordedSeq := seq |>) as E6 by by apply settle_own.
  assert (M_NextRetryAfter s6 = Z.max (M_NextRetryAfter s3) (M_NextRetryAfter s5)
          ∧ M_Unavailable s6 = true ∧ M_Status s6 = StatusError) as (Hr6&Hu6&Hst6)
    by (rewrite E6; simpl; split_and!; [done|done|congruence]).
  assert (∀ s, existingModelState auth key = Some s → wrapped s = false ∨ credential_wrap auth now = true →
    s1 = s) as Hrun.
  { intros s Hex Hw. unfold s1, s0. rewrite Hex. by apply unwrap_running. }
  assert (M_NextRetryAfter (cloneShallow s1) = M_NextRetryAfter s1) as Hcl by done.
  unfold s7. destruct (own_layer_pending result auth1 now).
  - destruct (compose_deadline auth3 (cloneShallow s1) s6 now seq) as (Hu&Hst&Hown&Hsaved).
    split_and!; [done|done|lia|]. intros s Hex Hw _. rewrite <-(Hrun s Hex Hw). lia.
  - split_and!; [done|done|lia|]. intros s Hex Hw _. rewrite <-(Hrun s Hex Hw).
    change (M_NextRetryAfter s3) with (M_NextRetryAfter s1) in Hr6. lia.
Qed.

(** ** Results on one model leave the others alone *)

Lemma others_kept_wf key auth auth' :
  (∀ k, k ≠ key → ModelStates auth' !! k = ModelStates auth !! k) → auth_wf auth →
  ∀ k s, k ≠ key → ModelStates auth' !! k = Some (Some s) → quota_wf (M_Quota s).
Proof. intros He [_ Hwf] k s Hk. rewrite He by done. intros Hs. by apply (Hwf k s). Qed.

Lemma reset_model_others auth key now :
  keys_normal auth → normal key → ∀ k, k ≠ key → ModelStates (reset_model auth key now) !! k = ModelStates auth !! k.
Proof.
  intros Hk Hn k Hne. unfold reset_model. rewrite ensure_normal, put_normal by done. simpl.
  by rewrite !lookup_insert_ne.
Qed.

Lemma clear_error_states auth now : ModelStates (clear_error auth now) = ModelStates auth.
Proof. unfold clear_error. by case_match. Qed.

Lemma aggregate_after_others now key auth auth' :
  0 ≤ now → (∀ k, k ≠ key → ModelStates auth' !! k = ModelStates auth !! k) → auth_wf auth →
  others_kept now key auth (updateAggregatedAvailability auth' now).
Proof.
  intros H0 He Hwf. transitivity auth'; [by apply others_kept_states|].
  apply others_kept_aggregate; [done|]. by eapply others_kept_wf.
Qed.

Lemma mark_success_others result wt key now auth :
  0 ≤ now → keys_normal auth → normal key → auth_wf auth →
  others_kept now key auth (mark_success result wt key now auth).
Proof.
  intros H0 Hk Hn Hwf. unfold mark_success.
  pose proof (reset_model_others auth key now Hk Hn) as Hr.
  destruct wt; [case_match; [by apply others_kept_states|reflexivity]|].
  repeat (case_match; [try reflexivity|]).
  - intros k Hne. rewrite clear_error_states. by apply (aggregate_after_others now key auth auth).
  - intros k Hne. rewrite clear_error_states. by apply (aggregate_after_others now key auth (reset_model auth key now)).
  - apply others_kept_states. intros k _. unfold clearAuthStateOnSuccess. by case_match.
Qed.

Lemma mark_failure_others result wt key now seq auth :
  0 ≤ now → keys_normal auth → normal key → auth_wf auth → CredentialScope result = false →
  others_kept now key auth (mark_failure result wt key now seq auth).
Proof.
  intros H0 Hk Hn Hwf Hs. unfold mark_failure. destruct Hn as [Hc Hne].
  rewrite (proj2 (String.eqb_neq _ _) Hne). simpl. case_match; [reflexivity|].
  destruct (mark_model_failure_own result wt key now seq auth Hk (conj Hc Hne) Hs) as (a&s'&->&Hm&_&_).
  apply aggregate_after_others; [done| |done]. intros k Hk'. rewrite Hm. by rewrite lookup_insert_ne.
Qed.

Lemma rejected_token_fields auth token :
  let auth' := (recordRejectedTokenOnAuth auth token).1 in
  ModelStates auth' = ModelStates auth ∧ Quota auth' = Quota auth ∧ Unavailable auth' = Unavailable auth.
Proof.
  unfold recordRejectedTokenOnAuth. destruct (String.eqb (TrimSpace token) ""); [done|].
  destruct (negb (String.eqb (authSIWCTokenField (Some auth) "access_token") "") && _ && _); cbv iota beta;
    match goal with |- context [if ?b then _ else _] => destruct b end; done.
Qed.

Lemma mark_unauthorized_fields result wt now auth :
  let auth' := (mark_unauthorized result wt now auth).1 in
  ModelStates auth' = ModelStates auth ∧ Quota auth' = Quota auth
  ∧ (wt = false → Unavailable auth' = Unavailable auth).
Proof.
  unfold mark_unauthorized.
  set (rejected := if unauthorized_failure result then _ else auth).
  assert (ModelStates rejected = ModelStates auth ∧ Quota rejected = Quota auth
          ∧ Unavailable rejected = Unavailable auth) as (Hm&Hq&Hu).
  { unfold rejected. destruct (unauthorized_failure result); [apply rejected_token_fields|done]. }
  clearbody rejected. destruct wt; [done|].
  destruct (_ && _); [|done]. destruct (IsZero _); by split_and!.
Qed.

Lemma observe_others result key headers now auth :
  normal key → others_kept now key auth (observe result key headers now auth).
Proof.
  intros Hn. apply others_kept_states. intros k Hk. unfold observe. case_match; [done|].
  set (noted := auth <| Quota := _ |>). destruct (existingModelState noted key); [|done].
  rewrite put_normal by done. simpl. by rewrite lookup_insert_ne.
Qed.

Lemma mark_auth_others (result : Result) (modelKey : string) (headers : Header) (seq now : Z) (auth : Auth) :
  0 ≤ now → keys_normal auth → normal modelKey → auth_wf auth → CredentialScope result = false →
  others_kept now modelKey auth (mark_auth result modelKey headers seq now auth).1.
Proof.
  intros Hnow Hkeys Hkey Hwf Hown. unfold mark_auth, mark_outcome.
  set (counted := mark_counters result now auth).
  assert (ModelStates counted = ModelStates auth ∧ Quota counted = Quota auth) as [Hcm Hcq].
  { unfold counted, mark_counters. by case_match. }
  assert (keys_normal counted ∧ auth_wf counted) as [Hkc Hwc].
  { unfold keys_normal, auth_wf. rewrite Hcm, Hcq. by split. }
  set (marked := if R_Success result then _ else _).
  assert (others_kept now modelKey auth marked) as Hmarked.
  { transitivity counted; [apply others_kept_states; by rewrite Hcm|].
    unfold marked. destruct (R_Success result); [by apply mark_success_others|by apply mark_failure_others]. }
  destruct (mark_unauthorized_fields result (hasUnauthorizedAuthFailure (Some counted)) now marked) as (Hu&_&_).
  destruct (mark_unauthorized _ _ _ _) as [unauth refresh]. cbn [fst snd] in *.
  etransitivity; [|by apply observe_others].
  transitivity marked; [done|]. apply others_kept_states. intros k _. simpl. by rewrite Hu.
Qed.

(** ** The credential as a whole *)

(** What the gates look at, before and after a result reported at [now]: a running
    credential-wide quota is the same, and no other one has come up. *)
Record credential_kept (now : time) (a b : Auth) : Prop := {
  ck_disabled : Disabled b = Disabled a;
  ck_status : A_Status b = StatusDisabled → A_Status a = StatusDisabled;
  ck_states : ModelStates a ≠ ∅ → ModelStates b ≠ ∅;
  ck_wrap : credential_wrap b now = credential_wrap a now;
  ck_recover : credential_wrap a now = true → Q_NextRecoverAt (Quota b) = Q_NextRecoverAt (Quota a) }.
#[export] Instance credential_kept_refl now : Reflexive (credential_kept now).
Proof. by intros a. Qed.
#[export] Instance credential_kept_trans now : Transitive (credential_kept now).
Proof.
  intros a b c [D1 S1 M1 W1 R1] [D2 S2 M2 W2 R2]. split; [congruence|auto|auto|congruence|].
  intros H. rewrite R2, R1 by congruence. done.
Qed.
Definition same_token (a b : Auth) : Prop := ∀ t, token_expired (Some b) t = token_expired (Some a) t.

Lemma kept_quota_at now a b t : credential_kept now a b → now ≤ t →
  credential_quota b t = credential_quota a t ∧ (credential_quota a t = true → Q_NextRecoverAt (Quota b) = Q_NextRecoverAt (Quota a)).
Proof.
  intros [_ _ _ Hw Hr] Ht. unfold credential_quota, credential_wrap, After in *.
  destruct (Q_Exceeded (Quota a) && String.eqb (Q_Reason (Quota a)) "credential_quota"),
    (Q_Exceeded (Quota b) && String.eqb (Q_Reason (Quota b)) "credential_quota"); cbn [andb] in *; [..|done].
  - destruct (now <? Q_NextRecoverAt (Quota a)) eqn:E; [by rewrite (Hr eq_refl)|]. to_prop.
    rewrite !(proj2 (Z.ltb_ge _ _)) by lia. done.
  - symmetry in Hw. to_prop. rewrite (proj2 (Z.ltb_ge _ _)) by lia. done.
  - to_prop. rewrite (proj2 (Z.ltb_ge _ _)) by lia. done.
Qed.

Lemma aggregate_credential auth now :
  credential_kept now auth (updateAggregatedAvailability auth now) ∧ same_token auth (updateAggregatedAvailability auth now).
Proof.
  unfold updateAggregatedAvailability, updateAggregatedAvailability_in.
  destruct (hasUnauthorizedAuthFailure _); [done|]. destruct (credential_wrap auth now) eqn:Ew; [by split; [split|]|].
  destruct (negb _); [split; [split; try done; by rewrite Ew|done]|]. set (states := option_map _ <$> _).
  assert (ModelStates auth ≠ ∅ → states ≠ ∅) as Hs by (intros Hne He; by apply fmap_empty_inv in He).
  destruct (quotaExceeded _); [split; [split; try done; by rewrite Ew|done]|].
  destruct (_ && _); [|split; [split; try done; by rewrite Ew|done]]. split; [split; try done; by rewrite Ew|done].
Qed.
Lemma clear_error_credential auth now : credential_kept now auth (clear_error auth now) ∧ same_token auth (clear_error auth now).
Proof. unfold clear_error. by case_match. Qed.
Lemma put_credential auth key s now : normal key → credential_kept now auth (put_state auth key s) ∧ same_token auth (put_state auth key s).
Proof.
  intros Hn. rewrite put_normal by done. split; [|done]. split; try done. intros _ He. cbn in He. by apply insert_non_empty in He.
Qed.
Lemma reset_credential auth key now : keys_normal auth → normal key →
  credential_kept now auth (reset_model auth key now) ∧ same_token auth (reset_model auth key now).
Proof.
  intros Hk Hn. unfold reset_model. rewrite ensure_normal by done. set (s0 := default _ _).
  set (auth1 := auth <| ModelStates := _ |>). assert (credential_kept now auth auth1 ∧ same_token auth auth1) as [K1 T1].
  { pose proof (put_credential auth key s0 now Hn) as Hput. by rewrite put_normal in Hput by done. }
  destruct (put_credential auth1 key (resetModelState s0 now) now Hn) as [K2 T2].
  split; [by transitivity auth1|]. intros t. by rewrite T2, T1.
Qed.

Lemma mark_success_credential result wt key now auth : keys_normal auth → normal key →
  credential_kept now auth (mark_success result wt key now auth) ∧ same_token auth (mark_success result wt key now auth).
Proof.
  intros Hk Hn. unfold mark_success. destruct Hn as [Hc Hne]. rewrite (proj2 (String.eqb_neq _ _) Hne). cbn [negb].
  destruct (reset_credential auth key now Hk (conj Hc Hne)) as [K1 T1]. destruct wt; [done|].
  assert (∀ b, credential_kept now auth b → same_token auth b →
    credential_kept now auth (clear_error (updateAggregatedAvailability b now) now)
    ∧ same_token auth (clear_error (updateAggregatedAvailability b now) now)) as Hup.
  { intros b Kb Tb. destruct (aggregate_credential b now) as [K2 T2], (clear_error_credential (updateAggregatedAvailability b now) now) as [K3 T3].
    split; [by transitivity b; [|transitivity (updateAggregatedAvailability b now)]|]. intros t. by rewrite T3, T2, Tb. }
  destruct (_ && _); [done|]. destruct (_ || _); [done|]. destruct (CountTokens result); by apply Hup.
Qed.

Lemma failure_fields_credential result wt dis key now saved auth s : CredentialScope result = false →
  ∃ text, (model_failure_fields result wt dis key now saved auth s).1 = auth <| StatusMessage := text |>.
Proof.
  intros Hs. assert (auth = auth <| StatusMessage := StatusMessage auth |>) as Ha by by destruct auth.
  unfold model_failure_fields. destruct (isModelSupportResultError _); [by eexists|].
  destruct (isCloudflareChallengeResultError _); [destruct (nextCloudflareCooldown _ _ _), (_ && _); by eexists|].
  destruct (isInvalidGrantResultError _); [by eexists|]. destruct (bool_decide _); [by eexists|]. destruct (_ =? 404); [by eexists|].
  destruct (_ =? 429); [|by eexists]. pose proof (quota_failure_own result wt dis key now saved auth s Hs) as Hq.
  destruct (model_quota_failure _ _ _ _ _ _ _ _) as [a' s']. destruct Hq as (->&_). by eexists.
Qed.
Lemma mark_failure_credential result wt key now seq auth : keys_normal auth → normal key → CredentialScope result = false →
  credential_kept now auth (mark_failure result wt key now seq auth) ∧ same_token auth (mark_failure result wt key now seq auth).
Proof.
  intros Hk Hn Hs. unfold mark_failure. pose proof Hn as [_ Hne]. rewrite (proj2 (String.eqb_neq _ _) Hne). cbn [negb].
  destruct (shouldSkipCredentialCooldown _); [done|]. unfold mark_model_failure. rewrite ensure_normal by done.
  set (s0 := default _ _). set (auth1 := auth <| ModelStates := _ |>).
  assert (credential_kept now auth auth1 ∧ same_token auth auth1) as [K1 T1].
  { pose proof (put_credential auth key s0 now Hn) as Hput. by rewrite put_normal in Hput by done. }
  clearbody auth1. rewrite Hs. cbn [andb]. cbv zeta. set (dis := if force_cooldown _ then _ else _).
  match goal with |- context [match R_Error result with Some e => _ | None => (auth1, ?s) end] => set (s3 := s) end.
  assert (∃ auth2 s4, (match R_Error result with
     | Some e => (if wt then auth1 else auth1 <| LastError := Some e |> <| StatusMessage := E_Message e |>,
                  s3 <| M_LastError := Some e |> <| M_StatusMessage := E_Message e |>)
     | None => (auth1, s3) end) = (auth2, s4)
     ∧ credential_kept now auth1 auth2 ∧ same_token auth1 auth2) as (auth2&s4&->&K2&T2).
  { destruct (R_Error result); do 2 eexists; (split; [reflexivity|]); by destruct wt. }
  match goal with |- context [model_failure_fields ?r ?w ?d ?k ?n ?sv auth2 s4] =>
    destruct (failure_fields_credential r w d k n sv auth2 s4 Hs) as [text Ht]; destruct (model_failure_fields r w d k n sv auth2 s4) as [auth3 s5] end.
  cbn [fst] in Ht. set (s7 := if own_layer_pending _ _ _ then _ else _). clearbody s7.
  destruct (put_credential auth3 key s7 now Hn) as [K4 T4]. set (auth4 := put_state auth3 key s7) in *.
  assert (credential_kept now auth2 auth3 ∧ same_token auth2 auth3) as [K3 T3] by (by rewrite Ht). clearbody auth4.
  set (auth5 := auth4 <| A_Status := StatusError |>).
  assert (credential_kept now auth4 auth5 ∧ same_token auth4 auth5) as [K5 T5] by done. clearbody auth5.
  destruct (aggregate_credential auth5 now) as [K6 T6]. split; [|intros t; by rewrite T6, T5, T4, T3, T2, T1].
  by do 5 (etransitivity; [eassumption|]).
Qed.

Lemma rejected_token_credential auth token now : credential_kept now auth (recordRejectedTokenOnAuth auth token).1.
Proof.
  unfold recordRejectedTokenOnAuth. destruct (String.eqb (TrimSpace token) ""); [done|].
  destruct (negb (String.eqb (authSIWCTokenField (Some auth) "access_token") "") && _ && _); cbv iota beta;
    match goal with |- context [if ?b then _ else _] => destruct b end; done.
Qed.
Lemma mark_unauthorized_credential result wt now auth :
  credential_kept now auth (mark_unauthorized result wt now auth).1
  ∧ (unauthorized_failure result = false → same_token auth (mark_unauthorized result wt now auth).1).
Proof.
  unfold mark_unauthorized. set (rejected := if unauthorized_failure result then _ else auth).
  assert (credential_kept now auth rejected ∧ (unauthorized_failure result = false → same_token auth rejected)) as [K T].
  { unfold rejected. destruct (unauthorized_failure result); [by split; [apply rejected_token_credential|]|done]. }
  clearbody rejected. destruct wt; [by split; [transitivity rejected|]|]. destruct (_ && _); [|done].
  destruct (IsZero _); [|done]. by split; [transitivity rejected|].
Qed.
Lemma observe_credential result key headers now auth : normal key →
  credential_kept now auth (observe result key headers now auth) ∧ same_token auth (observe result key headers now auth).
Proof.
  intros Hn. unfold observe. destruct (SkipQuotaObservation result); [done|]. set (noted := auth <| Quota := _ |>).
  destruct (observed_quota result headers now (Quota auth)) as (He&Hr&Hx&_).
  assert (credential_kept now auth noted ∧ same_token auth noted) as [K T].
  { split; [|done]. split; try done. unfold credential_wrap, noted. cbn. by rewrite He, Hr, Hx. }
  clearbody noted. destruct (existingModelState noted key); [|done]. set (s' := _ <| M_Quota := _ |>).
  destruct (put_credential noted key s' now Hn) as [K2 T2]. split; [by transitivity noted|]. intros t. by rewrite T2, T.
Qed.

Lemma mark_auth_credential result key headers seq now auth :
  keys_normal auth → normal key → CredentialScope result = false →
  let auth' := (mark_auth result key headers seq now auth).1 in
  credential_kept now auth auth' ∧ (unauthorized_failure result = false → same_token auth auth').
Proof.
  intros Hk Hn Hs auth'. unfold auth', mark_auth, mark_outcome. set (counted := mark_counters result now auth).
  assert (credential_kept now auth counted ∧ same_token auth counted ∧ keys_normal counted) as (K1&T1&Hkc).
  { unfold counted, mark_counters. by case_match. }
  clearbody counted. set (wt := hasUnauthorizedAuthFailure _). set (marked := if R_Success result then _ else _).
  assert (credential_kept now counted marked ∧ same_token counted marked) as [K2 T2].
  { unfold marked. destruct (R_Success result); [by apply mark_success_credential|by apply mark_failure_credential]. }
  clearbody marked. destruct (mark_unauthorized_credential result wt now marked) as [K3 T3].
  destruct (mark_unauthorized result wt now marked) as [refused refresh]. cbn [fst] in *.
  set (bumped := (bump_generation refused) <| UpdatedAt := now |>).
  assert (credential_kept now refused bumped ∧ same_token refused bumped) as [K4 T4] by done. clearbody bumped.
  destruct (observe_credential result key headers now bumped Hn) as [K5 T5]. split; [by do 4 (etransitivity; [eassumption|])|].
  intros Hu t. by rewrite T5, T4, (T3 Hu), T2, T1.
Qed.

Lemma kept_gates now a b t :
  credential_kept now a b → same_token a b → Disabled a = true ∨ A_Status a ≠ StatusDisabled →
  hasUnauthorizedAuthFailure (Some b) = hasUnauthorizedAuthFailure (Some a) → now ≤ t → gates b t = gates a t.
Proof.
  intros Hk Ht Hd Hu Hle. destruct (kept_quota_at now a b t Hk Hle) as [Hq Hx]. destruct Hk as [D S _ _ _].
  unfold gates. rewrite D, Hu, Ht, Hq. assert (Disabled a || bool_decide (A_Status b = StatusDisabled) = Disabled a || bool_decide (A_Status a = StatusDisabled)) as ->.
  { destruct Hd as [->|Hd]; [done|]. rewrite !bool_decide_false; auto. }
  destruct (_ || _); [done|]. destruct (hasUnauthorizedAuthFailure (Some a)); [done|]. destruct (token_expired (Some a) t); [done|].
  destruct (credential_quota a t) eqn:Eq; [|done]. by rewrite (Hx eq_refl).
Qed.

(** C32: A result reported on one named model of a well-formed credential, success or failure, leaves every other model
    of the credential as available as it was, from that moment on; only a
    credential-wide failure reaches the others.  In three layers: the states kept for another
    model give the same answer; a credential-wide quota is neither begun nor ended nor moved;
    and so [isAuthBlockedForModel] gives the same answer for every other model of a
    credential that keeps states at all - unless its status was disabled without the flag
    (a result revives it), or the failure was an unauthorized one, or leaves the credential
    terminally unauthorized: these close the credential for every model, as they mean to.
    (Before there is any state the answer comes from the credential's own fields, with the
    first state it comes from the states.) *)
Theorem results_isolated (result : Result) (modelKey : string) (headers : Header) (seq now : Z) (auth : Auth)
    (Hnow : 0 ≤ now) (Hkeys : keys_normal auth) (Hkey : normal modelKey) (Hwf : auth_wf auth)
    (Hown : CredentialScope result = false) :
  let auth' := (mark_auth result modelKey headers seq now auth).1 in
  (∀ model t, canonicalModelKey model ≠ modelKey → now ≤ t →
    summary (state_block t <$> matching (canonicalModelKey model) (map_to_list (ModelStates auth')))
    = summary (state_block t <$> matching (canonicalModelKey model) (map_to_list (ModelStates auth))))
  ∧ (∀ t, now ≤ t → credential_quota auth' t = credential_quota auth t
      ∧ (credential_quota auth t = true → Q_NextRecoverAt (Quota auth') = Q_NextRecoverAt (Quota auth)))
  ∧ (ModelStates auth ≠ ∅ → Disabled auth = true ∨ A_Status auth ≠ StatusDisabled →
     unauthorized_failure result = false → hasUnauthorizedAuthFailure (Some auth') = hasUnauthorizedAuthFailure (Some auth) →
     ∀ model t, model ≠ "" → canonicalModelKey model ≠ modelKey → now ≤ t →
       auth_block (Some auth') model t = auth_block (Some auth) model t
       ∧ is_blocked (isAuthBlockedForModel (Some auth') model t) = is_blocked (isAuthBlockedForModel (Some auth) model t)).
Proof.
  intros auth'. pose proof (mark_auth_others result modelKey headers seq now auth Hnow Hkeys Hkey Hwf Hown) as Ho. fold auth' in Ho.
  destruct (mark_auth_credential result modelKey headers seq now auth Hkeys Hkey Hown) as [Hk Ht]. fold auth' in Hk, Ht. clearbody auth'.
  split_and!; [intros model t Hm Hle; by apply (others_kept_model now modelKey)|intros t Hle; by apply (kept_quota_at now)|].
  intros Hne Hd Hf Hu model t Hmod Hm Hle. rewrite !auth_block_blocked.
  assert (auth_block (Some auth') model t = auth_block (Some auth) model t) as E; [|by rewrite E].
  rewrite !auth_block_eq by lia. rewrite (kept_gates now auth auth' t) by auto. destruct (gates auth t); [done|].
  pose proof (ck_states _ _ _ Hk Hne) as Hne'. rewrite (proj2 (String.eqb_neq _ _) Hmod), !bool_decide_false by done. cbn [orb].
  by apply (others_kept_model now modelKey).
Qed.

(** ** The failing model itself *)

Lemma expire_running s now : now < M_NextRetryAfter s → expire_state now s = s.
Proof.
  intros Hr. unfold expire_state, After. rewrite (proj2 (Z.ltb_lt _ _) Hr). by rewrite andb_false_r.
Qed.

Lemma aggregate_lookup auth now k s :
  ModelStates auth !! k = Some (Some s) → now < M_NextRetryAfter s →
  ModelStates (updateAggregatedAvailability auth now) !! k = Some (Some s).
Proof.
  intros Hs Hr. destruct (updateAggregatedAvailability_states auth now) as [-> | ->]; [done|].
  rewrite lookup_fmap, Hs. simpl. by rewrite expire_running.
Qed.

Lemma canonical_nonempty model : canonicalModelKey model ≠ "" → model ≠ "".
Proof. intros H ->. by apply H. Qed.

(** A result that counts, up to the notes no test sees. *)
Lemma failure_outcome result key seq now auth :
  R_Success result = false → shouldSkipCredentialCooldown (R_Error result) = false → key ≠ "" →
  let counted := mark_counters result now auth in
  mark_outcome result key seq now auth =
    mark_unauthorized result (hasUnauthorizedAuthFailure (Some counted)) now
      (mark_model_failure result (hasUnauthorizedAuthFailure (Some counted)) key now seq counted).
Proof.
  intros Hf Hc Hk. unfold mark_outcome, mark_failure. rewrite Hf, Hc.
  by rewrite (proj2 (String.eqb_neq _ _) Hk).
Qed.

Lemma counted_fields result now auth :
  let counted := mark_counters result now auth in
  ModelStates counted = ModelStates auth ∧ Quota counted = Quota auth
  ∧ (cooling_on result auth → cooling_on result counted)
  ∧ (keys_normal auth → keys_normal counted) ∧ (auth_wf auth → auth_wf counted)
  ∧ credential_wrap counted now = credential_wrap auth now
  ∧ hasUnauthorizedAuthFailure (Some counted) = hasUnauthorizedAuthFailure (Some auth).
Proof. unfold mark_counters. by case_match. Qed.

(** The credential refuses the model until a deadline that is no earlier than a
    cooldown of the model that was running. *)
Definition refused_until_deadline (auth auth' : Auth) (modelKey : string) (now : time) : Prop :=
  ∃ deadline, now < deadline
  ∧ (∀ s, existingModelState auth modelKey = Some s → wrapped s = false ∨ credential_wrap auth now = true →
       now < M_NextRetryAfter s → M_NextRetryAfter s ≤ deadline)
  ∧ ∀ model t, canonicalModelKey model = modelKey → now ≤ t < deadline →
      is_blocked (isAuthBlockedForModel (Some auth') model t) = true.

Lemma model_failure_until (result : Result) (modelKey : string) (headers : Header) (seq now : Z) (auth : Auth)
    (Hnow : 0 ≤ now) (Hkeys : keys_normal auth) (Hkey : normal modelKey)
    (Hfailure : R_Success result = false) (Hcounts : shouldSkipCredentialCooldown (R_Error result) = false)
    (Hown : CredentialScope result = false) (Hcool : cooling_on result auth) (Htransient : transient_cooling) :
  refused_until_deadline auth (mark_auth result modelKey headers seq now auth).1 modelKey now.
Proof.
  set (auth' := (mark_auth result modelKey headers seq now auth).1).
  destruct (counted_fields result now auth) as (Hm&_&Hcc&Hkc&_&Hwc&_).
  set (counted := mark_counters result now auth) in *.
  set (wt := hasUnauthorizedAuthFailure (Some counted)).
  destruct (mark_model_failure_own result wt modelKey now seq counted (Hkc Hkeys) Hkey Hown)
    as (a&s'&Ea&Hma&_&Hs'). destruct (Hs' (Hcc Hcool) Htransient Hnow) as (Hu&_&Hr&Hrun).
  rewrite existing_normal, Hm, <-existing_normal in Hrun by done. setoid_rewrite Hwc in Hrun.
  exists (M_NextRetryAfter s'). split; [done|]. split; [done|]. intros model t Hmodel Ht.
  rewrite auth_block_blocked. unfold auth'.
  rewrite (same_availability_block _ _ model t ltac:(lia) (mark_auth_same result modelKey headers seq now auth)).
  rewrite <-auth_block_blocked, failure_outcome by (done || apply Hkey). fold counted wt. rewrite Ea.
  destruct (mark_unauthorized_fields result wt now (updateAggregatedAvailability a now)) as (Hmu&_&_).
  apply (blocked_by_state _ model t modelKey s'); [lia| |by destruct Hkey; congruence| |].
  - rewrite Hmu. apply aggregate_lookup; [|done]. by rewrite Hma, lookup_insert_eq.
  - apply canonical_nonempty. rewrite Hmodel. apply Hkey.
  - apply state_until_blocked; [lia|done|lia].
Qed.

(** A failure that counts keeps the failing model off: until a deadline in the
    future, and no earlier than a cooldown of that model that was running, no
    request for the model is served by the credential. *)
Theorem model_failure_blocks (result : Result) (modelKey : string) (headers : Header) (seq now : Z) (auth : Auth)
    (Hnow : 0 ≤ now) (Hkeys : keys_normal auth) (Hkey : normal modelKey)
    (Hfailure : R_Success result = false) (Hcounts : shouldSkipCredentialCooldown (R_Error result) = false)
    (Hown : CredentialScope result = false) (Hcool : cooling_on result auth) (Htransient : transient_cooling) :
  refused_until_deadline auth (mark_auth result modelKey headers seq now auth).1 modelKey now.
Proof. by apply model_failure_until. Qed.
End proofs.

(** ** The theorems at concrete results *)

Section examples.
#[local] Existing Instance no_host.
#[local] Existing Instance no_gjson.
#[local] Existing Instance default_settings.

Definition reported (ok : bool) (err : option Error) : Result :=
  mkResult "a" "codex" "gpt-5" "" ok false None false err true "" 0 0 3.
Definition rate_limited_model : Auth := (mark_auth (reported false (Some rate_limit_error)) "gpt-5" [] 4 noon two_models).1.

Lemma normal_gpt5 : normal "gpt-5".
Proof. split; [by vm_compute|done]. Defined.
Lemma two_models_normal : keys_normal two_models.
Proof.
  intros k [o Hk]. unfold two_models in Hk. simpl in Hk.
  apply lookup_insert_Some in Hk as [[<- _]|[_ Hk]]; [apply normal_gpt5|].
  apply lookup_singleton_Some in Hk as [<- _]. split; [by vm_compute|done].
Defined.
Lemma two_models_wf : auth_wf two_models.
Proof.
  split; [by vm_compute|]. intros k s Hk. unfold two_models in Hk. simpl in Hk.
  apply lookup_insert_Some in Hk as [[_ [= <-]]|[_ Hk]]; [|apply lookup_singleton_Some in Hk as [_ [= <-]]];
    by vm_compute.
Defined.

Lemma stale_success_keeps_cooldown_witness :
  let auth' := (mark_auth (reported true None) "gpt-5" [] 4 (noon + 1) rate_limited_model).1 in
  auth_block (Some auth') "gpt-5" (noon + 2) = (true, blockReasonCooldown, 1001 * Second).
Proof.
  assert (∃ s, existingModelState rate_limited_model "gpt-5" = Some s
    ∧ isModelStateActiveCooldown (Some s) (noon + 1) = true ∧ ExecutionSeq (reported true None) ≤ cooldownRecordedSeq s)
    as (s&Hs&Ha&Hle).
  { destruct (existingModelState rate_limited_model "gpt-5") as [s|] eqn:E; [|by vm_compute in E].
    exists s. split; [done|]. vm_compute in E. injection E as <-. split; [by vm_compute|by vm_compute]. }
  pose proof (stale_success_keeps_cooldown (reported true None) "gpt-5" [] 4 (noon + 1) rate_limited_model eq_refl
    ltac:(by vm_compute) ltac:(by vm_compute) 
    ltac:(left; exists s; split; [exact Hs|]; split; [discriminate|]; split; [exact Ha|exact Hle])) as H.
  cbn zeta in H |- *. rewrite H by (by vm_compute). by vm_compute.
Defined.

Lemma excused_failure_neutral_witness :
  let auth' := (mark_auth (reported false (Some bad_request_error)) "gpt-5" [] 4 noon two_models).1 in
  auth_block (Some auth') "gpt-5" 100 = (true, blockReasonCooldown, 500).
Proof.
  pose proof (excused_failure_neutral (reported false (Some bad_request_error)) "gpt-5" [] 4 noon two_models eq_refl
    ltac:(by vm_compute) ltac:(by vm_compute)) as H.
  destruct (mark_auth _ _ _ _ _ _) as [auth' refresh]. destruct H as [_ H]. cbn zeta. simpl.
  rewrite H by done. by vm_compute.
Defined.

Lemma results_isolated_witness :
  is_blocked (isAuthBlockedForModel (Some rate_limited_model) "gpt-4" noon) = is_blocked (isAuthBlockedForModel (Some two_models) "gpt-4" noon)
  ∧ credential_quota rate_limited_model noon = credential_quota two_models noon.
Proof.
  destruct (results_isolated (reported false (Some rate_limit_error)) "gpt-5" [] 4 noon two_models
    ltac:(by vm_compute) two_models_normal normal_gpt5 two_models_wf eq_refl) as (_ & Hq & H).
  assert (ModelStates two_models ≠ ∅) as Hne by (unfold two_models; simpl; apply insert_non_empty).
  assert (Disabled two_models = true ∨ A_Status two_models ≠ StatusDisabled) as Hd by (right; by vm_compute).
  specialize (H Hne Hd ltac:(vm_compute; reflexivity) ltac:(vm_compute; reflexivity) "gpt-4" noon).
  split; [apply H; [done| |done]|apply Hq; done]. assert (canonicalModelKey "gpt-4" = "gpt-4") as -> by (by vm_compute). done.
Defined.

Lemma model_failure_blocks_witness :
  ∃ deadline, noon < deadline
  ∧ is_blocked (isAuthBlockedForModel (Some rate_limited_model) "gpt-5(high)" noon) = true.
Proof.
  assert (transient_cooling) as Ht by (unfold transient_cooling; simpl; lia).
  assert (cooling_on (reported false (Some rate_limit_error)) two_models) as Hc by (right; by vm_compute).
  destruct (model_failure_blocks (reported false (Some rate_limit_error)) "gpt-5" [] 4 noon two_models
    ltac:(by vm_compute) two_models_normal normal_gpt5 eq_refl ltac:(by vm_compute) eq_refl Hc Ht)
    as (deadline&Hd&_&H).
  exists deadline. split; [done|]. apply H; [by vm_compute|lia].
Defined.
End examples.
