(* ===== verification/ResultInvariant.v ===== *)
(** * The invariant that results keep

    Every quota of a credential, of its models and of the cooldowns kept below a
    credential-wide one, is exceeded exactly while it has a recovery time
    ([auth_wf]), and every state is filed under its canonical key ([keys_normal]).
    Each branch of [mark_auth] keeps both, with cooling on or off. *)
From Stdlib Require Import ZArith Lia Ascii String Bool.
From stdpp Require Import prelude gmap strings.
From S2P Require Import Prelude GoStd AuthTypes Errors Json Classify Availability AvailabilityEquiv QuotaSignals Cooldown ExecutionResult ResultProofs.
Local Open Scope string_scope.
Local Open Scope list_scope.
Local Open Scope Z_scope.

(** ** Quotas *)

Lemma quota_wf_same q q' :
  Q_Exceeded q' = Q_Exceeded q → Q_NextRecoverAt q' = Q_NextRecoverAt q → quota_wf q → quota_wf q'.
Proof. unfold quota_wf. by intros -> ->. Qed.

Lemma quota_wf_fields q reason next level observed signals :
  0 < next → quota_wf (applyCooldownFields q (mkQuota true reason next level observed signals)).
Proof.
  unfold quota_wf, IsZero. simpl. intros H. destruct (Z.eqb_spec next 0); [lia|]. split; [done|lia].
Qed.

Lemma quota_wf_cleared q : quota_wf (applyCooldownFields q zeroQuota).
Proof. done. Qed.

Lemma quota_wf_retracted q : Q_NextRecoverAt q = 0 → quota_wf (q <| Q_Exceeded := false |>).
Proof. unfold quota_wf, IsZero. simpl. by intros ->. Qed.

(** With cooling off a failure may leave a quota exceeded and without a recovery
    time; the corrections after the switch take it back. *)
Definition settling (disable : bool) (q : QuotaState) (retry : time) : Prop :=
  quota_wf q ∨ (disable = true ∧ retry = 0 ∧ Q_NextRecoverAt q = 0).

Lemma settling_written disable q reason next level retry :
  (disable = false → 0 < next) → (disable = true → next = 0 ∧ retry = 0) →
  settling disable (applyCooldownFields q (mkQuota true reason next level 0 ∅)) retry.
Proof.
  intros Hon Hoff. destruct disable; [right|left; by apply quota_wf_fields; auto].
  destruct (Hoff eq_refl) as [-> ->]. done.
Qed.

(** ** States *)

Lemma state_wf_quota s s' :
  M_Quota s' = M_Quota s → credentialQuotaShadow s' = credentialQuotaShadow s → state_wf s → state_wf s'.
Proof. unfold state_wf. by intros -> ->. Qed.

Lemma state_wf_clone s : state_wf s → state_wf (cloneShallow s).
Proof. intros [H _]. by split. Qed.

Lemma state_wf_reset s now : state_wf (resetModelState s now).
Proof. done. Qed.

Lemma state_wf_fresh : state_wf fresh_state.
Proof. done. Qed.

Lemma unwrap_expired_wf auth now s : state_wf s → state_wf (unwrap_expired auth now s).
Proof.
  intros [Hq Hs]. unfold unwrap_expired. destruct (_ && _); [|done].
  destruct (credentialQuotaShadow s) as [shadow|]; [|apply state_wf_reset].
  destruct (isModelStateActiveCooldown _ _); [by split|apply state_wf_reset].
Qed.

Lemma expire_state_wf now s : state_wf s → state_wf (expire_state now s).
Proof. unfold expire_state. by case_match. Qed.

Lemma extend_open_pos q next : 0 < next → 0 < extend_open q next.
Proof. intros H. pose proof (extend_open_ge q next). lia. Qed.

Lemma propagate_quota_wf auth now next level s :
  0 < next → state_wf s → state_wf (propagate_quota auth now next level s).
Proof.
  intros Hn Hs. unfold propagate_quota. pose proof (unwrap_expired_wf auth now s Hs) as Hu.
  set (u := unwrap_expired auth now s) in *. clearbody u. cbv zeta.
  set (v := if wrapped u then u else _).
  assert (state_wf v) as [_ Hv].
  { unfold v. destruct (wrapped u); [done|]. destruct Hu as [Hq _]. split; [done|]. simpl.
    by destruct (_ && _). }
  clearbody v. split; [|exact Hv]. simpl. apply quota_wf_fields, extend_open_pos, Hn.
Qed.

(** ** Credentials *)

(** The states of a credential, at the keys a result does not speak of. *)
Definition states_wf (states : gmap string (option ModelState)) : Prop :=
  ∀ k s, states !! k = Some (Some s) → state_wf s.

Lemma auth_wf_split auth : auth_wf auth ↔ quota_wf (Quota auth) ∧ states_wf (ModelStates auth).
Proof. done. Qed.

Lemma states_wf_insert key s states : state_wf s → states_wf states → states_wf (<[key := Some s]> states).
Proof.
  intros Hs Hm k s' Hk. apply lookup_insert_Some in Hk as [[_ [= <-]]|[_ Hk]]; [done|by apply (Hm k)].
Qed.

Lemma states_wf_fmap f states :
  (∀ s, state_wf s → state_wf (f s)) → states_wf states → states_wf (option_map f <$> states).
Proof.
  intros Hf Hm k s. rewrite lookup_fmap. destruct (states !! k) as [[s0|]|] eqn:E; simpl; [|done|done].
  intros [= <-]. apply Hf. by apply (Hm k).
Qed.

Lemma states_wf_others key f auth :
  (∀ s, state_wf s → state_wf (f s)) → states_wf (ModelStates auth) →
  states_wf (ModelStates (other_states key f auth)).
Proof.
  intros Hf Hm k s. unfold other_states. simpl. rewrite map_lookup_imap.
  destruct (ModelStates auth !! k) as [[s0|]|] eqn:E; simpl; [|by case_match|done].
  destruct (String.eqb k key); intros [= <-]; [|apply Hf]; by apply (Hm k).
Qed.

(** The keys with a state. *)
Definition keys_of (auth : Auth) : gset string := dom (ModelStates auth).
Lemma keys_normal_dom auth : keys_normal auth ↔ ∀ k, k ∈ keys_of auth → normal k.
Proof. unfold keys_normal, keys_of. by setoid_rewrite elem_of_dom. Qed.

Lemma keys_of_others key f auth : keys_of (other_states key f auth) = keys_of auth.
Proof.
  unfold keys_of, other_states. simpl. apply set_eq. intros k. rewrite !elem_of_dom, map_lookup_imap.
  by destruct (ModelStates auth !! k); simpl; split; intros [? H]; eauto.
Qed.

(** A step that files at most one more state, under [key] when it names a model. *)
Definition files (key : string) (auth auth' : Auth) : Prop :=
  keys_of auth' ⊆ (if String.eqb key "" then ∅ else {[key]}) ∪ keys_of auth.
#[export] Instance files_preorder key : PreOrder (files key).
Proof. unfold files. split; [intros a; set_solver|intros a b c; set_solver]. Qed.

Lemma files_same key auth auth' : keys_of auth' = keys_of auth → files key auth auth'.
Proof. unfold files. intros ->. set_solver. Qed.
Lemma files_states key auth auth' : ModelStates auth' = ModelStates auth → files key auth auth'.
Proof. intros H. apply files_same. unfold keys_of. by rewrite H. Qed.
Lemma files_put key auth s : normal key → files key auth (put_state auth key s).
Proof.
  intros Hn. unfold files, keys_of. rewrite put_normal by done. simpl.
  rewrite dom_insert_L, (proj2 (String.eqb_neq _ _) (proj2 Hn)). set_solver.
Qed.

Lemma files_aggregate key auth now : files key auth (updateAggregatedAvailability auth now).
Proof.
  apply files_same. unfold keys_of. destruct (updateAggregatedAvailability_states auth now) as [-> | ->]; [done|].
  by rewrite dom_fmap_L.
Qed.

(** ** Aggregation keeps the invariant *)

Lemma aggregate_quota_wf now visit :
  (∀ s, Some s ∈ visit → quota_wf (M_Quota s)) →
  quotaExceeded (aggregate_of now visit) = negb (IsZero (quotaRecover (aggregate_of now visit)))
  ∧ 0 ≤ quotaRecover (aggregate_of now visit).
Proof.
  unfold aggregate_of. induction visit as [|o visit IH] using rev_ind; intros Hwf; [done|].
  rewrite fold_left_app. simpl. set (acc := fold_left _ visit _) in *.
  assert (quotaExceeded acc = negb (IsZero (quotaRecover acc)) ∧ 0 ≤ quotaRecover acc) as [Hacc H0].
  { apply IH. intros s Hs. apply Hwf, elem_of_app. by left. }
  destruct o as [s | ]; [|done]. assert (quota_wf (M_Quota s)) as [Hs Hr].
  { apply Hwf, elem_of_app. right. by left. }
  unfold aggregate_step. cbn [quotaExceeded quotaRecover]. rewrite Hacc.
  destruct (Q_Exceeded (M_Quota s)); [|by rewrite orb_false_r].
  rewrite orb_true_r. simpl. destruct (IsZero (quotaRecover acc)) eqn:Ez; simpl; [done|].
  rewrite <-Hs. simpl. destruct (Before _ _); [done|by rewrite Ez].
Qed.

Lemma updateAggregatedAvailability_wf auth now :
  auth_wf auth → auth_wf (updateAggregatedAvailability auth now).
Proof.
  intros Ha. pose proof Ha as [Hq Hm]. unfold updateAggregatedAvailability, updateAggregatedAvailability_in.
  destruct (hasUnauthorizedAuthFailure _); [done|]. destruct (credential_wrap _ _); [done|].
  set (visit := (map_to_list (ModelStates auth)).*2).
  assert (quotaExceeded (aggregate_of now visit) = negb (IsZero (quotaRecover (aggregate_of now visit)))
          ∧ 0 ≤ quotaRecover (aggregate_of now visit)) as [Hagg H0].
  { apply aggregate_quota_wf. intros s Hs. apply list_elem_of_fmap in Hs as ([k o]&E&Hin). simpl in E. subst.
    apply elem_of_map_to_list in Hin. apply (Hm k s Hin). }
  destruct (negb (hasState _)); [by split|]. cbv zeta.
  assert (states_wf (option_map (expire_state now) <$> ModelStates auth)) as Hs.
  { apply states_wf_fmap; [apply expire_state_wf|exact Hm]. }
  destruct (quotaExceeded (aggregate_of now visit)).
  - split; [|exact Hs]. apply (quota_wf_fields _ "quota" _ (maxBackoffLevel (aggregate_of now visit)) 0 ∅).
    unfold After, IsZero, zero_time in *. symmetry in Hagg. to_prop. case_match; to_prop; lia.
  - destruct (_ && _); (split; [|exact Hs]); [exact Hq|done].
Qed.

(** ** Failures keep the invariant *)

Section failures.
Context {gh : GoHost} {gj : Gjson} {st : Settings}.

Lemma model_quota_deadline_after result auth state now :
  now < (model_quota_deadline result auth state now).1.
Proof.
  unfold model_quota_deadline. cbv zeta. destruct (RetryAfter result) as [d | ].
  - simpl. unfold Add, minQuotaCooldownFloor, Second. case_match; to_prop; lia.
  - apply quotaCooldownAfterFailure_after.
Qed.

(** The layer below a credential-wide quota. *)
Definition shadow_wf (shadow : option ModelState) : Prop :=
  match shadow with Some sh => quota_wf (M_Quota sh) | None => True end.

Lemma reporting_shadow_wf result state saved previous now :
  shadow_wf (credentialQuotaShadow state) → state_wf saved →
  shadow_wf (reporting_shadow result state saved previous now).
Proof.
  intros Hs [Hq _]. unfold reporting_shadow. destruct (negb _); [done|].
  destruct (_ && _); [|done]. by destruct (_ && _).
Qed.

(** What a branch of the failure handler leaves: a well-formed credential and a
    state whose own quota may still have to be settled. *)
Definition failed_wf (disable : bool) (out : Auth * ModelState) : Prop :=
  auth_wf out.1 ∧ settling disable (M_Quota out.2) (M_NextRetryAfter out.2)
  ∧ shadow_wf (credentialQuotaShadow out.2).

Lemma failed_wf_kept disable auth auth' s s' :
  auth_wf auth → Quota auth' = Quota auth → ModelStates auth' = ModelStates auth →
  state_wf s → M_Quota s' = M_Quota s → credentialQuotaShadow s' = credentialQuotaShadow s →
  failed_wf disable (auth', s').
Proof.
  intros [Hq Hm] Hq' Hm' [Hs Hsh] Hqs Hss. unfold failed_wf, auth_wf, settling. simpl.
  rewrite Hq', Hm', Hqs, Hss. split_and!; [done|done|by left|done].
Qed.

Lemma quota_failure_wf result wt disable key now saved auth state :
  0 ≤ now → auth_wf auth → state_wf state → state_wf saved →
  failed_wf disable (model_quota_failure result wt disable key now saved auth state).
Proof.
  intros H0 [Hq Hm] Hs Hsaved. unfold model_quota_failure.
  pose proof (model_quota_deadline_after result auth state now) as Hd.
  destruct (if disable then _ else model_quota_deadline result auth state now) as [next level] eqn:E.
  assert (disable = false → now < next) as Hn by (intros ->; by rewrite E in Hd).
  clear E Hd. cbv zeta.
  set (retry := if disable then zero_time else _).
  assert (settling disable (applyCooldownFields (M_Quota state) (mkQuota true "quota" retry level 0 ∅)) retry) as Hset.
  { apply settling_written; [|by intros ->]. intros ->. apply extend_open_pos. specialize (Hn eq_refl). lia. }
  set (written := state <| M_NextRetryAfter := retry |> <| M_Quota := _ |>).
  pose proof (reporting_shadow_wf result written saved (M_NextRetryAfter state) now (proj2 Hs) Hsaved) as Hsh.
  set (shadow := reporting_shadow _ _ _ _ _) in *.
  assert (failed_wf disable (auth, written <| credentialQuotaShadow := shadow |>)) as Hkeep by (by split).
  clearbody shadow retry.
  destruct (CredentialScope result && negb disable) eqn:Esc; [|exact Hkeep].
  apply andb_true_iff in Esc as [_ Hdis]. apply negb_true_iff in Hdis. specialize (Hn Hdis).
  set (others := other_states key _ auth).
  assert (states_wf (ModelStates others)) as Ho.
  { apply states_wf_others; [|exact Hm]. intros s. apply propagate_quota_wf. lia. }
  assert (Quota others = Quota auth) as Eq by done. clearbody others.
  destruct wt; destruct Hkeep as (_&Hx&Hy).
  - split; [|by split]. simpl. by split; [rewrite Eq|].
  - split; [|by split]. split; [|exact Ho]. simpl. apply quota_wf_fields.
    destruct (quota_held others && After (Q_NextRecoverAt (Quota others)) next) eqn:Eh; [|lia].
    apply andb_true_iff in Eh as [_ Eh]. apply Z.ltb_lt in Eh. lia.
Qed.

Lemma failure_fields_wf result wt disable key now saved auth state :
  0 ≤ now → auth_wf auth → state_wf state → state_wf saved →
  failed_wf disable (model_failure_fields result wt disable key now saved auth state).
Proof.
  intros H0 Ha Hs Hsaved. unfold model_failure_fields. cbv zeta.
  destruct (isModelSupportResultError _); [by apply (failed_wf_kept _ auth _ state)|].
  destruct (isCloudflareChallengeResultError _).
  { pose proof (cloudflare_after (Q_BackoffLevel (M_Quota state)) now) as Hc.
    destruct (nextCloudflareCooldown _ disable now) as [next level] eqn:E.
    split; [by case_match|]. destruct Hs as [_ Hsh]. split; [|exact Hsh]. simpl.
    apply settling_written; intros ->; [rewrite E in Hc; simpl in Hc; lia|]. by injection E as <- _. }
  destruct (isInvalidGrantResultError _); [by apply (failed_wf_kept _ auth _ state)|].
  destruct (bool_decide _); [by apply (failed_wf_kept _ auth _ state)|].
  destruct (_ =? 404); [by apply (failed_wf_kept _ auth _ state)|].
  destruct (_ =? 429); [by apply quota_failure_wf|].
  by apply (failed_wf_kept _ auth _ state).
Qed.

Lemma settle_state_wf result disable previous now seq s :
  settling disable (M_Quota s) (M_NextRetryAfter s) →
  shadow_wf (credentialQuotaShadow s) →
  state_wf (settle_state result disable previous now seq s).
Proof.
  intros Hq Hsh. unfold settle_state. cbv zeta.
  set (taken := if disable && _ && _ then _ else s).
  assert (quota_wf (M_Quota taken) ∧ credentialQuotaShadow taken = credentialQuotaShadow s) as [Hw He].
  { unfold taken. destruct Hq as [Hq|(->&->&Hr)].
    - destruct (_ && _) eqn:E; [|done]. split; [|done]. simpl. unfold IsZero in E. to_prop.
      by apply quota_wf_retracted.
    - rewrite Hr. simpl. split; [|done]. by apply quota_wf_retracted. }
  clearbody taken. destruct (_ && _); (split; simpl; [exact Hw|by rewrite He]).
Qed.

Lemma compose_layers_wf auth saved own now seq :
  0 < Q_NextRecoverAt (Quota auth) → state_wf saved → state_wf own →
  state_wf (compose_layers auth saved own now seq).
Proof.
  intros Hr [Hs _] [Ho _]. unfold compose_layers. cbv zeta.
  set (shadow := if isModelStateActiveCooldown _ now then _ else None).
  assert (shadow_wf shadow) as Hsh
    by (unfold shadow; by destruct (isModelStateActiveCooldown _ _)).
  clearbody shadow.
  repeat match goal with |- context [if After ?x ?y then _ else _] => destruct (After x y) end; simpl;
    match goal with |- context [if ?b then _ else _] => destruct b end;
    (split; [|exact Hsh]); first [exact Hs|by apply quota_wf_fields].
Qed.

Lemma pending_recover result auth now :
  0 ≤ now → own_layer_pending result auth now = true → now < Q_NextRecoverAt (Quota auth).
Proof. unfold own_layer_pending, After. intros H0 H. to_prop. lia. Qed.

(** Only a credential-wide quota writes the credential's own quota, and none lowers
    its recovery time. *)
Lemma failure_fields_recover result wt disable key now saved auth state :
  0 ≤ now → own_layer_pending result auth now = true →
  now < Q_NextRecoverAt (Quota (model_failure_fields result wt disable key now saved auth state).1).
Proof.
  intros H0 Hp. pose proof (pending_recover result auth now H0 Hp) as Hr.
  assert (CredentialScope result = false) as Hs by (unfold own_layer_pending in Hp; by to_prop).
  pose proof (failure_fields_own result wt disable key now saved auth state Hs) as Hf.
  destruct (model_failure_fields _ _ _ _ _ _ _ _) as [a s]. destruct Hf as (_&Hq&_). simpl. by rewrite Hq.
Qed.

Lemma existing_wf auth key s : auth_wf auth → existingModelState auth key = Some s → state_wf s.
Proof.
  intros [_ Hm]. unfold existingModelState. case_match; [done|].
  destruct (ModelStates auth !! canonicalModelKey key) as [o | ] eqn:E; [|done]. simpl. intros ->. by apply (Hm _ _ E).
Qed.

Lemma put_state_wf auth key s : auth_wf auth → state_wf s → auth_wf (put_state auth key s).
Proof. intros [Hq Hm] Hs. split; [done|]. by apply states_wf_insert. Qed.

(** The state a result works on, whether it was there or not. *)
Lemma ensured_wf auth key :
  keys_normal auth → normal key → auth_wf auth →
  ∃ s, ensureModelState auth key = (put_state auth key s, Some s) ∧ state_wf s.
Proof.
  intros Hk Hn Ha. exists (default fresh_state (existingModelState auth key)).
  rewrite ensure_normal, put_normal by done. split; [done|].
  destruct (existingModelState auth key) as [s | ] eqn:E; [by eapply existing_wf|apply state_wf_fresh].
Qed.

Lemma mark_model_failure_wf result wt key now seq auth :
  0 ≤ now → keys_normal auth → normal key → auth_wf auth →
  auth_wf (mark_model_failure result wt key now seq auth).
Proof.
  intros H0 Hk Hn Ha. unfold mark_model_failure.
  destruct (ensured_wf auth key Hk Hn Ha) as (s0&->&Hs0).
  pose proof (put_state_wf auth key s0 Ha Hs0) as Ha1. set (auth1 := put_state auth key s0) in *. clearbody auth1.
  cbv zeta. set (s1 := unwrap_expired auth1 now s0).
  pose proof (unwrap_expired_wf auth1 now s0 Hs0) as Hs1. fold s1 in Hs1. clearbody s1.
  set (dis := if force_cooldown _ then _ else _). clearbody dis.
  set (s2 := if own_layer_pending result auth1 now then _ else s1).
  assert (state_wf s2) as Hs2.
  { unfold s2. destruct (own_layer_pending _ _ _); [|done].
    destruct Hs1 as [_ Hsh]. by destruct (credentialQuotaShadow s1). }
  set (s3 := s2 <| M_Unavailable := true |> <| M_Status := StatusError |> <| M_UpdatedAt := now |>).
  assert (state_wf s3) as Hs3 by done. clearbody s3. clear s2 Hs2.
  set (noted := match R_Error result with Some _ => _ | None => _ end).
  assert (auth_wf noted.1 ∧ state_wf noted.2
    ∧ own_layer_pending result noted.1 now = own_layer_pending result auth1 now) as (Hna&Hns&Hnp).
  { unfold noted. destruct (R_Error result); [|done]. by destruct wt. }
  destruct noted as [auth2 s4]. cbn [fst snd] in *.
  pose proof (failure_fields_wf result wt dis (canonicalModelKey key) now (cloneShallow s1) auth2 s4 H0 Hna Hns
    (state_wf_clone _ Hs1)) as (Hfa&Hfq&Hfs).
  pose proof (failure_fields_recover result wt dis (canonicalModelKey key) now (cloneShallow s1) auth2 s4 H0) as Hr.
  destruct (model_failure_fields _ _ _ _ _ _ auth2 s4) as [auth3 s5]. cbn [fst snd] in *. rewrite Hnp in Hr.
  pose proof (settle_state_wf result dis (M_NextRetryAfter s3) now seq s5 Hfq Hfs) as Hs6.
  set (s6 := settle_state _ _ _ _ _ s5) in *. clearbody s6.
  set (s7 := if own_layer_pending result auth1 now then compose_layers _ _ s6 now seq else s6).
  assert (state_wf s7) as Hs7.
  { unfold s7. destruct (own_layer_pending result auth1 now); [|done].
    apply compose_layers_wf; [|by apply state_wf_clone|done]. specialize (Hr eq_refl). lia. }
  clearbody s7. apply updateAggregatedAvailability_wf.
  pose proof (put_state_wf auth3 key s7 Hfa Hs7) as [Hq Hm]. destruct (_ && _); [|by split].
  split; [exact Hq|]. by apply (states_wf_others _ _ ((put_state auth3 key s7) <| authCooldownRecordedSeq := seq |>)).
Qed.

Lemma auth_failure_fields_wf auth err hint now disable :
  0 ≤ now → auth_wf auth →
  let auth' := auth_failure_fields auth err hint now disable in
  ModelStates auth' = ModelStates auth ∧ settling disable (Quota auth') (NextRetryAfter auth').
Proof.
  intros H0 [Hq _]. unfold auth_failure_fields, settling. cbv zeta.
  destruct (isCloudflareChallengeResultError err).
  { pose proof (cloudflare_after (Q_BackoffLevel (Quota auth)) now) as Hc.
    destruct (nextCloudflareCooldown _ disable now) as [next level] eqn:E. split; [done|].
    apply settling_written; intros ->; [rewrite E in Hc; simpl in Hc; lia|]. by injection E as <- _. }
  destruct (isInvalidGrantResultError err); [split; [done|by left]|].
  destruct (_ =? 401); [split; [done|by left]|]. destruct (_ || _); [split; [done|by left]|].
  destruct (_ =? 404); [split; [done|by left]|].
  destruct (_ =? 429).
  { pose proof (quota_deadline_after ((Quota auth) <| Q_Exceeded := true |> <| Q_Reason := "quota" |>) hint now) as Hd.
    destruct disable; [split; [done|by right]|].
    destruct (quota_deadline _ hint now) as [next level]. simpl in *. split; [done|]. left.
    apply (quota_wf_fields _ "quota" _ level 0 ∅). apply (extend_open_pos _ next). lia. }
  destruct (gateway_status _); (split; [done|by left]).
Qed.

Lemma applyAuthFailureState_wf auth err hint now disable :
  0 ≤ now → (force_cooldown err = true → disable = false) → auth_wf auth →
  auth_wf (applyAuthFailureState auth err hint now disable).
Proof.
  intros H0 Hforce Ha. unfold applyAuthFailureState. destruct (shouldSkipCredentialCooldown err); [done|]. cbv zeta.
  change (match err with Some _ => _ | None => _ end) with (noted auth err now).
  destruct (noted_fields auth err now) as (_&Hnm&Hnq).
  assert (auth_wf (noted auth err now)) as Hn by (unfold auth_wf; by rewrite Hnm, Hnq).
  destruct (auth_failure_fields_wf (noted auth err now) err hint now disable H0 Hn) as [Hm Hq].
  set (failed := auth_failure_fields _ err hint now disable) in *.
  assert (states_wf (ModelStates failed)) as Hs by (rewrite Hm; exact (proj2 Hn)). clearbody failed.
  set (running := extend_running _ _ now).
  assert (quota_wf (Quota failed) ∨ (disable = true ∧ running = 0 ∧ Q_NextRecoverAt (Quota failed) = 0)) as Hq'.
  { destruct Hq as [Hq|(Hd&Hz&Hr)]; [by left|right]. split_and!; [done| |done].
    unfold running, extend_running. by rewrite Hz. }
  clearbody running. set (settled := if force_cooldown err && _ then _ else _).
  assert (Quota settled = Quota failed ∧ ModelStates settled = ModelStates failed
    ∧ (disable = true → NextRetryAfter settled = running)) as (Eq&Em&Er).
  { unfold settled. destruct (force_cooldown err) eqn:Ef; simpl; [|done].
    rewrite (Hforce eq_refl). by destruct (IsZero running). }
  clearbody settled. rewrite <-Em in Hs. destruct (_ && _) eqn:E; (split; [|exact Hs]).
  - apply quota_wf_retracted. unfold IsZero in E. to_prop. done.
  - rewrite Eq. destruct Hq' as [Hq'|(->&Hz&Hr)]; [done|].
    rewrite Eq, Er, Hz, Hr in E by done. done.
Qed.

Lemma mark_failure_wf result wt key now seq auth :
  0 ≤ now → keys_normal auth → key = "" ∨ normal key → auth_wf auth →
  auth_wf (mark_failure result wt key now seq auth).
Proof.
  intros H0 Hk Hkey Ha. unfold mark_failure. destruct Hkey as [->|Hn].
  - simpl. destruct wt; [done|]. cbv zeta.
    destruct (applyAuthFailureState_wf auth (R_Error result) (RetryAfter result) now
      (if force_cooldown (R_Error result) then false else cooldownDisabledForAuth (Some auth)) H0) as [Hq Hm];
      [by intros ->|done|]. by split.
  - rewrite (proj2 (String.eqb_neq _ _) (proj2 Hn)). simpl.
    destruct (shouldSkipCredentialCooldown _); [done|]. by apply mark_model_failure_wf.
Qed.

(** ** Successes keep the invariant *)

Lemma reset_model_wf auth key now :
  keys_normal auth → normal key → auth_wf auth → auth_wf (reset_model auth key now).
Proof.
  intros Hk Hn Ha. unfold reset_model. destruct (ensured_wf auth key Hk Hn Ha) as (s&->&Hs).
  apply put_state_wf; [by apply put_state_wf|apply state_wf_reset].
Qed.

Lemma clear_error_wf auth now : auth_wf auth → auth_wf (clear_error auth now).
Proof. unfold clear_error. by case_match. Qed.

Lemma mark_success_wf result wt key now auth :
  keys_normal auth → key = "" ∨ normal key → auth_wf auth → auth_wf (mark_success result wt key now auth).
Proof.
  intros Hk Hkey Ha. unfold mark_success.
  assert (negb (String.eqb key "") = true → auth_wf (reset_model auth key now)) as Hr.
  { destruct Hkey as [->|Hn]; [done|]. intros _. by apply reset_model_wf. }
  destruct wt; [by destruct (negb _); auto|].
  destruct (_ && _); [done|]. destruct (_ || _); [done|].
  destruct (CountTokens result); [by apply clear_error_wf, updateAggregatedAvailability_wf|].
  destruct (negb _); [by apply clear_error_wf, updateAggregatedAvailability_wf, Hr|].
  unfold clearAuthStateOnSuccess. destruct (hasUnauthorizedAuthFailure _); [done|].
  destruct Ha as [_ Hm]. by split.
Qed.

(** ** Bookkeeping keeps the invariant *)

Lemma observe_wf result key headers now auth : auth_wf auth → auth_wf (observe result key headers now auth).
Proof.
  intros Ha. unfold observe. destruct (SkipQuotaObservation result); [done|].
  set (noted := auth <| Quota := _ |>).
  destruct (observed_quota result headers now (Quota auth)) as (He&_&Hn&_).
  assert (auth_wf noted) as Hw.
  { destruct Ha as [Hq Hm]. split; [|exact Hm]. by apply (quota_wf_same (Quota auth)). }
  destruct (existingModelState noted key) as [s | ] eqn:Es; [|done].
  pose proof (existing_wf noted key s Hw Es) as [Hs Hsh]. apply put_state_wf; [done|].
  destruct (observed_quota result headers now (M_Quota s)) as (He'&_&Hn'&_).
  split; [|exact Hsh]. by apply (quota_wf_same (M_Quota s)).
Qed.

(** ** The keys *)

Lemma auth_failure_fields_states auth err hint now disable :
  ModelStates (auth_failure_fields auth err hint now disable) = ModelStates auth.
Proof.
  unfold auth_failure_fields. cbv zeta. destruct (isCloudflareChallengeResultError err).
  { by destruct (nextCloudflareCooldown _ disable now). }
  destruct (isInvalidGrantResultError err); [done|]. destruct (_ =? 401); [done|]. destruct (_ || _); [done|].
  destruct (_ =? 404); [done|]. destruct (_ =? 429); [|by destruct (gateway_status _)].
  destruct disable; [done|]. by destruct (quota_deadline _ hint now).
Qed.

Lemma applyAuthFailureState_states auth err hint now disable :
  ModelStates (applyAuthFailureState auth err hint now disable) = ModelStates auth.
Proof.
  unfold applyAuthFailureState. destruct (shouldSkipCredentialCooldown err); [done|]. cbv zeta.
  change (match err with Some _ => _ | None => _ end) with (noted auth err now).
  destruct (noted_fields auth err now) as (_&Hm&_). rewrite <-Hm.
  rewrite <-(auth_failure_fields_states (noted auth err now) err hint now disable).
  set (failed := auth_failure_fields _ err hint now disable). clearbody failed.
  by repeat match goal with |- context [if ?b then _ else _] => destruct b end.
Qed.

Lemma failure_fields_keys result wt disable key now saved auth state :
  keys_of (model_failure_fields result wt disable key now saved auth state).1 = keys_of auth.
Proof.
  unfold model_failure_fields. cbv zeta.
  destruct (isModelSupportResultError _); [done|].
  destruct (isCloudflareChallengeResultError _).
  { destruct (nextCloudflareCooldown _ disable now). by destruct (_ && _). }
  destruct (isInvalidGrantResultError _); [done|]. destruct (bool_decide _); [done|].
  destruct (_ =? 404); [done|]. destruct (_ =? 429); [|done].
  unfold model_quota_failure. destruct (if disable then _ else _) as [next level]. cbv zeta.
  destruct (_ && _); [|done]. destruct wt; [apply keys_of_others|].
  rewrite <-(keys_of_others key (propagate_quota auth now next level) auth). done.
Qed.

Lemma mark_model_failure_files result wt key now seq auth :
  keys_normal auth → normal key → auth_wf auth → files key auth (mark_model_failure result wt key now seq auth).
Proof.
  intros Hk Hn Ha. unfold mark_model_failure. destruct (ensured_wf auth key Hk Hn Ha) as (s0&->&_).
  pose proof (files_put key auth s0 Hn) as H1. set (auth1 := put_state auth key s0) in *. clearbody auth1. cbv zeta.
  set (noted := match R_Error result with Some _ => _ | None => _ end).
  assert (ModelStates noted.1 = ModelStates auth1) as H2 by (unfold noted; destruct (R_Error result); by destruct wt).
  destruct noted as [auth2 s4]. cbn [fst] in H2.
  match goal with |- context [model_failure_fields ?r ?w ?d ?k ?n ?sv auth2 s4] =>
    pose proof (failure_fields_keys r w d k n sv auth2 s4) as H3 end.
  destruct (model_failure_fields _ _ _ _ _ _ auth2 s4) as [auth3 s5]. cbn [fst] in H3.
  set (s7 := if own_layer_pending result auth1 now then _ else _). clearbody s7.
  etransitivity; [|apply files_aggregate]. etransitivity; [exact H1|].
  transitivity auth2; [by apply files_states|]. transitivity auth3; [by apply files_same|].
  transitivity (put_state auth3 key s7); [by apply files_put|]. apply files_same.
  destruct (_ && _); [|done].
  by rewrite <-(keys_of_others (canonicalModelKey key) (λ s, s <| cooldownRecordedSeq := seq |>) (put_state auth3 key s7)).
Qed.

Lemma mark_failure_files result wt key now seq auth :
  keys_normal auth → key = "" ∨ normal key → auth_wf auth → files key auth (mark_failure result wt key now seq auth).
Proof.
  intros Hk Hkey Ha. unfold mark_failure. destruct Hkey as [->|Hn].
  - simpl. destruct wt; [reflexivity|]. apply files_states, applyAuthFailureState_states.
  - rewrite (proj2 (String.eqb_neq _ _) (proj2 Hn)). simpl.
    destruct (shouldSkipCredentialCooldown _); [reflexivity|]. by apply mark_model_failure_files.
Qed.

Lemma reset_model_files key auth now :
  keys_normal auth → normal key → auth_wf auth → files key auth (reset_model auth key now).
Proof.
  intros Hk Hn Ha. unfold reset_model. destruct (ensured_wf auth key Hk Hn Ha) as (s&->&_).
  etransitivity; [by apply (files_put key auth s)|by apply files_put].
Qed.

Lemma mark_success_files result wt key now auth :
  keys_normal auth → key = "" ∨ normal key → auth_wf auth → files key auth (mark_success result wt key now auth).
Proof.
  intros Hk Hkey Ha. unfold mark_success.
  assert (∀ a, files key auth a → files key auth (clear_error (updateAggregatedAvailability a now) now)) as Hagg.
  { intros a Hf. etransitivity; [exact Hf|]. etransitivity; [apply files_aggregate|].
    apply files_states, clear_error_states. }
  assert (negb (String.eqb key "") = true → files key auth (reset_model auth key now)) as Hr.
  { destruct Hkey as [->|Hn]; [done|]. intros _. by apply reset_model_files. }
  destruct wt; [by destruct (negb _); [apply Hr|]|].
  destruct (_ && _); [reflexivity|]. destruct (_ || _); [reflexivity|].
  destruct (CountTokens result); [by apply Hagg|].
  destruct (negb _); [by apply Hagg, Hr|]. apply files_states. unfold clearAuthStateOnSuccess. by case_match.
Qed.

Lemma observe_files result key headers now auth : key = "" ∨ normal key → files key auth (observe result key headers now auth).
Proof.
  intros Hkey. unfold observe. destruct (SkipQuotaObservation result); [reflexivity|].
  set (noted := auth <| Quota := _ |>). transitivity noted; [by apply files_states|].
  destruct (existingModelState noted key) as [s | ] eqn:Es; [|reflexivity].
  destruct Hkey as [->|Hn]; [by vm_compute in Es|by apply files_put].
Qed.

(** ** The whole transition *)

Lemma counted_wf result now auth :
  keys_normal auth ∧ auth_wf auth → keys_normal (mark_counters result now auth) ∧ auth_wf (mark_counters result now auth).
Proof. unfold mark_counters. by case_match. Qed.

Lemma files_normal key auth auth' :
  key = "" ∨ normal key → files key auth auth' → keys_normal auth → keys_normal auth'.
Proof.
  unfold files. intros Hkey Hf. rewrite !keys_normal_dom. intros Hk k Hin. apply Hf in Hin. set_unfold.
  destruct Hin as [Hin|Hin]; [|by apply Hk].
  destruct Hkey as [->|Hn]; [by set_solver|].
  rewrite (proj2 (String.eqb_neq _ _) (proj2 Hn)) in Hin. by set_unfold; subst.
Qed.

(** C33: Results keep the credential well-formed: after a success or a failure of any
    kind, on a model or on the whole credential, with cooling on or off, and for a
    stale result too, every quota is exceeded exactly while it has a recovery time
    and every state is filed under its canonical model key, where the availability
    test looks for it. *)
Theorem results_keep_invariant (result : Result) (modelKey : string) (headers : Header) (seq now : Z) (auth : Auth)
    (Hnow : 0 ≤ now) (Hkey : modelKey = "" ∨ normal modelKey)
    (Hinv : keys_normal auth ∧ auth_wf auth) :
  let auth' := (mark_auth result modelKey headers seq now auth).1 in
  let stale := mark_stale result now auth in
  (keys_normal auth' ∧ auth_wf auth') ∧ (keys_normal stale ∧ auth_wf stale).
Proof.
  split.
  - destruct (counted_wf result now auth Hinv) as [Hk Ha]. unfold mark_auth, mark_outcome.
    set (counted := mark_counters result now auth) in *. clearbody counted.
    set (wt := hasUnauthorizedAuthFailure (Some counted)). clearbody wt.
    set (marked := if R_Success result then _ else _).
    assert (keys_normal marked ∧ auth_wf marked) as [Hmk Hma].
    { unfold marked. destruct (R_Success result); (split; [eapply (files_normal modelKey); [done| |done]|]).
      - by apply mark_success_files.
      - by apply mark_success_wf.
      - by apply mark_failure_files.
      - by apply mark_failure_wf. }
    clearbody marked. destruct (mark_unauthorized_fields result wt now marked) as (Hu&Hq&_).
    destruct (mark_unauthorized result wt now marked) as [unauth refresh]. cbn [fst] in *.
    set (bumped := (bump_generation unauth) <| UpdatedAt := now |>).
    assert (keys_normal bumped ∧ auth_wf bumped) as [Hbk Hba].
    { unfold bumped, bump_generation, keys_normal, auth_wf. simpl. rewrite Hu, Hq. done. }
    clearbody bumped. split; [|by apply observe_wf].
    eapply (files_normal modelKey); [done|by apply observe_files|done].
  - unfold mark_stale. destruct (_ && _); [|done].
    pose proof (rejected_token_fields auth (R_AccessToken result)) as (Hm&Hq&_).
    destruct (recordRejectedTokenOnAuth auth (R_AccessToken result)) as [a [ | ]]; cbn [fst] in *;
      unfold keys_normal, auth_wf in *; simpl; by rewrite Hm, Hq.
Qed.
End failures.

Lemma results_keep_invariant_witness :
  let auth' := (@mark_auth no_host no_gjson default_settings (reported false (Some rate_limit_error))
                  "gpt-5" [] 4 noon two_models).1 in
  keys_normal auth' ∧ auth_wf auth'.
Proof.
  apply (@results_keep_invariant no_host no_gjson default_settings (reported false (Some rate_limit_error))
    "gpt-5" [] 4 noon two_models).
  - by vm_compute.
  - right. exact normal_gpt5.
  - split; [exact two_models_normal|exact two_models_wf].
Defined.
