(* ===== verification/QuotaReach.v ===== *)
(** * The reach of a credential-wide quota

    A rate limit that the upstream reports for the whole credential closes it for
    every model, also for models it has never served, and is laid over the cooldowns
    the models had of their own, which come back when it ends. *)
From Stdlib Require Import ZArith Lia Ascii String Bool.
From stdpp Require Import prelude gmap strings.
From S2P Require Import Prelude GoStd AuthTypes Errors Json Classify Availability AvailabilityEquiv QuotaSignals Cooldown ExecutionResult ResultProofs ResultInvariant.
Local Open Scope string_scope.
Local Open Scope list_scope.
Local Open Scope Z_scope.

Section reach.
Context {gh : GoHost} {gj : Gjson} {st : Settings}.

(** A rate limit of the whole credential, as an execution reports it. *)
Definition credential_rate_limit (result : Result) (e : Error) : Prop :=
  R_Success result = false ∧ CredentialScope result = true ∧ R_Error result = Some e
  ∧ plain_rate_limit e ∧ isModelSupportResultError (Some e) = false.

Lemma rate_limit_branch result e wt disable key now saved auth s :
  credential_rate_limit result e →
  model_failure_fields result wt disable key now saved auth s =
    model_quota_failure result wt disable key now saved auth s.
Proof.
  intros (_&_&He&(Hs&Hc&_)&Hm). unfold model_failure_fields. rewrite He, Hm. cbv zeta.
  unfold isCloudflareChallengeResultError, isInvalidGrantResultError, StatusCode. rewrite Hs, Hc.
  destruct (negb (isInvalidGrantErrorMessage _) && _); reflexivity.
Qed.

(** What lands on a model that did not report the limit. *)
Definition wrapped_sibling (auth : Auth) (now next : time) (level seq : Z) (s : ModelState) : ModelState :=
  (propagate_quota auth now next level s) <| cooldownRecordedSeq := seq |>.

Lemma aggregate_wrapped auth now :
  credential_wrap auth now = true → updateAggregatedAvailability auth now = auth <| Unavailable := true |>.
Proof.
  intros Hw. unfold updateAggregatedAvailability, updateAggregatedAvailability_in.
  destruct (hasUnauthorizedAuthFailure _); [done|]. by rewrite Hw.
Qed.

Lemma other_states_lookup key f auth k :
  k ≠ key → ModelStates (other_states key f auth) !! k = option_map f <$> ModelStates auth !! k.
Proof.
  intros Hk. unfold other_states. simpl. rewrite map_lookup_imap.
  destruct (ModelStates auth !! k); simpl; [|done]. by rewrite (proj2 (String.eqb_neq _ _) Hk).
Qed.

(** The deadline of the credential, joined with one it already had. *)
Definition credential_deadline (result : Result) (state : ModelState) (auth : Auth) (now : time) : time * Z :=
  let '(next, level) := model_quota_deadline result auth state now in
  (if quota_held auth && After (Q_NextRecoverAt (Quota auth)) next then Q_NextRecoverAt (Quota auth) else next, level).

Lemma credential_quota_failure result key now saved auth s :
  CredentialScope result = true →
  let '(auth', s') := model_quota_failure result false false key now saved auth s in
  let next := (model_quota_deadline result auth s now).1 in
  let level := (model_quota_deadline result auth s now).2 in
  Quota auth' = applyCooldownFields (Quota auth)
    (credential_quota_fields (credential_deadline result s auth now).1 level)
  ∧ ModelStates auth' = ModelStates (other_states key (propagate_quota auth now next level) auth).
Proof.
  intros Hs. unfold model_quota_failure, credential_deadline. rewrite Hs.
  by destruct (model_quota_deadline result auth s now) as [next level].
Qed.

Lemma propagate_quota_quota auth auth' now next level s :
  Quota auth' = Quota auth → propagate_quota auth' now next level s = propagate_quota auth now next level s.
Proof. intros H. unfold propagate_quota, unwrap_expired, credential_wrap. by rewrite H. Qed.

(** The whole handler, on a credential that is not terminally refused. *)
Lemma credential_limit_effect result e key now seq auth :
  0 ≤ now → keys_normal auth → normal key → auth_wf auth → credential_rate_limit result e → cooling_on result auth →
  let auth' := mark_model_failure result false key now seq auth in
  ∃ next level deadline,
    now < next ∧ next ≤ deadline ∧ (quota_held auth = true → Q_NextRecoverAt (Quota auth) ≤ deadline)
    ∧ (∀ d, RetryAfter result = Some d → now + d ≤ next)
    ∧ Quota auth' = applyCooldownFields (Quota auth) (credential_quota_fields deadline level)
    ∧ ∀ k, k ≠ key → ModelStates auth' !! k = option_map (wrapped_sibling auth now next level seq) <$> ModelStates auth !! k.
Proof.
  intros H0 Hk Hn Ha Hr Hcool auth'. pose proof Hr as (_&Hs&He&(Hst&_)&_).
  unfold auth', mark_model_failure. destruct (ensured_wf auth key Hk Hn Ha) as (s0&->&_).
  set (auth1 := put_state auth key s0). cbv zeta.
  assert (own_layer_pending result auth1 now = false) as -> by (unfold own_layer_pending; by rewrite Hs).
  set (dis := if force_cooldown _ then _ else _).
  assert (dis = false) as Hd.
  { unfold dis. change (cooldownDisabledForAuth (Some auth1)) with (cooldownDisabledForAuth (Some auth)).
    by destruct Hcool as [-> | ->]; destruct (force_cooldown _). }
  clearbody dis. subst dis. rewrite He. set (s1 := unwrap_expired auth1 now s0).
  set (auth2 := auth1 <| LastError := Some e |> <| StatusMessage := E_Message e |>).
  match goal with |- context [model_failure_fields _ _ _ _ _ _ auth2 ?s] => set (s4 := s) end.
  rewrite (rate_limit_branch result e) by done.
  pose proof (credential_quota_failure result (canonicalModelKey key) now (cloneShallow s1) auth2 s4 Hs) as Hq.
  pose proof (model_quota_deadline_after result auth2 s4 now) as Hnext.
  assert (∀ d, RetryAfter result = Some d → now + d ≤ (model_quota_deadline result auth2 s4 now).1) as Hhint.
  { intros d Hh. unfold model_quota_deadline. rewrite Hh. cbn [fst]. unfold Add.
    destruct (Z.ltb_spec d minQuotaCooldownFloor); lia. }
  assert ((model_quota_deadline result auth2 s4 now).1 ≤ (credential_deadline result s4 auth2 now).1
    ∧ (quota_held auth = true → Q_NextRecoverAt (Quota auth) ≤ (credential_deadline result s4 auth2 now).1)) as [Hle Hheld].
  { unfold credential_deadline. destruct (model_quota_deadline result auth2 s4 now) as [next level]. simpl.
    change (quota_held auth2) with (quota_held auth).
    change (Q_NextRecoverAt (Quota auth2)) with (Q_NextRecoverAt (Quota auth)). unfold After.
    destruct (quota_held auth), (Z.ltb_spec next (Q_NextRecoverAt (Quota auth))); simpl; split; intros; try done; lia. }
  set (next := (model_quota_deadline result auth2 s4 now).1) in *.
  set (level := (model_quota_deadline result auth2 s4 now).2) in *.
  set (deadline := (credential_deadline result s4 auth2 now).1) in *. clearbody deadline next level.
  destruct (model_quota_failure _ _ _ _ _ _ auth2 s4) as [auth3 s5]. destruct Hq as [Hq3 Hm3].
  set (s7 := settle_state _ _ _ _ _ s5). rewrite Hs. unfold StatusCode. rewrite Hst. cbn [andb negb].
  change (TooManyRequests =? 429) with true. cbv iota.
  set (final := (other_states _ _ _) <| A_Status := StatusError |>).
  assert (Quota final = applyCooldownFields (Quota auth) (credential_quota_fields deadline level)) as Hqf
    by (unfold final; simpl; rewrite Hq3; done).
  assert (∀ k, k ≠ key → ModelStates final !! k = option_map (wrapped_sibling auth now next level seq) <$> ModelStates auth !! k) as Hmf.
  { intros k Hne. pose proof Hn as [Hc _]. unfold final. rewrite Hc.
    set (inner := (put_state auth3 key s7) <| authCooldownRecordedSeq := seq |>).
    change (ModelStates (_ <| A_Status := StatusError |>) !! k)
      with (ModelStates (other_states key (λ s, s <| cooldownRecordedSeq := seq |>) inner) !! k).
    rewrite other_states_lookup by done.
    assert (ModelStates inner !! k = ModelStates auth3 !! k) as ->.
    { change (ModelStates inner) with (ModelStates (put_state auth3 key s7)). rewrite put_normal by done.
      simpl. by rewrite lookup_insert_ne. }
    rewrite Hm3, Hc, other_states_lookup by done.
    assert (ModelStates auth2 !! k = ModelStates auth !! k) as ->.
    { change (ModelStates auth2) with (ModelStates (put_state auth key s0)). rewrite put_normal by done.
      simpl. by rewrite lookup_insert_ne. }
    destruct (ModelStates auth !! k) as [[s | ] | ]; [|done|done].
    cbn [fmap option_fmap option_map]. unfold wrapped_sibling.
    by rewrite (propagate_quota_quota auth auth2). }
  exists next, level, deadline. rewrite aggregate_wrapped.
  - by split_and!.
  - unfold credential_wrap. rewrite Hqf. simpl. unfold After. apply Z.ltb_lt. lia.
Qed.

(** A cooldown of a model that is its own: not laid over it by an earlier limit of
    the credential, and not derived from one in its text. *)
Definition own_cooldown (s : ModelState) (now : time) : Prop :=
  wrapped s = false ∧ isModelStateActiveCooldown (Some s) now = true ∧ credential_derived s = false.

Lemma wrapped_sibling_restores auth now next level seq s later t :
  own_cooldown s now → credential_wrap later t = false →
  isModelStateActiveCooldown (Some (cloneShallow s)) t = true →
  unwrap_expired later t (wrapped_sibling auth now next level seq s) = cloneShallow s.
Proof.
  intros (Hw&Ha&Hd) Hl Ht. set (s' := wrapped_sibling auth now next level seq s).
  assert (wrapped s' = true ∧ credentialQuotaShadow s' = Some (cloneShallow s)) as [Hw' Hs'].
  { unfold s', wrapped_sibling, propagate_quota. rewrite unwrap_running by (by left). by rewrite Hw, Ha, Hd. }
  unfold unwrap_expired. rewrite Hw', Hl, Hs', Ht. done.
Qed.

Lemma mark_auth_outcome result key headers seq now auth :
  let auth' := (mark_auth result key headers seq now auth).1 in
  let out := (mark_outcome result key seq now auth).1 in
  normal key →
  (∀ k, k ≠ key → ModelStates auth' !! k = ModelStates out !! k)
  ∧ Q_Exceeded (Quota auth') = Q_Exceeded (Quota out) ∧ Q_Reason (Quota auth') = Q_Reason (Quota out)
  ∧ Q_NextRecoverAt (Quota auth') = Q_NextRecoverAt (Quota out).
Proof.
  cbv zeta. intros Hn. unfold mark_auth. destruct (mark_outcome result key seq now auth) as [out r]. cbn [fst].
  set (bumped := (bump_generation out) <| UpdatedAt := now |>).
  assert (ModelStates bumped = ModelStates out ∧ Quota bumped = Quota out) as [Hm Hq] by done.
  clearbody bumped. rewrite <-Hm, <-Hq. unfold observe. destruct (SkipQuotaObservation result); [done|].
  set (noted := bumped <| Quota := observed result headers now (Quota bumped) |>).
  destruct (observed_quota result headers now (Quota bumped)) as (He&Hre&Hnx&_).
  destruct (existingModelState noted key); [|by split_and!]. rewrite put_normal by done.
  split; [|by split_and!]. intros k Hne. simpl. by rewrite lookup_insert_ne.
Qed.

(** A rate limit of the whole credential reaches every model: until a deadline no
    earlier than the upstream's hint, nor than a credential limit that was running,
    the credential serves no model, whether it has a state or not.  It is laid over
    the models' own cooldowns, it does not replace them: when the limit has ended, a
    model whose own cooldown is still running is given exactly that cooldown back. *)
Theorem credential_quota_reaches_all (result : Result) (e : Error) (modelKey : string) (headers : Header)
    (seq now : Z) (auth : Auth)
    (Hnow : 0 ≤ now) (Hkeys : keys_normal auth) (Hkey : normal modelKey) (Hwf : auth_wf auth)
    (Hlimit : credential_rate_limit result e) (Hcool : cooling_on result auth)
    (Hplain : hasUnauthorizedAuthFailure (Some auth) = false) :
  let auth' := (mark_auth result modelKey headers seq now auth).1 in
  let deadline := Q_NextRecoverAt (Quota auth') in
  now < deadline
  ∧ (∀ d, RetryAfter result = Some d → now + d ≤ deadline)
  ∧ (quota_held auth = true → Q_NextRecoverAt (Quota auth) ≤ deadline)
  ∧ (∀ model t, now ≤ t < deadline → is_blocked (isAuthBlockedForModel (Some auth') model t) = true)
  ∧ (∀ k s later t, k ≠ modelKey → ModelStates auth !! k = Some (Some s) → own_cooldown s now →
       credential_wrap later t = false → isModelStateActiveCooldown (Some (cloneShallow s)) t = true →
       ∃ s', ModelStates auth' !! k = Some (Some s') ∧ unwrap_expired later t s' = cloneShallow s).
Proof.
  intros auth' deadline. pose proof Hlimit as (Hf&_&He&Hrl&_).
  destruct (counted_fields result now auth) as (Hm&Hq&Hcc&Hkc&Hwc&_&Ht).
  destruct (mark_auth_outcome result modelKey headers seq now auth Hkey) as (Hm'&He'&Hr'&Hn').
  rewrite failure_outcome in Hm', He', Hr', Hn'
    by (done || apply Hkey || by rewrite He; apply rate_limit_counts).
  set (counted := mark_counters result now auth) in *. rewrite Ht, Hplain in Hm', He', Hr', Hn'.
  destruct (credential_limit_effect result e modelKey now seq counted Hnow (Hkc Hkeys) Hkey (Hwc Hwf) Hlimit (Hcc Hcool))
    as (next&level&until&Hnext&Hle&Hheld&Hhint&Hquota&Hstates). cbv zeta in Hm', He', Hr', Hn', Hquota, Hstates.
  set (marked := mark_model_failure result false modelKey now seq counted) in *. clearbody marked.
  destruct (mark_unauthorized_fields result false now marked) as (Hum&Huq&_).
  rewrite Huq, Hquota in He', Hr', Hn'. setoid_rewrite Hum in Hm'. fold auth' in Hm', He', Hr', Hn'.
  cbn in He', Hr', Hn'. unfold deadline. rewrite Hn'. unfold quota_held in Hheld. rewrite Hq in Hheld.
  split_and!; [lia| |exact Hheld| |].
  - intros d Hd. specialize (Hhint d Hd). lia.
  - intros model t [Hn1 Hn2]. apply wrapped_blocked. unfold credential_quota, After. rewrite He', Hr', Hn'. simpl.
    by apply Z.ltb_lt.
  - intros k s later t Hk Hs Hown Hl Hact. rewrite Hm', Hstates, Hm, Hs by done. simpl.
    eexists. split; [done|]. by apply wrapped_sibling_restores.
Qed.
End reach.

(** The upstream closes the credential for a minute while another model is cooling. *)
Definition credential_limit : Result :=
  (reported false (Some rate_limit_error)) <| CredentialScope := true |> <| RetryAfter := Some Minute |>.
Definition cooling_sibling : ModelState := cooling_state (noon + Hour).
Definition sibling_auth : Auth := plain_auth <| ModelStates := {["gpt-4" := Some cooling_sibling]} |>.

Lemma credential_quota_reaches_all_witness :
  let auth' := (@mark_auth no_host no_gjson default_settings credential_limit "gpt-5" [] 4 noon sibling_auth).1 in
  is_blocked (@isAuthBlockedForModel no_host (Some auth') "never-served" noon) = true
  ∧ ∃ s', ModelStates auth' !! "gpt-4" = Some (Some s')
      ∧ unwrap_expired plain_auth (noon + 2 * Minute) s' = cloneShallow cooling_sibling.
Proof.
  assert (keys_normal sibling_auth) as Hk.
  { intros k [o Hk]. unfold sibling_auth in Hk. simpl in Hk. apply lookup_singleton_Some in Hk as [<- _]. split; [by vm_compute|done]. }
  assert (auth_wf sibling_auth) as Hw.
  { split; [by vm_compute|]. intros k s Hs. unfold sibling_auth in Hs. simpl in Hs. apply lookup_singleton_Some in Hs as [_ [= <-]]. by vm_compute. }
  assert (credential_rate_limit credential_limit rate_limit_error) as Hl.
  { split_and!; [done|done|done|exact plain_rate_limit_error|by vm_compute]. }
  assert (@cooling_on default_settings credential_limit sibling_auth) as Hc by (right; by vm_compute).
  pose proof (@credential_quota_reaches_all no_host no_gjson default_settings credential_limit rate_limit_error
    "gpt-5" [] 4 noon sibling_auth ltac:(by vm_compute) Hk normal_gpt5 Hw Hl Hc ltac:(by vm_compute)) as H.
  cbv zeta in H |- *. destruct H as (Hd&_&_&Hb&Hr). split.
  - apply Hb. split; [reflexivity|exact Hd].
  - assert (own_cooldown cooling_sibling noon) as Ho by (split_and!; vm_compute; reflexivity).
    exact (Hr "gpt-4" cooling_sibling plain_auth (noon + 2 * Minute) ltac:(discriminate) eq_refl Ho
      ltac:(vm_compute; reflexivity) ltac:(vm_compute; reflexivity)).
Defined.
