(* ===== verification/CooldownRecord.v ===== *)
(** * Cooldown records: what survives a restart

    Models [CooldownStateRecord] of [cooldown_state.go] and the functions of
    [conductor_cooldown.go] that write and restore records: the records of one
    credential, their comparison, and [restoreCooldownRecordLocked] on the credential
    it is about.  The store that keeps the records between two runs is [reloaded]:
    [encoding/json] drops the unexported fields and [AuthFile]. *)
From Stdlib Require Import ZArith Lia Ascii String Bool.
From stdpp Require Import prelude gmap strings.
From S2P Require Import Prelude GoStd AuthTypes Errors Json Classify Availability AvailabilityEquiv QuotaSignals Cooldown ExecutionResult ResultProofs ResultInvariant.
Local Open Scope string_scope.
Local Open Scope list_scope.
Local Open Scope Z_scope.

Record CooldownStateRecord := mkRecord {
  CR_Provider : string; CR_AuthID : string; CR_AuthFile : string; CR_Model : string; CR_Status : string;
  CR_NextRetryAfter : time; CR_Reason : string; CR_Quota : QuotaState; CR_LastError : option Error;
  CR_UpdatedAt : time; IndependentState : option ModelState; CredentialQuotaPropagated : bool }.
#[export] Instance CooldownStateRecord_eta : Eta CooldownStateRecord := λ r,
  mkRecord (CR_Provider r) (CR_AuthID r) (CR_AuthFile r) (CR_Model r) (CR_Status r) (CR_NextRetryAfter r)
    (CR_Reason r) (CR_Quota r) (CR_LastError r) (CR_UpdatedAt r) (IndependentState r)
    (CredentialQuotaPropagated r).

(** ** Writing *)

Definition cooldownAuthFile (auth : Auth) : string :=
  let path := TrimSpace (attr (Attributes auth) "path") in
  if negb (String.eqb path "") then path else TrimSpace (FileName auth).

Definition cooldownReason (statusMessage : string) (quota : QuotaState) (lastErr : option Error) : string :=
  let reason := TrimSpace (Q_Reason quota) in
  if negb (String.eqb reason "") then reason else
  let statusMessage := TrimSpace statusMessage in
  if negb (String.eqb statusMessage "") then statusMessage else
  match lastErr with
  | None => ""
  | Some e =>
      let code := TrimSpace (E_Code e) in
      if negb (String.eqb code "") then code else TrimSpace (E_Message e)
  end.

Definition authCooldownStateRecord (auth : Auth) (now : time) : option CooldownStateRecord :=
  if negb (Unavailable auth) || IsZero (NextRetryAfter auth) || negb (After (NextRetryAfter auth) now) then None
  else Some (mkRecord (TrimSpace (Provider auth)) (ID auth) (cooldownAuthFile auth) "" "cooling"
    (NextRetryAfter auth) (cooldownReason (StatusMessage auth) (Quota auth) (LastError auth))
    (cooldownFieldsOf (Quota auth)) (LastError auth) (UpdatedAt auth) None false).

Definition modelCooldownStateRecord (auth : Auth) (model : string) (state : option ModelState) (now : time)
    : option CooldownStateRecord :=
  let model := TrimSpace model in
  match state with
  | None => None
  | Some s =>
      if String.eqb model "" || negb (M_Unavailable s) || IsZero (M_NextRetryAfter s)
         || negb (After (M_NextRetryAfter s) now) then None
      else Some (mkRecord (TrimSpace (Provider auth)) (ID auth) (cooldownAuthFile auth) model "cooling"
        (M_NextRetryAfter s) (cooldownReason (M_StatusMessage s) (M_Quota s) (M_LastError s))
        (cooldownFieldsOf (M_Quota s)) (M_LastError s) (M_UpdatedAt s)
        (cloneShallow <$> credentialQuotaShadow s) (credentialQuotaPropagated s))
  end.

(** ** Comparison *)

Definition cooldownQuotaEqual (a b : QuotaState) : bool :=
  eqb (Q_Exceeded a) (Q_Exceeded b) && String.eqb (Q_Reason a) (Q_Reason b)
  && (Q_BackoffLevel a =? Q_BackoffLevel b) && TimeEqual (Q_NextRecoverAt a) (Q_NextRecoverAt b).

Definition cooldownErrorEqual (a b : option Error) : bool :=
  match a, b with
  | None, None => true
  | Some a, Some b =>
      String.eqb (E_Code a) (E_Code b) && String.eqb (E_Message a) (E_Message b)
      && eqb (E_Retryable a) (E_Retryable b) && (E_HTTPStatus a =? E_HTTPStatus b)
  | _, _ => false
  end.

(** On two pointers that are not both nil and equal: the states they point to. *)
Definition cooldownIndependentStateEqual (a b : option ModelState) : bool :=
  match a, b with
  | None, None => true
  | Some a, Some b =>
      String.eqb (M_Status a) (M_Status b) && String.eqb (M_StatusMessage a) (M_StatusMessage b)
      && eqb (M_Unavailable a) (M_Unavailable b) && TimeEqual (M_NextRetryAfter a) (M_NextRetryAfter b)
      && TimeEqual (M_UpdatedAt a) (M_UpdatedAt b) && cooldownQuotaEqual (M_Quota a) (M_Quota b)
      && cooldownErrorEqual (M_LastError a) (M_LastError b)
  | _, _ => false
  end.

Definition cooldownStateRecordEqual (a b : CooldownStateRecord) : bool :=
  if negb (eqb (CredentialQuotaPropagated a) (CredentialQuotaPropagated b)) then false else
  if negb (String.eqb (CR_Provider a) (CR_Provider b)) || negb (String.eqb (CR_AuthID a) (CR_AuthID b))
     || negb (String.eqb (CR_AuthFile a) (CR_AuthFile b)) || negb (String.eqb (CR_Model a) (CR_Model b))
     || negb (String.eqb (CR_Status a) (CR_Status b)) || negb (String.eqb (CR_Reason a) (CR_Reason b))
     || negb (TimeEqual (CR_NextRetryAfter a) (CR_NextRetryAfter b))
     || negb (TimeEqual (CR_UpdatedAt a) (CR_UpdatedAt b))
     || negb (cooldownQuotaEqual (CR_Quota a) (CR_Quota b)) then false else
  if negb (cooldownErrorEqual (CR_LastError a) (CR_LastError b)) then false else
  cooldownIndependentStateEqual (IndependentState a) (IndependentState b).

Fixpoint cooldownStateRecordsEqual (a b : list CooldownStateRecord) : bool :=
  match a, b with
  | [], [] => true
  | x :: a, y :: b => cooldownStateRecordEqual x y && cooldownStateRecordsEqual a b
  | _, _ => false
  end.

(** ** Between two runs *)

(** What [encoding/json] writes of a state and reads back: the exported fields. *)
Definition reloaded_state (s : ModelState) : ModelState :=
  s <| cooldownRecordedSeq := 0 |> <| credentialQuotaShadow := None |> <| credentialQuotaPropagated := false |>.
Definition reloaded (r : CooldownStateRecord) : CooldownStateRecord :=
  r <| CR_AuthFile := "" |> <| IndependentState := reloaded_state <$> IndependentState r |>.

Definition devinRecordErrorText (record : CooldownStateRecord) : string :=
  match CR_LastError record with
  | Some e => if negb (String.eqb (TrimSpace (E_Message e)) "") then E_Message e else ""
  | None => ""
  end.

(** The state a record speaks of, before it is merged. *)
Definition record_state (record : CooldownStateRecord) (quota : QuotaState) (updatedAt : time) : ModelState :=
  mkModelState StatusError (TrimSpace (CR_Reason record)) true (CR_NextRetryAfter record) (CR_LastError record)
    quota updatedAt 0 None false.

Section records.
Context {gh : GoHost} {st : Settings}.

Definition cooldownStateRecordsForAuthLocked (auth : option Auth) (now : time) : list CooldownStateRecord :=
  match auth with
  | None => []
  | Some a =>
      if String.eqb (ID a) "" || Disabled a || bool_decide (A_Status a = StatusDisabled)
         || cooldownDisabledForAuth (Some a) then []
      else sort_by (λ x y, String.ltb (CR_Model x) (CR_Model y))
        (option_list (authCooldownStateRecord a now)
         ++ omap (λ kv, modelCooldownStateRecord a kv.1 kv.2 now) (map_to_list (ModelStates a)))
  end.

(** ** Restoring *)

(** The quota a record restores. *)
Definition restored_quota (record : CooldownStateRecord) : QuotaState :=
  if Q_Exceeded (CR_Quota record) && IsZero (Q_NextRecoverAt (CR_Quota record))
  then (CR_Quota record) <| Q_NextRecoverAt := CR_NextRetryAfter record |> else CR_Quota record.
Definition restored_at (record : CooldownStateRecord) (now : time) : time :=
  if IsZero (CR_UpdatedAt record) then now else CR_UpdatedAt record.

Definition restore_auth_record (record : CooldownStateRecord) (now : time) (auth : Auth) : Auth :=
  let quota := restored_quota record in
  let reason := TrimSpace (CR_Reason record) in
  let auth := auth <| Unavailable := true |> <| A_Status := StatusError |>
                   <| NextRetryAfter := CR_NextRetryAfter record |>
                   <| Quota := mergeQuotaObservation (applyCooldownFields (Quota auth) quota) quota |> in
  let auth := (bump_generation auth) <| UpdatedAt := restored_at record now |> in
  let auth := if negb (String.eqb reason "") then auth <| StatusMessage := reason |> else auth in
  auth <| LastError := CR_LastError record |>.

Definition is_wrapped_record (record : CooldownStateRecord) : bool :=
  bool_decide (is_Some (IndependentState record)) || CredentialQuotaPropagated record
  || String.eqb (TrimSpace (Q_Reason (restored_quota record))) "credential_quota".

(** [liveShadow]: the newest independent layer the live state has. *)
Definition live_shadow (state : ModelState) (now : time) : option ModelState :=
  match cloneShallow <$> credentialQuotaShadow state with
  | Some shadow => Some shadow
  | None => if negb (wrapped state) && isModelStateActiveCooldown (Some state) now
               && negb (credential_derived state) then Some (cloneShallow state) else None
  end.

(** An unwrapped record that lands below a live wrap. *)
Definition land_below (record : CooldownStateRecord) (updatedAt : time) (auth : Auth)
    (liveShadow : option ModelState) (state : ModelState) : ModelState :=
  let state :=
    if isDevinQuotaExhaustionMessage (devinRecordErrorText record) then state else
    let recordShadow := record_state record (restored_quota record) updatedAt in
    let preferred :=
      match credentialQuotaShadow state, liveShadow with
      | None, _ => Some recordShadow
      | Some _, Some live => if negb (After (M_UpdatedAt live) updatedAt) then Some recordShadow else Some live
      | preferred, None => preferred
      end in
    state <| credentialQuotaShadow := preferred |> in
  let state := state <| credentialQuotaPropagated := true |>
    <| M_Quota := applyCooldownFields (M_Quota state)
         (credential_quota_fields (Q_NextRecoverAt (Quota auth)) (Q_BackoffLevel (Quota auth))) |> in
  (if Before (M_NextRetryAfter state) (Q_NextRecoverAt (Quota auth))
   then state <| M_NextRetryAfter := Q_NextRecoverAt (Quota auth) |> else state)
    <| M_Unavailable := true |> <| M_Status := StatusError |>.

(** A record of a wrapped state. *)
Definition land_wrapped (record : CooldownStateRecord) (liveShadow : option ModelState) (state : ModelState)
    : ModelState :=
  let state := state <| credentialQuotaPropagated := true |> in
  match IndependentState record, liveShadow with
  | Some independent, None => state <| credentialQuotaShadow := Some (cloneShallow independent) |>
  | Some independent, Some live =>
      if negb (After (M_UpdatedAt live) (M_UpdatedAt independent))
      then state <| credentialQuotaShadow := Some (cloneShallow independent) |>
      else state <| credentialQuotaShadow := Some live |>
  | None, Some live => state <| credentialQuotaShadow := Some live |>
  | None, None => state
  end.

Definition restore_model_record (record : CooldownStateRecord) (now : time) (auth : Auth) : Auth :=
  let model := TrimSpace (CR_Model record) in
  let updatedAt := restored_at record now in
  match ensureModelState auth model with
  | (auth, None) => auth
  | (auth, Some state) =>
      let liveShadow := live_shadow state now in
      let wasLiveWrapped := wrapped state || credential_wrap auth now in
      let merged := default state (mergeModelState (Some state)
                      (Some (record_state record (restored_quota record) updatedAt))) in
      let merged :=
        if negb (is_wrapped_record record) && wasLiveWrapped then land_below record updatedAt auth liveShadow merged
        else if is_wrapped_record record then land_wrapped record liveShadow merged
        else merged in
      let auth := (bump_generation (put_state auth model merged)) <| UpdatedAt := updatedAt |> in
      updateAggregatedAvailability auth now
  end.

(** [auth] is [m.auths[authID]]; the flag says whether anything was restored. *)
Definition restoreCooldownRecordLocked (record : CooldownStateRecord) (auth : option Auth) (now : time)
    : option Auth * bool :=
  if String.eqb (TrimSpace (CR_AuthID record)) "" || IsZero (CR_NextRetryAfter record)
     || negb (After (CR_NextRetryAfter record) now) then (auth, false) else
  match auth with
  | None => (auth, false)
  | Some a =>
      if Disabled a || bool_decide (A_Status a = StatusDisabled) || cooldownDisabledForAuth auth
         || hasUnauthorizedAuthFailure auth then (auth, false) else
      if String.eqb (TrimSpace (CR_Model record)) "" then (Some (restore_auth_record record now a), true)
      else (Some (restore_model_record record now a), true)
  end.

(** ** All credentials of a manager *)

Definition record_less (x y : CooldownStateRecord) : bool :=
  if negb (String.eqb (CR_Provider x) (CR_Provider y)) then String.ltb (CR_Provider x) (CR_Provider y)
  else if negb (String.eqb (CR_AuthID x) (CR_AuthID y)) then String.ltb (CR_AuthID x) (CR_AuthID y)
  else String.ltb (CR_Model x) (CR_Model y).

Definition cooldownStateRecordsSnapshot (auths : gmap string Auth) (now : time) : list CooldownStateRecord :=
  sort_by record_less
    (concat ((λ kv, cooldownStateRecordsForAuthLocked (Some kv.2) now) <$> map_to_list auths)).

Definition restore_into (now : time) (auths : gmap string Auth) (record : CooldownStateRecord) : gmap string Auth :=
  let id := TrimSpace (CR_AuthID record) in
  match restoreCooldownRecordLocked record (auths !! id) now with
  | (Some auth, true) => <[id := auth]> auths
  | _ => auths
  end.

(** The records of models come first, those of whole credentials after them. *)
Definition RestoreCooldownStates (records : list CooldownStateRecord) (now : time) (auths : gmap string Auth)
    : gmap string Auth :=
  let auths := fold_left (restore_into now) (filter (λ r, TrimSpace (CR_Model r) ≠ "") records) auths in
  fold_left (restore_into now) (filter (λ r, TrimSpace (CR_Model r) = "") records) auths.

(** ** A model's record restores the model's block *)

Definition landed (record : CooldownStateRecord) (now : time) : ModelState :=
  let merged := default fresh_state (mergeModelState (Some fresh_state)
                  (Some (record_state record (restored_quota record) (restored_at record now)))) in
  if is_wrapped_record record then land_wrapped record None merged else merged.

Lemma merge_observation_fields q q' :
  let m := mergeQuotaObservation q q' in
  Q_Exceeded m = Q_Exceeded q ∧ Q_Reason m = Q_Reason q ∧ Q_NextRecoverAt m = Q_NextRecoverAt q
  ∧ Q_BackoffLevel m = Q_BackoffLevel q.
Proof. unfold mergeQuotaObservation. by case_match. Qed.

Lemma merge_quota_fields t s preferred fallback :
  let q := merge_quota t s preferred fallback in
  Q_Exceeded q = Q_Exceeded (M_Quota t) || Q_Exceeded (M_Quota s)
  ∧ Q_NextRecoverAt q = Z.max (Q_NextRecoverAt (M_Quota t)) (Q_NextRecoverAt (M_Quota s)).
Proof.
  unfold merge_quota. cbv zeta. set (q0 := mkQuota _ _ _ _ _ _).
  destruct (merge_observation_fields q0 (M_Quota fallback)) as (He1&_&Hn1&_).
  set (q1 := mergeQuotaObservation q0 _) in *.
  destruct (merge_observation_fields q1 (M_Quota preferred)) as (He2&_&Hn2&_).
  set (q2 := mergeQuotaObservation q1 _) in *. cbn [q0 Q_Exceeded Q_NextRecoverAt] in He1, Hn1.
  rewrite He1 in He2. rewrite Hn1 in Hn2. clearbody q1 q2. unfold After. rewrite Hn2.
  destruct (Z.ltb_spec (Q_NextRecoverAt (M_Quota t)) (Q_NextRecoverAt (M_Quota s)));
    repeat match goal with |- context [if ?b then _ else _] => destruct b end; simpl; rewrite ?He2, ?Hn2; split;
    done || lia.
Qed.

(** Merging two states keeps the longer block of both. *)
Lemma mergeModelState_fields t s :
  ∃ m, mergeModelState (Some t) (Some s) = Some m
  ∧ M_Unavailable m = M_Unavailable t || M_Unavailable s
  ∧ M_NextRetryAfter m = Z.max (M_NextRetryAfter t) (M_NextRetryAfter s)
  ∧ Q_Exceeded (M_Quota m) = Q_Exceeded (M_Quota t) || Q_Exceeded (M_Quota s)
  ∧ Q_NextRecoverAt (M_Quota m) = Z.max (Q_NextRecoverAt (M_Quota t)) (Q_NextRecoverAt (M_Quota s))
  ∧ (M_Status t ≠ StatusDisabled → M_Status s ≠ StatusDisabled → M_Unavailable m = true → M_Status m = StatusError)
  ∧ (credentialQuotaShadow t = None → credentialQuotaShadow s = None → credentialQuotaShadow m = None)
  ∧ (credentialQuotaPropagated t = false → credentialQuotaPropagated s = false → credentialQuotaPropagated m = false).
Proof.
  unfold mergeModelState. destruct (if After (M_UpdatedAt s) (M_UpdatedAt t) then _ else _) as [preferred fallback] eqn:E.
  assert ((preferred = s ∧ fallback = t) ∨ (preferred = t ∧ fallback = s)) as Hpf
    by (destruct (After _ _); simplify_eq; auto).
  clear E. destruct (merge_quota_fields t s preferred fallback) as [He Hn].
  eexists. split; [reflexivity|].
  cbn [M_Unavailable M_NextRetryAfter M_Quota M_Status credentialQuotaShadow credentialQuotaPropagated].
  split_and!; [done| |done|done|..].
  - unfold After. destruct (Z.ltb_spec (M_NextRetryAfter t) (M_NextRetryAfter s)); lia.
  - intros Ht Hs ->. by rewrite !bool_decide_eq_false_2 by done.
  - intros Ht Hs. destruct Hpf as [[-> ->]|[-> ->]]; rewrite Ht, Hs; by case_match.
  - intros -> ->. by rewrite andb_false_r.
Qed.

(** What the record of a model's state restores. *)
Definition recoverable (record : CooldownStateRecord) : Prop :=
  0 < CR_NextRetryAfter record ∧ quota_wf (CR_Quota record).

Lemma restored_quota_wf record : recoverable record → restored_quota record = CR_Quota record.
Proof.
  intros [_ [He _]]. unfold restored_quota. rewrite He. by destruct (IsZero _).
Qed.

Lemma landed_fields record now :
  recoverable record →
  let s := landed record now in
  M_Status s = StatusError ∧ M_Unavailable s = true ∧ M_NextRetryAfter s = CR_NextRetryAfter record
  ∧ Q_Exceeded (M_Quota s) = Q_Exceeded (CR_Quota record)
  ∧ Q_NextRecoverAt (M_Quota s) = Q_NextRecoverAt (CR_Quota record)
  ∧ credentialQuotaShadow s = cloneShallow <$> IndependentState record
  ∧ credentialQuotaPropagated s = is_wrapped_record record.
Proof.
  intros Hr. pose proof Hr as [H0 [_ Hq]]. unfold landed.
  destruct (mergeModelState_fields fresh_state (record_state record (restored_quota record) (restored_at record now)))
    as (m&->&Hu&Hn&He&Hrec&Hst&Hsh&Hpr).
  rewrite (restored_quota_wf record Hr) in Hn, He, Hrec. simpl default.
  unfold record_state in *. cbn -[Z.max] in Hu, Hn, He, Hrec, Hst, Hsh, Hpr.
  rewrite Z.max_r in Hn by lia. rewrite Z.max_r in Hrec by lia.
  specialize (Hst ltac:(done) ltac:(done) Hu). specialize (Hsh eq_refl eq_refl). specialize (Hpr eq_refl eq_refl).
  cbv zeta. destruct (is_wrapped_record record) eqn:Ew.
  - unfold land_wrapped. by destruct (IndependentState record); simpl.
  - split_and!; try done. rewrite Hsh. unfold is_wrapped_record in Ew. by destruct (IndependentState record).
Qed.

(** ** One credential through the records of its models *)

(** A credential that takes part in restoring. *)
Definition eligible (auth : Auth) : Prop :=
  Disabled auth = false ∧ A_Status auth ≠ StatusDisabled ∧ cooldownDisabledForAuth (Some auth) = false
  ∧ LastError auth = None.

Lemma eligible_plain auth : eligible auth → hasUnauthorizedAuthFailure (Some auth) = false.
Proof. intros (_&_&_&He). unfold hasUnauthorizedAuthFailure. by rewrite He. Qed.

Lemma aggregate_eligible auth now : eligible auth → eligible (updateAggregatedAvailability auth now).
Proof.
  intros H. unfold updateAggregatedAvailability, updateAggregatedAvailability_in.
  destruct (hasUnauthorizedAuthFailure _); [done|]. destruct (credential_wrap _ _); [done|].
  destruct (negb _); [done|]. cbv zeta. destruct (quotaExceeded _); [done|]. by destruct (_ && _).
Qed.

(** Aggregation reports a quota of the models, never one of the credential. *)
Lemma aggregate_not_wrapped auth now :
  credential_wrap auth now = false → credential_wrap (updateAggregatedAvailability auth now) now = false.
Proof.
  intros Hw. unfold updateAggregatedAvailability, updateAggregatedAvailability_in.
  destruct (hasUnauthorizedAuthFailure _); [done|]. rewrite Hw. destruct (negb _); [done|]. cbv zeta.
  destruct (quotaExceeded _); [done|]. by destruct (_ && _).
Qed.

(** Every state there is still waiting for its deadline. *)
Definition all_running (now : time) (auth : Auth) : Prop :=
  ∀ k s, ModelStates auth !! k = Some (Some s) → now < M_NextRetryAfter s.

Lemma aggregate_running now auth :
  all_running now auth → ModelStates (updateAggregatedAvailability auth now) = ModelStates auth.
Proof.
  intros Hl. destruct (updateAggregatedAvailability_states auth now) as [E|E]; [done|]. rewrite E.
  apply map_eq. intros k. rewrite lookup_fmap. destruct (ModelStates auth !! k) as [[s | ] | ] eqn:Ek; [|done|done].
  simpl. by rewrite expire_running by (by apply (Hl k)).
Qed.

Definition ready (now : time) (auth : Auth) : Prop :=
  eligible auth ∧ credential_wrap auth now = false ∧ keys_normal auth ∧ all_running now auth.

Lemma restore_model_record_step record now auth :
  ready now auth → recoverable record → now < CR_NextRetryAfter record →
  TrimSpace (CR_Model record) = CR_Model record → normal (CR_Model record) →
  ModelStates auth !! CR_Model record = None →
  let auth' := restore_model_record record now auth in
  ready now auth' ∧ ModelStates auth' = <[CR_Model record := Some (landed record now)]> (ModelStates auth).
Proof.
  intros (He&Hw&Hk&Hl) Hrec Hlive Ht Hn Hnone. unfold restore_model_record. rewrite Ht.
  rewrite ensure_normal by done. unfold existingModelState. pose proof Hn as [Hc Hne].
  rewrite Hc, (proj2 (String.eqb_neq _ _) Hne), Hnone. cbn [default].
  set (auth1 := auth <| ModelStates := _ |>).
  assert (credential_wrap auth1 now = false) as Hw1 by done. rewrite Hw1.
  assert (live_shadow fresh_state now = None) as -> by done.
  change (wrapped fresh_state || false) with false. rewrite andb_false_r. cbv iota zeta.
  fold (landed record now). destruct (landed_fields record now Hrec) as (_&_&Hr&_).
  set (s := landed record now) in *. clearbody s.
  set (auth2 := (bump_generation (put_state auth1 (CR_Model record) s)) <| UpdatedAt := restored_at record now |>).
  assert (ModelStates auth2 = <[CR_Model record := Some s]> (ModelStates auth)) as Hm.
  { unfold auth2, bump_generation. rewrite put_normal by done. simpl. by rewrite insert_insert_eq. }
  assert (eligible auth2 ∧ credential_wrap auth2 now = false) as [He2 Hw2] by done.
  assert (all_running now auth2) as Hl2.
  { intros k s' Hs. rewrite Hm in Hs. apply lookup_insert_Some in Hs as [[<- [= <-]]|[_ Hs]]; [lia|by apply (Hl k)]. }
  assert (keys_normal auth2) as Hk2.
  { intros k Hs. rewrite Hm in Hs. destruct (decide (k = CR_Model record)) as [->|Hx]; [done|].
    rewrite lookup_insert_ne in Hs by done. by apply Hk. }
  clearbody auth2. pose proof (aggregate_running now auth2 Hl2) as Ha. split; [|by rewrite Ha].
  split_and!; [by apply aggregate_eligible|by apply aggregate_not_wrapped|..].
  - unfold keys_normal. by rewrite Ha.
  - unfold all_running. by rewrite Ha.
Qed.

(** ** One credential through all records *)

Definition own (id : string) (r : CooldownStateRecord) : Prop := TrimSpace (CR_AuthID r) = id.
#[export] Instance own_dec id r : Decision (own id r).
Proof. unfold own. apply _. Defined.

Definition restore_own (now : time) (auth : option Auth) (r : CooldownStateRecord) : option Auth :=
  (restoreCooldownRecordLocked r auth now).1.

Lemma restore_skipped r auth now :
  (restoreCooldownRecordLocked r auth now).2 = false → restore_own now auth r = auth.
Proof.
  unfold restore_own, restoreCooldownRecordLocked. destruct (_ || _); [done|].
  destruct auth as [a | ]; [|done]. destruct (_ || _); [done|]. by destruct (String.eqb _ _).
Qed.

Lemma restore_flag_some r auth now :
  (restoreCooldownRecordLocked r auth now).2 = true → is_Some (restore_own now auth r).
Proof.
  unfold restore_own, restoreCooldownRecordLocked. destruct (_ || _); [done|].
  destruct auth as [a | ]; [|done]. destruct (_ || _); [done|]. by destruct (String.eqb _ _).
Qed.

(** Records of other credentials pass a credential by. *)
Lemma restore_fold_own id now L auths :
  fold_left (restore_into now) L auths !! id = fold_left (restore_own now) (filter (own id) L) (auths !! id).
Proof.
  revert auths. induction L as [|r L IH]; intros auths; [done|]. simpl. rewrite IH, filter_cons.
  assert (restore_into now auths r !! id = (if decide (own id r) then restore_own now (auths !! id) r else auths !! id)) as E.
  { unfold restore_into. destruct (decide (own id r)) as [Ho|Ho].
    - unfold own in Ho. rewrite Ho.
      pose proof (restore_skipped r (auths !! id) now) as Hs. pose proof (restore_flag_some r (auths !! id) now) as Hf.
      unfold restore_own in *. destruct (restoreCooldownRecordLocked r (auths !! id) now) as [[a | ] [ | ]]; simpl in *.
      + by rewrite lookup_insert_eq.
      + by rewrite Hs.
      + by destruct (Hf eq_refl).
      + by rewrite Hs.
    - destruct (restoreCooldownRecordLocked r _ now) as [[a | ] [ | ]]; [|done..].
      by rewrite lookup_insert_ne. }
  rewrite E. by destruct (decide (own id r)).
Qed.

(** A record of a model, as it was written. *)
Definition model_record (id : string) (r : CooldownStateRecord) : Prop :=
  own id r ∧ id ≠ "" ∧ recoverable r ∧ TrimSpace (CR_Model r) = CR_Model r ∧ normal (CR_Model r).

Lemma restore_own_model id now auth r :
  ready now auth → model_record id r →
  restore_own now (Some auth) r = Some (if now <? CR_NextRetryAfter r then restore_model_record r now auth else auth).
Proof.
  intros (He&_) (Ho&Hid&[H0 _]&Ht&[_ Hne]). unfold restore_own, restoreCooldownRecordLocked.
  rewrite (eligible_plain auth He).
  rewrite Ho, (proj2 (String.eqb_neq _ _) Hid). unfold IsZero, zero_time. rewrite (proj2 (Z.eqb_neq _ _)) by lia.
  simpl. unfold After. destruct (now <? CR_NextRetryAfter r); [|done]. destruct He as (->&Hs&->&_).
  rewrite bool_decide_eq_false_2 by done. simpl. by rewrite Ht, (proj2 (String.eqb_neq _ _) Hne).
Qed.

Lemma restore_models_spec id now L auth :
  ready now auth → (∀ r, r ∈ L → model_record id r ∧ ModelStates auth !! CR_Model r = None) →
  NoDup (CR_Model <$> L) →
  ∃ auth', fold_left (restore_own now) L (Some auth) = Some auth' ∧ ready now auth'
    ∧ (∀ r, r ∈ L → now < CR_NextRetryAfter r → ModelStates auth' !! CR_Model r = Some (Some (landed r now)))
    ∧ (∀ k, (∀ r, r ∈ L → CR_Model r = k → CR_NextRetryAfter r ≤ now) →
         ModelStates auth' !! k = ModelStates auth !! k).
Proof.
  revert auth. induction L as [|r L IH]; intros auth Hready HL Hnd.
  { exists auth. split_and!; [done|done| |done]. intros r Hr. by apply not_elem_of_nil in Hr. }
  simpl in Hnd. apply NoDup_cons in Hnd as [Hr Hnd].
  destruct (HL r (list_elem_of_here _ _)) as [Hrec Hnone]. simpl. rewrite (restore_own_model id) by done.
  destruct (Z.ltb_spec now (CR_NextRetryAfter r)) as [Hlive|Hdead].
  - pose proof Hrec as (_&_&Hrc&Ht&Hn).
    destruct (restore_model_record_step r now auth Hready Hrc Hlive Ht Hn Hnone) as [Hready' Hm]. cbv zeta in Hready', Hm.
    set (auth1 := restore_model_record r now auth) in *. clearbody auth1.
    destruct (IH auth1 Hready') as (auth'&Hf&Hrd&Hin&Hout); [|done|].
    { intros r' Hr'. destruct (HL r' (list_elem_of_further _ _ _ Hr')) as [Hrec' Hnone']. split; [done|].
      rewrite Hm, lookup_insert_ne; [done|]. intros E. apply Hr. rewrite E. by apply list_elem_of_fmap_2. }
    exists auth'. split_and!; [done|done|..].
    + intros r' Hr' Hl'. apply elem_of_cons in Hr' as [->|Hr']; [|by apply Hin].
      rewrite Hout; [by rewrite Hm, lookup_insert_eq|]. intros r' Hr' E. exfalso. apply Hr. rewrite <-E.
      by apply list_elem_of_fmap_2.
    + intros k Hk. rewrite Hout by (intros r' Hr'; apply Hk; by right). rewrite Hm, lookup_insert_ne; [done|].
      intros E. specialize (Hk r (list_elem_of_here _ _) E). lia.
  - destruct (IH auth Hready) as (auth'&Hf&Hrd&Hin&Hout); [|done|].
    { intros r' Hr'. apply HL. by right. }
    exists auth'. split_and!; [done|done|..].
    + intros r' Hr' Hl'. apply elem_of_cons in Hr' as [->|Hr']; [lia|by apply Hin].
    + intros k Hk. apply Hout. intros r' Hr'. apply Hk. by right.
Qed.

(** The record of the whole credential, after those of its models. *)
Lemma restore_own_auth id now auth r :
  ready now auth → own id r → id ≠ "" → CR_Model r = "" → recoverable r →
  ∃ auth', restore_own now (Some auth) r = Some auth' ∧ ModelStates auth' = ModelStates auth
    ∧ (now < CR_NextRetryAfter r →
       Unavailable auth' = true ∧ NextRetryAfter auth' = CR_NextRetryAfter r
       ∧ Q_Exceeded (Quota auth') = Q_Exceeded (CR_Quota r) ∧ Q_Reason (Quota auth') = Q_Reason (CR_Quota r)
       ∧ Q_NextRecoverAt (Quota auth') = Q_NextRecoverAt (CR_Quota r)).
Proof.
  intros (He&_) Ho Hid Hm Hr. pose proof Hr as [H0 _]. unfold restore_own, restoreCooldownRecordLocked.
  rewrite (eligible_plain auth He). rewrite Ho, (proj2 (String.eqb_neq _ _) Hid), Hm. unfold IsZero, zero_time. rewrite (proj2 (Z.eqb_neq _ _)) by lia.
  simpl. unfold After. destruct (Z.ltb_spec now (CR_NextRetryAfter r)) as [Hl|Hl]; simpl.
  2:{ exists auth. split_and!; [done|done|lia]. }
  destruct He as (->&Hs&->&_).
  rewrite bool_decide_eq_false_2 by done. simpl. eexists. split; [reflexivity|].
  unfold restore_auth_record. rewrite (restored_quota_wf r Hr). cbv zeta.
  destruct (merge_observation_fields (applyCooldownFields (Quota auth) (CR_Quota r)) (CR_Quota r)) as (H1&H2&H3&_).
  set (q := mergeQuotaObservation _ _) in *. clearbody q. destruct (negb _); simpl; by split_and!.
Qed.

(** ** The records of one credential in the snapshot *)

Definition model_records (a : Auth) (t : time) : list CooldownStateRecord :=
  omap (λ kv, modelCooldownStateRecord a kv.1 kv.2 t) (map_to_list (ModelStates a)).

Lemma records_of_auth a t :
  ID a ≠ "" → Disabled a = false → A_Status a ≠ StatusDisabled → cooldownDisabledForAuth (Some a) = false →
  cooldownStateRecordsForAuthLocked (Some a) t ≡ₚ option_list (authCooldownStateRecord a t) ++ model_records a t.
Proof.
  intros Hid Hd Hs Hc. unfold cooldownStateRecordsForAuthLocked.
  rewrite Hd, Hc, (proj2 (String.eqb_neq _ _) Hid), bool_decide_eq_false_2 by done. apply sort_by_perm.
Qed.

Lemma record_id a t r : r ∈ cooldownStateRecordsForAuthLocked (Some a) t → CR_AuthID r = ID a.
Proof.
  unfold cooldownStateRecordsForAuthLocked. case_match; [by intros ?%elem_of_nil|].
  rewrite elem_of_sort_by, elem_of_app, elem_of_option_list, list_elem_of_omap.
  intros [Hr|([k o]&_&Hr)]; unfold authCooldownStateRecord, modelCooldownStateRecord in Hr.
  - by case_match; simplify_eq.
  - simpl in Hr. destruct o; [|done]. by case_match; simplify_eq.
Qed.

Lemma filter_own_concat id (ls : list (string * Auth)) t :
  (∀ kv, kv ∈ ls → TrimSpace (ID kv.2) ≠ id) →
  filter (own id) (concat ((λ kv, cooldownStateRecordsForAuthLocked (Some kv.2) t) <$> ls)) = [].
Proof.
  intros H. apply filter_none. intros r Hr Ho. apply elem_of_concat in Hr as (l&Hr&Hl).
  apply list_elem_of_fmap in Hl as (kv&->&Hkv). apply record_id in Hr. unfold own in Ho. rewrite Hr in Ho.
  by apply (H kv Hkv).
Qed.

(** Credentials are filed under their trimmed identifiers. *)
Definition filed (auths : gmap string Auth) : Prop := ∀ id a, auths !! id = Some a → ID a = id ∧ TrimSpace id = id.

Lemma snapshot_own auths id a t :
  filed auths → auths !! id = Some a →
  filter (own id) (cooldownStateRecordsSnapshot auths t) ≡ₚ cooldownStateRecordsForAuthLocked (Some a) t.
Proof.
  intros Hf Ha. unfold cooldownStateRecordsSnapshot. rewrite sort_by_perm.
  assert (map_to_list auths ≡ₚ (id, a) :: map_to_list (delete id auths)) as ->.
  { rewrite <-map_to_list_insert by apply lookup_delete_eq. by rewrite insert_delete_id. }
  rewrite fmap_cons. cbn [concat snd]. rewrite filter_app, filter_own_concat.
  - rewrite app_nil_r. rewrite filter_all; [done|]. intros r Hr. apply record_id in Hr. unfold own.
    rewrite Hr. destruct (Hf id a Ha) as [-> ?]. done.
  - intros [id' a'] Hin. apply elem_of_map_to_list, lookup_delete_Some in Hin as [Hne Hin]. simpl.
    destruct (Hf id' a' Hin) as [-> ->]. congruence.
Qed.

Lemma filter_fmap_own id (L : list CooldownStateRecord) : filter (own id) (reloaded <$> L) = reloaded <$> filter (own id) L.
Proof.
  induction L as [|r L IH]; [done|]. rewrite fmap_cons, !filter_cons, IH.
  by destruct (decide (own id r)), (decide (own id (reloaded r))).
Qed.

(** The keys under which a credential files its states are trimmed. *)
Lemma normal_trimmed key : normal key → TrimSpace key = key.
Proof.
  intros [Hc Hne]. unfold canonicalModelKey in Hc. cbv zeta in Hc.
  destruct (String.eqb (TrimSpace key) ""); [congruence|].
  destruct (String.eqb (TrimSpace _) ""); [done|].
  rewrite <-Hc. apply TrimSpace_idemp.
Qed.

Lemma model_records_elem a t r :
  keys_normal a → r ∈ model_records a t →
  ∃ k s, ModelStates a !! k = Some (Some s) ∧ CR_Model r = k ∧ t < M_NextRetryAfter s
    ∧ modelCooldownStateRecord a k (Some s) t = Some r.
Proof.
  intros Hk. unfold model_records. rewrite list_elem_of_omap. intros ([k o]&Hin&Hr). simpl in Hr.
  apply elem_of_map_to_list in Hin. pose proof (normal_trimmed k (Hk k ltac:(by eexists))) as Ht.
  pose proof Hr as Hr'. unfold modelCooldownStateRecord in Hr. rewrite Ht in Hr. destruct o as [s | ]; [|done].
  destruct (_ || _) eqn:E; [done|]. injection Hr as <-. exists k, s. unfold After in E. to_prop.
  split_and!; done || lia.
Qed.

Lemma omap_models_NoDup (f : string → option ModelState → option CooldownStateRecord) l :
  (∀ k o r, (k, o) ∈ l → f k o = Some r → CR_Model r = k) → NoDup l.*1 →
  NoDup (CR_Model <$> omap (λ kv, f kv.1 kv.2) l).
Proof.
  induction l as [|[k o] l IH]; intros Hf Hnd; [constructor|]. simpl in *.
  apply NoDup_cons in Hnd as [Hk Hnd].
  assert (NoDup (CR_Model <$> omap (λ kv, f kv.1 kv.2) l)) as Hl.
  { apply IH; [|done]. intros k' o' r Hin. apply Hf. by right. }
  destruct (f k o) as [r | ] eqn:E; [|done]. simpl. constructor; [|done].
  intros Hin. apply list_elem_of_fmap in Hin as (r'&Er&Hin). apply list_elem_of_omap in Hin as ([k' o']&Hin&E').
  simpl in E'. apply Hk. rewrite (Hf k o r) in Er; [|by left|done].
  rewrite (Hf k' o' r') in Er; [|by right|done]. subst. apply list_elem_of_fmap. by exists (k', o').
Qed.

Lemma model_records_NoDup a t : keys_normal a → NoDup (CR_Model <$> model_records a t).
Proof.
  intros Hk. unfold model_records.
  apply (omap_models_NoDup (λ k o, modelCooldownStateRecord a k o t)); [|apply NoDup_fst_map_to_list].
  intros k o r Hin Hr. apply elem_of_map_to_list in Hin.
  unfold modelCooldownStateRecord in Hr. rewrite (normal_trimmed k (Hk k ltac:(by eexists))) in Hr.
  destruct o as [s | ]; [|done]. by case_match; simplify_eq.
Qed.

(** A model's record, once reloaded, restores the block and the layer below it. *)
Lemma reloaded_state_block a k s t r now :
  state_wf s → M_Unavailable s = true → M_Status s ≠ StatusDisabled → 0 < t →
  modelCooldownStateRecord a k (Some s) t = Some r →
  recoverable (reloaded r)
  ∧ (∀ u, state_block u (landed (reloaded r) now) = state_block u s)
  ∧ credentialQuotaShadow (landed (reloaded r) now) = reloaded_state <$> credentialQuotaShadow s.
Proof.
  intros [Hwf _] Hu Hs Ht Hr. unfold modelCooldownStateRecord in Hr. destruct (_ || _) eqn:E; [done|].
  injection Hr as <-. unfold After in E. to_prop.
  match goal with |- context [reloaded ?x] => set (r := x) end.
  assert (recoverable (reloaded r)) as Hrec by (split; [simpl; lia|exact Hwf]).
  destruct (landed_fields (reloaded r) now Hrec) as (Fs&Fu&Fr&Fe&Fn&Fh&_). split; [done|]. split.
  - intros u. unfold state_block. rewrite Fs, Fu, Fr, Fe, Fn, Hu. simpl.
    by rewrite bool_decide_eq_false_2 by done.
  - rewrite Fh. simpl. by destruct (credentialQuotaShadow s).
Qed.

(** Both passes over the reloaded snapshot, as one credential sees them. *)
Lemma restored_lookup saved loaded id a t now :
  filed saved → saved !! id = Some a → ID a ≠ "" → Disabled a = false → A_Status a ≠ StatusDisabled →
  cooldownDisabledForAuth (Some a) = false → keys_normal a →
  ∃ Lm La, Lm ≡ₚ reloaded <$> model_records a t ∧ La = reloaded <$> option_list (authCooldownStateRecord a t)
    ∧ RestoreCooldownStates (reloaded <$> cooldownStateRecordsSnapshot saved t) now loaded !! id
      = fold_left (restore_own now) La (fold_left (restore_own now) Lm (loaded !! id)).
Proof.
  intros Hf Ha Hid Hd Hs Hc Hk. set (records := reloaded <$> cooldownStateRecordsSnapshot saved t).
  assert (filter (own id) records ≡ₚ (reloaded <$> option_list (authCooldownStateRecord a t)) ++ (reloaded <$> model_records a t)) as Hp.
  { unfold records. rewrite filter_fmap_own, (snapshot_own saved id a t Hf Ha), records_of_auth by done.
    by rewrite fmap_app. }
  assert (∀ r, r ∈ reloaded <$> option_list (authCooldownStateRecord a t) → CR_Model r = "") as Hauth.
  { intros r Hr. apply list_elem_of_fmap in Hr as (r'&->&Hr). apply elem_of_option_list in Hr.
    unfold authCooldownStateRecord in Hr. by case_match; simplify_eq. }
  assert (∀ r, r ∈ reloaded <$> model_records a t → TrimSpace (CR_Model r) ≠ "") as Hmodel.
  { intros r Hr. apply list_elem_of_fmap in Hr as (r'&->&Hr).
    destruct (model_records_elem a t r' Hk Hr) as (k&s&Hks&Hkr&_). change (CR_Model (reloaded r')) with (CR_Model r').
    assert (normal k) as Hn by (apply Hk; by eexists). rewrite Hkr, (normal_trimmed k Hn). apply Hn. }
  assert (∀ (P : CooldownStateRecord → Prop) `{∀ r, Decision (P r)},
    filter (own id) (filter P records) ≡ₚ
      filter P (reloaded <$> option_list (authCooldownStateRecord a t)) ++ filter P (reloaded <$> model_records a t)) as Hfilter.
  { intros P HP. rewrite <-filter_app, <-Hp, !list_filter_filter.
    rewrite (list_filter_iff (λ r, own id r ∧ P r) (λ r, P r ∧ own id r)); [done|]. naive_solver. }
  exists (filter (own id) (filter (λ r, TrimSpace (CR_Model r) ≠ "") records)),
    (filter (own id) (filter (λ r, TrimSpace (CR_Model r) = "") records)).
  split_and!; [| |unfold RestoreCooldownStates; by rewrite !restore_fold_own].
  - rewrite Hfilter, filter_none, filter_all; [done|exact Hmodel|]. intros r Hr Hx. apply Hx. by rewrite (Hauth r Hr).
  - pose proof (Hfilter (λ r, TrimSpace (CR_Model r) = "") _) as Hq.
    rewrite (filter_all _ (reloaded <$> option_list _)) in Hq by (intros r Hr; by rewrite (Hauth r Hr)).
    rewrite (filter_none _ (reloaded <$> model_records a t)), app_nil_r in Hq by exact Hmodel.
    destruct (authCooldownStateRecord a t); simpl in *; [by apply Permutation_singleton_r in Hq|].
    by apply Permutation_nil_r in Hq.
Qed.

(** The record of the whole credential, if it was written. *)
Lemma restored_credential id a t now c1 :
  0 < t ≤ now → ready now c1 → TrimSpace id = id → ID a = id → id ≠ "" → quota_wf (Quota a) →
  ∃ c, fold_left (restore_own now) (reloaded <$> option_list (authCooldownStateRecord a t)) (Some c1) = Some c
    ∧ ModelStates c = ModelStates c1
    ∧ (Unavailable a = true → now < NextRetryAfter a → Unavailable c = true ∧ NextRetryAfter c = NextRetryAfter a
       ∧ ∀ u, credential_quota c u = credential_quota a u).
Proof.
  intros Ht Hr Htrim HID Hid Hq. unfold authCooldownStateRecord.
  destruct (_ || _) eqn:E.
  - exists c1. split_and!; [done|done|]. intros Hu Hl. exfalso. rewrite Hu in E. unfold After, IsZero, zero_time in E.
    rewrite (proj2 (Z.eqb_neq _ _)), (proj2 (Z.ltb_lt _ _)) in E by lia. done.
  - unfold After in E. to_prop. match goal with |- context [option_list (Some ?x)] => set (r := x) end.
    destruct (restore_own_auth id now c1 (reloaded r) Hr) as (c&Hc&Hm&Hl);
      [unfold own; simpl; by rewrite HID|done|done|split; [simpl; lia|exact Hq]|].
    exists c. split_and!; [exact Hc|done|]. intros _ Hnow. destruct (Hl Hnow) as (Hu&Hn&He&Hre&Hnx).
    split_and!; [done|done|]. intros u. unfold credential_quota. by rewrite He, Hre, Hnx.
Qed.

(** C34: Cooldowns survive a restart.  The records written of every credential, reloaded
    and restored into freshly loaded credentials at a later time, give each model
    whose cooldown is still running a state that every availability test sees as it
    saw the original, and the layer below a credential-wide quota; they bring back
    no cooldown that has ended; and a cooldown of the whole credential comes back
    with its deadline and its quota. *)
Theorem cooldowns_survive_restart (saved loaded : gmap string Auth) (id : string) (a b : Auth) (t now : time)
    (Ht : 0 < t ≤ now) (Hfiled : filed saved) (Ha : saved !! id = Some a) (Hid : id ≠ "")
    (Hon : Disabled a = false ∧ A_Status a ≠ StatusDisabled ∧ cooldownDisabledForAuth (Some a) = false)
    (Hinv : keys_normal a ∧ auth_wf a)
    (Hb : loaded !! id = Some b) (Hfresh : eligible b ∧ ModelStates b = ∅ ∧ credential_wrap b now = false) :
  ∃ c, RestoreCooldownStates (reloaded <$> cooldownStateRecordsSnapshot saved t) now loaded !! id = Some c
  ∧ (∀ k s, ModelStates a !! k = Some (Some s) → M_Unavailable s = true → M_Status s ≠ StatusDisabled →
       now < M_NextRetryAfter s →
       ∃ s', ModelStates c !! k = Some (Some s') ∧ (∀ u, state_block u s' = state_block u s)
         ∧ credentialQuotaShadow s' = reloaded_state <$> credentialQuotaShadow s)
  ∧ (∀ k, (∀ s, ModelStates a !! k = Some (Some s) → M_NextRetryAfter s ≤ now) → ModelStates c !! k = None)
  ∧ (Unavailable a = true → now < NextRetryAfter a →
       Unavailable c = true ∧ NextRetryAfter c = NextRetryAfter a
       ∧ ∀ u, credential_quota c u = credential_quota a u).
Proof.
  destruct Hon as (Hd&Hs&Hc), Hinv as [Hk Hwf], Hfresh as (He&Hm&Hw).
  destruct (Hfiled id a Ha) as [HID Htrim]. assert (ID a ≠ "") as Hne by congruence.
  destruct (restored_lookup saved loaded id a t now Hfiled Ha Hne Hd Hs Hc Hk) as (Lm&La&HLm&->&->). rewrite Hb.
  assert (ready now b) as Hready.
  { split_and!; [done|done|..]; intros k; rewrite Hm, lookup_empty; [by intros [? ?]|done]. }
  assert (∀ k s r, ModelStates a !! k = Some (Some s) → modelCooldownStateRecord a k (Some s) t = Some r →
    CR_Model r = k ∧ CR_NextRetryAfter r = M_NextRetryAfter s ∧ CR_AuthID r = id ∧ recoverable (reloaded r)) as Hrec.
  { intros k s r Hks Hr. assert (state_wf s) as [Hq _] by by apply (proj2 Hwf k).
    unfold modelCooldownStateRecord in Hr. rewrite (normal_trimmed k (Hk k ltac:(by eexists))) in Hr.
    destruct (_ || _) eqn:E; [done|]. injection Hr as <-. unfold After in E. to_prop.
    split_and!; [done|done|done|]. split; [simpl; lia|exact Hq]. }
  destruct (restore_models_spec id now Lm b Hready) as (c1&->&Hr1&Hin&Hout).
  { intros r Hr. rewrite HLm in Hr. apply list_elem_of_fmap in Hr as (r'&->&Hr).
    destruct (model_records_elem a t r' Hk Hr) as (k&s&Hks&Hkr&_&Hmr).
    destruct (Hrec k s r' Hks Hmr) as (_&_&Hi&Hrc). split; [|by rewrite Hm, lookup_empty].
    assert (normal k) as Hn by (apply Hk; by eexists).
    split_and!; [unfold own; simpl; by rewrite Hi|done|done|..]; simpl; rewrite Hkr; [by apply normal_trimmed|apply Hn..]. }
  { rewrite HLm, <-list_fmap_compose. by apply (model_records_NoDup a t). }
  assert (∃ c, fold_left (restore_own now) (reloaded <$> option_list (authCooldownStateRecord a t)) (Some c1) = Some c
    ∧ ModelStates c = ModelStates c1
    ∧ (Unavailable a = true → now < NextRetryAfter a → Unavailable c = true ∧ NextRetryAfter c = NextRetryAfter a
       ∧ ∀ u, credential_quota c u = credential_quota a u)) as (c&->&Hmc&Hcred).
  { by apply (restored_credential id a t now c1); [lia|..|apply Hwf]. }
  exists c. split; [done|]. rewrite Hmc. split_and!; [| |exact Hcred].
  - intros k s Hks Hu Hst Hl. destruct (modelCooldownStateRecord a k (Some s) t) as [r | ] eqn:Er.
    + destruct (reloaded_state_block a k s t r now (proj2 Hwf k s Hks) Hu Hst ltac:(lia) Er) as (_&Hblock&Hsh).
      destruct (Hrec k s r Hks Er) as (Hkr&Hnr&_). exists (landed (reloaded r) now).
      split; [|by split]. rewrite <-Hkr. apply (Hin (reloaded r)); [|simpl; lia].
      rewrite HLm. apply list_elem_of_fmap_2, list_elem_of_omap. exists (k, Some s).
      split; [by apply elem_of_map_to_list|done].
    + exfalso. unfold modelCooldownStateRecord in Er. rewrite (normal_trimmed k (Hk k ltac:(by eexists))) in Er.
      rewrite Hu in Er. unfold After, IsZero, zero_time in Er. rewrite (proj2 (Z.eqb_neq _ _)) in Er by lia.
      rewrite (proj2 (Z.ltb_lt t _)) in Er by lia.
      rewrite (proj2 (String.eqb_neq _ _) (proj2 (Hk k ltac:(by eexists)))) in Er. done.
  - intros k Hend. rewrite Hout; [by rewrite Hm, lookup_empty|]. intros r Hr E.
    rewrite HLm in Hr. apply list_elem_of_fmap in Hr as (r'&->&Hr).
    destruct (model_records_elem a t r' Hk Hr) as (k'&s&Hks&Hkr&_&Hmr). simpl in *. subst.
    destruct (Hrec _ s r' Hks Hmr) as (_&Hn&_). rewrite Hn. by apply Hend.
Qed.
End records.

(** A credential that is cooling on one model is saved, and loaded again later with
    nothing but its identity. *)
Definition saved_auth : Auth := plain_auth <| ModelStates := {["gpt-4" := Some (cooling_state (noon + Hour))]} |>.

Lemma cooldowns_survive_restart_witness :
  ∃ c s', @RestoreCooldownStates default_settings
            (reloaded <$> @cooldownStateRecordsSnapshot default_settings {["a" := saved_auth]} noon)
            (noon + Minute) {["a" := plain_auth]} !! "a" = Some c
  ∧ ModelStates c !! "gpt-4" = Some (Some s')
  ∧ state_block (noon + 2 * Minute) s' = (true, blockReasonCooldown, noon + Hour).
Proof.
  assert (filed {["a" := saved_auth]}) as Hf.
  { intros id a E. apply lookup_singleton_Some in E as [<- <-]. split; by vm_compute. }
  assert (keys_normal saved_auth ∧ auth_wf saved_auth) as Hi.
  { split; [|split; [by vm_compute|]].
    - intros k [o Hk]. unfold saved_auth in Hk. simpl in Hk. apply lookup_singleton_Some in Hk as [<- _].
      split; [by vm_compute|done].
    - intros k s Hk. unfold saved_auth in Hk. simpl in Hk. apply lookup_singleton_Some in Hk as [_ [= <-]].
      by vm_compute. }
  assert (@eligible default_settings plain_auth ∧ ModelStates plain_auth = ∅ ∧ credential_wrap plain_auth (noon + Minute) = false)
    as Hb by (split_and!; done).
  destruct (@cooldowns_survive_restart default_settings {["a" := saved_auth]} {["a" := plain_auth]} "a" saved_auth plain_auth
    noon (noon + Minute) ltac:(unfold noon, Minute, Second; lia) Hf ltac:(by vm_compute) ltac:(done)
    ltac:(split_and!; done) Hi ltac:(by vm_compute) Hb) as (c&Hc&Hm&_).
  destruct (Hm "gpt-4" (cooling_state (noon + Hour))) as (s'&Hs&Hblock&_); [done|done|done|by vm_compute|].
  exists c, s'. split; [exact Hc|]. split; [exact Hs|]. rewrite Hblock. by vm_compute.
Defined.

(** An older record that lands below a running credential limit replaces a newer
    cooldown of the live state, when that state has not been wrapped yet. *)
Definition newer_live : ModelState := (cooling_state (noon + Hour)) <| M_UpdatedAt := noon |>.
Definition limited_auth : Auth :=
  plain_auth <| ModelStates := {["gpt-4" := Some newer_live]} |>
             <| Quota := mkQuota true "credential_quota" (noon + Minute) 0 0 ∅ |>.
Definition older_record : CooldownStateRecord :=
  mkRecord "codex" "a" "" "gpt-4" "cooling" (noon + 2 * Minute) "quota"
    (mkQuota true "quota" (noon + 2 * Minute) 0 0 ∅) None (noon - Minute) None false.

Definition layer_of (auth : option Auth) (model : string) : option ModelState :=
  match auth with
  | Some a => match existingModelState a model with Some s => credentialQuotaShadow s | None => None end
  | None => None
  end.

Lemma older_record_replaces_layer :
  let restored := (@restoreCooldownRecordLocked default_settings older_record (Some limited_auth) noon).1 in
  option_map M_UpdatedAt (live_shadow newer_live noon) = Some noon
  ∧ option_map (λ s, (M_NextRetryAfter s, M_UpdatedAt s)) (layer_of restored "gpt-4")
    = Some (noon + 2 * Minute, noon - Minute).
Proof. split; vm_compute; reflexivity. Qed.
