(* ===== verification/Rotation.v ===== *)
(** * Rotation through a list sorted by ID

    Models [successorIndex] of [selector.go] and [scheduledSuccessorIndex] of
    [scheduler.go], the same binary search written once over the type of the
    candidates.  The rotation continues from the identity of the previous pick,
    so it survives changes of the candidate list. *)
From Stdlib Require Import ZArith Lia String Bool Sorted.
From stdpp Require Import prelude gmap strings.
From S2P Require Import Prelude GoStd.
Local Open Scope string_scope.
Local Open Scope list_scope.

Section successor.
Context {A : Type} (id : A → string).
Implicit Types (l : list A) (a b : A).

Definition id_after (lastID : string) (l : list A) (i : nat) : bool :=
  match l !! i with Some a => String.ltb lastID (id a) | None => false end.

Definition successorIndex (l : list A) (lastID : string) : nat :=
  if String.eqb lastID "" then O else
  let index := sort_Search (length l) (id_after lastID l) in
  if (length l <=? index)%nat then O else index.

(** Sorted by ID, no two alike: what [sort.Slice] on distinct IDs leaves. *)
Definition id_sorted (l : list A) : Prop :=
  StronglySorted (λ a b, String.ltb (id a) (id b) = true) l.

Lemma ltb_trans x y z : String.ltb x y = true → String.ltb y z = true → String.ltb x z = true.
Proof.
  rewrite !string_ltb_leb, !negb_true_iff. intros Hyx Hzy.
  apply not_true_iff_false. intros Hzx.
  assert (String.le z x) as H1 by (unfold String.le; by rewrite Hzx).
  destruct (total String.le x y) as [H2|H2].
  - assert (String.le z y) as H3 by (by etrans). unfold String.le in H3. by rewrite Hzy in H3.
  - unfold String.le in H2. by rewrite Hyx in H2.
Qed.

Lemma ltb_irrefl x : String.ltb x x = false.
Proof.
  rewrite string_ltb_leb. apply negb_false_iff.
  assert (String.le x x) as H by done. unfold String.le in H. by apply Is_true_true.
Qed.

Lemma ltb_total x y : x ≠ y → String.ltb x y = true ∨ String.ltb y x = true.
Proof.
  intros Hne. rewrite !string_ltb_leb, !negb_true_iff.
  destruct (String.leb y x) eqn:E1, (String.leb x y) eqn:E2; auto.
  exfalso. apply Hne. apply (anti_symm String.le); unfold String.le; [by rewrite E2|by rewrite E1].
Qed.

Lemma sort_by_key_id_sorted l : NoDup (id <$> l) → id_sorted (sort_by_key id l).
Proof.
  intros Hnd. pose proof (sort_by_key_sorted id l) as Hs.
  assert (NoDup (id <$> sort_by_key id l)) as Hn.
  { unfold sort_by_key. by rewrite sort_by_perm. }
  unfold id_sorted. induction Hs as [|a l' Hs IH Hf]; constructor.
  - simpl in Hn. apply NoDup_cons in Hn as [_ Hn]. by apply IH.
  - simpl in Hn. apply NoDup_cons in Hn as [Hn _]. apply Forall_forall. intros b Hb.
    rewrite Forall_forall in Hf. specialize (Hf b Hb). unfold key_le in Hf.
    destruct (ltb_total (id a) (id b)) as [|Hlt]; [|done|].
    + intros E. apply Hn. rewrite E. by apply list_elem_of_fmap_2.
    + rewrite string_ltb_leb in Hlt. unfold String.le in Hf. by destruct (String.leb (id a) (id b)).
Qed.

Lemma id_sorted_lookup l i j a b :
  id_sorted l → (i < j)%nat → l !! i = Some a → l !! j = Some b → String.ltb (id a) (id b) = true.
Proof.
  intros Hs. revert i j. induction Hs as [|x l Hs IH Hf]; intros i j Hij Ha Hb; [done|].
  destruct j as [|j]; [lia|]. simpl in Hb. destruct i as [|i]; simpl in Ha.
  - simplify_eq. rewrite Forall_forall in Hf. apply Hf. by eapply list_elem_of_lookup_2.
  - apply (IH i j); [lia|done..].
Qed.

Lemma id_sorted_sublist l k : sublist k l → id_sorted l → id_sorted k.
Proof.
  intros Hsub Hs. revert k Hsub. induction Hs as [|x l Hs IH Hf]; intros k Hsub.
  { apply sublist_nil_r in Hsub. subst. constructor. }
  inversion Hsub as [|? ? k' Hk|? ? ? Hk]; subst; [|by apply IH]. constructor; [by apply IH|].
  apply Forall_forall. intros b Hb. rewrite Forall_forall in Hf. apply Hf.
  by eapply elem_of_sublist.
Qed.

Lemma id_after_monotone lastID l : id_sorted l → monotone (length l) (id_after lastID l).
Proof.
  intros Hs i j Hij. unfold id_after.
  destruct (l !! i) as [a|] eqn:Ea; [|done]. intros Hlt.
  destruct (lookup_lt_is_Some_2 l j ltac:(lia)) as [b Eb]. rewrite Eb.
  destruct (decide (i = j)) as [->|]; [by simplify_eq|].
  eapply ltb_trans; [done|]. eapply id_sorted_lookup; [done| |done|done]. lia.
Qed.

(** The search finds the first candidate after the last pick, or wraps. *)
Lemma successorIndex_spec l lastID :
  id_sorted l → l ≠ [] →
  let r := successorIndex l lastID in
  (r < length l)%nat ∧
  (lastID = "" → r = O) ∧
  (lastID ≠ "" →
   (∃ a, l !! r = Some a ∧ String.ltb lastID (id a) = true ∧
         ∀ i b, (i < r)%nat → l !! i = Some b → String.ltb lastID (id b) = false) ∨
   r = O ∧ ∀ b, b ∈ l → String.ltb lastID (id b) = false).
Proof.
  intros Hs Hne. cbn zeta. unfold successorIndex.
  assert (0 < length l)%nat as Hlen by (destruct l; simpl; [done|lia]).
  destruct (String.eqb_spec lastID ""); [split_and!; [done|done|done]|].
  destruct (sort_Search_spec (length l) (id_after lastID l)) as (Hle & Hlo & Hhi).
  { by apply id_after_monotone. }
  set (r := sort_Search _ _) in *. destruct (Nat.leb_spec (length l) r).
  - split_and!; [done|done|]. intros _. right. split; [done|].
    intros b [i Hi]%list_elem_of_lookup. pose proof (lookup_lt_Some _ _ _ Hi).
    specialize (Hlo i ltac:(lia)). unfold id_after in Hlo. by rewrite Hi in Hlo.
  - split_and!; [done|done|]. intros _. left.
    destruct (lookup_lt_is_Some_2 l r ltac:(done)) as [a Ha]. exists a. split; [done|].
    specialize (Hhi r ltac:(lia)). unfold id_after in Hhi. rewrite Ha in Hhi. split; [done|].
    intros i b Hi Hb. specialize (Hlo i Hi). unfold id_after in Hlo. by rewrite Hb in Hlo.
Qed.

Lemma successorIndex_lt l lastID : id_sorted l → l ≠ [] → (successorIndex l lastID < length l)%nat.
Proof. intros Hs Hne. by apply successorIndex_spec. Qed.

(** The successor of the [i]-th candidate is the next one, cyclically. *)
Lemma successorIndex_next l i a :
  id_sorted l → l !! i = Some a → id a ≠ "" →
  successorIndex l (id a) = if (S i <? length l)%nat then S i else O.
Proof.
  intros Hs Ha Hne. assert (l ≠ []) as Hl by by intros ->.
  destruct (successorIndex_spec l (id a) Hs Hl) as (Hlt & _ & H). specialize (H Hne).
  pose proof (lookup_lt_Some _ _ _ Ha) as Hi. set (r := successorIndex l (id a)) in *.
  destruct H as [(b & Hb & Hab & Hbefore)|(Hr & Hall)].
  - assert (i < r)%nat as Hir.
    { destruct (decide (i < r)%nat) as [|Hn]; [done|]. exfalso.
      destruct (decide (r = i)) as [E|].
      - rewrite E, Ha in Hb. simplify_eq. by rewrite ltb_irrefl in Hab.
      - pose proof (id_sorted_lookup l r i b a Hs ltac:(lia) Hb Ha) as Hba.
        pose proof (ltb_trans _ _ _ Hab Hba) as H. by rewrite ltb_irrefl in H. }
    destruct (Nat.ltb_spec (S i) (length l)); [|lia].
    destruct (decide (r = S i)) as [|Hn]; [done|]. exfalso.
    destruct (lookup_lt_is_Some_2 l (S i) ltac:(done)) as [c Hc].
    specialize (Hbefore (S i) c ltac:(lia) Hc).
    rewrite (id_sorted_lookup l i (S i) a c Hs ltac:(lia) Ha Hc) in Hbefore. done.
  - destruct (Nat.ltb_spec (S i) (length l)); [|done]. exfalso.
    destruct (lookup_lt_is_Some_2 l (S i) ltac:(done)) as [c Hc].
    specialize (Hall c (list_elem_of_lookup_2 _ _ _ Hc)).
    rewrite (id_sorted_lookup l i (S i) a c Hs ltac:(lia) Ha Hc) in Hall. done.
Qed.

(** ** Going round

    [rotate n l last]: [n] successive picks from the same candidates. *)
Fixpoint rotate (n : nat) (l : list A) (lastID : string) : list A :=
  match n with
  | O => []
  | S n => match l !! successorIndex l lastID with
           | Some a => a :: rotate n l (id a)
           | None => []
           end
  end.

Lemma rotate_drop l k m i :
  id_sorted l → (∀ a, a ∈ l → id a ≠ "") → (k ≤ length l)%nat →
  (i < length l)%nat → (m = length l - i)%nat → (m ≤ k)%nat →
  ∀ lastID, successorIndex l lastID = i →
  rotate k l lastID = drop i l ++ rotate (k - m) l
    (match last l with Some a => id a | None => lastID end).
Proof.
  intros Hs Hid Hk. revert i m. induction k as [|k IH]; intros i m Hi Hm Hmk lastID Hsucc; [lia|].
  cbn [rotate]. rewrite Hsucc. destruct (lookup_lt_is_Some_2 l i Hi) as [a Ha]. rewrite Ha.
  rewrite (drop_S l a i Ha).
  pose proof (successorIndex_next l i a Hs Ha (Hid a (list_elem_of_lookup_2 _ _ _ Ha))) as Hn.
  destruct (Nat.ltb_spec (S i) (length l)) as [Hlt|Hge].
  - rewrite (IH ltac:(lia) (S i) (m - 1)%nat ltac:(lia) ltac:(lia) ltac:(lia) (id a) Hn). simpl.
    replace (k - (m - 1))%nat with (S k - m)%nat by lia.
    destruct (last l) as [z|] eqn:El; [done|]. apply last_None in El. by subst.
  - assert (m = 1)%nat as -> by lia. rewrite drop_ge by lia. simpl. rewrite Nat.sub_0_r.
    assert (last l = Some a) as ->; [|done].
    rewrite last_lookup. replace (pred (length l)) with i by lia. done.
Qed.

Lemma rotate_take l k :
  id_sorted l → (∀ a, a ∈ l → id a ≠ "") → (k ≤ length l)%nat →
  ∀ i lastID, successorIndex l lastID = i → (i + k ≤ length l)%nat →
  rotate k l lastID = take k (drop i l).
Proof.
  intros Hs Hid. induction k as [|k IH]; intros Hk i lastID Hsucc Hik; [done|].
  cbn [rotate]. rewrite Hsucc.
  destruct (lookup_lt_is_Some_2 l i ltac:(lia)) as [a Ha]. rewrite Ha.
  rewrite (drop_S l a i Ha). cbn [take]. f_equal. destruct k as [|k]; [done|].
  pose proof (successorIndex_next l i a Hs Ha (Hid a (list_elem_of_lookup_2 _ _ _ Ha))) as Hn.
  destruct (Nat.ltb_spec (S i) (length l)); [|lia]. apply IH; [lia|done|lia].
Qed.

(** One full round starts at the successor of the last pick and wraps. *)
Lemma rotate_round l lastID :
  id_sorted l → l ≠ [] → (∀ a, a ∈ l → id a ≠ "") →
  let i := successorIndex l lastID in
  rotate (length l) l lastID = drop i l ++ take i l.
Proof.
  intros Hs Hne Hid i. pose proof (successorIndex_lt l lastID Hs Hne) as Hi. fold i in Hi.
  rewrite (rotate_drop l (length l) (length l - i) i Hs Hid) by (done || lia). f_equal.
  replace (length l - (length l - i))%nat with i by lia.
  destruct (last l) as [z|] eqn:El; [|apply last_None in El; by subst].
  rewrite last_lookup in El.
  pose proof (successorIndex_next l _ z Hs El (Hid z (list_elem_of_lookup_2 _ _ _ El))) as Hn.
  assert ((S (pred (length l)) <? length l)%nat = false) as E by (apply Nat.ltb_ge; lia).
  rewrite E in Hn. rewrite (rotate_take l i Hs Hid ltac:(lia) 0 _ Hn) by lia. by rewrite drop_0.
Qed.
End successor.
