(* ===== verification/Selector.v ===== *)
(** * The stand-alone selectors

    Models the [Selector] implementations of [selector.go]: collecting the
    available credentials by priority, then round-robin, weighted round-robin,
    fill-first and quota-drain.  A selector's [Pick] takes its state and returns
    the outcome with the new state; the clock readings are arguments.  A list
    index that Go would evaluate out of range is a [Panic] outcome; that none is
    ever reached is a theorem. *)
From Stdlib Require Import ZArith Lia String Bool Sorted.
From stdpp Require Import prelude gmap strings.
From S2P Require Import Prelude GoStd AuthTypes Weight Availability Smooth Capacity Errors Rotation.
Local Open Scope string_scope.
Local Open Scope list_scope.
Local Open Scope Z_scope.

Inductive outcome (A : Type) := Picked (a : A) | Failed_with (e : routeError) | Panic.
Arguments Picked {A} _.
Arguments Failed_with {A} _.
Arguments Panic {A}.

(** [available[i]] *)
Definition index_at (l : list Auth) (i : nat) : outcome Auth :=
  match l !! i with Some a => Picked a | None => Panic end.

(** What a [Pick] reads from the request context. *)
Record sctx := mkSctx {
  prevalidated : bool; downstreamWebsocket : bool; routeModel : option string }.

(** The selection model of a weighted pick is the route model when one is set. *)
Definition weightedSelectorStateModel (ctx : sctx) (availabilityModel : string) : string :=
  match routeModel ctx with
  | Some m => if String.eqb (TrimSpace m) "" then availabilityModel else m
  | None => availabilityModel
  end.

Definition preferCodexWebsocketAuths (ctx : sctx) (provider : string) (available : list Auth) : list Auth :=
  match available with
  | [] => available
  | _ =>
      if negb (downstreamWebsocket ctx) then available
      else if negb (EqualFold (TrimSpace provider) "codex") then available
      else match filter (λ a, authWebsocketsEnabled (Some a) = true) available with
           | [] => available
           | wsEnabled => wsEnabled
           end
  end.

Definition best_priority_step (prio : Auth → Z) (acc : Z * nat) (auth : Auth) : Z * nat :=
  let '(bestPriority, bestCount) := acc in
  let priority := prio auth in
  if (bestCount =? 0)%nat || (bestPriority <? priority) then (priority, 1%nat)
  else if priority =? bestPriority then (bestPriority, S bestCount)
  else acc.

Definition auth_priority (a : Auth) : Z := authPriority (Some a).

#[global] Arguments auth_priority : simpl never.
#[global] Arguments authPriority : simpl never.
#[global] Arguments authWeight : simpl never.

Definition highestPriorityAuths (auths : list Auth) : list Auth :=
  if (length auths <=? 1)%nat then auths else
  let '(bestPriority, bestCount) := fold_left (best_priority_step auth_priority) auths (0, 0%nat) in
  if (bestCount =? length auths)%nat then auths
  else filter (λ a, auth_priority a = bestPriority) auths.

(** [availableByPriority]: a map from priority to the candidates of the tier. *)
Abbreviation buckets := (gmap Z (list Auth)).

Definition bucket_append (b : buckets) (priority : Z) (a : Auth) : buckets :=
  <[priority := default [] (b !! priority) ++ [a]]> b.

(** Buckets in the order Go happens to range over the map. *)
Definition availableAuthsFromPriorityBuckets_in (order : list (Z * list Auth)) (b : buckets)
    (allPriorities : bool) : list Auth :=
  let candidates :=
    if allPriorities then concat (order.*2)
    else
      let best := fold_left (λ (acc : option Z) '(priority, _), match acc with
                     | None => Some priority
                     | Some bestPriority => if bestPriority <? priority then Some priority else acc
                     end) order None in
      match best with
      | Some bestPriority => default [] (b !! bestPriority)
      | None => default [] (b !! 0)
      end in
  if (1 <? length candidates)%nat then sort_by_key ID candidates else candidates.

Definition availableAuthsFromPriorityBuckets (b : buckets) (allPriorities : bool) : list Auth :=
  availableAuthsFromPriorityBuckets_in (map_to_list b) b allPriorities.

Definition error_provider (provider : string) : string :=
  if String.eqb provider "mixed" then "" else provider.

Section select.
Context `{GoHost}.

(** [(available, cooldownCount, earliest)] *)
Definition collect_step (model : string) (now : time) (acc : buckets * nat * time) (candidate : Auth)
    : buckets * nat * time :=
  let '(available, cooldownCount, earliest) := acc in
  let b := isAuthBlockedForModel (Some candidate) model now in
  if negb (is_blocked b) then
    (bucket_append available (auth_priority candidate) candidate, cooldownCount, earliest)
  else
    let cooldownCount := if bool_decide (block_reason b = blockReasonCooldown)
                         then S cooldownCount else cooldownCount in
    let next := block_next b in
    let earliest := if negb (bool_decide (block_reason b = blockReasonDisabled)) && After next now
                       && (IsZero earliest || Before next earliest) then next else earliest in
    (available, cooldownCount, earliest).

Definition collectAvailableByPriority (auths : list Auth) (model : string) (now : time)
    : buckets * nat * time :=
  fold_left (collect_step model now) auths (∅, 0%nat, zero_time).

Definition getAvailableAuthsWithPriorityMode (auths : list Auth) (provider model : string) (now : time)
    (allPriorities : bool) : list Auth + routeError :=
  match auths with
  | [] => inr (ErrPlain err_no_candidates)
  | _ =>
      let '(available, cooldownCount, earliest) := collectAvailableByPriority auths model now in
      if bool_decide (available = ∅) then
        if (cooldownCount =? length auths)%nat && negb (IsZero earliest) then
          let resetIn := Sub earliest now in
          inr (newModelCooldownError model (error_provider provider)
                 (if resetIn <? 0 then 0 else resetIn))
        else inr (newAuthUnavailableError earliest now)
      else inl (availableAuthsFromPriorityBuckets available allPriorities)
  end.

Definition getSelectorAvailableAuthsWithPriorityMode (ctx : sctx) (auths : list Auth)
    (provider model : string) (now : time) (allPriorities : bool) : list Auth + routeError :=
  if prevalidated ctx && (0 <? length auths)%nat
  then inl (if negb allPriorities then highestPriorityAuths auths else auths)
  else getAvailableAuthsWithPriorityMode auths provider model now allPriorities.

Definition getSelectorAvailableAuths ctx auths provider model now :=
  getSelectorAvailableAuthsWithPriorityMode ctx auths provider model now false.

(** ** Round robin *)

Record RoundRobinSelector := mkRR { lastPicked : gmap string string; rr_maxKeys : Z }.

Definition key_limit (maxKeys : Z) : nat := if maxKeys <=? 0 then 4096%nat else Z.to_nat maxKeys.

(** A full map is emptied before a new key is added. *)
Definition ensureRotationKey {V} (m : gmap string V) (key : string) (limit : nat) : gmap string V :=
  match m !! key with
  | Some _ => m
  | None => if (limit <=? size m)%nat then ∅ else m
  end.

Definition RoundRobin_Pick (s : RoundRobinSelector) (ctx : sctx) (provider model : string)
    (auths : list Auth) (now : time) : outcome Auth * RoundRobinSelector :=
  match getSelectorAvailableAuths ctx auths provider model now with
  | inr e => (Failed_with e, s)
  | inl available =>
      let available := preferCodexWebsocketAuths ctx provider available in
      let key := provider +:+ ":" +:+ canonicalModelKey model in
      let m := ensureRotationKey (lastPicked s) key (key_limit (rr_maxKeys s)) in
      match available !! successorIndex ID available (default "" (m !! key)) with
      | None => (Panic, s)
      | Some picked => (Picked picked, mkRR (<[key := ID picked]> m) (rr_maxKeys s))
      end
  end.

(** ** Weighted round robin *)

Record WeightedRoundRobinSelector := mkWRR {
  states : gmap string smoothWeightedState; wrr_maxKeys : Z }.

Definition auth_weight (a : Auth) : Z := authWeight (Some a).
Definition positiveWeightAuths (auths : list Auth) : list Auth :=
  filter (λ a, 0 < auth_weight a) auths.

Definition authWeightVector (auths : list Auth) : gmap string Z :=
  weightVector ID auth_weight (λ _, true) auths.
Definition pickSmoothWeightedAuth (auths : list Auth) (cur : gmap string Z) : option Auth * gmap string Z :=
  pickSmoothWeighted ID auth_weight (λ _, true) auths cur.

Definition WeightedRoundRobin_Pick (s : WeightedRoundRobinSelector) (ctx : sctx)
    (provider model : string) (auths : list Auth) (now : time)
    : outcome Auth * WeightedRoundRobinSelector :=
  match getSelectorAvailableAuths ctx (positiveWeightAuths auths) provider model now with
  | inr e => (Failed_with e, s)
  | inl available =>
      let available := preferCodexWebsocketAuths ctx provider available in
      let key := provider +:+ ":" +:+ canonicalModelKey (weightedSelectorStateModel ctx model) in
      let m := ensureRotationKey (states s) key (key_limit (wrr_maxKeys s)) in
      let st := prepare (default zeroSmooth (m !! key)) (authWeightVector available) in
      let '(picked, cur) := pickSmoothWeightedAuth available (current st) in
      let s' := mkWRR (<[key := st <| current := cur |>]> m) (wrr_maxKeys s) in
      match picked with
      | None => (Failed_with (ErrPlain err_no_weight), s')
      | Some a => (Picked a, s')
      end
  end.

(** ** Fill first *)

Definition FillFirst_Pick (ctx : sctx) (provider model : string) (auths : list Auth) (now : time)
    : outcome Auth :=
  match getSelectorAvailableAuths ctx auths provider model now with
  | inr e => Failed_with e
  | inl available => index_at (preferCodexWebsocketAuths ctx provider available) 0
  end.

(** ** Quota drain *)

Record QuotaDrainSelector := mkQD {
  cursors : gmap string Z; pins : gmap string quotaDrainPin; qd_maxKeys : Z }.

Definition nextCursorIndex (s : QuotaDrainSelector) (key : string) (modulo : Z) : Z * QuotaDrainSelector :=
  if modulo <=? 0 then (0, s) else
  let cs := ensureRotationKey (cursors s) key (key_limit (qd_maxKeys s)) in
  let index := Z.rem (default 0 (cs !! key)) modulo in
  (index, mkQD (<[key := index + 1]> cs) (pins s) (qd_maxKeys s)).

(** The pin of [key], created when missing. *)
Definition pinLocked (s : QuotaDrainSelector) (key : string) : quotaDrainPin * QuotaDrainSelector :=
  match pins s !! key with
  | Some pin => (pin, s)
  | None => let m := ensureRotationKey (pins s) key (key_limit (qd_maxKeys s)) in
            (zeroPin, mkQD (cursors s) (<[key := zeroPin]> m) (qd_maxKeys s))
  end.

Definition drain_candidates (auths : list Auth) (model : string) (now : time)
    : list (Auth * quotaPinCandidate) :=
  omap (λ auth, let rank := quotaCapacityRank (Some auth) model now in
                if known rank && exhausted rank then None
                else Some (auth, mkCandidate (ID auth) rank true)) auths.

(** Candidate indexes sorted by ID. *)
Definition by_id (candidates : list quotaPinCandidate) : list nat :=
  (sort_stable (λ x y : nat * quotaPinCandidate, String.ltb (c_id x.2) (c_id y.2))
     (imap pair candidates)).*1.

Definition pickWithinProvider (s : QuotaDrainSelector) (provider model : string) (auths : list Auth)
    (now : time) : option Auth * QuotaDrainSelector :=
  let entries := drain_candidates auths model now in
  match entries with
  | [] => (None, s)
  | _ =>
      let candidates := entries.*2 in
      let byID := by_id candidates in
      let key := ToLower (TrimSpace provider) +:+ ":" +:+ canonicalModelKey model in
      let '(offset, s) := nextCursorIndex s key (Z.of_nat (length byID)) in
      let order := drop (Z.to_nat offset) byID ++ take (Z.to_nat offset) byID in
      let '(pin, s) := pinLocked s key in
      let '(picked, pin) := pickQuotaPinned (Some pin) candidates order in
      let s := mkQD (cursors s) (<[key := default zeroPin pin]> (pins s)) (qd_maxKeys s) in
      (picked ≫= λ i, (entries !! i) ≫= λ e, Some e.1, s)
  end.

(** Try the providers in turn, starting at [start]. *)
Fixpoint try_providers (s : QuotaDrainSelector) (ctx : sctx) (model : string) (now : time)
    (groups : string → list Auth) (turn : list string) : option Auth * QuotaDrainSelector :=
  match turn with
  | [] => (None, s)
  | providerKey :: turn =>
      let candidates := preferCodexWebsocketAuths ctx providerKey (groups providerKey) in
      match pickWithinProvider s providerKey model candidates now with
      | (Some selected, s) => (Some selected, s)
      | (None, s) => try_providers s ctx model now groups turn
      end
  end.

Definition pickMixedProvider (s : QuotaDrainSelector) (ctx : sctx) (model : string)
    (auths : list Auth) (now : time) : option Auth * QuotaDrainSelector :=
  let key_of (a : Auth) := executorKeyFromAuth (Some a) in
  let providers := sort_by_key (λ p : string, p)
    (remove_dups (filter (λ p, p ≠ "") (key_of <$> auths))) in
  match providers with
  | [] => (None, s)
  | _ =>
      let '(start, s) := nextCursorIndex s ("mixed:" +:+ canonicalModelKey model)
                           (Z.of_nat (length providers)) in
      try_providers s ctx model now (λ p, filter (λ a, key_of a = p) auths)
        (drop (Z.to_nat start) providers ++ take (Z.to_nat start) providers)
  end.

Definition earliestCapacityReset (auths : list Auth) (model : string) (now : time) : time :=
  fold_left (λ earliest auth,
    let rank := quotaCapacityRank (Some auth) model now in
    if negb (known rank) || negb (exhausted rank) || IsZero (resetAt rank) then earliest
    else if IsZero earliest || Before (resetAt rank) earliest then resetAt rank else earliest)
    auths zero_time.

(** Highest priority first: [quotaDrainPriorities]. *)
Definition quotaDrainPriorities (available : buckets) : list Z :=
  sort_by (λ x y, y <? x) ((map_to_list available).*1).

Fixpoint drain_tiers (s : QuotaDrainSelector) (ctx : sctx) (provider model : string) (now : time)
    (available : buckets) (priorities : list Z) : option Auth * QuotaDrainSelector :=
  match priorities with
  | [] => (None, s)
  | priority :: priorities =>
      let tier := default [] (available !! priority) in
      let '(selected, s) :=
        if EqualFold (TrimSpace provider) "mixed" then pickMixedProvider s ctx model tier now
        else pickWithinProvider s provider model (preferCodexWebsocketAuths ctx provider tier) now in
      match selected with
      | Some a => (Some a, s)
      | None => drain_tiers s ctx provider model now available priorities
      end
  end.

Definition QuotaDrain_Pick (s : QuotaDrainSelector) (ctx : sctx) (provider model : string)
    (auths : list Auth) (now : time) : outcome Auth * QuotaDrainSelector :=
  let '(available, cooldownCount, earliestCooldown) := collectAvailableByPriority auths model now in
  if bool_decide (available = ∅) then
    if (cooldownCount =? length auths)%nat && negb (IsZero earliestCooldown)
    then (Failed_with (newModelCooldownError model (error_provider provider) (Sub earliestCooldown now)), s)
    else (Failed_with (ErrPlain err_unavailable), s)
  else
    match drain_tiers s ctx provider model now available (quotaDrainPriorities available) with
    | (Some selected, s) => (Picked selected, s)
    | (None, s) =>
        let earliest := earliestCapacityReset auths model now in
        if negb (IsZero earliest)
        then (Failed_with (newModelCooldownError model (error_provider provider) (Sub earliest now)), s)
        else (Failed_with (ErrPlain err_unavailable), s)
    end.
End select.

(** ** What is available *)

Section available.
Context `{GoHost}.
Implicit Types (auths : list Auth) (model : string) (now : time).

Definition free model now (a : Auth) : Prop :=
  is_blocked (isAuthBlockedForModel (Some a) model now) = false.
#[global] Instance free_dec model now a : Decision (free model now a).
Proof. unfold free. apply _. Defined.

Definition tier model now (p : Z) auths : list Auth :=
  filter (λ a, free model now a ∧ auth_priority a = p) auths.

(** The candidates of the highest tier that has a free one. *)
Definition top_tier model now auths (a : Auth) : Prop :=
  a ∈ auths ∧ free model now a ∧
  ∀ b, b ∈ auths → free model now b → auth_priority b ≤ auth_priority a.

Lemma collect_fold auths model now acc :
  let r := fold_left (collect_step model now) auths acc in
  ∀ p, default [] (r.1.1 !! p) = default [] (acc.1.1 !! p) ++ tier model now p auths.
Proof.
  cbn zeta. revert acc. induction auths as [|a l IH]; intros [[av cc] e] p; simpl.
  { by rewrite app_nil_r. }
  rewrite IH. unfold tier. rewrite filter_cons.
  destruct (is_blocked (isAuthBlockedForModel (Some a) model now)) eqn:Eb; simpl.
  - rewrite decide_False; [done|]. unfold free. rewrite Eb. by intros [? _].
  - unfold bucket_append. destruct (decide (auth_priority a = p)) as [E|E].
    + subst p. rewrite decide_True by done. rewrite lookup_insert_eq. simpl. by rewrite <-app_assoc.
    + rewrite decide_False by (by intros [_ ?]). by rewrite lookup_insert_ne.
Qed.

Lemma collect_nonempty auths model now acc :
  (∀ p l, acc.1.1 !! p = Some l → l ≠ []) →
  ∀ p l, (fold_left (collect_step model now) auths acc).1.1 !! p = Some l → l ≠ [].
Proof.
  revert acc. induction auths as [|a l IH]; intros [[av cc] e] Hacc; simpl; [done|].
  apply IH. intros p l'. unfold collect_step. case_match; simpl; [|apply Hacc].
  unfold bucket_append. destruct (decide (auth_priority a = p)) as [->|].
  - rewrite lookup_insert_eq. intros [= <-]. by destruct (default [] _).
  - rewrite lookup_insert_ne by done. apply Hacc.
Qed.

Lemma collect_spec auths model now p :
  let av := (collectAvailableByPriority auths model now).1.1 in
  av !! p = match tier model now p auths with [] => None | l => Some l end.
Proof.
  cbn zeta. unfold collectAvailableByPriority.
  pose proof (collect_fold auths model now (∅, 0%nat, zero_time) p) as E. cbn zeta in E. simpl in E.
  rewrite lookup_empty in E. simpl in E.
  pose proof (collect_nonempty auths model now (∅, 0%nat, zero_time)) as Hne.
  set (av := (fold_left _ auths _).1.1) in *.
  destruct (av !! p) as [l|] eqn:El; simpl in E.
  - rewrite <-E. destruct l; [|done]. exfalso. eapply Hne; [|exact El|done].
    intros q k. simpl. by rewrite lookup_empty.
  - by rewrite <-E.
Qed.

Lemma elem_of_tier model now p auths a :
  a ∈ tier model now p auths ↔ a ∈ auths ∧ free model now a ∧ auth_priority a = p.
Proof. unfold tier. rewrite list_elem_of_filter. naive_solver. Qed.

Lemma collect_empty auths model now :
  (collectAvailableByPriority auths model now).1.1 = ∅ ↔ ∀ a, a ∈ auths → ¬ free model now a.
Proof.
  split.
  - intros E a Ha Hf. pose proof (collect_spec auths model now (auth_priority a)) as Hs. cbn zeta in Hs.
    rewrite E, lookup_empty in Hs.
    assert (a ∈ tier model now (auth_priority a) auths) as Hin by by apply elem_of_tier.
    destruct (tier model now (auth_priority a) auths); [by apply not_elem_of_nil in Hin|done].
  - intros Hn. apply map_eq. intros p. rewrite lookup_empty.
    pose proof (collect_spec auths model now p) as ->.
    destruct (tier model now p auths) as [|a l] eqn:E; [done|]. exfalso.
    assert (a ∈ tier model now p auths) as Hin by (rewrite E; by left).
    apply elem_of_tier in Hin as (Ha & Hf & _). by apply (Hn a).
Qed.

(** The loop that finds the best priority among the keys of a map. *)
Lemma best_key_fold (order : list (Z * list Auth)) acc :
  let r := fold_left (λ (acc : option Z) '(priority, _), match acc with
             | None => Some priority
             | Some bestPriority => if bestPriority <? priority then Some priority else acc
             end) order acc in
  (r = None ↔ acc = None ∧ order = []) ∧
  (∀ p, r = Some p → (acc = Some p ∨ p ∈ order.*1) ∧
    (∀ q, acc = Some q → q ≤ p) ∧ (∀ q, q ∈ order.*1 → q ≤ p)).
Proof.
  cbn zeta. revert acc. induction order as [|[k l] order IH]; intros acc; simpl.
  { split; [naive_solver|]. intros p ->. split_and!; [by left|naive_solver|].
    intros q Hq. by apply not_elem_of_nil in Hq. }
  match goal with |- context [fold_left ?f order ?x] => destruct (IH x) as [H1 H2]; set (acc' := x) in * end.
  split.
  - rewrite H1. unfold acc'. split; [|naive_solver]. intros [E _]. destruct acc as [b|]; [|done].
    by destruct (b <? k).
  - intros p Hp. destruct (H2 p Hp) as (Ha & Hb & Hc). unfold acc' in *.
    destruct acc as [b|]; simpl in *.
    + destruct (Z.ltb_spec b k).
      * split_and!.
        -- destruct Ha as [[= ->]|Ha]; right; [by left|by right].
        -- intros q [= <-]. specialize (Hb k eq_refl). lia.
        -- intros q [->|Hq]%elem_of_cons; [by apply Hb|by apply Hc].
      * split_and!.
        -- destruct Ha as [Ha|Ha]; [by left|right; by right].
        -- intros q [= <-]. by apply Hb.
        -- intros q [->|Hq]%elem_of_cons; [|by apply Hc]. specialize (Hb b eq_refl). lia.
    + split_and!; [|done|].
      * destruct Ha as [[= ->]|Ha]; right; [by left|by right].
      * intros q [->|Hq]%elem_of_cons; [by apply Hb|by apply Hc].
Qed.

(** The highest tier, sorted by ID, whatever the order of the map. *)
Lemma availableAuths_top auths model now order :
  NoDup (ID <$> auths) →
  let av := (collectAvailableByPriority auths model now).1.1 in
  av ≠ ∅ → order ≡ₚ map_to_list av →
  ∃ p, availableAuthsFromPriorityBuckets_in order av false = sort_by_key ID (tier model now p auths) ∧
       tier model now p auths ≠ [] ∧ ∀ a, top_tier model now auths a ↔ a ∈ tier model now p auths.
Proof.
  intros Hnd av Hav Hord. unfold availableAuthsFromPriorityBuckets_in.
  destruct (best_key_fold order None) as [Hn Hs].
  set (best := fold_left _ order None) in *.
  assert (order ≠ []) as Hne.
  { intros ->. apply Hav, map_to_list_empty_iff. by apply Permutation_nil. }
  destruct best as [p|] eqn:Eb; [|naive_solver].
  destruct (Hs p eq_refl) as (Hin & _ & Hmax). destruct Hin as [?|Hin]; [done|].
  assert (∀ q, q ∈ order.*1 ↔ tier model now q auths ≠ []) as Hkeys.
  { intros q. rewrite list_elem_of_fmap. pose proof (collect_spec auths model now q) as Hq.
    fold av in Hq. split.
    - intros ([q' l] & -> & Hl). simpl in *. rewrite Hord in Hl. apply elem_of_map_to_list in Hl.
      rewrite Hl in Hq. by destruct (tier model now q' auths).
    - intros Ht. destruct (tier model now q auths) as [|a l]; [done|].
      exists (q, a :: l). split; [done|]. rewrite Hord. by apply elem_of_map_to_list. }
  exists p. apply Hkeys in Hin as Htier.
  assert (default [] (av !! p) = tier model now p auths) as Ed.
  { pose proof (collect_spec auths model now p) as Hp. fold av in Hp. rewrite Hp.
    by destruct (tier model now p auths). }
  rewrite Ed. split_and!; [|done|].
  - destruct (Nat.ltb_spec 1 (length (tier model now p auths))) as [|Hle]; [done|].
    destruct (tier model now p auths) as [|a [|b l]]; simpl in *; [done|done|lia].
  - intros a. rewrite elem_of_tier. unfold top_tier. split.
    + intros (Ha & Hf & Hm). split_and!; [done|done|].
      assert (auth_priority a ≤ p).
      { apply Hmax, Hkeys. intros E. eapply not_elem_of_nil. rewrite <-E. by apply elem_of_tier. }
      destruct (tier model now p auths) as [|b l] eqn:Et; [done|].
      assert (b ∈ tier model now p auths) as Hb by (rewrite Et; by left).
      apply elem_of_tier in Hb as (Hb & Hbf & Hbp). specialize (Hm b Hb Hbf). lia.
    + intros (Ha & Hf & Hp). split_and!; [done|done|]. intros b Hb Hbf. rewrite Hp.
      apply Hmax, Hkeys. intros E. eapply not_elem_of_nil. rewrite <-E. by apply elem_of_tier.
Qed.

Lemma tier_perm model now p auths auths' :
  auths ≡ₚ auths' → tier model now p auths ≡ₚ tier model now p auths'.
Proof. intros Hp. unfold tier. by rewrite Hp. Qed.

Lemma tier_NoDup model now p auths : NoDup (ID <$> auths) → NoDup (ID <$> tier model now p auths).
Proof.
  intros Hnd. eapply sublist_NoDup; [exact Hnd|]. apply fmap_sublist. unfold tier. apply sublist_filter.
Qed.

(** What the selectors work on. *)
Lemma getAvailableAuths_spec auths provider model now :
  NoDup (ID <$> auths) →
  match getAvailableAuthsWithPriorityMode auths provider model now false with
  | inl l => l ≠ [] ∧ id_sorted ID l ∧ ∀ a, a ∈ l ↔ top_tier model now auths a
  | inr _ => ∀ a, a ∈ auths → ¬ free model now a
  end.
Proof.
  intros Hnd. unfold getAvailableAuthsWithPriorityMode.
  destruct auths as [|a0 l0] eqn:Ea; [intros a Ha; by apply not_elem_of_nil in Ha|].
  rewrite <-Ea in *. clear Ea.
  pose proof (collect_empty auths model now) as Hemp.
  pose proof (availableAuths_top auths model now (map_to_list (collectAvailableByPriority auths model now).1.1) Hnd) as Htop.
  destruct (collectAvailableByPriority auths model now) as [[av cc] e]. simpl in *.
  case_bool_decide as E.
  { destruct ((cc =? length auths)%nat && negb (IsZero e)); by apply Hemp. }
  destruct (Htop E) as (p & Hl & Hne & Hm); [done|]. unfold availableAuthsFromPriorityBuckets.
  rewrite Hl. split_and!.
  - intros Hn. apply Hne. apply Permutation_nil. rewrite <-Hn. apply sort_by_perm.
  - apply sort_by_key_id_sorted. by apply tier_NoDup.
  - intros a. unfold sort_by_key. by rewrite sort_by_perm, Hm.
Qed.
End available.

Section picks.
Context `{GoHost}.
Implicit Types (auths : list Auth) (model : string) (now : time).

(** The request does not bypass the availability test. *)
Definition checked (ctx : sctx) : Prop := prevalidated ctx = false.

Lemma getSelector_checked ctx auths provider model now :
  checked ctx →
  getSelectorAvailableAuths ctx auths provider model now
  = getAvailableAuthsWithPriorityMode auths provider model now false.
Proof.
  intros Hc. unfold getSelectorAvailableAuths, getSelectorAvailableAuthsWithPriorityMode.
  by rewrite Hc.
Qed.

(** The websocket preference only narrows the list, never to nothing. *)
Lemma prefer_spec ctx provider l :
  sublist (preferCodexWebsocketAuths ctx provider l) l ∧
  (l ≠ [] → preferCodexWebsocketAuths ctx provider l ≠ []).
Proof.
  unfold preferCodexWebsocketAuths. destruct l as [|a l]; [done|].
  destruct (negb (downstreamWebsocket ctx)); [done|].
  destruct (negb (EqualFold (TrimSpace provider) "codex")); [done|].
  destruct (filter _ (a :: l)) as [|b k] eqn:E; [done|]. split; [|done].
  rewrite <-E. apply sublist_filter.
Qed.

(** What the pickers receive: a non-empty, ID-sorted part of the top tier. *)
Lemma available_spec ctx auths provider model now :
  checked ctx → NoDup (ID <$> auths) →
  match getSelectorAvailableAuths ctx auths provider model now with
  | inl l => let l := preferCodexWebsocketAuths ctx provider l in
             l ≠ [] ∧ id_sorted ID l ∧ ∀ a, a ∈ l → top_tier model now auths a
  | inr _ => ∀ a, a ∈ auths → ¬ free model now a
  end.
Proof.
  intros Hc Hnd. rewrite getSelector_checked by done.
  pose proof (getAvailableAuths_spec auths provider model now Hnd) as Hs.
  destruct (getAvailableAuthsWithPriorityMode auths provider model now false) as [l|]; [|done].
  destruct Hs as (Hne & Hsort & Hm). destruct (prefer_spec ctx provider l) as [Hsub Hpne].
  cbn zeta. split_and!; [by apply Hpne|by eapply id_sorted_sublist|].
  intros a Ha. apply Hm. by eapply elem_of_sublist.
Qed.

(** round-robin never indexes out of range, picks a free credential of the
    highest priority that has one, and fails only when no credential is free. *)
Theorem RoundRobin_Pick_sound s ctx provider model auths now :
  checked ctx → NoDup (ID <$> auths) →
  match (RoundRobin_Pick s ctx provider model auths now).1 with
  | Picked a => top_tier model now auths a
  | Failed_with _ => ∀ a, a ∈ auths → ¬ free model now a
  | Panic => False
  end.
Proof.
  intros Hc Hnd. unfold RoundRobin_Pick.
  pose proof (available_spec ctx auths provider model now Hc Hnd) as Hs.
  destruct (getSelectorAvailableAuths _ _ _ _ _) as [l|]; [|done].
  destruct Hs as (Hne & Hsort & Hm).
  set (lastID := default "" _). set (l' := preferCodexWebsocketAuths ctx provider l) in *.
  destruct (lookup_lt_is_Some_2 l' (successorIndex ID l' lastID)) as [a Ha];
    [by apply successorIndex_lt|].
  rewrite Ha. simpl. apply Hm. by eapply list_elem_of_lookup_2.
Qed.

(** [n] picks in a row; the clock may differ at each. *)
Fixpoint RoundRobin_run (s : RoundRobinSelector) (ctx : sctx) (provider model : string)
    (auths : list Auth) (clock : list time) : list (outcome Auth) :=
  match clock with
  | [] => []
  | now :: clock =>
      let '(o, s) := RoundRobin_Pick s ctx provider model auths now in
      o :: RoundRobin_run s ctx provider model auths clock
  end.

Lemma RoundRobin_run_rotate ctx provider model auths available clock :
  (∀ now, now ∈ clock → preferCodexWebsocketAuths ctx provider <$>
     (match getSelectorAvailableAuths ctx auths provider model now with
      | inl l => Some l | inr _ => None end) = Some available) →
  id_sorted ID available → available ≠ [] →
  ∀ s, let key := provider +:+ ":" +:+ canonicalModelKey model in
  let m := ensureRotationKey (lastPicked s) key (key_limit (rr_maxKeys s)) in
  RoundRobin_run s ctx provider model auths clock
  = Picked <$> rotate ID (length clock) available (default "" (m !! key)).
Proof.
  intros Hav Hs Hne. induction clock as [|now clock IH]; intros s; [done|].
  cbn [RoundRobin_run length rotate]. unfold RoundRobin_Pick at 1.
  pose proof (Hav now ltac:(by left)) as Hnow.
  destruct (getSelectorAvailableAuths ctx auths provider model now) as [l|]; [|done].
  simpl in Hnow. injection Hnow as ->.
  set (key := provider +:+ ":" +:+ canonicalModelKey model).
  set (m := ensureRotationKey (lastPicked s) key _).
  destruct (lookup_lt_is_Some_2 available (successorIndex ID available (default "" (m !! key)))) as [a Ha];
    [by apply successorIndex_lt|].
  rewrite Ha. cbn [fmap list_fmap]. f_equal.
  rewrite IH by (intros t Ht; apply Hav; by right). cbn [lastPicked rr_maxKeys].
  fold key. unfold ensureRotationKey at 1. rewrite lookup_insert_eq. simpl.
  by rewrite lookup_insert_eq.
Qed.

(** as long as the same [n] credentials stay available, [n] successive
    round-robin picks serve each of them exactly once, wherever the rotation
    stood before. *)
Theorem RoundRobin_fair s ctx provider model auths available clock :
  (∀ now, now ∈ clock → preferCodexWebsocketAuths ctx provider <$>
     (match getSelectorAvailableAuths ctx auths provider model now with
      | inl l => Some l | inr _ => None end) = Some available) →
  id_sorted ID available → available ≠ [] → (∀ a, a ∈ available → ID a ≠ "") →
  length clock = length available →
  RoundRobin_run s ctx provider model auths clock ≡ₚ Picked <$> available.
Proof.
  intros Hav Hs Hne Hid Hlen.
  rewrite (RoundRobin_run_rotate ctx provider model auths available clock Hav Hs Hne s), Hlen.
  rewrite rotate_round by done. rewrite fmap_app, Permutation_app_comm, <-fmap_app, take_drop. done.
Qed.

(** fill-first picks the free credential with the smallest ID in the
    highest tier, whatever the order in which the credentials are listed. *)
Theorem FillFirst_Pick_least ctx provider model auths auths' now :
  checked ctx → downstreamWebsocket ctx = false → NoDup (ID <$> auths) → auths' ≡ₚ auths →
  match FillFirst_Pick ctx provider model auths' now with
  | Picked a => top_tier model now auths a ∧ ∀ b, top_tier model now auths b → String.le (ID a) (ID b)
  | Failed_with _ => ∀ a, a ∈ auths → ¬ free model now a
  | Panic => False
  end.
Proof.
  intros Hc Hws Hnd Hp. unfold FillFirst_Pick.
  assert (NoDup (ID <$> auths')) as Hnd' by by rewrite Hp.
  rewrite getSelector_checked by done.
  pose proof (getAvailableAuths_spec auths' provider model now Hnd') as Hs.
  assert (∀ b, top_tier model now auths' b ↔ top_tier model now auths b) as Ht.
  { intros b. unfold top_tier. rewrite Hp. setoid_rewrite Hp. done. }
  destruct (getAvailableAuthsWithPriorityMode auths' provider model now false) as [l|].
  2:{ intros a Ha. apply Hs. by rewrite Hp. }
  destruct Hs as (Hne & Hsort & Hm).
  assert (preferCodexWebsocketAuths ctx provider l = l) as ->.
  { unfold preferCodexWebsocketAuths. rewrite Hws. by destruct l. }
  destruct l as [|a l]; [done|]. simpl. split; [apply Ht, Hm; by left|].
  intros b Hb. apply Ht, Hm in Hb. apply elem_of_cons in Hb as [->|Hb]; [done|].
  inversion Hsort as [|? ? _ Hf]; subst. rewrite Forall_forall in Hf. specialize (Hf b Hb).
  rewrite string_ltb_leb, negb_true_iff in Hf.
  destruct (total String.le (ID a) (ID b)) as [|Hle]; [done|]. unfold String.le in Hle. by rewrite Hf in Hle.
Qed.

Lemma positiveWeight_spec auths a : a ∈ positiveWeightAuths auths ↔ a ∈ auths ∧ 0 < auth_weight a.
Proof. unfold positiveWeightAuths. rewrite list_elem_of_filter. naive_solver. Qed.
End picks.

(** ** Quota drain *)

Section drain.
Context `{GoHost}.
Implicit Types (auths : list Auth) (model : string) (now : time).

Definition spent model now (a : Auth) : Prop := quotaCapacityExhausted (Some a) model now = true.
#[global] Instance spent_dec model now a : Decision (spent model now a).
Proof. unfold spent. apply _. Defined.

Lemma imap_pair_fst (l : list quotaPinCandidate) : (imap pair l).*1 = seq 0 (length l).
Proof.
  assert (∀ k, (imap (λ i, pair (k + i)%nat) l).*1 = seq k (length l)) as Hk; [|apply (Hk O)].
  induction l as [|c l IH]; intros k; simpl; [done|]. f_equal; [lia|].
  rewrite <-(IH (S k)). f_equal. apply imap_ext. intros i x _. simpl. f_equal. lia.
Qed.

Lemma by_id_perm cs : by_id cs ≡ₚ seq 0 (length cs).
Proof. unfold by_id. rewrite sort_stable_perm. by rewrite imap_pair_fst. Qed.

Lemma elem_of_drain auths model now a c :
  (a, c) ∈ drain_candidates auths model now → a ∈ auths ∧ ¬ spent model now a ∧ c_allowed c = true.
Proof.
  unfold drain_candidates. rewrite list_elem_of_omap. intros (b & Hb & E).
  cbn zeta in E. destruct (_ && _) eqn:Ex; [done|]. simplify_eq. split_and!; [done| |done].
  unfold spent, quotaCapacityExhausted. cbn zeta. by rewrite Ex.
Qed.

Lemma drain_considers auths model now a :
  a ∈ auths → ¬ spent model now a → ∃ c, (a, c) ∈ drain_candidates auths model now.
Proof.
  intros Ha Hs. eexists. unfold drain_candidates. apply list_elem_of_omap. exists a.
  split; [done|]. cbn zeta. unfold spent, quotaCapacityExhausted in Hs. cbn zeta in Hs.
  destruct (_ && _); [done|]. reflexivity.
Qed.

(** Within one provider the pick is a credential with quota left, and one is
    found whenever there is one. *)
Lemma pickWithinProvider_spec s provider model auths now :
  match (pickWithinProvider s provider model auths now).1 with
  | Some a => a ∈ auths ∧ ¬ spent model now a
  | None => ∀ a, a ∈ auths → spent model now a
  end.
Proof.
  unfold pickWithinProvider.
  destruct (drain_candidates auths model now) as [|e0 es] eqn:Ee; [|rewrite <-Ee].
  { simpl. intros a Ha. destruct (decide (spent model now a)) as [|Hn]; [done|].
    destruct (drain_considers auths model now a Ha Hn) as [c Hc]. rewrite Ee in Hc.
    by apply not_elem_of_nil in Hc. }
  set (es' := drain_candidates auths model now) in *.
  set (cs := es'.*2). set (key := _ +:+ ":" +:+ _).
  destruct (nextCursorIndex s key _) as [offset s1]. destruct (pinLocked s1 key) as [pin s2].
  set (order := drop _ (by_id cs) ++ take _ (by_id cs)).
  assert (∀ i, (i < length cs)%nat → i ∈ order) as Hord.
  { intros i Hi. unfold order. rewrite Permutation_app_comm, take_drop, by_id_perm.
    apply elem_of_seq. lia. }
  destruct (pickQuotaPinned_sound (Some pin) cs order Hord) as [Hsome Hnone].
  destruct (pickQuotaPinned (Some pin) cs order) as [[i|] pin']; simpl in *.
  - destruct (Hsome i eq_refl) as (c & Hc & _). unfold cs in Hc. apply list_lookup_fmap_Some in Hc as ([a c'] & -> & Hi).
    rewrite Hi. simpl. apply list_elem_of_lookup_2, elem_of_drain in Hi. naive_solver.
  - exfalso. assert (e0 ∈ es') as He by (rewrite Ee; by left).
    assert (e0.2 ∈ cs) as Hc by by apply list_elem_of_fmap_2.
    specialize (Hnone eq_refl _ Hc). destruct e0 as [a c]. apply elem_of_drain in He as (_ & _ & He).
    simpl in Hnone. congruence.
Qed.

Definition single_provider (ctx : sctx) (provider : string) : Prop :=
  EqualFold (TrimSpace provider) "mixed" = false ∧ downstreamWebsocket ctx = false.

Lemma drain_tiers_spec s ctx provider model now av ps :
  single_provider ctx provider →
  StronglySorted (λ p q, q ≤ p) ps →
  match (drain_tiers s ctx provider model now av ps).1 with
  | Some a => ∃ p, p ∈ ps ∧ a ∈ default [] (av !! p) ∧ ¬ spent model now a ∧
              ∀ q b, q ∈ ps → p < q → b ∈ default [] (av !! q) → spent model now b
  | None => ∀ p a, p ∈ ps → a ∈ default [] (av !! p) → spent model now a
  end.
Proof.
  intros [Hmix Hws] Hs. revert s. induction Hs as [|p ps Hs IH Hf]; intros s.
  { simpl. intros p a Hp. by apply not_elem_of_nil in Hp. }
  cbn [drain_tiers]. rewrite Hmix.
  assert (preferCodexWebsocketAuths ctx provider (default [] (av !! p)) = default [] (av !! p)) as ->.
  { unfold preferCodexWebsocketAuths. rewrite Hws. by destruct (default [] (av !! p)). }
  pose proof (pickWithinProvider_spec s provider model (default [] (av !! p)) now) as Hp.
  destruct (pickWithinProvider s provider model (default [] (av !! p)) now) as [[a|] s1]; simpl in *.
  - exists p. destruct Hp as [Ha Hn]. split_and!; [by left|done|done|].
    intros q b [->|Hq]%elem_of_cons Hlt Hb; [lia|].
    rewrite Forall_forall in Hf. specialize (Hf q Hq). simpl in Hf. lia.
  - specialize (IH s1). destruct (drain_tiers s1 ctx provider model now av ps).1 as [a|].
    + destruct IH as (q & Hq & Ha & Hn & Hhi). exists q. split_and!; [by right|done|done|].
      intros q' b [->|Hq']%elem_of_cons Hlt Hb; [by apply Hp|by eapply Hhi].
    + intros q b [->|Hq]%elem_of_cons Hb; [by apply Hp|by eapply IH].
Qed.

Lemma quotaDrainPriorities_sorted av : StronglySorted (λ p q, q ≤ p) (quotaDrainPriorities av).
Proof.
  apply Sorted_StronglySorted; [intros x y z; lia|].
  unfold quotaDrainPriorities.
  assert (Sorted (not_after (λ x y : Z, y <? x)) (sort_by (λ x y : Z, y <? x) (map_to_list av).*1)) as Hs.
  { apply sort_by_sorted. intros a b Ha. to_prop. apply Z.ltb_ge. lia. }
  revert Hs. generalize (sort_by (λ x y : Z, y <? x) (map_to_list av).*1). intros l.
  induction 1 as [|x l Hl IH Hd]; constructor; [done|].
  inversion Hd as [|y l' Hn]; subst; constructor. unfold not_after in Hn. to_prop. lia.
Qed.

Lemma elem_of_priorities (av : buckets) p : p ∈ quotaDrainPriorities av ↔ is_Some (av !! p).
Proof.
  unfold quotaDrainPriorities. rewrite elem_of_sort_by, list_elem_of_fmap. split.
  - intros ([q l] & -> & Hq%elem_of_map_to_list). by exists l.
  - intros [l Hl]. exists (p, l). split; [done|]. by apply elem_of_map_to_list.
Qed.

(** quota-drain within one provider picks a free credential that still has
    quota, only after every free credential of a higher priority has none; it
    fails only when no free credential has quota left. *)
Theorem QuotaDrain_Pick_sound s ctx provider model auths now :
  single_provider ctx provider →
  match (QuotaDrain_Pick s ctx provider model auths now).1 with
  | Picked a => a ∈ auths ∧ free model now a ∧ ¬ spent model now a ∧
      ∀ b, b ∈ auths → free model now b → auth_priority a < auth_priority b → spent model now b
  | Failed_with _ => ∀ a, a ∈ auths → free model now a → spent model now a
  | Panic => False
  end.
Proof.
  intros Hp. unfold QuotaDrain_Pick.
  pose proof (collect_empty auths model now) as Hemp.
  pose proof (collect_spec auths model now) as Hspec.
  destruct (collectAvailableByPriority auths model now) as [[av cc] e]. cbn zeta in Hspec. simpl in *.
  case_bool_decide as E.
  { assert (∀ a, a ∈ auths → free model now a → spent model now a) as Hn.
    { intros a Ha Hf. by destruct (proj1 Hemp E a Ha). }
    by destruct ((cc =? length auths)%nat && negb (IsZero e)). }
  assert (∀ p, default [] (av !! p) = tier model now p auths) as Hd.
  { intros p. rewrite Hspec. by destruct (tier model now p auths). }
  assert (∀ a, a ∈ auths → free model now a →
    auth_priority a ∈ quotaDrainPriorities av ∧ a ∈ default [] (av !! auth_priority a)) as Hin.
  { intros a Ha Hf. assert (a ∈ tier model now (auth_priority a) auths) as Ht by by apply elem_of_tier.
    rewrite Hd. split; [|done]. apply elem_of_priorities. rewrite Hspec.
    destruct (tier model now (auth_priority a) auths); [by apply not_elem_of_nil in Ht|done]. }
  pose proof (drain_tiers_spec s ctx provider model now av _ Hp (quotaDrainPriorities_sorted av)) as Hs.
  destruct (drain_tiers s ctx provider model now av (quotaDrainPriorities av)) as [[a|] s']; simpl in *.
  - destruct Hs as (p & _ & Ha & Hn & Hhi). rewrite Hd in Ha.
    apply elem_of_tier in Ha as (Ha & Hf & Hprio). split_and!; [done..|].
    intros b Hb Hbf Hlt. destruct (Hin b Hb Hbf) as [Hq Hbq].
    eapply Hhi; [exact Hq| |exact Hbq]. lia.
  - assert (∀ a, a ∈ auths → free model now a → spent model now a) as Hn.
    { intros a Ha Hf. destruct (Hin a Ha Hf) as [Hq Haq]. by eapply Hs. }
    by destruct (negb (IsZero (earliestCapacityReset auths model now))).
Qed.
End drain.

Section weighted.
Context `{GoHost}.

Lemma candidates_positive l a :
  a ∈ candidates auth_weight (λ _, true) l ↔ a ∈ l ∧ 0 < auth_weight a.
Proof.
  rewrite elem_of_candidates. unfold eligible. rewrite andb_true_r, negb_true_iff, Z.leb_gt. done.
Qed.

(** weighted round-robin picks a free credential of positive weight, of the
    highest priority that has one, and fails only when no credential of
    positive weight is free: weight 0 takes a credential out of the rotation. *)
Theorem WeightedRoundRobin_Pick_sound s ctx provider model auths now :
  checked ctx → NoDup (ID <$> auths) →
  match (WeightedRoundRobin_Pick s ctx provider model auths now).1 with
  | Picked a => 0 < auth_weight a ∧ top_tier model now (positiveWeightAuths auths) a
  | Failed_with _ => ∀ a, a ∈ auths → 0 < auth_weight a → ¬ free model now a
  | Panic => False
  end.
Proof.
  intros Hc Hnd. unfold WeightedRoundRobin_Pick.
  assert (NoDup (ID <$> positiveWeightAuths auths)) as Hnd'.
  { eapply sublist_NoDup; [exact Hnd|]. apply fmap_sublist, sublist_filter. }
  pose proof (available_spec ctx (positiveWeightAuths auths) provider model now Hc Hnd') as Hs.
  destruct (getSelectorAvailableAuths _ _ _ _ _) as [l|].
  2:{ simpl. intros a Ha Hw. by apply Hs, positiveWeight_spec. }
  destruct Hs as (Hne & _ & Hm). set (l' := preferCodexWebsocketAuths ctx provider l) in *.
  set (st := prepare _ _).
  pose proof (pickSmoothWeighted_member ID auth_weight (λ _, true) l' (current st)) as Hp.
  unfold pickSmoothWeightedAuth.
  destruct (pickSmoothWeighted ID auth_weight (λ _, true) l' (current st)) as [[a|] cur]; simpl in *.
  - apply candidates_positive in Hp as [Ha Hw]. split; [done|by apply Hm].
  - exfalso. destruct l' as [|a k] eqn:El; [done|].
    assert (a ∈ a :: k) as Ha by by left. pose proof (Hm a Ha) as (Hpos & _).
    apply positiveWeight_spec in Hpos as [_ Hw].
    eapply not_elem_of_nil. rewrite <-Hp. by apply candidates_positive.
Qed.
End weighted.

(** ** Bounded memory *)

Lemma ensureRotationKey_bound {V} (m : gmap string V) key limit v :
  (1 ≤ limit)%nat → (size m ≤ limit)%nat → (size (<[key := v]> (ensureRotationKey m key limit)) ≤ limit)%nat.
Proof.
  intros Hl Hm. unfold ensureRotationKey. destruct (m !! key) as [v'|] eqn:E.
  - rewrite map_size_insert, E. simpl. lia.
  - destruct (Nat.leb_spec limit (size m)).
    + rewrite map_size_insert, lookup_empty, map_size_empty. simpl. lia.
    + rewrite map_size_insert, E. simpl. lia.
Qed.

Lemma key_limit_pos k : (1 ≤ key_limit k)%nat.
Proof. unfold key_limit. case_match; to_prop; lia. Qed.

Lemma nextCursorIndex_bound s key modulo :
  let s' := (nextCursorIndex s key modulo).2 in
  (size (cursors s) ≤ key_limit (qd_maxKeys s))%nat →
  (size (cursors s') ≤ key_limit (qd_maxKeys s'))%nat ∧ pins s' = pins s ∧ qd_maxKeys s' = qd_maxKeys s.
Proof.
  cbn zeta. unfold nextCursorIndex. destruct (modulo <=? 0); [done|]. cbn [snd cursors qd_maxKeys pins].
  intros Hs. split; [|done]. apply ensureRotationKey_bound; [apply key_limit_pos|done].
Qed.

(** Every cursor stays within the number of candidates it was last used with. *)
Lemma nextCursorIndex_range s key modulo :
  (∀ k c, cursors s !! k = Some c → 0 ≤ c) → 0 < modulo →
  0 ≤ (nextCursorIndex s key modulo).1 < modulo ∧
  (∀ k c, cursors (nextCursorIndex s key modulo).2 !! k = Some c → 0 ≤ c).
Proof.
  intros Hs Hm. unfold nextCursorIndex. destruct (Z.leb_spec modulo 0); [lia|]. cbn [fst snd cursors].
  set (cs := ensureRotationKey _ _ _).
  assert (∀ k c, cs !! k = Some c → 0 ≤ c) as Hcs.
  { unfold cs, ensureRotationKey. destruct (cursors s !! key); [done|]. case_match; [|done].
    intros k c Hk. by rewrite lookup_empty in Hk. }
  assert (0 ≤ default 0 (cs !! key)) as Hd.
  { destruct (cs !! key) as [c|] eqn:E; simpl; [by eapply Hcs|done]. }
  pose proof (Z.rem_bound_pos (default 0 (cs !! key)) modulo Hd Hm). split; [done|].
  intros k c Hk. destruct (decide (key = k)) as [->|].
  - rewrite lookup_insert_eq in Hk. simplify_eq. lia.
  - rewrite lookup_insert_ne in Hk by done. by eapply Hcs.
Qed.

Section bounds.
Context `{GoHost}.

(** the rotation memory of the selectors is bounded: however many
    provider/model pairs are asked for, a pick keeps every per-key map within
    its limit (4096 keys unless configured). *)
Theorem selector_memory_bounded rr wrr qd ctx provider model auths now :
  (size (lastPicked rr) ≤ key_limit (rr_maxKeys rr))%nat →
  (size (states wrr) ≤ key_limit (wrr_maxKeys wrr))%nat →
  (size (cursors qd) ≤ key_limit (qd_maxKeys qd))%nat ∧ (size (pins qd) ≤ key_limit (qd_maxKeys qd))%nat →
  let rr' := (RoundRobin_Pick rr ctx provider model auths now).2 in
  let wrr' := (WeightedRoundRobin_Pick wrr ctx provider model auths now).2 in
  let qd' := (pickWithinProvider qd provider model auths now).2 in
  (size (lastPicked rr') ≤ key_limit (rr_maxKeys rr'))%nat ∧
  (size (states wrr') ≤ key_limit (wrr_maxKeys wrr'))%nat ∧
  (size (cursors qd') ≤ key_limit (qd_maxKeys qd'))%nat ∧ (size (pins qd') ≤ key_limit (qd_maxKeys qd'))%nat.
Proof.
  intros Hrr Hwrr [Hcur Hpins]. cbn zeta. split; [|split].
  - unfold RoundRobin_Pick. destruct (getSelectorAvailableAuths _ _ _ _ _); [|done].
    case_match; [|done]. cbn [snd lastPicked rr_maxKeys].
    apply ensureRotationKey_bound; [apply key_limit_pos|done].
  - unfold WeightedRoundRobin_Pick. destruct (getSelectorAvailableAuths _ _ _ _ _); [|done].
    destruct (pickSmoothWeightedAuth _ _) as [[a|] cur]; cbn [snd states wrr_maxKeys];
      apply ensureRotationKey_bound; (done || apply key_limit_pos).
  - unfold pickWithinProvider. destruct (drain_candidates auths model now) as [|e es]; [done|].
    set (key := _ +:+ ":" +:+ _). set (n := Z.of_nat _).
    destruct (nextCursorIndex_bound qd key n Hcur) as (Hc & Hp & Hk).
    destruct (nextCursorIndex qd key n) as [offset s1]. cbn [snd] in *.
    rewrite <-Hp, <-Hk in Hpins.
    destruct (pinLocked s1 key) as [pin s2] eqn:El.
    assert (cursors s2 = cursors s1 ∧ qd_maxKeys s2 = qd_maxKeys s1 ∧
      (size (pins s2) ≤ key_limit (qd_maxKeys s2))%nat ∧ is_Some (pins s2 !! key)) as (E1 & E2 & E3 & E4).
    { unfold pinLocked in El. destruct (pins s1 !! key) eqn:Ek; simplify_eq; [done|].
      cbn [cursors pins qd_maxKeys]. rewrite lookup_insert_eq. split_and!; [done|done| |done].
      apply ensureRotationKey_bound; [apply key_limit_pos|done]. }
    destruct (pickQuotaPinned _ _ _) as [picked pin']. cbn [snd cursors pins qd_maxKeys].
    rewrite E1, E2 in *. split; [done|]. destruct E4 as [v Ev].
    by rewrite map_size_insert, Ev.
Qed.
End bounds.

(** ** The selectors on concrete credentials *)

Definition plain_ctx : sctx := mkSctx false false None.
Definition ws_ctx : sctx := mkSctx false true None.
Definition with_attr (k v : string) (a : Auth) : Auth := a <| Attributes := <[k := v]> (Attributes a) |>.
Definition auth_a : Auth := simpleAuth "a" "codex".
Definition auth_b : Auth := with_attr "priority" "5" (simpleAuth "b" "codex").
Definition auth_c : Auth := with_attr "priority" "5" (simpleAuth "c" "codex").
Definition trio : list Auth := [auth_a; auth_c; auth_b].
Definition rr0 : RoundRobinSelector := mkRR ∅ 0.
Definition wrr0 : WeightedRoundRobinSelector := mkWRR ∅ 0.
Definition qd0 : QuotaDrainSelector := mkQD ∅ ∅ 0.

Lemma trio_NoDup : NoDup (ID <$> trio).
Proof. by apply (bool_decide_unpack _). Qed.

Lemma RoundRobin_Pick_sound_witness :
  (@RoundRobin_Pick no_host rr0 plain_ctx "codex" "gpt-5" trio 100).1 = Picked auth_b ∧
  @top_tier no_host "gpt-5" 100 trio auth_b.
Proof.
  pose proof (@RoundRobin_Pick_sound no_host rr0 plain_ctx "codex" "gpt-5" trio 100 eq_refl trio_NoDup) as H.
  assert ((@RoundRobin_Pick no_host rr0 plain_ctx "codex" "gpt-5" trio 100).1 = Picked auth_b) as E
    by (vm_compute; reflexivity).
  split; [exact E|]. by rewrite E in H.
Defined.

Lemma RoundRobin_fair_witness :
  @RoundRobin_run no_host rr0 plain_ctx "codex" "gpt-5" trio [100; 101] ≡ₚ [Picked auth_b; Picked auth_c].
Proof.
  apply (@RoundRobin_fair no_host rr0 plain_ctx "codex" "gpt-5" trio [auth_b; auth_c] [100; 101]).
  - intros now Hn. apply elem_of_cons in Hn as [->|Hn]; [vm_compute; reflexivity|].
    apply list_elem_of_singleton in Hn as ->. vm_compute. reflexivity.
  - repeat constructor.
  - done.
  - intros a Ha. apply elem_of_cons in Ha as [->| ->%list_elem_of_singleton]; done.
  - done.
Defined.

Lemma FillFirst_Pick_least_witness :
  @FillFirst_Pick no_host plain_ctx "codex" "gpt-5" [auth_c; auth_b; auth_a] 100 = Picked auth_b ∧
  @top_tier no_host "gpt-5" 100 trio auth_b.
Proof.
  pose proof (@FillFirst_Pick_least no_host plain_ctx "codex" "gpt-5" trio [auth_c; auth_b; auth_a] 100
    eq_refl eq_refl trio_NoDup) as H.
  assert (@FillFirst_Pick no_host plain_ctx "codex" "gpt-5" [auth_c; auth_b; auth_a] 100 = Picked auth_b) as E
    by (vm_compute; reflexivity).
  split; [exact E|]. rewrite E in H. apply H. unfold trio.
  apply Permutation_sym. etrans; [apply perm_swap|]. apply perm_skip. apply perm_swap.
Defined.

Lemma QuotaDrain_Pick_sound_witness :
  (@QuotaDrain_Pick no_host qd0 plain_ctx "codex" "gpt-5" trio 100).1 = Picked auth_b ∧
  @free no_host "gpt-5" 100 auth_b.
Proof.
  pose proof (@QuotaDrain_Pick_sound no_host qd0 plain_ctx "codex" "gpt-5" trio 100 (conj eq_refl eq_refl)) as H.
  assert ((@QuotaDrain_Pick no_host qd0 plain_ctx "codex" "gpt-5" trio 100).1 = Picked auth_b) as E
    by (vm_compute; reflexivity).
  split; [exact E|]. rewrite E in H. apply H.
Defined.

Lemma WeightedRoundRobin_Pick_sound_witness :
  (@WeightedRoundRobin_Pick no_host wrr0 plain_ctx "codex" "gpt-5" trio 100).1 = Picked auth_b ∧
  0 < auth_weight auth_b.
Proof.
  pose proof (@WeightedRoundRobin_Pick_sound no_host wrr0 plain_ctx "codex" "gpt-5" trio 100 eq_refl trio_NoDup) as H.
  assert ((@WeightedRoundRobin_Pick no_host wrr0 plain_ctx "codex" "gpt-5" trio 100).1 = Picked auth_b) as E
    by (vm_compute; reflexivity).
  split; [exact E|]. rewrite E in H. apply H.
Defined.

Lemma selector_memory_bounded_witness :
  (size (lastPicked (@RoundRobin_Pick no_host (mkRR {["x" := "a"]} 1) plain_ctx "codex" "gpt-5" trio 100%Z).2) ≤ 1)%nat.
Proof.
  refine (proj1 (@selector_memory_bounded no_host (mkRR {["x" := "a"]} 1) wrr0 qd0 plain_ctx "codex" "gpt-5" trio 100 _ _ _)).
  - vm_compute. reflexivity.
  - vm_compute. lia.
  - split; vm_compute; lia.
Defined.

(** With a websocket client, quota-drain narrows a tier to its websocket-capable
    credentials before it looks at their quota: when those are exhausted it
    reports a cooldown although an HTTP-only credential of the same tier still
    has quota.  The scheduler's ready views fall back in this situation. *)
Definition ws_spent : Auth :=
  with_attr "websockets" "true" (capacity_auth "a" [exhausted_window]).
Definition http_ready : Auth := simpleAuth "b" "codex".

Example QuotaDrain_websocket_starves :
  (@QuotaDrain_Pick no_host qd0 plain_ctx "codex" "gpt-5" [ws_spent; http_ready] 100).1 = Picked http_ready ∧
  (@QuotaDrain_Pick no_host qd0 ws_ctx "codex" "gpt-5" [ws_spent; http_ready] 100).1
    = Failed_with (newModelCooldownError "gpt-5" "codex" 600).
Proof. split; vm_compute; reflexivity. Qed.
