(* ===== verification/Shard.v ===== *)
(** * One provider/model shard of the scheduler

    Models [modelScheduler] of [scheduler.go] with its entries, ready buckets,
    views and pickers.

    A [*scheduledAuth] pointer is the key of the entry in [entries] (the ID of
    its credential): the views and the blocked queue hold keys, so an update of
    an entry that does not rebuild the indexes is seen through them, as through
    the pointers.  The quota-drain pin a shard points to lives in the provider's
    map and is passed to the operations that use it.  Go's ranges over [entries]
    follow [map_to_list]; the results that matter are sorted or aggregated.

    [pickReadyLocked] takes the clock reading of the promotion ([now]) and the
    one at which the quota windows are judged ([at_]): the readings of one
    selection fall together. *)
From Stdlib Require Import ZArith Lia String Bool Sorted.
From stdpp Require Import prelude gmap strings.
From S2P Require Import Prelude GoStd AuthTypes Weight Availability Smooth Capacity Errors Rotation.
Local Open Scope string_scope.
Local Open Scope list_scope.
Local Open Scope Z_scope.

(** ** Data *)

Inductive schedulerStrategy :=
  schedulerStrategyCurrent | schedulerStrategyCustom | schedulerStrategyRoundRobin
| schedulerStrategyFillFirst | schedulerStrategyWeightedRoundRobin | schedulerStrategyQuotaDrain.
#[export] Instance schedulerStrategy_dec : EqDecision schedulerStrategy.
Proof. solve_decision. Defined.

Inductive scheduledState := Ready | Cooldown | Blocked | DisabledState.
#[export] Instance scheduledState_dec : EqDecision scheduledState.
Proof. solve_decision. Defined.

Record scheduledAuthMeta := mkMeta {
  sm_auth : Auth; providerKey : string; priority : Z; weight : Z; websocketEnabled : bool;
  supportedModelSet : option (gset string); registryEpoch : Z }.

Record scheduledAuth := mkEntry {
  e_meta : scheduledAuthMeta; e_auth : Auth; state : scheduledState; nextRetryAt : time }.
#[export] Instance scheduledAuth_eta : Eta scheduledAuth :=
  λ e, mkEntry (e_meta e) (e_auth e) (state e) (nextRetryAt e).

Record readyView := mkView { flat : list string; v_lastPicked : string; weightedState : smoothWeightedState }.
#[export] Instance readyView_eta : Eta readyView := λ v, mkView (flat v) (v_lastPicked v) (weightedState v).
Definition zeroView : readyView := mkView [] "" zeroSmooth.

Record readyBucket := mkBucket2 { all : readyView; ws : readyView }.
#[export] Instance readyBucket_eta : Eta readyBucket := λ b, mkBucket2 (all b) (ws b).

Record modelScheduler := mkShard {
  modelKey : string; entries : gmap string scheduledAuth; priorityOrder : list Z;
  readyByPriority : gmap Z readyBucket; blocked : list string }.
#[export] Instance modelScheduler_eta : Eta modelScheduler :=
  λ m, mkShard (modelKey m) (entries m) (priorityOrder m) (readyByPriority m) (blocked m).

(** An empty shard, as [ensureModelLocked] creates it. *)
Definition newShard (key : string) : modelScheduler := mkShard key ∅ [] ∅ [].

Definition supportsModel (m : scheduledAuthMeta) (modelKey : string) : bool :=
  let modelKey := canonicalModelKey modelKey in
  if String.eqb modelKey "" then true else
  match supportedModelSet m with
  | None => false
  | Some set => bool_decide (modelKey ∈ set)
  end.

(** The ID a pointer in a view leads to. *)
Definition entry_id (e : scheduledAuth) : string := ID (e_auth e).
Definition view_entries (m : modelScheduler) (v : readyView) : list scheduledAuth :=
  omap (λ id, entries m !! id) (flat v).

(** ** Rebuilding the indexes *)

Definition entry_weight (e : scheduledAuth) : Z := weight (e_meta e).

Definition scheduledWeightVectorMatching (es : list scheduledAuth) (predicate : scheduledAuth → bool)
    : gmap string Z := weightVector entry_id entry_weight predicate es.
Definition scheduledWeightVector (es : list scheduledAuth) : gmap string Z :=
  scheduledWeightVectorMatching es (λ _, true).

(** [snapshotReadyViewCursors] copies the cursor fields of a view. *)
Definition cursor_state := (string * smoothWeightedState)%type.
Definition snapshotReadyViewCursors (v : readyView) : cursor_state := (v_lastPicked v, weightedState v).

Definition restoreReadyViewCursors (v : readyView) (es : list scheduledAuth) (st : cursor_state)
    : readyView :=
  let v := v <| v_lastPicked := st.1 |> in
  let ws := scheduledWeightVector es in
  if bool_decide (current st.2 = ∅) || weightsConfigChanged (weights st.2) ws then v else
  let cur := fold_left (λ c e, match current st.2 !! entry_id e with
                               | Some val => <[entry_id e := val]> c
                               | None => c end) es ∅ in
  v <| weightedState := mkSmooth cur ws |>.

Definition buildReadyView (es : list scheduledAuth) : readyView :=
  mkView (entry_id <$> es) "" zeroSmooth.
Definition ws_entries (es : list scheduledAuth) : list scheduledAuth :=
  filter (λ e, websocketEnabled (e_meta e) = true) es.
Definition buildReadyBucket (es : list scheduledAuth) : readyBucket :=
  mkBucket2 (buildReadyView es) (buildReadyView (ws_entries es)).

Definition restore_bucket (old : option readyBucket) (es : list scheduledAuth) : readyBucket :=
  let b := buildReadyBucket es in
  match old with
  | None => b
  | Some o => mkBucket2 (restoreReadyViewCursors (all b) es (snapshotReadyViewCursors (all o)))
                        (restoreReadyViewCursors (ws b) (ws_entries es) (snapshotReadyViewCursors (ws o)))
  end.

(** Order of the blocked queue: earliest retry first, no retry time last. *)
Definition blocked_less (left right : scheduledAuth) : bool :=
  if TimeEqual (nextRetryAt left) (nextRetryAt right) then String.ltb (entry_id left) (entry_id right)
  else if IsZero (nextRetryAt left) then false
  else if IsZero (nextRetryAt right) then true
  else Before (nextRetryAt left) (nextRetryAt right).

Definition entry_priority (e : scheduledAuth) : Z := priority (e_meta e).
Definition entry_list (m : modelScheduler) : list scheduledAuth := (map_to_list (entries m)).*2.
Definition ready_entries (es : list scheduledAuth) : list scheduledAuth := filter (λ e, state e = Ready) es.
Definition blocked_entries (es : list scheduledAuth) : list scheduledAuth :=
  filter (λ e, state e = Cooldown ∨ state e = Blocked) es.

(** [es] is the range over [m.entries]. *)
Definition rebuildIndexes_in (es : list scheduledAuth) (m : modelScheduler) : modelScheduler :=
  let priorityBuckets := group_by entry_priority (ready_entries es) in
  m <| readyByPriority :=
         map_imap (λ p bucket, Some (restore_bucket (readyByPriority m !! p) (sort_by_key entry_id bucket)))
           priorityBuckets |>
    <| priorityOrder := sort_by (λ i j, j <? i) (map_to_list priorityBuckets).*1 |>
    <| blocked := entry_id <$> sort_by blocked_less (blocked_entries es) |>.

Definition rebuildIndexesLocked (m : modelScheduler) : modelScheduler := rebuildIndexes_in (entry_list m) m.

Section shard.
Context `{GoHost}.

(** The switch that turns a block into the state of an entry. *)
Definition classify (b : block) : scheduledState * time :=
  if negb (is_blocked b) then (Ready, zero_time)
  else match block_reason b with
       | blockReasonCooldown => (Cooldown, block_next b)
       | blockReasonDisabled => (DisabledState, zero_time)
       | _ => (Blocked, block_next b)
       end.

Definition reclassify (m : modelScheduler) (now : time) (e : scheduledAuth) : scheduledAuth :=
  let c := classify (isAuthBlockedForModel (Some (e_auth e)) (modelKey m) now) in
  e <| state := c.1 |> <| nextRetryAt := c.2 |>.

(** ** Entries *)

Definition upsertEntryLocked (m : modelScheduler) (meta : scheduledAuthMeta) (now : time) : modelScheduler :=
  let id := ID (sm_auth meta) in
  let c := classify (isAuthBlockedForModel (Some (sm_auth meta)) (modelKey m) now) in
  let entry := mkEntry meta (sm_auth meta) c.1 c.2 in
  let m' := m <| entries := <[id := entry]> (entries m) |> in
  match entries m !! id with
  | Some old =>
      if bool_decide (state old = state entry) && TimeEqual (nextRetryAt old) (nextRetryAt entry)
         && (priority (e_meta old) =? priority meta)
         && Bool.eqb (websocketEnabled (e_meta old)) (websocketEnabled meta)
      then m' else rebuildIndexesLocked m'
  | None => rebuildIndexesLocked m'
  end.

Definition removeEntryLocked (m : modelScheduler) (authID : string) : modelScheduler :=
  if String.eqb authID "" then m else
  match entries m !! authID with
  | None => m
  | Some _ => rebuildIndexesLocked (m <| entries := delete authID (entries m) |>)
  end.

(** A ready credential whose access token has expired. *)
Definition demotable (m : modelScheduler) (now : time) (e : scheduledAuth) : bool :=
  bool_decide (state e = Ready) && token_expired (Some (e_auth e)) now
  && is_blocked (isAuthBlockedForModel (Some (e_auth e)) (modelKey m) now).

(** The demoted shard and whether anything changed. *)
Definition demoteExpiredTokensLocked (m : modelScheduler) (now : time) : modelScheduler * bool :=
  (m <| entries := (λ e, if demotable m now e then reclassify m now e else e) <$> entries m |>,
   existsb (demotable m now) (entry_list m)).

Definition due (now : time) (e : scheduledAuth) : bool :=
  negb (IsZero (nextRetryAt e)) && negb (After (nextRetryAt e) now).

Definition promote_step (now : time) (acc : modelScheduler * bool) (id : string) : modelScheduler * bool :=
  let '(m, changed) := acc in
  match entries m !! id with
  | None => acc
  | Some e => if due now e then (m <| entries := <[id := reclassify m now e]> (entries m) |>, true) else acc
  end.

Definition promoteExpiredLocked (m : modelScheduler) (now : time) : modelScheduler :=
  let '(m, changed) := fold_left (promote_step now) (blocked m) (demoteExpiredTokensLocked m now) in
  if (changed : bool) then rebuildIndexesLocked m else m.

(** ** Pickers of a view *)

Definition pickFirst (m : modelScheduler) (v : readyView) (predicate : scheduledAuth → bool)
    : option scheduledAuth := find_first predicate (view_entries m v).

Definition rotated (es : list scheduledAuth) (lastID : string) : list scheduledAuth :=
  let start := successorIndex entry_id es lastID in drop start es ++ take start es.

Definition pickRoundRobin (m : modelScheduler) (v : readyView) (predicate : scheduledAuth → bool)
    : option scheduledAuth * readyView :=
  match find_first predicate (rotated (view_entries m v) (v_lastPicked v)) with
  | Some e => (Some e, v <| v_lastPicked := entry_id e |>)
  | None => (None, v)
  end.

Definition pickSmoothWeightedScheduled (es : list scheduledAuth) (cur : gmap string Z)
    (predicate : scheduledAuth → bool) : option scheduledAuth * gmap string Z :=
  pickSmoothWeighted entry_id entry_weight predicate es cur.

Definition pickWeighted (m : modelScheduler) (v : readyView) (predicate : scheduledAuth → bool)
    : option scheduledAuth * readyView :=
  match flat v with
  | [] => (None, v)
  | _ =>
      let es := view_entries m v in
      let st := prepare (weightedState v) (scheduledWeightVectorMatching es predicate) in
      let '(picked, cur) := pickSmoothWeightedScheduled es (current st) predicate in
      (picked, v <| weightedState := st <| current := cur |> |>)
  end.

Definition quotaUsable (m : modelScheduler) (at_ : time) (e : scheduledAuth) : bool :=
  negb (quotaCapacityExhausted (Some (e_auth e)) (modelKey m) at_).

Definition pickQuotaDrain (m : modelScheduler) (v : readyView) (predicate : scheduledAuth → bool)
    (pin : quotaDrainPin) (at_ : time) : option scheduledAuth * readyView * quotaDrainPin :=
  match flat v with
  | [] => (None, v, pin)
  | _ =>
      let es := filter (λ e, quotaUsable m at_ e = true) (rotated (view_entries m v) (v_lastPicked v)) in
      let candidates := (λ e, mkCandidate (entry_id e)
                           (quotaCapacityRank (Some (e_auth e)) (modelKey m) at_) (predicate e)) <$> es in
      let '(picked, pin') := pickQuotaPinned (Some pin) candidates (seq 0 (length candidates)) in
      let pin' := default zeroPin pin' in
      match picked ≫= λ i, es !! i with
      | None => (None, v, pin')
      | Some e => (Some e, v <| v_lastPicked := entry_id e |>, pin')
      end
  end.

Definition hasQuotaDrainCandidate (m : modelScheduler) (v : readyView)
    (predicate : scheduledAuth → bool) (at_ : time) : bool :=
  existsb (λ e, predicate e && quotaUsable m at_ e) (view_entries m v).

(** ** Picking from the shard *)

(** Whether a view has something to pick under a strategy. *)
Definition view_selectable (m : modelScheduler) (strategy : schedulerStrategy) (at_ : time)
    (predicate : scheduledAuth → bool) (v : readyView) : bool :=
  if bool_decide (strategy = schedulerStrategyQuotaDrain) then hasQuotaDrainCandidate m v predicate at_
  else match pickFirst m v predicate with Some _ => true | None => false end.

Definition bucket_test (m : modelScheduler) (f : readyBucket → bool) (p : Z) : bool :=
  match readyByPriority m !! p with Some b => f b | None => false end.

(** Websocket credentials are preferred over all tiers, then the highest tier. *)
Definition highestSelectablePriorityLocked (m : modelScheduler) (preferWebsocket : bool)
    (strategy : schedulerStrategy) (at_ : time) (predicate : scheduledAuth → bool) : option Z :=
  let sel := view_selectable m strategy at_ predicate in
  let first f := find_first (bucket_test m f) (priorityOrder m) in
  match (if preferWebsocket then first (λ b, sel (ws b)) else None) with
  | Some p => Some p
  | None => first (λ b, sel (all b))
  end.

Definition pick_view (m : modelScheduler) (v : readyView) (strategy : schedulerStrategy) (at_ : time)
    (predicate : scheduledAuth → bool) (pin : quotaDrainPin)
    : option scheduledAuth * readyView * quotaDrainPin :=
  match strategy with
  | schedulerStrategyFillFirst => (pickFirst m v predicate, v, pin)
  | schedulerStrategyQuotaDrain => pickQuotaDrain m v predicate pin at_
  | schedulerStrategyWeightedRoundRobin => (pickWeighted m v predicate, pin)
  | _ => (pickRoundRobin m v predicate, pin)
  end.

(** The picked credential, the shard and the pin afterwards. *)
Definition pickReadyAtPriorityLocked (m : modelScheduler) (preferWebsocket : bool) (p : Z)
    (strategy : schedulerStrategy) (at_ : time) (predicate : scheduledAuth → bool) (pin : quotaDrainPin)
    : option Auth * modelScheduler * quotaDrainPin :=
  match readyByPriority m !! p with
  | None => (None, m, pin)
  | Some bucket =>
      let use_ws := preferWebsocket && view_selectable m strategy at_ predicate (ws bucket) in
      let '(picked, v, pin) :=
        pick_view m (if use_ws then ws bucket else all bucket) strategy at_ predicate pin in
      let bucket := if use_ws then bucket <| ws := v |> else bucket <| all := v |> in
      (e_auth <$> picked, m <| readyByPriority := <[p := bucket]> (readyByPriority m) |>, pin)
  end.

Definition pickReadyLocked (m : modelScheduler) (preferWebsocket : bool) (strategy : schedulerStrategy)
    (now at_ : time) (predicate : scheduledAuth → bool) (pin : quotaDrainPin)
    : option Auth * modelScheduler * quotaDrainPin :=
  let m := promoteExpiredLocked m now in
  match highestSelectablePriorityLocked m preferWebsocket strategy at_ predicate with
  | None => (None, m, pin)
  | Some p => pickReadyAtPriorityLocked m preferWebsocket p strategy at_ predicate pin
  end.

Definition readyCountAtPriorityLocked (m : modelScheduler) (preferWebsocket : bool) (p : Z)
    (predicate : scheduledAuth → bool) : nat :=
  match readyByPriority m !! p with
  | None => 0
  | Some bucket =>
      let use_ws := preferWebsocket
                    && match pickFirst m (ws bucket) predicate with Some _ => true | None => false end in
      length (filter (λ e, predicate e = true) (view_entries m (if use_ws then ws bucket else all bucket)))
  end.

Definition selectableCountAtPriorityLocked (m : modelScheduler) (preferWebsocket : bool) (p : Z)
    (strategy : schedulerStrategy) (at_ : time) (predicate : scheduledAuth → bool) : nat :=
  if negb (bool_decide (strategy = schedulerStrategyQuotaDrain))
  then readyCountAtPriorityLocked m preferWebsocket p predicate
  else match readyByPriority m !! p with
       | None => 0
       | Some bucket =>
           let use_ws := preferWebsocket && hasQuotaDrainCandidate m (ws bucket) predicate at_ in
           length (filter (λ e, predicate e && quotaUsable m at_ e = true)
                     (view_entries m (if use_ws then ws bucket else all bucket)))
       end.
End shard.

(** ** The invariant of a shard *)

Implicit Types (m : modelScheduler) (e : scheduledAuth) (v : readyView) (b : readyBucket) (p : Z) (id : string).

(** An entry sits under its credential's ID. *)
Definition keys_ok m : Prop := ∀ id e, entries m !! id = Some e → entry_id e = id.

Definition id_list_ok (l : list string) (P : string → Prop) : Prop :=
  id_sorted (λ x, x) l ∧ ∀ id, id ∈ l ↔ P id.

Definition ready_in m p id : Prop :=
  ∃ e, entries m !! id = Some e ∧ state e = Ready ∧ entry_priority e = p.
Definition ready_ws_in m p id : Prop :=
  ∃ e, entries m !! id = Some e ∧ state e = Ready ∧ entry_priority e = p ∧ websocketEnabled (e_meta e) = true.

(** The indexes show exactly the ready entries, tier by tier in ID order, and
    the blocked queue exactly the entries that wait. *)
Record views_ok m : Prop := {
  vo_bucket p b : readyByPriority m !! p = Some b →
    id_list_ok (flat (all b)) (ready_in m p) ∧ id_list_ok (flat (ws b)) (ready_ws_in m p);
  vo_tier p : is_Some (readyByPriority m !! p) ↔ ∃ id, ready_in m p id;
  vo_order p : p ∈ priorityOrder m ↔ is_Some (readyByPriority m !! p);
  vo_desc : StronglySorted (λ i j, j < i) (priorityOrder m);
  vo_blocked id : id ∈ blocked m ↔
    ∃ e, entries m !! id = Some e ∧ (state e = Cooldown ∨ state e = Blocked) }.

Lemma id_list_ok_iff l (P Q : string → Prop) : (∀ id, P id ↔ Q id) → id_list_ok l P → id_list_ok l Q.
Proof. intros H [? Hp]. split; [done|]. intros id. by rewrite Hp. Qed.

Lemma ex_Some {A} (x : A) (P : A → Prop) : (∃ y, Some x = Some y ∧ P y) ↔ P x.
Proof. naive_solver. Qed.
Lemma ex_None {A} (P : A → Prop) : (∃ y, None = Some y ∧ P y) ↔ False.
Proof. naive_solver. Qed.

(** Two shards with the same ready and waiting entries. *)
Lemma views_ok_same m m' :
  readyByPriority m' = readyByPriority m → priorityOrder m' = priorityOrder m → blocked m' = blocked m →
  (∀ id, match entries m !! id, entries m' !! id with
         | Some e, Some e' => state e' = state e ∧ entry_priority e' = entry_priority e ∧
                              websocketEnabled (e_meta e') = websocketEnabled (e_meta e)
         | None, None => True | _, _ => False end) →
  views_ok m → views_ok m'.
Proof.
  intros Hr Ho Hb He [].
  assert (∀ p id, ready_in m p id ↔ ready_in m' p id) as H1.
  { intros p id. specialize (He id). unfold ready_in.
    destruct (entries m !! id) as [e|], (entries m' !! id) as [e'|]; rewrite ?ex_Some, ?ex_None;
      [destruct He as (E1 & E2 & E3); rewrite ?E1, ?E2, ?E3; tauto|..]; done. }
  assert (∀ p id, ready_ws_in m p id ↔ ready_ws_in m' p id) as H2.
  { intros p id. specialize (He id). unfold ready_ws_in.
    destruct (entries m !! id) as [e|], (entries m' !! id) as [e'|]; rewrite ?ex_Some, ?ex_None;
      [destruct He as (E1 & E2 & E3); rewrite ?E1, ?E2, ?E3; tauto|..]; done. }
  split.
  - intros p b. rewrite Hr. intros [??]%vo_bucket0. split; (eapply id_list_ok_iff; [|done]); auto.
  - intros p. rewrite Hr, vo_tier0. apply exist_proper. intros id. apply H1.
  - intros p. by rewrite Ho, Hr.
  - by rewrite Ho.
  - intros id. rewrite Hb, vo_blocked0. specialize (He id).
    destruct (entries m !! id) as [e|], (entries m' !! id) as [e'|]; rewrite ?ex_Some, ?ex_None;
      [destruct He as (E1 & E2 & E3); rewrite ?E1, ?E2, ?E3; tauto|..]; done.
Qed.

Lemma elem_of_entry_list m e : keys_ok m → e ∈ entry_list m ↔ entries m !! entry_id e = Some e.
Proof.
  intros Hk. unfold entry_list. rewrite list_elem_of_fmap. split.
  - intros ([id e'] & -> & Hin%elem_of_map_to_list). simpl. by rewrite (Hk _ _ Hin).
  - intros Hl. exists (entry_id e, e). split; [done|by apply elem_of_map_to_list].
Qed.

Lemma entry_list_NoDup m : keys_ok m → NoDup (entry_id <$> entry_list m).
Proof.
  intros Hk. unfold entry_list. rewrite <-list_fmap_compose.
  rewrite (list_fmap_ext (entry_id ∘ snd) fst).
  - apply NoDup_fst_map_to_list.
  - intros i [id e] Hi. simpl. apply (Hk id e), elem_of_map_to_list. by eapply list_elem_of_lookup_2.
Qed.

Lemma NoDup_fmap_filter {A} (f : A → string) (P : A → Prop) `{∀ x, Decision (P x)} l :
  NoDup (f <$> l) → NoDup (f <$> filter P l).
Proof.
  induction l as [|x l IH]; simpl; [done|]. intros [Hx Hn]%NoDup_cons. rewrite filter_cons.
  case_decide; [|by apply IH]. simpl. apply NoDup_cons. split; [|by apply IH].
  intros (y & E & [_ Hy]%list_elem_of_filter)%list_elem_of_fmap. apply Hx. rewrite E.
  by apply list_elem_of_fmap_2.
Qed.

Lemma id_sorted_map (es : list scheduledAuth) : id_sorted entry_id es → id_sorted (λ x, x) (entry_id <$> es).
Proof.
  unfold id_sorted. induction 1 as [|e es Hs IH Hf]; simpl; constructor; [done|].
  by apply Forall_fmap.
Qed.

Lemma flat_restore v es st : flat (restoreReadyViewCursors v es st) = flat v.
Proof. unfold restoreReadyViewCursors. by case_match. Qed.

Lemma flat_restore_bucket old es :
  flat (all (restore_bucket old es)) = entry_id <$> es ∧
  flat (ws (restore_bucket old es)) = entry_id <$> ws_entries es.
Proof. unfold restore_bucket. destruct old; simpl; [by rewrite !flat_restore|done]. Qed.

Lemma rebuild_bucket es m p b :
  readyByPriority (rebuildIndexes_in es m) !! p = Some b →
  let bucket := filter (λ e, entry_priority e = p) (ready_entries es) in
  bucket ≠ [] ∧ b = restore_bucket (readyByPriority m !! p) (sort_by_key entry_id bucket).
Proof.
  unfold rebuildIndexes_in. simpl. rewrite map_lookup_imap, group_by_lookup.
  destruct (filter _ _); simpl; [done|]. by intros [= <-].
Qed.

Lemma rebuild_tier es m p :
  is_Some (readyByPriority (rebuildIndexes_in es m) !! p) ↔ ∃ e, e ∈ ready_entries es ∧ entry_priority e = p.
Proof.
  unfold rebuildIndexes_in. simpl. rewrite map_lookup_imap, group_by_lookup. split.
  - destruct (filter _ _) as [|e l] eqn:E; simpl; [by intros []|]. intros _. exists e.
    assert (e ∈ filter (λ e, entry_priority e = p) (ready_entries es)) as He by (rewrite E; by left).
    by apply list_elem_of_filter in He as [??].
  - intros (e & He & Hp). destruct (filter _ _) as [|e' l] eqn:E; simpl; [|done].
    assert (e ∈ filter (λ e, entry_priority e = p) (ready_entries es)) as Hf by by apply list_elem_of_filter.
    rewrite E in Hf. by apply not_elem_of_nil in Hf.
Qed.

Lemma bucket_list_ok (es : list scheduledAuth) (P : string → Prop) :
  NoDup (entry_id <$> es) → (∀ id, (∃ e, e ∈ es ∧ entry_id e = id) ↔ P id) →
  ∀ l, l ≡ₚ es → id_sorted entry_id l → id_list_ok (entry_id <$> l) P.
Proof.
  intros Hn HP l Hl Hs. split; [by apply id_sorted_map|].
  intros id. rewrite list_elem_of_fmap, <-HP. setoid_rewrite Hl. naive_solver.
Qed.

Lemma filter_sorted {A} (key : A → string) (P : A → Prop) `{∀ x, Decision (P x)} l :
  id_sorted key l → id_sorted key (filter P l).
Proof. intros. eapply id_sorted_sublist; [|done]. apply sublist_filter. Qed.

Lemma desc_sorted (l : list Z) : NoDup l → StronglySorted (λ i j, j < i) (sort_by (λ i j, j <? i) l).
Proof.
  intros Hn. assert (NoDup (sort_by (λ i j, j <? i) l)) as Hn' by by rewrite sort_by_perm.
  assert (StronglySorted (not_after (λ i j, j <? i)) (sort_by (λ i j, j <? i) l)) as Hs.
  { apply Sorted_StronglySorted.
    - intros x y z. unfold not_after. rewrite !Z.ltb_ge. lia.
    - apply sort_by_sorted. intros a b. rewrite Z.ltb_lt, Z.ltb_ge. lia. }
  induction Hs as [|i l' Hs IH Hf]; constructor.
  - apply IH. by apply NoDup_cons in Hn' as [_ ?].
  - apply NoDup_cons in Hn' as [Hi _]. rewrite Forall_forall in Hf |- *. intros j Hj.
    specialize (Hf j Hj). unfold not_after in Hf. apply Z.ltb_ge in Hf.
    assert (i ≠ j) by (intros ->; done). lia.
Qed.

Lemma rebuild_views_ok m : keys_ok m → views_ok (rebuildIndexesLocked m).
Proof.
  intros Hk. unfold rebuildIndexesLocked. pose proof (entry_list_NoDup m Hk) as Hn.
  set (es := entry_list m) in *.
  assert (∀ (P : scheduledAuth → Prop), (∀ e, Decision (P e)) → ∀ id,
    (∃ e, (P e ∧ e ∈ es) ∧ entry_id e = id) ↔ ∃ e, entries m !! id = Some e ∧ P e) as Hes.
  { intros P _ id. split.
    - intros (e & [Hp He] & <-). exists e. split; [|done]. by apply elem_of_entry_list.
    - intros (e & He & Hp). exists e. split_and!; [done| |by apply (Hk id)].
      apply elem_of_entry_list; [done|]. by rewrite (Hk id). }
  assert (∀ p, (∃ id, ready_in (rebuildIndexes_in es m) p id) ↔ ∃ e, e ∈ ready_entries es ∧ entry_priority e = p) as Ht.
  { intros p. unfold ready_in. split.
    - intros (id & e & He & Hr & Hp). exists e. split; [|done].
      apply list_elem_of_filter. split; [done|]. apply elem_of_entry_list; [done|]. by rewrite (Hk id).
    - intros (e & [Hr He]%list_elem_of_filter & Hp). exists (entry_id e), e.
      split_and!; [|done..]. by apply elem_of_entry_list. }
  split.
  - intros p b Hb. apply rebuild_bucket in Hb as [_ ->].
    set (bk := filter _ (ready_entries es)).
    destruct (flat_restore_bucket (readyByPriority m !! p) (sort_by_key entry_id bk)) as [-> ->].
    assert (NoDup (entry_id <$> bk)) as Hbk by by apply NoDup_fmap_filter, NoDup_fmap_filter.
    assert (id_sorted entry_id (sort_by_key entry_id bk)) as Hs by by apply sort_by_key_id_sorted.
    assert (sort_by_key entry_id bk ≡ₚ bk) as Hp by apply sort_by_perm. split.
    + eapply bucket_list_ok; [exact Hbk| |done|done]. intros id. unfold ready_in.
      rewrite <-(Hes (λ e, state e = Ready ∧ entry_priority e = p)) by apply _.
      apply exist_proper. intros e. unfold bk, ready_entries. rewrite !list_elem_of_filter. naive_solver.
    + apply (bucket_list_ok (ws_entries bk)).
      * by apply NoDup_fmap_filter.
      * intros id. unfold ready_ws_in.
        rewrite <-(Hes (λ e, state e = Ready ∧ entry_priority e = p ∧ websocketEnabled (e_meta e) = true)) by apply _.
        apply exist_proper. intros e. unfold ws_entries, bk, ready_entries. rewrite !list_elem_of_filter. naive_solver.
      * unfold ws_entries. by rewrite Hp.
      * by apply filter_sorted.
  - intros p. by rewrite rebuild_tier, Ht.
  - intros p. rewrite rebuild_tier. unfold rebuildIndexes_in. simpl.
    rewrite elem_of_sort_by, list_elem_of_fmap. split.
    + intros ([p' l] & -> & Hl%elem_of_map_to_list). rewrite group_by_lookup in Hl. simpl.
      destruct (filter _ _) as [|e l'] eqn:E; [done|]. exists e. apply and_comm.
      apply (list_elem_of_filter (λ e, entry_priority e = p')). rewrite E. by left.
    + intros (e & He & Hp). destruct (group_by entry_priority (ready_entries es) !! p) as [l|] eqn:El.
      * exists (p, l). split; [done|]. by apply elem_of_map_to_list.
      * rewrite group_by_lookup in El. destruct (filter _ _) as [|e' l'] eqn:E; [|done].
        exfalso. apply (not_elem_of_nil e). rewrite <-E. by apply list_elem_of_filter.
  - apply desc_sorted, NoDup_fst_map_to_list.
  - intros id. unfold rebuildIndexes_in. simpl. rewrite list_elem_of_fmap.
    setoid_rewrite elem_of_sort_by. rewrite <-(Hes (λ e, state e = Cooldown ∨ state e = Blocked)) by apply _.
    apply exist_proper. intros e. unfold blocked_entries. rewrite list_elem_of_filter. naive_solver.
Qed.

(** ** Time: the state of an entry is the block of its credential at some past reading *)

Section timed.
Context `{GoHost}.

Definition is_free e (k : string) (now : time) : Prop :=
  is_blocked (isAuthBlockedForModel (Some (e_auth e)) k now) = false.

Definition timely (k : string) (t : time) e : Prop :=
  sm_auth (e_meta e) = e_auth e ∧
  ∃ t0, 0 ≤ t0 ≤ t ∧ (state e, nextRetryAt e) = classify (isAuthBlockedForModel (Some (e_auth e)) k t0).

Record shard_ok (t : time) m : Prop := {
  so_keys : keys_ok m;
  so_views : views_ok m;
  so_timely id e : entries m !! id = Some e → timely (modelKey m) t e }.

Lemma classify_ready (b : block) : (classify b).1 = Ready ↔ is_blocked b = false.
Proof. unfold classify. destruct (is_blocked b); simpl; [|done]. by destruct (block_reason b). Qed.

(** The retry time survives the classification. *)
Lemma classify_next (a : option Auth) k t : 0 ≤ t →
  is_blocked (isAuthBlockedForModel a k t) = true →
  (classify (isAuthBlockedForModel a k t)).2 = block_next (isAuthBlockedForModel a k t).
Proof.
  intros Ht Hb. unfold classify. rewrite Hb. simpl.
  destruct (block_reason _) eqn:E; simpl; try done. symmetry. by apply auth_disabled_next.
Qed.

Lemma reclassify_timely m now e : 0 ≤ now → sm_auth (e_meta e) = e_auth e →
  timely (modelKey m) now (reclassify m now e).
Proof. intros ? Hs. split; [done|]. exists now. split; [lia|]. unfold reclassify. simpl. by destruct (classify _). Qed.

Lemma reclassify_ready m now e : state (reclassify m now e) = Ready ↔ is_free e (modelKey m) now.
Proof. unfold reclassify. simpl. apply classify_ready. Qed.

Lemma reclassify_idem m now e : reclassify m now (reclassify m now e) = reclassify m now e.
Proof. done. Qed.

Lemma timely_mono k t t' e : t ≤ t' → timely k t e → timely k t' e.
Proof. intros Ht [? (t0 & ? & ?)]. split; [done|]. exists t0. split; [lia|done]. Qed.

(** What a promotion does to one entry. *)
Definition waiting e : bool := bool_decide (state e = Cooldown ∨ state e = Blocked).
Definition settle m now e : scheduledAuth :=
  if demotable m now e then reclassify m now e
  else if waiting e && due now e then reclassify m now e else e.

Lemma settle_auth m now e : e_auth (settle m now e) = e_auth e ∧ e_meta (settle m now e) = e_meta e.
Proof. unfold settle. by repeat case_match. Qed.

Lemma settle_timely m t now e : 0 ≤ now → t ≤ now → timely (modelKey m) t e → timely (modelKey m) now (settle m now e).
Proof.
  intros ?? Ht. unfold settle.
  repeat case_match; try (apply reclassify_timely; [done|apply Ht]). by eapply timely_mono.
Qed.

(** An entry that is not ready stays so until its retry time, if it has one. *)
Lemma not_ready_holds k t now e : timely k t e → t ≤ now → state e ≠ Ready →
  (nextRetryAt e ≠ 0 → now < nextRetryAt e) → ¬ is_free e k now.
Proof.
  intros [_ (t0 & H0 & Hc)] Htn Hnr Hnx Hf. unfold is_free in Hf.
  set (b0 := isAuthBlockedForModel (Some (e_auth e)) k t0) in *.
  assert (is_blocked b0 = true) as Eb0.
  { apply not_false_iff_true. intros Hb. apply Hnr.
    transitivity ((classify b0).1); [by rewrite <-Hc|]. by apply classify_ready. }
  assert (nextRetryAt e = block_next b0) as Hnext.
  { transitivity ((classify b0).2); [by rewrite <-Hc|]. apply classify_next; [lia|done]. }
  rewrite (auth_holds _ _ t0) in Hf; [done|lia|lia|done|]. fold b0. rewrite <-Hnext. exact Hnx.
Qed.

Lemma settle_ready m t now e : 0 ≤ now → t ≤ now → timely (modelKey m) t e →
  state (settle m now e) = Ready ↔ is_free e (modelKey m) now.
Proof.
  intros Hn Htn Hti. pose proof Hti as [_ (t0 & H0 & Hc)]. unfold settle.
  destruct (demotable m now e) eqn:Ed; [apply reclassify_ready|].
  destruct (waiting e && due now e) eqn:Ew; [apply reclassify_ready|].
  set (b0 := isAuthBlockedForModel (Some (e_auth e)) (modelKey m) t0) in *.
  destruct (is_blocked b0) eqn:Eb0.
  - assert (state e ≠ Ready) as Hnr.
    { intros E. assert ((classify b0).1 = Ready) as Hr by (by rewrite <-Hc). apply classify_ready in Hr. congruence. }
    split; [done|]. intros Hf. exfalso. revert Hf. apply (not_ready_holds _ t); [done..|].
    intros Hnz. destruct (Z.lt_ge_cases now (nextRetryAt e)) as [|Hge]; [done|]. exfalso.
    assert (due now e = true) as Hdue.
    { unfold due, IsZero, After. apply andb_true_iff. rewrite !negb_true_iff, Z.eqb_neq, Z.ltb_ge. done. }
    rewrite Hdue, andb_true_r in Ew. unfold waiting in Ew. apply bool_decide_eq_false in Ew.
    assert (state e = (classify b0).1) as Est by by rewrite <-Hc.
    assert (nextRetryAt e = (classify b0).2) as En by by rewrite <-Hc.
    unfold classify in Est, En. rewrite Eb0 in Est, En. destruct (block_reason b0); simpl in Est, En; naive_solver.
  - assert (state e = Ready) as Hr.
    { transitivity ((classify b0).1); [by rewrite <-Hc|]. by apply classify_ready. }
    split; [|done]. intros _. unfold is_free.
    unfold demotable in Ed. rewrite bool_decide_eq_true_2 in Ed by done. simpl in Ed.
    destruct (token_expired (Some (e_auth e)) now) eqn:Et.
    + by simpl in Ed.
    + by apply (auth_free _ _ t0); [lia..|done|].
Qed.

(** ** Every operation keeps the invariant *)

Lemma newShard_ok k t : shard_ok t (newShard k).
Proof.
  split; [done| |done]. split; simpl.
  - done.
  - intros p. rewrite lookup_empty. split; [by intros []|]. intros (id & e & He & _). done.
  - intros p. rewrite lookup_empty. split; [intros Hp; by apply not_elem_of_nil in Hp|by intros []].
  - constructor.
  - intros id. split; [intros Hp; by apply not_elem_of_nil in Hp|]. by intros (e & He & _).
Qed.

Lemma rebuild_keeps m : entries (rebuildIndexesLocked m) = entries m ∧ modelKey (rebuildIndexesLocked m) = modelKey m.
Proof. done. Qed.

Lemma rebuild_ok t m : keys_ok m → (∀ id e, entries m !! id = Some e → timely (modelKey m) t e) →
  shard_ok t (rebuildIndexesLocked m).
Proof. intros Hk Ht. split; [done|by apply rebuild_views_ok|done]. Qed.

Definition new_entry m (meta : scheduledAuthMeta) (now : time) : scheduledAuth :=
  let c := classify (isAuthBlockedForModel (Some (sm_auth meta)) (modelKey m) now) in
  mkEntry meta (sm_auth meta) c.1 c.2.

Lemma upsert_entries m meta now :
  entries (upsertEntryLocked m meta now) = <[ID (sm_auth meta) := new_entry m meta now]> (entries m) ∧
  modelKey (upsertEntryLocked m meta now) = modelKey m.
Proof. unfold upsertEntryLocked. repeat case_match; done. Qed.

Lemma upsertEntryLocked_ok t m meta now :
  0 ≤ now → t ≤ now → shard_ok t m → shard_ok now (upsertEntryLocked m meta now).
Proof.
  intros Hn Ht [Hk Hv Hti]. unfold upsertEntryLocked.
  set (m' := m <| entries := _ |>).
  assert (keys_ok m') as Hk'.
  { intros id e He. simpl in He. apply lookup_insert_Some in He as [[<- <-]|[_ He]]; [done|by apply Hk]. }
  assert (∀ id e, entries m' !! id = Some e → timely (modelKey m') now e) as Hti'.
  { intros id e He. simpl in He. apply lookup_insert_Some in He as [[<- <-]|[_ He]].
    - split; [done|]. exists now. split; [lia|]. simpl. by destruct (classify _).
    - eapply timely_mono; [done|]. by eapply Hti. }
  destruct (entries m !! ID (sm_auth meta)) as [old|] eqn:Eo; [|by apply rebuild_ok].
  case_match eqn:Es; [|by apply rebuild_ok]. reflect_bools.
  split; [done| |done]. eapply views_ok_same; [..|exact Hv]; try done.
  intros id. simpl. destruct (decide (id = ID (sm_auth meta))) as [->|Hne].
  - rewrite Eo, lookup_insert_eq. by split_and!.
  - rewrite lookup_insert_ne by done. by destruct (entries m !! id).
Qed.

Lemma remove_entries m id :
  entries (removeEntryLocked m id) = (if String.eqb id "" then entries m else delete id (entries m)) ∧
  modelKey (removeEntryLocked m id) = modelKey m.
Proof.
  unfold removeEntryLocked. destruct (String.eqb id ""); [done|].
  destruct (entries m !! id) eqn:E; [done|]. by rewrite delete_id.
Qed.

Lemma removeEntryLocked_ok t m id : shard_ok t m → shard_ok t (removeEntryLocked m id).
Proof.
  intros Hs. pose proof Hs as [Hk Hv Hti]. unfold removeEntryLocked.
  case_match; [done|]. case_match; [|done]. apply rebuild_ok; simpl.
  - intros id' e' He. simpl in He. apply lookup_delete_Some in He as [_ He]. by apply Hk.
  - intros id' e' He. simpl in He. apply lookup_delete_Some in He as [_ He]. by apply (Hti id').
Qed.

Lemma promote_fold now ids m c :
  let r := fold_left (promote_step now) ids (m, c) in
  modelKey r.1 = modelKey m ∧
  readyByPriority r.1 = readyByPriority m ∧ priorityOrder r.1 = priorityOrder m ∧ blocked r.1 = blocked m ∧
  (∀ id, entries r.1 !! id =
     (λ e, if bool_decide (id ∈ ids) && due now e then reclassify m now e else e) <$> entries m !! id) ∧
  (r.2 = false → c = false ∧ entries r.1 = entries m).
Proof.
  revert m c. induction ids as [|i ids IH]; intros m c; cbn [fold_left].
  { simpl. split_and!; try done. intros id. by destruct (entries m !! id). }
  destruct (promote_step now (m, c) i) as [m1 c1] eqn:Es. unfold promote_step in Es.
  destruct (entries m !! i) as [e|] eqn:Ee; [destruct (due now e) eqn:Ed|]; injection Es as <- <-.
  - set (m' := m <| entries := <[i := reclassify m now e]> (entries m) |>).
    destruct (IH m' true) as (E1 & E2 & E3 & E4 & He & Hf). cbn zeta.
    split_and!; [done..| |by intros [? _]%Hf].
    intros id. etrans; [apply He|]. 
    assert (entries m' = <[i := reclassify m now e]> (entries m)) as -> by done.
    destruct (decide (id = i)) as [->|Hne].
    + rewrite lookup_insert_eq, Ee. simpl. f_equal.
      rewrite (bool_decide_eq_true_2 (i ∈ i :: ids)) by by left. rewrite Ed. simpl. by case_match.
    + rewrite lookup_insert_ne by done. destruct (entries m !! id); [|done]. simpl. f_equal.
      by rewrite (bool_decide_ext (id ∈ i :: ids) (id ∈ ids)) by (rewrite elem_of_cons; naive_solver).
  - destruct (IH m c) as (E1 & E2 & E3 & E4 & He & Hf). cbn zeta.
    split_and!; [done..| |done]. intros id. etrans; [apply He|]. destruct (decide (id = i)) as [->|Hne].
    + rewrite Ee. simpl. by rewrite Ed, !andb_false_r.
    + destruct (entries m !! id); [|done]. simpl. f_equal.
      by rewrite (bool_decide_ext (id ∈ i :: ids) (id ∈ ids)) by (rewrite elem_of_cons; naive_solver).
  - destruct (IH m c) as (E1 & E2 & E3 & E4 & He & Hf). cbn zeta.
    split_and!; [done..| |done]. intros id. etrans; [apply He|]. destruct (decide (id = i)) as [->|Hne].
    + by rewrite Ee.
    + destruct (entries m !! id); [|done]. simpl. f_equal.
      by rewrite (bool_decide_ext (id ∈ i :: ids) (id ∈ ids)) by (rewrite elem_of_cons; naive_solver).
Qed.

Lemma demote_unchanged m now : keys_ok m → (demoteExpiredTokensLocked m now).2 = false →
  entries (demoteExpiredTokensLocked m now).1 = entries m.
Proof.
  intros Hk Hf. simpl in *. apply map_eq. intros id. rewrite lookup_fmap.
  destruct (entries m !! id) as [e|] eqn:E; [|done]. simpl.
  destruct (demotable m now e) eqn:Ed; [|done]. exfalso.
  apply not_true_iff_false in Hf. apply Hf, existsb_exists. exists e. split; [|done].
  apply list_elem_of_In, elem_of_entry_list; [done|]. by rewrite (Hk _ _ E).
Qed.

Lemma promoteExpired_steps m now :
  ∃ r, r = fold_left (promote_step now) (blocked m) (demoteExpiredTokensLocked m now) ∧
    promoteExpiredLocked m now = if (r.2 : bool) then rebuildIndexesLocked r.1 else r.1.
Proof. eexists. split; [done|]. unfold promoteExpiredLocked. by destruct (fold_left _ _ _) as [? []]. Qed.

Lemma promoteExpired_entries t m now : shard_ok t m →
  modelKey (promoteExpiredLocked m now) = modelKey m ∧
  ∀ id, entries (promoteExpiredLocked m now) !! id = settle m now <$> entries m !! id.
Proof.
  intros [Hk Hv _]. destruct (promoteExpired_steps m now) as (r & Er & ->).
  destruct (promote_fold now (blocked m) (demoteExpiredTokensLocked m now).1
    (demoteExpiredTokensLocked m now).2) as (E1 & _ & _ & _ & He & _).
  rewrite <-surjective_pairing, <-Er in *.
  assert (∀ id, entries r.1 !! id = settle m now <$> entries m !! id) as Hx.
  { intros id. rewrite He. simpl. rewrite lookup_fmap.
    destruct (entries m !! id) as [e|] eqn:Ee; [|done]. simpl. f_equal. unfold settle.
    destruct (demotable m now e); [by case_match|].
    assert (bool_decide (id ∈ blocked m) = waiting e) as ->; [|done].
    apply bool_decide_ext. etrans; [apply (vo_blocked m Hv)|]. split.
    - intros (x & Hx & ?). by simplify_eq.
    - intros. by exists e. }
  destruct (r.2); done.
Qed.

Lemma promoteExpiredLocked_ok t m now : 0 ≤ now → t ≤ now → shard_ok t m → shard_ok now (promoteExpiredLocked m now).
Proof.
  intros Hn Htn Hs. pose proof Hs as [Hk Hv Hti].
  destruct (promoteExpired_entries t m now Hs) as [Em Ee].
  assert (keys_ok (promoteExpiredLocked m now)) as Hk'.
  { intros id e'. rewrite Ee, fmap_Some. intros (e & He & ->).
    unfold entry_id. destruct (settle_auth m now e) as [-> _]. by apply Hk. }
  split; [done| |].
  - destruct (promoteExpired_steps m now) as (r & Er & Ep).
    destruct (promote_fold now (blocked m) (demoteExpiredTokensLocked m now).1
      (demoteExpiredTokensLocked m now).2) as (E1 & E2 & E3 & E4 & _ & Hf).
    rewrite <-surjective_pairing, <-Er in *. rewrite Ep in *. destruct (r.2) eqn:Ec.
    + by apply rebuild_views_ok.
    + destruct (Hf eq_refl) as [Hd He]. rewrite demote_unchanged in He by done.
      eapply views_ok_same; [..|exact Hv]; try done. intros id. rewrite He. by destruct (entries m !! id).
  - intros id e'. rewrite Ee, fmap_Some. intros (e & He & ->). rewrite Em.
    eapply settle_timely; [done|exact Htn|]. by eapply Hti.
Qed.

(** After a promotion "ready" means free now. *)
Lemma promoteExpired_ready t m now id e : 0 ≤ now → t ≤ now → shard_ok t m →
  entries (promoteExpiredLocked m now) !! id = Some e →
  state e = Ready ↔ is_free e (modelKey m) now.
Proof.
  intros Hn Htn Hs. destruct (promoteExpired_entries t m now Hs) as [_ ->].
  rewrite fmap_Some. intros (e0 & He & ->).
  rewrite (settle_ready m t now e0); [|done..|by apply (so_timely t m Hs id)].
  unfold is_free. by destruct (settle_auth m now e0) as [-> _].
Qed.
End timed.

(** ** Picking *)

(** What a view offers a strategy. *)
Definition selectable m (strategy : schedulerStrategy) (at_ : time) (predicate : scheduledAuth → bool) e : bool :=
  predicate e && (if bool_decide (strategy = schedulerStrategyQuotaDrain) then quotaUsable m at_ e else true).

Lemma view_selectable_iff m strategy at_ predicate v :
  view_selectable m strategy at_ predicate v = true ↔
  ∃ e, e ∈ view_entries m v ∧ selectable m strategy at_ predicate e = true.
Proof.
  unfold view_selectable, selectable. case_bool_decide.
  - unfold hasQuotaDrainCandidate. rewrite existsb_exists.
    apply exist_proper. intros e. by rewrite list_elem_of_In.
  - unfold pickFirst. destruct (find_first _ _) eqn:E.
    + apply find_first_Some in E as [??]. split; [|done]. intros _. eexists. by rewrite andb_true_r.
    + split; [done|]. intros (e & He & Hp). rewrite andb_true_r in Hp.
      apply (proj1 (find_first_None _ _) E) in He. congruence.
Qed.

Lemma elem_of_rotated es lastID e : e ∈ rotated es lastID ↔ e ∈ es.
Proof.
  unfold rotated. rewrite (Permutation_app_comm (drop _ _) (take _ _)). by rewrite take_drop.
Qed.

Lemma pickRoundRobin_spec m v predicate :
  let r := pickRoundRobin m v predicate in
  flat r.2 = flat v ∧
  match r.1 with
  | Some e => e ∈ view_entries m v ∧ predicate e = true
  | None => ∀ e, e ∈ view_entries m v → predicate e = false
  end.
Proof.
  unfold pickRoundRobin. destruct (find_first _ _) eqn:E; simpl.
  - apply find_first_Some in E as [??]. by rewrite elem_of_rotated in *.
  - split; [done|]. intros e. rewrite <-(elem_of_rotated _ (v_lastPicked v)).
    by apply find_first_None.
Qed.

Lemma pickWeighted_spec m v predicate :
  let r := pickWeighted m v predicate in
  flat r.2 = flat v ∧
  match r.1 with
  | Some e => e ∈ view_entries m v ∧ predicate e = true ∧ 0 < entry_weight e
  | None => ∀ e, e ∈ view_entries m v → predicate e = true → entry_weight e ≤ 0
  end.
Proof.
  unfold pickWeighted. destruct (flat v) as [|i l] eqn:Ef.
  { simpl. split; [done|]. unfold view_entries. rewrite Ef. intros e He. by apply not_elem_of_nil in He. }
  set (st := prepare _ _). unfold pickSmoothWeightedScheduled.
  pose proof (pickSmoothWeighted_member entry_id entry_weight predicate (view_entries m v) (current st)) as Hm.
  destruct (pickSmoothWeighted _ _ _ _ _) as [picked cur]. simpl in *. split; [done|].
  destruct picked as [e|].
  - apply list_elem_of_filter in Hm as [Hel He]. unfold eligible in Hel. to_prop. by split_and!.
  - intros e He Hp. destruct (Z.leb_spec (entry_weight e) 0) as [|Hlt]; [done|]. exfalso.
    apply (not_elem_of_nil e). rewrite <-Hm. apply list_elem_of_filter. split; [|done].
    unfold eligible. rewrite Hp, andb_true_r. by apply negb_true_iff, Z.leb_gt.
Qed.

Lemma pickQuotaDrain_spec m v predicate pin at_ :
  let r := pickQuotaDrain m v predicate pin at_ in
  flat r.1.2 = flat v ∧
  match r.1.1 with
  | Some e => e ∈ view_entries m v ∧ predicate e = true ∧ quotaUsable m at_ e = true
  | None => ∀ e, e ∈ view_entries m v → quotaUsable m at_ e = true → predicate e = false
  end.
Proof.
  unfold pickQuotaDrain. destruct (flat v) as [|i l] eqn:Ef.
  { simpl. split; [done|]. unfold view_entries. rewrite Ef. intros e He. by apply not_elem_of_nil in He. }
  set (es := filter _ _). set (cs := _ <$> es).
  destruct (pickQuotaPinned_sound (Some pin) cs (seq 0 (length cs))) as [Hsome Hnone].
  { intros j Hj. apply list_elem_of_In, in_seq. lia. }
  destruct (pickQuotaPinned _ _ _) as [picked pin']. simpl in *.
  destruct picked as [j|]; simpl.
  - destruct (Hsome j eq_refl) as (c & Hc & Ha). unfold cs in Hc.
    apply list_lookup_fmap_Some in Hc as (e & -> & Hj). rewrite Hj. simpl. split; [done|].
    apply list_elem_of_lookup_2, list_elem_of_filter in Hj as [? He]. by rewrite elem_of_rotated in He.
  - split; [done|]. intros e He Hu.
    apply (Hnone eq_refl (mkCandidate (entry_id e) (quotaCapacityRank (Some (e_auth e)) (modelKey m) at_) (predicate e))).
    unfold cs. apply list_elem_of_fmap. exists e. split; [done|].
    apply list_elem_of_filter. by rewrite elem_of_rotated.
Qed.

(** Every strategy picks something selectable when there is something; the
    weighted one needs a positive weight. *)
Definition weight_ok (strategy : schedulerStrategy) e : Prop :=
  strategy = schedulerStrategyWeightedRoundRobin → 0 < entry_weight e.

Lemma pick_view_spec m v strategy at_ keep pin :
  let r := pick_view m v strategy at_ keep pin in
  flat r.1.2 = flat v ∧
  match r.1.1 with
  | Some e => e ∈ view_entries m v ∧ selectable m strategy at_ keep e = true ∧ weight_ok strategy e
  | None => ∀ e, e ∈ view_entries m v → selectable m strategy at_ keep e = true → ¬ weight_ok strategy e
  end.
Proof.
  unfold selectable, weight_ok.
  destruct strategy; simpl; rewrite ?bool_decide_eq_true_2, ?bool_decide_eq_false_2 by done.
  4:{ (* fill first *) split; [done|]. unfold pickFirst. destruct (find_first _ _) eqn:E.
      - apply find_first_Some in E as [??]. by rewrite andb_true_r.
      - intros e He. rewrite (proj1 (find_first_None _ _) E e He). done. }
  4:{ (* weighted *) pose proof (pickWeighted_spec m v keep) as H.
      destruct (pickWeighted m v keep) as [[e|] v']; simpl in *; destruct H as [Hf H]; (split; [done|]).
      - destruct H as (?&?&?). by rewrite andb_true_r.
      - intros e He. rewrite andb_true_r. intros Hp Hw. specialize (H e He Hp). specialize (Hw eq_refl). lia. }
  4:{ (* quota drain *) pose proof (pickQuotaDrain_spec m v keep pin at_) as H.
      destruct (pickQuotaDrain m v keep pin at_) as [[[e|] v'] pin']; simpl in *; destruct H as [Hf H]; (split; [done|]).
      - destruct H as (?&->&->). by split_and!.
      - intros e He Hp%andb_true_iff. destruct Hp as [Hp Hq]. specialize (H e He Hq). congruence. }
  all: pose proof (pickRoundRobin_spec m v keep) as H;
    destruct (pickRoundRobin m v keep) as [[e|] v']; simpl in *; destruct H as [Hf H]; (split; [done|]);
    [destruct H as [? ->]; by split_and!|intros e He; by rewrite (H e He)].
Qed.

(** What the views of a well-formed shard show. *)
Lemma elem_of_view_entries m l (P : string → Prop) v e :
  keys_ok m → flat v = l → id_list_ok l P →
  e ∈ view_entries m v ↔ entries m !! entry_id e = Some e ∧ P (entry_id e).
Proof.
  intros Hk <- [_ HP]. unfold view_entries. rewrite list_elem_of_omap. split.
  - intros (id & Hid & He). pose proof (Hk _ _ He) as <-. by rewrite <-HP.
  - intros [He Hp]. exists (entry_id e). by rewrite HP.
Qed.

Lemma elem_of_all m b p e :
  keys_ok m → views_ok m → readyByPriority m !! p = Some b →
  e ∈ view_entries m (all b) ↔ entries m !! entry_id e = Some e ∧ state e = Ready ∧ entry_priority e = p.
Proof.
  intros Hk Hv Hb. destruct (vo_bucket m Hv p b Hb) as [Ha _].
  rewrite (elem_of_view_entries _ _ _ _ _ Hk eq_refl Ha). unfold ready_in. naive_solver.
Qed.

Lemma elem_of_ws m b p e :
  keys_ok m → views_ok m → readyByPriority m !! p = Some b →
  e ∈ view_entries m (ws b) ↔
  entries m !! entry_id e = Some e ∧ state e = Ready ∧ entry_priority e = p ∧ websocketEnabled (e_meta e) = true.
Proof.
  intros Hk Hv Hb. destruct (vo_bucket m Hv p b Hb) as [_ Ha].
  rewrite (elem_of_view_entries _ _ _ _ _ Hk eq_refl Ha). unfold ready_ws_in. naive_solver.
Qed.

Lemma tier_of m e : keys_ok m → views_ok m → entries m !! entry_id e = Some e → state e = Ready →
  ∃ b, readyByPriority m !! entry_priority e = Some b.
Proof.
  intros Hk Hv He Hr. apply (vo_tier m Hv). by exists (entry_id e), e.
Qed.

(** The first tier that passes a test, in a list of tiers sorted downwards. *)
Lemma find_first_desc (l : list Z) (f : Z → bool) p :
  StronglySorted (λ i j, j < i) l → find_first f l = Some p →
  p ∈ l ∧ f p = true ∧ ∀ q, q ∈ l → f q = true → q ≤ p.
Proof.
  induction 1 as [|i l Hs IH Hf]; simpl; [done|]. rewrite Forall_forall in Hf. destruct (f i) eqn:Ei.
  - intros [= <-]. split_and!; [by left|done|]. intros q [->|Hq]%elem_of_cons _; [done|].
    specialize (Hf q Hq). lia.
  - intros Hp. destruct (IH Hp) as (Hin & Hfp & Hmax). split_and!; [by right|done|].
    intros q [->|Hq]%elem_of_cons Hfq; [congruence|by apply Hmax].
Qed.

Section pick_tier.
Context (m : modelScheduler) (Hk : keys_ok m) (Hv : views_ok m).
Context (strategy : schedulerStrategy) (at_ : time) (keep : scheduledAuth → bool).

(** A ready entry the strategy may pick, and a websocket one. *)
Definition offered e : Prop :=
  entries m !! entry_id e = Some e ∧ state e = Ready ∧ selectable m strategy at_ keep e = true.
Definition offered_ws e : Prop := offered e ∧ websocketEnabled (e_meta e) = true.

Lemma all_selectable p :
  bucket_test m (λ b, view_selectable m strategy at_ keep (all b)) p = true ↔
  ∃ e, offered e ∧ entry_priority e = p.
Proof using Hk Hv.
  unfold bucket_test, offered. destruct (readyByPriority m !! p) as [b|] eqn:Eb.
  - rewrite view_selectable_iff. apply exist_proper. intros e.
    rewrite (elem_of_all m b p) by done. naive_solver.
  - split; [done|]. intros (e & (He & Hr & _) & <-). destruct (tier_of m e) as [b ?]; [done..|congruence].
Qed.

Lemma ws_selectable p :
  bucket_test m (λ b, view_selectable m strategy at_ keep (ws b)) p = true ↔
  ∃ e, offered_ws e ∧ entry_priority e = p.
Proof using Hk Hv.
  unfold bucket_test, offered_ws, offered. destruct (readyByPriority m !! p) as [b|] eqn:Eb.
  - rewrite view_selectable_iff. apply exist_proper. intros e.
    rewrite (elem_of_ws m b p) by done. naive_solver.
  - split; [done|]. intros (e & ((He & Hr & _) & _) & <-). destruct (tier_of m e) as [b ?]; [done..|congruence].
Qed.

Lemma offered_tier e : offered e → entry_priority e ∈ priorityOrder m.
Proof using Hk Hv.
  intros (He & Hr & _). apply (vo_order m Hv), (vo_tier m Hv). by exists (entry_id e), e.
Qed.

Lemma highest_none prefer :
  highestSelectablePriorityLocked m prefer strategy at_ keep = None → ∀ e, ¬ offered e.
Proof using Hk Hv.
  unfold highestSelectablePriorityLocked.
  destruct (if prefer then _ else _); [done|]. intros Hn e He.
  pose proof (proj1 (find_first_None _ _) Hn (entry_priority e) (offered_tier e He)) as Hf.
  apply not_true_iff_false in Hf. apply Hf, all_selectable. by exists e.
Qed.

(** The tier found: the best with a websocket credential when those are
    preferred and there is one, else the best of all. *)
Lemma highest_some prefer p :
  highestSelectablePriorityLocked m prefer strategy at_ keep = Some p →
  (prefer = true ∧ (∃ e, offered_ws e ∧ entry_priority e = p) ∧ ∀ e, offered_ws e → entry_priority e ≤ p) ∨
  ((prefer = true → ∀ e, ¬ offered_ws e) ∧
   (∃ e, offered e ∧ entry_priority e = p) ∧ ∀ e, offered e → entry_priority e ≤ p).
Proof using Hk Hv.
  unfold highestSelectablePriorityLocked.
  assert (find_first (bucket_test m (λ b, view_selectable m strategy at_ keep (all b))) (priorityOrder m) = Some p →
    (∃ e, offered e ∧ entry_priority e = p) ∧ ∀ e, offered e → entry_priority e ≤ p) as Hall.
  { intros Hf%find_first_desc; [|by apply vo_desc]. destruct Hf as (_ & Hp & Hmax).
    split; [by apply all_selectable|]. intros e He. apply Hmax; [by apply offered_tier|].
    apply all_selectable. by exists e. }
  destruct prefer; [|intros H; right; by split; [|apply Hall]].
  destruct (find_first (bucket_test m (λ b, view_selectable m strategy at_ keep (ws b))) (priorityOrder m))
    as [q|] eqn:Eq.
  - intros [= ->]. left. apply find_first_desc in Eq as (_ & Hp & Hmax); [|by apply vo_desc].
    split_and!; [done|by apply ws_selectable|]. intros e He. apply Hmax; [apply offered_tier, He|].
    apply ws_selectable. by exists e.
  - intros H. right. split; [|by apply Hall]. intros _ e He.
    pose proof (proj1 (find_first_None _ _) Eq (entry_priority e) (offered_tier e (proj1 He))) as Hf.
    apply not_true_iff_false in Hf. apply Hf, ws_selectable. by exists e.
Qed.
End pick_tier.

(** A pick moves cursors only. *)
Lemma views_ok_bucket m p b b' :
  readyByPriority m !! p = Some b → flat (all b') = flat (all b) → flat (ws b') = flat (ws b) →
  views_ok m → views_ok (m <| readyByPriority := <[p := b']> (readyByPriority m) |>).
Proof.
  intros Hb Ha Hw [].
  assert (∀ q, is_Some (<[p:=b']> (readyByPriority m) !! q) ↔ is_Some (readyByPriority m !! q)) as Hs.
  { intros q. destruct (decide (p = q)) as [<-|]; [rewrite lookup_insert_eq, Hb; done|by rewrite lookup_insert_ne]. }
  split.
  - intros q c Hc. simpl in Hc. apply lookup_insert_Some in Hc as [[<- <-]|[_ Hc]]; [|by apply vo_bucket0].
    rewrite Ha, Hw. by apply (vo_bucket0 p b).
  - intros q. simpl. rewrite Hs. apply vo_tier0.
  - intros q. simpl. rewrite Hs. apply vo_order0.
  - done.
  - done.
Qed.

Lemma pickReadyAtPriority_spec m prefer p strategy at_ keep pin b :
  keys_ok m → views_ok m → readyByPriority m !! p = Some b →
  let r := pickReadyAtPriorityLocked m prefer p strategy at_ keep pin in
  (entries r.1.2 = entries m ∧ modelKey r.1.2 = modelKey m ∧ views_ok r.1.2) ∧
  let use_ws := prefer && view_selectable m strategy at_ keep (ws b) in
  match r.1.1 with
  | Some a => ∃ e, e_auth e = a ∧ e ∈ view_entries m (if use_ws then ws b else all b) ∧
                   selectable m strategy at_ keep e = true ∧ weight_ok strategy e
  | None => ∀ e, e ∈ view_entries m (if use_ws then ws b else all b) →
                 selectable m strategy at_ keep e = true → ¬ weight_ok strategy e
  end.
Proof.
  intros Hk Hv Hb. unfold pickReadyAtPriorityLocked. rewrite Hb.
  set (use_ws := prefer && view_selectable m strategy at_ keep (ws b)).
  pose proof (pick_view_spec m (if use_ws then ws b else all b) strategy at_ keep pin) as H.
  destruct (pick_view _ _ _ _ _ _) as [[picked v] pin']. simpl in H. destruct H as [Hf H].
  cbn zeta. split.
  - split_and!; [done..|]. simpl. apply views_ok_bucket with b; [done|by destruct use_ws..|done].
  - simpl. destruct picked as [e|]; simpl; [|done]. exists e. by split.
Qed.

Lemma selectable_ext m m' strategy at_ keep e :
  modelKey m = modelKey m' → selectable m strategy at_ keep e = selectable m' strategy at_ keep e.
Proof. intros Hm. unfold selectable, quotaUsable. by rewrite Hm. Qed.

Section pick.
Context `{GoHost}.

(** *** The abstract rule

    What the cached, indexed shard promises: among the credentials it holds
    that are free now and pass the caller's test (under quota draining: with
    quota left) it picks one of the best tier, websocket credentials first
    when they are preferred. *)
Definition pick_candidate m (strategy : schedulerStrategy) (now at_ : time) (keep : scheduledAuth → bool) e : Prop :=
  entries m !! entry_id e = Some e ∧ is_free e (modelKey m) now ∧ selectable m strategy at_ keep e = true.

Definition best_tier (prefer : bool) (C : scheduledAuth → Prop) e : Prop :=
  (prefer = true ∧ websocketEnabled (e_meta e) = true ∧
     ∀ e', C e' → websocketEnabled (e_meta e') = true → entry_priority e' ≤ entry_priority e) ∨
  ((prefer = true → ∀ e', C e' → websocketEnabled (e_meta e') = false) ∧
     ∀ e', C e' → entry_priority e' ≤ entry_priority e).

(** The caller's test looks at the credential, not at its cached state, and
    asks for a positive weight under the weighted strategy. *)
Definition keep_ok (strategy : schedulerStrategy) (keep : scheduledAuth → bool) : Prop :=
  (∀ e e', e_auth e = e_auth e' → e_meta e = e_meta e' → keep e = keep e') ∧
  (∀ e, keep e = true → weight_ok strategy e).

(** On a shard that has just been promoted. *)
Lemma pick_promoted m prefer strategy at_ keep pin :
  keys_ok m → views_ok m → (∀ e, keep e = true → weight_ok strategy e) →
  let r := match highestSelectablePriorityLocked m prefer strategy at_ keep with
           | None => (None, m, pin)
           | Some p => pickReadyAtPriorityLocked m prefer p strategy at_ keep pin
           end in
  (entries r.1.2 = entries m ∧ modelKey r.1.2 = modelKey m ∧ views_ok r.1.2) ∧
  match r.1.1 with
  | Some a => ∃ e, e_auth e = a ∧ offered m strategy at_ keep e ∧ best_tier prefer (offered m strategy at_ keep) e
  | None => ∀ e, ¬ offered m strategy at_ keep e
  end.
Proof using Type.
  intros Hk Hv Hw. destruct (highestSelectablePriorityLocked m prefer strategy at_ keep) as [p|] eqn:Eh.
  2:{ simpl. split; [done|]. by eapply highest_none. }
  apply highest_some in Eh; [|done..].
  assert (∃ b, readyByPriority m !! p = Some b) as [b Hb].
  { destruct Eh as [(_ & (e & [(He & Hr & _) _] & <-) & _)|(_ & (e & (He & Hr & _) & <-) & _)];
      by apply tier_of. }
  destruct (pickReadyAtPriority_spec m prefer p strategy at_ keep pin b Hk Hv Hb) as [Hok Hpick].
  cbn zeta in *. split; [done|].
  assert (view_selectable m strategy at_ keep (ws b) = true ↔
          ∃ e, offered_ws m strategy at_ keep e ∧ entry_priority e = p) as Hws.
  { rewrite <-ws_selectable by done. unfold bucket_test. by rewrite Hb. }
  assert (∀ e, keep e = true → ¬ weight_ok strategy e → False) as Hw' by naive_solver.
  destruct Eh as [(-> & Hex & Hmax)|(Hno & Hex & Hmax)].
  - rewrite (proj2 Hws Hex) in Hpick. simpl in Hpick.
    destruct (pickReadyAtPriorityLocked _ _ _ _ _ _ _).1.1 as [a|].
    + destruct Hpick as (e & Ha & Hin & Hsel & _). apply (elem_of_ws m b p) in Hin as (He & Hr & Hp & Hwse); [|done..].
      exists e. split_and!; [done..|]. left. split_and!; [done..|].
      intros e' Hc Hw2. rewrite Hp. by apply Hmax.
    + destruct Hex as (e & [(He & Hr & Hsel) Hwse] & Hp). exfalso.
      assert (keep e = true) as Hke by (unfold selectable in Hsel; by to_prop).
      eapply (Hw' e); [done|]. apply (Hpick e); [|done]. by apply (elem_of_ws m b p).
  - assert (prefer && view_selectable m strategy at_ keep (ws b) = false) as Hf.
    { destruct prefer; [|done]. simpl. apply not_true_iff_false. rewrite Hws.
      intros (e & He & _). by apply (Hno eq_refl e). }
    rewrite Hf in Hpick.
    destruct (pickReadyAtPriorityLocked _ _ _ _ _ _ _).1.1 as [a|].
    + destruct Hpick as (e & Ha & Hin & Hsel & _). apply (elem_of_all m b p) in Hin as (He & Hr & Hp); [|done..].
      exists e. split_and!; [done..|]. right. split.
      * intros -> e' He'. apply not_true_iff_false. intros Hwse. by apply (Hno eq_refl e').
      * intros e' He'. rewrite Hp. by apply Hmax.
    + destruct Hex as (e & (He & Hr & Hsel) & Hp). exfalso.
      assert (keep e = true) as Hke by (unfold selectable in Hsel; by to_prop).
      eapply (Hw' e); [done|]. apply (Hpick e); [|done]. by apply (elem_of_all m b p).
Qed.

Lemma candidate_offered t m strategy now at_ keep e :
  0 ≤ now → t ≤ now → shard_ok t m → keep_ok strategy keep →
  entries m !! entry_id e = Some e →
  pick_candidate m strategy now at_ keep e ↔
  offered (promoteExpiredLocked m now) strategy at_ keep (settle m now e).
Proof.
  intros Hn Ht Hs [Hext _] He. destruct (promoteExpired_entries t m now Hs) as [Em Ee].
  destruct (settle_auth m now e) as [Ea Emt].
  assert (entry_id (settle m now e) = entry_id e) as Eid by (unfold entry_id; by rewrite Ea).
  assert (entries (promoteExpiredLocked m now) !! entry_id (settle m now e) = Some (settle m now e)) as Hl.
  { by rewrite Eid, Ee, He. }
  unfold pick_candidate, offered. rewrite (promoteExpired_ready t m now _ _ Hn Ht Hs Hl).
  unfold is_free, selectable, quotaUsable. rewrite Ea, Em, (Hext _ e Ea Emt). naive_solver.
Qed.

Lemma offered_candidate t m strategy now at_ keep e' :
  0 ≤ now → t ≤ now → shard_ok t m → keep_ok strategy keep →
  offered (promoteExpiredLocked m now) strategy at_ keep e' →
  ∃ e, pick_candidate m strategy now at_ keep e ∧ e_auth e = e_auth e' ∧ e_meta e = e_meta e'.
Proof.
  intros Hn Ht Hs Hkeep Ho. pose proof Ho as (Hl & _ & _).
  destruct (promoteExpired_entries t m now Hs) as [Em Ee]. rewrite Ee, fmap_Some in Hl.
  destruct Hl as (e & He & ->). pose proof (so_keys t m Hs _ _ He) as Hid. rewrite <-Hid in He.
  destruct (settle_auth m now e) as [Ea Emt]. exists e. split_and!; [|done..].
  by apply (candidate_offered t).
Qed.

(** The pick of a shard implements the abstract rule. *)
Lemma pickReady_spec t m prefer strategy now at_ keep pin :
  0 ≤ now → t ≤ now → shard_ok t m → keep_ok strategy keep →
  let r := pickReadyLocked m prefer strategy now at_ keep pin in
  shard_ok now r.1.2 ∧
  match r.1.1 with
  | Some a => ∃ e, e_auth e = a ∧ pick_candidate m strategy now at_ keep e ∧
                   best_tier prefer (pick_candidate m strategy now at_ keep) e
  | None => ∀ e, ¬ pick_candidate m strategy now at_ keep e
  end.
Proof.
  intros Hn Ht Hs Hkeep. pose proof (promoteExpiredLocked_ok t m now Hn Ht Hs) as [Hk' Hv' Hti'].
  unfold pickReadyLocked. set (m' := promoteExpiredLocked m now) in *.
  pose proof (pick_promoted m' prefer strategy at_ keep pin Hk' Hv' (proj2 Hkeep)) as [(He & Hm & Hv) Hpick].
  cbn zeta in *. revert He Hm Hv Hpick.
  match goal with |- entries ?r.1.2 = _ → _ => destruct r as [[picked m''] pin'] end.
  simpl. intros He Hm Hv Hpick. split.
  { split; [|done|].
    - intros id e. rewrite He. apply Hk'.
    - intros id e. rewrite He, Hm. apply Hti'. }
  destruct picked as [a|].
  - destruct Hpick as (e' & <- & Ho & Hbest).
    destruct (offered_candidate t m strategy now at_ keep e' Hn Ht Hs Hkeep Ho) as (e & Hc & Ea & Emt).
    exists e. split_and!; [done..|].
    assert (∀ x, pick_candidate m strategy now at_ keep x → ∃ x', offered m' strategy at_ keep x' ∧ e_meta x' = e_meta x) as Hx.
    { intros x Hx. exists (settle m now x). split; [|by destruct (settle_auth m now x)].
      apply (candidate_offered t); try done. by destruct Hx. }
    unfold best_tier, entry_priority in *. rewrite Emt.
    destruct Hbest as [(? & ? & Hbest)|[Hno Hbest]]; [left; split_and!; [done..|]|right; split].
    + intros x (x' & Ho' & <-)%Hx. by apply Hbest.
    + intros Hp x (x' & Ho' & <-)%Hx. by apply Hno.
    + intros x (x' & Ho' & <-)%Hx. by apply Hbest.
  - intros e Hc. apply (Hpick (settle m now e)). apply (candidate_offered t); try done. by destruct Hc.
Qed.

(** The same, on the shard the pick leaves. *)
Lemma pickReady_final t m prefer strategy now at_ keep pin :
  0 ≤ now → t ≤ now → shard_ok t m → (∀ e, keep e = true → weight_ok strategy e) →
  let r := pickReadyLocked m prefer strategy now at_ keep pin in
  (entries r.1.2 = entries (promoteExpiredLocked m now) ∧ modelKey r.1.2 = modelKey m ∧ shard_ok now r.1.2) ∧
  (∀ id e, entries r.1.2 !! id = Some e → state e = Ready ↔ is_free e (modelKey m) now) ∧
  match r.1.1 with
  | Some a => ∃ e, e_auth e = a ∧ pick_candidate r.1.2 strategy now at_ keep e ∧
                   best_tier prefer (pick_candidate r.1.2 strategy now at_ keep) e
  | None => ∀ e, ¬ pick_candidate r.1.2 strategy now at_ keep e
  end.
Proof.
  intros Hn Ht Hs Hw. pose proof (promoteExpiredLocked_ok t m now Hn Ht Hs) as [Hk' Hv' Hti'].
  destruct (promoteExpired_entries t m now Hs) as [Em _].
  pose proof (λ id e, promoteExpired_ready t m now id e Hn Ht Hs) as Hready.
  unfold pickReadyLocked. set (m' := promoteExpiredLocked m now) in *.
  pose proof (pick_promoted m' prefer strategy at_ keep pin Hk' Hv' Hw) as [(He & Hm & Hv) Hpick].
  cbn zeta in *. revert He Hm Hv Hpick.
  match goal with |- entries ?r.1.2 = _ → _ => destruct r as [[picked m''] pin'] end.
  simpl. intros He Hm Hv Hpick.
  assert (∀ e, pick_candidate m'' strategy now at_ keep e ↔ offered m' strategy at_ keep e) as Hc.
  { intros e. unfold pick_candidate, offered. rewrite He, Hm, (selectable_ext m'' m') by done.
    split; intros (Hl & Hf & Hsel); (split_and!; [done| |done]); revert Hf;
      rewrite Em; by rewrite (Hready _ _ Hl). }
  split_and!; [done|congruence|split; [by intros id e; rewrite He; apply Hk'|done|]| |].
  - intros id e. rewrite He, Hm. apply Hti'.
  - intros id e. rewrite He. apply Hready.
  - destruct picked as [a|].
    + destruct Hpick as (e & Ea & Ho & Hb). exists e. split_and!; [done|by apply Hc|].
      destruct Hb as [(?&?&Hb)|[Hno Hb]]; [left; split_and!; [done..|]|right; split].
      * intros e' ?%Hc. by apply Hb.
      * intros ? e' ?%Hc. by apply Hno.
      * intros e' ?%Hc. by apply Hb.
    + intros e Hx%Hc. by apply (Hpick e).
Qed.
End pick.
