(* ===== verification/Unavailable.v ===== *)
(** * Why nothing could be picked

    Models the summaries and errors of a shard ([availabilitySummaryLocked],
    [quotaDrainAvailabilitySummaryLocked], [candidateErrorsLocked],
    [unavailableErrorLocked], [quotaDrainUnavailableErrorLocked] of
    [scheduler.go]) and their counterparts over a credential list
    ([latestCandidateErrorForModel], [latestUnauthorizedCandidateError] of
    [conductor_selection.go]).  Go ranges over maps: the results are shown not to
    depend on the order. *)
From Stdlib Require Import ZArith Lia String Bool Sorted.
From stdpp Require Import prelude gmap strings.
From S2P Require Import Prelude GoStd AuthTypes Weight Availability Smooth Capacity Errors Rotation Shard.
Local Open Scope string_scope.
Local Open Scope list_scope.
Local Open Scope Z_scope.

(** ** The latest failure among candidates *)

(** A failure, when it happened and whose it is; [None] while none was seen. *)
Definition failure := (cause * time * string)%type.
Definition latest := option failure.

(** [x == nil || t.After(best) || (t.Equal(best) && id > bestID)] *)
Definition later (best : latest) (f : failure) : latest :=
  match best with
  | None => Some f
  | Some (_, bt, bid) =>
      if After f.1.2 bt || (TimeEqual f.1.2 bt && String.ltb bid f.2) then Some f else best
  end.
Definition later_opt (best : latest) (f : option failure) : latest :=
  match f with None => best | Some f => later best f end.

(** [LastError], else a non-blank status message. *)
Definition failure_of (lastError : option Error) (message : string) : option cause :=
  match lastError with
  | Some e => Some (CauseErr e)
  | None => if String.eqb (TrimSpace message) "" then None else Some (CauseMsg message)
  end.

Definition state_failure (a : Auth) (model : string) : option (cause * time) :=
  let of_state s := (λ c, (c, M_UpdatedAt s)) <$> failure_of (M_LastError s) (M_StatusMessage s) in
  match ModelStates a !! model with
  | Some (Some s) => of_state s
  | _ => match ModelStates a !! canonicalModelKey model with
         | Some (Some s) => of_state s
         | _ => None
         end
  end.

Definition model_failure (model : string) (a : Auth) : option failure :=
  (λ ct, (ct.1, if IsZero ct.2 then UpdatedAt a else ct.2, ID a)) <$> state_failure a model.
Definition auth_failure (a : Auth) : option failure :=
  (λ c, (c, UpdatedAt a, ID a)) <$> failure_of (LastError a) (StatusMessage a).

(** The latest model failure and the latest credential failure. *)
Definition candidateErrors (model : string) (l : list Auth) : latest * latest :=
  fold_left (λ acc a, (later_opt acc.1 (model_failure model a), later_opt acc.2 (auth_failure a)))
    l (None, None).

Definition failure_cause (f : latest) : option cause := (λ f, f.1.1) <$> f.
Definition prefer_model (e : latest * latest) : latest := match e.1 with Some _ => e.1 | None => e.2 end.

(** The selector's variant: the model is looked up per candidate. *)
Definition latestCandidateErrorForModel (l : list Auth) (selectionModelFunc : option (Auth → string))
    : option cause :=
  let checkModel a := match selectionModelFunc with Some f => f a | None => ID a end in
  let e := fold_left (λ acc a, (later_opt acc.1 (model_failure (checkModel a) a),
                                later_opt acc.2 (auth_failure a))) l (None, None) in
  failure_cause (prefer_model e).

Definition latestUnauthorizedCandidateError (l : list Auth) : option cause :=
  failure_cause (fold_left (λ acc a, match LastError a with
    | Some e => if hasUnauthorizedAuthFailure (Some a) then later acc (CauseErr e, UpdatedAt a, ID a) else acc
    | None => acc end) l None).

(** ** Summaries of a shard *)

Section summaries.
Context (m : modelScheduler) (keep : scheduledAuth → bool).

Definition kept (es : list scheduledAuth) : list scheduledAuth := filter (λ e, keep e = true) es.
Definition candidateErrors_in (es : list scheduledAuth) (model : string) : latest * latest :=
  candidateErrors model (e_auth <$> kept es).
Definition candidateErrorsLocked := candidateErrors_in (entry_list m).
Definition latestCandidateErrorWithTimeLocked (model : string) : latest :=
  prefer_model (candidateErrorsLocked model).

(** [earliest = t] when [t] is set and before what is known. *)
Definition sooner (earliest t : time) : time :=
  if negb (IsZero t) && (IsZero earliest || Before t earliest) then t else earliest.

Record summary4 := mkSummary { total : Z; cooldownCount : Z; unauthorizedCount : Z; earliest : time }.

Definition availability_step (s : summary4) (e : scheduledAuth) : summary4 :=
  if keep e then
    mkSummary (total s + 1)
      (if bool_decide (state e = Cooldown) then cooldownCount s + 1 else cooldownCount s)
      (if hasUnauthorizedAuthFailure (Some (e_auth e)) then unauthorizedCount s + 1 else unauthorizedCount s)
      (if bool_decide (state e = Cooldown) || bool_decide (state e = Blocked)
       then sooner (earliest s) (nextRetryAt e) else earliest s)
  else s.
Definition availabilitySummary_in (es : list scheduledAuth) : summary4 :=
  fold_left availability_step es (mkSummary 0 0 0 0).
Definition availabilitySummaryLocked := availabilitySummary_in (entry_list m).

(** Under quota draining a spent credential is unavailable until its reset. *)
Definition quota_step (now : time) (s : Z * Z * time) (e : scheduledAuth) : Z * Z * time :=
  let '(total, unavailable, earliest) := s in
  if keep e then
    let rank := quotaCapacityRank (Some (e_auth e)) (modelKey m) now in
    match state e with
    | Cooldown => (total + 1, unavailable + 1, sooner earliest (nextRetryAt e))
    | Ready => if negb (known rank) || negb (exhausted rank) then (total + 1, unavailable, earliest)
               else (total + 1, unavailable + 1, sooner earliest (resetAt rank))
    | _ => (total + 1, unavailable, earliest)
    end
  else s.
Definition quotaDrainAvailabilitySummary_in (es : list scheduledAuth) (now : time) : Z * Z * time :=
  fold_left (quota_step now) es (0, 0, 0).
Definition quotaDrainAvailabilitySummaryLocked := quotaDrainAvailabilitySummary_in (entry_list m).

Definition providerForError (provider : string) : string :=
  if String.eqb provider "mixed" then "" else provider.

(** The decision all unavailable errors share. *)
Definition unavailable_error (provider model : string) (s : summary4) (authErr lastErr : option cause)
    (now : time) : routeError :=
  if total s =? 0 then WithCause err_not_found lastErr
  else if (cooldownCount s =? total s) && negb (IsZero (earliest s)) then
    let resetIn := Sub (earliest s) now in
    newModelCooldownErrorWithCause model provider (if resetIn <? 0 then 0 else resetIn) lastErr
  else if unauthorizedCount s =? total s then
    NewTerminalAuthError err_terminal (match authErr with Some _ => authErr | None => lastErr end)
  else newAuthUnavailableErrorWithCause (earliest s) now lastErr.

Definition unavailableErrorLocked (provider model : string) (now : time) : routeError :=
  let errs := candidateErrorsLocked model in
  unavailable_error (providerForError provider) model availabilitySummaryLocked
    (failure_cause errs.2) (failure_cause (latestCandidateErrorWithTimeLocked model)) now.

Definition quotaDrainUnavailableErrorLocked (provider model : string) (now : time) : option routeError :=
  let '(total, unavailable, earliest) := quotaDrainAvailabilitySummaryLocked now in
  if (total =? 0) || negb (unavailable =? total) || IsZero earliest then None
  else Some (newModelCooldownError model (providerForError provider) (Sub earliest now)).
End summaries.

(** ** The order of the range does not matter *)

Lemma fold_left_perm {A B} (step : B → A → B) (l l' : list A) s :
  (∀ s a b, step (step s a) b = step (step s b) a) → l ≡ₚ l' → fold_left step l s = fold_left step l' s.
Proof.
  intros Hc Hp. revert s. induction Hp as [|x l l' _ IH|x y l|l l' l'' _ IH1 _ IH2]; intros s; simpl; [done|done| |].
  - by rewrite Hc.
  - by rewrite IH1.
Qed.

Lemma sooner_comm e a b : sooner (sooner e a) b = sooner (sooner e b) a.
Proof.
  unfold sooner, IsZero, Before.
  destruct (Z.eqb_spec a 0), (Z.eqb_spec b 0), (Z.eqb_spec e 0); simpl; try done;
    repeat match goal with |- context [?x <? ?y] => destruct (Z.ltb_spec x y); simpl end;
    repeat match goal with |- context [?x =? ?y] => destruct (Z.eqb_spec x y); simpl end;
    repeat match goal with |- context [?x <? ?y] => destruct (Z.ltb_spec x y); simpl end; lia.
Qed.

Lemma availabilitySummary_perm keep es es' :
  es ≡ₚ es' → availabilitySummary_in keep es = availabilitySummary_in keep es'.
Proof.
  apply fold_left_perm. intros [t c u r] a b. unfold availability_step.
  destruct (keep a) eqn:Ea, (keep b) eqn:Eb; try done. simpl. f_equal; repeat case_match; try lia.
  all: apply sooner_comm.
Qed.

Lemma quota_summary_perm m keep es es' now :
  es ≡ₚ es' →
  quotaDrainAvailabilitySummary_in m keep es now = quotaDrainAvailabilitySummary_in m keep es' now.
Proof.
  apply fold_left_perm. intros [[t u] r] a b. unfold quota_step.
  destruct (keep a) eqn:Ea, (keep b) eqn:Eb, (state a) eqn:Sa, (state b) eqn:Sb; rewrite ?Ea, ?Eb, ?Sa, ?Sb; try done;
    try (by rewrite sooner_comm);
    repeat match goal with |- context [if ?c then _ else _] => destruct c end; rewrite ?Ea, ?Eb, ?Sa, ?Sb; try done;
    by rewrite sooner_comm.
Qed.

(** The latest failure is the maximum in time, then ID. *)
Definition fail_le (f g : failure) : Prop :=
  f.1.2 < g.1.2 ∨ f.1.2 = g.1.2 ∧ (f.2 = g.2 ∨ String.ltb f.2 g.2 = true).

Lemma fail_le_trans f g h : fail_le f g → fail_le g h → fail_le f h.
Proof.
  unfold fail_le. intros [?|[E1 H1]] [?|[E2 H2]]; [left; lia..|].
  right. split; [congruence|]. destruct H1 as [->|H1]; [done|]. destruct H2 as [<-|H2]; [by right|].
  right. by eapply ltb_trans.
Qed.

Lemma fail_le_antisym f g : fail_le f g → fail_le g f → f.2 = g.2.
Proof.
  unfold fail_le. intros [?|[E1 H1]] [?|[E2 H2]]; try lia.
  destruct H1 as [->|H1], H2 as [H2|H2]; try done.
  pose proof (ltb_trans _ _ _ H1 H2) as H. by rewrite ltb_irrefl in H.
Qed.

Lemma later_spec best f :
  ∃ r, later best f = Some r ∧ (r = f ∨ best = Some r) ∧ fail_le f r ∧ (∀ b, best = Some b → fail_le b r).
Proof.
  unfold later. destruct best as [[[bc bt] bid]|]; [|exists f; split_and!; [done|by left|right; auto|done]].
  destruct f as [[c t] i]. simpl. unfold After, TimeEqual.
  destruct ((bt <? t) || ((t =? bt) && String.ltb bid i)) eqn:E.
  - exists (c, t, i). split_and!; [done|by left|right; auto|]. intros b [= <-].
    unfold fail_le. simpl. reflect_bools. destruct E as [?|?]; to_prop; [by left|right; auto].
  - exists (bc, bt, bid). split_and!; [done|by right| |intros b [= <-]; right; auto].
    unfold fail_le. simpl. reflect_bools.
    destruct (Z.lt_trichotomy t bt) as [?|[->|?]]; [by left| |lia].
    right. split; [done|]. rewrite Z.eqb_refl in H0. simpl in H0.
    destruct (decide (i = bid)) as [|Hne]; [by left|]. right.
    destruct (ltb_total i bid Hne); [done|congruence].
Qed.

Lemma later_fold l best :
  let r := fold_left later l best in
  (∀ f, r = Some f → f ∈ l ∨ best = Some f) ∧
  (∀ g, g ∈ l ∨ best = Some g → ∃ f, r = Some f ∧ fail_le g f).
Proof.
  revert best. induction l as [|x l IH]; intros best; simpl.
  { split; [by right|]. intros g [Hg|Hg]; [by apply not_elem_of_nil in Hg|].
    exists g. split; [done|]. right. auto. }
  destruct (IH (later best x)) as [IH1 IH2]. destruct (later_spec best x) as (r & Hr & Hor & Hx & Hb). split.
  - intros f Hf. destruct (IH1 f Hf) as [?|E]; [left; by right|].
    rewrite Hr in E. injection E as <-. destruct Hor as [->|?]; [left; by left|by right].
  - intros g Hg. destruct (IH2 r ltac:(by right)) as (f & Hf & Hrf).
    assert (g ∈ l ∨ fail_le g r) as [Hl|Hle].
    { destruct Hg as [[->|?]%elem_of_cons|Hg]; auto. }
    + by apply IH2; left.
    + exists f. split; [done|]. by eapply fail_le_trans.
Qed.

Lemma later_perm l l' : NoDup ((λ f : failure, f.2) <$> l) → l ≡ₚ l' → fold_left later l None = fold_left later l' None.
Proof.
  intros Hn Hp. destruct (later_fold l None) as [H1 H2], (later_fold l' None) as [H1' H2'].
  assert (∀ f, f ∈ l ↔ f ∈ l') as Hel by (intros f; by rewrite Hp).
  destruct (fold_left later l None) as [f|] eqn:Ef.
  - destruct (H1 f eq_refl) as [Hf|]; [|done].
    destruct (H2' f ltac:(left; by apply Hel)) as (g & Hg & Hfg). rewrite Hg.
    destruct (H1' g Hg) as [Hgl|]; [|done]. apply Hel in Hgl.
    destruct (H2 g ltac:(by left)) as (f' & [= <-] & Hgf).
    f_equal. eapply (key_inj_NoDup (λ f : failure, f.2)); [done..|]. by apply fail_le_antisym.
  - destruct (fold_left later l' None) as [g|] eqn:Eg; [|done].
    destruct (H1' g eq_refl) as [Hgl|]; [|done]. apply Hel in Hgl.
    by destruct (H2 g ltac:(by left)) as (? & ? & _).
Qed.

Lemma fold_later_opt {A} (f : A → option failure) l s :
  fold_left (λ acc a, later_opt acc (f a)) l s = fold_left later (omap f l) s.
Proof. revert s. induction l as [|a l IH]; intros s; simpl; [done|]. rewrite IH. by destruct (f a). Qed.

Lemma fold_left_pair {A B C} (f : B → A → B) (g : C → A → C) l b c :
  fold_left (λ acc a, (f acc.1 a, g acc.2 a)) l (b, c) = (fold_left f l b, fold_left g l c).
Proof. revert b c. induction l as [|a l IH]; intros; simpl; [done|apply IH]. Qed.

Lemma NoDup_omap_id (f : Auth → option failure) l :
  (∀ a x, f a = Some x → x.2 = ID a) → NoDup (ID <$> l) → NoDup ((λ x : failure, x.2) <$> omap f l).
Proof.
  intros Hf. induction l as [|a l IH]; simpl; [done|]. intros [Ha Hn]%NoDup_cons.
  destruct (f a) as [x|] eqn:E; [|by apply IH]. simpl. apply NoDup_cons. split; [|by apply IH].
  rewrite (Hf _ _ E). intros (y & Ey & (b & Hb & Hfb)%list_elem_of_omap)%list_elem_of_fmap.
  apply Ha. rewrite Ey, (Hf _ _ Hfb). by apply list_elem_of_fmap_2.
Qed.

Lemma model_failure_id model a x : model_failure model a = Some x → x.2 = ID a.
Proof. unfold model_failure. by destruct (state_failure a model); simpl; [intros [= <-]|]. Qed.
Lemma auth_failure_id a x : auth_failure a = Some x → x.2 = ID a.
Proof. unfold auth_failure. by destruct (failure_of _ _); simpl; [intros [= <-]|]. Qed.

Lemma candidateErrors_perm model l l' :
  NoDup (ID <$> l) → l ≡ₚ l' → candidateErrors model l = candidateErrors model l'.
Proof.
  intros Hn Hp. unfold candidateErrors.
  rewrite !(fold_left_pair (λ acc a, later_opt acc (model_failure model a)) (λ acc a, later_opt acc (auth_failure a))),
    !fold_later_opt.
  f_equal; (apply later_perm; [|by rewrite Hp]); apply NoDup_omap_id; try done;
    [apply model_failure_id|apply auth_failure_id].
Qed.

(** *** The earliest retry time *)

Lemma sooner_spec e t :
  (sooner e t = e ∨ sooner e t = t) ∧ (t ≠ 0 → sooner e t ≠ 0 ∧ sooner e t ≤ t) ∧
  (e ≠ 0 → sooner e t ≠ 0 ∧ sooner e t ≤ e).
Proof.
  unfold sooner, IsZero, Before.
  destruct (Z.eqb_spec t 0), (Z.eqb_spec e 0), (Z.ltb_spec t e); simpl; lia.
Qed.

Definition count (f : scheduledAuth → bool) (es : list scheduledAuth) : Z :=
  Z.of_nat (length (filter (λ e, f e = true) es)).

Lemma count_snoc f es e : count f (es ++ [e]) = count f es + if f e then 1 else 0.
Proof.
  unfold count. rewrite filter_app, length_app, filter_cons, filter_nil. destruct (f e); simpl; lia.
Qed.

Lemma count_all (f : scheduledAuth → bool) es : count f es = Z.of_nat (length es) ↔ ∀ e, e ∈ es → f e = true.
Proof.
  unfold count. induction es as [|e es IH]; simpl.
  { split; [|done]. intros _ e He. by apply not_elem_of_nil in He. }
  rewrite filter_cons. case_decide as E; simpl.
  - assert (Z.of_nat (length (filter (λ e, f e = true) es)) = Z.of_nat (length es) ↔
            Z.of_nat (S (length (filter (λ e, f e = true) es))) = Z.of_nat (S (length es))) as <- by lia.
    split; [|intros H; apply IH; intros; apply H; by right].
    intros H x [->|Hx]%elem_of_cons; [done|]. by apply IH.
  - pose proof (length_filter (λ e, f e = true) es). split; [lia|]. intros H'. exfalso. apply E, H'. by left.
Qed.

(** The loop in closed form. *)
Lemma availability_closed keep es :
  availabilitySummary_in keep es =
  mkSummary (Z.of_nat (length (kept keep es)))
    (count (λ e, bool_decide (state e = Cooldown)) (kept keep es))
    (count (λ e, hasUnauthorizedAuthFailure (Some (e_auth e))) (kept keep es))
    (fold_left sooner (nextRetryAt <$> filter (λ e, waiting e = true) (kept keep es)) 0).
Proof.
  unfold availabilitySummary_in, kept. induction es as [|e es IH] using rev_ind; [done|].
  rewrite fold_left_app, filter_app, IH. simpl. unfold availability_step. rewrite filter_cons, filter_nil.
  destruct (keep e); simpl; [|by rewrite app_nil_r].
  rewrite !count_snoc, length_app, filter_app, fmap_app, fold_left_app, filter_cons, filter_nil.
  assert (waiting e = bool_decide (state e = Cooldown) || bool_decide (state e = Blocked)) as <-.
  { unfold waiting. repeat case_bool_decide; naive_solver. }
  f_equal; [simpl; lia|case_bool_decide; lia|case_match; lia|].
  by destruct (waiting e).
Qed.

Lemma sooner_fold ts e0 :
  let r := fold_left sooner ts e0 in
  (∀ t, (t ∈ ts ∨ t = e0) → t ≠ 0 → r ≠ 0 ∧ r ≤ t) ∧ (r ≠ 0 → r ∈ ts ∨ r = e0).
Proof.
  revert e0. induction ts as [|x ts IH]; intros e0; simpl.
  { split; [|by right]. intros t [Ht| ->]; [by apply not_elem_of_nil in Ht|]. done. }
  destruct (IH (sooner e0 x)) as [H1 H2], (sooner_spec e0 x) as (Hor & Hx & He). split.
  - intros t [[->|Ht]%elem_of_cons| ->] Hnz; [|apply H1; [by left|done]|].
    + destruct (Hx Hnz). destruct (H1 (sooner e0 x)); [by right|done|]. lia.
    + destruct (He Hnz). destruct (H1 (sooner e0 x)); [by right|done|]. lia.
  - intros [?|E]%H2; [left; by right|]. rewrite E. destruct Hor as [->| ->]; [by right|left; by left].
Qed.

Lemma elem_of_kept keep es e : e ∈ kept keep es ↔ keep e = true ∧ e ∈ es.
Proof. unfold kept. by rewrite list_elem_of_filter. Qed.

Section errors.
Context `{GoHost}.

Lemma unauthorized_never_free k e t :
  hasUnauthorizedAuthFailure (Some (e_auth e)) = true → ¬ is_free e k t.
Proof.
  intros Hu. unfold is_free, isAuthBlockedForModel, isAuthBlockedForModel_in.
  destruct (_ || _); [done|]. by rewrite Hu.
Qed.

(** Nobody kept who is not ready is free before the earliest retry time. *)
Lemma earliest_holds k keep now es t :
  now ≤ t → (∀ e, e ∈ es → timely k now e) →
  let s := availabilitySummary_in keep es in
  (earliest s ≠ 0 → t < earliest s) → ∀ e, e ∈ es → keep e = true → state e ≠ Ready → ¬ is_free e k t.
Proof.
  intros Ht Hti. cbn zeta. rewrite availability_closed. simpl.
  set (ts := nextRetryAt <$> _). destruct (sooner_fold ts 0) as [Hmin _]. cbn zeta in *.
  intros Hlt e He Hk Hnr. apply (not_ready_holds _ now); [by apply Hti|done|done|].
  intros Hnz. pose proof (Hti e He) as [_ (t0 & _ & Hc)].
  assert (waiting e = true) as Hw.
  { apply bool_decide_eq_true.
    assert (state e = (classify (isAuthBlockedForModel (Some (e_auth e)) k t0)).1) as E1 by by rewrite <-Hc.
    assert (nextRetryAt e = (classify (isAuthBlockedForModel (Some (e_auth e)) k t0)).2) as E2 by by rewrite <-Hc.
    unfold classify in E1, E2. destruct (is_blocked _); [|done].
    destruct (block_reason _); simpl in E1, E2; naive_solver. }
  destruct (Hmin (nextRetryAt e)) as [Hr Hle]; [|done|].
  - left. apply list_elem_of_fmap_2, list_elem_of_filter. split; [done|]. by apply elem_of_kept.
  - specialize (Hlt Hr). lia.
Qed.

Lemma Sub_le a b : Sub a b ≤ a - b ∨ Sub a b = MinInt64.
Proof. unfold Sub, MinInt64, MaxInt64. repeat case_match; to_prop; auto; lia. Qed.

(** What the error of a failed selection tells the caller, at time [now].  Under quota
    draining ([spent]) a credential that is ready was passed over because its quota is
    exhausted: it is not part of the wait announced, unless the error is the cooldown of them
    all; then the wait ends no later than its quota resets. *)
Definition spent_out (k : string) (now : time) (d : duration) (e : scheduledAuth) : Prop :=
  quotaCapacityExhausted (Some (e_auth e)) k now = true ∧
  (resetAt (quotaCapacityRank (Some (e_auth e)) k now) ≠ 0 →
     now + d ≤ Z.max now (resetAt (quotaCapacityRank (Some (e_auth e)) k now))).
Definition error_sound (k : string) (keep : scheduledAuth → bool) (spent : bool) (es : list scheduledAuth) (now : time)
    (err : routeError) : Prop :=
  (∀ d, wait_of err = Some d → 0 ≤ d ∧
     ∀ e t, e ∈ es → keep e = true → (spent = true → state e ≠ Ready) → now ≤ t < now + d → ¬ is_free e k t) ∧
  (IsTerminalAuth err = true → ∀ e t, e ∈ es → keep e = true → ¬ is_free e k t) ∧
  (E_Code <$> base_of err = Some "auth_not_found" ↔ ∀ e, e ∈ es → keep e = false) ∧
  (∀ model provider d c, err = ErrModelCooldown model provider d c →
     ∀ e, e ∈ es → keep e = true → state e = Cooldown ∨ spent = true ∧ state e = Ready ∧ spent_out k now d e).

Lemma unavailable_error_sound k keep spent es now provider model authErr lastErr :
  (∀ e, e ∈ es → timely k now e) → (spent = false → ∀ e, e ∈ es → keep e = true → state e ≠ Ready) →
  error_sound k keep spent es now
    (unavailable_error provider model (availabilitySummary_in keep es) authErr lastErr now).
Proof.
  intros Hti Hnr0. assert (∀ e, e ∈ es → keep e = true → (spent = true → state e ≠ Ready) → state e ≠ Ready) as Hnr.
  { intros e He Hk Hsp. destruct spent; [by apply Hsp|by apply Hnr0]. }
  pose proof (earliest_holds k keep now es) as Hh. cbn zeta in Hh.
  pose proof (availability_closed keep es) as Hcl.
  set (s := availabilitySummary_in keep es) in *.
  assert (total s = 0 ↔ ∀ e, e ∈ es → keep e = false) as Ht0.
  { rewrite Hcl. simpl. unfold kept. split.
    - intros Hl e He. apply not_true_iff_false. intros Hk.
      destruct (filter _ es) eqn:Ef; [|done]. apply (not_elem_of_nil e). rewrite <-Ef. by apply elem_of_kept.
    - intros Hf. destruct (filter _ es) as [|e l] eqn:Ef; [done|]. exfalso.
      assert (e ∈ kept keep es) as He by (unfold kept; rewrite Ef; by left).
      apply elem_of_kept in He as [Hk He]. rewrite Hf in Hk; done. }
  unfold unavailable_error. destruct (Z.eqb_spec (total s) 0) as [E0|E0].
  { pose proof (proj1 Ht0 E0) as Hnone. unfold error_sound.
    split_and!; by destruct lastErr. }
  assert (¬ ∀ e, e ∈ es → keep e = false) as Hsome by by rewrite <-Ht0.
  destruct ((cooldownCount s =? total s) && negb (IsZero (earliest s))) eqn:Ec.
  { to_prop. unfold IsZero in *. to_prop. unfold error_sound. rewrite newModelCooldownErrorWithCause_wait. split_and!.
    - intros d [= <-]. split; [lia|]. intros e t He Hk Hsp Hd. apply Hh; try done; [lia| |by apply Hnr]. intros _.
      destruct (Sub_le (earliest s) now) as [Hs|Hs]; [|unfold MinInt64 in Hs]; case_match; to_prop; lia.
    - done.
    - split; [done|]. intros Hall. by apply Hsome in Hall.
    - intros ???? _ e He Hk. left. rewrite Hcl in H0. simpl in H0. apply (bool_decide_eq_true_1 (state e = Cooldown)).
      apply (proj1 (count_all (λ e, bool_decide (state e = Cooldown)) _) H0 e). by apply elem_of_kept. }
  destruct (Z.eqb_spec (unauthorizedCount s) (total s)) as [Eu|Eu].
  { unfold error_sound, NewTerminalAuthError. simpl. split_and!; try done.
    - intros _ e t He Hk. apply unauthorized_never_free. rewrite Hcl in Eu. simpl in Eu.
      apply (proj1 (count_all (λ e, hasUnauthorizedAuthFailure (Some (e_auth e))) _) Eu e). by apply elem_of_kept.
    }
  unfold error_sound. split_and!.
  - intros d Hd. pose proof (newAuthUnavailable_wait _ _ _ _ Hd) as [Hp Hlt]. split; [lia|].
    intros e t He Hk Hsp Ht. apply Hh; try done; [lia| |by apply Hnr]. intros _.
    revert Hd. unfold newAuthUnavailableErrorWithCause, After. rewrite (proj2 (Z.ltb_lt _ _) Hlt). intros [= <-].
    destruct (Sub_le (earliest s) now) as [Hs|Hs]; [|unfold MinInt64 in Hs]; lia.
  - unfold newAuthUnavailableErrorWithCause. case_match; [done|]. by destruct lastErr.
  - split; [|by intros Hall%Hsome]. unfold newAuthUnavailableErrorWithCause. case_match; [done|]. by destruct lastErr.
  - intros ???? E. revert E. unfold newAuthUnavailableErrorWithCause. case_match; [done|]. by destruct lastErr.
Qed.

(** The summary of quota draining in closed form, over the entries of shards of one model. *)
Definition drained (k : string) (now : time) (e : scheduledAuth) : bool :=
  match state e with Cooldown => true | Ready => quotaCapacityExhausted (Some (e_auth e)) k now | _ => false end.
Definition drain_time (k : string) (now : time) (e : scheduledAuth) : time :=
  match state e with Cooldown => nextRetryAt e | _ => resetAt (quotaCapacityRank (Some (e_auth e)) k now) end.
Definition quota_closed_form (k : string) (keep : scheduledAuth → bool) (es : list scheduledAuth) (now : time) : Z * Z * time :=
  (Z.of_nat (length (kept keep es)), count (drained k now) (kept keep es),
   fold_left sooner (drain_time k now <$> filter (λ e, drained k now e = true) (kept keep es)) 0).
Lemma quota_closed m keep es now :
  quotaDrainAvailabilitySummary_in m keep es now = quota_closed_form (modelKey m) keep es now.
Proof.
  unfold quotaDrainAvailabilitySummary_in, quota_closed_form, kept. induction es as [|e es IH] using rev_ind; [done|].
  rewrite fold_left_app, filter_app, IH. simpl. unfold quota_step. rewrite filter_cons, filter_nil.
  destruct (keep e); simpl; [|by rewrite app_nil_r].
  rewrite !count_snoc, length_app, filter_app, fmap_app, fold_left_app, filter_cons, filter_nil.
  assert (drained (modelKey m) now e = match state e with Cooldown => true | Ready => quotaCapacityExhausted (Some (e_auth e)) (modelKey m) now | _ => false end) as Ed by done.
  assert (drain_time (modelKey m) now e = match state e with Cooldown => nextRetryAt e | _ => resetAt (quotaCapacityRank (Some (e_auth e)) (modelKey m) now) end) as Et by done.
  unfold quotaCapacityExhausted in Ed. cbv zeta in Ed. rewrite <-negb_andb. destruct (state e); [|..];
    [destruct (known _ && exhausted _)|..]; rewrite Ed; simpl; rewrite ?app_nil_r, ?Et; f_equal; try done; f_equal; lia.
Qed.
Lemma quota_error_sound k keep es now model provider :
  (∀ e, e ∈ es → timely k now e) →
  let '(total, unavailable, earliest) := quota_closed_form k keep es now in
  total ≠ 0 → unavailable = total → earliest ≠ 0 →
  error_sound k keep true es now (newModelCooldownError model provider (Sub earliest now)).
Proof.
  intros Hti. unfold quota_closed_form. set (ts := drain_time k now <$> _). intros Ht Hu He.
  destruct (sooner_fold ts 0) as [Hmin _]. cbn zeta in Hmin. set (r := fold_left sooner ts 0) in *.
  pose proof (proj1 (count_all (drained k now) (kept keep es)) Hu) as Hall.
  assert (∀ e, e ∈ es → keep e = true → drained k now e = true ∧ (drain_time k now e ≠ 0 → r ≤ drain_time k now e)) as Hdr.
  { intros e Hin Hk. assert (e ∈ kept keep es) as Hkept by by apply elem_of_kept. specialize (Hall e Hkept). split; [done|].
    intros Hnz. apply Hmin; [left|done]. apply list_elem_of_fmap_2, list_elem_of_filter. by split. }
  assert (∀ d, d = Z.max 0 (Sub r now) → ∀ x, now ≤ x → r ≤ x → now + d ≤ x) as Hd.
  { intros d -> x Hx Hr. destruct (Sub_le r now) as [Hs|Hs]; [|unfold MinInt64 in Hs]; lia. }
  unfold error_sound, newModelCooldownError. rewrite newModelCooldownErrorWithCause_wait. split_and!.
  - intros d [= <-]. split; [lia|]. intros e t Hin Hk Hnr Hlt. destruct (Hdr e Hin Hk) as [H1 H2].
    apply (not_ready_holds _ now); [by apply Hti|lia|by apply Hnr|]. unfold drained, drain_time in H1, H2.
    destruct (state e); try done; [by destruct (Hnr eq_refl)|]. intros Hnz. specialize (H2 Hnz).
    destruct (Z.lt_ge_cases t (nextRetryAt e)) as [|Hge]; [done|]. pose proof (Hd _ eq_refl t ltac:(lia) ltac:(lia)). lia.
  - done.
  - split; [done|]. intros Hnone. exfalso. apply Ht. unfold kept. destruct (filter _ es) as [|e l] eqn:Ef; [done|].
    assert (e ∈ kept keep es) as [Hk Hin]%elem_of_kept by (unfold kept; rewrite Ef; by left). by rewrite Hnone in Hk.
  - intros m p d c E e Hin Hk. assert (d = Z.max 0 (Sub r now)) as ->.
    { pose proof (newModelCooldownErrorWithCause_wait model provider (Sub r now) None) as Hw. rewrite E in Hw. by injection Hw. }
    destruct (Hdr e Hin Hk) as [H1 H2]. unfold drained, drain_time in H1, H2. destruct (state e); try done; [|by left].
    right. split_and!; [done..|]. split; [done|]. intros Hnz. apply Hd; lia.
Qed.
End errors.

(** what a failed selection reports does not depend on the order in which Go
    ranges over the entries of the shard: neither the counts and the earliest
    retry time, nor which failure counts as the latest. *)
Theorem failure_report_order m keep es model now :
  keys_ok m → es ≡ₚ entry_list m →
  availabilitySummary_in keep es = availabilitySummaryLocked m keep ∧
  quotaDrainAvailabilitySummary_in m keep es now = quotaDrainAvailabilitySummaryLocked m keep now ∧
  candidateErrors_in keep es model = candidateErrorsLocked m keep model.
Proof.
  intros Hk Hp. split_and!.
  - by apply availabilitySummary_perm.
  - by apply quota_summary_perm.
  - unfold candidateErrorsLocked, candidateErrors_in.
    assert (kept keep es ≡ₚ kept keep (entry_list m)) as Hp' by (unfold kept; by rewrite Hp).
    symmetry. apply candidateErrors_perm; [|by rewrite Hp'].
    rewrite <-list_fmap_compose. change (NoDup (entry_id <$> kept keep (entry_list m))).
    apply NoDup_fmap_filter. by apply entry_list_NoDup.
Qed.

(** Two credentials that failed at the same instant. *)
Definition failed_entry (id : string) (at_ : time) : scheduledAuth :=
  let a := (simpleAuth id "codex") <| StatusMessage := "quota of " +:+ id |> <| UpdatedAt := at_ |> in
  mkEntry (mkMeta a "codex" 0 1 false None 0) a Cooldown (at_ + 60).
Definition failed_shard : modelScheduler :=
  mkShard "gpt-5" {["a" := failed_entry "a" 10; "b" := failed_entry "b" 10]} [] ∅ ["a"; "b"].

Lemma failure_report_order_witness :
  candidateErrors_in (λ _, true) [failed_entry "b" 10; failed_entry "a" 10] "gpt-5"
  = candidateErrorsLocked failed_shard (λ _, true) "gpt-5".
Proof.
  refine (proj2 (proj2 (failure_report_order failed_shard (λ _, true) [failed_entry "b" 10; failed_entry "a" 10] "gpt-5" 20 _ _))).
  - intros id e He. apply elem_of_map_to_list in He.
    assert (map_to_list (entries failed_shard) = [("a", failed_entry "a" 10); ("b", failed_entry "b" 10)]) as E
      by (vm_compute; reflexivity).
    rewrite E in He. apply elem_of_cons in He as [[= -> ->]|[= -> ->]%list_elem_of_singleton]; done.
  - assert (entry_list failed_shard = [failed_entry "a" 10; failed_entry "b" 10]) as -> by (vm_compute; reflexivity).
    apply perm_swap.
Defined.
