(* ===== verification/Scheduler.v ===== *)
(** * The scheduler

    Models [authScheduler] and [providerScheduler] of [scheduler.go]: which
    credentials are scheduled, under which provider, in which model shards; the
    lifecycle of a credential (upserts, results, rebuilds, removals with their
    tombstones); and the two selections, from one provider and from several.

    The model registry ([internal/registry]) is read through [registryView].  The
    quota-drain pins live in one store ([quotaPins]); a provider's and a shard's
    pin pointers are its keys.  Every operation runs under the scheduler's mutex,
    so one operation is one step.  [now] is the clock reading of an operation and
    [at_] the one at which quota windows are judged. *)
From Stdlib Require Import ZArith Lia String Bool Sorted.
From stdpp Require Import prelude gmap strings.
From S2P Require Import Prelude GoStd AuthTypes Weight Availability Smooth Capacity Errors Rotation Shard Unavailable.
Local Open Scope string_scope.
Local Open Scope list_scope.
Local Open Scope Z_scope.

(** ** State *)

Record registryView := mkRegistryView {
  ClientRegistrationEpoch : string → Z;
  GetModelsForClient : string → list (option string) }.

Record scheduledGenerationMeta := mkGen { epoch : Z; generation : Z; g_updatedAt : time }.

Record providerScheduler := mkProvider {
  auths : gmap string scheduledAuthMeta; modelShards : gmap string modelScheduler }.
#[export] Instance providerScheduler_eta : Eta providerScheduler := λ p, mkProvider (auths p) (modelShards p).
Definition newProvider : providerScheduler := mkProvider ∅ ∅.

Record authScheduler := mkScheduler {
  strategy : schedulerStrategy; providers : gmap string providerScheduler;
  authProviders : gmap string string; authGenerations : gmap string scheduledGenerationMeta;
  mixedCursors : gmap string Z; mixedWeightedStates : gmap string smoothWeightedState;
  quotaPins : gmap string (gmap string quotaDrainPin) }.
#[export] Instance authScheduler_eta : Eta authScheduler := λ s,
  mkScheduler (strategy s) (providers s) (authProviders s) (authGenerations s) (mixedCursors s)
    (mixedWeightedStates s) (quotaPins s).

(** The selectors [selectorStrategy] tells apart; [None] is the nil selector. *)
Inductive selectorKind := SelFillFirst | SelQuotaDrain | SelWeighted | SelRoundRobin | SelOther.
Definition selectorStrategy (sel : option selectorKind) : schedulerStrategy :=
  match sel with
  | Some SelFillFirst => schedulerStrategyFillFirst
  | Some SelQuotaDrain => schedulerStrategyQuotaDrain
  | Some SelWeighted => schedulerStrategyWeightedRoundRobin
  | None | Some SelRoundRobin => schedulerStrategyRoundRobin
  | Some SelOther => schedulerStrategyCustom
  end.

Definition newAuthScheduler (sel : option selectorKind) : authScheduler :=
  mkScheduler (selectorStrategy sel) ∅ ∅ ∅ ∅ ∅ ∅.

Definition setSelector (s : authScheduler) (sel : option selectorKind) : authScheduler :=
  s <| strategy := selectorStrategy sel |> <| mixedCursors := ∅ |> <| mixedWeightedStates := ∅ |>
    <| quotaPins := (λ pins : gmap string quotaDrainPin, (λ _, zeroPin) <$> pins) <$> quotaPins s |>.

(** The ID and the provider of a credential that can be scheduled. *)
Definition isSchedulableAuth (auth : option Auth) : option (string * string) :=
  match auth with
  | None => None
  | Some a =>
      if Disabled a || bool_decide (A_Status a = StatusDisabled) then None else
      let authID := TrimSpace (ID a) in
      if String.eqb authID "" then None else
      let providerKey := executorKeyFromAuth auth in
      if String.eqb providerKey "" then None else Some (authID, providerKey)
  end.

(** ** Metadata *)

Definition supportedModelSetForAuth (reg : registryView) (authID : string) : option (gset string) :=
  let authID := TrimSpace authID in
  if String.eqb authID "" then None else
  match GetModelsForClient reg authID with
  | [] => None
  | models => Some (list_to_set (filter (λ k, k ≠ "") (omap (fmap canonicalModelKey) models)))
  end.

Definition buildScheduledAuthMetaWithModelSet (a : Auth) (modelSet : option (gset string)) (regEpoch : Z)
    : scheduledAuthMeta :=
  mkMeta (Auth_Clone a) (executorKeyFromAuth (Some a)) (authPriority (Some a)) (authWeight (Some a))
    (authWebsocketsEnabled (Some a)) modelSet regEpoch.

Section scheduler.
Context `{GoHost}.

(** ** One provider *)

(** What an update does to the shard of a model. *)
Definition sync_shard (meta : scheduledAuthMeta) (now : time) (modelKey : string) (shard : modelScheduler)
    : modelScheduler :=
  if supportsModel meta modelKey then upsertEntryLocked shard meta now
  else removeEntryLocked shard (ID (sm_auth meta)).

Definition sync_at (meta : scheduledAuthMeta) (now : time) (p : providerScheduler) (modelKey : string)
    : providerScheduler :=
  match modelShards p !! modelKey with
  | None => p
  | Some shard => p <| modelShards := <[modelKey := sync_shard meta now modelKey shard]> (modelShards p) |>
  end.

Fixpoint sync_targets (meta : scheduledAuthMeta) (now : time) (targetModels seen : list string)
    (p : providerScheduler) : providerScheduler :=
  match targetModels with
  | [] => p
  | m :: targetModels =>
      let modelKey := canonicalModelKey m in
      if bool_decide (modelKey ∈ seen) then sync_targets meta now targetModels seen p
      else sync_targets meta now targetModels (modelKey :: seen) (sync_at meta now p modelKey)
  end.

Definition updateTargetShardsLocked (p : providerScheduler) (meta : scheduledAuthMeta)
    (targetModels : list string) (now : time) : providerScheduler :=
  sync_targets meta now targetModels [] (sync_at meta now p "").

Definition upsertAuthForModelsLocked (p : providerScheduler) (meta : scheduledAuthMeta)
    (targetModels : list string) (credentialScoped : bool) (now : time) : providerScheduler :=
  let p := p <| auths := <[ID (sm_auth meta) := meta]> (auths p) |> in
  if credentialScoped || bool_decide (targetModels = []) then
    p <| modelShards := map_imap (λ k shard, Some (sync_shard meta now k shard)) (modelShards p) |>
  else updateTargetShardsLocked p meta targetModels now.

Definition provider_removeAuthLocked (p : providerScheduler) (authID : string) : providerScheduler :=
  if String.eqb authID "" then p else
  mkProvider (delete authID (auths p)) ((λ shard, removeEntryLocked shard authID) <$> modelShards p).

(** [metas] is the range over [p.auths]. *)
Definition build_shard (metas : list scheduledAuthMeta) (modelKey : string) (now : time) : modelScheduler :=
  fold_left (λ shard meta, if supportsModel meta modelKey then upsertEntryLocked shard meta now else shard)
    metas (newShard modelKey).

Definition ensureModelLocked (p : providerScheduler) (modelKey : string) (now : time) : providerScheduler :=
  let modelKey := canonicalModelKey modelKey in
  match modelShards p !! modelKey with
  | Some shard => p <| modelShards := <[modelKey := promoteExpiredLocked shard now]> (modelShards p) |>
  | None => p <| modelShards :=
              <[modelKey := build_shard (map_to_list (auths p)).*2 modelKey now]> (modelShards p) |>
  end.

(** ** Lifecycle of a credential *)

Definition provider_of (s : authScheduler) (authID : string) : string := default "" (authProviders s !! authID).
Definition update_provider (s : authScheduler) (key : string) (f : providerScheduler → providerScheduler)
    : authScheduler := s <| providers := alter f key (providers s) |>.

Definition isStaleScheduledAuth (s : authScheduler) (authID : string) (incomingEpoch incomingGen : Z)
    (incomingUpdatedAt : time) : bool :=
  match authGenerations s !! authID with
  | None => false
  | Some g =>
      if incomingEpoch <? epoch g then true
      else if epoch g =? incomingEpoch then
        if incomingGen <? generation g then true
        else (generation g =? incomingGen) && After (g_updatedAt g) incomingUpdatedAt
      else false
  end.

Definition removeAuthFromProvidersLocked (s : authScheduler) (authID : string) : authScheduler :=
  let providerKey := provider_of s authID in
  if String.eqb providerKey "" then s else
  (update_provider s providerKey (λ p, provider_removeAuthLocked p authID))
    <| authProviders := delete authID (authProviders s) |>.

Definition set_generation (s : authScheduler) (authID : string) (g : scheduledGenerationMeta) : authScheduler :=
  s <| authGenerations := <[authID := g]> (authGenerations s) |>.

Definition recordRemovalTombstoneLocked (s : authScheduler) (authID : string) (tombstoneEpoch : Z) (now : time)
    : authScheduler :=
  if String.eqb authID "" then s else
  match authGenerations s !! authID with
  | Some g => if tombstoneEpoch <? epoch g then s
              else removeAuthFromProvidersLocked (set_generation s authID (mkGen tombstoneEpoch 0 now)) authID
  | None => removeAuthFromProvidersLocked (set_generation s authID (mkGen tombstoneEpoch 0 now)) authID
  end.
Definition RecordRemovalTombstone (s : authScheduler) (authID : string) (tombstoneEpoch : Z) (now : time)
    : authScheduler := recordRemovalTombstoneLocked s (TrimSpace authID) tombstoneEpoch now.

Definition removeAuthLocked (s : authScheduler) (authID : string) (now : time) : authScheduler :=
  if String.eqb authID "" then s else
  let e := match authGenerations s !! authID with Some g => wrapu64 (epoch g + 1) | None => 1 end in
  removeAuthFromProvidersLocked (set_generation s authID (mkGen e 0 now)) authID.
Definition removeAuth (s : authScheduler) (authID : string) (now : time) : authScheduler :=
  removeAuthLocked s (TrimSpace authID) now.

Definition ResetAuthGeneration (s : authScheduler) (authID : string) : authScheduler :=
  let authID := TrimSpace authID in
  if String.eqb authID "" then s else s <| authGenerations := delete authID (authGenerations s) |>.

Definition ensureProviderLocked (s : authScheduler) (providerKey : string) : authScheduler :=
  match providers s !! providerKey with
  | Some _ => s
  | None =>
      s <| quotaPins := <[providerKey := default ∅ (quotaPins s !! providerKey)]> (quotaPins s) |>
        <| providers := <[providerKey := newProvider]> (providers s) |>
  end.

(** A credential that changed provider leaves the previous one. *)
Definition leave_previous (s : authScheduler) (authID providerKey : string) : authScheduler :=
  let previous := provider_of s authID in
  if negb (String.eqb previous "") && negb (String.eqb previous providerKey)
  then update_provider s previous (λ p, provider_removeAuthLocked p authID) else s.

Definition install (s : authScheduler) (authID providerKey : string) (meta : scheduledAuthMeta)
    (targetModels : list string) (credentialScoped : bool) (now : time) : authScheduler :=
  update_provider (s <| authProviders := <[authID := providerKey]> (authProviders s) |>) providerKey
    (λ p, upsertAuthForModelsLocked p meta targetModels credentialScoped now).

Definition disabled (a : Auth) : bool := Disabled a || bool_decide (A_Status a = StatusDisabled).

Definition upsertAuthLifecycleLocked (s : authScheduler) (reg : registryView) (auth : option Auth) (now : time)
    : authScheduler :=
  match auth with
  | None => s
  | Some a =>
      let authID := TrimSpace (ID a) in
      if String.eqb authID "" then s else
      if isStaleScheduledAuth s authID (RegistrationEpoch a) (Generation a) (UpdatedAt a) then s else
      let s := set_generation s authID (mkGen (RegistrationEpoch a) (Generation a) (UpdatedAt a)) in
      let providerKey := executorKeyFromAuth auth in
      if String.eqb providerKey "" || disabled a then removeAuthFromProvidersLocked s authID else
      let s := ensureProviderLocked (leave_previous s authID providerKey) providerKey in
      let meta := buildScheduledAuthMetaWithModelSet a (supportedModelSetForAuth reg (ID a))
                    (ClientRegistrationEpoch reg authID) in
      install s authID providerKey meta [] true now
  end.
Definition upsertAuth := upsertAuthLifecycleLocked.

Definition upsertAuthRebuildLocked (s : authScheduler) (reg : registryView) (auth : option Auth)
    (existingMetas : gmap string scheduledAuthMeta) (now : time) : authScheduler :=
  match auth with
  | None => s
  | Some a =>
      let authID := TrimSpace (ID a) in
      if String.eqb authID "" then s else
      let existing := authGenerations s !! authID in
      if match existing with Some g => RegistrationEpoch a <? epoch g | None => false end then s else
      (* the snapshot, or the newer state an in-flight result has left *)
      let authToSchedule :=
        if match existing with
           | Some g => (epoch g =? RegistrationEpoch a) && (Generation a <? generation g)
           | None => false
           end
        then match existingMetas !! authID with
             | Some m => if disabled (sm_auth m) then None else Some (sm_auth m)
             | None => None
             end
        else Some a in
      match authToSchedule with
      | None => s
      | Some b =>
          let providerKey := executorKeyFromAuth (Some b) in
          if String.eqb providerKey "" || disabled b then removeAuthFromProvidersLocked s authID else
          let g := match existing with
                   | Some g =>
                       if (epoch g =? RegistrationEpoch b) && (Generation b <? generation g)
                       then mkGen (RegistrationEpoch b) (generation g)
                              (if After (g_updatedAt g) (UpdatedAt b) then g_updatedAt g else UpdatedAt b)
                       else mkGen (RegistrationEpoch b) (Generation b) (UpdatedAt b)
                   | None => mkGen (RegistrationEpoch b) (Generation b) (UpdatedAt b)
                   end in
          let s := set_generation s authID g in
          let s := ensureProviderLocked (leave_previous s authID providerKey) providerKey in
          let meta := buildScheduledAuthMetaWithModelSet b (supportedModelSetForAuth reg (ID b))
                        (ClientRegistrationEpoch reg authID) in
          install s authID providerKey meta [] true now
      end
  end.

(** [existingMetas]: an ID under several providers keeps the one ranged last. *)
Definition existing_metas (ps : list providerScheduler) : gmap string scheduledAuthMeta :=
  fold_left (λ acc p, auths p ∪ acc) ps ∅.

Definition rebuild (s : authScheduler) (reg : registryView) (l : list (option Auth)) (now : time)
    : authScheduler :=
  let existingMetas := existing_metas (map_to_list (providers s)).*2 in
  let s := s <| providers := ∅ |> <| authProviders := ∅ |> <| mixedCursors := ∅ |>
             <| mixedWeightedStates := ∅ |> in
  fold_left (λ s a, upsertAuthRebuildLocked s reg a existingMetas now) l s.

Definition upsertAuthResultLocked (s : authScheduler) (reg : registryView) (auth : option Auth)
    (targetModels : list string) (credentialScoped : bool) (now : time) : authScheduler :=
  match auth with
  | None => s
  | Some a =>
      let authID := TrimSpace (ID a) in
      if String.eqb authID "" then s else
      let providerKey := executorKeyFromAuth auth in
      if isStaleScheduledAuth s authID (RegistrationEpoch a) (Generation a) (UpdatedAt a) then
        (* the scope of the result is refreshed from the recorded state *)
        if String.eqb providerKey "" then s else
        match providers s !! providerKey with
        | None => s
        | Some p =>
            match auths p !! authID with
            | None => s
            | Some latestMeta =>
                update_provider s providerKey
                  (λ p, upsertAuthForModelsLocked p latestMeta targetModels credentialScoped now)
            end
        end
      else
      let s := set_generation s authID (mkGen (RegistrationEpoch a) (Generation a) (UpdatedAt a)) in
      if String.eqb providerKey "" || disabled a then removeAuthFromProvidersLocked s authID else
      let s := ensureProviderLocked (leave_previous s authID providerKey) providerKey in
      let currentRegEpoch := ClientRegistrationEpoch reg authID in
      let existingMeta := providers s !! providerKey ≫= λ p, auths p !! authID in
      (* the cached model set when it is still current *)
      let cached := match existingMeta with
                    | Some m => if registryEpoch m =? currentRegEpoch then supportedModelSet m else None
                    | None => None
                    end in
      let modelSet := match cached with Some ms => Some ms | None => supportedModelSetForAuth reg (ID a) end in
      let meta := buildScheduledAuthMetaWithModelSet a modelSet currentRegEpoch in
      let modelCount := match modelSet with Some ms => size ms | None => O end in
      let wasBlocked := match existingMeta with
                        | Some m => isCredentialBlocked (Some (sm_auth m)) modelCount now
                        | None => false end in
      let isBlocked := isCredentialBlocked auth modelCount now in
      if negb (bool_decide (is_Some cached)) || credentialScoped || negb (Bool.eqb wasBlocked isBlocked)
         || bool_decide (targetModels = [])
      then install s authID providerKey meta [] true now
      else install s authID providerKey meta targetModels credentialScoped now
  end.

(** Whether the scheduler lags behind the credentials; [l] is the range over
    the credential map. *)
Definition in_sync (s : authScheduler) (reg : registryView) (auth : option Auth) : bool :=
  match auth with
  | None => true
  | Some a =>
      match isSchedulableAuth auth with
      | None =>
          let rawID := TrimSpace (ID a) in
          String.eqb rawID "" || negb (bool_decide (is_Some (authProviders s !! rawID)))
      | Some (authID, providerKey) =>
          String.eqb (provider_of s authID) providerKey
          && match providers s !! providerKey ≫= λ p, auths p !! authID with
             | None => false
             | Some meta =>
                 match authGenerations s !! authID with
                 | None => false
                 | Some g => (epoch g =? RegistrationEpoch a)
                             && (registryEpoch meta =? ClientRegistrationEpoch reg authID)
                 end
             end
      end
  end.
Definition needsSyncFromMapLocked (s : authScheduler) (reg : registryView) (l : list (option Auth)) : bool :=
  let activeCount := length (filter (λ a, is_Some (isSchedulableAuth a)) l) in
  if negb (activeCount =? size (authProviders s))%nat then true
  else existsb (λ a, negb (in_sync s reg a)) l.

(** ** Selection *)

Definition scheduledAuthPredicate (eligibility : authSelectionEligibility) (tried : gset string)
    (pinnedAuthID : string) (requirePositiveWeight : bool) (entry : scheduledAuth) : bool :=
  if negb (allows eligibility (Some (e_auth entry))) then false
  else if requirePositiveWeight && (weight (e_meta entry) <=? 0) then false
  else if negb (String.eqb pinnedAuthID "") && negb (String.eqb (ID (e_auth entry)) pinnedAuthID) then false
  else negb (bool_decide (ID (e_auth entry) ∈ tried)).

Definition normalizeProviderKeys (l : list string) : list string :=
  reverse (fold_left (λ out provider,
    let providerKey := canonicalSchedulingProvider provider in
    if String.eqb providerKey "" || bool_decide (providerKey ∈ out) then out else providerKey :: out) l []).
Definition containsProvider (l : list string) (provider : string) : bool := bool_decide (provider ∈ l).

Definition result := (Auth * string + routeError)%type.

Definition pin_of (s : authScheduler) (providerKey modelKey : string) : quotaDrainPin :=
  default zeroPin (quotaPins s !! providerKey ≫= λ pins, pins !! modelKey).
Definition set_pin (s : authScheduler) (providerKey modelKey : string) (pin : quotaDrainPin) : authScheduler :=
  s <| quotaPins := <[providerKey := <[modelKey := pin]> (default ∅ (quotaPins s !! providerKey))]> (quotaPins s) |>.

Definition shard_at (s : authScheduler) (providerKey modelKey : string) : option modelScheduler :=
  providers s !! providerKey ≫= λ p, modelShards p !! canonicalModelKey modelKey.
Definition set_shard (s : authScheduler) (providerKey modelKey : string) (shard : modelScheduler) : authScheduler :=
  update_provider s providerKey (λ p, p <| modelShards := <[canonicalModelKey modelKey := shard]> (modelShards p) |>).

(** [ensureModelLocked] of a provider, when it exists; the shard keeps a
    pointer to the pin of its model. *)
Definition ensure (s : authScheduler) (providerKey modelKey : string) (now : time) : authScheduler :=
  match providers s !! providerKey with
  | None => s
  | Some _ =>
      let k := canonicalModelKey modelKey in
      set_pin (update_provider s providerKey (λ p, ensureModelLocked p modelKey now)) providerKey k
        (pin_of s providerKey k)
  end.

(** [shard.pick…] through the scheduler's stores. *)
Definition pick_in (s : authScheduler) (providerKey modelKey : string)
    (pick : modelScheduler → quotaDrainPin → option Auth * modelScheduler * quotaDrainPin)
    : option Auth * authScheduler :=
  match shard_at s providerKey modelKey with
  | None => (None, s)
  | Some shard =>
      let k := canonicalModelKey modelKey in
      let '(picked, shard, pin) := pick shard (pin_of s providerKey k) in
      (picked, set_pin (set_shard s providerKey modelKey shard) providerKey k pin)
  end.

Definition is_weighted (st : schedulerStrategy) : bool := bool_decide (st = schedulerStrategyWeightedRoundRobin).
Definition is_quota (st : schedulerStrategy) : bool := bool_decide (st = schedulerStrategyQuotaDrain).
Definition effective (s : authScheduler) (st : schedulerStrategy) : schedulerStrategy :=
  if bool_decide (st = schedulerStrategyCurrent) then strategy s else st.

(** The pick from one shard and, when it fails, the error. *)
Definition pick_or_error (s : authScheduler) (providerKey modelKey provider model : string)
    (preferWebsocket : bool) (st : schedulerStrategy) (keep : scheduledAuth → bool) (now at_ : time)
    : result * authScheduler :=
  let '(picked, s) := pick_in s providerKey modelKey
                        (λ shard pin, pickReadyLocked shard preferWebsocket st now at_ keep pin) in
  match picked with
  | Some a => (inl (a, providerKey), s)
  | None =>
      match shard_at s providerKey modelKey with
      | None => (inr (ErrPlain err_not_found), s)
      | Some shard =>
          (inr (match (if is_quota st then quotaDrainUnavailableErrorLocked shard keep provider model at_
                       else None) with
                | Some err => err
                | None => unavailableErrorLocked shard keep provider model now
                end), s)
      end
  end.

Definition pickSingleWithStrategy (s : authScheduler) (r : request) (provider model : string)
    (tried : gset string) (st : schedulerStrategy) (now at_ : time) : result * authScheduler :=
  let providerKey := canonicalSchedulingProvider provider in
  let modelKey := canonicalModelKey model in
  let pinnedAuthID := pinnedAuthIDFromMetadata (opts_metadata r) in
  let preferWebsocket := ctx_downstream_websocket r && providerPrefersWebsocketTransport providerKey
                         && String.eqb pinnedAuthID "" in
  let st := effective s st in
  match providers s !! providerKey with
  | None => (inr (ErrPlain err_not_found), s)
  | Some _ =>
      let keep := scheduledAuthPredicate (authSelectionEligibilityForRequest r) tried pinnedAuthID (is_weighted st) in
      pick_or_error (ensure s providerKey modelKey now) providerKey modelKey provider model preferWebsocket
        st keep now at_
  end.
Definition pickSingle (s : authScheduler) (r : request) (provider model : string) (tried : gset string)
    (now at_ : time) : result * authScheduler :=
  pickSingleWithStrategy s r provider model tried schedulerStrategyCurrent now at_.

(** ** Several providers *)

Definition ensure_all (s : authScheduler) (l : list string) (modelKey : string) (now : time) : authScheduler :=
  fold_left (λ s providerKey, ensure s providerKey modelKey now) l s.

Definition combine_summary (s t : summary4) : summary4 :=
  mkSummary (total s + total t) (cooldownCount s + cooldownCount t) (unauthorizedCount s + unauthorizedCount t)
    (sooner (earliest s) (earliest t)).
Definition combine_quota (s t : Z * Z * time) : Z * Z * time :=
  (s.1.1 + t.1.1, s.1.2 + t.1.2, sooner s.2 t.2).

Definition shards_at (s : authScheduler) (l : list string) (modelKey : string) : list modelScheduler :=
  omap (λ providerKey, shard_at s providerKey modelKey) l.

Definition mixedUnavailableErrorLocked (s : authScheduler) (l : list string) (model : string)
    (keep : scheduledAuth → bool) (now : time) : routeError * authScheduler :=
  let s := ensure_all s l (canonicalModelKey model) now in
  let shards := shards_at s l (canonicalModelKey model) in
  let summary := fold_left (λ acc shard, combine_summary acc (availabilitySummaryLocked shard keep)) shards
                   (mkSummary 0 0 0 0) in
  let errs := fold_left (λ acc shard, let e := candidateErrorsLocked shard keep model in
                                      (later_opt acc.1 e.1, later_opt acc.2 e.2)) shards (None, None) in
  (unavailable_error "" model summary (failure_cause errs.2) (failure_cause (prefer_model errs)) now, s).

Definition mixedQuotaDrainUnavailableErrorLocked (s : authScheduler) (l : list string) (model : string)
    (keep : scheduledAuth → bool) (now : time) : option routeError * authScheduler :=
  let s := ensure_all s l (canonicalModelKey model) now in
  let shards := shards_at s l (canonicalModelKey model) in
  let '(total, unavailable, earliest) :=
    fold_left (λ acc shard, combine_quota acc (quotaDrainAvailabilitySummaryLocked shard keep now)) shards (0, 0, 0) in
  (if (total =? 0) || negb (unavailable =? total) || IsZero earliest then None
   else Some (newModelCooldownError model "" (Sub earliest now)), s).

Definition mixedUnavailableForStrategyLocked (s : authScheduler) (l : list string) (model : string)
    (keep : scheduledAuth → bool) (st : schedulerStrategy) (now : time) : routeError * authScheduler :=
  if is_quota st then
    match mixedQuotaDrainUnavailableErrorLocked s l model keep now with
    | (Some err, s) => (err, s)
    | (None, s) => mixedUnavailableErrorLocked s l model keep now
    end
  else mixedUnavailableErrorLocked s l model keep now.

Definition fail_with (e : routeError * authScheduler) : result * authScheduler := (inr e.1, e.2).

(** The best tier over the candidate shards. *)
Definition best_priority (s : authScheduler) (l : list string) (modelKey : string) (st : schedulerStrategy)
    (at_ : time) (keep : scheduledAuth → bool) : option Z :=
  fold_left (λ best shard,
    match highestSelectablePriorityLocked shard false st at_ keep with
    | None => best
    | Some p => match best with
                | None => Some p
                | Some b => if b <? p then Some p else best
                end
    end) (shards_at s l modelKey) None.

(** The loop over providers: the first one that yields a credential. *)
Fixpoint try_each (s : authScheduler) (l : list string) (modelKey : string) (p : Z) (st : schedulerStrategy)
    (at_ : time) (keep : scheduledAuth → bool) : option (Auth * string) * authScheduler :=
  match l with
  | [] => (None, s)
  | providerKey :: l =>
      match pick_in s providerKey modelKey
              (λ shard pin, pickReadyAtPriorityLocked shard false p st at_ keep pin) with
      | (Some a, s) => (Some (a, providerKey), s)
      | (None, s) => try_each s l modelKey p st at_ keep
      end
  end.

(** The tier's credentials of all the providers, in ID order. *)
Definition mixed_entries (s : authScheduler) (l : list string) (modelKey : string) (p : Z) : list scheduledAuth :=
  sort_by_key entry_id
    (concat ((λ shard, match readyByPriority shard !! p with
                       | Some b => view_entries shard (all b)
                       | None => [] end) <$> shards_at s l modelKey)).

Definition pick_mixed_weighted (s : authScheduler) (cursorKey : string) (entries : list scheduledAuth)
    (keep : scheduledAuth → bool) : option (Auth * string) * authScheduler :=
  let st := prepare (default zeroSmooth (mixedWeightedStates s !! cursorKey))
              (scheduledWeightVectorMatching entries keep) in
  let '(picked, cur) := pickSmoothWeightedScheduled entries (current st) keep in
  ((λ e, (e_auth e, providerKey (e_meta e))) <$> picked,
   s <| mixedWeightedStates := <[cursorKey := st <| current := cur |>]> (mixedWeightedStates s) |>).

(** One slot per selectable credential; [starts] and [ends] delimit the slots
    of each provider. *)
Definition mixed_weights (s : authScheduler) (l : list string) (modelKey : string) (p : Z)
    (st : schedulerStrategy) (at_ : time) (keep : scheduledAuth → bool) : list nat :=
  (λ providerKey, match shard_at s providerKey modelKey with
                  | Some shard => selectableCountAtPriorityLocked shard false p st at_ keep
                  | None => O end) <$> l.
Fixpoint segment_ends (acc : nat) (ws : list nat) : list nat :=
  match ws with [] => [] | w :: ws => (acc + w)%nat :: segment_ends (acc + w) ws end.
Fixpoint segment_starts (acc : nat) (ws : list nat) : list nat :=
  match ws with [] => [] | w :: ws => acc :: segment_starts (acc + w) ws end.

(** The first provider with slots whose segment reaches beyond the slot. *)
Definition start_provider (ws : list nat) (slot : nat) : option nat :=
  find_first (λ i, negb (nth i ws O =? 0)%nat && (slot <? nth i (segment_ends 0 ws) O)%nat) (seq 0 (length ws)).

(** The providers from the starting one on, around; an empty one is skipped. *)
Fixpoint mixed_loop (s : authScheduler) (l : list string) (order : list nat) (ws : list nat) (start slot : nat)
    (cursorKey modelKey : string) (p : Z) (st : schedulerStrategy) (at_ : time) (keep : scheduledAuth → bool)
    : option (Auth * string) * authScheduler :=
  match order with
  | [] => (None, s)
  | i :: order =>
      if (nth i ws O =? 0)%nat then mixed_loop s l order ws start slot cursorKey modelKey p st at_ keep else
      let slot := if (i =? start)%nat then slot else nth i (segment_starts 0 ws) O in
      let providerKey := nth i l "" in
      let credentialStrategy := if is_quota st then schedulerStrategyQuotaDrain else schedulerStrategyRoundRobin in
      match pick_in s providerKey modelKey
              (λ shard pin, pickReadyAtPriorityLocked shard false p credentialStrategy at_ keep pin) with
      | (Some a, s) =>
          (Some (a, providerKey), s <| mixedCursors := <[cursorKey := Z.of_nat slot + 1]> (mixedCursors s) |>)
      | (None, s) => mixed_loop s l order ws start slot cursorKey modelKey p st at_ keep
      end
  end.

Definition pick_mixed_slots (s : authScheduler) (l : list string) (cursorKey modelKey : string) (p : Z)
    (st : schedulerStrategy) (at_ : time) (keep : scheduledAuth → bool)
    : option (Auth * string) * authScheduler :=
  let ws := mixed_weights s l modelKey p st at_ keep in
  let totalWeight := sum_list ws in
  if (totalWeight =? 0)%nat then (None, s) else
  let startSlot := Z.to_nat (Z.rem (default 0 (mixedCursors s !! cursorKey)) (Z.of_nat totalWeight)) in
  match start_provider ws startSlot with
  | None => (None, s)
  | Some start =>
      let n := length l in
      mixed_loop s l ((λ offset, (start + offset) mod n)%nat <$> seq 0 n) ws start startSlot
        cursorKey modelKey p st at_ keep
  end.

(** The pick in the best tier, per strategy. *)
Definition mixed_pick (s : authScheduler) (l : list string) (modelKey : string) (p : Z)
    (st : schedulerStrategy) (at_ : time) (keep : scheduledAuth → bool)
    : option (Auth * string) * authScheduler :=
  let cursorKey := String.concat "," l +:+ ":" +:+ modelKey in
  match st with
  | schedulerStrategyFillFirst => try_each s l modelKey p st at_ keep
  | schedulerStrategyWeightedRoundRobin =>
      pick_mixed_weighted s cursorKey (mixed_entries s l modelKey p) keep
  | _ => pick_mixed_slots s l cursorKey modelKey p st at_ keep
  end.

(** The selection on shards that are up to date. *)
Definition mixed_select (s : authScheduler) (l : list string) (model modelKey : string)
    (st : schedulerStrategy) (keep : scheduledAuth → bool) (now at_ : time) : result * authScheduler :=
  match best_priority s l modelKey st at_ keep with
  | None => fail_with (mixedUnavailableForStrategyLocked s l model keep st now)
  | Some p =>
      match mixed_pick s l modelKey p st at_ keep with
      | (Some r, s) => (inl r, s)
      | (None, s) => fail_with (if is_weighted st then mixedUnavailableErrorLocked s l model keep now
                                else mixedUnavailableForStrategyLocked s l model keep st now)
      end
  end.

Definition pickMixedWithStrategy (s : authScheduler) (r : request) (l : list string) (model : string)
    (tried : gset string) (st : schedulerStrategy) (now at_ : time) : result * authScheduler :=
  let normalized := normalizeProviderKeys l in
  match normalized with
  | [] => (inr (ErrPlain err_no_provider), s)
  | [providerKey] => pickSingleWithStrategy s r providerKey model tried st now at_
  | _ =>
      let pinnedAuthID := pinnedAuthIDFromMetadata (opts_metadata r) in
      let eligibility := authSelectionEligibilityForRequest r in
      let modelKey := canonicalModelKey model in
      let st := effective s st in
      if negb (String.eqb pinnedAuthID "") then
        let providerKey := provider_of s pinnedAuthID in
        if String.eqb providerKey "" || negb (containsProvider normalized providerKey)
        then (inr (ErrPlain err_not_found), s) else
        match providers s !! providerKey with
        | None => (inr (ErrPlain err_not_found), s)
        | Some _ =>
            pick_or_error (ensure s providerKey modelKey now) providerKey modelKey "mixed" model false st
              (scheduledAuthPredicate eligibility tried pinnedAuthID (is_weighted st)) now at_
        end
      else
        mixed_select (ensure_all s normalized modelKey now) normalized model modelKey st
          (scheduledAuthPredicate eligibility tried "" (is_weighted st)) now at_
  end.
Definition pickMixed (s : authScheduler) (r : request) (l : list string) (model : string) (tried : gset string)
    (now at_ : time) : result * authScheduler :=
  pickMixedWithStrategy s r l model tried schedulerStrategyCurrent now at_.
End scheduler.
