(* ===== verification/SchedulerInvariant.v ===== *)
(** * What always holds of the scheduler

    The invariant of the providers and of the scheduler as a whole, kept by every
    operation of [Scheduler]: shards are well formed, hold exactly the provider's
    credentials that support their model, and a credential is under one provider. *)
From Stdlib Require Import ZArith Lia String Bool Sorted.
From stdpp Require Import prelude gmap strings.
From S2P Require Import Prelude GoStd AuthTypes Weight Availability Smooth Capacity Errors Rotation Shard Unavailable Scheduler.
Local Open Scope string_scope.
Local Open Scope list_scope.
Local Open Scope Z_scope.

(** An ID without surrounding white space, as the stores produce them. *)
Definition clean (id : string) : Prop := TrimSpace id = id ∧ id ≠ "".

(** Metadata derived from the credential it holds, scheduled under [key]. *)
Record meta_ok (key : string) (m : scheduledAuthMeta) : Prop := {
  mo_clean : clean (ID (sm_auth m));
  mo_provider : providerKey m = key;
  mo_priority : priority m = authPriority (Some (sm_auth m));
  mo_weight : weight m = authWeight (Some (sm_auth m));
  mo_websocket : websocketEnabled m = authWebsocketsEnabled (Some (sm_auth m)) }.

Lemma build_meta_ok a ms e :
  clean (ID a) → meta_ok (executorKeyFromAuth (Some a)) (buildScheduledAuthMetaWithModelSet a ms e).
Proof. by split. Qed.

Section shards.
Context `{GoHost}.
Abbreviation metas := (gmap string scheduledAuthMeta).

(** The shard of model [k] in a provider that holds [A]. *)
Record shard_in (t : time) (key k : string) (A : metas) (sh : modelScheduler) : Prop := {
  si_key : modelKey sh = k;
  si_ok : shard_ok t sh;
  si_member id : is_Some (entries sh !! id) ↔ ∃ m, A !! id = Some m ∧ supportsModel m k = true;
  si_meta id e : entries sh !! id = Some e → meta_ok key (e_meta e) }.

Lemma shard_ok_mono t t' m : t ≤ t' → shard_ok t m → shard_ok t' m.
Proof.
  intros Ht [Hk Hv Hti]. split; [done..|]. intros id e He. eapply timely_mono; [done|]. by eapply Hti.
Qed.

Lemma sync_shard_in t now key k A sh m :
  0 ≤ now → t ≤ now → meta_ok key m → shard_in t key k A sh →
  shard_in now key k (<[ID (sm_auth m) := m]> A) (sync_shard m now k sh).
Proof.
  intros Hn Ht Hm [Hk Hok Hmem Hmeta]. unfold sync_shard.
  destruct (supportsModel m k) eqn:Es.
  - destruct (upsert_entries sh m now) as [Ee Ek]. split.
    + by rewrite Ek.
    + by apply (upsertEntryLocked_ok t).
    + intros id. rewrite Ee. destruct (decide (id = ID (sm_auth m))) as [->|Hne].
      * rewrite !lookup_insert_eq. split; [intros _; eauto|done].
      * rewrite !lookup_insert_ne by done. apply Hmem.
    + intros id e. rewrite Ee. intros [[<- <-]|[_ He]]%lookup_insert_Some; [done|by eapply Hmeta].
  - destruct (remove_entries sh (ID (sm_auth m))) as [Ee Ek].
    assert (String.eqb (ID (sm_auth m)) "" = false) as Hid by (apply String.eqb_neq, (mo_clean key m Hm)).
    rewrite Hid in Ee. split.
    + by rewrite Ek.
    + by apply removeEntryLocked_ok, (shard_ok_mono t).
    + intros id. rewrite Ee. destruct (decide (id = ID (sm_auth m))) as [->|Hne].
      * rewrite lookup_insert_eq, lookup_delete_eq. split; [by intros []|].
        intros (m' & [= <-] & Hs). congruence.
      * rewrite lookup_insert_ne, lookup_delete_ne by done. apply Hmem.
    + intros id e. rewrite Ee. intros [_ He]%lookup_delete_Some. by eapply Hmeta.
Qed.

(** A shard outside the scope of an update that keeps the model set. *)
Lemma untouched_shard_in t now key k A sh m old :
  t ≤ now → A !! ID (sm_auth m) = Some old → supportedModelSet old = supportedModelSet m →
  shard_in t key k A sh → shard_in now key k (<[ID (sm_auth m) := m]> A) sh.
Proof.
  intros Ht Ho Hs [Hk Hok Hmem Hmeta]. split; [done|by apply (shard_ok_mono t)| |done].
  intros id. rewrite Hmem. destruct (decide (id = ID (sm_auth m))) as [->|Hne].
  - assert (supportsModel old k = supportsModel m k) as E by (unfold supportsModel; by rewrite Hs).
    rewrite lookup_insert_eq, Ho. split; intros (x & [= <-] & ?); eexists; (split; [done|]); congruence.
  - by rewrite lookup_insert_ne by done.
Qed.

Lemma remove_shard_in t key k A sh id :
  id ≠ "" → shard_in t key k A sh → shard_in t key k (delete id A) (removeEntryLocked sh id).
Proof.
  intros Hid [Hk Hok Hmem Hmeta]. destruct (remove_entries sh id) as [Ee Ek].
  rewrite (proj2 (String.eqb_neq _ _) Hid) in Ee. split.
  - by rewrite Ek.
  - by apply removeEntryLocked_ok.
  - intros i. rewrite Ee. destruct (decide (i = id)) as [->|Hne].
    + rewrite !lookup_delete_eq. split; [by intros []|by intros (?&?&?)].
    + rewrite !lookup_delete_ne by done. apply Hmem.
  - intros i e. rewrite Ee. intros [_ He]%lookup_delete_Some. by eapply Hmeta.
Qed.

Lemma promote_shard_in t now key k A sh :
  0 ≤ now → t ≤ now → shard_in t key k A sh → shard_in now key k A (promoteExpiredLocked sh now).
Proof.
  intros Hn Ht [Hk Hok Hmem Hmeta]. destruct (promoteExpired_entries t sh now Hok) as [Em Ee]. split.
  - by rewrite Em.
  - by apply (promoteExpiredLocked_ok t).
  - intros id. by rewrite Ee, fmap_is_Some.
  - intros id e. rewrite Ee, fmap_Some. intros (e0 & He & ->).
    destruct (settle_auth sh now e0) as [_ ->]. by eapply Hmeta.
Qed.

(** A credential that does not support the model stays out. *)
Lemma skip_shard_in t key k A sh m :
  A !! ID (sm_auth m) = None → supportsModel m k = false →
  shard_in t key k A sh → shard_in t key k (<[ID (sm_auth m) := m]> A) sh.
Proof.
  intros Ha Hs [Hk Hok Hmem Hmeta]. split; [done..| |done].
  intros id. rewrite Hmem. destruct (decide (id = ID (sm_auth m))) as [->|Hne].
  - rewrite lookup_insert_eq, Ha. split; [by intros (?&?&?)|]. intros (x & [= <-] & ?). congruence.
  - by rewrite lookup_insert_ne by done.
Qed.

Definition meta_map (l : list scheduledAuthMeta) : metas := fold_left (λ B m, <[ID (sm_auth m) := m]> B) l ∅.

Lemma meta_map_lookup l id m :
  NoDup ((λ m, ID (sm_auth m)) <$> l) → meta_map l !! id = Some m ↔ m ∈ l ∧ ID (sm_auth m) = id.
Proof.
  unfold meta_map. induction l as [|x l IH] using rev_ind; intros Hnd.
  { simpl. rewrite lookup_empty. split; [done|]. intros [Hm _]. by apply not_elem_of_nil in Hm. }
  rewrite fmap_app in Hnd. apply NoDup_app in Hnd as (Hnd & Hx & _). specialize (IH Hnd).
  rewrite fold_left_app, elem_of_app, list_elem_of_singleton. cbn [fold_left].
  destruct (decide (ID (sm_auth x) = id)) as [<-|Hne].
  - rewrite lookup_insert_eq. split; [intros [= ->]; auto|]. intros [[Hm| ->] E]; [|done].
    exfalso. apply (Hx (ID (sm_auth x))); [|by left]. rewrite <-E. apply list_elem_of_fmap; eauto.
  - rewrite lookup_insert_ne, IH by done. naive_solver.
Qed.

Lemma build_shard_fold l key k now :
  0 ≤ now → (∀ m, m ∈ l → meta_ok key m) → NoDup ((λ m, ID (sm_auth m)) <$> l) →
  shard_in now key k (meta_map l) (build_shard l k now).
Proof.
  intros Hn Hl Hnd. unfold build_shard, meta_map. induction l as [|m l IH] using rev_ind.
  { simpl. split; [done|by apply newShard_ok| |done]. intros id. simpl. rewrite !lookup_empty.
    split; [by intros []|by intros (?&?&?)]. }
  pose proof Hnd as Hnd'. rewrite fmap_app in Hnd. apply NoDup_app in Hnd as (Hnd & Hx & _).
  rewrite !fold_left_app. cbn [fold_left].
  assert (∀ x, x ∈ l → meta_ok key x) as Hl' by (intros; apply Hl, elem_of_app; by left).
  assert (meta_ok key m) as Hm by (apply Hl, elem_of_app; right; by left).
  specialize (IH Hl' Hnd). destruct (supportsModel m k) eqn:Es.
  - pose proof (sync_shard_in now now key k _ _ m Hn ltac:(lia) Hm IH) as Hs.
    unfold sync_shard in Hs. by rewrite Es in Hs.
  - apply skip_shard_in; [|done..]. apply eq_None_not_Some. intros [y Hy].
    apply (meta_map_lookup l) in Hy as [Hyl Ey]; [|done].
    apply (Hx (ID (sm_auth m))); [|by left]. rewrite <-Ey. apply list_elem_of_fmap; eauto.
Qed.

Lemma meta_map_to_list (A : metas) :
  (∀ id m, A !! id = Some m → ID (sm_auth m) = id) →
  NoDup ((λ m, ID (sm_auth m)) <$> (map_to_list A).*2) ∧ meta_map (map_to_list A).*2 = A.
Proof.
  intros Ha. assert (NoDup ((λ m, ID (sm_auth m)) <$> (map_to_list A).*2)) as Hnd.
  { rewrite <-list_fmap_compose. rewrite (list_fmap_ext _ fst); [apply NoDup_fst_map_to_list|].
    intros i [id m] Hi. simpl. apply Ha, elem_of_map_to_list. by eapply list_elem_of_lookup_2. }
  split; [done|]. apply map_eq. intros id. apply option_eq. intros m. rewrite meta_map_lookup by done.
  rewrite list_elem_of_fmap. split.
  - intros [([i x] & -> & Hx%elem_of_map_to_list) <-]. simpl. by rewrite (Ha _ _ Hx).
  - intros Hm. split; [|by apply Ha]. exists (id, m). split; [done|]. by apply elem_of_map_to_list.
Qed.

Lemma build_shard_in key k A now :
  0 ≤ now → (∀ id m, A !! id = Some m → meta_ok key m ∧ ID (sm_auth m) = id) →
  shard_in now key k A (build_shard (map_to_list A).*2 k now).
Proof.
  intros Hn Ha. destruct (meta_map_to_list A) as [Hnd Hm]; [naive_solver|].
  rewrite <-Hm at 1. apply build_shard_fold; [done| |done].
  intros m ([id x] & -> & Hx%elem_of_map_to_list)%list_elem_of_fmap. by apply Ha in Hx as [? _].
Qed.

(** A shard whose states are those of this instant. *)
Definition settled_at (now : time) (sh : modelScheduler) : Prop :=
  ∀ id e, entries sh !! id = Some e → state e = Ready ↔ is_free e (modelKey sh) now.

Lemma promote_settled t now sh : 0 ≤ now → t ≤ now → shard_ok t sh → settled_at now (promoteExpiredLocked sh now).
Proof.
  intros Hn Ht Hs id e He. destruct (promoteExpired_entries t sh now Hs) as [-> _].
  by apply (promoteExpired_ready t _ _ id).
Qed.

Lemma build_settled l k now : settled_at now (build_shard l k now).
Proof.
  unfold build_shard. assert (∀ sh, settled_at now sh →
    settled_at now (fold_left (λ sh m, if supportsModel m k then upsertEntryLocked sh m now else sh) l sh)) as Hf.
  { induction l as [|m l IH]; intros sh Hsh; simpl; [done|]. apply IH.
    destruct (supportsModel m k); [|done]. destruct (upsert_entries sh m now) as [Ee Ek].
    intros id e. rewrite Ee, Ek. intros [[<- <-]|[_ He]]%lookup_insert_Some; [|by eapply Hsh].
    unfold new_entry. simpl. apply classify_ready. }
  apply Hf. by intros id e He.
Qed.

(** ** Providers *)

Record provider_ok (t : time) (key : string) (p : providerScheduler) : Prop := {
  po_auths id m : auths p !! id = Some m → meta_ok key m ∧ ID (sm_auth m) = id;
  po_shards k sh : modelShards p !! k = Some sh → shard_in t key k (auths p) sh }.

Lemma newProvider_ok t key : provider_ok t key newProvider.
Proof. by split. Qed.

Lemma shard_in_mono t t' key k A sh : t ≤ t' → shard_in t key k A sh → shard_in t' key k A sh.
Proof. intros Ht []. split; try done. by apply (shard_ok_mono t). Qed.

Lemma provider_ok_mono t t' key p : t ≤ t' → provider_ok t key p → provider_ok t' key p.
Proof. intros Ht [Ha Hs]. split; [done|]. intros. by apply (shard_in_mono t), Hs. Qed.

Lemma sync_at_ok now key m p k :
  0 ≤ now → meta_ok key m → auths p !! ID (sm_auth m) = Some m →
  provider_ok now key p → provider_ok now key (sync_at m now p k) ∧ auths (sync_at m now p k) = auths p.
Proof.
  intros Hn Hm Hin [Ha Hs]. unfold sync_at. destruct (modelShards p !! k) as [sh|] eqn:Ek; [|done].
  split; [|done]. split; [done|]. intros k' sh' Hsh. simpl in *.
  apply lookup_insert_Some in Hsh as [[<- <-]|[_ Hsh]]; [|by apply Hs].
  rewrite <-(insert_id (auths p) _ m Hin). by apply (sync_shard_in now); [|lia|done|apply Hs].
Qed.

Lemma sync_targets_ok now key m targets : ∀ seen p,
  0 ≤ now → meta_ok key m → auths p !! ID (sm_auth m) = Some m → provider_ok now key p →
  provider_ok now key (sync_targets m now targets seen p) ∧ auths (sync_targets m now targets seen p) = auths p.
Proof.
  induction targets as [|x targets IH]; intros seen p Hn Hm Hin Hp; simpl; [done|].
  case_bool_decide; [by apply IH|].
  destruct (sync_at_ok now key m p (canonicalModelKey x)) as [Hp' Ea]; [done..|].
  destruct (IH (canonicalModelKey x :: seen) (sync_at m now p (canonicalModelKey x))) as [H1 H2];
    [done|done|by rewrite Ea|done|]. by rewrite H2, Ea.
Qed.

(** The update may leave shards out only if the model set stays. *)
Definition scope_ok (p : providerScheduler) (m : scheduledAuthMeta) (targets : list string) (scoped : bool) : Prop :=
  scoped = true ∨ targets = [] ∨
  ∃ old, auths p !! ID (sm_auth m) = Some old ∧ supportedModelSet old = supportedModelSet m.

Lemma upsertAuthForModels_ok t now key p m targets scoped :
  0 ≤ now → t ≤ now → meta_ok key m → scope_ok p m targets scoped → provider_ok t key p →
  provider_ok now key (upsertAuthForModelsLocked p m targets scoped now) ∧
  auths (upsertAuthForModelsLocked p m targets scoped now) = <[ID (sm_auth m) := m]> (auths p).
Proof.
  intros Hn Ht Hm Hscope [Ha Hs]. unfold upsertAuthForModelsLocked.
  assert (∀ id x, <[ID (sm_auth m) := m]> (auths p) !! id = Some x → meta_ok key x ∧ ID (sm_auth x) = id) as Ha'.
  { intros id x [[<- <-]|[_ Hx]]%lookup_insert_Some; [done|by apply Ha]. }
  destruct (scoped || bool_decide (targets = [])) eqn:Ec.
  - split; [|done]. split; [exact Ha'|]. intros k sh. simpl. rewrite map_lookup_imap.
    destruct (modelShards p !! k) as [sh0|] eqn:Ek; [|done]. intros [= <-]. by apply (sync_shard_in t), Hs.
  - apply orb_false_iff in Ec as [-> Ec]. apply bool_decide_eq_false in Ec.
    destruct Hscope as [?|[?|(old & Ho & Hms)]]; [done|done|]. unfold updateTargetShardsLocked.
    set (p1 := p <| auths := _ |>).
    assert (provider_ok now key p1) as Hp1.
    { split; [exact Ha'|]. intros k sh Hsh. by apply (untouched_shard_in t now key k (auths p) sh m old), Hs. }
    assert (auths p1 !! ID (sm_auth m) = Some m) as Hin by apply lookup_insert_eq.
    destruct (sync_at_ok now key m p1 "") as [Hp2 E2]; [done..|].
    destruct (sync_targets_ok now key m targets [] (sync_at m now p1 "")) as [Hp3 E3]; [done|done|by rewrite E2|done|].
    split; [done|]. by rewrite E3, E2.
Qed.

Lemma provider_remove_ok t key p id :
  id ≠ "" → provider_ok t key p →
  provider_ok t key (provider_removeAuthLocked p id) ∧ auths (provider_removeAuthLocked p id) = delete id (auths p).
Proof.
  intros Hid [Ha Hs]. unfold provider_removeAuthLocked. rewrite (proj2 (String.eqb_neq _ _) Hid).
  split; [|done]. split; simpl.
  - intros i m [_ Hm]%lookup_delete_Some. by apply Ha.
  - intros k sh. rewrite lookup_fmap, fmap_Some. intros (sh0 & Hsh & ->). by apply remove_shard_in, Hs.
Qed.

Lemma ensureModel_ok t now key p k :
  0 ≤ now → t ≤ now → provider_ok t key p →
  provider_ok now key (ensureModelLocked p k now) ∧ auths (ensureModelLocked p k now) = auths p ∧
  ∃ sh, modelShards (ensureModelLocked p k now) !! canonicalModelKey k = Some sh ∧ settled_at now sh.
Proof.
  intros Hn Ht Hp. pose proof (provider_ok_mono t now key p Ht Hp) as [Ha Hs]. unfold ensureModelLocked.
  destruct (modelShards p !! canonicalModelKey k) as [sh|] eqn:Ek; (split; [split|split]); simpl;
    try done.
  - intros k' sh' [[<- <-]|[_ Hsh]]%lookup_insert_Some; [|by apply Hs].
    apply (promote_shard_in now); [done|lia|by apply Hs].
  - eexists. split; [apply lookup_insert_eq|]. apply (promote_settled now); [done|lia|].
    by eapply si_ok, Hs.
  - intros k' sh' [[<- <-]|[_ Hsh]]%lookup_insert_Some; [|by apply Hs]. by apply build_shard_in.
  - eexists. split; [apply lookup_insert_eq|apply build_settled].
Qed.

(** ** The scheduler *)

Record scheduler_ok (t : time) (s : authScheduler) : Prop := {
  sc_provider key p : providers s !! key = Some p → key ≠ "" ∧ provider_ok t key p;
  sc_home key p id m : providers s !! key = Some p → auths p !! id = Some m → authProviders s !! id = Some key;
  sc_listed id key : authProviders s !! id = Some key →
    ∃ p m, providers s !! key = Some p ∧ auths p !! id = Some m }.

Lemma newAuthScheduler_ok t sel : scheduler_ok t (newAuthScheduler sel).
Proof. by split. Qed.

Lemma scheduler_ok_mono t t' s : t ≤ t' → scheduler_ok t s → scheduler_ok t' s.
Proof.
  intros Ht []. split; [|done|done]. intros key p Hp. destruct (sc_provider0 key p Hp).
  split; [done|]. by apply (provider_ok_mono t).
Qed.

(** A credential is under at most one provider. *)
Lemma one_home t s key key' p p' id m m' :
  scheduler_ok t s → providers s !! key = Some p → providers s !! key' = Some p' →
  auths p !! id = Some m → auths p' !! id = Some m' → key = key'.
Proof.
  intros Hs Hp Hp' Hm Hm'. pose proof (sc_home t s Hs _ _ _ _ Hp Hm). pose proof (sc_home t s Hs _ _ _ _ Hp' Hm').
  congruence.
Qed.

Lemma remove_ok t s id :
  id ≠ "" → scheduler_ok t s →
  scheduler_ok t (removeAuthFromProvidersLocked s id) ∧
  authProviders (removeAuthFromProvidersLocked s id) = delete id (authProviders s) ∧
  authGenerations (removeAuthFromProvidersLocked s id) = authGenerations s.
Proof.
  intros Hid Hs. unfold removeAuthFromProvidersLocked, provider_of.
  destruct (authProviders s !! id) as [key|] eqn:Eh; simpl.
  2:{ split_and!; [done| |done]. by rewrite delete_id. }
  destruct (sc_listed t s Hs id key Eh) as (p & m & Hp & Hm).
  destruct (sc_provider t s Hs key p Hp) as [Hkey Hpok].
  rewrite (proj2 (String.eqb_neq _ _) Hkey). split; [|done].
  destruct (provider_remove_ok t key p id Hid Hpok) as [Hr Er].
  split; simpl.
  - intros key' p'. destruct (decide (key' = key)) as [->|Hne].
    + rewrite lookup_alter_eq, Hp. by intros [= <-].
    + rewrite lookup_alter_ne by done. apply Hs.
  - intros key' p' i m'. destruct (decide (key' = key)) as [->|Hne].
    + rewrite lookup_alter_eq, Hp. intros [= <-]. rewrite Er.
      intros [Hi Hm']%lookup_delete_Some. rewrite lookup_delete_ne by done. by eapply sc_home.
    + rewrite lookup_alter_ne by done. intros Hp' Hm'. pose proof (sc_home t s Hs _ _ _ _ Hp' Hm') as E.
      rewrite lookup_delete_ne; [done|]. intros <-. congruence.
  - intros i key' [Hi Hk]%lookup_delete_Some. destruct (sc_listed t s Hs i key' Hk) as (p' & m' & Hp' & Hm').
    destruct (decide (key' = key)) as [->|Hne].
    + exists (provider_removeAuthLocked p id), m'. rewrite lookup_alter_eq, Hp, Er.
      rewrite Hp in Hp'. injection Hp' as <-. split; [done|]. by rewrite lookup_delete_ne.
    + exists p', m'. by rewrite lookup_alter_ne.
Qed.

(** A provider that changes its shards only. *)
Lemma update_provider_ok t s key f p :
  scheduler_ok t s → providers s !! key = Some p → provider_ok t key (f p) → auths (f p) = auths p →
  scheduler_ok t (update_provider s key f).
Proof.
  intros Hs Ep Hu Eu. split; simpl.
  - intros key' p'. destruct (decide (key' = key)) as [->|Hne'].
    + rewrite lookup_alter_eq, Ep. intros [= <-]. split; [|done]. by eapply sc_provider.
    + rewrite lookup_alter_ne by done. apply Hs.
  - intros key' p' i mi. destruct (decide (key' = key)) as [->|Hne'].
    + rewrite lookup_alter_eq, Ep. intros [= <-]. rewrite Eu. by eapply sc_home.
    + rewrite lookup_alter_ne by done. by eapply sc_home.
  - intros i key' Hi. destruct (sc_listed _ _ Hs i key' Hi) as (p' & mi & Hp' & Hmi).
    destruct (decide (key' = key)) as [->|Hne'].
    + rewrite Ep in Hp'. injection Hp' as <-.
      eexists _, mi. rewrite lookup_alter_eq, Ep. split; [done|]. by rewrite Eu.
    + exists p', mi. by rewrite lookup_alter_ne.
Qed.

(** *** Putting a credential under its provider *)

Definition target (s : authScheduler) (key : string) : providerScheduler := default newProvider (providers s !! key).

Definition place (s : authScheduler) (id key : string) (m : scheduledAuthMeta) (targets : list string)
    (scoped : bool) (now : time) : authScheduler :=
  install (ensureProviderLocked (leave_previous s id key) key) id key m targets scoped now.

Lemma leave_providers s id key key' :
  providers (leave_previous s id key) !! key' =
  if decide (key' = provider_of s id ∧ key' ≠ "" ∧ key' ≠ key)
  then (λ p, provider_removeAuthLocked p id) <$> providers s !! key' else providers s !! key'.
Proof.
  unfold leave_previous.
  destruct (String.eqb_spec (provider_of s id) "") as [E1|E1], (String.eqb_spec (provider_of s id) key) as [E2|E2]; simpl;
    repeat case_decide; try naive_solver.
  - destruct H0 as [-> _]. by rewrite lookup_alter_eq.
  - rewrite lookup_alter_ne; [done|]. naive_solver.
Qed.

Lemma place_providers s id key m targets scoped now key' :
  providers (place s id key m targets scoped now) !! key' =
  if decide (key' = key) then Some (upsertAuthForModelsLocked (target s key) m targets scoped now)
  else if decide (key' = provider_of s id ∧ key' ≠ "")
  then (λ p, provider_removeAuthLocked p id) <$> providers s !! key' else providers s !! key'.
Proof.
  unfold place, install, update_provider. simpl.
  assert (∀ k, providers (ensureProviderLocked (leave_previous s id key) key) !! k =
    if decide (k = key) then Some (target s key) else providers (leave_previous s id key) !! k) as He.
  { intros k. assert (providers (leave_previous s id key) !! key = providers s !! key) as El.
    { rewrite leave_providers. case_decide; [naive_solver|done]. }
    unfold ensureProviderLocked, target. rewrite El. case_decide as Ek.
    - subst k. destruct (providers s !! key) eqn:Ep; simpl; [by rewrite El|by rewrite lookup_insert_eq].
    - destruct (providers s !! key); simpl; [done|by rewrite lookup_insert_ne]. }
  destruct (decide (key' = key)) as [->|Hne].
  - rewrite lookup_alter_eq, He, decide_True by done. done.
  - rewrite lookup_alter_ne, He, decide_False, leave_providers by done. repeat case_decide; naive_solver.
Qed.

Lemma place_listed s id key m targets scoped now :
  authProviders (place s id key m targets scoped now) = <[id := key]> (authProviders s) ∧
  authGenerations (place s id key m targets scoped now) = authGenerations s.
Proof. unfold place, install, ensureProviderLocked, leave_previous. by repeat case_match. Qed.

Lemma target_ok t s key : scheduler_ok t s → provider_ok t key (target s key).
Proof.
  intros Hs. unfold target. destruct (providers s !! key) eqn:E; [by eapply sc_provider|apply newProvider_ok].
Qed.

Lemma place_ok t now s key m targets scoped :
  0 ≤ now → t ≤ now → key ≠ "" → meta_ok key m → scope_ok (target s key) m targets scoped → scheduler_ok t s →
  scheduler_ok now (place s (ID (sm_auth m)) key m targets scoped now).
Proof.
  intros Hn Ht Hkey Hm Hsc Hs. set (id := ID (sm_auth m)).
  assert (id ≠ "") as Hid by apply (mo_clean key m Hm).
  destruct (upsertAuthForModels_ok t now key (target s key) m targets scoped) as [Hu Eu]; [done..|by apply target_ok|].
  destruct (place_listed s id key m targets scoped now) as [El _].
  assert (∀ key' p, key' ≠ key → providers (place s id key m targets scoped now) !! key' = Some p →
    ∃ p0, providers s !! key' = Some p0 ∧ auths p = (if decide (key' = provider_of s id) then delete id (auths p0) else auths p0) ∧
          provider_ok now key' p) as Hother.
  { intros key' p Hne. rewrite place_providers, decide_False by done. intros Hp.
    case_decide as Ek.
    - apply fmap_Some in Hp as (p0 & Hp0 & ->). destruct (sc_provider t s Hs _ _ Hp0) as [_ Hok].
      destruct (provider_remove_ok t key' p0 id Hid Hok) as [Hr Er].
      exists p0. rewrite decide_True by naive_solver. split_and!; [done..|]. by apply (provider_ok_mono t).
    - destruct (sc_provider t s Hs _ _ Hp) as [Hk' Hok]. exists p. rewrite decide_False by naive_solver.
      split_and!; [done..|]. by apply (provider_ok_mono t). }
  split.
  - intros key' p Hp. destruct (decide (key' = key)) as [->|Hne].
    + rewrite place_providers, decide_True in Hp by done. by injection Hp as <-.
    + destruct (Hother _ _ Hne Hp) as (p0 & Hp0 & _ & Hok). split; [|done]. by eapply sc_provider.
  - intros key' p i mi Hp Hmi. rewrite El. destruct (decide (key' = key)) as [->|Hne].
    + rewrite place_providers, decide_True in Hp by done. injection Hp as <-. rewrite Eu in Hmi.
      apply lookup_insert_Some in Hmi as [[<- _]|[Hi Hmi]]; [by rewrite lookup_insert_eq|].
      rewrite lookup_insert_ne by done. unfold target in Hmi. destruct (providers s !! key) eqn:Ep; [|done].
      by eapply sc_home.
    + destruct (Hother _ _ Hne Hp) as (p0 & Hp0 & Ea & _). rewrite Ea in Hmi.
      assert (i ≠ id ∧ auths p0 !! i = Some mi) as [Hi Hm0].
      { case_decide as Ek; [by apply lookup_delete_Some in Hmi as [??]|]. split; [|done]. intros ->.
        pose proof (sc_home t s Hs _ _ _ _ Hp0 Hmi) as E. unfold provider_of in Ek. by rewrite E in Ek. }
      rewrite lookup_insert_ne by done. by eapply sc_home.
  - intros i key'. rewrite El. intros [[<- <-]|[Hi Hk]]%lookup_insert_Some.
    + exists (upsertAuthForModelsLocked (target s key) m targets scoped now), m.
      rewrite place_providers, decide_True by done. split; [done|]. by rewrite Eu, lookup_insert_eq.
    + destruct (sc_listed t s Hs i key' Hk) as (p & mi & Hp & Hmi).
      destruct (decide (key' = key)) as [->|Hne].
      * exists (upsertAuthForModelsLocked (target s key) m targets scoped now), mi.
        rewrite place_providers, decide_True by done. split; [done|].
        rewrite Eu, lookup_insert_ne by done. unfold target. by rewrite Hp.
      * destruct (decide (key' = provider_of s id ∧ key' ≠ "")) as [Hd|Hd].
        -- exists (provider_removeAuthLocked p id), mi. rewrite place_providers, decide_False, decide_True, Hp by done.
           split; [done|]. destruct (sc_provider t s Hs _ _ Hp) as [_ Hok].
           destruct (provider_remove_ok t key' p id Hid Hok) as [_ ->]. by rewrite lookup_delete_ne.
        -- exists p, mi. by rewrite place_providers, !decide_False.
Qed.

(** *** Every operation *)

Lemma set_generation_ok t s id g : scheduler_ok t s → scheduler_ok t (set_generation s id g).
Proof. by intros []. Qed.

Lemma tombstone_ok t s id e now : scheduler_ok t s → scheduler_ok t (recordRemovalTombstoneLocked s id e now).
Proof.
  intros Hs. unfold recordRemovalTombstoneLocked. destruct (String.eqb_spec id "") as [|Hid]; [done|].
  repeat case_match; try done; by apply remove_ok, set_generation_ok.
Qed.

Lemma removeAuthLocked_ok t s id now : scheduler_ok t s → scheduler_ok t (removeAuthLocked s id now).
Proof.
  intros Hs. unfold removeAuthLocked. destruct (String.eqb_spec id "") as [|Hid]; [done|].
  by apply remove_ok, set_generation_ok.
Qed.

Definition clean_auth (a : option Auth) : Prop := match a with Some a => clean (ID a) | None => True end.

Lemma full_scope p m : scope_ok p m [] true.
Proof. by left. Qed.

Lemma lifecycle_ok t now s reg a :
  0 ≤ now → t ≤ now → clean_auth a → scheduler_ok t s → scheduler_ok now (upsertAuthLifecycleLocked s reg a now).
Proof.
  intros Hn Ht Ha Hs. pose proof (scheduler_ok_mono t now s Ht Hs) as Hs'.
  destruct a as [a|]; [|done]. unfold upsertAuthLifecycleLocked. destruct Ha as [Htr Hne]. rewrite Htr.
  rewrite (proj2 (String.eqb_neq _ _) Hne). case_match; [done|].
  destruct (String.eqb_spec (executorKeyFromAuth (Some a)) "") as [E|E]; simpl.
  { by apply remove_ok, set_generation_ok. }
  destruct (disabled a); [by apply remove_ok, set_generation_ok|].
  apply (place_ok now now _ _ (buildScheduledAuthMetaWithModelSet a _ _));
    [done|lia|done|by apply build_meta_ok|apply full_scope|by apply set_generation_ok].
Qed.

(** The state an in-flight result has left, kept through a rebuild. *)
Definition metas_ok (M : gmap string scheduledAuthMeta) : Prop :=
  ∀ id m, M !! id = Some m → clean (ID (sm_auth m)) ∧ ID (sm_auth m) = id.

Lemma rebuild_step_ok t now s reg a M :
  0 ≤ now → t ≤ now → clean_auth a → metas_ok M → scheduler_ok t s →
  scheduler_ok now (upsertAuthRebuildLocked s reg a M now).
Proof.
  intros Hn Ht Ha HM Hs. pose proof (scheduler_ok_mono t now s Ht Hs) as Hs'.
  destruct a as [a|]; [|done]. unfold upsertAuthRebuildLocked. destruct Ha as [Htr Hne]. rewrite Htr.
  rewrite (proj2 (String.eqb_neq _ _) Hne). destruct (match authGenerations s !! ID a with Some g => _ | None => _ end); [done|].
  assert (∀ b g, ID b = ID a → clean (ID b) →
    scheduler_ok now (if String.eqb (executorKeyFromAuth (Some b)) "" || disabled b then removeAuthFromProvidersLocked s (ID a)
      else place (set_generation s (ID a) g) (ID a) (executorKeyFromAuth (Some b))
             (buildScheduledAuthMetaWithModelSet b (supportedModelSetForAuth reg (ID b)) (ClientRegistrationEpoch reg (ID a)))
             [] true now)) as Hput.
  { intros b g Eb Hb. destruct (String.eqb_spec (executorKeyFromAuth (Some b)) "") as [E|E]; simpl; [by apply remove_ok|].
    destruct (disabled b); [by apply remove_ok|]. rewrite <-Eb.
    apply (place_ok now now _ _ (buildScheduledAuthMetaWithModelSet b _ _));
      [done|lia|done|by apply build_meta_ok|apply full_scope|by apply set_generation_ok]. }
  destruct (match authGenerations s !! ID a with Some g => _ | None => _ end).
  - destruct (M !! ID a) as [m|] eqn:Em; [|done]. destruct (HM _ _ Em) as [Hm1 Hm2].
    destruct (disabled (sm_auth m)) eqn:Ed; [done|]. by apply Hput.
  - by apply Hput.
Qed.

Lemma existing_metas_ok ps : (∀ p, p ∈ ps → ∃ t key, provider_ok t key p) → metas_ok (existing_metas ps).
Proof.
  unfold existing_metas. intros Hps. induction ps as [|p ps IH] using rev_ind; [done|].
  rewrite fold_left_app. simpl. intros id m [Hm|[_ Hm]]%lookup_union_Some_raw.
  - destruct (Hps p) as (t & key & Hp); [apply elem_of_app; right; by left|].
    destruct (po_auths t key p Hp id m Hm) as [Hok E]. split; [apply Hok|done].
  - apply (IH (λ p Hp, Hps p (proj2 (elem_of_app _ _ _) (or_introl Hp))) id m Hm).
Qed.

Lemma rebuild_ok' t now s reg l :
  0 ≤ now → t ≤ now → Forall clean_auth l → scheduler_ok t s → scheduler_ok now (rebuild s reg l now).
Proof.
  intros Hn Ht Hl Hs. unfold rebuild. set (M := existing_metas _).
  assert (metas_ok M) as HM.
  { apply existing_metas_ok. intros p ([key x] & -> & Hx%elem_of_map_to_list)%list_elem_of_fmap.
    exists t, key. by apply (sc_provider t s Hs) in Hx as [_ ?]. }
  assert (∀ s0, scheduler_ok now s0 → scheduler_ok now (fold_left (λ s a, upsertAuthRebuildLocked s reg a M now) l s0)) as Hf.
  { clear Hs. induction Hl as [|a l Ha Hl IH]; intros s0 Hs0; simpl; [done|]. apply IH.
    by apply (rebuild_step_ok now); [|lia|..]. }
  apply Hf. by split.
Qed.

Lemma result_ok t now s reg a targets scoped :
  0 ≤ now → t ≤ now → clean_auth a → scheduler_ok t s →
  scheduler_ok now (upsertAuthResultLocked s reg a targets scoped now).
Proof.
  intros Hn Ht Ha Hs. pose proof (scheduler_ok_mono t now s Ht Hs) as Hs'.
  destruct a as [a|]; [|done]. unfold upsertAuthResultLocked. destruct Ha as [Htr Hne]. rewrite Htr.
  rewrite (proj2 (String.eqb_neq _ _) Hne). set (key := executorKeyFromAuth (Some a)). case_match.
  { destruct (String.eqb key ""); [done|]. destruct (providers s !! key) as [p|] eqn:Ep; [|done].
    destruct (auths p !! ID a) as [m|] eqn:Em; [|done].
    destruct (sc_provider _ _ Hs' _ _ Ep) as [Hk Hp]. destruct (po_auths _ _ _ Hp _ _ Em) as [Hm Eid].
    destruct (upsertAuthForModels_ok now now key p m targets scoped) as [Hu Eu]; try done; try lia.
    { right. right. exists m. by rewrite Eid. }
    rewrite Eid, insert_id in Eu by done. by apply (update_provider_ok now _ _ _ p). }
  destruct (String.eqb_spec key "") as [E|E]; cbn [orb].
  { by apply remove_ok, set_generation_ok. }
  destruct (disabled a); [by apply remove_ok, set_generation_ok|].
  set (s1 := set_generation s (ID a) _).
  set (existing := providers (ensureProviderLocked (leave_previous s1 (ID a) key) key) !! key ≫= _).
  assert (existing = auths (target s1 key) !! ID a) as Eex.
  { unfold existing. pose proof (place_providers s1 (ID a) key) as _.
    assert (providers (leave_previous s1 (ID a) key) !! key = providers s1 !! key) as El.
    { rewrite leave_providers. case_decide; [naive_solver|done]. }
    unfold ensureProviderLocked, target. rewrite El.
    destruct (providers s1 !! key) eqn:Ep; simpl; [by rewrite El|by rewrite lookup_insert_eq]. }
  set (cached := match existing with Some m => _ | None => None end).
  destruct (negb (bool_decide (is_Some cached))) eqn:Ec; cbn [orb]; [|destruct (_ || _ || _)].
  1,2: apply (place_ok now now s1 key (buildScheduledAuthMetaWithModelSet a _ _));
    [done|lia|done|by apply build_meta_ok|apply full_scope|by apply set_generation_ok].
  apply (place_ok now now s1 key (buildScheduledAuthMetaWithModelSet a _ _));
    [done|lia|done|by apply build_meta_ok| |by apply set_generation_ok].
  right. right. apply negb_false_iff, bool_decide_eq_true in Ec as [ms Ems].
  destruct existing as [m|]; [|done]. exists m. split; [by symmetry|].
  cbn [supportedModelSet buildScheduledAuthMetaWithModelSet]. rewrite Ems.
  unfold cached in Ems. by destruct (registryEpoch m =? _).
Qed.

(** *** Selections *)

Lemma set_pin_ok t s key k pin : scheduler_ok t s → scheduler_ok t (set_pin s key k pin).
Proof. by intros []. Qed.

Lemma ensure_spec t now s key k p :
  0 ≤ now → t ≤ now → scheduler_ok t s → providers s !! key = Some p →
  scheduler_ok now (ensure s key k now) ∧ authProviders (ensure s key k now) = authProviders s ∧
  ∃ p' sh, providers (ensure s key k now) !! key = Some p' ∧ auths p' = auths p ∧
    shard_at (ensure s key k now) key k = Some sh ∧ shard_in now key (canonicalModelKey k) (auths p) sh ∧
    settled_at now sh.
Proof.
  intros Hn Ht Hs Ep. unfold ensure. rewrite Ep.
  destruct (sc_provider t s Hs key p Ep) as [_ Hp].
  destruct (ensureModel_ok t now key p k Hn Ht Hp) as (Hok & Ea & (sh & Hsh & Hset)).
  assert (providers (update_provider s key (λ p, ensureModelLocked p k now)) !! key = Some (ensureModelLocked p k now)) as El.
  { simpl. by rewrite lookup_alter_eq, Ep. }
  split; [|split; [done|]].
  - apply set_pin_ok, (update_provider_ok now _ _ _ p); try done. by apply (scheduler_ok_mono t).
  - exists (ensureModelLocked p k now), sh. split_and!; [done..| | |done].
    + unfold shard_at. cbn [set_pin providers]. simpl in El. simpl. by rewrite El.
    + rewrite <-Ea. by apply Hok.
Qed.

(** A pick that keeps the entries of its shard. *)
Definition pick_keeps (t : time) (sh : modelScheduler) (r : option Auth * modelScheduler * quotaDrainPin) : Prop :=
  modelKey r.1.2 = modelKey sh ∧ shard_ok t r.1.2 ∧
  (∀ id, is_Some (entries r.1.2 !! id) ↔ is_Some (entries sh !! id)) ∧
  (∀ id e, entries r.1.2 !! id = Some e → ∃ e0, entries sh !! id = Some e0 ∧ e_meta e = e_meta e0).

Lemma pick_keeps_in t t' key k A sh r : shard_in t' key k A sh → pick_keeps t sh r → shard_in t key k A r.1.2.
Proof.
  intros [Hk Hok Hmem Hmeta] (Hm & Hok' & Hs & He). split; [congruence|done| |].
  - intros id. by rewrite Hs.
  - intros id e (e0 & He0 & ->)%He. by eapply Hmeta.
Qed.

Lemma pickReady_keeps t sh prefer st now at_ keep pin :
  0 ≤ now → t ≤ now → shard_ok t sh → keep_ok st keep →
  pick_keeps now sh (pickReadyLocked sh prefer st now at_ keep pin).
Proof.
  intros Hn Ht Hok Hkeep. pose proof (pickReady_spec t sh prefer st now at_ keep pin Hn Ht Hok Hkeep) as [Hs _].
  destruct (promoteExpired_entries t sh now Hok) as [Em Ee].
  assert (entries (pickReadyLocked sh prefer st now at_ keep pin).1.2 = entries (promoteExpiredLocked sh now) ∧
          modelKey (pickReadyLocked sh prefer st now at_ keep pin).1.2 = modelKey (promoteExpiredLocked sh now)) as [E1 E2].
  { unfold pickReadyLocked. destruct (highestSelectablePriorityLocked _ _ _ _ _) as [p|]; [|done].
    unfold pickReadyAtPriorityLocked. destruct (readyByPriority _ !! p); [|done].
    by destruct (pick_view _ _ _ _ _ _) as [[? ?] ?]. }
  split_and!; [congruence|done| |].
  - intros id. by rewrite E1, Ee, fmap_is_Some.
  - intros id e. rewrite E1, Ee, fmap_Some. intros (e0 & He0 & ->). exists e0.
    split; [done|]. by destruct (settle_auth sh now e0).
Qed.

Lemma pickAtPriority_keeps t sh prefer p st at_ keep pin :
  shard_ok t sh → pick_keeps t sh (pickReadyAtPriorityLocked sh prefer p st at_ keep pin).
Proof.
  intros Hok. pose proof Hok as [Hk Hv Hti]. destruct (readyByPriority sh !! p) as [b|] eqn:Eb.
  - destruct (pickReadyAtPriority_spec sh prefer p st at_ keep pin b Hk Hv Eb) as [(E1 & E2 & Hv') _].
    split_and!; [done| | |].
    + split; [|done|]; intros id e; rewrite E1; [apply Hk|rewrite E2; apply Hti].
    + intros id. by rewrite E1.
    + intros id e. rewrite E1. eauto.
  - unfold pickReadyAtPriorityLocked. rewrite Eb. split_and!; [done..|]. simpl. eauto.
Qed.

Lemma pick_in_ok t t' s key k pick :
  t' ≤ t → scheduler_ok t' s → (∀ sh pin, shard_at s key k = Some sh → pick_keeps t sh (pick sh pin)) →
  scheduler_ok t (pick_in s key k pick).2 ∧
  authProviders (pick_in s key k pick).2 = authProviders s ∧
  match shard_at s key k with
  | Some sh => (pick_in s key k pick).1 = (pick sh (pin_of s key (canonicalModelKey k))).1.1 ∧
               shard_at (pick_in s key k pick).2 key k = Some (pick sh (pin_of s key (canonicalModelKey k))).1.2
  | None => pick_in s key k pick = (None, s)
  end.
Proof.
  intros Ht Hs Hpick. unfold pick_in. destruct (shard_at s key k) as [sh|] eqn:Esh.
  2:{ split_and!; [by apply (scheduler_ok_mono t')|done..]. }
  specialize (Hpick sh (pin_of s key (canonicalModelKey k)) eq_refl).
  destruct (pick sh _) as [[picked sh'] pin']. simpl in *.
  unfold shard_at in Esh. apply bind_Some in Esh as (p & Ep & Esh).
  destruct (sc_provider t' s Hs key p Ep) as [_ Hp]. split; [|split; [done|split; [done|]]].
  - apply set_pin_ok, (update_provider_ok t _ _ _ p); try done; [by apply (scheduler_ok_mono t')|].
    destruct (provider_ok_mono t' t key p Ht Hp) as [Ha Hsh]. split; [done|]. simpl.
    intros k' sh0 [[<- <-]|[_ Hsh0]]%lookup_insert_Some; [|by apply Hsh].
    apply (pick_keeps_in t t' _ _ _ sh (picked, sh', pin')); [|done]. by apply Hp.
  - unfold shard_at. simpl. rewrite lookup_alter_eq, Ep. simpl. by rewrite lookup_insert_eq.
Qed.
End shards.
