(* ===== verification/Routing.v ===== *)
(** * What the scheduler promises

    The properties of the selections and of the lifecycle of credentials, on top
    of [SchedulerInvariant]. *)
From Stdlib Require Import ZArith Lia String Bool Sorted.
From stdpp Require Import prelude gmap strings.
From S2P Require Import Prelude GoStd AuthTypes Weight Availability Smooth Capacity Errors Rotation Shard Unavailable Scheduler SchedulerInvariant.
Local Open Scope string_scope.
Local Open Scope list_scope.
Local Open Scope Z_scope.

Section routing.
Context `{GoHost}.

Lemma predicate_iff el tried pinned w e :
  scheduledAuthPredicate el tried pinned w e = true ↔
  allows el (Some (e_auth e)) = true ∧ (w = true → 0 < weight (e_meta e)) ∧
  (pinned ≠ "" → ID (e_auth e) = pinned) ∧ ID (e_auth e) ∉ tried.
Proof.
  unfold scheduledAuthPredicate. destruct (allows el _); simpl; [|naive_solver].
  destruct w; simpl.
  - destruct (Z.leb_spec (weight (e_meta e)) 0); [split; [done|]; intros (_ & Hw & _); specialize (Hw eq_refl); lia|].
    destruct (String.eqb_spec pinned ""), (String.eqb_spec (ID (e_auth e)) pinned); simpl;
      rewrite ?negb_true_iff, ?bool_decide_eq_false; naive_solver.
  - destruct (String.eqb_spec pinned ""), (String.eqb_spec (ID (e_auth e)) pinned); simpl;
      rewrite ?negb_true_iff, ?bool_decide_eq_false; naive_solver.
Qed.

Lemma predicate_weight el tried pinned st e :
  scheduledAuthPredicate el tried pinned (is_weighted st) e = true → weight_ok st e.
Proof.
  rewrite predicate_iff. intros (_ & Hw & _) ->. by apply Hw.
Qed.

Lemma predicate_keep_ok el tried pinned st :
  keep_ok st (scheduledAuthPredicate el tried pinned (is_weighted st)).
Proof.
  split; [|apply predicate_weight]. intros e e' Ea Em. unfold scheduledAuthPredicate. by rewrite Ea, Em.
Qed.

(** ** The credentials a provider can offer for a model

    [offer s key k st now at_ keep a]: some credential [a] the provider [key]
    holds supports model [k], is free now and passes the test. *)
Definition spent_ok (st : schedulerStrategy) (k : string) (at_ : time) (a : Auth) : Prop :=
  st = schedulerStrategyQuotaDrain → quotaCapacityExhausted (Some a) k at_ = false.

Record offer (sh : modelScheduler) (st : schedulerStrategy) (now at_ : time) (keep : scheduledAuth → bool)
    (e : scheduledAuth) : Prop := {
  of_entry : entries sh !! ID (e_auth e) = Some e;
  of_free : is_blocked (isAuthBlockedForModel (Some (e_auth e)) (modelKey sh) now) = false;
  of_keep : keep e = true;
  of_quota : spent_ok st (modelKey sh) at_ (e_auth e) }.

Lemma offer_candidate sh st now at_ keep e :
  offer sh st now at_ keep e ↔ pick_candidate sh st now at_ keep e.
Proof.
  unfold pick_candidate, selectable, quotaUsable, is_free. split.
  - intros [? ? Hk Hq]. split_and!; [done..|]. rewrite Hk. simpl. case_bool_decide; [|done].
    by rewrite Hq.
  - intros (? & ? & Hs). apply andb_true_iff in Hs as [Hk Hq]. split; [done..|].
    intros ->. rewrite bool_decide_eq_true_2 in Hq by done. by apply negb_true_iff.
Qed.

(** *** One provider *)

Lemma pick_or_error_spec t s key k provider model prefer st keep now at_ p :
  0 ≤ now → t ≤ now → scheduler_ok t s → providers s !! key = Some p →
  (∀ e, keep e = true → weight_ok st e) → is_Some (modelShards p !! canonicalModelKey k) →
  keep_ok st keep →
  let r := pick_or_error s key k provider model prefer st keep now at_ in
  scheduler_ok now r.2 ∧ authProviders r.2 = authProviders s ∧
  ∃ sh, shard_at r.2 key k = Some sh ∧ shard_in now key (canonicalModelKey k) (auths p) sh ∧
    match r.1 with
    | inl (a, key') => key' = key ∧ ∃ e, e_auth e = a ∧ offer sh st now at_ keep e ∧
                                         best_tier prefer (offer sh st now at_ keep) e
    | inr err => (∀ e, ¬ offer sh st now at_ keep e) ∧
        ((is_quota st = true → now ≤ at_) → ∃ ref, (ref = now ∨ is_quota st = true ∧ ref = at_) ∧
          error_sound (modelKey sh) keep (is_quota st) (entry_list sh) ref err)
    end.
Proof.
  intros Hn Ht Hs Ep Hw [sh0 Esh0] Hkeep. unfold pick_or_error.
  set (pick := λ shard pin, pickReadyLocked shard prefer st now at_ keep pin).
  destruct (sc_provider t s Hs key p Ep) as [_ Hp].
  pose proof (po_shards t key p Hp _ _ Esh0) as Hin0. pose proof (si_ok t key _ _ _ Hin0) as Hok0.
  assert (shard_at s key k = Some sh0) as Esh by (unfold shard_at; by rewrite Ep).
  destruct (pick_in_ok now t s key k pick Ht Hs) as (Hs' & El & Hpi).
  { intros sh pin E. rewrite Esh in E. injection E as <-. exact (pickReady_keeps t sh0 prefer st now at_ keep pin Hn Ht Hok0 Hkeep). }
  rewrite Esh in Hpi. destruct Hpi as [E1 E2].
  set (pin := pin_of s key (canonicalModelKey k)) in *.
  pose proof (pickReady_final t sh0 prefer st now at_ keep pin Hn Ht Hok0 Hw) as ((_ & Em & Hok') & Hready & Hpick).
  pose proof (pick_keeps_in now t _ _ _ sh0 (pick sh0 pin) Hin0 (pickReady_keeps t sh0 prefer st now at_ keep pin Hn Ht Hok0 Hkeep)) as Hin'.
  fold (pick sh0 pin) in Hpick, Hok', Em, Hready.
  destruct (pick_in s key k pick) as [picked s']. simpl in E1, E2, Hs', El. rewrite E1, E2.
  set (sh := (pick sh0 pin).1.2) in *. cbn zeta.
  destruct ((pick sh0 pin).1.1) as [a|]; simpl;
    (split; [done|split; [done|exists sh; split; [done|split; [done|]]]]).
  - split; [done|]. destruct Hpick as (e & Ea & Hc & Hb). exists e. split_and!; [done|by apply offer_candidate|].
    unfold best_tier in *. setoid_rewrite offer_candidate. done.
  - assert (∀ e, ¬ offer sh st now at_ keep e) as Hno by (intros e Ho%offer_candidate; by apply (Hpick e)).
    split; [done|]. intros Hat.
    assert (∀ t', now ≤ t' → ∀ e, e ∈ entry_list sh → timely (modelKey sh) t' e) as Hti.
    { intros t' Ht' e He. apply elem_of_entry_list in He; [|apply Hok']. apply (timely_mono _ now); [done|by eapply so_timely]. }
    assert (error_sound (modelKey sh) keep (is_quota st) (entry_list sh) now (unavailableErrorLocked sh keep provider model now)) as Hplain.
    { apply unavailable_error_sound; [by apply Hti|]. intros Hq e He Hk Hr. apply elem_of_entry_list in He; [|apply Hok'].
      apply (Hpick e). unfold pick_candidate, selectable. unfold is_quota in Hq. rewrite Hk, Hq.
      split_and!; [done| |done]. rewrite Em. by apply (Hready _ _ He). }
    destruct (is_quota st) eqn:Eq; [|exists now; split; [by left|exact Hplain]].
    unfold quotaDrainUnavailableErrorLocked, quotaDrainAvailabilitySummaryLocked. rewrite quota_closed.
    pose proof (quota_error_sound (modelKey sh) keep (entry_list sh) at_ model (providerForError provider) (Hti at_ (Hat eq_refl))) as Hquota.
    destruct (quota_closed_form _ _ _ _) as [[tot un] ear]. destruct (_ || _ || _) eqn:Eb; [exists now; split; [by left|exact Hplain]|].
    exists at_. split; [by right|]. apply orb_false_iff in Eb as [Eb E3]. apply orb_false_iff in Eb as [E1' E2'].
    apply negb_false_iff in E2'. unfold IsZero in E3. apply Z.eqb_neq in E1', E3. apply Z.eqb_eq in E2'. by apply Hquota.
Qed.

(** What a selection from one provider returns, on the state it leaves. *)
Definition single_outcome (s' : authScheduler) (p : providerScheduler) (key k : string) (prefer : bool)
    (st : schedulerStrategy) (now at_ : time) (keep : scheduledAuth → bool) (res : result) : Prop :=
  ∃ sh, shard_at s' key k = Some sh ∧ shard_in now key (canonicalModelKey k) (auths p) sh ∧
    match res with
    | inl (a, key') => key' = key ∧ ∃ e, e_auth e = a ∧ offer sh st now at_ keep e ∧
                                         best_tier prefer (offer sh st now at_ keep) e
    | inr err => (∀ e, ¬ offer sh st now at_ keep e) ∧
        ((is_quota st = true → now ≤ at_) → ∃ ref, (ref = now ∨ is_quota st = true ∧ ref = at_) ∧
          error_sound (modelKey sh) keep (is_quota st) (entry_list sh) ref err)
    end.

Lemma ensured_pick t s key k provider model prefer st el tried pinned now at_ p :
  0 ≤ now → t ≤ now → scheduler_ok t s → providers s !! key = Some p →
  let keep := scheduledAuthPredicate el tried pinned (is_weighted st) in
  let r := pick_or_error (ensure s key k now) key k provider model prefer st keep now at_ in
  scheduler_ok now r.2 ∧ authProviders r.2 = authProviders s ∧
  single_outcome r.2 p key k prefer st now at_ keep r.1.
Proof.
  intros Hn Ht Hs Ep keep r.
  destruct (ensure_spec t now s key k p Hn Ht Hs Ep) as (Hs1 & El & p1 & sh1 & Ep1 & Ea & Esh & _).
  assert (is_Some (modelShards p1 !! canonicalModelKey k)) as Hsome.
  { unfold shard_at in Esh. rewrite Ep1 in Esh. by exists sh1. }
  destruct (pick_or_error_spec now (ensure s key k now) key k provider model prefer st keep now at_ p1)
    as (Hs2 & El2 & Hres); [done|lia|done|done|apply predicate_weight|done|apply predicate_keep_ok|].
  fold r in Hs2, El2, Hres. split; [done|]. split; [congruence|]. unfold single_outcome. by rewrite <-Ea.
Qed.

(** C1: a selection from one provider implements the routing rule.  Without
    such a provider the answer is "not found".  Otherwise, with the shard of
    the model brought up to date, a credential that is handed out is one the
    provider holds for the model, free at that moment, allowed for the request,
    not tried before, the pinned one if one is pinned, of positive weight under
    weighted routing and with quota left under quota draining - and no better
    one exists (websocket credentials first where they are preferred, then the
    highest priority).  An error is returned only when no such credential
    exists; the wait it announces is never one before whose end a blocked
    credential would be free again, a terminal error means none ever will be by itself,
    and "not found" is said exactly when no credential passes the test.  Under
    quota draining a credential may also be passed over, though free, because its quota
    is exhausted; the wait of an error then covers the blocked ones, and it covers all of
    them, up to the quota resets, when the error is a cooldown (its time of selection being
    read after that of the update). *)
Theorem pickSingle_sound t s r provider model tried st now at_ :
  0 ≤ now → t ≤ now → scheduler_ok t s →
  let key := canonicalSchedulingProvider provider in
  let pinned := pinnedAuthIDFromMetadata (opts_metadata r) in
  let st' := effective s st in
  let keep := scheduledAuthPredicate (authSelectionEligibilityForRequest r) tried pinned (is_weighted st') in
  let out := pickSingleWithStrategy s r provider model tried st now at_ in
  scheduler_ok now out.2 ∧
  match providers s !! key with
  | None => out = (inr (ErrPlain err_not_found), s)
  | Some p => single_outcome out.2 p key (canonicalModelKey model)
      (ctx_downstream_websocket r && providerPrefersWebsocketTransport key && String.eqb pinned "")
      st' now at_ keep out.1
  end.
Proof.
  intros Hn Ht Hs. cbn zeta. unfold pickSingleWithStrategy.
  destruct (providers s !! canonicalSchedulingProvider provider) as [p|] eqn:Ep.
  - destruct (ensured_pick t s (canonicalSchedulingProvider provider) (canonicalModelKey model) provider model
      (ctx_downstream_websocket r && providerPrefersWebsocketTransport (canonicalSchedulingProvider provider)
       && String.eqb (pinnedAuthIDFromMetadata (opts_metadata r)) "") (effective s st)
      (authSelectionEligibilityForRequest r) tried (pinnedAuthIDFromMetadata (opts_metadata r)) now at_ p
      Hn Ht Hs Ep) as (H1 & _ & H2). done.
  - split; [|done]. by apply (scheduler_ok_mono t).
Qed.
End routing.
