(* ===== verification/Mixed.v ===== *)
(** * Selection across providers

    What [pickMixedWithStrategy] of [scheduler.go] returns: a credential of the
    best tier over all the providers asked for, or an error that is true of all
    of them. *)
From Stdlib Require Import ZArith Lia String Bool Sorted.
From stdpp Require Import prelude gmap strings.
From S2P Require Import Prelude GoStd AuthTypes Weight Availability Smooth Capacity Errors Rotation Shard Unavailable Scheduler SchedulerInvariant Routing.
Local Open Scope string_scope.
Local Open Scope list_scope.
Local Open Scope Z_scope.

(** ** The providers asked for *)

Lemma normalize_spec l :
  NoDup (normalizeProviderKeys l) ∧
  ∀ k, k ∈ normalizeProviderKeys l ↔ k ≠ "" ∧ ∃ p, p ∈ l ∧ canonicalSchedulingProvider p = k.
Proof.
  unfold normalizeProviderKeys.
  set (f := λ (out : list string) (provider : string), _).
  assert (NoDup (fold_left f l []) ∧
    ∀ k, k ∈ fold_left f l [] ↔ k ≠ "" ∧ ∃ p, p ∈ l ∧ canonicalSchedulingProvider p = k) as [H1 H2].
  { induction l as [|x l [IH1 IH2]] using rev_ind.
    { simpl. split; [constructor|]. intros k. split; [by intros ?%not_elem_of_nil|].
      intros (_ & p & Hp & _). by apply not_elem_of_nil in Hp. }
    rewrite fold_left_app. cbn [fold_left]. set (out := fold_left f l []) in *. unfold f.
    assert (∀ k, (∃ p, p ∈ l ++ [x] ∧ canonicalSchedulingProvider p = k) ↔
      (∃ p, p ∈ l ∧ canonicalSchedulingProvider p = k) ∨ canonicalSchedulingProvider x = k) as Hx.
    { intros k. setoid_rewrite elem_of_app. setoid_rewrite list_elem_of_singleton. naive_solver. }
    destruct (String.eqb_spec (canonicalSchedulingProvider x) "") as [E|E]; simpl.
    { split; [done|]. intros k. rewrite IH2, Hx. naive_solver. }
    case_bool_decide as Eo.
    { split; [done|]. intros k. rewrite IH2, Hx. apply IH2 in Eo as [_ Eo]. naive_solver. }
    split; [by constructor|]. intros k. rewrite elem_of_cons, IH2, Hx. naive_solver. }
  split; [by rewrite reverse_Permutation|]. intros k. by rewrite reverse_Permutation.
Qed.

(** The largest value of a partial function over a list, as a loop finds it. *)
Lemma fold_max {A} (f : A → option Z) (l : list A) :
  match fold_left (λ best x, match f x with
                             | None => best
                             | Some p => match best with None => Some p | Some b => if b <? p then Some p else best end
                             end) l None with
  | None => ∀ x, x ∈ l → f x = None
  | Some p => (∃ x, x ∈ l ∧ f x = Some p) ∧ ∀ x q, x ∈ l → f x = Some q → q ≤ p
  end.
Proof.
  induction l as [|x l IH] using rev_ind; [intros x Hx; by apply not_elem_of_nil in Hx|].
  rewrite fold_left_app. cbn [fold_left].
  assert (∀ y, y ∈ l ++ [x] ↔ y ∈ l ∨ y = x) as Hin by (intros; by rewrite elem_of_app, list_elem_of_singleton).
  destruct (fold_left _ l None) as [b|].
  - destruct IH as [(y & Hy & Ey) Hmax]. destruct (f x) as [q|] eqn:Eq; [destruct (Z.ltb_spec b q)|]; setoid_rewrite Hin.
    + split; [eauto|]. intros z r [Hz| ->] Er; [specialize (Hmax z r Hz Er); lia|]. rewrite Eq in Er. injection Er. lia.
    + split; [eauto|]. intros z r [Hz| ->] Er; [by eapply Hmax|]. rewrite Eq in Er. injection Er. lia.
    + split; [eauto|]. intros z r [Hz| ->] Er; [by eapply Hmax|congruence].
  - destruct (f x) as [q|] eqn:Eq; setoid_rewrite Hin; [|naive_solver].
    split; [eauto|]. intros z r [Hz| ->] Er; [by rewrite IH in Er|]. rewrite Eq in Er. injection Er. lia.
Qed.

Section mixed.
Context `{GoHost}.

(** ** Bringing the shards up to date *)

Lemma ensure_other s key k now key' :
  key' ≠ key → providers (ensure s key k now) !! key' = providers s !! key'.
Proof. intros Hne. unfold ensure. destruct (providers s !! key); [|done]. simpl. by rewrite lookup_alter_ne. Qed.

Lemma ensure_none s key k now : providers s !! key = None → ensure s key k now = s.
Proof. unfold ensure. by intros ->. Qed.

Lemma shard_at_provider s s' key k : providers s' !! key = providers s !! key → shard_at s' key k = shard_at s key k.
Proof. unfold shard_at. by intros ->. Qed.

Lemma ensure_existing s key k now sh :
  shard_at s key k = Some sh → shard_at (ensure s key k now) key k = Some (promoteExpiredLocked sh now).
Proof.
  unfold shard_at, ensure. intros (p & Ep & Esh)%bind_Some. rewrite Ep. simpl. rewrite lookup_alter_eq, Ep.
  simpl. unfold ensureModelLocked. rewrite Esh. simpl. by rewrite lookup_insert_eq.
Qed.

(** A provider that is up to date for model [k] at [now]. *)
Definition current_at (now : time) (s : authScheduler) (key k : string) (A : gmap string scheduledAuthMeta) : Prop :=
  ∃ sh, shard_at s key k = Some sh ∧ shard_in now key (canonicalModelKey k) A sh ∧ settled_at now sh.

Lemma ensure_all_spec l k now : ∀ t s,
  0 ≤ now → t ≤ now → NoDup l → scheduler_ok t s →
  scheduler_ok now (ensure_all s l k now) ∧
  (∀ key, key ∉ l → providers (ensure_all s l k now) !! key = providers s !! key) ∧
  (∀ key, providers s !! key = None → providers (ensure_all s l k now) !! key = None) ∧
  (∀ key p, key ∈ l → providers s !! key = Some p → current_at now (ensure_all s l k now) key k (auths p)) ∧
  (∀ key sh, key ∈ l → shard_at s key k = Some sh →
     shard_at (ensure_all s l k now) key k = Some (promoteExpiredLocked sh now)).
Proof.
  induction l as [|x l IH]; intros t s Hn Ht Hnd Hs.
  { simpl. split_and!; try done; [by apply (scheduler_ok_mono t)|..]; intros key y Hk; by apply not_elem_of_nil in Hk. }
  apply NoDup_cons in Hnd as [Hx Hnd]. simpl.
  assert (scheduler_ok now (ensure s x k now)) as Hs1.
  { destruct (providers s !! x) as [p|] eqn:Ep.
    - by apply (ensure_spec t now s x k p).
    - rewrite ensure_none by done. by apply (scheduler_ok_mono t). }
  destruct (IH now (ensure s x k now) Hn ltac:(lia) Hnd Hs1) as (H1 & H2 & H3 & H4 & H5). split_and!; [done|..].
  - intros key [Hkx Hkl]%not_elem_of_cons. rewrite H2 by done. by apply ensure_other.
  - intros key Hk. apply H3. destruct (decide (key = x)) as [->|Hne].
    + by rewrite ensure_none.
    + by rewrite ensure_other.
  - intros key p [->|Hk]%elem_of_cons Ep.
    + destruct (ensure_spec t now s x k p Hn Ht Hs Ep) as (_ & _ & p' & sh & Ep' & _ & Esh & Hin & Hset).
      exists sh. split; [|done]. by rewrite (shard_at_provider (ensure s x k now)) by auto.
    + apply H4; [done|]. rewrite ensure_other; [done|]. by intros ->.
  - intros key sh [->|Hk]%elem_of_cons Esh.
    + rewrite (shard_at_provider (ensure s x k now)) by auto. by apply ensure_existing.
    + apply H5; [done|]. rewrite (shard_at_provider s); [done|]. apply ensure_other. by intros ->.
Qed.

(** ** One step of the loops *)

Lemma pick_at_spec now s key k p st at_ keep :
  scheduler_ok now s → (∀ e, keep e = true → weight_ok st e) →
  let r := pick_in s key k (λ sh pin, pickReadyAtPriorityLocked sh false p st at_ keep pin) in
  scheduler_ok now r.2 ∧ (∀ key', key' ≠ key → shard_at r.2 key' k = shard_at s key' k) ∧
  match r.1 with
  | Some a => ∃ sh e, shard_at s key k = Some sh ∧ offered sh st at_ keep e ∧ entry_priority e = p ∧ e_auth e = a
  | None => ∀ sh e, shard_at s key k = Some sh → offered sh st at_ keep e → entry_priority e ≠ p
  end.
Proof.
  intros Hs Hw. set (pick := λ sh pin, pickReadyAtPriorityLocked sh false p st at_ keep pin).
  assert (∀ sh, shard_at s key k = Some sh → shard_ok now sh) as Hshards.
  { intros sh (q & Eq & Esh)%bind_Some. destruct (sc_provider now s Hs key q Eq) as [_ Hq].
    by eapply si_ok, (po_shards now key q Hq). }
  destruct (pick_in_ok now now s key k pick ltac:(lia) Hs) as (Hs' & _ & Hpi).
  { intros sh pin Esh. apply pickAtPriority_keeps. by apply Hshards. }
  cbn zeta. split; [done|]. split.
  { intros key' Hne. unfold pick_in. destruct (shard_at s key k); [|done].
    destruct (pick _ _) as [[? ?] ?]. unfold shard_at. simpl. by rewrite lookup_alter_ne. }
  destruct (shard_at s key k) as [sh|] eqn:Esh; [|by rewrite Hpi].
  destruct Hpi as [-> _]. pose proof (Hshards sh eq_refl) as [Hk Hv Hti]. unfold pick.
  destruct (readyByPriority sh !! p) as [b|] eqn:Eb.
  - destruct (pickReadyAtPriority_spec sh false p st at_ keep (pin_of s key (canonicalModelKey k)) b Hk Hv Eb) as [_ Hp].
    cbn [andb] in Hp. destruct (pickReadyAtPriorityLocked _ _ _ _ _ _ _).1.1 as [a|].
    + destruct Hp as (e & Ea & Hin & Hsel & _). apply (elem_of_all sh b p) in Hin as (He & Hr & Hpr); [|done..].
      by exists sh, e.
    + intros sh0 e [= <-] (He & Hr & Hsel) Hpr. apply (Hp e); [|done|].
      * by apply (elem_of_all sh b p).
      * apply Hw. unfold selectable in Hsel. by to_prop.
  - unfold pickReadyAtPriorityLocked. rewrite Eb. simpl. intros sh0 e [= <-] (He & Hr & _) <-.
    destruct (tier_of sh e Hk Hv He Hr). congruence.
Qed.

Lemma try_each_spec now k p st at_ keep l : ∀ s,
  scheduler_ok now s → NoDup l → (∀ e, keep e = true → weight_ok st e) →
  let r := try_each s l k p st at_ keep in
  scheduler_ok now r.2 ∧
  match r.1 with
  | Some (a, key) => key ∈ l ∧ ∃ sh e, shard_at s key k = Some sh ∧ offered sh st at_ keep e ∧
                                      entry_priority e = p ∧ e_auth e = a
  | None => ∀ key sh e, key ∈ l → shard_at s key k = Some sh → offered sh st at_ keep e → entry_priority e ≠ p
  end.
Proof.
  induction l as [|x l IH]; intros s Hs Hnd Hw; simpl.
  { split; [done|]. intros key sh e Hk. by apply not_elem_of_nil in Hk. }
  apply NoDup_cons in Hnd as [Hx Hnd].
  destruct (pick_at_spec now s x k p st at_ keep Hs Hw) as (Hs1 & Ho & Hp).
  destruct (pick_in _ _ _ _) as [[a|] s1]; simpl in *.
  - split; [done|]. split; [by left|done].
  - destruct (IH s1 Hs1 Hnd Hw) as [Hs2 Hr]. cbn zeta in *. split; [done|].
    destruct (try_each s1 l k p st at_ keep) as [[[a key]|] s2]; simpl in *.
    + destruct Hr as (Hk & sh & e & Esh & Hr). split; [by right|]. exists sh, e. split; [|done].
      rewrite <-Ho; [done|]. by intros ->.
    + intros key sh e [->|Hk]%elem_of_cons Esh; [by apply Hp|]. apply (Hr key); [done|].
      rewrite Ho; [done|]. by intros ->.
Qed.

(** ** The best tier *)

Section tier.
Context (now : time) (s : authScheduler) (l : list string) (k : string) (st : schedulerStrategy)
        (at_ : time) (keep : scheduledAuth → bool).
Context (Hs : scheduler_ok now s).

(** An entry some provider of [l] may pick. *)
Definition on_offer (key : string) (e : scheduledAuth) : Prop :=
  key ∈ l ∧ ∃ sh, shard_at s key k = Some sh ∧ offered sh st at_ keep e.

Lemma elem_of_shards_at sh : sh ∈ shards_at s l k ↔ ∃ key, key ∈ l ∧ shard_at s key k = Some sh.
Proof using Type. apply list_elem_of_omap. Qed.

Lemma shard_at_ok key sh : shard_at s key k = Some sh →
  ∃ p, providers s !! key = Some p ∧ shard_in now key (canonicalModelKey k) (auths p) sh.
Proof using Hs.
  intros (p & Ep & Esh)%bind_Some. exists p. split; [done|].
  destruct (sc_provider now s Hs key p Ep) as [_ Hp]. by apply (po_shards now key p Hp).
Qed.

Lemma shards_at_ok sh : sh ∈ shards_at s l k → keys_ok sh ∧ views_ok sh.
Proof using Hs.
  intros (key & _ & Esh)%elem_of_shards_at. destruct (shard_at_ok key sh Esh) as (p & _ & Hin).
  destruct (si_ok _ _ _ _ _ Hin) as []. done.
Qed.

Lemma best_priority_spec :
  match best_priority s l k st at_ keep with
  | None => ∀ key e, ¬ on_offer key e
  | Some p => (∃ key e, on_offer key e ∧ entry_priority e = p) ∧ ∀ key e, on_offer key e → entry_priority e ≤ p
  end.
Proof using Hs.
  unfold best_priority. pose proof (fold_max (λ sh, highestSelectablePriorityLocked sh false st at_ keep)
    (shards_at s l k)) as Hf.
  destruct (fold_left _ _ None) as [p|].
  - destruct Hf as [(sh & Hsh & Ep) Hmax]. split.
    + destruct (shards_at_ok sh Hsh) as [Hk Hv]. apply highest_some in Ep as [(? & _)|(_ & (e & He & Epr) & _)]; [done| |done..].
      apply elem_of_shards_at in Hsh as (key & Hkey & Esh). exists key, e. split; [|done]. split; [done|eauto].
    + intros key e' (Hkey & sh' & Esh & Ho').
      assert (sh' ∈ shards_at s l k) as Hsh' by (apply elem_of_shards_at; eauto).
      destruct (shards_at_ok sh' Hsh') as [Hk Hv].
      destruct (highestSelectablePriorityLocked sh' false st at_ keep) as [q|] eqn:Eq.
      * specialize (Hmax sh' q Hsh' Eq). apply highest_some in Eq as [(? & _)|(_ & _ & Hq)]; [done| |done..].
        specialize (Hq e' Ho'). lia.
      * by destruct (highest_none sh' Hk Hv st at_ keep false Eq e').
  - intros key e' (Hkey & sh' & Esh & Ho').
    assert (sh' ∈ shards_at s l k) as Hsh' by (apply elem_of_shards_at; eauto).
    destruct (shards_at_ok sh' Hsh') as [Hk Hv].
    by destruct (highest_none sh' Hk Hv st at_ keep false (Hf sh' Hsh') e').
Qed.
End tier.

(** ** The weighted pick *)

Lemma mixed_entries_spec now s l k p e :
  scheduler_ok now s →
  e ∈ mixed_entries s l k p ↔ ∃ key sh, key ∈ l ∧ shard_at s key k = Some sh ∧
    entries sh !! entry_id e = Some e ∧ state e = Ready ∧ entry_priority e = p.
Proof.
  intros Hs. unfold mixed_entries, sort_by_key. rewrite elem_of_sort_by, list_elem_of_In, in_concat.
  setoid_rewrite <-list_elem_of_In. split.
  - intros (x & (sh & -> & Hsh)%list_elem_of_fmap & He).
    destruct (shards_at_ok now s l k Hs sh Hsh) as [Hk Hv]. apply elem_of_shards_at in Hsh as (key & Hkey & Esh).
    destruct (readyByPriority sh !! p) as [b|] eqn:Eb; [|by apply not_elem_of_nil in He].
    apply (elem_of_all sh b p) in He; [|done..]. by exists key, sh.
  - intros (key & sh & Hkey & Esh & He & Hr & Hp).
    assert (sh ∈ shards_at s l k) as Hsh by (apply elem_of_shards_at; eauto).
    destruct (shards_at_ok now s l k Hs sh Hsh) as [Hk Hv]. destruct (tier_of sh e Hk Hv He Hr) as [b Eb].
    rewrite Hp in Eb. eexists. split; [apply list_elem_of_fmap; by exists sh|]. rewrite Eb.
    by apply (elem_of_all sh b p).
Qed.

Lemma pick_mixed_weighted_spec now s l k p keep cursorKey at_ :
  scheduler_ok now s → (∀ e, keep e = true → weight_ok schedulerStrategyWeightedRoundRobin e) →
  let on := on_offer s l k schedulerStrategyWeightedRoundRobin at_ keep in
  let r := pick_mixed_weighted s cursorKey (mixed_entries s l k p) keep in
  scheduler_ok now r.2 ∧
  match r.1 with
  | Some (a, key) => ∃ e, on key e ∧ entry_priority e = p ∧ e_auth e = a
  | None => ∀ key e, on key e → entry_priority e ≠ p
  end.
Proof.
  intros Hs Hw. cbn zeta. unfold pick_mixed_weighted, pickSmoothWeightedScheduled.
  set (st := prepare _ _). set (es := mixed_entries s l k p).
  pose proof (pickSmoothWeighted_member entry_id entry_weight keep es (current st)) as Hm.
  destruct (pickSmoothWeighted _ _ _ _ _) as [picked cur]. simpl in *. split; [by destruct Hs|].
  assert (∀ e, selectable (newShard "") schedulerStrategyWeightedRoundRobin at_ keep e = keep e) as Hsel.
  { intros e. unfold selectable. simpl. by rewrite andb_true_r. }
  destruct picked as [e|]; simpl.
  - apply list_elem_of_filter in Hm as [Hel He]. unfold eligible in Hel. to_prop.
    apply (mixed_entries_spec now) in He as (key & sh & Hkey & Esh & He & Hr & Hp); [|done].
    destruct (shard_at_ok now s k Hs key sh Esh) as (q & Eq & Hin). rewrite (mo_provider key _ (si_meta _ _ _ _ _ Hin _ _ He)).
    exists e. split; [|done]. split; [done|]. exists sh. split; [done|]. split_and!; [done..|].
    unfold selectable. simpl. by rewrite H1.
  - intros key e (Hkey & sh & Esh & He & Hr & Hse) Hp. unfold selectable in Hse. to_prop.
    assert (e ∈ es) as Hes by (apply (mixed_entries_spec now); [done|eauto 10]).
    apply (not_elem_of_nil e). rewrite <-Hm. apply list_elem_of_filter. split; [|done].
    unfold eligible. rewrite H0, andb_true_r. apply negb_true_iff, Z.leb_gt. by apply Hw.
Qed.

(** ** The slots *)

Lemma mixed_weight_pos now s k key p st at_ keep :
  scheduler_ok now s →
  match shard_at s key k with
  | Some sh => selectableCountAtPriorityLocked sh false p st at_ keep
  | None => O end ≠ O ↔
  ∃ sh e, shard_at s key k = Some sh ∧ offered sh st at_ keep e ∧ entry_priority e = p.
Proof.
  intros Hs. destruct (shard_at s key k) as [sh|] eqn:Esh; [|naive_solver].
  destruct (shard_at_ok now s k Hs key sh Esh) as (q & Eq & Hin).
  destruct (si_ok _ _ _ _ _ Hin) as [Hk Hv _].
  assert (selectableCountAtPriorityLocked sh false p st at_ keep =
    match readyByPriority sh !! p with
    | Some b => length (filter (λ e, selectable sh st at_ keep e = true) (view_entries sh (all b)))
    | None => O end) as ->.
  { unfold selectableCountAtPriorityLocked, readyCountAtPriorityLocked, selectable. simpl.
    destruct (readyByPriority sh !! p) as [b|]; [|by case_match].
    case_bool_decide; simpl; [done|]. f_equal. apply list_filter_iff. intros e. by rewrite andb_true_r. }
  transitivity (∃ e, offered sh st at_ keep e ∧ entry_priority e = p); [|naive_solver].
  destruct (readyByPriority sh !! p) as [b|] eqn:Eb.
  - split.
    + destruct (filter _ (view_entries sh (all b))) as [|e l] eqn:Ef; [done|]. intros _.
      assert (e ∈ filter (λ e, selectable sh st at_ keep e = true) (view_entries sh (all b))) as He by (rewrite Ef; by left).
      apply list_elem_of_filter in He as [Hsel He]. apply (elem_of_all sh b p) in He as (?&?&?); [|done..]. by exists e.
    + intros (e & (He & Hr & Hsel) & Hp) Hlen. apply length_zero_iff_nil in Hlen.
      apply (not_elem_of_nil e). rewrite <-Hlen. apply list_elem_of_filter. split; [done|].
      by apply (elem_of_all sh b p).
  - split; [done|]. intros (e & (He & Hr & _) & <-). destruct (tier_of sh e Hk Hv He Hr). congruence.
Qed.

(** The segments cut the slots, and every slot belongs to a provider. *)
Lemma segment_ends_nth ws : ∀ acc i, (i < length ws)%nat →
  nth i (segment_ends acc ws) O = (acc + sum_list (take (S i) ws))%nat.
Proof.
  induction ws as [|w ws IH]; intros acc [|i] Hi; simpl in *; try lia.
  rewrite IH by lia. simpl. lia.
Qed.

Lemma segment_starts_nth ws : ∀ acc i, (i < length ws)%nat →
  nth i (segment_starts acc ws) O = (acc + sum_list (take i ws))%nat.
Proof.
  induction ws as [|w ws IH]; intros acc [|i] Hi; simpl in *; try lia.
  rewrite IH by lia. simpl. lia.
Qed.

Lemma start_provider_spec ws slot :
  (slot < sum_list ws)%nat →
  ∃ i, start_provider ws slot = Some i ∧ (i < length ws)%nat ∧ nth i ws O ≠ O ∧
       (slot < sum_list (take (S i) ws))%nat.
Proof.
  intros Hslot. unfold start_provider. destruct (find_first _ _) as [i|] eqn:E.
  - apply find_first_Some in E as [Hi Hf]. exists i. apply list_elem_of_In, in_seq in Hi.
    to_prop. rewrite segment_ends_nth in H1 by lia. split_and!; [done|lia|done|lia].
  - exfalso. pose proof (proj1 (find_first_None _ _) E) as Hn.
    assert (∀ n, (n ≤ length ws)%nat → (sum_list (take n ws) ≤ slot)%nat) as Hall.
    { induction n as [|n IH]; intros Hl; [simpl; lia|].
      destruct (lookup_lt_is_Some_2 ws n ltac:(lia)) as [w Hw]. specialize (IH ltac:(lia)).
      assert (n ∈ seq 0 (length ws)) as Hin by (apply list_elem_of_In, in_seq; lia).
      specialize (Hn n Hin). cbn beta in Hn. rewrite segment_ends_nth in Hn by lia.
      apply andb_false_iff in Hn as [Hn|Hn].
      - apply negb_false_iff, Nat.eqb_eq in Hn. rewrite (nth_lookup_Some _ _ _ _ Hw) in Hn. subst w.
        rewrite (take_S_r _ _ _ Hw), sum_list_with_app. simpl. lia.
      - apply Nat.ltb_ge in Hn. lia. }
    specialize (Hall (length ws) ltac:(lia)). rewrite firstn_all in Hall. lia.
Qed.

Lemma offered_credential sh st at_ keep e :
  offered sh (if is_quota st then schedulerStrategyQuotaDrain else schedulerStrategyRoundRobin) at_ keep e ↔
  offered sh st at_ keep e.
Proof.
  unfold offered, selectable, is_quota. destruct (decide (st = schedulerStrategyQuotaDrain)) as [->|E]; [done|].
  by rewrite !(bool_decide_eq_false_2 (st = _)) by done.
Qed.

Lemma mixed_weights_nth s l k p st at_ keep i :
  (i < length l)%nat →
  nth i (mixed_weights s l k p st at_ keep) O =
  match shard_at s (nth i l "") k with
  | Some sh => selectableCountAtPriorityLocked sh false p st at_ keep
  | None => O end.
Proof.
  intros Hi. destruct (lookup_lt_is_Some_2 l i Hi) as [key Hkey]. unfold mixed_weights.
  rewrite (nth_lookup_Some l i _ key Hkey). apply nth_lookup_Some. by rewrite list_lookup_fmap, Hkey.
Qed.

Lemma pick_mixed_slots_spec now s l k p st at_ keep cursorKey :
  scheduler_ok now s →
  let on := on_offer s l k st at_ keep in
  let r := pick_mixed_slots s l cursorKey k p st at_ keep in
  scheduler_ok now r.2 ∧
  match r.1 with
  | Some (a, key) => ∃ e, on key e ∧ entry_priority e = p ∧ e_auth e = a
  | None => ∀ key e, on key e → entry_priority e ≠ p
  end.
Proof.
  intros Hs. cbn zeta. unfold pick_mixed_slots.
  set (ws := mixed_weights s l k p st at_ keep).
  assert (length ws = length l) as Hlen by (unfold ws, mixed_weights; by rewrite length_fmap).
  destruct (Nat.eqb_spec (sum_list ws) 0) as [E0|E0].
  { simpl. split; [done|]. intros key e (Hkey & sh & Esh & Ho) Hp.
    apply list_elem_of_lookup in Hkey as [i Hi]. pose proof (lookup_lt_Some _ _ _ Hi) as Hil.
    pose proof (mixed_weights_nth s l k p st at_ keep i Hil) as Hw. rewrite (nth_lookup_Some l i _ key Hi) in Hw.
    destruct (mixed_weight_pos now s k key p st at_ keep Hs) as [_ Hpos]. apply Hpos; [eauto|]. rewrite <-Hw.
    fold ws. assert (nth i ws O ≤ sum_list ws)%nat; [|lia]. clear -Hil Hlen. rewrite <-Hlen in Hil. clear Hlen.
    revert i Hil. induction ws as [|w ws IH]; intros [|i] Hi; simpl in *; try lia. specialize (IH i ltac:(lia)). lia. }
  set (slot := Z.to_nat _).
  assert (slot < sum_list ws)%nat as Hslot.
  { unfold slot. pose proof (Z.rem_bound_abs (default 0 (mixedCursors s !! cursorKey)) (Z.of_nat (sum_list ws)) ltac:(lia)). lia. }
  destruct (start_provider_spec ws slot Hslot) as (i & -> & Hi & Hwi & _). rewrite Hlen in Hi.
  destruct (length l) as [|n] eqn:En; [lia|]. cbn [seq fmap list_fmap mixed_loop].
  rewrite Nat.add_0_r, Nat.mod_small by lia. rewrite (proj2 (Nat.eqb_neq _ _) Hwi), Nat.eqb_refl.
  unfold ws in Hwi. rewrite mixed_weights_nth in Hwi by lia. apply (mixed_weight_pos now) in Hwi as (sh & e & Esh & Ho & Hp); [|done].
  set (cst := if is_quota st then _ else _).
  destruct (pick_at_spec now s (nth i l "") k p cst at_ keep Hs) as (Hs1 & _ & Hpick).
  { intros e' _. unfold cst. by destruct (is_quota st). }
  destruct (pick_in s _ _ _) as [[a|] s1]; simpl in *.
  - split; [by destruct Hs1|]. destruct Hpick as (sh' & e' & Esh' & Ho' & Hp' & Ea'). exists e'. split; [|done].
    split; [|exists sh'; split; [done|by apply offered_credential]].
    apply list_elem_of_In, nth_In. lia.
  - exfalso. apply (Hpick sh e); [done| |done]. by apply offered_credential.
Qed.

(** ** The error over all providers *)

Lemma sooner_assoc a b c : sooner (sooner a b) c = sooner a (sooner b c).
Proof using Type.
  unfold sooner, IsZero, Before.
  destruct (Z.eqb_spec a 0), (Z.eqb_spec b 0), (Z.eqb_spec c 0); subst; simpl;
    repeat (match goal with |- context [?x <? ?y] => destruct (Z.ltb_spec x y); simpl
            | |- context [?x =? ?y] => destruct (Z.eqb_spec x y); simpl end); lia.
Qed.

Lemma sooner_fold_app a b : fold_left sooner (a ++ b) 0 = sooner (fold_left sooner a 0) (fold_left sooner b 0).
Proof using Type.
  rewrite fold_left_app. generalize (fold_left sooner a 0). clear a. intros x.
  induction b as [|y b IH] using rev_ind; simpl; [by unfold sooner|].
  by rewrite !fold_left_app, IH; simpl; rewrite sooner_assoc.
Qed.

Lemma availability_app keep es es' :
  availabilitySummary_in keep (es ++ es') = combine_summary (availabilitySummary_in keep es) (availabilitySummary_in keep es').
Proof using Type.
  rewrite !availability_closed. unfold combine_summary, kept, count. cbn [total cooldownCount unauthorizedCount earliest].
  rewrite !filter_app, !length_app, fmap_app, sooner_fold_app. f_equal; lia.
Qed.

Lemma availability_concat keep (shs : list modelScheduler) :
  fold_left (λ acc sh, combine_summary acc (availabilitySummaryLocked sh keep)) shs (mkSummary 0 0 0 0) =
  availabilitySummary_in keep (concat (entry_list <$> shs)).
Proof using Type.
  induction shs as [|sh shs IH] using rev_ind; [done|].
  rewrite fold_left_app, fmap_app, concat_app, availability_app, <-IH. simpl. by rewrite app_nil_r.
Qed.

Lemma quota_concat k keep now (shs : list modelScheduler) :
  (∀ sh, sh ∈ shs → modelKey sh = k) →
  fold_left (λ acc sh, combine_quota acc (quotaDrainAvailabilitySummaryLocked sh keep now)) shs (0, 0, 0) =
  quota_closed_form k keep (concat (entry_list <$> shs)) now.
Proof using Type.
  induction shs as [|sh shs IH] using rev_ind; intros Hk; [done|].
  rewrite fold_left_app, fmap_app, concat_app, IH by (intros x Hx; apply Hk, elem_of_app; by left). simpl. rewrite app_nil_r.
  unfold quotaDrainAvailabilitySummaryLocked. rewrite quota_closed, Hk by (apply elem_of_app; right; by left).
  unfold combine_quota, quota_closed_form, kept, count. cbn [fst snd].
  rewrite !filter_app, !length_app, fmap_app, sooner_fold_app. f_equal; f_equal; lia.
Qed.

(** The entries of all the shards asked for. *)
Definition pool (s : authScheduler) (l : list string) (k : string) : list scheduledAuth :=
  concat (entry_list <$> shards_at s l k).

Lemma elem_of_pool now s l k e : scheduler_ok now s →
  e ∈ pool s l k ↔ ∃ key sh, key ∈ l ∧ shard_at s key k = Some sh ∧ entries sh !! entry_id e = Some e.
Proof.
  intros Hs. unfold pool. rewrite list_elem_of_In, in_concat. setoid_rewrite <-list_elem_of_In. split.
  - intros (x & (sh & -> & Hsh)%list_elem_of_fmap & He).
    destruct (shards_at_ok now s l k Hs sh Hsh) as [Hk _]. apply elem_of_shards_at in Hsh as (key & Hkey & Esh).
    apply elem_of_entry_list in He; [|done]. eauto.
  - intros (key & sh & Hkey & Esh & He). assert (sh ∈ shards_at s l k) as Hsh by (apply elem_of_shards_at; eauto).
    destruct (shards_at_ok now s l k Hs sh Hsh) as [Hk _].
    exists (entry_list sh). split; [by apply list_elem_of_fmap_2|]. by apply elem_of_entry_list.
Qed.

Lemma pool_facts now s l k keep :
  0 ≤ now → NoDup l → scheduler_ok now s →
  (∀ key p, key ∈ l → providers s !! key = Some p → current_at now s key k (auths p)) →
  let s1 := ensure_all s l k now in
  (∀ e, e ∈ pool s1 l k → timely (canonicalModelKey k) now e) ∧
  ((∀ key sh e, key ∈ l → shard_at s key k = Some sh → entries sh !! entry_id e = Some e → keep e = true → state e ≠ Ready) →
   (∀ e e', e_auth e = e_auth e' → e_meta e = e_meta e' → keep e = keep e') →
   ∀ e, e ∈ pool s1 l k → keep e = true → state e ≠ Ready).
Proof.
  intros Hn Hnd Hs Hcur.
  destruct (ensure_all_spec l k now now s Hn ltac:(lia) Hnd Hs) as (Hs1 & _ & Hnone & Hc1 & Hex).
  set (s1 := ensure_all s l k now) in *. cbn zeta.
  assert (∀ e, e ∈ pool s1 l k → ∃ key sh0, key ∈ l ∧ shard_at s key k = Some sh0 ∧
    shard_at s1 key k = Some (promoteExpiredLocked sh0 now) ∧
    entries (promoteExpiredLocked sh0 now) !! entry_id e = Some e) as Hpool.
  { intros e (key & sh & Hkey & Esh & He)%(elem_of_pool now); [|done].
    destruct (providers s !! key) as [p|] eqn:Ep.
    2:{ unfold shard_at in Esh. by rewrite (Hnone key Ep) in Esh. }
    destruct (Hcur key p Hkey Ep) as (sh0 & Esh0 & _). exists key, sh0.
    pose proof (Hex key sh0 Hkey Esh0) as E. rewrite E in Esh. injection Esh as <-. done. }
  split.
  - intros e (key & sh0 & Hkey & _ & Esh & He)%Hpool.
    destruct (shard_at_ok now s1 k Hs1 key _ Esh) as (p & _ & Hin). rewrite <-(si_key _ _ _ _ _ Hin).
    by eapply so_timely, He; apply Hin.
  - intros Hno Hext e (key & sh0 & Hkey & Esh0 & _ & He)%Hpool Hk Hr.
    destruct (shard_at_ok now s k Hs key sh0 Esh0) as (p & Ep & Hin).
    pose proof (si_ok _ _ _ _ _ Hin) as Hok0.
    pose proof (promoteExpired_ready now sh0 now _ e Hn ltac:(lia) Hok0 He) as Hready. apply Hready in Hr.
    destruct (promoteExpired_entries now sh0 now Hok0) as [_ Ee]. rewrite Ee in He.
    apply fmap_Some in He as (e0 & He0 & ->). destruct (settle_auth sh0 now e0) as [Ea Em].
    destruct (Hcur key p Hkey Ep) as (sh1 & Esh1 & _ & Hset). rewrite Esh0 in Esh1. injection Esh1 as <-.
    assert (entry_id (settle sh0 now e0) = entry_id e0) as Eid by (unfold entry_id; by rewrite Ea). rewrite Eid in He0.
    apply (Hno key sh0 e0 Hkey Esh0 He0); [by rewrite <-(Hext (settle sh0 now e0))|].
    apply (Hset _ _ He0). unfold is_free in *. by rewrite <-Ea.
Qed.

Lemma ensure_all_current now t s l k : 0 ≤ now → t ≤ now → NoDup l → scheduler_ok t s →
  ∀ key p, key ∈ l → providers (ensure_all s l k now) !! key = Some p → current_at now (ensure_all s l k now) key k (auths p).
Proof.
  intros Hn Ht Hnd Hs key p Hkey Ep. destruct (ensure_all_spec l k now t s Hn Ht Hnd Hs) as (Hs1 & _ & Hnone & Hcur & _).
  destruct (providers s !! key) as [p0|] eqn:Ep0; [|by rewrite (Hnone key Ep0) in Ep].
  destruct (Hcur key p0 Hkey Ep0) as (sh & Esh & Hin & Hst). exists sh. split_and!; [done| |done].
  destruct (shard_at_ok now _ k Hs1 key sh Esh) as (p1 & Ep1 & Hin1). rewrite Ep in Ep1. by injection Ep1 as <-.
Qed.

Lemma mixed_plain_sound now s l k model keep spent :
  0 ≤ now → NoDup l → scheduler_ok now s → canonicalModelKey model = k →
  (∀ key p, key ∈ l → providers s !! key = Some p → current_at now s key k (auths p)) →
  (spent = false → ∀ key sh e, key ∈ l → shard_at s key k = Some sh → entries sh !! entry_id e = Some e → keep e = true → state e ≠ Ready) →
  (∀ e e', e_auth e = e_auth e' → e_meta e = e_meta e' → keep e = keep e') →
  let r := mixedUnavailableErrorLocked s l model keep now in
  scheduler_ok now r.2 ∧ error_sound (canonicalModelKey k) keep spent (pool r.2 l k) now r.1.
Proof.
  intros Hn Hnd Hs Ek Hcur Hno Hext. destruct (ensure_all_spec l k now now s Hn ltac:(lia) Hnd Hs) as (Hs1 & _).
  destruct (pool_facts now s l k keep Hn Hnd Hs Hcur) as [Hti Hnr].
  unfold mixedUnavailableErrorLocked. rewrite Ek. cbn zeta. simpl. split; [done|].
  rewrite availability_concat. fold (pool (ensure_all s l k now) l k).
  apply unavailable_error_sound; [done|]. intros Hq. by apply Hnr; [apply Hno|].
Qed.

Lemma mixed_error_sound now s l k model keep st :
  0 ≤ now → NoDup l → scheduler_ok now s → canonicalModelKey model = k →
  (∀ key p, key ∈ l → providers s !! key = Some p → current_at now s key k (auths p)) →
  (is_quota st = false → ∀ key sh e, key ∈ l → shard_at s key k = Some sh → entries sh !! entry_id e = Some e → keep e = true → state e ≠ Ready) →
  (∀ e e', e_auth e = e_auth e' → e_meta e = e_meta e' → keep e = keep e') →
  let r := mixedUnavailableForStrategyLocked s l model keep st now in
  scheduler_ok now r.2 ∧ error_sound (canonicalModelKey k) keep (is_quota st) (pool r.2 l k) now r.1.
Proof.
  intros Hn Hnd Hs Ek Hcur Hno Hext. cbn zeta.
  destruct (ensure_all_spec l k now now s Hn ltac:(lia) Hnd Hs) as (Hs1 & _).
  destruct (pool_facts now s l k keep Hn Hnd Hs Hcur) as [Hti _].
  unfold mixedUnavailableForStrategyLocked. destruct (is_quota st) eqn:Eq; [|by apply mixed_plain_sound].
  unfold mixedQuotaDrainUnavailableErrorLocked. rewrite Ek. cbn zeta.
  assert (fold_left (λ acc shard, combine_quota acc (quotaDrainAvailabilitySummaryLocked shard keep now))
    (shards_at (ensure_all s l k now) l k) (0, 0, 0) = quota_closed_form (canonicalModelKey k) keep (pool (ensure_all s l k now) l k) now) as ->.
  { apply quota_concat. intros sh (key & _ & Esh)%elem_of_shards_at.
    destruct (shard_at_ok now _ k Hs1 key sh Esh) as (p & _ & Hin). apply (si_key _ _ _ _ _ Hin). }
  pose proof (quota_error_sound (canonicalModelKey k) keep (pool (ensure_all s l k now) l k) now model "" Hti) as Hquota.
  destruct (quota_closed_form _ _ _ _) as [[tot un] ear]. destruct (_ || _ || _) eqn:Eb.
  { apply mixed_plain_sound; [done..|by apply (ensure_all_current now now)|done|done]. }
  cbn [fst snd]. split; [done|].
  apply orb_false_iff in Eb as [Eb E3]. apply orb_false_iff in Eb as [E1 E2]. apply negb_false_iff in E2. unfold IsZero in E3.
  apply Z.eqb_neq in E1, E3. apply Z.eqb_eq in E2. by apply Hquota.
Qed.

Lemma mixedUnavailable_ok now s l model keep :
  0 ≤ now → NoDup l → scheduler_ok now s → scheduler_ok now (mixedUnavailableErrorLocked s l model keep now).2.
Proof. intros Hn Hnd Hs. by apply (ensure_all_spec l _ now now). Qed.

Lemma mixedUnavailableForStrategy_ok now s l model keep st :
  0 ≤ now → NoDup l → scheduler_ok now s →
  scheduler_ok now (mixedUnavailableForStrategyLocked s l model keep st now).2.
Proof.
  intros Hn Hnd Hs. unfold mixedUnavailableForStrategyLocked. destruct (is_quota st); [|by apply mixedUnavailable_ok].
  unfold mixedQuotaDrainUnavailableErrorLocked.
  destruct (ensure_all_spec l (canonicalModelKey model) now now s Hn ltac:(lia) Hnd Hs) as (Hs1 & _).
  destruct (fold_left _ _ _) as [[t u] r]. destruct (_ || _ || _); [by apply mixedUnavailable_ok|done].
Qed.

(** What may be picked across the providers, on up-to-date shards. *)
Definition mixed_offer (s : authScheduler) (l : list string) (k : string) (st : schedulerStrategy) (now at_ : time)
    (keep : scheduledAuth → bool) (key : string) (e : scheduledAuth) : Prop :=
  key ∈ l ∧ ∃ sh, shard_at s key k = Some sh ∧ offer sh st now at_ keep e.

Lemma on_offer_iff now s l k st at_ keep key e :
  (∀ key sh, key ∈ l → shard_at s key k = Some sh → settled_at now sh) →
  on_offer s l k st at_ keep key e ↔ mixed_offer s l k st now at_ keep key e.
Proof.
  intros Hset. unfold on_offer, mixed_offer.
  split; intros (Hk & sh & Esh & Ho); (split; [done|]); exists sh; (split; [done|]);
    revert Ho; rewrite offer_candidate; unfold offered, pick_candidate; intros (He & Hr & Hs);
    (split_and!; [done| |done]); by apply (Hset key sh Hk Esh _ _ He).
Qed.

Lemma mixed_pick_spec now s l k p st at_ keep :
  scheduler_ok now s → NoDup l → (∀ e, keep e = true → weight_ok st e) →
  let r := mixed_pick s l k p st at_ keep in
  scheduler_ok now r.2 ∧
  match r.1 with
  | Some (a, key) => ∃ e, on_offer s l k st at_ keep key e ∧ entry_priority e = p ∧ e_auth e = a
  | None => ∀ key e, on_offer s l k st at_ keep key e → entry_priority e ≠ p
  end.
Proof.
  intros Hs Hnd Hw. unfold mixed_pick. destruct st; try by apply pick_mixed_slots_spec.
  - destruct (try_each_spec now k p schedulerStrategyFillFirst at_ keep l s Hs Hnd Hw) as [H1 H2].
    split; [done|]. destruct (try_each _ _ _ _ _ _ _).1 as [[a key]|].
    + destruct H2 as (Hkey & sh & e & Esh & Ho & Hp & Ea). exists e. split; [|done]. split; [done|eauto].
    + intros key e (Hkey & sh & Esh & Ho). by apply (H2 key sh).
  - by apply pick_mixed_weighted_spec.
Qed.

Lemma mixed_select_spec now s l model st keep at_ :
  let k := canonicalModelKey model in
  0 ≤ now → NoDup l → scheduler_ok now s →
  (∀ e, keep e = true → weight_ok st e) →
  (∀ e e', e_auth e = e_auth e' → e_meta e = e_meta e' → keep e = keep e') →
  (∀ key p, key ∈ l → providers s !! key = Some p → current_at now s key k (auths p)) →
  let out := mixed_select s l model k st keep now at_ in
  scheduler_ok now out.2 ∧
  match out.1 with
  | inl (a, key) => ∃ e, e_auth e = a ∧ on_offer s l k st at_ keep key e ∧
      ∀ key' e', on_offer s l k st at_ keep key' e' → entry_priority e' ≤ entry_priority e
  | inr err => (∀ key e, ¬ on_offer s l k st at_ keep key e) ∧
      error_sound (canonicalModelKey k) keep (is_quota st) (pool out.2 l k) now err
  end.
Proof.
  intros k Hn Hnd Hs Hw Hext Hcur. cbn zeta. unfold mixed_select.
  pose proof (best_priority_spec now s l k st at_ keep Hs) as Hbest.
  destruct (best_priority s l k st at_ keep) as [p|].
  - destruct Hbest as [(key0 & e0 & Ho0 & Ep0) Hmax].
    destruct (mixed_pick_spec now s l k p st at_ keep Hs Hnd Hw) as [Hs2 Hpick]. cbn zeta in *.
    destruct (mixed_pick s l k p st at_ keep) as [[[a key]|] s2]; simpl in *; [|by destruct (Hpick key0 e0 Ho0)].
    split; [done|]. destruct Hpick as (e & Ho & <- & Ea). exists e. by split_and!.
  - cbn [fail_with fst snd]. split; [by apply mixedUnavailableForStrategy_ok|]. split; [done|].
    apply mixed_error_sound; try done.
    intros Hq key sh e Hkey Esh He Hk Hr. apply (Hbest key e). split; [done|]. exists sh. split; [done|].
    split_and!; [done..|]. unfold selectable. unfold is_quota in Hq. by rewrite Hk, Hq.
Qed.

(** What a selection across several providers does. *)
Lemma pickMixed_spec t s r l model tried st now at_ :
  0 ≤ now → t ≤ now → scheduler_ok t s →
  pinnedAuthIDFromMetadata (opts_metadata r) = "" →
  let ps := normalizeProviderKeys l in
  (1 < length ps)%nat →
  let k := canonicalModelKey model in
  let st' := effective s st in
  let keep := scheduledAuthPredicate (authSelectionEligibilityForRequest r) tried "" (is_weighted st') in
  let s1 := ensure_all s ps k now in
  let out := pickMixedWithStrategy s r l model tried st now at_ in
  scheduler_ok now out.2 ∧
  (∀ key p, key ∈ ps → providers s !! key = Some p → current_at now s1 key k (auths p)) ∧
  match out.1 with
  | inl (a, key) => ∃ e, e_auth e = a ∧ mixed_offer s1 ps k st' now at_ keep key e ∧
      ∀ key' e', mixed_offer s1 ps k st' now at_ keep key' e' → entry_priority e' ≤ entry_priority e
  | inr err => (∀ key e, ¬ mixed_offer s1 ps k st' now at_ keep key e) ∧
      error_sound (canonicalModelKey k) keep (is_quota st') (pool out.2 ps k) now err
  end.
Proof.
  intros Hn Ht Hs Hpin ps Hlen k st' keep s1. destruct (normalize_spec l) as [Hnd Hnorm]. fold ps in Hnd, Hnorm.
  destruct (ensure_all_spec ps k now t s Hn Ht Hnd Hs) as (Hs1 & _ & Hnone & Hcur & _). fold s1 in Hs1, Hcur, Hnone.
  assert (∀ key sh, key ∈ ps → shard_at s1 key k = Some sh → settled_at now sh) as Hset.
  { intros key sh Hkey Esh. destruct (providers s !! key) as [p|] eqn:Ep.
    - destruct (Hcur key p Hkey Ep) as (sh' & Esh' & _ & ?). rewrite Esh in Esh'. by injection Esh' as <-.
    - unfold shard_at in Esh. by rewrite (Hnone key Ep) in Esh. }
  assert (∀ e, keep e = true → weight_ok st' e) as Hw by (intros e; apply predicate_weight).
  pose proof (λ key e, on_offer_iff now s1 ps k st' at_ keep key e Hset) as Hc.
  assert (pickMixedWithStrategy s r l model tried st now at_ = mixed_select s1 ps model k st' keep now at_) as ->.
  { unfold pickMixedWithStrategy. fold ps. rewrite Hpin.
    destruct ps as [|p1 [|p2 ps']] eqn:Eps; [simpl in Hlen; lia|simpl in Hlen; lia|done]. }
  destruct (mixed_select_spec now s1 ps model st' keep at_ Hn Hnd Hs1 Hw) as [H1 H2].
  { apply predicate_keep_ok. }
  { by apply (ensure_all_current now t). }
  cbn zeta in *. split; [done|]. split; [done|]. fold k in H2.
  destruct (mixed_select s1 ps model k st' keep now at_).1 as [[a key]|err].
  - destruct H2 as (e & Ea & Ho & Hmax). exists e. split_and!; [done|by apply Hc|].
    intros key' e' Ho'. by eapply Hmax, Hc.
  - destruct H2 as [Hno Herr]. split; [|done]. intros key e Ho%Hc. by apply (Hno key e).
Qed.

(** C2: a selection across several providers (no credential being pinned)
    brings the shards of all of them up to date and hands out, under every
    strategy, a usable credential of the best tier over all the providers,
    together with the provider that holds it; an error is returned only when no
    provider has a usable credential, and what it says holds of all the
    credentials of all the providers: no blocked one is free before the wait is over, none
    ever by itself after a terminal error, none passes the test when nothing was found.
    Credentials that are free but out of quota under quota draining are part of the wait
    when the error is a cooldown of them all, which ends no later than their resets. *)
Theorem pickMixed_sound t s r l model tried st now at_ :
  0 ≤ now → t ≤ now → scheduler_ok t s →
  pinnedAuthIDFromMetadata (opts_metadata r) = "" →
  let ps := normalizeProviderKeys l in
  (1 < length ps)%nat →
  let k := canonicalModelKey model in
  let st' := effective s st in
  let keep := scheduledAuthPredicate (authSelectionEligibilityForRequest r) tried "" (is_weighted st') in
  let s1 := ensure_all s ps k now in
  let out := pickMixedWithStrategy s r l model tried st now at_ in
  scheduler_ok now out.2 ∧
  (∀ key p, key ∈ ps → providers s !! key = Some p → current_at now s1 key k (auths p)) ∧
  match out.1 with
  | inl (a, key) => ∃ e, e_auth e = a ∧ mixed_offer s1 ps k st' now at_ keep key e ∧
      ∀ key' e', mixed_offer s1 ps k st' now at_ keep key' e' → entry_priority e' ≤ entry_priority e
  | inr err => (∀ key e, ¬ mixed_offer s1 ps k st' now at_ keep key e) ∧
      error_sound (canonicalModelKey k) keep (is_quota st') (pool out.2 ps k) now err
  end.
Proof. apply pickMixed_spec. Qed.
End mixed.
