(* ===== verification/Lifecycle.v ===== *)
(** * The scheduler over time

    Traces of the scheduler's operations, each under the mutex and so atomic: the
    invariant along a trace, what removal tombstones and generations protect
    against, and what an update makes visible. *)
From Stdlib Require Import ZArith Lia String Bool Sorted.
From stdpp Require Import prelude gmap strings.
From S2P Require Import Prelude GoStd AuthTypes Weight Availability Smooth Capacity Errors Rotation Shard Unavailable Scheduler SchedulerInvariant Routing Mixed.
Local Open Scope string_scope.
Local Open Scope list_scope.
Local Open Scope Z_scope.

(** ** Operations as events *)

Inductive event :=
| EvUpsert (reg : registryView) (a : option Auth)
| EvResult (reg : registryView) (a : option Auth) (targetModels : list string) (credentialScoped : bool)
| EvRebuild (reg : registryView) (l : list (option Auth))
| EvRemove (id : string)
| EvTombstone (id : string) (tombstoneEpoch : Z)
| EvReset (id : string)
| EvSelector (sel : option selectorKind)
| EvPickSingle (r : request) (provider model : string) (tried : gset string) (st : schedulerStrategy) (at_ : time)
| EvPickMixed (r : request) (l : list string) (model : string) (tried : gset string) (st : schedulerStrategy) (at_ : time).

Definition clean_event (ev : event) : Prop :=
  match ev with
  | EvUpsert _ a | EvResult _ a _ _ => clean_auth a
  | EvRebuild _ l => Forall clean_auth l
  | _ => True
  end.

Section lifecycle.
Context `{GoHost}.

Definition step (now : time) (s : authScheduler) (ev : event) : authScheduler :=
  match ev with
  | EvUpsert reg a => upsertAuth s reg a now
  | EvResult reg a targets scoped => upsertAuthResultLocked s reg a targets scoped now
  | EvRebuild reg l => rebuild s reg l now
  | EvRemove id => removeAuth s id now
  | EvTombstone id e => RecordRemovalTombstone s id e now
  | EvReset id => ResetAuthGeneration s id
  | EvSelector sel => setSelector s sel
  | EvPickSingle r provider model tried st at_ => (pickSingleWithStrategy s r provider model tried st now at_).2
  | EvPickMixed r l model tried st at_ => (pickMixedWithStrategy s r l model tried st now at_).2
  end.

Definition run (trace : list (time * event)) (s : authScheduler) : authScheduler :=
  fold_left (λ s e, step e.1 s e.2) trace s.

(** ** The invariant along a trace *)

Lemma pickMixed_keeps t s r l model tried st now at_ :
  0 ≤ now → t ≤ now → scheduler_ok t s →
  scheduler_ok now (pickMixedWithStrategy s r l model tried st now at_).2.
Proof.
  intros Hn Ht Hs. pose proof (scheduler_ok_mono t now s Ht Hs) as Hs'. unfold pickMixedWithStrategy.
  destruct (normalize_spec l) as [Hnd _].
  destruct (normalizeProviderKeys l) as [|p1 [|p2 ps]]; [done| |].
  { unfold pickSingleWithStrategy. destruct (providers s !! canonicalSchedulingProvider p1) as [p|] eqn:Ep; [|done].
    by eapply ensured_pick. }
  case_match.
  - destruct (_ || _); [done|]. destruct (providers s !! _) as [p|] eqn:Ep; [|done]. by eapply ensured_pick.
  - set (k := canonicalModelKey model). set (ks := p1 :: p2 :: ps) in *.
    destruct (ensure_all_spec ks k now t s Hn Ht Hnd Hs) as (Hs1 & _ & Hnone & Hcur & _).
    apply mixed_select_spec; try done; [intros e; apply predicate_weight|apply predicate_keep_ok|].
    intros key p Hkey Ep. destruct (providers s !! key) as [p0|] eqn:Ep0; [|by rewrite (Hnone key Ep0) in Ep].
    destruct (Hcur key p0 Hkey Ep0) as (sh & Esh & Hin & Hst). exists sh. split_and!; [done| |done].
    destruct (shard_at_ok now _ k Hs1 key sh Esh) as (q & Eq & Hin1). rewrite Ep in Eq. by injection Eq as <-.
Qed.

Lemma step_ok t now s ev :
  0 ≤ now → t ≤ now → clean_event ev → scheduler_ok t s → scheduler_ok now (step now s ev).
Proof.
  intros Hn Ht Hc Hs. pose proof (scheduler_ok_mono t now s Ht Hs) as Hs'. destruct ev; simpl in *.
  - by apply (lifecycle_ok t).
  - by apply (result_ok t).
  - by apply (rebuild_ok' t).
  - by apply removeAuthLocked_ok.
  - by apply tombstone_ok.
  - unfold ResetAuthGeneration. case_match; [done|]. by destruct Hs'.
  - by destruct Hs'.
  - unfold pickSingleWithStrategy. destruct (providers s !! _) as [p|] eqn:Ep; [|done]. by eapply ensured_pick.
  - by apply (pickMixed_keeps t).
Qed.

(** The clock readings of a trace never go back. *)
Definition timed (t : time) (trace : list (time * event)) : Prop :=
  Sorted Z.le (t :: trace.*1) ∧ 0 ≤ t.
Definition last_time (t : time) (trace : list (time * event)) : time := default t (last trace.*1).

Lemma run_ok trace : ∀ t s,
  timed t trace → Forall (λ e, clean_event e.2) trace → scheduler_ok t s →
  scheduler_ok (last_time t trace) (run trace s).
Proof.
  induction trace as [|[now ev] trace IH]; intros t s [Hs Ht] Hc Hok; [done|].
  apply Forall_cons in Hc as [Hc1 Hc]. inversion Hs as [|? ? Hs1 Hhd]; subst. inversion Hhd; subst. simpl in *.
  assert (last_time t ((now, ev) :: trace) = last_time now trace) as ->.
  { unfold last_time. rewrite fmap_cons, last_cons. by destruct (last trace.*1). }
  apply IH; [by split; [|lia]|done|]. by apply (step_ok t); [lia|..].
Qed.

(** ** Generations *)

Definition gen_of (s : authScheduler) (id : string) : Z * Z :=
  match authGenerations s !! id with Some g => (epoch g, generation g) | None => (0, 0) end.

Lemma remove_generations s id : authGenerations (removeAuthFromProvidersLocked s id) = authGenerations s.
Proof. unfold removeAuthFromProvidersLocked. by case_match. Qed.

(** The generation an update leaves for its credential: the incoming one,
    unless what is recorded is newer. *)
Definition gen_le (x y : Z * Z) : Prop := x.1 < y.1 ∨ x.1 = y.1 ∧ x.2 ≤ y.2.

Lemma stale_gen s id e g u :
  isStaleScheduledAuth s id e g u = false → authGenerations s !! id = None ∨ gen_le (gen_of s id) (e, g).
Proof.
  unfold isStaleScheduledAuth, gen_le, gen_of. destruct (authGenerations s !! id) as [x|]; [|by left].
  right. simpl. destruct (Z.ltb_spec e (epoch x)); [done|]. destruct (Z.eqb_spec (epoch x) e); [|left; lia].
  destruct (Z.ltb_spec g (generation x)); [done|]. right. lia.
Qed.

(** How an operation changes the recorded generation of [id]. *)
Lemma gens_upsert s reg a now id :
  let s' := upsertAuthLifecycleLocked s reg (Some a) now in
  authGenerations s' !! id = authGenerations s !! id ∨
  id = TrimSpace (ID a) ∧ (authGenerations s !! id = None ∨ gen_le (gen_of s id) (RegistrationEpoch a, Generation a)) ∧
  authGenerations s' !! id = Some (mkGen (RegistrationEpoch a) (Generation a) (UpdatedAt a)).
Proof.
  cbn zeta. unfold upsertAuthLifecycleLocked. destruct (String.eqb _ ""); [by left|].
  destruct (isStaleScheduledAuth _ _ _ _ _) eqn:Est; [by left|]. apply stale_gen in Est.
  assert (∀ s', authGenerations s' = <[TrimSpace (ID a) := mkGen (RegistrationEpoch a) (Generation a) (UpdatedAt a)]> (authGenerations s) →
    authGenerations s' !! id = authGenerations s !! id ∨
    id = TrimSpace (ID a) ∧ (authGenerations s !! id = None ∨ gen_le (gen_of s id) (RegistrationEpoch a, Generation a)) ∧
    authGenerations s' !! id = Some (mkGen (RegistrationEpoch a) (Generation a) (UpdatedAt a))) as Hput.
  { intros s' ->. destruct (decide (id = TrimSpace (ID a))) as [->|Hne].
    - right. by rewrite lookup_insert_eq.
    - left. by rewrite lookup_insert_ne. }
  case_match; apply Hput; [apply remove_generations|].
  destruct (place_listed (set_generation s (TrimSpace (ID a)) (mkGen (RegistrationEpoch a) (Generation a) (UpdatedAt a)))
    (TrimSpace (ID a)) (executorKeyFromAuth (Some a))
    (buildScheduledAuthMetaWithModelSet a (supportedModelSetForAuth reg (ID a)) (ClientRegistrationEpoch reg (TrimSpace (ID a)))) [] true now)
    as [_ E]. exact E.
Qed.

Lemma gens_result s reg a targets scoped now id :
  let s' := upsertAuthResultLocked s reg (Some a) targets scoped now in
  authGenerations s' !! id = authGenerations s !! id ∨
  id = TrimSpace (ID a) ∧ (authGenerations s !! id = None ∨ gen_le (gen_of s id) (RegistrationEpoch a, Generation a)) ∧
  authGenerations s' !! id = Some (mkGen (RegistrationEpoch a) (Generation a) (UpdatedAt a)).
Proof.
  cbn zeta. unfold upsertAuthResultLocked. destruct (String.eqb _ ""); [by left|].
  destruct (isStaleScheduledAuth _ _ _ _ _) eqn:Est.
  { left. destruct (String.eqb _ ""); [done|]. destruct (providers s !! _) as [p|]; [|done]. by destruct (auths p !! _). }
  apply stale_gen in Est. set (g := mkGen _ _ _).
  assert (∀ s', authGenerations s' = <[TrimSpace (ID a) := g]> (authGenerations s) →
    authGenerations s' !! id = authGenerations s !! id ∨
    id = TrimSpace (ID a) ∧ (authGenerations s !! id = None ∨ gen_le (gen_of s id) (RegistrationEpoch a, Generation a)) ∧
    authGenerations s' !! id = Some g) as Hput.
  { intros s' ->. destruct (decide (id = TrimSpace (ID a))) as [->|Hne].
    - right. by rewrite lookup_insert_eq.
    - left. by rewrite lookup_insert_ne. }
  case_match; apply Hput; [apply remove_generations|].
  case_match; match goal with |- authGenerations (install _ _ _ ?m ?ts ?sc _) = _ =>
    exact (proj2 (place_listed (set_generation s (TrimSpace (ID a)) g) (TrimSpace (ID a))
      (executorKeyFromAuth (Some a)) m ts sc now)) end.
Qed.

(** ** Selections leave the bookkeeping alone *)

Definition frame (s s' : authScheduler) : Prop :=
  authProviders s' = authProviders s ∧ authGenerations s' = authGenerations s.

#[local] Instance frame_po : PreOrder frame.
Proof. split; [by split|]. intros s1 s2 s3 [] []. split; congruence. Qed.

Lemma ensure_frame s key k now : frame s (ensure s key k now).
Proof. unfold ensure. by destruct (providers s !! key). Qed.

Lemma ensure_all_frame l k now : ∀ s, frame s (ensure_all s l k now).
Proof. induction l as [|x l IH]; intros s; [done|]. simpl. etrans; [apply ensure_frame|apply IH]. Qed.

Lemma pick_in_frame s key k pick : frame s (pick_in s key k pick).2.
Proof. unfold pick_in. destruct (shard_at s key k); [|done]. by destruct (pick _ _) as [[? ?] ?]. Qed.

Lemma pick_or_error_frame s key k provider model prefer st keep now at_ :
  frame s (pick_or_error s key k provider model prefer st keep now at_).2.
Proof.
  unfold pick_or_error.
  pose proof (pick_in_frame s key k (λ sh pin, pickReadyLocked sh prefer st now at_ keep pin)) as Hf.
  destruct (pick_in _ _ _ _) as [[a|] s1]; [done|]. by destruct (shard_at s1 key k).
Qed.

Lemma try_each_frame k p st at_ keep l : ∀ s, frame s (try_each s l k p st at_ keep).2.
Proof.
  induction l as [|x l IH]; intros s; simpl; [done|].
  pose proof (pick_in_frame s x k (λ sh pin, pickReadyAtPriorityLocked sh false p st at_ keep pin)) as Hf.
  destruct (pick_in _ _ _ _) as [[a|] s1]; [done|]. etrans; [exact Hf|apply IH].
Qed.

Lemma mixed_loop_frame l ws start cursorKey k p st at_ keep order : ∀ s slot,
  frame s (mixed_loop s l order ws start slot cursorKey k p st at_ keep).2.
Proof.
  induction order as [|i order IH]; intros s slot; simpl; [done|]. destruct (nth i ws O =? 0)%nat; [apply IH|].
  set (cst := if is_quota st then _ else _).
  pose proof (pick_in_frame s (nth i l "") k (λ sh pin, pickReadyAtPriorityLocked sh false p cst at_ keep pin)) as Hf.
  destruct (pick_in _ _ _ _) as [[a|] s1]; [done|]. etrans; [exact Hf|apply IH].
Qed.

Lemma mixed_pick_frame s l k p st at_ keep : frame s (mixed_pick s l k p st at_ keep).2.
Proof.
  unfold mixed_pick. destruct st; try apply try_each_frame;
    try (unfold pick_mixed_slots; case_match; [done|]; case_match; [apply mixed_loop_frame|done]).
  unfold pick_mixed_weighted. by destruct (pickSmoothWeightedScheduled _ _ _).
Qed.

Lemma unavailable_frame s l model keep now : frame s (mixedUnavailableErrorLocked s l model keep now).2.
Proof. apply ensure_all_frame. Qed.

Lemma strategy_unavailable_frame s l model keep st now :
  frame s (mixedUnavailableForStrategyLocked s l model keep st now).2.
Proof.
  unfold mixedUnavailableForStrategyLocked. destruct (is_quota st); [|apply unavailable_frame].
  unfold mixedQuotaDrainUnavailableErrorLocked. destruct (fold_left _ _ _) as [[t u] r].
  destruct (_ || _ || _); [|apply ensure_all_frame]. etrans; [apply ensure_all_frame|apply unavailable_frame].
Qed.

Lemma mixed_select_frame s l model k st keep now at_ : frame s (mixed_select s l model k st keep now at_).2.
Proof.
  unfold mixed_select. destruct (best_priority _ _ _ _ _ _) as [p|]; [|apply strategy_unavailable_frame].
  pose proof (mixed_pick_frame s l k p st at_ keep) as Hf.
  destruct (mixed_pick _ _ _ _ _ _ _) as [[r|] s1]; [done|]. simpl in *.
  etrans; [exact Hf|]. destruct (is_weighted st); [apply unavailable_frame|apply strategy_unavailable_frame].
Qed.

Lemma pickSingle_frame s r provider model tried st now at_ :
  frame s (pickSingleWithStrategy s r provider model tried st now at_).2.
Proof.
  unfold pickSingleWithStrategy. destruct (providers s !! _); [|done].
  etrans; [apply ensure_frame|apply pick_or_error_frame].
Qed.

Lemma pickMixed_frame s r l model tried st now at_ :
  frame s (pickMixedWithStrategy s r l model tried st now at_).2.
Proof.
  unfold pickMixedWithStrategy. destruct (normalizeProviderKeys l) as [|p1 [|p2 ps]]; [done|apply pickSingle_frame|].
  case_match.
  - case_match; [done|]. destruct (providers s !! _); [|done].
    etrans; [apply ensure_frame|apply pick_or_error_frame].
  - etrans; [apply ensure_all_frame|apply mixed_select_frame].
Qed.

(** ** Tombstones *)

(** [id] is not scheduled and registrations before [e] are refused. *)
Definition gone (s : authScheduler) (id : string) (e : Z) : Prop :=
  authProviders s !! id = None ∧ ∃ g, authGenerations s !! id = Some g ∧ e ≤ epoch g.

(** Operations that carry [id] only as it was before registration [e]. *)
Definition old_snapshot (id : string) (e : Z) (a : option Auth) : Prop :=
  match a with Some a => TrimSpace (ID a) = id → RegistrationEpoch a < e | None => True end.
Definition quiet (id : string) (e : Z) (ev : event) : Prop :=
  match ev with
  | EvUpsert _ a | EvResult _ a _ _ => old_snapshot id e a
  | EvRebuild _ l => Forall (old_snapshot id e) l
  | EvRemove i | EvReset i => TrimSpace i ≠ id
  | _ => True
  end.

Lemma stale_epoch s id e a g : authGenerations s !! id = Some g → e ≤ epoch g → RegistrationEpoch a < e →
  isStaleScheduledAuth s id (RegistrationEpoch a) (Generation a) (UpdatedAt a) = true.
Proof.
  intros Hg He Ha. unfold isStaleScheduledAuth. rewrite Hg. destruct (Z.ltb_spec (RegistrationEpoch a) (epoch g)); [done|lia].
Qed.

Lemma remove_listed s id id' :
  authProviders s !! id = None → authProviders (removeAuthFromProvidersLocked s id') !! id = None.
Proof.
  intros Hn. unfold removeAuthFromProvidersLocked. case_match; [done|]. simpl.
  destruct (decide (id' = id)) as [->|Hne]; [by rewrite lookup_delete_eq|by rewrite lookup_delete_ne].
Qed.

Lemma gone_generation s id e id' g : id' ≠ id → gone s id e → gone (set_generation s id' g) id e.
Proof. intros Hne [Hp Hg]. split; [done|]. simpl. by rewrite lookup_insert_ne. Qed.

Lemma gone_remove s id e id' : gone s id e → gone (removeAuthFromProvidersLocked s id') id e.
Proof. intros [Hp Hg]. split; [by apply remove_listed|by rewrite remove_generations]. Qed.

Lemma gone_place s id e id' key m ts sc now : id' ≠ id → gone s id e → gone (place s id' key m ts sc now) id e.
Proof.
  intros Hne [Hp Hg]. destruct (place_listed s id' key m ts sc now) as [E1 E2].
  split; [by rewrite E1, lookup_insert_ne|by rewrite E2].
Qed.

Lemma gone_upsert s reg a now id e :
  old_snapshot id e a → gone s id e → gone (upsertAuthLifecycleLocked s reg a now) id e.
Proof.
  destruct a as [a|]; [|done]. intros Ha Hg. unfold upsertAuthLifecycleLocked. case_match; [done|].
  destruct (decide (TrimSpace (ID a) = id)) as [E|Hne].
  - destruct Hg as [Hp (g & Hg & He)]. rewrite E, (stale_epoch s id e a g); [by split; eauto|done..|by apply Ha].
  - case_match; [done|]. case_match; [by apply gone_remove, gone_generation|].
    apply gone_place; [done|by apply gone_generation].
Qed.

Lemma gone_result s reg a ts sc now id e :
  old_snapshot id e a → gone s id e → gone (upsertAuthResultLocked s reg a ts sc now) id e.
Proof.
  destruct a as [a|]; [|done]. intros Ha Hg. unfold upsertAuthResultLocked. case_match; [done|].
  destruct (isStaleScheduledAuth _ _ _ _ _) eqn:Est.
  { case_match; [done|]. destruct (providers s !! _) as [p|]; [|done]. by destruct (auths p !! _). }
  assert (TrimSpace (ID a) ≠ id) as Hne.
  { intros E. destruct Hg as [Hp (g & Hg & He)]. rewrite E, (stale_epoch s id e a g) in Est; [done..|by apply Ha]. }
  case_match; [by apply gone_remove, gone_generation|].
  case_match; (apply gone_place; [done|by apply gone_generation]).
Qed.

Lemma gone_rebuild_step s reg a M now id e :
  old_snapshot id e a → gone s id e → gone (upsertAuthRebuildLocked s reg a M now) id e.
Proof.
  destruct a as [a|]; [|done]. intros Ha Hg. unfold upsertAuthRebuildLocked. case_match; [done|].
  destruct (decide (TrimSpace (ID a) = id)) as [E|Hne].
  - pose proof Hg as [_ (g & Hgen & He)]. specialize (Ha E). rewrite E, Hgen.
    destruct (Z.ltb_spec (RegistrationEpoch a) (epoch g)); [done|lia].
  - destruct (match authGenerations s !! _ with Some g => _ | None => false end); [done|].
    match goal with |- gone (match ?x with Some _ => _ | None => _ end) _ _ => destruct x as [b|]; [|done] end.
    case_match; [by apply gone_remove|]. apply gone_place; [done|by apply gone_generation].
Qed.

Lemma gone_step now s ev id e : quiet id e ev → gone s id e → gone (step now s ev) id e.
Proof.
  intros Hq Hg. destruct ev; simpl in *.
  - by apply gone_upsert.
  - by apply gone_result.
  - unfold rebuild. set (M := existing_metas _). set (s0 := s <| providers := ∅ |> <| authProviders := ∅ |>
      <| mixedCursors := ∅ |> <| mixedWeightedStates := ∅ |>).
    assert (gone s0 id e) as Hg0 by (destruct Hg as [_ Hg]; by split).
    clearbody s0 M. clear Hg. revert s0 Hg0.
    induction Hq as [|a l Ha Hl IH]; intros s0 Hg0; simpl; [done|]. by apply IH, gone_rebuild_step.
  - unfold removeAuth, removeAuthLocked. case_match; [done|]. by apply gone_remove, gone_generation.
  - unfold RecordRemovalTombstone, recordRemovalTombstoneLocked. case_match; [done|].
    destruct (decide (TrimSpace id0 = id)) as [->|Hne].
    + destruct Hg as [Hp (g & Hgen & He)]. rewrite Hgen. destruct (Z.ltb_spec tombstoneEpoch (epoch g)); [by split; eauto|].
      apply gone_remove. split; [done|]. simpl. rewrite lookup_insert_eq. eexists. split; [done|]. simpl. lia.
    + case_match; [case_match; [done|]|]; by apply gone_remove, gone_generation.
  - unfold ResetAuthGeneration. case_match; [done|]. destruct Hg as [Hp Hgen]. split; [done|]. simpl.
    by rewrite lookup_delete_ne.
  - done.
  - destruct (pickSingle_frame s r provider model tried st now at_) as [E1 E2]. unfold gone. by rewrite E1, E2.
  - destruct (pickMixed_frame s r l model tried st now at_) as [E1 E2]. unfold gone. by rewrite E1, E2.
Qed.

Lemma gone_run trace : ∀ s id e, Forall (λ x, quiet id e x.2) trace → gone s id e → gone (run trace s) id e.
Proof.
  induction trace as [|[now ev] trace IH]; intros s id e Hq Hg; [done|].
  apply Forall_cons in Hq as [Hq1 Hq]. simpl. by apply IH, gone_step.
Qed.

Lemma tombstone_gone t s id e now :
  clean id → scheduler_ok t s → (∀ g, authGenerations s !! id = Some g → epoch g ≤ e) →
  gone (RecordRemovalTombstone s id e now) id e.
Proof.
  intros [Htr Hne] Hs Hg. unfold RecordRemovalTombstone, recordRemovalTombstoneLocked. rewrite Htr.
  rewrite (proj2 (String.eqb_neq _ _) Hne).
  assert (gone (removeAuthFromProvidersLocked (set_generation s id (mkGen e 0 now)) id) id e) as Hgone.
  { destruct (remove_ok t (set_generation s id (mkGen e 0 now)) id Hne (set_generation_ok t s id _ Hs)) as (_ & E1 & E2).
    split; [by rewrite E1, lookup_delete_eq|]. rewrite E2. simpl. rewrite lookup_insert_eq. eexists. split; [done|]. simpl. lia. }
  destruct (authGenerations s !! id) as [g|] eqn:E; [|done].
  specialize (Hg g eq_refl). destruct (Z.ltb_spec e (epoch g)); [lia|done].
Qed.

(** C5: the bookkeeping is right after any history.  Whatever operations a new
    scheduler has gone through, a credential is listed under the provider that
    holds it and no other; each shard of a provider holds exactly its
    credentials that support the model, under their own IDs, with the priority,
    weight and transport of the snapshot, and its ready views and blocked queue
    show exactly the ready and the waiting ones. *)
Theorem run_invariant sel trace t :
  timed t trace → Forall (λ e, clean_event e.2) trace →
  let s := run trace (newAuthScheduler sel) in
  (∀ key p id m, providers s !! key = Some p → auths p !! id = Some m →
     authProviders s !! id = Some key ∧ meta_ok key m ∧ ID (sm_auth m) = id ∧
     ∀ key' p', providers s !! key' = Some p' → is_Some (auths p' !! id) → key' = key) ∧
  (∀ id key, authProviders s !! id = Some key → ∃ p m, providers s !! key = Some p ∧ auths p !! id = Some m) ∧
  (∀ key p k sh, providers s !! key = Some p → modelShards p !! k = Some sh →
     modelKey sh = k ∧ views_ok sh ∧
     (∀ id, is_Some (entries sh !! id) ↔ ∃ m, auths p !! id = Some m ∧ supportsModel m k = true) ∧
     (∀ id e, entries sh !! id = Some e → entry_id e = id ∧ meta_ok key (e_meta e) ∧ sm_auth (e_meta e) = e_auth e)).
Proof.
  intros Ht Hc. cbn zeta. pose proof (run_ok trace t _ Ht Hc (newAuthScheduler_ok t sel)) as Hs.
  set (s := run trace (newAuthScheduler sel)) in *. split_and!.
  - intros key p id m Hp Hm. destruct (sc_provider _ _ Hs _ _ Hp) as [_ Hok].
    destruct (po_auths _ _ _ Hok _ _ Hm) as [Hm1 Hm2]. split_and!; [by eapply sc_home|done|done|].
    intros key' p' Hp' [m' Hm']. by eapply one_home.
  - intros id key Hk. by apply (sc_listed _ _ Hs).
  - intros key p k sh Hp Hsh. destruct (sc_provider _ _ Hs _ _ Hp) as [_ Hok].
    destruct (po_shards _ _ _ Hok _ _ Hsh) as [H1 [Hk Hv Hti] H3 H4]. split_and!; [done..|].
    intros id e He. split_and!; [by apply Hk|by eapply H4|by apply (Hti id)].
Qed.

(** C3: a removed credential stays removed.  After a removal tombstone at epoch
    [e], as long as [id] is only brought back by snapshots registered before
    [e] - stale upserts, late results, rebuilds from an old snapshot - no
    provider holds it, whatever else happens. *)
Theorem tombstone_safe t s id e now trace :
  clean id → scheduler_ok t s → 0 ≤ now → t ≤ now →
  (∀ g, authGenerations s !! id = Some g → epoch g ≤ e) →
  timed now trace → Forall (λ x, clean_event x.2) trace → Forall (λ x, quiet id e x.2) trace →
  let s' := run trace (RecordRemovalTombstone s id e now) in
  provider_of s' id = "" ∧
  ∀ key p, providers s' !! key = Some p →
    auths p !! id = None ∧ ∀ k sh, modelShards p !! k = Some sh → entries sh !! id = None.
Proof.
  intros Hcl Hs Hn Ht Hg Htm Hc Hq. cbn zeta.
  pose proof (gone_run trace _ id e Hq (tombstone_gone t s id e now Hcl Hs Hg)) as [Hgone _].
  assert (scheduler_ok now (RecordRemovalTombstone s id e now)) as Hs1.
  { by apply (step_ok t now s (EvTombstone id e)). }
  pose proof (run_ok trace now _ Htm Hc Hs1) as Hs2. set (s' := run trace _) in *.
  split; [unfold provider_of; by rewrite Hgone|]. intros key p Hp.
  assert (auths p !! id = None) as Ha.
  { destruct (auths p !! id) as [m|] eqn:Em; [|done]. pose proof (sc_home _ _ Hs2 _ _ _ _ Hp Em). congruence. }
  split; [done|]. intros k sh Hsh. destruct (sc_provider _ _ Hs2 _ _ Hp) as [_ Hok].
  pose proof (si_member _ _ _ _ _ (po_shards _ _ _ Hok _ _ Hsh) id) as Hm.
  destruct (entries sh !! id); [|done]. destruct (proj1 Hm ltac:(by eexists)) as (m & Em & _). congruence.
Qed.

(** ** What a result makes visible *)

(** Shard [k] of the provider shows credential [m] as of [now], if it shows it. *)
Definition shows (m : scheduledAuthMeta) (now : time) (p : providerScheduler) (k : string) : Prop :=
  ∀ sh e, modelShards p !! k = Some sh → entries sh !! ID (sm_auth m) = Some e →
    modelKey sh = k → e_meta e = m ∧ e_auth e = sm_auth m ∧
    (state e, nextRetryAt e) = classify (isAuthBlockedForModel (Some (sm_auth m)) k now).

Lemma sync_shard_shows m now k sh e :
  clean (ID (sm_auth m)) → modelKey sh = k →
  entries (sync_shard m now k sh) !! ID (sm_auth m) = Some e →
  e_meta e = m ∧ e_auth e = sm_auth m ∧
  (state e, nextRetryAt e) = classify (isAuthBlockedForModel (Some (sm_auth m)) k now).
Proof.
  intros [_ Hne] Hk. unfold sync_shard. destruct (supportsModel m k).
  - destruct (upsert_entries sh m now) as [-> _]. rewrite lookup_insert_eq. intros [= <-].
    split_and!; [done..|]. simpl. rewrite Hk. by destruct (classify _).
  - destruct (remove_entries sh (ID (sm_auth m))) as [-> _].
    by rewrite (proj2 (String.eqb_neq _ _) Hne), lookup_delete_eq.
Qed.

Lemma sync_shard_key m now k sh : modelKey (sync_shard m now k sh) = modelKey sh.
Proof. unfold sync_shard. destruct (supportsModel m k); [apply upsert_entries|apply remove_entries]. Qed.

Lemma sync_at_shows m now p k k' : clean (ID (sm_auth m)) → k' = k ∨ shows m now p k' → shows m now (sync_at m now p k) k'.
Proof.
  intros Hcl Hor sh e. unfold sync_at. destruct (modelShards p !! k) as [sh0|] eqn:E.
  - simpl. destruct (decide (k' = k)) as [->|Hne].
    + rewrite lookup_insert_eq. intros [= <-] He Hk. rewrite sync_shard_key in Hk. by eapply sync_shard_shows.
    + rewrite lookup_insert_ne by done. destruct Hor as [?|Hs]; [done|]. by apply Hs.
  - destruct Hor as [->|Hs]; [by rewrite E|]. by apply Hs.
Qed.

Lemma sync_targets_shows m now targets : ∀ seen p k',
  clean (ID (sm_auth m)) → (∀ k, k ∈ seen → shows m now p k) →
  k' ∈ canonicalModelKey <$> targets ∨ shows m now p k' →
  shows m now (sync_targets m now targets seen p) k'.
Proof.
  induction targets as [|x targets IH]; intros seen p k' Hcl Hseen Hor; simpl.
  { destruct Hor as [Hn|?]; [by apply not_elem_of_nil in Hn|done]. }
  rewrite fmap_cons, elem_of_cons in Hor. case_bool_decide as Ex.
  - apply IH; [done..|]. destruct Hor as [[->|?]|?]; [right; by apply Hseen|by left|by right].
  - apply IH; [done| |].
    + intros k [->|Hk]%elem_of_cons; (apply sync_at_shows; [done|]); [by left|right; by apply Hseen].
    + destruct Hor as [[->|?]|?]; [right; apply sync_at_shows; [done|by left]|by left|right; apply sync_at_shows; [done|by right]].
Qed.

Lemma upsertForModels_shows p m targets scoped now k :
  clean (ID (sm_auth m)) → scoped = true ∨ targets = [] ∨ k = "" ∨ k ∈ canonicalModelKey <$> targets →
  shows m now (upsertAuthForModelsLocked p m targets scoped now) k.
Proof.
  intros Hcl Hor. unfold upsertAuthForModelsLocked.
  destruct (scoped || bool_decide (targets = [])) eqn:Ec.
  - intros sh e. simpl. rewrite map_lookup_imap. destruct (modelShards p !! k) as [sh0|]; [|done].
    intros [= <-] He Hk. rewrite sync_shard_key in Hk. by eapply sync_shard_shows.
  - apply orb_false_iff in Ec as [-> Ec]. apply bool_decide_eq_false in Ec.
    unfold updateTargetShardsLocked. apply sync_targets_shows; [done| |].
    + intros x Hx. by apply not_elem_of_nil in Hx.
    + destruct Hor as [?|[?|[->|Hk]]]; [done|done| |by left]. right. apply sync_at_shows; [done|by left].
Qed.

(** What is known of the credential before the result, and the scope of the result: every shard
    if it is credential-wide, names no model, if the credential is new here or its models were
    registered anew, or if the credential as a whole became blocked or free; else the
    models it names and the shard of no model. *)
Definition known_before (s : authScheduler) (key id : string) : option scheduledAuthMeta := providers s !! key ≫= λ p, auths p !! id.
Definition model_count (m : scheduledAuthMeta) : nat := match supportedModelSet m with Some ms => size ms | None => O end.
Definition every_shard (s : authScheduler) (reg : registryView) (a : Auth) (m : scheduledAuthMeta) (targets : list string) (scoped : bool)
    (now : time) : Prop :=
  scoped = true ∨ targets = [] ∨
  match known_before s (executorKeyFromAuth (Some a)) (ID a) with
  | None => True
  | Some m0 => registryEpoch m0 ≠ ClientRegistrationEpoch reg (ID a) ∨ supportedModelSet m0 = None ∨
      isCredentialBlocked (Some (sm_auth m0)) (model_count m) now ≠ isCredentialBlocked (Some a) (model_count m) now
  end.
(** The new snapshot is listed and shown in every shard of its scope. *)
Definition result_shown (s s' : authScheduler) (reg : registryView) (a : Auth) (targets : list string) (scoped : bool) (now : time) : Prop :=
  let key := executorKeyFromAuth (Some a) in
  authGenerations s' !! ID a = Some (mkGen (RegistrationEpoch a) (Generation a) (UpdatedAt a)) ∧
  if String.eqb key "" || disabled a then authProviders s' !! ID a = None
  else ∃ p m, providers s' !! key = Some p ∧ auths p !! ID a = Some m ∧ authProviders s' !! ID a = Some key ∧
    sm_auth m = Auth_Clone a ∧
    ∀ k, every_shard s reg a m targets scoped now ∨ k = "" ∨ k ∈ canonicalModelKey <$> targets → shows m now p k.

Lemma known_ensured s id key :
  providers (ensureProviderLocked (leave_previous s id key) key) !! key ≫= (λ p, auths p !! id) = known_before s key id.
Proof.
  unfold known_before. assert (providers (leave_previous s id key) !! key = providers s !! key) as El.
  { rewrite leave_providers. case_decide; [naive_solver|done]. }
  unfold ensureProviderLocked. rewrite El. destruct (providers s !! key) as [p|] eqn:Ep; [by rewrite El|].
  simpl. rewrite lookup_insert_eq. simpl. apply lookup_empty.
Qed.

Lemma sync_targets_auths m now ks : ∀ q seen, auths (sync_targets m now ks seen q) = auths q.
Proof.
  induction ks as [|x ks IH]; intros q seen; simpl; [done|].
  case_bool_decide; [apply IH|]. rewrite IH. unfold sync_at. by destruct (modelShards q !! _).
Qed.

Lemma upsertForModels_auths p m targets scoped now :
  auths (upsertAuthForModelsLocked p m targets scoped now) = <[ID (sm_auth m) := m]> (auths p).
Proof.
  unfold upsertAuthForModelsLocked. destruct (scoped || bool_decide (targets = [])); [done|].
  unfold updateTargetShardsLocked. rewrite sync_targets_auths. unfold sync_at. by destruct (modelShards _ !! "").
Qed.

Lemma result_current t s reg a targets scoped now :
  clean (ID a) → scheduler_ok t s →
  isStaleScheduledAuth s (ID a) (RegistrationEpoch a) (Generation a) (UpdatedAt a) = false →
  result_shown s (upsertAuthResultLocked s reg (Some a) targets scoped now) reg a targets scoped now.
Proof.
  intros [Htr Hne] Hs Est. unfold result_shown, upsertAuthResultLocked.
  rewrite Htr, (proj2 (String.eqb_neq _ _) Hne), Est. set (key := executorKeyFromAuth (Some a)).
  set (s1 := set_generation s (ID a) _) in *.
  assert (authGenerations s1 !! ID a = Some (mkGen (RegistrationEpoch a) (Generation a) (UpdatedAt a))) as Hg1
    by apply lookup_insert_eq.
  destruct (String.eqb key "" || disabled a) eqn:Ed.
  { split; [by rewrite remove_generations|].
    destruct (remove_ok t s1 (ID a) Hne (set_generation_ok t s _ _ Hs)) as (_ & E & _). by rewrite E, lookup_delete_eq. }
  rewrite known_ensured. change (known_before s1 key (ID a)) with (known_before s key (ID a)).
  match goal with |- context [if ?c then install _ _ _ ?m [] true _ else _] => set (full := c) in *; set (meta := m) in * end.
  assert (full = false → ¬ every_shard s reg a meta targets scoped now) as Hfull.
  { unfold full, every_shard. fold key. intros Hf. apply orb_false_iff in Hf as [Hf Ht]. apply orb_false_iff in Hf as [Hf Hb].
    apply orb_false_iff in Hf as [Hc Hsc]. apply bool_decide_eq_false in Ht. apply negb_false_iff in Hb, Hc. apply eqb_prop in Hb.
    intros [?|[?|Hw]]; [congruence|done|]. destruct (known_before s key (ID a)) as [m0|]; [|by apply bool_decide_eq_true in Hc as [? ?]].
    destruct (registryEpoch m0 =? ClientRegistrationEpoch reg (ID a)) eqn:Ee; [|by apply bool_decide_eq_true in Hc as [? ?]].
    apply Z.eqb_eq in Ee. destruct Hw as [Hw|[Hw|Hw]]; [done|rewrite Hw in Hc; by apply bool_decide_eq_true in Hc as [? ?]|].
    apply Hw. exact Hb. }
  assert (∀ ts sc, (∀ k, every_shard s reg a meta targets scoped now ∨ k = "" ∨ k ∈ canonicalModelKey <$> targets →
      sc = true ∨ ts = [] ∨ k = "" ∨ k ∈ canonicalModelKey <$> ts) →
    authGenerations (place s1 (ID a) key meta ts sc now) !! ID a = Some (mkGen (RegistrationEpoch a) (Generation a) (UpdatedAt a)) ∧
    ∃ p m, providers (place s1 (ID a) key meta ts sc now) !! key = Some p ∧ auths p !! ID a = Some m ∧
      authProviders (place s1 (ID a) key meta ts sc now) !! ID a = Some key ∧ sm_auth m = Auth_Clone a ∧
      ∀ k, every_shard s reg a m targets scoped now ∨ k = "" ∨ k ∈ canonicalModelKey <$> targets → shows m now p k) as Hput.
  { intros ts sc Hscope. destruct (place_listed s1 (ID a) key meta ts sc now) as [E1 E2].
    split; [by rewrite E2|]. exists (upsertAuthForModelsLocked (target s1 key) meta ts sc now), meta.
    rewrite place_providers, decide_True by done. split_and!; [done| |by rewrite E1, lookup_insert_eq|done|].
    - rewrite upsertForModels_auths. apply lookup_insert_eq.
    - intros k Hk. apply upsertForModels_shows; [by split|]. by apply Hscope. }
  destruct full; apply Hput; [intros; by left|]. intros k [Hk|Hk]; [by destruct (Hfull eq_refl)|by right; right].
Qed.

(** C4: the result of a request takes effect.  A result that is not stale leaves
    its credential listed with the new snapshot, unless that is disabled, which delists it;
    and every shard in its scope shows it in the state it is in now: all of them for a
    credential-wide result, for one that names no model, when the credential is new or its
    models were registered anew, and when the credential as a whole became blocked or free;
    else those of the models it names.  A stale one changes no snapshot, no listing and no
    generation. *)
Theorem result_visible t s reg a targets scoped now :
  clean (ID a) → scheduler_ok t s →
  let s' := upsertAuthResultLocked s reg (Some a) targets scoped now in
  if isStaleScheduledAuth s (ID a) (RegistrationEpoch a) (Generation a) (UpdatedAt a) then
    authProviders s' = authProviders s ∧ authGenerations s' = authGenerations s ∧
    ∀ k, auths <$> providers s' !! k = auths <$> providers s !! k
  else result_shown s s' reg a targets scoped now.
Proof.
  intros Hcl Hs s'. destruct (isStaleScheduledAuth _ _ _ _ _) eqn:Est; [|by apply (result_current t)].
  pose proof Hcl as [Htr Hne]. unfold s', upsertAuthResultLocked. clear s'.
  set (key := executorKeyFromAuth (Some a)). rewrite Htr, (proj2 (String.eqb_neq _ _) Hne), Est.
  destruct (String.eqb key ""); [done|]. destruct (providers s !! key) as [p|] eqn:Ep; [|done].
  destruct (auths p !! ID a) as [m|] eqn:Em; [|done]. split; [done|]. split; [done|]. intros k. simpl.
  destruct (decide (k = key)) as [->|Hk]; [|by rewrite lookup_alter_ne].
  rewrite lookup_alter_eq, Ep. simpl. f_equal.
  destruct (sc_provider _ _ Hs _ _ Ep) as [_ Hp]. destruct (po_auths _ _ _ Hp _ _ Em) as [Hm Eid].
  rewrite upsertForModels_auths, Eid. by apply insert_id.
Qed.
End lifecycle.

(** ** Examples *)

Definition sample_registry : registryView := mkRegistryView (λ _, 1) (λ _, [Some "gpt-5"; None; Some "gpt-5-mini"]).
Definition registered (id provider : string) (e g : Z) : Auth :=
  (simpleAuth id provider) <| RegistrationEpoch := e |> <| Generation := g |>.
Definition plain_request : request := mkRequest "" "" false [].
Definition sample_trace : list (time * event) :=
  [(10, EvUpsert sample_registry (Some (registered "a" "codex" 1 0)));
   (20, EvUpsert sample_registry (Some (registered "b" "codex" 1 0)));
   (20, EvUpsert sample_registry (Some (registered "c" "claude" 1 0)));
   (30, EvPickSingle plain_request "codex" "gpt-5" ∅ schedulerStrategyCurrent 30);
   (40, EvResult sample_registry (Some (registered "a" "codex" 1 1)) ["gpt-5"] false);
   (50, EvPickMixed plain_request ["codex"; "claude"] "gpt-5" ∅ schedulerStrategyCurrent 50)].
#[local] Instance sample_host : GoHost := no_host.
Definition sample_state : authScheduler := run sample_trace (newAuthScheduler None).

Lemma sample_timed : timed 0 sample_trace.
Proof. split; [repeat constructor; simpl; lia|lia]. Qed.
Lemma sample_clean : Forall (λ e, clean_event e.2) sample_trace.
Proof. repeat constructor; done. Qed.
Lemma sample_ok : scheduler_ok 50 sample_state.
Proof. apply (run_ok sample_trace 0); [apply sample_timed|apply sample_clean|apply newAuthScheduler_ok]. Qed.

Lemma run_invariant_witness :
  ∃ p m, providers sample_state !! "claude" = Some p ∧ auths p !! "c" = Some m.
Proof.
  destruct (run_invariant None sample_trace 0 sample_timed sample_clean) as (_ & H & _).
  apply (H "c" "claude"). vm_compute. reflexivity.
Defined.

(** A stale snapshot of a removed credential, and a late result for it. *)
Definition late_trace : list (time * event) :=
  [(70, EvUpsert sample_registry (Some (registered "a" "codex" 1 9)));
   (80, EvResult sample_registry (Some (registered "a" "codex" 1 12)) ["gpt-5"] true);
   (90, EvRebuild sample_registry [Some (registered "a" "codex" 1 1); Some (registered "b" "codex" 1 0)])].

Lemma tombstone_safe_witness :
  provider_of (run late_trace (RecordRemovalTombstone sample_state "a" 2 60)) "a" = "".
Proof.
  refine (proj1 (tombstone_safe 50 sample_state "a" 2 60 late_trace _ sample_ok _ _ _ _ _ _)).
  - done.
  - lia.
  - lia.
  - assert (authGenerations sample_state !! "a" = Some (mkGen 1 1 0)) as -> by (vm_compute; reflexivity).
    intros g [= <-]. simpl. lia.
  - split; [repeat constructor; simpl; lia|lia].
  - repeat constructor; done.
  - repeat constructor; simpl; try lia; done.
Defined.

Lemma clean_a : clean "a".
Proof. by split. Qed.

Lemma result_visible_witness :
  authGenerations (upsertAuthResultLocked sample_state sample_registry (Some (registered "a" "codex" 1 2)) ["gpt-5"] false 60) !! "a"
  = Some (mkGen 1 2 0).
Proof.
  pose proof (result_visible 50 sample_state sample_registry (registered "a" "codex" 1 2) ["gpt-5"] false 60
    clean_a sample_ok) as H.
  assert (isStaleScheduledAuth sample_state "a" 1 2 0 = false) as E by (vm_compute; reflexivity).
  change (isStaleScheduledAuth sample_state (ID (registered "a" "codex" 1 2)) (RegistrationEpoch (registered "a" "codex" 1 2))
    (Generation (registered "a" "codex" 1 2)) (UpdatedAt (registered "a" "codex" 1 2))) with
    (isStaleScheduledAuth sample_state "a" 1 2 0) in H. rewrite E in H. apply H.
Defined.

(** The selections themselves, evaluated. *)
Example sample_single :
  (pickSingle sample_state plain_request "codex" "gpt-5" ∅ 60 60).1 = inl (Auth_Clone (registered "a" "codex" 1 1), "codex").
Proof. vm_compute. reflexivity. Qed.

Lemma pickSingle_sound_witness :
  scheduler_ok 60 (pickSingleWithStrategy sample_state plain_request "codex" "gpt-5" ∅ schedulerStrategyCurrent 60 60).2.
Proof.
  pose proof (pickSingle_sound 50 sample_state plain_request "codex" "gpt-5" ∅ schedulerStrategyCurrent 60 60
    ltac:(lia) ltac:(lia) sample_ok) as H. cbn zeta in H. destruct H as [H _]. exact H.
Defined.

Lemma pickMixed_sound_witness :
  scheduler_ok 60 (pickMixedWithStrategy sample_state plain_request ["codex"; "claude"] "gpt-5" ∅ schedulerStrategyCurrent 60 60).2.
Proof.
  pose proof (pickMixed_sound 50 sample_state plain_request ["codex"; "claude"] "gpt-5" ∅ schedulerStrategyCurrent 60 60
    ltac:(lia) ltac:(lia) sample_ok eq_refl ltac:(vm_compute; lia)) as H. cbn zeta in H. destruct H as [H _]. exact H.
Defined.
