(* ===== verification/Snapshots.v ===== *)
(** * Which snapshot a selection hands out

    Selections invent nothing: what they hand out is a snapshot the scheduler held
    before, and with an update of a credential the old snapshots are gone from
    every shard the update concerns. *)
From Stdlib Require Import ZArith Lia String Bool.
From stdpp Require Import prelude gmap strings.
From S2P Require Import Prelude GoStd AuthTypes Weight Availability Smooth Capacity Errors Rotation Shard Unavailable Scheduler SchedulerInvariant Routing Mixed Lifecycle.
Local Open Scope string_scope.
Local Open Scope list_scope.
Local Open Scope Z_scope.

Section snapshots.
Context `{GoHost}.

(** The scheduler holds [a] for [id]: in a provider or in a shard of model [k]. *)
Definition held (id k : string) (p : providerScheduler) (a : Auth) : Prop :=
  (∃ m, auths p !! id = Some m ∧ sm_auth m = a) ∨
  (∃ sh e, modelShards p !! k = Some sh ∧ entries sh !! id = Some e ∧ e_auth e = a).
Definition snapshot_of (s : authScheduler) (id k : string) (a : Auth) : Prop :=
  ∃ key p, providers s !! key = Some p ∧ held id k p a.

(** ** Shards *)

Lemma build_shard_source l k now id e :
  entries (build_shard l k now) !! id = Some e → ∃ m, m ∈ l ∧ ID (sm_auth m) = id ∧ e_auth e = sm_auth m.
Proof.
  unfold build_shard.
  assert (∀ sh, entries (fold_left (λ sh m, if supportsModel m k then upsertEntryLocked sh m now else sh) l sh) !! id = Some e →
    entries sh !! id = Some e ∨ ∃ m, m ∈ l ∧ ID (sm_auth m) = id ∧ e_auth e = sm_auth m) as Hf.
  { induction l as [|m l IH]; intros sh He; [by left|]. simpl in He.
    apply IH in He as [He|(m' & Hm' & ?)]; [|right; exists m'; split; [by right|done]].
    destruct (supportsModel m k); [|by left]. destruct (upsert_entries sh m now) as [Ee _]. rewrite Ee in He.
    apply lookup_insert_Some in He as [[<- <-]|[_ He]]; [|by left]. right. exists m. split; [by left|done]. }
  intros He%Hf. destruct He as [He|He]; [|done]. simpl in He. by rewrite lookup_empty in He.
Qed.

Lemma ensureModel_held t key p k0 now id k a :
  provider_ok t key p → held id k (ensureModelLocked p k0 now) a → held id k p a.
Proof.
  intros [Ha Hs] [(m & Hm & Ea)|(sh & e & Hsh & He & Ea)].
  { left. exists m. split; [|done]. revert Hm. unfold ensureModelLocked. by destruct (modelShards p !! _). }
  revert Hsh. unfold ensureModelLocked. destruct (modelShards p !! canonicalModelKey k0) as [sh0|] eqn:E; simpl;
    intros [[<- <-]|[_ Hsh]]%lookup_insert_Some; try (right; by exists sh, e).
  - destruct (promoteExpired_entries t sh0 now) as [_ Ee]; [by eapply si_ok, Hs|].
    rewrite Ee, fmap_Some in He. destruct He as (e0 & He0 & ->). destruct (settle_auth sh0 now e0) as [E1 _].
    right. exists sh0, e0. split; [done|]. split; [done|congruence].
  - apply build_shard_source in He as (m & ([i m'] & -> & Hm)%list_elem_of_fmap & Eid & Em).
    apply elem_of_map_to_list in Hm. destruct (Ha i m' Hm) as [_ Ei]. left. exists m'.
    simpl in *. split; [congruence|congruence].
Qed.

Lemma ensure_snapshot t s key k0 now id k a :
  scheduler_ok t s → snapshot_of (ensure s key k0 now) id k a → snapshot_of s id k a.
Proof.
  intros Hs (key' & p & Ep & Hp). destruct (providers s !! key) as [p0|] eqn:E0.
  2:{ rewrite ensure_none in Ep by done. by exists key', p. }
  destruct (decide (key' = key)) as [->|Hne].
  - unfold ensure in Ep. rewrite E0 in Ep. simpl in Ep. rewrite lookup_alter_eq, E0 in Ep. injection Ep as <-.
    exists key, p0. split; [done|]. apply (ensureModel_held t key p0 k0 now); [|done]. by apply (sc_provider t s Hs).
  - rewrite ensure_other in Ep by done. by exists key', p.
Qed.

Lemma ensure_all_snapshot l k0 now id k a : ∀ t s,
  0 ≤ now → t ≤ now → scheduler_ok t s →
  snapshot_of (ensure_all s l k0 now) id k a → snapshot_of s id k a.
Proof.
  induction l as [|x l IH]; intros t s Hn Ht Hs Hx; [done|]. simpl in Hx.
  apply (ensure_snapshot t s x k0 now); [done|]. apply (IH now); [done|lia| |done].
  destruct (providers s !! x) as [p|] eqn:Ep.
  - by apply (ensure_spec t now s x k0 p).
  - rewrite ensure_none by done. by apply (scheduler_ok_mono t).
Qed.

(** The shard a pick leaves holds the same snapshots. *)
Lemma pick_in_snapshot t t' s key k0 pick id k a :
  scheduler_ok t' s → (∀ sh pin, shard_at s key k0 = Some sh → pick_keeps t sh (pick sh pin)) →
  snapshot_of (pick_in s key k0 pick).2 id k a → snapshot_of s id k a.
Proof.
  intros Hs Hpick. unfold pick_in. destruct (shard_at s key k0) as [sh|] eqn:Esh; [|done].
  specialize (Hpick sh (pin_of s key (canonicalModelKey k0)) eq_refl).
  destruct (pick sh _) as [[picked sh'] pin']. simpl in Hpick. intros (key' & p & Ep & Hp). simpl in Ep.
  destruct (decide (key' = key)) as [->|Hne]; [|rewrite lookup_alter_ne in Ep by done; by exists key', p].
  unfold shard_at in Esh. apply bind_Some in Esh as (p0 & Ep0 & Esh).
  rewrite lookup_alter_eq, Ep0 in Ep. simpl in Ep. injection Ep as <-. exists key, p0. split; [done|].
  destruct Hp as [Hp|(sh1 & e & Hsh & He & Ea)]; [by left|]. simpl in Hsh.
  apply lookup_insert_Some in Hsh as [[<- <-]|[_ Hsh]]; [|right; by exists sh1, e].
  destruct Hpick as (_ & Hok' & _ & Hmeta). destruct (Hmeta id e He) as (e0 & He0 & Em).
  destruct (sc_provider t' s Hs key p0 Ep0) as [_ Hpo].
  pose proof (si_ok _ _ _ _ _ (po_shards _ _ _ Hpo _ _ Esh)) as Hok.
  right. exists sh, e0. split; [done|]. split; [done|].
  destruct (so_timely _ _ Hok _ _ He0) as [E1 _]. destruct (so_timely _ _ Hok' _ _ He) as [E2 _]. congruence.
Qed.

(** ** Selections *)

(** What a selection may hand out for model [k]. *)
Definition fresh_choice (s : authScheduler) (k : string) (now : time) (a : Auth) : Prop :=
  snapshot_of s (ID a) k a ∧ is_blocked (isAuthBlockedForModel (Some a) k now) = false.

Lemma shard_snapshot t s key k sh e :
  scheduler_ok t s → shard_at s key k = Some sh → entries sh !! ID (e_auth e) = Some e →
  snapshot_of s (ID (e_auth e)) (canonicalModelKey k) (e_auth e) ∧ modelKey sh = canonicalModelKey k.
Proof.
  intros Hs Esh He. destruct (shard_at_ok t s k Hs key sh Esh) as (p & Ep & Hin).
  split; [|by eapply si_key]. exists key, p. split; [done|]. right. exists sh, e. split; [|done].
  unfold shard_at in Esh. by rewrite Ep in Esh.
Qed.

Lemma ensured_choice t s key k provider model prefer st el tried pinned now at_ :
  0 ≤ now → t ≤ now → scheduler_ok t s →
  let keep := scheduledAuthPredicate el tried pinned (is_weighted st) in
  match (pick_or_error (ensure s key k now) key k provider model prefer st keep now at_).1 with
  | inl (a, _) => fresh_choice s (canonicalModelKey k) now a
  | inr _ => True
  end.
Proof.
  intros Hn Ht Hs keep. destruct (providers s !! key) as [p|] eqn:Ep.
  2:{ rewrite ensure_none by done. unfold pick_or_error, pick_in, shard_at. rewrite Ep. simpl. by rewrite Ep. }
  destruct (ensured_pick t s key k provider model prefer st el tried pinned now at_ p Hn Ht Hs Ep)
    as (Hs2 & _ & sh & Esh & _ & Hres). fold keep in Hs2, Esh, Hres.
  destruct (ensure_spec t now s key k p Hn Ht Hs Ep) as (Hs1 & _).
  assert (∀ id k' a, snapshot_of (pick_or_error (ensure s key k now) key k provider model prefer st keep now at_).2 id k' a →
    snapshot_of s id k' a) as Hback.
  { intros id k' a Ha. apply (ensure_snapshot t s key k now); [done|]. revert Ha. unfold pick_or_error.
    pose proof (λ Hk, pick_in_snapshot now now (ensure s key k now) key k
      (λ shard pin, pickReadyLocked shard prefer st now at_ keep pin) id k' a Hs1 Hk) as Hp.
    destruct (pick_in _ _ _ _) as [[b|] s2]; simpl in *; [|destruct (shard_at s2 key k); simpl]; apply Hp; intros sh0 pin E0;
      (destruct (shard_at_ok now _ k Hs1 key sh0 E0) as (q & _ & Hin));
      (apply (pickReady_keeps now); [done|lia|by eapply si_ok|apply predicate_keep_ok]). }
  destruct (pick_or_error _ _ _ _ _ _ _ _ _ _) as [[[a key']|err] s2]; simpl in *; [|done].
  destruct Hres as (_ & e & <- & [He Hf _ _] & _).
  destruct (shard_snapshot now s2 key k sh e Hs2 Esh He) as [Hsn Hk]. split; [by apply Hback|by rewrite <-Hk].
Qed.

Lemma pickSingle_choice t s r provider model tried st now at_ :
  0 ≤ now → t ≤ now → scheduler_ok t s →
  match (pickSingleWithStrategy s r provider model tried st now at_).1 with
  | inl (a, _) => fresh_choice s (canonicalModelKey (canonicalModelKey model)) now a
  | inr _ => True
  end.
Proof.
  intros Hn Ht Hs. unfold pickSingleWithStrategy. destruct (providers s !! _); [|done].
  by apply (ensured_choice t).
Qed.

Lemma pickMixed_choice t s r l model tried st now at_ :
  0 ≤ now → t ≤ now → scheduler_ok t s →
  match (pickMixedWithStrategy s r l model tried st now at_).1 with
  | inl (a, _) => fresh_choice s (canonicalModelKey (canonicalModelKey model)) now a
  | inr _ => True
  end.
Proof.
  intros Hn Ht Hs. destruct (String.eqb_spec (pinnedAuthIDFromMetadata (opts_metadata r)) "") as [Hpin|Hpin].
  - destruct (normalizeProviderKeys l) as [|p1 [|p2 ps]] eqn:El.
    + unfold pickMixedWithStrategy. by rewrite El.
    + unfold pickMixedWithStrategy. rewrite El. by apply (pickSingle_choice t).
    + destruct (pickMixed_spec t s r l model tried st now at_ Hn Ht Hs Hpin) as (_ & _ & Hres); [rewrite El; simpl; lia|].
      destruct (pickMixedWithStrategy _ _ _ _ _ _ _ _).1 as [[a key]|err]; [|done].
      destruct Hres as (e & <- & (_ & sh & Esh & [He Hf _ _]) & _).
      destruct (normalize_spec l) as [Hnd _].
      destruct (ensure_all_spec (normalizeProviderKeys l) (canonicalModelKey model) now t s Hn Ht Hnd Hs) as (Hs1 & _).
      destruct (shard_snapshot now _ key _ sh e Hs1 Esh He) as [Hsn Hk].
      split; [by eapply ensure_all_snapshot|by rewrite <-Hk].
  - unfold pickMixedWithStrategy. destruct (normalizeProviderKeys l) as [|p1 [|p2 ps]]; [done|by apply (pickSingle_choice t)|].
    rewrite (proj2 (String.eqb_neq _ _) Hpin). simpl. destruct (_ || _); [done|].
    destruct (providers s !! _); [|done]. by apply (ensured_choice t).
Qed.

(** ** After an update *)

(** Every snapshot of [id] for model [k] has the property. *)
Definition all_snapshots (P : Auth → Prop) (s : authScheduler) (id k : string) : Prop :=
  ∀ a, snapshot_of s id k a → P a.

Lemma unlisted_snapshots t s id k P : scheduler_ok t s → authProviders s !! id = None → all_snapshots P s id k.
Proof.
  intros Hs Hn a (key & p & Ep & Hp). exfalso.
  assert (auths p !! id = None) as Ha.
  { destruct (auths p !! id) as [m|] eqn:Em; [|done]. pose proof (sc_home _ _ Hs _ _ _ _ Ep Em). congruence. }
  destruct Hp as [(m & Hm & _)|(sh & e & Hsh & He & _)]; [congruence|].
  destruct (sc_provider _ _ Hs _ _ Ep) as [_ Hok].
  destruct (proj1 (si_member _ _ _ _ _ (po_shards _ _ _ Hok _ _ Hsh) id)) as (m & Em & _); [by eexists|congruence].
Qed.

Lemma result_snapshots t s reg a targets scoped now k :
  clean (ID a) → scheduler_ok t s → 0 ≤ now → t ≤ now →
  isStaleScheduledAuth s (ID a) (RegistrationEpoch a) (Generation a) (UpdatedAt a) = false →
  scoped = true ∨ targets = [] ∨ k = "" ∨ k ∈ canonicalModelKey <$> targets →
  all_snapshots (λ b, b = Auth_Clone a) (upsertAuthResultLocked s reg (Some a) targets scoped now) (ID a) k.
Proof.
  intros Hcl Hs Hn Ht Hst Hk. pose proof (result_ok t now s reg (Some a) targets scoped Hn Ht Hcl Hs) as Hs'.
  destruct (result_current t s reg a targets scoped now Hcl Hs Hst) as [_ Hsh].
  set (s' := upsertAuthResultLocked _ _ _ _ _ _) in *.
  destruct (String.eqb _ _ || disabled a); [by apply (unlisted_snapshots now)|].
  destruct Hsh as (p & m & Ep & Em & El & Ea & Hsh). specialize (Hsh k ltac:(unfold every_shard; destruct Hk as [?|[?|[?|?]]]; auto)).
  assert (ID (sm_auth m) = ID a) as Eid by (by rewrite Ea).
  intros b (key' & p' & Ep' & Hb).
  assert (∀ m', auths p' !! ID a = Some m' → p' = p) as Hone.
  { intros m' Em'. pose proof (sc_home _ _ Hs' _ _ _ _ Ep' Em') as E1. rewrite El in E1. injection E1 as <-. congruence. }
  destruct Hb as [(m' & Em' & <-)|(sh & e & Hshd & He & <-)].
  { specialize (Hone _ Em'). subst p'. congruence. }
  destruct (sc_provider _ _ Hs' _ _ Ep') as [_ Hok]. pose proof (po_shards _ _ _ Hok _ _ Hshd) as Hin.
  destruct (proj1 (si_member _ _ _ _ _ Hin (ID a)) ltac:(by eexists)) as (m' & Em' & _).
  specialize (Hone _ Em'). subst p'. rewrite <-Eid in He.
  destruct (Hsh sh e Hshd He (si_key _ _ _ _ _ Hin)) as (_ & -> & _). done.
Qed.
End snapshots.
