(* ===== verification/Manager.v ===== *)
(** * The manager: results on their way to the scheduler

    Models the [Manager] around [ExecutionResult]: [MarkResult] with its stale branch,
    its counters and everything it tells other components, [ResetQuota],
    [clearDisabledCooldownStates], [RestoreCooldownStates] with the scheduler,
    availability-neutral results and the execution sequence.

    One call holds the per-credential mutation lock, so it is one step of the state.
    Calls into other components are the notices it leaves, in their order; the
    scheduler is part of the state.  [AuthStore] is the token store: [persisted] is
    what a store may make of the credential it is given, [merge_saved] what the
    manager takes over from it.  [ModelAliases] is the alias table of the
    configuration.  The registry is read through the scheduler's [registryView]. *)
From Stdlib Require Import ZArith Lia Ascii String Bool.
From stdpp Require Import prelude gmap strings.
From S2P Require Import Prelude GoStd AuthTypes Errors Json Classify Availability AvailabilityEquiv QuotaSignals Cooldown ExecutionResult ResultProofs ResultInvariant CooldownRecord Shard Scheduler SchedulerInvariant Routing Lifecycle.
Local Open Scope string_scope.
Local Open Scope list_scope.
Local Open Scope Z_scope.

(** ** State and surroundings *)

Record Manager := mkManager {
  m_auths : gmap string Auth; quotaFailureCounts : gmap string Z; executionSeq : Z;
  m_scheduler : option authScheduler }.
#[export] Instance Manager_eta : Eta Manager :=
  λ m, mkManager (m_auths m) (quotaFailureCounts m) (executionSeq m) (m_scheduler m).

Class AuthStore := { persisted : Auth → Auth }.
Class ModelAliases := { selectionModelForAuth : Auth → string → string }.

Record ClientModelProjection := mkProjection {
  ModelID : string; Suspended : bool; SuspendReason : string; QuotaExceeded : bool }.

(** What a call tells the other components, in order. *)
Inductive notice :=
| QuotaRefresh
| PersistCooldowns
| RescheduleRefresh (id : string)
| ApplyProjections (id : string) (epoch generation : Z) (projections : list ClientModelProjection)
| OnResult (result : Result)
| ErrorEvent (result : Result) (snapshot : option Auth)
| SessionAffinity (result : Result).

(** What one call sees of its surroundings. *)
Record world := mkWorld {
  w_registry : registryView; w_headers : Header; w_tracked : bool; w_notified : bool;
  w_policy : option (Result → Result) }.

Definition nextExecutionSeq (m : Manager) : Manager * Z :=
  let seq := wrapu64 (executionSeq m + 1) in (m <| executionSeq := seq |>, seq).
Definition currentExecutionSeq (m : Manager) : Z := executionSeq m.

Section manager.
Context {gh : GoHost} {gj : Gjson} {st : Settings} {store : AuthStore} {aliases : ModelAliases}.

(** [persistLocked]: the fields the manager takes over from the store.  Its own and
    the unexported ones stay. *)
Definition merge_saved (auth : Auth) : Auth :=
  (persisted auth)
    <| ID := ID auth |> <| RegistrationEpoch := RegistrationEpoch auth |>
    <| CredentialVersion := CredentialVersion auth |> <| Generation := Generation auth |>
    <| RejectedAccessToken := RejectedAccessToken auth |>
    <| RejectedSIWCAccessToken := RejectedSIWCAccessToken auth |>
    <| authCooldownRecordedSeq := authCooldownRecordedSeq auth |>
    <| recentRequests := recentRequests auth |> <| indexAssigned := indexAssigned auth |>
    <| fileSnapshotPath := fileSnapshotPath auth |> <| fileSnapshotDigest := fileSnapshotDigest auth |>.

Definition selectionModelKeyForAuth (auth : Auth) (routeModel : string) : string :=
  canonicalModelKey (selectionModelForAuth auth routeModel).

(** ** The registry's view of a credential *)

Definition clientModelProjectionForAuth (auth : option Auth) (routeModel : string) (now : time)
    : ClientModelProjection :=
  let targetModel := TrimSpace routeModel in
  if String.eqb targetModel "" then mkProjection "" false "" false else
  match auth with
  | None => mkProjection targetModel false "" false
  | Some a =>
      let targetKey := selectionModelKeyForAuth a targetModel in
      let targetKey := if String.eqb targetKey "" then canonicalModelKey targetModel else targetKey in
      let state := existingModelState a targetKey in
      let isSuspended := Disabled a || bool_decide (A_Status a = StatusDisabled) || credential_wrap a now in
      let '(isSuspended, isQuotaExceeded, suspendReason) :=
        match state with
        | None => (isSuspended, false, "")
        | Some s =>
            let isSuspended := isSuspended || bool_decide (M_Status s = StatusDisabled) || M_Unavailable s
                               || (negb (IsZero (M_NextRetryAfter s)) && After (M_NextRetryAfter s) now) in
            (isSuspended,
             Q_Exceeded (M_Quota s) && (IsZero (Q_NextRecoverAt (M_Quota s)) || After (Q_NextRecoverAt (M_Quota s)) now),
             if isSuspended then cooldownReason (M_StatusMessage s) (M_Quota s) (M_LastError s) else "")
        end in
      let isSuspended := isSuspended || (bool_decide (ModelStates a = ∅) && Unavailable a && After (NextRetryAfter a) now) in
      let suspendReason := if isSuspended && String.eqb suspendReason ""
                           then cooldownReason (StatusMessage a) (Quota a) (LastError a) else suspendReason in
      mkProjection targetModel isSuspended suspendReason isQuotaExceeded
  end.

Definition projections_of (w : world) (snapshot : option Auth) (id : string) (now : time)
    : list ClientModelProjection :=
  omap (λ sm, match sm with
              | Some model => if String.eqb (TrimSpace model) "" then None
                              else Some (clientModelProjectionForAuth snapshot model now)
              | None => None
              end) (GetModelsForClient (w_registry w) id).

(** ** MarkResult *)

(** The model a result is filed under. *)
Definition result_key (result : Result) (auth : Auth) : string :=
  let modelKey := canonicalModelKey (R_Model result) in
  if String.eqb modelKey "" && negb (String.eqb (TrimSpace (RouteModel result)) "") then
    let modelKey := selectionModelKeyForAuth auth (RouteModel result) in
    if String.eqb modelKey "" then canonicalModelKey (RouteModel result) else modelKey
  else modelKey.

(** The counter of quota failures, and whether the notifier is to be called. *)
Definition count_quota (result : Result) (counts : gmap string Z) : gmap string Z * bool :=
  let id := R_AuthID result in
  if R_Success result then (if CountTokens result then counts else delete id counts, false)
  else if StatusCode (R_Error result) =? TooManyRequests then
    let count := wrap64 (default 0 (counts !! id) + 1) in
    (<[id := count]> counts, Z.rem count quotaRefreshFailureCount =? 0)
  else (counts, false).

(** The shards a result of one model concerns. *)
Definition target_models (result : Result) (modelKey : string) (credentialScoped : bool) : list string :=
  if negb credentialScoped && negb (String.eqb modelKey "") then
    let routeKey := canonicalModelKey (RouteModel result) in
    modelKey :: (if negb (String.eqb routeKey "") && negb (String.eqb routeKey modelKey) then [routeKey] else [])
  else [].

(** A result that is not stale: [now] is read under the lock, [later] by the
    scheduler. *)
Definition mark_current (w : world) (result : Result) (auth : Auth) (now later : time) (m : Manager)
    : Manager * list notice :=
  let id := R_AuthID result in
  let modelKey := result_key result auth in
  let before := cooldownStateRecordsForAuthLocked (Some auth) now in
  let '(counts, refresh_quota) := count_quota result (quotaFailureCounts m) in
  let '(auth, refresh) := mark_auth result modelKey (w_headers w) (currentExecutionSeq m) now auth in
  let auth := merge_saved auth in
  let snapshot := Auth_Clone auth in
  let changed := w_tracked w && negb (cooldownStateRecordsEqual before (cooldownStateRecordsForAuthLocked (Some auth) now)) in
  let credentialScoped := CredentialScope result || refresh in
  let scheduler := (λ s, upsertAuthResultLocked s (w_registry w) (Some snapshot)
                           (target_models result modelKey credentialScoped) credentialScoped later) <$> m_scheduler m in
  let projections := projections_of w (Some snapshot) id now in
  (m <| m_auths := <[id := auth]> (m_auths m) |> <| quotaFailureCounts := counts |> <| m_scheduler := scheduler |>,
   (if refresh_quota && w_notified w then [QuotaRefresh] else [])
   ++ (if changed then [PersistCooldowns] else [])
   ++ (if bool_decide (is_Some (devinQuotaRevalidateAt (Some snapshot) now)) || refresh
       then [RescheduleRefresh id] else [])
   ++ (if bool_decide (projections = []) then []
       else [ApplyProjections id (ClientRegistrationEpoch (w_registry w) id) (Generation snapshot) projections])
   ++ [OnResult result; ErrorEvent result (Some snapshot); SessionAffinity result]).

(** [started] is the clock at the beginning of the call. *)
Definition MarkResult (w : world) (result : Result) (started now later : time) (m : Manager)
    : Manager * list notice :=
  if String.eqb (R_AuthID result) "" then (m, []) else
  let result := match w_policy w with Some policy => policy result | None => result end in
  if String.eqb (R_AuthID result) "" then (m, []) else
  match m_auths m !! R_AuthID result with
  | Some auth =>
      if isStaleExecutionResult result (Some auth) then
        (m <| m_auths := <[R_AuthID result := mark_stale result started auth]> (m_auths m) |>,
         [OnResult result; ErrorEvent result None])
      else mark_current w result auth now later m
  | None => (m, [OnResult result; ErrorEvent result None; SessionAffinity result])
  end.

(** A result that says nothing about availability: only the counters move. *)
Definition recordAvailabilityNeutralResult (result : Result) (now : time) (m : Manager) : Manager * list notice :=
  if String.eqb (R_AuthID result) "" then (m, []) else
  match m_auths m !! R_AuthID result with
  | None => (m, [OnResult result; ErrorEvent result None])
  | Some auth =>
      if isStaleExecutionResult result (Some auth) then (m, [OnResult result; ErrorEvent result None]) else
      let auth := merge_saved ((bump_generation (mark_counters result now auth)) <| UpdatedAt := now |>) in
      (m <| m_auths := <[R_AuthID result := auth]> (m_auths m) |>,
       [OnResult result; ErrorEvent result (Some (Auth_Clone auth))])
  end.

(** A result as the execution reports it: the credential it ran with fills what the
    caller left open.  Results of ephemeral credentials stay outside. *)
Definition recordExecutionResult (w : world) (result : Result) (auth : option Auth) (ephemeral : bool)
    (started now later : time) (m : Manager) : Manager * list notice :=
  let result := match auth with
    | None => result
    | Some a =>
        let result := if R_CredentialVersion result =? 0
                      then result <| R_CredentialVersion := CredentialVersion a |> else result in
        let result := if R_RegistrationEpoch result =? 0
                      then result <| R_RegistrationEpoch := RegistrationEpoch a |> else result in
        if String.eqb (R_AccessToken result) ""
        then result <| R_AccessToken := authAccessToken auth |> else result
    end in
  if negb ephemeral then MarkResult w result started now later m
  else if String.eqb (R_AuthID result) "" then (m, [])
  else (m, [OnResult result; ErrorEvent result (Auth_Clone <$> auth); SessionAffinity result]).

(** ** Clearing cooldowns by hand *)

Fixpoint dedupe (seen : gset string) (values : list string) : list string :=
  match values with
  | [] => []
  | value :: values =>
      let value := TrimSpace value in
      if String.eqb value "" || bool_decide (value ∈ seen) then dedupe seen values
      else value :: dedupe ({[value]} ∪ seen) values
  end.
Definition dedupeStrings (values : list string) : list string :=
  if (length values <? 2)%nat then values else dedupe ∅ values.

Definition modelsForRegisteredAuth (reg : registryView) (authID : string) : list string :=
  omap (λ sm, match sm with
              | Some model => if String.eqb (TrimSpace model) "" then None else Some (canonicalModelKey model)
              | None => None
              end) (GetModelsForClient reg authID).

(** The credential of a [ResetQuota], and the models it answers. *)
Definition reset_auth (registered : list string) (now : time) (auth : Auth) : Auth * list string :=
  let models := filter (λ k, TrimSpace k ≠ "") (map_to_list (ModelStates auth)).*1 in
  let auth := auth <| ModelStates := map_imap (λ k o, Some (if String.eqb (TrimSpace k) "" then o
                                         else option_map (λ s, resetModelState s now) o)) (ModelStates auth) |> in
  let '(auth, changed) := clearCooldownStateForAuth auth now in
  let auth := if (changed : bool) then auth
              else if bool_decide (ModelStates auth = ∅) then auth else updateAggregatedAvailability auth now in
  let models := dedupeStrings (if bool_decide (models = []) then registered else models) in
  let auth := if negb (Disabled auth) && negb (bool_decide (A_Status auth = StatusDisabled))
                 && negb (hasModelError auth now) && negb (hasUnauthorizedAuthFailure (Some auth))
              then auth <| LastError := None |> <| StatusMessage := "" |> <| A_Status := StatusActive |> else auth in
  ((bump_generation auth) <| UpdatedAt := now |>, models).

(** The error is an empty identifier; [None] an unknown one.  What a failing store
    answers is its own business and changes nothing here. *)
Definition ResetQuota (w : world) (authID : string) (now later : time) (m : Manager)
    : string + (Manager * option (Auth * list string) * list notice) :=
  let authID := TrimSpace authID in
  if String.eqb authID "" then inl "auth id is required" else
  match m_auths m !! authID with
  | None => inr (m, None, [])
  | Some auth =>
      let before := cooldownStateRecordsForAuthLocked (Some auth) now in
      let '(auth, models) := reset_auth (modelsForRegisteredAuth (w_registry w) authID) now auth in
      let snapshot := Auth_Clone auth in
      let changed := w_tracked w && negb (cooldownStateRecordsEqual before (cooldownStateRecordsForAuthLocked (Some auth) now)) in
      let auth := merge_saved auth in
      let scheduler := (λ s, upsertAuth s (w_registry w) (Some snapshot) later) <$> m_scheduler m in
      inr (m <| m_auths := <[authID := auth]> (m_auths m) |> <| m_scheduler := scheduler |>,
           Some (snapshot, models),
           [ApplyProjections authID (ClientRegistrationEpoch (w_registry w) authID) (Generation snapshot)
              (projections_of w (Some snapshot) authID now)]
           ++ (if changed then [PersistCooldowns] else []))
  end.

(** A configuration that switches cooling off clears the cooldowns it makes void. *)
Definition clearable (cfg : option Config) (auth : Auth) : bool :=
  quotaCooldownDisabledForAuthWithConfig (Some auth) cfg || Disabled auth || bool_decide (A_Status auth = StatusDisabled).
Definition clearDisabledCooldownStates (cfg : option Config) (reg : registryView) (now later : time) (m : Manager)
    : Manager * bool :=
  let cleared := omap (λ kv, if clearable cfg kv.2 then
                               let '(auth, changed) := clearCooldownStateForAuth kv.2 now in
                               if (changed : bool) then Some (Auth_Clone auth) else None
                             else None) (map_to_list (m_auths m)) in
  let auths := (λ auth, if clearable cfg auth then (clearCooldownStateForAuth auth now).1 else auth) <$> m_auths m in
  let scheduler := (λ s, fold_left (λ s auth, upsertAuth s reg (Some auth) later) cleared s) <$> m_scheduler m in
  (m <| m_auths := auths |> <| m_scheduler := scheduler |>, negb (bool_decide (cleared = []))).

(** Restoring records and telling the scheduler of the credentials they touched. *)
Definition restored_ids (records : list CooldownStateRecord) (now : time) (auths : gmap string Auth) : gset string :=
  (fold_left (λ acc r,
     let '(auths, ids) := acc in
     let id := TrimSpace (CR_AuthID r) in
     if (restoreCooldownRecordLocked r (auths !! id) now).2 then (restore_into now auths r, {[id]} ∪ ids) else acc)
   (filter (λ r, TrimSpace (CR_Model r) ≠ "") records ++ filter (λ r, TrimSpace (CR_Model r) = "") records)
   (auths, ∅)).2.
Definition restore (w : world) (records : list CooldownStateRecord) (now later : time) (m : Manager)
    : Manager * list notice :=
  if bool_decide (records = []) then (m, []) else
  let auths := RestoreCooldownStates records now (m_auths m) in
  let touched := omap (λ id, auths !! id) (elements (restored_ids records now (m_auths m))) in
  let scheduler := (λ s, fold_left (λ s auth, upsertAuth s (w_registry w) (Some (Auth_Clone auth)) later) touched s)
                     <$> m_scheduler m in
  (m <| m_auths := auths |> <| m_scheduler := scheduler |>, [PersistCooldowns]).
End manager.

(** ** Stores that leave the availability alone *)

(** Any store: what it keeps of a credential tells nothing else of its availability. *)
Class KeepsAvailability `{GoHost} `{AuthStore} : Prop :=
  merge_saved_same : ∀ auth, same_availability (merge_saved auth) auth.

Section same.
Context {gh : GoHost}.

Lemma clone_same auth : same_availability (Auth_Clone auth) auth.
Proof.
  split; [done|done|]. intros k. simpl. rewrite lookup_fmap.
  destruct (ModelStates auth !! k) as [[s|]|]; simpl; repeat constructor.
Qed.
End same.

(** ** A concrete surrounding *)

(** A store that keeps what it is given, and no aliases. *)
Definition plain_store : AuthStore := {| persisted := λ a, a |}.
Definition no_aliases : ModelAliases := {| selectionModelForAuth := λ _ model, model |}.
Lemma plain_store_keeps : @KeepsAvailability no_host plain_store.
Proof. intros []. reflexivity. Defined.
Definition quiet_world : world := mkWorld (mkRegistryView (λ _, 1) (λ _, [Some "gpt-5"])) [] false false None.
Definition one_auth (auth : Auth) : Manager := mkManager {["a" := auth]} ∅ 3 None.
