(* ===== verification/Handover.v ===== *)
(** * From a reported result to the next selection

    The theorems that need the manager and the scheduler together: a result goes
    through [MarkResult], the credential it leaves through the store's merge and the
    clone for the scheduler, and what the scheduler then holds decides the next
    selections. *)
From Stdlib Require Import ZArith Lia Ascii String Bool.
From stdpp Require Import prelude gmap strings.
From S2P Require Import Prelude GoStd AuthTypes Errors Json Classify Availability AvailabilityEquiv QuotaSignals Cooldown ExecutionResult ResultProofs QuotaReach ResultInvariant CooldownRecord Shard Scheduler SchedulerInvariant Routing Mixed Lifecycle Snapshots Manager.
Local Open Scope string_scope.
Local Open Scope list_scope.
Local Open Scope Z_scope.

(** ** The registration of a credential

    Its identifier, registration epoch and generation, which order snapshots. *)
Definition registration (auth : Auth) : string * Z * Z := (ID auth, RegistrationEpoch auth, Generation auth).

Lemma registration_put auth key s : registration (put_state auth key s) = registration auth.
Proof. done. Qed.

Lemma registration_normalize auth : registration (normalizeModelStates auth) = registration auth.
Proof. unfold normalizeModelStates, normalizeModelStates_in. by destruct (fold_left _ _ _) as [? []]. Qed.

Lemma registration_ensure auth key : registration (ensureModelState auth key).1 = registration auth.
Proof.
  unfold ensureModelState. case_match; [done|]. rewrite <-(registration_normalize auth).
  by destruct (ModelStates (normalizeModelStates auth) !! _) as [[s|]|].
Qed.

Lemma registration_aggregate auth now : registration (updateAggregatedAvailability auth now) = registration auth.
Proof.
  unfold updateAggregatedAvailability, updateAggregatedAvailability_in.
  destruct (hasUnauthorizedAuthFailure _); [done|]. destruct (credential_wrap _ _); [done|].
  destruct (negb _); [done|]. cbv zeta. destruct (quotaExceeded _); [done|]. by destruct (_ && _).
Qed.
#[local] Hint Rewrite registration_put registration_normalize registration_ensure registration_aggregate : registration.

Section registration.
Context {gh : GoHost} {gj : Gjson} {st : Settings}.

Lemma registration_counters result now auth : registration (mark_counters result now auth) = registration auth.
Proof. unfold mark_counters. by destruct (R_Success result). Qed.

Lemma registration_clear_error auth now : registration (clear_error auth now) = registration auth.
Proof. unfold clear_error. by case_match. Qed.

Lemma registration_reset_model auth key now : registration (reset_model auth key now) = registration auth.
Proof.
  unfold reset_model. rewrite <-(registration_ensure auth key).
  by destruct (ensureModelState auth key) as [a [s|]].
Qed.
#[local] Hint Rewrite registration_counters registration_clear_error registration_reset_model : registration.

Lemma registration_success result wt key now auth :
  registration (mark_success result wt key now auth) = registration auth.
Proof.
  unfold mark_success. destruct wt; [destruct (negb _); by autorewrite with registration|].
  destruct (_ && _); [done|]. destruct (_ || _); [done|]. destruct (CountTokens result); [by autorewrite with registration|].
  destruct (negb _); [by autorewrite with registration|]. unfold clearAuthStateOnSuccess. by case_match.
Qed.

Lemma registration_fields result wt dis key now saved auth s :
  registration (model_failure_fields result wt dis key now saved auth s).1 = registration auth.
Proof.
  unfold model_failure_fields. destruct (isModelSupportResultError _); [done|].
  destruct (isCloudflareChallengeResultError _).
  { destruct (nextCloudflareCooldown _ _ _). cbn [fst]. by destruct (_ && _). }
  destruct (isInvalidGrantResultError _); [done|]. destruct (bool_decide _); [done|].
  destruct (_ =? 404); [done|]. destruct (_ =? 429); [|done].
  unfold model_quota_failure. destruct (if dis then _ else _) as [n l]. destruct (_ && _); [|done].
  by destruct wt.
Qed.

Lemma registration_model_failure result wt key now seq auth :
  registration (mark_model_failure result wt key now seq auth) = registration auth.
Proof.
  unfold mark_model_failure. rewrite <-(registration_ensure auth key).
  destruct (ensureModelState auth key) as [auth1 [s|]]; [|done]. cbn [fst].
  set (s1 := unwrap_expired auth1 now s).
  match goal with |- context [let '(_, _) := ?x in _] => set (noted := x) end.
  assert (registration noted.1 = registration auth1) as Hnoted.
  { unfold noted. destruct (R_Error result); [by destruct wt|done]. }
  destruct noted as [auth2 s2]. cbn [fst] in Hnoted.
  match goal with |- context [model_failure_fields ?r ?w ?d ?k ?n ?sv auth2 s2] =>
    pose proof (registration_fields r w d k n sv auth2 s2) as Hf; destruct (model_failure_fields r w d k n sv auth2 s2) as [auth3 s3] end.
  cbn [fst] in Hf. rewrite registration_aggregate. transitivity (registration auth3); [|congruence].
  by destruct (_ && _).
Qed.

Lemma registration_auth_fields auth err hint now dis :
  registration (auth_failure_fields auth err hint now dis) = registration auth.
Proof.
  unfold auth_failure_fields. destruct (isCloudflareChallengeResultError _).
  { by destruct (nextCloudflareCooldown _ _ _). }
  destruct (isInvalidGrantResultError _); [done|]. destruct (_ =? 401); [done|]. destruct (_ || _); [done|].
  destruct (_ =? 404); [done|]. destruct (_ =? 429); [|by destruct (gateway_status _)].
  destruct dis; [done|]. by destruct (quota_deadline _ _ _).
Qed.

Lemma registration_auth_failure auth err hint now dis :
  registration (applyAuthFailureState auth err hint now dis) = registration auth.
Proof.
  unfold applyAuthFailureState. destruct (shouldSkipCredentialCooldown err); [done|].
  set (marked := match err with Some e => _ | None => _ end).
  assert (registration marked = registration auth) as Hm by (unfold marked; by destruct err).
  clearbody marked. pose proof (registration_auth_fields marked err hint now dis) as Hf. rewrite Hm in Hf.
  set (a := auth_failure_fields marked err hint now dis) in *. clearbody a.
  set (forced := if force_cooldown err && _ then _ else _).
  assert (registration forced = registration auth) as Hfo by (unfold forced; by destruct (force_cooldown err && _)).
  clearbody forced. by destruct (_ && _ && _).
Qed.

Lemma registration_failure result wt key now seq auth :
  registration (mark_failure result wt key now seq auth) = registration auth.
Proof.
  unfold mark_failure. destruct (negb _).
  - destruct (shouldSkipCredentialCooldown _); [done|apply registration_model_failure].
  - destruct wt; [done|].
    exact (registration_auth_failure auth (R_Error result) (RetryAfter result) now _).
Qed.

Lemma registration_rejected auth token : registration (recordRejectedTokenOnAuth auth token).1 = registration auth.
Proof.
  unfold recordRejectedTokenOnAuth. destruct (String.eqb (TrimSpace token) ""); [done|].
  destruct (negb (String.eqb (authSIWCTokenField (Some auth) "access_token") "") && _ && _); cbv iota beta;
    match goal with |- context [if ?b then _ else _] => destruct b end; done.
Qed.

Lemma registration_unauthorized result wt now auth :
  registration (mark_unauthorized result wt now auth).1 = registration auth.
Proof.
  unfold mark_unauthorized. set (rejected := if unauthorized_failure result then _ else auth).
  assert (registration rejected = registration auth) as Hr.
  { unfold rejected. destruct (unauthorized_failure result); [apply registration_rejected|done]. }
  clearbody rejected. destruct wt; [done|]. destruct (_ && _); [|done]. by destruct (IsZero _).
Qed.

Lemma registration_outcome result key seq now auth :
  registration (mark_outcome result key seq now auth).1 = registration auth.
Proof.
  unfold mark_outcome. rewrite registration_unauthorized.
  destruct (R_Success result); by rewrite ?registration_success, ?registration_failure, registration_counters.
Qed.

Lemma registration_observe result key headers now auth :
  registration (observe result key headers now auth) = registration auth.
Proof. unfold observe. case_match; [done|]. by destruct (existingModelState _ _). Qed.

(** Every result of the current registration is its next generation. *)
Lemma registration_mark result key headers seq now auth :
  registration (mark_auth result key headers seq now auth).1
  = (ID auth, RegistrationEpoch auth, wrapu64 (Generation auth + 1)).
Proof.
  unfold mark_auth. pose proof (registration_outcome result key seq now auth) as Ho.
  destruct (mark_outcome result key seq now auth) as [a r]. cbn [fst] in *. rewrite registration_observe.
  unfold registration in *. simpl. by injection Ho as -> -> ->.
Qed.
End registration.

(** ** What the scheduler is given *)

Section handover.
Context {gh : GoHost} {gj : Gjson} {st : Settings} {store : AuthStore} {aliases : ModelAliases}.
Context {keeps : KeepsAvailability}.

(** The snapshot of a credential after a result, as the shards receive it. *)
Definition reported_snapshot (w : world) (result : Result) (now : time) (m : Manager) (auth : Auth) : Auth :=
  Auth_Clone (merge_saved (mark_auth result (result_key result auth) (w_headers w) (currentExecutionSeq m) now auth).1).

Lemma reported_same w result now m auth :
  same_availability (reported_snapshot w result now m auth)
    (mark_auth result (result_key result auth) (w_headers w) (currentExecutionSeq m) now auth).1.
Proof. unfold reported_snapshot. etransitivity; [apply clone_same|apply merge_saved_same]. Qed.

Lemma reported_registration w result now m auth :
  registration (reported_snapshot w result now m auth) = (ID auth, RegistrationEpoch auth, wrapu64 (Generation auth + 1)).
Proof.
  rewrite <-(registration_mark result (result_key result auth) (w_headers w) (currentExecutionSeq m) now auth). done.
Qed.

(** The scheduler knows the credential as it is or from before, and the generation has
    room for one more result. *)
Definition in_step (s : authScheduler) (auth : Auth) : Prop :=
  0 ≤ Generation auth < 2 ^ 64 - 1 ∧
  ∀ g, authGenerations s !! ID auth = Some g →
    epoch g < RegistrationEpoch auth ∨ epoch g = RegistrationEpoch auth ∧ generation g ≤ Generation auth.

Lemma reported_fresh w result now m auth s :
  in_step s auth → let a := reported_snapshot w result now m auth in
  isStaleScheduledAuth s (ID a) (RegistrationEpoch a) (Generation a) (UpdatedAt a) = false.
Proof.
  intros [Hg Hs] a. pose proof (reported_registration w result now m auth) as Hr. fold a in Hr.
  clearbody a. unfold registration in Hr. injection Hr as -> -> ->. rewrite wrapu64_id by (unfold is_uint64; lia).
  unfold isStaleScheduledAuth. destruct (authGenerations s !! ID auth) as [g|] eqn:E; [|done].
  destruct (Hs g eq_refl) as [Hlt|[-> Hle]].
  - destruct (Z.ltb_spec (RegistrationEpoch auth) (epoch g)), (Z.eqb_spec (epoch g) (RegistrationEpoch auth)); done || lia.
  - rewrite Z.ltb_irrefl, Z.eqb_refl.
    destruct (Z.ltb_spec (Generation auth + 1) (generation g)), (Z.eqb_spec (generation g) (Generation auth + 1)); done || lia.
Qed.

(** *** The scheduler after [MarkResult] *)

(** A result that reaches its credential. *)
Record delivered (w : world) (result : Result) (m : Manager) (s : authScheduler) (auth : Auth) : Prop := {
  dl_policy : w_policy w = None;
  dl_scheduler : m_scheduler m = Some s;
  dl_current : m_auths m !! R_AuthID result = Some auth;
  dl_id : ID auth = R_AuthID result;
  dl_clean : clean (ID auth);
  dl_fresh : isStaleExecutionResult result (Some auth) = false;
  dl_step : in_step s auth }.

(** The shards of [k] hear of the result. *)
Definition concerns (result : Result) (auth : Auth) (k : string) : Prop :=
  CredentialScope result = true ∨ result_key result auth = "" ∨ normal (result_key result auth) ∧ k = result_key result auth.

Lemma delivered_schedule w result started now later m s auth k t :
  delivered w result m s auth → concerns result auth k → scheduler_ok t s → 0 ≤ later → t ≤ later →
  ∃ s', m_scheduler (MarkResult w result started now later m).1 = Some s' ∧ scheduler_ok later s' ∧
    all_snapshots (λ a, a = Auth_Clone (reported_snapshot w result now m auth)) s' (ID auth) k.
Proof.
  intros [Hpol Hs Hcur Hid Hcl Hfresh Hstep] Hk Hok H0 Ht. unfold MarkResult. rewrite Hpol.
  assert (R_AuthID result ≠ "") as Hne by (rewrite <-Hid; apply Hcl).
  rewrite (proj2 (String.eqb_neq _ _) Hne), Hcur, Hfresh. unfold mark_current.
  pose proof (reported_fresh w result now m auth s Hstep) as Hst.
  pose proof (reported_registration w result now m auth) as Hr.
  unfold reported_snapshot in *.
  destruct (count_quota result (quotaFailureCounts m)) as [counts refresh_quota].
  destruct (mark_auth _ _ _ _ _ auth) as [auth' refresh]. cbn [fst snd m_scheduler] in *. rewrite Hs.
  set (a := Auth_Clone (merge_saved auth')) in *. clearbody a.
  assert (ID a = ID auth) as Eid by (unfold registration in Hr; congruence).
  exists (upsertAuthResultLocked s (w_registry w) (Some a)
            (target_models result (result_key result auth) (CredentialScope result || refresh))
            (CredentialScope result || refresh) later).
  split; [reflexivity|]. rewrite <-Eid in *. split; [by apply (result_ok t)|].
  apply (result_snapshots t); [done..|]. destruct Hk as [-> |[E |[[Hc Hn] ->]]]; [by left| |].
  - right. left. unfold target_models. rewrite E, String.eqb_refl. by rewrite andb_false_r.
  - unfold target_models. destruct (CredentialScope result || refresh); [by left|]. right. right. right.
    rewrite (proj2 (String.eqb_neq _ _) Hn). cbn [andb negb]. rewrite fmap_cons, Hc. left.
Qed.

(** No selection hands the credential out for the model. *)
Definition never_picked (s : authScheduler) (id model : string) (now : time) : Prop :=
  ∀ r tried st at_,
    (∀ provider a key, (pickSingleWithStrategy s r provider model tried st now at_).1 = inl (a, key) → ID a ≠ id) ∧
    (∀ l a key, (pickMixedWithStrategy s r l model tried st now at_).1 = inl (a, key) → ID a ≠ id).

Lemma refused_never_picked t s id model now (P : Auth → Prop) :
  0 ≤ now → t ≤ now → scheduler_ok t s → normal (canonicalModelKey model) →
  all_snapshots P s id (canonicalModelKey model) →
  (∀ a, P a → is_blocked (isAuthBlockedForModel (Some a) (canonicalModelKey model) now) = true) →
  never_picked s id model now.
Proof.
  intros Hn Ht Hs [Hc _] Hall Hb r tried st' at_.
  assert (∀ a, fresh_choice s (canonicalModelKey (canonicalModelKey model)) now a → ID a ≠ id) as Hno.
  { intros a [Hsn Hfree] <-. rewrite Hc in *. rewrite (Hb a) in Hfree; [done|]. by apply Hall. }
  split; intros l a key E; apply Hno.
  - pose proof (pickSingle_choice t s r l model tried st' now at_ Hn Ht Hs) as Hp. by rewrite E in Hp.
  - pose proof (pickMixed_choice t s r l model tried st' now at_ Hn Ht Hs) as Hp. by rewrite E in Hp.
Qed.

(** What the report says of the credential is what the selections go by. *)
Lemma reported_not_picked w result started now later m s auth model t t' :
  delivered w result m s auth → concerns result auth (canonicalModelKey model) → normal (canonicalModelKey model) →
  scheduler_ok t s → 0 ≤ later → t ≤ later → later ≤ t' →
  is_blocked (isAuthBlockedForModel
    (Some (mark_auth result (result_key result auth) (w_headers w) (currentExecutionSeq m) now auth).1)
    (canonicalModelKey model) t') = true →
  ∃ s', m_scheduler (MarkResult w result started now later m).1 = Some s' ∧ scheduler_ok later s'
    ∧ never_picked s' (ID auth) model t'.
Proof.
  intros Hd Hk Hn Hok H0 Ht Ht' Hb.
  destruct (delivered_schedule w result started now later m s auth _ t Hd Hk Hok H0 Ht) as (s'&Es&Hs'&Hall).
  exists s'. split; [done|]. split; [done|].
  apply (refused_never_picked later s' (ID auth) model t' _ ltac:(lia) Ht' Hs' Hn Hall). intros a ->.
  rewrite auth_block_blocked in *.
  rewrite (same_availability_block _ _ _ t' ltac:(lia) (clone_same _)).
  by rewrite (same_availability_block _ _ _ t' ltac:(lia) (reported_same w result now m auth)).
Qed.

(** *** The claim *)

(** The failures the claim is about: of one model, or a rate limit of the whole
    credential, one that is not already refused for good. *)
Definition failure_in_scope (result : Result) (auth : Auth) : Prop :=
  CredentialScope result = false
  ∨ ∃ e, credential_rate_limit result e ∧ auth_wf auth ∧ hasUnauthorizedAuthFailure (Some auth) = false.

(** C31: A credential that failed is not picked again before its time.  The failure is one
    that counts, of the current registration of a credential the scheduler knows up to date,
    under the built-in routing ([delivered]), and one on a named model of a credential whose
    states are kept under canonical names; cooling is enabled for the credential (or the
    failure forces it) and the cooldown set for transient errors is not negative.  Then, after [MarkResult], there is a deadline in the
    future before which no selection, of one provider or of several, under any strategy and
    for any request, hands out that credential: for the model the failure was reported on,
    and the deadline is no earlier than a cooldown of that model that was running; for any
    model at all if the failure was a rate limit of the whole credential, one not already
    refused for good, and the deadline is
    no earlier than the end of such a limit that was running, nor than the upstream's hint. *)
Theorem failed_credential_not_picked w result started now later m s auth t
    (Hdelivered : delivered w result m s auth) (Hsched : scheduler_ok t s)
    (Hnow : 0 ≤ now ≤ later) (Hlater : t ≤ later)
    (Hkeys : keys_normal auth) (Hkey : normal (result_key result auth))
    (Hfailure : R_Success result = false) (Hcounts : shouldSkipCredentialCooldown (R_Error result) = false)
    (Hscope : failure_in_scope result auth) (Hcool : cooling_on result auth) (Htransient : transient_cooling) :
  ∃ s' deadline, m_scheduler (MarkResult w result started now later m).1 = Some s' ∧ scheduler_ok later s'
  ∧ now < deadline
  ∧ (CredentialScope result = false → ∀ state, existingModelState auth (result_key result auth) = Some state →
       wrapped state = false ∨ credential_wrap auth now = true →
       now < M_NextRetryAfter state → M_NextRetryAfter state ≤ deadline)
  ∧ (CredentialScope result = true →
       (quota_held auth = true → Q_NextRecoverAt (Quota auth) ≤ deadline)
       ∧ ∀ d, RetryAfter result = Some d → now + d ≤ deadline)
  ∧ ∀ model t', canonicalModelKey model = result_key result auth ∨ CredentialScope result = true ∧ normal (canonicalModelKey model) →
      later ≤ t' < deadline → never_picked s' (ID auth) model t'.
Proof.
  assert (concerns result auth (result_key result auth)) as Hc by (right; by right).
  destruct (delivered_schedule w result started now later m s auth _ t Hdelivered Hc Hsched ltac:(lia) Hlater)
    as (s'&Es&Hs'&_).
  set (marked := (mark_auth result (result_key result auth) (w_headers w) (currentExecutionSeq m) now auth).1).
  assert (∀ model t', concerns result auth (canonicalModelKey model) → normal (canonicalModelKey model) → later ≤ t' →
    is_blocked (isAuthBlockedForModel (Some marked) (canonicalModelKey model) t') = true → never_picked s' (ID auth) model t') as Hnever.
  { intros model t' Hc' Hn' Ht' Hblock. destruct (reported_not_picked w result started now later m s auth model t t' Hdelivered Hc' Hn' Hsched
      ltac:(lia) Hlater Ht' Hblock) as (s''&Es''&_&Hn). rewrite Es in Es''. by injection Es'' as <-. }
  destruct Hscope as [Hown|(e&Hlimit&Hwf&Hplain)].
  - destruct (model_failure_until result (result_key result auth) (w_headers w) (currentExecutionSeq m) now auth
      ltac:(lia) Hkeys Hkey Hfailure Hcounts Hown Hcool Htransient) as (deadline&Hd&Hrun&Hb).
    exists s', deadline. split_and!; [done..|by intros _|by rewrite Hown|]. intros model t' [Hm|[? _]] Ht'; [|congruence].
    apply Hnever; [by rewrite Hm|by rewrite Hm|lia|]. apply Hb; [rewrite Hm; apply Hkey|lia].
  - destruct (credential_quota_reaches_all result e (result_key result auth) (w_headers w) (currentExecutionSeq m) now auth
      ltac:(lia) Hkeys Hkey Hwf Hlimit Hcool Hplain) as (Hd&Hhint&Hheld&Hb&_).
    fold marked in Hd, Hhint, Hheld, Hb. assert (CredentialScope result = true) as Hown by apply Hlimit.
    exists s', (Q_NextRecoverAt (Quota marked)). split_and!; [done..|by rewrite Hown|done|]. intros model t' Hm Ht'.
    assert (normal (canonicalModelKey model)) as Hn by (destruct Hm as [->|[_ ?]]; done).
    apply Hnever; [by left|done|lia|]. apply Hb. lia.
Qed.
End handover.

(** ** The theorem at a concrete scheduler *)

Section examples.
#[local] Existing Instance no_host.
#[local] Existing Instance no_gjson.
#[local] Existing Instance default_settings.
#[local] Existing Instance plain_store.
#[local] Existing Instance no_aliases.

(** The credential ["a"] of [sample_state], and a rate limit on its model. *)
Definition sample_auth : Auth := registered "a" "codex" 1 1.
Definition sample_manager : Manager := mkManager {["a" := sample_auth]} ∅ 3 (Some sample_state).
Definition sample_result : Result := reported false (Some rate_limit_error).

Lemma sample_delivered : delivered quiet_world sample_result sample_manager sample_state sample_auth.
Proof.
  split; [done|done|vm_compute; reflexivity|done|by split|vm_compute; reflexivity|].
  split; [vm_compute; intuition discriminate|].
  assert (authGenerations sample_state !! ID sample_auth = Some (mkGen 1 1 0)) as -> by (vm_compute; reflexivity).
  intros g [= <-]. right. split; [reflexivity|]. vm_compute. discriminate.
Defined.

Lemma failed_credential_not_picked_witness :
  ∃ s', m_scheduler (MarkResult quiet_world sample_result 60 60 60 sample_manager).1 = Some s'
  ∧ never_picked s' "a" "gpt-5(high)" 60.
Proof.
  assert (result_key sample_result sample_auth = "gpt-5") as Ek by (vm_compute; reflexivity).
  assert (normal (result_key sample_result sample_auth)) as Hkey by (rewrite Ek; apply normal_gpt5).
  assert (keys_normal sample_auth) as Hkeys by (intros k [o Hk]; discriminate Hk).
  assert (cooling_on sample_result sample_auth) as Hcool by (right; vm_compute; reflexivity).
  assert (transient_cooling) as Ht by (unfold transient_cooling; simpl; lia).
  assert (0 ≤ 60 ≤ 60 ∧ 50 ≤ 60) as [Hn Hl] by lia.
  destruct (failed_credential_not_picked (keeps := plain_store_keeps) quiet_world sample_result 60 60 60 sample_manager sample_state
    sample_auth 50 sample_delivered sample_ok Hn Hl Hkeys Hkey eq_refl ltac:(vm_compute; reflexivity) (or_introl eq_refl) Hcool Ht)
    as (s'&deadline&Es&_&Hd&_&_&H).
  exists s'. split; [exact Es|]. apply (H "gpt-5(high)"); [left; rewrite Ek; vm_compute; reflexivity|lia].
Defined.
End examples.
