(* ===== verification/Clearing.v ===== *)
(** * Clearing cooldowns by hand

    What [ResetQuota] leaves: after it a credential that is neither disabled nor
    terminally unauthorized serves every model its token is good for. *)
From Stdlib Require Import ZArith Lia Ascii String Bool.
From stdpp Require Import prelude gmap strings.
From S2P Require Import Prelude GoStd AuthTypes Errors Json Classify Availability AvailabilityEquiv QuotaSignals Cooldown ExecutionResult ResultProofs CooldownRecord Shard Scheduler Manager.
Local Open Scope string_scope.
Local Open Scope list_scope.
Local Open Scope Z_scope.

Section clearing.
Context {gh : GoHost} {gj : Gjson} {st : Settings} {store : AuthStore} {aliases : ModelAliases}.

(** ** Credentials without a cooldown *)

(** A state, and a credential, without a trace of a cooldown. *)
Definition state_cleared (s : ModelState) : Prop :=
  M_Status s ≠ StatusDisabled ∧ M_Unavailable s = false ∧ M_NextRetryAfter s = 0
  ∧ Q_Exceeded (M_Quota s) = false ∧ Q_NextRecoverAt (M_Quota s) = 0.
Record cleared (auth : Auth) : Prop := {
  cl_own : Unavailable auth = false ∧ NextRetryAfter auth = 0
           ∧ Q_Exceeded (Quota auth) = false ∧ Q_NextRecoverAt (Quota auth) = 0;
  cl_states k s : ModelStates auth !! k = Some (Some s) → state_cleared s }.

Lemma cleared_free auth model t :
  0 ≤ t → cleared auth → Disabled auth = false → A_Status auth ≠ StatusDisabled →
  is_blocked (isAuthBlockedForModel (Some auth) model t) = token_expired (Some auth) t.
Proof.
  intros Ht [(Hu&Hr&He&Hn) Hs] Hd Hst. rewrite auth_block_blocked, auth_block_eq by done. unfold gates.
  rewrite Hd, (bool_decide_eq_false_2 _ Hst). cbn [orb].
  assert (hasUnauthorizedAuthFailure (Some auth) = false ∧ credential_quota auth t = false) as [-> ->].
  { unfold hasUnauthorizedAuthFailure, credential_quota. rewrite Hu, He. by destruct (LastError auth). }
  destruct (token_expired (Some auth) t); [done|]. destruct (_ || _).
  - rewrite is_blocked_coarse. unfold own_block. rewrite Hu, Hr, He, Hn.
    destruct (bool_decide _ || _ || _); by rewrite availabilityBlock_spec.
  - rewrite summary_is_blocked. apply not_true_iff_false. rewrite existsb_exists.
    intros (b&Hb%list_elem_of_In&Hblk). apply elem_of_model_blocks in Hb as (k&s&Hk&_&->).
    destruct (Hs k s Hk) as (H1&H2&H3&H4&H5). unfold state_block in Hblk.
    rewrite (bool_decide_eq_false_2 _ H1), H2, H3, H4, H5, availabilityBlock_spec in Hblk by done. done.
Qed.

Lemma cleared_terminal auth : Unavailable auth = false → hasUnauthorizedAuthFailure (Some auth) = false.
Proof. unfold hasUnauthorizedAuthFailure. intros ->. by destruct (LastError auth). Qed.

Lemma expire_cleared now s : state_cleared s → state_cleared (expire_state now s).
Proof. intros (H1&H2&H3&H4&H5). unfold expire_state. by rewrite H2, andb_false_r. Qed.

Lemma aggregate_cleared now l :
  (∀ s, Some s ∈ l → state_cleared s) →
  quotaExceeded (aggregate_of now l) = false
  ∧ (hasState (aggregate_of now l) = true → allUnavailable (aggregate_of now l) = false).
Proof.
  unfold aggregate_of. induction l as [| [s | ] l IH] using rev_ind; intros Hl; [done| |].
  - rewrite fold_left_app. cbn [fold_left aggregate_step quotaExceeded allUnavailable].
    destruct IH as [-> _]; [intros x Hx; apply Hl, elem_of_app; by left|].
    destruct (Hl s) as (H1&H2&_&H4&_); [apply elem_of_app; right; by left|]. split; [by rewrite H4|].
    intros _. unfold stateUnavailable. by rewrite (bool_decide_eq_false_2 _ H1), H2, andb_false_r.
  - rewrite fold_left_app. cbn [fold_left aggregate_step]. apply IH. intros x Hx. apply Hl, elem_of_app. by left.
Qed.

Lemma cleared_aggregate auth now : cleared auth → cleared (updateAggregatedAvailability auth now).
Proof.
  intros [(Hu&Hr&He&Hn) Hs]. unfold updateAggregatedAvailability, updateAggregatedAvailability_in.
  rewrite cleared_terminal by done. unfold credential_wrap. rewrite He. cbn [andb].
  destruct (aggregate_cleared now (map_to_list (ModelStates auth)).*2) as [Hq Hall].
  { intros s ([k o]&Ho&Hk)%list_elem_of_fmap. cbn in Ho. subst o. apply elem_of_map_to_list in Hk. by apply (Hs k). }
  destruct (hasState (aggregate_of _ _)); cbn [negb]; [|by split].
  rewrite Hq, (Hall eq_refl). cbv zeta. cbn. rewrite He. cbn. split; [done|]. intros k s. cbn. rewrite lookup_fmap.
  destruct (ModelStates auth !! k) as [[s0|]|] eqn:E; simpl; [|done|done]. intros [= <-].
  by apply expire_cleared, (Hs k).
Qed.

Lemma clear_state_cleared now s : M_Status s ≠ StatusDisabled → state_cleared (clear_state now s).1.
Proof.
  intros Hs. unfold clear_state. destruct (_ || _) eqn:E; [by split_and!|].
  repeat (apply orb_false_iff in E as [E ?]). unfold IsZero in *.
  repeat match goal with H : negb _ = false |- _ => apply negb_false_iff, Z.eqb_eq in H end. by split_and!.
Qed.

Lemma clearCooldown_cleared auth now :
  hasUnauthorizedAuthFailure (Some auth) = false →
  (∀ k s, ModelStates auth !! k = Some (Some s) → M_Status s ≠ StatusDisabled) →
  cleared (clearCooldownStateForAuth auth now).1.
Proof.
  intros Hp Hs. unfold clearCooldownStateForAuth. rewrite Hp. set (dirty := Unavailable auth || negb (IsZero (NextRetryAfter auth)) || Q_Exceeded (Quota auth)
                || negb (IsZero (Q_NextRecoverAt (Quota auth)))).
  set (auth1 := if dirty then (clearAggregatedAvailability auth) <| UpdatedAt := now |> else auth).
  assert (ModelStates auth1 = ModelStates auth ∧ Unavailable auth1 = false ∧ NextRetryAfter auth1 = 0
          ∧ Q_Exceeded (Quota auth1) = false ∧ Q_NextRecoverAt (Quota auth1) = 0) as (Hm&H1).
  { unfold auth1, dirty. destruct (_ || _) eqn:E; [done|].
    repeat (apply orb_false_iff in E as [E ?]). unfold IsZero in *.
    repeat match goal with H : negb _ = false |- _ => apply negb_false_iff, Z.eqb_eq in H end. by split_and!. }
  clearbody auth1 dirty. set (changed := dirty || _). clearbody changed. cbv zeta.
  set (auth2 := auth1 <| ModelStates := _ |>).
  assert (cleared auth2) as H2.
  { split; [done|]. intros k s. unfold auth2. cbn. rewrite lookup_fmap, Hm.
    destruct (ModelStates auth !! k) as [[s0|]|] eqn:E; simpl; [|done|done]. intros [= <-].
    by apply clear_state_cleared, (Hs k). }
  clearbody auth2. set (auth3 := if bool_decide _ then _ else _).
  assert (cleared auth3) as H3 by (unfold auth3; case_bool_decide; [done|by apply cleared_aggregate]).
  clearbody auth3. destruct changed; [|done]. by destruct H3.
Qed.

(** What does not change when cooldowns are cleared. *)
Definition same_owner (a b : Auth) : Prop :=
  Disabled a = Disabled b ∧ A_Status a = A_Status b ∧ ∀ t, token_expired (Some a) t = token_expired (Some b) t.

Lemma aggregate_owner auth now : same_owner (updateAggregatedAvailability auth now) auth.
Proof.
  unfold updateAggregatedAvailability, updateAggregatedAvailability_in.
  destruct (hasUnauthorizedAuthFailure _); [done|]. destruct (credential_wrap _ _); [done|].
  destruct (negb _); [done|]. cbv zeta. destruct (quotaExceeded _); [done|]. by destruct (_ && _).
Qed.

Lemma clearCooldown_owner auth now : same_owner (clearCooldownStateForAuth auth now).1 auth.
Proof.
  unfold clearCooldownStateForAuth. destruct (hasUnauthorizedAuthFailure _); [done|].
  set (dirty := Unavailable auth || negb (IsZero (NextRetryAfter auth)) || Q_Exceeded (Quota auth)
                || negb (IsZero (Q_NextRecoverAt (Quota auth)))). set (auth1 := if dirty then (clearAggregatedAvailability auth) <| UpdatedAt := now |> else auth).
  assert (same_owner auth1 auth) as H1 by (unfold auth1; by destruct dirty).
  clearbody auth1. set (changed := dirty || _). clearbody changed. cbv zeta.
  set (auth2 := auth1 <| ModelStates := _ |>).
  assert (same_owner auth2 auth) as H2 by done. clearbody auth2.
  set (auth3 := if bool_decide _ then _ else _).
  assert (same_owner auth3 auth) as (E1&E2&E3).
  { unfold auth3. case_bool_decide; [done|]. destruct (aggregate_owner auth2 now) as (E1&E2&E3), H2 as (E4&E5&E6).
    split_and!; [congruence..|]. intros t. by rewrite E3. }
  clearbody auth3. by destruct changed.
Qed.

(** ** ResetQuota *)

Lemma normal_trim k : normal k → TrimSpace k ≠ "".
Proof.
  intros [Hc Hn] Ht. apply Hn. rewrite <-Hc. unfold canonicalModelKey. by rewrite Ht.
Qed.

Lemma reset_cleared auth registered now :
  keys_normal auth → Disabled auth = false → A_Status auth ≠ StatusDisabled →
  hasUnauthorizedAuthFailure (Some auth) = false →
  let auth' := (reset_auth registered now auth).1 in
  cleared auth' ∧ Disabled auth' = false ∧ A_Status auth' ≠ StatusDisabled
  ∧ ∀ t, token_expired (Some auth') t = token_expired (Some auth) t.
Proof.
  intros Hk Hd Hst Hp auth'. unfold auth', reset_auth. clear auth'.
  set (auth1 := auth <| ModelStates := _ |>).
  assert (∀ k s, ModelStates auth1 !! k = Some (Some s) → M_Status s ≠ StatusDisabled) as Hs1.
  { intros k s. unfold auth1. cbn. rewrite map_lookup_imap.
    destruct (ModelStates auth !! k) as [o|] eqn:E; [|done]. cbn.
    rewrite (proj2 (String.eqb_neq _ _) (normal_trim k (Hk k (ex_intro _ _ E)))).
    destruct o as [s0|]; [|done]. by intros [= <-]. }
  assert (hasUnauthorizedAuthFailure (Some auth1) = false) as Hp1 by exact Hp.
  assert (same_owner auth1 auth) as Ho1 by done. clearbody auth1.
  pose proof (clearCooldown_cleared auth1 now Hp1 Hs1) as H2. pose proof (clearCooldown_owner auth1 now) as Ho2.
  destruct (clearCooldownStateForAuth auth1 now) as [auth2 changed]. cbn [fst] in H2, Ho2.
  set (auth3 := if changed then auth2 else _).
  assert (cleared auth3 ∧ same_owner auth3 auth2) as [H3 Ho3].
  { unfold auth3. destruct changed; [done|]. case_bool_decide; [done|].
    split; [by apply cleared_aggregate|apply aggregate_owner]. }
  clearbody auth3. cbv zeta.
  destruct Ho1 as (Da&Sa&Ta), Ho2 as (Db&Sb&Tb), Ho3 as (Dc&Sc&Tc).
  assert (Disabled auth3 = false ∧ A_Status auth3 ≠ StatusDisabled
          ∧ ∀ t, token_expired (Some auth3) t = token_expired (Some auth) t) as (D3&S3&T3).
  { split_and!; [congruence|congruence|]. intros t. by rewrite Tc, Tb, Ta. }
  clear -H3 D3 S3 T3. cbn [fst]. destruct (_ && _ && _ && _); destruct H3; by split_and!.
Qed.

(** A reset works: for a credential that is neither disabled nor terminally
    unauthorized, [ResetQuota] succeeds, and afterwards the credential - the snapshot
    it answers and hands to the scheduler, and the one it keeps - is refused for a
    model exactly when its access token has expired, whatever cooldowns, credential
    limits and disabled models it had before. *)
Theorem ResetQuota_frees {keeps : KeepsAvailability} w authID now later m auth
    (Hid : TrimSpace authID ≠ "") (Hauth : m_auths m !! TrimSpace authID = Some auth)
    (Hkeys : keys_normal auth) (Henabled : Disabled auth = false) (Hstatus : A_Status auth ≠ StatusDisabled)
    (Hplain : hasUnauthorizedAuthFailure (Some auth) = false) :
  ∃ m' snapshot models notices auth',
    ResetQuota w authID now later m = inr (m', Some (snapshot, models), notices)
    ∧ m_auths m' !! TrimSpace authID = Some auth'
    ∧ ∀ model t, 0 ≤ t →
        is_blocked (isAuthBlockedForModel (Some snapshot) model t) = token_expired (Some auth) t
        ∧ is_blocked (isAuthBlockedForModel (Some auth') model t) = token_expired (Some auth) t.
Proof.
  unfold ResetQuota. rewrite (proj2 (String.eqb_neq _ _) Hid), Hauth.
  destruct (reset_cleared auth (modelsForRegisteredAuth (w_registry w) (TrimSpace authID)) now Hkeys Henabled Hstatus Hplain)
    as (Hc&Hd&Hs&Ht).
  destruct (reset_auth _ now auth) as [auth' models]. cbn [fst] in *.
  do 4 eexists. exists (merge_saved auth'). split; [reflexivity|]. split; [apply lookup_insert_eq|].
  intros model t H0. rewrite <-Ht, <-(cleared_free auth' model t) by done. rewrite !auth_block_blocked.
  split; f_equal; apply same_availability_block; [done|apply clone_same|done|apply merge_saved_same].
Qed.
End clearing.

(** ** The theorem at a concrete manager *)

Section examples.
#[local] Existing Instance no_host.
#[local] Existing Instance no_gjson.
#[local] Existing Instance default_settings.
#[local] Existing Instance plain_store.
#[local] Existing Instance no_aliases.

(** Before the reset the model is cooling. *)
Example reset_needed : is_blocked (isAuthBlockedForModel (Some two_models) "gpt-5" 100) = true.
Proof. vm_compute. reflexivity. Qed.

Lemma ResetQuota_frees_witness :
  ∃ m' snapshot models notices, ResetQuota quiet_world " a" noon noon (one_auth two_models) = inr (m', Some (snapshot, models), notices)
  ∧ is_blocked (isAuthBlockedForModel (Some snapshot) "gpt-5" 100) = false.
Proof.
  assert (TrimSpace " a" = "a") as E by (vm_compute; reflexivity).
  assert (m_auths (one_auth two_models) !! TrimSpace " a" = Some two_models) as Ha by (rewrite E; vm_compute; reflexivity).
  destruct (ResetQuota_frees (keeps := plain_store_keeps) quiet_world " a" noon noon (one_auth two_models) two_models
    ltac:(rewrite E; discriminate) Ha two_models_normal ltac:(vm_compute; reflexivity)
    ltac:(vm_compute; discriminate) ltac:(vm_compute; reflexivity))
    as (m'&snapshot&models&notices&auth'&Hr&_&H).
  exists m', snapshot, models, notices. split; [exact Hr|]. destruct (H "gpt-5" 100 ltac:(lia)) as [H1 _].
  rewrite H1. vm_compute. reflexivity.
Defined.
End examples.
