(* ===== verification/SessionCache.v ===== *)
(** * The session cache

    Models [session_cache.go]: which credential a session is bound to.  A session is
    known under several aliases; the cache keeps them as one group and indexes the
    groups four ways - by alias, by primary alias, by age and by session.  The
    background cleanup is [cleanup], called at any time.

    An element of the [container/list] is a number that no other element has; an
    entry copied into the maps is a value.  The receiver is not nil.  A range over a
    map is a list of its keys in the order they are visited: an entry deleted before
    its turn is not visited. *)
From Stdlib Require Import ZArith Lia String Bool.
From stdpp Require Import prelude gmap strings.
From S2P Require Import Prelude GoStd.
Local Open Scope string_scope.
Local Open Scope list_scope.
Local Open Scope Z_scope.

Definition maxStableSessionAliases : nat := 64.
Definition defaultMaxSessionEntries : Z := 65536.

Record sessionBinding := mkBinding { b_sessionID : string; b_provider : string; b_sequence : Z }.
Record sessionEntry := mkSession {
  s_authID : string; expiresAt : time; aliases : list string; binding : sessionBinding }.
Record SessionCache := mkCache {
  c_entries : gmap string sessionEntry; groups : gmap string sessionEntry;
  evictionOrder : list (nat * string); evictionElements : gmap string nat; nextElement : nat;
  maxEntries : Z; ttl : duration; sessionGroups : gmap string (gset string); bindingSequence : Z }.
#[export] Instance sessionBinding_eta : Eta sessionBinding :=
  λ b, mkBinding (b_sessionID b) (b_provider b) (b_sequence b).
#[export] Instance sessionEntry_eta : Eta sessionEntry :=
  λ e, mkSession (s_authID e) (expiresAt e) (aliases e) (binding e).
#[export] Instance SessionCache_eta : Eta SessionCache :=
  λ c, mkCache (c_entries c) (groups c) (evictionOrder c) (evictionElements c) (nextElement c) (maxEntries c)
         (ttl c) (sessionGroups c) (bindingSequence c).
#[export] Instance sessionBinding_eq_dec : EqDecision sessionBinding.
Proof. solve_decision. Defined.
#[export] Instance sessionEntry_eq_dec : EqDecision sessionEntry.
Proof. solve_decision. Defined.

Definition zeroBinding : sessionBinding := mkBinding "" "" 0.

Definition NewSessionCacheWithCapacity (ttl : duration) (maxEntries : Z) : SessionCache :=
  mkCache ∅ ∅ [] ∅ 0 (if maxEntries <=? 0 then defaultMaxSessionEntries else maxEntries)
    (if ttl <=? 0 then 30 * Minute else ttl) ∅ 0.
Definition NewSessionCache (ttl : duration) : SessionCache :=
  NewSessionCacheWithCapacity ttl defaultMaxSessionEntries.

(** ** Aliases *)

Fixpoint merge_loop (seen : gset string) (l : list string) : list string :=
  match l with
  | [] => []
  | alias :: l => if String.eqb alias "" || bool_decide (alias ∈ seen) then merge_loop seen l
                  else alias :: merge_loop ({[alias]} ∪ seen) l
  end.
Definition mergeSessionAliases (existing candidates : list string) : list string :=
  merge_loop ∅ (existing ++ candidates).

(** [strings.Cut(alias, "::")]: what follows the first separator. *)
Fixpoint after_separator (s : string) : option string :=
  match s with
  | EmptyString => None
  | String c rest => if HasPrefix s "::" then Some (String.substring 1 (String.length rest) rest)
                     else after_separator rest
  end.
Definition isLocalPromptCacheSessionAlias (alias : string) : bool :=
  if HasPrefix alias "pck:" then true
  else match after_separator alias with Some rest => HasPrefix rest "pck:" | None => false end.

Fixpoint compact_loop (isPromptCacheAlias : string → bool) (hasPromptCacheKey : bool) (stableAliases : nat)
    (l : list string) : list string :=
  match l with
  | [] => []
  | alias :: l =>
      if isPromptCacheAlias alias then
        if hasPromptCacheKey then compact_loop isPromptCacheAlias hasPromptCacheKey stableAliases l
        else alias :: compact_loop isPromptCacheAlias true stableAliases l
      else if (maxStableSessionAliases <=? stableAliases)%nat
      then compact_loop isPromptCacheAlias hasPromptCacheKey stableAliases l
      else alias :: compact_loop isPromptCacheAlias hasPromptCacheKey (S stableAliases) l
  end.
Definition compactSessionAliasesWith (l : list string) (isPromptCacheAlias : string → bool) : list string :=
  compact_loop isPromptCacheAlias false 0 l.
Definition compactSessionAliases (l : list string) : list string :=
  compactSessionAliasesWith l isLocalPromptCacheSessionAlias.

(** ** The indexes *)

Definition sameSessionEntryGroup (left right : sessionEntry) : bool :=
  String.eqb (s_authID left) (s_authID right) && TimeEqual (expiresAt left) (expiresAt right)
  && bool_decide (aliases left = aliases right).

Definition forget_session (c : SessionCache) (sessionID primaryKey : string) : SessionCache :=
  match sessionGroups c !! sessionID with
  | None => c
  | Some keys =>
      let keys := keys ∖ {[primaryKey]} in
      c <| sessionGroups := if bool_decide (keys = ∅) then delete sessionID (sessionGroups c)
                            else <[sessionID := keys]> (sessionGroups c) |>
  end.
Definition forget_element (c : SessionCache) (primaryKey : string) : SessionCache :=
  match evictionElements c !! primaryKey with
  | None => c
  | Some elem => c <| evictionOrder := filter (λ x, x.1 ≠ elem) (evictionOrder c) |>
                   <| evictionElements := delete primaryKey (evictionElements c) |>
  end.
Definition forget_alias (entry : sessionEntry) (entries : gmap string sessionEntry) (alias : string)
    : gmap string sessionEntry :=
  match entries !! alias with
  | Some current => if sameSessionEntryGroup current entry then delete alias entries else entries
  | None => entries
  end.

Definition removeAliasGroupLocked (c : SessionCache) (entry : sessionEntry) : SessionCache :=
  match aliases entry with
  | [] => c
  | primaryKey :: _ =>
      let c := match groups c !! primaryKey with
               | Some currentGroup =>
                   if sameSessionEntryGroup currentGroup entry
                   then forget_element (forget_session (c <| groups := delete primaryKey (groups c) |>)
                                          (b_sessionID (binding entry)) primaryKey) primaryKey
                   else c
               | None => c
               end in
      c <| c_entries := fold_left (forget_alias entry) (aliases entry) (c_entries c) |>
  end.

(** One turn of the eviction loop, for its oldest element. *)
Definition evict_oldest (c : SessionCache) (oldest : nat * string) : SessionCache :=
  match groups c !! oldest.2 with
  | None => c <| evictionOrder := filter (λ x, x.1 ≠ oldest.1) (evictionOrder c) |>
              <| evictionElements := delete oldest.2 (evictionElements c) |>
  | Some group => removeAliasGroupLocked c group
  end.
Definition over_capacity (c : SessionCache) : bool := maxEntries c <? Z.of_nat (size (c_entries c)).
Fixpoint evict_loop (fuel : nat) (c : SessionCache) : SessionCache :=
  match fuel with
  | O => c
  | S fuel =>
      if over_capacity c then
        match evictionOrder c with
        | [] => c
        | oldest :: _ => evict_loop fuel (evict_oldest c oldest)
        end
      else c
  end.
Definition evictExcessLocked (c : SessionCache) : SessionCache := evict_loop (length (evictionOrder c)) c.

Definition push_group (c : SessionCache) (primaryKey : string) (entry : sessionEntry) : SessionCache :=
  let sid := b_sessionID (binding entry) in
  let c := c <| groups := <[primaryKey := entry]> (groups c) |> in
  let c := if b_sequence (binding entry) =? 0 then c
           else c <| sessionGroups := <[sid := {[primaryKey]} ∪ default ∅ (sessionGroups c !! sid)]> (sessionGroups c) |> in
  let c := c <| c_entries := fold_left (λ m alias, <[alias := entry]> m) (aliases entry) (c_entries c) |> in
  c <| evictionOrder := evictionOrder c ++ [(nextElement c, primaryKey)] |>
    <| evictionElements := <[primaryKey := nextElement c]> (evictionElements c) |>
    <| nextElement := S (nextElement c) |>.

Definition replaceAliasGroupsLocked (c : SessionCache) (authID : string) (expires : time) (l : list string)
    (b : sessionBinding) (previousGroups : list sessionEntry) : SessionCache :=
  let c := fold_left removeAliasGroupLocked previousGroups c in
  match l with
  | [] => c
  | primaryKey :: _ =>
      let c := match groups c !! primaryKey with
               | Some existing => removeAliasGroupLocked c existing
               | None => c
               end in
      let c := push_group c primaryKey (mkSession authID expires l b) in
      if (0 <? maxEntries c) && over_capacity c then evictExcessLocked c else c
  end.

(** ** Lookups *)

(** [Get] reads the clock again when it has to take the write lock. *)
Definition Get (c : SessionCache) (sessionID : string) (now later : time) : option string * SessionCache :=
  if String.eqb sessionID "" then (None, c) else
  match c_entries c !! sessionID with
  | None => (None, c)
  | Some entry =>
      if Before now (expiresAt entry) then (Some (s_authID entry), c)
      else if Before later (expiresAt entry) then (Some (s_authID entry), c)
      else (None, removeAliasGroupLocked c entry)
  end.

Definition refresh (c : SessionCache) (sessionID : string) (entry : sessionEntry) (now : time) : SessionCache :=
  replaceAliasGroupsLocked c (s_authID entry) (Add now (ttl c))
    (compactSessionAliases (mergeSessionAliases [sessionID] (aliases entry))) (binding entry) [entry].

Definition GetAndRefresh (c : SessionCache) (sessionID : string) (now : time) : option string * SessionCache :=
  if String.eqb sessionID "" then (None, c) else
  match c_entries c !! sessionID with
  | None => (None, c)
  | Some entry =>
      if negb (Before now (expiresAt entry)) then (None, removeAliasGroupLocked c entry)
      else (Some (s_authID entry), refresh c sessionID entry now)
  end.

(** ** Bindings *)

Definition gather_step (now : time) (acc : SessionCache * list sessionEntry * list string) (sessionID : string)
    : SessionCache * list sessionEntry * list string :=
  let '(c, previousGroups, l) := acc in
  match c_entries c !! sessionID with
  | None => acc
  | Some entry =>
      if negb (Before now (expiresAt entry)) then (removeAliasGroupLocked c entry, previousGroups, l)
      else (c, previousGroups ++ [entry], mergeSessionAliases l (aliases entry))
  end.

Definition newest_binding (b : sessionBinding) (previousGroups : list sessionEntry) : sessionBinding :=
  fold_left (λ b previous, if b_sequence b <? b_sequence (binding previous) then binding previous else b)
    previousGroups b.

Definition setAliases (c : SessionCache) (authID : string) (b : sessionBinding) (sessionIDs : list string) (now : time)
    : SessionCache :=
  if String.eqb authID "" then c else
  let '(c, previousGroups, l) := fold_left (gather_step now) sessionIDs (c, [], mergeSessionAliases [] sessionIDs) in
  let l := compactSessionAliases l in
  match l with
  | [] => c
  | _ =>
      let '(c, b) :=
        if negb (String.eqb (b_sessionID b) "") && negb (String.eqb (b_provider b) "") then
          let seq := wrapu64 (bindingSequence c + 1) in
          (c <| bindingSequence := seq |>, b <| b_sequence := seq |>)
        else (c, newest_binding b previousGroups) in
      replaceAliasGroupsLocked c authID (Add now (ttl c)) l b previousGroups
  end.
Definition SetAliases (c : SessionCache) (authID : string) (sessionIDs : list string) (now : time) : SessionCache :=
  setAliases c authID zeroBinding sessionIDs now.
Definition Set_ (c : SessionCache) (sessionID authID : string) (now : time) : SessionCache :=
  SetAliases c authID [sessionID] now.
Definition setSessionAliases (c : SessionCache) (authID provider sessionID : string) (keys : list string) (now : time)
    : SessionCache := setAliases c authID (mkBinding sessionID provider 0) keys now.

Definition Touch (c : SessionCache) (sessionID expectedAuthID : string) (now : time) : bool * SessionCache :=
  if String.eqb sessionID "" || String.eqb expectedAuthID "" then (false, c) else
  match c_entries c !! sessionID with
  | None => (false, c)
  | Some entry =>
      if negb (String.eqb (s_authID entry) expectedAuthID) || negb (Before now (expiresAt entry)) then (false, c)
      else (true, refresh c sessionID entry now)
  end.

(** Dropping one alias: the rest of its group lives on. *)
Definition drop_alias (c : SessionCache) (sessionID : string) (entry : sessionEntry) : SessionCache :=
  let c := removeAliasGroupLocked c entry in
  let surviving := filter (λ alias, alias ≠ sessionID) (aliases entry) in
  match surviving with
  | [] => c
  | _ => replaceAliasGroupsLocked c (s_authID entry) (expiresAt entry) surviving (binding entry) []
  end.
Definition CompareAndDelete (c : SessionCache) (sessionID expectedAuthID : string) : bool * SessionCache :=
  if String.eqb sessionID "" || String.eqb expectedAuthID "" then (false, c) else
  match c_entries c !! sessionID with
  | None => (false, c)
  | Some entry => if negb (String.eqb (s_authID entry) expectedAuthID) then (false, c)
                  else (true, drop_alias c sessionID entry)
  end.
Definition Invalidate (c : SessionCache) (sessionID : string) : SessionCache :=
  if String.eqb sessionID "" then c else
  match c_entries c !! sessionID with None => c | Some entry => drop_alias c sessionID entry end.

(** ** Passes over all groups *)

Definition sweep (doomed : sessionEntry → bool) (c : SessionCache) (key : string) : SessionCache :=
  match groups c !! key with
  | Some group => if doomed group then removeAliasGroupLocked c group else c
  | None => c
  end.
Definition InvalidateAuth_in (visit : list string) (c : SessionCache) (authID : string) : SessionCache :=
  if String.eqb authID "" then c
  else fold_left (sweep (λ group, String.eqb (s_authID group) authID)) visit c.
Definition InvalidateAuth (c : SessionCache) (authID : string) : SessionCache :=
  InvalidateAuth_in (map_to_list (groups c)).*1 c authID.
Definition cleanup_in (visit : list string) (c : SessionCache) (now : time) : SessionCache :=
  fold_left (sweep (λ group, negb (Before now (expiresAt group)))) visit c.
Definition cleanup (c : SessionCache) (now : time) : SessionCache :=
  cleanup_in (map_to_list (groups c)).*1 c now.

Definition Len (c : SessionCache) : nat := size (c_entries c).

(** The newest live selection of a session on some providers. *)
Definition latest_step (c : SessionCache) (providers : gset string) (now : time) (latest : option sessionEntry)
    (key : string) : option sessionEntry :=
  match groups c !! key with
  | None => latest
  | Some entry =>
      if negb (bool_decide (b_provider (binding entry) ∈ providers)) || negb (Before now (expiresAt entry)) then latest
      else if (match latest with Some l => b_sequence (binding l) | None => 0 end) <? b_sequence (binding entry)
      then Some entry else latest
  end.
Definition latestSessionAuth_in (visit : list string) (c : SessionCache) (sessionID : string) (providers : gset string)
    (now : time) : string :=
  if String.eqb sessionID "" || bool_decide (providers = ∅) then ""
  else match fold_left (latest_step c providers now) visit None with Some entry => s_authID entry | None => "" end.
Definition latestSessionAuth (c : SessionCache) (sessionID : string) (providers : gset string) (now : time) : string :=
  latestSessionAuth_in (elements (default ∅ (sessionGroups c !! sessionID))) c sessionID providers now.
