(* ===== verification/SessionSpec.v ===== *)
(** * What the session cache promises

    The four indexes of the cache are one list of sessions with disjoint aliases,
    oldest first: [Sessions] is that list with its operations, [Repr] says that a cache
    is such a list, and every operation of the cache does to it what the operation on
    the list does. *)
From Stdlib Require Import ZArith Lia String Bool.
From stdpp Require Import prelude gmap strings.
From S2P Require Import Prelude GoStd SessionCache.
Local Open Scope string_scope.
Local Open Scope list_scope.
Local Open Scope Z_scope.

(** ** The specification *)

Record Sessions := mkSessions { live : list sessionEntry; capacity : Z; lifetime : duration; selections : Z }.
#[export] Instance Sessions_eta : Eta Sessions :=
  λ s, mkSessions (live s) (capacity s) (lifetime s) (selections s).

Definition known (gs : list sessionEntry) : list string := concat (aliases <$> gs).
Definition session_of (gs : list sessionEntry) (alias : string) : option sessionEntry :=
  head (filter (λ g, alias ∈ aliases g) gs).
Definition expired (now : time) (g : sessionEntry) : bool := negb (Before now (expiresAt g)).
Definition without (g : sessionEntry) (gs : list sessionEntry) : list sessionEntry := filter (λ h, h ≠ g) gs.

(** The oldest sessions go until the rest fits. *)
Fixpoint fit (cap : Z) (gs : list sessionEntry) : list sessionEntry :=
  match gs with
  | [] => []
  | g :: rest => if cap <? Z.of_nat (length (known gs)) then fit cap rest else gs
  end.
Definition add_session (s : Sessions) (g : sessionEntry) : Sessions :=
  s <| live := fit (capacity s) (live s ++ [g]) |>.
Definition end_session (s : Sessions) (g : sessionEntry) : Sessions := s <| live := without g (live s) |>.

Definition sp_get (s : Sessions) (alias : string) (now later : time) : option string * Sessions :=
  match session_of (live s) alias with
  | None => (None, s)
  | Some g => if expired now g && expired later g then (None, end_session s g) else (Some (s_authID g), s)
  end.

(** A session that is used again becomes the youngest, known first under the alias
    that was used. *)
Definition sp_refresh (s : Sessions) (alias : string) (g : sessionEntry) (now : time) : Sessions :=
  add_session (end_session s g)
    (g <| expiresAt := Add now (lifetime s) |>
       <| aliases := compactSessionAliases (mergeSessionAliases [alias] (aliases g)) |>).
Definition sp_get_and_refresh (s : Sessions) (alias : string) (now : time) : option string * Sessions :=
  match session_of (live s) alias with
  | None => (None, s)
  | Some g => if expired now g then (None, end_session s g) else (Some (s_authID g), sp_refresh s alias g now)
  end.

(** Binding aliases joins the sessions they were known under. *)
Definition joined (gs : list sessionEntry) (ids : list string) (now : time) : list sessionEntry :=
  omap (λ id, session_of gs id ≫= λ g, if expired now g then None else Some g) ids.
Definition joined_aliases (gs : list sessionEntry) (ids : list string) (now : time) : list string :=
  compactSessionAliases
    (fold_left (λ l g, mergeSessionAliases l (aliases g)) (joined gs ids now) (mergeSessionAliases [] ids)).
Definition sp_set (s : Sessions) (authID : string) (b : sessionBinding) (ids : list string) (now : time) : Sessions :=
  let l := joined_aliases (live s) ids now in
  if String.eqb authID "" || bool_decide (l = []) then s else
  let '(s', b) :=
    if negb (String.eqb (b_sessionID b) "") && negb (String.eqb (b_provider b) "") then
      let seq := wrapu64 (selections s + 1) in (s <| selections := seq |>, b <| b_sequence := seq |>)
    else (s, newest_binding b (joined (live s) ids now)) in
  add_session (s' <| live := filter (λ g, Forall (λ id, id ∉ aliases g) ids) (live s) |>)
    (mkSession authID (Add now (lifetime s)) l b).

Definition sp_touch (s : Sessions) (alias expected : string) (now : time) : bool * Sessions :=
  match session_of (live s) alias with
  | None => (false, s)
  | Some g => if String.eqb expected "" || negb (String.eqb (s_authID g) expected) || expired now g then (false, s)
              else (true, sp_refresh s alias g now)
  end.

Definition sp_drop (s : Sessions) (alias : string) (g : sessionEntry) : Sessions :=
  let rest := filter (λ a, a ≠ alias) (aliases g) in
  let s := end_session s g in
  if bool_decide (rest = []) then s else add_session s (g <| aliases := rest |>).
Definition sp_compare_and_delete (s : Sessions) (alias expected : string) : bool * Sessions :=
  match session_of (live s) alias with
  | None => (false, s)
  | Some g => if String.eqb expected "" || negb (String.eqb (s_authID g) expected) then (false, s)
              else (true, sp_drop s alias g)
  end.
Definition sp_invalidate (s : Sessions) (alias : string) : Sessions :=
  match session_of (live s) alias with None => s | Some g => sp_drop s alias g end.
Definition sp_sweep (s : Sessions) (doomed : sessionEntry → bool) : Sessions :=
  s <| live := filter (λ g, doomed g = false) (live s) |>.

(** ** Lists of sessions with disjoint aliases *)

Definition primary (g : sessionEntry) : string := hd "" (aliases g).
Record disjoint_sessions (gs : list sessionEntry) : Prop := {
  ds_named g : g ∈ gs → aliases g ≠ [] ∧ "" ∉ aliases g;
  ds_once : NoDup (known gs) }.

Lemma elem_of_known gs a : a ∈ known gs ↔ ∃ g, g ∈ gs ∧ a ∈ aliases g.
Proof.
  unfold known. rewrite elem_of_concat. split.
  - intros (l & Ha & Hl). apply list_elem_of_fmap in Hl as (g & -> & Hg). by exists g.
  - intros (g & Hg & Ha). exists (aliases g). split; [done|by apply list_elem_of_fmap_2].
Qed.

Lemma filter_iff_in {A} (P Q : A → Prop) `{∀ x, Decision (P x)} `{∀ x, Decision (Q x)} (l : list A) :
  (∀ x, x ∈ l → P x ↔ Q x) → filter P l = filter Q l.
Proof.
  induction l as [|x l IH]; intros Hl; [done|]. rewrite !filter_cons.
  rewrite IH by (intros y Hy; apply Hl; by right).
  assert (P x ↔ Q x) as Hx by (apply Hl; left). destruct (decide (P x)), (decide (Q x)); tauto.
Qed.

Lemma filter_of_fmap {A B} (f : A → B) (P : B → Prop) `{∀ x, Decision (P x)} (l : list A) :
  filter P (f <$> l) = f <$> filter (λ x, P (f x)) l.
Proof.
  induction l as [|x l IH]; [done|]. rewrite fmap_cons, !filter_cons, IH. by case_decide.
Qed.

Section disjoint.
Context {gs : list sessionEntry} (Hds : disjoint_sessions gs).

Lemma alias_unique g h a : g ∈ gs → h ∈ gs → a ∈ aliases g → a ∈ aliases h → g = h.
Proof using Hds.
  destruct Hds as [_ Hnd]. clear Hds. unfold known in Hnd. induction gs as [|x l IH]; [by intros ?%not_elem_of_nil|].
  cbn in Hnd. apply NoDup_app in Hnd as (_ & Hx & Hnd).
  assert (∀ y, y ∈ l → a ∈ aliases y → a ∉ aliases x) as Hy.
  { intros y Hy Ha Hax. apply (Hx a Hax). apply elem_of_known. by exists y. }
  intros [->|Hg]%elem_of_cons [->|Hh]%elem_of_cons Hag Hah; [done|..]; [by destruct (Hy h)|by destruct (Hy g)|by apply IH].
Qed.

Lemma primary_in g : g ∈ gs → primary g ∈ aliases g.
Proof using Hds.
  intros Hg. destruct (ds_named _ Hds g Hg) as [Hn _]. unfold primary. destruct (aliases g); [done|left].
Qed.

Lemma primary_inj g h : g ∈ gs → h ∈ gs → primary g = primary h → g = h.
Proof using Hds.
  intros Hg Hh E. apply (alias_unique g h (primary g)); [done|done|by apply primary_in|].
  rewrite E. by apply primary_in.
Qed.

Lemma aliases_NoDup g : g ∈ gs → NoDup (aliases g).
Proof using Hds.
  destruct Hds as [_ Hnd]. clear Hds. unfold known in Hnd. induction gs as [|x l IH]; [by intros ?%not_elem_of_nil|].
  cbn in Hnd. apply NoDup_app in Hnd as (Hx & _ & Hnd). intros [->|Hg]%elem_of_cons; [done|by apply IH].
Qed.

Lemma sessions_NoDup : NoDup gs.
Proof using Hds.
  pose proof (ds_named _ Hds) as Hn. destruct Hds as [_ Hnd]. clear Hds. unfold known in Hnd.
  induction gs as [|x l IH]; [constructor|]. cbn in Hnd. apply NoDup_app in Hnd as (_ & Hx & Hnd).
  apply NoDup_cons. split; [|apply IH; [intros; apply Hn; by right|done]].
  intros Hin. destruct (Hn x ltac:(left)) as [Hne _]. destruct (aliases x) as [|a al] eqn:E; [done|].
  apply (Hx a); [left|]. apply elem_of_known. exists x. split; [done|]. rewrite E. left.
Qed.

Lemma session_of_spec a g : session_of gs a = Some g ↔ g ∈ gs ∧ a ∈ aliases g.
Proof using Hds.
  unfold session_of. destruct (filter _ gs) as [|h l] eqn:E.
  - split; [done|]. intros [Hg Ha]. exfalso. apply (not_elem_of_nil g). rewrite <-E. by apply list_elem_of_filter.
  - assert (h ∈ filter (λ g, a ∈ aliases g) gs) as [Ha Hh]%list_elem_of_filter by (rewrite E; left). cbn. split.
    + by intros [= <-].
    + intros [Hg Hga]. f_equal. by apply (alias_unique h g a).
Qed.

Lemma disjoint_filter (P : sessionEntry → Prop) `{∀ x, Decision (P x)} : disjoint_sessions (filter P gs).
Proof using Hds.
  split.
  - intros g [_ Hg]%list_elem_of_filter. by apply (ds_named _ Hds).
  - destruct Hds as [_ Hnd]. clear Hds. unfold known in *. induction gs as [|x l IH]; [done|].
    cbn in Hnd. apply NoDup_app in Hnd as (Hx & Hd & Hnd). rewrite filter_cons. case_decide; [|by apply IH].
    cbn. apply NoDup_app. split; [done|]. split; [|by apply IH]. intros a Ha Hin. apply (Hd a Ha).
    apply elem_of_known in Hin as (g & [_ Hg]%list_elem_of_filter & Hga). apply elem_of_known. by exists g.
Qed.

Lemma disjoint_snoc g :
  aliases g ≠ [] → "" ∉ aliases g → NoDup (aliases g) → (∀ h a, h ∈ gs → a ∈ aliases g → a ∉ aliases h) →
  disjoint_sessions (gs ++ [g]).
Proof using Hds.
  intros Hne He Hnd Hd. split.
  - intros h [Hh| ->%list_elem_of_singleton]%elem_of_app; [by apply (ds_named _ Hds)|done].
  - unfold known. rewrite fmap_app, concat_app. cbn. rewrite app_nil_r. apply NoDup_app.
    split; [apply Hds|]. split; [|done]. intros a (h & Hh & Hah)%elem_of_known Hag. by apply (Hd h a).
Qed.
End disjoint.

(** ** A cache is a list of sessions *)

Record Repr (c : SessionCache) (s : Sessions) : Prop := {
  rp_disjoint : disjoint_sessions (live s);
  rp_groups k g : groups c !! k = Some g ↔ g ∈ live s ∧ primary g = k;
  rp_entries a g : c_entries c !! a = Some g ↔ g ∈ live s ∧ a ∈ aliases g;
  rp_order : (evictionOrder c).*2 = primary <$> live s;
  rp_elements k n : evictionElements c !! k = Some n ↔ (n, k) ∈ evictionOrder c;
  rp_fresh : NoDup (evictionOrder c).*1 ∧ ∀ n, n ∈ (evictionOrder c).*1 → (n < nextElement c)%nat;
  rp_sessions sid k : (∃ keys, sessionGroups c !! sid = Some keys ∧ k ∈ keys) ↔
    ∃ g, g ∈ live s ∧ primary g = k ∧ b_sessionID (binding g) = sid ∧ b_sequence (binding g) ≠ 0;
  rp_nonempty sid keys : sessionGroups c !! sid = Some keys → keys ≠ ∅;
  rp_limits : maxEntries c = capacity s ∧ ttl c = lifetime s ∧ bindingSequence c = selections s ∧ 0 < capacity s }.

Lemma new_repr ttl cap :
  Repr (NewSessionCacheWithCapacity ttl cap)
    (mkSessions [] (if cap <=? 0 then defaultMaxSessionEntries else cap) (if ttl <=? 0 then 30 * Minute else ttl) 0).
Proof.
  split; cbn; try done.
  - split; [by intros g ?%not_elem_of_nil|constructor].
  - intros k g. rewrite lookup_empty, elem_of_nil. naive_solver.
  - intros a g. rewrite lookup_empty, elem_of_nil. naive_solver.
  - intros k n. rewrite lookup_empty, elem_of_nil. naive_solver.
  - split; [constructor|]. by intros n ?%not_elem_of_nil.
  - intros sid k. split; [by intros (?&?&?)|by intros (g&?%not_elem_of_nil&?)].
  - destruct (Z.leb_spec cap 0); [by split_and!|]. by split_and!.
Qed.

(** A lookup in the cache is a lookup in the list. *)
Lemma repr_lookup c s a : Repr c s → c_entries c !! a = session_of (live s) a.
Proof.
  intros Hr. apply option_eq. intros g. rewrite (rp_entries c s Hr).
  by rewrite (session_of_spec (rp_disjoint c s Hr)).
Qed.

Lemma same_group_refl g : sameSessionEntryGroup g g = true.
Proof. unfold sameSessionEntryGroup, TimeEqual. by rewrite !String.eqb_refl, Z.eqb_refl, bool_decide_eq_true_2. Qed.

(** ** Removing a group *)

Lemma forget_aliases g l m a :
  fold_left (forget_alias g) l m !! a =
    match m !! a with
    | Some cur => if bool_decide (a ∈ l) && sameSessionEntryGroup cur g then None else Some cur
    | None => None
    end.
Proof.
  revert m. induction l as [|x l IH]; intros m; cbn.
  { destruct (m !! a); [|done]. by rewrite bool_decide_eq_false_2 by apply not_elem_of_nil. }
  rewrite IH. unfold forget_alias. destruct (decide (x = a)) as [->|Hne].
  - rewrite (bool_decide_eq_true_2 (a ∈ a :: l)) by left. cbn.
    destruct (m !! a) as [cur|] eqn:E; [|by rewrite E]. destruct (sameSessionEntryGroup cur g) eqn:Es.
    + by rewrite lookup_delete_eq.
    + rewrite E, Es. by rewrite andb_false_r.
  - assert ((match m !! x with Some current => if sameSessionEntryGroup current g then delete x m else m | None => m end) !! a
      = m !! a) as ->.
    { destruct (m !! x); [|done]. case_match; [|done]. by rewrite lookup_delete_ne. }
    assert (bool_decide (a ∈ x :: l) = bool_decide (a ∈ l)) as ->; [|done].
    apply bool_decide_ext. rewrite elem_of_cons. naive_solver.
Qed.

Lemma order_position c s p n :
  Repr c s → (n, p) ∈ evictionOrder c → ∀ x, x ∈ evictionOrder c → x.1 = n ↔ x.2 = p.
Proof.
  intros Hr Hp [n' p'] Hx. cbn. split.
  - intros ->. destruct (rp_fresh c s Hr) as [Hnd _].
    apply (rp_elements c s Hr) in Hp, Hx.
    apply (rp_elements c s Hr) in Hp, Hx. apply list_elem_of_lookup in Hp as [i Hi], Hx as [j Hj].
    assert (i = j) as ->; [|congruence].
    eapply (NoDup_lookup (evictionOrder c).*1); [done|..]; by rewrite list_lookup_fmap, ?Hi, ?Hj.
  - intros ->. apply (rp_elements c s Hr) in Hp, Hx. congruence.
Qed.

(** Forgetting a group in the index of its session. *)
Lemma forget_session_spec c sid p :
  (∀ sid' keys, sessionGroups c !! sid' = Some keys → keys ≠ ∅) →
  let c' := forget_session c sid p in
  (∀ sid' k, (∃ keys, sessionGroups c' !! sid' = Some keys ∧ k ∈ keys) ↔
    (∃ keys, sessionGroups c !! sid' = Some keys ∧ k ∈ keys) ∧ ¬ (sid' = sid ∧ k = p)) ∧
  (∀ sid' keys, sessionGroups c' !! sid' = Some keys → keys ≠ ∅) ∧
  c' = c <| sessionGroups := sessionGroups c' |>.
Proof.
  intros Hno. cbv zeta. unfold forget_session. destruct (sessionGroups c !! sid) as [keys|] eqn:Es; cbn.
  2:{ split_and!; [|done|by destruct c]. intros sid' k. split; [|naive_solver]. intros Hx. split; [done|].
      intros [-> ->]. destruct Hx as (?&?&?). congruence. }
  split_and!; [| |done].
  - intros sid' k. destruct (decide (sid' = sid)) as [->|Hd].
    + case_bool_decide as Hk; [rewrite lookup_delete_eq|rewrite lookup_insert_eq]; rewrite Es.
      * split; [by intros (?&?&?)|]. intros ((keys'&[= <-]&Hin)&Hnot).
        exfalso. apply (not_elem_of_empty (C:=gset string) k). rewrite <-Hk. set_solver.
      * split; [intros (?&[= <-]&Hin); split; [exists keys; split; [done|set_solver]|set_solver]|].
        intros ((?&[= <-]&Hin)&Hnot). eexists. split; [done|]. set_solver.
    + case_bool_decide; [rewrite lookup_delete_ne by done|rewrite lookup_insert_ne by done]; naive_solver.
  - intros sid' keys'. case_bool_decide as Hk.
    + intros [_ Hk']%lookup_delete_Some. by apply (Hno sid').
    + intros [[_ <-]|[_ Hk']]%lookup_insert_Some; [done|by apply (Hno sid')].
Qed.

(** The position of a session in the eviction order. *)
Lemma order_of c s g : Repr c s → g ∈ live s → ∃ n, (n, primary g) ∈ evictionOrder c ∧ evictionElements c !! primary g = Some n.
Proof.
  intros Hr Hg. assert (primary g ∈ (evictionOrder c).*2) as Hin
    by (rewrite (rp_order c s Hr); by apply list_elem_of_fmap_2).
  apply list_elem_of_fmap in Hin as ([n k] & Ek & Hin). cbn in Ek. subst k. exists n. split; [done|].
  by apply (rp_elements c s Hr).
Qed.

Lemma order_without c s g n :
  Repr c s → g ∈ live s → (n, primary g) ∈ evictionOrder c →
  (filter (λ x, x.1 ≠ n) (evictionOrder c)).*2 = primary <$> without g (live s)
  ∧ ∀ x, x ∈ filter (λ x : nat * string, x.1 ≠ n) (evictionOrder c) ↔ x ∈ evictionOrder c ∧ x.2 ≠ primary g.
Proof.
  intros Hr Hg Hn. pose proof (order_position c s _ n Hr Hn) as Hpos. pose proof (rp_disjoint c s Hr) as Hds.
  assert (filter (λ x : nat * string, x.1 ≠ n) (evictionOrder c) = filter (λ x, x.2 ≠ primary g) (evictionOrder c)) as Eo.
  { apply filter_iff_in. intros x Hx. by rewrite Hpos. }
  split; [|intros x; rewrite Eo, list_elem_of_filter; naive_solver].
  rewrite Eo. etransitivity; [symmetry; exact (filter_of_fmap snd (λ k, k ≠ primary g) (evictionOrder c))|].
  rewrite (rp_order c s Hr), filter_of_fmap. f_equal.
  apply filter_iff_in. intros h Hh. split; [by intros ? ->|]. intros Hhg E. apply Hhg. by apply (primary_inj Hds).
Qed.

Lemma entries_without c s g a h :
  Repr c s → g ∈ live s →
  fold_left (forget_alias g) (aliases g) (c_entries c) !! a = Some h ↔ h ∈ without g (live s) ∧ a ∈ aliases h.
Proof.
  intros Hr Hg. pose proof (rp_disjoint c s Hr) as Hds. rewrite forget_aliases. unfold without. rewrite list_elem_of_filter.
  destruct (c_entries c !! a) as [cur|] eqn:Ea.
  2:{ split; [done|]. intros ((_&Hh)&Hah). assert (c_entries c !! a = Some h) by by apply (rp_entries c s Hr). congruence. }
  pose proof (proj1 (rp_entries c s Hr a cur) Ea) as [Hcur Hac]. destruct (decide (a ∈ aliases g)) as [Ha|Ha].
  - assert (cur = g) as -> by by apply (alias_unique Hds cur g a). rewrite bool_decide_eq_true_2, same_group_refl by done.
    split; [done|]. intros ((Hhg&Hh)&Hah). destruct Hhg. by apply (alias_unique Hds h g a).
  - rewrite bool_decide_eq_false_2 by done. cbn. split.
    + intros [= <-]. split; [split; [by intros ->|done]|done].
    + intros ((_&Hh)&Hah). f_equal. by apply (alias_unique Hds cur h a).
Qed.

Lemma remove_repr c s g : Repr c s → g ∈ live s → Repr (removeAliasGroupLocked c g) (end_session s g).
Proof.
  intros Hr Hg. pose proof (rp_disjoint c s Hr) as Hds.
  assert (groups c !! primary g = Some g) as Hgr by by apply (rp_groups c s Hr).
  destruct (order_of c s g Hr Hg) as (n & Hn & Hel). destruct (order_without c s g n Hr Hg Hn) as [Hord Hin].
  pose proof (λ a h, entries_without c s g a h Hr Hg) as Hent.
  assert (∃ rest, aliases g = primary g :: rest) as [rest Eg].
  { unfold primary. destruct (ds_named _ Hds g Hg) as [Hne _]. destruct (aliases g); [done|eauto]. }
  unfold removeAliasGroupLocked. rewrite Eg, Hgr, same_group_refl. rewrite <-Eg. clear rest Eg.
  destruct (forget_session_spec (c <| groups := delete (primary g) (groups c) |>) (b_sessionID (binding g)) (primary g))
    as (Hs1 & Hn1 & Ec); [apply (rp_nonempty c s Hr)|].
  set (c1 := forget_session _ _ _) in *. rewrite Ec. generalize (sessionGroups c1) Hs1 Hn1. clear c1 Hs1 Hn1 Ec.
  intros sg Hs1 Hn1. cbn in *. unfold forget_element. cbn. rewrite Hel. cbn. split; cbn.
  - by apply disjoint_filter.
  - intros k h. unfold without. rewrite lookup_delete_Some, (rp_groups c s Hr), list_elem_of_filter.
    split; [intros (Hk&Hh&<-); split; [split; [by intros ->|done]|done]|].
    intros ((Hhg&Hh)&<-). split; [|done]. intros E. apply Hhg. by apply (primary_inj Hds).
  - exact Hent.
  - exact Hord.
  - intros k m. rewrite lookup_delete_Some, (rp_elements c s Hr), Hin. cbn. naive_solver.
  - destruct (rp_fresh c s Hr) as [Hnd Hlt]. split.
    + eapply sublist_NoDup; [exact Hnd|]. by apply fmap_sublist, sublist_filter.
    + intros m ([m' k] & -> & Hm)%list_elem_of_fmap. apply Hlt. apply Hin in Hm as [Hm _].
      apply list_elem_of_fmap. by exists (m', k).
  - intros sid' k. rewrite Hs1, (rp_sessions c s Hr). unfold without. split.
    + intros ((h&Hh&<-&<-&Hq)&Hnot). exists h. split; [|done]. apply list_elem_of_filter. split; [|done].
      intros ->. by apply Hnot.
    + intros (h&[Hhg Hh]%list_elem_of_filter&<-&<-&Hq). split; [by exists h|]. intros [_ E]. apply Hhg.
      by apply (primary_inj Hds).
  - exact Hn1.
  - apply Hr.
Qed.

(** *** Removing several, some of which may be gone already *)

Definition absent (gs : list sessionEntry) (g : sessionEntry) : Prop :=
  ∀ h a, h ∈ gs → a ∈ aliases g → a ∉ aliases h.

Lemma remove_absent c s g : Repr c s → absent (live s) g → removeAliasGroupLocked c g = c.
Proof.
  intros Hr Ha. unfold removeAliasGroupLocked. destruct (aliases g) as [|p rest] eqn:Eg; [done|].
  assert (groups c !! p = None) as ->.
  { apply eq_None_not_Some. intros [h Hh]. apply (rp_groups c s Hr) in Hh as [Hh Ep].
    apply (Ha h p Hh); [rewrite Eg; left|]. rewrite <-Ep. by apply (primary_in (rp_disjoint c s Hr)). }
  assert (fold_left (forget_alias g) (p :: rest) (c_entries c) = c_entries c) as ->; [|by destruct c].
  apply map_eq. intros a. rewrite forget_aliases. destruct (c_entries c !! a) as [cur|] eqn:Ea; [|done].
  apply (rp_entries c s Hr) in Ea as [Hcur Hac]. rewrite bool_decide_eq_false_2; [done|].
  rewrite <-Eg. intros Hin. by apply (Ha cur a).
Qed.

Lemma absent_without c s g : Repr c s → g ∈ live s → absent (without g (live s)) g.
Proof.
  intros Hr Hg h a Hh Hag Hah. apply list_elem_of_filter in Hh as [Hne Hh]. apply Hne.
  by apply (alias_unique (rp_disjoint c s Hr) h g a).
Qed.

Lemma remove_many c s l :
  Repr c s → Forall (λ g, g ∈ live s ∨ absent (live s) g) l →
  Repr (fold_left removeAliasGroupLocked l c) (s <| live := filter (λ h, h ∉ l) (live s) |>).
Proof.
  revert c s. induction l as [|g l IH]; intros c s Hr Hl; cbn.
  { rewrite filter_all by (intros x _; apply not_elem_of_nil). by destruct s. }
  apply Forall_cons in Hl as [Hg Hl].
  assert (Repr (removeAliasGroupLocked c g) (end_session s g)) as Hr1.
  { destruct Hg as [Hg|Hg]; [by apply remove_repr|]. rewrite (remove_absent c s g) by done.
    assert (end_session s g = s) as ->; [|done]. unfold end_session, without. rewrite filter_all; [by destruct s|].
    intros h Hh ->. pose proof (primary_in (rp_disjoint c s Hr) g Hh) as Hp. by apply (Hg g (primary g)). }
  specialize (IH _ _ Hr1). unfold end_session, without in IH. cbn in IH. rewrite list_filter_filter in IH.
  assert (filter (λ h, h ∉ g :: l) (live s) = filter (λ x, x ≠ g ∧ x ∉ l) (live s)) as ->.
  { apply filter_iff_in. intros x _. by rewrite not_elem_of_cons. }
  rewrite (filter_iff_in (λ x, x ≠ g ∧ x ∉ l) (λ x, x ∉ l ∧ x ≠ g)) by tauto.
  apply IH. apply Forall_forall. intros h Hh. pose proof (proj1 (Forall_forall _ _) Hl h Hh) as [Hin|Hab].
  - destruct (decide (h = g)) as [->|Hne]; [right; by apply (absent_without c s)|left; by apply list_elem_of_filter].
  - right. intros x a [_ Hx]%list_elem_of_filter. by apply Hab.
Qed.

(** ** Adding a group *)

Lemma insert_aliases (g : sessionEntry) l m a :
  fold_left (λ m alias, <[alias := g]> m) l m !! a = if bool_decide (a ∈ l) then Some g else (m : gmap string sessionEntry) !! a.
Proof.
  revert m. induction l as [|x l IH]; intros m; cbn.
  { by rewrite bool_decide_eq_false_2 by apply not_elem_of_nil. }
  rewrite IH. destruct (decide (a = x)) as [->|Hne].
  - rewrite (bool_decide_eq_true_2 (x ∈ x :: l)) by left. by rewrite lookup_insert_eq; destruct (bool_decide _).
  - rewrite lookup_insert_ne by done. assert (bool_decide (a ∈ x :: l) = bool_decide (a ∈ l)) as ->; [|done].
    apply bool_decide_ext. rewrite elem_of_cons. naive_solver.
Qed.

Record admissible (gs : list sessionEntry) (g : sessionEntry) : Prop := {
  ad_named : aliases g ≠ [] ∧ "" ∉ aliases g;
  ad_once : NoDup (aliases g);
  ad_new : absent gs g }.

Lemma remember_session_spec (sg : gmap string (gset string)) (b : sessionBinding) (p : string) :
  let sg' := if b_sequence b =? 0 then sg
             else <[b_sessionID b := {[p]} ∪ default ∅ (sg !! b_sessionID b)]> sg in
  (∀ sid k, (∃ keys, sg' !! sid = Some keys ∧ k ∈ keys) ↔
     (∃ keys, sg !! sid = Some keys ∧ k ∈ keys) ∨ k = p ∧ b_sessionID b = sid ∧ b_sequence b ≠ 0) ∧
  ((∀ sid keys, sg !! sid = Some keys → keys ≠ ∅) → ∀ sid keys, sg' !! sid = Some keys → keys ≠ ∅).
Proof.
  cbv zeta. destruct (Z.eqb_spec (b_sequence b) 0) as [->|Hq]; [split; [naive_solver|done]|]. split.
  - intros sid k. destruct (decide (sid = b_sessionID b)) as [->|Hne].
    + rewrite lookup_insert_eq. split.
      * intros (?&[= <-]&[->%elem_of_singleton|Hk]%elem_of_union); [by right|]. left.
        destruct (sg !! b_sessionID b); [by eexists|by apply not_elem_of_empty in Hk].
      * intros [(keys&->&Hk)|(->&_)]; eexists; (split; [done|]); set_solver.
    + rewrite lookup_insert_ne by done. naive_solver.
  - intros Hno sid keys. intros [[_ <-]|[_ Hk]]%lookup_insert_Some; [set_solver|by apply (Hno sid)].
Qed.

Lemma push_repr c s g :
  Repr c s → admissible (live s) g → Repr (push_group c (primary g) g) (s <| live := live s ++ [g] |>).
Proof.
  intros Hr [[Hne He] Hnd Hnew]. pose proof (rp_disjoint c s Hr) as Hds.
  pose proof (disjoint_snoc Hds g Hne He Hnd Hnew) as Hds'.
  assert (primary g ∈ aliases g) as Hpg by (unfold primary; destruct (aliases g); [done|left]).
  assert (∀ h, h ∈ live s → primary h ≠ primary g) as Hother.
  { intros h Hh E. apply (Hnew h (primary g) Hh Hpg). rewrite <-E. by apply (primary_in Hds). }
  destruct (remember_session_spec (sessionGroups c) (binding g) (primary g)) as [Hs1 Hn1].
  specialize (Hn1 (rp_nonempty c s Hr)).
  assert (push_group c (primary g) g =
    mkCache (fold_left (λ m alias, <[alias := g]> m) (aliases g) (c_entries c)) (<[primary g := g]> (groups c))
      (evictionOrder c ++ [(nextElement c, primary g)]) (<[primary g := nextElement c]> (evictionElements c))
      (S (nextElement c)) (maxEntries c) (ttl c)
      (if b_sequence (binding g) =? 0 then sessionGroups c
       else <[b_sessionID (binding g) := {[primary g]} ∪ default ∅ (sessionGroups c !! b_sessionID (binding g))]> (sessionGroups c))
      (bindingSequence c)) as ->.
  { unfold push_group. by destruct (b_sequence (binding g) =? 0). }
  generalize dependent (if b_sequence (binding g) =? 0 then sessionGroups c
       else <[b_sessionID (binding g) := {[primary g]} ∪ default ∅ (sessionGroups c !! b_sessionID (binding g))]> (sessionGroups c)).
  intros sg Hs1 Hn1. split; cbn.
  - done.
  - intros k h. rewrite elem_of_app, list_elem_of_singleton, lookup_insert_Some, (rp_groups c s Hr). naive_solver.
  - intros a h. rewrite elem_of_app, list_elem_of_singleton, insert_aliases. case_bool_decide as Ha.
    + split; [intros [= <-]; by split; [right|]|]. intros [[Hh| ->] Hah]; [by destruct (Hnew h a)|done].
    + rewrite (rp_entries c s Hr). naive_solver.
  - by rewrite !fmap_app, (rp_order c s Hr).
  - intros k n. rewrite elem_of_app, list_elem_of_singleton, lookup_insert_Some, (rp_elements c s Hr).
    split; [naive_solver|]. intros [Hin|[= -> ->]]; [right|by left]. split; [|done].
    intros <-. assert (primary g ∈ (evictionOrder c).*2) as Hx by (apply list_elem_of_fmap; by exists (n, primary g)).
    rewrite (rp_order c s Hr) in Hx. apply list_elem_of_fmap in Hx as (h & E & Hh). by apply (Hother h Hh).
  - destruct (rp_fresh c s Hr) as [Hnd' Hlt]. rewrite fmap_app. split.
    + apply NoDup_app. split; [done|]. split; [|apply NoDup_singleton].
      intros n Hn ->%list_elem_of_singleton. cbn in *. specialize (Hlt _ Hn). lia.
    + intros n [Hn| ->%list_elem_of_singleton]%elem_of_app; [|cbn; lia]. specialize (Hlt n Hn). lia.
  - intros sid k. rewrite Hs1, (rp_sessions c s Hr). split.
    + intros [(h&Hh&Hx)|(->&<-&Hq)]; [exists h|exists g]; (split; [apply elem_of_app|done]); [by left|right; left].
    + intros (h&[Hh| ->%list_elem_of_singleton]%elem_of_app&<-&<-&Hq); [left; by exists h|by right].
  - exact Hn1.
  - apply Hr.
Qed.

(** ** Eviction *)

Lemma repr_size c s : Repr c s → size (c_entries c) = length (known (live s)).
Proof.
  intros Hr. rewrite <-size_dom. assert (dom (c_entries c) = list_to_set (known (live s)) :> gset string) as ->.
  { apply set_eq. intros a. rewrite elem_of_dom, elem_of_list_to_set, elem_of_known. split.
    - intros [g Hg]. apply (rp_entries c s Hr) in Hg. by exists g.
    - intros (g&Hg). exists g. by apply (rp_entries c s Hr). }
  apply size_list_to_set, (rp_disjoint c s Hr).
Qed.

Lemma evict_spec gs : ∀ fuel c s,
  Repr c s → live s = gs → (length gs ≤ fuel)%nat →
  Repr (evict_loop fuel c) (s <| live := fit (capacity s) gs |>).
Proof.
  induction gs as [|g gs IH]; intros fuel c s Hr Hl Hf.
  { assert (evictionOrder c = []) as Eo.
    { pose proof (rp_order c s Hr) as Ho. rewrite Hl in Ho. by destruct (evictionOrder c). }
    assert (evict_loop fuel c = c) as -> by (destruct fuel; cbn [evict_loop]; [done|]; rewrite Eo; by case_match).
    cbn. rewrite <-Hl. by destruct s. }
  destruct fuel as [|fuel]; [cbn in Hf; lia|]. cbn [evict_loop fit].
  unfold over_capacity. rewrite (repr_size c s Hr), Hl. destruct (rp_limits c s Hr) as (-> & _).
  destruct (capacity s <? Z.of_nat (length (known (g :: gs)))); [|rewrite <-Hl; by destruct s].
  pose proof (rp_order c s Hr) as Ho. rewrite Hl in Ho.
  destruct (evictionOrder c) as [|[n k] order]; [done|]. cbn in Ho. injection Ho as -> _.
  assert (g ∈ live s) as Hg by (rewrite Hl; left).
  unfold evict_oldest. cbn. rewrite (proj2 (rp_groups c s Hr (primary g) g)) by done.
  pose proof (remove_repr c s g Hr Hg) as Hr1. assert (without g (live s) = gs) as Ew.
  { pose proof (sessions_NoDup (rp_disjoint c s Hr)) as Hnd. rewrite Hl in *. apply NoDup_cons in Hnd as [Hn _].
    unfold without. rewrite filter_cons, decide_False by auto. apply filter_all. intros h Hh ->. done. }
  apply (IH fuel _ (end_session s g)) in Hr1; [|done|cbn in Hf; lia]. done.
Qed.

Lemma fit_bound cap gs : 0 ≤ cap → Z.of_nat (length (known (fit cap gs))) ≤ cap.
Proof.
  intros Hc. induction gs as [|g gs IH]; cbn [fit]; [done|]. case_match eqn:E; [done|]. to_prop. lia.
Qed.

Lemma fit_suffix cap gs : fit cap gs `suffix_of` gs.
Proof.
  induction gs as [|g gs IH]; cbn [fit]; [done|]. case_match; [by apply suffix_cons_r|done].
Qed.

Lemma known_suffix gs gs' : gs' `suffix_of` gs → (length (known gs') ≤ length (known gs))%nat.
Proof. intros [l ->]. unfold known. rewrite fmap_app, concat_app, length_app. lia. Qed.

(** Nothing is evicted that would have fitted. *)
Lemma fit_least cap gs gs' :
  gs' `suffix_of` gs → Z.of_nat (length (known gs')) ≤ cap → gs' `suffix_of` fit cap gs.
Proof.
  induction gs as [|g gs IH]; cbn [fit]; intros Hs Hc; [done|]. case_match eqn:E; [|done]. to_prop.
  apply IH; [|done]. destruct Hs as [[|x l] El]; cbn in El; [rewrite <-El in Hc; lia|].
  injection El as _ ->. by exists l.
Qed.

Lemma add_repr c s g :
  Repr c s → admissible (live s) g →
  Repr (let c := push_group c (primary g) g in if (0 <? maxEntries c) && over_capacity c then evictExcessLocked c else c)
    (add_session s g).
Proof.
  intros Hr Ha. pose proof (push_repr c s g Hr Ha) as Hp. cbv zeta. set (c' := push_group c (primary g) g) in *. clearbody c'.
  destruct (rp_limits _ _ Hp) as (Em & _ & _ & Hpos). cbn in Em, Hpos. rewrite Em, (proj2 (Z.ltb_lt _ _) Hpos). cbn [andb].
  pose proof (repr_size _ _ Hp) as Hsz. change (size (c_entries c') = length (known (live s ++ [g]))) in Hsz. unfold over_capacity. rewrite Hsz, Em. unfold add_session.
  destruct (Z.ltb_spec (capacity s) (Z.of_nat (length (known (live s ++ [g]))))) as [Hlt|Hle].
  - apply (evict_spec (live s ++ [g]) _ _ _ Hp eq_refl).
    rewrite <-(length_fmap snd), (rp_order _ _ Hp), length_fmap. done.
  - assert (fit (capacity s) (live s ++ [g]) = live s ++ [g]) as ->; [|done].
    destruct (live s ++ [g]) as [|h l] eqn:El; [done|]. cbn [fit]. by rewrite (proj2 (Z.ltb_ge _ _) Hle).
Qed.

Lemma replace_repr c s auth expires l b prev :
  Repr c s → Forall (λ g, g ∈ live s ∨ absent (live s) g) prev →
  let g := mkSession auth expires l b in
  let s' := s <| live := filter (λ h, h ∉ prev) (live s) |> in
  (l ≠ [] → admissible (live s') g) →
  Repr (replaceAliasGroupsLocked c auth expires l b prev) (if bool_decide (l = []) then s' else add_session s' g).
Proof.
  intros Hr Hp g s' Hg. pose proof (remove_many c s prev Hr Hp) as Hr1. fold s' in Hr1.
  unfold replaceAliasGroupsLocked. set (c1 := fold_left removeAliasGroupLocked prev c) in *. clearbody c1.
  destruct l as [|p l']; [done|]. rewrite bool_decide_eq_false_2 by done. specialize (Hg ltac:(done)).
  assert (groups c1 !! p = None) as ->.
  { apply eq_None_not_Some. intros [h Hh]. apply (rp_groups _ _ Hr1) in Hh as [Hh Ep].
    apply (ad_new _ _ Hg h p Hh); [left|]. rewrite <-Ep. by apply (primary_in (rp_disjoint _ _ Hr1)). }
  exact (add_repr c1 s' g Hr1 Hg).
Qed.
