(* ===== verification/SessionProofs.v ===== *)
(** * The session cache keeps its promise

    Every operation of the cache is simulated by the operation of [SessionSpec] on the
    list of sessions.  What follows for the users of the cache is in [SessionUse]. *)
From Stdlib Require Import ZArith Lia String Bool.
From stdpp Require Import prelude gmap strings.
From S2P Require Import Prelude GoStd SessionCache SessionSpec.
Local Open Scope string_scope.
Local Open Scope list_scope.
Local Open Scope Z_scope.

(** ** Aliases *)

Lemma elem_of_merge_loop a l : ∀ seen, a ∈ merge_loop seen l ↔ a ∈ l ∧ a ≠ "" ∧ a ∉ seen.
Proof.
  induction l as [|x l IH]; intros seen; cbn; [split; [by intros ?%not_elem_of_nil|by intros [?%not_elem_of_nil _]]|].
  destruct (String.eqb_spec x "") as [->|Hx]; cbn; [rewrite IH; set_solver|].
  case_bool_decide as Hs; cbn; [rewrite IH; set_solver|]. rewrite elem_of_cons, IH.
  destruct (decide (a = x)) as [->|Hne]; set_solver.
Qed.

Lemma merge_loop_NoDup l : ∀ seen, NoDup (merge_loop seen l).
Proof.
  induction l as [|x l IH]; intros seen; cbn; [constructor|]. case_match; [apply IH|].
  apply NoDup_cons. split; [|apply IH]. rewrite elem_of_merge_loop. set_solver.
Qed.

Lemma elem_of_merge a l l' : a ∈ mergeSessionAliases l l' ↔ (a ∈ l ∨ a ∈ l') ∧ a ≠ "".
Proof. unfold mergeSessionAliases. rewrite elem_of_merge_loop, elem_of_app. set_solver. Qed.

Lemma compact_loop_sublist f l : ∀ b n, compact_loop f b n l `sublist_of` l.
Proof.
  induction l as [|x l IH]; intros b n; cbn [compact_loop]; [done|].
  repeat case_match; first [by apply sublist_skip|by apply sublist_cons].
Qed.

Lemma compact_sublist l : compactSessionAliases l `sublist_of` l.
Proof. apply compact_loop_sublist. Qed.

Lemma compact_head a l : compactSessionAliases (a :: l) = a :: tail (compactSessionAliases (a :: l)).
Proof. unfold compactSessionAliases, compactSessionAliasesWith. cbn. by destruct (isLocalPromptCacheSessionAlias a). Qed.

Lemma compact_nil l : compactSessionAliases l = [] → l = [].
Proof. destruct l as [|a l]; [done|]. by rewrite compact_head. Qed.

(** What aliases a new group gets, as far as its admission is concerned. *)
Record alias_list (l : list string) : Prop := { al_once : NoDup l; al_named : "" ∉ l }.

Lemma merge_alias_list l l' : alias_list (mergeSessionAliases l l').
Proof. split; [apply merge_loop_NoDup|]. by intros [_ ?]%elem_of_merge. Qed.

Lemma compact_alias_list l : alias_list l → alias_list (compactSessionAliases l).
Proof.
  intros [Hnd He]. pose proof (compact_sublist l) as Hs. split; [by eapply sublist_NoDup|].
  intros H. apply He. by eapply elem_of_sublist.
Qed.

Lemma alias_list_admissible gs g :
  aliases g ≠ [] → alias_list (aliases g) → absent gs g → admissible gs g.
Proof. intros Hne [Hnd He] Ha. by split. Qed.

(** ** Operations on one session *)

Lemma without_one g (gs : list sessionEntry) : filter (λ h, h ∉ [g]) gs = without g gs.
Proof. apply filter_iff_in. intros x _. by rewrite not_elem_of_cons, elem_of_nil; naive_solver. Qed.

Lemma refresh_repr c s alias g now :
  Repr c s → g ∈ live s → alias ∈ aliases g → Repr (refresh c alias g now) (sp_refresh s alias g now).
Proof.
  intros Hr Hg Ha. destruct (rp_limits c s Hr) as (_ & Ettl & _). unfold refresh, sp_refresh, end_session.
  rewrite Ettl, <-without_one. set (l := compactSessionAliases _).
  assert (alias ≠ "") as Hne by (intros ->; by apply (ds_named _ (rp_disjoint c s Hr) g Hg)).
  assert (l ≠ []) as Hl.
  { intros E%compact_nil. apply (not_elem_of_nil alias). rewrite <-E. apply elem_of_merge. split; [left; left|done]. }
  pose proof (replace_repr c s (s_authID g) (Add now (lifetime s)) l (binding g) [g] Hr) as Hrep.
  rewrite bool_decide_eq_false_2 in Hrep by done. apply Hrep; [by apply Forall_singleton; left|].
  intros _. apply alias_list_admissible; [done|apply compact_alias_list, merge_alias_list|]. cbn. rewrite without_one.
  intros h a Hh Hal. apply (absent_without c s g Hr Hg h a Hh). change (a ∈ l) in Hal.
  pose proof (elem_of_sublist _ _ _ Hal (compact_sublist _)) as Hin.
  apply elem_of_merge in Hin as [[->%list_elem_of_singleton|?] _]; done.
Qed.

Lemma drop_repr c s alias g :
  Repr c s → g ∈ live s → Repr (drop_alias c alias g) (sp_drop s alias g).
Proof.
  intros Hr Hg. unfold drop_alias, sp_drop. pose proof (remove_repr c s g Hr Hg) as Hr1.
  set (c1 := removeAliasGroupLocked c g) in *. clearbody c1. set (rest := filter (λ a, a ≠ alias) (aliases g)).
  pose proof (replace_repr c1 _ (s_authID g) (expiresAt g) rest (binding g) [] Hr1 ltac:(constructor)) as Hrep.
  assert (rest ≠ [] → admissible (without g (live s)) (mkSession (s_authID g) (expiresAt g) rest (binding g))) as Ha.
  { intros Hne. apply alias_list_admissible; [done| |].
    - pose proof (rp_disjoint c s Hr) as Hds. pose proof (sublist_filter (λ a, a ≠ alias) (aliases g)) as Hsub. split.
      + eapply sublist_NoDup; [by eapply aliases_NoDup|exact Hsub].
      + intros He. apply (ds_named _ Hds g Hg). by eapply elem_of_sublist.
    - intros h a Hh [_ Hal]%list_elem_of_filter. by apply (absent_without c s g Hr Hg h a Hh). }
  cbn in Hrep. rewrite filter_all in Hrep by (intros x _; apply not_elem_of_nil).
  specialize (Hrep Ha). clearbody rest. case_bool_decide as E; [by rewrite E|].
  destruct rest; [done|]. exact Hrep.
Qed.

(** ** Binding *)

(** What the pass over the new aliases has done to the list: the expired sessions it
    met are gone. *)
Definition met (gs : list sessionEntry) (ids : list string) (now : time) (g : sessionEntry) : Prop :=
  expired now g = true ∧ ¬ Forall (λ id, id ∉ aliases g) ids.
#[local] Instance met_dec gs ids now g : Decision (met gs ids now g).
Proof. unfold met. apply _. Defined.

Lemma gather_repr c s ids now l0 :
  Repr c s →
  let '(c', prev, l) := fold_left (gather_step now) ids (c, [], l0) in
  Repr c' (s <| live := filter (λ g, ¬ met (live s) ids now g) (live s) |>)
  ∧ prev = joined (live s) ids now
  ∧ l = fold_left (λ l g, mergeSessionAliases l (aliases g)) (joined (live s) ids now) l0.
Proof.
  intros Hr. induction ids as [|id ids IH] using rev_ind.
  { cbn. split_and!; [|done|done]. rewrite filter_all; [by destruct s|]. intros g _ [_ Hm]. apply Hm. constructor. }
  rewrite fold_left_app. destruct (fold_left (gather_step now) ids (c, [], l0)) as [[c' prev] l].
  destruct IH as (Hr'&->&->). unfold joined. rewrite omap_app, fold_left_app. fold (joined (live s) ids now).
  cbn [fold_left gather_step]. pose proof (rp_disjoint c s Hr) as Hds.
  assert (∀ g, met (live s) (ids ++ [id]) now g ↔ met (live s) ids now g ∨ expired now g = true ∧ id ∈ aliases g) as Hmet.
  { intros g. unfold met. rewrite Forall_app, Forall_singleton.
    destruct (decide (Forall (λ id, id ∉ aliases g) ids)), (decide (id ∈ aliases g)); naive_solver. }
  rewrite (repr_lookup c' _ id Hr'). cbn [live].
  change (live (s <| live := filter (λ g, ¬ met (live s) ids now g) (live s) |>)) with (filter (λ g, ¬ met (live s) ids now g) (live s)).
  destruct (session_of (filter _ (live s)) id) as [g|] eqn:Eg.
  - apply session_of_spec in Eg as [[Hnm Hg]%list_elem_of_filter Ha]; [|by apply disjoint_filter].
    assert (session_of (live s) id = Some g) as Es by by apply (session_of_spec Hds).
    cbn. rewrite Es. cbn. fold (expired now g). destruct (expired now g) eqn:Ex; cbn; rewrite ?app_nil_r.
    + split_and!; [|done|done].
      assert (Repr (removeAliasGroupLocked c' g) (end_session (s <| live := filter (λ g, ¬ met (live s) ids now g) (live s) |>) g)) as H1.
      { apply remove_repr; [done|]. by apply list_elem_of_filter. }
      unfold end_session, without in H1. cbn in H1. rewrite list_filter_filter in H1.
      rewrite (filter_iff_in _ (λ g0, ¬ met (live s) (ids ++ [id]) now g0)) in H1; [exact H1|].
      intros x Hx. rewrite Hmet. split; [intros [Hxg Hxm] [?|[? Hxa]]; [done|]|intros Hn; split; [intros ->; apply Hn; by right|tauto]].
      apply Hxg. by apply (alias_unique Hds x g id).
    + split_and!; [|done|done]. rewrite (filter_iff_in _ (λ g0, ¬ met (live s) (ids ++ [id]) now g0)) in Hr'; [exact Hr'|].
      intros x Hx. rewrite Hmet. split; [|tauto]. intros Hxm [?|[Hxe Hxa]]; [done|].
      assert (x = g) as -> by by apply (alias_unique Hds x g id). congruence.
  - assert (∀ x, x ∈ live s → id ∈ aliases x → met (live s) ids now x) as Hno.
    { intros x Hx Hxa. destruct (decide (met (live s) ids now x)) as [|Hm]; [done|]. exfalso.
      assert (session_of (filter (λ g, ¬ met (live s) ids now g) (live s)) id = Some x) as E; [|congruence].
      apply session_of_spec; [by apply disjoint_filter|]. split; [by apply list_elem_of_filter|done]. }
    assert (session_of (live s) id ≫= (λ g, if expired now g then None else Some g) = None) as En.
    { destruct (session_of (live s) id) as [x|] eqn:Ex; [|done]. apply (session_of_spec Hds) in Ex as [Hx Hxa].
      destruct (Hno x Hx Hxa) as [E _]. cbn. by rewrite E. }
    cbn [omap list_omap]. rewrite En. cbn. rewrite app_nil_r. split_and!; [|done|done].
    rewrite (filter_iff_in _ (λ g0, ¬ met (live s) (ids ++ [id]) now g0)) in Hr'; [exact Hr'|].
    intros x Hx. rewrite Hmet. split; [|tauto]. intros Hxm [?|[_ Hxa]]; [done|]. by apply Hxm, Hno.
Qed.

Lemma elem_of_joined gs ids now g : disjoint_sessions gs →
  g ∈ joined gs ids now ↔ g ∈ gs ∧ expired now g = false ∧ ∃ id, id ∈ ids ∧ id ∈ aliases g.
Proof.
  intros Hds. unfold joined. rewrite list_elem_of_omap. split.
  - intros (id & Hid & E). apply bind_Some in E as (x & Ex & E). destruct (expired now x) eqn:Exp; [done|].
    injection E as <-. apply (session_of_spec Hds) in Ex as [Hx Ha]. eauto.
  - intros (Hg & Ex & id & Hid & Ha). exists id. split; [done|].
    rewrite (proj2 (session_of_spec Hds id g)) by done. cbn. by rewrite Ex.
Qed.

Lemma elem_of_gathered prev : ∀ a l,
  a ∈ fold_left (λ l g, mergeSessionAliases l (aliases g)) prev l → a ∈ l ∨ ∃ g, g ∈ prev ∧ a ∈ aliases g.
Proof.
  induction prev as [|g prev IH]; intros a l Ha; cbn in *; [by left|].
  apply IH in Ha as [Ha|(h&Hh&Ha)].
  - apply elem_of_merge in Ha as [[?|?] _]; [by left|right; exists g; split; [left|done]].
  - right. exists h. split; [by right|done].
Qed.

Lemma gathered_alias_list prev : ∀ l, alias_list l → alias_list (fold_left (λ l g, mergeSessionAliases l (aliases g)) prev l).
Proof. induction prev as [|g prev IH]; intros l Hl; cbn; [done|]. apply IH, merge_alias_list. Qed.

Lemma joined_alias_list gs ids now : alias_list (joined_aliases gs ids now).
Proof. apply compact_alias_list, gathered_alias_list, merge_alias_list. Qed.

Lemma elem_of_joined_aliases gs ids now a :
  disjoint_sessions gs → a ∈ joined_aliases gs ids now → a ∈ ids ∨ ∃ g, g ∈ joined gs ids now ∧ a ∈ aliases g.
Proof.
  intros Hds Ha. pose proof (elem_of_sublist _ _ _ Ha (compact_sublist _)) as Hin.
  apply elem_of_gathered in Hin as [Hin|?]; [|by right]. apply elem_of_merge in Hin as [[?%not_elem_of_nil|?] _]; [done|by left].
Qed.

(** Without a name there is nothing to bind. *)
Lemma joined_aliases_nil gs ids now : joined_aliases gs ids now = [] → ∀ id, id ∈ ids → id = "".
Proof.
  intros E%compact_nil id Hid. destruct (decide (id = "")) as [|Hne]; [done|]. exfalso.
  assert (∀ prev l, id ∈ l → id ∈ fold_left (λ l g, mergeSessionAliases l (aliases g)) prev l) as Hkeep.
  { induction prev as [|g prev IH]; intros l Hl; cbn; [done|]. apply IH, elem_of_merge. split; [by left|done]. }
  apply (not_elem_of_nil id). rewrite <-E. apply Hkeep, elem_of_merge. split; [by right|done].
Qed.

Lemma select_repr c s seq :
  Repr c s → Repr (c <| bindingSequence := seq |>) (s <| selections := seq |>).
Proof. intros []. split; try done. naive_solver. Qed.

(** The sessions that are neither met expired nor joined are those that share no name. *)
Lemma unjoined s ids now :
  disjoint_sessions (live s) →
  filter (λ h, h ∉ joined (live s) ids now) (filter (λ g, ¬ met (live s) ids now g) (live s))
  = filter (λ g, Forall (λ id, id ∉ aliases g) ids) (live s).
Proof.
  intros Hds. rewrite list_filter_filter. apply filter_iff_in. intros g Hg. rewrite (elem_of_joined _ _ _ _ Hds).
  unfold met. split.
  - intros [Hj Hm]. apply Forall_forall. intros id Hid Ha. destruct (expired now g) eqn:Ex.
    + apply Hm. split; [done|]. rewrite Forall_forall. by intros H; apply (H id).
    + apply Hj. eauto.
  - intros Hf. split; [intros (_&_&id&Hid&Ha); by apply (proj1 (Forall_forall _ _) Hf id)|by intros [_ Hm]].
Qed.

Lemma set_repr c s authID b ids now :
  Repr c s → Repr (setAliases c authID b ids now) (sp_set s authID b ids now).
Proof.
  intros Hr. pose proof (rp_disjoint c s Hr) as Hds. unfold setAliases, sp_set.
  destruct (String.eqb authID ""); [done|].
  pose proof (gather_repr c s ids now (mergeSessionAliases [] ids) Hr) as Hg.
  destruct (fold_left (gather_step now) ids _) as [[c1 prev] l]. destruct Hg as (Hr1&->&->).
  fold (joined_aliases (live s) ids now). pose proof (joined_alias_list (live s) ids now) as Hal.
  pose proof (joined_aliases_nil (live s) ids now) as Hnil. pose proof (elem_of_joined_aliases (live s) ids now) as Hin.
  destruct (joined_aliases (live s) ids now) as [|p l] eqn:El.
  { rewrite bool_decide_eq_true_2 by done. cbn. rewrite filter_all in Hr1; [by destruct s|].
    intros g Hgl [_ Hm]. apply Hm, Forall_forall. intros id Hid. rewrite (Hnil eq_refl id Hid). by apply (ds_named _ Hds). }
  rewrite bool_decide_eq_false_2 by done. cbn [orb].
  destruct (rp_limits _ _ Hr1) as (_ & Ettl & Eseq & _). cbn in Ettl, Eseq.
  set (s1 := s <| live := filter (λ g, ¬ met (live s) ids now g) (live s) |>) in *.
  assert (∀ c2 s2 b2, Repr c2 s2 → live s2 = live s1 → ttl c2 = lifetime s →
    Repr (replaceAliasGroupsLocked c2 authID (Add now (ttl c2)) (p :: l) b2 (joined (live s) ids now))
      (add_session (s2 <| live := filter (λ g, Forall (λ id, id ∉ aliases g) ids) (live s) |>)
         (mkSession authID (Add now (lifetime s)) (p :: l) b2))) as Hput.
  { intros c2 s2 b2 Hr2 E2 Et2. rewrite Et2.
    pose proof (replace_repr c2 s2 authID (Add now (lifetime s)) (p :: l) b2 (joined (live s) ids now) Hr2) as Hrep.
    rewrite E2 in Hrep. unfold s1 in Hrep. cbn [live] in Hrep.
    change (live (s <| live := filter (λ g, ¬ met (live s) ids now g) (live s) |>))
      with (filter (λ g, ¬ met (live s) ids now g) (live s)) in Hrep. rewrite (unjoined s ids now Hds) in Hrep. apply Hrep.
    - apply Forall_forall. intros g Hg. left. apply (elem_of_joined _ _ _ _ Hds) in Hg as (Hg&Ex&_).
      apply list_elem_of_filter. split; [|done]. intros [Ex' _]. congruence.
    - intros _. apply alias_list_admissible; [done|done|]. intros h a [Hh Hhl]%list_elem_of_filter Ha Hah.
      apply (Hin a Hds) in Ha as [Ha|(g&Hg&Hag)]; [by apply (proj1 (Forall_forall _ _) Hh a)|].
      apply (elem_of_joined _ _ _ _ Hds) in Hg as (Hg&_&id&Hid&Hidg). assert (h = g) as -> by by apply (alias_unique Hds h g a).
      by apply (proj1 (Forall_forall _ _) Hh id). }
  rewrite Eseq. destruct (negb (String.eqb (b_sessionID b) "") && _).
  - exact (Hput (c1 <| bindingSequence := wrapu64 (selections s + 1) |>) (s1 <| selections := wrapu64 (selections s + 1) |>)
      (b <| b_sequence := wrapu64 (selections s + 1) |>) (select_repr c1 s1 _ Hr1) eq_refl Ettl).
  - exact (Hput c1 s1 _ Hr1 eq_refl Ettl).
Qed.

(** ** Passes *)

Lemma sweep_repr doomed visit : ∀ c s,
  Repr c s →
  Repr (fold_left (sweep doomed) visit c) (s <| live := filter (λ g, ¬ (doomed g = true ∧ primary g ∈ visit)) (live s) |>).
Proof.
  induction visit as [|k visit IH]; intros c s Hr; cbn [fold_left].
  { rewrite filter_all; [by destruct s|]. by intros g _ [_ ?%not_elem_of_nil]. }
  pose proof (rp_disjoint c s Hr) as Hds.
  destruct (groups c !! k) as [g|] eqn:Eg.
  - unfold sweep at 2. rewrite Eg. apply (rp_groups c s Hr) in Eg as [Hg <-]. destruct (doomed g) eqn:Ed.
    + pose proof (IH _ _ (remove_repr c s g Hr Hg)) as H1. unfold end_session, without in H1. cbn in H1.
      rewrite list_filter_filter in H1. rewrite (filter_iff_in _ (λ x, ¬ (doomed x = true ∧ primary x ∈ primary g :: visit))) in H1;
        [exact H1|]. intros x Hx. rewrite elem_of_cons. split.
      * intros [Hno Hxg] [Hd [E|Hv]]; [by apply Hxg, (primary_inj Hds)|by apply Hno].
      * intros Hno. split; [intros [Hd Hv]; apply Hno; auto|]. intros ->. apply Hno. auto.
    + pose proof (IH _ _ Hr) as H1. rewrite (filter_iff_in _ (λ x, ¬ (doomed x = true ∧ primary x ∈ primary g :: visit))) in H1;
        [exact H1|]. intros x Hx. rewrite elem_of_cons. split; [|naive_solver].
      intros Hno [Hd [E|Hv]]; [|by apply Hno]. apply (primary_inj Hds) in E; [congruence|done..].
  - unfold sweep at 2. rewrite Eg. pose proof (IH _ _ Hr) as H1.
    rewrite (filter_iff_in _ (λ x, ¬ (doomed x = true ∧ primary x ∈ k :: visit))) in H1; [exact H1|].
    intros x Hx. rewrite elem_of_cons. split; [|naive_solver].
    intros Hno [Hd [E|Hv]]; [|by apply Hno]. assert (groups c !! k = Some x) as E' by by apply (rp_groups c s Hr).
    congruence.
Qed.

(** The order of the visit does not matter. *)
Lemma sweep_all doomed visit c s :
  Repr c s → visit ≡ₚ (map_to_list (groups c)).*1 → Repr (fold_left (sweep doomed) visit c) (sp_sweep s doomed).
Proof.
  intros Hr Hv. pose proof (sweep_repr doomed visit c s Hr) as H1. unfold sp_sweep.
  rewrite (filter_iff_in _ (λ g, doomed g = false)) in H1; [exact H1|]. intros g Hg.
  assert (primary g ∈ visit) as Hin.
  { rewrite Hv. apply list_elem_of_fmap. exists (primary g, g). split; [done|].
    apply elem_of_map_to_list. by apply (rp_groups c s Hr). }
  destruct (doomed g); naive_solver.
Qed.

(** ** The simulation *)

Inductive session_op :=
| OpGet (alias : string) (now later : time)
| OpGetAndRefresh (alias : string) (now : time)
| OpSet (authID : string) (b : sessionBinding) (ids : list string) (now : time)
| OpTouch (alias expected : string) (now : time)
| OpCompareAndDelete (alias expected : string)
| OpInvalidate (alias : string)
| OpInvalidateAuth (authID : string)
| OpCleanup (now : time).
Inductive answer := Nothing | Credential (authID : option string) | Flag (b : bool).

Definition cache_step (c : SessionCache) (op : session_op) : answer * SessionCache :=
  match op with
  | OpGet a now later => let '(r, c) := Get c a now later in (Credential r, c)
  | OpGetAndRefresh a now => let '(r, c) := GetAndRefresh c a now in (Credential r, c)
  | OpSet authID b ids now => (Nothing, setAliases c authID b ids now)
  | OpTouch a expected now => let '(r, c) := Touch c a expected now in (Flag r, c)
  | OpCompareAndDelete a expected => let '(r, c) := CompareAndDelete c a expected in (Flag r, c)
  | OpInvalidate a => (Nothing, Invalidate c a)
  | OpInvalidateAuth authID => (Nothing, InvalidateAuth c authID)
  | OpCleanup now => (Nothing, cleanup c now)
  end.
Definition spec_step (s : Sessions) (op : session_op) : answer * Sessions :=
  match op with
  | OpGet a now later => let '(r, s) := sp_get s a now later in (Credential r, s)
  | OpGetAndRefresh a now => let '(r, s) := sp_get_and_refresh s a now in (Credential r, s)
  | OpSet authID b ids now => (Nothing, sp_set s authID b ids now)
  | OpTouch a expected now => let '(r, s) := sp_touch s a expected now in (Flag r, s)
  | OpCompareAndDelete a expected => let '(r, s) := sp_compare_and_delete s a expected in (Flag r, s)
  | OpInvalidate a => (Nothing, sp_invalidate s a)
  | OpInvalidateAuth authID =>
      (Nothing, if String.eqb authID "" then s else sp_sweep s (λ g, String.eqb (s_authID g) authID))
  | OpCleanup now => (Nothing, sp_sweep s (expired now))
  end.
Fixpoint steps {A} (step : A → session_op → answer * A) (ops : list session_op) (x : A) : list answer * A :=
  match ops with
  | [] => ([], x)
  | op :: ops => let '(r, x) := step x op in let '(rs, x) := steps step ops x in (r :: rs, x)
  end.

(** The empty name is never known. *)
Lemma lookup_empty_name c s : Repr c s → session_of (live s) "" = None.
Proof.
  intros Hr. destruct (session_of (live s) "") as [g|] eqn:E; [|done].
  apply (session_of_spec (rp_disjoint c s Hr)) in E as [Hg Ha]. by destruct (ds_named _ (rp_disjoint c s Hr) g Hg).
Qed.

Lemma lookup_session c s a g : Repr c s → session_of (live s) a = Some g → g ∈ live s ∧ a ∈ aliases g.
Proof. intros Hr. by apply session_of_spec, (rp_disjoint c s Hr). Qed.

(** Looking up in the cache, with the empty name refused, is looking up in the list. *)
Ltac look_up c s a Hr :=
  rewrite ?(repr_lookup c s a Hr); pose proof (lookup_empty_name c s Hr) as Hempty;
  destruct (String.eqb_spec a "") as [->|Hname]; cbn [orb]; [rewrite Hempty; by split|]; clear Hempty;
  destruct (session_of (live s) a) as [g|] eqn:Hg;
  [apply (lookup_session c s a g Hr) in Hg as [Hg Hin]|first [by split|case (String.eqb _ ""); by split]].

Lemma step_refines c s op :
  Repr c s → (cache_step c op).1 = (spec_step s op).1 ∧ Repr (cache_step c op).2 (spec_step s op).2.
Proof.
  intros Hr. destruct op as [a now later|a now|authID b ids now|a e now|a e|a|authID|now]; cbn [cache_step spec_step].
  - unfold Get, sp_get. look_up c s a Hr. unfold expired. destruct (Before now _); [done|]. destruct (Before later _); [done|].
    split; [done|]. by apply remove_repr.
  - unfold GetAndRefresh, sp_get_and_refresh. look_up c s a Hr. unfold expired. destruct (Before now _); cbn [negb].
    + split; [done|]. by apply refresh_repr.
    + split; [done|]. by apply remove_repr.
  - split; [done|]. by apply set_repr.
  - unfold Touch, sp_touch. look_up c s a Hr. destruct (String.eqb e ""); [by split|]. cbn [orb].
    unfold expired. destruct (_ || _); [by split|]. split; [done|]. by apply refresh_repr.
  - unfold CompareAndDelete, sp_compare_and_delete. look_up c s a Hr. destruct (String.eqb e ""); [by split|]. cbn [orb].
    destruct (negb _); [by split|]. split; [done|]. by apply drop_repr.
  - split; [done|]. cbn [snd]. unfold Invalidate, sp_invalidate. rewrite (repr_lookup c s a Hr).
    destruct (String.eqb_spec a "") as [->|_]; [by rewrite (lookup_empty_name c s Hr)|].
    destruct (session_of (live s) a) as [g|] eqn:Hg; [|done]. apply (lookup_session c s a g Hr) in Hg as [Hg Hin].
    by apply drop_repr.
  - split; [done|]. cbn [snd]. unfold InvalidateAuth, InvalidateAuth_in. destruct (String.eqb authID ""); [done|].
    by apply sweep_all.
  - split; [done|]. cbn [snd]. unfold cleanup, cleanup_in. by apply sweep_all.
Qed.

Lemma steps_refine ops : ∀ c s,
  Repr c s → (steps cache_step ops c).1 = (steps spec_step ops s).1
             ∧ Repr (steps cache_step ops c).2 (steps spec_step ops s).2.
Proof.
  induction ops as [|op ops IH]; intros c s Hr; [done|]. cbn [steps].
  destruct (step_refines c s op Hr) as [Ha Hr1].
  destruct (cache_step c op) as [r c1], (spec_step s op) as [r' s1]. cbn in Ha, Hr1. subst r'.
  specialize (IH c1 s1 Hr1). destruct (steps cache_step ops c1), (steps spec_step ops s1). cbn in *.
  destruct IH as [-> ?]. by split.
Qed.

Definition new_sessions (ttl : duration) (cap : Z) : Sessions :=
  mkSessions [] (if cap <=? 0 then defaultMaxSessionEntries else cap) (if ttl <=? 0 then 30 * Minute else ttl) 0.

(** C6: The cache is a list of sessions with disjoint names, the oldest first.  Whatever
    sequence of lookups, bindings, refreshes, reports, invalidations and cleanups it
    has gone through, it has answered all of them as the list does, and its four
    indexes - by name, by first name, by age, by client session - still describe
    exactly that list. *)
Theorem session_cache_refines (ttl : duration) (cap : Z) (ops : list session_op) :
  let c := steps cache_step ops (NewSessionCacheWithCapacity ttl cap) in
  let s := steps spec_step ops (new_sessions ttl cap) in
  c.1 = s.1 ∧ Repr c.2 s.2.
Proof. apply steps_refine, new_repr. Qed.
