(* ===== verification/SessionUse.v ===== *)
(** * What the session cache does for a client

    Consequences of [SessionProofs]: evicting ends and keeps what fits, a binding is
    answered until it expires, and the newest selection of a client session is found
    in whatever order its groups are visited. *)
From Stdlib Require Import ZArith Lia String Bool.
From stdpp Require Import prelude gmap strings.
From S2P Require Import Prelude GoStd SessionCache SessionSpec SessionProofs.
Local Open Scope string_scope.
Local Open Scope list_scope.
Local Open Scope Z_scope.

(** ** Eviction *)

Lemma evict_loop_done fuel c : over_capacity c = false → evict_loop fuel c = c.
Proof. intros E. destruct fuel; cbn [evict_loop]; [done|]. by rewrite E. Qed.

Lemma evict_loop_more n m : ∀ c, over_capacity (evict_loop n c) = false → evict_loop (n + m) c = evict_loop n c.
Proof.
  induction n as [|n IH]; intros c Hc; cbn [evict_loop plus] in *; [by apply evict_loop_done|].
  destruct (over_capacity c); [|done]. destruct (evictionOrder c); [done|by apply IH].
Qed.

Lemma repr_over c s : Repr c s → over_capacity c = (capacity s <? Z.of_nat (length (known (live s)))).
Proof. intros Hr. unfold over_capacity. by rewrite (repr_size c s Hr), (proj1 (rp_limits c s Hr)). Qed.

Lemma repr_order_length c s : Repr c s → length (evictionOrder c) = length (live s).
Proof. intros Hr. by rewrite <-(length_fmap snd), (rp_order c s Hr), length_fmap. Qed.

Lemma evict_fits fuel c s : Repr c s → (length (evictionOrder c) ≤ fuel)%nat → over_capacity (evict_loop fuel c) = false.
Proof.
  intros Hr Hf. rewrite (repr_order_length c s Hr) in Hf.
  rewrite (repr_over _ _ (evict_spec (live s) fuel c s Hr eq_refl Hf)). apply Z.ltb_ge, fit_bound.
  pose proof (rp_limits c s Hr). cbn. lia.
Qed.

(** The eviction loop ends: once it has been given a turn for every group, more turns
    change nothing, the names fit, and the sessions that are left are the youngest ones:
    every run of youngest sessions that would have fitted is still there. *)
Theorem eviction_ends (c : SessionCache) (s : Sessions) (fuel : nat) (Hr : Repr c s)
    (Hf : (length (evictionOrder c) ≤ fuel)%nat) :
  evict_loop fuel c = evictExcessLocked c
  ∧ over_capacity (evict_loop fuel c) = false
  ∧ ∃ gone kept, live s = gone ++ kept ∧ Repr (evict_loop fuel c) (s <| live := kept |>)
    ∧ ∀ gs, gs `suffix_of` live s → Z.of_nat (length (known gs)) ≤ capacity s → gs `suffix_of` kept.
Proof.
  split_and!.
  - unfold evictExcessLocked. replace fuel with (length (evictionOrder c) + (fuel - length (evictionOrder c)))%nat by lia.
    by apply evict_loop_more, (evict_fits _ _ s).
  - by apply (evict_fits _ _ s).
  - destruct (fit_suffix (capacity s) (live s)) as [gone E]. exists gone, (fit (capacity s) (live s)).
    split; [done|]. split; [|apply fit_least]. apply evict_spec; [done|done|]. by rewrite <-(repr_order_length c s Hr).
Qed.

(** Two sessions in a cache for one. *)
Definition older : sessionEntry := mkSession "one" 10 ["a"] zeroBinding.
Definition younger : sessionEntry := mkSession "two" 20 ["b"] zeroBinding.
Definition crowded : SessionCache :=
  push_group (push_group (NewSessionCacheWithCapacity 10 1) "a" older) "b" younger.
Definition crowd : Sessions := mkSessions [older; younger] 1 10 0.

Lemma admissible_dec gs g :
  bool_decide (aliases g ≠ [] ∧ "" ∉ aliases g ∧ NoDup (aliases g)) = true →
  bool_decide (Forall (λ h, Forall (λ a, a ∉ aliases h) (aliases g)) gs) = true → admissible gs g.
Proof.
  intros (Hne&He&Hnd)%bool_decide_eq_true Hf%bool_decide_eq_true. split; [done|done|].
  intros h a Hh Ha. rewrite Forall_forall in Hf. specialize (Hf h Hh). rewrite Forall_forall in Hf. by apply Hf.
Qed.

Lemma crowded_repr : Repr crowded crowd.
Proof.
  apply (push_repr _ (mkSessions [older] 1 10 0) younger); [|by apply admissible_dec].
  apply (push_repr _ (mkSessions [] 1 10 0) older); [apply (new_repr 10 1)|by apply admissible_dec].
Qed.

Lemma eviction_ends_witness :
  over_capacity crowded = true ∧ evict_loop 7 crowded = evictExcessLocked crowded.
Proof.
  split; [reflexivity|]. apply (eviction_ends crowded crowd 7); [exact crowded_repr|vm_compute; lia].
Defined.

(** ** Bindings *)

Lemma compact_loop_length l : ∀ (b : bool) n, (n ≤ maxStableSessionAliases)%nat →
  (length (compact_loop isLocalPromptCacheSessionAlias b n l)
   ≤ (if b then 0 else 1) + (maxStableSessionAliases - n))%nat.
Proof.
  induction l as [|x l IH]; intros b n Hn; cbn [compact_loop]; [cbn; lia|].
  destruct (isLocalPromptCacheSessionAlias x).
  - destruct b; [by apply IH|]. cbn [length]. specialize (IH true n Hn). cbv beta iota in IH. lia.
  - destruct (Nat.leb_spec maxStableSessionAliases n); [by apply IH|].
    cbn [length]. specialize (IH b (S n)). destruct b; lia.
Qed.

Lemma compact_length l : (length (compactSessionAliases l) ≤ S maxStableSessionAliases)%nat.
Proof. pose proof (compact_loop_length l false 0 (Nat.le_0_l _)). cbv beta iota in H. rewrite Nat.sub_0_r in H. exact H. Qed.

Lemma known_snoc gs g : known (gs ++ [g]) = known gs ++ aliases g.
Proof. unfold known. by rewrite fmap_app, concat_app; cbn; rewrite app_nil_r. Qed.

(** The youngest session stays if it fits at all; everything stays if all of it fits. *)
Lemma fit_keeps_last cap gs g : Z.of_nat (length (aliases g)) ≤ cap → g ∈ fit cap (gs ++ [g]).
Proof.
  intros Hc. destruct (fit_least cap (gs ++ [g]) [g]) as [l ->]; [by exists gs| |apply elem_of_app; right; left].
  cbn. by rewrite app_nil_r.
Qed.
Lemma fit_all cap gs : Z.of_nat (length (known gs)) ≤ cap → fit cap gs = gs.
Proof. destruct gs as [|g gs]; [done|]. cbn [fit]. intros Hc. by rewrite (proj2 (Z.ltb_ge _ _) Hc). Qed.

(** What [sp_set] adds. *)
Definition bound (s : Sessions) (authID : string) (b : sessionBinding) (ids : list string) (now : time) : sessionEntry :=
  mkSession authID (Add now (lifetime s)) (joined_aliases (live s) ids now)
    (if negb (String.eqb (b_sessionID b) "") && negb (String.eqb (b_provider b) "")
     then b <| b_sequence := wrapu64 (selections s + 1) |>
     else newest_binding b (joined (live s) ids now)).
Lemma sp_set_live s authID b ids now :
  authID ≠ "" → joined_aliases (live s) ids now ≠ [] →
  live (sp_set s authID b ids now)
  = fit (capacity s) (filter (λ g, Forall (λ id, id ∉ aliases g) ids) (live s) ++ [bound s authID b ids now]).
Proof.
  intros Hne Hl. unfold sp_set, bound. rewrite (proj2 (String.eqb_neq _ _) Hne), bool_decide_eq_false_2 by done.
  cbn [orb]. by destruct (_ && _).
Qed.

Lemma merge_hd id (l l' : list string) : id ≠ "" → hd_error (mergeSessionAliases (id :: l) l') = Some id.
Proof.
  intros Hne. unfold mergeSessionAliases. cbn [app merge_loop].
  by rewrite (proj2 (String.eqb_neq _ _) Hne), bool_decide_eq_false_2 by set_solver.
Qed.
Lemma first_name_joined gs id rest now : id ≠ "" → id ∈ joined_aliases gs (id :: rest) now.
Proof.
  intros Hne. unfold joined_aliases.
  assert (∀ prev l, hd_error l = Some id → hd_error (fold_left (λ l g, mergeSessionAliases l (aliases g)) prev l) = Some id) as Hhd.
  { induction prev as [|g prev IH]; intros l Hl; [done|]. cbn [fold_left]. apply IH.
    destruct l as [|x l]; [done|]. injection Hl as ->. by apply merge_hd. }
  specialize (Hhd (joined gs (id :: rest) now) _ (merge_hd id [] rest Hne)).
  change (mergeSessionAliases [] (id :: rest)) with (mergeSessionAliases [id] rest).
  destruct (fold_left _ _ _) as [|x l]; [done|]. injection Hhd as ->. rewrite compact_head. left.
Qed.
Lemma known_filter_length gs (P : sessionEntry → Prop) `{∀ g, Decision (P g)} :
  (length (known (filter P gs)) ≤ length (known gs))%nat.
Proof.
  induction gs as [|g gs IH]; [done|]. rewrite filter_cons. unfold known in *.
  case_decide; cbn; rewrite ?length_app; lia.
Qed.

(** The joined names are answered with the credential until the lifetime has passed. *)
Lemma bound_lookup c s authID b ids now a :
  Repr c s → authID ≠ "" → 65 ≤ capacity s → a ∈ joined_aliases (live s) ids now →
  c_entries (setAliases c authID b ids now) !! a = Some (bound s authID b ids now).
Proof.
  intros Hr Hid Hcap Ha. apply (rp_entries _ _ (set_repr c s authID b ids now Hr)). split; [|done].
  rewrite sp_set_live; [|done|by intros E; rewrite E in Ha; apply not_elem_of_nil in Ha]. apply fit_keeps_last. cbn.
  pose proof (compact_length (fold_left (λ l g, mergeSessionAliases l (aliases g))
    (joined (live s) ids now) (mergeSessionAliases [] ids))) as Hlen.
  unfold joined_aliases, maxStableSessionAliases in *. lia.
Qed.
Lemma bound_first c s authID b id rest now :
  Repr c s → authID ≠ "" → 65 ≤ capacity s → id ≠ "" →
  ∃ g, c_entries (setAliases c authID b (id :: rest) now) !! id = Some g ∧ s_authID g = authID ∧ expiresAt g = now + ttl c.
Proof.
  intros Hr Hid Hcap Hne. rewrite (bound_lookup c s) by (done || by apply first_name_joined).
  eexists. split; [done|]. by rewrite (proj1 (proj2 (rp_limits c s Hr))).
Qed.

(** Binding names to a credential: as long as the cache has room for one session's
    names (65 at most), every name of the joined session - the first name asked for
    among them - is answered with the credential until the lifetime has passed; and a
    name of another session keeps its answer as long as the cache has room for all. *)
Theorem binding_holds (c : SessionCache) (s : Sessions) (authID : string) (b : sessionBinding) (ids : list string)
    (now : time) (Hr : Repr c s) (Hid : authID ≠ "") (Hcap : 65 ≤ capacity s) :
  let l := joined_aliases (live s) ids now in
  let c' := setAliases c authID b ids now in
  (∀ id rest, ids = id :: rest → id ≠ "" → id ∈ l) ∧
  (∀ a at_ later, a ∈ l → at_ < now + ttl c → Get c' a at_ later = (Some authID, c')) ∧
  (∀ a g, c_entries c !! a = Some g → Forall (λ id, id ∉ aliases g) ids →
     (length (known (live s)) + length l ≤ Z.to_nat (capacity s))%nat → c_entries c' !! a = Some g).
Proof.
  intros l c'. pose proof (set_repr c s authID b ids now Hr) as Hr'.
  pose proof (λ a, bound_lookup c s authID b ids now a Hr Hid Hcap) as Hb. fold c' in Hr', Hb. clearbody c'.
  destruct (rp_limits c s Hr) as (_ & Ettl & _). split_and!.
  - intros id rest -> Hne. by apply first_name_joined.
  - intros a at_ later Ha Ht. assert (a ≠ "") as Hae.
    { intros ->. by destruct (joined_alias_list (live s) ids now) as [_ []]. }
    unfold Get. rewrite (proj2 (String.eqb_neq _ _) Hae), (Hb a Ha). cbn.
    unfold Before, Add. by rewrite <-Ettl, (proj2 (Z.ltb_lt _ _) Ht).
  - intros a g Ha Hout Hroom. apply (rp_entries c s Hr) in Ha as [Hg Hag]. apply (rp_entries c' _ Hr'). split; [|done].
    destruct (decide (l = [])) as [E|Hne].
    { unfold sp_set. fold l. rewrite E, bool_decide_eq_true_2, orb_true_r by done. done. }
    rewrite sp_set_live by done. assert (g ∈ filter (λ g, Forall (λ id, id ∉ aliases g) ids) (live s)) as Hin by by apply list_elem_of_filter.
    rewrite fit_all; [apply elem_of_app; by left|]. rewrite known_snoc, length_app. cbn. fold l.
    pose proof (known_filter_length (live s) (λ g, Forall (λ id, id ∉ aliases g) ids)). lia.
Qed.

Definition one_session : sessionEntry := mkSession "one" 100 ["a"] zeroBinding.
Definition small_cache : SessionCache := push_group (NewSessionCacheWithCapacity 50 100) "a" one_session.

Lemma small_repr : Repr small_cache (mkSessions [one_session] 100 50 0).
Proof. apply (push_repr _ (mkSessions [] 100 50 0) one_session); [apply (new_repr 50 100)|by apply admissible_dec]. Qed.

Lemma binding_holds_witness :
  let c' := setAliases small_cache "two" zeroBinding ["b"; "c"] 7 in
  Get c' "b" 30 31 = (Some "two", c') ∧ c_entries c' !! "a" = Some one_session.
Proof.
  destruct (binding_holds small_cache (mkSessions [one_session] 100 50 0) "two" zeroBinding ["b"; "c"] 7 small_repr)
    as (Hfirst & Hb & Ha); [discriminate|vm_compute; discriminate|]. split.
  - apply Hb; [exact (Hfirst "b" ["c"] eq_refl ltac:(discriminate))|vm_compute; reflexivity].
  - apply Ha; [vm_compute; reflexivity| |vm_compute; lia].
    refine (bool_decide_unpack _ _). vm_compute. exact I.
Defined.

(** ** The newest selection *)

Definition selectable (s : Sessions) (sessionID : string) (providers : gset string) (now : time) (g : sessionEntry) : Prop :=
  g ∈ live s ∧ b_sessionID (binding g) = sessionID ∧ b_provider (binding g) ∈ providers
  ∧ now < expiresAt g ∧ 0 < b_sequence (binding g).

Definition step_candidate (c : SessionCache) (providers : gset string) (now : time) (k : string) (g : sessionEntry) : Prop :=
  groups c !! k = Some g ∧ b_provider (binding g) ∈ providers ∧ now < expiresAt g ∧ 0 < b_sequence (binding g).
Definition newest_of (P : sessionEntry → Prop) (r : option sessionEntry) : Prop :=
  match r with
  | Some g => P g ∧ ∀ h, P h → b_sequence (binding h) ≤ b_sequence (binding g)
  | None => ∀ h, ¬ P h
  end.

Lemma newest_of_iff P Q r : (∀ g, P g ↔ Q g) → newest_of P r → newest_of Q r.
Proof. intros H. destruct r; cbn; naive_solver. Qed.

Lemma latest_step_newest c providers now done_ r k :
  newest_of (λ g, ∃ k, k ∈ done_ ∧ step_candidate c providers now k g) r →
  newest_of (λ g, ∃ k', k' ∈ done_ ++ [k] ∧ step_candidate c providers now k' g) (latest_step c providers now r k).
Proof.
  intros Hr. unfold latest_step.
  assert (∀ g, (∃ k', k' ∈ done_ ++ [k] ∧ step_candidate c providers now k' g) ↔
            (∃ k', k' ∈ done_ ∧ step_candidate c providers now k' g) ∨ step_candidate c providers now k g) as Hiff.
  { intros g. setoid_rewrite elem_of_app. setoid_rewrite list_elem_of_singleton. naive_solver. }
  refine (newest_of_iff _ _ _ (λ g, iff_sym (Hiff g)) _). clear Hiff.
  unfold step_candidate at 2. destruct (groups c !! k) as [e|] eqn:E.
  2: { refine (newest_of_iff _ _ _ _ Hr). naive_solver. }
  unfold Before. case_bool_decide as Hp; [|refine (newest_of_iff _ _ _ _ Hr); naive_solver].
  destruct (Z.ltb_spec now (expiresAt e)); [|refine (newest_of_iff _ _ _ _ Hr); naive_solver lia].
  cbn [negb orb]. destruct r as [l|]; cbn in Hr |- *.
  - destruct Hr as [(k'&Hk'&Hl) Hmax]. destruct (Z.ltb_spec (b_sequence (binding l)) (b_sequence (binding e))); cbn.
    + split; [right; split_and!; try done; destruct Hl as (_&_&_&?); lia|].
      intros h [Hh|([= <-]&_)]; [specialize (Hmax h Hh); lia|lia].
    + split; [left; by exists k'|]. intros h [Hh|([= <-]&_)]; [by apply Hmax|lia].
  - destruct (Z.ltb_spec 0 (b_sequence (binding e))); cbn.
    + split; [by right|]. intros h [Hh|([= <-]&_)]; [by destruct (Hr h)|lia].
    + intros h [Hh|([= <-]&_&_&?)]; [by apply (Hr h)|lia].
Qed.

Lemma latest_loop c providers now visit : ∀ done_ r,
  newest_of (λ g, ∃ k, k ∈ done_ ∧ step_candidate c providers now k g) r →
  newest_of (λ g, ∃ k, k ∈ done_ ++ visit ∧ step_candidate c providers now k g)
    (fold_left (latest_step c providers now) visit r).
Proof.
  induction visit as [|k visit IH]; intros done_ r Hr; cbn [fold_left]; [by rewrite app_nil_r|].
  replace (done_ ++ k :: visit) with ((done_ ++ [k]) ++ visit) by by rewrite <-app_assoc.
  by apply IH, latest_step_newest.
Qed.

(** Whatever order the groups of a client session are visited in, the credential
    found is the one of a live group of that session on one of the providers that was
    selected last; nothing is found exactly when there is no such group. *)
Theorem latest_selection (c : SessionCache) (s : Sessions) (sessionID : string) (providers : gset string) (now : time)
    (visit : list string) (Hr : Repr c s) (Hid : sessionID ≠ "")
    (Hv : visit ≡ₚ elements (default ∅ (sessionGroups c !! sessionID))) :
  let found := latestSessionAuth_in visit c sessionID providers now in
  (∃ g, selectable s sessionID providers now g ∧ found = s_authID g
        ∧ ∀ h, selectable s sessionID providers now h → b_sequence (binding h) ≤ b_sequence (binding g))
  ∨ found = "" ∧ ∀ g, ¬ selectable s sessionID providers now g.
Proof.
  intros found. unfold found, latestSessionAuth_in. rewrite (proj2 (String.eqb_neq _ _) Hid). cbn [orb].
  case_bool_decide as Hp; [right; split; [done|]; intros g (_&_&Hin&_); set_solver|].
  pose proof (latest_loop c providers now visit [] None) as Hl. cbn [app] in Hl.
  specialize (Hl ltac:(by intros h (k&?%not_elem_of_nil&_))).
  refine (_ (newest_of_iff _ (selectable s sessionID providers now) _ _ Hl)); clear Hl.
  - destruct (fold_left _ _ _) as [g|]; cbn; [intros [Hg Hmax]; left; by exists g|intros Hno; by right].
  - intros g. unfold step_candidate, selectable. split.
    + intros (k&Hk&Hg&Hrest). apply (rp_groups c s Hr) in Hg as [Hg <-]. rewrite Hv in Hk.
      destruct (proj1 (rp_sessions c s Hr sessionID (primary g))) as (h&Hh&Eh&Esid&_).
      { destruct (sessionGroups c !! sessionID) as [keys|]; [exists keys; split; [done|by apply elem_of_elements]|].
        by apply elem_of_elements, not_elem_of_empty in Hk. }
      apply (primary_inj (rp_disjoint c s Hr)) in Eh as ->; done.
    + intros (Hg&Hsid&Hrest). exists (primary g). rewrite Hv, (rp_groups c s Hr). split; [|done].
      destruct (proj2 (rp_sessions c s Hr sessionID (primary g))) as (keys&->&Hk); [exists g; split_and!; try done; lia|].
      by apply elem_of_elements.
Qed.

(** A client session that was selected first on one credential, then on another. *)
Definition selected_once : SessionCache :=
  setSessionAliases (NewSessionCacheWithCapacity 50 100) "one" "codex" "client" ["a"] 0.
Definition selected_twice : SessionCache := setSessionAliases selected_once "two" "gemini" "client" ["b"] 5.
Definition selected_list : Sessions :=
  sp_set (sp_set (mkSessions [] 100 50 0) "one" (mkBinding "client" "codex" 0) ["a"] 0)
    "two" (mkBinding "client" "gemini" 0) ["b"] 5.
Definition both_providers : gset string := {["codex"; "gemini"]}.

Lemma selected_repr : Repr selected_twice selected_list.
Proof. apply set_repr, set_repr, (new_repr 50 100). Qed.

Lemma latest_selection_witness :
  latestSessionAuth selected_twice "client" both_providers 10 = "two"
  ∧ ((∃ g, selectable selected_list "client" both_providers 10 g ∧ "two" = s_authID g
        ∧ ∀ h, selectable selected_list "client" both_providers 10 h → b_sequence (binding h) ≤ b_sequence (binding g))
     ∨ "two" = "" ∧ ∀ g, ¬ selectable selected_list "client" both_providers 10 g).
Proof.
  split; [vm_compute; reflexivity|].
  exact (latest_selection selected_twice selected_list "client" both_providers 10 ["b"; "a"] selected_repr
    ltac:(discriminate) (Permutation_swap "a" "b" [])).
Defined.
