(* ===== verification/Affinity.v ===== *)
(** * The session-affinity selector

    Models [SessionAffinitySelector] of [selector.go]: a request that carries a session
    goes to the credential its session is bound to, as long as that credential is
    available; otherwise another selector chooses and the session is bound to its choice.

    The identifiers of a request are inputs ([affinityRequest]): reading them from the
    headers and the body is code that is not modelled, and neither is the prefix
    matcher that serves requests without any identifier.  The selector that chooses is
    reached through the interface [Fallback].  The clock is read several times in one
    call; [readings] holds what it showed. *)
From Stdlib Require Import ZArith Lia String Bool.
From stdpp Require Import prelude gmap strings.
From S2P Require Import Prelude GoStd AuthTypes Availability Capacity Errors Classify Selector SessionCache.
Local Open Scope string_scope.
Local Open Scope list_scope.
Local Open Scope Z_scope.

(** ** Which errors move a session *)

Definition SessionAffinityRebindOnAny := "any".
Definition SessionAffinityRebindOnQuota := "quota".
Definition normalizeSessionAffinityRebindOn (value : string) : string :=
  if String.eqb (ToLower (TrimSpace value)) SessionAffinityRebindOnQuota then SessionAffinityRebindOnQuota
  else SessionAffinityRebindOnAny.

Section errors.
Context `{GoHost} {gj : Gjson}.

Definition shouldRebindSessionAffinityOnError (err : option Error) : bool :=
  match err with
  | None => false
  | Some _ =>
      if shouldSkipCredentialCooldown err then false
      else if isModelSupportResultError err || isCloudflareChallengeResultError err || isInvalidGrantResultError err
      then true
      else bool_decide (StatusCode err ∈ [401; 402; 403; 404; 429])
  end.

Definition isStateBlockedByQuotaOrAuth (unavailable : bool) (quota : QuotaState) (nextRetryAfter : time)
    (lastErr : option Error) (now : time) : bool :=
  if Q_Exceeded quota && (IsZero (Q_NextRecoverAt quota) || After (Q_NextRecoverAt quota) now) then true
  else
    let b := availabilityBlock unavailable (Q_Exceeded quota) nextRetryAfter (Q_NextRecoverAt quota) now in
    if negb (is_blocked b) then
      match lastErr with Some _ => shouldRebindSessionAffinityOnError lastErr | None => false end
    else match lastErr with
         | Some _ => shouldRebindSessionAffinityOnError lastErr
         | None => IsZero nextRetryAfter && IsZero (Q_NextRecoverAt quota)
         end.

(** The loop returns true at the first state that blocks, so its order does not matter. *)
Definition state_quota_blocked (modelKey : string) (now : time) (entry : string * option ModelState) : bool :=
  match entry.2 with
  | None => false
  | Some state =>
      String.eqb (canonicalModelKey entry.1) modelKey
      && (bool_decide (M_Status state = StatusDisabled)
          || isStateBlockedByQuotaOrAuth (M_Unavailable state) (M_Quota state) (M_NextRetryAfter state)
               (M_LastError state) now)
  end.
Definition isAuthBlockedByQuotaOrAuthForModel (auth : option Auth) (model : string) (now : time) : bool :=
  match auth with
  | None => true
  | Some a =>
      if Disabled a || bool_decide (A_Status a = StatusDisabled) then true
      else if hasUnauthorizedAuthFailure auth then true
      else if token_expired auth now then true
      else if Q_Exceeded (Quota a) && String.eqb (Q_Reason (Quota a)) "credential_quota"
              && (IsZero (Q_NextRecoverAt (Quota a)) || After (Q_NextRecoverAt (Quota a)) now) then true
      else
        let states := map_to_list (ModelStates a) in
        if negb (String.eqb model "") && (0 <? length states)%nat
        then existsb (state_quota_blocked (canonicalModelKey model) now) states
        else
          let quota := if (0 <? length states)%nat && negb (String.eqb (Q_Reason (Quota a)) "credential_quota")
                          && negb (Unavailable a)
                       then (Quota a) <| Q_Exceeded := false |> else Quota a in
          isStateBlockedByQuotaOrAuth (Unavailable a) quota (NextRetryAfter a) (LastError a) now
  end.
End errors.

(** ** The interface of the selector that chooses *)

(** The chosen credential may be nil; [weighted] is the type test of the source. *)
Class Fallback (F : Type) := {
  Pick_fallback : F → sctx → string → string → list Auth → time → outcome (option Auth) * F;
  weighted : bool }.

(** A choice is one of the candidates. *)
Class FallbackMember (F : Type) `{Fallback F} : Prop :=
  fallback_member f ctx provider model auths now a :
    (Pick_fallback f ctx provider model auths now).1 = Picked (Some a) → a ∈ auths.

(** ** Requests and state *)

Record affinityRequest := mkRequest { primaryID : string; fallbackID : string; isFork : bool; isGuardian : bool }.
Record affinity_ctx := mkActx { a_ctx : sctx; transientAuthIDs : gset string }.
(** What the clock shows: for the availability pass, in the cache's lookups of the
    session and of its parent, in the other selector, and when binding. *)
Record readings := mkReadings {
  at_now : time; at_session : time; at_guardian : time; at_parent : time; at_parent_again : time;
  at_pick : time; at_bind : time }.

Record AffinitySelector (F : Type) := mkAffinity {
  fallback : F; cache : SessionCache; subagentAffinity : bool; rebindOnQuotaOnly : bool }.
Arguments mkAffinity {F} _ _ _ _.
Arguments fallback {F} _.
Arguments cache {F} _.
Arguments subagentAffinity {F} _.
Arguments rebindOnQuotaOnly {F} _.
#[export] Instance AffinitySelector_eta F : Eta (AffinitySelector F) :=
  λ s, mkAffinity (fallback s) (cache s) (subagentAffinity s) (rebindOnQuotaOnly s).

Definition NewSessionAffinitySelectorWithConfig {F} (f : F) (TTL : duration) (SubagentAffinity : option bool)
    (RebindOn : string) : AffinitySelector F :=
  mkAffinity f (NewSessionCache (if TTL <=? 0 then Hour else TTL)) (default true SubagentAffinity)
    (String.eqb (normalizeSessionAffinityRebindOn RebindOn) SessionAffinityRebindOnQuota).

Definition isHierarchyParent (primary fallback : string) : bool :=
  if String.eqb fallback "" || String.eqb primary "" || String.eqb primary fallback then false
  else if Contains primary ":agent:" then true
  else match String.index 0 ":" primary, String.index 0 ":" fallback with
       | Some (S i), Some (S j) => String.eqb (slice primary 0 (S i)) (slice fallback 0 (S j))
       | None, None => true
       | _, _ => false
       end.
Definition isSubagentSession (primaryID fallbackID : string) : bool :=
  if Contains primaryID ":agent:" then true
  else if String.eqb fallbackID "" || String.eqb primaryID "" || String.eqb primaryID fallbackID then false
  else isHierarchyParent primaryID fallbackID.

(** ** Choosing *)

Definition affinity_key (provider id modelKey : string) : string := provider +:+ "::" +:+ id +:+ "::" +:+ modelKey.

Section pick.
Context `{GoHost} {gj : Gjson} {F : Type} `{Fallback F}.
Implicit Types (s : AffinitySelector F) (r : affinityRequest).

Definition shouldPreserveBindingWhenUnavailable s (cx : affinity_ctx) (candidates : list Auth) (model authID : string)
    (now : time) : bool :=
  if negb (rebindOnQuotaOnly s) || String.eqb authID "" then false
  else if prevalidated (a_ctx cx) then bool_decide (authID ∈ transientAuthIDs cx)
  else match find (λ c, String.eqb (ID c) authID) candidates with
       | Some c => negb (isAuthBlockedByQuotaOrAuthForModel (Some c) model now)
       | None => false
       end.

Definition is_subagent r : bool := negb (isFork r) && isSubagentSession (primaryID r) (fallbackID r).
Definition parent_key r (provider modelKey : string) : option string :=
  if negb (String.eqb (fallbackID r) "") && negb (String.eqb (fallbackID r) (primaryID r))
  then Some (affinity_key provider (fallbackID r) modelKey) else None.
Definition binding_keys r (provider modelKey : string) : list string :=
  affinity_key provider (primaryID r) modelKey ::
  match parent_key r provider modelKey with
  | Some key => if negb (is_subagent r) && negb (isFork r) then [key] else []
  | None => []
  end.
Definition binding_provider (provider : string) (auths : list Auth) (authID : string) : string :=
  let bindingProvider := canonicalSchedulingProvider provider in
  match find (λ c, String.eqb (ID c) authID) auths with
  | Some c => let candidateProvider := canonicalSchedulingProvider (executorKeyFromAuth (Some c)) in
              if String.eqb candidateProvider "" then bindingProvider else candidateProvider
  | None => bindingProvider
  end.
Definition bind s r (provider modelKey : string) (auths : list Auth) (rd : readings) (authID : string)
    (recordSelection : bool) : AffinitySelector F :=
  let keys := binding_keys r provider modelKey in
  s <| cache :=
    if recordSelection
    then setSessionAliases (cache s) authID (binding_provider provider auths authID) (primaryID r) keys (at_bind rd)
    else SetAliases (cache s) authID keys (at_bind rd) |>.

(** A credential that is bound and can be used. *)
Definition usable (available : list Auth) (authID model : string) (now : time) : option Auth :=
  find (λ a, String.eqb (ID a) authID && negb (quotaCapacityExhausted (Some a) model now)) available.

(** Asking the other selector; [preserved] is the credential the session stays bound to. *)
Definition reselect s (cx : affinity_ctx) r (provider model : string) (auths fallbackAuths : list Auth) (rd : readings)
    (preserved : option string) : outcome (option Auth) * AffinitySelector F :=
  let '(o, f) := Pick_fallback (fallback s) (a_ctx cx) provider model fallbackAuths (at_pick rd) in
  let s := s <| fallback := f |> in
  match o with
  | Picked (Some a) =>
      (o, match preserved with
          | Some authID => bind s r provider (canonicalModelKey model) auths rd authID false
          | None => bind s r provider (canonicalModelKey model) auths rd (ID a) true
          end)
  | _ => (o, s)
  end.

(** A guardian takes over the credential its parent session used last. *)
Definition guardian_providers (provider : string) (available : list Auth) : gset string :=
  let schedulingProvider := canonicalSchedulingProvider provider in
  list_to_set (omap (λ a,
    let candidateProvider := canonicalSchedulingProvider (executorKeyFromAuth (Some a)) in
    let candidateProvider := if String.eqb candidateProvider "" then schedulingProvider else candidateProvider in
    if String.eqb schedulingProvider "mixed" || String.eqb candidateProvider schedulingProvider
    then Some candidateProvider else None) available).
Definition inherited s r (provider : string) (available : list Auth) (rd : readings) : option Auth :=
  if is_subagent r && subagentAffinity s && isGuardian r then
    let parentAuthID := latestSessionAuth (cache s) (fallbackID r) (guardian_providers provider available) (at_guardian rd) in
    if String.eqb parentAuthID "" then None else find (λ a, String.eqb (ID a) parentAuthID) available
  else None.

(** The binding of the parent session: [inl] is a credential to use, [inr] the
    credential to preserve, if any. *)
Definition parent_choice s (cx : affinity_ctx) r (model : string) (candidates available : list Auth) (rd : readings)
    (parent : option string) : Auth + option string :=
  match parent with
  | None => inr None
  | Some authID =>
      match (if negb (is_subagent r) || subagentAffinity s then usable available authID model (at_now rd) else None) with
      | Some a => inl a
      | None => inr (if negb (is_subagent r) && negb (isFork r)
                        && shouldPreserveBindingWhenUnavailable s cx candidates model authID (at_now rd)
                     then Some authID else None)
      end
  end.

Definition pick_unbound s (cx : affinity_ctx) r (provider model : string) (auths candidates available : list Auth)
    (rd : readings) : outcome (option Auth) * AffinitySelector F :=
  let modelKey := canonicalModelKey model in
  match inherited s r provider available rd with
  | Some a => (Picked (Some a), bind s r provider modelKey auths rd (ID a) true)
  | None =>
      let '(parent, c) := match parent_key r provider modelKey with
                          | Some key => Get (cache s) key (at_parent rd) (at_parent_again rd)
                          | None => (None, cache s)
                          end in
      let s := s <| cache := c |> in
      match parent_choice s cx r model candidates available rd parent with
      | inl a => (Picked (Some a), bind s r provider modelKey auths rd (ID a) true)
      | inr preserved => reselect s cx r provider model auths (highestPriorityAuths available) rd preserved
      end
  end.

Definition affinity_candidates (auths : list Auth) : list Auth := if weighted then positiveWeightAuths auths else auths.

(** [Pick] once the identifiers are known. *)
Definition Affinity_Pick s (cx : affinity_ctx) r (provider model : string) (auths : list Auth) (rd : readings)
    : outcome (option Auth) * AffinitySelector F :=
  let candidates := affinity_candidates auths in
  if String.eqb (primaryID r) "" then
    match getSelectorAvailableAuths (a_ctx cx) candidates provider model (at_now rd) with
    | inr e => (Failed_with e, s)
    | inl fallbackAuths =>
        let '(o, f) := Pick_fallback (fallback s) (a_ctx cx) provider model fallbackAuths (at_pick rd) in
        (o, s <| fallback := f |>)
    end
  else
    match getSelectorAvailableAuthsWithPriorityMode (a_ctx cx) candidates provider model (at_now rd) true with
    | inr e => (Failed_with e, s)
    | inl available =>
        let modelKey := canonicalModelKey model in
        let '(cached, c) := GetAndRefresh (cache s) (affinity_key provider (primaryID r) modelKey) (at_session rd) in
        let s := s <| cache := c |> in
        match cached with
        | Some cachedAuthID =>
            match usable available cachedAuthID model (at_now rd) with
            | Some a => (Picked (Some a), bind s r provider modelKey auths rd (ID a) true)
            | None =>
                reselect s cx r provider model auths (highestPriorityAuths available) rd
                  (if shouldPreserveBindingWhenUnavailable s cx candidates model cachedAuthID (at_now rd)
                   then Some cachedAuthID else None)
            end
        | None => pick_unbound s cx r provider model auths candidates available rd
        end
    end.
End pick.

(** ** Results *)

(** What [Pick] left in the metadata of the request: "" where it is absent. *)
Record affinityMeta := mkMeta { m_provider : string; m_model : string }.

Record affinityResult := mkAffinityResult {
  r_AuthID : string; r_Provider : string; r_Model : string; r_Success : bool; r_Error : option Error;
  r_meta : affinityMeta; r_ids : affinityRequest }.

Section results.
Context `{GoHost} {gj : Gjson} {F : Type}.
Implicit Types (s : AffinitySelector F) (res : affinityResult).

Definition result_keys res : string * option string :=
  let ns := if String.eqb (m_provider (r_meta res)) "" then r_Provider res else m_provider (r_meta res) in
  let nsModel := if String.eqb (m_model (r_meta res)) "" then canonicalModelKey (r_Model res)
                 else canonicalModelKey (m_model (r_meta res)) in
  let primary := primaryID (r_ids res) in
  let fallback := fallbackID (r_ids res) in
  (affinity_key ns primary nsModel,
   if negb (String.eqb fallback "") && negb (String.eqb fallback primary) && negb (isSubagentSession primary fallback)
   then Some (affinity_key ns fallback nsModel) else None).

Definition touch_opt (c : SessionCache) (key : option string) (authID : string) (now : time) : SessionCache :=
  match key with Some key => (Touch c key authID now).2 | None => c end.
Definition release_opt (c : SessionCache) (key : option string) (authID : string) : SessionCache :=
  match key with Some key => (CompareAndDelete c key authID).2 | None => c end.

(** [OnResult] once the identifiers are known, for a request the prefix matcher did
    not place. *)
Definition Affinity_OnResult s res (now later : time) : AffinitySelector F :=
  if String.eqb (r_AuthID res) "" then s
  else if match r_Error res with Some _ => shouldSkipCredentialCooldown (r_Error res) | None => false end then s
  else if negb (r_Success res) && rebindOnQuotaOnly s && negb (shouldRebindSessionAffinityOnError (r_Error res)) then s
  else if String.eqb (primaryID (r_ids res)) "" && String.eqb (fallbackID (r_ids res)) "" then s
  else
    let '(key, parent) := result_keys res in
    s <| cache :=
      if r_Success res
      then touch_opt (touch_opt (cache s) (Some key) (r_AuthID res) now) parent (r_AuthID res) later
      else release_opt (release_opt (cache s) (Some key) (r_AuthID res)) parent (r_AuthID res) |>.

Definition Affinity_InvalidateAuth s (authID : string) : AffinitySelector F :=
  s <| cache := InvalidateAuth (cache s) authID |>.
End results.

(** ** The other selectors implement the interface *)

Definition nilable {S} (r : outcome Auth * S) : outcome (option Auth) * S :=
  (match r.1 with Picked a => Picked (Some a) | Failed_with e => Failed_with e | Panic => Panic end, r.2).

Section instances.
Context `{GoHost}.

#[export] Instance RoundRobin_fallback : Fallback RoundRobinSelector :=
  {| Pick_fallback s ctx provider model auths now := nilable (RoundRobin_Pick s ctx provider model auths now);
     weighted := false |}.
#[export] Instance WeightedRoundRobin_fallback : Fallback WeightedRoundRobinSelector :=
  {| Pick_fallback s ctx provider model auths now := nilable (WeightedRoundRobin_Pick s ctx provider model auths now);
     weighted := true |}.
#[export] Instance FillFirst_fallback : Fallback unit :=
  {| Pick_fallback s ctx provider model auths now := (nilable (FillFirst_Pick ctx provider model auths now, s));
     weighted := false |}.
#[export] Instance QuotaDrain_fallback : Fallback QuotaDrainSelector :=
  {| Pick_fallback s ctx provider model auths now := nilable (QuotaDrain_Pick s ctx provider model auths now);
     weighted := false |}.

(** *** What is available is among the candidates *)

Lemma available_subset ctx auths provider model now all l :
  getSelectorAvailableAuthsWithPriorityMode ctx auths provider model now all = inl l → l ⊆ auths.
Proof.
  unfold getSelectorAvailableAuthsWithPriorityMode. destruct (prevalidated ctx && _).
  { destruct (negb all); intros [= <-]; [|done]. unfold highestPriorityAuths. case_match; [done|].
    destruct (fold_left _ _ _). case_match; [done|]. by intros a [_ ?]%list_elem_of_filter. }
  unfold getAvailableAuthsWithPriorityMode. destruct auths as [|a0 rest] eqn:Ea; [done|]. rewrite <-Ea. clear Ea.
  pose proof (λ p, collect_spec auths model now p) as Hc.
  destruct (collectAvailableByPriority auths model now) as [[av cc] e]. cbn in Hc.
  case_bool_decide; [by repeat case_match|]. intros [= <-].
  unfold availableAuthsFromPriorityBuckets, availableAuthsFromPriorityBuckets_in.
  set (cs := if all then _ else _). assert (cs ⊆ auths) as Hsub.
  { assert (∀ p t, av !! p = Some t → t ⊆ auths) as Ht.
    { intros p t. rewrite Hc. destruct (tier model now p auths) as [|b k] eqn:Et; [done|]. intros [= <-].
      rewrite <-Et. intros a. by intros [? _]%elem_of_tier. }
    assert (∀ p, default [] (av !! p) ⊆ auths) as Hd.
    { intros p. destruct (av !! p) as [t|] eqn:E; [by apply (Ht p)|apply list_subseteq_nil]. }
    unfold cs. destruct all; [|case_match; apply Hd]. intros a (t & Ha & Hin)%elem_of_concat.
    apply list_elem_of_fmap in Hin as ([p t'] & -> & Hp). apply elem_of_map_to_list in Hp. by apply (Ht p t'). }
  clearbody cs. case_match; [|done]. intros a. unfold sort_by_key. rewrite sort_by_perm. apply Hsub.
Qed.
End instances.
