(* ===== verification/AffinityProofs.v ===== *)
(** * What the session-affinity selector promises

    A credential it hands out is one of the candidates and free; a session stays with
    its credential as long as that one is free; a failure that is the credential's
    fault releases the session, and a late one never releases a newer binding. *)
From Stdlib Require Import ZArith Lia String Bool.
From stdpp Require Import prelude gmap strings.
From S2P Require Import Prelude GoStd AuthTypes Availability Smooth Capacity Errors Classify Rotation Selector SessionCache SessionSpec SessionProofs SessionUse Affinity.
Local Open Scope string_scope.
Local Open Scope list_scope.
Local Open Scope Z_scope.

(** ** The selectors that choose *)

Section members.
Context `{GoHost}.

Lemma prefer_subset ctx provider l : preferCodexWebsocketAuths ctx provider l ⊆ l.
Proof. intros a Ha. by eapply elem_of_sublist, prefer_spec. Qed.

Lemma positive_subset l : positiveWeightAuths l ⊆ l.
Proof. intros a [_ ?]%list_elem_of_filter. done. Qed.

#[export] Instance RoundRobin_member : FallbackMember RoundRobinSelector.
Proof.
  intros s ctx provider model auths now a. cbn. unfold RoundRobin_Pick.
  destruct (getSelectorAvailableAuths _ _ _ _ _) as [l|] eqn:E; [|done]. apply available_subset in E.
  set (i := successorIndex _ _ _). destruct (preferCodexWebsocketAuths ctx provider l !! i) as [x|] eqn:Ei; [|done].
  intros [= ->]. by eapply E, prefer_subset, list_elem_of_lookup_2.
Qed.

#[export] Instance FillFirst_member : FallbackMember unit.
Proof.
  intros s ctx provider model auths now a. cbn. unfold FillFirst_Pick, index_at.
  destruct (getSelectorAvailableAuths _ _ _ _ _) as [l|] eqn:E; [|done]. apply available_subset in E.
  destruct (preferCodexWebsocketAuths ctx provider l !! 0%nat) as [x|] eqn:Ei; [|done].
  intros [= ->]. by eapply E, prefer_subset, list_elem_of_lookup_2.
Qed.

#[export] Instance WeightedRoundRobin_member : FallbackMember WeightedRoundRobinSelector.
Proof.
  intros s ctx provider model auths now a. cbn. unfold WeightedRoundRobin_Pick, pickSmoothWeightedAuth.
  destruct (getSelectorAvailableAuths _ _ _ _ _) as [l|] eqn:E; [|done]. apply available_subset in E.
  set (l' := preferCodexWebsocketAuths ctx provider l). set (st := prepare _ _).
  pose proof (pickSmoothWeighted_member ID auth_weight (λ _, true) l' (current st)) as Hp.
  destruct (pickSmoothWeighted ID auth_weight (λ _, true) l' (current st)) as [[x|] cur]; [|done].
  intros [= ->]. cbn in Hp. apply candidates_positive in Hp as [Ha _]. by eapply positive_subset, E, prefer_subset.
Qed.

Lemma try_providers_member ctx model now groups turn : ∀ s a,
  (try_providers s ctx model now groups turn).1 = Some a → ∃ p, a ∈ groups p.
Proof.
  induction turn as [|p turn IH]; intros s a; cbn [try_providers]; [done|].
  pose proof (pickWithinProvider_spec s p model (preferCodexWebsocketAuths ctx p (groups p)) now) as Hp.
  destruct (pickWithinProvider _ _ _ _ _) as [[x|] s']; [|by apply IH]. intros [= ->].
  exists p. by eapply prefer_subset, Hp.
Qed.

Lemma drain_tiers_member ctx provider model now av ps : ∀ s a,
  (drain_tiers s ctx provider model now av ps).1 = Some a → ∃ p, a ∈ default [] (av !! p).
Proof.
  induction ps as [|p ps IH]; intros s a; cbn [drain_tiers]; [done|]. set (t := default [] (av !! p)).
  destruct (EqualFold (TrimSpace provider) "mixed").
  - assert (∀ x, (pickMixedProvider s ctx model t now).1 = Some x → x ∈ t) as Hx.
    { intros x. unfold pickMixedProvider. destruct (sort_by_key _ _); [done|].
      destruct (nextCursorIndex _ _ _) as [start s']. intros (q & Hq)%try_providers_member.
      by apply list_elem_of_filter in Hq as [_ ?]. }
    destruct (pickMixedProvider s ctx model t now) as [[x|] s']; [|by apply IH]. intros [= ->]. exists p. by apply Hx.
  - pose proof (pickWithinProvider_spec s provider model (preferCodexWebsocketAuths ctx provider t) now) as Hp.
    destruct (pickWithinProvider _ _ _ _ _) as [[x|] s']; [|by apply IH]. intros [= ->].
    exists p. by eapply prefer_subset, Hp.
Qed.

#[export] Instance QuotaDrain_member : FallbackMember QuotaDrainSelector.
Proof.
  intros s ctx provider model auths now a. cbn. unfold QuotaDrain_Pick.
  pose proof (λ p, collect_spec auths model now p) as Hc.
  destruct (collectAvailableByPriority auths model now) as [[av cc] e]. cbn in Hc.
  case_bool_decide; [by destruct ((cc =? length auths)%nat && negb (IsZero e))|].
  pose proof (drain_tiers_member ctx provider model now av (quotaDrainPriorities av) s) as Hd.
  destruct (drain_tiers _ _ _ _ _ _ _) as [[x|] s']; [|by destruct (negb (IsZero _))]. intros [= ->].
  destruct (Hd a eq_refl) as [p Hp]. rewrite Hc in Hp.
  destruct (tier model now p auths) as [|b k] eqn:Et; [by apply not_elem_of_nil in Hp|].
  cbn [default from_option] in Hp. rewrite <-Et in Hp. by apply elem_of_tier in Hp as [? _].
Qed.
End members.

(** ** The tier a cold choice is made from *)

Lemma best_priority_count (l : list Auth) :
  let '(best, count) := fold_left (best_priority_step auth_priority) l (0, 0%nat) in
  (∀ b, b ∈ l → auth_priority b ≤ best) ∧ count = length (filter (λ a, auth_priority a = best) l)
  ∧ (l ≠ [] → (0 < count)%nat).
Proof.
  induction l as [|a l IH] using rev_ind; [split_and!; [by intros b ?%not_elem_of_nil|done|done]|].
  rewrite fold_left_app. cbn [fold_left].
  destruct (fold_left (best_priority_step auth_priority) l (0, 0%nat)) as [best count]. destruct IH as (Hmax & Hc & Hpos).
  assert (∀ p, length (filter (λ b, auth_priority b = p) (l ++ [a]))
    = length (filter (λ b, auth_priority b = p) l) + (if decide (auth_priority a = p) then 1 else 0))%nat as Hlen.
  { intros p. rewrite filter_app, length_app, filter_cons, filter_nil. by case_decide. }
  assert (best < auth_priority a → length (filter (λ b, auth_priority b = auth_priority a) l) = 0%nat) as Hnew.
  { intros Hlt. set (P := λ b : Auth, auth_priority b = auth_priority a) in *. destruct (filter P l) as [|b k] eqn:Ef; [reflexivity|].
    assert (b ∈ filter P l) as [Eb Hb]%list_elem_of_filter by (rewrite Ef; left). unfold P in Eb.
    specialize (Hmax b Hb). lia. }
  cbn [best_priority_step]. destruct (Nat.eqb_spec count 0) as [E|E]; cbn [orb].
  - assert (l = []) as -> by (destruct l; [done|]; specialize (Hpos ltac:(done)); lia). split_and!.
    + intros b Hb. apply list_elem_of_singleton in Hb as ->. lia.
    + rewrite Hlen. cbn. by rewrite decide_True.
    + lia.
  - destruct (Z.ltb_spec best (auth_priority a)) as [Hlt|Hle].
    + split_and!; [|rewrite Hlen, Hnew, decide_True by done; done|lia].
      intros b [Hb|Hb%list_elem_of_singleton]%elem_of_app; [specialize (Hmax b Hb)|subst b]; lia.
    + destruct (Z.eqb_spec (auth_priority a) best) as [Ha|Ha].
      * split_and!; [|rewrite Hlen, decide_True by done; lia|lia].
        intros b [Hb|Hb%list_elem_of_singleton]%elem_of_app; [by apply Hmax|subst b; lia].
      * split_and!; [|rewrite Hlen, decide_False by done; lia|lia].
        intros b [Hb|Hb%list_elem_of_singleton]%elem_of_app; [by apply Hmax|subst b; lia].
Qed.

Lemma highestPriorityAuths_top l a : a ∈ highestPriorityAuths l → a ∈ l ∧ ∀ b, b ∈ l → auth_priority b ≤ auth_priority a.
Proof.
  unfold highestPriorityAuths. destruct (Nat.leb_spec (length l) 1) as [Hl|Hl].
  { intros Ha. split; [done|]. destruct l as [|x [|y l]]; [by apply not_elem_of_nil in Ha| |cbn in Hl; lia].
    apply list_elem_of_singleton in Ha as ->. intros b ->%list_elem_of_singleton. lia. }
  pose proof (best_priority_count l) as Hc. destruct (fold_left _ l _) as [best count]. destruct Hc as (Hmax & Hc & _).
  destruct (Nat.eqb_spec count (length l)) as [E|E].
  - assert (filter (λ a, auth_priority a = best) l ≡ₚ l) as Hall.
    { apply submseteq_length_Permutation; [apply sublist_submseteq, sublist_filter|]. by rewrite <-Hc, E. }
    intros Ha. split; [done|]. rewrite <-Hall in Ha. apply list_elem_of_filter in Ha as [-> _]. done.
  - intros [-> Ha]%list_elem_of_filter. by split.
Qed.

(** ** The available credentials *)

Definition admitted (ctx : sctx) `{GoHost} (model : string) (now : time) (auths : list Auth) (a : Auth) : Prop :=
  a ∈ auths ∧ (prevalidated ctx = true ∨ free model now a).

Lemma available_across `{GoHost} ctx auths provider model now :
  match getSelectorAvailableAuthsWithPriorityMode ctx auths provider model now true with
  | inl l => ∀ a, a ∈ l ↔ admitted ctx model now auths a
  | inr _ => ∀ a, ¬ admitted ctx model now auths a
  end.
Proof.
  unfold getSelectorAvailableAuthsWithPriorityMode, admitted. destruct auths as [|a0 rest] eqn:Ea.
  { rewrite andb_false_r. cbn. by intros a [?%not_elem_of_nil _]. }
  rewrite <-Ea. assert ((0 <? length auths)%nat = true) as -> by by rewrite Ea. rewrite andb_true_r.
  destruct (prevalidated ctx); cbn [negb]; [intros a; naive_solver|].
  unfold getAvailableAuthsWithPriorityMode. rewrite Ea, <-Ea. pose proof (collect_empty auths model now) as He.
  pose proof (λ p, collect_spec auths model now p) as Hc.
  destruct (collectAvailableByPriority auths model now) as [[av cc] e]. cbn in He, Hc. case_bool_decide as Eav.
  { destruct (_ && _); intros a [Ha [?|Hf]]; [done|by apply (proj1 He Eav a)|done|by apply (proj1 He Eav a)]. }
  unfold availableAuthsFromPriorityBuckets, availableAuthsFromPriorityBuckets_in.
  assert (∀ a, a ∈ concat ((map_to_list av).*2) ↔ a ∈ auths ∧ (false = true ∨ free model now a)) as Hin.
  { intros a. rewrite elem_of_concat. split.
    - intros (t & Ha & ([p t'] & -> & Hp)%list_elem_of_fmap). apply elem_of_map_to_list in Hp.
      rewrite Hc in Hp. destruct (tier model now p auths) as [|b k] eqn:Et; [done|]. injection Hp as <-.
      rewrite <-Et in Ha. apply elem_of_tier in Ha as (?&?&_). naive_solver.
    - intros [Ha [?|Hf]]; [done|]. exists (tier model now (auth_priority a) auths).
      assert (a ∈ tier model now (auth_priority a) auths) as Ht by by apply elem_of_tier. split; [done|].
      apply list_elem_of_fmap. exists (auth_priority a, tier model now (auth_priority a) auths). split; [done|].
      apply elem_of_map_to_list. rewrite Hc. by destruct (tier model now (auth_priority a) auths); [apply not_elem_of_nil in Ht|]. }
  intros a. rewrite <-Hin. case_match; [|done]. unfold sort_by_key. by rewrite sort_by_perm.
Qed.

(** ** The cache of a selector *)

(** A cache that represents some list of sessions, has room for one of any size and holds
    no more than its capacity. *)
Definition fits (sp : Sessions) : Prop := 65 ≤ capacity sp ∧ Z.of_nat (length (known (live sp))) ≤ capacity sp.
Definition sound_cache (c : SessionCache) : Prop := ∃ sp, Repr c sp ∧ fits sp.

Lemma spec_step_limits sp op :
  capacity (spec_step sp op).2 = capacity sp ∧ lifetime (spec_step sp op).2 = lifetime sp.
Proof.
  destruct op; cbn [spec_step];
    unfold sp_get, sp_get_and_refresh, sp_set, sp_touch, sp_compare_and_delete, sp_invalidate, sp_sweep,
      sp_refresh, sp_drop, add_session, end_session; cbv zeta;
    repeat match goal with
      | |- context [match ?x with _ => _ end] => match type of x with prod _ _ => fail 1 | _ => destruct x end
      | |- context [let '(_, _) := ?x in _] => destruct x eqn:?
      end; cbn; try done.
Qed.

Lemma fits_filter sp (P : sessionEntry → Prop) `{∀ g, Decision (P g)} : fits sp → fits (sp <| live := filter P (live sp) |>).
Proof.
  intros [H1 H2]. split; [done|]. pose proof (known_filter_length (live sp) P).
  change (Z.of_nat (length (known (filter P (live sp)))) ≤ capacity sp). lia.
Qed.
Lemma fits_add sp g : 65 ≤ capacity sp → fits (add_session sp g).
Proof. intros Hc. split; [done|]. cbn. apply fit_bound. lia. Qed.
Lemma fits_drop sp alias g : fits sp → fits (sp_drop sp alias g).
Proof. intros Hf. unfold sp_drop. cbv zeta. case_bool_decide; [by apply fits_filter|]. apply fits_add, Hf. Qed.
Lemma spec_step_fits sp op : fits sp → fits (spec_step sp op).2.
Proof.
  intros Hf. assert (∀ g, fits (end_session sp g)) as He by (intros g; by apply fits_filter).
  assert (∀ a g now, fits (sp_refresh sp a g now)) as Href by (intros; apply fits_add, Hf).
  destruct op as [a now later|a now|authID b ids now|a e now|a e|a|authID|now]; cbn [spec_step].
  - unfold sp_get. destruct (session_of _ _); [|done]. destruct (_ && _); [apply He|exact Hf].
  - unfold sp_get_and_refresh. destruct (session_of _ _); [|done]. destruct (expired _ _); [apply He|apply Href].
  - unfold sp_set. destruct (_ || _); [exact Hf|]. destruct (if _ : bool then _ else _) as [sp' b'] eqn:E. cbn. apply fits_add.
    destruct Hf as [Hf _]. by destruct (negb _ && _); injection E as <- _.
  - unfold sp_touch. destruct (session_of _ _); [|done]. destruct (_ || _); [exact Hf|apply Href].
  - unfold sp_compare_and_delete. destruct (session_of _ _); [|done]. destruct (_ || _); [exact Hf|by apply fits_drop].
  - unfold sp_invalidate. cbn. destruct (session_of _ _); [by apply fits_drop|done].
  - cbn. destruct (String.eqb _ _); [exact Hf|by apply fits_filter].
  - by apply fits_filter.
Qed.

Lemma sound_step c op : sound_cache c → sound_cache (cache_step c op).2 ∧ ttl (cache_step c op).2 = ttl c.
Proof.
  intros (sp & Hr & Hc). destruct (step_refines c sp op Hr) as [_ Hr']. destruct (spec_step_limits sp op) as [Ec El].
  split; [exists (spec_step sp op).2; split; [done|by apply spec_step_fits]|].
  by rewrite (proj1 (proj2 (rp_limits _ _ Hr'))), (proj1 (proj2 (rp_limits _ _ Hr))), El.
Qed.
Lemma sound_get_refresh c key now :
  sound_cache c → sound_cache (GetAndRefresh c key now).2 ∧ ttl (GetAndRefresh c key now).2 = ttl c.
Proof.
  intros Hc. pose proof (sound_step c (OpGetAndRefresh key now) Hc) as H1. cbn in H1. by destruct (GetAndRefresh c key now).
Qed.
Lemma sound_get c key now later : sound_cache c → sound_cache (Get c key now later).2 ∧ ttl (Get c key now later).2 = ttl c.
Proof. intros Hc. pose proof (sound_step c (OpGet key now later) Hc) as H1. cbn in H1. by destruct (Get c key now later). Qed.

Lemma affinity_key_nonempty provider id modelKey : affinity_key provider id modelKey ≠ "".
Proof. unfold affinity_key. by destruct provider. Qed.

Lemma NoDup_fmap_inj {A B} (f : A → B) (l : list A) x y :
  NoDup (f <$> l) → x ∈ l → y ∈ l → f x = f y → x = y.
Proof.
  intros Hnd (i & Hi)%list_elem_of_lookup (j & Hj)%list_elem_of_lookup E.
  assert (i = j) as ->; [|congruence]. apply (NoDup_lookup (f <$> l) i j (f x)); [done|..];
    apply list_lookup_fmap_Some; eauto.
Qed.

Section affinity.
Context `{GoHost} {gj : Gjson} {F : Type} `{FallbackMember F}.
Implicit Types (s : AffinitySelector F) (r : affinityRequest) (cx : affinity_ctx) (rd : readings).

Lemma bind_lookup s r provider modelKey auths rd authID record :
  sound_cache (cache s) → authID ≠ "" →
  ∃ g, c_entries (cache (bind s r provider modelKey auths rd authID record)) !! affinity_key provider (primaryID r) modelKey
       = Some g ∧ s_authID g = authID ∧ expiresAt g = at_bind rd + ttl (cache s).
Proof.
  intros (sp & Hr & [Hc _]) Hid. unfold bind, binding_keys. cbn [cache]. destruct record; cbn;
    unfold setSessionAliases, SetAliases; (apply (bound_first _ sp); [done..|apply affinity_key_nonempty]).
Qed.

(** What the cache answers for the session; for its parent, if the session has no answer. *)
Definition parent_bound (c : SessionCache) r (provider modelKey : string) rd : option string :=
  match parent_key r provider modelKey with Some key => (Get c key (at_parent rd) (at_parent_again rd)).1 | None => None end.
Definition bound_before s r (provider modelKey : string) rd : option string :=
  let '(cached, c) := GetAndRefresh (cache s) (affinity_key provider (primaryID r) modelKey) (at_session rd) in
  match cached with Some authID => Some authID | None => parent_bound c r provider modelKey rd end.
(** A binding that a transient failure of its credential does not move. *)
Definition preserved_binding s cx r (provider model : string) auths rd (authID : string) : Prop :=
  rebindOnQuotaOnly s = true ∧ authID ≠ "" ∧ bound_before s r provider (canonicalModelKey model) rd = Some authID
  ∧ shouldPreserveBindingWhenUnavailable s cx (affinity_candidates auths) model authID (at_now rd) = true.
(** A pick for a session ends in a binding: of the credential that is handed out, or,
    when transient failures do not move sessions, possibly of the one it replaces. *)
Definition binds s r (provider modelKey : string) auths rd (a : Auth) (P : string → Prop) (s' : AffinitySelector F) : Prop :=
  ∃ s0 authID record, s' = bind s0 r provider modelKey auths rd authID record
    ∧ sound_cache (cache s0) ∧ ttl (cache s0) = ttl (cache s) ∧ (authID = ID a ∨ P authID).

Lemma preserve_only_on_quota s cx candidates model authID now :
  shouldPreserveBindingWhenUnavailable s cx candidates model authID now = true → rebindOnQuotaOnly s = true ∧ authID ≠ "".
Proof.
  unfold shouldPreserveBindingWhenUnavailable. destruct (rebindOnQuotaOnly s); cbn; [|done].
  by destruct (String.eqb_spec authID "").
Qed.

Lemma reselect_spec s cx r provider model auths fallbackAuths rd preserved a s' :
  sound_cache (cache s) →
  reselect s cx r provider model auths fallbackAuths rd preserved = (Picked (Some a), s') →
  a ∈ fallbackAuths ∧ binds s r provider (canonicalModelKey model) auths rd a (λ authID, preserved = Some authID) s'.
Proof.
  intros Hc. unfold reselect.
  pose proof (fallback_member (fallback s) (a_ctx cx) provider model fallbackAuths (at_pick rd)) as Hm.
  destruct (Pick_fallback _ _ _ _ _ _) as [[[x|]|e|] f]; try done. intros [= -> <-]. split; [by apply Hm|].
  destruct preserved as [authID|]; eexists (s <| fallback := f |>), _, _; (split; [done|]; split; [done|]; split; [done|]);
    [by right|by left].
Qed.
Lemma binds_weaken s r provider modelKey auths rd a (P Q : string → Prop) s0 s' :
  ttl (cache s0) = ttl (cache s) → (∀ x, P x → Q x) → binds s0 r provider modelKey auths rd a P s' → binds s r provider modelKey auths rd a Q s'.
Proof. intros Ht HPQ (s1&x&b&->&?&Ht1&Hx). exists s1, x, b. rewrite Ht1, Ht. naive_solver. Qed.

Lemma find_member {A} (f : A → bool) l a : find f l = Some a → a ∈ l ∧ f a = true.
Proof. intros Hf%List.find_some. by rewrite list_elem_of_In. Qed.
Lemma usable_member available authID model now a :
  usable available authID model now = Some a → a ∈ available ∧ ID a = authID.
Proof. unfold usable. intros [Ha Hf]%find_member. by apply andb_true_iff in Hf as [->%String.eqb_eq _]. Qed.
Lemma inherited_member s r provider available rd a : inherited s r provider available rd = Some a → a ∈ available.
Proof. unfold inherited. case_match; [|done]. cbv zeta. case_match; [done|]. by intros [Ha _]%find_member. Qed.

Lemma pick_unbound_spec s cx r provider model auths candidates available rd a s' :
  sound_cache (cache s) →
  pick_unbound s cx r provider model auths candidates available rd = (Picked (Some a), s') →
  a ∈ available ∧ binds s r provider (canonicalModelKey model) auths rd a
    (λ x, parent_bound (cache s) r provider (canonicalModelKey model) rd = Some x
          ∧ shouldPreserveBindingWhenUnavailable s cx candidates model x (at_now rd) = true) s'.
Proof.
  intros Hc. unfold pick_unbound. destruct (inherited _ _ _ _ _) as [x|] eqn:Ei.
  { intros [= -> <-]. split; [by eapply inherited_member|]. exists s, (ID a), true. split_and!; [done..|by left]. }
  set (pc := match parent_key _ _ _ with Some _ => _ | None => _ end).
  assert (sound_cache pc.2 ∧ ttl pc.2 = ttl (cache s) ∧ pc.1 = parent_bound (cache s) r provider (canonicalModelKey model) rd) as (Hc' & Httl & Hpar).
  { unfold pc, parent_bound. destruct (parent_key _ _ _); [|done]. split_and!; [by apply sound_get..|done]. }
  destruct pc as [parent c]. cbn [fst snd] in Hc', Httl, Hpar. rewrite <-Hpar. clear Hpar.
  destruct (parent_choice _ _ _ _ _ _ _ _) as [x|preserved] eqn:Ep.
  - intros [= -> <-]. split.
    + unfold parent_choice in Ep. destruct parent; [|done]. destruct (if _ : bool then _ else _) as [y|] eqn:Ey; [|done].
      injection Ep as ->. destruct (negb _ || _); [|done]. by eapply usable_member.
    + exists (s <| cache := c |>), (ID a), true. split_and!; [done..|by left].
  - intros Hs. apply reselect_spec in Hs as [Ha Hb]; [|done]. split; [by apply highestPriorityAuths_top in Ha as [? _]|].
    revert Hb. apply binds_weaken; [done|]. intros authID ->. unfold parent_choice in Ep. destruct parent as [p|]; [|done].
    destruct (if _ : bool then _ else _); [done|]. destruct (negb _ && _ && _) eqn:E; [|done]. injection Ep as <-.
    apply andb_true_iff in E as [_ E]. split; [done|exact E].
Qed.

Lemma pick_spec s cx r provider model auths rd a s' :
  sound_cache (cache s) → primaryID r ≠ "" →
  Affinity_Pick s cx r provider model auths rd = (Picked (Some a), s') →
  admitted (a_ctx cx) model (at_now rd) (affinity_candidates auths) a
  ∧ binds s r provider (canonicalModelKey model) auths rd a (preserved_binding s cx r provider model auths rd) s'.
Proof.
  intros Hc Hid. unfold Affinity_Pick. cbv zeta. rewrite (proj2 (String.eqb_neq _ _) Hid).
  pose proof (available_across (a_ctx cx) (affinity_candidates auths) provider model (at_now rd)) as Hav.
  destruct (getSelectorAvailableAuthsWithPriorityMode _ _ _ _ _ _) as [available|e]; [|done].
  assert (∀ authID, shouldPreserveBindingWhenUnavailable s cx (affinity_candidates auths) model authID (at_now rd) = true →
    bound_before s r provider (canonicalModelKey model) rd = Some authID → preserved_binding s cx r provider model auths rd authID) as Hpres.
  { intros authID Hp Hbound. pose proof Hp as [Hq Hne]%preserve_only_on_quota. by split_and!. }
  unfold bound_before in Hpres. set (key := affinity_key _ _ _) in *.
  destruct (sound_get_refresh (cache s) key (at_session rd) Hc) as [Hc' Httl].
  destruct (GetAndRefresh (cache s) key (at_session rd)) as [cached c]. cbn [snd] in Hc', Httl.
  assert (∀ x y P, (∀ z, P z → preserved_binding s cx r provider model auths rd z) →
    x ∈ available ∧ binds (s <| cache := c |>) r provider (canonicalModelKey model) auths rd x P y →
    admitted (a_ctx cx) model (at_now rd) (affinity_candidates auths) x
    ∧ binds s r provider (canonicalModelKey model) auths rd x (preserved_binding s cx r provider model auths rd) y) as Hdone.
  { intros x y P HP [Hx Hb]. split; [by apply Hav|]. by revert Hb; apply binds_weaken. }
  destruct cached as [cachedAuthID|].
  - destruct (usable _ _ _ _) as [x|] eqn:Eu.
    + intros [= -> <-]. apply (Hdone _ _ (λ _, False)); [done|]. split; [by eapply usable_member|]. exists (s <| cache := c |>), (ID a), true.
      split_and!; [done..|by left].
    + intros Hs. apply reselect_spec in Hs as [Ha Hb]; [|done]. eapply Hdone; [|split; [by apply highestPriorityAuths_top in Ha as [? _]|exact Hb]].
      intros authID Hz. cbv beta in Hz. destruct (shouldPreserveBindingWhenUnavailable _ _ _ _ _ _) eqn:E; [|done]. injection Hz as <-.
      by apply Hpres.
  - intros Hs. eapply Hdone; [|by eapply pick_unbound_spec]. intros authID [Hpar Hp]. apply Hpres; [exact Hp|exact Hpar].
Qed.

(** What a request is handed is one of its candidates, free for the model unless the
    caller has vouched for the candidates, and of positive weight when the choosing
    selector is weighted - whether it comes from a binding, from the parent session or
    from the choosing selector. *)
Theorem affinity_sound s cx r provider model auths rd a :
  sound_cache (cache s) → primaryID r ≠ "" →
  (Affinity_Pick s cx r provider model auths rd).1 = Picked (Some a) →
  a ∈ auths ∧ (prevalidated (a_ctx cx) = true ∨ free model (at_now rd) a)
  ∧ (@weighted F _ = true → 0 < auth_weight a).
Proof.
  intros Hc Hid. pose proof (λ s', pick_spec s cx r provider model auths rd a s' Hc Hid) as Hp.
  destruct (Affinity_Pick _ _ _ _ _ _ _) as [o s']. cbn [fst]. intros ->. destruct (Hp s' eq_refl) as [[Ha Hf] _].
  unfold affinity_candidates in Ha. destruct weighted; [|done]. apply positiveWeight_spec in Ha as [? ?]. done.
Qed.

(** ** Stickiness *)

(** A bound credential that can be used is the one that is picked. *)
Lemma bound_credential_picked s cx r provider model auths rd g a :
  primaryID r ≠ "" → NoDup (ID <$> auths) →
  c_entries (cache s) !! affinity_key provider (primaryID r) (canonicalModelKey model) = Some g →
  at_session rd < expiresAt g →
  admitted (a_ctx cx) model (at_now rd) (affinity_candidates auths) a → ID a = s_authID g →
  quotaCapacityExhausted (Some a) model (at_now rd) = false →
  (Affinity_Pick s cx r provider model auths rd).1 = Picked (Some a).
Proof.
  intros Hid Hnd Hg Ht Ha Hida Hq. unfold Affinity_Pick. cbv zeta. rewrite (proj2 (String.eqb_neq _ _) Hid).
  pose proof (available_across (a_ctx cx) (affinity_candidates auths) provider model (at_now rd)) as Hav.
  destruct (getSelectorAvailableAuthsWithPriorityMode _ _ _ _ _ _) as [available|e]; [|by destruct (Hav a)].
  unfold GetAndRefresh. rewrite (proj2 (String.eqb_neq _ _) (affinity_key_nonempty _ _ _)), Hg.
  unfold Before. rewrite (proj2 (Z.ltb_lt _ _) Ht). cbn [negb].
  assert (usable available (s_authID g) model (at_now rd) = Some a) as ->; [|done].
  unfold usable. destruct (find _ available) as [b|] eqn:Ef.
  - apply find_member in Ef as [Hb Eb]. apply andb_true_iff in Eb as [Eb%String.eqb_eq _]. f_equal.
    apply Hav in Hb as [Hb _]. destruct Ha as [Ha _].
    assert (∀ x, x ∈ affinity_candidates auths → x ∈ auths) as Hsub.
    { intros x. unfold affinity_candidates. destruct weighted; [apply positive_subset|done]. }
    apply (NoDup_fmap_inj ID auths); [done|by apply Hsub..|congruence].
  - exfalso. apply Hav in Ha. apply List.find_none with (x := a) in Ef; [|by apply list_elem_of_In].
    by rewrite Hida, String.eqb_refl, Hq in Ef.
Qed.

(** C7: A session stays where it is: once a request of the session has been handed a
    credential, the session is bound, and its next request for the same provider and
    model is handed the credential of the binding, if it comes within the lifetime of a
    binding and that credential is offered, free and not out of quota - whatever the
    other credentials, their priorities and the choosing selector have become.  The binding
    is of the credential that was handed out; only when sessions are to move on quota
    alone may it be the one the session, or its parent, was bound to before: then that one
    was not available for a transient reason, and another stood in for it. *)
Theorem affinity_repeat s cx r provider model auths rd a s1
    (Hc : sound_cache (cache s)) (Hid : primaryID r ≠ "") (Hida : ID a ≠ "")
    (Hpick : Affinity_Pick s cx r provider model auths rd = (Picked (Some a), s1)) :
  ∃ bound, (bound = ID a ∨ preserved_binding s cx r provider model auths rd bound)
  ∧ ∀ cx' r' auths' rd' a', primaryID r' = primaryID r → at_session rd' < at_bind rd + ttl (cache s) →
      NoDup (ID <$> auths') → admitted (a_ctx cx') model (at_now rd') (affinity_candidates auths') a' →
      ID a' = bound → quotaCapacityExhausted (Some a') model (at_now rd') = false →
      (Affinity_Pick s1 cx' r' provider model auths' rd').1 = Picked (Some a').
Proof.
  apply pick_spec in Hpick as [_ (s0 & authID & record & -> & Hc0 & Httl & Hb)]; [|done|done]. exists authID. split; [done|].
  intros cx' r' auths' rd' a' Hsame Ht Hnd Hoff Hida' Hq. assert (authID ≠ "") as Hne by (destruct Hb as [->|(_ & ? & _)]; done).
  destruct (bind_lookup s0 r provider (canonicalModelKey model) auths rd authID record Hc0 Hne) as (g & Hg & Eg & Ex).
  apply (bound_credential_picked _ cx' r' provider model auths' rd' g a'); rewrite ?Hsame; [done..| |done|by rewrite Hida', Eg|done].
  by rewrite Ex, Httl.
Qed.
End affinity.

(** ** Results *)

Lemma elem_of_add sp h x : x ∈ live (add_session sp h) → x ∈ live sp ∨ x = h.
Proof.
  unfold add_session. cbn. destruct (fit_suffix (capacity sp) (live sp ++ [h])) as [l El].
  intros Hx. assert (x ∈ live sp ++ [h]) as Hin by (rewrite El; apply elem_of_app; by right).
  apply elem_of_app in Hin as [?| ->%list_elem_of_singleton]; [by left|by right].
Qed.

(** Releasing only forgets: what is still answered is answered as before. *)
Lemma release_lookup c key authID a g :
  sound_cache c → c_entries (CompareAndDelete c key authID).2 !! a = Some g →
  (∃ g0, c_entries c !! a = Some g0 ∧ s_authID g0 = s_authID g) ∧ (a = key → authID ≠ "" → s_authID g ≠ authID).
Proof.
  intros (sp & Hr & _). destruct (step_refines c sp (OpCompareAndDelete key authID) Hr) as [_ Hr'].
  cbn [cache_step spec_step] in Hr'. destruct (CompareAndDelete c key authID) as [f c']. cbn [snd] in *.
  destruct (sp_compare_and_delete sp key authID) as [f' sp'] eqn:E. cbn [snd] in Hr'.
  rewrite (rp_entries c' sp' Hr'). intros [Hg Ha]. unfold sp_compare_and_delete in E.
  destruct (session_of (live sp) key) as [k|] eqn:Ek.
  2: { injection E as <- <-. split; [exists g; by rewrite (rp_entries c sp Hr)|]. intros ->.
       rewrite (proj2 (session_of_spec (rp_disjoint c sp Hr) key g)) in Ek by done. done. }
  apply (lookup_session c sp key k Hr) in Ek as [Hk Hkey].
  destruct (String.eqb authID "" || negb (String.eqb (s_authID k) authID)) eqn:Eb; injection E as <- <-.
  - split; [exists g; by rewrite (rp_entries c sp Hr)|]. intros -> Hne.
    rewrite (alias_unique (rp_disjoint c sp Hr) g k key) by done.
    apply orb_true_iff in Eb as [Eb%String.eqb_eq|Eb%negb_true_iff%String.eqb_neq]; done.
  - unfold sp_drop in Hg. cbv zeta in Hg. set (rest := filter (λ a, a ≠ key) (aliases k)) in *.
    assert (g ∈ without k (live sp) ∨ g = k <| aliases := rest |>) as [[Hgk Hg']%list_elem_of_filter| ->].
    { case_bool_decide; [by left|]. by apply elem_of_add in Hg. }
    + split; [exists g; by rewrite (rp_entries c sp Hr)|]. intros ->. exfalso. apply Hgk.
      by apply (alias_unique (rp_disjoint c sp Hr) g k key).
    + cbn in Ha. apply list_elem_of_filter in Ha as [Hne Ha]. split; [exists k; by rewrite (rp_entries c sp Hr)|done].
Qed.

(** Names that are not released stay bound as they were. *)
Lemma release_keeps c key authID a g :
  sound_cache c → a ≠ key → c_entries c !! a = Some g →
  ∃ g', c_entries (CompareAndDelete c key authID).2 !! a = Some g' ∧ s_authID g' = s_authID g.
Proof.
  intros (sp & Hr & Hc & Hfit) Hne Hg. destruct (step_refines c sp (OpCompareAndDelete key authID) Hr) as [_ Hr'].
  cbn [cache_step spec_step] in Hr'. destruct (CompareAndDelete c key authID) as [f c']. cbn [snd] in *.
  destruct (sp_compare_and_delete sp key authID) as [f' sp'] eqn:E. cbn [snd] in Hr'.
  assert (∃ g', (g' ∈ live sp' ∧ a ∈ aliases g') ∧ s_authID g' = s_authID g) as (g' & Hg' & Ea).
  2: { exists g'. split; [by apply (rp_entries c' sp' Hr')|done]. }
  apply (rp_entries c sp Hr) in Hg as [Hl Ha]. unfold sp_compare_and_delete in E.
  destruct (session_of (live sp) key) as [k|] eqn:Ek; [|injection E as <- <-; by exists g].
  apply (lookup_session c sp key k Hr) in Ek as [Hk Hkey].
  destruct (String.eqb authID "" || negb (String.eqb (s_authID k) authID)) eqn:Eb; injection E as <- <-; [by exists g|].
  unfold sp_drop. cbv zeta. set (rest := filter (λ a, a ≠ key) (aliases k)).
  assert (g ≠ k → g ∈ without k (live sp)) as Hother by (intros Hgk; apply list_elem_of_filter; by split).
  assert (g = k → a ∈ rest) as Hsame by (intros ->; apply list_elem_of_filter; by split).
  case_bool_decide as Er; cbn.
  { exists g. split; [|done]. split; [|done]. apply Hother. intros Egk. specialize (Hsame Egk). rewrite Er in Hsame. by apply not_elem_of_nil in Hsame. }
  assert (length rest ≤ length (aliases k))%nat as Hrest by apply length_filter.
  assert (Z.of_nat (length (known (without k (live sp) ++ [k <| aliases := rest |>]))) ≤ capacity sp) as Hsmall.
  { apply list_elem_of_split in Hk as (l1 & l2 & Hlk). pose proof (known_filter_length l1 (λ h, h ≠ k)) as F1. pose proof (known_filter_length l2 (λ h, h ≠ k)) as F2.
    unfold without. rewrite Hlk in Hfit |- *. rewrite filter_app, filter_cons_False by (intros Hx; by apply Hx).
    unfold known in *. rewrite !fmap_app, !concat_app, !length_app in *. cbn in *. rewrite !length_app in *. cbn in *. lia. }
  rewrite fit_all by done. destruct (decide (g = k)) as [->|Hgk].
  - exists (k <| aliases := rest |>). split; [|done]. split; [apply elem_of_app; right; by left|by apply Hsame].
  - exists g. split; [|done]. split; [apply elem_of_app; left; by apply Hother|done].
Qed.

Section results.
Context `{GoHost} {gj : Gjson} {F : Type}.
Implicit Types (s : AffinitySelector F) (res : affinityResult).

(** A failure that tells against the credential, and not against the request or the
    connection, and that moves a session under the selector's setting. *)
Definition moving_failure s res : Prop :=
  r_AuthID res ≠ "" ∧ r_Success res = false ∧ primaryID (r_ids res) ≠ ""
  ∧ shouldSkipCredentialCooldown (r_Error res) = false
  ∧ (rebindOnQuotaOnly s = true → shouldRebindSessionAffinityOnError (r_Error res) = true).
Definition reported_key res (key : string) : Prop :=
  key = (result_keys res).1 ∨ (result_keys res).2 = Some key.

Lemma OnResult_moving s res now later :
  moving_failure s res →
  Affinity_OnResult s res now later
  = s <| cache := release_opt (release_opt (cache s) (Some (result_keys res).1) (r_AuthID res)) (result_keys res).2 (r_AuthID res) |>.
Proof.
  intros (Hid & Hs & Hp & Hskip & Hmove). unfold Affinity_OnResult. rewrite (proj2 (String.eqb_neq _ _) Hid), Hs, Hskip.
  assert ((match r_Error res with Some _ => false | None => false end) = false) as -> by by destruct (r_Error res).
  rewrite (proj2 (String.eqb_neq _ _) Hp). cbn [negb andb].
  destruct (rebindOnQuotaOnly s); cbn [andb]; [rewrite Hmove by done; cbn [negb]|];
    by destruct (result_keys res).
Qed.

Lemma sound_release c key authID : sound_cache c → sound_cache (release_opt c key authID).
Proof.
  intros Hc. destruct key as [key|]; [|done]. cbn. pose proof (sound_step c (OpCompareAndDelete key authID) Hc) as [Hs _].
  cbn in Hs. by destruct (CompareAndDelete c key authID).
Qed.

Lemma release_opt_lookup c key authID a g :
  sound_cache c → authID ≠ "" → c_entries (release_opt c key authID) !! a = Some g →
  (∃ g0, c_entries c !! a = Some g0 ∧ s_authID g0 = s_authID g) ∧ (key = Some a → s_authID g ≠ authID).
Proof.
  intros Hc Hne. destruct key as [key|]; cbn; [|intros Hg; split; [by exists g|done]].
  intros [Hg Hk]%release_lookup; [|done]. split; [done|]. intros [= ->]. by apply Hk.
Qed.

Lemma release_opt_keeps c key authID a g :
  sound_cache c → key ≠ Some a → c_entries c !! a = Some g →
  ∃ g', c_entries (release_opt c key authID) !! a = Some g' ∧ s_authID g' = s_authID g.
Proof. intros Hc Hne Hg. destruct key as [key|]; [|by exists g]. cbn. apply release_keeps; [done| |done]. by intros ->. Qed.

Lemma release_other c key authID :
  (∀ k g, key = Some k → c_entries c !! k = Some g → s_authID g ≠ authID) → release_opt c key authID = c.
Proof.
  intros Hk. destruct key as [key|]; cbn; [|done]. unfold CompareAndDelete. case_match; [done|].
  destruct (c_entries c !! key) as [g|] eqn:Eg; [|done]. by rewrite (proj2 (String.eqb_neq _ _) (Hk key g eq_refl Eg)).
Qed.

(** C8: A failure that tells against the credential releases the session, and the session
    that the request names besides it, unless that one is its parent in a hierarchy (the
    session of an agent's subagents): neither is answered with that credential any more.
    Every other name that is still answered keeps its credential - in particular the
    parent of a subagent stays bound - and when the session has been moved to another
    credential meanwhile, the late failure changes nothing. *)
Theorem failure_releases s res now later (Hc : sound_cache (cache s)) (Hf : moving_failure s res) :
  let s' := Affinity_OnResult s res now later in
  (∀ key g, reported_key res key → c_entries (cache s') !! key = Some g → s_authID g ≠ r_AuthID res)
  ∧ (∀ a g, c_entries (cache s') !! a = Some g → ∃ g0, c_entries (cache s) !! a = Some g0 ∧ s_authID g0 = s_authID g)
  ∧ (∀ a g, ¬ reported_key res a → c_entries (cache s) !! a = Some g →
       ∃ g', c_entries (cache s') !! a = Some g' ∧ s_authID g' = s_authID g)
  ∧ (isSubagentSession (primaryID (r_ids res)) (fallbackID (r_ids res)) = true → ∀ key, reported_key res key → key = (result_keys res).1)
  ∧ ((∀ key g, reported_key res key → c_entries (cache s) !! key = Some g → s_authID g ≠ r_AuthID res) → s' = s).
Proof.
  intros s'. unfold s'. rewrite OnResult_moving by done. cbn [cache]. destruct Hf as (Hid & _).
  set (c1 := release_opt (cache s) _ _). assert (sound_cache c1) as Hc1 by by apply sound_release. split_and!.
  - intros key g Hkey [(g0 & Hg0 & E) Hk]%release_opt_lookup; [|done..]. destruct Hkey as [->|Hkey]; [|by apply Hk].
    apply release_opt_lookup in Hg0 as [_ Hk0]; [|done..]. rewrite <-E. by apply Hk0.
  - intros a g [(g0 & Hg0 & E) _]%release_opt_lookup; [|done..].
    apply release_opt_lookup in Hg0 as [(g1 & Hg1 & E1) _]; [|done..]. exists g1. split; [done|congruence].
  - intros a g Hn Hg. destruct (release_opt_keeps (cache s) (Some (result_keys res).1) (r_AuthID res) a g) as (g1 & Hg1 & E1); [done| |done|].
    { intros [= E]. apply Hn. by left. }
    destruct (release_opt_keeps c1 (result_keys res).2 (r_AuthID res) a g1) as (g2 & Hg2 & E2); [done| |done|].
    { intros E. apply Hn. by right. }
    exists g2. split; [done|congruence].
  - intros Hsub key [->|Hk]; [done|]. unfold result_keys in Hk. cbv zeta in Hk. cbn [snd] in Hk. by rewrite Hsub, andb_false_r in Hk.
  - intros Hother. assert (c1 = cache s) as ->.
    { apply release_other. intros k g [= <-]. apply Hother. by left. }
    rewrite release_other; [by destruct s|]. intros k g Hk. apply Hother. by right.
Qed.
End results.

(** ** A session of two requests *)

#[local] Existing Instance no_host.
#[local] Existing Instance no_gjson.

Definition plain_actx : affinity_ctx := mkActx plain_ctx ∅.
Definition fresh_affinity : AffinitySelector RoundRobinSelector :=
  NewSessionAffinitySelectorWithConfig rr0 Hour None "any".
Definition a_session : affinityRequest := mkRequest "claude:1" "" false false.
Definition clock_at (t : time) : readings := mkReadings t t t t t t t.
Definition first_pick : outcome (option Auth) * AffinitySelector RoundRobinSelector :=
  Affinity_Pick fresh_affinity plain_actx a_session "codex" "gpt-5" trio (clock_at 100).
Definition limited : affinityResult :=
  mkAffinityResult "b" "codex" "gpt-5" false (Some rate_limit_error) (mkMeta "codex" "gpt-5") a_session.

Lemma fresh_sound : sound_cache (cache fresh_affinity).
Proof. exists (new_sessions Hour defaultMaxSessionEntries). split; [apply new_repr|split; vm_compute; discriminate]. Qed.
Lemma first_pick_b : first_pick = (Picked (Some auth_b), first_pick.2).
Proof.
  assert (first_pick.1 = Picked (Some auth_b)) as <- by (vm_compute; reflexivity). apply surjective_pairing.
Qed.
Lemma second_sound : sound_cache (cache first_pick.2).
Proof.
  destruct (pick_spec fresh_affinity plain_actx a_session "codex" "gpt-5" trio (clock_at 100)
    auth_b first_pick.2 fresh_sound ltac:(discriminate) first_pick_b) as [_ (s0 & x & b & -> & Hc & _)].
  destruct b; [exact (proj1 (sound_step _ (OpSet x (mkBinding _ _ 0) _ _) Hc))|exact (proj1 (sound_step _ (OpSet x zeroBinding _ _) Hc))].
Qed.

Lemma affinity_sound_witness :
  auth_b ∈ trio ∧ (false = true ∨ free "gpt-5" 100 auth_b) ∧ (false = true → 0 < auth_weight auth_b).
Proof.
  exact (affinity_sound fresh_affinity plain_actx a_session "codex" "gpt-5" trio (clock_at 100)
    auth_b fresh_sound ltac:(discriminate) (f_equal fst first_pick_b)).
Defined.

(** Half an hour later only the session's credential and one of higher priority are offered. *)
Lemma affinity_repeat_witness :
  (Affinity_Pick first_pick.2 plain_actx a_session "codex" "gpt-5" [with_attr "priority" "9" auth_a; auth_b]
     (clock_at (100 + 30 * Minute))).1 = Picked (Some auth_b).
Proof.
  destruct (affinity_repeat fresh_affinity plain_actx a_session "codex" "gpt-5" trio (clock_at 100) auth_b first_pick.2
    fresh_sound ltac:(discriminate) ltac:(discriminate) first_pick_b) as (bound & Hb & Hnext).
  assert (bound = "b") as ->. { destruct Hb as [Hb|[Hb _]]; [exact Hb|vm_compute in Hb; discriminate]. }
  apply Hnext; [reflexivity| | | |reflexivity|vm_compute; reflexivity].
  - vm_compute. reflexivity.
  - refine (bool_decide_unpack _ _). vm_compute. exact I.
  - split; [right; left|right; vm_compute; reflexivity].
Defined.

Lemma limited_moves : moving_failure first_pick.2 limited.
Proof. split_and!; [discriminate|reflexivity|discriminate|vm_compute; reflexivity|vm_compute; discriminate]. Qed.

Lemma failure_releases_witness :
  (s_authID <$> c_entries (cache first_pick.2) !! "codex::claude:1::gpt-5") = Some "b"
  ∧ (s_authID <$> c_entries (cache (Affinity_OnResult first_pick.2 limited 200 200)) !! "codex::claude:1::gpt-5") ≠ Some "b".
Proof.
  split; [vm_compute; reflexivity|]. intros (g & E & Hg)%fmap_Some.
  exact (proj1 (failure_releases first_pick.2 limited 200 200 second_sound limited_moves)
    "codex::claude:1::gpt-5" g (or_introl eq_refl) E (eq_sym Hg)).
Defined.
