(* ===== verification/Registry.v ===== *)
(** * The model registry

    Models [internal/registry/model_registry.go]: which client (credential) offers which
    models under which provider, how many offer each model, who is out of quota or
    suspended, the epochs that fence late registrations, and the cached listings.

    The mutex makes one call one step.  A range over a map follows a list of keys that
    is an argument where several passes must not depend on it ([orders]).  Pointers that
    the code always clones are values.  Counts are bounded by the registered models and
    do not overflow.  The hook is represented by the calls it gets. *)
From Stdlib Require Import ZArith Lia String Bool.
From stdpp Require Import prelude gmap strings.
From S2P Require Import Prelude GoStd.
From S2P Require Thinking.
Local Open Scope string_scope.
Local Open Scope list_scope.
Local Open Scope Z_scope.

Definition OpenAIImageModelType := "openai-image".
Definition DefaultClaudeMaxInputTokens : Z := 200000.
Definition DefaultClaudeMaxOutputTokens : Z := 64000.
Definition modelQuotaExceededWindow : duration := 5 * Minute.

Record NativeCapabilities := mkNative { NC_WebSearch : option bool; NC_ToolSearch : option bool }.
Record ModelInfo := mkModel {
  I_ID : string; I_MetadataModelID : string; I_ExplicitThinking : bool; I_ExplicitInputModalities : bool;
  I_Object : string; I_Created : Z; I_OwnedBy : string; I_Type : string; I_DisplayName : string; I_Name : string;
  I_Version : string; I_Description : string; I_InputTokenLimit : Z; I_OutputTokenLimit : Z;
  I_SupportedGenerationMethods : list string; I_ContextLength : Z; I_MaxContextLength : Z; I_MaxCompletionTokens : Z;
  I_SupportedParameters : list string; I_SupportedInputModalities : list string;
  I_SupportedOutputModalities : list string; I_SupportsWebSearch : bool; I_SupportConfigurationUpdate : bool;
  I_NativeCapabilities : option NativeCapabilities; I_Thinking : option Thinking.ThinkingSupport;
  I_OverrideHeader : option (gmap string string); I_UserDefined : bool; I_IsCompat : bool }.
#[export] Instance ModelInfo_eta : Eta ModelInfo := λ m, mkModel
  (I_ID m) (I_MetadataModelID m) (I_ExplicitThinking m) (I_ExplicitInputModalities m) (I_Object m) (I_Created m)
  (I_OwnedBy m) (I_Type m) (I_DisplayName m) (I_Name m) (I_Version m) (I_Description m) (I_InputTokenLimit m)
  (I_OutputTokenLimit m) (I_SupportedGenerationMethods m) (I_ContextLength m) (I_MaxContextLength m)
  (I_MaxCompletionTokens m) (I_SupportedParameters m) (I_SupportedInputModalities m) (I_SupportedOutputModalities m)
  (I_SupportsWebSearch m) (I_SupportConfigurationUpdate m) (I_NativeCapabilities m) (I_Thinking m)
  (I_OverrideHeader m) (I_UserDefined m) (I_IsCompat m).

Record ModelRegistration := mkRegistration {
  Info : ModelInfo; InfoByProvider : gmap string ModelInfo; Count : Z; LastUpdated : time;
  QuotaExceededClients : gmap string time; Providers : gmap string Z; SuspendedClients : gmap string string }.
#[export] Instance ModelRegistration_eta : Eta ModelRegistration := λ g, mkRegistration
  (Info g) (InfoByProvider g) (Count g) (LastUpdated g) (QuotaExceededClients g) (Providers g) (SuspendedClients g).

(** A listed model: the map that is rendered for a client. *)
Inductive mvalue := MStr (s : string) | MInt (z : Z) | MStrs (l : list string).
Abbreviation listing := (gmap string mvalue).

Inductive hook_call :=
| OnModelsRegistered (provider clientID : string) (models : list ModelInfo)
| OnModelsUnregistered (provider clientID : string).

Record ModelRegistry := mkRegistry {
  models : gmap string ModelRegistration; clientModels : gmap string (list string);
  clientModelInfos : gmap string (gmap string ModelInfo); clientProviders : gmap string string;
  clientEpochs : gmap string Z; clientGenerations : gmap string Z;
  availableModelsCache : gmap string (list listing * time); generation : Z; registrationEpoch : Z;
  hook_calls : list hook_call }.
#[export] Instance ModelRegistry_eta : Eta ModelRegistry := λ r, mkRegistry
  (models r) (clientModels r) (clientModelInfos r) (clientProviders r) (clientEpochs r) (clientGenerations r)
  (availableModelsCache r) (generation r) (registrationEpoch r) (hook_calls r).

Definition newRegistry : ModelRegistry := mkRegistry ∅ ∅ ∅ ∅ ∅ ∅ ∅ 0 0 [].

Definition epoch_of (m : gmap string Z) (clientID : string) : Z := default 0 (m !! clientID).

Definition invalidateAvailableModelsCacheLocked (r : ModelRegistry) : ModelRegistry :=
  r <| generation := wrapu64 (generation r + 1) |> <| availableModelsCache := ∅ |>.
Definition RegistrationEpoch (r : ModelRegistry) : Z := registrationEpoch r.
Definition ClientRegistrationEpoch (r : ModelRegistry) (clientID : string) : Z := epoch_of (clientEpochs r) clientID.

(** ** One model, one registration *)

Definition hasClientSupportingWebSearchLocked (r : ModelRegistry) (modelID provider excludeClientID : string) : bool :=
  existsb (λ '(cID, infos),
    negb (String.eqb cID excludeClientID)
    && (String.eqb provider "" || bool_decide (clientProviders r !! cID = Some provider))
    && match infos !! modelID with Some info => I_SupportsWebSearch info | None => false end)
    (map_to_list (clientModelInfos r)).

Definition set_web_search (b : bool) (info : ModelInfo) : ModelInfo := info <| I_SupportsWebSearch := b |>.

Definition addModelRegistration (r : ModelRegistry) (modelID provider : string) (model : ModelInfo) (now : time)
    (excludeClientID : string) : ModelRegistry :=
  if String.eqb modelID "" then r else
  match models r !! modelID with
  | Some existing =>
      let web p := I_SupportsWebSearch model || hasClientSupportingWebSearchLocked r modelID p excludeClientID in
      let existing := existing <| Count := Count existing + 1 |> <| LastUpdated := now |>
                               <| Info := set_web_search (web "") model |> in
      let existing :=
        if String.eqb provider "" then existing
        else existing <| Providers := <[provider := default 0 (Providers existing !! provider) + 1]> (Providers existing) |>
                      <| InfoByProvider := <[provider := set_web_search (web provider) model]> (InfoByProvider existing) |> in
      r <| models := <[modelID := existing]> (models r) |>
  | None =>
      let registration := mkRegistration model (if String.eqb provider "" then ∅ else {[provider := model]}) 1 now ∅
                            (if String.eqb provider "" then ∅ else {[provider := 1]}) ∅ in
      r <| models := <[modelID := registration]> (models r) |>
  end.

(** Takes [k] registrations of a provider away; the last one takes its metadata along. *)
Definition drop_provider (registration : ModelRegistration) (provider : string) (k : Z) : ModelRegistration :=
  match Providers registration !! provider with
  | Some count =>
      if count <=? k
      then registration <| Providers := delete provider (Providers registration) |>
                        <| InfoByProvider := delete provider (InfoByProvider registration) |>
      else registration <| Providers := <[provider := count - k]> (Providers registration) |>
  | None => registration
  end.
Definition refresh_provider_info (registration : ModelRegistration) (provider : string) (web : bool) : ModelRegistration :=
  match InfoByProvider registration !! provider with
  | Some info => registration <| InfoByProvider := <[provider := set_web_search web info]> (InfoByProvider registration) |>
  | None => registration
  end.
Definition forget_client (registration : ModelRegistration) (clientID : string) : ModelRegistration :=
  registration <| QuotaExceededClients := delete clientID (QuotaExceededClients registration) |>
               <| SuspendedClients := delete clientID (SuspendedClients registration) |>.

(** What is left of a registration that lost a client: nothing with the last one. *)
Definition keep_registration (r : ModelRegistry) (clientID modelID : string) (provider : option string)
    (registration : ModelRegistration) : ModelRegistry :=
  if Count registration <=? 0 then r <| models := delete modelID (models r) |>
  else
    let registration := registration <| Info :=
      set_web_search (hasClientSupportingWebSearchLocked r modelID "" clientID) (Info registration) |> in
    let registration := match provider with
      | Some p => refresh_provider_info registration p (hasClientSupportingWebSearchLocked r modelID p clientID)
      | None => registration
      end in
    r <| models := <[modelID := registration]> (models r) |>.

Definition removeModelRegistration (r : ModelRegistry) (clientID modelID provider : string) (now : time)
    (preserveState : bool) : ModelRegistry :=
  match models r !! modelID with
  | None => r
  | Some registration =>
      let registration := registration <| Count := Count registration - 1 |> <| LastUpdated := now |> in
      let registration := if preserveState then registration else forget_client registration clientID in
      let registration := if Count registration <? 0 then registration <| Count := 0 |> else registration in
      let registration := if String.eqb provider "" then registration else drop_provider registration provider 1 in
      keep_registration r clientID modelID (if String.eqb provider "" then None else Some provider) registration
  end.

(** ** Registering and unregistering a client *)

Definition unregister_model (clientID : string) (provider : option string) (now : time) (r : ModelRegistry)
    (modelID : string) : ModelRegistry :=
  match models r !! modelID with
  | None => r
  | Some registration =>
      let registration := forget_client (registration <| Count := Count registration - 1 |> <| LastUpdated := now |>)
                            clientID in
      let registration := match provider with Some p => drop_provider registration p 1 | None => registration end in
      keep_registration r clientID modelID provider registration
  end.

Definition unregisterClientInternal (r : ModelRegistry) (clientID : string) (now : time) : ModelRegistry :=
  let provider := clientProviders r !! clientID in
  let known := clientModels r !! clientID in
  let r := r <| clientEpochs := <[clientID := wrapu64 (epoch_of (clientEpochs r) clientID + 1)]> (clientEpochs r) |>
             <| clientGenerations := <[clientID := wrapu64 (epoch_of (clientGenerations r) clientID + 1)]> (clientGenerations r) |>
             <| registrationEpoch := wrapu64 (registrationEpoch r + 1) |> in
  match known with
  | None => r <| clientProviders := delete clientID (clientProviders r) |>
  | Some ids =>
      let r := fold_left (unregister_model clientID provider now) ids r in
      r <| clientModels := delete clientID (clientModels r) |>
        <| clientModelInfos := delete clientID (clientModelInfos r) |>
        <| clientProviders := delete clientID (clientProviders r) |>
        <| hook_calls := hook_calls r ++ [OnModelsUnregistered (default "" provider) clientID] |>
  end.
Definition UnregisterClient (r : ModelRegistry) (clientID : string) (now : time) : ModelRegistry :=
  invalidateAvailableModelsCacheLocked (unregisterClientInternal r clientID now).

(** [rawModelIDs] keeps duplicates; [newModels] keeps the first of a name. *)
Definition named_models (l : list (option ModelInfo)) : list ModelInfo := filter (λ m, I_ID m ≠ "") (omap id l).
Definition raw_ids (l : list (option ModelInfo)) : list string := I_ID <$> named_models l.
Definition first_models (l : list (option ModelInfo)) : gmap string ModelInfo :=
  fold_left (λ m model, match m !! I_ID model with Some _ => m | None => <[I_ID model := model]> m end) (named_models l) ∅.
Definition times_in (l : list string) (id : string) : nat := length (filter (λ x, x = id) l).
Fixpoint unique_loop (seen : gset string) (l : list string) : list string :=
  match l with
  | [] => []
  | id :: l => if bool_decide (id ∈ seen) then unique_loop seen l else id :: unique_loop ({[id]} ∪ seen) l
  end.
Definition unique_ids (l : list string) : list string := unique_loop ∅ l.

(** The order in which the passes over [oldCounts] and [newCounts] visit their keys. *)
Record orders := mkOrders { o_swap : list string; o_removed : list string; o_over : list string; o_added : list string }.

(** What the reconciliation knows: the client, both providers, both lists of models. *)
Record reconciliation := mkRecon {
  rc_client : string; rc_provider : string; rc_oldProvider : string; rc_old : list string; rc_new : list string;
  rc_models : gmap string ModelInfo; rc_now : time; rc_preserve : bool }.
Definition provider_changed (x : reconciliation) : bool := negb (String.eqb (rc_oldProvider x) (rc_provider x)).
Definition old_count (x : reconciliation) (id : string) : nat := times_in (rc_old x) id.
Definition new_count (x : reconciliation) (id : string) : nat := times_in (rc_new x) id.

(** A provider change takes the overlap away from the old provider first. *)
Definition swap_step (x : reconciliation) (r : ModelRegistry) (id : string) : ModelRegistry :=
  if (new_count x id =? 0)%nat || (old_count x id =? 0)%nat then r else
  match models r !! id with
  | None => r
  | Some reg =>
      let toRemove := Z.of_nat (Nat.min (new_count x id) (old_count x id)) in
      let reg' := drop_provider reg (rc_oldProvider x) toRemove in
      let reg' := match Providers reg' !! rc_oldProvider x with
                  | Some _ => refresh_provider_info reg' (rc_oldProvider x)
                                (hasClientSupportingWebSearchLocked r id (rc_oldProvider x) (rc_client x))
                  | None => reg'
                  end in
      r <| models := <[id := reg']> (models r) |>
  end.
Definition removed_step (x : reconciliation) (r : ModelRegistry) (id : string) : ModelRegistry :=
  if negb (new_count x id =? 0)%nat then r
  else Nat.iter (old_count x id)
         (λ r, removeModelRegistration r (rc_client x) id (rc_oldProvider x) (rc_now x) false) r.
Definition over_step (x : reconciliation) (r : ModelRegistry) (id : string) : ModelRegistry :=
  if (new_count x id =? 0)%nat || (old_count x id <=? new_count x id)%nat then r
  else Nat.iter (old_count x id - new_count x id)
         (λ r, removeModelRegistration r (rc_client x) id (rc_oldProvider x) (rc_now x)
                 (rc_preserve x && negb (provider_changed x))) r.
Definition added_step (x : reconciliation) (r : ModelRegistry) (id : string) : ModelRegistry :=
  match rc_models x !! id with
  | Some model => Nat.iter (new_count x id - old_count x id)
                    (λ r, addModelRegistration r id (rc_provider x) model (rc_now x) (rc_client x)) r
  | None => r
  end.
(** The metadata of the models the client keeps or gains. *)
Definition metadata_step (x : reconciliation) (r : ModelRegistry) (id : string) : ModelRegistry :=
  match rc_models x !! id, models r !! id with
  | Some model, Some reg =>
      let web p := I_SupportsWebSearch model || hasClientSupportingWebSearchLocked r id p (rc_client x) in
      let provider := rc_provider x in
      let reg := reg <| Info := set_web_search (web "") model |> in
      let reg := if String.eqb provider "" then reg
                 else reg <| InfoByProvider := <[provider := set_web_search (web provider) model]> (InfoByProvider reg) |> in
      let reg := if provider_changed x && negb (String.eqb (rc_oldProvider x) "")
                 then refresh_provider_info reg (rc_oldProvider x)
                        (hasClientSupportingWebSearchLocked r id (rc_oldProvider x) (rc_client x))
                 else reg in
      let reg := reg <| LastUpdated := rc_now x |> in
      let reg := if negb (rc_preserve x) || provider_changed x || (old_count x id =? 0)%nat
                 then forget_client reg (rc_client x) else reg in
      let overlap := Nat.min (new_count x id) (old_count x id) in
      let reg := if provider_changed x && negb (String.eqb provider "") && (0 <? overlap)%nat
                 then reg <| Providers := <[provider := default 0 (Providers reg !! provider) + Z.of_nat overlap]> (Providers reg) |>
                 else reg in
      r <| models := <[id := reg]> (models r) |>
  | _, _ => r
  end.

Definition reconcile (o : orders) (x : reconciliation) (r : ModelRegistry) : ModelRegistry :=
  let r := if provider_changed x && negb (String.eqb (rc_oldProvider x) "") then fold_left (swap_step x) (o_swap o) r else r in
  let r := fold_left (removed_step x) (o_removed o) r in
  let r := fold_left (over_step x) (o_over o) r in
  let r := fold_left (added_step x) (o_added o) r in
  fold_left (metadata_step x) (unique_ids (rc_new x)) r.

Definition set_provider (clientID provider : string) (m : gmap string string) : gmap string string :=
  if String.eqb provider "" then delete clientID m else <[clientID := provider]> m.
(** [cloneModelInfosUnique]: what the hook is given. *)
Definition cloneModelInfosUnique (l : list (option ModelInfo)) : list ModelInfo :=
  omap (λ id, first_models l !! id) (unique_ids (raw_ids l)).

Definition registerClientLocked (o : orders) (r : ModelRegistry) (clientID clientProvider : string)
    (l : list (option ModelInfo)) (preserveState : bool) (now : time) : ModelRegistry :=
  let provider := ToLower clientProvider in
  let raw := raw_ids l in
  match raw with
  | [] =>
      let r := unregisterClientInternal r clientID now in
      invalidateAvailableModelsCacheLocked
        (r <| clientModels := delete clientID (clientModels r) |>
           <| clientModelInfos := delete clientID (clientModelInfos r) |>
           <| clientProviders := delete clientID (clientProviders r) |>)
  | _ =>
      let oldProvider := default "" (clientProviders r !! clientID) in
      let old := clientModels r !! clientID in
      let x := mkRecon clientID provider oldProvider (default [] old) raw (first_models l) now preserveState in
      let r := r <| clientEpochs := <[clientID := wrapu64 (epoch_of (clientEpochs r) clientID + 1)]> (clientEpochs r) |>
                 <| registrationEpoch := wrapu64 (registrationEpoch r + 1) |> in
      let r := if negb preserveState || negb (bool_decide (is_Some old)) || provider_changed x
               then r <| clientGenerations := <[clientID := 0]> (clientGenerations r) |> else r in
      let r := match old with
               | None => fold_left (λ r id, match first_models l !! id with
                                            | Some model => addModelRegistration r id provider model now clientID
                                            | None => r
                                            end) raw r
               | Some _ => reconcile o x r
               end in
      invalidateAvailableModelsCacheLocked
        (r <| clientModels := <[clientID := raw]> (clientModels r) |>
           <| clientModelInfos := <[clientID := first_models l]> (clientModelInfos r) |>
           <| clientProviders := set_provider clientID provider (clientProviders r) |>
           <| hook_calls := hook_calls r ++ [OnModelsRegistered provider clientID (cloneModelInfosUnique l)] |>)
  end.

Definition RegisterClient (o : orders) r clientID clientProvider l now : ModelRegistry :=
  registerClientLocked o r clientID clientProvider l false now.
(** [publish] is the answer of the callback; [None] when there is none. *)
Definition RegisterClientIfEpochCurrent (o : orders) r clientID clientProvider (expectedEpoch : Z) l (publish : option bool)
    (now : time) : bool * ModelRegistry :=
  if negb (epoch_of (clientEpochs r) clientID =? expectedEpoch) || negb (default false publish) then (false, r)
  else (true, registerClientLocked o r clientID clientProvider l false now).
Definition UnregisterClientIfEpochCurrent r clientID (expectedEpoch : Z) (publish : option bool) (now : time)
    : bool * ModelRegistry :=
  if negb (epoch_of (clientEpochs r) clientID =? expectedEpoch) || negb (default false publish) then (false, r)
  else (true, invalidateAvailableModelsCacheLocked (unregisterClientInternal r clientID now)).
Definition ReplaceClientModels (o : orders) r clientID clientProvider (expectedEpoch : Z) l (now : time)
    : option Z * ModelRegistry :=
  if negb (epoch_of (clientEpochs r) clientID =? expectedEpoch) then (None, r)
  else let r := registerClientLocked o r clientID clientProvider l true now in
       (Some (epoch_of (clientEpochs r) clientID), r).

(** ** Quota and suspension *)

Definition update_registration (r : ModelRegistry) (modelID : string) (f : ModelRegistration → ModelRegistration) : ModelRegistry :=
  match models r !! modelID with
  | Some registration => r <| models := <[modelID := f registration]> (models r) |>
  | None => r
  end.

Definition SetModelQuotaExceeded (r : ModelRegistry) (clientID modelID : string) (now : time) : ModelRegistry :=
  match models r !! modelID with
  | None => r
  | Some _ => invalidateAvailableModelsCacheLocked (update_registration r modelID (λ g,
      g <| QuotaExceededClients := <[clientID := now]> (QuotaExceededClients g) |>))
  end.
Definition ClearModelQuotaExceeded (r : ModelRegistry) (clientID modelID : string) : ModelRegistry :=
  match models r !! modelID with
  | None => r
  | Some _ => invalidateAvailableModelsCacheLocked (update_registration r modelID (λ g,
      g <| QuotaExceededClients := delete clientID (QuotaExceededClients g) |>))
  end.
Definition SuspendClientModel (r : ModelRegistry) (clientID modelID reason : string) (now : time) : ModelRegistry :=
  if String.eqb clientID "" || String.eqb modelID "" then r else
  match models r !! modelID with
  | None => r
  | Some g =>
      match SuspendedClients g !! clientID with
      | Some _ => r
      | None => invalidateAvailableModelsCacheLocked (update_registration r modelID (λ g,
          g <| SuspendedClients := <[clientID := reason]> (SuspendedClients g) |> <| LastUpdated := now |>))
      end
  end.
Definition ResumeClientModel (r : ModelRegistry) (clientID modelID : string) (now : time) : ModelRegistry :=
  if String.eqb clientID "" || String.eqb modelID "" then r else
  match models r !! modelID with
  | None => r
  | Some g =>
      match SuspendedClients g !! clientID with
      | None => r
      | Some _ => invalidateAvailableModelsCacheLocked (update_registration r modelID (λ g,
          g <| SuspendedClients := delete clientID (SuspendedClients g) |> <| LastUpdated := now |>))
      end
  end.

Record ClientModelProjection := mkProjection {
  PR_ModelID : string; PR_Suspended : bool; PR_SuspendReason : string; PR_QuotaExceeded : bool }.

(** One projection on one registration, with whether it changed anything. *)
Definition project_suspension (clientID : string) (proj : ClientModelProjection) (now : time) (g : ModelRegistration)
    : ModelRegistration * bool :=
  if PR_Suspended proj then
    if bool_decide (SuspendedClients g !! clientID = Some (PR_SuspendReason proj)) then (g, false)
    else (g <| SuspendedClients := <[clientID := PR_SuspendReason proj]> (SuspendedClients g) |> <| LastUpdated := now |>, true)
  else match SuspendedClients g !! clientID with
       | Some _ => (g <| SuspendedClients := delete clientID (SuspendedClients g) |> <| LastUpdated := now |>, true)
       | None => (g, false)
       end.
Definition project_quota (clientID : string) (proj : ClientModelProjection) (now : time) (g : ModelRegistration)
    : ModelRegistration * bool :=
  match PR_QuotaExceeded proj, QuotaExceededClients g !! clientID with
  | true, None => (g <| QuotaExceededClients := <[clientID := now]> (QuotaExceededClients g) |> <| LastUpdated := now |>, true)
  | false, Some _ => (g <| QuotaExceededClients := delete clientID (QuotaExceededClients g) |> <| LastUpdated := now |>, true)
  | _, _ => (g, false)
  end.
Definition project_step (clientID : string) (registeredSet : gset string) (now : time) (acc : ModelRegistry * bool)
    (proj : ClientModelProjection) : ModelRegistry * bool :=
  let '(r, changed) := acc in
  let modelID := TrimSpace (PR_ModelID proj) in
  if String.eqb modelID "" || negb (bool_decide (modelID ∈ registeredSet)) then acc else
  match models r !! modelID with
  | None => acc
  | Some g =>
      let '(g, c1) := project_suspension clientID proj now g in
      let '(g, c2) := project_quota clientID proj now g in
      (r <| models := <[modelID := g]> (models r) |>, changed || c1 || c2)
  end.

Definition registered_set (ids : list string) : gset string :=
  list_to_set (filter (λ m, m ≠ "") (TrimSpace <$> ids)).
Definition valid_projection (r : ModelRegistry) (registeredSet : gset string) (proj : ClientModelProjection) : bool :=
  let modelID := TrimSpace (PR_ModelID proj) in
  negb (String.eqb modelID "") && bool_decide (modelID ∈ registeredSet) && bool_decide (is_Some (models r !! modelID)).

Definition ApplyClientModelProjections (r : ModelRegistry) (clientID : string) (epoch gen : Z)
    (projections : list ClientModelProjection) (now : time) : bool * ModelRegistry :=
  let clientID := TrimSpace clientID in
  if String.eqb clientID "" then (false, r) else
  match clientModels r !! clientID with
  | None | Some [] => (false, r)
  | Some ids =>
      if negb (epoch =? epoch_of (clientEpochs r) clientID) then (false, r)
      else if gen <? epoch_of (clientGenerations r) clientID then (false, r)
      else
        let registeredSet := registered_set ids in
        if negb (existsb (valid_projection r registeredSet) projections) then (false, r)
        else
          let r := r <| clientGenerations := <[clientID := gen]> (clientGenerations r) |> in
          let '(r, changed) := fold_left (project_step clientID registeredSet now) projections (r, false) in
          (true, if changed then invalidateAvailableModelsCacheLocked r else r)
  end.

(** [mutate] is given a model of the client and returns what it makes of it. *)
Definition capability_step (clientID : string) (mutate : string → ModelInfo → ModelInfo) (r : ModelRegistry) (id : string)
    : ModelRegistry :=
  match clientModelInfos r !! clientID ≫= lookup id with
  | None => r
  | Some info =>
      let infos := default ∅ (clientModelInfos r !! clientID) in
      let r := r <| clientModelInfos := <[clientID := <[id := mutate id info]> infos]> (clientModelInfos r) |> in
      let provider := default "" (clientProviders r !! clientID) in
      update_registration r id (λ g,
        let g := g <| Info := set_web_search (hasClientSupportingWebSearchLocked r id "" "") (Info g) |> in
        if String.eqb provider "" then g
        else refresh_provider_info g provider (hasClientSupportingWebSearchLocked r id provider ""))
  end.
Definition ApplyClientModelCapabilities_in (visit : list string) (r : ModelRegistry) (clientID : string) (expectedEpoch : Z)
    (mutate : option (string → ModelInfo → ModelInfo)) : bool * ModelRegistry :=
  match mutate with
  | None => (false, r)
  | Some mutate =>
      let clientID := TrimSpace clientID in
      if String.eqb clientID "" then (false, r)
      else if negb (epoch_of (clientEpochs r) clientID =? expectedEpoch) then (false, r)
      else match clientModelInfos r !! clientID with
           | None => (false, r)
           | Some infos =>
               if bool_decide (infos = ∅) then (false, r)
               else (true, invalidateAvailableModelsCacheLocked (fold_left (capability_step clientID mutate) visit r))
           end
  end.
Definition ApplyClientModelCapabilities (r : ModelRegistry) (clientID : string) (expectedEpoch : Z)
    (mutate : option (string → ModelInfo → ModelInfo)) : bool * ModelRegistry :=
  ApplyClientModelCapabilities_in (map_to_list (default ∅ (clientModelInfos r !! TrimSpace clientID))).*1
    r clientID expectedEpoch mutate.

Definition quota_over (now : time) (quotaTime : time) : bool := modelQuotaExceededWindow <=? Sub now quotaTime.
Definition CleanupExpiredQuotas (r : ModelRegistry) (now : time) : ModelRegistry :=
  let cleaned := (λ g : ModelRegistration,
    g <| QuotaExceededClients := filter (λ '(_, t), quota_over now t = false) (QuotaExceededClients g) |>) <$> models r in
  if bool_decide (map_Exists (λ _ g, map_Exists (λ _ t, quota_over now t = true) (QuotaExceededClients g)) (models r))
  then invalidateAvailableModelsCacheLocked (r <| models := cleaned |>)
  else r <| models := cleaned |>.

(** ** Questions *)

Definition ClientSupportsModel (r : ModelRegistry) (clientID modelID : string) : bool :=
  let clientID := TrimSpace clientID in
  let modelID := TrimSpace modelID in
  if String.eqb clientID "" || String.eqb modelID "" then false
  else existsb (λ id, EqualFold (TrimSpace id) modelID) (default [] (clientModels r !! clientID)).
Definition marked_for (r : ModelRegistry) (clientID modelID : string) (marked : ModelRegistration → string → bool) : bool :=
  let clientID := TrimSpace clientID in
  let modelID := TrimSpace modelID in
  if String.eqb clientID "" || String.eqb modelID "" then false
  else match models r !! modelID with Some g => marked g clientID | None => false end.
Definition IsModelSuspendedForClient (r : ModelRegistry) (clientID modelID : string) : bool :=
  marked_for r clientID modelID (λ g c, bool_decide (is_Some (SuspendedClients g !! c))).
Definition IsModelQuotaExceededForClient (r : ModelRegistry) (clientID modelID : string) : bool :=
  marked_for r clientID modelID (λ g c, bool_decide (is_Some (QuotaExceededClients g !! c))).

(** [now.Before(quotaTime.Add(window))] for the time a client ran out of quota, if it did. *)
Definition in_quota_window (g : ModelRegistration) (now : time) (clientID : string) : bool :=
  match QuotaExceededClients g !! clientID with
  | Some t => Before now (Add t modelQuotaExceededWindow)
  | None => false
  end.
Definition isQuotaSuspension (reason : string) : bool := EqualFold reason "quota" || EqualFold reason "credential_quota".

Definition count_if {A} (f : A → bool) (l : list A) : Z := Z.of_nat (length (filter (λ x, f x = true) l)).
Definition expiry_step (now : time) (expiresAt : time) (entry : string * time) : time :=
  let recoveryAt := Add entry.2 modelQuotaExceededWindow in
  if Before now recoveryAt && (IsZero expiresAt || Before recoveryAt expiresAt) then recoveryAt else expiresAt.
Definition modelRegistrationAvailability (g : ModelRegistration) (now : time) : bool * time :=
  let quota := map_to_list (QuotaExceededClients g) in
  let suspended := map_to_list (SuspendedClients g) in
  let availableClients := Count g in
  let expiredClients := count_if (λ e : string * time, Before now (Add e.2 modelQuotaExceededWindow)) quota in
  let expiresAt := fold_left (expiry_step now) quota zero_time in
  let cooldownSuspended := count_if (λ e : string * string, isQuotaSuspension e.2) suspended in
  let otherSuspended := count_if (λ e : string * string, negb (isQuotaSuspension e.2)) suspended in
  let quotaAndSuspended := count_if (λ e : string * string, in_quota_window g now e.1) suspended in
  let effectiveClients := availableClients - expiredClients - cooldownSuspended - otherSuspended + quotaAndSuspended in
  let effectiveClients := if effectiveClients <? 0 then 0 else effectiveClients in
  ((0 <? effectiveClients)
   || ((0 <? availableClients) && ((0 <? expiredClients) || (0 <? cooldownSuspended)) && (otherSuspended =? 0)), expiresAt).

Definition GetModelCount (r : ModelRegistry) (modelID : string) (now : time) : Z :=
  match models r !! modelID with
  | None => 0
  | Some g =>
      let expiredClients := count_if (λ e : string * time, Sub now e.2 <? modelQuotaExceededWindow)
                              (map_to_list (QuotaExceededClients g)) in
      let suspendedClients := count_if (λ e : string * string, negb (in_quota_window g now e.1))
                                (map_to_list (SuspendedClients g)) in
      let result := Count g - expiredClients - suspendedClients in
      if result <? 0 then 0 else result
  end.

Definition provider_less (x y : string * Z) : bool :=
  if x.2 =? y.2 then String.ltb x.1 y.1 else y.2 <? x.2.
Definition GetModelProviders (r : ModelRegistry) (modelID : string) : list string :=
  match models r !! modelID with
  | None => []
  | Some g => (sort_by provider_less (filter (λ e, 0 < e.2) (map_to_list (Providers g)))).*1
  end.
Definition GetModelInfo (r : ModelRegistry) (modelID provider : string) : option ModelInfo :=
  match models r !! modelID with
  | None => None
  | Some g =>
      let own := if String.eqb provider "" then None
                 else if 0 <? default 0 (Providers g !! provider) then InfoByProvider g !! provider else None in
      Some (default (Info g) own)
  end.
Definition GetModelsAndEpochForClient (r : ModelRegistry) (clientID : string) : list ModelInfo * Z :=
  let infos := default ∅ (clientModelInfos r !! clientID) in
  (omap (λ id, match infos !! id with
               | Some info => Some info
               | None => Info <$> models r !! id
               end) (unique_ids (default [] (clientModels r !! clientID))), epoch_of (clientEpochs r) clientID).
Definition GetModelsForClient (r : ModelRegistry) (clientID : string) : list ModelInfo :=
  (GetModelsAndEpochForClient r clientID).1.

(** ** Listings *)

(** [Format(time.RFC3339)] of a whole second in UTC. *)
Class TimeFormat := { FormatRFC3339 : Z → string }.

Section listings.
Context {tf : TimeFormat}.

Definition put_str (key value : string) (m : listing) : listing := if String.eqb value "" then m else <[key := MStr value]> m.
Definition put_pos (key : string) (value : Z) (m : listing) : listing := if 0 <? value then <[key := MInt value]> m else m.
Definition put_strs (key : string) (value : list string) (m : listing) : listing :=
  match value with [] => m | _ => <[key := MStrs value]> m end.

Definition convertModelToMap (model : ModelInfo) (handlerType : string) : listing :=
  let named : listing := {["id" := MStr (I_ID model); "object" := MStr "model"]} in
  if String.eqb handlerType "openai" then
    put_strs "supported_parameters" (I_SupportedParameters model)
      (put_pos "max_completion_tokens" (I_MaxCompletionTokens model)
      (put_pos "max_context_length" (I_MaxContextLength model)
      (put_pos "context_length" (I_ContextLength model)
      (put_str "description" (I_Description model)
      (put_str "version" (I_Version model)
      (put_str "display_name" (I_DisplayName model)
      (put_str "type" (I_Type model)
      (put_pos "created" (I_Created model) (<["owned_by" := MStr (I_OwnedBy model)]> named)))))))))
  else if String.eqb handlerType "claude" then
    let maxInput := if I_ContextLength model <=? 0 then DefaultClaudeMaxInputTokens else I_ContextLength model in
    let maxOutput := if I_MaxCompletionTokens model <=? 0 then DefaultClaudeMaxOutputTokens else I_MaxCompletionTokens model in
    let result := <["owned_by" := MStr (I_OwnedBy model)]> named in
    let result := if 0 <? I_Created model then <["created_at" := MStr (FormatRFC3339 (I_Created model))]> result else result in
    let display := if String.eqb (I_DisplayName model) "" then I_ID model else I_DisplayName model in
    <["max_tokens" := MInt maxOutput]> (<["max_input_tokens" := MInt maxInput]>
      (<["display_name" := MStr display]> (<["type" := MStr "model"]> result)))
  else if String.eqb handlerType "gemini" then
    let name := if String.eqb (I_Name model) "" then I_ID model else I_Name model in
    put_strs "supportedOutputModalities" (I_SupportedOutputModalities model)
      (put_strs "supportedInputModalities" (I_SupportedInputModalities model)
      (put_strs "supportedGenerationMethods" (I_SupportedGenerationMethods model)
      (put_pos "outputTokenLimit" (I_OutputTokenLimit model)
      (put_pos "inputTokenLimit" (I_InputTokenLimit model)
      (put_str "description" (I_Description model)
      (put_str "displayName" (I_DisplayName model)
      (put_str "version" (I_Version model) {["name" := MStr name]})))))))
  else
    let result := put_str "type" (I_Type model) (put_str "owned_by" (I_OwnedBy model) named) in
    if I_Created model =? 0 then result else <["created" := MInt (I_Created model)]> result.

(** One registration of the pass that builds a listing. *)
Definition build_step (handlerType : string) (now : time) (acc : list listing * time) (g : ModelRegistration)
    : list listing * time :=
  let '(l, expiresAt) := acc in
  let '(available, registrationExpiresAt) := modelRegistrationAvailability g now in
  let expiresAt := if negb (IsZero registrationExpiresAt) && (IsZero expiresAt || Before registrationExpiresAt expiresAt)
                   then registrationExpiresAt else expiresAt in
  (if available then l ++ [convertModelToMap (Info g) handlerType] else l, expiresAt).
Definition buildAvailableModelsLocked (visit : list string) (r : ModelRegistry) (handlerType : string) (now : time)
    : list listing * time :=
  fold_left (build_step handlerType now) (omap (λ id, models r !! id) visit) ([], zero_time).

(** The fast path under the read lock and the second look under the write lock see the
    same entry when nobody runs in between. *)
Definition GetAvailableModels (visit : list string) (r : ModelRegistry) (handlerType : string) (now : time)
    : list listing * ModelRegistry :=
  let build :=
    let '(l, expiresAt) := buildAvailableModelsLocked visit r handlerType now in
    (l, r <| availableModelsCache := <[handlerType := (l, expiresAt)]> (availableModelsCache r) |>) in
  match availableModelsCache r !! handlerType with
  | Some (l, expiresAt) => if IsZero expiresAt || Before now expiresAt then (l, r) else build
  | None => build
  end.

End listings.

Definition GetAvailableModelInfos (visit : list string) (r : ModelRegistry) (now : time) : list ModelInfo :=
  sort_by (λ x y, String.ltb (TrimSpace (I_ID x)) (TrimSpace (I_ID y)))
    (Info <$> filter (λ g, (modelRegistrationAvailability g now).1 = true) (omap (λ id, models r !! id) visit)).
