(* ===== verification/RegistryCounts.v ===== *)
(** * The counts of the model registry

    A registration counts the clients that offer a model, in total and per provider.
    [reg_view] says what a registration shows of two such counts; every step of the
    registry moves them by one client's share, and the whole registry shows what its
    clients registered ([registry_ok]). *)
From Stdlib Require Import ZArith Lia String Bool.
From stdpp Require Import prelude gmap strings.
From S2P Require Import Prelude GoStd Registry.
Local Open Scope string_scope.
Local Open Scope list_scope.
Local Open Scope Z_scope.

(** ** What a registration shows *)

Definition reg_view (o : option ModelRegistration) (c : Z) (ps : string → Z) : Prop :=
  match o with
  | Some g => Count g = c ∧ 0 < c ∧ (∀ p, default 0 (Providers g !! p) = ps p) ∧ (∀ p n, Providers g !! p = Some n → 0 < n)
  | None => c = 0 ∧ ∀ p, ps p = 0
  end.
(** A provider's gain; the empty provider is nobody. *)
Definition gain (p : string) (k : Z) (q : string) : Z := if bool_decide (q = p ∧ p ≠ "") then k else 0.

Lemma reg_view_ext o c c' ps ps' : c = c' → (∀ p, ps p = ps' p) → reg_view o c ps → reg_view o c' ps'.
Proof.
  intros <- Hp. destruct o as [g|]; cbn.
  - intros (?&?&H1&?). split_and!; [done..| |done]. intros p. by rewrite H1.
  - intros [? H1]. split; [done|]. intros p. by rewrite <-Hp.
Qed.

Lemma gain_self p k : p ≠ "" → gain p k p = k.
Proof. intros Hp. unfold gain. by rewrite bool_decide_eq_true_2. Qed.
Lemma gain_other p k q : q ≠ p → gain p k q = 0.
Proof. intros Hp. unfold gain. rewrite bool_decide_eq_false_2; [done|naive_solver]. Qed.
Lemma gain_empty k q : gain "" k q = 0.
Proof. unfold gain. rewrite bool_decide_eq_false_2; [done|naive_solver]. Qed.
Lemma gain_add p k k' q : gain p k q + gain p k' q = gain p (k + k') q.
Proof. unfold gain. case_bool_decide; lia. Qed.
Lemma gain_0 p q : gain p 0 q = 0.
Proof. unfold gain. by case_bool_decide. Qed.
Lemma gain_nonneg p k q : 0 ≤ k → 0 ≤ gain p k q.
Proof. unfold gain. case_bool_decide; lia. Qed.

Lemma models_set r ms : models (r <| models := ms |>) = ms.
Proof. done. Qed.

(** Steps that touch one model and nothing else. *)
Definition touches (id : string) (r r' : ModelRegistry) : Prop :=
  ∃ ms, r' = r <| models := ms |> ∧ ∀ x, x ≠ id → ms !! x = models r !! x.

Lemma touches_refl id r : touches id r r.
Proof. exists (models r). by destruct r. Qed.
Lemma touches_trans id r r' r'' : touches id r r' → touches id r' r'' → touches id r r''.
Proof.
  intros (ms & -> & H1) (ms' & -> & H2). exists ms'. split; [done|]. intros x Hx. rewrite H2 by done. by apply H1.
Qed.
Lemma touches_iter id n (f : ModelRegistry → ModelRegistry) r : (∀ r, touches id r (f r)) → touches id r (Nat.iter n f r).
Proof. intros Hf. induction n as [|n IH]; [apply touches_refl|]. cbn. by eapply touches_trans. Qed.
Lemma touches_models id r ms : (∀ x, x ≠ id → ms !! x = models r !! x) → touches id r (r <| models := ms |>).
Proof. intros Hx. by exists ms. Qed.

Ltac touch :=
  first [apply touches_refl | apply touches_models; intros ? ?; by rewrite ?lookup_insert_ne, ?lookup_delete_ne by done].

Lemma add_touches r id p model now ex : touches id r (addModelRegistration r id p model now ex).
Proof. unfold addModelRegistration. cbv zeta. repeat case_match; touch. Qed.
Lemma keep_touches r c id p g : touches id r (keep_registration r c id p g).
Proof. unfold keep_registration. cbv zeta. case_match; touch. Qed.
Lemma remove_touches r c id p now b : touches id r (removeModelRegistration r c id p now b).
Proof. unfold removeModelRegistration. destruct (models r !! id); [apply keep_touches|touch]. Qed.
Lemma unregister_touches c p now r id : touches id r (unregister_model c p now r id).
Proof. unfold unregister_model. destruct (models r !! id); [apply keep_touches|touch]. Qed.
Lemma swap_touches x r id : touches id r (swap_step x r id).
Proof. unfold swap_step. case_match; [touch|]. case_match; touch. Qed.
Lemma removed_touches x r id : touches id r (removed_step x r id).
Proof. unfold removed_step. case_match; [touch|]. apply touches_iter. intros. apply remove_touches. Qed.
Lemma over_touches x r id : touches id r (over_step x r id).
Proof. unfold over_step. case_match; [touch|]. apply touches_iter. intros. apply remove_touches. Qed.
Lemma added_touches x r id : touches id r (added_step x r id).
Proof. unfold added_step. case_match; [|touch]. apply touches_iter. intros. apply add_touches. Qed.
Lemma metadata_touches x r id : touches id r (metadata_step x r id).
Proof. unfold metadata_step. do 2 (case_match; [|touch]). touch. Qed.

(** A pass over different models: each is touched once. *)
Lemma pass_spec (op : ModelRegistry → string → ModelRegistry) ids :
  (∀ r id, touches id r (op r id)) → NoDup ids → ∀ r,
  (∃ ms, fold_left op ids r = r <| models := ms |>)
  ∧ (∀ x, x ∉ ids → models (fold_left op ids r) !! x = models r !! x)
  ∧ (∀ x, x ∈ ids → ∃ r0, (∃ ms, r0 = r <| models := ms |>) ∧ models r0 !! x = models r !! x
       ∧ models (fold_left op ids r) !! x = models (op r0 x) !! x).
Proof.
  intros Hop Hnd. induction Hnd as [|y ids Hy Hnd IH]; intros r; cbn [fold_left].
  { split_and!; [exists (models r); by destruct r|done|]. by intros x ?%not_elem_of_nil. }
  destruct (Hop r y) as (ms & E & Hms). destruct (IH (op r y)) as ((ms' & H1) & H2 & H3). split_and!.
  - exists ms'. rewrite H1, E. done.
  - intros x [Hxy Hx]%not_elem_of_cons. rewrite H2 by done. rewrite E. by apply Hms.
  - intros x [->|Hx]%elem_of_cons.
    + exists r. split_and!; [exists (models r); by destruct r|done|by apply H2].
    + destruct (H3 x Hx) as (r0 & (ms0 & ->) & Hm & Hr). exists ((op r y) <| models := ms0 |>).
      split_and!; [exists ms0; by rewrite E| |done]. rewrite Hm, E. apply Hms. by intros ->.
Qed.

(** ** One registration at a time *)

Lemma add_view r id p model now ex c ps :
  id ≠ "" → 0 ≤ c → (∀ q, 0 ≤ ps q) → reg_view (models r !! id) c ps →
  reg_view (models (addModelRegistration r id p model now ex) !! id) (c + 1) (λ q, ps q + gain p 1 q).
Proof.
  intros Hid Hc Hps. unfold addModelRegistration. rewrite (proj2 (String.eqb_neq _ _) Hid). cbv zeta.
  destruct (models r !! id) as [g|] eqn:Eg; rewrite models_set, lookup_insert_eq.
  - intros (H1 & H2 & H3 & H4). destruct (String.eqb_spec p "") as [->|Hp]; cbn.
    { split_and!; [lia|lia|intros q; by rewrite gain_empty, Z.add_0_r|done]. }
    split_and!; [lia|lia| |].
    + intros q. destruct (decide (q = p)) as [->|Hq]; [rewrite lookup_insert_eq, gain_self by done; cbn; rewrite <-H3; lia|].
      rewrite lookup_insert_ne, gain_other by done. rewrite H3. lia.
    + intros q n [[<- <-]|[_ Hn]]%lookup_insert_Some; [|by eapply H4]. rewrite H3. specialize (Hps p). lia.
  - intros [-> H2]. destruct (String.eqb_spec p "") as [->|Hp]; cbn.
    { split_and!; [done|lia|intros q; by rewrite H2, gain_empty|done]. }
    split_and!; [done|lia| |].
    + intros q. rewrite H2. destruct (decide (q = p)) as [->|Hq]; [by rewrite lookup_singleton_eq, gain_self|].
      by rewrite lookup_singleton_ne, gain_other by done.
    + intros q n [<- <-]%lookup_singleton_Some. lia.
Qed.

Lemma drop_provider_view g p k ps :
  0 < k → (p ≠ "" → k ≤ ps p) → (∀ q, default 0 (Providers g !! q) = ps q) → (∀ q n, Providers g !! q = Some n → 0 < n) →
  p ≠ "" →
  Count (drop_provider g p k) = Count g
  ∧ (∀ q, default 0 (Providers (drop_provider g p k) !! q) = ps q - gain p k q)
  ∧ (∀ q n, Providers (drop_provider g p k) !! q = Some n → 0 < n).
Proof.
  intros Hk Hle H3 H4 Hp. specialize (Hle Hp). pose proof (H3 p) as H3p. unfold drop_provider.
  destruct (Providers g !! p) as [n|] eqn:En; [|cbn in H3p; lia]. cbn in H3p.
  destruct (Z.leb_spec n k); cbn; (split; [done|]); split.
  - intros q. destruct (decide (q = p)) as [->|Hq]; [rewrite lookup_delete_eq, gain_self by done; cbn; lia|].
    rewrite lookup_delete_ne, gain_other by done. rewrite H3. lia.
  - intros q m [_ Hm]%lookup_delete_Some. by eapply H4.
  - intros q. destruct (decide (q = p)) as [->|Hq]; [rewrite lookup_insert_eq, gain_self by done; cbn; lia|].
    rewrite lookup_insert_ne, gain_other by done. rewrite H3. lia.
  - intros q m [[<- <-]|[_ Hm]]%lookup_insert_Some; [lia|by eapply H4].
Qed.

(** What is counted in a registration does not depend on the rest of it. *)
Lemma reg_view_same g g' c ps :
  Count g = Count g' → Providers g = Providers g' → reg_view (Some g) c ps → reg_view (Some g') c ps.
Proof. intros Ec Ep. cbn. by rewrite Ec, Ep. Qed.
Lemma refresh_same g p b : Count (refresh_provider_info g p b) = Count g ∧ Providers (refresh_provider_info g p b) = Providers g.
Proof. unfold refresh_provider_info. by case_match. Qed.

Lemma keep_view r c id p g n ps :
  Count g = n → 0 ≤ n → (∀ q, default 0 (Providers g !! q) = ps q) → (∀ q m, Providers g !! q = Some m → 0 < m) →
  (n = 0 → ∀ q, ps q = 0) →
  reg_view (models (keep_registration r c id p g) !! id) n ps.
Proof.
  intros Hc Hn H3 H4 Hz. unfold keep_registration. cbv zeta. rewrite Hc. destruct (Z.leb_spec n 0); rewrite models_set.
  - rewrite lookup_delete_eq. split; [lia|]. apply Hz. lia.
  - rewrite lookup_insert_eq. destruct p as [p|]; cbn; [|by split_and!].
    match goal with |- context [refresh_provider_info ?g1 _ ?b] => destruct (refresh_same g1 p b) as [-> ->] end.
    by split_and!.
Qed.

(** Taking one of at least one away. *)
Lemma take_view r c id (provider : option string) g n ps :
  (∀ p, provider = Some p → p ≠ "") →
  Count g = n + 1 - 1 → 0 ≤ n → (∀ q, 0 ≤ ps q) → (n = 0 → ∀ q, ps q = 0) →
  (∀ q, default 0 (Providers g !! q) = ps q + gain (default "" provider) 1 q) → (∀ q m, Providers g !! q = Some m → 0 < m) →
  reg_view (models (keep_registration r c id provider
    (match provider with Some p => drop_provider g p 1 | None => g end)) !! id) n ps.
Proof.
  intros Hp Hc Hn Hps Hz H3 H4. destruct provider as [p|]; cbn in H3.
  - specialize (Hp p eq_refl).
    destruct (drop_provider_view g p 1 (λ q, ps q + gain p 1 q)) as (H5 & H6 & H7); [lia| |done..|].
    { intros _. rewrite gain_self by done. specialize (Hps p). lia. }
    apply keep_view; [lia|done| |done|done]. intros q. rewrite H6. lia.
  - apply keep_view; [lia|done| |done|done]. intros q. by rewrite H3, gain_empty, Z.add_0_r.
Qed.

Lemma forget_same g c : Count (forget_client g c) = Count g ∧ Providers (forget_client g c) = Providers g.
Proof. done. Qed.

Lemma remove_view r client id p now b n ps :
  0 ≤ n → (∀ q, 0 ≤ ps q) → (n = 0 → ∀ q, ps q = 0) →
  reg_view (models r !! id) (n + 1) (λ q, ps q + gain p 1 q) →
  reg_view (models (removeModelRegistration r client id p now b) !! id) n ps.
Proof.
  intros Hn Hps Hz. unfold removeModelRegistration. destruct (models r !! id) as [g|]; [|intros [? _]; lia].
  intros (H1 & H2 & H3 & H4). cbv zeta. set (g1 := g <| Count := Count g - 1 |> <| LastUpdated := now |>).
  set (g2 := if b then g1 else forget_client g1 client).
  assert (Count g2 = Count g - 1 ∧ Providers g2 = Providers g) as [E1 E2] by by destruct b.
  rewrite E1. destruct (Z.ltb_spec (Count g - 1) 0); [lia|].
  pose proof (take_view r client id (if String.eqb p "" then None else Some p) g2 n ps) as Ht.
  destruct (String.eqb_spec p "") as [->|Hp]; (apply Ht; [naive_solver|lia|done..| |]); rewrite ?E2; try done;
    intros q; rewrite ?H3, ?E2; by rewrite ?gain_empty.
Qed.

Lemma unregister_view r client id provider now n ps :
  (∀ p, provider = Some p → p ≠ "") → 0 ≤ n → (∀ q, 0 ≤ ps q) → (n = 0 → ∀ q, ps q = 0) →
  reg_view (models r !! id) (n + 1) (λ q, ps q + gain (default "" provider) 1 q) →
  reg_view (models (unregister_model client provider now r id) !! id) n ps.
Proof.
  intros Hp Hn Hps Hz. unfold unregister_model. destruct (models r !! id) as [g|]; [|intros [? _]; lia].
  intros (H1 & H2 & H3 & H4). apply take_view; try done. cbn. lia.
Qed.

(** ** What the clients registered *)

Definition offered (keep : string → bool) (m : gmap string (list string)) (id : string) : Z :=
  map_fold (λ c l acc, (if keep c then Z.of_nat (times_in l id) else 0) + acc) 0 m.
Definition total (r : ModelRegistry) (id : string) : Z := offered (λ _, true) (clientModels r) id.
Definition provider_total (r : ModelRegistry) (id p : string) : Z :=
  if String.eqb p "" then 0 else offered (λ c, bool_decide (clientProviders r !! c = Some p)) (clientModels r) id.

Lemma offered_delete keep m id c l :
  m !! c = Some l → offered keep m id = (if keep c then Z.of_nat (times_in l id) else 0) + offered keep (delete c m) id.
Proof. intros Hl. unfold offered. apply (map_fold_delete_L (λ c l acc, (if keep c then Z.of_nat (times_in l id) else 0) + acc)); [intros; lia|done]. Qed.
Lemma offered_insert keep m id c l :
  offered keep (<[c := l]> m) id = (if keep c then Z.of_nat (times_in l id) else 0) + offered keep (delete c m) id.
Proof.
  rewrite (offered_delete keep (<[c := l]> m) id c l) by apply lookup_insert_eq. by rewrite delete_insert_eq.
Qed.
Lemma offered_without keep m id c :
  offered keep m id = (if keep c then Z.of_nat (times_in (default [] (m !! c)) id) else 0) + offered keep (delete c m) id.
Proof.
  destruct (m !! c) as [l|] eqn:El; [by apply offered_delete|]. rewrite delete_id by done. cbn. by destruct (keep c).
Qed.
Lemma offered_ext keep keep' m id : (∀ c, is_Some (m !! c) → keep c = keep' c) → offered keep m id = offered keep' m id.
Proof.
  intros Hk. induction m as [|c l m Hc IH] using map_ind; [done|].
  rewrite !(offered_insert _ m), !delete_id by done. rewrite IH, Hk; [done|rewrite lookup_insert_eq; eauto|].
  intros c' Hc'. apply Hk. destruct (decide (c' = c)) as [->|Hne]; [rewrite lookup_insert_eq; eauto|by rewrite lookup_insert_ne].
Qed.
Lemma offered_bounds keep m id : 0 ≤ offered keep m id ≤ offered (λ _, true) m id.
Proof.
  induction m as [|c l m Hc IH] using map_ind; [done|].
  rewrite !(offered_insert _ m), !delete_id by done. destruct (keep c); lia.
Qed.

(** The share of everybody but one client. *)
Definition others (r : ModelRegistry) (c id : string) : Z := offered (λ _, true) (delete c (clientModels r)) id.
Definition provider_others (r : ModelRegistry) (c id p : string) : Z :=
  if String.eqb p "" then 0
  else offered (λ c', bool_decide (clientProviders r !! c' = Some p)) (delete c (clientModels r)) id.

Lemma others_nonneg r c id : 0 ≤ others r c id.
Proof. apply offered_bounds. Qed.
Lemma provider_others_nonneg r c id q : 0 ≤ provider_others r c id q.
Proof. unfold provider_others. case_match; [done|]. apply offered_bounds. Qed.
Lemma others_zero r c id : others r c id = 0 → ∀ q, provider_others r c id q = 0.
Proof.
  intros H0 q. unfold provider_others. case_match; [done|].
  pose proof (offered_bounds (λ c', bool_decide (clientProviders r !! c' = Some q)) (delete c (clientModels r)) id).
  unfold others in H0. lia.
Qed.

Lemma total_split r c id :
  total r id = others r c id + Z.of_nat (times_in (default [] (clientModels r !! c)) id).
Proof. unfold total, others. rewrite (offered_without _ _ id c). lia. Qed.
Lemma provider_total_split r c id q :
  provider_total r id q = provider_others r c id q
    + gain (default "" (clientProviders r !! c)) (Z.of_nat (times_in (default [] (clientModels r !! c)) id)) q.
Proof.
  unfold provider_total, provider_others. destruct (String.eqb_spec q "") as [->|Hq].
  - unfold gain. rewrite bool_decide_eq_false_2; [done|]. naive_solver.
  - rewrite (offered_without _ _ id c). unfold gain. destruct (clientProviders r !! c) as [p|]; cbn.
    + destruct (decide (p = q)) as [->|Hne].
      * rewrite !bool_decide_eq_true_2 by done. lia.
      * rewrite !bool_decide_eq_false_2; [lia|naive_solver|naive_solver].
    + rewrite bool_decide_eq_false_2 by done. rewrite bool_decide_eq_false_2; [lia|naive_solver].
Qed.

(** A registry after one client's share has been set to [l] under provider [p]. *)
Lemma totals_set r r' c l p id q :
  clientModels r' = <[c := l]> (clientModels r) → clientProviders r' = set_provider c p (clientProviders r) →
  total r' id = others r c id + Z.of_nat (times_in l id)
  ∧ provider_total r' id q = provider_others r c id q + gain p (Z.of_nat (times_in l id)) q.
Proof.
  intros Em Ep. rewrite (total_split r' c), (provider_total_split r' c). unfold others, provider_others.
  rewrite Em, Ep, lookup_insert_eq, delete_insert_eq. cbn. split; [done|]. f_equal.
  - destruct (String.eqb q ""); [done|]. apply offered_ext. intros c' Hc'. destruct (decide (c' = c)) as [->|Hne].
    { rewrite lookup_delete_eq in Hc'. by destruct Hc'. }
    unfold set_provider. destruct (String.eqb p ""); by rewrite ?lookup_delete_ne, ?lookup_insert_ne by done.
  - f_equal. unfold set_provider. destruct (String.eqb_spec p "") as [->|]; by rewrite ?lookup_delete_eq, ?lookup_insert_eq.
Qed.
Lemma totals_delete r r' c id q :
  clientModels r' = delete c (clientModels r) → clientProviders r' = delete c (clientProviders r) →
  total r' id = others r c id ∧ provider_total r' id q = provider_others r c id q.
Proof.
  intros Em Ep. rewrite (total_split r' c), (provider_total_split r' c). unfold others, provider_others.
  rewrite Em, Ep, !lookup_delete_eq, delete_delete_eq. cbn. rewrite gain_empty. split; [lia|]. rewrite Z.add_0_r.
  destruct (String.eqb q ""); [done|]. apply offered_ext. intros c' Hc'. destruct (decide (c' = c)) as [->|Hne].
  { rewrite lookup_delete_eq in Hc'. by destruct Hc'. } by rewrite lookup_delete_ne.
Qed.

(** ** Reconciling a client *)

Lemma remove_iter n client id p now b : ∀ r c ps,
  0 ≤ c → (∀ q, 0 ≤ ps q) → (c = 0 → ∀ q, ps q = 0) →
  reg_view (models r !! id) (c + Z.of_nat n) (λ q, ps q + gain p (Z.of_nat n) q) →
  reg_view (models (Nat.iter n (λ r, removeModelRegistration r client id p now b) r) !! id) c ps.
Proof.
  induction n as [|n IH]; intros r c ps Hc Hps Hz Hv; cbn [Nat.iter nat_rect].
  - eapply reg_view_ext; [| |exact Hv]; [lia|]. intros q. cbn. by rewrite gain_0, Z.add_0_r.
  - apply remove_view; [done..|]. apply (IH r (c + 1) (λ q, ps q + gain p 1 q)); [lia| |lia|].
    + intros q. pose proof (Hps q). pose proof (gain_nonneg p 1 q). lia.
    + eapply reg_view_ext; [| |exact Hv]; [lia|]. intros q. cbn. rewrite <-Z.add_assoc, gain_add. do 2 f_equal. lia.
Qed.
Lemma add_iter n id p model now ex : ∀ r c ps,
  id ≠ "" → 0 ≤ c → (∀ q, 0 ≤ ps q) → reg_view (models r !! id) c ps →
  reg_view (models (Nat.iter n (λ r, addModelRegistration r id p model now ex) r) !! id)
    (c + Z.of_nat n) (λ q, ps q + gain p (Z.of_nat n) q).
Proof.
  induction n as [|n IH]; intros r c ps Hid Hc Hps Hv; cbn [Nat.iter nat_rect].
  - eapply reg_view_ext; [| |exact Hv]; [lia|]. intros q. cbn. by rewrite gain_0, Z.add_0_r.
  - eapply reg_view_ext; cycle 2; [apply add_view; [done| | |by apply IH]|..].
    + lia.
    + intros q. pose proof (Hps q). pose proof (gain_nonneg p (Z.of_nat n) q). lia.
    + lia.
    + intros q. cbn. rewrite <-Z.add_assoc, gain_add. do 2 f_equal. lia.
Qed.

Lemma base_nonneg (b : string → Z) p k q : (∀ q, 0 ≤ b q) → 0 ≤ k → 0 ≤ b q + gain p k q.
Proof. intros Hb Hk. pose proof (Hb q). pose proof (gain_nonneg p k q Hk). lia. Qed.

Section reconcile.
Context (x : reconciliation) (id : string) (co : Z) (b : string → Z).
Context (Hco : 0 ≤ co) (Hb : ∀ q, 0 ≤ b q) (Hz : co = 0 → ∀ q, b q = 0).
Context (Hnew : (0 < new_count x id)%nat → id ≠ "" ∧ is_Some (rc_models x !! id)).

Let oldN : Z := Z.of_nat (old_count x id).
Let newN : Z := Z.of_nat (new_count x id).
Let both : Z := Z.of_nat (Nat.min (new_count x id) (old_count x id)).
Let kept : Z := if (new_count x id =? 0)%nat then 0 else oldN.
Let op := rc_oldProvider x.
Let np := rc_provider x.

Lemma swap_view r :
  op ≠ "" → reg_view (models r !! id) (co + oldN) (λ q, b q + gain op oldN q) →
  reg_view (models (swap_step x r id) !! id) (co + oldN) (λ q, b q + gain op (oldN - both) q).
Proof using All.
  intros Hop Hv. unfold swap_step. destruct (Nat.eqb_spec (new_count x id) 0) as [En|En]; cbn [orb].
  { eapply reg_view_ext; [done| |exact Hv]. intros q. cbn. subst both. rewrite En, Nat.min_0_l. by rewrite Z.sub_0_r. }
  destruct (Nat.eqb_spec (old_count x id) 0) as [Eo|Eo].
  { eapply reg_view_ext; [done| |exact Hv]. intros q. cbn. subst both. by rewrite Eo, Nat.min_0_r, Z.sub_0_r. }
  destruct (models r !! id) as [g|] eqn:Eg; [|destruct Hv; subst oldN; lia]. destruct Hv as (H1 & H2 & H3 & H4).
  cbv zeta. fold op both. rewrite models_set, lookup_insert_eq.
  destruct (drop_provider_view g op both (λ q, b q + gain op oldN q)) as (H5 & H6 & H7); [subst both; lia| |done..|].
  { intros _. rewrite gain_self by done. pose proof (Hb op). subst both oldN. lia. }
  eapply (reg_view_same (drop_provider g op both));
    [case_match; by rewrite ?(proj1 (refresh_same _ _ _))|case_match; by rewrite ?(proj2 (refresh_same _ _ _))|].
  split_and!; [lia|done| |done]. intros q. rewrite H6. unfold gain. case_bool_decide; lia.
Qed.

Lemma removed_view r k :
  0 ≤ k ≤ both → reg_view (models r !! id) (co + oldN) (λ q, b q + gain op (oldN - k) q) →
  reg_view (models (removed_step x r id) !! id) (co + kept) (λ q, b q + gain op (kept - k) q).
Proof using All.
  intros Hk Hv. unfold removed_step. subst kept. destruct (Nat.eqb_spec (new_count x id) 0) as [En|En]; cbn [negb]; [|done].
  assert (k = 0) as -> by (subst both; rewrite En, Nat.min_0_l in Hk; lia).
  eapply reg_view_ext; cycle 2; [apply (remove_iter (old_count x id) _ id op _ _ r co b); [done..|]|lia|].
  - eapply reg_view_ext; [| |exact Hv]; [done|]. intros q. cbn. by rewrite Z.sub_0_r.
  - intros q. by rewrite gain_0, Z.add_0_r.
Qed.

Lemma over_view r k :
  0 ≤ k ≤ both → reg_view (models r !! id) (co + kept) (λ q, b q + gain op (kept - k) q) →
  reg_view (models (over_step x r id) !! id) (co + both) (λ q, b q + gain op (both - k) q).
Proof using All.
  intros Hk Hv. unfold over_step. subst kept. destruct (Nat.eqb_spec (new_count x id) 0) as [En|En]; cbn [orb].
  { assert (both = 0) as -> by (subst both; by rewrite En, Nat.min_0_l). done. }
  destruct (Nat.leb_spec (old_count x id) (new_count x id)) as [Hle|Hlt].
  { assert (both = oldN) as -> by (subst both oldN; lia). done. }
  apply remove_iter; [subst both; lia|intros q; apply base_nonneg; [done|lia]|subst both; lia|].
  eapply reg_view_ext; [| |exact Hv]; [subst both oldN; lia|]. intros q. cbn. rewrite <-Z.add_assoc, gain_add.
  do 2 f_equal. subst both oldN. lia.
Qed.

Lemma added_view r k :
  0 ≤ k ≤ both → reg_view (models r !! id) (co + both) (λ q, b q + gain op (both - k) q) →
  reg_view (models (added_step x r id) !! id) (co + newN) (λ q, b q + gain op (both - k) q + gain np (newN - both) q).
Proof using All.
  intros Hk Hv. unfold added_step. destruct (Nat.eqb_spec (new_count x id) 0) as [En|En].
  - assert (both = 0 ∧ newN = 0) as [Eb Enw] by (subst both newN; rewrite En; lia).
    rewrite En. assert (∀ m, reg_view (models (Nat.iter (0 - old_count x id) m r) !! id) (co + newN)
      (λ q, b q + gain op (both - k) q + gain np (newN - both) q)) as Hdone.
    { intros m. cbn. eapply reg_view_ext; [| |exact Hv]; [lia|]. intros q. cbn. rewrite Eb, Enw, Z.sub_diag, gain_0. lia. }
    destruct (rc_models x !! id); [apply Hdone|apply (Hdone (λ r, r))].
  - destruct Hnew as [Hid [model ->]]; [lia|].
    assert (∀ q, 0 ≤ b q + gain op (both - k) q) as Hps by (intros q; apply base_nonneg; [done|lia]).
    pose proof (add_iter (new_count x id - old_count x id) id np model (rc_now x) (rc_client x) r (co + both) _
      Hid ltac:(lia) Hps Hv) as Ha.
    eapply reg_view_ext; [| |exact Ha]; [subst both newN; lia|]. intros q. cbn. do 2 f_equal. subst both newN. lia.
Qed.

Lemma metadata_view r :
  reg_view (models r !! id) (co + newN)
    (λ q, b q + gain op (both - (if provider_changed x then both else 0)) q + gain np (newN - both) q) →
  reg_view (models (metadata_step x r id) !! id) (co + newN) (λ q, b q + gain np newN q).
Proof using All.
  intros Hv. assert (Hsame : (provider_changed x = false ∨ both = 0 ∨ np = "") →
    reg_view (models r !! id) (co + newN) (λ q, b q + gain np newN q)).
  { intros Hc. eapply reg_view_ext; [done| |exact Hv]. intros q. cbn. unfold provider_changed in Hc |- *. fold op np in Hc |- *.
    destruct (String.eqb_spec op np) as [Ep|Hne]; cbn [negb].
    - rewrite Ep, Z.sub_0_r, <-Z.add_assoc, gain_add. do 2 f_equal. lia.
    - destruct Hc as [?|[E|E]]; rewrite ?E; [done|by rewrite !Z.sub_0_r, gain_0, Z.add_0_r|].
      by rewrite Z.sub_diag, gain_0, !gain_empty, !Z.add_0_r. }
  unfold metadata_step. destruct (rc_models x !! id) as [model|] eqn:Em.
  2: { apply Hsame. right; left. subst both. destruct (new_count x id) eqn:En; [done|]. destruct Hnew as [_ [? ?]]; [lia|congruence]. }
  destruct (models r !! id) as [g|] eqn:Eg.
  2: { rewrite Eg. apply Hsame. destruct Hv. right; left. subst newN both. lia. }
  cbv zeta. rewrite models_set, lookup_insert_eq. fold np op.
  set (g0 := if negb (rc_preserve x) || _ || _ then _ else _).
  assert (Count g0 = Count g ∧ Providers g0 = Providers g) as [E1 E2].
  { unfold g0. destruct (negb (rc_preserve x) || _ || _); destruct (String.eqb np ""); destruct (provider_changed x && _);
      cbn; by rewrite ?(proj1 (refresh_same _ _ _)), ?(proj2 (refresh_same _ _ _)). }
  clearbody g0. destruct (provider_changed x) eqn:Ec; cbn [andb]; [|by apply (reg_view_same g), Hsame; [..|left]].
  destruct (String.eqb_spec np "") as [En|En]; cbn [negb andb]; [by apply (reg_view_same g), Hsame; [..|right; right]|].
  destruct (Nat.ltb_spec 0 (Nat.min (new_count x id) (old_count x id))) as [Hpos|Hzero].
  2: { apply (reg_view_same g); [done..|]. apply Hsame. right; left. subst both. lia. }
  destruct Hv as (H1 & H2 & H3 & H4). cbn. rewrite E1, E2. split_and!; [done|done| |].
  - intros q. destruct (decide (q = np)) as [->|Hq].
    + rewrite lookup_insert_eq. cbn. rewrite H3, Z.sub_diag, gain_0, !gain_self by done. subst both newN. lia.
    + rewrite lookup_insert_ne by done. rewrite H3, Z.sub_diag, gain_0, !gain_other by done. lia.
  - intros q n [[<- <-]|[_ Hn]]%lookup_insert_Some; [|by eapply H4].
    rewrite H3, Z.sub_diag, gain_0. pose proof (base_nonneg b np (newN - both) np Hb ltac:(subst both newN; lia)). lia.
Qed.
End reconcile.
