(* ===== verification/RegistryInvariant.v ===== *)
(** * What always holds of the model registry

    [registry_ok]: every registration counts exactly the clients that registered its
    model, in total and per provider, a model without clients has no registration, and
    the four maps about clients agree.  Every operation keeps it, whatever order the
    passes over maps take. *)
From Stdlib Require Import ZArith Lia String Bool.
From stdpp Require Import prelude gmap strings.
From S2P Require Import Prelude GoStd Registry RegistryCounts.
Local Open Scope string_scope.
Local Open Scope list_scope.
Local Open Scope Z_scope.

(** ** Lists of model names *)

Lemma elem_of_unique_loop id l : ∀ seen, id ∈ unique_loop seen l ↔ id ∈ l ∧ id ∉ seen.
Proof.
  induction l as [|x l IH]; intros seen; cbn [unique_loop]; [split; [by intros ?%not_elem_of_nil|by intros [?%not_elem_of_nil _]]|].
  case_bool_decide as Hx; rewrite ?elem_of_cons, IH, ?elem_of_cons.
  - split; [tauto|]. intros [[->|?] ?]; [done|tauto].
  - rewrite not_elem_of_union, not_elem_of_singleton. destruct (decide (id = x)) as [->|]; tauto.
Qed.
Lemma elem_of_unique id l : id ∈ unique_ids l ↔ id ∈ l.
Proof. unfold unique_ids. rewrite elem_of_unique_loop. split; [tauto|]. intros ?. split; [done|apply not_elem_of_empty]. Qed.
Lemma unique_NoDup l : NoDup (unique_ids l).
Proof.
  unfold unique_ids. generalize (∅ : gset string). induction l as [|x l IH]; intros seen; cbn [unique_loop]; [constructor|].
  case_bool_decide; [apply IH|]. apply NoDup_cons. split; [|apply IH]. rewrite elem_of_unique_loop. set_solver.
Qed.
Lemma times_pos l id : (0 < times_in l id)%nat ↔ id ∈ l.
Proof.
  unfold times_in. split.
  - intros Hp. destruct (filter (λ y, y = id) l) as [|y k] eqn:E; [cbn in Hp; lia|].
    assert (y ∈ filter (λ y, y = id) l) as [-> Hy]%list_elem_of_filter by (rewrite E; left). done.
  - intros Hin. assert (id ∈ filter (λ y, y = id) l) as Hf by by apply list_elem_of_filter.
    destruct (filter _ l); [by apply not_elem_of_nil in Hf|cbn; lia].
Qed.
Lemma times_zero l id : id ∉ l → times_in l id = 0%nat.
Proof. intros Hn. destruct (times_in l id) eqn:E; [done|]. destruct Hn. apply times_pos. lia. Qed.

(** ** A pass, one model at a time *)

Lemma pass_view op ids r id c ps c' ps' :
  (∀ r id, touches id r (op r id)) → NoDup ids → (id ∉ ids → ∀ r, op r id = r) →
  (∀ r0, reg_view (models r0 !! id) c ps → reg_view (models (op r0 id) !! id) c' ps') →
  reg_view (models r !! id) c ps → reg_view (models (fold_left op ids r) !! id) c' ps'.
Proof.
  intros Ht Hnd Hout Hstep Hpre. destruct (pass_spec op ids Ht Hnd r) as (_ & H2 & H3).
  destruct (decide (id ∈ ids)) as [Hin|Hin].
  - destruct (H3 id Hin) as (r0 & _ & Hm & ->). apply Hstep. by rewrite Hm.
  - rewrite H2 by done. rewrite <-(Hout Hin r). by apply Hstep.
Qed.

Record orders_ok (o : orders) (old new : list string) : Prop := {
  oo_swap : NoDup (o_swap o) ∧ ∀ id, id ∈ o_swap o ↔ id ∈ new;
  oo_removed : NoDup (o_removed o) ∧ ∀ id, id ∈ o_removed o ↔ id ∈ old;
  oo_over : NoDup (o_over o) ∧ ∀ id, id ∈ o_over o ↔ id ∈ old;
  oo_added : NoDup (o_added o) ∧ ∀ id, id ∈ o_added o ↔ id ∈ new }.

Section reconcile.
Context (o : orders) (x : reconciliation) (Ho : orders_ok o (rc_old x) (rc_new x)).
Context (Hnew : ∀ id, id ∈ rc_new x ↔ is_Some (rc_models x !! id)) (Hne : "" ∉ rc_new x).

Lemma no_new id : id ∉ rc_new x → new_count x id = 0%nat.
Proof using. apply times_zero. Qed.
Lemma no_old id : id ∉ rc_old x → old_count x id = 0%nat.
Proof using. apply times_zero. Qed.

Lemma reconcile_view r id co b :
  0 ≤ co → (∀ q, 0 ≤ b q) → (co = 0 → ∀ q, b q = 0) →
  reg_view (models r !! id) (co + Z.of_nat (old_count x id))
    (λ q, b q + gain (rc_oldProvider x) (Z.of_nat (old_count x id)) q) →
  reg_view (models (reconcile o x r) !! id) (co + Z.of_nat (new_count x id))
    (λ q, b q + gain (rc_provider x) (Z.of_nat (new_count x id)) q).
Proof using All.
  intros Hco Hb Hz Hv. destruct Ho as [[Hs1 Hs2] [Hr1 Hr2] [Hv1 Hv2] [Ha1 Ha2]].
  assert ((0 < new_count x id)%nat → id ≠ "" ∧ is_Some (rc_models x !! id)) as Hn.
  { intros Hp%times_pos. split; [by intros ->|by apply Hnew]. }
  set (both := Z.of_nat (Nat.min (new_count x id) (old_count x id))).
  set (k := if provider_changed x then both else 0). assert (0 ≤ k ≤ both) as Hk by (subst k both; case_match; lia).
  unfold reconcile. set (r1 := if provider_changed x && _ then _ else r).
  assert (reg_view (models r1 !! id) (co + Z.of_nat (old_count x id))
    (λ q, b q + gain (rc_oldProvider x) (Z.of_nat (old_count x id) - k) q)) as H1.
  { unfold r1, k. destruct (provider_changed x); cbn [andb].
    2: { eapply reg_view_ext; [done| |exact Hv]. intros q. cbn. by rewrite Z.sub_0_r. }
    destruct (String.eqb_spec (rc_oldProvider x) "") as [E|E]; cbn [negb].
    { eapply reg_view_ext; [done| |exact Hv]. intros q. cbn. by rewrite E, !gain_empty. }
    apply (pass_view (swap_step x) _ _ id _ _ _ _ (swap_touches x) Hs1) with (2 := λ r0, swap_view x id co b Hco Hb Hz Hn r0 E); [|done].
    intros Hin r0. unfold swap_step. by rewrite no_new by (by rewrite <-Hs2). }
  clearbody r1. clear Hv r.
  apply (pass_view (removed_step x) _ _ id _ _ _ _ (removed_touches x) Hr1) with (2 := λ r0, removed_view x id co b Hco Hb Hz Hn r0 k Hk) in H1.
  2: { intros Hin r0. unfold removed_step. rewrite no_old by (by rewrite <-Hr2). by case_match. }
  apply (pass_view (over_step x) _ _ id _ _ _ _ (over_touches x) Hv1) with (2 := λ r0, over_view x id co b Hco Hb Hz Hn r0 k Hk) in H1.
  2: { intros Hin r0. unfold over_step. rewrite no_old by (by rewrite <-Hv2). by rewrite orb_true_r. }
  apply (pass_view (added_step x) _ _ id _ _ _ _ (added_touches x) Ha1) with (2 := λ r0, added_view x id co b Hco Hb Hz Hn r0 k Hk) in H1.
  2: { intros Hin r0. unfold added_step. rewrite no_new by (by rewrite <-Ha2). by case_match. }
  apply (pass_view (metadata_step x) _ _ id _ _ _ _ (metadata_touches x) (unique_NoDup (rc_new x))) with (2 := λ r0, metadata_view x id co b Hco Hb Hz Hn r0) in H1; [exact H1|].
  intros Hin r0. rewrite elem_of_unique in Hin. unfold metadata_step.
  destruct (rc_models x !! id) as [model|] eqn:E; [|done]. destruct Hin. apply Hnew. eauto.
Qed.

Lemma reconcile_frame r : ∃ ms, reconcile o x r = r <| models := ms |>.
Proof using.
  assert (∀ op ids r, (∀ r id, touches id r (op r id)) → ∃ ms, fold_left op ids r = r <| models := ms |>) as Hfold.
  { intros op ids. induction ids as [|id ids IH]; intros r' Ht; cbn; [exists (models r'); by destruct r'|].
    destruct (IH (op r' id) Ht) as [ms ->]. destruct (Ht r' id) as (ms' & -> & _). by exists ms. }
  assert (∀ op ids r0 ms, (∀ r id, touches id r (op r id)) → r0 = r <| models := ms |> →
    ∃ ms', fold_left op ids r0 = r <| models := ms' |>) as Hnext.
  { intros op ids r0 ms Ht ->. destruct (Hfold op ids (r <| models := ms |>) Ht) as [ms' ->]. by exists ms'. }
  unfold reconcile. set (r1 := if _ : bool then _ else _). assert (∃ ms, r1 = r <| models := ms |>) as [ms1 E1].
  { unfold r1. case_match; [apply Hfold, swap_touches|exists (models r); by destruct r]. }
  destruct (Hnext (removed_step x) (o_removed o) r1 ms1 (removed_touches x) E1) as [ms2 E2].
  destruct (Hnext (over_step x) (o_over o) _ ms2 (over_touches x) E2) as [ms3 E3].
  destruct (Hnext (added_step x) (o_added o) _ ms3 (added_touches x) E3) as [ms4 E4].
  exact (Hnext (metadata_step x) _ _ ms4 (metadata_touches x) E4).
Qed.
End reconcile.

(** ** Passes over lists with repetitions *)

Lemma fold_touches op ids : (∀ r id, touches id r (op r id)) → ∀ r, ∃ ms, fold_left op ids r = r <| models := ms |>.
Proof.
  intros Ht. induction ids as [|id ids IH]; intros r; cbn; [exists (models r); by destruct r|].
  destruct (IH (op r id)) as [ms ->]. destruct (Ht r id) as (ms' & -> & _). by exists ms.
Qed.

Lemma times_cons y l id : times_in (y :: l) id = ((if decide (y = id) then 1 else 0) + times_in l id)%nat.
Proof. unfold times_in. rewrite filter_cons. by case_decide. Qed.

Lemma touches_other y id r r' : y ≠ id → touches y r r' → models r' !! id = models r !! id.
Proof. intros Hne (ms & -> & H). by apply H. Qed.

Definition add_first (ms : gmap string ModelInfo) (p client : string) (now : time) (r : ModelRegistry) (id : string) : ModelRegistry :=
  match ms !! id with Some model => addModelRegistration r id p model now client | None => r end.
Lemma add_first_touches ms p client now r id : touches id r (add_first ms p client now r id).
Proof. unfold add_first. case_match; [apply add_touches|apply touches_refl]. Qed.

Lemma add_all_view ms p client now l : (∀ id, id ∈ l → id ≠ "" ∧ is_Some (ms !! id)) → ∀ r id c ps,
  0 ≤ c → (∀ q, 0 ≤ ps q) → reg_view (models r !! id) c ps →
  reg_view (models (fold_left (add_first ms p client now) l r) !! id)
    (c + Z.of_nat (times_in l id)) (λ q, ps q + gain p (Z.of_nat (times_in l id)) q).
Proof.
  induction l as [|y l IH]; intros Hl r id c ps Hc Hps Hv; cbn [fold_left].
  { eapply reg_view_ext; [| |exact Hv]; [cbn; lia|]. intros q. cbn. by rewrite gain_0, Z.add_0_r. }
  rewrite times_cons. destruct (decide (y = id)) as [->|Hne].
  - destruct (Hl id ltac:(left)) as [Hid [model Hm]].
    assert (reg_view (models (add_first ms p client now r id) !! id) (c + 1) (λ q, ps q + gain p 1 q)) as H1.
    { unfold add_first. rewrite Hm. by apply add_view. }
    pose proof (IH ltac:(intros; apply Hl; by right) _ id (c + 1) _ ltac:(lia) (λ q, base_nonneg ps p 1 q Hps ltac:(lia)) H1) as H2.
    eapply reg_view_ext; [| |exact H2]; [lia|]. intros q. cbn beta. rewrite <-Z.add_assoc, gain_add. do 2 f_equal. lia.
  - apply IH; [intros; apply Hl; by right|done..|]. by rewrite (touches_other y id _ _ Hne (add_first_touches ms p client now r y)).
Qed.

Lemma unregister_all_view client provider now l : (∀ p, provider = Some p → p ≠ "") → ∀ r id c ps,
  0 ≤ c → (∀ q, 0 ≤ ps q) → (c = 0 → ∀ q, ps q = 0) →
  reg_view (models r !! id) (c + Z.of_nat (times_in l id)) (λ q, ps q + gain (default "" provider) (Z.of_nat (times_in l id)) q) →
  reg_view (models (fold_left (unregister_model client provider now) l r) !! id) c ps.
Proof.
  intros Hp. induction l as [|y l IH]; intros r id c ps Hc Hps Hz Hv; cbn [fold_left].
  { eapply reg_view_ext; [| |exact Hv]; [cbn; lia|]. intros q. cbn. by rewrite gain_0, Z.add_0_r. }
  apply IH; [done..|]. rewrite times_cons in Hv. destruct (decide (y = id)) as [->|Hne].
  - set (n := Z.of_nat (times_in l id)).
    apply unregister_view; [done|lia|intros q; apply base_nonneg; [done|lia]|..].
    + intros E q. rewrite (Hz ltac:(lia)). assert (n = 0) as -> by lia. by rewrite gain_0.
    + eapply reg_view_ext; [| |exact Hv]; [lia|]. intros q. cbn beta. rewrite <-Z.add_assoc, gain_add. do 2 f_equal. lia.
  - by rewrite (touches_other y id _ _ Hne (unregister_touches client provider now r y)).
Qed.

(** ** The invariant *)

Record registry_ok (r : ModelRegistry) : Prop := {
  ro_counts id : reg_view (models r !! id) (total r id) (provider_total r id);
  ro_lists c l : clientModels r !! c = Some l → l ≠ [] ∧ "" ∉ l;
  ro_infos c : match clientModels r !! c, clientModelInfos r !! c with
               | Some l, Some infos => ∀ id, id ∈ l ↔ is_Some (infos !! id)
               | None, None => True
               | _, _ => False
               end;
  ro_providers c p : clientProviders r !! c = Some p → p ≠ "" ∧ is_Some (clientModels r !! c) }.

Lemma new_registry_ok : registry_ok newRegistry.
Proof.
  split; [|intros c|intros c|intros c p]; cbn; rewrite ?lookup_empty; try done.
  intros id. cbn. rewrite lookup_empty. split; [done|]. intros p. unfold provider_total. by case_match.
Qed.

(** Operations that leave the counted fields and the client maps alone. *)
Definition counts_alike (ms ms' : gmap string ModelRegistration) : Prop :=
  ∀ id, match ms !! id, ms' !! id with
        | Some g, Some g' => Count g = Count g' ∧ Providers g = Providers g'
        | None, None => True
        | _, _ => False
        end.
Lemma ok_alike r r' :
  registry_ok r → counts_alike (models r) (models r') → clientModels r' = clientModels r →
  clientModelInfos r' = clientModelInfos r → clientProviders r' = clientProviders r → registry_ok r'.
Proof.
  intros Hr Hm E1 E2 E3. split.
  - intros id. pose proof (ro_counts r Hr id) as Hv. specialize (Hm id). unfold total, provider_total. rewrite E1, E3.
    destruct (models r !! id), (models r' !! id); try done. destruct Hm. by eapply reg_view_same.
  - rewrite E1. apply Hr.
  - rewrite E1, E2. apply Hr.
  - rewrite E1, E3. apply Hr.
Qed.
Lemma alike_refl ms : counts_alike ms ms.
Proof. intros id. by destruct (ms !! id). Qed.

Lemma set_provider_Some c p m c' q :
  set_provider c p m !! c' = Some q → (c' = c ∧ q = p ∧ p ≠ "") ∨ (c' ≠ c ∧ m !! c' = Some q).
Proof.
  unfold set_provider. destruct (String.eqb_spec p "").
  - intros [? ?]%lookup_delete_Some. by right.
  - intros [[<- <-]|[? ?]]%lookup_insert_Some; [by left|by right].
Qed.

(** A client's share replaced. *)
Lemma ok_set r r' c l infos p :
  registry_ok r → l ≠ [] → "" ∉ l → (∀ id, id ∈ l ↔ is_Some (infos !! id)) →
  clientModels r' = <[c := l]> (clientModels r) → clientModelInfos r' = <[c := infos]> (clientModelInfos r) →
  clientProviders r' = set_provider c p (clientProviders r) →
  (∀ id, reg_view (models r' !! id) (others r c id + Z.of_nat (times_in l id))
           (λ q, provider_others r c id q + gain p (Z.of_nat (times_in l id)) q)) →
  registry_ok r'.
Proof.
  intros Hr Hl He Hinfos E1 E2 E3 Hv. split.
  - intros id. eapply reg_view_ext; [| |apply Hv].
    + symmetry. by apply (totals_set r r' c l p id "").
    + intros q. symmetry. by apply (totals_set r r' c l p id q).
  - intros c' l'. rewrite E1. intros [[_ <-]|[_ ?]]%lookup_insert_Some; [done|by eapply (ro_lists r Hr)].
  - intros c'. rewrite E1, E2. destruct (decide (c' = c)) as [->|Hne]; [by rewrite !lookup_insert_eq|].
    rewrite !lookup_insert_ne by done. apply (ro_infos r Hr).
  - intros c' q. rewrite E1, E3. intros [(->&->&?)|[Hne Hq]]%set_provider_Some; [rewrite lookup_insert_eq; eauto|].
    rewrite lookup_insert_ne by done. by apply (ro_providers r Hr).
Qed.
Lemma ok_delete r r' c :
  registry_ok r → clientModels r' = delete c (clientModels r) → clientModelInfos r' = delete c (clientModelInfos r) →
  clientProviders r' = delete c (clientProviders r) →
  (∀ id, reg_view (models r' !! id) (others r c id) (provider_others r c id)) →
  registry_ok r'.
Proof.
  intros Hr E1 E2 E3 Hv. split.
  - intros id. eapply reg_view_ext; [| |apply Hv].
    + symmetry. by apply (totals_delete r r' c id "").
    + intros q. symmetry. by apply (totals_delete r r' c id q).
  - intros c' l'. rewrite E1. intros [_ ?]%lookup_delete_Some. by eapply (ro_lists r Hr).
  - intros c'. rewrite E1, E2. destruct (decide (c' = c)) as [->|Hne]; [by rewrite !lookup_delete_eq|].
    rewrite !lookup_delete_ne by done. apply (ro_infos r Hr).
  - intros c' q. rewrite E1, E3. intros [Hne Hq]%lookup_delete_Some. rewrite lookup_delete_ne by done. by apply (ro_providers r Hr).
Qed.

Lemma ok_share r c id :
  registry_ok r →
  reg_view (models r !! id) (others r c id + Z.of_nat (times_in (default [] (clientModels r !! c)) id))
    (λ q, provider_others r c id q
          + gain (default "" (clientProviders r !! c)) (Z.of_nat (times_in (default [] (clientModels r !! c)) id)) q).
Proof.
  intros Hr. eapply reg_view_ext; [| |apply (ro_counts r Hr id)]; [apply total_split|]. intros q. apply provider_total_split.
Qed.

(** Without the client's own entry nothing is lost. *)
Lemma no_provider r c : registry_ok r → clientModels r !! c = None → clientProviders r !! c = None.
Proof.
  intros Hr Hc. destruct (clientProviders r !! c) as [p|] eqn:E; [|done].
  destruct (ro_providers r Hr c p E) as [_ [? ?]]. congruence.
Qed.
Lemma no_infos r c : registry_ok r → clientModels r !! c = None → clientModelInfos r !! c = None.
Proof. intros Hr Hc. pose proof (ro_infos r Hr c) as Hi. rewrite Hc in Hi. by destruct (clientModelInfos r !! c). Qed.

Lemma unregister_ok r c now : registry_ok r → registry_ok (unregisterClientInternal r c now)
  ∧ clientModels (unregisterClientInternal r c now) !! c = None.
Proof.
  intros Hr. unfold unregisterClientInternal. destruct (clientModels r !! c) as [ids|] eqn:Ec.
  - set (r1 := r <| clientEpochs := _ |> <| clientGenerations := _ |> <| registrationEpoch := _ |>).
    destruct (fold_touches (unregister_model c (clientProviders r !! c) now) ids (λ r id, unregister_touches _ _ _ r id) r1) as [ms E].
    split; [|cbn; apply lookup_delete_eq]. apply (ok_delete r _ c Hr); [cbn; by rewrite E..|]. intros id. cbn.
    apply unregister_all_view; [|apply others_nonneg|intros; apply provider_others_nonneg|apply others_zero|].
    + intros p Hp. by apply (ro_providers r Hr) in Hp as [? _].
    + pose proof (ok_share r c id Hr) as Hs. rewrite Ec in Hs. exact Hs.
  - split; [|done]. apply (ok_alike r); [done|apply alike_refl|done..|]. cbn. rewrite delete_id; [done|by apply no_provider].
Qed.

(** ** Registering *)

Lemma raw_ids_named l : "" ∉ raw_ids l.
Proof. unfold raw_ids, named_models. intros (m & E & [Hm _]%list_elem_of_filter)%list_elem_of_fmap. by destruct Hm. Qed.

Lemma first_models_dom l id : is_Some (first_models l !! id) ↔ id ∈ raw_ids l.
Proof.
  unfold first_models, raw_ids. generalize (named_models l). clear l. intros l.
  assert (∀ m : gmap string ModelInfo, is_Some (fold_left (λ m model, match m !! I_ID model with Some _ => m
    | None => <[I_ID model := model]> m end) l m !! id) ↔ is_Some (m !! id) ∨ id ∈ I_ID <$> l) as Hf.
  { induction l as [|y l IH]; intros m; cbn [fold_left]; [cbn; rewrite elem_of_nil; tauto|].
    rewrite IH, fmap_cons, elem_of_cons. destruct (m !! I_ID y) eqn:E.
    - split; [tauto|]. intros [?|[->|?]]; [tauto|left; eauto|tauto].
    - rewrite lookup_insert_is_Some. destruct (decide (I_ID y = id)) as [->|]; [tauto|]. split; [tauto|].
      intros [?|[?|?]]; [tauto|congruence|tauto]. }
  rewrite Hf, lookup_empty. split; [intros [[? ?]|?]; [done|done]|tauto].
Qed.

Lemma register_ok o r c provider l b now :
  registry_ok r → orders_ok o (default [] (clientModels r !! c)) (raw_ids l) →
  registry_ok (registerClientLocked o r c provider l b now).
Proof.
  intros Hr Ho. unfold registerClientLocked. cbv zeta. pose proof (raw_ids_named l) as Hne.
  pose proof (first_models_dom l) as Hdom. destruct (raw_ids l) as [|i0 raw0] eqn:Eraw.
  { destruct (unregister_ok r c now Hr) as [Hu Hc]. set (r1 := unregisterClientInternal r c now) in *. clearbody r1.
    apply (ok_alike r1); [done|apply alike_refl|..]; cbn; rewrite delete_id; try done; [by apply no_infos|by apply no_provider]. }
  rewrite <-Eraw in *. set (raw := raw_ids l) in *. assert (raw ≠ []) as Hraw by (rewrite Eraw; done).
  set (x := mkRecon _ _ _ _ _ _ _ _). set (r1 := r <| clientEpochs := _ |> <| registrationEpoch := _ |>).
  set (r2 := if negb b || _ || _ then _ else r1).
  assert (models r2 = models r ∧ clientModels r2 = clientModels r ∧ clientModelInfos r2 = clientModelInfos r
    ∧ clientProviders r2 = clientProviders r) as (E1 & E2 & E3 & E4) by (unfold r2; by case_match).
  set (r3 := match clientModels r !! c with Some _ => _ | None => _ end).
  assert ((∃ ms, r3 = r2 <| models := ms |>) ∧ ∀ id, reg_view (models r3 !! id) (others r c id + Z.of_nat (times_in raw id))
           (λ q, provider_others r c id q + gain (ToLower provider) (Z.of_nat (times_in raw id)) q)) as [[ms Hms] Hv].
  { pose proof (λ id, ok_share r c id Hr) as Hshare. unfold r3. destruct (clientModels r !! c) as [old|] eqn:Ec; cbn in Ho.
    - split; [apply reconcile_frame|]. intros id. apply (reconcile_view o x); [exact Ho| |exact Hne|apply others_nonneg|
        intros; apply provider_others_nonneg|apply others_zero|rewrite E1; apply Hshare]. intros i. symmetry. apply Hdom.
    - split; [apply fold_touches, (add_first_touches (first_models l))|]. intros id.
      apply (add_all_view (first_models l)); [|apply others_nonneg|intros; apply provider_others_nonneg|].
      + intros i Hi. split; [by intros ->|by apply Hdom].
      + rewrite E1. eapply reg_view_ext; [| |apply Hshare]; [cbn; lia|]. intros q. cbn.
        rewrite (no_provider r c Hr Ec). by rewrite gain_empty, Z.add_0_r. }
  clearbody r3. apply (ok_set r _ c raw (first_models l) (ToLower provider) Hr Hraw Hne); try done;
    cbn; rewrite ?Hms; cbn; rewrite ?E2, ?E3, ?E4; done.
Qed.

(** ** The other operations *)

Lemma update_alike r id f :
  (∀ g, Count (f g) = Count g ∧ Providers (f g) = Providers g) →
  counts_alike (models r) (models (update_registration r id f)).
Proof.
  intros Hf. unfold update_registration. destruct (models r !! id) as [g|] eqn:Eg; [|apply alike_refl].
  intros i. cbn. destruct (decide (i = id)) as [->|Hne].
  - rewrite lookup_insert_eq, Eg. by destruct (Hf g) as [-> ->].
  - rewrite lookup_insert_ne by done. by destruct (models r !! i).
Qed.
Lemma update_frame r id f : ∃ ms, update_registration r id f = r <| models := ms |>.
Proof. unfold update_registration. case_match; [by eexists|]. exists (models r). by destruct r. Qed.
Lemma update_ok r id f :
  (∀ g, Count (f g) = Count g ∧ Providers (f g) = Providers g) → registry_ok r → registry_ok (update_registration r id f).
Proof.
  intros Hf Hr. destruct (update_frame r id f) as [ms E]. apply (ok_alike r); [done|by apply update_alike|by rewrite E..].
Qed.
Lemma invalidate_ok r : registry_ok r → registry_ok (invalidateAvailableModelsCacheLocked r).
Proof. intros Hr. by apply (ok_alike r); [|apply alike_refl|..]. Qed.

Lemma alike_trans ms ms' ms'' : counts_alike ms ms' → counts_alike ms' ms'' → counts_alike ms ms''.
Proof.
  intros H1 H2 i. specialize (H1 i). specialize (H2 i). destruct (ms !! i), (ms' !! i), (ms'' !! i); try done.
  destruct H1 as [-> ->], H2 as [-> ->]. done.
Qed.

Lemma project_step_alike c s now r b proj :
  let r' := (project_step c s now (r, b) proj).1 in
  counts_alike (models r) (models r') ∧ ∃ ms, r' = r <| models := ms |>.
Proof.
  cbn zeta. unfold project_step. assert (∃ ms, r = r <| models := ms |>) as Hrefl by (exists (models r); by destruct r).
  case_match; [split; [apply alike_refl|done]|]. destruct (models r !! TrimSpace (PR_ModelID proj)) as [g|] eqn:Eg; [|split; [apply alike_refl|done]].
  destruct (project_suspension c proj now g) as [g1 b1] eqn:E1. destruct (project_quota c proj now g1) as [g2 b2] eqn:E2.
  assert (Count g2 = Count g ∧ Providers g2 = Providers g) as [Hc Hp].
  { unfold project_suspension, project_quota in *. repeat case_match; simplify_eq; done. }
  cbn [fst]. split; [|by eexists]. intros i. rewrite models_set. destruct (decide (i = TrimSpace (PR_ModelID proj))) as [->|Hne].
  - by rewrite lookup_insert_eq, Eg.
  - rewrite lookup_insert_ne by done. by destruct (models r !! i).
Qed.

Lemma projections_alike c s now l : ∀ r b,
  let r' := (fold_left (project_step c s now) l (r, b)).1 in
  counts_alike (models r) (models r') ∧ ∃ ms, r' = r <| models := ms |>.
Proof.
  induction l as [|proj l IH]; intros r b; cbn [fold_left]; [split; [apply alike_refl|exists (models r); by destruct r]|].
  destruct (project_step_alike c s now r b proj) as [H1 [ms E]]. destruct (project_step c s now (r, b) proj) as [r1 b1]. cbn in H1, E.
  destruct (IH r1 b1) as [H2 [ms' E']]. split; [by eapply alike_trans|]. exists ms'. rewrite E', E. done.
Qed.

Lemma projections_ok r c e g l now : registry_ok r → registry_ok (ApplyClientModelProjections r c e g l now).2.
Proof.
  intros Hr. unfold ApplyClientModelProjections. cbv zeta. case_match; [done|].
  destruct (clientModels r !! TrimSpace c) as [[|i0 ids]|]; [done| |done]. do 3 (case_match; [done|]).
  set (r1 := r <| clientGenerations := _ |>).
  destruct (projections_alike (TrimSpace c) (registered_set (i0 :: ids)) now l r1 false) as [Ha [ms E]].
  destruct (fold_left _ l (r1, false)) as [r2 changed]. cbn in Ha, E. cbn [snd].
  assert (registry_ok r2) as Hr2 by (apply (ok_alike r); [done|exact Ha|by rewrite E..]).
  destruct changed; [by apply invalidate_ok|done].
Qed.

Lemma refresh_alike g p b : Count (refresh_provider_info g p b) = Count g ∧ Providers (refresh_provider_info g p b) = Providers g.
Proof. apply refresh_same. Qed.

Lemma infos_replaced r c infos id info :
  registry_ok r → clientModelInfos r !! c = Some infos → is_Some (infos !! id) →
  registry_ok (r <| clientModelInfos := <[c := <[id := info]> infos]> (clientModelInfos r) |>).
Proof.
  intros Hr Hc Hid. split; cbn; [apply Hr|apply Hr| |apply Hr].
  intros c'. destruct (decide (c' = c)) as [->|Hne]; [|rewrite lookup_insert_ne by done; apply (ro_infos r Hr)].
  rewrite lookup_insert_eq. pose proof (ro_infos r Hr c) as Hi. rewrite Hc in Hi.
  destruct (clientModels r !! c); [|done]. intros i. rewrite Hi, lookup_insert_is_Some. destruct (decide (id = i)) as [->|]; tauto.
Qed.
Lemma capability_ok c mutate r id : registry_ok r → registry_ok (capability_step c mutate r id).
Proof.
  intros Hr. unfold capability_step. destruct (clientModelInfos r !! c) as [infos|] eqn:Ec; cbn; [|done].
  destruct (infos !! id) as [info|] eqn:Ei; [|done]. cbv zeta.
  apply update_ok; [|apply (infos_replaced r c infos id); eauto].
  intros g. case_match; [done|]. match goal with |- context [refresh_provider_info ?g1 ?p ?b] => destruct (refresh_same g1 p b) as [-> ->] end. done.
Qed.
Lemma capabilities_ok visit r c e mutate : registry_ok r → registry_ok (ApplyClientModelCapabilities_in visit r c e mutate).2.
Proof.
  intros Hr. unfold ApplyClientModelCapabilities_in. destruct mutate as [mutate|]; [|done]. cbv zeta. repeat (case_match; [done|]).
  destruct (clientModelInfos r !! TrimSpace c); [|done]. case_match; [done|]. cbn [snd]. apply invalidate_ok.
  assert (∀ l r0, registry_ok r0 → registry_ok (fold_left (capability_step (TrimSpace c) mutate) l r0)) as Hl; [|by apply Hl].
  induction l as [|id l IH]; intros r0 Hr0; [done|]. cbn [fold_left]. by apply IH, capability_ok.
Qed.

Lemma cleanup_ok r now : registry_ok r → registry_ok (CleanupExpiredQuotas r now).
Proof.
  intros Hr. unfold CleanupExpiredQuotas. cbv zeta. set (cleaned := _ <$> models r).
  assert (registry_ok (r <| models := cleaned |>)) as Hc; [|case_match; [by apply invalidate_ok|done]].
  apply (ok_alike r); [done| |done..]. intros id. cbn. unfold cleaned. rewrite lookup_fmap. by destruct (models r !! id).
Qed.

Lemma set_quota_ok r c id now : registry_ok r → registry_ok (SetModelQuotaExceeded r c id now).
Proof. intros Hr. unfold SetModelQuotaExceeded. case_match; [|done]. by apply invalidate_ok, update_ok. Qed.
Lemma clear_quota_ok r c id : registry_ok r → registry_ok (ClearModelQuotaExceeded r c id).
Proof. intros Hr. unfold ClearModelQuotaExceeded. case_match; [|done]. by apply invalidate_ok, update_ok. Qed.
Lemma suspend_ok r c id reason now : registry_ok r → registry_ok (SuspendClientModel r c id reason now).
Proof. intros Hr. unfold SuspendClientModel. repeat (case_match; try done). by apply invalidate_ok, update_ok. Qed.
Lemma resume_ok r c id now : registry_ok r → registry_ok (ResumeClientModel r c id now).
Proof. intros Hr. unfold ResumeClientModel. repeat (case_match; try done). by apply invalidate_ok, update_ok. Qed.

(** ** The registry over time *)

Inductive registry_op :=
| OpRegister (o : orders) (clientID provider : string) (l : list (option ModelInfo))
| OpRegisterIf (o : orders) (clientID provider : string) (expected : Z) (l : list (option ModelInfo)) (publish : option bool)
| OpReplace (o : orders) (clientID provider : string) (expected : Z) (l : list (option ModelInfo))
| OpUnregister (clientID : string)
| OpUnregisterIf (clientID : string) (expected : Z) (publish : option bool)
| OpSetQuota (clientID modelID : string) | OpClearQuota (clientID modelID : string)
| OpSuspend (clientID modelID reason : string) | OpResume (clientID modelID : string)
| OpProject (clientID : string) (epoch gen : Z) (l : list ClientModelProjection)
| OpCapabilities (visit : list string) (clientID : string) (expected : Z) (mutate : option (string → ModelInfo → ModelInfo))
| OpCleanup
| OpList (visit : list string) (handlerType : string).

Section traces.
Context {tf : TimeFormat}.

Definition registry_step (r : ModelRegistry) (op : registry_op) (now : time) : ModelRegistry :=
  match op with
  | OpRegister o c p l => RegisterClient o r c p l now
  | OpRegisterIf o c p e l b => (RegisterClientIfEpochCurrent o r c p e l b now).2
  | OpReplace o c p e l => (ReplaceClientModels o r c p e l now).2
  | OpUnregister c => UnregisterClient r c now
  | OpUnregisterIf c e b => (UnregisterClientIfEpochCurrent r c e b now).2
  | OpSetQuota c m => SetModelQuotaExceeded r c m now
  | OpClearQuota c m => ClearModelQuotaExceeded r c m
  | OpSuspend c m reason => SuspendClientModel r c m reason now
  | OpResume c m => ResumeClientModel r c m now
  | OpProject c e g l => (ApplyClientModelProjections r c e g l now).2
  | OpCapabilities visit c e mutate => (ApplyClientModelCapabilities_in visit r c e mutate).2
  | OpCleanup => CleanupExpiredQuotas r now
  | OpList visit h => (GetAvailableModels visit r h now).2
  end.

(** The passes over maps visit exactly the keys of the map. *)
Definition visits_right (r : ModelRegistry) (op : registry_op) : Prop :=
  match op with
  | OpRegister o c _ l | OpRegisterIf o c _ _ l _ | OpReplace o c _ _ l =>
      orders_ok o (default [] (clientModels r !! c)) (raw_ids l)
  | OpCapabilities visit c _ _ => visit ≡ₚ (map_to_list (default ∅ (clientModelInfos r !! TrimSpace c))).*1
  | OpList visit _ => visit ≡ₚ (map_to_list (models r)).*1
  | _ => True
  end.

(** [reachable now r]: some history of operations, the last at [now], leads to [r]. *)
Inductive reachable : time → ModelRegistry → Prop :=
| reach_start now : 0 <= now → reachable now newRegistry
| reach_step now r op now' : reachable now r → now <= now' → visits_right r op → reachable now' (registry_step r op now').

Lemma registry_step_ok r op now : visits_right r op → registry_ok r → registry_ok (registry_step r op now).
Proof.
  intros Hv Hr. destruct op; cbn [registry_step visits_right] in *.
  - by apply register_ok.
  - unfold RegisterClientIfEpochCurrent. case_match; [done|by apply register_ok].
  - unfold ReplaceClientModels. case_match; [done|by apply register_ok].
  - by apply invalidate_ok, unregister_ok.
  - unfold UnregisterClientIfEpochCurrent. case_match; [done|by apply invalidate_ok, unregister_ok].
  - by apply set_quota_ok.
  - by apply clear_quota_ok.
  - by apply suspend_ok.
  - by apply resume_ok.
  - by apply projections_ok.
  - by apply capabilities_ok.
  - by apply cleanup_ok.
  - unfold GetAvailableModels. cbv zeta. destruct (buildAvailableModelsLocked visit r handlerType now) as [l e].
    repeat case_match; cbn; try done; (apply (ok_alike r); [done|apply alike_refl|done..]).
Qed.

Lemma reachable_ok now r : reachable now r → registry_ok r.
Proof. induction 1; [apply new_registry_ok|by apply registry_step_ok]. Qed.
End traces.
