(* ===== verification/RegistryExample.v ===== *)
(** * A small history of the model registry

    Two clients, one of which offers a model twice and changes its provider; the history
    on which the registry's theorems are evaluated. *)
From Stdlib Require Import ZArith Lia String Bool.
From stdpp Require Import prelude gmap strings.
From S2P Require Import Prelude GoStd Registry RegistryCounts RegistryInvariant.
Local Open Scope string_scope.
Local Open Scope list_scope.
Local Open Scope Z_scope.

(** The format of a creation time plays no part in the history. *)
Definition any_format : TimeFormat := {| FormatRFC3339 := λ _, "" |}.

Definition plain_model (id : string) : ModelInfo :=
  mkModel id "" false false "" 0 "" "" "" "" "" "" 0 0 [] 0 0 0 [] [] [] false false None None None false false.

Definition each (ids : list string) : orders := mkOrders ids [] [] ids.
Definition all_old (old new : list string) : orders := mkOrders new old old new.

Definition sample_ops : list registry_op :=
  [ OpRegister (each ["gpt"]) "a" "codex" [Some (plain_model "gpt"); Some (plain_model "gpt")];
    OpRegister (each ["gpt"]) "b" "openai" [Some (plain_model "gpt"); None];
    OpRegister (all_old ["gpt"] ["o3"; "gpt"]) "a" "openai" [Some (plain_model "gpt"); Some (plain_model "o3")];
    OpSetQuota "a" "gpt"; OpSuspend "b" "gpt" "disabled" ].
Definition sample : ModelRegistry := fold_left (λ r op, registry_step (tf := any_format) r op 10) sample_ops newRegistry.

Lemma singleton_order {A} (x : A) (l : list A) : (∀ y, y ∈ l ↔ y = x) → NoDup [x] ∧ ∀ y, y ∈ [x] ↔ y ∈ l.
Proof. intros Hl. split; [apply NoDup_singleton|]. intros y. by rewrite Hl, list_elem_of_singleton. Qed.
Lemma empty_order {A} : NoDup (@nil A) ∧ ∀ y : A, y ∈ [] ↔ y ∈ [].
Proof. split; [constructor|done]. Qed.

Lemma sample_reachable : reachable (tf := any_format) 10 sample.
Proof.
  unfold sample, sample_ops. cbn [fold_left].
  repeat (eapply (reach_step (tf := any_format) 10); [|lia|]); [by apply reach_start|..]; try exact I.
  - split; [apply (singleton_order "gpt" ["gpt"; "gpt"]); set_solver|exact empty_order|exact empty_order|].
    apply (singleton_order "gpt" ["gpt"; "gpt"]); set_solver.
  - split; try exact empty_order; apply (singleton_order "gpt" ["gpt"]); set_solver.
  - unfold visits_right. match goal with |- orders_ok _ ?old _ => replace old with ["gpt"; "gpt"] by (vm_compute; reflexivity) end.
    split; cbn [o_swap o_removed o_over o_added all_old].
    1,4: split; [apply (bool_decide_unpack _); vm_compute; exact I|intros y; change (raw_ids _) with ["gpt"; "o3"]; set_solver].
    all: apply (singleton_order "gpt" ["gpt"; "gpt"]); set_solver.
Qed.
