(* ===== verification/RegistryProofs.v ===== *)
(** * What the model registry promises

    Reference counts are exact along every history, and a cached listing is what a new
    one would be. *)
From Stdlib Require Import ZArith Lia String Bool.
From stdpp Require Import prelude gmap strings.
From S2P Require Import Prelude GoStd Registry RegistryCounts RegistryInvariant RegistryExample.
Local Open Scope string_scope.
Local Open Scope list_scope.
Local Open Scope Z_scope.

(** C10: Along every history a model is registered exactly while some client offers it;
    its count is the number of registrations of the model over all clients, and the
    count of a provider the number over the clients of that provider - whatever order
    the passes over maps take, with clients that offer a model twice and clients that
    change their provider and their models at once. *)
Theorem registry_counts `{TimeFormat} (now : time) (r : ModelRegistry) (Hr : reachable now r) (id : string) :
  match models r !! id with
  | Some g => Count g = total r id ∧ 0 < Count g ∧ ∀ p, default 0 (Providers g !! p) = provider_total r id p
  | None => total r id = 0 ∧ ∀ c l, clientModels r !! c = Some l → id ∉ l
  end.
Proof.
  apply reachable_ok in Hr. pose proof (ro_counts r Hr id) as Hv. destruct (models r !! id) as [g|]; cbn in Hv.
  - destruct Hv as (-> & ? & ? & _). done.
  - destruct Hv as [Ht _]. split; [done|]. intros c l Hl Hin%times_pos.
    pose proof (total_split r c id) as Hs. rewrite Hl in Hs. change (default [] (Some l)) with l in Hs.
    pose proof (others_nonneg r c id). lia.
Qed.

(** ** Listings *)

Definition active (now : time) (t : time) : bool := Before now (Add t modelQuotaExceededWindow).

(** Nothing that is active ends before the time found; none is found when nothing is active. *)
Lemma expiry_fold now (l : list (string * time)) : 0 ≤ now → ∀ acc, 0 ≤ acc →
  let r := fold_left (expiry_step now) l acc in
  0 ≤ r ∧ (r = 0 → acc = 0 ∧ ∀ e, e ∈ l → active now e.2 = false)
  ∧ (r ≠ 0 → (acc ≠ 0 → r ≤ acc) ∧ ∀ e, e ∈ l → active now e.2 = true → r ≤ e.2 + modelQuotaExceededWindow).
Proof.
  intros Hn. induction l as [|e l IH]; intros acc Ha; cbn [fold_left].
  { split_and!; [done|intros ->|]; (split; [done || lia|by intros ? ?%not_elem_of_nil]). }
  assert (0 ≤ expiry_step now acc e ∧ (expiry_step now acc e = 0 → acc = 0 ∧ active now e.2 = false)
    ∧ (expiry_step now acc e ≠ 0 → (acc ≠ 0 → expiry_step now acc e ≤ acc)
       ∧ (active now e.2 = true → expiry_step now acc e ≤ e.2 + modelQuotaExceededWindow))) as (H1 & H2 & H3).
  { unfold expiry_step, active, Before, Add, IsZero, zero_time.
    destruct (Z.ltb_spec now (e.2 + modelQuotaExceededWindow)), (Z.eqb_spec acc 0),
      (Z.ltb_spec (e.2 + modelQuotaExceededWindow) acc); cbn [andb orb]; split_and!; try lia; try done; try (split; [lia|done]); split; lia || done. }
  destruct (IH _ H1) as (H4 & H5 & H6). split_and!; [done| |].
  - intros E. destruct (H5 E) as [E1 Hl]. destruct (H2 E1) as [? ?]. split; [done|].
    intros e' [->|He]%elem_of_cons; [done|by apply Hl].
  - intros E. destruct (H6 E) as [Hle Hl]. split.
    + intros Hacc. assert (expiry_step now acc e ≠ 0) as Hne by (intros E1; destruct (H2 E1); lia).
      destruct (H3 Hne) as [H7 _]. specialize (Hle Hne). specialize (H7 Hacc). lia.
    + intros e' [->|He]%elem_of_cons Hact; [|by apply Hl].
      assert (expiry_step now acc e ≠ 0) as Hne by (intros E1; destruct (H2 E1); congruence).
      destruct (H3 Hne) as [_ H7]. specialize (Hle Hne). specialize (H7 Hact). lia.
Qed.

(** Until the time found, nothing changes. *)
Definition holds_until (now expiresAt later : time) : Prop := now ≤ later ∧ (expiresAt = 0 ∨ later < expiresAt).

Lemma active_stable now later l e :
  0 ≤ now → holds_until now (fold_left (expiry_step now) l zero_time) later → e ∈ l → active later e.2 = active now e.2.
Proof.
  intros Hn [Hle Hexp] He. destruct (expiry_fold now l Hn 0 ltac:(lia)) as (_ & H2 & H3). unfold zero_time in Hexp.
  destruct (active now e.2) eqn:Ea.
  - destruct Hexp as [E|Hlt]; [destruct (H2 E) as [_ Hl]; rewrite (Hl e He) in Ea; done|].
    destruct (decide (fold_left (expiry_step now) l 0 = 0)) as [E|E]; [destruct (H2 E) as [_ Hl]; rewrite (Hl e He) in Ea; done|].
    destruct (H3 E) as [_ Hl]. specialize (Hl e He Ea). unfold active, Before, Add. apply Z.ltb_lt. lia.
  - unfold active, Before, Add in *. apply Z.ltb_ge in Ea. apply Z.ltb_ge. lia.
Qed.

Lemma count_if_ext {A} (f f' : A → bool) l : (∀ x, x ∈ l → f x = f' x) → count_if f l = count_if f' l.
Proof.
  intros Hf. unfold count_if. do 2 f_equal. induction l as [|x l IH]; [done|]. rewrite !filter_cons.
  rewrite (Hf x) by left. rewrite IH by (intros; apply Hf; by right). done.
Qed.

Lemma availability_stable g now later :
  0 ≤ now → holds_until now (modelRegistrationAvailability g now).2 later →
  (modelRegistrationAvailability g later).1 = (modelRegistrationAvailability g now).1.
Proof.
  intros Hn Hh. cbn [modelRegistrationAvailability snd] in Hh. unfold modelRegistrationAvailability. cbn [fst].
  assert (∀ e, e ∈ map_to_list (QuotaExceededClients g) → active later e.2 = active now e.2) as Hs.
  { intros e. by apply active_stable. }
  rewrite (count_if_ext (λ e : string * time, Before later (Add e.2 modelQuotaExceededWindow))
    (λ e : string * time, Before now (Add e.2 modelQuotaExceededWindow)) _ Hs).
  rewrite (count_if_ext (λ e : string * string, in_quota_window g later e.1) (λ e, in_quota_window g now e.1)); [done|].
  intros [c reason] _. unfold in_quota_window. cbn. destruct (QuotaExceededClients g !! c) as [t|] eqn:E; [|done].
  apply (Hs (c, t)). by apply elem_of_map_to_list.
Qed.

Section listings.
Context {tf : TimeFormat}.

(** A pass over registrations lists the available ones, and finds a time before which
    that list holds. *)
Lemma build_fold h now (gs : list ModelRegistration) : 0 ≤ now → ∀ (l : list listing) (e : time), 0 ≤ e →
  let r := fold_left (build_step h now) gs (l, e) in
  r.1 = l ++ ((λ g, convertModelToMap (Info g) h) <$> filter (λ g, (modelRegistrationAvailability g now).1 = true) gs)
  ∧ 0 ≤ r.2
  ∧ ∀ later, holds_until now r.2 later → holds_until now e later ∧ ∀ g, g ∈ gs → holds_until now (modelRegistrationAvailability g now).2 later.
Proof.
  intros Hn. induction gs as [|g gs IH]; intros l e He; cbn [fold_left].
  { cbn. rewrite app_nil_r. split_and!; [done..|]. intros later Hl. split; [done|]. by intros ? ?%not_elem_of_nil. }
  cbv zeta. destruct (build_step h now (l, e) g) as [l1 e1] eqn:E. unfold build_step in E. rewrite filter_cons.
  destruct (modelRegistrationAvailability g now) as [av eg] eqn:Eg.
  assert (0 ≤ eg) as Heg.
  { assert (eg = (modelRegistrationAvailability g now).2) as -> by by rewrite Eg. unfold modelRegistrationAvailability. cbn [snd].
    apply expiry_fold; [done|]. unfold zero_time. lia. }
  assert (l1 = l ++ (if av then [convertModelToMap (Info g) h] else [])) as El by (destruct av; simplify_eq; by rewrite ?app_nil_r).
  assert (0 ≤ e1 ∧ ∀ later, holds_until now e1 later → holds_until now e later ∧ holds_until now eg later) as [He1 Hboth].
  { assert (e1 = if negb (IsZero eg) && (IsZero e || Before eg e) then eg else e) as -> by congruence.
    unfold IsZero, Before, zero_time, holds_until.
    destruct (Z.eqb_spec eg 0), (Z.eqb_spec e 0), (Z.ltb_spec eg e); cbn; (split; [lia|]); intros later [? ?]; lia. }
  pose proof (IH l1 e1 He1) as HI. cbv zeta in HI. destruct HI as (H1 & H2 & H3). split_and!; [|done|].
  - etrans; [exact H1|]. rewrite El. cbn [fst]. rewrite <-app_assoc. f_equal. destruct av; [by rewrite decide_True|by rewrite decide_False].
  - intros later Hl. destruct (H3 later Hl) as [Hl1 Hgs]. destruct (Hboth later Hl1) as [He' Hg'].
    split; [done|]. intros g' [->|Hg]%elem_of_cons; [by rewrite Eg|by apply Hgs].
Qed.

Lemma build_perm visit visit' r h now :
  0 ≤ now → visit ≡ₚ visit' → (buildAvailableModelsLocked visit r h now).1 ≡ₚ (buildAvailableModelsLocked visit' r h now).1.
Proof.
  intros Hn Hv. unfold buildAvailableModelsLocked.
  rewrite (proj1 (build_fold h now _ Hn [] zero_time ltac:(unfold zero_time; lia))).
  rewrite (proj1 (build_fold h now _ Hn [] zero_time ltac:(unfold zero_time; lia))). cbn [app]. by rewrite Hv.
Qed.

Lemma build_stable visit r h now later :
  0 ≤ now → holds_until now (buildAvailableModelsLocked visit r h now).2 later →
  (buildAvailableModelsLocked visit r h later).1 = (buildAvailableModelsLocked visit r h now).1.
Proof.
  intros Hn Hh. unfold buildAvailableModelsLocked in *. set (gs := omap _ visit) in *.
  assert (0 ≤ zero_time) as Hz by (unfold zero_time; lia).
  destruct (build_fold h now gs Hn [] zero_time Hz) as (H1 & _ & H3). destruct (H3 later Hh) as [[Hle _] Hgs].
  destruct (build_fold h later gs ltac:(lia) [] zero_time Hz) as (H1' & _). rewrite H1, H1'. do 2 f_equal.
  assert (∀ g, g ∈ gs → (modelRegistrationAvailability g later).1 = (modelRegistrationAvailability g now).1) as Heq.
  { intros g Hg. apply availability_stable; [done|by apply Hgs]. }
  clear -Heq. induction gs as [|g gs IH]; [done|]. rewrite !filter_cons, (Heq g) by left.
  rewrite IH by (intros; apply Heq; by right). done.
Qed.

(** *** A cached listing is good for as long as it is kept *)

Definition cache_ok (now : time) (r : ModelRegistry) : Prop :=
  ∀ h l e later visit, availableModelsCache r !! h = Some (l, e) → holds_until now e later →
    visit ≡ₚ (map_to_list (models r)).*1 → l ≡ₚ (buildAvailableModelsLocked visit r h later).1.

Lemma cache_ok_later now now' r : now ≤ now' → cache_ok now r → cache_ok now' r.
Proof. intros Hle Hc h l e later visit Hl [? ?]. apply (Hc h l e); [done|]. split; [lia|done]. Qed.
Lemma cache_ok_empty now r : availableModelsCache r = ∅ → cache_ok now r.
Proof. intros E h l e later visit. by rewrite E, lookup_empty. Qed.
Lemma cache_ok_same now r r' :
  models r' = models r → availableModelsCache r' = availableModelsCache r → cache_ok now r → cache_ok now r'.
Proof.
  intros E1 E2 Hc h l e later visit. rewrite E1, E2. intros Hl Hh Hv. unfold buildAvailableModelsLocked. rewrite E1.
  exact (Hc h l e later visit Hl Hh Hv).
Qed.

Lemma project_unchanged c st now r b proj r' :
  project_step c st now (r, b) proj = (r', false) → b = false ∧ models r' = models r.
Proof.
  unfold project_step. case_match; [by intros [= -> ->]|].
  destruct (models r !! TrimSpace (PR_ModelID proj)) as [g|] eqn:Eg; [|by intros [= -> ->]].
  destruct (project_suspension c proj now g) as [g1 b1] eqn:E1. destruct (project_quota c proj now g1) as [g2 b2] eqn:E2.
  intros [= <- Hb]. apply orb_false_iff in Hb as [Hb ->]. apply orb_false_iff in Hb as [-> ->]. split; [done|].
  cbn. assert (g2 = g) as ->; [|by apply insert_id].
  assert (g1 = g) as -> by (unfold project_suspension in E1; repeat case_match; by simplify_eq).
  unfold project_quota in E2. repeat case_match; by simplify_eq.
Qed.
Lemma projections_unchanged c st now l : ∀ r b r',
  fold_left (project_step c st now) l (r, b) = (r', false) → b = false ∧ models r' = models r.
Proof.
  induction l as [|proj l IH]; intros r b r'; cbn [fold_left]; [by intros [= -> ->]|].
  destruct (project_step c st now (r, b) proj) as [r1 b1] eqn:E. intros [-> E1]%IH.
  apply project_unchanged in E as [-> E]. split; [done|congruence].
Qed.

Lemma step_cache_ok r op now :
  0 ≤ now → visits_right r op → cache_ok now r → cache_ok now (registry_step r op now).
Proof.
  intros Hn Hv Hc. destruct op; cbn [registry_step visits_right] in *.
  - apply cache_ok_empty. unfold RegisterClient, registerClientLocked. cbv zeta. by case_match.
  - unfold RegisterClientIfEpochCurrent. case_match; [done|]. apply cache_ok_empty. unfold registerClientLocked. cbv zeta. by case_match.
  - unfold ReplaceClientModels. case_match; [done|]. apply cache_ok_empty. cbn. unfold registerClientLocked. cbv zeta. by case_match.
  - by apply cache_ok_empty.
  - unfold UnregisterClientIfEpochCurrent. case_match; [done|]. by apply cache_ok_empty.
  - unfold SetModelQuotaExceeded. case_match; [by apply cache_ok_empty|done].
  - unfold ClearModelQuotaExceeded. case_match; [by apply cache_ok_empty|done].
  - unfold SuspendClientModel. repeat (case_match; try done); by apply cache_ok_empty.
  - unfold ResumeClientModel. repeat (case_match; try done); by apply cache_ok_empty.
  - unfold ApplyClientModelProjections. cbv zeta. case_match; [done|].
    destruct (clientModels r !! TrimSpace clientID) as [[|i0 ids]|]; [done| |done]. do 3 (case_match; [done|]).
    set (r1 := r <| clientGenerations := _ |>). destruct (fold_left _ l (r1, false)) as [r2 changed] eqn:E. cbn [snd].
    destruct changed; [by apply cache_ok_empty|]. pose proof (projections_unchanged _ _ _ _ _ _ _ E) as [_ Em].
    destruct (projections_alike (TrimSpace clientID) (registered_set (i0 :: ids)) now l r1 false) as [_ [ms Er]].
    rewrite E in Er. cbn in Er. apply (cache_ok_same now r); [exact Em|by rewrite Er|done].
  - unfold ApplyClientModelCapabilities_in. repeat (case_match; try done); by apply cache_ok_empty.
  - unfold CleanupExpiredQuotas. cbv zeta. case_bool_decide as He; [by apply cache_ok_empty|].
    apply (cache_ok_same now r); [|done|done]. rewrite models_set. apply map_eq. intros id. rewrite lookup_fmap.
    destruct (models r !! id) as [g|] eqn:Eg; [|done]. cbn. f_equal. destruct g as [a b' c d q p su]. cbn. f_equal.
    apply map_filter_id. intros cl t Ht. destruct (quota_over now t) eqn:Eq; [|done]. destruct He.
    exists id, (mkRegistration a b' c d q p su). split; [done|]. by exists cl, t.
  - unfold GetAvailableModels. cbv zeta. destruct (buildAvailableModelsLocked visit r handlerType now) as [l e] eqn:Eb.
    assert (cache_ok now (r <| availableModelsCache := <[handlerType := (l, e)]> (availableModelsCache r) |>)) as Hnew.
    { intros h l' e' later visit' Hl Hh Hv'. cbn in Hl. apply lookup_insert_Some in Hl as [[<- [= <- <-]]|[_ Hl]]; [|by apply (Hc h l' e')].
      assert (l = (buildAvailableModelsLocked visit r handlerType now).1) as -> by by rewrite Eb.
      assert (e = (buildAvailableModelsLocked visit r handlerType now).2) as E2 by by rewrite Eb. rewrite E2 in Hh.
      rewrite <-(build_stable visit r handlerType now later) by done. destruct Hh as [Hle _].
      change (buildAvailableModelsLocked visit' _ handlerType later) with (buildAvailableModelsLocked visit' r handlerType later).
      apply build_perm; [lia|by rewrite Hv']. }
    repeat case_match; done.
Qed.

Lemma reachable_cache now r : reachable now r → 0 ≤ now ∧ cache_ok now r.
Proof.
  induction 1 as [now Hn|now r op now' _ [Hn Hc] Hle Hv]; [split; [done|by apply cache_ok_empty]|].
  split; [lia|]. apply step_cache_ok; [lia|done|by eapply cache_ok_later].
Qed.

(** C11: The listing of a handler is always what a pass over the registrations would list
    now, up to the order of the map: a cached listing is never stale, because whatever
    changes availability drops it, and it expires with the first quota window it counts. *)
Theorem listing_cache_coherent (now later : time) (r : ModelRegistry) (h : string) (visit visit' : list string)
    (Hr : reachable now r) (Hle : now ≤ later) (Hv : visit ≡ₚ (map_to_list (models r)).*1)
    (Hv' : visit' ≡ₚ (map_to_list (models r)).*1) :
  (GetAvailableModels visit r h later).1 ≡ₚ (buildAvailableModelsLocked visit' r h later).1.
Proof.
  apply reachable_cache in Hr as [Hn Hc]. unfold GetAvailableModels. cbv zeta.
  assert ((buildAvailableModelsLocked visit r h later).1 ≡ₚ (buildAvailableModelsLocked visit' r h later).1) as Hb.
  { apply build_perm; [lia|by rewrite Hv, Hv']. }
  destruct (buildAvailableModelsLocked visit r h later) as [l e]. cbn [fst] in Hb.
  destruct (availableModelsCache r !! h) as [[l' e']|] eqn:El; [|done].
  destruct (IsZero e' || Before later e') eqn:Ex; [|done]. cbn [fst]. apply (Hc h l' e'); [done| |done]. split; [done|].
  unfold IsZero, Before, zero_time in Ex. apply orb_true_iff in Ex as [?%Z.eqb_eq|?%Z.ltb_lt]; [by left|by right].
Qed.
End listings.

(** ** Instances *)

Lemma registry_counts_witness :
  (total sample "gpt" = 2 ∧ provider_total sample "gpt" "openai" = 2 ∧ provider_total sample "gpt" "codex" = 0)
  ∧ ∃ g, models sample !! "gpt" = Some g
    ∧ Count g = total sample "gpt" ∧ 0 < Count g ∧ ∀ p, default 0 (Providers g !! p) = provider_total sample "gpt" p.
Proof.
  split; [vm_compute; done|]. pose proof (registry_counts (H := any_format) 10 sample sample_reachable "gpt") as Hc.
  destruct (models sample !! "gpt") as [g|] eqn:Hg; [exact (ex_intro _ g (conj eq_refl Hc))|vm_compute in Hg; discriminate].
Defined.

Lemma listing_cache_coherent_witness :
  (GetAvailableModels (tf := any_format) ["gpt"; "o3"] sample "openai" 20).1
  ≡ₚ (buildAvailableModelsLocked (tf := any_format) ["o3"; "gpt"] sample "openai" 20).1.
Proof.
  apply (listing_cache_coherent (tf := any_format) 10 20 sample "openai" ["gpt"; "o3"] ["o3"; "gpt"] sample_reachable); [lia|..].
  - apply (bool_decide_unpack _). vm_compute. exact I.
  - apply (bool_decide_unpack _). vm_compute. exact I.
Defined.
