(* ===== verification/RegistryUse.v ===== *)
(** * What the users of the model registry may rely on

    The epochs that fence late registrations, projections that are read back, and who
    counts as available. *)
From Stdlib Require Import ZArith Lia String Bool.
From stdpp Require Import prelude gmap strings.
From S2P Require Import Prelude GoStd Registry RegistryCounts RegistryInvariant RegistryExample.
Local Open Scope string_scope.
Local Open Scope list_scope.
Local Open Scope Z_scope.

(** ** Epochs *)

Definition next_epoch (r : ModelRegistry) (c : string) : gmap string Z :=
  <[c := wrapu64 (epoch_of (clientEpochs r) c + 1)]> (clientEpochs r).

Lemma unregister_epochs r c now : clientEpochs (unregisterClientInternal r c now) = next_epoch r c.
Proof.
  unfold unregisterClientInternal. cbv zeta. destruct (clientModels r !! c) as [ids|]; [|done].
  set (r1 := r <| clientEpochs := _ |> <| clientGenerations := _ |> <| registrationEpoch := _ |>).
  destruct (fold_touches (unregister_model c (clientProviders r !! c) now) ids (λ r id, unregister_touches _ _ _ r id) r1) as [ms E].
  cbn. by rewrite E.
Qed.
Lemma register_epochs o r c p l b now : clientEpochs (registerClientLocked o r c p l b now) = next_epoch r c.
Proof.
  unfold registerClientLocked. cbv zeta. destruct (raw_ids l) as [|i0 raw0]; [apply (unregister_epochs r c now)|].
  set (x := mkRecon _ _ _ _ _ _ _ _). set (r1 := r <| clientEpochs := _ |> <| registrationEpoch := _ |>).
  set (r2 := if negb b || _ || _ then _ else r1). assert (clientEpochs r2 = next_epoch r c) as E2 by (unfold r2; by case_match).
  set (r3 := match clientModels r !! c with Some _ => _ | None => _ end).
  assert (∃ ms, r3 = r2 <| models := ms |>) as [ms E3].
  { unfold r3. case_match; [apply reconcile_frame|apply fold_touches, (add_first_touches (first_models l))]. }
  cbn. by rewrite E3.
Qed.

Lemma next_epoch_new r c : epoch_of (next_epoch r c) c ≠ epoch_of (clientEpochs r) c.
Proof.
  unfold next_epoch, epoch_of. rewrite lookup_insert_eq. cbn. generalize (default 0 (clientEpochs r !! c)). intros e He.
  unfold wrapu64 in He. pose proof (Z.mod_pos_bound (e + 1) (2 ^ 64) ltac:(lia)).
  pose proof (Z.div_mod (e + 1) (2 ^ 64) ltac:(lia)). nia.
Qed.

(** An operation that goes through for a client whose epoch is [e]. *)
Definition succeeds (c : string) (e : Z) (op : registry_op) : Prop :=
  match op with
  | OpRegister _ c' _ _ | OpUnregister c' => c' = c
  | OpRegisterIf _ c' _ e' _ publish => c' = c ∧ e' = e ∧ publish = Some true
  | OpUnregisterIf c' e' publish => c' = c ∧ e' = e ∧ publish = Some true
  | OpReplace _ c' _ e' _ => c' = c ∧ e' = e
  | _ => False
  end.
(** An operation that was decided on when the client's epoch was [e]. *)
Definition decided_at (c : string) (e : Z) (op : registry_op) : Prop :=
  match op with
  | OpRegisterIf _ c' _ e' _ _ | OpUnregisterIf c' e' _ | OpReplace _ c' _ e' _ => c' = c ∧ e' = e
  | OpProject c' e' _ _ | OpCapabilities _ c' e' _ => TrimSpace c' = c ∧ e' = e
  | _ => False
  end.

Section fence.
Context {tf : TimeFormat}.

Lemma succeeds_epochs r op c now :
  succeeds c (ClientRegistrationEpoch r c) op → clientEpochs (registry_step r op now) = next_epoch r c.
Proof.
  unfold ClientRegistrationEpoch. destruct op; cbn [succeeds registry_step]; try done.
  - intros ->. apply register_epochs.
  - intros (-> & -> & ->). unfold RegisterClientIfEpochCurrent. rewrite Z.eqb_refl. cbn. apply register_epochs.
  - intros (-> & ->). unfold ReplaceClientModels. rewrite Z.eqb_refl. cbn. apply register_epochs.
  - intros ->. apply unregister_epochs.
  - intros (-> & -> & ->). unfold UnregisterClientIfEpochCurrent. rewrite Z.eqb_refl. cbn. apply unregister_epochs.
Qed.

(** What neither registers nor removes a client. *)
Definition upkeep (op : registry_op) : Prop :=
  match op with
  | OpRegister _ _ _ _ | OpRegisterIf _ _ _ _ _ _ | OpReplace _ _ _ _ _ | OpUnregister _ | OpUnregisterIf _ _ _ => False
  | _ => True
  end.
Lemma fold_epochs {A} (f : ModelRegistry → A → ModelRegistry) l :
  (∀ r x, clientEpochs (f r x) = clientEpochs r) → ∀ r, clientEpochs (fold_left f l r) = clientEpochs r.
Proof. intros Hf. induction l as [|x l IH]; intros r; [done|]. cbn. by rewrite IH, Hf. Qed.
Lemma upkeep_epochs r op now : upkeep op → clientEpochs (registry_step r op now) = clientEpochs r.
Proof.
  assert (∀ r m f, clientEpochs (update_registration r m f) = clientEpochs r) as Hup.
  { intros r0 m f. unfold update_registration. by destruct (models r0 !! m). }
  destruct op; cbn [upkeep registry_step]; try done; intros _.
  - unfold SetModelQuotaExceeded. destruct (_ !! _); [apply Hup|done].
  - unfold ClearModelQuotaExceeded. destruct (_ !! _); [apply Hup|done].
  - unfold SuspendClientModel. destruct (_ || _); [done|]. destruct (_ !! _) as [g|]; [|done]. destruct (_ !! _); [done|apply Hup].
  - unfold ResumeClientModel. destruct (_ || _); [done|]. destruct (_ !! _) as [g|]; [|done]. destruct (_ !! _); [apply Hup|done].
  - unfold ApplyClientModelProjections. cbv zeta. case_match; [done|]. destruct (_ !! _) as [[|i ids]|]; [done| |done].
    destruct (negb _); [done|]. destruct (_ <? _); [done|]. destruct (negb _); [done|].
    assert (∀ l acc c set, clientEpochs (fold_left (project_step c set now) l acc).1 = clientEpochs acc.1) as Hfold.
    { clear. intros l. induction l as [|x l IH]; intros acc c set; [done|]. cbn [fold_left]. rewrite IH. destruct acc as [r0 b].
      unfold project_step. destruct (_ || _); [done|]. destruct (models r0 !! _); [|done].
      destruct (project_suspension _ _ _ _) as [g1 c1], (project_quota _ _ _ _) as [g2 c2]. done. }
    specialize (Hfold l (r <| clientGenerations := <[TrimSpace clientID := gen]> (clientGenerations r) |>, false) (TrimSpace clientID) (registered_set (i :: ids))).
    destruct (fold_left _ _ _) as [r0 []]; exact Hfold.
  - unfold ApplyClientModelCapabilities_in. destruct mutate as [mutate|]; [|done]. cbv zeta. case_match; [done|].
    destruct (negb _); [done|]. destruct (_ !! _); [|done]. case_bool_decide; [done|].
    apply (fold_epochs (capability_step (TrimSpace clientID) mutate)). intros r0 x. unfold capability_step.
    destruct (_ ≫= _); [|done]. by rewrite Hup.
  - unfold CleanupExpiredQuotas. cbv zeta. by case_bool_decide.
  - unfold GetAvailableModels. cbv zeta. destruct (buildAvailableModelsLocked _ _ _ _) as [x y].
    destruct (availableModelsCache r !! handlerType) as [[]|]; [|done]. by case_match.
Qed.

(** C12: A registration, replacement or removal of a client that is made moves the client
    to a new epoch and leaves the epochs of all other clients alone; every change decided on
    at the old epoch that comes later - a registration, a removal, a replacement, a
    projection or a change of capabilities - is refused and changes nothing.  Nothing else
    moves an epoch: projections and changes of capabilities are fenced by registrations, not
    by each other. *)
Theorem registration_fence (r : ModelRegistry) (op1 op2 : registry_op) (c : string) (now later : time)
    (H1 : succeeds c (ClientRegistrationEpoch r c) op1) (H2 : decided_at c (ClientRegistrationEpoch r c) op2) :
  registry_step (registry_step r op1 now) op2 later = registry_step r op1 now
  ∧ ClientRegistrationEpoch (registry_step r op1 now) c ≠ ClientRegistrationEpoch r c
  ∧ (∀ c', c' ≠ c → ClientRegistrationEpoch (registry_step r op1 now) c' = ClientRegistrationEpoch r c')
  ∧ ∀ r' op when c', upkeep op → ClientRegistrationEpoch (registry_step r' op when) c' = ClientRegistrationEpoch r' c'.
Proof.
  assert (∀ r' op when c', upkeep op → ClientRegistrationEpoch (registry_step r' op when) c' = ClientRegistrationEpoch r' c') as Hup.
  { intros. unfold ClientRegistrationEpoch. by rewrite upkeep_epochs. }
  pose proof (succeeds_epochs r op1 c now H1) as E. pose proof (next_epoch_new r c) as Hne.
  set (r1 := registry_step r op1 now) in *. clearbody r1. unfold ClientRegistrationEpoch in *. rewrite E. split_and!; [|done| |exact Hup].
  - destruct op2; cbn [decided_at registry_step] in *; try done; destruct H2 as [<- ->].
    + unfold RegisterClientIfEpochCurrent. by rewrite E, (proj2 (Z.eqb_neq _ _) Hne).
    + unfold ReplaceClientModels. by rewrite E, (proj2 (Z.eqb_neq _ _) Hne).
    + unfold UnregisterClientIfEpochCurrent. by rewrite E, (proj2 (Z.eqb_neq _ _) Hne).
    + unfold ApplyClientModelProjections. cbv zeta. case_match; [done|]. rewrite E.
      rewrite (proj2 (Z.eqb_neq _ _) (not_eq_sym Hne)). by destruct (clientModels r1 !! _) as [[|]|].
    + unfold ApplyClientModelCapabilities_in. destruct mutate; [|done]. cbv zeta. case_match; [done|].
      by rewrite E, (proj2 (Z.eqb_neq _ _) Hne).
  - intros c' Hc. unfold next_epoch, epoch_of. by rewrite lookup_insert_ne.
Qed.
End fence.

(** ** Who is available *)

Definition clients_where {V} (f : string * V → bool) (m : gmap string V) : gset string :=
  list_to_set ((filter (λ e, f e = true) (map_to_list m)).*1).
Lemma elem_of_clients {V} f (m : gmap string V) c : c ∈ clients_where f m ↔ ∃ v, m !! c = Some v ∧ f (c, v) = true.
Proof.
  unfold clients_where. rewrite elem_of_list_to_set, list_elem_of_fmap. split.
  - intros ([c' v] & -> & [Hf Hm]%list_elem_of_filter). exists v. split; [by apply elem_of_map_to_list|done].
  - intros (v & Hm & Hf). exists (c, v). split; [done|]. apply list_elem_of_filter. split; [done|by apply elem_of_map_to_list].
Qed.
Lemma count_if_size {V} f (m : gmap string V) : count_if f (map_to_list m) = Z.of_nat (size (clients_where f m)).
Proof.
  unfold count_if, clients_where. f_equal. rewrite size_list_to_set; [by rewrite length_fmap|].
  eapply sublist_NoDup; [apply (NoDup_fst_map_to_list m)|]. apply fmap_sublist, sublist_filter.
Qed.

(** The clients that cannot serve a model now: out of quota for less than the window, or suspended. *)
Definition limited_clients (g : ModelRegistration) (now : time) : gset string :=
  clients_where (λ e, Before now (Add e.2 modelQuotaExceededWindow)) (QuotaExceededClients g).
Definition suspended_clients (g : ModelRegistration) : gset string := dom (SuspendedClients g).

Lemma elem_of_suspended g c : c ∈ suspended_clients g ↔ is_Some (SuspendedClients g !! c).
Proof. apply elem_of_dom. Qed.

Lemma window_sub now t : (Sub now t <? modelQuotaExceededWindow) = Before now (Add t modelQuotaExceededWindow).
Proof.
  unfold Sub, Before, Add, modelQuotaExceededWindow, Minute, Second, MinInt64, MaxInt64. cbv zeta.
  apply Bool.eq_iff_eq_true. rewrite !Z.ltb_lt.
  destruct (_ <? _) eqn:E1; [apply Z.ltb_lt in E1; lia|]. destruct (_ <? now - t) eqn:E2; [apply Z.ltb_lt in E2|]; lia.
Qed.

Lemma elem_of_limited g now c : c ∈ limited_clients g now ↔ in_quota_window g now c = true.
Proof.
  unfold limited_clients, in_quota_window. rewrite elem_of_clients. destruct (QuotaExceededClients g !! c) as [t|]; [|naive_solver].
  split; [by intros (? & [= ->] & ?)|eauto].
Qed.

Lemma suspended_where (f : string → string → bool) g (X : gset string) :
  (∀ c, c ∈ suspended_clients g → (∃ v, SuspendedClients g !! c = Some v ∧ f c v = true) ↔ c ∈ X) → X ⊆ suspended_clients g →
  count_if (λ e : string * string, f e.1 e.2) (map_to_list (SuspendedClients g)) = Z.of_nat (size X).
Proof.
  intros Hf HX. rewrite count_if_size. do 2 f_equal. apply set_eq. intros c. rewrite elem_of_clients. cbn. split.
  - intros (v & Hm & Hv). apply Hf; [|eauto]. unfold suspended_clients. apply elem_of_dom. eauto.
  - intros Hc. by apply Hf; [apply HX|].
Qed.

Lemma union_sizes (X Y : gset string) : Z.of_nat (size (X ∪ Y)) = Z.of_nat (size X) + Z.of_nat (size (Y ∖ X)).
Proof. rewrite size_union_alt, Nat2Z.inj_add. done. Qed.

Definition quota_suspended (g : ModelRegistration) : gset string :=
  clients_where (λ e, isQuotaSuspension e.2) (SuspendedClients g).

(** Sizes of sets of clients, and what they say. *)
Lemma size_zero (X : gset string) : Z.of_nat (size X) = 0 ↔ X = ∅.
Proof. rewrite <-leibniz_equiv_iff, <-size_empty_iff. lia. Qed.
Lemma quota_suspended_subset g : quota_suspended g ⊆ suspended_clients g.
Proof. intros c (v & Hv & _)%elem_of_clients. apply elem_of_dom. eauto. Qed.
Lemma split_sizes (X Y : gset string) : Z.of_nat (size X) = Z.of_nat (size (X ∩ Y)) + Z.of_nat (size (X ∖ Y)).
Proof.
  rewrite <-Nat2Z.inj_add, <-size_union by set_solver. do 2 f_equal. apply set_eq. intros c.
  rewrite elem_of_union, elem_of_intersection, elem_of_difference. destruct (decide (c ∈ Y)); tauto.
Qed.

Lemma available_iff g now :
  let quota := map_to_list (QuotaExceededClients g) in
  let suspended := map_to_list (SuspendedClients g) in
  let away := limited_clients g now ∪ suspended_clients g in
  count_if (λ e : string * time, Before now (Add e.2 modelQuotaExceededWindow)) quota = Z.of_nat (size (limited_clients g now)) →
  count_if (λ e : string * string, in_quota_window g now e.1) suspended = Z.of_nat (size (suspended_clients g ∩ limited_clients g now)) →
  count_if (λ e : string * string, isQuotaSuspension e.2) suspended = Z.of_nat (size (quota_suspended g)) →
  count_if (λ e : string * string, negb (isQuotaSuspension e.2)) suspended = Z.of_nat (size (suspended_clients g ∖ quota_suspended g)) →
  (modelRegistrationAvailability g now).1 = true ↔
    Z.of_nat (size away) < Count g ∨ 0 < Count g ∧ away ≠ ∅ ∧ ∀ c, c ∈ suspended_clients g → c ∈ quota_suspended g.
Proof.
  intros quota suspended away Hq Hb Hc Ho. unfold modelRegistrationAvailability. cbv zeta. cbn [fst].
  fold quota suspended. rewrite Hq, Hb, Hc, Ho.
  pose proof (union_sizes (limited_clients g now) (suspended_clients g)) as Hu. fold away in Hu.
  pose proof (split_sizes (suspended_clients g) (limited_clients g now)) as Hs1.
  pose proof (split_sizes (suspended_clients g) (quota_suspended g)) as Hs2.
  assert (suspended_clients g ∩ quota_suspended g = quota_suspended g) as E.
  { apply set_eq. intros c. rewrite elem_of_intersection. pose proof (quota_suspended_subset g c). tauto. }
  rewrite E in Hs2.
  set (eff := Count g - _ - _ - _ + _). assert (eff = Count g - Z.of_nat (size away)) as -> by (subst eff; lia).
  rewrite orb_true_iff, !andb_true_iff, orb_true_iff, Z.eqb_eq, size_zero, !Z.ltb_lt.
  assert (suspended_clients g ∖ quota_suspended g = ∅ ↔ ∀ c, c ∈ suspended_clients g → c ∈ quota_suspended g) as Hdiff.
  { split.
    - intros Hd c Hin. destruct (decide (c ∈ quota_suspended g)) as [|Hn]; [done|].
      destruct (not_elem_of_empty (C := gset string) c). rewrite <-Hd. by apply elem_of_difference.
    - intros Hall. apply set_eq. intros c. rewrite elem_of_difference. split; [|by intros ?%not_elem_of_empty].
      intros [Hin []]. by apply Hall. }
  rewrite Hdiff.
  assert ((∀ c, c ∈ suspended_clients g → c ∈ quota_suspended g) →
    (0 < Z.of_nat (size (limited_clients g now)) ∨ 0 < Z.of_nat (size (quota_suspended g)) ↔ away ≠ ∅)) as Haway.
  { intros Hall%Hdiff. rewrite <-size_zero, Hu. pose proof (proj2 (size_zero _) Hall) as H0.
    pose proof (union_sizes (suspended_clients g) (limited_clients g now)).
    pose proof (split_sizes (limited_clients g now) (suspended_clients g)) as H3.
    rewrite (intersection_comm_L (limited_clients g now)) in H3. lia. }
  set (all := ∀ c, c ∈ suspended_clients g → c ∈ quota_suspended g) in *. clearbody all. clear - Haway.
  destruct (Z.ltb_spec (Count g - Z.of_nat (size away)) 0); (split; [intros [?|?]|intros [?|?]]); try (right; tauto); left; lia.
Qed.

(** The clients left for a model are its registrations less the clients that are out
    of quota or suspended, a client that is both counted once.  A model is listed while
    some client is left, or while the only thing that keeps all of them away is a quota:
    then it stays listed, so that a request gets a retry time and not an unknown model. *)
Theorem model_count_exact (r : ModelRegistry) (id : string) (g : ModelRegistration) (now : time) (Hg : models r !! id = Some g) :
  let away := limited_clients g now ∪ suspended_clients g in
  GetModelCount r id now = Z.max 0 (Count g - Z.of_nat (size away))
  ∧ ((modelRegistrationAvailability g now).1 = true ↔
     Z.of_nat (size away) < Count g
     ∨ 0 < Count g ∧ away ≠ ∅ ∧ ∀ c, c ∈ suspended_clients g → c ∈ quota_suspended g).
Proof.
  intros away. pose proof (union_sizes (limited_clients g now) (suspended_clients g)) as Haway. fold away in Haway.
  assert (∀ f : string * time → bool, (∀ e, f e = Before now (Add e.2 modelQuotaExceededWindow)) →
    count_if f (map_to_list (QuotaExceededClients g)) = Z.of_nat (size (limited_clients g now))) as Hq.
  { intros f Hf. rewrite count_if_size. do 2 f_equal. apply set_eq. intros c. unfold limited_clients.
    rewrite !elem_of_clients. split; intros (v & ? & Hv); exists v; (split; [done|]);
      [by rewrite <-(Hf (c, v))|by rewrite (Hf (c, v))]. }
  assert (count_if (λ e : string * string, negb (in_quota_window g now e.1)) (map_to_list (SuspendedClients g))
    = Z.of_nat (size (suspended_clients g ∖ limited_clients g now))) as Hs.
  { apply (suspended_where (λ c _, negb (in_quota_window g now c))); [|set_solver]. intros c Hc.
    pose proof Hc as [v Hv]%elem_of_suspended. rewrite elem_of_difference, elem_of_limited, Hv.
    destruct (in_quota_window g now c); cbn; naive_solver. }
  assert (count_if (λ e : string * string, in_quota_window g now e.1) (map_to_list (SuspendedClients g))
    = Z.of_nat (size (suspended_clients g ∩ limited_clients g now))) as Hb.
  { apply (suspended_where (λ c _, in_quota_window g now c)); [|set_solver]. intros c Hc. rewrite elem_of_intersection, elem_of_limited.
    pose proof Hc as [v Hv]%elem_of_suspended. rewrite Hv. naive_solver. }
  split.
  - unfold GetModelCount. rewrite Hg, Hs, (Hq (λ e, Sub now e.2 <? modelQuotaExceededWindow)) by (intros e; apply window_sub).
    case_match eqn:E; [apply Z.ltb_lt in E|apply Z.ltb_ge in E]; lia.
  - assert (count_if (λ e : string * string, isQuotaSuspension e.2) (map_to_list (SuspendedClients g))
      = Z.of_nat (size (quota_suspended g))) as Hc by apply count_if_size.
    assert (count_if (λ e : string * string, negb (isQuotaSuspension e.2)) (map_to_list (SuspendedClients g))
      = Z.of_nat (size (suspended_clients g ∖ quota_suspended g))) as Ho.
    { apply (suspended_where (λ _ v, negb (isQuotaSuspension v))); [|set_solver]. intros c Hin. unfold quota_suspended.
      rewrite elem_of_difference, elem_of_clients. cbn. pose proof Hin as [v Hv]%elem_of_suspended. rewrite Hv.
      split.
      - intros (v' & [= <-] & Hn). split; [done|]. intros (v'' & [= <-] & Hq'). by rewrite Hq' in Hn.
      - intros [_ Hn]. exists v. split; [done|]. destruct (isQuotaSuspension v) eqn:Ev; [destruct Hn; eauto|done]. }
    apply available_iff; [exact (Hq _ (λ _, eq_refl))|exact Hb|exact Hc|exact Ho].
Qed.

(** ** Projections *)

Definition target (proj : ClientModelProjection) : string := TrimSpace (PR_ModelID proj).
(** What a registration says about one client. *)
Definition marks (r : ModelRegistry) (id c : string) : option (option string * option time) :=
  (λ g, (SuspendedClients g !! c, QuotaExceededClients g !! c)) <$> models r !! id.
Definition as_projected (proj : ClientModelProjection) (m : option (option string * option time)) : Prop :=
  ∃ suspended quota, m = Some (suspended, quota)
    ∧ suspended = (if PR_Suspended proj then Some (PR_SuspendReason proj) else None)
    ∧ (is_Some quota ↔ PR_QuotaExceeded proj = true).

Lemma project_marks c st now r b proj :
  let r' := (project_step c st now (r, b) proj).1 in
  (∀ id c', id ≠ target proj ∨ c' ≠ c → marks r' id c' = marks r id c') ∧
  (target proj ≠ "" → target proj ∈ st → is_Some (models r !! target proj) → as_projected proj (marks r' (target proj) c)).
Proof.
  cbv zeta. unfold project_step. fold (target proj).
  destruct (String.eqb_spec (target proj) "") as [E|Hne]; cbn [orb]; [done|].
  case_bool_decide as Hin; cbn [negb]; [|done].
  destruct (models r !! target proj) as [g|] eqn:Eg; [|split; [done|by intros ? ? [? ?]]].
  destruct (project_suspension c proj now g) as [g1 b1] eqn:E1. destruct (project_quota c proj now g1) as [g2 b2] eqn:E2.
  assert (SuspendedClients g2 = SuspendedClients g1) as Es by (unfold project_quota in E2; repeat case_match; by simplify_eq).
  assert (QuotaExceededClients g1 = QuotaExceededClients g) as Eq by (unfold project_suspension in E1; repeat case_match; by simplify_eq).
  assert (SuspendedClients g1 !! c = (if PR_Suspended proj then Some (PR_SuspendReason proj) else None)
    ∧ ∀ c', c' ≠ c → SuspendedClients g1 !! c' = SuspendedClients g !! c') as [Hs1 Hs2].
  { unfold project_suspension in E1. destruct (PR_Suspended proj); [case_bool_decide|destruct (SuspendedClients g !! c) eqn:?];
      simplify_eq; cbn; rewrite ?lookup_insert_eq, ?lookup_delete_eq; (split; [done|]); intros c' Hc'; by rewrite ?lookup_insert_ne, ?lookup_delete_ne. }
  assert ((is_Some (QuotaExceededClients g2 !! c) ↔ PR_QuotaExceeded proj = true)
    ∧ ∀ c', c' ≠ c → QuotaExceededClients g2 !! c' = QuotaExceededClients g1 !! c') as [Hq1 Hq2].
  { unfold project_quota in E2. destruct (PR_QuotaExceeded proj), (QuotaExceededClients g1 !! c) eqn:Ec;
      simplify_eq; cbn; rewrite ?lookup_insert_eq, ?lookup_delete_eq, ?Ec; (split; [split; [try done; by intros []|try done; eauto]|]);
      intros c' Hc'; by rewrite ?lookup_insert_ne, ?lookup_delete_ne. }
  cbn [fst]. split.
  - intros id c' Hd. unfold marks. cbn. destruct (decide (id = target proj)) as [->|Hid]; [|by rewrite lookup_insert_ne].
    rewrite lookup_insert_eq, Eg. cbn. destruct Hd as [?|Hc']; [done|]. by rewrite Es, Hs2, Hq2, Eq.
  - intros _ _ _. unfold marks. cbn. rewrite lookup_insert_eq. cbn. exists (SuspendedClients g2 !! c), (QuotaExceededClients g2 !! c).
    split_and!; [done|by rewrite Es|exact Hq1].
Qed.

Lemma marks_registered r id c : is_Some (models r !! id) ↔ is_Some (marks r id c).
Proof. unfold marks. by rewrite fmap_is_Some. Qed.

Lemma projections_marks c st now l : ∀ r b,
  let r' := (fold_left (project_step c st now) l (r, b)).1 in
  (∀ id c', c' ≠ c ∨ (∀ proj, proj ∈ l → target proj ≠ id) → marks r' id c' = marks r id c') ∧
  (∀ before proj after, l = before ++ proj :: after → (∀ q, q ∈ after → target q ≠ target proj) →
     target proj ≠ "" → target proj ∈ st → is_Some (models r !! target proj) → as_projected proj (marks r' (target proj) c)).
Proof.
  induction l as [|proj l IH]; intros r b; cbn [fold_left]; [split; [done|by intros [|? ?] ? ?]|].
  destruct (project_marks c st now r b proj) as [H1 H2]. destruct (project_step c st now (r, b) proj) as [r1 b1]. cbn [fst] in H1, H2.
  destruct (IH r1 b1) as [H3 H4]. split.
  - intros id c' Hd. rewrite H3, H1; [done|..].
    + destruct Hd as [?|Hd]; [by right|]. left. intros ->. by apply (Hd proj ltac:(left)).
    + destruct Hd as [?|Hd]; [by left|]. right. intros q Hq. apply Hd. by right.
  - intros [|p0 before] proj' after; cbn; intros [= <- ->] Hafter Hne Hin Hreg.
    + rewrite H3; [by apply H2|]. right. exact Hafter.
    + apply (H4 before proj' after eq_refl Hafter Hne Hin). apply (marks_registered _ _ c).
      destruct (decide (target proj' = target proj)) as [E|E]; [|rewrite H1; [by apply marks_registered|by left]].
      rewrite E in Hne, Hin, Hreg |- *. destruct (H2 Hne Hin Hreg) as (?&?&->&_). eauto.
Qed.

Lemma projections_rest c st now l : ∀ r b,
  let r' := (fold_left (project_step c st now) l (r, b)).1 in
  clientGenerations r' = clientGenerations r ∧ clientEpochs r' = clientEpochs r ∧ clientModels r' = clientModels r.
Proof.
  induction l as [|proj l IH]; intros r b; cbn [fold_left]; [done|].
  specialize (IH (project_step c st now (r, b) proj).1 (project_step c st now (r, b) proj).2).
  rewrite <-surjective_pairing in IH. cbv zeta in *. destruct IH as (->&->&->).
  unfold project_step. repeat case_match; done.
Qed.

Lemma invalidate_marks r id c : marks (invalidateAvailableModelsCacheLocked r) id c = marks r id c.
Proof. done. Qed.

(** A projection of the scheduler's state is all or nothing and fenced.  One refused
    leaves the registry as it was.  One taken belongs to the current registration of the
    client and to no older generation than the last, which it becomes; the last projection
    of every registered model is then what the registry says of the client, and no other
    client, and no model without a projection, is touched. *)
Theorem projection_read_back (r : ModelRegistry) (client : string) (epoch gen : Z) (l : list ClientModelProjection) (now : time) :
  let c := TrimSpace client in
  let '(ok, r') := ApplyClientModelProjections r client epoch gen l now in
  if ok
  then epoch = epoch_of (clientEpochs r) c
    ∧ epoch_of (clientGenerations r) c <= gen ∧ clientGenerations r' !! c = Some gen
    ∧ (∀ id c', c' ≠ c ∨ (∀ proj, proj ∈ l → target proj ≠ id) → marks r' id c' = marks r id c')
    ∧ (∀ before proj after, l = before ++ proj :: after → (∀ q, q ∈ after → target q ≠ target proj) →
         target proj ≠ "" → target proj ∈ TrimSpace <$> default [] (clientModels r !! c) → is_Some (models r !! target proj) →
         as_projected proj (marks r' (target proj) c))
  else r' = r.
Proof.
  cbv zeta. unfold ApplyClientModelProjections. set (c := TrimSpace client).
  destruct (String.eqb c ""); [done|]. destruct (clientModels r !! c) as [[|id0 ids]|] eqn:Em; [done| |done].
  destruct (epoch =? _) eqn:Ee; cbn [negb]; [|done]. destruct (gen <? _) eqn:Eg; [done|].
  set (st := registered_set (id0 :: ids)). destruct (existsb _ l); cbn [negb]; [|done].
  set (r0 := r <| clientGenerations := _ |>). apply Z.eqb_eq in Ee. apply Z.ltb_ge in Eg.
  destruct (projections_marks c st now l r0 false) as [H1 H2].
  destruct (projections_rest c st now l r0 false) as (H3&_&_).
  destruct (fold_left _ l (r0, false)) as [r1 changed]. cbn [fst] in H1, H2, H3.
  set (r2 := if changed then _ else r1).
  assert (∀ id c', marks r2 id c' = marks r1 id c') as Hm by (intros; by destruct changed).
  assert (clientGenerations r2 = clientGenerations r1) as Hgen by (by destruct changed).
  split_and!; [done|done|..].
  - rewrite Hgen, H3. apply lookup_insert_eq.
  - intros id c' Hd. rewrite Hm. by apply H1.
  - intros before proj after Hl Ha Hne Hin Hreg. rewrite Hm. apply (H2 before proj after Hl Ha Hne); [|done].
    unfold st, registered_set. rewrite elem_of_list_to_set. by apply list_elem_of_filter.
Qed.

(** ** Instances *)

Definition late_replacement : registry_op := OpReplace (all_old ["gpt"; "o3"] ["gpt"]) "a" "openai" 2 [Some (plain_model "gpt")].

Lemma registration_fence_witness :
  registry_step (tf := any_format) (registry_step (tf := any_format) sample (OpUnregister "a") 20) late_replacement 30
    = registry_step (tf := any_format) sample (OpUnregister "a") 20
  ∧ ClientRegistrationEpoch (registry_step (tf := any_format) sample (OpUnregister "a") 20) "a" ≠ ClientRegistrationEpoch sample "a"
  ∧ ∀ c', c' ≠ "a" → ClientRegistrationEpoch (registry_step (tf := any_format) sample (OpUnregister "a") 20) c'
                     = ClientRegistrationEpoch sample c'.
Proof.
  assert (decided_at "a" (ClientRegistrationEpoch sample "a") late_replacement) as Hd by (split; [done|vm_compute; reflexivity]).
  pose proof (registration_fence (tf := any_format) sample (OpUnregister "a") late_replacement "a" 20 30 eq_refl Hd) as (H1 & H2 & H3 & _).
  split; [exact H1|split; [exact H2|exact H3]].
Defined.

Lemma model_count_exact_witness :
  ∃ g, models sample !! "gpt" = Some g
  ∧ GetModelCount sample "gpt" 20 = Z.max 0 (Count g - Z.of_nat (size (limited_clients g 20 ∪ suspended_clients g)))
  ∧ GetModelCount sample "gpt" 20 = 0.
Proof.
  destruct (models sample !! "gpt") as [g|] eqn:Hg; [|vm_compute in Hg; discriminate].
  exists g. split; [done|]. split; [exact (proj1 (model_count_exact sample "gpt" g 20 Hg))|vm_compute; done].
Defined.

Definition quota_projection : ClientModelProjection := mkProjection " gpt " true "quota" true.
Lemma projection_read_back_witness :
  ∃ r', ApplyClientModelProjections sample " a" 2 7 [quota_projection] 20 = (true, r')
  ∧ clientGenerations r' !! "a" = Some 7 ∧ as_projected quota_projection (marks r' "gpt" "a") ∧ marks r' "gpt" "b" = marks sample "gpt" "b".
Proof.
  pose proof (projection_read_back sample " a" 2 7 [quota_projection] 20) as Hp.
  assert ((ApplyClientModelProjections sample " a" 2 7 [quota_projection] 20).1 = true) as Hok by (vm_compute; reflexivity).
  cbv zeta in Hp. destruct (ApplyClientModelProjections _ _ _ _ _ _) as [ok r'] eqn:E. cbn [fst] in Hok. subst ok.
  assert (TrimSpace " a" = "a") as Ec by (vm_compute; reflexivity). rewrite Ec in Hp.
  assert (target quota_projection = "gpt") as Et by (vm_compute; reflexivity).
  destruct Hp as (_ & _ & Hg & Hr & Hs). exists r'. split; [reflexivity|]. split; [exact Hg|]. split.
  - rewrite <-Et. apply (Hs [] quota_projection [] eq_refl).
    + intros q Hq. destruct (not_elem_of_nil _ Hq).
    + rewrite Et. discriminate.
    + rewrite Et. apply (bool_decide_unpack _). vm_compute. exact I.
    + rewrite Et. destruct (models sample !! "gpt") eqn:Hg'; [eexists; reflexivity|]. vm_compute in Hg'. discriminate.
  - apply Hr. left. discriminate.
Defined.
