(* ===== verification/RegistryRouting.v ===== *)
(** * From the registry to the scheduler

    The scheduler reads the model registry through a view: [registry_view] is that view of
    the registry's own state.  What a registration offers is what the scheduler schedules
    the credential for, and a later change of the registration is one the scheduler sees. *)
From Stdlib Require Import ZArith Lia String Bool.
From stdpp Require Import prelude gmap strings.
From S2P Require Import Prelude GoStd AuthTypes Weight Availability Shard Scheduler SchedulerInvariant Lifecycle.
From S2P Require Import Registry RegistryCounts RegistryInvariant RegistryExample RegistryUse.
Local Open Scope string_scope.
Local Open Scope list_scope.
Local Open Scope Z_scope.

(** What [GetGlobalRegistry] gives the scheduler. *)
Definition registry_view (r : ModelRegistry) : registryView :=
  mkRegistryView (Registry.ClientRegistrationEpoch r) (λ id, (Some ∘ I_ID) <$> Registry.GetModelsForClient r id).

(** ** What a client offers *)

Lemma first_models_id l id m : first_models l !! id = Some m → I_ID m = id.
Proof.
  unfold first_models. generalize (named_models l). clear l. intros l.
  assert (∀ acc : gmap string ModelInfo, (∀ k v, acc !! k = Some v → I_ID v = k) →
    ∀ k v, fold_left (λ acc model, match acc !! I_ID model with Some _ => acc | None => <[I_ID model := model]> acc end) l acc !! k = Some v
    → I_ID v = k) as Hf.
  { induction l as [|y l IH]; intros acc Hacc; cbn [fold_left]; [done|]. apply IH. case_match; [done|].
    intros k v [[<- <-]|[_ ?]]%lookup_insert_Some; [done|by apply Hacc]. }
  apply Hf. by intros ? ? ?%lookup_empty_Some.
Qed.

Lemma registered_client o r c p l b now :
  let r' := registerClientLocked o r c p l b now in
  clientModels r' !! c = (if bool_decide (raw_ids l = []) then None else Some (raw_ids l))
  ∧ (raw_ids l ≠ [] → clientModelInfos r' !! c = Some (first_models l)).
Proof.
  unfold registerClientLocked. cbv zeta. destruct (raw_ids l) as [|i0 raw]; cbn.
  { rewrite lookup_delete_eq. by split. }
  by rewrite !lookup_insert_eq.
Qed.

Lemma models_of_registered o r c p l b now id :
  id ∈ I_ID <$> Registry.GetModelsForClient (registerClientLocked o r c p l b now) c ↔ id ∈ raw_ids l.
Proof.
  destruct (registered_client o r c p l b now) as [E1 E2]. set (r' := registerClientLocked _ _ _ _ _ _ _) in *. clearbody r'.
  unfold Registry.GetModelsForClient, GetModelsAndEpochForClient. cbn [fst]. rewrite E1.
  case_bool_decide as Hraw; [rewrite Hraw; cbn; by rewrite elem_of_nil|]. rewrite (E2 Hraw). cbn [default from_option].
  rewrite list_elem_of_fmap. split.
  - intros (m & -> & (k & Hk & Hm)%list_elem_of_omap). rewrite elem_of_unique in Hk. cbn in Hk, Hm.
    pose proof Hk as [m' Hm']%first_models_dom. rewrite Hm' in Hm. injection Hm as <-. by rewrite (first_models_id _ _ _ Hm').
  - intros Hin. pose proof Hin as [m Hm]%first_models_dom. exists m. split; [by rewrite (first_models_id _ _ _ Hm)|].
    apply list_elem_of_omap. exists id. split; [by apply elem_of_unique|]. cbn. by rewrite Hm.
Qed.

Definition offers (l : list (option ModelInfo)) (model : string) : Prop :=
  ∃ m, m ∈ named_models l ∧ canonicalModelKey (I_ID m) = canonicalModelKey model.

(** A credential's metadata built from the view supports what the registration offers. *)
Lemma supports_offered o r (a : Auth) p l b now epoch model :
  clean (ID a) → canonicalModelKey model ≠ "" →
  supportsModel (buildScheduledAuthMetaWithModelSet a
    (supportedModelSetForAuth (registry_view (registerClientLocked o r (ID a) p l b now)) (ID a)) epoch) model = true
  ↔ offers l model.
Proof.
  intros [Htr Hid] Hne. set (r' := registerClientLocked _ _ _ _ _ _ _).
  assert (∀ id, id ∈ I_ID <$> Registry.GetModelsForClient r' (ID a) ↔ id ∈ raw_ids l) as Hm by (intros; apply models_of_registered).
  clearbody r'. unfold supportsModel, buildScheduledAuthMetaWithModelSet, supportedModelSetForAuth. cbv zeta.
  rewrite (proj2 (String.eqb_neq _ _) Hne), Htr, (proj2 (String.eqb_neq _ _) Hid). cbn [supportedModelSet].
  assert (offers l model ↔ ∃ id, id ∈ I_ID <$> Registry.GetModelsForClient r' (ID a) ∧ canonicalModelKey id = canonicalModelKey model) as ->.
  { unfold offers. split.
    - intros (m & Hin & Hk). exists (I_ID m). split; [|done]. apply Hm. unfold raw_ids. apply list_elem_of_fmap. eauto.
    - intros (id & Hin & Hk). apply Hm in Hin. unfold raw_ids in Hin. apply list_elem_of_fmap in Hin as (m & -> & ?). eauto. }
  cbn [registry_view Scheduler.GetModelsForClient].
  set (ms := Registry.GetModelsForClient r' (ID a)). clearbody ms.
  assert (omap (fmap canonicalModelKey) ((Some ∘ I_ID) <$> ms) = canonicalModelKey <$> (I_ID <$> ms)) as E.
  { clear. induction ms as [|m ms IH]; [done|]. cbn. by rewrite IH. }
  assert ((∃ id, id ∈ I_ID <$> ms ∧ canonicalModelKey id = canonicalModelKey model)
    ↔ canonicalModelKey model ∈ filter (λ k, k ≠ "") (canonicalModelKey <$> (I_ID <$> ms))) as ->.
  { rewrite list_elem_of_filter, list_elem_of_fmap. split.
    - intros (id & Hin & Hk). split; [done|]. by exists id.
    - intros (_ & id & Hk & Hin). by exists id. }
  rewrite <-E. clear E Hm. destruct ms as [|m ms]; [by rewrite elem_of_nil|].
  cbn [fmap list_fmap]. by rewrite bool_decide_eq_true, elem_of_list_to_set.
Qed.

(** ** Scheduling what is registered *)

Section routing.
Context `{GoHost} {tf : TimeFormat}.

(** A credential upserted against the view is scheduled with the metadata of the view. *)
Lemma upsert_installs s reg a now :
  clean (ID a) → isStaleScheduledAuth s (ID a) (AuthTypes.RegistrationEpoch a) (Generation a) (UpdatedAt a) = false →
  executorKeyFromAuth (Some a) ≠ "" → disabled a = false →
  let s' := upsertAuthLifecycleLocked s reg (Some a) now in
  let meta := buildScheduledAuthMetaWithModelSet a (supportedModelSetForAuth reg (ID a))
                (Scheduler.ClientRegistrationEpoch reg (ID a)) in
  authProviders s' !! ID a = Some (executorKeyFromAuth (Some a))
  ∧ authGenerations s' !! ID a = Some (mkGen (AuthTypes.RegistrationEpoch a) (Generation a) (UpdatedAt a))
  ∧ providers s' !! executorKeyFromAuth (Some a) ≫= (λ p, auths p !! ID a) = Some meta.
Proof.
  intros [Htr Hne] Est Hkey Hd. unfold upsertAuthLifecycleLocked. cbv zeta.
  rewrite Htr, (proj2 (String.eqb_neq _ _) Hne), Est, (proj2 (String.eqb_neq _ _) Hkey), Hd. cbn [orb].
  set (s1 := set_generation s (ID a) _). set (meta := buildScheduledAuthMetaWithModelSet _ _ _).
  set (key := executorKeyFromAuth (Some a)) in *.
  change (install _ _ _ _ _ _ _) with (place s1 (ID a) key meta [] true now).
  destruct (place_listed s1 (ID a) key meta [] true now) as [E1 E2]. split_and!.
  - by rewrite E1, lookup_insert_eq.
  - rewrite E2. apply lookup_insert_eq.
  - rewrite place_providers, decide_True by done. cbn [mbind option_bind]. rewrite upsertForModels_auths. apply lookup_insert_eq.
Qed.

Lemma schedulable_enabled a : clean (ID a) → executorKeyFromAuth (Some a) ≠ "" → disabled a = false →
  isSchedulableAuth (Some a) = Some (ID a, executorKeyFromAuth (Some a)).
Proof.
  intros [Htr Hne] Hkey Hd. unfold isSchedulableAuth. unfold disabled in Hd. rewrite Hd. cbv zeta.
  by rewrite Htr, (proj2 (String.eqb_neq _ _) Hne), (proj2 (String.eqb_neq _ _) Hkey).
Qed.

Lemma in_sync_epoch s reg a : clean (ID a) → executorKeyFromAuth (Some a) ≠ "" → disabled a = false →
  authGenerations s !! ID a = Some (mkGen (AuthTypes.RegistrationEpoch a) (Generation a) (UpdatedAt a)) →
  authProviders s !! ID a = Some (executorKeyFromAuth (Some a)) →
  ∀ meta, providers s !! executorKeyFromAuth (Some a) ≫= (λ p, auths p !! ID a) = Some meta →
  in_sync s reg (Some a) = (registryEpoch meta =? Scheduler.ClientRegistrationEpoch reg (ID a)).
Proof.
  intros Hcl Hkey Hd Hg Hp meta Hm. unfold in_sync. rewrite (schedulable_enabled a Hcl Hkey Hd), Hm, Hg.
  unfold provider_of. rewrite Hp. cbn. by rewrite String.eqb_refl, Z.eqb_refl.
Qed.

(** C9: What a client registers is what its credential is scheduled for.  A credential
    that is taken into the scheduler after a registration supports exactly the models
    registered, up to their canonical key, and is in step with the registry; any later
    change of the client in the registry that goes through - a registration, a removal or
    a replacement - is one the scheduler notices as its own lag. *)
Theorem registration_scheduled (s : authScheduler) (r : ModelRegistry) (o : orders) (a : Auth) (p : string)
    (l : list (option ModelInfo)) (op : registry_op) (now later : time)
    (Hid : clean (ID a)) (Hkey : executorKeyFromAuth (Some a) ≠ "") (Hd : disabled a = false)
    (Hst : isStaleScheduledAuth s (ID a) (AuthTypes.RegistrationEpoch a) (Generation a) (UpdatedAt a) = false)
    (Hop : succeeds (ID a) (Registry.ClientRegistrationEpoch (RegisterClient o r (ID a) p l now) (ID a)) op) :
  let r' := RegisterClient o r (ID a) p l now in
  let s' := upsertAuthLifecycleLocked s (registry_view r') (Some a) now in
  (∃ meta, providers s' !! executorKeyFromAuth (Some a) ≫= (λ p, auths p !! ID a) = Some meta
    ∧ ∀ model, canonicalModelKey model ≠ "" → supportsModel meta model = true ↔ offers l model)
  ∧ in_sync s' (registry_view r') (Some a) = true
  ∧ in_sync s' (registry_view (registry_step r' op later)) (Some a) = false.
Proof.
  intros r' s'. destruct (upsert_installs s (registry_view r') a now Hid Hst Hkey Hd) as (Hp & Hg & Hm). fold s' in Hp, Hg, Hm.
  pose proof (in_sync_epoch s' (registry_view r') a Hid Hkey Hd Hg Hp _ Hm) as E1.
  pose proof (in_sync_epoch s' (registry_view (registry_step r' op later)) a Hid Hkey Hd Hg Hp _ Hm) as E2. split_and!.
  - eexists. split; [exact Hm|]. intros model Hne. by apply supports_offered.
  - rewrite E1. apply Z.eqb_refl.
  - rewrite E2. apply Z.eqb_neq. cbn. fold r' in Hop. pose proof (succeeds_epochs r' op (ID a) later Hop) as E.
    unfold Registry.ClientRegistrationEpoch in *. rewrite E. intros Heq. by apply (next_epoch_new r' (ID a)).
Qed.
End routing.

Definition fresh_scheduler : authScheduler := newAuthScheduler (Some SelRoundRobin).
Definition auth_a1 : Auth := registered "a" "openai" 1 1.
Definition two_models : list (option ModelInfo) := [Some (plain_model "gpt-5(high)"); None; Some (plain_model "o3")].
Definition two_orders : orders := all_old ["o3"; "gpt"] ["gpt-5(high)"; "o3"].

Lemma registration_scheduled_witness :
  let r' := RegisterClient two_orders sample "a" "openai" two_models 20 in
  let s' := upsertAuthLifecycleLocked (H := no_host) fresh_scheduler (registry_view r') (Some auth_a1) 20 in
  in_sync s' (registry_view r') (Some auth_a1) = true
  ∧ in_sync s' (registry_view (registry_step (tf := any_format) r' (OpUnregister "a") 30)) (Some auth_a1) = false
  ∧ offers two_models "gpt-5".
Proof.
  pose proof (registration_scheduled (H := no_host) (tf := any_format) fresh_scheduler sample two_orders auth_a1 "openai" two_models
    (OpUnregister "a") 20 30 clean_a ltac:(vm_compute; discriminate) eq_refl ltac:(vm_compute; reflexivity) eq_refl) as (_ & H1 & H2).
  split; [exact H1|]. split; [exact H2|]. exists (plain_model "gpt-5(high)"). split; [left|vm_compute; reflexivity].
Defined.
