(* ===== verification/ConcurrencyConfig.v ===== *)
(** * The credential concurrency settings

    Models [internal/config/credential_concurrency.go]: the settings Home sends, the
    defaults that stand in for the fields an older Home does not know, and the checks on
    them.  The presence of a field in the YAML mapping is what [UnmarshalYAML] records; the
    decoding itself is yaml.v3's.  An error is named after the check that failed. *)
From Stdlib Require Import ZArith Lia Bool String.
From stdpp Require Import prelude.
From S2P Require Import Prelude GoStd.
Local Open Scope Z_scope.

Definition Millisecond : duration := 1000000.
Definition defaultCPAHeartbeatTimeout : duration := 3 * Second.
Definition defaultCPACancelBound : duration := 5 * Second.
Definition defaultReclaimGrace : duration := 5 * Second.
Definition defaultCleanupInterval : duration := 5 * Second.
Definition defaultReleaseFlushInterval : duration := 250 * Millisecond.
Definition defaultReleaseMaxBackoff : duration := 2 * Second.
Definition defaultBusyRetryMin : duration := 250 * Millisecond.
Definition defaultBusyRetryMax : duration := Second.
Definition maxCredentialConcurrencyLimit : Z := 1000000.

Record CredentialConcurrencyConfig := mkConcurrency {
  LifecycleConfigRevision : Z; ObservationBarrierRevision : Z;
  CPAHeartbeatTimeout : duration; CPACancelBound : duration; ReclaimGrace : duration; CleanupInterval : duration;
  ReleaseFlushInterval : duration; ReleaseMaxBackoff : duration; BusyRetryMin : duration; BusyRetryMax : duration;
  MaxLimit : Z;
  lifecycleConfigRevisionPresent : bool; observationBarrierRevisionPresent : bool; cpaHeartbeatTimeoutPresent : bool; cpaCancelBoundPresent : bool;
  reclaimGracePresent : bool; cleanupIntervalPresent : bool; releaseFlushIntervalPresent : bool;
  releaseMaxBackoffPresent : bool; busyRetryMinPresent : bool; busyRetryMaxPresent : bool; maxLimitPresent : bool }.
(** The zero value: nothing is set and nothing was present. *)
Definition noConcurrency : CredentialConcurrencyConfig :=
  mkConcurrency 0 0 0 0 0 0 0 0 0 0 0 false false false false false false false false false false false.

Fixpoint credentialConcurrencyFieldPresent (content : list string) (field : string) : bool :=
  match content with
  | key :: _ :: rest => String.eqb key field || credentialConcurrencyFieldPresent rest field
  | _ => false
  end.

(** What decoding a mapping with the scalars [content] (key, value, key, ...) records of the
    fields that were there; [raw] are the decoded fields. *)
Definition UnmarshalYAML (content : list string) (raw : CredentialConcurrencyConfig) : CredentialConcurrencyConfig :=
  let present := credentialConcurrencyFieldPresent content in
  mkConcurrency (LifecycleConfigRevision raw) (ObservationBarrierRevision raw) (CPAHeartbeatTimeout raw) (CPACancelBound raw)
    (ReclaimGrace raw) (CleanupInterval raw) (ReleaseFlushInterval raw) (ReleaseMaxBackoff raw) (BusyRetryMin raw)
    (BusyRetryMax raw) (MaxLimit raw)
    (present "lifecycle-config-revision"%string) (present "observation-barrier-revision"%string) (present "cpa-heartbeat-timeout"%string) (present "cpa-cancel-bound"%string)
    (present "reclaim-grace"%string) (present "cleanup-interval"%string) (present "release-flush-interval"%string)
    (present "release-max-backoff"%string) (present "busy-retry-min"%string) (present "busy-retry-max"%string)
    (present "max-limit"%string).

Definition or_default (present : bool) (value default : Z) : Z := if negb present && (value =? 0) then default else value.
Definition WithDefaults (c : CredentialConcurrencyConfig) : CredentialConcurrencyConfig :=
  mkConcurrency (LifecycleConfigRevision c) (ObservationBarrierRevision c)
    (or_default (cpaHeartbeatTimeoutPresent c) (CPAHeartbeatTimeout c) defaultCPAHeartbeatTimeout)
    (or_default (cpaCancelBoundPresent c) (CPACancelBound c) defaultCPACancelBound)
    (or_default (reclaimGracePresent c) (ReclaimGrace c) defaultReclaimGrace)
    (or_default (cleanupIntervalPresent c) (CleanupInterval c) defaultCleanupInterval)
    (or_default (releaseFlushIntervalPresent c) (ReleaseFlushInterval c) defaultReleaseFlushInterval)
    (or_default (releaseMaxBackoffPresent c) (ReleaseMaxBackoff c) defaultReleaseMaxBackoff)
    (or_default (busyRetryMinPresent c) (BusyRetryMin c) defaultBusyRetryMin)
    (or_default (busyRetryMaxPresent c) (BusyRetryMax c) defaultBusyRetryMax)
    (or_default (maxLimitPresent c) (MaxLimit c) maxCredentialConcurrencyLimit)
    (lifecycleConfigRevisionPresent c) (observationBarrierRevisionPresent c) (cpaHeartbeatTimeoutPresent c) (cpaCancelBoundPresent c)
    (reclaimGracePresent c) (cleanupIntervalPresent c) (releaseFlushIntervalPresent c)
    (releaseMaxBackoffPresent c) (busyRetryMinPresent c) (busyRetryMaxPresent c) (maxLimitPresent c).

Inductive concurrencyError :=
| LifecycleRevision | BarrierRevision | LifecycleDurations | LimiterDurations | BackoffBelowInterval
| BusyRetryMilliseconds | BusyRetryOrder | LimitRange | TimingOverflow | TimingUnsafe.

(** Go's remainder has the sign of the dividend. *)
Definition ValidateCredentialConcurrency (cfg : CredentialConcurrencyConfig) : option concurrencyError :=
  if (LifecycleConfigRevision cfg <? 0) || (lifecycleConfigRevisionPresent cfg && (LifecycleConfigRevision cfg =? 0)) then Some LifecycleRevision else
  if ObservationBarrierRevision cfg <? 0 then Some BarrierRevision else
  if (CPAHeartbeatTimeout cfg <=? 0) || (CPACancelBound cfg <=? 0) || (ReclaimGrace cfg <=? 0) || (CleanupInterval cfg <=? 0) then Some LifecycleDurations else
  if (ReleaseFlushInterval cfg <=? 0) || (ReleaseMaxBackoff cfg <=? 0) || (BusyRetryMin cfg <=? 0) || (BusyRetryMax cfg <=? 0) then Some LimiterDurations else
  if ReleaseMaxBackoff cfg <? ReleaseFlushInterval cfg then Some BackoffBelowInterval else
  if negb (Z.rem (BusyRetryMin cfg) Millisecond =? 0) || negb (Z.rem (BusyRetryMax cfg) Millisecond =? 0) then Some BusyRetryMilliseconds else
  if BusyRetryMax cfg <? BusyRetryMin cfg then Some BusyRetryOrder else
  if (MaxLimit cfg <? 1) || (maxCredentialConcurrencyLimit <? MaxLimit cfg) then Some LimitRange else None.

(** The sum, and whether it overflows. *)
Definition addCredentialConcurrencyDuration (left right : duration) : duration * bool :=
  if (0 <? right) && (wrap64 (MaxInt64 - right) <? left) then (0, true) else (wrap64 (left + right), false).

Definition ValidateCredentialConcurrencyLifecycle (nodeHeartbeatTimeout : duration) (cfg : CredentialConcurrencyConfig) : option concurrencyError :=
  if nodeHeartbeatTimeout <=? 0 then Some LifecycleDurations else
  match ValidateCredentialConcurrency cfg with
  | Some err => Some err
  | None =>
      let '(left', leftOverflow) := addCredentialConcurrencyDuration nodeHeartbeatTimeout (ReclaimGrace cfg) in
      let '(right', rightOverflow) := addCredentialConcurrencyDuration (CPAHeartbeatTimeout cfg) (CPACancelBound cfg) in
      if leftOverflow || rightOverflow then Some TimingOverflow else
      if left' <=? right' then Some TimingUnsafe else None
  end.

(** ** What the checks promise *)

Record durations_fit (cfg : CredentialConcurrencyConfig) : Prop := {
  df_heartbeat : is_int64 (CPAHeartbeatTimeout cfg); df_bound : is_int64 (CPACancelBound cfg); df_grace : is_int64 (ReclaimGrace cfg) }.

Lemma add_duration_exact left right : is_int64 left → is_int64 right → 0 < left → 0 < right →
  addCredentialConcurrencyDuration left right = if MaxInt64 <? left + right then (0, true) else (left + right, false).
Proof.
  unfold is_int64, addCredentialConcurrencyDuration. intros Hl Hr Hl0 Hr0. rewrite (proj2 (Z.ltb_lt 0 right) Hr0). cbn [andb].
  rewrite wrap64_id by (unfold is_int64, MinInt64, MaxInt64 in *; lia).
  destruct (MaxInt64 - right <? left) eqn:E1, (MaxInt64 <? left + right) eqn:E2; to_prop; try done; try lia.
  rewrite wrap64_id; [done|]. unfold is_int64, MinInt64, MaxInt64 in *. lia.
Qed.

(** The decisions in front of a result are all negative when the result is none. *)
Ltac passes H := repeat match type of H with (if ?c then _ else _) = _ => destruct c eqn:?; [discriminate H|] end.

Lemma validated cfg : ValidateCredentialConcurrency cfg = None →
  0 < CPAHeartbeatTimeout cfg ∧ 0 < CPACancelBound cfg ∧ 0 < ReclaimGrace cfg ∧ 0 < CleanupInterval cfg
  ∧ 0 < ReleaseFlushInterval cfg <= ReleaseMaxBackoff cfg ∧ 0 < BusyRetryMin cfg <= BusyRetryMax cfg
  ∧ 1 <= MaxLimit cfg <= maxCredentialConcurrencyLimit.
Proof. unfold ValidateCredentialConcurrency. intros H. passes H. to_prop. lia. Qed.

(** The timing check of the credential lifecycle is exact on 64-bit durations: it
    passes if and only if the settings themselves pass and the heartbeat timeout of the
    node plus the grace period, a sum that must fit 64 bits, exceeds the time the proxy
    takes to give up and cancel - as mathematical integers, so no overflow slips through.
    What passes has positive intervals, a back-off not below the flush interval and a limit
    in range; and with nothing set the defaults pass exactly when the node waits longer
    than three seconds. *)
Theorem lifecycle_validated (node : duration) (cfg : CredentialConcurrencyConfig) (Hn : is_int64 node) (Hf : durations_fit cfg) :
  (ValidateCredentialConcurrencyLifecycle node cfg = None ↔
     0 < node ∧ ValidateCredentialConcurrency cfg = None
     ∧ CPAHeartbeatTimeout cfg + CPACancelBound cfg < node + ReclaimGrace cfg <= MaxInt64)
  ∧ (ValidateCredentialConcurrencyLifecycle node cfg = None →
     0 < ReleaseFlushInterval cfg <= ReleaseMaxBackoff cfg ∧ 0 < BusyRetryMin cfg <= BusyRetryMax cfg
     ∧ 1 <= MaxLimit cfg <= maxCredentialConcurrencyLimit)
  ∧ (ValidateCredentialConcurrencyLifecycle node (WithDefaults noConcurrency) = None ↔ 3 * Second < node <= MaxInt64 - 5 * Second).
Proof.
  assert (∀ n c, is_int64 n → durations_fit c → ValidateCredentialConcurrencyLifecycle n c = None ↔
    0 < n ∧ ValidateCredentialConcurrency c = None ∧ CPAHeartbeatTimeout c + CPACancelBound c < n + ReclaimGrace c <= MaxInt64) as Hiff.
  { clear. intros n c Hn [H1 H2 H3]. unfold ValidateCredentialConcurrencyLifecycle. destruct (n <=? 0) eqn:E; to_prop; [split; [done|lia]|].
    destruct (ValidateCredentialConcurrency c) as [e|] eqn:Ev; [split; [done|by intros (_ & ? & _)]|].
    destruct (validated c Ev) as (P1 & P2 & P3 & _). rewrite !add_duration_exact by (done || lia).
    destruct (MaxInt64 <? n + _) eqn:E1; destruct (MaxInt64 <? CPAHeartbeatTimeout c + _) eqn:E2; cbn [orb]; to_prop;
      try (split; [done|lia]). destruct (_ <=? _) eqn:E3; to_prop; split; try done; lia. }
  split; [by apply Hiff|split].
  - intros H. apply Hiff in H as (_ & H & _); [|done..]. by destruct (validated cfg H) as (_ & _ & _ & _ & ?).
  - rewrite Hiff; [|done|by split]. cbn. split; [intros (_ & _ & H)|intros H; split; [|split; [done|]]];
      unfold defaultCPAHeartbeatTimeout, defaultCPACancelBound, defaultReclaimGrace, Second, MaxInt64 in *; lia.
Qed.

Lemma WithDefaults_idempotent c : WithDefaults (WithDefaults c) = WithDefaults c.
Proof.
  unfold WithDefaults. cbn. assert (∀ p v d, or_default p (or_default p v d) d = or_default p v d) as H.
  { intros p v d. unfold or_default. destruct p; cbn; [done|]. destruct (v =? 0) eqn:E; [|by rewrite E]. by destruct (d =? 0). }
  by rewrite !H.
Qed.

Lemma lifecycle_validated_witness :
  is_int64 (10 * Second) ∧ ValidateCredentialConcurrencyLifecycle (10 * Second) (WithDefaults noConcurrency) = None.
Proof.
  split; [unfold is_int64, MinInt64, MaxInt64, Second; lia|].
  apply (proj1 (lifecycle_validated (10 * Second) (WithDefaults noConcurrency)
    ltac:(unfold is_int64, MinInt64, MaxInt64, Second; lia) ltac:(split; unfold is_int64, MinInt64, MaxInt64; cbn; unfold defaultCPAHeartbeatTimeout, defaultCPACancelBound, defaultReclaimGrace, Second; lia))).
  split; [unfold Second; lia|split; [vm_compute; reflexivity|]].
  cbn. unfold MaxInt64, defaultCPAHeartbeatTimeout, defaultCPACancelBound, defaultReclaimGrace, Second. lia.
Defined.
