(* ===== verification/ExecutionRegistry.v ===== *)
(** * The registry of running executions

    Models [sdk/cliproxy/executionregistry] ([registry.go], [observation.go]): the
    dispatches and executions of one subscriber lifetime, the resources they hold, the
    releases they report, and the observation barrier.

    The registry is used by many goroutines at once.  What runs under [r.mu] is one step;
    a call that gives the lock up in between is a thread with a program counter ([pc]),
    and the threads interleave.  A [*PendingDispatch] and a [*Scope] are the sequence
    number of the dispatch; the objects live on in [dispatches] and [heap] when the
    registry's own maps [pending] and [scopes] no longer hold them.  [changed] counts the
    channels that were closed: a waiter that holds an older one is awake.  A [sync.Once]
    that runs is held by the thread that runs it.  A release sink is a number, what it
    returns is any ticket.  A context may be done at any time. *)
From Stdlib Require Import ZArith Lia String Bool.
From stdpp Require Import prelude gmap strings.
From S2P Require Import Prelude GoStd.
Local Open Scope string_scope.
Local Open Scope list_scope.
Local Open Scope Z_scope.

(** ** Data *)

Inductive registryError :=
| ErrRegistryNotAccepting | ErrRegistryClosed | ErrInvalidPendingDispatch | ErrInvalidExecutionResource
| ErrExecutionResourceAlreadyBound.

Inductive State := StateAccepting | StateDraining | StateClosed.
#[export] Instance State_eq_dec : EqDecision State.
Proof. solve_decision. Defined.

Record ScopeSpec := mkSpec {
  RequestID : string; CredentialID : string; Model : string; Kind : string; StartedAt : time; Accounted : bool }.
Record ReleaseGroup := mkGroup { RG_CredentialID : string; RG_Model : string }.
#[export] Instance ReleaseGroup_eq_dec : EqDecision ReleaseGroup.
Proof. solve_decision. Defined.
#[export] Program Instance ReleaseGroup_countable : Countable ReleaseGroup :=
  inj_countable' (λ g, (RG_CredentialID g, RG_Model g)) (λ '(c, m), mkGroup c m) _.
Next Obligation. by intros []. Qed.

(** [T_done] names the channel the ticket waits for. *)
Record ReleaseTicket := mkTicket { T_Group : ReleaseGroup; T_Sequence : Z; T_done : nat }.
Definition NewReleaseTicket (group : ReleaseGroup) (sequence : Z) (done : option nat) : option ReleaseTicket :=
  match done with
  | Some done => if sequence <=? 0 then None else Some (mkTicket group sequence done)
  | None => None
  end.

Inductive once := OnceFresh | OnceRunning (t : nat) | OnceFinished.

(** [closeDone]: [Some false] is an open channel, [Some true] a closed one. *)
Record Scope := mkScope {
  spec : ScopeSpec; closeFn : option nat; closeDone : option bool; releaseTicket : option ReleaseTicket;
  active : bool; ended : once }.
#[export] Instance Scope_eta : Eta Scope :=
  λ s, mkScope (spec s) (closeFn s) (closeDone s) (releaseTicket s) (active s) (ended s).

Record Registry := mkReg {
  state : State; next : Z; snapshotRevision : Z; observedBarrier : Z; pendingBarrierSequence : Z; publishedBarrier : Z;
  pending : gset Z; scopes : gset Z; releaseSequences : gmap ReleaseGroup Z; releaseSink : option nat; changed : nat;
  closeStarted : bool; r_closeDone : option bool; dispatches : gmap Z bool; heap : gmap Z Scope }.
#[export] Instance Registry_eta : Eta Registry := λ r, mkReg
  (state r) (next r) (snapshotRevision r) (observedBarrier r) (pendingBarrierSequence r) (publishedBarrier r)
  (pending r) (scopes r) (releaseSequences r) (releaseSink r) (changed r) (closeStarted r) (r_closeDone r)
  (dispatches r) (heap r).

Definition New : Registry := mkReg StateAccepting 0 0 0 0 0 ∅ ∅ ∅ None 0 false None ∅ ∅.

(** ** Calls under one lock *)

Definition signalLocked (r : Registry) : Registry := r <| changed := S (changed r) |>.

(** The reserved dispatch, or the error. *)
Definition BeginDispatch (r : Registry) : (Z + registryError) * Registry :=
  match state r with
  | StateAccepting =>
      let id := wrapu64 (next r + 1) in
      (inl id, r <| next := id |> <| pending := {[id]} ∪ pending r |> <| dispatches := <[id := false]> (dispatches r) |>)
  | _ => (inr ErrRegistryNotAccepting, r)
  end.

(** [dispatches] says whether the dispatch's [Once] has run. *)
Definition resolve (r : Registry) (id : Z) : Registry :=
  signalLocked (r <| pending := pending r ∖ {[id]} |> <| dispatches := <[id := true]> (dispatches r) |>).
Definition PendingDispatch_End (r : Registry) (id : Z) : Registry :=
  match dispatches r !! id with
  | Some false => resolve r id
  | _ => r
  end.

Definition Install (r : Registry) (id : Z) (s : ScopeSpec) : (Z + registryError) * Registry :=
  match dispatches r !! id with
  | None => (inr ErrInvalidPendingDispatch, r)
  | Some _ =>
      match state r with
      | StateAccepting =>
          if bool_decide (id ∈ pending r)
          then let r := resolve r id in
               (inl id, r <| heap := <[id := mkScope s None None None true OnceFresh]> (heap r) |>
                          <| scopes := {[id]} ∪ scopes r |>)
          else (inr ErrInvalidPendingDispatch, r)
      | _ => (inr ErrRegistryNotAccepting, resolve r id)
      end
  end.

Definition update_scope (r : Registry) (id : Z) (f : Scope → Scope) : Registry := r <| heap := alter f id (heap r) |>.

(** [None] is success. *)
Definition Bind (r : Registry) (id : Z) (closeFn' : option nat) : option registryError * Registry :=
  match heap r !! id, closeFn' with
  | Some s, Some f =>
      match state r with
      | StateAccepting =>
          if active s
          then match closeFn s, closeDone s with
               | None, None => (None, update_scope r id (λ s, s <| closeFn := Some f |>))
               | _, _ => (Some ErrExecutionResourceAlreadyBound, r)
               end
          else (Some ErrRegistryNotAccepting, r)
      | _ => (Some ErrRegistryNotAccepting, r)
      end
  | _, _ => (Some ErrInvalidExecutionResource, r)
  end.

Definition group_of (s : ScopeSpec) : ReleaseGroup := mkGroup (CredentialID s) (Model s).

Definition markReleasedLocked (r : Registry) (s : Scope) : option (option nat * ReleaseGroup * Z) * Registry :=
  if negb (Accounted (spec s)) then (None, r) else
  let group := group_of (spec s) in
  let sequence := wrap64 (default 0 (releaseSequences r !! group) + 1) in
  (Some (releaseSink r, group, sequence), r <| releaseSequences := <[group := sequence]> (releaseSequences r) |>).

(** ** Observations *)

Definition ObserveBarrier (r : Registry) (revision : Z) : Registry :=
  if revision <=? 0 then r
  else if observedBarrier r <? revision
       then r <| observedBarrier := revision |> <| pendingBarrierSequence := next r |>
       else r.

Record Freeze := mkFreeze { Revision : Z; BarrierRevision : Z; Executions : list ScopeSpec }.

(** An observation of an execution shows all fields of its specification. *)
Definition FreezeInFlight (r : Registry) : Freeze * Registry :=
  let blocked := existsb (λ sequence, sequence <=? pendingBarrierSequence r) (elements (pending r)) in
  let r := if (publishedBarrier r <? observedBarrier r) && negb blocked
           then r <| publishedBarrier := observedBarrier r |> else r in
  let r := r <| snapshotRevision := wrap64 (snapshotRevision r + 1) |> in
  (mkFreeze (snapshotRevision r) (publishedBarrier r)
     (omap (λ id, spec <$> heap r !! id) (elements (scopes r))), r).

(** ** Calls that give the lock up *)

(** What the goroutines share, with a record of what happened outside the registry:
    which resource was bound to which execution ([bound]), the closing goroutines that run
    ([closers]), the resources that were closed ([calls]), the executions whose end was
    counted ([marked]) and what the release sinks got ([delivered]). *)
Record world := mkWorld {
  reg : Registry; bound : gmap Z nat; closers : gmap Z nat; calls : list (Z * nat); marked : list Z;
  delivered : list (nat * ReleaseGroup * Z) }.
#[export] Instance world_eta : Eta world :=
  λ w, mkWorld (reg w) (bound w) (closers w) (calls w) (marked w) (delivered w).
Definition start : world := mkWorld New ∅ ∅ [] [] [].

(** Whether there is a channel to wait on. *)
Definition startBoundResourceClose (w : world) (id : Z) : bool * world :=
  match heap (reg w) !! id with
  | None => (false, w)
  | Some s =>
      match closeDone s, closeFn s with
      | Some _, _ => (true, w)
      | None, None => (false, w)
      | None, Some f =>
          (true, w <| reg := update_scope (reg w) id (λ s, s <| closeFn := None |> <| closeDone := Some false |>) |>
                   <| closers := <[id := f]> (closers w) |>)
      end
  end.
(** The closing goroutine of an execution: it calls the function and closes the channel. *)
Definition closeResource (w : world) (id : Z) (f : nat) : world :=
  w <| reg := update_scope (reg w) id (λ s, s <| closeDone := Some true |>) |>
    <| closers := delete id (closers w) |> <| calls := calls w ++ [(id, f)] |>.

Inductive callError := Refused (e : registryError) | ContextDone.

Inductive pc :=
(* EndWithRelease *)
| EndCalled (id : Z) | EndDeactivate (id : Z) | EndCloseStart (id : Z) | EndCloseWait (id : Z) | EndMark (id : Z)
| EndSink (id : Z) (sink : nat) (group : ReleaseGroup) (sequence : Z) | EndTicket (id : Z) (ticket : option ReleaseTicket)
| EndDelete (id : Z) | EndOnce (id : Z) | EndResult (id : Z) | EndReturned (ticket : option ReleaseTicket)
(* SetReleaseSink *)
| SinkCalled (sink : option nat) | SinkReplay (sink : nat) (l : list (ReleaseGroup * Z)) | SinkReturned
(* Drain *)
| DrainCalled | DrainSnapshot | DrainCancel (l : list Z) | DrainCheck | DrainWait (seen : nat)
| DrainReturned (err : option callError)
(* Close *)
| CloseCalled | CloseJoin | CloseState | CloseSnapshot | CloseScopes (l : list Z) | CloseWait (id : Z) (l : list Z)
| CloseFinish | CloseReturned
(* WaitPending *)
| AwaitCheck | AwaitWait (seen : nat) | AwaitReturned (err : option callError).

Definition scope_of (w : world) (id : Z) : option Scope := heap (reg w) !! id.
Definition on_scope (w : world) (id : Z) (f : Scope → Scope) : world := w <| reg := update_scope (reg w) id f |>.

(** [EndWithRelease]: one step of thread [t]. *)
Inductive end_step (t : nat) (w : world) : pc → world → pc → Prop :=
| end_first id s : scope_of w id = Some s → ended s = OnceFresh →
    end_step t w (EndCalled id) (on_scope w id (λ s, s <| ended := OnceRunning t |>)) (EndDeactivate id)
| end_again id s : scope_of w id = Some s → ended s = OnceFinished → end_step t w (EndCalled id) w (EndResult id)
| end_deactivate id :
    end_step t w (EndDeactivate id) (on_scope w id (λ s, s <| active := false |>)) (EndCloseStart id)
| end_close_start id :
    end_step t w (EndCloseStart id) (startBoundResourceClose w id).2
      (if (startBoundResourceClose w id).1 then EndCloseWait id else EndMark id)
| end_close_wait id s : scope_of w id = Some s → closeDone s = Some true → end_step t w (EndCloseWait id) w (EndMark id)
| end_mark id s : scope_of w id = Some s →
    end_step t w (EndMark id) (w <| reg := (markReleasedLocked (reg w) s).2 |> <| marked := marked w ++ [id] |>)
      match (markReleasedLocked (reg w) s).1 with
      | Some (Some sink, group, sequence) => if 0 <? sequence then EndSink id sink group sequence else EndTicket id None
      | _ => EndTicket id None
      end
| end_sink id sink group sequence ticket :
    end_step t w (EndSink id sink group sequence)
      (w <| delivered := delivered w ++ [(sink, group, sequence)] |>) (EndTicket id ticket)
| end_ticket id ticket :
    end_step t w (EndTicket id ticket) (on_scope w id (λ s, s <| releaseTicket := ticket |>)) (EndDelete id)
| end_delete id :
    end_step t w (EndDelete id)
      (w <| reg := signalLocked ((reg w) <| scopes := scopes (reg w) ∖ {[id]} |>) |>) (EndOnce id)
| end_once id : end_step t w (EndOnce id) (on_scope w id (λ s, s <| ended := OnceFinished |>)) (EndResult id)
| end_result id s : scope_of w id = Some s → end_step t w (EndResult id) w (EndReturned (releaseTicket s)).

(** [SetReleaseSink]: the replay runs without the lock. *)
Inductive sink_step (w : world) : pc → world → pc → Prop :=
| sink_set sink l : l ≡ₚ map_to_list (releaseSequences (reg w)) →
    sink_step w (SinkCalled sink) (w <| reg := (reg w) <| releaseSink := sink |> |>)
      match sink with Some k => SinkReplay k l | None => SinkReturned end
| sink_replay k group sequence l :
    sink_step w (SinkReplay k ((group, sequence) :: l))
      (if 0 <? sequence then w <| delivered := delivered w ++ [(k, group, sequence)] |> else w) (SinkReplay k l)
| sink_done k : sink_step w (SinkReplay k []) w SinkReturned.

(** [Drain]. *)
Inductive drain_step (w : world) : pc → world → pc → Prop :=
| drain_closed : state (reg w) = StateClosed → drain_step w DrainCalled w (DrainReturned (Some (Refused ErrRegistryClosed)))
| drain_open : state (reg w) ≠ StateClosed →
    drain_step w DrainCalled (w <| reg := (reg w) <| state := StateDraining |> |>) DrainSnapshot
| drain_snapshot l : l ≡ₚ elements (scopes (reg w)) → drain_step w DrainSnapshot w (DrainCancel l)
| drain_cancel id l : drain_step w (DrainCancel (id :: l)) (startBoundResourceClose w id).2 (DrainCancel l)
| drain_cancelled : drain_step w (DrainCancel []) w DrainCheck
| drain_finish : pending (reg w) = ∅ → scopes (reg w) = ∅ →
    drain_step w DrainCheck (w <| reg := (reg w) <| state := StateClosed |> |>) (DrainReturned None)
| drain_wait : pending (reg w) ≠ ∅ ∨ scopes (reg w) ≠ ∅ → drain_step w DrainCheck w (DrainWait (changed (reg w)))
| drain_wake seen : (seen < changed (reg w))%nat → drain_step w (DrainWait seen) w DrainCheck
| drain_context seen : drain_step w (DrainWait seen) w (DrainReturned (Some ContextDone)).

(** [Close]. *)
Inductive close_step (w : world) : pc → world → pc → Prop :=
| close_join : closeStarted (reg w) = true → close_step w CloseCalled w CloseJoin
| close_joined : r_closeDone (reg w) = Some true → close_step w CloseJoin w CloseReturned
| close_closed : closeStarted (reg w) = false → state (reg w) = StateClosed → close_step w CloseCalled w CloseReturned
| close_first : closeStarted (reg w) = false → state (reg w) ≠ StateClosed →
    close_step w CloseCalled (w <| reg := (reg w) <| closeStarted := true |> <| r_closeDone := Some false |> |>) CloseState
| close_state : close_step w CloseState (w <| reg := (reg w) <| state := StateClosed |> |>) CloseSnapshot
| close_snapshot l : l ≡ₚ elements (scopes (reg w)) → close_step w CloseSnapshot w (CloseScopes l)
| close_scope id l :
    close_step w (CloseScopes (id :: l)) (startBoundResourceClose w id).2
      (if (startBoundResourceClose w id).1 then CloseWait id l else CloseScopes l)
| close_wait id l s : scope_of w id = Some s → closeDone s = Some true → close_step w (CloseWait id l) w (CloseScopes l)
| close_scopes : close_step w (CloseScopes []) w CloseFinish
| close_finish : close_step w CloseFinish (w <| reg := (reg w) <| r_closeDone := Some true |> |>) CloseReturned.

(** [WaitPending]. *)
Inductive await_step (w : world) : pc → world → pc → Prop :=
| await_done : pending (reg w) = ∅ → await_step w AwaitCheck w (AwaitReturned None)
| await_wait : pending (reg w) ≠ ∅ → await_step w AwaitCheck w (AwaitWait (changed (reg w)))
| await_wake seen : (seen < changed (reg w))%nat → await_step w (AwaitWait seen) w AwaitCheck
| await_context seen : await_step w (AwaitWait seen) w (AwaitReturned (Some ContextDone)).

(** One step of thread [t]: [thread_step t w p w' p']. *)
Inductive thread_step (t : nat) (w : world) (p : pc) (w' : world) (p' : pc) : Prop :=
| by_end : end_step t w p w' p' → thread_step t w p w' p'
| by_sink : sink_step w p w' p' → thread_step t w p w' p'
| by_drain : drain_step w p w' p' → thread_step t w p w' p'
| by_close : close_step w p w' p' → thread_step t w p w' p'
| by_await : await_step w p w' p' → thread_step t w p w' p'.

(** The calls under one lock, made by anybody, and the closing goroutines. *)
Inductive call_step (w : world) : world → Prop :=
| call_begin : call_step w (w <| reg := (BeginDispatch (reg w)).2 |>)
| call_end id : call_step w (w <| reg := PendingDispatch_End (reg w) id |>)
| call_install id s : call_step w (w <| reg := (Install (reg w) id s).2 |>)
| call_bind id f :
    call_step w (w <| reg := (Bind (reg w) id (Some f)).2 |>
                   <| bound := match (Bind (reg w) id (Some f)).1 with None => <[id := f]> (bound w) | Some _ => bound w end |>)
| call_observe revision : call_step w (w <| reg := ObserveBarrier (reg w) revision |>)
| call_freeze : call_step w (w <| reg := (FreezeInFlight (reg w)).2 |>)
| call_closed id f : closers w !! id = Some f → call_step w (closeResource w id f).

(** Where a call that gives the lock up begins; an execution is ended by its owner. *)
Definition entry (w : world) (p : pc) : Prop :=
  match p with
  | EndCalled id => is_Some (scope_of w id)
  | SinkCalled _ | DrainCalled | CloseCalled | AwaitCheck => True
  | _ => False
  end.

Abbreviation threads := (gmap nat pc).
Inductive step : world * threads → world * threads → Prop :=
| step_call w w' ts : call_step w w' → step (w, ts) (w', ts)
| step_enter w ts t p : ts !! t = None → entry w p → step (w, ts) (w, <[t := p]> ts)
| step_thread w w' ts t p p' : ts !! t = Some p → thread_step t w p w' p' → step (w, ts) (w', <[t := p']> ts).

(** [steps n s s']: [n] steps lead from [s] to [s']. *)
Inductive steps : nat → world * threads → world * threads → Prop :=
| steps_refl s : steps 0 s s
| steps_next n s s' s'' : steps n s s' → step s' s'' → steps (S n) s s''.
Definition reachable (n : nat) (s : world * threads) : Prop := steps n (start, ∅) s.
