(* ===== verification/ExecutionInvariant.v ===== *)
(** * What always holds of the registry of executions

    What the shared state says of one execution is its [view]; [world_ok] is the
    invariant, mostly view by view.  [evolves] is what a step of one thread guarantees to
    the others, [thread_ok] what a thread relies on at its program counter: the facts of a
    thread are stable under the steps of the others (rely and guarantee), so along every
    interleaving both hold ([execution_ok]). *)
From Stdlib Require Import ZArith Lia String Bool.
From stdpp Require Import prelude gmap strings.
From S2P Require Import Prelude GoStd ExecutionRegistry.
Local Open Scope string_scope.
Local Open Scope list_scope.
Local Open Scope Z_scope.

(** ** One execution *)

Record view := mkView {
  v_scope : option Scope; v_dispatch : option bool; v_bound : option nat; v_closer : option nat; v_calls : list nat;
  v_live : bool; v_marked : nat }.
Definition calls_of (id : Z) (l : list (Z * nat)) : list nat :=
  omap (λ c : Z * nat, if c.1 =? id then Some c.2 else None) l.
Definition marks_of (id : Z) (l : list Z) : nat := length (filter (λ x, x = id) l).
Definition local (w : world) (id : Z) : view :=
  mkView (heap (reg w) !! id) (dispatches (reg w) !! id) (bound w !! id) (closers w !! id) (calls_of id (calls w))
    (bool_decide (id ∈ scopes (reg w))) (marks_of id (marked w)).

Arguments calls_of : simpl never.
Arguments marks_of : simpl never.

(** Nothing can be bound to it any more and nothing is being closed. *)
Definition quiet (s : Scope) : Prop := active s = false ∧ closeFn s = None ∧ closeDone s ≠ Some false.

Definition resource_ok (s : Scope) (v : view) : Prop :=
  match v_bound v with
  | None => closeFn s = None ∧ closeDone s = None ∧ v_closer v = None ∧ v_calls v = []
  | Some f =>
      (closeFn s = Some f ∧ closeDone s = None ∧ v_closer v = None ∧ v_calls v = [])
      ∨ (closeFn s = None ∧ closeDone s = Some false ∧ v_closer v = Some f ∧ v_calls v = [])
      ∨ (closeFn s = None ∧ closeDone s = Some true ∧ v_closer v = None ∧ v_calls v = [f])
  end.
Definition once_ok (s : Scope) (v : view) : Prop :=
  match ended s with
  | OnceFresh => v_live v = true ∧ v_marked v = 0%nat ∧ active s = true
  | OnceRunning _ => v_live v = true ∧ (v_marked v <= 1)%nat ∨ v_live v = false ∧ v_marked v = 1%nat ∧ quiet s
  | OnceFinished => v_live v = false ∧ v_marked v = 1%nat ∧ quiet s
  end.
Definition view_ok (v : view) : Prop :=
  match v_scope v with
  | None => v_bound v = None ∧ v_closer v = None ∧ v_calls v = [] ∧ v_live v = false ∧ v_marked v = 0%nat
  | Some s => v_dispatch v = Some true ∧ resource_ok s v ∧ once_ok s v
  end.

(** ** The whole *)

Definition counted (h : gmap Z Scope) (g : ReleaseGroup) (id : Z) : bool :=
  match h !! id with
  | Some s => Accounted (spec s) && bool_decide (group_of (spec s) = g)
  | None => false
  end.
Definition ended_of (w : world) (g : ReleaseGroup) : Z :=
  Z.of_nat (length (filter (λ id, counted (heap (reg w)) g id = true) (marked w))).

Record dispatch_ok (n : nat) (r : Registry) : Prop := {
  do_next : 0 <= next r <= Z.of_nat n;
  do_ids : ∀ id, is_Some (dispatches r !! id) → 1 <= id <= next r;
  do_pending : ∀ id, id ∈ pending r ↔ dispatches r !! id = Some false;
  do_sequence : 0 <= pendingBarrierSequence r <= next r;
  do_barrier : publishedBarrier r <= observedBarrier r }.

Definition all_closed (w : world) : Prop := ∀ id f, bound w !! id = Some f → calls_of id (calls w) = [f].
Record close_ok (w : world) : Prop := {
  co_closed : state (reg w) = StateClosed → closeStarted (reg w) = true ∨ pending (reg w) = ∅ ∧ scopes (reg w) = ∅;
  co_done : r_closeDone (reg w) = Some true → state (reg w) = StateClosed ∧ all_closed w }.

Record releases_ok (n : nat) (w : world) : Prop := {
  ro_length : (length (marked w) <= n)%nat;
  ro_exact : ∀ g, default 0 (releaseSequences (reg w) !! g) = ended_of w g;
  ro_positive : ∀ g m, releaseSequences (reg w) !! g = Some m → 0 < m }.

Record world_ok (n : nat) (w : world) : Prop := {
  wo_dispatch : dispatch_ok n (reg w);
  wo_view : ∀ id, view_ok (local w id);
  wo_close : close_ok w;
  wo_releases : releases_ok n w }.

(** ** Rely and guarantee *)

Definition state_rank (s : State) : nat := match s with StateAccepting => 0 | StateDraining => 1 | StateClosed => 2 end.

(** What a step of thread [t] ([None]: nobody's) does to an execution. *)
Definition view_evolves (t : option nat) (v v' : view) : Prop :=
  match v_scope v with
  | None => True
  | Some s => ∃ s', v_scope v' = Some s' ∧ spec s' = spec s
      ∧ (active s = false → active s' = false)
      ∧ (active s = false → closeFn s = None → closeFn s' = None)
      ∧ (is_Some (closeDone s) → closeFn s = None → is_Some (closeDone s') ∧ closeFn s' = None)
      ∧ (quiet s → quiet s')
      ∧ (∀ u, ended s = OnceRunning u → t ≠ Some u →
           ended s' = OnceRunning u ∧ v_live v' = v_live v ∧ v_marked v' = v_marked v)
      ∧ (ended s = OnceFinished → ended s' = OnceFinished)
      ∧ (v_calls v ≠ [] → v_calls v' = v_calls v)
  end.

Record evolves (t : option nat) (w w' : world) : Prop := {
  ev_state : (state_rank (state (reg w)) <= state_rank (state (reg w')))%nat;
  ev_stopped : state (reg w) ≠ StateAccepting → bound w' = bound w ∧ pending (reg w') ⊆ pending (reg w)
    ∧ scopes (reg w') ⊆ scopes (reg w) ∧ dom (heap (reg w')) = dom (heap (reg w));
  ev_changed : (changed (reg w) <= changed (reg w'))%nat;
  ev_unsignalled : changed (reg w) = changed (reg w') →
    pending (reg w) ⊆ pending (reg w') ∧ scopes (reg w) ⊆ scopes (reg w');
  ev_started : closeStarted (reg w) = true → closeStarted (reg w') = true;
  ev_view : ∀ id, view_evolves t (local w id) (local w' id) }.

Definition in_phase (t : nat) (v : view) (live : bool) (marks : nat) (P : Scope → Prop) : Prop :=
  ∃ s, v_scope v = Some s ∧ ended s = OnceRunning t ∧ v_live v = live ∧ v_marked v = marks ∧ P s.
Definition closed_but (w : world) (l : list Z) : Prop :=
  ∀ id f, bound w !! id = Some f → calls_of id (calls w) = [f] ∨ id ∈ l.

(** What thread [t] knows at its program counter. *)
Definition thread_ok (t : nat) (w : world) (p : pc) : Prop :=
  let v := local w in
  match p with
  | EndCalled id => is_Some (v_scope (v id))
  | EndDeactivate id => in_phase t (v id) true 0 (λ s, True)
  | EndCloseStart id => in_phase t (v id) true 0 (λ s, active s = false)
  | EndCloseWait id => in_phase t (v id) true 0 (λ s, active s = false ∧ closeFn s = None ∧ is_Some (closeDone s))
  | EndMark id => in_phase t (v id) true 0 quiet
  | EndSink id _ _ _ | EndTicket id _ | EndDelete id => in_phase t (v id) true 1 quiet
  | EndOnce id => in_phase t (v id) false 1 quiet
  | EndResult id => ∃ s, v_scope (v id) = Some s ∧ ended s = OnceFinished
  | DrainSnapshot | DrainCancel _ | DrainCheck => state (reg w) ≠ StateAccepting
  | DrainWait seen => state (reg w) ≠ StateAccepting ∧ (seen <= changed (reg w))%nat
      ∧ (seen = changed (reg w) → pending (reg w) ≠ ∅ ∨ scopes (reg w) ≠ ∅)
  | DrainReturned None => state (reg w) = StateClosed ∧ pending (reg w) = ∅ ∧ scopes (reg w) = ∅
  | CloseJoin => closeStarted (reg w) = true
  | CloseState => closeStarted (reg w) = true
  | CloseSnapshot => state (reg w) = StateClosed
  | CloseScopes l => state (reg w) = StateClosed ∧ closed_but w l
  | CloseWait id l => state (reg w) = StateClosed ∧ closed_but w (id :: l)
  | CloseFinish | CloseReturned => state (reg w) = StateClosed ∧ all_closed w
  | AwaitWait seen => (seen <= changed (reg w))%nat ∧ (seen = changed (reg w) → pending (reg w) ≠ ∅)
  | _ => True
  end.

(** ** Stability *)

Lemma evolves_calls t w w' l : evolves t w w' → state (reg w) = StateClosed → (∀ id, view_ok (local w id)) →
  closed_but w l → closed_but w' l.
Proof.
  intros Hev Hst Hv Hcl id f Hb. destruct (ev_stopped t w w' Hev) as (Eb & _); [by rewrite Hst|]. rewrite Eb in Hb.
  destruct (Hcl id f Hb) as [Hc|?]; [left|by right]. specialize (Hv id). unfold view_ok in Hv.
  pose proof (ev_view t w w' Hev id) as He. unfold view_evolves in He. destruct (v_scope (local w id)) as [s|] eqn:Es.
  - destruct He as (s' & _ & _ & _ & _ & _ & _ & _ & _ & He). cbn in He. rewrite He; [done|]. by rewrite Hc.
  - destruct Hv as (Hn & _). cbn in Hn. by rewrite Hb in Hn.
Qed.
Lemma all_closed_but w : all_closed w ↔ closed_but w [].
Proof.
  split; intros H id f Hb; [left; by apply H|]. destruct (H id f Hb) as [?|Hin]; [done|by apply not_elem_of_nil in Hin].
Qed.

Lemma in_phase_stable t u v v' b m P : view_evolves u v v' → u ≠ Some t →
  (∀ s s', P s → v_scope v = Some s → v_scope v' = Some s' →
     (active s = false → active s' = false) → (active s = false → closeFn s = None → closeFn s' = None) →
     (is_Some (closeDone s) → closeFn s = None → is_Some (closeDone s') ∧ closeFn s' = None) → (quiet s → quiet s') → P s') →
  in_phase t v b m P → in_phase t v' b m P.
Proof.
  intros He Hu HP (s & Es & Hr & Hl & Hm & Hp). unfold view_evolves in He. rewrite Es in He.
  destruct He as (s' & Es' & _ & Ha & Hf & Hd & Hq & Ho & _ & _). destruct (Ho t Hr Hu) as (Hr' & Hl' & Hm').
  exists s'. split_and!; [done|done|by rewrite Hl'|by rewrite Hm'|by eapply HP].
Qed.

Lemma thread_ok_stable n t u w w' p : world_ok n w → evolves u w w' → u ≠ Some t → thread_ok t w p → thread_ok t w' p.
Proof.
  intros Hw Hev Hu. pose proof (ev_view u w w' Hev) as Hview. pose proof (ev_state u w w' Hev) as Hst.
  assert (state (reg w) = StateClosed → state (reg w') = StateClosed) as Hclosed
    by (intros E; rewrite E in Hst; cbn in Hst; destruct (state (reg w')); cbn in Hst; (done || lia)).
  assert (state (reg w) ≠ StateAccepting → state (reg w') ≠ StateAccepting) as Hstop
    by (intros E E'; rewrite E' in Hst; cbn in Hst; destruct (state (reg w)); cbn in Hst; (done || lia)).
  pose proof (evolves_calls u w w') as Hcalls.
  pose proof (wo_view n w Hw) as Hv. pose proof (ev_changed u w w' Hev) as Hch. pose proof (ev_unsignalled u w w' Hev) as Hun.
  destruct p as [id|id|id|id|id|id ? ? ?|id ?|id|id|id|?|?|? ?| | | |?| |seen|[err|]| | | | |l|id l| | | |seen|?];
    cbn [thread_ok]; intros Ht; try done; try (by apply Hstop); try (by apply Hclosed);
    try (by apply (ev_started u w w' Hev));
    try (eapply in_phase_stable; [apply Hview|done| |exact Ht]; naive_solver).
  - destruct Ht as [s Hs]. specialize (Hview id). unfold view_evolves in Hview. rewrite Hs in Hview.
    destruct Hview as (s' & -> & _). eauto.
  - destruct Ht as (s & Hs & Hf). specialize (Hview id). unfold view_evolves in Hview. rewrite Hs in Hview.
    destruct Hview as (s' & -> & _ & _ & _ & _ & _ & _ & He & _). eauto.
  - destruct Ht as (Hs & Hle & Hne). split; [by apply Hstop|]. split; [lia|]. intros ->.
    destruct Hun as [H1 H2]; [lia|]. destruct (Hne ltac:(lia)) as [?|?]; [left|right]; set_solver.
  - destruct Ht as (Hs & Hp & Hsc). split; [by apply Hclosed|]. destruct (ev_stopped u w w' Hev) as (_ & ? & ? & _); [by rewrite Hs|].
    split; set_solver.
  - destruct Ht as [Hs Hc]. split; [by apply Hclosed|by apply Hcalls].
  - destruct Ht as [Hs Hc]. split; [by apply Hclosed|by apply Hcalls].
  - destruct Ht as [Hs Hc]. split; [by apply Hclosed|]. rewrite all_closed_but in *. by apply Hcalls.
  - destruct Ht as [Hs Hc]. split; [by apply Hclosed|]. rewrite all_closed_but in *. by apply Hcalls.
  - destruct Ht as (Hle & Hne). split; [lia|]. intros ->. destruct Hun as [H1 _]; [lia|].
    specialize (Hne ltac:(lia)). set_solver.
Qed.

(** ** Steps that touch one execution *)

Lemma view_evolves_refl t v : view_evolves t v v.
Proof. unfold view_evolves. destruct (v_scope v) as [s|]; [|done]. by exists s. Qed.

Lemma views_at t n w w' id0 : world_ok n w → (∀ id, id ≠ id0 → local w' id = local w id) →
  (view_ok (local w id0) → view_ok (local w' id0) ∧ view_evolves t (local w id0) (local w' id0)) →
  (∀ id, view_ok (local w' id)) ∧ (∀ id, view_evolves t (local w id) (local w' id)).
Proof.
  intros Hw Hother H0. destruct (H0 (wo_view n w Hw id0)) as [Hok Hev].
  split; intros id; (destruct (decide (id = id0)) as [->|Hne]; [done|rewrite (Hother id Hne)]);
    [apply (wo_view n w Hw)|apply view_evolves_refl].
Qed.

Lemma dispatch_same n r r' : dispatch_ok n r → next r' = next r → dispatches r' = dispatches r → pending r' = pending r →
  pendingBarrierSequence r' = pendingBarrierSequence r → publishedBarrier r' <= observedBarrier r' → dispatch_ok (S n) r'.
Proof. intros [H1 H2 H3 H4 H5] E1 E2 E3 E4 E5. split; rewrite ?E1, ?E2, ?E3, ?E4; auto; lia. Qed.

Lemma counted_ext h h' g (l : list Z) : (∀ id, id ∈ l → spec <$> h !! id = spec <$> h' !! id) →
  filter (λ id, counted h' g id = true) l = filter (λ id, counted h g id = true) l.
Proof.
  induction l as [|id l IH]; intros Hl; [done|]. rewrite !filter_cons, IH by (intros; apply Hl; by right).
  assert (counted h' g id = counted h g id) as ->; [|done]. specialize (Hl id ltac:(left)). unfold counted.
  destruct (h !! id) as [s|], (h' !! id) as [s'|]; try done. cbn in Hl. injection Hl as E. by rewrite E.
Qed.

Lemma marked_scope w id : view_ok (local w id) → id ∈ marked w → ∃ s, heap (reg w) !! id = Some s.
Proof.
  unfold view_ok. cbn. intros Hv Hin. destruct (heap (reg w) !! id) as [s|]; [by exists s|].
  destruct Hv as (_ & _ & _ & _ & Hm). unfold marks_of in Hm. apply nil_length_inv in Hm.
  assert (id ∈ filter (λ x, x = id) (marked w)) as Hf by (by apply list_elem_of_filter).
  rewrite Hm in Hf. by apply not_elem_of_nil in Hf.
Qed.

Lemma specs_kept n t w w' : world_ok n w → (∀ id, view_evolves t (local w id) (local w' id)) → ∀ id, id ∈ marked w →
  spec <$> heap (reg w) !! id = spec <$> heap (reg w') !! id.
Proof.
  intros Hw Hev id Hin. destruct (marked_scope w id (wo_view n w Hw id) Hin) as [s Hs].
  specialize (Hev id). unfold view_evolves in Hev. cbn in Hev. rewrite Hs in Hev. destruct Hev as (s' & -> & Hsp & _).
  rewrite Hs. cbn. by rewrite Hsp.
Qed.

Lemma releases_same n t w w' : world_ok n w → (∀ id, view_evolves t (local w id) (local w' id)) →
  marked w' = marked w → releaseSequences (reg w') = releaseSequences (reg w) → releases_ok (S n) w'.
Proof.
  intros Hw Hev Em Es. destruct (wo_releases n w Hw) as [H1 H2 H3]. split; rewrite ?Em, ?Es; [lia| |done].
  intros g. rewrite H2. unfold ended_of. rewrite Em. do 2 f_equal. symmetry. apply counted_ext. by apply (specs_kept n t).
Qed.

Lemma close_same n t w w' : world_ok n w → evolves t w w' → (∀ id, view_ok (local w' id)) →
  state (reg w') = state (reg w) → r_closeDone (reg w') = r_closeDone (reg w) → close_ok w'.
Proof.
  intros Hw Hev _ Es Ed. destruct (wo_close n w Hw) as [H1 H2]. split; rewrite Es, ?Ed.
  - intros Hc. destruct (H1 Hc) as [Hs|[Hp Hsc]]; [left; by apply (ev_started t w w' Hev)|right].
    destruct (ev_stopped t w w' Hev) as (_ & ? & ? & _); [by rewrite Hc|]. split; set_solver.
  - intros Hd. destruct (H2 Hd) as [Hc Ha]. split; [done|]. rewrite all_closed_but in *.
    by apply (evolves_calls t w w' [] Hev Hc (wo_view n w Hw)).
Qed.

(** Everything but the executions themselves stays as it is. *)
Record framed (w w' : world) : Prop := {
  fr_state : state (reg w') = state (reg w);
  fr_started : closeStarted (reg w') = closeStarted (reg w);
  fr_done : r_closeDone (reg w') = r_closeDone (reg w);
  fr_pending : pending (reg w') = pending (reg w);
  fr_scopes : scopes (reg w') = scopes (reg w);
  fr_changed : changed (reg w') = changed (reg w);
  fr_dispatch : ∀ n, dispatch_ok n (reg w) → dispatch_ok (S n) (reg w');
  fr_bound : state (reg w) ≠ StateAccepting → bound w' = bound w;
  fr_dom : dom (heap (reg w')) = dom (heap (reg w)) }.

Lemma framed_evolves t w w' : framed w w' → (∀ id, view_evolves t (local w id) (local w' id)) → evolves t w w'.
Proof.
  intros [E1 E2 E3 E4 E5 E6 _ E7 E8] Hv. split; rewrite ?E1, ?E2, ?E4, ?E5, ?E6; auto.
Qed.

(** A framed step that leaves the counts of ended executions alone. *)
Lemma framed_ok n t w w' id0 : world_ok n w → framed w w' → marked w' = marked w →
  releaseSequences (reg w') = releaseSequences (reg w) → (∀ id, id ≠ id0 → local w' id = local w id) →
  (view_ok (local w id0) → view_ok (local w' id0) ∧ view_evolves t (local w id0) (local w' id0)) →
  world_ok (S n) w' ∧ evolves t w w'.
Proof.
  intros Hw Hf Em Es Hother H0. destruct (views_at t n w w' id0 Hw Hother H0) as [Hok Hv].
  pose proof (framed_evolves t w w' Hf Hv) as Hev. split; [|done]. split; [|done| |].
  - apply (fr_dispatch w w' Hf), (wo_dispatch n w Hw).
  - apply (close_same n t w); [done|done|done|apply Hf|apply Hf].
  - by apply (releases_same n t w).
Qed.

Lemma dom_alter_scope (h : gmap Z Scope) id f : dom (alter f id h) = dom h.
Proof. apply dom_alter_L. Qed.

Lemma on_scope_framed w w' id f : heap (reg w') = alter f id (heap (reg w)) →
  state (reg w') = state (reg w) → closeStarted (reg w') = closeStarted (reg w) → r_closeDone (reg w') = r_closeDone (reg w) →
  pending (reg w') = pending (reg w) → scopes (reg w') = scopes (reg w) → changed (reg w') = changed (reg w) →
  next (reg w') = next (reg w) → dispatches (reg w') = dispatches (reg w) →
  pendingBarrierSequence (reg w') = pendingBarrierSequence (reg w) → publishedBarrier (reg w') = publishedBarrier (reg w) →
  observedBarrier (reg w') = observedBarrier (reg w) → (state (reg w) ≠ StateAccepting → bound w' = bound w) → framed w w'.
Proof.
  intros Eh E1 E2 E3 E4 E5 E6 E7 E8 E9 E10 E11 E12. split; try done.
  - intros n Hd. apply (dispatch_same n (reg w)); try done. rewrite E10, E11. apply Hd.
  - rewrite Eh. apply dom_alter_scope.
Qed.

Definition with_scope (v : view) (s : Scope) : view :=
  mkView (Some s) (v_dispatch v) (v_bound v) (v_closer v) (v_calls v) (v_live v) (v_marked v).

Lemma on_scope_ok n t w id f : world_ok n w →
  (∀ s, scope_of w id = Some s → view_ok (local w id) →
     view_ok (with_scope (local w id) (f s)) ∧ view_evolves t (local w id) (with_scope (local w id) (f s))) →
  world_ok (S n) (on_scope w id f) ∧ evolves t w (on_scope w id f).
Proof.
  intros Hw Hf. apply (framed_ok n t w _ id); [done| |done|done| |].
  - by apply (on_scope_framed w _ id f).
  - intros id' Hne. unfold local. cbn. by rewrite lookup_alter_ne.
  - intros Hv. unfold scope_of in Hf. destruct (heap (reg w) !! id) as [s|] eqn:Es.
    + assert (local (on_scope w id f) id = with_scope (local w id) (f s)) as -> by (unfold local, with_scope; cbn; by rewrite lookup_alter_eq, Es).
      by apply Hf.
    + assert (local (on_scope w id f) id = local w id) as -> by (unfold local; cbn; by rewrite lookup_alter_eq, Es).
      split; [done|apply view_evolves_refl].
Qed.

(** The case analysis of one view before and after. *)
Ltac evolve_view :=
  unfold view_evolves, quiet; cbn; eexists; split; [reflexivity|]; cbn;
  split_and!; intros; destruct_and?; simplify_eq/=; try done; try congruence; try (split_and!; congruence || done); eauto.
Ltac scope_cases s := destruct s as [sp cf cd tk a o]; unfold view_ok, resource_ok, once_ok, quiet; cbn.

Section actions.
Context (n : nat) (t : nat) (w : world) (Hw : world_ok n w).

Lemma at_scope id s f : scope_of w id = Some s →
  (∀ v, v_scope v = Some s → view_ok v → view_ok (with_scope v (f s)) ∧ view_evolves (Some t) v (with_scope v (f s))) →
  world_ok (S n) (on_scope w id f) ∧ evolves (Some t) w (on_scope w id f).
Proof using Hw.
  intros Hs Hf. apply on_scope_ok; [done|]. intros s' Hs'. rewrite Hs in Hs'. injection Hs' as <-. by apply Hf.
Qed.

Lemma act_end_first id s : scope_of w id = Some s → ended s = OnceFresh →
  world_ok (S n) (on_scope w id (λ s, s <| ended := OnceRunning t |>)) ∧
  evolves (Some t) w (on_scope w id (λ s, s <| ended := OnceRunning t |>)).
Proof using Hw.
  intros Hs He. apply (at_scope id s); [done|]. intros [ov d b cl cs l m]; cbn; intros ->. scope_cases s. cbn in He; subst.
  intros (-> & Hr & -> & -> & ->). split; [|evolve_view]. split; [done|]. split; [exact Hr|left; split; [done|lia]].
Qed.

(** What the thread that runs the [Once] does to its execution. *)
Lemma in_run id live marks P f : in_phase t (local w id) live marks P →
  (∀ s v, ended s = OnceRunning t → v_scope v = Some s → v_live v = live → v_marked v = marks → P s → view_ok v →
     view_ok (with_scope v (f s)) ∧ view_evolves (Some t) v (with_scope v (f s))) →
  world_ok (S n) (on_scope w id f) ∧ evolves (Some t) w (on_scope w id f).
Proof using Hw.
  intros (s & Hs & He & Hl & Hm & Hp) Hf. apply on_scope_ok; [done|]. intros s' Hs'. unfold scope_of in Hs'. cbn in Hs. rewrite Hs in Hs'.
  injection Hs' as <-. by apply Hf.
Qed.

Lemma act_deactivate id : in_phase t (local w id) true 0 (λ _, True) →
  world_ok (S n) (on_scope w id (λ s, s <| active := false |>)) ∧ evolves (Some t) w (on_scope w id (λ s, s <| active := false |>)).
Proof using Hw.
  intros Hin. apply (in_run id true 0 (λ _, True)); [done|]. intros s [ov d b cl cs l m] He; cbn. intros -> -> -> _. revert He. scope_cases s.
  intros ->. intros (-> & Hr & _). split; [|evolve_view]. split; [done|]. split; [exact Hr|left; split; [done|lia]].
Qed.

Lemma act_ticket id ticket : in_phase t (local w id) true 1 quiet →
  world_ok (S n) (on_scope w id (λ s, s <| releaseTicket := ticket |>)) ∧
  evolves (Some t) w (on_scope w id (λ s, s <| releaseTicket := ticket |>)).
Proof using Hw.
  intros Hin. apply (in_run id true 1 quiet); [done|]. intros s [ov d b cl cs l m] He; cbn. intros -> -> ->. revert He. scope_cases s.
  intros -> (-> & -> & Hcd) (-> & Hr & _). split; [|evolve_view]. split; [done|]. split; [exact Hr|left; split; [done|lia]].
Qed.

Lemma act_once id : in_phase t (local w id) false 1 quiet →
  world_ok (S n) (on_scope w id (λ s, s <| ended := OnceFinished |>)) ∧
  evolves (Some t) w (on_scope w id (λ s, s <| ended := OnceFinished |>)).
Proof using Hw.
  intros Hin. apply (in_run id false 1 quiet); [done|]. intros s [ov d b cl cs l m] He; cbn. intros -> -> ->. revert He. scope_cases s.
  intros -> (-> & -> & Hcd) (-> & Hr & _). split; [|evolve_view]. split; [done|]. split; [exact Hr|done].
Qed.

(** Closing a resource and what it leaves. *)
Lemma act_close u id :
  world_ok (S n) (startBoundResourceClose w id).2 ∧ evolves u w (startBoundResourceClose w id).2.
Proof using Hw.
  unfold startBoundResourceClose. destruct (heap (reg w) !! id) as [s|] eqn:Hs.
  2: { apply (framed_ok n u w w id); try done; [by apply (on_scope_framed w w id (λ s, s)); rewrite ?alter_id|]. intros ?; split; [done|apply view_evolves_refl]. }
  destruct (closeDone s) as [cd0|] eqn:Ecd; [|destruct (closeFn s) as [f|] eqn:Ecf].
  1,3: apply (framed_ok n u w w id); try done; [by apply (on_scope_framed w w id (λ s, s)); rewrite ?alter_id|]; intros ?; split; [done|apply view_evolves_refl].
  cbn [snd]. apply (framed_ok n u w _ id); [done| |done|done| |].
  - by eapply on_scope_framed.
  - intros id' Hne. unfold local. cbn. by rewrite lookup_alter_ne, lookup_insert_ne.
  - unfold local. cbn. rewrite lookup_alter_eq, Hs, lookup_insert_eq. cbn. revert Ecd Ecf. scope_cases s. intros -> ->.
    generalize (bool_decide (id ∈ scopes (reg w))) (marks_of id (marked w)) (calls_of id (calls w)) (bound w !! id) (closers w !! id).
    intros l m cs b cl (Hd & Hr & Ho). destruct b as [f'|]; [|destruct Hr as (? & _); discriminate].
    destruct Hr as [(E & _ & -> & ->)|[(E & _)|(E & _)]]; try done. injection E as ->. split.
    + split; [done|]. split; [by right; left|]. destruct o as [|u'|]; [done| |by destruct Ho as (_ & _ & _ & ? & _)].
      left. destruct Ho as [?|(_ & _ & _ & ? & _)]; [done|discriminate].
    + evolve_view.
Qed.

Lemma calls_snoc id id' f l : calls_of id (l ++ [(id', f)]) = calls_of id l ++ (if id' =? id then [f] else []).
Proof using. unfold calls_of. rewrite omap_app. cbn. by destruct (id' =? id). Qed.
Lemma marks_snoc id id' l : marks_of id (l ++ [id']) = (marks_of id l + if decide (id' = id) then 1 else 0)%nat.
Proof using. unfold marks_of. rewrite filter_app, length_app. cbn. by destruct (decide (id' = id)). Qed.

Lemma act_closed u id f : closers w !! id = Some f →
  world_ok (S n) (closeResource w id f) ∧ evolves u w (closeResource w id f).
Proof using Hw.
  intros Hc. apply (framed_ok n u w _ id); [done| |done|done| |].
  - by eapply on_scope_framed.
  - intros id' Hne. unfold local. cbn. rewrite lookup_alter_ne, lookup_delete_ne, calls_snoc by done.
    by rewrite (proj2 (Z.eqb_neq _ _) (not_eq_sym Hne)), app_nil_r.
  - unfold local. cbn. rewrite lookup_alter_eq, lookup_delete_eq, calls_snoc, Z.eqb_refl, Hc.
    destruct (heap (reg w) !! id) as [s|] eqn:Hs; [|unfold view_ok; cbn; intros (_ & ? & _); discriminate].
    cbn. clear Hs. scope_cases s. generalize (bool_decide (id ∈ scopes (reg w))) (marks_of id (marked w)) (calls_of id (calls w)) (bound w !! id).
    intros l m cs b (Hd & Hr & Ho). destruct b as [f'|]; [|destruct Hr as (_ & _ & ? & _); discriminate].
    destruct Hr as [(_ & _ & E & _)|[(-> & -> & E & ->)|(_ & _ & E & _)]]; try discriminate. injection E as ->. split.
    + split; [done|]. split; [by right; right|]. destruct o as [|u'|]; [done| |by destruct Ho as (_ & _ & _ & _ & ?)].
      left. destruct Ho as [?|(_ & _ & _ & _ & ?)]; done.
    + evolve_view.
Qed.

Lemma act_bind u id f : let b := Bind (reg w) id (Some f) in
  let w' := w <| reg := b.2 |> <| bound := match b.1 with None => <[id := f]> (bound w) | Some _ => bound w end |> in
  world_ok (S n) w' ∧ evolves u w w'.
Proof using Hw.
  cbv zeta. assert (∀ e, world_ok (S n) (w <| reg := reg w |> <| bound := match Some e : option registryError with None => <[id := f]> (bound w) | Some _ => bound w end |>)
    ∧ evolves u w (w <| reg := reg w |> <| bound := match Some e with None => <[id := f]> (bound w) | Some _ => bound w end |>)) as Hrefused.
  { intros e. apply (framed_ok n u w _ id); try done; [by apply (on_scope_framed w _ id (λ s, s)); rewrite ?alter_id|].
    intros Hv. split; [exact Hv|apply (view_evolves_refl u (local w id))]. }
  unfold Bind. destruct (heap (reg w) !! id) as [s|] eqn:Hs; [|apply (Hrefused ErrInvalidExecutionResource)].
  destruct (state (reg w)) eqn:Est; [|apply (Hrefused ErrRegistryNotAccepting)..].
  destruct (active s) eqn:Ea; [|apply (Hrefused ErrRegistryNotAccepting)].
  destruct (closeFn s) as [g|] eqn:Ef; [apply (Hrefused ErrExecutionResourceAlreadyBound)|].
  destruct (closeDone s) as [g|] eqn:Ed; [apply (Hrefused ErrExecutionResourceAlreadyBound)|].
  cbn [fst snd]. apply (framed_ok n u w _ id); [done| |done|done| |].
  - eapply on_scope_framed; done || by rewrite Est.
  - intros id' Hne. unfold local. cbn. by rewrite lookup_alter_ne, lookup_insert_ne.
  - unfold local. cbn. rewrite lookup_alter_eq, lookup_insert_eq, Hs. cbn. clear Hs. revert Ea Ef Ed. scope_cases s. intros -> -> ->.
    generalize (bool_decide (id ∈ scopes (reg w))) (marks_of id (marked w)) (calls_of id (calls w)) (bound w !! id) (closers w !! id).
    intros l m cs b cl (Hd & Hr & Ho). destruct b as [f'|]; [destruct Hr as [(E & _)|[(_ & E & _)|(_ & E & _)]]; discriminate|].
    destruct Hr as (_ & _ & -> & ->). split.
    + split; [done|]. split; [by left|]. destruct o as [|u'|]; [done| |by destruct Ho as (_ & _ & ? & _)].
      left. destruct Ho as [?|(_ & _ & ? & _)]; done.
    + evolve_view.
Qed.

(** *** Steps of the registry as a whole *)

(** Steps that change neither the executions nor the dispatches. *)
Lemma plain_ok u w' : (∀ id, local w' id = local w id) → dispatch_ok (S n) (reg w') → bound w' = bound w →
  marked w' = marked w → releaseSequences (reg w') = releaseSequences (reg w) →
  pending (reg w') = pending (reg w) → scopes (reg w') = scopes (reg w) → heap (reg w') = heap (reg w) →
  changed (reg w') = changed (reg w) → (closeStarted (reg w) = true → closeStarted (reg w') = true) →
  (state_rank (state (reg w)) <= state_rank (state (reg w')))%nat →
  (evolves u w w' → (∀ id, view_ok (local w' id)) → close_ok w') →
  world_ok (S n) w' ∧ evolves u w w'.
Proof using Hw.
  intros El Hd Eb Em Es Ep Esc Eh Ech Hst Hrank Hclose.
  assert (∀ id, view_ok (local w' id)) as Hv by (intros; rewrite El; apply Hw).
  assert (∀ id, view_evolves u (local w id) (local w' id)) as Hve by (intros; rewrite El; apply view_evolves_refl).
  assert (evolves u w w') as Hev by (split; rewrite ?Eb, ?Ep, ?Esc, ?Eh, ?Ech; auto).
  split; [|done]. split; [done|done|by apply Hclose|by apply (releases_same n u w)].
Qed.

Lemma act_observe u revision :
  world_ok (S n) (w <| reg := ObserveBarrier (reg w) revision |>) ∧ evolves u w (w <| reg := ObserveBarrier (reg w) revision |>).
Proof using Hw.
  destruct (wo_dispatch n w Hw) as [H1 H2 H3 H4 H5]. unfold ObserveBarrier.
  destruct (revision <=? 0) eqn:E1; [|destruct (observedBarrier (reg w) <? revision) eqn:E2]; to_prop;
    (apply plain_ok; try done; [split; cbn; auto; lia|intros Hev Hv; by apply (close_same n u w)]).
Qed.

Lemma act_freeze u :
  world_ok (S n) (w <| reg := (FreezeInFlight (reg w)).2 |>) ∧ evolves u w (w <| reg := (FreezeInFlight (reg w)).2 |>).
Proof using Hw.
  destruct (wo_dispatch n w Hw) as [H1 H2 H3 H4 H5]. unfold FreezeInFlight. cbv zeta.
  destruct (_ && _); (apply plain_ok; try done; [split; cbn; auto; lia|intros Hev Hv; by apply (close_same n u w)]).
Qed.

(** The state of the registry only goes up, and is closed only when nothing can run. *)
Lemma act_state u st : (state_rank (state (reg w)) <= state_rank st)%nat →
  (st = StateClosed → closeStarted (reg w) = true ∨ pending (reg w) = ∅ ∧ scopes (reg w) = ∅) →
  world_ok (S n) (w <| reg := (reg w) <| state := st |> |>) ∧ evolves u w (w <| reg := (reg w) <| state := st |> |>).
Proof using Hw.
  intros Hrank Hcl. destruct (wo_dispatch n w Hw) as [H1 H2 H3 H4 H5]. apply plain_ok; try done; [split; cbn; auto; lia|].
  intros Hev Hv. destruct (wo_close n w Hw) as [Hc1 Hc2]. split; cbn; [exact Hcl|].
  intros Hd. destruct (Hc2 Hd) as [Hc Ha]. split; [|exact Ha]. rewrite Hc in Hrank. destruct st; cbn in Hrank; (done || lia).
Qed.

Lemma act_close_first u : closeStarted (reg w) = false → state (reg w) ≠ StateClosed →
  let w' := w <| reg := (reg w) <| closeStarted := true |> <| r_closeDone := Some false |> |> in
  world_ok (S n) w' ∧ evolves u w w'.
Proof using Hw.
  intros Hs Hst. cbv zeta. destruct (wo_dispatch n w Hw) as [H1 H2 H3 H4 H5]. apply plain_ok; try done; split; cbn; auto; lia.
Qed.

Lemma act_close_finish u : state (reg w) = StateClosed → all_closed w →
  let w' := w <| reg := (reg w) <| r_closeDone := Some true |> |> in world_ok (S n) w' ∧ evolves u w w'.
Proof using Hw.
  intros Hs Ha. cbv zeta. destruct (wo_dispatch n w Hw) as [H1 H2 H3 H4 H5]. apply plain_ok; try done; [split; cbn; auto; lia|].
  intros Hev Hv. split; cbn; [apply (wo_close n w Hw)|done].
Qed.

Lemma act_sink u sink : let w' := w <| reg := (reg w) <| releaseSink := sink |> |> in world_ok (S n) w' ∧ evolves u w w'.
Proof using Hw.
  cbv zeta. destruct (wo_dispatch n w Hw) as [H1 H2 H3 H4 H5]. apply plain_ok; try done; [split; cbn; auto; lia|].
  intros Hev Hv. by apply (close_same n u w).
Qed.
Lemma act_delivered u l : let w' := w <| delivered := l |> in world_ok (S n) w' ∧ evolves u w w'.
Proof using Hw.
  cbv zeta. destruct (wo_dispatch n w Hw) as [H1 H2 H3 H4 H5]. apply plain_ok; try done; [split; cbn; auto; lia|].
  intros Hev Hv. by apply (close_same n u w).
Qed.
Lemma act_nothing u : world_ok (S n) w ∧ evolves u w w.
Proof using Hw.
  destruct (wo_dispatch n w Hw) as [H1 H2 H3 H4 H5]. apply plain_ok; try done; [split; cbn; auto; lia|].
  intros Hev Hv. by apply (close_same n u w).
Qed.

Lemma act_same u : world_ok (S n) (w <| reg := reg w |>) ∧ evolves u w (w <| reg := reg w |>).
Proof using Hw. replace (w <| reg := reg w |>) with w by (by destruct w). apply act_nothing. Qed.

(** *** Steps that move a dispatch or an execution *)

Lemma no_scope_yet id : dispatches (reg w) !! id ≠ Some true → heap (reg w) !! id = None.
Proof using Hw.
  intros Hd. destruct (heap (reg w) !! id) as [s|] eqn:Hs; [|done]. pose proof (wo_view n w Hw id) as Hv.
  unfold view_ok in Hv. cbn in Hv. rewrite Hs in Hv. destruct Hv as [Hv _]. done.
Qed.

Lemma act_begin u : Z.of_nat n < 2 ^ 63 →
  let w' := w <| reg := (BeginDispatch (reg w)).2 |> in world_ok (S n) w' ∧ evolves u w w'.
Proof using Hw.
  intros Hn. cbv zeta. unfold BeginDispatch. destruct (state (reg w)) eqn:Est; [|by apply (act_same u)..].
  destruct (wo_dispatch n w Hw) as [H1 H2 H3 H4 H5]. cbn [snd]. rewrite wrapu64_id by (unfold is_uint64; lia).
  set (id := next (reg w) + 1). assert (dispatches (reg w) !! id = None) as Hid.
  { destruct (dispatches (reg w) !! id) eqn:E; [|done]. specialize (H2 id ltac:(eauto)). lia. }
  match goal with |- world_ok _ ?x ∧ _ => set (w' := x) end.
  destruct (views_at u n w w' id Hw) as [Hok Hv].
  { intros id' Hne. unfold local. cbn. by rewrite lookup_insert_ne. }
  { unfold local, view_ok, view_evolves. cbn. by rewrite (no_scope_yet id) by (by rewrite Hid). }
  assert (evolves u w w') as Hev.
  { split; cbn; try done; try lia. intros _. split; set_solver. }
  split; [|done]. split; [|done| |by apply (releases_same n u w)].
  - split; cbn; [lia| | |lia|done].
    + intros id' Hs. destruct (decide (id' = id)) as [->|Hne]; [lia|]. rewrite lookup_insert_ne in Hs by done. specialize (H2 id' Hs). lia.
    + intros id'. rewrite elem_of_union, elem_of_singleton, H3. destruct (decide (id' = id)) as [->|Hne].
      * rewrite lookup_insert_eq. naive_solver.
      * rewrite lookup_insert_ne by done. naive_solver.
  - by apply (close_same n u w).
Qed.

(** A dispatch is resolved: ended, installed or turned away. *)
Lemma resolve_dispatch id : is_Some (dispatches (reg w) !! id) → dispatch_ok (S n) (resolve (reg w) id).
Proof using Hw.
  intros Hid. destruct (wo_dispatch n w Hw) as [H1 H2 H3 H4 H5]. split; cbn; [lia| | |done|done].
  - intros id' Hs. destruct (decide (id' = id)) as [->|Hne]; [by apply H2|]. rewrite lookup_insert_ne in Hs by done. by apply H2.
  - intros id'. rewrite elem_of_difference, elem_of_singleton, H3. destruct (decide (id' = id)) as [->|Hne].
    + rewrite lookup_insert_eq. naive_solver.
    + rewrite lookup_insert_ne by done. naive_solver.
Qed.
Lemma act_resolve u id : is_Some (dispatches (reg w) !! id) →
  let w' := w <| reg := resolve (reg w) id |> in world_ok (S n) w' ∧ evolves u w w'.
Proof using Hw.
  intros Hid. set (w' := w <| reg := resolve (reg w) id |>). cbv zeta. destruct (views_at u n w w' id Hw) as [Hok Hv].
  { intros id' Hne. unfold local. cbn. by rewrite lookup_insert_ne. }
  { unfold local, view_ok, view_evolves. cbn. rewrite lookup_insert_eq. destruct (heap (reg w) !! id) as [s|] eqn:Hs; [|done].
    intros (Hd & Hr & Ho). split; [done|]. apply (view_evolves_refl u (local w id)) || exists s; cbn; done. }
  assert (evolves u w w') as Hev.
  { split; cbn; try done; try lia. intros _. split_and!; set_solver. }
  split; [|done]. split; [by apply resolve_dispatch|done|by apply (close_same n u w)|by apply (releases_same n u w)].
Qed.

Lemma act_end_dispatch u id :
  let w' := w <| reg := PendingDispatch_End (reg w) id |> in world_ok (S n) w' ∧ evolves u w w'.
Proof using Hw.
  cbv zeta. unfold PendingDispatch_End. destruct (dispatches (reg w) !! id) as [[]|] eqn:E; [apply (act_same u)| |apply (act_same u)].
  apply act_resolve. eauto.
Qed.

Lemma act_install u id sp :
  let w' := w <| reg := (Install (reg w) id sp).2 |> in world_ok (S n) w' ∧ evolves u w w'.
Proof using Hw.
  cbv zeta. unfold Install. destruct (dispatches (reg w) !! id) as [b|] eqn:Ed; [|apply (act_same u)].
  destruct (state (reg w)) eqn:Est; [|apply act_resolve; eauto..].
  case_bool_decide as Hin; [|apply (act_same u)]. cbn [snd].
  destruct (wo_dispatch n w Hw) as [H1 H2 H3 H4 H5]. apply H3 in Hin. assert (heap (reg w) !! id = None) as Hh by (apply no_scope_yet; by rewrite Hin).
  match goal with |- world_ok _ ?x ∧ _ => set (w' := x) end. destruct (views_at u n w w' id Hw) as [Hok Hv].
  { intros id' Hne. unfold local. cbn. rewrite !lookup_insert_ne by done. f_equal. apply bool_decide_ext. set_solver. }
  { unfold local, view_ok, view_evolves. cbn. rewrite !lookup_insert_eq, Hh. intros (-> & -> & -> & _ & ->). split; [|done].
    split; [done|]. split; [by split_and!|]. split_and!; [|done|done]. apply bool_decide_eq_true. set_solver. }
  assert (evolves u w w') as Hev.
  { split; cbn; try done; try lia. }
  split; [|done]. split; [|done|by apply (close_same n u w)|by apply (releases_same n u w)].
  pose proof (resolve_dispatch id ltac:(eauto)) as [G1 G2 G3 G4 G5]. by split.
Qed.

Lemma act_delete u id : in_phase t (local w id) true 1 quiet → u = Some t →
  let w' := w <| reg := signalLocked ((reg w) <| scopes := scopes (reg w) ∖ {[id]} |>) |> in
  world_ok (S n) w' ∧ evolves u w w'.
Proof using Hw.
  intros (s & Hs & He & Hl & Hm & Hq) ->. cbv zeta. match goal with |- world_ok _ ?x ∧ _ => set (w' := x) end.
  destruct (views_at (Some t) n w w' id Hw) as [Hok Hv].
  { intros id' Hne. unfold local. cbn. f_equal. apply bool_decide_ext. set_solver. }
  { unfold local in *. cbn in *. rewrite Hs, Hm, Hl. replace (bool_decide (id ∈ scopes (reg w) ∖ {[id]})) with false
      by (symmetry; apply bool_decide_eq_false; set_solver).
    clear Hs Hl Hm. revert He Hq. scope_cases s. intros -> (-> & -> & Hcd) (Hd & Hr & Ho). split; [|evolve_view].
    split; [done|]. split; [exact Hr|by right]. }
  assert (evolves (Some t) w w') as Hev.
  { split; cbn; try done; try lia. intros _. split_and!; set_solver. }
  destruct (wo_dispatch n w Hw) as [H1 H2 H3 H4 H5].
  split; [|done]. split; [split; cbn; auto; lia|done|by apply (close_same n (Some t) w)|by apply (releases_same n (Some t) w)].
Qed.

(** One more ended execution in its group's sequence. *)
Lemma counted_snoc w' id g : marked w' = marked w ++ [id] → (∀ x, x ∈ marked w → spec <$> heap (reg w) !! x = spec <$> heap (reg w') !! x) →
  ended_of w' g = ended_of w g + if counted (heap (reg w')) g id then 1 else 0.
Proof using.
  intros Em Hs. unfold ended_of. rewrite Em, filter_app, length_app, (counted_ext (heap (reg w)) (heap (reg w'))) by done.
  rewrite filter_cons, filter_nil. destruct (counted (heap (reg w')) g id) eqn:E; [rewrite decide_True by done|rewrite decide_False by done]; cbn; lia.
Qed.

Lemma ended_of_range g : 0 <= ended_of w g <= Z.of_nat n.
Proof using Hw.
  unfold ended_of. pose proof (ro_length n w (wo_releases n w Hw)).
  pose proof (length_filter (λ id, counted (heap (reg w)) g id = true) (marked w)). lia.
Qed.

Lemma act_mark u id s : Z.of_nat n < 2 ^ 63 - 1 → in_phase t (local w id) true 0 quiet → scope_of w id = Some s → u = Some t →
  let w' := w <| reg := (markReleasedLocked (reg w) s).2 |> <| marked := marked w ++ [id] |> in
  world_ok (S n) w' ∧ evolves u w w'.
Proof using Hw.
  intros Hn (s' & Hs & He & Hl & Hm & Hq) Hs' ->. cbv zeta. match goal with |- world_ok _ ?x ∧ _ => set (w' := x) end.
  cbn in Hs. unfold scope_of in Hs'. rewrite Hs' in Hs. injection Hs as <-.
  assert (∃ rs, (markReleasedLocked (reg w) s).2 = (reg w) <| releaseSequences := rs |> ∧
    rs = if Accounted (spec s) then <[group_of (spec s) := ended_of w (group_of (spec s)) + 1]> (releaseSequences (reg w)) else releaseSequences (reg w))
    as (rs & Er & Ers).
  { unfold markReleasedLocked. destruct (Accounted (spec s)); cbn [negb]; eexists; (split; [|reflexivity]); [|by destruct (reg w)].
    cbn. rewrite (ro_exact n w (wo_releases n w Hw)). pose proof (ended_of_range (group_of (spec s))).
    rewrite wrap64_id by (unfold is_int64, MinInt64, MaxInt64; lia). done. }
  subst w'. rewrite Er. match goal with |- world_ok _ ?x ∧ _ => set (w' := x) end. clear Er.
  destruct (views_at (Some t) n w w' id Hw) as [Hok Hv].
  { intros id' Hne. unfold local. cbn. f_equal. rewrite marks_snoc, decide_False by done. lia. }
  { unfold local in *. cbn in *. rewrite marks_snoc, decide_True by done. rewrite Hs', Hm, Hl.
    clear - He Hq. revert He Hq. scope_cases s. intros -> (-> & -> & Hcd) (Hd & Hr & Ho). split; [|evolve_view].
    split; [done|]. split; [exact Hr|left; split; [done|lia]]. }
  assert (evolves (Some t) w w') as Hev by (split; cbn; done).
  destruct (wo_dispatch n w Hw) as [H1 H2 H3 H4 H5]. destruct (wo_releases n w Hw) as [R1 R2 R3].
  split; [|done]. split; [split; cbn; auto; lia|done|by apply (close_same n (Some t) w)|].
  pose proof (specs_kept n (Some t) w w' Hw Hv) as Hspec. split; [cbn; rewrite length_app; cbn; lia| |].
  - intros g. rewrite (counted_snoc w' id g eq_refl Hspec). unfold counted. cbn. rewrite Hs', Ers.
    destruct (Accounted (spec s)); cbn [andb]; [|rewrite R2; lia]. case_bool_decide as Hg.
    + rewrite <-Hg, lookup_insert_eq. done.
    + rewrite lookup_insert_ne by done. rewrite R2. lia.
  - intros g m. cbn. rewrite Ers. destruct (Accounted (spec s)); [|apply R3]. pose proof (ended_of_range (group_of (spec s))).
    intros [[<- <-]|[_ Hm']]%lookup_insert_Some; [lia|by apply (R3 g)].
Qed.
End actions.

(** ** Every step *)

Lemma in_phase_on_scope t w id live marks P Q f : in_phase t (local w id) live marks P →
  (∀ s, ended s = OnceRunning t → P s → ended (f s) = OnceRunning t ∧ Q (f s)) →
  in_phase t (local (on_scope w id f) id) live marks Q.
Proof.
  intros (s & Hs & He & Hl & Hm & Hp) Hf. destruct (Hf s He Hp) as [He' Hq]. exists (f s).
  split_and!; [|done|exact Hl|exact Hm|done]. cbn in *. by rewrite lookup_alter_eq, Hs.
Qed.

Lemma bound_view w id f : view_ok (local w id) → bound w !! id = Some f → ∃ s, heap (reg w) !! id = Some s ∧ resource_ok s (local w id).
Proof.
  unfold view_ok. cbn. intros Hv Hb. destruct (heap (reg w) !! id) as [s|]; [exists s; naive_solver|]. destruct Hv as [Hn _]. by rewrite Hb in Hn.
Qed.

Lemma closed_known n w id s f : world_ok n w → heap (reg w) !! id = Some s → closeFn s = None → closeDone s ≠ Some false →
  bound w !! id = Some f → calls_of id (calls w) = [f].
Proof.
  intros Hw Hs Hf Hd Hb. destruct (bound_view w id f (wo_view n w Hw id) Hb) as (s' & Hs' & Hr). rewrite Hs in Hs'. injection Hs' as <-.
  unfold resource_ok in Hr. cbn in Hr. rewrite Hb in Hr. destruct Hr as [(? & _)|[(_ & ? & _)|(_ & _ & _ & ?)]]; congruence.
Qed.

(** What a thread knows after it has started to close a resource. *)
Lemma close_started n w id s : world_ok n w → heap (reg w) !! id = Some s →
  ∃ s', heap (reg (startBoundResourceClose w id).2) !! id = Some s' ∧ closeFn s' = None
    ∧ active s' = active s ∧ ended s' = ended s
    ∧ ((startBoundResourceClose w id).1 = false → closeDone s' = None)
    ∧ ((startBoundResourceClose w id).1 = true → is_Some (closeDone s')).
Proof.
  intros Hw Hs. unfold startBoundResourceClose. rewrite Hs. destruct (closeDone s) as [b|] eqn:Ed.
  - exists s. split_and!; try done. pose proof (wo_view n w Hw id) as Hv. unfold view_ok in Hv. cbn in Hv.
    rewrite Hs in Hv. destruct Hv as (_ & Hr & _). unfold resource_ok in Hr. cbn in Hr.
    destruct (bound w !! id); [destruct Hr as [(_ & ? & _)|[(? & _)|(? & _)]]|destruct Hr as (? & _)]; congruence.
  - destruct (closeFn s) as [f|] eqn:Ef; cbn [fst snd]; [|exists s; split_and!; try done; by intros].
    eexists. split; [cbn; by rewrite lookup_alter_eq, Hs|]. by cbn.
Qed.

Lemma close_phase n t w id : world_ok n w → in_phase t (local w id) true 0 (λ s, active s = false) →
  in_phase t (local (startBoundResourceClose w id).2 id) true 0
    (λ s, active s = false ∧ closeFn s = None ∧ ((startBoundResourceClose w id).1 = false → closeDone s = None)
      ∧ ((startBoundResourceClose w id).1 = true → is_Some (closeDone s))).
Proof.
  intros Hw (s & Hs & He & Hl & Hm & Ha). cbn in Hs. destruct (close_started n w id s Hw Hs) as (s' & Hs' & Hf & Ha' & He' & Hn & Hy).
  exists s'. split_and!; [done|by rewrite He'| | |by rewrite Ha'|done|done|done]; revert Hl Hm; cbn; unfold startBoundResourceClose;
    rewrite Hs; destruct (closeDone s), (closeFn s); done.
Qed.

Lemma close_next n m w id l : world_ok n w → closed_but (startBoundResourceClose w id).2 (id :: l) →
  (startBoundResourceClose w id).1 = false → world_ok m (startBoundResourceClose w id).2 →
  closed_but (startBoundResourceClose w id).2 l.
Proof.
  intros Hw Hcl Hno Hw' id' f Hb. destruct (Hcl id' f Hb) as [?|[->|?]%elem_of_cons]; [by left| |by right]. left.
  destruct (bound_view _ _ _ (wo_view m _ Hw' id) Hb) as (s' & Hs' & _).
  destruct (heap (reg w) !! id) as [s|] eqn:Hs.
  - destruct (close_started n w id s Hw Hs) as (s1 & Hs1 & Hf & _ & _ & Hn & _). rewrite Hs' in Hs1. injection Hs1 as <-.
    apply (closed_known m _ id s'); try done. by rewrite (Hn Hno).
  - unfold startBoundResourceClose in Hs'. rewrite Hs in Hs'. cbn in Hs'. by rewrite Hs in Hs'.
Qed.

Definition kept (n : nat) (t : nat) (w w' : world) (p' : pc) : Prop :=
  world_ok (S n) w' ∧ evolves (Some t) w w' ∧ thread_ok t w' p'.
Lemma kept_by n t w w' p' : world_ok (S n) w' ∧ evolves (Some t) w w' → (world_ok (S n) w' → evolves (Some t) w w' → thread_ok t w' p') → kept n t w w' p'.
Proof. intros [H1 H2] H3. split_and!; auto. Qed.

Definition is_end (p : pc) : bool :=
  match p with
  | EndCalled _ | EndDeactivate _ | EndCloseStart _ | EndCloseWait _ | EndMark _ | EndSink _ _ _ _ | EndTicket _ _
  | EndDelete _ | EndOnce _ | EndResult _ => true
  | _ => false
  end.

Lemma end_step_ok n t w p w' p' : Z.of_nat n < 2 ^ 63 - 1 → world_ok n w → is_end p = true → thread_step t w p w' p' →
  thread_ok t w p → kept n t w w' p'.
Proof.
  intros Hn Hw Hp Hst. destruct Hst as [Hst|Hst|Hst|Hst|Hst]; destruct Hst; cbn in Hp; try done; cbn [thread_ok]; intros Ht.
  - apply kept_by; [by apply (act_end_first n t w Hw id s)|]. intros Hw' Hev. cbn [thread_ok].
    unfold scope_of in H. pose proof (wo_view n w Hw id) as Hv. unfold view_ok in Hv. cbn in Hv. rewrite H in Hv.
    destruct Hv as (_ & _ & Ho). unfold once_ok in Ho. rewrite H0 in Ho. destruct Ho as (Hl & Hm & _).
    exists (s <| ended := OnceRunning t |>). split_and!; try done. cbn. by rewrite lookup_alter_eq, H.
  - apply kept_by; [apply act_nothing; done|]. intros. by exists s.
  - apply kept_by; [by apply act_deactivate|]. intros. cbn [thread_ok]. by eapply in_phase_on_scope.
  - apply kept_by; [by apply act_close|]. intros Hw' Hev. pose proof (close_phase n t w id Hw Ht) as (s & Hs & He & Hl & Hm & Ha & Hf & Hd & Hd').
    destruct (startBoundResourceClose w id).1; cbn [thread_ok]; exists s; unfold quiet; split_and!; try done; [by apply Hd'|by rewrite Hd].
  - apply kept_by; [by apply act_nothing|]. intros. destruct Ht as (s' & Hs & He & Hl & Hm & Ha & Hf & _).
    unfold scope_of in H. cbn in Hs. rewrite H in Hs. injection Hs as <-. exists s. unfold quiet. split_and!; try done. by rewrite H0.
  - apply kept_by; [by apply (act_mark n t)|]. intros Hw' Hev. destruct Ht as (s' & Hs & He & Hl & Hm & Hq).
    assert (in_phase t (local (w <| reg := (markReleasedLocked (reg w) s).2 |> <| marked := marked w ++ [id] |>) id) true 1 quiet) as Hph.
    { exists s'. unfold markReleasedLocked. destruct (Accounted (spec s)); cbn [negb snd]; (split_and!; [exact Hs|done|exact Hl| |done]);
        cbn; rewrite marks_snoc, decide_True by done; cbn in Hm; lia. }
    repeat case_match; done.
  - apply kept_by; [by apply act_delivered|]. intros _ _. exact Ht.
  - apply kept_by; [by apply act_ticket|]. intros. cbn [thread_ok]. by eapply in_phase_on_scope.
  - apply kept_by; [by apply (act_delete n t)|]. intros. destruct Ht as (s & Hs & He & Hl & Hm & Hq). exists s. split_and!; try done.
    cbn. apply bool_decide_eq_false. set_solver.
  - apply kept_by; [by apply act_once|]. intros. destruct Ht as (s & Hs & He & Hl & Hm & Hq). exists (s <| ended := OnceFinished |>).
    split; [|done]. cbn in *. by rewrite lookup_alter_eq, Hs.
  - apply kept_by; [by apply act_nothing|done].
Qed.

(** An execution that is not running any more has nothing open. *)
Lemma gone_quiet v s : view_ok v → v_scope v = Some s → v_live v = false → quiet s ∧ v_marked v = 1%nat.
Proof.
  unfold view_ok, once_ok. intros Hv Hs Hl. rewrite Hs, Hl in Hv. destruct Hv as (_ & _ & Ho).
  destruct (ended s); [by destruct Ho|destruct Ho as [[? _]|(_ & ? & ?)]; done|by destruct Ho as (_ & ? & ?)].
Qed.
Lemma gone_closed n w id f : world_ok n w → bound w !! id = Some f → id ∉ scopes (reg w) → calls_of id (calls w) = [f].
Proof.
  intros Hw Hb Hni. destruct (bound_view w id f (wo_view n w Hw id) Hb) as (s & Hs & _).
  destruct (gone_quiet (local w id) s (wo_view n w Hw id) Hs) as [(_ & Hf & Hd) _]; [by apply bool_decide_eq_false|].
  by apply (closed_known n w id s).
Qed.

Lemma rank_closed st : (state_rank StateClosed <= state_rank st)%nat → st = StateClosed.
Proof. destruct st; cbn; (done || lia). Qed.
Lemma rank_stopped st st' : (state_rank st <= state_rank st')%nat → st ≠ StateAccepting → st' ≠ StateAccepting.
Proof. destruct st, st'; cbn; (done || lia). Qed.

Lemma close_scope_ok n t w id l : world_ok n w → thread_ok t w (CloseScopes (id :: l)) →
  kept n t w (startBoundResourceClose w id).2 (if (startBoundResourceClose w id).1 then CloseWait id l else CloseScopes l).
Proof.
  intros Hw [Hcl Hbut]. apply kept_by; [by apply act_close|]. intros Hw' Hev.
  assert (state (reg (startBoundResourceClose w id).2) = StateClosed) as Hcl' by (apply rank_closed; rewrite <-Hcl; apply Hev).
  pose proof (evolves_calls _ _ _ _ Hev Hcl (wo_view n w Hw) Hbut) as Hbut'.
  destruct (startBoundResourceClose w id).1 eqn:E; cbn [thread_ok]; (split; [done|]); [done|]. by eapply close_next.
Qed.

Lemma other_step_ok n t w p w' p' : world_ok n w → is_end p = false → thread_step t w p w' p' →
  thread_ok t w p → kept n t w w' p'.
Proof.
  intros Hw Hp Hst. destruct Hst as [Hst|Hst|Hst|Hst|Hst]; destruct Hst; cbn in Hp; try done; cbn [thread_ok]; intros Ht;
    try (apply kept_by; [by apply act_nothing|]; done).
  - apply kept_by; [by apply act_sink|]. intros. by destruct sink.
  - destruct (0 <? sequence); (apply kept_by; [by apply act_delivered || by apply act_nothing|done]).
  - apply kept_by; [|done]. apply act_state; [done| |done]. destruct (state (reg w)); cbn; (done || lia).
  - apply kept_by; [by apply act_close|]. intros Hw' Hev. cbn [thread_ok]. by apply (rank_stopped (state (reg w))); [apply Hev|].
  - apply kept_by; [|done]. apply act_state; [done| |by right]. destruct (state (reg w)); cbn; lia.
  - apply kept_by; [by apply act_nothing|]. intros _ _. by apply Ht.
  - apply kept_by; [by apply act_nothing|]. intros _ _. cbn [thread_ok]. by apply (co_done w (wo_close n w Hw)).
  - apply kept_by; [by apply act_nothing|]. intros _ _. cbn [thread_ok]. split; [done|].
    destruct (co_closed w (wo_close n w Hw)) as [?|[_ Hsc]]; [done|congruence|]. intros id f Hb.
    apply (gone_closed n w id f Hw Hb). rewrite Hsc. apply not_elem_of_empty.
  - apply kept_by; [by apply act_close_first|done].
  - apply kept_by; [|done]. apply act_state; [done| |by left]. destruct (state (reg w)); cbn; lia.
  - apply kept_by; [by apply act_nothing|]. intros _ _. cbn [thread_ok]. split; [done|]. intros id f Hb.
    destruct (decide (id ∈ scopes (reg w))) as [Hin|Hni]; [right; rewrite H; by apply elem_of_elements|left].
    by apply (gone_closed n).
  - by apply close_scope_ok.
  - apply kept_by; [by apply act_nothing|]. intros _ _. destruct Ht as [Hcl Hbut]. split; [done|]. intros id' f Hb.
    destruct (Hbut id' f Hb) as [?|[->|?]%elem_of_cons]; [by left| |by right]. left. unfold scope_of in H.
    apply (closed_known n w id s); try done; [|by rewrite H0]. pose proof (wo_view n w Hw id) as Hv. unfold view_ok in Hv.
    cbn in Hv. rewrite H in Hv. destruct Hv as (_ & Hr & _). unfold resource_ok in Hr. cbn in Hr. rewrite Hb in Hr.
    destruct Hr as [(_ & ? & _)|[(? & _)|(? & _)]]; congruence.
  - apply kept_by; [by apply act_nothing|]. intros _ _. destruct Ht as [Hcl Hbut]. split; [done|]. by apply all_closed_but.
  - destruct Ht as [Hcl Hbut]. apply kept_by; [by apply act_close_finish|]. intros _ _. by split.
Qed.

Lemma call_step_ok n w w' : Z.of_nat n < 2 ^ 63 - 1 → world_ok n w → call_step w w' → world_ok (S n) w' ∧ evolves None w w'.
Proof.
  intros Hn Hw []; [apply act_begin; [done|lia]|by apply act_end_dispatch|by apply act_install|by apply act_bind|by apply act_observe
    |by apply act_freeze|by apply act_closed].
Qed.

Definition all_ok (n : nat) (s : world * threads) : Prop :=
  world_ok n s.1 ∧ ∀ t p, s.2 !! t = Some p → thread_ok t s.1 p.

Lemma entry_ok t w p : entry w p → thread_ok t w p.
Proof. destruct p; cbn; try done. Qed.

Lemma step_all_ok n s s' : Z.of_nat n < 2 ^ 63 - 1 → all_ok n s → step s s' → all_ok (S n) s' ∧ (∃ u, evolves u s.1 s'.1).
Proof.
  intros Hn [Hw Ht] Hst. destruct Hst as [w w' ts Hc|w ts t p Hf He|w w' ts t p p' Hp Hst]; cbn [fst snd] in *.
  - destruct (call_step_ok n w w' Hn Hw Hc) as [Hw' Hev]. split; [|eauto]. split; [done|]. intros t p Hp.
    by apply (thread_ok_stable n t None w w' p Hw Hev); [|apply Ht].
  - destruct (act_nothing n w Hw None) as [Hw' Hev]. split; [|eauto]. split; [done|]. intros t' p'.
    cbn [fst snd]. intros [[<- <-]|[_ Hp]]%lookup_insert_Some; [by apply entry_ok|by apply Ht].
  - assert (kept n t w w' p') as (Hw' & Hev & Hp').
    { pose proof (Ht t p Hp) as Htp. destruct (is_end p) eqn:E; [by apply (end_step_ok n t w p)|by apply (other_step_ok n t w p)]. }
    split; [|eauto]. split; [done|]. intros t' q. cbn [fst snd]. intros [[<- <-]|[Hne Hq]]%lookup_insert_Some; [done|].
    apply (thread_ok_stable n t' (Some t) w w' q Hw Hev); [congruence|by apply Ht].
Qed.

Lemma start_ok : all_ok 0 (start, ∅).
Proof.
  split; cbn [fst snd]; [|by intros ? ? ?%lookup_empty_Some]. split.
  - split; cbn; try lia; [by intros id [? ?%lookup_empty_Some]|]. intros id. rewrite lookup_empty. set_solver.
  - intros id. unfold view_ok, local. cbn. rewrite !lookup_empty. done.
  - split; done.
  - split; [done| |intros g m Hm; cbn in Hm; by apply lookup_empty_Some in Hm]. intros g. cbn. by rewrite lookup_empty.
Qed.

Lemma steps_all_ok n m s s' : steps n s s' → Z.of_nat (m + n) < 2 ^ 63 → all_ok m s → all_ok (m + n) s'.
Proof.
  induction 1 as [s|n s s' s'' Hs IH Hst]; intros Hn Hok; [by rewrite Nat.add_0_r|].
  rewrite Nat.add_succ_r. apply (step_all_ok (m + n) s' s''); [lia|apply IH; [lia|done]|done].
Qed.
Lemma execution_ok n s : reachable n s → Z.of_nat n < 2 ^ 63 → all_ok n s.
Proof. intros Hr Hn. by apply (steps_all_ok n 0 (start, ∅)); [..|apply start_ok]. Qed.
Lemma steps_trans n m s s' s'' : steps n s s' → steps m s' s'' → steps (n + m) s s''.
Proof.
  intros H1. induction 1 as [|m s' s'' s3 H2 IH Hst]; [by rewrite Nat.add_0_r|]. rewrite Nat.add_succ_r.
  eapply steps_next; [by apply IH|done].
Qed.
