(* ===== verification/ExecutionProofs.v ===== *)
(** * What the registry of executions promises

    What a [Drain] and a [Close] that returned leave behind, that resources are closed and
    releases counted exactly once, what a published observation barrier covers, what the
    release sink has been told, and that no waiter sleeps through its condition. *)
From Stdlib Require Import ZArith Lia String Bool.
From stdpp Require Import prelude gmap strings.
From S2P Require Import Prelude GoStd ExecutionRegistry ExecutionInvariant.
Local Open Scope string_scope.
Local Open Scope list_scope.
Local Open Scope Z_scope.

(** What every step keeps holds after any number of them. *)
Lemma steps_keep (P : world → Prop) n m s s' : steps m s s' → Z.of_nat (n + m) < 2 ^ 63 → all_ok n s →
  (∀ k u w w', world_ok k w → evolves u w w' → P w → P w') → P s.1 → P s'.1.
Proof.
  intros Hs. induction Hs as [s|m s s' s'' Hs IH Hst]; intros Hn Hok HP H0; [done|].
  assert (all_ok (n + m) s') as Hok' by (apply (steps_all_ok m n s s'); [done|lia|done]).
  destruct (step_all_ok (n + m) s' s'' ltac:(lia) Hok' Hst) as [_ [u Hev]].
  apply (HP _ u _ _ (proj1 Hok') Hev), IH; [lia|done|done|done].
Qed.

Lemma closed_kept k u w w' : world_ok k w → evolves u w w' → state (reg w) = StateClosed ∧ all_closed w → state (reg w') = StateClosed ∧ all_closed w'.
Proof.
  intros Hw Hev [Hs Ha]. split; [apply rank_closed; rewrite <-Hs; apply Hev|]. apply all_closed_but.
  by apply (evolves_calls u w w' [] Hev Hs (wo_view k w Hw)), all_closed_but.
Qed.
Lemma drained_kept k u w w' : world_ok k w → evolves u w w' →
  state (reg w) = StateClosed ∧ pending (reg w) = ∅ ∧ scopes (reg w) = ∅ →
  state (reg w') = StateClosed ∧ pending (reg w') = ∅ ∧ scopes (reg w') = ∅.
Proof.
  intros Hw Hev (Hs & Hp & Hsc). split; [apply rank_closed; rewrite <-Hs; apply Hev|].
  destruct (ev_stopped u w w' Hev) as (_ & ? & ? & _); [by rewrite Hs|]. split; set_solver.
Qed.

(** C13: When [Drain] has returned without an error the registry is closed for good: no
    dispatch is open and no execution runs, then or ever after; every execution that was
    ever installed has ended, its release has been counted once and the resource that was
    bound to it, if any, has been closed exactly once. *)
Theorem drain_complete (n m t : nat) (s s' : world * threads) (Hr : reachable n s) (Hd : s.2 !! t = Some (DrainReturned None))
    (Hs : steps m s s') (Hn : Z.of_nat (n + m) < 2 ^ 63) :
  state (reg s'.1) = StateClosed ∧ pending (reg s'.1) = ∅ ∧ scopes (reg s'.1) = ∅
  ∧ ∀ id sc, heap (reg s'.1) !! id = Some sc →
      active sc = false ∧ marks_of id (marked s'.1) = 1%nat ∧ (∀ f, bound s'.1 !! id = Some f → calls_of id (calls s'.1) = [f]).
Proof.
  pose proof (execution_ok n s Hr ltac:(lia)) as Hok. pose proof (proj2 Hok t _ Hd) as Ht. cbn [thread_ok] in Ht.
  destruct (steps_keep _ n m s s' Hs Hn Hok drained_kept Ht) as (H1 & H2 & H3). split_and!; [done..|].
  destruct (steps_all_ok m n s s' Hs ltac:(lia) Hok) as [Hw _]. intros id sc Hsc.
  destruct (gone_quiet (local s'.1 id) sc (wo_view _ _ Hw id) Hsc) as [Hq Hm]; [cbn; rewrite H3; by apply bool_decide_eq_false; set_solver|].
  split_and!; [apply Hq|done|]. intros f Hb. apply (gone_closed _ _ id f Hw Hb). rewrite H3. set_solver.
Qed.

(** C14: When any call of [Close] has returned, the registry accepts nothing any more and
    every resource that was ever bound has been closed, then and ever after: no resource
    slips in between, whatever calls run at the same time. *)
Theorem close_complete (n m t : nat) (s s' : world * threads) (Hr : reachable n s) (Hd : s.2 !! t = Some CloseReturned)
    (Hs : steps m s s') (Hn : Z.of_nat (n + m) < 2 ^ 63) :
  let w := s'.1 in
  (BeginDispatch (reg w)).1 = inr ErrRegistryNotAccepting
  ∧ (∀ id f, (Bind (reg w) id (Some f)).1 ≠ None)
  ∧ (∀ id f, bound w !! id = Some f → calls_of id (calls w) = [f]).
Proof.
  pose proof (execution_ok n s Hr ltac:(lia)) as Hok. pose proof (proj2 Hok t _ Hd) as Ht. cbn [thread_ok] in Ht.
  destruct (steps_keep _ n m s s' Hs Hn Hok closed_kept Ht) as (H1 & H2). cbv zeta. split_and!; [|intros id f|done].
  - unfold BeginDispatch. by rewrite H1.
  - unfold Bind. destruct (heap _ !! id); [by rewrite H1|done].
Qed.

Lemma marks_cons x id l : marks_of id (x :: l) = ((if decide (x = id) then 1 else 0) + marks_of id l)%nat.
Proof. unfold marks_of. rewrite filter_cons. by destruct (decide (x = id)). Qed.
Lemma marks_elem id l : id ∈ l ↔ marks_of id l ≠ 0%nat.
Proof.
  induction l as [|x l IH]; [split; [by intros ?%not_elem_of_nil|done]|]. rewrite elem_of_cons, marks_cons, IH.
  destruct (decide (x = id)) as [->|Hne]; [split; [lia|by left]|]. split; [by intros [?|?]|by right].
Qed.
Lemma marks_NoDup l : (∀ id, (marks_of id l <= 1)%nat) → NoDup l.
Proof.
  induction l as [|x l IH]; intros Hl; [constructor|]. apply NoDup_cons. split.
  - rewrite marks_elem. specialize (Hl x). rewrite marks_cons, decide_True in Hl by done. lia.
  - apply IH. intros id. specialize (Hl id). rewrite marks_cons in Hl. lia.
Qed.
Lemma view_marks v : view_ok v → (v_marked v <= 1)%nat.
Proof.
  unfold view_ok, once_ok. destruct (v_scope v) as [s|]; [intros (_ & _ & Ho)|intros (_ & _ & _ & _ & ->); lia].
  destruct (ended s); [|destruct Ho as [[_ ?]|(_ & -> & _)]|]; try lia; destruct Ho as (_ & -> & _); lia.
Qed.

(** Nothing is closed or counted twice.  A resource is closed at most once, and only
    one that was bound; an execution's release is counted at most once; and once a call
    that ends an execution has returned, both have happened. *)
Theorem ended_once (n : nat) (s : world * threads) (Hr : reachable n s) (Hn : Z.of_nat n < 2 ^ 63) (id : Z) :
  let w := s.1 in
  match bound w !! id with
  | None => calls_of id (calls w) = []
  | Some f => calls_of id (calls w) = [] ∨ calls_of id (calls w) = [f]
  end
  ∧ (marks_of id (marked w) <= 1)%nat
  ∧ (∀ sc, heap (reg w) !! id = Some sc → ended sc = OnceFinished →
       marks_of id (marked w) = 1%nat ∧ ∀ f, bound w !! id = Some f → calls_of id (calls w) = [f]).
Proof.
  cbv zeta. destruct (execution_ok n s Hr Hn) as [Hw _]. destruct s as [w ts]. cbn [fst] in *.
  pose proof (wo_view n w Hw id) as Hv. unfold view_ok in Hv. cbn in Hv. destruct (heap (reg w) !! id) as [sc|] eqn:Hsc.
  - destruct Hv as (_ & Hres & Ho). unfold resource_ok in Hres. unfold once_ok in Ho. cbn in Hres, Ho. split_and!.
    + destruct (bound w !! id); [|apply Hres]. destruct Hres as [(_&_&_&?)|[(_&_&_&?)|(_&_&_&?)]]; auto.
    + apply (view_marks (local w id)), Hw.
    + intros sc' [= <-] He. rewrite He in Ho. destruct Ho as (_ & Hm & _ & Hf & Hd). split; [done|]. intros f Hb.
      by apply (closed_known n w id sc).
  - destruct Hv as (Hb & _ & Hc & _ & Hm). rewrite Hb, Hm. split_and!; [done|lia|done].
Qed.

(** The sequence a release group has reached is the number of its accounted executions
    whose end was counted, each once; it misses no execution whose end has returned. *)
Theorem release_exact (n : nat) (s : world * threads) (Hr : reachable n s) (Hn : Z.of_nat n < 2 ^ 63) (g : ReleaseGroup) :
  let w := s.1 in
  NoDup (marked w)
  ∧ default 0 (releaseSequences (reg w) !! g)
    = Z.of_nat (length (filter (λ id, counted (heap (reg w)) g id = true) (marked w)))
  ∧ (∀ id sc, heap (reg w) !! id = Some sc → ended sc = OnceFinished → id ∈ marked w)
  ∧ (∀ id, id ∈ marked w → ∃ sc, heap (reg w) !! id = Some sc ∧ ended sc ≠ OnceFresh).
Proof.
  cbv zeta. destruct (execution_ok n s Hr Hn) as [Hw _]. destruct s as [w ts]. cbn [fst] in *.
  split_and!.
  - apply marks_NoDup. intros id. apply (view_marks (local w id)), Hw.
  - apply (wo_releases n w Hw).
  - intros id sc Hsc He. apply marks_elem. pose proof (wo_view n w Hw id) as Hv. unfold view_ok, once_ok in Hv. cbn in Hv.
    rewrite Hsc, He in Hv. destruct Hv as (_ & _ & _ & -> & _). lia.
  - intros id Hin. destruct (marked_scope w id (wo_view n w Hw id) Hin) as [sc Hsc]. exists sc. split; [done|]. intros He.
    apply marks_elem in Hin. pose proof (wo_view n w Hw id) as Hv. unfold view_ok, once_ok in Hv. cbn in Hv.
    rewrite Hsc, He in Hv. by destruct Hv as (_ & _ & _ & ? & _).
Qed.

(** ** The observation barrier *)

(** What a barrier [b] that was observed when [N] dispatches had begun keeps true. *)
Definition barred (N b : Z) (r : Registry) : Prop :=
  N <= next r ∧ N <= pendingBarrierSequence r ∧ b <= observedBarrier r
  ∧ (b <= publishedBarrier r → ∀ id, id ∈ pending r → N < id).

Lemma barred_same N b r r' : barred N b r → next r' = next r → pendingBarrierSequence r' = pendingBarrierSequence r →
  observedBarrier r' = observedBarrier r → publishedBarrier r' = publishedBarrier r → pending r' ⊆ pending r → barred N b r'.
Proof. intros (H1 & H2 & H3 & H4) E1 E2 E3 E4 E5. unfold barred. rewrite E1, E2, E3, E4. split_and!; auto. Qed.

Lemma freeze_barred N b n r : dispatch_ok n r → barred N b r → barred N b (FreezeInFlight r).2.
Proof.
  intros Hd (H1 & H2 & H3 & H4). unfold FreezeInFlight. cbv zeta. destruct (_ && _) eqn:E; cbn [snd]; [|done].
  apply andb_true_iff in E as [_ E]. apply negb_true_iff in E. split_and!; cbn; [done..|]. intros _ id Hin.
  destruct (Z.leb_spec id (pendingBarrierSequence r)) as [Hle|?]; [|lia]. exfalso.
  assert (existsb (λ sequence, sequence <=? pendingBarrierSequence r) (elements (pending r)) = true) as Hx; [|congruence].
  apply existsb_exists. exists id. split; [by apply list_elem_of_In, elem_of_elements|by apply Z.leb_le].
Qed.

Lemma call_barred N b n w w' : Z.of_nat n < 2 ^ 63 - 1 → world_ok n w → call_step w w' → barred N b (reg w) → barred N b (reg w').
Proof.
  intros Hn Hw Hst Hb. pose proof (wo_dispatch n w Hw) as Hd. pose proof Hb as (H1 & H2 & H3 & H4). destruct Hst; cbn.
  - unfold BeginDispatch. destruct (state (reg w)); [|done..]. cbn [snd]. rewrite wrapu64_id by (destruct Hd; unfold is_uint64; lia).
    split_and!; cbn; [lia|done|done|]. intros Hp id [->%elem_of_singleton|Hin]%elem_of_union; [lia|by apply H4].
  - unfold PendingDispatch_End. destruct (dispatches _ !! id) as [[]|]; try done. apply (barred_same N b (reg w)); try done. set_solver.
  - unfold Install. destruct (dispatches _ !! id); [|done].
    destruct (state _); [case_bool_decide; [|done]|..]; apply (barred_same N b (reg w)); try done; set_solver.
  - unfold Bind. repeat case_match; done.
  - unfold ObserveBarrier. destruct (revision <=? 0); [done|]. destruct (observedBarrier (reg w) <? revision) eqn:E; [|done].
    to_prop. split_and!; cbn; [done|done|lia|done].
  - by apply (freeze_barred N b n).
  - done.
Qed.

Lemma close_barred N b w id : barred N b (reg w) → barred N b (reg (startBoundResourceClose w id).2).
Proof. unfold startBoundResourceClose. repeat case_match; done. Qed.
Lemma thread_barred N b t w w' p p' : thread_step t w p w' p' → barred N b (reg w) → barred N b (reg w').
Proof.
  intros Hst Hb. destruct Hst as [Hst|Hst|Hst|Hst|Hst]; destruct Hst; try done; try by apply close_barred.
  - unfold markReleasedLocked. destruct (negb _); done.
  - by case_match.
Qed.
Lemma steps_barred N b n m s s' : steps m s s' → Z.of_nat (n + m) < 2 ^ 63 → all_ok n s → barred N b (reg s.1) → barred N b (reg s'.1).
Proof.
  intros Hs. induction Hs as [s|m s s' s'' Hs IH Hst]; intros Hn Hok Hb; [done|].
  assert (all_ok (n + m) s') as [Hw' _] by (apply (steps_all_ok m n s s'); [done|lia|done]).
  specialize (IH ltac:(lia) Hok Hb). destruct Hst as [w w' ts Hc|w ts t p Hf He|w w' ts t p p' Hp Ht]; cbn [fst] in *; [|done|].
  - by apply (call_barred N b (n + m) w); [lia|..].
  - by apply (thread_barred N b t w w' p p').
Qed.

(** C15: A snapshot published at a barrier covers everything dispatched before the barrier
    was observed: none of those dispatches is still waiting for its response, and each
    that became an execution is either in the snapshot or has ended, its release counted
    and its resource closed. *)
Theorem barrier_covers (n m : nat) (w : world) (ts : threads) (s' : world * threads) (revision : Z)
    (Hr : reachable n (w, ts)) (Hnew : 0 < revision ∧ observedBarrier (reg w) < revision)
    (Hs : steps m (w <| reg := ObserveBarrier (reg w) revision |>, ts) s') (Hn : Z.of_nat (S n + m) < 2 ^ 63)
    (Hpub : revision <= BarrierRevision (FreezeInFlight (reg s'.1)).1) (id : Z) (Hid : is_Some (dispatches (reg w) !! id)) :
  id ∉ pending (reg s'.1)
  ∧ ∀ sc, heap (reg s'.1) !! id = Some sc →
      spec sc ∈ Executions (FreezeInFlight (reg s'.1)).1
      ∨ quiet sc ∧ id ∈ marked s'.1 ∧ ∀ f, bound s'.1 !! id = Some f → calls_of id (calls s'.1) = [f].
Proof.
  destruct (execution_ok n (w, ts) Hr ltac:(lia)) as [Hw Hts]. cbn [fst snd] in Hw, Hts. destruct Hnew as [Hpos Hnew].
  set (s1 := (w <| reg := ObserveBarrier (reg w) revision |>, ts)) in *.
  assert (all_ok (S n) s1) as Hok1 by (apply (step_all_ok n (w, ts)); [lia|done|apply step_call, call_observe]).
  destruct (wo_dispatch n w Hw) as [D1 D2 D3 D4 D5].
  assert (barred (next (reg w)) revision (reg s1.1)) as Hb1.
  { unfold s1. cbn. unfold ObserveBarrier. rewrite (proj2 (Z.leb_gt _ _) Hpos), (proj2 (Z.ltb_lt _ _) Hnew).
    split_and!; cbn; try lia. }
  pose proof (steps_barred _ _ (S n) m s1 s' Hs Hn Hok1 Hb1) as Hb.
  destruct (steps_all_ok m (S n) s1 s' Hs Hn Hok1) as [Hw' _]. destruct s' as [w' ts']. cbn [fst] in *.
  pose proof (freeze_barred _ _ _ _ (wo_dispatch _ _ Hw') Hb) as (_ & _ & _ & Hf).
  assert (publishedBarrier (FreezeInFlight (reg w')).2 = BarrierRevision (FreezeInFlight (reg w')).1) as Ep
    by (unfold FreezeInFlight; cbv zeta; by case_match).
  assert (pending (FreezeInFlight (reg w')).2 = pending (reg w')) as Epend by (unfold FreezeInFlight; cbv zeta; by case_match).
  rewrite Ep, Epend in Hf. split.
  - intros Hin. specialize (Hf Hpub id Hin). specialize (D2 id Hid). lia.
  - intros sc Hsc. destruct (decide (id ∈ scopes (reg w'))) as [Hin|Hni]; [left|right].
    + assert (Executions (FreezeInFlight (reg w')).1 = omap (λ id, spec <$> heap (reg w') !! id) (elements (scopes (reg w')))) as ->
        by (unfold FreezeInFlight; cbv zeta; by case_match).
      apply list_elem_of_omap. exists id. split; [by apply elem_of_elements|]. by rewrite Hsc.
    + destruct (gone_quiet (local w' id) sc (wo_view _ _ Hw' id) Hsc) as [Hq Hm]; [by apply bool_decide_eq_false|].
      split; [done|]. split; [apply marks_elem; cbn in Hm; lia|]. intros f Hbd. by apply (gone_closed _ _ id f Hw').
Qed.

(** ** The release sink *)

(** A thread is about to tell sink [k] that group [g] has reached [m]. *)
Definition owes (p : pc) (k : nat) (g : ReleaseGroup) (m : Z) : Prop :=
  match p with
  | EndSink _ k' g' m' => k' = k ∧ g' = g ∧ m' = m
  | SinkReplay k' l => k' = k ∧ (g, m) ∈ l
  | _ => False
  end.
Definition owed (ts : threads) (k : nat) (g : ReleaseGroup) (m : Z) : Prop := ∃ t p, ts !! t = Some p ∧ owes p k g m.

(** The current sink knows, or is being told, where every group is; no sink was ever
    told, or is being told, more. *)
Definition told (s : world * threads) : Prop :=
  (∀ k g m, releaseSink (reg s.1) = Some k → releaseSequences (reg s.1) !! g = Some m → (k, g, m) ∈ delivered s.1 ∨ owed s.2 k g m)
  ∧ (∀ k g m, (k, g, m) ∈ delivered s.1 ∨ owed s.2 k g m → m <= default 0 (releaseSequences (reg s.1) !! g)).

Lemma owed_other ts t p' k g m : owed (<[t := p']> ts) k g m → owes p' k g m ∨ owed ts k g m.
Proof. intros (u & q & [[<- <-]|[_ Hq]]%lookup_insert_Some & Ho); [by left|right; by exists u, q]. Qed.
Lemma owed_kept ts t p p' k g m : ts !! t = Some p → (owes p k g m → owes p' k g m) → owed ts k g m → owed (<[t := p']> ts) k g m.
Proof.
  intros Hp Hk (u & q & Hq & Ho). destruct (decide (u = t)) as [->|Hne].
  - exists t, p'. split; [apply lookup_insert_eq|]. rewrite Hp in Hq. injection Hq as <-. by apply Hk.
  - exists u, q. by rewrite lookup_insert_ne.
Qed.

(** A step of a thread that owes nothing, before or after, and tells nobody. *)
Lemma told_quietly w w' ts t p p' : told (w, ts) → ts !! t = Some p → (∀ k g m, owes p k g m → owes p' k g m) →
  (∀ k g m, owes p' k g m → owes p k g m) → releaseSink (reg w') = releaseSink (reg w) →
  releaseSequences (reg w') = releaseSequences (reg w) → delivered w' = delivered w → told (w', <[t := p']> ts).
Proof.
  intros [T1 T2] Hp Ho Ho' E1 E2 E3. split; cbn [fst snd] in *; intros k g m; rewrite ?E1, ?E2, ?E3.
  - intros Hk Hg. destruct (T1 k g m Hk Hg) as [?|?]; [by left|right]. apply (owed_kept ts t p); [done|apply Ho|done].
  - intros [?|Hw]; [apply (T2 k g m); by left|]. apply (T2 k g m). right. apply owed_other in Hw as [Hw|?]; [|done].
    exists t, p. split; [done|by apply Ho'].
Qed.

Lemma close_silent w id : let w' := (startBoundResourceClose w id).2 in releaseSink (reg w') = releaseSink (reg w)
  ∧ releaseSequences (reg w') = releaseSequences (reg w) ∧ delivered w' = delivered w.
Proof. cbv zeta. unfold startBoundResourceClose. repeat case_match; done. Qed.

Lemma told_mark n w ts t id s : Z.of_nat n < 2 ^ 63 - 1 → world_ok n w → told (w, ts) → ts !! t = Some (EndMark id) →
  let r := markReleasedLocked (reg w) s in
  told (w <| reg := r.2 |> <| marked := marked w ++ [id] |>,
    <[t := match r.1 with
           | Some (Some sink, group, sequence) => if 0 <? sequence then EndSink id sink group sequence else EndTicket id None
           | _ => EndTicket id None
           end]> ts).
Proof.
  intros Hn Hw Ht Hp. cbv zeta. unfold markReleasedLocked. destruct (Accounted (spec s)); cbn [negb fst snd]; [|by eapply told_quietly].
  set (g0 := group_of (spec s)). pose proof (ended_of_range n w Hw g0) as Hr. rewrite <-(ro_exact n w (wo_releases n w Hw)) in Hr.
  rewrite wrap64_id by (unfold is_int64, MinInt64, MaxInt64; lia). destruct Ht as [T1 T2]. cbn [fst snd] in T1, T2.
  rewrite (proj2 (Z.ltb_lt _ _)) by lia. split; cbn [fst snd]; cbn.
  - intros k g m Hk. rewrite Hk. intros [[<- <-]|[Hne Hg]]%lookup_insert_Some.
    + right. eexists t, _. split; [apply lookup_insert_eq|done].
    + destruct (T1 k g m Hk Hg) as [?|?]; [by left|right]. by apply (owed_kept ts t (EndMark id)).
  - intros k g m Hw'. assert (m <= default 0 (releaseSequences (reg w) !! g) ∨ g = g0 ∧ m = default 0 (releaseSequences (reg w) !! g0) + 1) as Hm.
    { destruct Hw' as [?|Ho]; [left; apply (T2 k); by left|]. apply owed_other in Ho as [Ho|Ho]; [|left; apply (T2 k); by right].
      destruct (releaseSink (reg w)); [|done]. destruct Ho as (_ & <- & <-). by right. }
    destruct (decide (g = g0)) as [->|Hne]; [rewrite lookup_insert_eq|rewrite lookup_insert_ne by done]; cbn; lia || (destruct Hm as [?|[? _]]; done || lia).
Qed.

Lemma told_deliver w ts t p p' k0 g0 m0 : told (w, ts) → ts !! t = Some p → owes p k0 g0 m0 →
  (∀ k g m, owes p k g m → (k, g, m) = (k0, g0, m0) ∨ owes p' k g m) → (∀ k g m, owes p' k g m → owes p k g m) →
  told (w <| delivered := delivered w ++ [(k0, g0, m0)] |>, <[t := p']> ts).
Proof.
  intros [T1 T2] Hp H0 Ho Ho'. split; cbn [fst snd] in *; cbn; intros k g m; rewrite elem_of_app, list_elem_of_singleton.
  - intros Hk Hg. destruct (T1 k g m Hk Hg) as [?|(u & q & Hq & How)]; [by left; left|].
    destruct (decide (u = t)) as [->|Hne]; [|right; exists u, q; by rewrite lookup_insert_ne].
    rewrite Hp in Hq. injection Hq as <-. destruct (Ho k g m How) as [?|?]; [by left; right|right].
    exists t, p'. by rewrite lookup_insert_eq.
  - intros [[?|[= -> -> ->]]|Hw]; [apply (T2 k); by left| |].
    + apply (T2 k0). right. by exists t, p.
    + apply (T2 k). right. apply owed_other in Hw as [Hw|?]; [|done]. exists t, p. split; [done|by apply Ho'].
Qed.

Lemma told_set w ts t sink l : told (w, ts) → ts !! t = Some (SinkCalled sink) → l ≡ₚ map_to_list (releaseSequences (reg w)) →
  told (w <| reg := (reg w) <| releaseSink := sink |> |>,
    <[t := match sink with Some k => SinkReplay k l | None => SinkReturned end]> ts).
Proof.
  intros [T1 T2] Hp Hl. split; cbn [fst snd] in *; cbn; intros k g m.
  - intros -> Hg. right. eexists t, _. split; [apply lookup_insert_eq|]. split; [done|]. rewrite Hl. by apply elem_of_map_to_list.
  - intros [?|Hw]; [apply (T2 k); by left|]. apply owed_other in Hw as [Hw|?]; [|apply (T2 k); by right].
    destruct sink as [k0|]; [|done]. destruct Hw as [-> Hin]. rewrite Hl in Hin. apply elem_of_map_to_list in Hin. by rewrite Hin.
Qed.

Lemma told_replay n w ts t k0 g0 m0 l : world_ok n w → told (w, ts) → ts !! t = Some (SinkReplay k0 ((g0, m0) :: l)) →
  told (if 0 <? m0 then w <| delivered := delivered w ++ [(k0, g0, m0)] |> else w, <[t := SinkReplay k0 l]> ts).
Proof.
  intros Hw Ht Hp. destruct (Z.ltb_spec 0 m0) as [Hm|Hm].
  - apply (told_deliver w ts t (SinkReplay k0 ((g0, m0) :: l)) (SinkReplay k0 l)); [done|done|split; [done|left]|..]; cbn.
    + intros k g m [-> [[= -> ->]|?]%elem_of_cons]; [by left|by right].
    + intros k g m [-> ?]. split; [done|by right].
  - destruct Ht as [T1 T2]. split; cbn [fst snd] in *.
    + intros k g m Hk Hg. destruct (T1 k g m Hk Hg) as [?|?]; [by left|right].
      apply (owed_kept ts t (SinkReplay k0 ((g0, m0) :: l))); [done| |done]. intros [-> [[= -> ->]|?]%elem_of_cons]; [|done].
      pose proof (ro_positive n w (wo_releases n w Hw) g0 m0 Hg). lia.
    + intros k g m [?|Ho]; [apply (T2 k); by left|]. apply (T2 k). right. apply owed_other in Ho as [[-> Hin]|?]; [|done].
      exists t. eexists. split; [exact Hp|]. split; [done|by right].
Qed.

Lemma told_thread n w w' ts t p p' : Z.of_nat n < 2 ^ 63 - 1 → world_ok n w → told (w, ts) → ts !! t = Some p → thread_step t w p w' p' →
  told (w', <[t := p']> ts).
Proof.
  intros Hn Hw Ht Hp Hst. destruct Hst as [Hst|Hst|Hst|Hst|Hst]; destruct Hst; try (by eapply told_quietly).
  - destruct (close_silent w id) as (E1 & E2 & E3). eapply told_quietly; try done; by destruct (startBoundResourceClose w id).1.
  - by apply (told_mark n).
  - eapply told_deliver; try done; cbn. intros ??? (-> & -> & ->). by left.
  - by apply told_set.
  - by apply (told_replay n).
  - eapply told_quietly; try done. by intros ??? [_ ?%not_elem_of_nil].
  - destruct (close_silent w id) as (E1 & E2 & E3). by eapply told_quietly.
  - destruct (close_silent w id) as (E1 & E2 & E3). eapply told_quietly; try done; by destruct (startBoundResourceClose w id).1.
Qed.

Lemma call_silent w w' : call_step w w' → releaseSink (reg w') = releaseSink (reg w)
  ∧ releaseSequences (reg w') = releaseSequences (reg w) ∧ delivered w' = delivered w.
Proof.
  intros []; cbn; try done.
  - unfold BeginDispatch. by case_match.
  - unfold PendingDispatch_End. by repeat case_match.
  - unfold Install. by repeat case_match.
  - unfold Bind. by repeat case_match.
  - unfold ObserveBarrier. by repeat case_match.
  - unfold FreezeInFlight. cbv zeta. by case_match.
Qed.

Lemma reachable_told n s : reachable n s → Z.of_nat n < 2 ^ 63 → told s.
Proof.
  unfold reachable. remember (start, ∅) as s0 eqn:E0. intros Hs. induction Hs as [s|n s s' s'' Hs IH Hst]; intros Hn; subst.
  { split; cbn; [done|]. intros k g m [?%not_elem_of_nil|(t & p & ?%lookup_empty_Some & _)]; done. }
  specialize (IH eq_refl ltac:(lia)). pose proof (execution_ok n s' Hs ltac:(lia)) as [Hw _].
  destruct Hst as [w w' ts Hc|w ts t p Hf He|w w' ts t p p' Hp Hst]; cbn [fst] in *.
  - destruct (call_silent w w' Hc) as (E1 & E2 & E3). destruct IH as [T1 T2]. split; cbn [fst snd] in *; rewrite E2, E3, ?E1; done.
  - destruct IH as [T1 T2]. assert (∀ k g m, ¬ owes p k g m) as Hno by (destruct p; cbn; naive_solver). split; cbn [fst snd] in *; intros k g m.
    + intros Hk Hg. destruct (T1 k g m Hk Hg) as [?|(u & q & Hq & How)]; [by left|right]. exists u, q.
      rewrite lookup_insert_ne; [done|congruence].
    + intros [?|[?|?]%owed_other]; [apply (T2 k); by left|by destruct (Hno k g m)|apply (T2 k); by right].
  - by apply (told_thread n w w' ts t p p'); [lia|..].
Qed.

(** C16: The release sink is told the truth and all of it.  No sink is ever told a sequence
    its group has not reached; and when no call is on its way to the sink, the current
    sink has been told the latest sequence of every group - also of the groups that were
    released before it was installed. *)
Theorem release_delivered (n : nat) (s : world * threads) (Hr : reachable n s) (Hn : Z.of_nat n < 2 ^ 63)
    (k : nat) (g : ReleaseGroup) (m : Z) :
  ((k, g, m) ∈ delivered s.1 → m <= default 0 (releaseSequences (reg s.1) !! g))
  ∧ (releaseSink (reg s.1) = Some k → releaseSequences (reg s.1) !! g = Some m →
     (∀ t p, s.2 !! t = Some p → ¬ owes p k g m) → (k, g, m) ∈ delivered s.1).
Proof.
  destruct (reachable_told n s Hr Hn) as [T1 T2]. split; [intros ?; apply (T2 k); by left|].
  intros Hk Hg Hno. destruct (T1 k g m Hk Hg) as [?|(t & p & Hp & Ho)]; [done|]. by destruct (Hno t p Hp).
Qed.

(** ** Nothing waits for nothing *)

(** How far a call that ends an execution has to go. *)
Definition end_rank (p : pc) : nat :=
  match p with
  | EndCalled _ => 10 | EndDeactivate _ => 9 | EndCloseStart _ => 8 | EndCloseWait _ => 7 | EndMark _ => 6
  | EndSink _ _ _ _ => 5 | EndTicket _ _ => 4 | EndDelete _ => 3 | EndOnce _ => 2 | EndResult _ => 1 | _ => 0
  end.
(** It waits for another call that ends the same execution. *)
Definition behind_another (w : world) (p : pc) : Prop :=
  match p with
  | EndCalled id => ∃ sc u, scope_of w id = Some sc ∧ ended sc = OnceRunning u
  | _ => False
  end.

(** The execution a call ends. *)
Definition ends (p : pc) : option Z :=
  match p with
  | EndCalled id | EndDeactivate id | EndCloseStart id | EndCloseWait id | EndMark id | EndSink id _ _ _
  | EndTicket id _ | EndDelete id | EndOnce id | EndResult id => Some id
  | _ => None
  end.

(** The steps call [t] can take without anybody but the goroutine that closes the resource
    of execution [id]. *)
Inductive own_step (t : nat) (id : Z) : world * threads → world * threads → Prop :=
| own_thread w w' ts p p' : ts !! t = Some p → thread_step t w p w' p' → own_step t id (w, ts) (w', <[t := p']> ts)
| own_closed w ts f : closers w !! id = Some f → own_step t id (w, ts) (closeResource w id f, ts).
Inductive own_steps (t : nat) (id : Z) : nat → world * threads → world * threads → Prop :=
| own_refl s : own_steps t id 0 s s
| own_next n s s' s'' : own_step t id s s' → own_steps t id n s' s'' → own_steps t id (S n) s s''.

Lemma own_steps_trans t id n m s s' s'' : own_steps t id n s s' → own_steps t id m s' s'' → own_steps t id (n + m) s s''.
Proof. induction 1; [done|]. intros ?. cbn. econstructor; eauto. Qed.
Lemma own_step_step t id s s' : own_step t id s s' → step s s'.
Proof. intros []; [by eapply step_thread|by apply step_call, call_closed]. Qed.
Lemma own_steps_steps t id n s s' : own_steps t id n s s' → steps n s s'.
Proof.
  induction 1 as [|n s s' s'' Hst _ IH]; [constructor|]. apply (steps_trans 1 n s s'); [|done].
  eapply steps_next; [constructor|]. by eapply own_step_step.
Qed.
(** They leave every other call where it is. *)
Lemma own_steps_alone t id n s s' : own_steps t id n s s' → ∀ u, u ≠ t → s'.2 !! u = s.2 !! u.
Proof. induction 1 as [|n s s' s'' Hst _ IH]; [done|]. intros u Hu. rewrite IH by done. destruct Hst; [by apply lookup_insert_ne|done]. Qed.

Lemma one_step w ts t p p' w' : ts !! t = Some p → thread_step t w p w' p' → steps 1 (w, ts) (w', <[t := p']> ts).
Proof. intros Hp Hst. eapply steps_next; [constructor|]. by eapply step_thread. Qed.
Lemma one_own w ts t id p p' w' : ts !! t = Some p → thread_step t w p w' p' → own_steps t id 1 (w, ts) (w', <[t := p']> ts).
Proof. intros Hp Hst. eapply own_next; [by eapply own_thread|constructor]. Qed.

(** A resource that is being closed can be waited for. *)
Lemma close_can_end n w ts t id sc : world_ok n w → heap (reg w) !! id = Some sc → closeFn sc = None → is_Some (closeDone sc) →
  ∃ m w' sc', (m <= 1)%nat ∧ own_steps t id m (w, ts) (w', ts) ∧ heap (reg w') !! id = Some sc' ∧ closeDone sc' = Some true.
Proof.
  intros Hw Hs Hf [[] Hd].
  { exists 0%nat, w, sc. split_and!; [lia|constructor|done|done]. }
  pose proof (wo_view n w Hw id) as Hv. unfold view_ok in Hv. cbn in Hv. rewrite Hs in Hv. destruct Hv as (_ & Hr & _).
  unfold resource_ok in Hr. cbn in Hr. assert (∃ f, closers w !! id = Some f) as [f Hc].
  { destruct (bound w !! id) as [f|]; [|destruct Hr as (_ & ? & _); congruence].
    destruct Hr as [(_ & ? & _)|[(_ & _ & ? & _)|(_ & ? & _)]]; [congruence|eauto|congruence]. }
  exists 1%nat, (closeResource w id f), (sc <| closeDone := Some true |>). split_and!; [lia| |cbn; by rewrite lookup_alter_eq, Hs|done].
  eapply own_next; [by apply own_closed|constructor].
Qed.

Lemma end_progress n s t p id : all_ok n s → s.2 !! t = Some p → ends p = Some id → ¬ behind_another s.1 p →
  ∃ m s' p', (m <= 2)%nat ∧ own_steps t id m s s' ∧ s'.2 !! t = Some p' ∧ (end_rank p' < end_rank p)%nat
    ∧ ¬ behind_another s'.1 p' ∧ (ends p' = Some id ∨ ∃ ticket, p' = EndReturned ticket).
Proof.
  intros [Hw Hts] Hp He Hb. pose proof (Hts t p Hp) as Ht. destruct s as [w ts]. cbn [fst snd] in *.
  assert (∀ w' p', thread_step t w p w' p' → (end_rank p' < end_rank p)%nat → (∀ id, p' ≠ EndCalled id) →
    (ends p' = Some id ∨ ∃ ticket, p' = EndReturned ticket) → ∃ m s' p', (m <= 2)%nat ∧ own_steps t id m (w, ts) s' ∧ s'.2 !! t = Some p'
    ∧ (end_rank p' < end_rank p)%nat ∧ ¬ behind_another s'.1 p' ∧ (ends p' = Some id ∨ ∃ ticket, p' = EndReturned ticket)) as Hone.
  { intros w' p' Hst Hrk Hne Hend. exists 1%nat, (w', <[t := p']> ts), p'. split_and!; [lia|by apply (one_own w ts t id p)| |done| |done];
      cbn; [by rewrite lookup_insert_eq|]. intros Hx. destruct p'; try exact Hx. by destruct (Hne id0). }
  destruct p; try done; injection He as ->; cbn [thread_ok] in Ht.
  - destruct Ht as [sc Hsc]. destruct (ended sc) as [|u|] eqn:Eo.
    + eapply Hone; [by apply by_end, (end_first t w id sc)|cbn; lia|done|by left].
    + destruct Hb. by exists sc, u.
    + eapply Hone; [by apply by_end, (end_again t w id sc)|cbn; lia|done|by left].
  - eapply Hone; [apply by_end, end_deactivate|cbn; lia|done|by left].
  - eapply Hone; [apply by_end, end_close_start|..]; destruct (startBoundResourceClose w id).1; cbn; (lia || done || by left).
  - destruct Ht as (sc & Hsc & _ & _ & _ & _ & Hf & Hd). destruct (close_can_end n w ts t id sc Hw Hsc Hf Hd) as (m & w' & sc' & Hm & Hs & Hs' & Hd').
    exists (m + 1)%nat, (w', <[t := EndMark id]> ts), (EndMark id). split_and!; [lia| | |cbn; lia|by cbn|by left].
    + eapply own_steps_trans; [exact Hs|]. apply (one_own w' ts t id (EndCloseWait id)); [done|]. by eapply by_end, end_close_wait.
    + cbn. by rewrite lookup_insert_eq.
  - destruct Ht as (sc & Hsc & _). eapply Hone; [by apply by_end, (end_mark t w id sc)|..]; repeat case_match; cbn; (lia || done || by left).
  - eapply Hone; [apply by_end, (end_sink t w id sink group sequence None)|cbn; lia|done|by left].
  - eapply Hone; [apply by_end, end_ticket|cbn; lia|done|by left].
  - eapply Hone; [apply by_end, end_delete|cbn; lia|done|by left].
  - eapply Hone; [apply by_end, end_once|cbn; lia|done|by left].
  - destruct Ht as (sc & Hsc & _). eapply Hone; [by apply by_end, (end_result t w id sc)|cbn; lia|done|right; eauto].
Qed.

(** C17: Ending an execution ends.  A call that ends an execution, unless another call is
    already at it, can always run to its return, in at most twenty steps, each of them its
    own or the step in which the closing goroutine of its own resource finishes: no step of
    another call, of a dispatch or of another resource is needed. *)
Theorem end_returns (n : nat) (s : world * threads) (t : nat) (id : Z) (p : pc) (Hr : reachable n s) (Hn : Z.of_nat n < 2 ^ 63 - 20)
    (Hp : s.2 !! t = Some p) (He : ends p = Some id) (Hb : ¬ behind_another s.1 p) :
  ∃ m s' ticket, (m <= 20)%nat ∧ own_steps t id m s s' ∧ steps m s s' ∧ s'.2 !! t = Some (EndReturned ticket)
    ∧ ∀ u, u ≠ t → s'.2 !! u = s.2 !! u.
Proof.
  assert (∀ r n s p, (end_rank p <= r)%nat → all_ok n s → Z.of_nat n < 2 ^ 63 - 2 * Z.of_nat r → s.2 !! t = Some p → ends p = Some id →
    ¬ behind_another s.1 p → ∃ m s' ticket, (m <= 2 * r)%nat ∧ own_steps t id m s s' ∧ s'.2 !! t = Some (EndReturned ticket)) as Hall.
  { clear. induction r as [|r IH]; intros n s p Hrk Hok Hn Hp He Hb; [destruct p; cbn in Hrk, He; (done || lia)|].
    destruct (end_progress n s t p id Hok Hp He Hb) as (m & s' & p' & Hm & Hs & Hp' & Hlt & Hb' & [He'|[ticket ->]]);
      [|exists m, s', ticket; split_and!; [lia|done|done]].
    assert (all_ok (n + m) s') as Hok' by (apply (steps_all_ok m n s s'); [by eapply own_steps_steps|lia|done]).
    destruct (IH (n + m)%nat s' p' ltac:(lia) Hok' ltac:(lia) Hp' He' Hb') as (m' & s'' & ticket & Hm' & Hs' & Ht').
    exists (m + m')%nat, s'', ticket. split_and!; [lia|by eapply own_steps_trans|done]. }
  destruct (Hall 10%nat n s p) as (m & s' & ticket & Hm & Hs & Ht); try done; [destruct p; cbn; lia|by apply execution_ok; [|lia]|].
  exists m, s', ticket. split_and!; [lia|done|by eapply own_steps_steps|done|by eapply own_steps_alone].
Qed.

(** C18: No wake-up is lost.  As soon as the last dispatch is resolved and the last
    execution has ended, a waiting [Drain] can go on to its return; as soon as the last
    dispatch is resolved, so can a waiting [WaitPending].  Neither ever waits on a channel
    that nobody will close any more. *)
Theorem waiters_wake (n : nat) (s : world * threads) (t seen : nat) (Hr : reachable n s) (Hn : Z.of_nat n < 2 ^ 63) :
  (s.2 !! t = Some (DrainWait seen) → pending (reg s.1) = ∅ → scopes (reg s.1) = ∅ →
     ∃ s', steps 2 s s' ∧ s'.2 !! t = Some (DrainReturned None))
  ∧ (s.2 !! t = Some (AwaitWait seen) → pending (reg s.1) = ∅ → ∃ s', steps 2 s s' ∧ s'.2 !! t = Some (AwaitReturned None)).
Proof.
  destruct (execution_ok n s Hr Hn) as [_ Hts]. destruct s as [w ts]. cbn [fst snd] in *. split.
  - intros Hp Hpe Hsc. destruct (Hts t _ Hp) as (_ & Hle & Hne). assert (seen < changed (reg w))%nat as Hlt.
    { destruct (decide (seen = changed (reg w))) as [E|?]; [|lia]. destruct (Hne E); done. }
    eexists (_, <[t := DrainReturned None]> (<[t := DrainCheck]> ts)). split; [|cbn; apply lookup_insert_eq].
    eapply (steps_trans 1 1 _ (w, <[t := DrainCheck]> ts)).
    + apply (one_step w ts t (DrainWait seen)); [done|by apply by_drain, drain_wake].
    + apply (one_step w (<[t := DrainCheck]> ts) t DrainCheck); [by rewrite lookup_insert_eq|by apply by_drain, drain_finish].
  - intros Hp Hpe. destruct (Hts t _ Hp) as (Hle & Hne). assert (seen < changed (reg w))%nat as Hlt.
    { destruct (decide (seen = changed (reg w))) as [E|?]; [|lia]. by destruct (Hne E). }
    eexists (_, <[t := AwaitReturned None]> (<[t := AwaitCheck]> ts)). split; [|cbn; apply lookup_insert_eq].
    eapply (steps_trans 1 1 _ (w, <[t := AwaitCheck]> ts)).
    + apply (one_step w ts t (AwaitWait seen)); [done|by apply by_await, await_wake].
    + apply (one_step w (<[t := AwaitCheck]> ts) t AwaitCheck); [by rewrite lookup_insert_eq|by apply by_await, await_done].
Qed.
