(* ===== verification/ExecutionRun.v ===== *)
(** * Running the registry of executions

    An executable scheduler of the threads of [ExecutionRegistry]: [next_step] makes the
    step a thread can make, with the choices that are free resolved (no context ends, a
    sink returns no ticket, snapshots in the order of the map), and [run] follows a list
    of events.  Every run is a run of the step relation ([run_steps]); the theorems are
    evaluated on the runs below. *)
From Stdlib Require Import ZArith Lia String Bool.
From stdpp Require Import prelude gmap strings.
From S2P Require Import Prelude GoStd ExecutionRegistry ExecutionInvariant ExecutionProofs.
Local Open Scope string_scope.
Local Open Scope list_scope.
Local Open Scope Z_scope.

Definition next_step (t : nat) (w : world) (p : pc) : option (world * pc) :=
  match p with
  | EndCalled id =>
      s ← scope_of w id;
      match ended s with
      | OnceFresh => Some (on_scope w id (λ s, s <| ended := OnceRunning t |>), EndDeactivate id)
      | OnceFinished => Some (w, EndResult id)
      | OnceRunning _ => None
      end
  | EndDeactivate id => Some (on_scope w id (λ s, s <| active := false |>), EndCloseStart id)
  | EndCloseStart id =>
      Some ((startBoundResourceClose w id).2, if (startBoundResourceClose w id).1 then EndCloseWait id else EndMark id)
  | EndCloseWait id => s ← scope_of w id; match closeDone s with Some true => Some (w, EndMark id) | _ => None end
  | EndMark id =>
      s ← scope_of w id;
      Some (w <| reg := (markReleasedLocked (reg w) s).2 |> <| marked := marked w ++ [id] |>,
        match (markReleasedLocked (reg w) s).1 with
        | Some (Some sink, group, sequence) => if 0 <? sequence then EndSink id sink group sequence else EndTicket id None
        | _ => EndTicket id None
        end)
  | EndSink id sink group sequence => Some (w <| delivered := delivered w ++ [(sink, group, sequence)] |>, EndTicket id None)
  | EndTicket id ticket => Some (on_scope w id (λ s, s <| releaseTicket := ticket |>), EndDelete id)
  | EndDelete id => Some (w <| reg := signalLocked ((reg w) <| scopes := scopes (reg w) ∖ {[id]} |>) |>, EndOnce id)
  | EndOnce id => Some (on_scope w id (λ s, s <| ended := OnceFinished |>), EndResult id)
  | EndResult id => s ← scope_of w id; Some (w, EndReturned (releaseTicket s))
  | SinkCalled sink =>
      Some (w <| reg := (reg w) <| releaseSink := sink |> |>,
        match sink with Some k => SinkReplay k (map_to_list (releaseSequences (reg w))) | None => SinkReturned end)
  | SinkReplay k ((group, sequence) :: l) =>
      Some (if 0 <? sequence then w <| delivered := delivered w ++ [(k, group, sequence)] |> else w, SinkReplay k l)
  | SinkReplay _ [] => Some (w, SinkReturned)
  | DrainCalled =>
      if bool_decide (state (reg w) = StateClosed) then Some (w, DrainReturned (Some (Refused ErrRegistryClosed)))
      else Some (w <| reg := (reg w) <| state := StateDraining |> |>, DrainSnapshot)
  | DrainSnapshot => Some (w, DrainCancel (elements (scopes (reg w))))
  | DrainCancel (id :: l) => Some ((startBoundResourceClose w id).2, DrainCancel l)
  | DrainCancel [] => Some (w, DrainCheck)
  | DrainCheck =>
      if bool_decide (pending (reg w) = ∅ ∧ scopes (reg w) = ∅)
      then Some (w <| reg := (reg w) <| state := StateClosed |> |>, DrainReturned None) else Some (w, DrainWait (changed (reg w)))
  | DrainWait seen => if (seen <? changed (reg w))%nat then Some (w, DrainCheck) else None
  | CloseCalled =>
      if closeStarted (reg w) then Some (w, CloseJoin)
      else if bool_decide (state (reg w) = StateClosed) then Some (w, CloseReturned)
      else Some (w <| reg := (reg w) <| closeStarted := true |> <| r_closeDone := Some false |> |>, CloseState)
  | CloseJoin => if bool_decide (r_closeDone (reg w) = Some true) then Some (w, CloseReturned) else None
  | CloseState => Some (w <| reg := (reg w) <| state := StateClosed |> |>, CloseSnapshot)
  | CloseSnapshot => Some (w, CloseScopes (elements (scopes (reg w))))
  | CloseScopes (id :: l) =>
      Some ((startBoundResourceClose w id).2, if (startBoundResourceClose w id).1 then CloseWait id l else CloseScopes l)
  | CloseScopes [] => Some (w, CloseFinish)
  | CloseWait id l => s ← scope_of w id; match closeDone s with Some true => Some (w, CloseScopes l) | _ => None end
  | CloseFinish => Some (w <| reg := (reg w) <| r_closeDone := Some true |> |>, CloseReturned)
  | AwaitCheck => if bool_decide (pending (reg w) = ∅) then Some (w, AwaitReturned None) else Some (w, AwaitWait (changed (reg w)))
  | AwaitWait seen => if (seen <? changed (reg w))%nat then Some (w, AwaitCheck) else None
  | EndReturned _ | SinkReturned | DrainReturned _ | CloseReturned | AwaitReturned _ => None
  end.

Ltac by_thread :=
  first [ apply by_end; (constructor; done) | apply by_sink; (constructor || apply sink_set); done | apply by_drain; constructor; done
        | apply by_close; (constructor || apply close_scope); done | apply by_await; constructor; done ].
Lemma next_step_sound t w p w' p' : next_step t w p = Some (w', p') → thread_step t w p w' p'.
Proof.
  destruct p as [id|id|id|id|id|id k g m|id tk|id|id|id|?|k|k [|[g m] l]| | | |[|id l]| |seen|?| | | | |[|id l]|id l| | | |seen|?];
    cbn [next_step]; intros Hs; try discriminate;
    try (injection Hs as <- <-; by_thread).
  - destruct (scope_of w id) as [s|] eqn:Es; [|done]. cbn in Hs. destruct (ended s) eqn:Eo; [..|];
      simplify_eq; [by eapply by_end, end_first|by eapply by_end, end_again].
  - destruct (scope_of w id) as [s|] eqn:Es; [|done]. cbn in Hs. destruct (closeDone s) as [[]|] eqn:Ed; simplify_eq. by eapply by_end, end_close_wait.
  - destruct (scope_of w id) as [s|] eqn:Es; [|done]. cbn [mbind option_bind] in Hs. injection Hs as <- <-. by apply by_end, end_mark.
  - destruct (scope_of w id) as [s|] eqn:Es; [|done]. cbn in Hs. injection Hs as <- <-. by apply by_end, end_result.
  - case_bool_decide; injection Hs as <- <-; by_thread.
  - case_bool_decide as Hd; injection Hs as <- <-; [destruct Hd; by_thread|]. apply by_drain. constructor.
    destruct (decide (pending (reg w) = ∅)); [right|by left]. naive_solver.
  - destruct (_ <? _)%nat eqn:E; [|done]. to_prop. injection Hs as <- <-. by_thread.
  - destruct (closeStarted _) eqn:E; [injection Hs as <- <-; by_thread|]. case_bool_decide; injection Hs as <- <-; by_thread.
  - case_bool_decide; [|done]. injection Hs as <- <-. by_thread.
  - destruct (scope_of w id) as [s|] eqn:Es; [|done]. cbn in Hs. destruct (closeDone s) as [[]|] eqn:Ed; simplify_eq. by eapply by_close, close_wait.
  - case_bool_decide; injection Hs as <- <-; by_thread.
  - destruct (_ <? _)%nat eqn:E; [|done]. to_prop. injection Hs as <- <-. by_thread.
Qed.

Inductive event :=
| Begin | EndDispatch (id : Z) | Installed (id : Z) (s : ScopeSpec) | Bound (id : Z) (f : nat) | Observed (revision : Z) | Frozen
| Closed (id : Z) | Enter (t : nat) (p : pc) | Go (t : nat).
Definition entryb (w : world) (p : pc) : bool :=
  match p with
  | EndCalled id => bool_decide (is_Some (scope_of w id))
  | SinkCalled _ | DrainCalled | CloseCalled | AwaitCheck => true
  | _ => false
  end.
Definition run_event (s : world * threads) (e : event) : option (world * threads) :=
  let '(w, ts) := s in
  match e with
  | Begin => Some (w <| reg := (BeginDispatch (reg w)).2 |>, ts)
  | EndDispatch id => Some (w <| reg := PendingDispatch_End (reg w) id |>, ts)
  | Installed id sp => Some (w <| reg := (Install (reg w) id sp).2 |>, ts)
  | Bound id f => Some (w <| reg := (Bind (reg w) id (Some f)).2 |>
      <| bound := match (Bind (reg w) id (Some f)).1 with None => <[id := f]> (bound w) | Some _ => bound w end |>, ts)
  | Observed revision => Some (w <| reg := ObserveBarrier (reg w) revision |>, ts)
  | Frozen => Some (w <| reg := (FreezeInFlight (reg w)).2 |>, ts)
  | Closed id => f ← closers w !! id; Some (closeResource w id f, ts)
  | Enter t p => if bool_decide (ts !! t = None) && entryb w p then Some (w, <[t := p]> ts) else None
  | Go t => p ← ts !! t; '(w', p') ← next_step t w p; Some (w', <[t := p']> ts)
  end.
Fixpoint run (l : list event) (s : world * threads) : option (world * threads) :=
  match l with [] => Some s | e :: l => run_event s e ≫= run l end.

Lemma run_event_step s e s' : run_event s e = Some s' → step s s'.
Proof.
  destruct s as [w ts], e; cbn; intros Hs; try (injection Hs as <-; apply step_call; constructor).
  - destruct (closers w !! id) as [f|] eqn:E; [|done]. cbn in Hs. injection Hs as <-. by apply step_call, call_closed.
  - destruct (_ && _) eqn:E; [|done]. apply andb_true_iff in E as [E1%bool_decide_eq_true E2]. injection Hs as <-.
    apply step_enter; [done|]. destruct p; cbn in *; try done. by apply bool_decide_eq_true in E2.
  - destruct (ts !! t) as [p|] eqn:E; [|done]. cbn in Hs. destruct (next_step t w p) as [[w' p']|] eqn:En; [|done].
    cbn in Hs. injection Hs as <-. eapply step_thread; [done|]. by apply next_step_sound.
Qed.
Lemma run_steps l : ∀ s s', run l s = Some s' → steps (length l) s s'.
Proof.
  induction l as [|e l IH]; intros s s'; cbn [run]; [intros [= <-]; constructor|]. destruct (run_event s e) as [s1|] eqn:E; [|done].
  cbn. intros Hr. apply (steps_trans 1 (length l) s s1); [|by apply IH]. eapply steps_next; [constructor|]. by eapply run_event_step.
Qed.

(** ** Runs *)

Definition state_after (l : list event) : world * threads := default (start, ∅) (run l (start, ∅)).
Lemma reached l : is_Some (run l (start, ∅)) → reachable (length l) (state_after l).
Proof. intros [s Hs]. unfold state_after. rewrite Hs. by apply run_steps. Qed.

Definition chat (r : string) : ScopeSpec := mkSpec r "cred" "gpt" "chat" 0 true.
Definition cred_gpt : ReleaseGroup := mkGroup "cred" "gpt".

(** An execution is ended by thread 0 while thread 1 drains the registry. *)
Definition begun : list event :=
  [ Enter 9 (SinkCalled (Some 5%nat)); Go 9; Go 9; Begin; Begin; Installed 1 (chat "r1"); Bound 1 7; Enter 0 (EndCalled 1); Go 0; Go 0 ].
Definition draining : list event :=
  begun ++ [ EndDispatch 2; Enter 1 DrainCalled; Go 1; Go 1; Go 1; Go 1; Go 1; Go 0; Closed 1; Go 0; Go 0; Go 0; Go 0; Go 0; Go 0; Go 0 ].
Definition drained : list event := draining ++ [ Go 1; Go 1 ].
(** An execution is still bound when thread 2 closes the registry. *)
Definition closing : list event :=
  [ Begin; Installed 1 (chat "r1"); Bound 1 7; Enter 2 CloseCalled; Go 2; Go 2; Go 2; Go 2; Closed 1; Go 2; Go 2; Go 2 ].

Lemma drain_complete_witness :
  (state_after drained).2 !! 1%nat = Some (DrainReturned None)
  ∧ pending (reg (state_after drained).1) = ∅ ∧ scopes (reg (state_after drained).1) = ∅
  ∧ heap (reg (state_after drained).1) !! 1 ≠ None.
Proof.
  assert ((state_after drained).2 !! 1%nat = Some (DrainReturned None)) as Hd by (vm_compute; reflexivity).
  pose proof (drain_complete (length drained) 0 1 (state_after drained) (state_after drained)
    (reached drained ltac:(vm_compute; eexists; reflexivity)) Hd (steps_refl _) ltac:(vm_compute; reflexivity)) as (_ & H1 & H2 & _).
  split; [exact Hd|]. split; [exact H1|]. split; [exact H2|]. vm_compute. discriminate.
Defined.

Lemma close_complete_witness :
  (state_after closing).2 !! 2%nat = Some CloseReturned
  ∧ bound (state_after closing).1 !! 1 = Some 7%nat ∧ calls_of 1 (calls (state_after closing).1) = [7%nat].
Proof.
  assert ((state_after closing).2 !! 2%nat = Some CloseReturned) as Hd by (vm_compute; reflexivity).
  assert (bound (state_after closing).1 !! 1 = Some 7%nat) as Hb by (vm_compute; reflexivity).
  pose proof (close_complete (length closing) 0 2 (state_after closing) (state_after closing)
    (reached closing ltac:(vm_compute; eexists; reflexivity)) Hd (steps_refl _) ltac:(vm_compute; reflexivity)) as (_ & _ & H1).
  split; [exact Hd|]. split; [exact Hb|]. exact (H1 1 7%nat Hb).
Defined.

Lemma ended_once_witness :
  (marks_of 1 (marked (state_after draining).1) <= 1)%nat ∧ marked (state_after draining).1 = [1].
Proof.
  pose proof (ended_once (length draining) (state_after draining) (reached draining ltac:(vm_compute; eexists; reflexivity))
    ltac:(vm_compute; reflexivity) 1) as (_ & H1 & _).
  split; [exact H1|vm_compute; reflexivity].
Defined.

Lemma release_exact_witness :
  NoDup (marked (state_after drained).1) ∧ releaseSequences (reg (state_after drained).1) !! cred_gpt = Some 1.
Proof.
  pose proof (release_exact (length drained) (state_after drained) (reached drained ltac:(vm_compute; eexists; reflexivity))
    ltac:(vm_compute; reflexivity) cred_gpt) as (H1 & _).
  split; [exact H1|vm_compute; reflexivity].
Defined.

Lemma release_delivered_witness :
  (5%nat, cred_gpt, 1) ∈ delivered (state_after drained).1.
Proof.
  apply (release_delivered (length drained) (state_after drained) (reached drained ltac:(vm_compute; eexists; reflexivity))
    ltac:(vm_compute; reflexivity) 5%nat cred_gpt 1); [vm_compute; reflexivity|vm_compute; reflexivity|].
  intros t p Hp Ho. assert (map_to_list (state_after drained).2 = [(9%nat, SinkReturned); (1%nat, DrainReturned None); (0%nat, EndReturned None)]) as E
    by (vm_compute; reflexivity).
  apply elem_of_map_to_list in Hp. rewrite E in Hp.
  repeat (apply elem_of_cons in Hp as [Hp|Hp]; [injection Hp as -> ->; exact Ho|]). exact (not_elem_of_nil _ Hp).
Defined.

Definition observing : world * threads := state_after begun.
Definition observed : world * threads := ((observing).1 <| reg := ObserveBarrier (reg (observing).1) 4 |>, (observing).2).
Lemma barrier_covers_witness :
  ∃ s', steps 1 observed s' ∧ BarrierRevision (FreezeInFlight (reg s'.1)).1 = 4 ∧ 2 ∉ pending (reg s'.1).
Proof.
  pose (s' := default observed (run [EndDispatch 2] observed)). exists s'.
  assert (run [EndDispatch 2] observed = Some s') as Hr by (vm_compute; reflexivity).
  pose proof (run_steps [EndDispatch 2] observed s' Hr) as Hs.
  assert (BarrierRevision (FreezeInFlight (reg s'.1)).1 = 4) as Hb by (vm_compute; reflexivity).
  split; [exact Hs|]. split; [exact Hb|].
  refine (proj1 (barrier_covers (length begun) 1 (observing).1 (observing).2 s' 4 _ _ Hs _ _ 2 _)).
  - rewrite <-surjective_pairing. exact (reached begun ltac:(vm_compute; eexists; reflexivity)).
  - split; vm_compute; reflexivity.
  - vm_compute. reflexivity.
  - rewrite Hb. reflexivity.
  - vm_compute. eexists. reflexivity.
Defined.

Lemma end_returns_witness :
  (state_after begun).2 !! 0%nat = Some (EndCloseStart 1)
  ∧ ∃ m s' ticket, (m <= 20)%nat ∧ own_steps 0 1 m (state_after begun) s' ∧ steps m (state_after begun) s'
    ∧ s'.2 !! 0%nat = Some (EndReturned ticket) ∧ ∀ u, u ≠ 0%nat → s'.2 !! u = (state_after begun).2 !! u.
Proof.
  assert ((state_after begun).2 !! 0%nat = Some (EndCloseStart 1)) as Hp by (vm_compute; reflexivity).
  split; [exact Hp|]. apply (end_returns (length begun) (state_after begun) 0 1 (EndCloseStart 1)); [|vm_compute; reflexivity|exact Hp|reflexivity|exact id].
  exact (reached begun ltac:(vm_compute; eexists; reflexivity)).
Defined.

Lemma waiters_wake_witness :
  ∃ seen, (state_after draining).2 !! 1%nat = Some (DrainWait seen)
  ∧ ∃ s', steps 2 (state_after draining) s' ∧ s'.2 !! 1%nat = Some (DrainReturned None).
Proof.
  exists 2%nat. assert ((state_after draining).2 !! 1%nat = Some (DrainWait 2)) as Hp by (vm_compute; reflexivity).
  split; [exact Hp|].
  apply (proj1 (waiters_wake (length draining) (state_after draining) 1 2 (reached draining ltac:(vm_compute; eexists; reflexivity))
    ltac:(vm_compute; reflexivity)) Hp); vm_compute; reflexivity.
Defined.
