(* ===== verification/ReleaseFlusher.v ===== *)
(** * Telling Home about released executions

    Models the flusher of [internal/home/concurrency_release.go], the release sink of the
    registry of executions: for every group the latest sequence it was given and the one
    Home has acknowledged, the tickets that wait in between, flushing and its back-off.

    What runs under [f.mu] is one step: a flush takes a snapshot ([flush_pending]), sends
    frame by frame without the lock, and acknowledges each that was accepted.  A ticket's
    channel is a number; [f_closed] records the channels that were closed, in order. *)
From Stdlib Require Import ZArith Lia String Bool.
From stdpp Require Import prelude gmap strings.
From S2P Require Import Prelude GoStd ConcurrencyConfig ExecutionRegistry ExecutionInvariant ExecutionProofs ExecutionRun.
Local Open Scope string_scope.
Local Open Scope list_scope.
Local Open Scope Z_scope.

Record releaseState := mkRelease { Latest : Z; Acked : Z; waiters : gmap Z (list nat) }.
Definition zeroRelease : releaseState := mkRelease 0 0 ∅.
Record releaseFlusher := mkFlusher {
  groups : gmap ReleaseGroup releaseState; flushInterval : duration; maxBackoff : duration;
  configProvider : option CredentialConcurrencyConfig; f_closed : list nat }.
#[export] Instance releaseFlusher_eta : Eta releaseFlusher :=
  λ f, mkFlusher (groups f) (flushInterval f) (maxBackoff f) (configProvider f) (f_closed f).
Definition newReleaseFlusher (flushInterval maxBackoff : duration) : releaseFlusher :=
  mkFlusher ∅ flushInterval maxBackoff None [].
Definition SetConfigProvider (f : releaseFlusher) (provider : option CredentialConcurrencyConfig) : releaseFlusher :=
  f <| configProvider := provider |>.

Definition group_state (f : releaseFlusher) (g : ReleaseGroup) : releaseState := default zeroRelease (groups f !! g).

(** [done] is the fresh channel of the ticket. *)
Definition MarkDirty (f : releaseFlusher) (group : ReleaseGroup) (sequence : Z) (done : nat) : option ReleaseTicket * releaseFlusher :=
  if (sequence <=? 0) || String.eqb (RG_CredentialID group) "" || String.eqb (RG_Model group) "" then (None, f) else
  let state := group_state f group in
  (NewReleaseTicket group sequence (Some done),
   if sequence <=? Acked state then f <| f_closed := f_closed f ++ [done] |>
   else f <| groups := <[group := mkRelease (if Latest state <? sequence then sequence else Latest state) (Acked state)
                                    (<[sequence := default [] (waiters state !! sequence) ++ [done]]> (waiters state))]> (groups f) |>).

(** The groups a flush has to send, with their latest sequence. *)
Definition flush_pending (f : releaseFlusher) : list (ReleaseGroup * Z) :=
  omap (λ e : ReleaseGroup * releaseState, if Acked e.2 <? Latest e.2 then Some (e.1, Latest e.2) else None) (map_to_list (groups f)).

(** What the flush does when Home accepts a frame. *)
Definition acknowledge (f : releaseFlusher) (group : ReleaseGroup) (sequence : Z) : releaseFlusher :=
  let state := group_state f group in
  if Acked state <? sequence
  then f <| groups := <[group := mkRelease (Latest state) sequence
                           (filter (λ e : Z * list nat, sequence < e.1) (waiters state))]> (groups f) |>
         <| f_closed := f_closed f ++ concat (map_to_list (filter (λ e : Z * list nat, e.1 <= sequence) (waiters state))).*2 |>
  else f <| groups := <[group := state]> (groups f) |>.

Record ConcurrencyReleaseFrame := mkFrame { FR_CredentialID : string; FR_Model : string; FR_ReleaseSeq : Z }.
(** [send] says whether Home accepts a frame; [None] when there is no sender. *)
Definition flush_step (send : ConcurrencyReleaseFrame → bool) (acc : releaseFlusher * bool) (e : ReleaseGroup * Z) : releaseFlusher * bool :=
  if send (mkFrame (RG_CredentialID e.1) (RG_Model e.1) e.2) then (acknowledge acc.1 e.1 e.2, acc.2) else (acc.1, true).
Definition flush (f : releaseFlusher) (send : option (ConcurrencyReleaseFrame → bool)) (visit : list (ReleaseGroup * Z)) : releaseFlusher * bool :=
  match send with
  | None => (f, false)
  | Some send => fold_left (flush_step send) visit (f, false)
  end.

Definition idle (f : releaseFlusher) : bool :=
  forallb (λ e : ReleaseGroup * releaseState, Latest e.2 <=? Acked e.2) (map_to_list (groups f)).

(** ** Timing *)

Definition timings (f : releaseFlusher) : duration * duration :=
  let defaults := WithDefaults noConcurrency in
  let '(i, m) := match configProvider f with
                 | Some cfg => (ReleaseFlushInterval (WithDefaults cfg), ReleaseMaxBackoff (WithDefaults cfg))
                 | None => (flushInterval f, maxBackoff f)
                 end in
  let i := if i <=? 0 then ReleaseFlushInterval defaults else i in
  let m := if m <? i then i else m in
  (i, m).
Definition nextDelay (f : releaseFlusher) (delay : duration) (failed : bool) : duration * bool :=
  let '(i, m) := timings f in
  if negb failed then (i, false) else
  let delay := wrap64 (delay * 2) in
  let delay := if delay <? i then i else delay in
  let delay := if m <? delay then m else delay in
  (delay, true).

(** ** The flusher in use *)

(** The flusher with the tickets it issued, the frames that are being sent and what Home
    accepted. *)
Record flushing := mkFlushing {
  fl : releaseFlusher; issued : list (ReleaseGroup * Z * nat); sending : list (ReleaseGroup * Z); accepted : list (ReleaseGroup * Z) }.
Inductive flush_steps : flushing → flushing → Prop :=
| fs_mark x group sequence done ticket f' : done ∉ (issued x).*2 → MarkDirty (fl x) group sequence done = (Some ticket, f') →
    flush_steps x (mkFlushing f' ((group, sequence, done) :: issued x) (sending x) (accepted x))
| fs_refused x group sequence done f' : MarkDirty (fl x) group sequence done = (None, f') →
    flush_steps x (mkFlushing f' (issued x) (sending x) (accepted x))
| fs_flush x : flush_steps x (mkFlushing (fl x) (issued x) (sending x ++ flush_pending (fl x)) (accepted x))
| fs_accept x group sequence : (group, sequence) ∈ sending x →
    flush_steps x (mkFlushing (acknowledge (fl x) group sequence) (issued x) (sending x) ((group, sequence) :: accepted x))
| fs_configure x provider : flush_steps x (mkFlushing (SetConfigProvider (fl x) provider) (issued x) (sending x) (accepted x)).
Inductive flush_reachable : flushing → Prop :=
| fr_new i m : flush_reachable (mkFlushing (newReleaseFlusher i m) [] [] [])
| fr_step x y : flush_reachable x → flush_steps x y → flush_reachable y.

Definition waiting_in (st : releaseState) : list nat := concat (map_to_list (waiters st)).*2.
Definition waiting (gs : gmap ReleaseGroup releaseState) : list nat := concat ((λ e, waiting_in e.2) <$> map_to_list gs).

Lemma concat_snd_insert (m : gmap Z (list nat)) s ds :
  concat (map_to_list (<[s := ds]> m)).*2 ≡ₚ ds ++ concat (map_to_list (delete s m)).*2.
Proof. rewrite <-insert_delete_eq, map_to_list_insert by apply lookup_delete_eq. done. Qed.
Lemma concat_snd_delete (m : gmap Z (list nat)) s : concat (map_to_list m).*2 ≡ₚ default [] (m !! s) ++ concat (map_to_list (delete s m)).*2.
Proof.
  destruct (m !! s) as [ds|] eqn:E; cbn; [|by rewrite delete_id]. by rewrite <-(concat_snd_insert m s ds), insert_id.
Qed.
Lemma waiting_insert gs g st : waiting (<[g := st]> gs) ++ waiting_in (default zeroRelease (gs !! g)) ≡ₚ waiting_in st ++ waiting gs.
Proof.
  unfold waiting. assert (∀ h : gmap ReleaseGroup releaseState, h !! g = None → ∀ x,
    concat ((λ e, waiting_in e.2) <$> map_to_list (<[g := x]> h)) ≡ₚ waiting_in x ++ concat ((λ e, waiting_in e.2) <$> map_to_list h)) as Hi.
  { intros h Hh x. by rewrite map_to_list_insert. }
  rewrite <-(insert_delete_eq gs g st), Hi by apply lookup_delete_eq.
  destruct (gs !! g) as [st0|] eqn:E; cbn [default from_option].
  - rewrite <-(insert_id gs g st0) at 2 by done. rewrite <-(insert_delete_eq gs g st0), Hi by apply lookup_delete_eq. solve_Permutation.
  - rewrite delete_id by done. unfold waiting_in at 2, zeroRelease. cbn. by rewrite app_nil_r.
Qed.

Record flush_ok (x : flushing) : Prop := {
  fo_tickets : f_closed (fl x) ++ waiting (groups (fl x)) ≡ₚ (issued x).*2;
  fo_fresh : NoDup (issued x).*2;
  fo_where : ∀ g s d, (g, s, d) ∈ issued x →
    if s <=? Acked (group_state (fl x) g) then d ∈ f_closed (fl x)
    else d ∈ default [] (waiters (group_state (fl x) g) !! s);
  fo_latest : ∀ g, 0 <= Acked (group_state (fl x) g) <= Latest (group_state (fl x) g);
  fo_sending : ∀ g s, (g, s) ∈ sending x → s <= Latest (group_state (fl x) g);
  fo_accepted : ∀ g, 0 < Acked (group_state (fl x) g) → (g, Acked (group_state (fl x) g)) ∈ accepted x }.

Lemma waiting_elem gs g s d : d ∈ default [] (waiters (default zeroRelease (gs !! g)) !! s) → d ∈ waiting gs.
Proof.
  destruct (gs !! g) as [st|] eqn:Eg; cbn; [|by intros ?%not_elem_of_nil].
  intros Hd. destruct (waiters st !! s) as [ds|] eqn:Es; cbn in Hd; [|by apply not_elem_of_nil in Hd].
  unfold waiting. apply elem_of_concat. exists (waiting_in st). split.
  - apply elem_of_concat. exists ds. split; [done|]. apply list_elem_of_fmap. exists (s, ds). split; [done|by apply elem_of_map_to_list].
  - apply list_elem_of_fmap. exists (g, st). split; [done|by apply elem_of_map_to_list].
Qed.

(** A ticket is done exactly when its sequence is acknowledged. *)
Lemma ticket_closed x g s d : flush_ok x → (g, s, d) ∈ issued x → d ∈ f_closed (fl x) ↔ s <= Acked (group_state (fl x) g).
Proof.
  intros Hx Hin. pose proof (fo_where x Hx g s d Hin) as Hw. destruct (Z.leb_spec s (Acked (group_state (fl x) g))) as [Hle|Hgt]; [done|].
  split; [|lia]. intros Hc. exfalso. apply waiting_elem in Hw. pose proof (fo_fresh x Hx) as Hn. rewrite <-(fo_tickets x Hx) in Hn.
  apply NoDup_app in Hn as (_ & Hd & _). by apply (Hd d).
Qed.

Lemma state_insert (gs : gmap ReleaseGroup releaseState) g st g' : default zeroRelease (<[g := st]> gs !! g') = if decide (g' = g) then st else default zeroRelease (gs !! g').
Proof. destruct (decide (g' = g)) as [->|?]; [by rewrite lookup_insert_eq|by rewrite lookup_insert_ne]. Qed.

Lemma mark_ok x group sequence done ticket f' : flush_ok x → done ∉ (issued x).*2 →
  MarkDirty (fl x) group sequence done = (Some ticket, f') →
  flush_ok (mkFlushing f' ((group, sequence, done) :: issued x) (sending x) (accepted x)).
Proof.
  intros [H1 H2 H3 H4 H5 H6] Hfresh. unfold MarkDirty. destruct (_ || _ || _) eqn:Ez; [done|]. intros [= _ <-]. to_prop.
  assert (NoDup ((group, sequence, done) :: issued x).*2) as Hn by (cbn; by apply NoDup_cons).
  set (st := group_state (fl x) group). destruct (sequence <=? Acked st) eqn:Ea; to_prop.
  - subst st. unfold group_state in *. split; cbn; try done; [by rewrite <-app_assoc, (Permutation_app_comm [done]), app_assoc, H1, Permutation_app_comm|].
    intros g s d [[= -> -> ->]|Hin]%elem_of_cons.
    + match goal with |- context [?a <=? ?b] => replace (a <=? b) with true by (symmetry; by apply Z.leb_le) end. set_solver.
    + specialize (H3 g s d Hin). destruct (s <=? _); [|done]. set_solver.
  - set (st' := mkRelease _ _ _). assert (waiting_in st' ≡ₚ done :: waiting_in st) as Hst'.
    { unfold waiting_in, st'. cbn [waiters]. rewrite concat_snd_insert, (concat_snd_delete (waiters st) sequence). solve_Permutation. }
    pose proof (waiting_insert (groups (fl x)) group st') as Hw. fold (group_state (fl x) group) in Hw. fold st in Hw. rewrite Hst' in Hw.
    assert (waiting (<[group := st']> (groups (fl x))) ≡ₚ done :: waiting (groups (fl x))) as Hw'.
    { apply (Permutation_app_inv_r (waiting_in st)). rewrite Hw. solve_Permutation. }
    split; cbn; try done; unfold group_state in *; cbn.
    + rewrite Hw', <-H1. solve_Permutation.
    + intros g s d. rewrite state_insert. intros [[= -> -> ->]|Hin]%elem_of_cons.
      * rewrite decide_True by done. cbn. rewrite (proj2 (Z.leb_gt _ _) Ea), lookup_insert_eq. cbn. set_solver.
      * specialize (H3 g s d Hin). case_decide as Hg; [|done]. subst g. cbn. destruct (s <=? _); [done|].
        destruct (decide (s = sequence)) as [->|Hs]; [rewrite lookup_insert_eq|by rewrite lookup_insert_ne]. cbn. set_solver.
    + intros g. rewrite state_insert. case_decide as Hg; [|apply H4]. cbn. specialize (H4 group). fold st in H4.
      destruct (Latest st <? sequence) eqn:El; to_prop; lia.
    + intros g s Hin. rewrite state_insert. specialize (H5 g s Hin). case_decide as Hg; [|done]. subst g. cbn. fold st in H5.
      destruct (Latest st <? sequence) eqn:El; to_prop; lia.
    + intros g. rewrite state_insert. case_decide as Hg; [subst g|]; apply H6.
Qed.

Lemma concat_split (m : gmap Z (list nat)) k :
  concat (map_to_list (filter (λ e : Z * list nat, k < e.1) m)).*2
    ++ concat (map_to_list (filter (λ e : Z * list nat, e.1 <= k) m)).*2 ≡ₚ concat (map_to_list m).*2.
Proof.
  assert (∀ (h : gmap Z (list nat)) s ds, h !! s = None → concat (map_to_list (<[s := ds]> h)).*2 ≡ₚ ds ++ concat (map_to_list h).*2) as Hi.
  { intros h s ds Hs. by rewrite concat_snd_insert, delete_id. }
  induction m as [|s ds m Hs IH] using map_ind; [done|]. rewrite (Hi m s ds Hs), <-IH.
  destruct (Z.ltb_spec k s) as [Hlt|Hge].
  - rewrite map_filter_insert_True, map_filter_insert_False, delete_id by (done || cbn; lia).
    rewrite Hi by (apply map_lookup_filter_None; by left). by rewrite app_assoc.
  - rewrite map_filter_insert_False, map_filter_insert_True, delete_id by (done || cbn; lia).
    rewrite Hi by (apply map_lookup_filter_None; by left). solve_Permutation.
Qed.

Lemma ack_ok x group sequence : flush_ok x → (group, sequence) ∈ sending x →
  flush_ok (mkFlushing (acknowledge (fl x) group sequence) (issued x) (sending x) ((group, sequence) :: accepted x)).
Proof.
  intros [H1 H2 H3 H4 H5 H6] Hin. unfold acknowledge, group_state in *. set (st := default zeroRelease (groups (fl x) !! group)).
  destruct (Acked st <? sequence) eqn:Ea; to_prop.
  - set (st' := mkRelease _ _ _). pose proof (waiting_insert (groups (fl x)) group st') as Hw. fold st in Hw.
    pose proof (concat_split (waiters st) sequence) as Hsp. split; unfold group_state; cbn; try done.
    + rewrite <-H1. apply (Permutation_app_inv_r (waiting_in st)). rewrite <-!app_assoc, Hw. unfold waiting_in at 2. rewrite <-Hsp.
      unfold st', waiting_in. cbn [waiters]. solve_Permutation.
    + intros g s d Hi. rewrite state_insert. specialize (H3 g s d Hi). case_decide as Hg; [subst g|].
      * fold st in H3. cbn. destruct (Z.leb_spec s (Acked st)).
        -- rewrite (proj2 (Z.leb_le s sequence)) by lia. set_solver.
        -- destruct (Z.leb_spec s sequence).
           ++ apply elem_of_app. right. destruct (waiters st !! s) as [ds|] eqn:Es; cbn in H3; [|by apply not_elem_of_nil in H3].
              apply elem_of_concat. exists ds. split; [done|]. apply list_elem_of_fmap. exists (s, ds). split; [done|].
              apply elem_of_map_to_list, map_lookup_filter_Some. by split.
           ++ destruct (waiters st !! s) as [ds|] eqn:Es; cbn in H3; [|by apply not_elem_of_nil in H3].
              rewrite (map_lookup_filter_Some_2 _ _ s ds); [done|done|done].
      * destruct (s <=? _); [|done]. set_solver.
    + intros g. rewrite state_insert. case_decide as Hg; [|apply H4]. cbn. specialize (H5 group sequence Hin). fold st in H5.
      specialize (H4 group). fold st in H4. lia.
    + intros g s Hs. rewrite state_insert. specialize (H5 g s Hs). case_decide as Hg; [|done]. by subst g.
    + intros g Hg. rewrite state_insert in *. case_decide as Hd; [subst g; left|]. right. by apply H6.
  - assert (∀ g, default zeroRelease (<[group := st]> (groups (fl x)) !! g) = default zeroRelease (groups (fl x) !! g)) as Hsame.
    { intros g. rewrite state_insert. case_decide as Hg; [by subst g|done]. }
    split; unfold group_state; cbn; try done.
    + rewrite <-H1. apply (Permutation_app_inv_r (waiting_in st)). pose proof (waiting_insert (groups (fl x)) group st) as Hw.
      fold st in Hw. rewrite <-!app_assoc, Hw. solve_Permutation.
    + intros g s d Hi. rewrite Hsame. by apply H3.
    + intros g. rewrite Hsame. apply H4.
    + intros g s Hs. rewrite Hsame. by apply H5.
    + intros g. rewrite Hsame. right. by apply H6.
Qed.

Lemma snapshot_latest f g s : (g, s) ∈ flush_pending f → s = Latest (group_state f g).
Proof.
  unfold flush_pending. intros ([g' st] & Hin & E)%list_elem_of_omap. cbn in E. apply elem_of_map_to_list in Hin.
  destruct (_ <? _); [|done]. injection E as -> <-. unfold group_state. by rewrite Hin.
Qed.

Lemma flush_reachable_ok x : flush_reachable x → flush_ok x.
Proof.
  induction 1 as [i m|x y _ Hx Hst].
  { split; cbn; try done; [constructor|by intros ? ? ? ?%not_elem_of_nil|by intros ? ? ?%not_elem_of_nil]. }
  destruct Hst as [x g s d tk f' Hf Hm|x g s d f' Hm|x|x g s Hin|x p].
  - by eapply mark_ok.
  - assert (f' = fl x) as -> by (unfold MarkDirty in Hm; destruct (_ || _ || _) eqn:E; [congruence|];
      unfold NewReleaseTicket in Hm; to_prop; by rewrite (proj2 (Z.leb_gt _ _)) in Hm).
    by destruct Hx.
  - destruct Hx as [H1 H2 H3 H4 H5 H6]. split; cbn; try done. intros g s [Hs|Hs]%elem_of_app; [by apply H5|].
    rewrite (snapshot_latest _ g s Hs). done.
  - by apply ack_ok.
  - destruct Hx as [H1 H2 H3 H4 H5 H6]. by split.
Qed.

(** ** What it promises *)

(** A release ticket tells the truth: along every history of the flusher the channel
    of a ticket is closed exactly when its sequence is acknowledged - not before, and
    never twice - and what counts as acknowledged is a sequence Home accepted. *)
Theorem ticket_exact (x : flushing) (Hx : flush_reachable x) :
  NoDup (f_closed (fl x))
  ∧ (∀ g s d, (g, s, d) ∈ issued x → d ∈ f_closed (fl x) ↔ s <= Acked (group_state (fl x) g))
  ∧ (∀ d, d ∈ f_closed (fl x) → ∃ g s, (g, s, d) ∈ issued x)
  ∧ (∀ g, 0 < Acked (group_state (fl x) g) → (g, Acked (group_state (fl x) g)) ∈ accepted x)
  ∧ (∀ g, Acked (group_state (fl x) g) <= Latest (group_state (fl x) g)).
Proof.
  apply flush_reachable_ok in Hx. split_and!.
  - pose proof (fo_fresh x Hx) as Hn. rewrite <-(fo_tickets x Hx) in Hn. by apply NoDup_app in Hn as [? _].
  - intros g s d. by apply ticket_closed.
  - intros d Hd. assert (d ∈ (issued x).*2) as Hin by (rewrite <-(fo_tickets x Hx); apply elem_of_app; by left).
    apply list_elem_of_fmap in Hin as ([[g s] d'] & -> & ?). by exists g, s.
  - apply (fo_accepted x Hx).
  - apply (fo_latest x Hx).
Qed.

(** Whatever the configuration and the last delay, the next delay of a flush lies
    between the flush interval and the maximal back-off, and the interval is positive;
    without a failure it is the interval, and as long as nothing overflows a failure
    doubles it. *)
Theorem nextDelay_bounds (f : releaseFlusher) (delay : duration) (failed : bool) :
  let '(i, m) := timings f in
  let '(d, backingOff) := nextDelay f delay failed in
  0 < i <= m ∧ i <= d <= m ∧ backingOff = failed
  ∧ (failed = false → d = i) ∧ (failed = true → i <= delay → delay * 2 <= MaxInt64 → d = Z.min m (delay * 2)).
Proof.
  assert (0 < (timings f).1 <= (timings f).2) as Hi.
  { unfold timings. set (d := WithDefaults noConcurrency). assert (0 < ReleaseFlushInterval d) as Hd by (vm_compute; done).
    clearbody d. destruct (configProvider f) as [c|]; cbv zeta; cbn [fst snd]; split_cases. }
  unfold nextDelay. destruct (timings f) as [i m]. cbn [fst snd] in Hi. destruct failed; cbn [negb]; [|split_and!; (lia || done)].
  split_and!; try done; try lia; [destruct (wrap64 (delay * 2) <? i) eqn:E1; destruct (m <? _) eqn:E2; to_prop; lia..|].
  intros _ Hle Hm. rewrite wrap64_id by (unfold is_int64, MinInt64, MaxInt64 in *; lia).
  destruct (delay * 2 <? i) eqn:E1; to_prop; [lia|]. destruct (m <? delay * 2) eqn:E2; to_prop; lia.
Qed.

(** *** With the registry of executions *)

(** The flusher is told what the registry delivers to sink [k]; [ch] numbers channels. *)
Definition told_by (k : nat) (f : releaseFlusher) (l : list (nat * ReleaseGroup * Z)) : releaseFlusher :=
  foldl (λ f e, if decide (e.1.1 = k) then (MarkDirty f e.1.2 e.2 (length (f_closed f))).2 else f) f l.

Lemma mark_acked f g s d g' : Acked (group_state (MarkDirty f g s d).2 g') = Acked (group_state f g').
Proof.
  unfold MarkDirty. destruct (_ || _ || _); [done|]. cbn [snd]. destruct (s <=? _); [done|]. unfold group_state. cbn.
  rewrite state_insert. case_decide as E; [by subst|done].
Qed.
Lemma mark_latest f g s d g' : 0 < s → RG_CredentialID g ≠ "" → RG_Model g ≠ "" → Acked (group_state f g) <= Latest (group_state f g) →
  Latest (group_state (MarkDirty f g s d).2 g') = if decide (g' = g) then Z.max (Latest (group_state f g)) s else Latest (group_state f g').
Proof.
  intros Hs Hc Hm Hle. unfold MarkDirty. rewrite (proj2 (Z.leb_gt s 0)), (proj2 (String.eqb_neq _ _) Hc), (proj2 (String.eqb_neq _ _) Hm) by done.
  cbn [orb snd]. destruct (s <=? Acked (group_state f g)) eqn:E; to_prop.
  - change (group_state (f <| f_closed := f_closed f ++ [d] |>) g') with (group_state f g'). case_decide as Eg; [subst|done]. lia.
  - unfold group_state in *. cbn. rewrite state_insert. case_decide as Eg; [|done]. cbn.
    destruct (Latest _ <? s) eqn:El; to_prop; lia.
Qed.

Definition named (g : ReleaseGroup) : Prop := RG_CredentialID g ≠ "" ∧ RG_Model g ≠ "".

Lemma new_state i m g : group_state (newReleaseFlusher i m) g = zeroRelease.
Proof. unfold group_state. cbn. by rewrite lookup_empty. Qed.

Lemma told_latest k l : ∀ f g, named g → (∀ g, Acked (group_state f g) <= Latest (group_state f g)) →
  let f' := told_by k f l in
  (∀ g, Acked (group_state f' g) = Acked (group_state f g))
  ∧ Latest (group_state f g) <= Latest (group_state f' g)
  ∧ (∀ s, (k, g, s) ∈ l → s <= 0 ∨ s <= Latest (group_state f' g))
  ∧ (Latest (group_state f' g) = Latest (group_state f g) ∨ (k, g, Latest (group_state f' g)) ∈ l).
Proof.
  unfold told_by. induction l as [|[[k' g'] s] l IH]; intros f g [Hc Hm] Hle; cbn [foldl fst snd].
  { split_and!; [done|lia|by intros s ?%not_elem_of_nil|by left]. }
  set (f1 := if decide (k' = k) then _ else f).
  assert (∀ g0, Acked (group_state f1 g0) = Acked (group_state f g0)) as Ha by (intros; unfold f1; case_decide; [apply mark_acked|done]).
  assert (Latest (group_state f g) <= Latest (group_state f1 g)) as Hmono.
  { unfold f1. case_decide; [|done]. unfold MarkDirty. destruct (_ || _ || _); [done|]. cbn [snd]. destruct (s <=? _); [done|].
    unfold group_state. cbn. rewrite state_insert. case_decide; [subst|lia]. cbn. destruct (_ <? s) eqn:E; to_prop; [|lia]. lia. }
  assert (∀ g0, Acked (group_state f1 g0) <= Latest (group_state f1 g0)) as Hle1.
  { intros g0. rewrite Ha. unfold f1. case_decide; [|apply Hle]. unfold MarkDirty. destruct (_ || _ || _); [apply Hle|]. cbn [snd].
    destruct (s <=? _); [apply Hle|]. unfold group_state. cbn. rewrite state_insert. case_decide; [subst|apply Hle]. cbn.
    specialize (Hle g'). unfold group_state in Hle. destruct (_ <? s) eqn:E; to_prop; lia. }
  destruct (IH f1 g (conj Hc Hm) Hle1) as (I1 & I2 & I3 & I4). cbv zeta in *. split_and!.
  - intros g0. by rewrite I1, Ha.
  - lia.
  - intros s0 [[= -> -> ->]|Hin]%elem_of_cons; [|by apply I3]. destruct (Z.leb_spec s 0) as [?|Hpos]; [by left|right].
    assert (s <= Latest (group_state f1 g')); [|lia]. unfold f1. rewrite decide_True, mark_latest, decide_True by done. lia.
  - destruct I4 as [->|?]; [|right; by right]. unfold f1. case_decide as Ek; [subst k'|by left].
    destruct (Z.leb_spec s 0) as [Hz|Hpos].
    { left. unfold MarkDirty. by rewrite (proj2 (Z.leb_le s 0) Hz). }
    destruct (decide (g = g')) as [->|Hne].
    + rewrite mark_latest, decide_True by done. destruct (Z.max_spec (Latest (group_state f g')) s) as [[_ ->]|[_ ->]]; [right; by left|by left].
    + left. unfold MarkDirty. destruct (_ || _ || _); [done|]. cbn [snd]. destruct (s <=? _); [done|]. unfold group_state. cbn.
      by rewrite state_insert, decide_False.
Qed.

Lemma ack_states f g s g' : Latest (group_state (acknowledge f g s) g') = Latest (group_state f g')
  ∧ Acked (group_state (acknowledge f g s) g') = if decide (g' = g) then Z.max (Acked (group_state f g)) s else Acked (group_state f g').
Proof.
  unfold acknowledge. destruct (Acked (group_state f g) <? s) eqn:E; to_prop; unfold group_state in *; cbn; rewrite state_insert;
    case_decide as Eg; subst; cbn; (split; [done|lia]).
Qed.
Lemma flush_all l : ∀ f b, (fold_left (flush_step (λ _, true)) l (f, b)).2 = b
  ∧ ∀ g, Latest (group_state (fold_left (flush_step (λ _, true)) l (f, b)).1 g) = Latest (group_state f g)
    ∧ Acked (group_state f g) <= Acked (group_state (fold_left (flush_step (λ _, true)) l (f, b)).1 g)
    ∧ (∀ s, (g, s) ∈ l → s <= Acked (group_state (fold_left (flush_step (λ _, true)) l (f, b)).1 g))
    ∧ (Acked (group_state (fold_left (flush_step (λ _, true)) l (f, b)).1 g) = Acked (group_state f g)
       ∨ (g, Acked (group_state (fold_left (flush_step (λ _, true)) l (f, b)).1 g)) ∈ l).
Proof.
  induction l as [|[g0 s0] l IH]; intros f b; cbn [fold_left fst snd].
  { split; [done|]. intros g. split_and!; [done|lia|by intros s ?%not_elem_of_nil|by left]. }
  change (flush_step (λ _, true) (f, b) (g0, s0)) with (acknowledge f g0 s0, b). destruct (IH (acknowledge f g0 s0) b) as [-> Hg]. split; [done|].
  intros g. destruct (Hg g) as (-> & H2 & H3 & H4). destruct (ack_states f g0 s0 g) as [-> Ha]. rewrite Ha in H2, H4. split_and!; [done|..].
  - case_decide; subst; lia.
  - intros s [[= -> ->]|Hin]%elem_of_cons; [|by apply H3]. rewrite decide_True in H2 by done. lia.
  - destruct H4 as [->|?]; [|right; by right]. case_decide as E; [subst|by left].
    destruct (Z.max_spec (Acked (group_state f g0)) s0) as [[_ ->]|[_ ->]]; [right; by left|by left].
Qed.

(** From an ended execution to Home's acknowledgement.  When no call is on its way to
    the sink and the flusher, which was told what the registry delivered, has flushed to a
    Home that accepts, what is acknowledged of a group is exactly the number the registry
    has counted, for every group there is. *)
Theorem releases_acknowledged (n : nat) (s : world * threads) (k : nat) (i m0 : duration) (visit : list (ReleaseGroup * Z))
    (g : ReleaseGroup) (m : Z) (Hr : reachable n s) (Hn : Z.of_nat n < 2 ^ 63) (Hk : releaseSink (reg s.1) = Some k)
    (Hno : ∀ g m t p, s.2 !! t = Some p → ¬ owes p k g m) (Hg : releaseSequences (reg s.1) !! g = Some m) (Hnm : named g) :
  let f := told_by k (newReleaseFlusher i m0) (delivered s.1) in
  visit ≡ₚ flush_pending f →
  Acked (group_state (flush f (Some (λ _, true)) visit).1 g) = m ∧ (flush f (Some (λ _, true)) visit).2 = false.
Proof.
  intros f Hv. assert ((k, g, m) ∈ delivered s.1) as Hd.
  { destruct (reachable_told n s Hr Hn) as [T1 _]. destruct (T1 k g m Hk Hg) as [?|(t & p & Hp & Ho)]; [done|]. by destruct (Hno g m t p Hp). }
  assert (∀ m', (k, g, m') ∈ delivered s.1 → m' <= m) as Hmax.
  { intros m' Hm'. destruct (reachable_told n s Hr Hn) as [_ T2]. specialize (T2 k g m' (or_introl Hm')). by rewrite Hg in T2. }
  assert (0 < m) as Hpos by (destruct (execution_ok n s Hr Hn) as [Hw _]; by apply (ro_positive n s.1 (wo_releases n _ Hw) g)).
  destruct (told_latest k (delivered s.1) (newReleaseFlusher i m0) g Hnm ltac:(done)) as (H1 & _ & H3 & H4). fold f in H1, H3, H4.
  assert (Latest (group_state f g) = m) as Hlat.
  { destruct (H3 m Hd) as [?|Hge]; [lia|]. destruct H4 as [E|Hin]; [rewrite new_state in E; cbn in E; lia|].
    specialize (Hmax _ Hin). lia. }
  unfold flush. destruct (flush_all visit f false) as [-> Hall]. split; [|done]. destruct (Hall g) as (_ & _ & Hge & Heq).
  assert ((g, m) ∈ visit) as Hvis.
  { rewrite Hv. unfold flush_pending. apply list_elem_of_omap. specialize (H1 g). rewrite new_state in H1. unfold group_state in Hlat, H1. cbn in H1.
    destruct (groups f !! g) as [st|] eqn:Est; cbn in Hlat, H1; [|lia]. exists (g, st). split; [by apply elem_of_map_to_list|]. cbn.
    rewrite H1, Hlat. by rewrite (proj2 (Z.ltb_lt 0 m)). }
  specialize (Hge m Hvis). destruct Heq as [E|Hin]; [rewrite E, H1, new_state in Hge; cbn in Hge; lia|].
  assert (∀ a, (g, a) ∈ visit → a = Latest (group_state f g)) as Hs by (intros a; rewrite Hv; apply snapshot_latest).
  apply Hs in Hin. by rewrite Hlat in Hin.
Qed.

(** *** On concrete histories *)

Definition wait_group : ReleaseGroup := mkGroup "cred" "gpt".
Definition marking (x : flushing) (g : ReleaseGroup) (s : Z) (d : nat) : flushing :=
  mkFlushing (MarkDirty (fl x) g s d).2 ((g, s, d) :: issued x) (sending x) (accepted x).
Definition flushed (x : flushing) : flushing := mkFlushing (fl x) (issued x) (sending x ++ flush_pending (fl x)) (accepted x).
Definition accepting (x : flushing) (g : ReleaseGroup) (s : Z) : flushing :=
  mkFlushing (acknowledge (fl x) g s) (issued x) (sending x) ((g, s) :: accepted x).
Lemma marking_reachable x g s d : flush_reachable x → d ∉ (issued x).*2 → is_Some (MarkDirty (fl x) g s d).1 → flush_reachable (marking x g s d).
Proof.
  intros Hx Hd [tk Htk]. refine (fr_step x _ Hx (fs_mark x g s d tk _ Hd _)). by rewrite <-Htk, <-surjective_pairing.
Qed.
(** Sequence 1 is marked, sent and accepted, then 2 is marked. *)
Definition one_told : flushing := flushed (marking (mkFlushing (newReleaseFlusher Second (2 * Second)) [] [] []) wait_group 1 0).
Definition half_told : flushing := marking (accepting one_told wait_group 1) wait_group 2 1.
Lemma half_told_reachable : flush_reachable half_told.
Proof.
  apply marking_reachable; [|apply (bool_decide_unpack _); vm_compute; exact I|vm_compute; eexists; reflexivity].
  refine (fr_step one_told _ _ (fs_accept one_told wait_group 1 _)); [|apply (bool_decide_unpack _); vm_compute; exact I].
  refine (fr_step _ _ _ (fs_flush _)).
  apply marking_reachable; [apply fr_new|apply not_elem_of_nil|vm_compute; eexists; reflexivity].
Qed.
Lemma ticket_exact_witness :
  f_closed (fl half_told) = [0%nat] ∧ NoDup (f_closed (fl half_told))
  ∧ ¬ (1%nat ∈ f_closed (fl half_told)).
Proof.
  destruct (ticket_exact half_told half_told_reachable) as (Hn & Hc & _). split; [vm_compute; reflexivity|split; [exact Hn|]].
  intros Hd. apply (Hc wait_group 2 1%nat) in Hd; [vm_compute in Hd; exact (Hd eq_refl)|left].
Defined.

Lemma releases_acknowledged_witness :
  let f := told_by 5 (newReleaseFlusher Second Second) (delivered (state_after drained).1) in
  flush_pending f = [(cred_gpt, 1)]
  ∧ Acked (group_state (flush f (Some (λ _, true)) (flush_pending f)).1 cred_gpt) = 1.
Proof.
  intros f. split; [vm_compute; reflexivity|].
  refine (proj1 (releases_acknowledged (length drained) (state_after drained) 5 Second Second (flush_pending f) cred_gpt 1
    (reached drained ltac:(vm_compute; eexists; reflexivity)) ltac:(vm_compute; reflexivity) ltac:(vm_compute; reflexivity) _
    ltac:(vm_compute; reflexivity) ltac:(split; vm_compute; discriminate) (Permutation_refl _))).
  intros g m t p Hp Ho. assert (map_to_list (state_after drained).2 = [(9%nat, SinkReturned); (1%nat, DrainReturned None); (0%nat, EndReturned None)]) as E
    by (vm_compute; reflexivity).
  apply elem_of_map_to_list in Hp. rewrite E in Hp. clear E.
  repeat (apply elem_of_cons in Hp as [Hp|Hp]; [injection Hp as -> ->; exact Ho|]). by apply not_elem_of_nil in Hp.
Defined.
