(* ===== verification/ExecErrors.v ===== *)
(** * The errors of an execution

    Models what [conductor_cooldown.go], [conductor_execution.go],
    [conductor_request_scoped_errors.go], [internal/clienterror] and
    [sdk/cliproxy/executor/tls_handshake_timeout.go] read off a Go error.

    A Go error is a tree: a value with the methods its type has, and what it unwraps to.
    A [node] says which interfaces the value satisfies and what it answers; [as_first] is
    [errors.As] - the first node in depth-first order that has the method -, [Is] is
    [errors.Is].  The two wrappers of the execution, the mark of an upstream attempt and
    the stop of the request, are nodes of their own kind. *)
From Stdlib Require Import ZArith Lia Ascii String Bool.
From stdpp Require Import prelude strings.
From S2P Require Import Prelude GoStd Thinking AuthTypes Errors Json Classify.
Local Open Scope string_scope.
Local Open Scope list_scope.
Local Open Scope Z_scope.

(** ** Error trees *)

Inductive sentinel := ContextCanceled | ContextDeadlineExceeded | IoEOF | IoUnexpectedEOF.
#[export] Instance sentinel_dec : EqDecision sentinel.
Proof. solve_decision. Defined.

(** The types the package itself looks for. *)
Inductive mark :=
| NoMark | UpstreamMark | StopMark | ConfiguredTimeout | Terminated
| RoundMark (retryAfter : option duration) (retryNow : bool)
| HomeBusy | HomeCooldown (requestRetryLimit : option Z).
#[export] Instance mark_dec : EqDecision mark.
Proof. solve_decision. Defined.

Record node := mkNode {
  n_text : string; n_mark : mark;
  n_error : option Error;                   (* it is, or stands for, an [*Error] *)
  n_is : list sentinel;                     (* it is one of these, or its [Is] says so *)
  n_StatusCode : option Z; n_RetryAfter : option (option duration);
  n_IsRequestScoped : option bool; n_IsCredentialScoped : option bool; n_IsRequestStop : option bool;
  n_ResponseBody : option string;
  n_closeCode : option Z;                   (* the code of a [websocket.CloseError] *)
  n_dnsRetryable : option bool;             (* a DNS error: timed out or temporary *)
  n_netTimeout : option bool;               (* a [net.Error]: [Timeout()] *)
  n_errnoTransient : option bool;           (* an errno: one of the transient ones *)
  n_opError : bool }.
#[export] Instance node_eta : Eta node := λ n,
  mkNode (n_text n) (n_mark n) (n_error n) (n_is n) (n_StatusCode n) (n_RetryAfter n) (n_IsRequestScoped n)
    (n_IsCredentialScoped n) (n_IsRequestStop n) (n_ResponseBody n) (n_closeCode n) (n_dnsRetryable n) (n_netTimeout n)
    (n_errnoTransient n) (n_opError n).

Inductive goError := mkErr (n : node) (unwrapped : list goError).
Definition err_node (e : goError) : node := match e with mkErr n _ => n end.
Definition ErrorText (e : goError) : string := n_text (err_node e).

(** [errors.New(text)] *)
Definition plain (text : string) : node :=
  mkNode text NoMark None [] None None None None None None None None None None false.
Definition of_Error (e : Error) : goError :=
  mkErr ((plain (Error_text e)) <| n_error := Some e |> <| n_StatusCode := Some (E_HTTPStatus e) |>
           <| n_IsRequestScoped := Some (IsRequestScoped (Some e)) |>) [].
Definition of_sentinel (s : sentinel) : goError :=
  mkErr ((plain match s with ContextCanceled => "context canceled" | ContextDeadlineExceeded => "context deadline exceeded"
                       | IoEOF => "EOF" | IoUnexpectedEOF => "unexpected EOF" end) <| n_is := [s] |>) [].

(** [errors.As] for a method or type that [f] finds on a node. *)
Fixpoint as_first {A} (f : node → option A) (e : goError) : option A :=
  match e with
  | mkErr n us =>
      match f n with
      | Some a => Some a
      | None => (fix go us := match us with
                              | [] => None
                              | u :: us => match as_first f u with Some a => Some a | None => go us end
                              end) us
      end
  end.
Fixpoint any_node (p : node → bool) (e : goError) : bool :=
  match e with mkErr n us => p n || existsb (any_node p) us end.
Definition Is (e : goError) (s : sentinel) : bool := any_node (λ n, bool_decide (s ∈ n_is n)) e.

(** ** What the chain answers *)

Definition statusCodeFromError (e : goError) : Z := default 0 (as_first n_StatusCode e).
Definition retryAfterFromError (e : goError) : option duration := default None (as_first n_RetryAfter e).
Definition isRequestScopedError (e : goError) : bool := default false (as_first n_IsRequestScoped e).
Definition isCredentialScopedError (e : goError) : bool := default false (as_first n_IsCredentialScoped e).
Definition isRequestStopError (e : goError) : bool := default false (as_first n_IsRequestStop e).
Definition isRequestTerminatedError (e : goError) : bool := any_node (λ n, bool_decide (n_mark n = Terminated)) e.
Definition as_Error (e : goError) : option Error := as_first n_error e.

Definition isUnauthorizedError (e : goError) : bool :=
  if statusCodeFromError e =? Unauthorized then true
  else let raw := ToLower (ErrorText e) in Contains raw "status 401" || Contains raw "401 unauthorized".

(** *** The configured TLS timeout *)

Definition hasOwnContextIdentity (n : node) : bool :=
  bool_decide (ContextCanceled ∈ n_is n) || bool_decide (ContextDeadlineExceeded ∈ n_is n).
Fixpoint inspectConfiguredTLSHandshakeTimeout (e : goError) : bool * bool :=
  match e with
  | mkErr n us =>
      match n_mark n with
      | ConfiguredTimeout => (existsb (λ u, Is u ContextDeadlineExceeded) us, false)
      | _ =>
          let inner := map inspectConfiguredTLSHandshakeTimeout us in
          (existsb fst inner, hasOwnContextIdentity n || existsb snd inner)
      end
  end.
Definition IsConfiguredTLSHandshakeTimeoutError (e : goError) : bool :=
  let '(found, unowned) := inspectConfiguredTLSHandshakeTimeout e in found && negb unowned.
Definition isConfiguredTLSHandshakeTimeoutError (e : goError) : bool :=
  if negb (statusCodeFromError e =? 0) then false else IsConfiguredTLSHandshakeTimeoutError e.

(** *** Transport failures *)

Definition isConnectionLifecycleError (e : goError) : bool :=
  if match as_first n_closeCode e with Some c => (c =? 1000) || (c =? 1001) || (c =? 1006) | None => false end then true
  else if negb (statusCodeFromError e =? 0) then false
  else if isConfiguredTLSHandshakeTimeoutError e then false
  else if Is e ContextCanceled || Is e ContextDeadlineExceeded || Is e IoEOF || Is e IoUnexpectedEOF then true
  else isConnectionLifecycleMessage (ErrorText e).

Definition isTransientSyscallError (e : goError) : bool := default false (as_first n_errnoTransient e).
Definition isTransientTransportError (e : goError) : bool :=
  if negb (statusCodeFromError e =? 0) then false
  else if isConfiguredTLSHandshakeTimeoutError e then true
  else if Is e ContextCanceled || Is e ContextDeadlineExceeded then false
  else if Is e IoEOF || Is e IoUnexpectedEOF then true
  else if default false (as_first n_dnsRetryable e) then true
  else if default false (as_first n_netTimeout e) then true
  else if isTransientSyscallError e then true
  else if any_node n_opError e then true
  else isTransientTransportMessage (ErrorText e).

(** *** Model and credential failures *)

Fixpoint isExplicitModelNotFoundError (e : goError) (requestedModel : string) : bool :=
  match e with
  | mkErr n us =>
      match as_Error (mkErr n us) with
      | Some a => isModelNotFoundIdentifier (E_Code a) || isStructuredModelNotFoundError (E_Message a) requestedModel
                  || isStructuredModelNotFoundError (Error_text a) requestedModel
      | None => isStructuredModelNotFoundError (n_text n) requestedModel
      end
      || existsb (λ u, isExplicitModelNotFoundError u requestedModel) us
  end.
Definition isModelSupportError (e : goError) : bool :=
  if isExplicitModelNotFoundError e "" then true
  else if negb (bool_decide (statusCodeFromError e ∈ [BadRequest; UnprocessableEntity; NotFound])) then false
  else isModelSupportErrorMessage (ErrorText e).
Definition isInvalidGrantError (e : goError) : bool :=
  if negb (isInvalidGrantErrorMessage (ErrorText e)) then false
  else bool_decide (statusCodeFromError e ∈ [BadRequest; Unauthorized; 0]).
Definition isCloudflareChallengeError (e : goError) : bool :=
  if 500 <=? statusCodeFromError e then false else isCloudflareChallengeErrorMessage (ErrorText e).

(** *** Faults of the request *)

Section faults.
Context {gj : Gjson}.

(** The body a thread error is looked for in. *)
Definition thread_body (e : goError) : string :=
  match as_first n_ResponseBody e with
  | Some body => if String.eqb body "" then ErrorText e else body
  | None => ErrorText e
  end.
(** [clienterror.IsRequestFault] on the status of the error. *)
Definition IsRequestFaultError (e : goError) : bool :=
  let status := statusCodeFromError e in
  let text := ErrorText e in
  if (status =? PaymentRequired) || (status =? TooManyRequests) then false
  else if (status =? Unauthorized) && hasAuthenticationErrorBody text then false
  else if IsClaudeThreadNotFound status (thread_body e) then true
  else if hasModelNotFoundErrorBody text then false
  else if hasRequestFaultBody text then true
  else if IsItemNotPersisted text then true
  else bool_decide (status ∈ [BadRequest; Conflict; RequestEntityTooLarge; UnprocessableEntity]).

Definition isRequestInvalidError (e : goError) : bool :=
  if isRequestScopedError e then true
  else if isCloudflareChallengeError e then false
  else if isInvalidGrantError e then false
  else if isModelSupportError e then false
  else if IsRequestFaultError e then true
  else match as_Error e with
       | Some a => negb (String.eqb (E_Message a) "") && IsRequestFault (statusCodeFromError e) (E_Message a)
       | None => false
       end.

(** [resultErrorFromError]: what is reported of the failure. *)
Definition result_code (e : goError) (code : string) : string :=
  if isExplicitModelNotFoundError e "" then
    if String.eqb code "" || String.eqb code ErrorCodeRequestScoped then "model_not_found" else code
  else if isRequestScopedError e || isRequestInvalidError e then ErrorCodeRequestScoped
  else if isConfiguredTLSHandshakeTimeoutError e then
    if String.eqb code "" || String.eqb code ErrorCodeTransientTransport then ErrorCodeTransientTransport else code
  else if isConnectionLifecycleError e then
    if String.eqb code "" || String.eqb code ErrorCodeConnectionLifecycle then ErrorCodeConnectionLifecycle else code
  else if isTransientTransportError e then
    if String.eqb code "" || String.eqb code ErrorCodeTransientTransport then ErrorCodeTransientTransport else code
  else code.
Definition resultErrorFromError (e : goError) : Error :=
  let r := match as_Error e with Some a => a | None => mkError "" (ErrorText e) false 0 end in
  let r := if E_HTTPStatus r =? 0 then r <| E_HTTPStatus := statusCodeFromError e |> else r in
  r <| E_Code := result_code e (E_Code r) |>.

(** ** Faults of a [responses/compact] request *)

Definition isResponsesCompactRequestFaultError (compact : bool) (e : goError) : bool :=
  if negb compact then false
  else if isCredentialScopedError e || isCloudflareChallengeError e || isInvalidGrantError e then false
  else if IsRequestFaultError e then true
  else bool_decide (statusCodeFromError e ∈ [BadRequest; NotFound; 405; Conflict; RequestEntityTooLarge; UnprocessableEntity; 501]).
Definition isResponsesCompactAvailabilityNeutralError (compact : bool) (e : goError) (resultErr : option Error) : bool :=
  if negb compact then false
  else if match resultErr with Some r => String.eqb (E_Code r) ErrorCodeForceCooldown | None => false end then false
  else if isCredentialScopedError e || isCloudflareChallengeError e || isInvalidGrantError e then false
  else if isCloudflareChallengeResultError resultErr || isInvalidGrantResultError resultErr then false
  else
    let status := statusCodeFromError e in
    let status := if status =? 0 then StatusCode resultErr else status in
    negb (bool_decide (status ∈ [Unauthorized; PaymentRequired; 403; TooManyRequests])).
End faults.

Definition isCountTokensEndpointNotFoundError (e : goError) (requestedModel : string) : bool :=
  if negb (statusCodeFromError e =? NotFound) then false
  else negb (isExplicitModelNotFoundError e (ModelName (ParseSuffix requestedModel))).

(** ** The wrappers of the execution *)

Definition UpstreamAttempt (e : goError) : goError := mkErr ((plain (ErrorText e)) <| n_mark := UpstreamMark |>) [e].
Definition RequestStop (e : goError) : goError :=
  mkErr ((plain (ErrorText e)) <| n_mark := StopMark |> <| n_IsRequestStop := Some true |>) [e].

Definition hasUpstreamExecutionAttempt (e : goError) : bool := any_node (λ n, bool_decide (n_mark n = UpstreamMark)) e.
Definition markUpstreamExecutionAttempt (e : goError) : goError :=
  if hasUpstreamExecutionAttempt e then e else UpstreamAttempt e.
Definition markUpstreamExecutionAttemptFromContext (attempted : bool) (e : goError) : goError :=
  if attempted then markUpstreamExecutionAttempt e else e.
(** The cause is taken out when the mark is outermost. *)
Definition unwrapUpstreamExecutionAttempt (e : goError) : goError :=
  match e with
  | mkErr n [cause] => if decide (n_mark n = UpstreamMark) then cause else e
  | _ => e
  end.
(** The first subtree whose root satisfies [p]: [errors.As] for a pointer type. *)
Fixpoint first_node (p : node → bool) (e : goError) : option goError :=
  match e with
  | mkErr n us =>
      if p n then Some e
      else (fix go us := match us with
                         | [] => None
                         | u :: us => match first_node p u with Some a => Some a | None => go us end
                         end) us
  end.
Definition cause_of (e : goError) : option goError := match e with mkErr _ us => head us end.
Definition unwrapRequestStopError (e : goError) : goError :=
  default e (first_node (λ n, bool_decide (n_mark n = StopMark)) e ≫= cause_of).
Definition wrapRequestStopError (e : goError) : goError := RequestStop (unwrapRequestStopError e).
Definition unwrapExecutionBoundaryError (e : goError) : goError :=
  unwrapUpstreamExecutionAttempt (unwrapRequestStopError e).

(** *** Rounds of the home control plane *)

Definition is_round (n : node) : bool := match n_mark n with RoundMark _ _ => true | _ => false end.
Definition RoundExhausted (cause : goError) (retryAfter : option duration) (retryNow : bool) : goError :=
  mkErr ((plain (ErrorText cause)) <| n_mark := RoundMark retryAfter retryNow |> <| n_RetryAfter := Some retryAfter |>) [cause].
Definition isHomeRetryRoundExhausted (e : goError) : bool := any_node is_round e.
Definition markHomeRetryRoundExhausted (e : goError) (retryAfter : option duration) (retryNow : bool) : goError :=
  let marked := RoundExhausted (unwrapUpstreamExecutionAttempt e) retryAfter retryNow in
  if hasUpstreamExecutionAttempt e then markUpstreamExecutionAttempt marked else marked.

(** The error a round ends with, given the last one and the last that reached upstream. *)
Definition preferredExecutionAttemptError (fallback : goError) (upstream : option goError) : goError :=
  if Is fallback ContextCanceled || Is fallback ContextDeadlineExceeded then fallback else
  match upstream with
  | None => fallback
  | Some upstream =>
      match first_node is_round fallback with
      | Some (mkErr n _) =>
          match n_mark n with
          | RoundMark retryAfter retryNow =>
              let upstream := unwrapUpstreamExecutionAttempt upstream in
              let upstream := default upstream (first_node is_round upstream ≫= cause_of) in
              markUpstreamExecutionAttempt (RoundExhausted upstream retryAfter retryNow)
          | _ => markUpstreamExecutionAttempt upstream
          end
      | None => markUpstreamExecutionAttempt upstream
      end
  end.

(** ** What the wrappers leave alone *)

Section transparent.
Context {gj : Gjson}.

(** A node that answers nothing itself and says what its only child says. *)
Definition silent (n : node) (e : goError) : Prop :=
  n_text n = ErrorText e ∧ n_error n = None ∧ n_is n = [] ∧ n_StatusCode n = None ∧ n_RetryAfter n = None
  ∧ n_IsRequestScoped n = None ∧ n_IsCredentialScoped n = None ∧ n_ResponseBody n = None ∧ n_closeCode n = None
  ∧ n_dnsRetryable n = None ∧ n_netTimeout n = None ∧ n_errnoTransient n = None ∧ n_opError n = false
  ∧ n_mark n ≠ ConfiguredTimeout ∧ n_mark n ≠ Terminated.

Lemma as_first_wrap {A} (f : node → option A) n e : f n = None → as_first f (mkErr n [e]) = as_first f e.
Proof. intros H. cbn. rewrite H. by destruct (as_first f e). Qed.
Lemma any_node_wrap p n e : p n = false → any_node p (mkErr n [e]) = any_node p e.
Proof. intros H. cbn. by rewrite H, orb_false_r. Qed.

Section one.
Context (n : node) (e : goError) (Hs : silent n e).

Lemma wrap_text : ErrorText (mkErr n [e]) = ErrorText e.
Proof. apply Hs. Qed.
Lemma wrap_status : statusCodeFromError (mkErr n [e]) = statusCodeFromError e.
Proof. unfold statusCodeFromError. by rewrite as_first_wrap by apply Hs. Qed.
Lemma wrap_is s : Is (mkErr n [e]) s = Is e s.
Proof. unfold Is. apply any_node_wrap. destruct Hs as (_ & _ & -> & _). apply bool_decide_eq_false, not_elem_of_nil. Qed.
Lemma wrap_error : as_Error (mkErr n [e]) = as_Error e.
Proof. apply as_first_wrap, Hs. Qed.
Lemma wrap_credential : isCredentialScopedError (mkErr n [e]) = isCredentialScopedError e.
Proof. unfold isCredentialScopedError. by rewrite as_first_wrap by apply Hs. Qed.
Lemma wrap_request : isRequestScopedError (mkErr n [e]) = isRequestScopedError e.
Proof. unfold isRequestScopedError. by rewrite as_first_wrap by apply Hs. Qed.
Lemma wrap_tls : isConfiguredTLSHandshakeTimeoutError (mkErr n [e]) = isConfiguredTLSHandshakeTimeoutError e.
Proof.
  unfold isConfiguredTLSHandshakeTimeoutError, IsConfiguredTLSHandshakeTimeoutError. rewrite wrap_status.
  assert (inspectConfiguredTLSHandshakeTimeout (mkErr n [e]) = inspectConfiguredTLSHandshakeTimeout e) as ->; [|done].
  cbn. destruct Hs as (_ & _ & Hi & _ & _ & _ & _ & _ & _ & _ & _ & _ & _ & Hm & _). unfold hasOwnContextIdentity. rewrite Hi.
  rewrite !orb_false_r, !bool_decide_false by apply not_elem_of_nil. cbn. destruct (n_mark n); try done; by rewrite <-surjective_pairing.
Qed.
Lemma wrap_not_found m : isExplicitModelNotFoundError (mkErr n [e]) m = isExplicitModelNotFoundError e m.
Proof.
  cbn [isExplicitModelNotFoundError existsb]. rewrite wrap_error, orb_false_r. destruct e as [n' us]. destruct Hs as (Ht & _). rewrite Ht.
  unfold ErrorText. cbn [isExplicitModelNotFoundError err_node].
  destruct (as_Error (mkErr n' us)); rewrite orb_assoc, orb_diag; done.
Qed.
Lemma wrap_lifecycle : isConnectionLifecycleError (mkErr n [e]) = isConnectionLifecycleError e.
Proof.
  unfold isConnectionLifecycleError. rewrite as_first_wrap by apply Hs. by rewrite wrap_status, wrap_tls, !wrap_is, wrap_text.
Qed.
Lemma wrap_transport : isTransientTransportError (mkErr n [e]) = isTransientTransportError e.
Proof.
  unfold isTransientTransportError, isTransientSyscallError. rewrite !as_first_wrap, any_node_wrap by apply Hs.
  by rewrite wrap_status, wrap_tls, !wrap_is, wrap_text.
Qed.
Lemma wrap_fault : IsRequestFaultError (mkErr n [e]) = IsRequestFaultError e.
Proof.
  unfold IsRequestFaultError, thread_body. rewrite as_first_wrap by apply Hs. by rewrite wrap_status, wrap_text.
Qed.
Lemma wrap_support : isModelSupportError (mkErr n [e]) = isModelSupportError e.
Proof. unfold isModelSupportError. by rewrite wrap_not_found, wrap_status, wrap_text. Qed.
Lemma wrap_invalid : isRequestInvalidError (mkErr n [e]) = isRequestInvalidError e.
Proof.
  unfold isRequestInvalidError, isCloudflareChallengeError, isInvalidGrantError.
  by rewrite wrap_request, wrap_status, wrap_text, wrap_support, wrap_fault, wrap_error.
Qed.
Lemma wrap_result : resultErrorFromError (mkErr n [e]) = resultErrorFromError e.
Proof.
  unfold resultErrorFromError, result_code.
  by rewrite wrap_error, wrap_status, wrap_text, wrap_not_found, wrap_request, wrap_invalid, wrap_tls, wrap_lifecycle, wrap_transport.
Qed.
End one.

Lemma upstream_silent e : silent ((plain (ErrorText e)) <| n_mark := UpstreamMark |>) e.
Proof. unfold silent. cbn. by split_and!. Qed.
Lemma stop_silent e : silent ((plain (ErrorText e)) <| n_mark := StopMark |> <| n_IsRequestStop := Some true |>) e.
Proof. unfold silent. cbn. by split_and!. Qed.

(** What the manager and the retry policy read off an error. *)
Definition reading (e : goError) : Error * Z * option duration * bool * bool * bool * bool * bool :=
  (resultErrorFromError e, statusCodeFromError e, retryAfterFromError e, isRequestScopedError e, isCredentialScopedError e,
   isRequestInvalidError e, isTransientTransportError e, isRequestTerminatedError e).

Lemma upstream_reading e : reading (UpstreamAttempt e) = reading e.
Proof.
  pose proof (upstream_silent e) as H. unfold reading, UpstreamAttempt, retryAfterFromError, isRequestTerminatedError.
  rewrite wrap_result, wrap_status, wrap_request, wrap_credential, wrap_invalid, wrap_transport by done.
  by rewrite as_first_wrap, any_node_wrap by done.
Qed.
Lemma stop_reading e : reading (RequestStop e) = reading e.
Proof.
  pose proof (stop_silent e) as H. unfold reading, RequestStop, retryAfterFromError, isRequestTerminatedError.
  rewrite wrap_result, wrap_status, wrap_request, wrap_credential, wrap_invalid, wrap_transport by done.
  by rewrite as_first_wrap, any_node_wrap by done.
Qed.

Definition holds_stop (e : goError) : bool := any_node (λ n, bool_decide (n_mark n = StopMark)) e.

Lemma first_node_none p : ∀ e, any_node p e = false → first_node p e = None.
Proof.
  fix IH 1. intros [n us] H. cbn in *. apply orb_false_iff in H as [-> H].
  induction us as [|u us IHus]; [done|]. cbn in H. apply orb_false_iff in H as [Hu Hus]. rewrite (IH u Hu). apply (IHus Hus).
Qed.

(** The two markers an execution puts around an error are invisible to everything that
    judges the error and come off again.  Marking an upstream attempt, or stopping the
    request, changes neither what is reported of the failure nor its status, retry-after,
    scope or class, so the same credential is cooled, the same retry taken; a stopped
    error is known as stopped, a marked one as marked (and marked once); and what the
    caller gets is the very error the executor returned. *)
Theorem markers_come_off (e : goError) :
  reading (markUpstreamExecutionAttempt e) = reading e
  ∧ reading (wrapRequestStopError e) = reading (unwrapRequestStopError e)
  ∧ hasUpstreamExecutionAttempt (markUpstreamExecutionAttempt e) = true
  ∧ markUpstreamExecutionAttempt (markUpstreamExecutionAttempt e) = markUpstreamExecutionAttempt e
  ∧ isRequestStopError (wrapRequestStopError e) = true
  ∧ isRequestStopError (markUpstreamExecutionAttempt e) = isRequestStopError e
  ∧ (hasUpstreamExecutionAttempt e = false → holds_stop e = false →
     unwrapExecutionBoundaryError (markUpstreamExecutionAttempt e) = e
     ∧ unwrapExecutionBoundaryError (wrapRequestStopError (markUpstreamExecutionAttempt e)) = e).
Proof.
  assert (hasUpstreamExecutionAttempt (markUpstreamExecutionAttempt e) = true) as Hm.
  { unfold markUpstreamExecutionAttempt. by destruct (hasUpstreamExecutionAttempt e) eqn:E. }
  split_and!; [|apply stop_reading|done| |done| |].
  - unfold markUpstreamExecutionAttempt. destruct (hasUpstreamExecutionAttempt e); [done|apply upstream_reading].
  - unfold markUpstreamExecutionAttempt at 1. by rewrite Hm.
  - unfold markUpstreamExecutionAttempt. destruct (hasUpstreamExecutionAttempt e); [done|]. unfold isRequestStopError, UpstreamAttempt.
    by rewrite as_first_wrap.
  - intros Hu Hstop. assert (markUpstreamExecutionAttempt e = UpstreamAttempt e) as -> by (unfold markUpstreamExecutionAttempt; by rewrite Hu).
    assert (first_node (λ n, bool_decide (n_mark n = StopMark)) (UpstreamAttempt e) = None) as Hf.
    { apply first_node_none. unfold UpstreamAttempt. by rewrite any_node_wrap. }
    unfold unwrapExecutionBoundaryError, wrapRequestStopError, unwrapRequestStopError. rewrite Hf. cbn [default option_bind mbind from_option id].
    split; [done|]. unfold RequestStop. cbn [first_node]. by rewrite bool_decide_true.
Qed.

Lemma excusing_code_skips r : E_Code r ∈ excusing_codes → shouldSkipCredentialCooldown (Some r) = true.
Proof.
  unfold excusing_codes. intros H. unfold shouldSkipCredentialCooldown, isRequestScopedResultError, IsRequestScoped,
    isConnectionLifecycleResultError, isTransientTransportResultError.
  repeat (apply elem_of_cons in H as [->|H]; [cbn; by rewrite ?orb_true_r|]). by apply not_elem_of_nil in H.
Qed.
Lemma quota_code e : statusCodeFromError e ∈ [PaymentRequired; TooManyRequests] → isRequestScopedError e = false →
  as_first n_closeCode e = None → result_code e "" = if isExplicitModelNotFoundError e "" then "model_not_found" else "".
Proof.
  intros Hst Hsc Hclose. unfold result_code. destruct (isExplicitModelNotFoundError e ""); [done|].
  assert ((statusCodeFromError e =? 0) = false ∧ IsRequestFaultError e = false) as [Hz Hf].
  { unfold IsRequestFaultError. rewrite !elem_of_cons in Hst. destruct Hst as [->|[->|?%elem_of_nil]]; done. }
  assert (isRequestInvalidError e = false) as Hi.
  { unfold isRequestInvalidError. rewrite Hsc, Hf. destruct (isCloudflareChallengeError e); [done|].
    destruct (isInvalidGrantError e); [done|]. destruct (isModelSupportError e); [done|]. destruct (as_Error e) as [a|]; [|done].
    rewrite quota_status_not_fault by done. apply andb_false_r. }
  unfold isConnectionLifecycleError, isTransientTransportError, isConfiguredTLSHandshakeTimeoutError.
  by rewrite Hsc, Hi, Hclose, Hz.
Qed.

(** What is reported of a failure agrees with the failure.  A failure that is the
    request's, the connection's or the transport's own, about no missing model and with no
    code of its own, is reported so that no credential is cooled; one with a payment or
    rate-limit status that does not call itself the request's and closed no websocket is reported with that status
    and so that the credential is cooled, whatever its text or body says. *)
Theorem report_agrees (e : goError) :
  (isExplicitModelNotFoundError e "" = false → (∀ a, as_Error e = Some a → E_Code a = "") →
   isRequestScopedError e || isRequestInvalidError e || isConnectionLifecycleError e || isTransientTransportError e = true →
   shouldSkipCredentialCooldown (Some (resultErrorFromError e)) = true)
  ∧ (statusCodeFromError e ∈ [PaymentRequired; TooManyRequests] → isRequestScopedError e = false →
     (∀ a, as_Error e = Some a → E_HTTPStatus a ∈ [0; statusCodeFromError e] ∧ E_Code a = "") → as_first n_closeCode e = None →
     E_HTTPStatus (resultErrorFromError e) = statusCodeFromError e
     ∧ shouldSkipCredentialCooldown (Some (resultErrorFromError e)) = false).
Proof.
  split.
  - intros Hnf Hown Hcl. apply excusing_code_skips. unfold resultErrorFromError. cbn [E_Code].
    set (r := match as_Error e with Some a => a | None => _ end). assert (E_Code r = "") as Hr.
    { unfold r. destruct (as_Error e) as [a|] eqn:E; [by apply Hown|done]. }
    assert (E_Code (if E_HTTPStatus r =? 0 then r <| E_HTTPStatus := statusCodeFromError e |> else r) = "") as ->
      by (by destruct (_ =? 0)).
    unfold result_code. rewrite Hnf. unfold excusing_codes.
    destruct (isRequestScopedError e || isRequestInvalidError e) eqn:E1; [set_solver|].
    destruct (isConfiguredTLSHandshakeTimeoutError e); [set_solver|].
    destruct (isConnectionLifecycleError e); [set_solver|].
    destruct (isTransientTransportError e); [set_solver|]. done.
  - intros Hst Hsc Hown Hclose. unfold resultErrorFromError. cbn [E_Code E_HTTPStatus].
    set (r := match as_Error e with Some a => a | None => _ end).
    assert (E_Code r = "" ∧ E_HTTPStatus r ∈ [0; statusCodeFromError e]) as [Hr Hs].
    { unfold r. destruct (as_Error e) as [a|] eqn:E; [by destruct (Hown a eq_refl)|split; [done|left]]. }
    set (r' := if E_HTTPStatus r =? 0 then _ else r).
    assert (E_Code r' = "" ∧ E_HTTPStatus r' = statusCodeFromError e) as [Hr' Hs'].
    { unfold r'. destruct (E_HTTPStatus r =? 0) eqn:E; to_prop; [done|]. split; [done|].
      apply elem_of_cons in Hs as [?|Hs]; [done|]. by apply list_elem_of_singleton in Hs. }
    clearbody r'. rewrite Hr', (quota_code e Hst Hsc Hclose).
    set (code := if isExplicitModelNotFoundError e "" then _ else _).
    change (E_HTTPStatus (r' <| E_Code := code |>)) with (E_HTTPStatus r'). split; [done|].
    rewrite quota_failure_not_excused by (change (E_HTTPStatus r' ∈ [PaymentRequired; TooManyRequests]); by rewrite Hs').
    change (E_Code (r' <| E_Code := code |>)) with code. unfold code. by destruct (isExplicitModelNotFoundError e "").
Qed.
End transparent.
