(* ===== verification/Retry.v ===== *)
(** * Another round of a request, or not

    Models the retry policy of [conductor_selection.go]: which credentials a further round
    may use, whether one is granted after an error, and how long it waits.

    The registry is that of [Registry]; aliases, settings and the token clock are those of
    [Manager].  A range over the credentials visits a list of them.  Each reading of the
    clock is an argument.  [home] says whether the home control plane is enabled;
    [requestRetry] is the manager's setting. *)
From Stdlib Require Import ZArith Lia String Bool.
From stdpp Require Import prelude gmap strings.
From S2P Require Import Prelude GoStd Registry Thinking AuthTypes Errors Json Classify Availability Cooldown ExecutionResult Shard Scheduler Manager ExecErrors.
Local Open Scope string_scope.
Local Open Scope list_scope.
Local Open Scope Z_scope.

Section retry.
Context {gh : GoHost} {gj : Gjson} {st : Settings} {aliases : ModelAliases}.

Definition isCredentialRetryRoundStatus (status : Z) : bool :=
  bool_decide (status ∈ [403; 408; 429; 500; 502; 503; 504]).
Definition isRequestRetryRoundError (e : goError) : bool :=
  isCredentialRetryRoundStatus (statusCodeFromError e) || isTransientTransportError e.

Definition effectiveRequestRetryLimit (auth : option Auth) (defaultRetry : Z) : Z :=
  let defaultRetry := if defaultRetry <? 0 then 0 else defaultRetry in
  let '(override, ok) := RequestRetryOverride auth in
  if (ok : bool) then override else defaultRetry.

Definition requestRetryRoundExclusions (auths : list (option Auth)) (retryRound defaultRequestRetry : Z) : gset string :=
  if retryRound <=? 0 then ∅ else
  let defaultRequestRetry := if defaultRequestRetry <? 0 then 0 else defaultRequestRetry in
  list_to_set (omap (λ auth : option Auth,
    match auth with
    | Some a => if String.eqb (TrimSpace (ID a)) "" then None
                else if effectiveRequestRetryLimit auth defaultRequestRetry <? retryRound then Some (ID a) else None
    | None => None
    end) auths).

Definition credentialRetryRoundStateEligible (lastErr : option Error) (quotaExceeded : bool) : bool :=
  match lastErr with
  | None => quotaExceeded
  | Some _ => isCredentialRetryRoundStatus (StatusCode lastErr)
  end.

(** What one state of the model says: it forbids a round, it blocks until a known time, or
    neither. *)
Inductive state_verdict := Forbids | Blocks | Silent.
#[export] Instance state_verdict_dec : EqDecision state_verdict.
Proof. solve_decision. Defined.
Definition round_verdict (modelKey : string) (now : time) (e : string * option ModelState) : state_verdict :=
  match e.2 with
  | None => Silent
  | Some state =>
      if negb (String.eqb (canonicalModelKey e.1) modelKey) then Silent
      else if bool_decide (M_Status state = StatusDisabled) then Forbids
      else
        let '(stateBlocked, _, stateNext) := availabilityBlock (M_Unavailable state) (Q_Exceeded (M_Quota state))
                                               (M_NextRetryAfter state) (Q_NextRecoverAt (M_Quota state)) now in
        if negb stateBlocked then Silent
        else if IsZero stateNext || negb (credentialRetryRoundStateEligible (M_LastError state) (Q_Exceeded (M_Quota state)))
        then Forbids else Blocks
  end.

(** Whether a round may use the credential, and from when on. *)
Definition retryRoundAvailabilityForAuth (auth : option Auth) (model : string) (now : time) : bool * time :=
  let '(blocked, reason, next) := isAuthBlockedForModel auth model now in
  if negb blocked then (true, zero_time) else
  match auth with
  | None => (false, zero_time)
  | Some a =>
      if IsZero next || bool_decide (reason = blockReasonDisabled) then (false, zero_time)
      else if Q_Exceeded (Quota a) && String.eqb (Q_Reason (Quota a)) "credential_quota" && After (Q_NextRecoverAt (Quota a)) now
      then (credentialRetryRoundStateEligible (LastError a) true, next)
      else
        let modelKey := canonicalModelKey model in
        let states := map_to_list (ModelStates a) in
        let verdicts := map (round_verdict modelKey now) states in
        let per_model := negb (String.eqb modelKey "") && bool_decide (ModelStates a ≠ ∅) in
        if per_model && existsb (λ v, bool_decide (v = Forbids)) verdicts then (false, zero_time)
        else if per_model && existsb (λ v, bool_decide (v = Blocks)) verdicts then (true, next)
        else if negb (credentialRetryRoundStateEligible (LastError a) (Q_Exceeded (Quota a))) then (false, zero_time)
        else (true, next)
  end.

Definition authSupportsRouteModel (registry : ModelRegistry) (auth : option Auth) (routeModel : string) : bool :=
  match auth with
  | None => true
  | Some a =>
      let routeKey := canonicalModelKey routeModel in
      if String.eqb routeKey "" then true
      else if ClientSupportsModel registry (ID a) routeKey then true
      else
        let selectionKey := selectionModelKeyForAuth a routeModel in
        negb (String.eqb selectionKey "") && negb (String.eqb selectionKey routeKey)
        && ClientSupportsModel registry (ID a) selectionKey
  end.

(** ** One request asking for another round *)

Record asking := mkAsking {
  as_registry : ModelRegistry; as_providers : list string; as_model : string; as_attempt : Z;
  as_eligibility : authSelectionEligibility; as_pinned : string; as_defaultRetry : Z }.

Definition provider_set (providers : list string) : gset string :=
  list_to_set (filter (λ p, p ≠ "") (map (λ p, TrimSpace (ToLower p)) providers)).

(** The guards both searches share; [None] when the credential is passed over, else what
    the retry round makes of it. *)
Definition round_candidate (q : asking) (auth : option Auth) (now : time) : option (Auth * time) :=
  match auth with
  | None => None
  | Some a =>
      if Disabled a || bool_decide (A_Status a = StatusDisabled) then None
      else if negb (String.eqb (as_pinned q) "") && negb (String.eqb (ID a) (as_pinned q)) then None
      else if negb (allows (as_eligibility q) auth) then None
      else if negb (bool_decide (executorKeyFromAuth auth ∈ provider_set (as_providers q))) then None
      else if negb (String.eqb (as_model q) "") && negb (authSupportsRouteModel (as_registry q) auth (as_model q)) then None
      else if effectiveRequestRetryLimit auth (as_defaultRetry q) <=? as_attempt q then None
      else
        let checkModel := if negb (String.eqb (TrimSpace (as_model q)) "") then selectionModelForAuth a (as_model q) else as_model q in
        let '(eligible, next) := retryRoundAvailabilityForAuth auth checkModel now in
        if (eligible : bool) then Some (a, next) else None
  end.

Definition retryAllowed (q : asking) (auths : list (option Auth)) (now : time) : bool :=
  if (as_attempt q <? 0) || bool_decide (as_providers q = []) then false
  else if bool_decide (provider_set (as_providers q) = ∅) then false
  else existsb (λ auth, match round_candidate q auth now with Some _ => true | None => false end) auths.

(** How long the round would wait for one credential; [None] leaves the minimum as it is. *)
Definition wait_for (status : Z) (attempted : gset string) (e : Auth * time) (now : time) : option duration :=
  let '(a, next) := e in
  let wasAttempted := bool_decide (ID a ∈ attempted) in
  if negb wasAttempted || cooldownDisabledForAuth (Some a) || negb (status =? TooManyRequests) then
    if IsZero next then Some 0
    else let wait := Sub next now in if wait <? 0 then None else Some wait
  else
    Some (if IsZero next then minQuotaCooldownFloor
          else let wait := Sub next now in if wait <? minQuotaCooldownFloor then minQuotaCooldownFloor else wait).
(** A credential that is free at once and need not cool ends the search. *)
Definition free_at_once (status : Z) (attempted : gset string) (e : Auth * time) : bool :=
  (negb (bool_decide (ID e.1 ∈ attempted)) || cooldownDisabledForAuth (Some e.1) || negb (status =? TooManyRequests)) && IsZero e.2.

Fixpoint closest_wait (q : asking) (auths : list (option Auth)) (status : Z) (attempted : gset string) (now : time)
    (best : option duration) : option duration :=
  match auths with
  | [] => best
  | auth :: auths =>
      match round_candidate q auth now with
      | None => closest_wait q auths status attempted now best
      | Some e =>
          if free_at_once status attempted e then Some 0 else
          closest_wait q auths status attempted now
            match wait_for status attempted e now, best with
            | Some wait, Some m => Some (if wait <? m then wait else m)
            | Some wait, None => Some wait
            | None, _ => best
            end
      end
  end.
Definition closestCooldownWaitWithAttempted (q : asking) (auths : list (option Auth)) (status : Z) (attempted : gset string)
    (now : time) : option duration :=
  if bool_decide (as_providers q = []) then None else closest_wait q auths status attempted now None.

Definition homeRetryAllowed (home : bool) (requestRetry attempt retryLimit : Z) : bool :=
  if negb home || (attempt <? 0) then false else
  let retryLimit := if retryLimit <? 0 then (if requestRetry <? 0 then 0 else requestRetry) else retryLimit in
  attempt <? retryLimit.

(** The waits a retry after an error may take; [None] is no retry. *)
Definition within (maxWait wait : duration) : option duration :=
  if (0 <? wait) && ((maxWait <=? 0) || (maxWait <? wait)) then None else Some wait.
Definition honoured (maxWait : duration) (retryAfter : option duration) : option duration :=
  match retryAfter with
  | Some d => if d <? 0 then None else within maxWait d
  | None => Some 0
  end.

Definition shouldRetryAfterErrorWithAttempted (home : bool) (requestRetry : Z) (q : asking) (auths : list (option Auth))
    (e : goError) (maxWait : duration) (homeRetryLimit : Z) (attempted : gset string) (now later : time) : option duration :=
  if any_node (λ n, bool_decide (n_mark n = HomeBusy)) e then None else
  let status := statusCodeFromError e in
  if status =? 200 then None
  else if isRequestInvalidError e || isRequestStopError e then None
  else
    let homeRetryLimit :=
      if home && String.eqb (as_pinned q) ""
      then default homeRetryLimit (as_first (λ n, match n_mark n with HomeCooldown limit => Some limit | _ => None end) e ≫= id)
      else homeRetryLimit in
    match (if home then first_node is_round e ≫= (λ r, match n_mark (err_node r) with RoundMark _ now => Some now | _ => None end) else None) with
    | Some retryNow =>
        if negb (isRequestRetryRoundError e) || negb (homeRetryAllowed home requestRetry (as_attempt q) homeRetryLimit) then None
        else if (retryNow : bool) then Some 0
        else honoured maxWait (retryAfterFromError e)
    | None =>
        if home then
          if negb (status =? TooManyRequests) || negb (homeRetryAllowed home requestRetry (as_attempt q) homeRetryLimit) then None
          else match retryAfterFromError e with
               | Some d => if (d <=? 0) || (maxWait <=? 0) || (maxWait <? d) then None else Some d
               | None => None
               end
        else if negb (isRequestRetryRoundError e) || negb (retryAllowed q auths now) then None
        else match closestCooldownWaitWithAttempted q auths status attempted later with
             | Some wait => within maxWait wait
             | None => honoured maxWait (retryAfterFromError e)
             end
    end.

(** ** Waiting *)

Definition cooldownWaitJitterCap : duration := 2 * Second.
(** [draw] is what [rand.N] returns, between zero and its argument. *)
Definition jitteredCooldownWait (draw : duration → duration) (wait maxWait : duration) : duration :=
  if wait <=? 0 then wait else
  let jitterRange := Z.quot wait 4 in
  let jitterRange := if cooldownWaitJitterCap <? jitterRange then cooldownWaitJitterCap else jitterRange in
  let jitterRange := if (0 <? maxWait) && (maxWait - wait <? jitterRange) then maxWait - wait else jitterRange in
  if jitterRange <=? 0 then wait else wrap64 (wait + draw jitterRange).

(** ** What a granted round can count on *)

Lemma wait_nonneg status attempted e now w : wait_for status attempted e now = Some w → 0 <= w.
Proof.
  destruct e as [a next]. unfold wait_for. destruct (_ || _ || _); destruct (IsZero next); cbv zeta.
  - by intros [= <-].
  - destruct (Sub next now <? 0) eqn:E; [done|]. intros [= <-]. to_prop. lia.
  - intros [= <-]. by unfold minQuotaCooldownFloor, Second.
  - intros [= <-]. destruct (Sub next now <? minQuotaCooldownFloor) eqn:E; to_prop; unfold minQuotaCooldownFloor, Second in *; lia.
Qed.
Lemma free_wait status attempted e now : free_at_once status attempted e = true → wait_for status attempted e now = Some 0.
Proof. destruct e as [a next]. unfold free_at_once, wait_for. cbn [fst snd]. intros [-> ->]%andb_true_iff. done. Qed.

(** The search yields the least wait of the candidates. *)
Lemma closest_wait_spec q auths status attempted now : ∀ best, (∀ m, best = Some m → 0 <= m) →
  let r := closest_wait q auths status attempted now best in
  (∀ m, best = Some m → ∃ m', r = Some m' ∧ m' <= m)
  ∧ (∀ auth e w, auth ∈ auths → round_candidate q auth now = Some e → wait_for status attempted e now = Some w → ∃ m, r = Some m ∧ m <= w)
  ∧ (∀ m, r = Some m → best = Some m ∨ ∃ auth e, auth ∈ auths ∧ round_candidate q auth now = Some e ∧ wait_for status attempted e now = Some m).
Proof.
  induction auths as [|auth auths IH]; intros best Hbest; cbn [closest_wait].
  { split_and!; [intros m ->; by exists m|by intros auth e w ?%not_elem_of_nil|by left]. }
  destruct (round_candidate q auth now) as [e|] eqn:Ec.
  2:{ destruct (IH best Hbest) as (I1 & I2 & I3). cbv zeta in *. split_and!; [done| |].
      - intros auth' e' w [->|Hin]%elem_of_cons He' Hw; [congruence|by eapply I2].
      - intros m Hm. destruct (I3 m Hm) as [?|(auth' & e' & ? & ?)]; [by left|right]. exists auth', e'. split; [by right|done]. }
  destruct (free_at_once status attempted e) eqn:Ef.
  { cbv zeta. split_and!.
    - intros m Hm. exists 0. split; [done|by apply Hbest].
    - intros auth' e' w _ _ Hw. exists 0. split; [done|]. by eapply wait_nonneg.
    - intros m [= <-]. right. exists auth, e. split_and!; [by left|done|by apply free_wait]. }
  set (best' := match wait_for status attempted e now with Some _ => _ | None => _ end).
  assert ((∀ m, best' = Some m → 0 <= m) ∧ (∀ m, best = Some m → ∃ m', best' = Some m' ∧ m' <= m)
    ∧ (∀ w, wait_for status attempted e now = Some w → ∃ m, best' = Some m ∧ m <= w)
    ∧ (∀ m, best' = Some m → best = Some m ∨ wait_for status attempted e now = Some m)) as (B1 & B2 & B3 & B4).
  { unfold best'. destruct (wait_for status attempted e now) as [w|] eqn:Ew; [|split_and!; [done|intros m Hm; by exists m|done|by left]].
    pose proof (wait_nonneg _ _ _ _ _ Ew) as Hw. destruct best as [m0|].
    - specialize (Hbest m0 eq_refl). destruct (w <? m0) eqn:El; to_prop; split_and!; intros ? [= <-]; first [lia|eexists; split; [done|lia]|by left|by right].
    - split_and!; intros ? [= <-]; first [lia|eexists; split; [done|lia]|by left|by right]. }
  clearbody best'. destruct (IH best' B1) as (I1 & I2 & I3). cbv zeta in *. split_and!.
  - intros m Hm. destruct (B2 m Hm) as (m1 & Hm1 & ?). destruct (I1 m1 Hm1) as (m2 & ? & ?). exists m2. split; [done|lia].
  - intros auth' e' w [->|Hin]%elem_of_cons He' Hw; [|by eapply I2]. rewrite Ec in He'. injection He' as <-.
    destruct (B3 w Hw) as (m1 & Hm1 & ?). destruct (I1 m1 Hm1) as (m2 & ? & ?). exists m2. split; [done|lia].
  - intros m Hm. destruct (I3 m Hm) as [Hb|(auth' & e' & ? & ?)]; [|right; exists auth', e'; split; [by right|done]].
    destruct (B4 m Hb) as [?|?]; [by left|right]. exists auth, e. split; [by left|done].
Qed.

Lemma within_spec maxWait wait w : within maxWait wait = Some w → w = wait ∧ (0 < wait → 0 < maxWait ∧ wait <= maxWait).
Proof. unfold within. destruct (_ && _) eqn:E; [done|]. intros [= <-]. split; [done|]. intros Hw. rewrite andb_false_iff, orb_false_iff in E. to_prop. destruct E as [E|[? ?]]; to_prop; lia. Qed.

(** The guards a candidate has passed. *)
Lemma candidate_spec q auth now a next : round_candidate q auth now = Some (a, next) →
  auth = Some a ∧ Disabled a = false ∧ A_Status a ≠ StatusDisabled
  ∧ (as_pinned q ≠ "" → ID a = as_pinned q) ∧ allows (as_eligibility q) (Some a) = true
  ∧ executorKeyFromAuth (Some a) ∈ provider_set (as_providers q)
  ∧ (as_model q ≠ "" → authSupportsRouteModel (as_registry q) (Some a) (as_model q) = true)
  ∧ as_attempt q < effectiveRequestRetryLimit (Some a) (as_defaultRetry q).
Proof.
  unfold round_candidate. destruct auth as [b|]; [|done].
  destruct (Disabled b || _) eqn:E1; [done|]. destruct (negb _ && negb _) eqn:E2; [done|]. destruct (negb (allows _ _)) eqn:E3; [done|].
  destruct (negb (bool_decide _)) eqn:E4; [done|]. destruct (negb _ && negb (authSupportsRouteModel _ _ _)) eqn:E5; [done|].
  destruct (_ <=? _) eqn:E6; [done|]. destruct (retryRoundAvailabilityForAuth _ _ _) as [eligible nx]. destruct eligible; [|done].
  intros [= -> ->]. apply orb_false_iff in E1 as [? E1]. apply bool_decide_eq_false in E1. to_prop.
  apply bool_decide_eq_true in E4. split_and!; try done; try lia.
  - intros Hp. apply andb_false_iff in E2 as [E2|E2]; to_prop; done.
  - intros Hm. apply andb_false_iff in E5 as [E5|E5]; to_prop; done.
Qed.

Lemma retry_allowed_candidate q auths now : retryAllowed q auths now = true →
  ∃ a next, Some a ∈ auths ∧ round_candidate q (Some a) now = Some (a, next).
Proof.
  unfold retryAllowed. destruct (_ || _); [done|]. destruct (bool_decide _); [done|]. intros (auth & Hin & Hc)%existsb_exists.
  destruct (round_candidate q auth now) as [[a next]|] eqn:E; [|done]. pose proof (candidate_spec _ _ _ _ _ E) as (-> & _).
  exists a, next. split; [by apply list_elem_of_In|done].
Qed.

Lemma not_excluded auths attempt defaultRetry a : Some a ∈ auths → (∀ b, Some b ∈ auths → ID b = ID a → b = a) →
  attempt < effectiveRequestRetryLimit (Some a) defaultRetry → ID a ∉ requestRetryRoundExclusions auths (attempt + 1) defaultRetry.
Proof.
  intros Hin Hu Hlt. unfold requestRetryRoundExclusions. destruct (_ <=? 0); [set_solver|].
  rewrite elem_of_list_to_set. intros ([b|] & Hb & E)%list_elem_of_omap; [|done]. destruct (String.eqb _ _); [done|].
  assert (effectiveRequestRetryLimit (Some b) (if defaultRetry <? 0 then 0 else defaultRetry) = effectiveRequestRetryLimit (Some b) defaultRetry) as Hd.
  { unfold effectiveRequestRetryLimit. destruct (defaultRetry <? 0) eqn:E0; [done|]. by rewrite E0. }
  rewrite Hd in E. destruct (_ <? attempt + 1) eqn:El; [|done]. injection E as E. to_prop. rewrite (Hu b Hb E) in El. lia.
Qed.

Lemma retry_reasons (requestRetry : Z) (q : asking) (auths : list (option Auth)) (e : goError) (maxWait limit : duration)
    (attempted : gset string) (now later : time) (wait : duration) :
  shouldRetryAfterErrorWithAttempted false requestRetry q auths e maxWait limit attempted now later = Some wait →
  (isRequestRetryRoundError e = true ∧ isRequestInvalidError e = false ∧ isRequestStopError e = false)
  ∧ (∃ a, Some a ∈ auths ∧ Disabled a = false ∧ A_Status a ≠ StatusDisabled ∧ allows (as_eligibility q) (Some a) = true
      ∧ executorKeyFromAuth (Some a) ∈ provider_set (as_providers q) ∧ (as_pinned q ≠ "" → ID a = as_pinned q)
      ∧ (as_model q ≠ "" → authSupportsRouteModel (as_registry q) (Some a) (as_model q) = true)
      ∧ as_attempt q < effectiveRequestRetryLimit (Some a) (as_defaultRetry q)
      ∧ ((∀ b, Some b ∈ auths → ID b = ID a → b = a) →
         ID a ∉ requestRetryRoundExclusions auths (as_attempt q + 1) (as_defaultRetry q)))
  ∧ 0 <= wait ∧ wait <= Z.max 0 maxWait
  ∧ (∀ a next w, Some a ∈ auths → round_candidate q (Some a) later = Some (a, next) →
      wait_for (statusCodeFromError e) attempted (a, next) later = Some w → wait <= w)
  ∧ (statusCodeFromError e = TooManyRequests →
     (∃ a next, Some a ∈ auths ∧ round_candidate q (Some a) later = Some (a, next)) →
     (∀ a next, Some a ∈ auths → round_candidate q (Some a) later = Some (a, next) →
        ID a ∈ attempted ∧ cooldownDisabledForAuth (Some a) = false) →
     minQuotaCooldownFloor <= wait).
Proof.
  unfold shouldRetryAfterErrorWithAttempted. destruct (any_node _ e); [done|]. destruct (_ =? 200); [done|].
  destruct (_ || _) eqn:Ebad; [done|]. cbn [andb]. apply orb_false_iff in Ebad as [Hinv Hstop].
  destruct (isRequestRetryRoundError e) eqn:Hr; [|done]. cbn [negb orb].
  destruct (retryAllowed q auths now) eqn:Ha; [|done]. cbn [negb].
  destruct (retry_allowed_candidate _ _ _ Ha) as (a & next & Hin & Hc).
  pose proof (candidate_spec _ _ _ _ _ Hc) as (_ & H1 & H2 & H3 & H4 & H5 & H6 & H7).
  assert (as_providers q ≠ []) as Hne by (unfold retryAllowed in Ha; destruct (_ || bool_decide _) eqn:E; [done|];
    apply orb_false_iff in E as [_ E]; by apply bool_decide_eq_false in E).
  unfold closestCooldownWaitWithAttempted. rewrite bool_decide_false by done.
  destruct (closest_wait_spec q auths (statusCodeFromError e) attempted later None ltac:(done)) as (_ & S2 & S3). cbv zeta in *.
  intros Hw. split; [done|]. split; [exists a; split_and!; try done; intros Hu; by apply not_excluded|].
  destruct (closest_wait _ _ _ _ _ _) as [m|] eqn:Em.
  - apply within_spec in Hw as [-> Hb]. destruct (S3 m eq_refl) as [?|(auth & [b nb] & Hb1 & Hb2 & Hb3)]; [done|].
    pose proof (wait_nonneg _ _ _ _ _ Hb3) as Hm. split_and!; [done|lia| |].
    + intros c nc w Hcin Hcc Hcw. destruct (S2 _ _ _ Hcin Hcc Hcw) as (m' & [= <-] & ?). done.
    + intros H429 _ Hall. pose proof (candidate_spec _ _ _ _ _ Hb2) as (-> & _). destruct (Hall b nb Hb1 Hb2) as [Hat Hcool].
      unfold wait_for in Hb3. rewrite bool_decide_true, Hcool, H429 in Hb3 by done. cbn in Hb3. injection Hb3 as <-.
      destruct (IsZero nb); [done|]. destruct (_ <? _) eqn:E; to_prop; [done|lia].
  - assert (∀ c nc w, Some c ∈ auths → round_candidate q (Some c) later = Some (c, nc) →
      wait_for (statusCodeFromError e) attempted (c, nc) later = Some w → False) as Hnone.
    { intros c nc w Hcin Hcc Hcw. by destruct (S2 _ _ _ Hcin Hcc Hcw) as (m' & ? & _). }
    unfold honoured in Hw. split_and!.
    + destruct (retryAfterFromError e) as [d|]; [|by injection Hw as <-]. destruct (d <? 0) eqn:Ed; [done|].
      apply within_spec in Hw as [-> _]. to_prop. lia.
    + destruct (retryAfterFromError e) as [d|]; [|injection Hw as <-; lia]. destruct (d <? 0) eqn:Ed; [done|].
      apply within_spec in Hw as [-> Hb]. lia.
    + intros c nc w Hcin Hcc Hcw. by destruct (Hnone c nc w).
    + intros H429 (c & nc & Hcin & Hcc) Hall. destruct (Hall c nc Hcin Hcc) as [Hat Hcool]. exfalso.
      eapply (Hnone c nc); [done..|]. unfold wait_for. rewrite bool_decide_true, Hcool, H429 by done. reflexivity.
Qed.

(** C30: A further round is granted for good reasons only, and its wait is the right one
    (without the home control plane).  The error was one a retry can help against, neither
    the request's own fault nor a stop.  Some enabled credential of the providers asked
    for, allowed, supporting the model and pinned if one is, has rounds left, and the next
    round does not exclude it.  The wait is never negative, never above the maximum and
    zero when none is set.  And if there are candidates the wait is at most what any of
    them needs; if every one of them was tried in a round that was rate-limited, and
    cools, it is at least the floor of ten seconds: no retry storm on a rate limit. *)
Theorem retry_granted (requestRetry : Z) (q : asking) (auths : list (option Auth)) (e : goError) (maxWait limit : duration)
    (attempted : gset string) (now later : time) (wait : duration) :
  shouldRetryAfterErrorWithAttempted false requestRetry q auths e maxWait limit attempted now later = Some wait →
  (isRequestRetryRoundError e = true ∧ isRequestInvalidError e = false ∧ isRequestStopError e = false)
  ∧ (∃ a, Some a ∈ auths ∧ Disabled a = false ∧ A_Status a ≠ StatusDisabled ∧ allows (as_eligibility q) (Some a) = true
      ∧ executorKeyFromAuth (Some a) ∈ provider_set (as_providers q) ∧ (as_pinned q ≠ "" → ID a = as_pinned q)
      ∧ (as_model q ≠ "" → authSupportsRouteModel (as_registry q) (Some a) (as_model q) = true)
      ∧ as_attempt q < effectiveRequestRetryLimit (Some a) (as_defaultRetry q)
      ∧ ((∀ b, Some b ∈ auths → ID b = ID a → b = a) →
         ID a ∉ requestRetryRoundExclusions auths (as_attempt q + 1) (as_defaultRetry q)))
  ∧ 0 <= wait ∧ wait <= Z.max 0 maxWait
  ∧ (∀ a next w, Some a ∈ auths → round_candidate q (Some a) later = Some (a, next) →
      wait_for (statusCodeFromError e) attempted (a, next) later = Some w → wait <= w)
  ∧ (statusCodeFromError e = TooManyRequests →
     (∃ a next, Some a ∈ auths ∧ round_candidate q (Some a) later = Some (a, next)) →
     (∀ a next, Some a ∈ auths → round_candidate q (Some a) later = Some (a, next) →
        ID a ∈ attempted ∧ cooldownDisabledForAuth (Some a) = false) →
     minQuotaCooldownFloor <= wait).
Proof. apply retry_reasons. Qed.

(** The range of a jittered wait. *)
Lemma jitter_within (draw : duration → duration) (wait maxWait : duration) :
  (∀ n, 0 < n → 0 <= draw n < n) → 0 < wait → 0 < maxWait → wait <= maxWait <= MaxInt64 →
  let w := jitteredCooldownWait draw wait maxWait in
  wait <= w <= maxWait ∧ (w - wait) * 4 <= wait ∧ w - wait <= 2 * Second ∧ is_int64 w.
Proof.
  intros Hd Hw Hm Hle. unfold jitteredCooldownWait. rewrite (proj2 (Z.leb_gt wait 0)), (proj2 (Z.ltb_lt 0 maxWait)) by lia. cbn [andb].
  set (r0 := if cooldownWaitJitterCap <? Z.quot wait 4 then cooldownWaitJitterCap else Z.quot wait 4).
  assert (0 <= r0 ∧ r0 * 4 <= wait ∧ r0 <= 2 * Second) as (R1 & R2 & R3).
  { assert (Z.quot wait 4 * 4 <= wait ∧ 0 <= Z.quot wait 4) as [Q1 Q2].
    { rewrite Z.quot_div_nonneg by lia. split; [pose proof (Z.mul_div_le wait 4); lia|apply Z.div_pos; lia]. }
    unfold r0, cooldownWaitJitterCap, Second in *. destruct (_ <? _) eqn:E; to_prop; lia. }
  clearbody r0. destruct (maxWait - wait <? r0) eqn:E1; to_prop.
  - destruct (maxWait - wait <=? 0) eqn:E2; to_prop; [unfold is_int64, MinInt64, MaxInt64 in *; unfold Second; lia|].
    specialize (Hd (maxWait - wait) ltac:(lia)). rewrite wrap64_id by (unfold is_int64, MinInt64, MaxInt64 in *; lia).
    unfold is_int64, MinInt64, MaxInt64 in *. lia.
  - destruct (r0 <=? 0) eqn:E2; to_prop; [unfold is_int64, MinInt64, MaxInt64 in *; unfold Second; lia|].
    specialize (Hd r0 ltac:(lia)). rewrite wrap64_id by (unfold is_int64, MinInt64, MaxInt64 in *; lia).
    unfold is_int64, MinInt64, MaxInt64 in *. lia.
Qed.

(** The jitter only ever lengthens a wait, by at most a quarter and at most two
    seconds, and never beyond the maximum the wait was granted under. *)
Theorem jitter_bounds (draw : duration → duration) (wait maxWait : duration) :
  (∀ n, 0 < n → 0 <= draw n < n) → 0 < wait → 0 < maxWait → wait <= maxWait <= MaxInt64 →
  let w := jitteredCooldownWait draw wait maxWait in
  wait <= w <= maxWait ∧ (w - wait) * 4 <= wait ∧ w - wait <= 2 * Second ∧ is_int64 w.
Proof. apply jitter_within. Qed.
End retry.
