(* ===== verification/Execution.v ===== *)
(** * Executing a request: credentials, models and rounds

    Models [Execute], [ExecuteCount] and their rounds [executeMixedOnce] and
    [executeCountMixedOnce] of [conductor_execution.go], without the home control plane,
    with [tryRefreshAfterUnauthorized] of [conductor_refresh.go] and the rules of
    [conductor_request_scoped_errors.go].

    What surrounds the loop is the class [Surroundings]: picking, preparing and calling
    act on a world of type [W], anything may happen in it between two steps, and a call
    answers with a response of type [R] or an error.  The shaping of the request - session
    identifiers, headers, translated payload - belongs to [call], the rewriting of a
    forced model name to the response.

    The computation is in a state and writer monad: beside the world it leaves a log of
    what happened, in order.  A loop [for { }] takes fuel; out of fuel is [None], and the
    fuel is shown to be enough.  A nil pointer that is dereferenced is [Crashed]. *)
From Stdlib Require Import ZArith Lia String Bool.
From stdpp Require Import prelude gmap strings.
From S2P Require Import Prelude GoStd Registry Thinking AuthTypes Errors Json Classify Availability Cooldown ExecutionResult Shard Scheduler Manager ExecErrors Retry.
Local Open Scope string_scope.
Local Open Scope list_scope.
Local Open Scope Z_scope.

(** ** Rules on the errors of requests *)

Definition RequestScopedActionStop := "stop".
Definition RequestScopedActionStopAndCooldown := "stop-and-cooldown".
Definition RequestScopedActionContinue := "continue".
Definition RequestScopedActionContinueAndCooldown := "continue-and-cooldown".
Record RequestScopedErrorRule := mkRule { RL_Status : Z; RL_Match : list string; RL_MatchRegexr : list string; RL_Action : string }.

Definition extractErrorBody (e : goError) : string :=
  let body := default "" (as_first n_ResponseBody e) in
  if negb (String.eqb body "") then body else
  match as_Error e with
  | Some a => if negb (String.eqb (E_Message a) "") then E_Message a else ErrorText e
  | None => ErrorText e
  end.

(** [regexp.Compile] and [MatchString]: a pattern that does not compile matches nothing. *)
Class Regexp := { regexp_match : string → string → bool }.

Definition rule_matches {rx : Regexp} (status : Z) (body : string) (rule : RequestScopedErrorRule) : bool :=
  if (RL_Status rule <=? 0) || negb (RL_Status rule =? status) then false
  else existsb (λ s, negb (String.eqb s "") && Contains body s) (RL_Match rule)
       || existsb (λ p, negb (String.eqb p "") && regexp_match p body) (RL_MatchRegexr rule).
Definition rule_action (rule : RequestScopedErrorRule) : option string :=
  let action := ToLower (TrimSpace (RL_Action rule)) in
  if bool_decide (action ∈ [RequestScopedActionStop; RequestScopedActionStopAndCooldown; RequestScopedActionContinue;
                            RequestScopedActionContinueAndCooldown]) then Some action else None.
(** The action of the first rule that matches and names one. *)
Fixpoint matchRequestScopedErrorAction {rx : Regexp} (rules : list RequestScopedErrorRule) (e : goError) : option string :=
  match rules with
  | [] => None
  | rule :: rules =>
      if rule_matches (statusCodeFromError e) (extractErrorBody e) rule
      then match rule_action rule with Some action => Some action | None => matchRequestScopedErrorAction rules e end
      else matchRequestScopedErrorAction rules e
  end.
Definition isRequestScopedStop (action : option string) : bool :=
  match action with
  | Some a => String.eqb a RequestScopedActionStop || String.eqb a RequestScopedActionStopAndCooldown
  | None => false
  end.
(** What the action makes of the error that is reported. *)
Definition applyRequestScopedActionToResult (action : option string) (r : Error) : Error :=
  match action with
  | Some a =>
      if String.eqb a RequestScopedActionStop || String.eqb a RequestScopedActionContinue then r <| E_Code := ErrorCodeRequestScoped |>
      else if String.eqb a RequestScopedActionStopAndCooldown || String.eqb a RequestScopedActionContinueAndCooldown
      then r <| E_Code := ErrorCodeForceCooldown |> else r
  | None => r
  end.

(** ** Preparing a credential *)

(** What the executor of a credential offers to prepare it, and the manager to keep what
    it prepared: the credential saved, if it is still there, or an error. *)
Class RequestAuthPreparer := {
  ShouldPrepareRequestAuth : Auth → bool;
  PrepareAuth : Auth → option Auth * option goError;
  UpdatePreparedAuth : Auth → Auth → option Auth * option goError }.

(** [prepareRequestAuth] and [PrepareRequestAuth] of a credential that is there:
    [preparer] is [None] when the executor prepares nothing, [current] what is registered
    under the identity. *)
Definition PrepareRequestAuth (preparer : option RequestAuthPreparer) (current : option Auth) (auth : Auth) : option Auth * option goError :=
  match preparer with
  | None => (Some auth, None)
  | Some pr =>
      if negb (ShouldPrepareRequestAuth auth) then (Some auth, None) else
      let ident := TrimSpace (ID auth) in
      if String.eqb ident "" then PrepareAuth (Auth_Clone auth) else
      let target := Auth_Clone (default auth current) in
      if match current with None => true | Some _ => false end && EqualFold (TrimSpace (Provider auth)) "meta"
      then (None, Some (mkErr (plain "prepare meta auth: credential no longer registered") []))
      else if negb (ShouldPrepareRequestAuth target) then (Some target, None) else
      let base := Auth_Clone target in
      match PrepareAuth (Auth_Clone base) with
      | (_, Some e) => (Some auth, Some e)
      | (None, None) => (Some target, None)
      | (Some updated, None) =>
          match UpdatePreparedAuth base updated with
          | (_, Some e) => (None, Some e)
          | (Some saved, None) => (Some saved, None)
          | (None, None) =>
              if EqualFold (TrimSpace (Provider auth)) "meta"
              then (None, Some (mkErr (plain "prepare meta auth: credential removed during mint") []))
              else (Some target, None)
          end
      end
  end.

(** ** The request *)

(** [q_compact]: the request is a [responses/compact] one. *)
Record execRequest := mkExecRequest { q_model : string; q_metadata : gomap; q_compact : bool }.
Definition AuthSelectionModelMetadataKey := "auth_selection_model".
Definition authSelectionModelFromOptions (meta : gomap) (fallback : string) : string :=
  let fallback := TrimSpace fallback in
  match assoc AuthSelectionModelMetadataKey meta with
  | Some (VString v) | Some (VBytes v) => if String.eqb (TrimSpace v) "" then fallback else TrimSpace v
  | _ => fallback
  end.
Definition route_model (q : execRequest) : string := authSelectionModelFromOptions (q_metadata q) (q_model q).
(** The model to ask for in place of the upstream model, when the selection ran under another name. *)
Definition executionModelForAuthSelection (meta : gomap) (model : string) : option string :=
  let model := TrimSpace model in
  if String.eqb model "" then None
  else if String.eqb (authSelectionModelFromOptions meta model) model then None else Some model.
Definition exec_model (q : execRequest) (upstreamModel : string) : string :=
  default upstreamModel (executionModelForAuthSelection (q_metadata q) (q_model q)).

(** ** Surroundings, log and monad *)

Inductive event :=
| RoundBegins (attempt : Z) | Picked (id : string) | Called (id model : string) (ok : bool) | Refreshing (id : string)
| Reported (r : Result) (neutral : bool) | Waited (wait : duration) | Fallback.

Class Surroundings (W R : Type) := {
  pickNextMixed : gset string → W → (Auth * string + goError) * W;
  RecordRoutingSelection : string → W → W;
  prepared_models : Auth → W → list string * bool;
  prepareRequestAuth : Auth → W → option Auth * option goError * W;
  stateModelForExecution : Auth → string → bool → W → string;
  intercept : Auth → string → W → option goError * W;
  next_seq : W → Z * W;
  call : bool → Auth → string → W → (R + goError) * bool * W;
  context_error : W → option goError;
  markRejectedAccessToken : string → string → W → W;
  refreshAuthForRequest : string → string → W → option Auth * W;
  rules_for : Auth → W → list RequestScopedErrorRule;
  report : Result → bool → W → W;
  clock : W → time * W;
  known_auths : W → list (option Auth);
  w_models : W → ModelRegistry;
  pause : duration → W → option goError * W;
  draw : W → duration → duration;
  credits : W → bool;
  credits_fallback : W → option (R + goError) * W }.

Inductive outcome (R : Type) := Done (r : R) | Failed (e : goError) | Crashed.
Arguments Done {R} r.
Arguments Failed {R} e.
Arguments Crashed {R}.

Section monad.
Context {W : Type}.
Definition M (A : Type) : Type := W → A * W * list event.
Definition ret {A} (a : A) : M A := λ w, (a, w, []).
Definition bind {A B} (m : M A) (k : A → M B) : M B :=
  λ w, let '(a, w1, l1) := m w in let '(b, w2, l2) := k a w1 in (b, w2, l1 ++ l2).
Definition say (e : event) : M unit := λ w, (tt, w, [e]).
Definition act (f : W → W) : M unit := λ w, (tt, f w, []).
Definition lift {A} (f : W → A * W) : M A := λ w, let '(a, w') := f w in (a, w', []).
Definition ask {A} (f : W → A) : M A := λ w, (f w, w, []).

Lemma bind_inv {A B} (m : M A) (k : A → M B) w b w2 l : bind m k w = (b, w2, l) →
  ∃ a w1 l1 l2, m w = (a, w1, l1) ∧ k a w1 = (b, w2, l2) ∧ l = l1 ++ l2.
Proof.
  unfold bind. destruct (m w) as [[a w1] l1]. destruct (k a w1) as [[b' w2'] l2] eqn:E. intros [= <- <- <-]. by exists a, w1, l1, l2.
Qed.
End monad.
Notation "x <- m ;; k" := (bind m (λ x, k)) (at level 98, m at next level, right associativity) : exec_scope.
Notation "m ;;; k" := (bind m (λ _, k)) (at level 98, right associativity) : exec_scope.
Delimit Scope exec_scope with exec.
Open Scope exec_scope.

Section execution.
Context {gh : GoHost} {gj : Gjson} {st : Settings} {aliases : ModelAliases} {rx : Regexp}.
Context {W R : Type} {sur : Surroundings W R}.
Local Notation M := (@M W).

(** ** One call upstream *)

(** What the attempts on one credential carry along. *)
Record attempt := mkAttempt { at_auth : Auth; at_refreshed : bool; at_upstream : option goError }.
#[export] Instance attempt_eta : Eta attempt := λ a, mkAttempt (at_auth a) (at_refreshed a) (at_upstream a).

Definition is_inl {A B} (s : A + B) : bool := match s with inl _ => true | inr _ => false end.
(** The call, its error marked when it reached upstream. *)
Definition call_marked (count : bool) (a : Auth) (model : string) : M (R + goError) := λ w,
  let '(res, reached, w') := call count a model w in
  (match res with inl r => inl r | inr e => inr (markUpstreamExecutionAttemptFromContext reached e) end, w',
   [Called (ID a) model (is_inl res)]).
Definition note (up : option goError) (e : goError) : option goError := if hasUpstreamExecutionAttempt e then Some e else up.

(** The refreshed credential, when there is one to try the call again with. *)
Definition tryRefreshAfterUnauthorized (a : Auth) (e : goError) (alreadyTried : bool) : M (option Auth) :=
  if isRequestScopedError e || negb (isUnauthorizedError e) then ret None else
  let failedToken := authAccessToken (Some a) in
  (if negb (String.eqb failedToken "") then act (markRejectedAccessToken (ID a) failedToken) else ret tt);;;
  now <- lift clock;;
  if alreadyTried || negb (authHasRefreshCredential (Some a) now) || hasUnauthorizedAuthFailure (Some a) then ret None else
  say (Refreshing (ID a));;;
  refreshed <- lift (refreshAuthForRequest (ID a) failedToken);;
  ret match refreshed with
      | None => None
      | Some f => if negb (String.eqb failedToken "") && String.eqb (authAccessToken (Some f)) failedToken
                     && String.eqb (RejectedAccessToken f) failedToken then None else Some f
      end.

(** The call, once more after a refresh; [inr] is an error that ends the request. *)
Definition call_refreshing (count : bool) (at_ : attempt) (model : string) : M ((R + goError) * Z * attempt + goError) :=
  seq <- lift next_seq;;
  res <- call_marked count (at_auth at_) model;;
  match res with
  | inl r => ret (inl (inl r, seq, at_))
  | inr e =>
      let at_ := at_ <| at_upstream := note (at_upstream at_) e |> in
      ended <- ask context_error;;
      match ended with
      | Some ctx => ret (inr ctx)
      | None =>
          refreshed <- tryRefreshAfterUnauthorized (at_auth at_) e (at_refreshed at_);;
          match refreshed with
          | None => ret (inl (inr e, seq, at_))
          | Some a =>
              let at_ := at_ <| at_auth := a |> <| at_refreshed := true |> in
              seq <- lift next_seq;;
              res <- call_marked count a model;;
              match res with
              | inl r => ret (inl (inl r, seq, at_))
              | inr e =>
                  let at_ := at_ <| at_upstream := note (at_upstream at_) e |> in
                  ended <- ask context_error;;
                  match ended with
                  | Some ctx => ret (inr ctx)
                  | None => ret (inl (inr e, seq, at_))
                  end
              end
          end
      end
  end.

(** [claudeOAuthRequestCancellation] *)
Definition claudeOAuthRequestCancellation (auth : option Auth) (e ended : option goError) : option goError :=
  match auth with
  | None => None
  | Some a =>
      if negb (EqualFold (TrimSpace (Provider a)) "claude") || negb (EqualFold (TrimSpace (attr (Attributes a) "auth_kind")) "oauth")
      then None
      else match ended with
           | Some ctx => if Is ctx ContextCanceled then Some ctx
                         else match e with Some e => if Is e ContextCanceled then Some e else None | None => None end
           | None => match e with Some e => if Is e ContextCanceled then Some e else None | None => None end
           end
  end.

(** ** One model of a credential *)

Inductive verdict := Return (o : outcome R) | NextModel (e : goError) | NextCredential (e : goError).

Definition base_result (count : bool) (a : Auth) (provider model route : string) : Result :=
  mkResult (ID a) provider model route false count None false None count (authAccessToken (Some a))
    (CredentialVersion a) (RegistrationEpoch a) 0.

(** What is reported of a failed call, and whether it leaves the availability alone. *)
Definition failure_report (count compact : bool) (execModel : string) (action : option string) (e : goError) (r : Result) : Result * bool :=
  let err := applyRequestScopedActionToResult action (resultErrorFromError e) in
  let r := r <| R_Error := Some err |> <| RetryAfter := retryAfterFromError e |> in
  if count then
    if isCountTokensEndpointNotFoundError e execModel && negb (String.eqb (E_Code err) ErrorCodeForceCooldown) then (r, true)
    else (r <| CredentialScope := isCredentialScopedError e |>, false)
  else (r <| CredentialScope := isCredentialScopedError e |>, isResponsesCompactAvailabilityNeutralError compact e (Some err)).

(** Faults of the request end it: no other credential is tried. *)
Definition request_fault (count compact : bool) (e : goError) : bool :=
  (negb count && isResponsesCompactRequestFaultError compact e) || isRequestInvalidError e.

Definition try_model (count : bool) (q : execRequest) (provider : string) (pooled : bool) (at_ : attempt) (model : string)
    : M (verdict * attempt) :=
  resultModel <- ask (stateModelForExecution (at_auth at_) model pooled);;
  terminated <- lift (intercept (at_auth at_) model);;
  match terminated with
  | Some e => ret (Return (Failed e), at_)
  | None =>
      called <- call_refreshing count at_ model;;
      match called with
      | inr ctx => ret (Return (Failed ctx), at_)
      | inl (res, seq, at_) =>
          ended <- ask context_error;;
          match claudeOAuthRequestCancellation (Some (at_auth at_)) match res with inr e => Some e | inl _ => None end ended with
          | Some e => ret (Return (Failed e), at_)
          | None =>
              let r := (base_result count (at_auth at_) provider resultModel (route_model q)) <| ExecutionSeq := seq |> in
              match res with
              | inl resp =>
                  let r := r <| R_Success := true |> in
                  act (report r false);;; say (Reported r false);;; ret (Return (Done resp), at_)
              | inr e =>
                  rules <- ask (rules_for (at_auth at_));;
                  let action := matchRequestScopedErrorAction rules e in
                  let '(r, neutral) := failure_report count (q_compact q) (exec_model q model) action e r in
                  act (report r neutral);;; say (Reported r neutral);;;
                  ret (match action with
                       | Some _ => if isRequestScopedStop action then Return (Failed (wrapRequestStopError e))
                                   else if CredentialScope r then NextCredential e else NextModel e
                       | None => if request_fault count (q_compact q) e then Return (Failed e)
                                 else if CredentialScope r then NextCredential e else NextModel e
                       end, at_)
              end
          end
      end
  end.

(** The models of a credential in turn; [inr] is the error to go on with. *)
Fixpoint try_models (count : bool) (q : execRequest) (provider : string) (pooled : bool) (models : list string) (at_ : attempt)
    (authErr : option goError) : M ((outcome R + option goError) * attempt) :=
  match models with
  | [] => ret (inr authErr, at_)
  | model :: models =>
      v <- try_model count q provider pooled at_ model;;
      match v.1 with
      | Return o => ret (inl o, v.2)
      | NextModel e => try_models count q provider pooled models v.2 (Some e)
      | NextCredential e => ret (inr (Some e), v.2)
      end
  end.

(** ** One round *)

Record round := mkRound { tried : gset string; attempted : gset string; lastErr : option goError; upstreamErr : option goError }.
#[export] Instance round_eta : Eta round := λ r, mkRound (tried r) (attempted r) (lastErr r) (upstreamErr r).

Definition no_auth_available : goError := of_Error err_not_found.
(** The error a round gives up with: its own, or [fallback] when it has none. *)
Definition lose_round (s : round) (fallback : goError) : outcome R :=
  Failed match lastErr s with Some e => preferredExecutionAttemptError e (upstreamErr s) | None => fallback end.

(** One credential; [inr] goes on with the next. *)
Definition try_credential (count : bool) (q : execRequest) (s : round) (a : Auth) (provider : string) : M (outcome R + round) :=
  act (RecordRoutingSelection (ID a));;;
  let s := s <| tried := {[ID a]} ∪ tried s |> in
  prepared <- ask (prepared_models a);;
  let '(models, pooled) := prepared in
  match models with
  | [] => ret (inr s)
  | _ =>
      let s := s <| attempted := {[ID a]} ∪ attempted s |> in
      ready <- (λ w, let '(auth, err, w') := prepareRequestAuth a w in (auth, err, w', []));;
      match ready with
      | (auth, Some e) =>
          ended <- ask context_error;;
          match claudeOAuthRequestCancellation auth (Some e) ended with
          | Some e => ret (inl (Failed e))
          | None =>
              match auth with
              | None => ret (inl Crashed)
              | Some a =>
                  let stateModel := selectionModelKeyForAuth a (route_model q) in
                  let stateModel := if String.eqb stateModel "" then canonicalModelKey (route_model q) else stateModel in
                  let r := (base_result count a provider stateModel (route_model q)) <| R_Error := Some (resultErrorFromError e) |> in
                  act (report r false);;; say (Reported r false);;; ret (inr (s <| lastErr := Some e |>))
              end
          end
      | (None, None) => ret (inl Crashed)
      | (Some a, None) =>
          v <- try_models count q provider pooled models (mkAttempt a false (upstreamErr s)) None;;
          let '(over, at_) := v in
          let s := s <| upstreamErr := at_upstream at_ |> in
          match over with
          | inl o => ret (inl o)
          | inr None => ret (inr s)
          | inr (Some e) =>
              rules <- ask (rules_for (at_auth at_));;
              let action := matchRequestScopedErrorAction rules e in
              match action with
              | Some _ => if isRequestScopedStop action then ret (inl (Failed (wrapRequestStopError e)))
                          else ret (inr (s <| lastErr := Some e |>))
              | None => if request_fault count (q_compact q) e then ret (inl (Failed e)) else ret (inr (s <| lastErr := Some e |>))
              end
          end
      end
  end.

Fixpoint round_loop (fuel : nat) (count : bool) (q : execRequest) (maxRetryCredentials : Z) (s : round) : M (option (outcome R)) :=
  match fuel with
  | O => ret None
  | S fuel =>
      if (0 <? maxRetryCredentials) && (maxRetryCredentials <=? Z.of_nat (size (attempted s)))
      then ret (Some (lose_round s no_auth_available))
      else
        picked <- lift (pickNextMixed (tried s));;
        match picked with
        | inr e => ret (Some (lose_round s e))
        | inl (a, provider) =>
            say (Picked (ID a));;;
            next <- try_credential count q s a provider;;
            match next with
            | inl o => ret (Some o)
            | inr s => round_loop fuel count q maxRetryCredentials s
            end
        end
  end.

(** [executeMixedOnce], and [executeCountMixedOnce] when [count]. *)
Definition once (count : bool) (fuel : nat) (providers : list string) (q : execRequest) (maxRetryCredentials retryRound defaultRequestRetry : Z)
    : M (option (outcome R)) :=
  if bool_decide (providers = []) then ret (Some (Failed (of_Error err_no_provider))) else
  auths <- ask known_auths;;
  round_loop fuel count q maxRetryCredentials
    (mkRound (requestRetryRoundExclusions auths retryRound defaultRequestRetry) ∅ None None).
Definition executeMixedOnce := once false.
Definition executeCountMixedOnce := once true.

(** ** Rounds *)

Definition normalizeProviders (providers : list string) : list string :=
  fold_left (λ acc p, let p := TrimSpace (ToLower p) in
                      if String.eqb p "" || bool_decide (p ∈ acc) then acc else acc ++ [p]) providers [].

(** The settings of the manager and the request's view of a retry. *)
Record policy := mkPolicy {
  requestRetry : Z; maxRetryCredentials : Z; maxRetryInterval : duration;
  p_eligibility : authSelectionEligibility; p_pinned : string }.

Definition waitForCooldown (wait maxWait : duration) : M (option goError) :=
  if wait <=? 0 then ret None else
  d <- ask draw;;
  say (Waited (jitteredCooldownWait d wait maxWait));;;
  lift (pause (jitteredCooldownWait d wait maxWait)).

Definition picked_ids (l : list event) : gset string :=
  list_to_set (omap (λ e, match e with Picked id => if String.eqb (TrimSpace id) "" then None else Some (TrimSpace id) | _ => None end) l).
(** What a computation logs, beside its result. *)
Definition listening {A} (m : M A) : M (A * list event) := λ w, let '(a, w', l) := m w in (a, l, w', l).

Definition asking_of (p : policy) (providers : list string) (q : execRequest) (attempt : Z) (r : ModelRegistry) : asking :=
  mkAsking r providers (route_model q) attempt (p_eligibility p) (p_pinned p) (requestRetry p).

(** The rounds; what is left is the last error and the last that reached upstream. *)
Fixpoint rounds_loop (count : bool) (rounds fuel : nat) (p : policy) (providers : list string) (q : execRequest) (attempt : Z)
    (preferred : option goError) : M (option (outcome R + goError * option goError)) :=
  match rounds with
  | O => ret None
  | S rounds =>
      say (RoundBegins attempt);;;
      heard <- listening (once count fuel providers q (maxRetryCredentials p) attempt (requestRetry p));;
      let '(res, heard) := heard in
      match res with
      | None => ret None
      | Some (Failed e) =>
          if isRequestTerminatedError e || isRequestStopError e then ret (Some (inl (Failed (unwrapExecutionBoundaryError e)))) else
          let preferred := note preferred e in
          now <- lift clock;;
          later <- lift clock;;
          auths <- ask known_auths;;
          registry <- ask w_models;;
          match shouldRetryAfterErrorWithAttempted false (requestRetry p) (asking_of p providers q attempt registry) auths e
                  (maxRetryInterval p) (-1) (picked_ids heard) now later with
          | None => ret (Some (inr (e, preferred)))
          | Some wait =>
              ended <- waitForCooldown wait (maxRetryInterval p);;
              match ended with
              | Some ctx => ret (Some (inl (Failed ctx)))
              | None => rounds_loop count rounds fuel p providers q (attempt + 1) preferred
              end
          end
      | Some o => ret (Some (inl o))
      end
  end.

Definition hasAntigravityProvider (providers : list string) : bool := existsb (λ p, EqualFold (TrimSpace p) "antigravity") providers.
(** [allowed]: the configuration allows the fallback. *)
Definition shouldAttemptAntigravityCreditsFallback (allowed : bool) (e : goError) : bool :=
  if isRequestTerminatedError e || negb allowed then false else
  let status := statusCodeFromError e in
  if (status =? 429) || (status =? 503) then true
  else if status =? 0 then
    match as_Error e with
    | Some a => bool_decide (E_Code a ∈ ["auth_not_found"; "auth_unavailable"; "model_cooldown"])
    | None => false
    end
  else false.

(** [Execute], and [ExecuteCount] when [count]. *)
Definition execute (count : bool) (rounds fuel : nat) (p : policy) (providers : list string) (q : execRequest) : M (option (outcome R)) :=
  let normalized := normalizeProviders providers in
  if bool_decide (normalized = []) then ret (Some (Failed (of_Error err_no_provider))) else
  over <- rounds_loop count rounds fuel p normalized q 0 None;;
  match over with
  | None => ret None
  | Some (inl o) => ret (Some o)
  | Some (inr (e, preferred)) =>
      ended <- ask context_error;;
      match ended with
      | Some ctx => ret (Some (Failed ctx))
      | None =>
          let e := unwrapExecutionBoundaryError (preferredExecutionAttemptError e preferred) in
          allowed <- ask credits;;
          if negb count && hasAntigravityProvider normalized && shouldAttemptAntigravityCreditsFallback allowed e then
            say Fallback;;;
            res <- lift credits_fallback;;
            ret (Some match res with Some (inl r) => Done r | Some (inr e) => Failed e | None => Failed e end)
          else ret (Some (Failed e))
      end
  end.
Definition Execute := execute false.
Definition ExecuteCount := execute true.
End execution.
