(* ===== verification/ExecutionProtocol.v ===== *)
(** * What an execution may do, step by step

    The contract of [Execution]: an automaton over its log ([advance]), and the proof that
    every execution, whatever its surroundings do, is a run of it that ends. *)
From Stdlib Require Import ZArith Lia String Bool.
From stdpp Require Import prelude gmap strings.
From S2P Require Import Prelude GoStd Registry Thinking AuthTypes Errors Json Classify Availability Cooldown ExecutionResult Shard Scheduler Manager ExecErrors Retry Execution.
Local Open Scope string_scope.
Local Open Scope list_scope.
Local Open Scope Z_scope.

(** ** The protocol *)

Inductive pending := JustPicked | Idle | AwaitReport | AwaitRetry | AwaitSuccess | Rested.
#[export] Instance pending_dec : EqDecision pending.
Proof. solve_decision. Defined.
(** [At n tr att cur p]: in round [n], the credentials [tr] were picked, [att] of them used,
    [cur] is the current one and [p] is open with it. *)
Inductive phase := Fresh | At (n : Z) (tr att : gset string) (cur : option string) (p : pending) | Served | FellBack.

(** The last round, the longest wait and the most credentials of a round. *)
Record allowance := mkAllowance { b_rounds : Z; b_wait : duration; b_credentials : Z }.

Definition use (b : allowance) (n : Z) (tr att : gset string) (id : string) (p : pending) : option phase :=
  let att := {[id]} ∪ att in
  if (0 <? b_credentials b) && (b_credentials b <? Z.of_nat (size att)) then None else Some (At n tr att (Some id) p).

Definition advance (b : allowance) (ph : phase) (e : event) : option phase :=
  match ph, e with
  | Fresh, RoundBegins n => if n =? 0 then Some (At 0 ∅ ∅ None Idle) else None
  | At _ _ _ _ AwaitSuccess, Reported r neutral =>
      match ph with
      | At _ _ _ (Some id) _ => if String.eqb (R_AuthID r) id && R_Success r && negb neutral then Some Served else None
      | _ => None
      end
  | At _ _ _ _ AwaitSuccess, _ => None
  | At n _ _ _ _, RoundBegins n' => if (n' =? n + 1) && (n' <=? b_rounds b) then Some (At n' ∅ ∅ None Idle) else None
  | At n tr att cur p, Waited d =>
      if bool_decide (p = Rested) then None
      else if (n <? b_rounds b) && (0 <? d) && (d <=? b_wait b) then Some (At n tr att cur Rested) else None
  | At n tr att cur p, Picked id =>
      if (bool_decide (p = Idle) || bool_decide (p = JustPicked)) && negb (bool_decide (id ∈ tr))
      then Some (At n ({[id]} ∪ tr) att (Some id) JustPicked) else None
  | At n tr att (Some id) p, Called id' _ ok =>
      if (bool_decide (p = Idle) || bool_decide (p = JustPicked) || bool_decide (p = AwaitRetry)) && String.eqb id' id
      then use b n tr att id (if ok then AwaitSuccess else AwaitReport) else None
  | At n tr att (Some id) AwaitReport, Refreshing id' => if String.eqb id' id then Some (At n tr att (Some id) AwaitRetry) else None
  | At n tr att (Some id) p, Reported r _ =>
      if String.eqb (R_AuthID r) id && negb (R_Success r) then
        match p with
        | JustPicked => (λ ph, match ph with At n tr att _ p => At n tr att None p | ph => ph end) <$> use b n tr att id Idle
        | AwaitReport | AwaitRetry => use b n tr att id Idle
        | _ => None
        end
      else None
  | At _ _ _ _ p, Fallback => if bool_decide (p = Rested) then None else Some FellBack
  | _, _ => None
  end.
Fixpoint follow (b : allowance) (ph : phase) (l : list event) : option phase :=
  match l with
  | [] => Some ph
  | e :: l => match advance b ph e with Some ph => follow b ph l | None => None end
  end.

Lemma follow_app b ph l1 l2 : follow b ph (l1 ++ l2) = follow b ph l1 ≫= λ ph, follow b ph l2.
Proof. revert ph. induction l1 as [|e l1 IH]; intros ph; cbn; [done|]. destruct (advance b ph e); cbn; [apply IH|done]. Qed.

(** ** Weakest preconditions *)

Section wp.
Context {W : Type} (b : allowance).
Definition wp {A} (m : @M W A) (Q : A → W → phase → Prop) (w : W) (ph : phase) : Prop :=
  let '(a, w', l) := m w in ∃ ph', follow b ph l = Some ph' ∧ Q a w' ph'.

Lemma wp_ret {A} (a : A) Q w ph : Q a w ph → wp (ret a) Q w ph.
Proof. intros H. by exists ph. Qed.
Lemma wp_bind {A B} (m : @M W A) (k : A → @M W B) Q w ph :
  wp m (λ a w1 ph1, wp (k a) Q w1 ph1) w ph → wp (bind m k) Q w ph.
Proof.
  unfold wp, bind. destruct (m w) as [[a w1] l1]. intros (ph1 & H1 & H2). destruct (k a w1) as [[b' w2] l2].
  destruct H2 as (ph2 & H2 & H). exists ph2. by rewrite follow_app, H1.
Qed.
Lemma wp_say e (Q : unit → W → phase → Prop) w ph ph' : advance b ph e = Some ph' → Q tt w ph' → wp (say e) Q w ph.
Proof. intros H HQ. exists ph'. cbn. by rewrite H. Qed.
Lemma wp_act f (Q : unit → W → phase → Prop) w ph : Q tt (f w) ph → wp (act f) Q w ph.
Proof. intros H. by exists ph. Qed.
Lemma wp_lift {A} (f : W → A * W) Q w ph : (∀ a w', f w = (a, w') → Q a w' ph) → wp (lift f) Q w ph.
Proof. unfold wp, lift. destruct (f w) as [a w'] eqn:E. intros H. exists ph. split; [done|by apply H]. Qed.
Lemma wp_ask {A} (f : W → A) Q w ph : Q (f w) w ph → wp (ask f) Q w ph.
Proof. intros H. by exists ph. Qed.
Lemma wp_listening {A} (m : @M W A) (Q : A * list event → W → phase → Prop) w ph :
  wp m (λ a w' ph', ∀ l, Q (a, l) w' ph') w ph → wp (listening m) Q w ph.
Proof. unfold wp, listening. destruct (m w) as [[a w'] l]. intros (ph' & H1 & H2). exists ph'. split; [done|apply H2]. Qed.
Lemma wp_mono {A} (m : @M W A) (Q Q' : A → W → phase → Prop) w ph : wp m Q w ph → (∀ a w' ph', Q a w' ph' → Q' a w' ph') → wp m Q' w ph.
Proof. unfold wp. destruct (m w) as [[a w'] l]. intros (ph' & H1 & H2) H. exists ph'. split; [done|by apply H]. Qed.
End wp.

(** Walks through a computation up to the next call, choice or event. *)
Ltac wp_step :=
  lazymatch goal with
  | |- wp _ (bind _ _) _ _ _ => apply wp_bind
  | |- wp _ (ret _) _ _ _ => apply wp_ret
  | |- wp _ (act _) _ _ _ => apply wp_act
  | |- wp _ (ask _) _ _ _ => apply wp_ask
  | |- wp _ (lift _) _ _ _ => let H := fresh "Hw" in apply wp_lift; intros ?? H
  end.
Ltac wp_steps := repeat (wp_step; cbv beta).

(** ** Every execution is a run *)

(** What is asked of the surroundings: a pick is new and among [ids], what a preparation or
    a refresh returns, if anything, is the same credential, a context that ended says so in one of
    two ways and goes on saying it. *)
Class Lawful {W R : Type} {sur : Surroundings W R} (ids : gset string) : Prop := {
  pick_new tr (w : W) a p w' : pickNextMixed tr w = (inl (a, p), w') → ID a ∈ ids ∖ tr;
  prepare_same a (w : W) auth e w' : prepareRequestAuth a w = (Some auth, e, w') → ID auth = ID a;
  refresh_same id t (w : W) f w' : refreshAuthForRequest id t w = (Some f, w') → ID f = id;
  context_law (w : W) e : context_error w = Some e → e = of_sentinel ContextCanceled ∨ e = of_sentinel ContextDeadlineExceeded;
  clock_keeps (w : W) e : context_error w = Some e → context_error (clock w).2 = Some e }.

Section specs.
Context {gh : GoHost} {gj : Gjson} {st : Settings} {aliases : ModelAliases} {rx : Regexp}.
Context {W R : Type} {sur : Surroundings W R} {ids : gset string} {Hl : Lawful (sur := sur) ids}.
Context (b : allowance).

Definition fits (att : gset string) (id : string) : Prop := 0 < b_credentials b → Z.of_nat (size ({[id]} ∪ att)) <= b_credentials b.
(** With credential [id] of a round, in the middle of [p]. *)
Definition on (n : Z) (tr att : gset string) (id : string) (p : pending) (ph : phase) : Prop :=
  ∃ att', ph = At n tr att' (Some id) p ∧ att' ⊆ {[id]} ∪ att.

Lemma use_ok n tr att att' id p : fits att id → att' ⊆ {[id]} ∪ att → use b n tr att' id p = Some (At n tr ({[id]} ∪ att') (Some id) p).
Proof.
  intros Hf Hs. unfold use. destruct (0 <? b_credentials b) eqn:E; [|done]. to_prop. specialize (Hf E).
  assert (size ({[id]} ∪ att') ≤ size ({[id]} ∪ att))%nat as Hle by (apply subseteq_size; set_solver).
  rewrite (proj2 (Z.ltb_ge _ _)) by lia. done.
Qed.
Definition may_call (p : pending) : Prop := p = Idle ∨ p = JustPicked ∨ p = AwaitRetry.
Lemma advance_call n tr att id p ph m ok : fits att id → on n tr att id p ph → may_call p →
  ∃ ph', advance b ph (Called id m ok) = Some ph' ∧ on n tr att id (if ok then AwaitSuccess else AwaitReport) ph'.
Proof.
  intros Hf (att' & -> & Hs) Hp. exists (At n tr ({[id]} ∪ att') (Some id) (if ok then AwaitSuccess else AwaitReport)).
  split; [|exists ({[id]} ∪ att'); split; [done|set_solver]]. cbn. rewrite String.eqb_refl, (use_ok n tr att) by done.
  by destruct Hp as [->|[->| ->]].
Qed.
Definition may_report (p : pending) : Prop := p = AwaitReport ∨ p = AwaitRetry.
Lemma advance_report n tr att id p ph r neutral : fits att id → on n tr att id p ph → may_report p → R_AuthID r = id → R_Success r = false →
  ∃ ph', advance b ph (Reported r neutral) = Some ph' ∧ on n tr att id Idle ph'.
Proof.
  intros Hf (att' & -> & Hs) Hp Hid Hok. exists (At n tr ({[id]} ∪ att') (Some id) Idle).
  split; [|exists ({[id]} ∪ att'); split; [done|set_solver]]. cbn. rewrite Hid, Hok, String.eqb_refl. cbn.
  destruct Hp as [->| ->]; by apply (use_ok n tr att).
Qed.

Lemma wp_call n tr att id p ph count a m w (Q : R + goError → W → phase → Prop) : ID a = id → fits att id → on n tr att id p ph → may_call p →
  (∀ res w' ph', on n tr att id (if is_inl res then AwaitSuccess else AwaitReport) ph' → Q res w' ph') →
  wp b (call_marked count a m) Q w ph.
Proof.
  intros Hid Hf Hon Hp HQ. unfold wp, call_marked. destruct (call count a m w) as [[res reached] w'].
  destruct (advance_call n tr att id p ph m (is_inl res) Hf Hon Hp) as (ph' & Ha & Hon'). exists ph'. cbn [follow]. rewrite Hid, Ha.
  split; [done|]. apply HQ. by destruct res.
Qed.

(** How the attempt on a model or a credential may leave the world. *)
Definition cancelled (w : W) (e : goError) : Prop := e = of_sentinel ContextCanceled ∧ context_error w = Some e.
Definition open_end (n : Z) (tr att : gset string) (id : string) (w : W) (ph : phase) (e : goError) : Prop :=
  ∃ p, on n tr att id p ph ∧ p ≠ Rested ∧ (p = AwaitSuccess → cancelled w e).
Definition over (n : Z) (tr att : gset string) (id : string) (o : outcome R) (w : W) (ph : phase) : Prop :=
  match o with Done _ => ph = Served | Failed e => open_end n tr att id w ph e | Crashed => False end.

(** The preparation of the credential just picked came back without one. *)
Definition dropped (w : W) (ph : phase) : Prop :=
  ∃ n tr att a w0 e, ph = At n tr att (Some (ID a)) JustPicked ∧ prepareRequestAuth a w0 = (None, e, w).
Lemma open_end_of n tr att id w ph e p : on n tr att id p ph → p ≠ Rested → p ≠ AwaitSuccess → open_end n tr att id w ph e.
Proof. intros H1 H2 H3. exists p. by split_and!. Qed.

Lemma wp_refresh n tr att id ph a e already w (Q : option Auth → W → phase → Prop) : ID a = id → on n tr att id AwaitReport ph →
  (∀ w' ph', on n tr att id AwaitReport ph' ∨ on n tr att id AwaitRetry ph' → Q None w' ph') →
  (∀ f w' ph', ID f = id → on n tr att id AwaitRetry ph' → Q (Some f) w' ph') →
  wp b (tryRefreshAfterUnauthorized a e already) Q w ph.
Proof.
  intros Hid Hon Q1 Q2. unfold tryRefreshAfterUnauthorized. destruct (_ || _); [wp_steps; apply Q1; by left|].
  apply wp_bind. assert (∀ w', wp b (x <- lift clock ;; (if already || negb (authHasRefreshCredential (Some a) x) || hasUnauthorizedAuthFailure (Some a)
    then ret None else say (Refreshing (ID a)) ;;; refreshed <- lift (refreshAuthForRequest (ID a) (authAccessToken (Some a))) ;;
    ret match refreshed with None => None | Some f => if negb (String.eqb (authAccessToken (Some a)) "") && String.eqb (authAccessToken (Some f)) (authAccessToken (Some a))
                     && String.eqb (RejectedAccessToken f) (authAccessToken (Some a)) then None else Some f end)) Q w' ph) as Hrest.
  { intros w'. wp_steps. destruct (_ || _); [wp_steps; apply Q1; by left|]. wp_steps.
    destruct Hon as (att' & -> & Hs). eapply wp_say; [cbn; rewrite Hid, String.eqb_refl; reflexivity|]. wp_steps.
    assert (on n tr att id AwaitRetry (At n tr att' (Some id) AwaitRetry)) as Hr by by exists att'.
    destruct a1 as [f|]; [|apply Q1; by right]. destruct (_ && _); [apply Q1; by right|]. apply Q2; [|done].
    rewrite <-Hid. by eapply refresh_same. }
  destruct (negb _); [apply wp_act|apply wp_ret]; apply Hrest.
Qed.

(** The call with its refresh: an error of the context, or the answer to the last call. *)
Lemma wp_call_refreshing n tr att id p ph count at_ m w (Q : (R + goError) * Z * attempt + goError → W → phase → Prop) :
  ID (at_auth at_) = id → fits att id → on n tr att id p ph → may_call p →
  (∀ ctx w' ph', open_end n tr att id w' ph' ctx → Q (inr ctx) w' ph') →
  (∀ r seq at' w' ph', ID (at_auth at') = id → on n tr att id AwaitSuccess ph' → Q (inl (inl r, seq, at')) w' ph') →
  (∀ e seq at' w' ph' p', ID (at_auth at') = id → may_report p' → on n tr att id p' ph' → Q (inl (inr e, seq, at')) w' ph') →
  wp b (call_refreshing count at_ m) Q w ph.
Proof.
  intros Hid Hf Hon Hp Q1 Q2 Q3. unfold call_refreshing. wp_steps. eapply wp_call; [done..|]. intros [r|e] w1 ph1 Hon1; cbn in Hon1.
  { wp_steps. by apply Q2. }
  wp_steps. destruct (context_error w1) as [ctx|] eqn:Ec; [wp_steps; apply Q1; by eapply open_end_of|].
  wp_steps. eapply wp_refresh; [done|done|..].
  - intros w2 ph2 Hon2. wp_steps. destruct Hon2; [apply (Q3 _ _ _ _ _ AwaitReport)|apply (Q3 _ _ _ _ _ AwaitRetry)]; first [exact Hid|exact Hidf|done|by left|by right].
  - intros f w2 ph2 Hidf Hon2. wp_steps. eapply wp_call; [done|done|done|by right; right|]. intros [r|e'] w3 ph3 Hon3; cbn in Hon3.
    { wp_steps. by apply Q2. }
    wp_steps. destruct (context_error w3) as [ctx|] eqn:Ec'; wp_steps; [apply Q1; by eapply open_end_of|].
    apply (Q3 _ _ _ _ _ AwaitReport); first [exact Hidf|done|by left].
Qed.

Lemma cancellation_of a e ended c : claudeOAuthRequestCancellation a e ended = Some c → (ended = Some c ∧ Is c ContextCanceled = true) ∨ e = Some c.
Proof.
  unfold claudeOAuthRequestCancellation. destruct a as [a|]; [|done]. destruct (_ || _); [done|].
  destruct ended as [ctx|]; [destruct (Is ctx ContextCanceled) eqn:E; [intros [= <-]; by left|]|]; (destruct e as [e|]; [|done]);
    (destruct (Is e ContextCanceled); [|done]); intros [= <-]; by right.
Qed.
Lemma canceled_context w ended c : context_error w = Some ended → Is ended ContextCanceled = true → c = ended → cancelled w c.
Proof.
  intros Hc Hi ->. split; [|done]. destruct (context_law w ended Hc) as [->| ->]; [done|]. by vm_compute in Hi.
Qed.

Lemma failure_report_id count compact m action e r : let '(r', _) := failure_report count compact m action e r in
  R_AuthID r' = R_AuthID r ∧ R_Success r' = R_Success r.
Proof. unfold failure_report. by destruct count; [destruct (_ && _)|]. Qed.

Lemma wp_try_model n tr att id p ph count q provider pooled at_ m w (Q : verdict * attempt → W → phase → Prop) :
  ID (at_auth at_) = id → fits att id → on n tr att id p ph → may_call p →
  (∀ o at' w' ph', over n tr att id o w' ph' → Q (Return o, at') w' ph') →
  (∀ v at' w' ph', (∃ e, v = NextModel e ∨ v = NextCredential e) → ID (at_auth at') = id → on n tr att id Idle ph' → Q (v, at') w' ph') →
  wp b (try_model count q provider pooled at_ m) Q w ph.
Proof.
  intros Hid Hf Hon Hp Q1 Q2. unfold try_model. wp_steps. destruct a as [e|].
  { wp_steps. apply Q1. cbn. eapply open_end_of; [done|by destruct Hp as [->|[->| ->]]..]. }
  wp_steps. eapply wp_call_refreshing; [done..| | |].
  - intros ctx w1 ph1 Ho. wp_steps. by apply Q1.
  - intros r seq at' w1 ph1 Hid1 Hon1. wp_steps.
    destruct (claudeOAuthRequestCancellation _ _ _) as [c|] eqn:Ec; wp_steps.
    + apply Q1. exists AwaitSuccess. split_and!; [done|done|]. intros _.
      apply cancellation_of in Ec as [[Hc Hi]|?]; [|done]. by eapply canceled_context.
    + destruct Hon1 as (att' & -> & Hs). eapply wp_say; [|wp_steps; by apply Q1].
      cbn. by rewrite Hid1, String.eqb_refl.
  - intros e seq at' w1 ph1 p' Hid1 Hp' Hon1. wp_steps.
    destruct (claudeOAuthRequestCancellation _ _ _) as [c|] eqn:Ec; wp_steps.
    + apply Q1. eapply open_end_of; [done|by destruct Hp' as [->| ->]..].
    + set (r0 := _ <| ExecutionSeq := seq |>). set (action := matchRequestScopedErrorAction _ _).
      pose proof (failure_report_id count (q_compact q) (exec_model q m) action e r0) as Hr.
      destruct (failure_report _ _ _ _ _ _) as [r neutral]. destruct Hr as [Hr1 Hr2]. wp_steps.
      destruct (advance_report n tr att id p' ph1 r neutral Hf Hon1 Hp' ltac:(by rewrite Hr1) ltac:(by rewrite Hr2)) as (ph2 & Ha & Hon2).
      eapply wp_say; [done|]. wp_steps.
      assert (open_end n tr att id (report r neutral w1) ph2 (wrapRequestStopError e) ∧ open_end n tr att id (report r neutral w1) ph2 e) as [O1 O2]
        by (split; by eapply open_end_of).
      destruct action; [destruct (isRequestScopedStop _)|destruct (request_fault _ _ _)];
        [by apply Q1|destruct (CredentialScope r); apply Q2; eauto|by apply Q1|destruct (CredentialScope r); apply Q2; eauto].
Qed.

Lemma wp_try_models n tr att id count q provider pooled models : ∀ p ph at_ authErr w
    (Q : (outcome R + option goError) * attempt → W → phase → Prop),
  ID (at_auth at_) = id → fits att id → on n tr att id p ph → p = Idle ∨ p = JustPicked →
  (∀ o at' w' ph', over n tr att id o w' ph' → Q (inl o, at') w' ph') →
  (∀ e at' w' ph' p', ID (at_auth at') = id → on n tr att id p' ph' → p' = Idle ∨ p' = JustPicked → Q (inr e, at') w' ph') →
  wp b (try_models count q provider pooled models at_ authErr) Q w ph.
Proof.
  induction models as [|m models IH]; intros p ph at_ authErr w Q Hid Hf Hon Hp Q1 Q2; cbn [try_models]; wp_steps; [by eapply Q2|].
  eapply wp_try_model; [done|done|done|destruct Hp as [->| ->]; [by left|by right; left]|..].
  - intros o at' w1 ph1 Ho. cbn [fst snd]. wp_steps. by apply Q1.
  - intros v at' w1 ph1 (e & Hv) Hid1 Hon1. destruct Hv as [->| ->]; cbn [fst snd].
    + eapply IH; [done|done|done|by left|done|done].
    + wp_steps. eapply Q2; [done|done|by left].
Qed.

(** *** One credential, one round *)

(** Between two credentials of round [n], the loop's own sets covering those of the log. *)
Definition between (n : Z) (s : round) (ph : phase) : Prop :=
  ∃ tr att cur p, ph = At n tr att cur p ∧ (p = Idle ∨ p = JustPicked) ∧ tr ⊆ tried s ∧ att ⊆ attempted s.
Definition round_over (n : Z) (o : outcome R) (w : W) (ph : phase) : Prop :=
  match o with
  | Done _ => ph = Served
  | Failed e => ∃ tr att cur p, ph = At n tr att cur p ∧ p ≠ Rested ∧ (p = AwaitSuccess → cancelled w e)
  | Crashed => dropped w ph
  end.
Lemma over_round n tr att id o w ph : over n tr att id o w ph → round_over n o w ph.
Proof. destruct o as [r|e|]; [done| |done]. intros (p & (att' & -> & _) & ?). by exists tr, att', (Some id), p. Qed.

Definition room (s : round) : Prop := 0 < b_credentials b → Z.of_nat (size (attempted s)) < b_credentials b.
Lemma room_fits s att id : room s → att ⊆ attempted s → fits att id.
Proof.
  intros Hroom Hs Hpos. specialize (Hroom Hpos). assert (size ({[id]} ∪ att) ≤ S (size (attempted s)))%nat; [|lia].
  etrans; [apply (subseteq_size _ ({[id]} ∪ attempted s)); set_solver|]. rewrite size_union_alt, size_singleton.
  apply le_n_S, subseteq_size. set_solver.
Qed.

Lemma wp_try_credential n tr att count q s a provider w (Q : outcome R + round → W → phase → Prop) :
  room s → tr ⊆ {[ID a]} ∪ tried s → att ⊆ attempted s →
  (∀ o w' ph', round_over n o w' ph' → Q (inl o) w' ph') →
  (∀ s' w' ph', tried s' = {[ID a]} ∪ tried s → between n s' ph' → Q (inr s') w' ph') →
  wp b (try_credential count q s a provider) Q w (At n tr att (Some (ID a)) JustPicked).
Proof.
  intros Hroom Htr Hatt Q1 Q2. pose proof (room_fits s att (ID a) Hroom Hatt) as Hf. unfold try_credential. wp_steps.
  destruct (prepared_models a _) as [models pooled]. destruct models as [|m0 ms].
  { wp_steps. apply Q2; [done|]. exists tr, att, (Some (ID a)), JustPicked. split_and!; [done|by right|done|done]. }
  set (models := m0 :: ms). set (s1 := s <| tried := {[ID a]} ∪ tried s |> <| attempted := {[ID a]} ∪ attempted s |>).
  change (attempted (s <| tried := {[ID a]} ∪ tried s |>)) with (attempted s). fold s1.
  assert (on n tr att (ID a) JustPicked (At n tr att (Some (ID a)) JustPicked)) as Hon by (exists att; split; [done|set_solver]).
  apply wp_bind. unfold wp at 1. destruct (prepareRequestAuth a _) as [[auth err] w1] eqn:Ep. eexists. split; [done|]. cbv beta.
  destruct auth as [c|].
  2:{ assert (round_over n Crashed w1 (At n tr att (Some (ID a)) JustPicked)) as Hdrop by (exists n, tr, att, a; do 2 eexists; by split).
      destruct err as [e|]; wp_steps; [cbn [claudeOAuthRequestCancellation]; wp_steps|]; by apply Q1. }
  pose proof (prepare_same _ _ _ _ _ Ep) as Hc. destruct err as [e|].
  - wp_steps. destruct (claudeOAuthRequestCancellation _ _ _) as [c'|]; wp_steps.
    { apply Q1. apply (over_round n tr att (ID a)). by eapply open_end_of. }
    eapply wp_say; [cbn; rewrite Hc, String.eqb_refl; cbn; rewrite (use_ok n tr att) by (done || set_solver); reflexivity|].
    wp_steps. apply Q2; [done|]. exists tr, ({[ID a]} ∪ att), None, Idle. split_and!; [done|by left|done|]. cbn. set_solver.
  - wp_steps. eapply (wp_try_models n tr att (ID a)); [exact Hc|exact Hf|exact Hon|by right|..].
    + intros o at' w2 ph2 Ho. wp_steps. apply Q1. by eapply over_round.
    + intros e at' w2 ph2 p' Hid2 Hon2 Hp'. wp_steps.
      assert (∀ x, round_over n (Failed x) w2 ph2) as O2.
      { intros; apply (over_round n tr att (ID a)); eapply open_end_of; try done; by destruct Hp' as [->| ->]. }
      assert (∀ s', tried s' = tried s1 → attempted s' = attempted s1 → Q (inr s') w2 ph2) as Hnext.
      { intros s' E1 E2. apply Q2; [done|]. destruct Hon2 as (att' & -> & Hs). exists tr, att', (Some (ID a)), p'.
        split_and!; [done|done|by rewrite E1|]. rewrite E2. cbn. set_solver. }
      destruct e as [e|]; wp_steps; [|by apply Hnext].
      destruct (matchRequestScopedErrorAction _ _) as [action|]; [destruct (isRequestScopedStop _)|destruct (request_fault _ _ _)];
        wp_steps; first [apply Q1, O2|by apply Hnext].
Qed.

Lemma wp_round_loop n count q : ∀ fuel s w ph (Q : option (outcome R) → W → phase → Prop),
  (size (ids ∖ tried s) < fuel)%nat → between n s ph →
  (∀ o w' ph', round_over n o w' ph' → Q (Some o) w' ph') →
  wp b (round_loop fuel count q (b_credentials b) s) Q w ph.
Proof.
  induction fuel as [|fuel IH]; intros s w ph Q Hfuel Hph HQ; [lia|]. cbn [round_loop].
  destruct Hph as (tr & att & cur & p & -> & Hp & Htr & Hatt).
  assert (∀ e w', round_over n (lose_round s e) w' (At n tr att cur p)) as Hup.
  { intros e w'. exists tr, att, cur, p. by destruct Hp as [->| ->]. }
  destruct (_ && _) eqn:Efull; [wp_steps; apply HQ, Hup|].
  assert (room s) as Hroom. { intros Hpos. rewrite (proj2 (Z.ltb_lt _ _) Hpos) in Efull. cbn in Efull. to_prop. lia. }
  wp_steps. destruct a as [[a provider]|e]; [|wp_steps; apply HQ, Hup].
  pose proof (pick_new _ _ _ _ _ Hw) as Hnew.
  assert (size (ids ∖ ({[ID a]} ∪ tried s)) < size (ids ∖ tried s))%nat as Hless by (apply subset_size; set_solver).
  assert (advance b (At n tr att cur p) (Picked (ID a)) = Some (At n ({[ID a]} ∪ tr) att (Some (ID a)) JustPicked)) as Ha.
  { cbn. rewrite (bool_decide_false (ID a ∈ tr)) by set_solver. by destruct Hp as [->| ->], cur. }
  wp_steps. eapply wp_say; [exact Ha|].
  wp_steps. eapply wp_try_credential; [done|set_solver|done|..].
  - intros o w2 ph2 Ho. wp_steps. by apply HQ.
  - intros s' w2 ph2 Hs' Hb. eapply IH; [rewrite Hs'; lia|done|done].
Qed.

Lemma wp_once n count fuel providers q retryRound defaultRetry w (Q : option (outcome R) → W → phase → Prop) :
  (size ids < fuel)%nat → (∀ o w' ph', round_over n o w' ph' → Q (Some o) w' ph') →
  wp b (once count fuel providers q (b_credentials b) retryRound defaultRetry) Q w (At n ∅ ∅ None Idle).
Proof.
  intros Hfuel HQ. unfold once. destruct (bool_decide _).
  { wp_steps. apply HQ. by exists ∅, ∅, None, Idle. }
  wp_steps. eapply wp_round_loop; [|by exists ∅, ∅, None, Idle; split_and!; [|left|..]|done].
  cbn. eapply Nat.le_lt_trans; [|exact Hfuel]. apply subseteq_size. set_solver.
Qed.

(** *** The rounds of a request *)

Context (p : policy).
(** The limits the surroundings keep to, and the policy's own. *)
Record bounded : Prop := {
  bd_rounds (w : W) a : Some a ∈ known_auths w → effectiveRequestRetryLimit (Some a) (requestRetry p) <= b_rounds b;
  bd_positive : 0 <= b_rounds b;
  bd_wait : b_wait b = maxRetryInterval p;
  bd_int64 : maxRetryInterval p <= MaxInt64;
  bd_draw (w : W) n : 0 < n → 0 <= draw w n < n;
  bd_credentials : b_credentials b = maxRetryCredentials p }.
Context (Hb : bounded).

Definition entering (n : Z) (ph : phase) : Prop :=
  (n = 0 ∧ ph = Fresh) ∨ (∃ tr att cur p', ph = At (n - 1) tr att cur p' ∧ p' ≠ AwaitSuccess).
Lemma advance_round n ph : 0 <= n <= b_rounds b → entering n ph → advance b ph (RoundBegins n) = Some (At n ∅ ∅ None Idle).
Proof.
  intros Hn [[-> ->]|(tr & att & cur & p' & -> & Hp')]; [done|]. cbn.
  assert (((n =? n - 1 + 1) && (n <=? b_rounds b)) = true) as E by (apply andb_true_iff; rewrite Z.eqb_eq, Z.leb_le; lia).
  by destruct p'; try done; destruct cur; rewrite E.
Qed.

Lemma wp_wait n tr att cur p' wait w (Q : option goError → W → phase → Prop) : n < b_rounds b → p' ≠ Rested → p' ≠ AwaitSuccess →
  wait <= Z.max 0 (maxRetryInterval p) →
  (∀ c w' p'', p'' ≠ AwaitSuccess → Q c w' (At n tr att cur p'')) →
  wp b (waitForCooldown wait (maxRetryInterval p)) Q w (At n tr att cur p').
Proof.
  intros Hn H1 H2 Hw HQ. unfold waitForCooldown. destruct (wait <=? 0) eqn:E; [wp_steps; by apply HQ|]. to_prop. wp_steps.
  destruct (jitter_within (draw w) wait (maxRetryInterval p) (bd_draw Hb w) E ltac:(lia)
    ltac:(pose proof (bd_int64 Hb); lia)) as (J1 & _). cbv zeta in J1.
  eapply wp_say; [|wp_steps; by apply (HQ _ _ Rested)]. cbn. rewrite (bool_decide_false (p' = Rested)) by done.
  rewrite (proj2 (Z.ltb_lt n _) Hn), (proj2 (Z.ltb_lt _ _)), (proj2 (Z.leb_le _ _)) by (rewrite ?(bd_wait Hb); lia). cbn [andb].
  by destruct p', cur.
Qed.

(** A success that is not reported yet. *)
Definition unreported (ph : phase) : Prop := ∃ n tr att cur, ph = At n tr att cur AwaitSuccess.
(** After the rounds: nothing is open but, if the context was cancelled behind a success, its report. *)
Definition rounds_over (w : W) (ph : phase) : Prop :=
  ∃ n tr att cur p', ph = At n tr att cur p' ∧ p' ≠ Rested ∧ (p' = AwaitSuccess → is_Some (context_error w)).

Lemma wp_rounds_loop count fuel providers q : (size ids < fuel)%nat → ∀ rounds n preferred w ph
    (Q : option (outcome R + goError * option goError) → W → phase → Prop),
  0 <= n <= b_rounds b → (b_rounds b - n < Z.of_nat rounds) → entering n ph →
  (∀ o w' ph', match o with Done _ => ph' = Served | Failed _ => ph' ≠ Served ∧ ph' ≠ FellBack ∧ ¬ unreported ph' | Crashed => dropped w' ph' end → Q (Some (inl o)) w' ph') →
  (∀ e w' ph', rounds_over w' ph' → Q (Some (inr e)) w' ph') →
  wp b (rounds_loop count rounds fuel p providers q n preferred) Q w ph.
Proof.
  intros Hfuel. induction rounds as [|rounds IH]; intros n preferred w ph Q Hn Hrounds Hph Q1 Q2; [lia|]. cbn [rounds_loop].
  apply wp_bind. eapply wp_say; [by apply advance_round|]. apply wp_bind, wp_listening. rewrite <-(bd_credentials Hb).
  apply wp_once; [done|]. intros o w1 ph1 Ho heard. cbv beta iota. destruct o as [r|e|]; [|destruct Ho as (tr & att & cur & p' & -> & Hp1 & Hp2)|wp_steps; by apply Q1].
  { wp_steps. by apply Q1. }
  destruct (isRequestTerminatedError e || isRequestStopError e) eqn:Estop; [|].
  { wp_steps. apply Q1. split_and!; [done|done|]. intros (n1 & tr1 & att1 & cur1 & [=]). subst p'. destruct (Hp2 eq_refl) as [-> _].
    by vm_compute in Estop. }
  wp_steps. rename w' into w2, w'0 into w3.
  assert (∀ c, context_error w1 = Some c → context_error w3 = Some c) as Hctx.
  { intros c Hc. pose proof (clock_keeps w1 c Hc) as H2. rewrite Hw in H2. pose proof (clock_keeps w2 c H2) as H3. by rewrite Hw0 in H3. }
  destruct (shouldRetryAfterErrorWithAttempted _ _ _ _ _ _ _ _ _ _) as [wait|] eqn:Es.
  - apply retry_reasons in Es as (Hreason & (x & Hx1 & _ & _ & _ & _ & _ & _ & Hx2 & _) & Hwait0 & Hwait & _).
    assert (p' ≠ AwaitSuccess) as Hp3.
    { intros E. destruct (Hp2 E) as [-> _]. destruct Hreason as (Hr & _). by vm_compute in Hr. }
    assert (n + 1 <= b_rounds b) as Hnext by (pose proof (bd_rounds Hb w3 x Hx1); cbn in Hx2; lia).
    apply wp_bind. apply wp_wait; [lia|done|done|done|]. intros c w4 p'' Hp''. destruct c as [ctx|].
    + wp_steps. apply Q1. split_and!; [done|done|]. by intros (n1 & tr1 & att1 & cur1 & [=]).
    + apply IH; [lia|lia| |done|done]. right. exists tr, att, cur, p''. split; [|done]. f_equal. lia.
  - wp_steps. apply Q2. exists n, tr, att, cur, p'. split_and!; [done|done|]. intros E. destruct (Hp2 E) as [_ Hc]. eexists. by apply Hctx.
Qed.

(** The fallback came back as [res]. *)
Definition fell_back (w : W) (res : option (R + goError)) : Prop := ∃ w0, credits_fallback w0 = (res, w).
(** What the outcome of an execution says of its run. *)
Definition ended_as (o : outcome R) (w : W) (ph : phase) : Prop :=
  match o with
  | Done r => ph = Served ∨ (ph = FellBack ∧ fell_back w (Some (inl r)))
  | Failed e => ph ≠ Served ∧ (ph = FellBack → ∃ res, fell_back w res ∧ ∀ r, res ≠ Some (inl r)) ∧ (unreported ph → context_error w = Some e)
  | Crashed => dropped w ph
  end.
Lemma wp_execute count rounds fuel providers q w :
  (size ids < fuel)%nat → b_rounds b < Z.of_nat rounds →
  wp b (execute count rounds fuel p providers q) (λ o w' ph, ∃ o', o = Some o' ∧ ended_as o' w' ph) w Fresh.
Proof.
  intros Hfuel Hrounds. unfold execute.
  destruct (bool_decide _); [wp_steps; eexists; split; [done|]; split_and!; [done|done|by intros (?&?&?&?&[=])]|]. apply wp_bind.
  apply wp_rounds_loop; [done|split; [done|apply (bd_positive Hb)]|lia|by left|..].
  - intros o w1 ph1 Ho. wp_steps. eexists. split; [done|]. destruct o as [r|e|]; [by left| |exact Ho]. destruct Ho as (H1 & H2 & H3). by split_and!.
  - intros [e preferred] w1 ph1 (n & tr & att & cur & p' & -> & Hp1 & Hp2). wp_steps.
    destruct (context_error w1) as [ctx|] eqn:Ec; [wp_steps; eexists; split; [done|]; by split_and!|].
    assert (p' ≠ AwaitSuccess) as Hp3 by (intros E; by destruct (Hp2 E)). assert (∀ w' e, unreported (At n tr att cur p') → context_error w' = Some e) as Hnot.
    { by intros ?? (n1 & tr1 & att1 & cur1 & [=]). }
    wp_steps. destruct (_ && _ && _); [|wp_steps; eexists; split; [done|]; split_and!; [done|done|apply Hnot]].
    wp_steps. eapply (wp_say _ _ _ _ _ FellBack); [cbn; rewrite (bool_decide_false (p' = Rested)) by done; by destruct p', cur|]. wp_steps.
    destruct a as [[r|e']|]; (eexists; split; [done|]); [right; split; [done|by eexists]|..];
      (split_and!; [done|intros _; eexists; split; [by eexists|done]|by intros (?&?&?&?&[=])]).
Qed.
End specs.
