(* ===== verification/ExecutionBounds.v ===== *)
(** * What every execution keeps to

    The consequences of the protocol of [ExecutionProtocol] for the log of a whole
    execution: how many rounds it has, how long it waits, whom it picks and uses in a
    round, what comes after a success. *)
From Stdlib Require Import ZArith Lia String Bool.
From stdpp Require Import prelude gmap strings.
From S2P Require Import Prelude GoStd Registry Thinking AuthTypes Errors Json Classify Availability Cooldown ExecutionResult Shard Scheduler Manager ExecErrors Retry Execution ExecutionProtocol.
Local Open Scope string_scope.
Local Open Scope list_scope.
Local Open Scope Z_scope.

(** ** What the protocol promises *)

Definition is_round_begin (e : event) : bool := match e with RoundBegins _ => true | _ => false end.
Definition is_success (e : event) : bool := match e with Called _ _ true => true | _ => false end.
Definition is_call (e : event) : bool := match e with Called _ _ _ => true | _ => false end.
Definition rounds_of (l : list event) : Z := Z.of_nat (length (filter (λ e, is_round_begin e = true) l)).
Definition waited (l : list event) : Z := zsum (λ e, match e with Waited d => d | _ => 0 end) l.

(** The rounds and the waits a phase has left. *)
Definition rounds_left (b : allowance) (ph : phase) : Z :=
  match ph with Fresh => b_rounds b + 1 | At n _ _ _ _ => b_rounds b - n | _ => 0 end.
Definition waits_left (b : allowance) (ph : phase) : Z :=
  match ph with
  | Fresh => b_rounds b
  | At n _ _ _ p => if bool_decide (p = Rested) then b_rounds b - n - 1 else b_rounds b - n
  | _ => 0
  end.
Definition phase_ok (b : allowance) (ph : phase) : Prop :=
  match ph with At n _ _ _ p => 0 <= n <= b_rounds b ∧ (p = Rested → n < b_rounds b) | _ => 0 <= b_rounds b end.

(** No more credentials are used in a round than the limit, when there is one. *)
Definition within_limit (b : allowance) (used : gset string) : Prop := 0 < b_credentials b → Z.of_nat (size used) <= b_credentials b.
Lemma use_inv b n tr att id p ph : use b n tr att id p = Some ph → ph = At n tr ({[id]} ∪ att) (Some id) p ∧ within_limit b ({[id]} ∪ att).
Proof.
  unfold use. destruct (_ && _) eqn:E; [done|]. intros [= <-]. split; [done|]. intros H. rewrite (proj2 (Z.ltb_lt _ _) H) in E. cbn in E. by to_prop.
Qed.

(** The steps of the protocol, one goal for each. *)
Ltac advance_cases ph e cur p :=
  destruct ph as [|n tr att cur p| |];
    [destruct e as [m|i|i mo ok|i|r neutral|d|]; try done; cbn
    |destruct p, cur as [id|], e as [m|i|i mo ok|i|r neutral|d|]; cbn; try done|done|done];
  repeat match goal with
    | |- (if ?c then _ else _) = Some _ → _ => destruct c eqn:?; try done
    | |- context [use ?b ?n ?tr ?att ?id ?p] => destruct (use b n tr att id p) as [?|] eqn:?Hu; cbn; [apply use_inv in Hu as [-> Hlim]|done]
    end; intros [= <-]; to_prop; cbn.

(** The shape of a step. *)
Lemma advance_shape b ph e ph' : advance b ph e = Some ph' →
  match ph' with
  | Fresh => False
  | At n' _ _ _ p' =>
      match e with
      | RoundBegins m => m = n' ∧ p' = Idle ∧ ((ph = Fresh ∧ n' = 0) ∨ (∃ n tr att cur p, ph = At n tr att cur p ∧ p ≠ AwaitSuccess ∧ n' = n + 1 ∧ n' <= b_rounds b))
      | _ => ∃ tr att cur p, ph = At n' tr att cur p ∧ p ≠ AwaitSuccess
          ∧ match e with Waited d => p ≠ Rested ∧ p' = Rested ∧ n' < b_rounds b ∧ 0 < d <= b_wait b | _ => p ≠ Rested ∧ p' ≠ Rested end
          ∧ (p' = AwaitSuccess ↔ is_success e = true)
      end
  | Served => ∃ n tr att id r, ph = At n tr att (Some id) AwaitSuccess ∧ e = Reported r false ∧ R_AuthID r = id ∧ R_Success r = true
  | FellBack => e = Fallback ∧ ∃ n tr att cur p, ph = At n tr att cur p ∧ p ≠ AwaitSuccess
  end.
Proof.
  advance_cases ph e cur p.
  all: repeat match goal with ok : bool |- _ => destruct ok end.
  all: first
    [ solve [split_and!; [first [reflexivity|assumption]|reflexivity|left; split; reflexivity]]
    | solve [split_and!; [reflexivity|reflexivity|right; do 5 eexists; split_and!; [reflexivity|discriminate|lia|lia]]]
    | solve [do 4 eexists; split; [reflexivity|]; split; [discriminate|];
        split; [split_and!; first [discriminate|reflexivity|lia]|split; first [discriminate|reflexivity|intros [=]]]]
    | solve [split; [reflexivity|]; do 5 eexists; split; [reflexivity|discriminate]]
    | discriminate
    | solve [do 5 eexists; split_and!; first [reflexivity|eassumption]] ].
Qed.

(** ** Rounds and waits *)

Definition of_round (e : event) : Z := if is_round_begin e then 1 else 0.
Lemma rounds_of_cons e l : rounds_of (e :: l) = of_round e + rounds_of l.
Proof. unfold rounds_of, of_round. rewrite filter_cons. destruct (is_round_begin e); [rewrite decide_True by done; cbn [length]; lia|by rewrite decide_False]. Qed.
Definition of_wait (e : event) : duration := match e with Waited d => d | _ => 0 end.
Lemma waited_cons e l : waited (e :: l) = of_wait e + waited l.
Proof. done. Qed.

(** A step uses up what it takes of the rounds and the waits. *)
Lemma advance_spends b ph e ph' : 0 <= b_wait b → phase_ok b ph → advance b ph e = Some ph' →
  phase_ok b ph' ∧ of_round e + rounds_left b ph' <= rounds_left b ph
  ∧ of_wait e + b_wait b * waits_left b ph' <= b_wait b * waits_left b ph.
Proof.
  intros Hw Hok H%advance_shape. destruct ph' as [|n' tr' att' cur' p'| |]; [done|..].
  - destruct e as [m|i|i mo ok|i|r neutral|d|].
    1: { destruct H as (-> & -> & [[-> ->]|(n & tr & att & cur & p & -> & Hp & -> & Hn)]); cbn in *; rewrite (bool_decide_false (Idle = Rested)) by done;
         [split_and!; try done; nia|].
         destruct Hok as [Hok Hr]. case_bool_decide as E; [specialize (Hr E)|]; split_and!; try done; nia. }
    all: destruct H as (tr & att & cur & p & -> & Hp & Hs & _); cbn in *; destruct Hok as [Hok Hr].
    5: { destruct Hs as (H1 & -> & H2 & H3). rewrite (bool_decide_false (p = Rested)), bool_decide_true by done. split_and!; try done; nia. }
    all: destruct Hs as [H1 H2]; rewrite !bool_decide_false by done; split_and!; try done; cbn; lia.
  - destruct H as (n & tr & att & id & r & -> & -> & _). cbn in *. destruct Hok as [Hok _]. rewrite bool_decide_false by done. split_and!; nia.
  - destruct H as (-> & n & tr & att & cur & p & -> & Hp). cbn in *. destruct Hok as [Hok Hr].
    case_bool_decide as E; [specialize (Hr E)|]; split_and!; nia.
Qed.
Lemma follow_spends b l : ∀ ph ph', 0 <= b_wait b → phase_ok b ph → follow b ph l = Some ph' →
  phase_ok b ph' ∧ rounds_of l + rounds_left b ph' <= rounds_left b ph
  ∧ waited l + b_wait b * waits_left b ph' <= b_wait b * waits_left b ph.
Proof.
  induction l as [|e l IH]; intros ph ph' Hw Hok; cbn [follow]; [intros [= <-]; change (rounds_of []) with 0; change (waited []) with 0; split_and!; [done|lia|lia]|].
  destruct (advance b ph e) as [ph1|] eqn:E; [|done]. intros H.
  destruct (advance_spends b ph e ph1 Hw Hok E) as (H1 & H2 & H3). destruct (IH ph1 ph' Hw H1 H) as (H4 & H5 & H6).
  rewrite rounds_of_cons, waited_cons. split_and!; [done|lia|lia].
Qed.
Lemma phase_ok_left b ph : 0 <= b_wait b → phase_ok b ph → 0 <= rounds_left b ph ∧ 0 <= b_wait b * waits_left b ph.
Proof.
  intros Hw. destruct ph as [|n tr att cur p| |]; cbn; [nia| |lia|lia]. intros [Hn Hr]. split; [lia|].
  case_bool_decide as E; [specialize (Hr E)|]; nia.
Qed.

(** ** Whom a round picks and uses *)

Definition picks (l : list event) : list string := omap (λ e, match e with Picked id => Some id | _ => None end) l.
(** A credential is used when it is called or, not ready, reported. *)
Definition uses (l : list event) : list string :=
  omap (λ e, match e with Called id _ _ => Some id | Reported r _ => Some (R_AuthID r) | _ => None end) l.
Definition tried_of (ph : phase) : gset string := match ph with At _ tr _ _ _ => tr | _ => ∅ end.
Definition used_of (ph : phase) : gset string := match ph with At _ _ att _ _ => att | _ => ∅ end.
Definition keeps (b : allowance) (ph : phase) : Prop :=
  within_limit b (used_of ph) ∧ (∀ n tr att cur, ph = At n tr att cur AwaitSuccess → ∃ id, cur = Some id ∧ id ∈ att).

Lemma within_nothing b : within_limit b ∅.
Proof. intros H. rewrite size_empty. lia. Qed.
Lemma advance_sets b ph e ph' : keeps b ph → advance b ph e = Some ph' →
  keeps b ph' ∧ (is_round_begin e = false →
    (∀ id, e = Picked id → id ∉ tried_of ph)
    ∧ match ph' with
      | Fresh => False
      | At _ tr' att' _ _ => tr' = list_to_set (picks [e]) ∪ tried_of ph ∧ used_of ph ⊆ att' ∧ list_to_set (uses [e]) ⊆ att'
      | _ => list_to_set (uses [e]) ⊆ used_of ph
      end).
Proof.
  intros [Hk1 Hk2]. unfold keeps. advance_cases ph e cur p.
  all: repeat match goal with ok : bool |- _ => destruct ok end; try discriminate.
  all: split; [split; [first [assumption|apply within_nothing]|intros ???? [=]; subst; (eexists; split; [reflexivity|set_solver])]|].
  all: intros Hround; try discriminate Hround; (split; [intros ? [=]; subst; by eapply bool_decide_eq_false_1|]).
  all: first
    [ split_and!; [apply set_eq; set_solver|set_solver|set_solver]
    | destruct (Hk2 _ _ _ _ eq_refl) as (? & [=] & ?); set_solver
    | set_solver ].
Qed.

Lemma picks_cons e l : picks (e :: l) = picks [e] ++ picks l.
Proof. by destruct e. Qed.
Lemma uses_cons e l : uses (e :: l) = uses [e] ++ uses l.
Proof. by destruct e. Qed.
Lemma follow_keeps b l : ∀ ph ph', keeps b ph → follow b ph l = Some ph' → keeps b ph'.
Proof.
  induction l as [|e l IH]; intros ph ph' Hk; cbn [follow]; [by intros [= <-]|].
  destruct (advance b ph e) as [ph1|] eqn:E; [|done]. apply IH. by apply (advance_sets b ph e).
Qed.
Lemma follow_round b l : ∀ ph ph', keeps b ph → follow b ph l = Some ph' → Forall (λ e, is_round_begin e = false) l →
  NoDup (picks l) ∧ (∀ id, id ∈ picks l → id ∉ tried_of ph)
  ∧ ∃ used, used_of ph ⊆ used ∧ list_to_set (uses l) ⊆ used ∧ within_limit b used.
Proof.
  induction l as [|e l IH]; intros ph ph' Hk; cbn [follow].
  { intros _ _. split_and!; [constructor|by intros id ?%elem_of_nil|]. exists (used_of ph). split_and!; [done|set_solver|apply Hk]. }
  destruct (advance b ph e) as [ph1|] eqn:E; [|done]. intros H [He Hl]%Forall_cons.
  destruct (advance_sets b ph e ph1 Hk E) as [Hk1 Hs]. destruct (Hs He) as [Hnew Hs1]. clear Hs.
  destruct (IH ph1 ph' Hk1 H Hl) as (H1 & H2 & used & U1 & U2 & U3). rewrite picks_cons, uses_cons, list_to_set_app_L.
  pose proof (advance_shape b ph e ph1 E) as Hshape. destruct ph1 as [|n tr att cur p| |]; [done| |destruct l as [|[] l]; [|done..]..].
  2: destruct Hshape as (n & tr & att & id & r & _ & -> & _).
  3: destruct Hshape as (-> & _).
  2,3: cbn in Hs1 |- *; split_and!; [constructor|by intros ? ?%elem_of_nil|exists (used_of ph)]; split_and!; [done|set_solver|apply Hk].
  destruct Hs1 as (-> & S1 & S2). cbn in H2, U1. split_and!.
  - destruct e; try done. cbn. constructor; [|done]. intros Hin. apply (H2 _ Hin). set_solver.
  - intros id [Hid|Hid]%elem_of_app; [|specialize (H2 _ Hid); set_solver].
    destruct e; try by apply elem_of_nil in Hid. cbn in Hid. apply list_elem_of_singleton in Hid as ->. by apply Hnew.
  - exists used. split_and!; [set_solver|set_solver|done].
Qed.

Lemma success_shape b ph id m ph' : advance b ph (Called id m true) = Some ph' → ∃ n tr att, ph' = At n tr att (Some id) AwaitSuccess.
Proof.
  destruct ph as [|n tr att cur p| |]; try done. destruct p, cur as [i|]; cbn; try done.
  all: destruct (String.eqb_spec id i); cbn; [subst|done]. all: intros [-> _]%use_inv; by eexists _, _, _.
Qed.
Lemma follow_unreported b ph l id m ph' : follow b ph (l ++ [Called id m true]) = Some ph' → unreported ph'.
Proof.
  rewrite follow_app. destruct (follow b ph l) as [ph1|]; [|done]. cbn. destruct (advance b ph1 _) as [ph2|] eqn:E; [|done].
  apply success_shape in E as (n & tr & att & ->). intros [= <-]. by exists n, tr, att, (Some id).
Qed.
Lemma follow_served b ph l e r ph' : follow b ph (l ++ [e; Reported r false]) = Some ph' → R_Success r = true → ph' = Served.
Proof.
  rewrite follow_app. destruct (follow b ph l) as [ph1|]; [|done]. cbn. destruct (advance b ph1 e) as [ph2|]; [|done].
  destruct (advance b ph2 _) as [ph3|] eqn:E; [|done]. intros [= <-] Hr.
  pose proof (advance_shape _ _ _ _ E) as H. destruct ph3; [done| |done|by destruct H].
  revert E. destruct ph2 as [|? ? ? cur1 p1| |]; try done. destruct p1, cur1; cbn; rewrite ?Hr, ?andb_false_r; try done. by destruct (_ && _).
Qed.
(** After a success there is room for its report only. *)
Lemma follow_success b ph l1 id m l2 ph' : follow b ph (l1 ++ Called id m true :: l2) = Some ph' →
  l2 = [] ∨ ∃ r, l2 = [Reported r false] ∧ R_AuthID r = id ∧ R_Success r = true.
Proof.
  rewrite follow_app. destruct (follow b ph l1) as [ph1|]; [|done]. cbn.
  destruct (advance b ph1 _) as [ph2|] eqn:E; [|done].
  apply success_shape in E as (n & tr & att & ->).
  destruct l2 as [|e l2]; [by left|]. cbn [follow]. intros H. right.
  destruct e as [m'|i|i mo ok|i|r neutral|d|]; try done. cbn in H.
  destruct (String.eqb_spec (R_AuthID r) id); [|done]. destruct (R_Success r) eqn:Er; [|done]. destruct neutral; [done|]. cbn in H.
  destruct l2 as [|[] l2]; [by exists r|done..].
Qed.

(** ** The claims *)

Section claims.
Context {gh : GoHost} {gj : Gjson} {st : Settings} {aliases : ModelAliases} {rx : Regexp}.
Context {W R : Type} {sur : Surroundings W R} {ids : gset string} {Hl : Lawful (sur := sur) ids}.
Context (b : allowance) (p : policy) (Hb : bounded b p).
Context (rounds fuel : nat) (Hfuel : (size ids < fuel)%nat) (Hrounds : b_rounds b < Z.of_nat rounds).

(** An execution ends, its log a run of the protocol, its outcome what the run ended with. *)
Lemma execute_run count providers q (w : W) : ∃ o w' l ph, execute count rounds fuel p providers q w = (Some o, w', l)
  ∧ follow b Fresh l = Some ph
  ∧ ended_as o w' ph.
Proof.
  pose proof (wp_execute b p Hb count rounds fuel providers q w Hfuel Hrounds) as H. unfold wp in H.
  destruct (execute count rounds fuel p providers q w) as [[o w'] l]. destruct H as (ph & H1 & o' & -> & H2). by exists o', w', l, ph.
Qed.
Lemma run_of count providers q (w : W) o w' l : execute count rounds fuel p providers q w = (o, w', l) →
  ∃ o' ph, o = Some o' ∧ follow b Fresh l = Some ph
  ∧ ended_as o' w' ph.
Proof. destruct (execute_run count providers q w) as (o' & w1 & l1 & ph & -> & H). intros [= <- <- <-]. by exists o', ph. Qed.


(** C28: A success ends the execution.  After a call that succeeded there is nothing in the
    log but its one report, a success of the same credential, and the execution answers
    with a response; unless the context ended meanwhile: then nothing is reported, and the
    execution fails with the error of the context.  (The surroundings are those of
    [execution_protocol]: [Lawful].) *)
Theorem success_is_last count providers q (w : W) o w' l l1 id m l2 :
  execute count rounds fuel p providers q w = (o, w', l) → l = l1 ++ Called id m true :: l2 →
  (∃ r resp, l2 = [Reported r false] ∧ R_AuthID r = id ∧ R_Success r = true ∧ o = Some (Done resp))
  ∨ (∃ e, l2 = [] ∧ o = Some (Failed e) ∧ context_error w' = Some e).
Proof.
  intros (o' & ph & -> & Hrun & Ho)%run_of ->. pose proof (follow_success _ _ _ _ _ _ _ Hrun) as [->|(r & -> & Hr1 & Hr2)].
  - right. apply follow_unreported in Hrun. destruct o' as [resp|e|]; [|destruct Ho as (_ & _ & Ho); by exists e; auto|].
    + destruct Hrun as (?&?&?&?&->). by destruct Ho as [?|[? _]].
    + destruct Hrun as (?&?&?&?&->). by destruct Ho as (?&?&?&?&?&?&[=]&_).
  - left. apply follow_served in Hrun; [subst ph|exact Hr2]. destruct o' as [resp|e|]; [by exists r, resp|by destruct Ho|by destruct Ho as (?&?&?&?&?&?&[=]&_)].
Qed.

(** C29: An execution has at most one round more than the retries allowed, waits no longer
    than the longest wait for each of them, and within a round picks every credential at
    most once and uses no more of them than the limit on credentials, when one is set.  (The
    surroundings are those of [execution_protocol]: [Lawful]; in particular the picker honours
    the set of credentials tried.) *)
Theorem execution_bounds count providers q (w : W) o w' l :
  execute count rounds fuel p providers q w = (o, w', l) → 0 <= maxRetryInterval p →
  rounds_of l <= b_rounds b + 1 ∧ waited l <= b_rounds b * maxRetryInterval p
  ∧ ∀ l1 seg l2, l = l1 ++ seg ++ l2 → Forall (λ e, is_round_begin e = false) seg →
      NoDup (picks seg) ∧ (0 < maxRetryCredentials p → Z.of_nat (size (list_to_set (uses seg) : gset string)) <= maxRetryCredentials p).
Proof.
  intros (o' & ph & -> & Hrun & _)%run_of Hwait. rewrite <-(bd_wait _ _ Hb), <-(bd_credentials _ _ Hb) in *.
  destruct (follow_spends b l Fresh ph Hwait (bd_positive _ _ Hb) Hrun) as (Hok & H1 & H2).
  destruct (phase_ok_left b ph Hwait Hok) as [H3 H4]. cbn in H1, H2. split_and!; [lia|nia|]. intros l1 seg l2 -> Hseg.
  rewrite follow_app in Hrun. destruct (follow b Fresh l1) as [ph1|] eqn:E1; [|done]. cbn in Hrun. rewrite follow_app in Hrun.
  destruct (follow b ph1 seg) as [ph2|] eqn:E2; [|done].
  assert (keeps b Fresh) as Hk by (split; [apply within_nothing|done]).
  destruct (follow_round b seg ph1 ph2 (follow_keeps b l1 _ _ Hk E1) E2 Hseg) as (N1 & _ & used & _ & U1 & U2). split; [done|].
  intros Hpos. specialize (U2 Hpos). apply subseteq_size in U1. lia.
Qed.
End claims.
