(* ===== verification/ExecutionExample.v ===== *)
(** * A small world to execute requests in

    Two credentials that offer a model, answers scripted in advance: the surroundings on
    which the theorems about executions are evaluated, and the execution that ends in a
    nil dereference. *)
From Stdlib Require Import ZArith Lia String Bool.
From stdpp Require Import prelude gmap strings.
From S2P Require Import Prelude GoStd Registry RegistryExample Thinking AuthTypes Errors Json Classify Availability Cooldown ExecutionResult Shard Scheduler Manager ExecErrors Retry Execution ExecutionProtocol ExecutionBounds.
Local Open Scope string_scope.
Local Open Scope list_scope.
Local Open Scope Z_scope.

#[local] Instance host : GoHost := no_host.
#[local] Instance gjson : Gjson := no_gjson.
#[local] Instance settings : Settings := default_settings.
#[local] Instance aliases : ModelAliases := no_aliases.
#[local] Instance no_regexp : Regexp := {| regexp_match := λ _ _, false |}.

(** What is still to be answered, and whether the context has ended. *)
Record script := mkScript { answers : list (string + goError); ended : bool }.
Definition creds : list Auth := [simpleAuth "a" "openai"; simpleAuth "b" "openai"].
Definition cred_ids : gset string := list_to_set (ID <$> creds).
Definition status_error (status : Z) : goError := mkErr ((plain "upstream") <| n_StatusCode := Some status |>) [].

(** [ready] prepares; an answer [EOF] ends the context behind a success. *)
Definition scripted (ready : Auth → option Auth * option goError) (ends : bool) : Surroundings script string := {|
  pickNextMixed tr w := (match find (λ a, negb (bool_decide (ID a ∈ tr))) creds with
                         | Some a => inl (a, Provider a) | None => inr no_auth_available end, w);
  RecordRoutingSelection _ w := w;
  prepared_models _ _ := (["gpt"], false);
  prepareRequestAuth a w := (ready a, w);
  Execution.stateModelForExecution _ m _ _ := m;
  intercept _ _ w := (None, w);
  next_seq w := (1, w);
  call _ _ _ w := match answers w with
                  | x :: l => (x, true, mkScript l (ended w || ends))
                  | [] => (inr (status_error 503), true, w) end;
  context_error w := if ended w then Some (of_sentinel ContextCanceled) else None;
  markRejectedAccessToken _ _ w := w;
  refreshAuthForRequest _ _ w := (None, w);
  rules_for _ _ := [];
  report _ _ w := w;
  clock w := (10, w);
  known_auths _ := Some <$> creds;
  w_models _ := sample;
  pause _ w := (None, w);
  draw _ n := n - 1;
  credits _ := false;
  credits_fallback w := (None, w) |}.
Definition as_is (a : Auth) : option Auth * option goError := (Some a, None).

Lemma scripted_lawful ready ends : (∀ a b, (ready a).1 = Some b → ID b = ID a) → Lawful (sur := scripted ready ends) cred_ids.
Proof.
  intros Hready. split.
  - intros tr w a pr w'. cbn [pickNextMixed scripted]. destruct (find (λ a, negb (bool_decide (ID a ∈ tr))) creds) as [x|] eqn:E; [|done]. intros [= -> <- <-].
    apply find_some in E as [H1 H2]. apply negb_true_iff, bool_decide_eq_false in H2. apply elem_of_difference. split; [|done].
    unfold cred_ids. rewrite elem_of_list_to_set, list_elem_of_fmap. exists a. split; [done|]. by apply list_elem_of_In.
  - intros a w auth e w'. cbn. specialize (Hready a auth). destruct (ready a) as [x y]. intros [= -> _ _]. by apply Hready.
  - intros id t w f w'. by cbn.
  - intros w e. cbn. destruct (ended w); [|done]. intros [= <-]. by left.
  - intros w e. by cbn.
Qed.

Definition sample_policy : policy := mkPolicy 1 2 (30 * Second) (mkEligibility "" "" false) "".
Definition sample_allowance : allowance := mkAllowance 1 (30 * Second) 2.
Definition ask_gpt : execRequest := mkExecRequest "gpt" [] false.

Lemma sample_bounded ready ends : bounded (sur := scripted ready ends) sample_allowance sample_policy.
Proof.
  split; try done.
  - intros w a Hin. cbn in Hin. apply list_elem_of_In in Hin. destruct Hin as [[= <-]|[[= <-]|[]]]; vm_compute; discriminate.
  - intros w n Hn. cbn. lia.
Qed.

Definition run (ends : bool) (l : list (string + goError)) : option (outcome string) * script * list event :=
  execute (sur := scripted as_is ends) false 2 3 sample_policy ["OpenAI"; "openai "] ask_gpt (mkScript l false).
Definition brief (e : event) : string :=
  match e with
  | RoundBegins _ => "round" | Picked id => "pick " ++ id | Called id _ ok => "call " ++ id ++ (if ok then " ok" else " fails")
  | Refreshing id => "refresh " ++ id | Reported r _ => "report " ++ R_AuthID r | Waited _ => "wait" | Fallback => "fallback"
  end%string.
(** A rate limit moves the request to the other credential; when both are limited, it waits. *)
Example second_credential : (λ r, (r.1.1, brief <$> r.2)) (run false [inr (status_error 429); inl "yes"])
  = (Some (Done "yes"), ["round"; "pick a"; "call a fails"; "report a"; "pick b"; "call b ok"; "report b"]).
Proof. vm_compute. reflexivity. Qed.
Example second_round : (λ r, (r.1.1, brief <$> r.2)) (run false [inr (status_error 429); inr (status_error 429); inl "yes"])
  = (Some (Done "yes"), ["round"; "pick a"; "call a fails"; "report a"; "pick b"; "call b fails"; "report b"; "wait"; "round";
                         "pick a"; "call a ok"; "report a"]).
Proof. vm_compute. reflexivity. Qed.
Example unauthorized : (λ r, brief <$> r.2) (run false [inr (status_error 400)]) = ["round"; "pick a"; "call a fails"; "report a"].
Proof. vm_compute. reflexivity. Qed.

(** ** The theorems on this world *)

Lemma as_is_lawful ends : Lawful (sur := scripted as_is ends) cred_ids.
Proof. apply scripted_lawful. by intros a b [= <-]. Qed.

Lemma sample_fuel : (size cred_ids < 3)%nat.
Proof. vm_compute. lia. Qed.
Definition limited_then_served : list (string + goError) := [inr (status_error 429); inl "yes"].


(** Of the log, what comes before the success and what after. *)
Definition split_success (l : list event) : list event * list event :=
  let n := default 0%nat (list_find (λ e, is_success e = true) l ≫= λ e, Some e.1) in (take n l, drop (S n) l).
Lemma success_is_last_witness :
  let '(o, w', l) := run false limited_then_served in let '(l1, l2) := split_success l in
  l = l1 ++ Called "b" "gpt" true :: l2
  ∧ ((∃ r resp, l2 = [Reported r false] ∧ R_AuthID r = "b" ∧ R_Success r = true ∧ o = Some (Done resp))
     ∨ (∃ e, l2 = [] ∧ o = Some (Failed e) ∧ context_error (Surroundings := scripted as_is false) w' = Some e)).
Proof.
  destruct (run false limited_then_served) as [[o w'] l] eqn:E. destruct (split_success l) as [l1 l2] eqn:El.
  assert (l = l1 ++ Called "b" "gpt" true :: l2) as Hsplit.
  { vm_compute in E. injection E as <- <- <-. vm_compute in El. injection El as <- <-. vm_compute. reflexivity. }
  split; [exact Hsplit|].
  exact (success_is_last (sur := scripted as_is false) (Hl := as_is_lawful false) sample_allowance sample_policy
    (sample_bounded as_is false) 2 3 sample_fuel (eq_refl : b_rounds sample_allowance < Z.of_nat 2) false ["OpenAI"; "openai "] ask_gpt
    (mkScript limited_then_served false) o w' l l1 "b" "gpt" l2 E Hsplit).
Defined.

Definition limited_twice : list (string + goError) := [inr (status_error 429); inr (status_error 429); inl "yes"].
Lemma execution_bounds_witness :
  let '(_, _, l) := run false limited_twice in
  rounds_of l = 2 ∧ waited l = 12 * Second - 1
  ∧ rounds_of l <= b_rounds sample_allowance + 1 ∧ waited l <= b_rounds sample_allowance * maxRetryInterval sample_policy
  ∧ ∀ l1 seg l2, l = l1 ++ seg ++ l2 → Forall (λ e, is_round_begin e = false) seg →
      NoDup (picks seg) ∧ (0 < maxRetryCredentials sample_policy →
        Z.of_nat (size (list_to_set (uses seg) : gset string)) <= maxRetryCredentials sample_policy).
Proof.
  destruct (run false limited_twice) as [[o w'] l] eqn:E.
  assert (rounds_of l = 2 ∧ waited l = 12 * Second - 1) as [Hr Hw].
  { vm_compute in E. injection E as <- <- <-. split; vm_compute; reflexivity. }
  split; [exact Hr|]. split; [exact Hw|].
  assert (0 <= maxRetryInterval sample_policy) as Hwait by (unfold sample_policy, maxRetryInterval, Second; lia).
  pose proof (execution_bounds (sur := scripted as_is false) (Hl := as_is_lawful false) sample_allowance sample_policy
    (sample_bounded as_is false) 2 3 sample_fuel (eq_refl : b_rounds sample_allowance < Z.of_nat 2) false ["OpenAI"; "openai "] ask_gpt
    (mkScript limited_twice false) o w' l) as H.
  specialize (H E).
  exact (H Hwait).
Defined.

(** A rate limit on credential [a], that was tried: the other is free at once. *)
Definition asking_gpt : asking := mkAsking sample ["openai"] "gpt" 0 (mkEligibility "" "" false) "" 1.
Lemma retry_granted_witness :
  shouldRetryAfterErrorWithAttempted false 1 asking_gpt (Some <$> creds) (status_error 429) (30 * Second) (-1) {["a"; "b"]} 10 10
    = Some minQuotaCooldownFloor
  ∧ 0 <= minQuotaCooldownFloor ∧ minQuotaCooldownFloor <= Z.max 0 (30 * Second).
Proof.
  assert (shouldRetryAfterErrorWithAttempted false 1 asking_gpt (Some <$> creds) (status_error 429) (30 * Second) (-1) {["a"; "b"]} 10 10
    = Some minQuotaCooldownFloor) as H by (vm_compute; reflexivity).
  destruct (retry_granted 1 asking_gpt (Some <$> creds) (status_error 429) (30 * Second) (-1) {["a"; "b"]} 10 10 _ H)
    as (_ & _ & H0 & H1 & _).
  split; [exact H|]. split; [exact H0|exact H1].
Defined.

Lemma jitter_bounds_witness : let w := jitteredCooldownWait (λ n, n - 1) (10 * Second) (11 * Second) in
  w = 11 * Second - 1 ∧ 10 * Second <= w <= 11 * Second ∧ (w - 10 * Second) * 4 <= 10 * Second ∧ w - 10 * Second <= 2 * Second ∧ is_int64 w.
Proof.
  split; [vm_compute; reflexivity|]. apply (jitter_bounds (λ n, n - 1) (10 * Second) (11 * Second)); unfold Second, MaxInt64; lia.
Defined.

(** A limit of the upstream's: marked and stopped, it is the same limit. *)
Lemma markers_come_off_witness : let e := status_error 429 in
  unwrapExecutionBoundaryError (wrapRequestStopError (markUpstreamExecutionAttempt e)) = e
  ∧ reading (markUpstreamExecutionAttempt e) = reading e.
Proof.
  destruct (markers_come_off (status_error 429)) as (H1 & _ & _ & _ & _ & _ & H2).
  split; [apply H2; vm_compute; reflexivity|exact H1].
Defined.
Lemma report_agrees_witness : E_HTTPStatus (resultErrorFromError (status_error 429)) = 429
  ∧ shouldSkipCredentialCooldown (Some (resultErrorFromError (status_error 429))) = false.
Proof.
  destruct (report_agrees (status_error 429)) as [_ H].
  apply H; [apply (bool_decide_unpack _); vm_compute; exact I|vm_compute; reflexivity| |vm_compute; reflexivity].
  intros a Ha. vm_compute in Ha. discriminate Ha.
Defined.

(** ** A credential that changed while it was prepared *)

(** The executor prepares credential [a]; meanwhile it is registered anew. *)
Definition stale_epoch : goError := mkErr (plain "update auth a: stale registration epoch 1 != 2") [].
Definition overtaken : RequestAuthPreparer := {|
  ShouldPrepareRequestAuth _ := true; PrepareAuth a := (Some a, None); UpdatePreparedAuth _ _ := (None, Some stale_epoch) |}.
Theorem prepared_nil_crashes : ∃ w' l,
  executeMixedOnce (sur := scripted (λ a, PrepareRequestAuth (Some overtaken) (Some a) a) false) 3 ["openai"] ask_gpt 2 0 1
    (mkScript [] false) = (Some Crashed, w', l).
Proof. do 2 eexists. vm_compute. reflexivity. Qed.
