(* ===== verification/Metadata.v ===== *)
(** * The metadata of a credential: keys, values, refresh patches

    Models [metadata_keys.go], the key tests of [metadata_merge.go] and
    [internal/auth/codex/refresh_patch.go], with [reflect.DeepEqual] on metadata values.

    A map is the list of its entries, without two of one key ([keyed]).  Values are not
    shared: what the code copies ([cloneStringAnyMap]) is the value itself. *)
From Stdlib Require Import ZArith Lia String Bool.
From stdpp Require Import prelude gmap strings.
From S2P Require Import Prelude GoStd AuthTypes Weight.
Local Open Scope string_scope.
Local Open Scope list_scope.
Local Open Scope Z_scope.

(** ** Maps *)

(** [delete(m, k)] *)
Definition gomap_delete (k : string) (m : gomap) : gomap := filter (λ kv, kv.1 ≠ k) m.
Definition keyed {A} (m : list (string * A)) : Prop := NoDup m.*1.

Lemma assoc_filter {A} (P : string → Prop) `{∀ k, Decision (P k)} k (m : list (string * A)) :
  assoc k (filter (λ kv, P kv.1) m) = if decide (P k) then assoc k m else None.
Proof.
  induction m as [|[k' v] m IH]; cbn [assoc]; [by destruct (decide _)|]. rewrite filter_cons. cbn [fst].
  destruct (decide (P k')) as [Hk'|Hk']; cbn [assoc]; destruct (String.eqb_spec k k') as [<-|].
  - by rewrite decide_True.
  - done.
  - rewrite IH. by rewrite !decide_False.
  - done.
Qed.
Lemma assoc_delete k k' m : assoc k' (gomap_delete k m) = if String.eqb k' k then None else assoc k' m.
Proof.
  pose proof (assoc_filter (λ x, x ≠ k) k' m) as H. etrans; [exact H|]. clear H. destruct (String.eqb_spec k' k) as [->|]; [by rewrite decide_False by tauto|by rewrite decide_True].
Qed.
Lemma assoc_set k v k' m : assoc k' (gomap_set k v m) = if String.eqb k' k then Some v else assoc k' m.
Proof.
  unfold gomap_set. cbn. destruct (String.eqb_spec k' k) as [->|]; [done|].
  pose proof (assoc_filter (λ x, x ≠ k) k' m) as H. etrans; [exact H|]. clear H. by rewrite decide_True.
Qed.
Lemma assoc_notin {A} k (m : list (string * A)) : k ∉ m.*1 ↔ assoc k m = None.
Proof.
  induction m as [|[k' v] m IH]; cbn; [split; [done|set_solver]|]. rewrite not_elem_of_cons, IH.
  destruct (String.eqb_spec k k') as [->|]; [split; [by intros []|done]|by split; [intros []|]].
Qed.
Lemma assoc_elem {A} k v (m : list (string * A)) : assoc k m = Some v → (k, v) ∈ m.
Proof.
  induction m as [|[k' v'] m IH]; cbn; [done|]. destruct (String.eqb_spec k k') as [->|]; [intros [= ->]; by left|intros H; right; by apply IH].
Qed.
Lemma elem_assoc {A} k v (m : list (string * A)) : keyed m → (k, v) ∈ m → assoc k m = Some v.
Proof.
  unfold keyed. induction m as [|[k' v'] m IH]; cbn; [by intros _ ?%elem_of_nil|]. intros [Hn Hm]%NoDup_cons [[= -> ->]|Hin]%elem_of_cons;
    [by rewrite String.eqb_refl|]. destruct (String.eqb_spec k k') as [->|]; [|by apply IH]. exfalso. apply Hn. by apply (list_elem_of_fmap_2 fst _ (k', v)).
Qed.
Lemma keyed_filter {A} (P : string * A → Prop) `{∀ x, Decision (P x)} (m : list (string * A)) : keyed m → keyed (filter P m).
Proof. intros Hm. unfold keyed. eapply sublist_NoDup; [apply Hm|]. apply fmap_sublist, sublist_filter. Qed.
Lemma keyed_set k v m : keyed m → keyed (gomap_set k v m).
Proof.
  intros Hm. unfold keyed, gomap_set. cbn. constructor; [|by apply keyed_filter].
  intros (kv & Hk & Hin)%list_elem_of_fmap. apply list_elem_of_filter in Hin as [Hne _]. done.
Qed.
Lemma keyed_delete k m : keyed m → keyed (gomap_delete k m).
Proof. by apply keyed_filter. Qed.

(** A range over a map whose body writes at the key it visits only. *)
Definition range {A M} (f : string → A → M → M) (l : list (string * A)) (m : M) : M := fold_left (λ m kv, f kv.1 kv.2 m) l m.
Lemma range_local {A B M} (f : string → A → M → M) (get : M → string → option B) l : keyed l →
  (∀ k v m k', k ≠ k' → get (f k v m) k' = get m k') →
  (∀ k v m m', get m k = get m' k → get (f k v m) k = get (f k v m') k) →
  ∀ m k, get (range f l m) k = match assoc k l with Some v => get (f k v m) k | None => get m k end.
Proof.
  intros Hl Hother Hsame. induction l as [|[k' v] l IH]; intros m k; [done|]. apply NoDup_cons in Hl as [Hk' Hl].
  change (get (range f l (f k' v m)) k = match assoc k ((k', v) :: l) with Some v => get (f k v m) k | None => get m k end).
  cbn [assoc]. rewrite (IH Hl). destruct (String.eqb_spec k k') as [<-|Hne].
  - apply assoc_notin in Hk'. cbn [fst] in Hk'. by rewrite Hk'.
  - destruct (assoc k l) as [w|]; [apply Hsame|]; by apply Hother.
Qed.
Lemma range_ind {A M} (f : string → A → M → M) (P : M → Prop) l m : P m → (∀ k v m, (k, v) ∈ l → P m → P (f k v m)) → P (range f l m).
Proof.
  revert m. induction l as [|[k v] l IH]; intros m Hm Hf; [done|]. apply IH; [apply Hf; [by left|done]|]. intros k' v' m' Hin. apply Hf. by right.
Qed.

(** ** [reflect.DeepEqual] *)

(** Equal type and equal contents; on doubles the equality of IEEE 754.  Two values of
    types the metadata never holds count as different. *)
Fixpoint deep_equal (a b : goval) : bool :=
  match a, b with
  | VNil, VNil => true
  | VBool x, VBool y => Bool.eqb x y
  | VInt x, VInt y | VInt8 x, VInt8 y | VInt16 x, VInt16 y | VInt32 x, VInt32 y | VInt64 x, VInt64 y
  | VUint x, VUint y | VUint8 x, VUint8 y | VUint16 x, VUint16 y | VUint32 x, VUint32 y | VUint64 x, VUint64 y => x =? y
  | VFloat64 x, VFloat64 y | VFloat32 x, VFloat32 y => f_eqb x y
  | VNumber x, VNumber y | VString x, VString y | VBytes x, VBytes y => String.eqb x y
  | VMap m, VMap n =>
      Nat.eqb (length m) (length n)
      && forallb (λ kv, match kv with (k, v) => match assoc k n with Some w => deep_equal v w | None => false end end) m
  | VStrMap m, VStrMap n =>
      Nat.eqb (length m) (length n)
      && forallb (λ kv : string * string, match assoc kv.1 n with Some w => String.eqb kv.2 w | None => false end) m
  | VList l, VList l' =>
      (fix go (l l' : list goval) {struct l} : bool :=
         match l, l' with
         | [], [] => true
         | v :: l, w :: l' => deep_equal v w && go l l'
         | _, _ => false
         end) l l'
  | VStrings l, VStrings l' => bool_decide (l = l')
  | _, _ => false
  end.

(** Values made of comparable data: no NaN, no foreign type, no key twice. *)
Fixpoint plain_value (v : goval) : Prop :=
  match v with
  | VFloat64 f | VFloat32 f => f_eqb f f = true
  | VMap m => keyed m ∧ foldr (λ kv P, plain_value kv.2 ∧ P) True m
  | VStrMap m => keyed m
  | VList l => (fix go (l : list goval) : Prop := match l with [] => True | v :: l => plain_value v ∧ go l end) l
  | VOther => False
  | _ => True
  end.
Definition plain_map (m : gomap) : Prop := keyed m ∧ ∀ k v, assoc k m = Some v → plain_value v.

Lemma deep_equal_refl : ∀ v, plain_value v → deep_equal v v = true.
Proof.
  fix IH 1. intros [| | | | | | | | | | | | | | | | |m|m|l|l|] Hv; cbn [deep_equal plain_value] in *; try done; try apply Z.eqb_refl; try apply String.eqb_refl.
  - by destruct b.
  - rewrite Nat.eqb_refl. cbn [andb]. destruct Hv as [Hm Hv].
    assert (∀ l, (∀ k v, (k, v) ∈ l → assoc k m = Some v) → foldr (λ kv P, plain_value kv.2 ∧ P) True l →
      forallb (λ kv, match kv with (k, v) => match assoc k m with Some w => deep_equal v w | None => false end end) l = true) as Hall.
    { fix IHl 1. intros [|[k v] l] Hlook Hl; [done|]. cbn [forallb foldr] in *. destruct Hl as [H1 H2].
      rewrite (Hlook k v) by (by left). rewrite (IH v H1). apply IHl; [|done]. intros k' v' Hin. apply Hlook. by right. }
    apply Hall; [|done]. intros k v. by apply elem_assoc.
  - rewrite Nat.eqb_refl. cbn [andb]. apply forallb_forall. intros [k v] Hin%list_elem_of_In. cbn. rewrite (elem_assoc k v) by done. apply String.eqb_refl.
  - induction l as [|v l IHl]; [done|]. destruct Hv as [Hv Hl]. by rewrite (IH v Hv), (IHl Hl).
  - by apply bool_decide_true.
Qed.

(** What a key reads as: a missing one is [nil]. *)
Definition entry (m : gomap) (k : string) : goval := default VNil (assoc k m).
Definition same_entry (a b : option goval) : bool :=
  match a, b with Some v, Some w => deep_equal v w | None, None => true | _, _ => false end.
Definition plain_entry (v : option goval) : Prop := match v with Some v => plain_value v | None => True end.
Lemma same_entry_refl v : plain_entry v → same_entry v v = true.
Proof. destruct v; [apply deep_equal_refl|done]. Qed.
Lemma plain_assoc m k : plain_map m → plain_entry (assoc k m).
Proof. intros [_ H]. unfold plain_entry. destruct (assoc k m) eqn:E; [by eapply H|done]. Qed.

(** ** Keys *)

Definition legacyKeys : list (string * string) :=
  [("api-key", "api_key"); ("base-url", "base_url"); ("disable-cooling", "disable_cooling"); ("excluded-models", "excluded_models");
   ("fingerprint-profile", "fingerprint_profile"); ("model-aliases", "model_aliases"); ("openapi-location", "openapi_location");
   ("openapi-models", "openapi_models"); ("proxy-url", "proxy_url"); ("request-retry", "request_retry");
   ("request-scoped-errors", "request_scoped_errors"); ("tool-prefix-disabled", "tool_prefix_disabled")].
Definition CanonicalCredentialMetadataKey (key : string) : string := default key (assoc key legacyKeys).

(** One turn of the loop of [NormalizeCredentialMetadata]. *)
Definition normalize_entry (key : string) (value : goval) (metadata : gomap) : gomap :=
  let canonical := CanonicalCredentialMetadataKey key in
  if String.eqb canonical key then metadata else
  let metadata := match assoc canonical metadata with Some _ => metadata | None => gomap_set canonical value metadata end in
  gomap_delete key metadata.
Definition NormalizeCredentialMetadata (metadata : gomap) : gomap := range normalize_entry metadata metadata.

Definition IsAuthTokenPayloadKey (key : string) : bool :=
  bool_decide (ToLower (TrimSpace key) ∈
    ["access_token"; "refresh_token"; "id_token"; "session_id"; "expired"; "last_refresh"; "expires_in"; "timestamp";
     "token_type"; "user_code"; "verification_uri"; "verification_uri_complete"]).

(** The canonical name of a legacy key is none itself, and no two share one. *)
Lemma canonical_final k : CanonicalCredentialMetadataKey (CanonicalCredentialMetadataKey k) = CanonicalCredentialMetadataKey k.
Proof.
  unfold CanonicalCredentialMetadataKey at 2 3. destruct (assoc k legacyKeys) as [c|] eqn:E.
  - apply assoc_elem in E. unfold legacyKeys in E. repeat (apply elem_of_cons in E as [[= -> ->]|E]; [reflexivity|]). by apply elem_of_nil in E.
  - cbn [default]. unfold CanonicalCredentialMetadataKey. by rewrite E.
Qed.
Lemma canonical_injective k k' : CanonicalCredentialMetadataKey k ≠ k → CanonicalCredentialMetadataKey k' ≠ k' →
  CanonicalCredentialMetadataKey k = CanonicalCredentialMetadataKey k' → k = k'.
Proof.
  unfold CanonicalCredentialMetadataKey. destruct (assoc k legacyKeys) as [c|] eqn:E; [|done]. destruct (assoc k' legacyKeys) as [c'|] eqn:E'; [|done].
  cbn. intros _ _ H. apply assoc_elem in E, E'. unfold legacyKeys in E, E'.
  repeat (apply elem_of_cons in E as [[= -> ->]|E]; [repeat (apply elem_of_cons in E' as [[= -> ->]|E']; [by first [reflexivity|discriminate H]|]); by apply elem_of_nil in E'|]).
  by apply elem_of_nil in E.
Qed.

(** What is stored under a key after the legacy names are rewritten: nothing under a legacy
    one; under another what was there, else what its legacy name held. *)
Lemma normalize_keyed metadata : keyed metadata → keyed (NormalizeCredentialMetadata metadata).
Proof.
  intros H. unfold NormalizeCredentialMetadata. apply (range_ind normalize_entry keyed); [done|]. intros k v m _ Hm. unfold normalize_entry. destruct (String.eqb _ _); [done|].
  apply keyed_delete. destruct (assoc _ m); [done|by apply keyed_set].
Qed.
Lemma normalize_entry_lookup k v m k' : assoc k' (normalize_entry k v m) =
  if String.eqb (CanonicalCredentialMetadataKey k) k then assoc k' m
  else if String.eqb k' k then None
  else if String.eqb k' (CanonicalCredentialMetadataKey k) then Some (default v (assoc k' m)) else assoc k' m.
Proof.
  unfold normalize_entry. destruct (String.eqb_spec (CanonicalCredentialMetadataKey k) k) as [|Hne]; [done|]. rewrite assoc_delete.
  destruct (String.eqb_spec k' k) as [|Hk]; [done|]. destruct (assoc (CanonicalCredentialMetadataKey k) m) as [w|] eqn:E.
  - destruct (String.eqb_spec k' (CanonicalCredentialMetadataKey k)) as [->|]; [by rewrite E|done].
  - rewrite assoc_set. destruct (String.eqb_spec k' (CanonicalCredentialMetadataKey k)) as [->|]; [by rewrite E|done].
Qed.

(** The value under the legacy name of a key. *)
Definition legacy_value (k : string) (metadata : gomap) : option goval :=
  snd <$> List.find (λ kv, negb (String.eqb kv.1 k) && String.eqb (CanonicalCredentialMetadataKey kv.1) k) metadata.
Lemma normalize_range l : ∀ m k, assoc k (range normalize_entry l m) =
  if String.eqb (CanonicalCredentialMetadataKey k) k
  then match assoc k m with Some v => Some v | None => legacy_value k l end
  else if bool_decide (k ∈ l.*1) then None else assoc k m.
Proof.
  induction l as [|[k' v'] l IH]; intros m k.
  { cbn. destruct (String.eqb _ _); [|done]. by destruct (assoc k m). }
  change (range normalize_entry ((k', v') :: l) m) with (range normalize_entry l (normalize_entry k' v' m)). rewrite IH, normalize_entry_lookup.
  unfold legacy_value. cbn [List.find fst snd fmap list_fmap].
  destruct (String.eqb_spec (CanonicalCredentialMetadataKey k) k) as [Hk|Hk].
  - destruct (String.eqb_spec (CanonicalCredentialMetadataKey k') k') as [Hk'|Hk'].
    + rewrite Hk'. by destruct (String.eqb_spec k' k) as [->|].
    + destruct (String.eqb_spec k k') as [->|Hne]; [done|]. rewrite (proj2 (String.eqb_neq k' k)) by congruence. cbn [negb andb].
      destruct (String.eqb_spec k (CanonicalCredentialMetadataKey k')) as [->|Hc].
      * rewrite String.eqb_refl. cbn. by destruct (assoc _ m).
      * by rewrite (proj2 (String.eqb_neq (CanonicalCredentialMetadataKey k') k)) by congruence.
  - change (((k', v') :: l).*1) with (k' :: l.*1). destruct (String.eqb_spec k k') as [->|Hne].
    + rewrite (bool_decide_true (k' ∈ k' :: l.*1)) by (by left). rewrite (proj2 (String.eqb_neq _ _) Hk). by destruct (bool_decide _).
    + assert (k ∈ k' :: l.*1 ↔ k ∈ l.*1) as Hin by (rewrite elem_of_cons; naive_solver). rewrite (bool_decide_ext _ _ Hin).
      destruct (bool_decide (k ∈ l.*1)); [done|]. destruct (String.eqb_spec (CanonicalCredentialMetadataKey k') k') as [|Hk']; [done|].
      destruct (String.eqb_spec k (CanonicalCredentialMetadataKey k')) as [->|]; [|done]. by rewrite canonical_final in Hk.
Qed.
Lemma normalize_metadata_spec m k : assoc k (NormalizeCredentialMetadata m) =
  if String.eqb (CanonicalCredentialMetadataKey k) k then match assoc k m with Some v => Some v | None => legacy_value k m end else None.
Proof.
  unfold NormalizeCredentialMetadata. rewrite normalize_range. destruct (String.eqb _ _); [done|].
  case_bool_decide as Hin; [done|]. by apply assoc_notin.
Qed.
Lemma normalize_idempotent m k : assoc k (NormalizeCredentialMetadata (NormalizeCredentialMetadata m)) = assoc k (NormalizeCredentialMetadata m).
Proof.
  rewrite (normalize_metadata_spec (NormalizeCredentialMetadata m)). destruct (String.eqb_spec (CanonicalCredentialMetadataKey k) k) as [Hk|Hk].
  2:{ rewrite normalize_metadata_spec. by rewrite (proj2 (String.eqb_neq _ _) Hk). }
  rewrite (normalize_metadata_spec m k), Hk, String.eqb_refl. destruct (assoc k m) as [v|]; [done|]. destruct (legacy_value k m); [done|].
  unfold legacy_value at 1. destruct (List.find _ (NormalizeCredentialMetadata m)) as [[k' v']|] eqn:E; [|done]. exfalso.
  apply find_some in E as [Hin Hc]. cbn [fst] in Hc. apply andb_true_iff in Hc as [Hne Hc]. apply negb_true_iff, String.eqb_neq in Hne. apply String.eqb_eq in Hc.
  assert (assoc k' (NormalizeCredentialMetadata m) ≠ None) as Hsome.
  { rewrite <-assoc_notin. intros Hn. apply Hn. apply (list_elem_of_fmap_2 fst _ (k', v')). by apply list_elem_of_In. }
  rewrite normalize_metadata_spec in Hsome. destruct (String.eqb_spec (CanonicalCredentialMetadataKey k') k') as [Hk'|]; [|done]. congruence.
Qed.

(** ** Refresh patches *)

Definition codexOuterCredentialKeys : list string :=
  ["id_token"; "access_token"; "refresh_token"; "account_id"; "last_refresh"; "email"; "expired"; "plan_type"].
Definition codexSIWCCredentialKeys : list string :=
  ["access_token"; "refresh_token"; "id_token"; "client_id"; "device_id"; "expired"; "expires_at"; "last_refresh"; "scope"; "scopes"].

(** One refreshed partition: what it was in memory and on disk, and what it became. *)
Record partition := mkPartition { p_before : gomap; p_diskBefore : gomap; p_after : gomap }.
Record CredentialRefreshPatch := mkPatch { p_outer : option partition; p_siwc : option partition }.

(** [metadata["siwc"].(map[string]any)]; a value of another type reads as no map. *)
Definition siwc_of (metadata : gomap) : gomap := match assoc "siwc" metadata with Some (VMap m) => m | _ => [] end.

Definition credentialFields (metadata : gomap) (keys : list string) : gomap :=
  omap (λ key, (λ v, (key, v)) <$> assoc key metadata) keys.
Definition NewCredentialRefreshPatchWithDiskBaseline (before diskBefore after : gomap) (outer siwc : bool) : CredentialRefreshPatch :=
  mkPatch
    (if outer then Some (mkPartition (credentialFields before codexOuterCredentialKeys)
                           (credentialFields diskBefore codexOuterCredentialKeys) (credentialFields after codexOuterCredentialKeys)) else None)
    (if siwc then Some (mkPartition (credentialFields (siwc_of before) codexSIWCCredentialKeys)
                          (credentialFields (siwc_of diskBefore) codexSIWCCredentialKeys)
                          (credentialFields (siwc_of after) codexSIWCCredentialKeys)) else None).
Definition NewCredentialRefreshPatch (before after : gomap) : bool → bool → CredentialRefreshPatch :=
  NewCredentialRefreshPatchWithDiskBaseline before [] after.

Definition version_keys : list string := ["access_token"; "refresh_token"; "id_token"; "account_id"; "client_id"; "device_id"].
Definition sameCredentialVersion (a b : gomap) : bool := forallb (λ key, deep_equal (entry a key) (entry b key)) version_keys.

(** The baseline a target still is at, if any. *)
Definition matchesBaselineOrAfter (target : gomap) (p : partition) : option gomap :=
  if negb (bool_decide (p_diskBefore p = [])) && sameCredentialVersion target (p_diskBefore p) then Some (p_diskBefore p)
  else if sameCredentialVersion target (p_before p) then Some (p_before p)
  else if negb (bool_decide (p_after p = [])) && sameCredentialVersion target (p_after p) then Some (p_after p)
  else None.

Definition apply_field (before : gomap) (key : string) (value : goval) (disk : gomap) : gomap :=
  match assoc key before with
  | Some oldValue => if deep_equal oldValue value then disk else gomap_set key value disk
  | None => gomap_set key value disk
  end.
Definition applyCredentialFields (disk before after : gomap) : gomap :=
  let disk := range (apply_field before) after disk in
  match assoc "expires_at" before, assoc "expires_at" after with
  | Some _, None => gomap_delete "expires_at" disk
  | _, _ => disk
  end.

Definition IsCodexCredentialKey (key : string) : bool :=
  String.eqb key "siwc" || String.eqb key "use_siwc" || bool_decide (key ∈ codexOuterCredentialKeys).
Definition RefreshedOuter (p : CredentialRefreshPatch) : bool := match p_outer p with Some _ => true | None => false end.
Definition RefreshedSIWC (p : CredentialRefreshPatch) : bool := match p_siwc p with Some _ => true | None => false end.
Definition CanApplyTo (p : CredentialRefreshPatch) (disk : gomap) : bool :=
  match p_outer p ≫= matchesBaselineOrAfter disk with
  | Some _ => true
  | None => match p_siwc p ≫= matchesBaselineOrAfter (siwc_of disk) with Some _ => true | None => false end
  end.
Definition Apply (p : CredentialRefreshPatch) (disk : gomap) : gomap :=
  let merged := match p_outer p with
    | Some q => match matchesBaselineOrAfter disk q with
                | Some base => applyCredentialFields disk base (p_after q)
                | None => disk
                end
    | None => disk
    end in
  match p_siwc p with
  | Some q => match matchesBaselineOrAfter (siwc_of disk) q with
              | Some base => gomap_set "siwc" (VMap (applyCredentialFields (siwc_of disk) base (p_after q))) merged
              | None => merged
              end
  | None => merged
  end.

(** *** What an application leaves behind *)

Lemma keyed_fields metadata keys : NoDup keys → keyed (credentialFields metadata keys).
Proof.
  unfold keyed, credentialFields. induction keys as [|k keys IH]; cbn; [constructor|]. intros [Hk Hn]%NoDup_cons.
  destruct (assoc k metadata) as [v|]; cbn; [|by apply IH]. constructor; [|by apply IH].
  intros ([k' v'] & Heq & Hin)%list_elem_of_fmap. apply list_elem_of_omap in Hin as (k2 & Hk2 & E). destruct (assoc k2 metadata); [|done].
  injection E as -> ->. cbn in Heq. subst. done.
Qed.
Lemma fields_lookup metadata keys k : assoc k (credentialFields metadata keys) = if bool_decide (k ∈ keys) then assoc k metadata else None.
Proof.
  unfold credentialFields. induction keys as [|k' keys IH]; cbn; [done|]. destruct (String.eqb_spec k k') as [<-|Hne].
  - rewrite bool_decide_true by (by left). destruct (assoc k metadata) as [v|] eqn:E; cbn; [by rewrite String.eqb_refl|].
    rewrite IH. by destruct (bool_decide _).
  - assert (k ∈ k' :: keys ↔ k ∈ keys) as Hin by (rewrite elem_of_cons; naive_solver). rewrite (bool_decide_ext _ _ Hin), <-IH.
    destruct (assoc k' metadata) as [v|]; cbn; [|done]. by rewrite (proj2 (String.eqb_neq k k')).
Qed.
Lemma apply_fields_lookup disk before after k : keyed after →
  assoc k (applyCredentialFields disk before after) =
  match assoc k after with
  | Some v => match assoc k before with Some old => if deep_equal old v then assoc k disk else Some v | None => Some v end
  | None => if String.eqb k "expires_at" && match assoc k before with Some _ => true | None => false end then None else assoc k disk
  end.
Proof.
  intros Ha. unfold applyCredentialFields.
  assert (∀ k, assoc k (range (apply_field before) after disk) =
    match assoc k after with Some v => assoc k (apply_field before k v disk) | None => assoc k disk end) as Hr.
  { intros k0. apply (range_local (apply_field before) (λ m k, assoc k m)); [done| |].
    - intros k1 v m k' Hne. unfold apply_field. destruct (assoc k1 before) as [old|]; [destruct (deep_equal old v); [done|]|];
        rewrite assoc_set; by rewrite (proj2 (String.eqb_neq k' k1)) by done.
    - intros k1 v m m' Hm. unfold apply_field. destruct (assoc k1 before) as [old|]; [destruct (deep_equal old v); [done|]|];
        by rewrite !assoc_set, String.eqb_refl. }
  assert (∀ v, assoc k (apply_field before k v disk) = match assoc k before with Some old => if deep_equal old v then assoc k disk else Some v | None => Some v end) as Hf.
  { intros v. unfold apply_field. destruct (assoc k before) as [old|]; [destruct (deep_equal old v); [done|]|]; by rewrite assoc_set, String.eqb_refl. }
  destruct (String.eqb_spec k "expires_at") as [->|Hk]; cbn [andb].
  - destruct (assoc "expires_at" before) as [old|] eqn:Eb, (assoc "expires_at" after) as [v|] eqn:Ea.
    + rewrite Hr, Ea, Hf. done.
    + by rewrite assoc_delete, String.eqb_refl.
    + rewrite Hr, Ea, Hf. done.
    + by rewrite Hr, Ea.
  - assert (∀ m, assoc k (gomap_delete "expires_at" m) = assoc k m) as Hd by (intros; rewrite assoc_delete; by rewrite (proj2 (String.eqb_neq _ _) Hk)).
    assert (∀ x y : option goval, assoc k (match x, y with Some _, None => gomap_delete "expires_at" (range (apply_field before) after disk) | _, _ => range (apply_field before) after disk end)
      = assoc k (range (apply_field before) after disk)) as Hm by (intros [?|] [?|]; auto).
    rewrite Hm, Hr. destruct (assoc k after); [apply Hf|done].
Qed.

Lemma entry_fields metadata keys k : entry (credentialFields metadata keys) k = if bool_decide (k ∈ keys) then entry metadata k else VNil.
Proof. unfold entry. rewrite fields_lookup. by destruct (bool_decide _). Qed.
Lemma entry_plain m k : plain_map m → plain_value (entry m k).
Proof. intros Hm. pose proof (plain_assoc m k Hm) as H. unfold entry. by destruct (assoc k m). Qed.
Lemma version_of_fields metadata keys : plain_map metadata → (∀ k, k ∈ version_keys → k ∉ keys → assoc k metadata = None) →
  sameCredentialVersion metadata (credentialFields metadata keys) = true.
Proof.
  intros Hm Hk. apply forallb_forall. intros k Hin%list_elem_of_In. rewrite entry_fields. case_bool_decide as Hd.
  - by apply deep_equal_refl, entry_plain.
  - unfold entry. by rewrite (Hk k Hin Hd).
Qed.
Lemma siwc_set k v m : assoc "siwc" (gomap_set "siwc" v m) = Some v ∧ (k ≠ "siwc" → assoc k (gomap_set "siwc" v m) = assoc k m).
Proof. rewrite !assoc_set. split; [done|]. intros H. by rewrite (proj2 (String.eqb_neq k "siwc")). Qed.
Lemma apply_outer p disk k : k ≠ "siwc" → assoc k (Apply p disk) =
  match p_outer p with
  | Some q => match matchesBaselineOrAfter disk q with Some base => assoc k (applyCredentialFields disk base (p_after q)) | None => assoc k disk end
  | None => assoc k disk
  end.
Proof.
  intros Hk. unfold Apply. set (merged := match p_outer p with Some q => _ | None => disk end).
  assert (assoc k merged = match p_outer p with
    | Some q => match matchesBaselineOrAfter disk q with Some base => assoc k (applyCredentialFields disk base (p_after q)) | None => assoc k disk end
    | None => assoc k disk end) as <-.
  { unfold merged. destruct (p_outer p) as [q|]; [|done]. by destruct (matchesBaselineOrAfter disk q). }
  destruct (p_siwc p) as [q|]; [|done]. destruct (matchesBaselineOrAfter _ q); [|done]. by apply (siwc_set k).
Qed.

Lemma siwc_not_outer : "siwc" ∉ codexOuterCredentialKeys.
Proof. apply (bool_decide_unpack _). vm_compute. exact I. Qed.
Lemma expires_not_outer : "expires_at" ∉ codexOuterCredentialKeys.
Proof. apply (bool_decide_unpack _). vm_compute. exact I. Qed.
Lemma outer_keyed metadata : keyed (credentialFields metadata codexOuterCredentialKeys).
Proof. apply keyed_fields. apply (bool_decide_unpack _). vm_compute. exact I. Qed.
Lemma foreign_version_keys k : k ∈ version_keys → k ∉ codexOuterCredentialKeys → k ∈ ["client_id"; "device_id"].
Proof.
  unfold version_keys. intros Hv Hn. repeat (apply elem_of_cons in Hv as [->|Hv]; [first [exfalso; apply Hn; apply (bool_decide_unpack _); vm_compute; exact I
    |apply (bool_decide_unpack _); vm_compute; exact I]|]). by apply elem_of_nil in Hv.
Qed.

(** The keys of a partition after its refresh is applied to where it began. *)
Lemma refresh_fields before after keys : NoDup keys → plain_map after →
  let r := applyCredentialFields before (credentialFields before keys) (credentialFields after keys) in
  (∀ k v, k ∈ keys → assoc k after = Some v → same_entry (assoc k r) (Some v) = true)
  ∧ (∀ k, k ∉ keys ∨ (assoc k after = None ∧ k ≠ "expires_at") → assoc k r = assoc k before)
  ∧ ("expires_at" ∈ keys → assoc "expires_at" after = None → assoc "expires_at" r = None).
Proof.
  intros Hk Ha r. assert (keyed (credentialFields after keys)) as Hkey by (by apply keyed_fields). unfold r. split_and!.
  - intros k v Hin Hv. rewrite apply_fields_lookup, !fields_lookup, bool_decide_true, Hv by done.
    pose proof (plain_assoc after k Ha) as Hplain. rewrite Hv in Hplain.
    destruct (assoc k before) as [old|]; [|by apply same_entry_refl]. destruct (deep_equal old v) eqn:E; [done|by apply same_entry_refl].
  - intros k Hor. rewrite apply_fields_lookup, !fields_lookup by done. case_bool_decide; [|by rewrite andb_false_r].
    destruct Hor as [?|[-> Hne]]; [done|]. by rewrite (proj2 (String.eqb_neq _ _) Hne).
  - intros Hin Hn. rewrite apply_fields_lookup, !fields_lookup, bool_decide_true, Hn by done. cbn. by destruct (assoc "expires_at" before) eqn:E.
Qed.
Lemma refresh_matches before after keys : plain_map before → (∀ k, k ∈ version_keys → k ∉ keys → assoc k before = None) →
  matchesBaselineOrAfter before (mkPartition (credentialFields before keys) [] (credentialFields after keys)) = Some (credentialFields before keys).
Proof.
  intros Hb Hf. unfold matchesBaselineOrAfter. cbn [p_diskBefore p_before]. rewrite (bool_decide_true ([] = [])) by done. cbn [negb andb].
  by rewrite version_of_fields.
Qed.

Lemma nested_plain m : plain_map m → plain_map (siwc_of m).
Proof.
  intros [_ Hm]. unfold siwc_of. specialize (Hm "siwc"). assert (plain_map []) as Hnil by (split; [constructor|done]).
  destruct (assoc "siwc" m) as [[]|]; try done. destruct (Hm _ eq_refl) as [Hk Hv]. split; [done|]. intros k v Hin%assoc_elem. clear -Hin Hv.
  induction m0 as [|kv l IH]; [by apply elem_of_nil in Hin|]. destruct Hv as [H1 H2]. apply elem_of_cons in Hin as [<-|Hin]; [done|by apply IH].
Qed.
Lemma siwc_keyed metadata : keyed (credentialFields metadata codexSIWCCredentialKeys).
Proof. apply keyed_fields. apply (bool_decide_unpack _). vm_compute. exact I. Qed.
Lemma foreign_siwc_keys k : k ∈ version_keys → k ∉ codexSIWCCredentialKeys → k = "account_id".
Proof.
  unfold version_keys. intros Hv Hn. repeat (apply elem_of_cons in Hv as [->|Hv]; [first [reflexivity|exfalso; apply Hn; apply (bool_decide_unpack _); vm_compute; exact I]|]).
  by apply elem_of_nil in Hv.
Qed.
(** The nested credential is written by its own partition only. *)
Lemma apply_nested before diskBefore after outer siwc disk :
  let q := NewCredentialRefreshPatchWithDiskBaseline before diskBefore after outer siwc in
  assoc "siwc" (Apply q disk) =
  match p_siwc q with
  | Some s => match matchesBaselineOrAfter (siwc_of disk) s with
              | Some base => Some (VMap (applyCredentialFields (siwc_of disk) base (p_after s))) | None => assoc "siwc" disk end
  | None => assoc "siwc" disk
  end.
Proof.
  intros q. assert (∀ o, p_outer q = Some o → ∀ base, assoc "siwc" (applyCredentialFields disk base (p_after o)) = assoc "siwc" disk) as Hout.
  { intros o Ho base. assert (p_after o = credentialFields after codexOuterCredentialKeys) as -> by (unfold q in Ho; destruct outer; [by inversion Ho|done]).
    rewrite apply_fields_lookup, fields_lookup by apply outer_keyed. by rewrite bool_decide_false by apply siwc_not_outer. }
  clearbody q. unfold Apply. set (merged := match p_outer q with Some o => _ | None => disk end).
  assert (assoc "siwc" merged = assoc "siwc" disk) as Hm.
  { unfold merged. destruct (p_outer q) as [o|]; [|done]. destruct (matchesBaselineOrAfter disk o); [by apply Hout|done]. }
  clearbody merged. destruct (p_siwc q) as [s|]; [|done]. destruct (matchesBaselineOrAfter (siwc_of disk) s); [|done]. by rewrite assoc_set.
Qed.

(** C26: A refresh patch gives what was refreshed and takes nothing else away.  Applied to
    the metadata it was computed from, the patch of any choice of the two partitions leaves
    every refreshed key of the outer credential as the refresh made it, and every other key
    of the outer metadata as it was; of the nested credential, every refreshed key as the
    refresh made it and every other field as it was, but an expiry the refresh dropped.  (The
    values are comparable data, and a partition holds none of the version keys that belong
    to the other one.)  A partition whose
    tokens were rotated since, so that it is at none of its baselines, is left as it is,
    whatever becomes of the other one; if neither is, the metadata is untouched
    altogether. *)
Theorem patch_roundtrip (before after : gomap) (outer siwc : bool) :
  plain_map before → plain_map after →
  (outer = true → ∀ k, k ∈ ["client_id"; "device_id"] → assoc k before = None) →
  (siwc = true → assoc "account_id" (siwc_of before) = None) →
  let p := NewCredentialRefreshPatch before after outer siwc in
  CanApplyTo p before = outer || siwc
  ∧ (∀ k v, outer = true → k ∈ codexOuterCredentialKeys → assoc k after = Some v → same_entry (assoc k (Apply p before)) (Some v) = true)
  ∧ (∀ k, k ≠ "siwc" → outer = false ∨ k ∉ codexOuterCredentialKeys ∨ assoc k after = None → assoc k (Apply p before) = assoc k before)
  ∧ (siwc = false → assoc "siwc" (Apply p before) = assoc "siwc" before)
  ∧ (siwc = true → let nested := siwc_of (Apply p before) in
     (∀ k v, k ∈ codexSIWCCredentialKeys → assoc k (siwc_of after) = Some v → same_entry (assoc k nested) (Some v) = true)
     ∧ (∀ k, k ∉ codexSIWCCredentialKeys ∨ (assoc k (siwc_of after) = None ∧ k ≠ "expires_at") → assoc k nested = assoc k (siwc_of before))
     ∧ (assoc "expires_at" (siwc_of after) = None → assoc "expires_at" nested = None))
  ∧ (∀ b d a o s disk, let q := NewCredentialRefreshPatchWithDiskBaseline b d a o s in
     (p_outer q ≫= matchesBaselineOrAfter disk = None → ∀ k, k ≠ "siwc" → assoc k (Apply q disk) = assoc k disk)
     ∧ (p_siwc q ≫= matchesBaselineOrAfter (siwc_of disk) = None → assoc "siwc" (Apply q disk) = assoc "siwc" disk))
  ∧ (∀ q disk k, CanApplyTo q disk = false → assoc k (Apply q disk) = assoc k disk).
Proof.
  intros Hb Ha Ho Hs p.
  set (po := mkPartition (credentialFields before codexOuterCredentialKeys) [] (credentialFields after codexOuterCredentialKeys)).
  set (ps := mkPartition (credentialFields (siwc_of before) codexSIWCCredentialKeys) [] (credentialFields (siwc_of after) codexSIWCCredentialKeys)).
  assert (p_outer p = if outer then Some po else None) as Eo by reflexivity.
  assert (p_siwc p = if siwc then Some ps else None) as Es by (by destruct siwc).
  assert (outer = true → matchesBaselineOrAfter before po = Some (p_before po)) as Mo.
  { intros E. apply refresh_matches; [done|]. intros k Hv Hn. by apply (Ho E), foreign_version_keys. }
  assert (siwc = true → matchesBaselineOrAfter (siwc_of before) ps = Some (p_before ps)) as Ms.
  { intros E. apply refresh_matches; [by apply nested_plain|]. intros k Hv Hn. rewrite (foreign_siwc_keys k Hv Hn). by apply Hs. }
  pose proof (apply_nested before [] after outer siwc before) as Hnest. fold (NewCredentialRefreshPatch before after outer siwc) in Hnest. fold p in Hnest.
  destruct (refresh_fields before after codexOuterCredentialKeys ltac:(apply (bool_decide_unpack _); vm_compute; exact I) Ha) as (F1 & F2 & _).
  destruct (refresh_fields (siwc_of before) (siwc_of after) codexSIWCCredentialKeys ltac:(apply (bool_decide_unpack _); vm_compute; exact I)
    (nested_plain _ Ha)) as (G1 & G2 & G3). cbv zeta in Hnest. rewrite Es in Hnest.
  split_and!.
  - unfold CanApplyTo. rewrite Eo, Es. destruct outer; cbn [mbind option_bind]; [by rewrite Mo|]. destruct siwc; cbn [mbind option_bind]; [by rewrite Ms|done].
  - intros k v -> Hin Hv. rewrite apply_outer by (intros ->; by apply siwc_not_outer). rewrite Eo, Mo by done. by apply F1.
  - intros k Hk Hor. rewrite apply_outer by done. rewrite Eo. destruct outer; [|done]. rewrite Mo by done. apply F2.
    destruct Hor as [?|[?|?]]; [done|by left|]. destruct (decide (k = "expires_at")) as [->|]; [left; apply expires_not_outer|by right].
  - intros ->. done.
  - intros ->. rewrite Ms in Hnest by done. assert (siwc_of (Apply p before) = applyCredentialFields (siwc_of before) (p_before ps) (p_after ps)) as ->.
    { unfold siwc_of at 1. by rewrite Hnest. }
    split_and!; [exact G1|exact G2|apply G3]. apply (bool_decide_unpack _). vm_compute. exact I.
  - intros b d a o s disk q. split.
    + intros Hn k Hk. rewrite apply_outer by done. destruct (p_outer q); [|done]. cbn in Hn. by rewrite Hn.
    + intros Hn. unfold q. rewrite apply_nested. fold q. destruct (p_siwc q); [|done]. cbn in Hn. by rewrite Hn.
  - intros q disk k Hno. unfold CanApplyTo in Hno. unfold Apply.
    destruct (p_outer q) as [o|]; cbn [mbind option_bind] in Hno; [destruct (matchesBaselineOrAfter disk o); [done|]|];
      (destruct (p_siwc q) as [s|]; cbn [mbind option_bind] in Hno; [destruct (matchesBaselineOrAfter (siwc_of disk) s); [done|]|]; done).
Qed.
