(* ===== verification/Merge.v ===== *)
(** * Merging what an executor made of a credential

    Models [metadata_merge.go] and, of [conductor_refresh.go], [CredentialsChanged], the
    rejected tokens and the early restoration of a Devin quota.

    Three versions meet: [base], a copy taken before the executor ran, [current], the
    credential as it is by now, and [updated], what the executor made of the copy.  Of a
    map that is [nil] and one that is empty only the difference the code makes is kept
    ([in_no_metadata] and its like).  Storage and runtime handles are not modelled, times
    are equal when they are the same instant. *)
From Stdlib Require Import ZArith Lia String Bool.
From stdpp Require Import prelude gmap strings.
From S2P Require Import Prelude GoStd AuthTypes Weight Availability Errors Json Classify QuotaSignals Cooldown ExecutionResult Metadata.
Local Open Scope string_scope.
Local Open Scope list_scope.
Local Open Scope Z_scope.

(** Equality of states, shadows included. *)
#[export] Instance ModelState_dec : EqDecision ModelState.
Proof.
  unfold EqDecision, RelDecision. fix go 1. intros [s1 m1 u1 n1 e1 q1 t1 c1 sh1 p1] [s2 m2 u2 n2 e2 q2 t2 c2 sh2 p2].
  destruct (decide ((s1, m1, u1, n1, e1) = (s2, m2, u2, n2, e2))) as [H1|H1]; [|right; congruence].
  destruct (decide ((q1, t1, c1, p1) = (q2, t2, c2, p2))) as [H2|H2]; [|right; congruence].
  destruct sh1 as [x|], sh2 as [y|]; [destruct (go x y) as [H3|H3]; [left|right]|right|right|left]; congruence.
Defined.

(** ** Three ways *)

(** What becomes of one entry: the executor's change counts, unless the user changed the
    entry meanwhile and [user_wins]; a deletion never takes a changed entry. *)
Definition three_way {A} (same : option A → option A → bool) (user_wins : bool) (base current updated : option A) : option A :=
  match updated with
  | Some _ =>
      if negb (same base updated) && (same base current || negb user_wins) then updated else current
  | None => if same base current then None else current
  end.

Definition same_string (a b : option string) : bool := bool_decide (a = b).

(** ** Metadata and attributes *)

Record incoming := mkIncoming {
  in_auth : Auth; in_patch : option CredentialRefreshPatch;
  in_no_metadata : bool; in_no_attributes : bool; in_no_states : bool }.

(** [updated.Metadata["siwc"]] merged into what is there, field by field. *)
Definition merge_siwc (base current : gomap) (k : string) (siwcUpd : gomap) (merged : gomap) : gomap :=
  if same_entry (assoc k base) (Some (VMap siwcUpd)) then merged else
  let start := match assoc k current with
               | Some (VMap cur) => cur
               | _ => match assoc k base with Some (VMap b) => b | _ => [] end
               end in
  gomap_set k (VMap (range gomap_set siwcUpd start)) merged.

(** One entry of [updated.Metadata]. *)
Definition merge_entry (patched : bool) (base current : gomap) (k : string) (v : goval) (merged : gomap) : gomap :=
  if EqualFold (TrimSpace k) "proxy_url" then merged
  else if patched && IsCodexCredentialKey (ToLower (TrimSpace k)) then merged
  else if EqualFold (TrimSpace k) "siwc" then
    match v with VMap ((_ :: _) as siwcUpd) => merge_siwc base current k siwcUpd merged | _ => merged end
  else
    let changedByExecutor := negb (same_entry (assoc k base) (Some v)) in
    let changedByUser := negb (same_entry (assoc k base) (assoc k current)) in
    if changedByExecutor && (negb changedByUser || IsAuthTokenPayloadKey k) then gomap_set k v merged else merged.
(** One entry of [base.Metadata] the executor may have deleted. *)
Definition merge_deletion (current updated : gomap) (k : string) (baseVal : goval) (merged : gomap) : gomap :=
  let trimmedKey := ToLower (TrimSpace k) in
  if String.eqb trimmedKey "proxy_url" || String.eqb trimmedKey "siwc" || String.eqb trimmedKey "use_siwc" then merged
  else match assoc k updated, assoc k current with
       | None, Some currentVal => if deep_equal baseVal currentVal then gomap_delete k merged else merged
       | _, _ => merged
       end.
Definition merge_metadata (base current : gomap) (updated : incoming) : gomap :=
  let upd := Metadata (in_auth updated) in
  let patched := match in_patch updated with Some _ => true | None => false end in
  let merged :=
    if in_no_metadata updated then current
    else range (merge_deletion current upd) base (range (merge_entry patched base current) upd current) in
  match in_patch updated with Some p => Apply p merged | None => merged end.

Definition merge_attribute (base current : gmap string string) (k v : string) (merged : gmap string string) : gmap string string :=
  if negb (same_string (base !! k) (Some v)) && same_string (base !! k) (current !! k) then <[k := v]> merged else merged.
Definition delete_attribute (current updated : gmap string string) (k baseVal : string) (merged : gmap string string) : gmap string string :=
  match updated !! k, current !! k with
  | None, Some currentVal => if String.eqb baseVal currentVal then delete k merged else merged
  | _, _ => merged
  end.
Definition merge_attributes (base current : gmap string string) (updated : incoming) : gmap string string :=
  if in_no_attributes updated then current else
  let upd := Attributes (in_auth updated) in
  range (delete_attribute current upd) (map_to_list base) (range (merge_attribute base current) (map_to_list upd) current).

(** ** The proxy and the prefix *)

Definition meta_proxy (m : gomap) : string := match assoc "proxy_url" m with Some (VString s) => TrimSpace s | _ => "" end.
(** The proxy in its two places. *)
Definition proxy_of (a : option Auth) : string * string :=
  match a with Some a => (TrimSpace (ProxyURL a), meta_proxy (Metadata a)) | None => ("", "") end.
Definition merge_proxy (base current updated : option Auth) : string :=
  let '(baseStruct, baseMeta) := proxy_of base in
  let '(currentStruct, currentMeta) := proxy_of current in
  let '(updatedStruct, updatedMeta) := proxy_of updated in
  let userChangedStruct := negb (String.eqb currentStruct baseStruct) in
  let userChangedMeta := negb (String.eqb currentMeta baseMeta) in
  let execChangedStruct := negb (String.eqb updatedStruct baseStruct) in
  let execChangedMeta := negb (String.eqb updatedMeta baseMeta) in
  let finalProxy := if negb (String.eqb currentMeta "") && String.eqb currentStruct "" && negb userChangedStruct then currentMeta else currentStruct in
  let pick := λ (changedStruct changedMeta : bool) (s m : string),
    if changedStruct && negb changedMeta then s else if changedMeta && negb changedStruct then m
    else if negb (String.eqb s "") then s else m in
  if userChangedStruct || userChangedMeta then pick userChangedStruct userChangedMeta currentStruct currentMeta
  else if execChangedStruct || execChangedMeta then pick execChangedStruct execChangedMeta updatedStruct updatedMeta
  else finalProxy.

Definition merge_prefix (base : option Auth) (current updated : Auth) : string :=
  let basePrefix := match base with Some b => TrimSpace (Prefix b) | None => "" end in
  if negb (String.eqb (TrimSpace (Prefix updated)) basePrefix) && String.eqb (TrimSpace (Prefix current)) basePrefix
  then TrimSpace (Prefix updated) else TrimSpace (Prefix current).

(** ** The content of a credential *)

Definition metadata_of (a : option Auth) : gomap := match a with Some a => Metadata a | None => [] end.
Definition attributes_of (a : option Auth) : gmap string string := match a with Some a => Attributes a | None => ∅ end.
Definition stale_base (base : option Auth) (current : Auth) : bool :=
  match base with Some b => negb (RegistrationEpoch current =? RegistrationEpoch b) | None => false end.

(** [mergeAuthContent] of a credential that is there and an update. *)
Definition mergeAuthContent (base : option Auth) (current : Auth) (updated : incoming) : Auth :=
  if stale_base base current then Auth_Clone current else
  let upd := in_auth updated in
  let metadata := merge_metadata (metadata_of base) (Metadata current) updated in
  let finalProxy := merge_proxy base (Some current) (Some upd) in
  (Auth_Clone current)
    <| Metadata := if negb (String.eqb finalProxy "") then gomap_set "proxy_url" (VString finalProxy) metadata
                   else gomap_delete "proxy_url" metadata |>
    <| ProxyURL := finalProxy |>
    <| Prefix := merge_prefix base current upd |>
    <| Attributes := merge_attributes (attributes_of base) (Attributes current) updated |>.
Definition MergePreparedAuth := mergeAuthContent.

(** ** Changed credentials and rejected tokens *)

Definition or_else (s t : string) : string := if String.eqb s "" then t else s.
Definition id_token (a : Auth) : string := or_else (authMetadataString (Some a) "id_token") (authMetadataString (Some a) "idToken").
Definition api_key (a : Auth) : string := or_else (attr (Attributes a) AttributeAPIKey) (authMetadataString (Some a) "api_key").
Definition use_siwc (a : Auth) : option bool := assoc "use_siwc" (Metadata a) ≫= parseBoolAny.
(** What the comparison looks at. *)
Definition secrets (a : Auth) : list string * option bool :=
  ([authAccessToken (Some a); authOuterAccessToken (Some a); authRefreshToken (Some a); id_token a; api_key a;
    authSIWCTokenField (Some a) "access_token"; authSIWCTokenField (Some a) "refresh_token";
    authSIWCTokenField (Some a) "id_token"; authSIWCTokenField (Some a) "client_id"], use_siwc a).
Definition CredentialsChanged (existing incoming : Auth) : bool := negb (bool_decide (secrets existing = secrets incoming)).

Definition effectiveRejectedSIWCToken (a : Auth) : string :=
  let siwcTok := authSIWCTokenField (Some a) "access_token" in
  if String.eqb siwcTok "" then ""
  else if negb (String.eqb (RejectedSIWCAccessToken a) "") && String.eqb (RejectedSIWCAccessToken a) siwcTok then siwcTok
  else if negb (String.eqb (RejectedAccessToken a) "") && String.eqb (RejectedAccessToken a) siwcTok then siwcTok
  else "".
Definition shouldPreserveRejectedSIWCAccessToken (existing updated : Auth) : option string :=
  let rejectedSIWC := effectiveRejectedSIWCToken existing in
  if String.eqb rejectedSIWC "" then None
  else if String.eqb (authSIWCTokenField (Some updated) "access_token") rejectedSIWC then Some rejectedSIWC else None.
Definition shouldPreserveRejectedAccessToken (existing updated : Auth) (patch : option CredentialRefreshPatch) (isRefresh : bool) : bool :=
  let rejected := TrimSpace (RejectedAccessToken existing) in
  if String.eqb rejected "" then false else
  let existingSIWC := authSIWCTokenField (Some existing) "access_token" in
  if negb (String.eqb existingSIWC "") && String.eqb existingSIWC rejected
  then String.eqb (authSIWCTokenField (Some updated) "access_token") rejected
  else
    let existingOuter := authOuterAccessToken (Some existing) in
    if negb (String.eqb existingOuter "") && String.eqb existingOuter rejected then
      if negb (String.eqb (authOuterAccessToken (Some updated)) rejected) then false
      else if negb isRefresh then true
      else match patch with Some p => negb (RefreshedOuter p) | None => false end
    else false.
Definition applyPreservedRejectedTokens (existing updated : Auth) (patch : option CredentialRefreshPatch) (isRefresh : bool) : Auth :=
  let updated := updated <| RejectedSIWCAccessToken := default "" (shouldPreserveRejectedSIWCAccessToken existing updated) |> in
  updated <| RejectedAccessToken :=
    if shouldPreserveRejectedAccessToken existing updated patch isRefresh then RejectedAccessToken existing
    else if IsCodexUseSIWC (Some updated) && negb (String.eqb (RejectedSIWCAccessToken updated) "") then RejectedSIWCAccessToken updated
    else "" |>.

(** ** Early restoration of a Devin quota *)

Definition TrimSuffix (s suffix : string) : string :=
  if HasSuffix s suffix then String.substring 0 (String.length s - String.length suffix) s else s.
Definition devinRemainingPercent (raw : string) : option Z := ParseInt64 (TrimSpace (TrimSuffix (TrimSpace raw) "%")).
Definition devinQuotaObservationRestored (auth existing : Auth) (now : time) : bool :=
  if negb (EqualFold (TrimSpace (Provider existing)) "devin") then false
  else if negb (credential_wrap existing now) then false
  else
    let observedAt := Q_ObservedAt (Quota auth) in
    if IsZero observedAt || After observedAt now then false
    else if negb (After observedAt (Q_ObservedAt (Quota existing)))
            || (negb (IsZero (UpdatedAt existing)) && Before observedAt (UpdatedAt existing)) then false
    else match devinRemainingPercent (attr (Q_Signals (Quota auth)) "daily_quota_remaining_percent"),
               devinRemainingPercent (attr (Q_Signals (Quota auth)) "weekly_quota_remaining_percent") with
         | Some daily, Some weekly => (0 <? daily) && (0 <? weekly)
         | _, _ => false
         end.
(** One state of a credential whose quota is restored. *)
Definition restore_quota_state (now : time) (state : ModelState) : ModelState :=
  let reason := TrimSpace (Q_Reason (M_Quota state)) in
  let wrapped := credentialQuotaPropagated state || String.eqb reason "credential_quota" in
  if negb (Q_Exceeded (M_Quota state)) || (negb (String.eqb reason "quota") && negb wrapped) then state
  else match credentialQuotaShadow state with
       | Some shadow => if isModelStateActiveCooldown (Some shadow) now then (cloneShallow shadow) <| M_UpdatedAt := now |>
                        else resetModelState state now
       | None => resetModelState state now
       end.
Definition applyDevinQuotaRestoration (auth existing : Auth) (now : time) : Auth * bool :=
  if negb (devinQuotaObservationRestored auth existing now) || hasUnauthorizedAuthFailure (Some existing) then (auth, false) else
  let auth := auth <| Quota := applyCooldownFields (Quota auth) zeroQuota |>
                   <| ModelStates := option_map (restore_quota_state now) <$> ModelStates auth |>
                   <| A_Status := StatusActive |> <| StatusMessage := "" |> <| LastError := None |>
                   <| Unavailable := false |> <| NextRetryAfter := zero_time |> in
  (if bool_decide (ModelStates auth = ∅) then auth else updateAggregatedAvailability auth now, true).

Definition unauthorized_state (state : ModelState) : bool :=
  match M_LastError state with
  | Some e => (StatusCode (Some e) =? Unauthorized) || EqualFold (E_Code e) "unauthorized" || isUnauthorizedError (Some e)
  | None => false
  end || Contains (ToLower (M_StatusMessage state)) "unauthorized".
Definition clear_unauthorized (now : time) (state : ModelState) : ModelState :=
  if negb (unauthorized_state state) then state
  else if Q_Exceeded (M_Quota state) && (IsZero (Q_NextRecoverAt (M_Quota state)) || After (Q_NextRecoverAt (M_Quota state)) now)
  then state <| M_LastError := None |>
             <| M_StatusMessage := if Contains (ToLower (M_StatusMessage state)) "unauthorized" then Q_Reason (M_Quota state) else M_StatusMessage state |>
             <| M_UpdatedAt := now |>
  else resetModelState state now.
(** The models that resume. *)
Definition resumed_models (now : time) (auth : Auth) : list string :=
  omap (λ kv : string * option ModelState,
    match kv.2 with
    | Some state => if unauthorized_state state && negb (Q_Exceeded (M_Quota state) && (IsZero (Q_NextRecoverAt (M_Quota state)) || After (Q_NextRecoverAt (M_Quota state)) now))
                    then Some kv.1 else None
    | None => None
    end) (map_to_list (ModelStates auth)).
Definition clearUnauthorizedModelStates (auth : Auth) (now : time) : Auth * list string :=
  let anyChanged := existsb (λ kv, match kv.2 with Some state => unauthorized_state state | None => false end) (map_to_list (ModelStates auth)) in
  let cleared := auth <| ModelStates := option_map (clear_unauthorized now) <$> ModelStates auth |> in
  (if anyChanged then updateAggregatedAvailability cleared now else auth, resumed_models now auth).

(** ** A refreshed credential *)

Definition is_disabled (a : Auth) : bool := Disabled a || bool_decide (A_Status a = StatusDisabled).
(** Disabled or not: the executor's word counts when the user said nothing meanwhile. *)
Definition merge_disabled (base : option Auth) (current updated : Auth) : bool :=
  let baseDisabled := match base with Some b => is_disabled b | None => false end in
  if negb (Bool.eqb (is_disabled updated) baseDisabled) && Bool.eqb (is_disabled current) baseDisabled
  then is_disabled updated else is_disabled current.
Definition error_message (a : option Auth) : string := match a ≫= LastError with Some e => E_Message e | None => "" end.

(** The layers of the current states a merged one lacks. *)
Definition adopt_layers (current : gmap string (option ModelState)) (model : string) (mergedState : ModelState) : ModelState :=
  match mjoin (current !! model) with
  | None => mergedState
  | Some c =>
      let s := match credentialQuotaShadow c, credentialQuotaShadow mergedState with
               | Some shadow, None => mergedState <| credentialQuotaShadow := Some (cloneShallow shadow) |>
               | _, _ => mergedState
               end in
      s <| credentialQuotaPropagated := credentialQuotaPropagated s || credentialQuotaPropagated c |>
  end.
Definition merge_state (base current : gmap string (option ModelState)) (model : string) (updState : option ModelState)
    (merged : gmap string (option ModelState)) : gmap string (option ModelState) :=
  if negb (bool_decide (mjoin (base !! model) = updState)) && bool_decide (mjoin (base !! model) = mjoin (current !! model))
  then <[model := updState]> merged else merged.
Definition delete_state (current updated : gmap string (option ModelState)) (model : string) (baseState : option ModelState)
    (merged : gmap string (option ModelState)) : gmap string (option ModelState) :=
  match updated !! model, current !! model with
  | None, Some currentState => if bool_decide (baseState = currentState) then delete model merged else merged
  | _, _ => merged
  end.
Definition states_of (a : option Auth) : gmap string (option ModelState) := match a with Some a => ModelStates a | None => ∅ end.
Definition merge_states (base current : gmap string (option ModelState)) (updated : incoming) (merged : gmap string (option ModelState))
    : gmap string (option ModelState) :=
  let merged := map_imap (λ model s, Some (option_map (adopt_layers current model) s)) merged in
  if in_no_states updated then merged else
  let upd := ModelStates (in_auth updated) in
  range (delete_state current upd) (map_to_list base) (range (merge_state base current) (map_to_list upd) merged).

(** What the merge makes of the status when the credential is enabled: [t_quota],
    [t_devin] and [t_retry] are readings of the clock. *)
Definition merge_status (base : option Auth) (current updated merged : Auth) (t_quota t_devin t_retry : time) : Auth :=
  let hasNewConcurrentError := negb (String.eqb (error_message (Some current)) "")
                               && negb (String.eqb (error_message (Some current)) (error_message base)) in
  if hasNewConcurrentError then
    merged <| LastError := LastError current |> <| A_Status := A_Status current |> <| Unavailable := Unavailable current |>
           <| StatusMessage := StatusMessage current |>
  else if (credential_wrap current t_quota && negb (devinQuotaObservationRestored merged current t_devin))
          || (Unavailable current && After (NextRetryAfter current) t_retry)
  then merged <| Unavailable := Unavailable current |> <| A_Status := A_Status current |> <| StatusMessage := StatusMessage current |>
  else if (bool_decide (A_Status updated = StatusActive) || String.eqb (A_Status updated) "")
          && (String.eqb (RejectedAccessToken merged) "" || negb (String.eqb (authAccessToken (Some merged)) (RejectedAccessToken merged)))
  then merged <| A_Status := StatusActive |> <| Unavailable := false |> <| StatusMessage := "" |> <| LastError := None |>
  else merged.

Definition MergeRefreshedAuth (base : option Auth) (current : Auth) (updated : incoming) (t_quota t_devin t_retry : time) : Auth :=
  let merged := mergeAuthContent base current updated in
  if stale_base base current then merged else
  let upd := in_auth updated in
  let merged := applyPreservedRejectedTokens current merged (in_patch updated) true in
  let merged := if IsZero (LastRefreshedAt upd) then merged else merged <| LastRefreshedAt := LastRefreshedAt upd |> in
  let merged := if negb (IsZero (NextRefreshAfter upd)) || match base with Some b => negb (IsZero (NextRefreshAfter b)) | None => false end
                then merged <| NextRefreshAfter := NextRefreshAfter upd |> else merged in
  let merged :=
    if merge_disabled base current upd
    then merged <| Disabled := true |> <| A_Status := StatusDisabled |> <| Metadata := gomap_set "disabled" (VBool true) (Metadata merged) |>
    else
      let merged := merged <| Disabled := false |>
                           <| A_Status := if bool_decide (A_Status merged = StatusDisabled) then StatusActive else A_Status merged |>
                           <| Metadata := gomap_set "disabled" (VBool false) (Metadata merged) |> in
      merge_status base current upd merged t_quota t_devin t_retry in
  let merged := merged <| Quota := mergeQuotaObservation (Quota merged) (Quota upd) |> in
  merged <| ModelStates := merge_states (states_of base) (ModelStates current) updated (ModelStates merged) |>.

(** ** What a new login takes over from the file before it *)

Definition existing_entry (provider : string) (k : string) (v : goval) (metadata : gomap) : gomap :=
  if IsAuthTokenPayloadKey k then metadata
  else if EqualFold (TrimSpace provider) "meta"
          && bool_decide (CanonicalCredentialMetadataKey k ∈ ["api_key"; "dca_token"; "dca_expired"; "dca_expires_at"]) then metadata
  else match assoc k metadata with Some _ => metadata | None => gomap_set k v metadata end.
Definition MergeExistingAuthMetadata (target : Auth) (existingMap : gomap) : Auth :=
  if bool_decide (existingMap = []) then target else
  let target := match assoc "disabled" (Metadata target), assoc "disabled" existingMap with
                | None, Some (VBool d) => target <| Disabled := d |>
                | _, _ => target
                end in
  target <| Metadata := range (existing_entry (Provider target)) existingMap (Metadata target) |>.

(** ** The loops, entry by entry *)

Lemma merge_entry_other patched base current k v m k' : k ≠ k' → assoc k' (merge_entry patched base current k v m) = assoc k' m.
Proof.
  intros Hne. assert (∀ w, assoc k' (gomap_set k w m) = assoc k' m) as Hset by (intros; rewrite assoc_set; by rewrite (proj2 (String.eqb_neq k' k)) by done).
  unfold merge_entry, merge_siwc. destruct (EqualFold (TrimSpace k) "proxy_url"); [done|]. destruct (patched && _); [done|].
  destruct (EqualFold (TrimSpace k) "siwc"); [|by destruct (_ && _)]. destruct v as [| | | | | | | | | | | | | | | | |[|e l]| | | |]; try done. by destruct (same_entry _ _).
Qed.
Lemma merge_entry_local patched base current k v m m' : assoc k m = assoc k m' →
  assoc k (merge_entry patched base current k v m) = assoc k (merge_entry patched base current k v m').
Proof.
  intros Heq. unfold merge_entry, merge_siwc. destruct (EqualFold (TrimSpace k) "proxy_url"); [done|]. destruct (patched && _); [done|].
  destruct (EqualFold (TrimSpace k) "siwc"); [|destruct (_ && _); [by rewrite !assoc_set, String.eqb_refl|done]].
  destruct v as [| | | | | | | | | | | | | | | | |[|e l]| | | |]; try done. destruct (same_entry _ _); [done|]. by rewrite !assoc_set, String.eqb_refl.
Qed.
Lemma merge_deletion_other current updated k b m k' : k ≠ k' → assoc k' (merge_deletion current updated k b m) = assoc k' m.
Proof.
  intros Hne. unfold merge_deletion. destruct (_ || _ || _); [done|]. destruct (assoc k updated); [done|]. destruct (assoc k current); [|done].
  destruct (deep_equal _ _); [|done]. rewrite assoc_delete. by rewrite (proj2 (String.eqb_neq k' k)).
Qed.
Lemma merge_deletion_local current updated k b m m' : assoc k m = assoc k m' →
  assoc k (merge_deletion current updated k b m) = assoc k (merge_deletion current updated k b m').
Proof.
  intros Heq. unfold merge_deletion. destruct (_ || _ || _); [done|]. destruct (assoc k updated); [done|]. destruct (assoc k current); [|done].
  destruct (deep_equal _ _); [|done]. by rewrite !assoc_delete, String.eqb_refl.
Qed.

(** Keys without a treatment of their own. *)
Definition ordinary (k : string) : Prop :=
  EqualFold (TrimSpace k) "proxy_url" = false ∧ EqualFold (TrimSpace k) "siwc" = false
  ∧ ToLower (TrimSpace k) ∉ ["proxy_url"; "siwc"; "use_siwc"].

(** The metadata before a refresh patch is applied. *)
Definition merged_entries (base current : gomap) (updated : incoming) : gomap :=
  let upd := Metadata (in_auth updated) in
  range (merge_deletion current upd) base
    (range (merge_entry match in_patch updated with Some _ => true | None => false end base current) upd current).
Lemma merged_entries_lookup base current updated k : keyed base → keyed (Metadata (in_auth updated)) →
  assoc k (merged_entries base current updated) =
  match assoc k (Metadata (in_auth updated)) with
  | Some v => assoc k (merge_entry match in_patch updated with Some _ => true | None => false end base current k v current)
  | None => match assoc k base with
            | Some b => assoc k (merge_deletion current (Metadata (in_auth updated)) k b current)
            | None => assoc k current
            end
  end.
Proof.
  intros Hb Hu. unfold merged_entries. set (upd := Metadata (in_auth updated)) in *. set (patched := match in_patch updated with Some _ => true | None => false end).
  rewrite (range_local (merge_deletion current upd) (λ m k, assoc k m));
    [|done|intros; by apply merge_deletion_other|intros; by apply merge_deletion_local].
  assert (assoc k (range (merge_entry patched base current) upd current) =
    match assoc k upd with Some v => assoc k (merge_entry patched base current k v current) | None => assoc k current end) as Hent.
  { apply (range_local (merge_entry patched base current) (λ m k, assoc k m)); [done|intros; by apply merge_entry_other|intros; by apply merge_entry_local]. }
  destruct (assoc k upd) as [v|] eqn:Ev.
  - destruct (assoc k base) as [b|]; [|done]. rewrite <-Hent. unfold merge_deletion. rewrite Ev. by destruct (_ || _ || _).
  - destruct (assoc k base) as [b|]; [|done]. by apply merge_deletion_local.
Qed.

(** The rule of the ordinary entries. *)
Definition entry_rule (base current upd : gomap) (k : string) : option goval :=
  three_way same_entry (negb (IsAuthTokenPayloadKey k)) (assoc k base) (assoc k current) (assoc k upd).
(** A refresh patch, if there is one, leaves the entry to this rule. *)
Definition unpatched (updated : incoming) (k : string) : Prop :=
  in_patch updated = None ∨ IsCodexCredentialKey (ToLower (TrimSpace k)) = false.
Definition built (p : CredentialRefreshPatch) : Prop :=
  ∃ before diskBefore after outer siwc, p = NewCredentialRefreshPatchWithDiskBaseline before diskBefore after outer siwc.

Lemma merged_entries_ordinary base current updated k : keyed base → keyed (Metadata (in_auth updated)) → ordinary k → unpatched updated k →
  assoc k (merged_entries base current updated) = entry_rule base current (Metadata (in_auth updated)) k.
Proof.
  intros Hb Hu (H1 & H2 & H3) Hp. rewrite merged_entries_lookup by done. set (upd := Metadata (in_auth updated)).
  unfold entry_rule, three_way. destruct (assoc k upd) as [v|] eqn:Ev.
  - unfold merge_entry. rewrite H1, H2. assert (match in_patch updated with Some _ => true | None => false end && IsCodexCredentialKey (ToLower (TrimSpace k)) = false) as ->
      by (destruct Hp as [-> | ->]; [done|by rewrite andb_false_r]). rewrite !negb_involutive. destruct (_ && _); [by rewrite assoc_set, String.eqb_refl|done].
  - destruct (assoc k base) as [b|] eqn:Eb; [|by destruct (assoc k current)]. unfold merge_deletion.
    rewrite !(proj2 (String.eqb_neq _ _)) by (intros E; apply H3; rewrite E; set_solver). cbn [orb]. rewrite Ev.
    destruct (assoc k current) as [c|] eqn:Ec; [|by rewrite Ec]. cbn [same_entry]. destruct (deep_equal b c); [by rewrite assoc_delete, String.eqb_refl|by rewrite Ec].
Qed.

(** The switch between the two credentials is never deleted, the nested one is written
    field by field and never deleted. *)
Lemma merged_entries_switch base current updated : keyed base → keyed (Metadata (in_auth updated)) → in_patch updated = None →
  assoc "use_siwc" (merged_entries base current updated) =
  match assoc "use_siwc" (Metadata (in_auth updated)) with
  | Some _ => entry_rule base current (Metadata (in_auth updated)) "use_siwc" | None => assoc "use_siwc" current
  end.
Proof.
  intros Hb Hu Hp. rewrite merged_entries_lookup, Hp by done. unfold entry_rule. destruct (assoc "use_siwc" (Metadata (in_auth updated))) as [v|].
  - unfold merge_entry, three_way. rewrite !negb_involutive.
    change (EqualFold (TrimSpace "use_siwc") "proxy_url") with false. change (EqualFold (TrimSpace "use_siwc") "siwc") with false. cbn [andb].
    destruct (_ && _); [by rewrite assoc_set, String.eqb_refl|done].
  - by destruct (assoc "use_siwc" base).
Qed.
Lemma set_all_lookup fields : keyed fields → ∀ (m : gomap) f, assoc f (range gomap_set fields m) = match assoc f fields with Some v => Some v | None => assoc f m end.
Proof.
  intros Hk m f. rewrite (range_local gomap_set (λ m k, assoc k m)); [|done|..].
  - destruct (assoc f fields); [|done]. by rewrite assoc_set, String.eqb_refl.
  - intros k v m' k' Hne. rewrite assoc_set. by rewrite (proj2 (String.eqb_neq k' k)) by done.
  - intros. by rewrite !assoc_set, String.eqb_refl.
Qed.
(** The nested credential the executor's fields are laid over. *)
Definition nested_start (base current : gomap) : gomap :=
  match assoc "siwc" current with Some (VMap cur) => cur | _ => siwc_of base end.
Lemma merged_entries_nested base current updated : keyed base → keyed (Metadata (in_auth updated)) → in_patch updated = None →
  assoc "siwc" (merged_entries base current updated) =
  match assoc "siwc" (Metadata (in_auth updated)) with
  | Some (VMap ((_ :: _) as fields)) =>
      if same_entry (assoc "siwc" base) (Some (VMap fields)) then assoc "siwc" current
      else Some (VMap (range gomap_set fields (nested_start base current)))
  | _ => assoc "siwc" current
  end.
Proof.
  intros Hb Hu Hp. rewrite merged_entries_lookup, Hp by done. destruct (assoc "siwc" (Metadata (in_auth updated))) as [v|]; [|by destruct (assoc "siwc" base)].
  unfold merge_entry. change (EqualFold (TrimSpace "siwc") "proxy_url") with false. change (EqualFold (TrimSpace "siwc") "siwc") with true. cbn [andb].
  destruct v as [| | | | | | | | | | | | | | | | |[|e l]| | | |]; try done. unfold merge_siwc. destruct (same_entry _ _); [done|]. by rewrite assoc_set, String.eqb_refl.
Qed.

(** A patch leaves alone what belongs to no credential. *)
Lemma apply_foreign p m k : built p → IsCodexCredentialKey k = false → assoc k (Apply p m) = assoc k m.
Proof.
  intros (b & d & a & o & si & ->) Hk. unfold IsCodexCredentialKey in Hk. apply orb_false_iff in Hk as [[H1 _]%orb_false_iff H2%bool_decide_eq_false].
  rewrite apply_outer by (by apply String.eqb_neq). destruct o; cbn [p_outer NewCredentialRefreshPatchWithDiskBaseline]; [|done].
  set (q := mkPartition _ _ _). assert (∀ base, matchesBaselineOrAfter m q = Some base → assoc "expires_at" base = None) as Hx.
  { intros base. unfold matchesBaselineOrAfter. subst q. cbn [p_diskBefore p_before p_after].
    pose proof (λ md, fields_lookup md codexOuterCredentialKeys "expires_at") as Hf. rewrite bool_decide_false in Hf by apply expires_not_outer.
    repeat match goal with |- context [if ?c then _ else _] => destruct c end; intros [= <-]; apply Hf. }
  destruct (matchesBaselineOrAfter m q) as [base|]; [|done]. specialize (Hx base eq_refl). rewrite apply_fields_lookup by apply outer_keyed.
  subst q. cbn [p_after]. rewrite fields_lookup, bool_decide_false by done. destruct (String.eqb_spec k "expires_at") as [->|]; [by rewrite Hx|done].
Qed.
Lemma codex_key_lower k : IsCodexCredentialKey (ToLower (TrimSpace k)) = false → IsCodexCredentialKey k = false.
Proof.
  intros Hl. destruct (IsCodexCredentialKey k) eqn:E; [|done]. assert (k ∈ "siwc" :: "use_siwc" :: codexOuterCredentialKeys) as Hin.
  { unfold IsCodexCredentialKey in E. apply orb_true_iff in E as [[->%String.eqb_eq| ->%String.eqb_eq]%orb_true_iff|E%bool_decide_eq_true]; set_solver. }
  exfalso. revert Hl. unfold codexOuterCredentialKeys in Hin. repeat (apply elem_of_cons in Hin as [->|Hin]; [by vm_compute|]). by apply elem_of_nil in Hin.
Qed.
Lemma merge_metadata_ordinary base current updated k : keyed base → keyed (Metadata (in_auth updated)) →
  in_no_metadata updated = false → (∀ p, in_patch updated = Some p → built p) → ordinary k → unpatched updated k →
  assoc k (merge_metadata base current updated) = entry_rule base current (Metadata (in_auth updated)) k.
Proof.
  intros Hb Hu Hn Hp Hk Hun. rewrite <-merged_entries_ordinary by done. unfold merge_metadata. rewrite Hn. fold (merged_entries base current updated).
  destruct (in_patch updated) as [p|] eqn:E; [|done]. destruct Hun as [?|Hun]; [congruence|]. apply apply_foreign; [by apply Hp|by apply codex_key_lower].
Qed.

Lemma lookup_assoc {A} (m : gmap string A) k : assoc k (map_to_list m) = m !! k.
Proof.
  destruct (m !! k) as [v|] eqn:E.
  - apply elem_assoc; [apply NoDup_fst_map_to_list|by apply elem_of_map_to_list].
  - apply assoc_notin. intros ([k' v] & -> & Hin)%list_elem_of_fmap. apply elem_of_map_to_list in Hin. cbn in E. congruence.
Qed.
Lemma keyed_map {A} (m : gmap string A) : keyed (map_to_list m).
Proof. apply NoDup_fst_map_to_list. Qed.

Lemma merge_attributes_lookup base current updated k : in_no_attributes updated = false →
  merge_attributes base current updated !! k = three_way same_string true (base !! k) (current !! k) (Attributes (in_auth updated) !! k).
Proof.
  intros Hn. unfold merge_attributes. rewrite Hn. set (upd := Attributes (in_auth updated)).
  rewrite (range_local (delete_attribute current upd) (λ (m : gmap string string) k, m !! k)); [|apply keyed_map|..].
  2:{ intros k1 v m k' Hne. unfold delete_attribute. destruct (upd !! k1); [done|]. destruct (current !! k1); [|done].
      destruct (String.eqb _ _); [by rewrite lookup_delete_ne|done]. }
  2:{ intros k1 v m m' Heq. unfold delete_attribute. destruct (upd !! k1); [done|]. destruct (current !! k1); [|done].
      destruct (String.eqb _ _); [by rewrite !lookup_delete_eq|done]. }
  rewrite lookup_assoc.
  assert (∀ k, range (merge_attribute base current) (map_to_list upd) current !! k =
    match upd !! k with Some v => merge_attribute base current k v current !! k | None => current !! k end) as Hent.
  { intros k0. rewrite <-(lookup_assoc upd). apply (range_local (merge_attribute base current) (λ (m : gmap string string) k, m !! k)); [apply keyed_map|..].
    - intros k1 v m k' Hne. unfold merge_attribute. destruct (_ && _); [by rewrite lookup_insert_ne|done].
    - intros k1 v m m' Heq. unfold merge_attribute. destruct (_ && _); [by rewrite !lookup_insert_eq|done]. }
  unfold three_way. destruct (upd !! k) as [v|] eqn:Ev.
  - assert (∀ b m, delete_attribute current upd k b m !! k = m !! k) as Hd by (intros; unfold delete_attribute; by rewrite Ev).
    assert (merge_attribute base current k v current !! k =
      if negb (same_string (base !! k) (Some v)) && same_string (base !! k) (current !! k) then Some v else current !! k) as Hm.
    { unfold merge_attribute. destruct (_ && _); [by rewrite lookup_insert_eq|done]. }
    cbn [negb]. rewrite orb_false_r. destruct (base !! k) as [b|]; [rewrite Hd|]; by rewrite Hent, Ev, Hm.
  - unfold same_string. destruct (base !! k) as [b|]; [|rewrite Hent, Ev; by destruct (current !! k)].
    unfold delete_attribute. rewrite Ev. destruct (current !! k) as [c|] eqn:Ec; [|by rewrite Hent, Ev, Ec].
    destruct (String.eqb_spec b c) as [->|Hne]; [by rewrite lookup_delete_eq, bool_decide_true|].
    rewrite Hent, Ev, Ec. by rewrite bool_decide_false by congruence.
Qed.

Lemma adopt_clone current k s : adopt_layers current k (ModelState_Clone s) =
  match mjoin (current !! k) with
  | Some c => if bool_decide (c = s) then ModelState_Clone s else adopt_layers current k (ModelState_Clone s)
  | None => ModelState_Clone s
  end.
Proof.
  unfold adopt_layers. destruct (mjoin (current !! k)) as [c|]; [|done]. case_bool_decide as E; [subst c|done].
  destruct s as [? ? ? ? ? ? ? ? [sh|] []]; reflexivity.
Qed.
Lemma adopt_all_clones current :
  map_imap (λ model s, Some (option_map (adopt_layers current model) s)) (option_map ModelState_Clone <$> current) = option_map ModelState_Clone <$> current.
Proof.
  apply map_eq. intros i. rewrite map_lookup_imap, lookup_fmap. destruct (current !! i) as [[s|]|] eqn:E; cbn; [|done..].
  rewrite adopt_clone, E. cbn. by rewrite bool_decide_true.
Qed.
Lemma merge_states_none base current updated : in_no_states updated = true →
  merge_states base current updated (option_map ModelState_Clone <$> current) = option_map ModelState_Clone <$> current.
Proof. intros Hn. unfold merge_states. rewrite Hn. apply adopt_all_clones. Qed.
Lemma merge_states_lookup base current updated k : in_no_states updated = false →
  merge_states base current updated (option_map ModelState_Clone <$> current) !! k =
  match ModelStates (in_auth updated) !! k with
  | Some u => if negb (bool_decide (mjoin (base !! k) = u)) && bool_decide (mjoin (base !! k) = mjoin (current !! k)) then Some u
              else option_map ModelState_Clone <$> current !! k
  | None => match base !! k, current !! k with
            | Some b, Some c => if bool_decide (b = c) then None else option_map ModelState_Clone <$> current !! k
            | _, c => option_map ModelState_Clone <$> c
            end
  end.
Proof.
  intros Hn. unfold merge_states. rewrite Hn. set (upd := ModelStates (in_auth updated)).
  rewrite adopt_all_clones.
  rewrite (range_local (delete_state current upd) (λ (m : gmap string (option ModelState)) k, m !! k)); [|apply keyed_map|..].
  2:{ intros k1 v m k' Hne. unfold delete_state. destruct (upd !! k1); [done|]. destruct (current !! k1); [|done].
      destruct (bool_decide _); [by rewrite lookup_delete_ne|done]. }
  2:{ intros k1 v m m' Heq. unfold delete_state. destruct (upd !! k1); [done|]. destruct (current !! k1); [|done].
      destruct (bool_decide _); [by rewrite !lookup_delete_eq|done]. }
  rewrite lookup_assoc. set (cloned := option_map ModelState_Clone <$> current).
  assert (range (merge_state base current) (map_to_list upd) cloned !! k =
    match upd !! k with Some v => merge_state base current k v cloned !! k | None => cloned !! k end) as Hent.
  { rewrite <-(lookup_assoc upd). apply (range_local (merge_state base current) (λ (m : gmap string (option ModelState)) k, m !! k)); [apply keyed_map|..].
    - intros k1 v m k' Hne. unfold merge_state. destruct (_ && _); [by rewrite lookup_insert_ne|done].
    - intros k1 v m m' Heq. unfold merge_state. destruct (_ && _); [by rewrite !lookup_insert_eq|done]. }
  assert (∀ u, merge_state base current k u cloned !! k =
    if negb (bool_decide (mjoin (base !! k) = u)) && bool_decide (mjoin (base !! k) = mjoin (current !! k)) then Some u else cloned !! k) as Hm.
  { intros u. unfold merge_state. destruct (_ && _); [by rewrite lookup_insert_eq|done]. }
  assert (cloned !! k = option_map ModelState_Clone <$> current !! k) as Hc by (unfold cloned; by rewrite lookup_fmap).
  destruct (upd !! k) as [u|] eqn:Eu.
  - assert (∀ b m, delete_state current upd k b m !! k = m !! k) as Hd by (intros; unfold delete_state; by rewrite Eu).
    destruct (base !! k) as [b|] eqn:Eb; [rewrite Hd|]; by rewrite Hent, Hm, Hc, ?Eb.
  - destruct (base !! k) as [b|] eqn:Eb; [|by rewrite Hent, Hc]. unfold delete_state. rewrite Eu.
    destruct (current !! k) as [c|] eqn:Ec; [|by rewrite Hent, Hc, ?Ec]. destruct (bool_decide (b = c)); [by rewrite lookup_delete_eq|].
    by rewrite Hent, Hc.
Qed.

(** ** What a merge keeps *)

Lemma merge_proxy_spec base current updated :
  let proxy := merge_proxy base current updated in
  (proxy_of current ≠ proxy_of base → proxy ∈ [(proxy_of current).1; (proxy_of current).2])
  ∧ (proxy_of current = proxy_of base → proxy_of updated ≠ proxy_of base → proxy ∈ [(proxy_of updated).1; (proxy_of updated).2])
  ∧ (proxy_of current = proxy_of base → proxy_of updated = proxy_of base →
     proxy = if String.eqb (proxy_of current).1 "" then (proxy_of current).2 else (proxy_of current).1).
Proof.
  unfold merge_proxy. destruct (proxy_of base) as [bs bm], (proxy_of current) as [cs cm], (proxy_of updated) as [us um]. cbn [fst snd].
  assert (∀ a b c (s m : string), (if a && negb b then s else if b && negb a then m else if negb (c : bool) then s else m) ∈ [s; m]) as Hin
    by (intros [] [] [] s m; cbn; set_solver).
  destruct (String.eqb_spec cs bs) as [->|Hs], (String.eqb_spec cm bm) as [->|Hm]; cbn [negb orb].
  2-4: split_and!; [intros _; first [apply (Hin false true)|apply (Hin true false)|apply (Hin true true)]|intros [=]; done|intros [=]; done].
  split_and!; [done| |].
  - intros _ Hne. destruct (String.eqb_spec us bs) as [->|Hus], (String.eqb_spec um bm) as [->|Hum]; cbn [negb orb];
      [done|apply (Hin false true)|apply (Hin true false)|apply (Hin true true)].
  - intros _ [= -> ->]. rewrite !String.eqb_refl. cbn [negb orb andb]. rewrite andb_true_r.
    destruct (String.eqb_spec bs "") as [->|]; [|by rewrite andb_false_r]. rewrite andb_true_r. by destruct (String.eqb_spec bm "") as [->|].
Qed.

Definition three_way_prefix (base current updated : string) : string := if String.eqb current base then updated else current.


(** *** A refresh *)

(** What a merge never touches, and what a refresh leaves of the status. *)
Record kept (current merged : Auth) : Prop := {
  kept_identity : (ID merged, RegistrationEpoch merged, CredentialVersion merged, Generation merged)
                = (ID current, RegistrationEpoch current, CredentialVersion current, Generation current);
  kept_retry : NextRetryAfter merged = NextRetryAfter current;
  kept_quota : Quota merged = Quota current;
  kept_states : ModelStates merged = option_map ModelState_Clone <$> ModelStates current }.
Definition cooling (current : Auth) (t_quota t_retry : time) : bool :=
  (credential_wrap current t_quota && negb (EqualFold (TrimSpace (Provider current)) "devin"))
  || (Unavailable current && After (NextRetryAfter current) t_retry).

Lemma merge_content_kept base current updated : kept current (mergeAuthContent base current updated).
Proof. unfold mergeAuthContent. by destruct (stale_base base current). Qed.
Lemma merge_status_kept base current upd merged t1 t2 t3 : kept current merged → A_Status merged ≠ StatusDisabled →
  let m := merge_status base current upd merged t1 t2 t3 in
  kept current m ∧ Disabled m = Disabled merged ∧ Metadata m = Metadata merged
  ∧ (A_Status m = StatusDisabled → A_Status current = StatusDisabled)
  ∧ (cooling current t1 t3 = true → Unavailable m = Unavailable current ∧ A_Status m = A_Status current ∧ StatusMessage m = StatusMessage current).
Proof.
  intros [K1 K2 K3 K4] Hd m. unfold m, merge_status. destruct (negb _ && negb _).
  { split_and!; [by split|done|done|done|done]. }
  assert (cooling current t1 t3 = true →
    credential_wrap current t1 && negb (devinQuotaObservationRestored merged current t2) || Unavailable current && After (NextRetryAfter current) t3 = true) as Hcool.
  { unfold cooling. intros [H|H]%orb_true_iff; apply orb_true_iff; [left|by right]. apply andb_true_iff in H as [H1 H2]. rewrite H1.
    unfold devinQuotaObservationRestored. by rewrite H2. }
  destruct (_ || _); [split_and!; [by split|done|done|done|done]|].
  destruct (_ && _); (split_and!; [by split|done|done|done|]); intros H; by specialize (Hcool H).
Qed.

(** C25: A refresh respects what happened while it ran, unless the credential was
    registered anew meanwhile: then it changes nothing.  Otherwise a credential the user disabled or
    enabled meanwhile stays so, whatever the executor says; else the executor's word
    counts; the record and the [disabled] entry of its metadata agree, and a disabled credential has
    the disabled status.  (An enabled one may keep a disabled status it already had: a new
    concurrent error or a cooldown carries the current status over.)  The
    cooldown fields of the quota and the retry time are always the current ones, an enabled
    credential that is cooling (other than by a Devin quota, which may be restored early)
    stays as unavailable as it was, and when the executor brought
    states, the state of every model that changed meanwhile survives; when it brought none,
    every state does.  Identity, epoch and versions never move. *)
Theorem refresh_respects (base : option Auth) (current : Auth) (updated : incoming) (t_quota t_devin t_retry : time) :
  let merged := MergeRefreshedAuth base current updated t_quota t_devin t_retry in
  let was_disabled := match base with Some b => is_disabled b | None => false end in
  (ID merged, RegistrationEpoch merged, CredentialVersion merged, Generation merged)
    = (ID current, RegistrationEpoch current, CredentialVersion current, Generation current)
  ∧ (stale_base base current = true → merged = Auth_Clone current)
  ∧ (stale_base base current = false →
    (is_disabled current ≠ was_disabled → Disabled merged = is_disabled current)
    ∧ (is_disabled current = was_disabled → Disabled merged = is_disabled (in_auth updated))
    ∧ assoc "disabled" (Metadata merged) = Some (VBool (Disabled merged))
    ∧ (Disabled merged = true → A_Status merged = StatusDisabled)
    ∧ (Disabled merged = false → A_Status merged = StatusDisabled → A_Status current = StatusDisabled)
    ∧ (Q_Exceeded (Quota merged), Q_Reason (Quota merged), Q_NextRecoverAt (Quota merged), NextRetryAfter merged)
      = (Q_Exceeded (Quota current), Q_Reason (Quota current), Q_NextRecoverAt (Quota current), NextRetryAfter current)
    ∧ (Disabled merged = false → cooling current t_quota t_retry = true → Unavailable merged = Unavailable current)
    ∧ (∀ k, in_no_states updated = true ∨ mjoin (states_of base !! k) ≠ mjoin (ModelStates current !! k) →
        ModelStates merged !! k = option_map ModelState_Clone <$> ModelStates current !! k)).
Proof.
  intros merged was_disabled. destruct (stale_base base current) eqn:Hs.
  { assert (merged = Auth_Clone current) as -> by (unfold merged, MergeRefreshedAuth, mergeAuthContent; by rewrite Hs). done. }
  unfold merged, MergeRefreshedAuth. rewrite Hs. set (upd := in_auth updated).
  pose proof (merge_content_kept base current updated) as Hkept. set (content := mergeAuthContent base current updated) in *. clearbody content.
  set (m1 := applyPreservedRejectedTokens current content (in_patch updated) true).
  assert (kept current m1) as K1 by (destruct Hkept; by split). clearbody m1.
  set (m2 := if IsZero (LastRefreshedAt upd) then m1 else _).
  assert (kept current m2) as K2 by (unfold m2; destruct (IsZero _); destruct K1; by split). clearbody m2.
  set (m3 := if _ || _ then m2 <| NextRefreshAfter := _ |> else m2).
  assert (kept current m3) as K3 by (unfold m3; destruct (_ || _); destruct K2; by split). clearbody m3. cbv zeta.
  set (m4 := if merge_disabled base current upd then _ else _).
  assert (kept current m4 ∧ Disabled m4 = merge_disabled base current upd ∧ assoc "disabled" (Metadata m4) = Some (VBool (Disabled m4))
    ∧ (Disabled m4 = true → A_Status m4 = StatusDisabled)
    ∧ (Disabled m4 = false → A_Status m4 = StatusDisabled → A_Status current = StatusDisabled)
    ∧ (Disabled m4 = false → cooling current t_quota t_retry = true → Unavailable m4 = Unavailable current)) as (K4 & D1 & D2 & D3 & D4 & D5).
  { unfold m4. destruct (merge_disabled base current upd).
    - destruct K3. split_and!; [by split|done| |done|done|done]. change (assoc "disabled" (gomap_set "disabled" (VBool true) (Metadata m3)) = Some (VBool true)).
      by rewrite assoc_set.
    - set (e := m3 <| Disabled := false |> <| A_Status := _ |> <| Metadata := _ |>).
      assert (kept current e) as Ke by (destruct K3; by split).
      assert (A_Status e ≠ StatusDisabled) as He by (unfold e; cbn; by case_bool_decide).
      destruct (merge_status_kept base current upd e t_quota t_devin t_retry Ke He) as (S1 & S2 & S3 & S4 & S5).
      assert (Disabled (merge_status base current upd e t_quota t_devin t_retry) = false) as Hd by (by rewrite S2).
      split_and!; [done|done| |by rewrite Hd|by intros _|intros _ Hc; by apply S5]. rewrite S3, Hd. unfold e.
      change (assoc "disabled" (gomap_set "disabled" (VBool false) (Metadata m3)) = Some (VBool false)). by rewrite assoc_set. }
  clearbody m4. destruct K4 as [I1 I2 I3 I4]. cbn [ID RegistrationEpoch CredentialVersion Generation Disabled Metadata A_Status Quota NextRetryAfter Unavailable ModelStates].
  assert (merge_disabled base current upd = if Bool.eqb (is_disabled current) was_disabled then is_disabled upd else is_disabled current) as Hmd.
  { unfold merge_disabled. fold was_disabled. destruct (is_disabled upd), was_disabled, (is_disabled current); reflexivity. }
  split; [exact I1|]. split; [done|]. intros _. split_and!; [| |exact D2|exact D3|exact D4| |exact D5|].
  - intros Hne. etrans; [exact D1|]. rewrite Hmd. by rewrite (proj2 (eqb_false_iff _ _) Hne).
  - intros Heq. etrans; [exact D1|]. by rewrite Hmd, Heq, eqb_reflx.
  - change (let q := mergeQuotaObservation (Quota m4) (Quota upd) in
      (Q_Exceeded q, Q_Reason q, Q_NextRecoverAt q, NextRetryAfter m4)
      = (Q_Exceeded (Quota current), Q_Reason (Quota current), Q_NextRecoverAt (Quota current), NextRetryAfter current)).
    rewrite I2, I3. unfold mergeQuotaObservation. by destruct (_ || _).
  - intros k Hk. change (merge_states (states_of base) (ModelStates current) updated (ModelStates m4) !! k = option_map ModelState_Clone <$> ModelStates current !! k).
    rewrite I4. destruct (in_no_states updated) eqn:Hn; [by rewrite merge_states_none, lookup_fmap by done|].
    destruct Hk as [?|Hk]; [done|]. rewrite merge_states_lookup by done. destruct (ModelStates (in_auth updated) !! k) as [u|].
    { rewrite (bool_decide_false (mjoin (states_of base !! k) = mjoin (ModelStates current !! k))) by done. by rewrite andb_false_r. }
    destruct (states_of base !! k) as [b|] eqn:Eb; [|done]. destruct (ModelStates current !! k) as [c|] eqn:Ec; [|done]. by rewrite bool_decide_false.
Qed.
