(* ===== verification/CredentialStore.v ===== *)
(** * The credentials of the manager: registration, updates, removal

    Models [conductor_lifecycle.go] and, of [conductor_persistence.go], the merge of what
    a store and concurrent writers did to a credential while it was being saved, and the
    saving of a single metadata entry.

    Saving happens outside the lock of the manager: an operation is two steps, up to the
    save ([Saving]) and after it, and runtime writers - the refresh scheduler, failed
    refreshes, capacity polls, cleared cooldowns - change the published credential in
    between.  The gate of a credential keeps other operations on it out; so a credential is
    in flight at most once.  What is published is logged; delivering it to the scheduler
    comes later, in any order.

    The readings of the clock are a function [rd] of their number in the call.  What
    [filepath] and SHA-256 make of a seed is the class [IndexHost].  An update that has no
    states of its own inherits those of the credential it replaces as a copy. *)
From Stdlib Require Import ZArith Lia String Bool.
From stdpp Require Import prelude gmap strings.
From S2P Require Import Prelude GoStd AuthTypes Weight Availability Errors Json Classify QuotaSignals Cooldown ExecutionResult Shard Scheduler Metadata Merge.
Local Open Scope string_scope.
Local Open Scope list_scope.
Local Open Scope Z_scope.

(** ** The index of a credential *)

Class IndexHost := { filepath_Abs : string → option string; filepath_Clean : string → string; sha256_index : string → string }.

Section store.
Context {gh : GoHost} {st : Settings} {ih : IndexHost}.

Definition stableAuthIndex (seed : string) : string := let seed := TrimSpace seed in if String.eqb seed "" then "" else sha256_index seed.
Definition api_prefix (compatName provider : string) : string :=
  if negb (String.eqb compatName "") || EqualFold provider "openai-compatibility" then "openai-compatibility"
  else if EqualFold provider "gemini" then "gemini-api-key" else if EqualFold provider "gemini-interactions" then "interactions-api-key"
  else if EqualFold provider "codex" then "codex-api-key" else if EqualFold provider "xai" then "xai-api-key"
  else if EqualFold provider "claude" then "claude-api-key" else if EqualFold provider "meta" then "meta-api-key" else "".
Definition indexSeed (a : Auth) : string :=
  let seed := TrimSpace (attr (Attributes a) AttributeAuthIndexSeed) in
  if negb (String.eqb seed "") then (AttributeAuthIndexSeed ++ ":" ++ seed)%string else
  let provider := ToLower (TrimSpace (Provider a)) in
  let apiKey := TrimSpace (attr (Attributes a) "api_key") in
  let filePath := or_else (or_else (or_else (TrimSpace (attr (Attributes a) "path")) (TrimSpace (attr (Attributes a) "source")))
                             (TrimSpace (FileName a))) (TrimSpace (ID a)) in
  let by_file :=
    if negb (String.eqb filePath "") && HasSuffix (ToLower filePath) ".json" then
      let filePath := match filepath_Abs filePath with
                      | Some abs => if String.eqb (TrimSpace abs) "" then filePath else abs
                      | None => filePath
                      end in
      let authType := match assoc "type" (Metadata a) with Some (VString t) => TrimSpace t | _ => "" end in
      let authType := ToLower (TrimSpace (or_else authType (TrimSpace provider))) in
      if String.eqb authType "" then None else Some (authType ++ ":" ++ filepath_Clean filePath)%string
    else None in
  match by_file with
  | Some s => s
  | None =>
      let apiPrefix := if String.eqb apiKey "" then "" else api_prefix (TrimSpace (attr (Attributes a) "compat_name")) provider in
      if negb (String.eqb apiPrefix "")
      then (apiPrefix ++ ":" ++ TrimSpace (attr (Attributes a) "base_url") ++ "+" ++ TrimSpace apiKey)%string
      else if String.eqb (TrimSpace (ID a)) "" then "" else ("id:" ++ TrimSpace (ID a))%string
  end.
Definition EnsureIndex (a : Auth) : Auth :=
  let existingIndex := TrimSpace (Index a) in
  if negb (String.eqb existingIndex "") then a <| Index := existingIndex |> <| indexAssigned := true |> else
  let seed := indexSeed a in
  if String.eqb seed "" then a else a <| Index := stableAuthIndex seed |> <| indexAssigned := true |>.

(** ** Merging after a save *)

(** Doubles are compared bit by bit here: a NaN counts as unchanged. *)
#[export] Instance float64_dec : EqDecision float64.
Proof. unfold float64. solve_decision. Defined.
#[export] Instance CapacityWindow_dec : EqDecision CapacityWindow.
Proof. solve_decision. Defined.
#[export] Instance CapacityState_dec : EqDecision CapacityState.
Proof. solve_decision. Defined.
#[export] Instance RoutingSelectionState_dec : EqDecision RoutingSelectionState.
Proof. solve_decision. Defined.

(** A field: [d] is the target's, [b] and [n] what it was and became elsewhere. *)
Definition save_field {A} `{EqDecision A} (preserveConcurrent : bool) (d b n : A) : A :=
  if bool_decide (b = n) then d else if bool_decide (d = b) then n else if preserveConcurrent then d else n.
(** One key of a map. *)
Definition save_key {A} (same : option A → option A → bool) (preserveConcurrent : bool) (d b n : option A) : option A :=
  if same b n || (preserveConcurrent && negb (same d b)) then d else n.
Definition save_map {A} `{EqDecision A} (preserveConcurrent : bool) (d b n : gmap string A) : gmap string A :=
  if bool_decide (b = n) then d else if bool_decide (d = b) then n else
  range (λ key (_ : unit) m, partial_alter (λ d, save_key (λ x y, bool_decide (x = y)) preserveConcurrent d (b !! key) (n !! key)) key m)
    ((λ k, (k, tt)) <$> elements (dom b ∪ dom n)) d.
Definition put_entry (k : string) (v : option goval) (m : gomap) : gomap :=
  match v with Some v => gomap_set k v m | None => gomap_delete k m end.
Definition save_metadata (preserveConcurrent : bool) (d b n : gomap) : gomap :=
  if deep_equal (VMap b) (VMap n) then d else if deep_equal (VMap d) (VMap b) then n else
  range (λ key (_ : unit) m, put_entry key (save_key same_entry preserveConcurrent (assoc key m) (assoc key b) (assoc key n)) m)
    ((λ k, (k, tt)) <$> remove_dups (b.*1 ++ n.*1)) d.

(** The exported fields but for identity, versions and rejected tokens. *)
Definition mergeAuthSaveDelta (target before after : Auth) (p : bool) : Auth :=
  target
    <| Index := save_field p (Index target) (Index before) (Index after) |>
    <| Provider := save_field p (Provider target) (Provider before) (Provider after) |>
    <| Prefix := save_field p (Prefix target) (Prefix before) (Prefix after) |>
    <| FileName := save_field p (FileName target) (FileName before) (FileName after) |>
    <| Label := save_field p (Label target) (Label before) (Label after) |>
    <| A_Status := save_field p (A_Status target) (A_Status before) (A_Status after) |>
    <| StatusMessage := save_field p (StatusMessage target) (StatusMessage before) (StatusMessage after) |>
    <| Disabled := save_field p (Disabled target) (Disabled before) (Disabled after) |>
    <| Unavailable := save_field p (Unavailable target) (Unavailable before) (Unavailable after) |>
    <| ProxyURL := save_field p (ProxyURL target) (ProxyURL before) (ProxyURL after) |>
    <| Attributes := save_map p (Attributes target) (Attributes before) (Attributes after) |>
    <| Metadata := save_metadata p (Metadata target) (Metadata before) (Metadata after) |>
    <| Quota := save_field p (Quota target) (Quota before) (Quota after) |>
    <| Capacity := save_field p (Capacity target) (Capacity before) (Capacity after) |>
    <| RoutingSelection := save_field p (RoutingSelection target) (RoutingSelection before) (RoutingSelection after) |>
    <| LastError := save_field p (LastError target) (LastError before) (LastError after) |>
    <| CreatedAt := save_field p (CreatedAt target) (CreatedAt before) (CreatedAt after) |>
    <| UpdatedAt := save_field p (UpdatedAt target) (UpdatedAt before) (UpdatedAt after) |>
    <| LastRefreshedAt := save_field p (LastRefreshedAt target) (LastRefreshedAt before) (LastRefreshedAt after) |>
    <| NextRefreshAfter := save_field p (NextRefreshAfter target) (NextRefreshAfter before) (NextRefreshAfter after) |>
    <| RefreshFailures := save_field p (RefreshFailures target) (RefreshFailures before) (RefreshFailures after) |>
    <| NextRetryAfter := save_field p (NextRetryAfter target) (NextRetryAfter before) (NextRetryAfter after) |>
    <| ModelStates := save_map p (ModelStates target) (ModelStates before) (ModelStates after) |>
    <| Success := save_field p (Success target) (Success before) (Success after) |>
    <| Failed := save_field p (Failed target) (Failed before) (Failed after) |>.

(** ** State *)

Inductive updateAuthMode := updateModeReplace | updateModeRefresh | updateModePrepare.
#[export] Instance updateAuthMode_dec : EqDecision updateAuthMode.
Proof. solve_decision. Defined.

(** An operation that is being saved: what it will publish, the record it replaces as it
    was before the save, and what of the call is needed afterwards. *)
Record in_flight := mkFlight {
  f_auth : Auth; f_before : option Auth; f_patch : option CredentialRefreshPatch;
  f_refresh : bool; f_mint : bool; f_changed : bool }.
(** What the scheduler is told. *)
Inductive publication := Snapshot (a : Auth) | Tombstone (id : string) (epoch : Z).
(** A credential being saved, or one metadata entry of it. *)
Inductive flight := Whole (f : in_flight) | OneEntry (updated before : Auth) (key : string).
Definition flown (f : flight) : Auth := match f with Whole f => f_auth f | OneEntry updated _ _ => updated end.

Record Credentials := mkCreds {
  c_auths : gmap string Auth; authEpochs : gmap string Z; c_quotaFailures : gmap string Z;
  flights : gmap string flight; structuralEpoch : Z; published : list publication }.
#[export] Instance Credentials_eta : Eta Credentials := λ c,
  mkCreds (c_auths c) (authEpochs c) (c_quotaFailures c) (flights c) (structuralEpoch c) (published c).
Definition no_credentials : Credentials := mkCreds ∅ ∅ ∅ ∅ 0 [].

Inductive store_error :=
| InvalidWeight (e : credentialweight.weightError) | StaleRegistration (incoming current : Z) | ChangedDuringSave | PersistMeta
| EditFailed.
(** How the first part of an operation ends: with an error, with the credential as it is, or in flight. *)
Inductive begun := Refused (e : store_error) | Unchanged (a : option Auth) | Saving.

Definition epoch_at (c : Credentials) (id : string) : Z := default 0 (authEpochs c !! id).
Definition set_epoch (c : Credentials) (id : string) (e : Z) : Credentials := c <| authEpochs := <[id := e]> (authEpochs c) |>.
(** The epoch on record is never below that of the credential. *)
Definition raise_epoch (c : Credentials) (id : string) : Credentials :=
  match c_auths c !! id with
  | Some existing => if epoch_at c id <? RegistrationEpoch existing then set_epoch c id (RegistrationEpoch existing) else c
  | None => c
  end.
Definition fly (c : Credentials) (f : flight) : Credentials := c <| flights := <[ID (flown f) := f]> (flights c) |>.
Definition land (c : Credentials) (id : string) : Credentials := c <| flights := delete id (flights c) |>.
Definition ClearFileSnapshot (a : Auth) : Auth := a <| fileSnapshotPath := "" |> <| fileSnapshotDigest := "" |>.
Definition HasFileSnapshot (a : Auth) : bool :=
  (Generation a =? 0) && (RegistrationEpoch a =? 0) && negb (String.eqb (fileSnapshotDigest a) "").
Definition publish (c : Credentials) (auth : Auth) : Credentials :=
  let auth := Auth_Clone (ClearFileSnapshot auth) in
  (land c (ID auth)) <| c_auths := <[ID auth := auth]> (c_auths c) |> <| structuralEpoch := structuralEpoch c + 1 |>
    <| published := published c ++ [Snapshot auth] |>.

(** [normalizeModelStates] and whether it changed anything. *)
Definition normalizes (auth : Auth) : bool := (fold_left normalize_step (map_to_list (ModelStates auth)) (∅, false)).2.
(** The end of both operations' preparation: normal states, no cooldown where none applies. *)
Definition settle (auth : Auth) (now : time) : Auth * bool :=
  let changed := normalizes auth in
  let auth := normalizeModelStates auth in
  if cooldownDisabledForAuth (Some auth) || is_disabled auth then
    let '(auth, cleared) := clearCooldownStateForAuth auth now in (auth, cleared || changed)
  else (auth, changed).

(** ** Registration *)

Definition with_metadata (a : Auth) : Auth := a <| Metadata := NormalizeCredentialMetadata (Metadata a) |>.

(** [Register] up to the save; [fresh_id] is the random identifier of a credential without one. *)
Definition Register_begin (fresh_id : string) (rd : nat → time) (auth : Auth) (c : Credentials) : Credentials * begun :=
  let auth := with_metadata auth in
  match ValidateAuthWeight (Some auth) with
  | Some e => (c, Refused (InvalidWeight e))
  | None =>
      let auth := if String.eqb (ID auth) "" then auth <| ID := fresh_id |> else auth in
      let now := rd O in
      let auth := auth <| Generation := if Generation auth =? 0 then 1 else Generation auth |>
                       <| CreatedAt := if IsZero (CreatedAt auth) then now else CreatedAt auth |> <| UpdatedAt := now |> in
      let '(auth, changed) := settle auth now in
      let auth := EnsureIndex auth in
      let id := ID auth in
      let c := raise_epoch c id in
      let c := if epoch_at c id <? RegistrationEpoch auth then set_epoch c id (RegistrationEpoch auth) else c in
      let c := set_epoch c id (wrapu64 (epoch_at c id + 1)) in
      let version := match c_auths c !! id with
                     | Some existing => wrapu64 (Z.max (CredentialVersion auth) (CredentialVersion existing) + 1)
                     | None => if CredentialVersion auth =? 0 then 1 else CredentialVersion auth
                     end in
      let auth := auth <| RegistrationEpoch := epoch_at c id |> <| CredentialVersion := version |> <| Generation := 1 |> in
      (fly c (Whole (mkFlight auth None None false false changed)), Saving)
  end.

(** ** Updates *)

(** What an update takes over from the credential it replaces. *)
Definition inherit (auth existing : Auth) : Auth :=
  let auth := if negb (indexAssigned auth) && String.eqb (Index auth) ""
              then auth <| Index := Index existing |> <| indexAssigned := indexAssigned existing |> else auth in
  auth <| Success := Success existing |> <| Failed := Failed existing |> <| recentRequests := recentRequests existing |>
       <| Capacity := Capacity existing |> <| RoutingSelection := RoutingSelection existing |>
       <| Generation := if Generation auth <=? Generation existing then wrapu64 (Generation existing + 1) else wrapu64 (Generation auth + 1) |>.
Definition next_version (auth existing : Auth) : Z :=
  let existingVersion := if CredentialVersion existing =? 0 then 1 else CredentialVersion existing in
  if CredentialsChanged existing auth then wrapu64 (Z.max (CredentialVersion auth) existingVersion + 1) else existingVersion.

(** What becomes of the availability of a credential that is and stays enabled. *)
Definition carry_availability (mode : updateAuthMode) (patch : option CredentialRefreshPatch) (existing : Auth) (credChanged : bool)
    (rd : nat → time) (auth : Auth) : Auth * bool :=
  let auth := if bool_decide (ModelStates auth = ∅) then auth <| ModelStates := ModelStates existing |> else auth in
  let refresh := bool_decide (mode = updateModeRefresh) in
  let '(auth, changed) :=
    if credChanged || refresh then
      let auth := applyPreservedRejectedTokens existing auth patch refresh in
      if String.eqb (RejectedAccessToken auth) "" || negb (String.eqb (authAccessToken (Some auth)) (RejectedAccessToken auth)) then
        let '(auth, cleared) :=
          if hasUnauthorizedAuthFailure (Some existing) || match LastError auth with Some e => isUnauthorizedError (Some e) | None => false end
          then (auth <| Unavailable := false |> <| LastError := None |> <| StatusMessage := "" |> <| A_Status := StatusActive |>, true)
          else (auth, false) in
        let '(auth, resumed) := clearUnauthorizedModelStates auth (rd 3%nat) in
        (auth, cleared || negb (bool_decide (resumed = [])))
      else (auth, false)
    else (applyPreservedRejectedTokens existing auth patch false, false) in
  let '(auth, restored) := if refresh then applyDevinQuotaRestoration auth existing (rd 4%nat) else (auth, false) in
  if (restored : bool) then (auth, true)
  else if credential_wrap existing (rd 5%nat) then
    let observation := mergeQuotaObservation (Quota auth) (Quota existing) in
    (auth <| Unavailable := Unavailable existing |> <| NextRetryAfter := NextRetryAfter existing |>
          <| Quota := (Quota existing) <| Q_ObservedAt := Q_ObservedAt observation |> <| Q_Signals := Q_Signals observation |> |>
          <| A_Status := if bool_decide (A_Status auth = StatusActive) then A_Status existing else A_Status auth |>, changed)
  else (auth, changed).

Definition hints_key := "antigravity_capability_hints".
Definition keep_hints (auth existing : Auth) : Auth :=
  match assoc hints_key (Metadata existing) with Some hints => auth <| Metadata := gomap_set hints_key hints (Metadata auth) |> | None => auth end.

(** The record an update will publish, from the one [auth] merged so far. *)
Definition prepare_update (mode : updateAuthMode) (patch : option CredentialRefreshPatch) (existing : Auth) (rd : nat → time) (auth : Auth)
    : Auth * bool :=
  let auth := inherit auth existing in
  let credChanged := CredentialsChanged existing auth in
  let auth := auth <| CredentialVersion := next_version auth existing |> in
  let '(auth, changed) :=
    if negb (is_disabled existing) && negb (is_disabled auth) then carry_availability mode patch existing credChanged rd auth
    else (auth, false) in
  let now := rd 6%nat in
  let '(auth, settled) := settle (auth <| UpdatedAt := now |>) now in
  (EnsureIndex (keep_hints auth existing), settled || changed).

(** What the call brings, merged as its mode has it. *)
Definition merge_update (mode : updateAuthMode) (base : option Auth) (existing : Auth) (u : incoming) (rd : nat → time) : Auth :=
  match mode with
  | updateModeReplace => in_auth u
  | updateModeRefresh => with_metadata (MergeRefreshedAuth base existing u (rd 0%nat) (rd 1%nat) (rd 2%nat))
  | updateModePrepare => with_metadata (MergePreparedAuth base existing u)
  end.

(** [updateInternalLocked] up to the save; [on_disk] says whether a file snapshot is still
    what is on disk. *)
Definition Update_begin (mode : updateAuthMode) (base : option Auth) (u : incoming) (on_disk : bool) (rd : nat → time) (c : Credentials)
    : Credentials * begun :=
  let auth := with_metadata (in_auth u) in
  let id := ID auth in
  if String.eqb id "" then (c, Unchanged None) else
  match ValidateAuthWeight (Some auth) with
  | Some e => (c, Refused (InvalidWeight e))
  | None =>
      match c_auths c !! id with
      | None => (c, Unchanged None)
      | Some existing =>
          if bool_decide (mode = updateModeReplace) && HasFileSnapshot auth && negb on_disk then (c, Unchanged (Some existing)) else
          let c := raise_epoch c id in
          let merging := bool_decide (mode ≠ updateModeReplace) in
          if merging && stale_base base existing
          then (c, Refused (StaleRegistration (match base with Some b => RegistrationEpoch b | None => 0 end) (RegistrationEpoch existing)))
          else if bool_decide (mode = updateModeRefresh)
                  && match base with
                     | Some b => negb (CredentialVersion existing =? CredentialVersion b) || CredentialsChanged b existing
                     | None => false
                     end
                  && negb match in_patch u with Some p => CanApplyTo p (Metadata existing) | None => false end
          then (c, Unchanged (Some existing))
          else
            let u := mkIncoming auth (in_patch u) (in_no_metadata u) (in_no_attributes u) (in_no_states u) in
            let auth := merge_update mode base existing u rd in
            if negb (RegistrationEpoch auth =? 0) && (RegistrationEpoch auth <? epoch_at c id)
            then (c, Refused (StaleRegistration (RegistrationEpoch auth) (epoch_at c id)))
            else
              let '(c, auth) := if epoch_at c id <=? RegistrationEpoch auth then (set_epoch c id (RegistrationEpoch auth), auth)
                                else (c, auth <| RegistrationEpoch := epoch_at c id |>) in
              let '(auth, changed) := prepare_update mode (in_patch u) existing rd auth in
              let mint := merging && EqualFold (TrimSpace (Provider auth)) "meta" in
              (fly c (Whole (mkFlight auth (Some (Auth_Clone existing)) (in_patch u) (bool_decide (mode = updateModeRefresh)) mint changed)), Saving)
      end
  end.

(** [Modify]: an edit of the credential as it is. *)
Definition Modify_begin (id : string) (expectedEpoch : Z) (edit : Auth → option Auth) (on_disk : bool) (rd : nat → time) (c : Credentials)
    : Credentials * begun :=
  let id := TrimSpace id in
  if String.eqb id "" then (c, Unchanged None) else
  match c_auths c !! id with
  | None => (c, Unchanged None)
  | Some existing =>
      let currentEpoch := Z.max (RegistrationEpoch existing) (epoch_at c id) in
      if negb (expectedEpoch =? 0) && (expectedEpoch <? currentEpoch)
      then (c, Refused (StaleRegistration expectedEpoch currentEpoch))
      else match edit (Auth_Clone existing) with
           | None => (c, Refused EditFailed)
           | Some current =>
               let current := if expectedEpoch =? 0 then current else current <| RegistrationEpoch := expectedEpoch |> in
               Update_begin updateModeReplace None (mkIncoming current None false false false) on_disk rd c
           end
  end.

(** [UpdateIfRegistrationCurrent]: an update for as long as what models were registered by
    is as it was. *)
Definition modelRegistrationInputsMatch (current base : Auth) : bool :=
  (RegistrationEpoch current =? RegistrationEpoch base) && String.eqb (Prefix current) (Prefix base)
  && String.eqb (Provider current) (Provider base) && Bool.eqb (is_disabled current) (is_disabled base)
  && String.eqb (AuthKind (Some current)) (AuthKind (Some base)) && bool_decide (Attributes current = Attributes base).
Definition UpdateIfRegistrationCurrent (base updated : Auth) (on_disk : bool) (rd : nat → time) (c : Credentials) : Credentials * begun :=
  if String.eqb (ID base) "" || negb (String.eqb (ID updated) (ID base)) then (c, Unchanged None) else
  match c_auths c !! ID base with
  | Some current =>
      if modelRegistrationInputsMatch current base
      then Update_begin updateModeReplace None (mkIncoming updated None false false false) on_disk rd c
      else (c, Unchanged None)
  | None => (c, Unchanged None)
  end.

(** ** After the save *)

(** What is rejected by now, though it was not when the update was prepared. *)
Definition rejected_since (f : in_flight) (existing auth : Auth) : Auth :=
  if (String.eqb (RejectedAccessToken auth) "" && negb (String.eqb (RejectedAccessToken existing) ""))
     || (String.eqb (RejectedSIWCAccessToken auth) "" && negb (String.eqb (RejectedSIWCAccessToken existing) ""))
  then let probe := applyPreservedRejectedTokens existing (Auth_Clone auth) (f_patch f) (f_refresh f) in
       auth <| RejectedAccessToken := RejectedAccessToken probe |> <| RejectedSIWCAccessToken := RejectedSIWCAccessToken probe |>
  else auth.

(** What runtime writers did to the credential while it was being saved. *)
Definition merge_runtime (f : in_flight) (current : option Auth) (auth : Auth) : Auth :=
  match f_before f, current with
  | Some before, Some existing =>
      let auth := mergeAuthSaveDelta auth before existing false in
      let auth := rejected_since f existing auth in
      if Generation auth <=? Generation existing then auth <| Generation := wrapu64 (Generation existing + 1) |> else auth
  | _, _ => auth
  end.

(** [saved] is the copy the store was given, as the store left it; [failed] its error. *)
Definition Commit (id : string) (saved : Auth) (failed : bool) (c : Credentials) : Credentials * begun :=
  match flights c !! id with
  | None | Some (OneEntry _ _ _) => (c, Unchanged None)
  | Some (Whole f) =>
      let auth := mergeAuthSaveDelta (f_auth f) (f_auth f) saved true in
      if f_mint f && failed then (land c id, Refused PersistMeta)
      else if negb (epoch_at c id =? RegistrationEpoch auth) then (land c id, Refused ChangedDuringSave)
      else (publish c (merge_runtime f (c_auths c !! id) auth), Saving)
  end.

(** ** Removal *)

Definition Remove (id : string) (c : Credentials) : Credentials :=
  let id := TrimSpace id in
  if String.eqb id "" then c else
  match c_auths c !! id with
  | None => c
  | Some existing =>
      let c := raise_epoch c id in
      let e := wrapu64 (epoch_at c id + 1) in
      (set_epoch c id e) <| c_auths := delete id (c_auths c) |> <| c_quotaFailures := delete id (c_quotaFailures c) |>
        <| structuralEpoch := structuralEpoch c + 1 |> <| published := published c ++ [Tombstone id e] |>
  end.

(** ** Saving one metadata entry *)

(** [PersistMetadataEntry] once the gate is held; the generation stays. *)
Definition PersistMetadata_begin (id : string) (expectedEpoch : Z) (key : string) (value : goval) (validate : Auth → bool) (c : Credentials)
    : Credentials * bool :=
  if String.eqb id "" || String.eqb key "" then (c, false) else
  match c_auths c !! id with
  | None => (c, false)
  | Some existing =>
      if (negb (expectedEpoch =? 0) && negb (RegistrationEpoch existing =? expectedEpoch)) || negb (validate existing) then (c, false) else
      let updated := (Auth_Clone existing) <| Metadata := gomap_set key value (Metadata existing) |> in
      (fly c (OneEntry updated (Auth_Clone existing) key), true)
  end.
Definition merge_entry_save (updated before current : Auth) : Auth :=
  let updated := mergeAuthSaveDelta updated before current false in
  if Generation updated <? Generation current then updated <| Generation := Generation current |> else updated.
(** [failed]: the save failed, or a foreground operation preempted it. *)
Definition PersistMetadata_end (id : string) (validate : Auth → bool) (saved : Auth) (failed : bool) (c : Credentials) : Credentials * bool :=
  match flights c !! id with
  | None | Some (Whole _) => (c, false)
  | Some (OneEntry updated before key) =>
      let c := land c id in
      let updated := mergeAuthSaveDelta updated updated saved true in
      if failed then (c, false) else
      match c_auths c !! id with
      | None => (c, false)
      | Some current =>
          if negb (RegistrationEpoch current =? RegistrationEpoch updated) then (c, false)
          else if negb (validate current)
          then (c <| c_auths := <[id := (Auth_Clone current) <| Metadata := gomap_delete key (Metadata current) |>]> (c_auths c) |>, false)
          else (c <| c_auths := <[id := Auth_Clone (merge_entry_save updated before current)]> (c_auths c) |>, true)
      end
  end.

(** ** Loading *)

(** [previous] are the credentials before the reset. *)
Definition load_one (previous : gmap string Auth) (c : Credentials) (item : option Auth) : Credentials :=
  match item with
  | None => c
  | Some auth =>
      if String.eqb (ID auth) "" then c else
      let auth := with_metadata auth in
      match ValidateAuthWeight (Some auth) with
      | Some _ => c
      | None =>
          let auth := EnsureIndex auth in
          let e := wrapu64 (Z.max (epoch_at c (ID auth)) (RegistrationEpoch auth) + 1) in
          let version := match previous !! ID auth with
                         | Some prev =>
                             let v := Z.max (CredentialVersion auth) (CredentialVersion prev) in
                             if CredentialsChanged prev auth then wrapu64 (v + 1) else v
                         | None => CredentialVersion auth
                         end in
          let auth := auth <| RegistrationEpoch := e |> <| Generation := 1 |> <| CredentialVersion := if version =? 0 then 1 else version |> in
          (set_epoch c (ID auth) e) <| c_auths := <[ID auth := Auth_Clone auth]> (c_auths c) |>
      end
  end.
Definition bury (c : Credentials) (id : string) : Credentials :=
  match c_auths c !! id with
  | Some _ => c
  | None => let e := wrapu64 (epoch_at c id + 1) in (set_epoch c id e) <| published := published c ++ [Tombstone id e] |>
  end.
(** [Load]: what the store holds replaces what is there; what is gone is buried.  The
    scheduler is synchronised with the rest afterwards. *)
Definition Load (items : list (option Auth)) (c : Credentials) : Credentials :=
  let previous := c_auths c in
  let c := fold_left (load_one previous) items (c <| c_auths := ∅ |> <| c_quotaFailures := ∅ |>) in
  let c := fold_left bury (map_to_list previous).*1 c in
  c <| structuralEpoch := structuralEpoch c + 1 |>.

(** ** Runtime writers *)

(** A writer changes the credential where it is, and tells the scheduler or not. *)
Definition Touch (told : bool) (auth : Auth) (c : Credentials) : Credentials :=
  c <| c_auths := <[ID auth := auth]> (c_auths c) |>
    <| published := if told then published c ++ [Snapshot (Auth_Clone auth)] else published c |>.
(** The scheduler is told again of a credential. *)
Definition RefreshSchedulerEntry (id : string) (c : Credentials) : Credentials :=
  match c_auths c !! id with
  | Some auth => if String.eqb id "" then c else
      c <| structuralEpoch := structuralEpoch c + 1 |> <| published := published c ++ [Snapshot (Auth_Clone auth)] |>
  | None => c
  end.
End store.
