(* ===== verification/CredentialLog.v ===== *)
(** * What the manager publishes, in order

    The steps of the credential store, and what holds however they interleave: a record
    never falls behind its registration epoch, an operation that is being saved still finds
    its registration when it comes back, and the publications of one credential are stamped
    - with the epoch, then the generation - in the order they were made. *)
From Stdlib Require Import ZArith Lia String Bool Sorted.
From stdpp Require Import prelude gmap strings.
From S2P Require Import Prelude GoStd AuthTypes Weight Availability Errors Json Classify QuotaSignals Cooldown ExecutionResult Shard Scheduler Metadata Merge CredentialStore.
Local Open Scope string_scope.
Local Open Scope list_scope.
Local Open Scope Z_scope.

(** ** Identity *)

Definition ident (a : Auth) : string * Z * Z := (ID a, RegistrationEpoch a, CredentialVersion a).
Create HintDb identity.

Section log.
Context {gh : GoHost} {st : Settings} {ih : IndexHost}.

Lemma ident_clone a : ident (Auth_Clone a) = ident a.
Proof. done. Qed.
Lemma ident_metadata a : ident (with_metadata a) = ident a.
Proof. done. Qed.
Lemma ident_index a : ident (EnsureIndex a) = ident a.
Proof. unfold EnsureIndex. by repeat case_match. Qed.
Lemma ident_normalize a : ident (normalizeModelStates a) = ident a.
Proof. unfold normalizeModelStates, normalizeModelStates_in. destruct (fold_left _ _ _) as [n []]; reflexivity. Qed.
Lemma ident_aggregate a now : ident (updateAggregatedAvailability a now) = ident a.
Proof. unfold updateAggregatedAvailability, updateAggregatedAvailability_in, clearAggregatedAvailability. by repeat case_match. Qed.
Lemma ident_clear_cooldown a now : ident (clearCooldownStateForAuth a now).1 = ident a.
Proof.
  unfold clearCooldownStateForAuth. destruct (hasUnauthorizedAuthFailure _); [done|].
  generalize (Unavailable a || negb (IsZero (NextRetryAfter a)) || Q_Exceeded (Quota a) || negb (IsZero (Q_NextRecoverAt (Quota a)))). intros dirty.
  set (a1 := if dirty then _ else a). assert (ident a1 = ident a) as E1 by (unfold a1; by destruct dirty). revert E1. generalize a1. clear a1. intros a1 E1.
  set (changed := dirty || _). generalize changed. clear changed. intros changed.
  set (a2 := a1 <| ModelStates := _ |>). assert (ident a2 = ident a) as E2 by exact E1. revert E2. generalize a2. clear a2. intros a2 E2.
  set (a3 := if bool_decide (ModelStates a2 = ∅) then _ else _).
  assert (ident a3 = ident a) as E3 by (unfold a3; case_bool_decide; [done|by rewrite ident_aggregate]). revert E3. generalize a3. intros a4 E3.
  by destruct changed.
Qed.
Lemma ident_settle a now : ident (settle a now).1 = ident a.
Proof.
  unfold settle. cbv zeta. destruct (_ || _); [|apply ident_normalize].
  destruct (clearCooldownStateForAuth _ now) as [a' b] eqn:E. cbn [fst].
  rewrite <-(ident_normalize a). rewrite <-(ident_clear_cooldown (normalizeModelStates a) now). by rewrite E.
Qed.
Lemma ident_preserved existing a patch refresh : ident (applyPreservedRejectedTokens existing a patch refresh) = ident a.
Proof. done. Qed.
Lemma ident_unauthorized a now : ident (clearUnauthorizedModelStates a now).1 = ident a.
Proof. unfold clearUnauthorizedModelStates. cbn [fst]. case_match; [by rewrite ident_aggregate|done]. Qed.
Lemma ident_restored a existing now : ident (applyDevinQuotaRestoration a existing now).1 = ident a.
Proof. unfold applyDevinQuotaRestoration. case_match; [done|]. cbn [fst]. case_match; [done|by rewrite ident_aggregate]. Qed.
Lemma ident_merge_status base current upd m t1 t2 t3 : ident (merge_status base current upd m t1 t2 t3) = ident m.
Proof. unfold merge_status. cbv zeta. by repeat case_match. Qed.
Lemma ident_prepared base current u : ident (MergePreparedAuth base current u) = ident current.
Proof. unfold MergePreparedAuth, mergeAuthContent. by destruct (stale_base _ _). Qed.
Lemma ident_refreshed base current u t1 t2 t3 : ident (MergeRefreshedAuth base current u t1 t2 t3) = ident current.
Proof.
  unfold MergeRefreshedAuth. cbv zeta. rewrite <-(ident_prepared base current u). unfold MergePreparedAuth.
  destruct (stale_base _ _); [done|]. generalize (mergeAuthContent base current u). intros m.
  match goal with |- ident (?x <| Quota := _ |> <| ModelStates := _ |>) = _ => change (ident x = ident m) end.
  case_match; [by repeat case_match|]. rewrite ident_merge_status. by repeat case_match.
Qed.
Lemma ident_delta target before after p : ident (mergeAuthSaveDelta target before after p) = ident target.
Proof. done. Qed.
Lemma id_delta target before after p : ID (mergeAuthSaveDelta target before after p) = ID target.
Proof. done. Qed.
Lemma epoch_delta target before after p : RegistrationEpoch (mergeAuthSaveDelta target before after p) = RegistrationEpoch target.
Proof. done. Qed.
Lemma ident_rejected f existing a : ident (rejected_since f existing a) = ident a.
Proof. unfold rejected_since. by destruct (_ || _). Qed.
Lemma ident_carry mode patch existing changed rd a : ident (carry_availability mode patch existing changed rd a).1 = ident a.
Proof.
  unfold carry_availability. cbv zeta.
  set (a0 := if bool_decide (ModelStates a = ∅) then _ else a).
  assert (ident a0 = ident a) as E0 by (unfold a0; by case_bool_decide). revert E0. generalize a0. clear a0. intros a0 E0.
  match goal with |- context [let '(_, _) := ?x in _] => assert (ident x.1 = ident a) as E1; [|destruct x as [a1 c1]; cbn [fst] in E1] end.
  { destruct (changed || _); [|done]. case_match; [|done].
    match goal with |- context [let '(_, _) := ?x in _] => assert (ident x.1 = ident a0) as E1 by (by repeat case_match); destruct x as [a1 c1]; cbn [fst] in E1 end.
    pose proof (ident_unauthorized a1 (rd 3%nat)) as E2. destruct (clearUnauthorizedModelStates a1 _). cbn [fst] in *. congruence. }
  match goal with |- context [let '(_, _) := ?x in _] => assert (ident x.1 = ident a) as E2; [|destruct x as [a2 c2]; cbn [fst] in E2] end.
  { case_match; [by rewrite ident_restored|done]. }
  destruct c2; [done|]. by destruct (credential_wrap _ _).
Qed.
Lemma ident_inherit a existing : ident (inherit a existing) = ident a.
Proof. unfold inherit. cbv zeta. by destruct (_ && _). Qed.

(** The versions of a credential to be: its own registration, and a credential version that
    rises exactly when the credentials are others. *)
Lemma prepared_ident mode patch existing rd a :
  ident (prepare_update mode patch existing rd a).1 = (ID a, RegistrationEpoch a, next_version (inherit a existing) existing).
Proof.
  unfold prepare_update. cbv zeta.
  set (b := (inherit a existing) <| CredentialVersion := _ |>).
  assert (ident b = (ID a, RegistrationEpoch a, next_version (inherit a existing) existing)) as Eb.
  { pose proof (ident_inherit a existing) as E. unfold ident in E. injection E as E1 E2 _. unfold b, ident. cbn. congruence. }
  match goal with |- context [let '(_, _) := ?x in _] => assert (ident x.1 = ident b) as E1; [|destruct x as [a1 c1]; cbn [fst] in E1] end.
  { destruct (_ && _); [apply ident_carry|done]. }
  pose proof (ident_settle (a1 <| UpdatedAt := rd 6%nat |>) (rd 6%nat)) as E2. destruct (settle _ _) as [a2 c2]. cbn [fst] in *.
  rewrite ident_index. rewrite <-Eb, <-E1. transitivity (ident a2); [unfold keep_hints; by case_match|]. done.
Qed.
(** ** Stamps *)

Definition pub_id (p : publication) : string := match p with Snapshot a => ID a | Tombstone id _ => id end.
Definition pub_epoch (p : publication) : Z := match p with Snapshot a => RegistrationEpoch a | Tombstone _ e => e end.
(** Not stamped later, and earlier: a tombstone shares its epoch with nothing. *)
Definition no_later (p q : publication) : Prop :=
  pub_epoch p < pub_epoch q
  ∨ match p, q with Snapshot a, Snapshot b => RegistrationEpoch a = RegistrationEpoch b ∧ Generation a ≤ Generation b | _, _ => False end.
Definition earlier (p q : publication) : Prop :=
  pub_epoch p < pub_epoch q
  ∨ match p, q with Snapshot a, Snapshot b => RegistrationEpoch a = RegistrationEpoch b ∧ Generation a < Generation b | _, _ => False end.
Definition in_order (p q : publication) : Prop := pub_id p = pub_id q → no_later p q.

Lemma earlier_no_later p q : earlier p q → no_later p q.
Proof. intros [H|H]; [by left|]. right. destruct p, q; try done. lia. Qed.

(** ** Steps *)

(** The counters are 64 bits wide; no credential is updated 2^63 times. *)
Definition small (a : Auth) : Prop :=
  0 ≤ RegistrationEpoch a < 2 ^ 63 ∧ 0 ≤ Generation a < 2 ^ 63 ∧ 0 ≤ CredentialVersion a < 2 ^ 63.
Definition below (m : Z) (c : Credentials) : Prop := ∀ id, 0 ≤ epoch_at c id < m.
Definition roomy (c : Credentials) : Prop := below (2 ^ 63) c ∧ ∀ id a, c_auths c !! id = Some a → small a.
Definition idle (c : Credentials) (id : string) : Prop := flights c !! id = None.
(** An edit leaves the identity alone. *)
Definition edits (edit : Auth → option Auth) : Prop := ∀ a a', edit a = Some a' → ID a' = ID a ∧ (small a → small a').
(** What a runtime writer does to a credential. *)
Definition rewrites (a a' : Auth) : Prop :=
  ID a' = ID a ∧ RegistrationEpoch a' = RegistrationEpoch a ∧ Generation a ≤ Generation a'.

(** What is done with the manager, a step at a time: everything that is saved, or that
    removes, waits for the gate of its credential; loading waits for all of them. *)
Inductive store_step (c : Credentials) : Credentials → Prop :=
| step_register fresh rd auth :
    roomy c → small auth → idle c (if String.eqb (ID auth) "" then fresh else ID auth) →
    store_step c (Register_begin fresh rd auth c).1
| step_update mode base u on_disk rd :
    roomy c → small (in_auth u) → idle c (ID (in_auth u)) → store_step c (Update_begin mode base u on_disk rd c).1
| step_modify id expected edit on_disk rd :
    roomy c → 0 ≤ expected < 2 ^ 63 → edits edit → idle c (TrimSpace id) → store_step c (Modify_begin id expected edit on_disk rd c).1
| step_if_current base updated on_disk rd :
    roomy c → small updated → idle c (ID base) → store_step c (UpdateIfRegistrationCurrent base updated on_disk rd c).1
| step_commit id saved failed : roomy c → store_step c (Commit id saved failed c).1
| step_remove id : roomy c → idle c (TrimSpace id) → store_step c (Remove id c)
| step_entry_begin id expected key value validate :
    idle c id → store_step c (PersistMetadata_begin id expected key value validate c).1
| step_entry_end id validate saved failed : store_step c (PersistMetadata_end id validate saved failed c).1
| step_load items :
    roomy c → flights c = ∅ → Z.of_nat (length items) < 2 ^ 60 → Forall (λ i, ∀ a, i = Some a → small a) items → store_step c (Load items c)
| step_touch told old auth : c_auths c !! ID auth = Some old → rewrites old auth → store_step c (Touch told auth c)
| step_again id : store_step c (RefreshSchedulerEntry id c).
Definition reachable : Credentials → Prop := rtc store_step no_credentials.

(** ** What holds along the way *)

Definition covered (c : Credentials) (p : publication) : Prop := ∀ a, c_auths c !! pub_id p = Some a → no_later p (Snapshot a).
(** What an operation that is being saved counts on. *)
Definition awaited (c : Credentials) (id : string) (f : flight) : Prop :=
  match f with
  | Whole f =>
      match f_before f with
      | None => f_mint f = false ∧ (∀ a, c_auths c !! id = Some a → RegistrationEpoch a < epoch_at c id)
                ∧ ∀ p, p ∈ published c → pub_id p = id → pub_epoch p < epoch_at c id
      | Some _ => ∃ a, c_auths c !! id = Some a ∧ (f_mint f = true → RegistrationEpoch a = epoch_at c id)
      end
  | OneEntry _ _ _ => ∃ a, c_auths c !! id = Some a ∧ RegistrationEpoch a = epoch_at c id
  end.
Record store_ok (c : Credentials) : Prop := mkOk {
  ok_id : ∀ id a, c_auths c !! id = Some a → ID a = id ∧ RegistrationEpoch a ≤ epoch_at c id;
  ok_idle : ∀ id a, c_auths c !! id = Some a → idle c id → RegistrationEpoch a = epoch_at c id;
  ok_flight : ∀ id f, flights c !! id = Some f → ID (flown f) = id ∧ RegistrationEpoch (flown f) = epoch_at c id ∧ awaited c id f;
  ok_log : ∀ p, p ∈ published c → pub_epoch p ≤ epoch_at c (pub_id p) ∧ covered c p;
  ok_order : StronglySorted in_order (published c) }.

Lemma no_credentials_ok : store_ok no_credentials.
Proof. split; try done; [|constructor]. intros p Hp. cbn in Hp. by apply elem_of_nil in Hp. Qed.

Lemma raise_epoch_id c id : store_ok c → raise_epoch c id = c.
Proof.
  intros Hok. unfold raise_epoch. destruct (c_auths c !! id) as [a|] eqn:Ea; [|done].
  destruct (Z.ltb_spec (epoch_at c id) (RegistrationEpoch a)); [|done]. destruct (ok_id _ Hok _ _ Ea). lia.
Qed.

Lemma sorted_snoc l q : StronglySorted in_order l → (∀ p, p ∈ l → in_order p q) → StronglySorted in_order (l ++ [q]).
Proof.
  induction 1 as [|p l Hs IH Hp]; intros Hq; cbn; [by repeat constructor|]. constructor.
  - apply IH. intros p' Hp'. apply Hq. by right.
  - apply Forall_app. split; [done|]. constructor; [|done]. apply Hq. by left.
Qed.

Lemma epoch_set c id e id' : epoch_at (set_epoch c id e) id' = if decide (id = id') then e else epoch_at c id'.
Proof. unfold epoch_at, set_epoch. cbn. rewrite lookup_insert. by case_decide. Qed.

Lemma no_later_rewrites p a a' : no_later p (Snapshot a) → rewrites a a' → no_later p (Snapshot a').
Proof.
  intros Hp (_ & He & Hg). unfold no_later in *. cbn in *. rewrite He. destruct Hp as [Hp|Hp]; [by left|]. right.
  destruct p; [lia|done].
Qed.

Lemma ok_rewrite c id a a' : store_ok c → c_auths c !! id = Some a → rewrites a a' →
  store_ok (c <| c_auths := <[id := a']> (c_auths c) |>).
Proof.
  intros [H1 H2 H3 H4 H5] Ea Hw. pose proof Hw as (Hid & He & Hg).
  assert (∀ x b, <[id := a']> (c_auths c) !! x = Some b → ∃ b0, c_auths c !! x = Some b0 ∧ rewrites b0 b) as Hl.
  { intros x b. rewrite lookup_insert. case_decide as E.
    - subst x. intros [= <-]. by exists a.
    - intros Eb. exists b. split; [done|]. unfold rewrites. split_and!; done || lia. }
  split; try done; cbn.
  - intros x b Hb. destruct (Hl x b Hb) as (b0 & Hb0 & (E1 & E2 & _)). destruct (H1 x b0 Hb0). unfold epoch_at in *; cbn in *. split; [congruence|lia].
  - intros x b Hb Hi. destruct (Hl x b Hb) as (b0 & Hb0 & (E1 & E2 & _)). rewrite E2. by apply H2.
  - intros x f Hf. destruct (H3 x f Hf) as (F1 & F2 & F3). split_and!; [done|done|].
    destruct f as [f|u b k]; cbn in *; [destruct (f_before f)|].
    + destruct F3 as (b & Hb & Hm). destruct (decide (id = x)) as [->|Hne]; [exists a'; rewrite lookup_insert_eq|exists b; by rewrite lookup_insert_ne].
      split; [done|]. rewrite He. rewrite Ea in Hb. injection Hb as <-. done.
    + destruct F3 as (F3 & F4 & F5). split_and!; [done| |done]. intros b Hb. destruct (Hl x b Hb) as (b0 & Hb0 & (E1 & E2 & _)). rewrite E2. by apply F4.
    + destruct F3 as (b0 & Hb & Hm). destruct (decide (id = x)) as [->|Hne]; [exists a'; rewrite lookup_insert_eq|exists b0; by rewrite lookup_insert_ne].
      split; [done|]. rewrite He. rewrite Ea in Hb. injection Hb as <-. done.
  - intros p Hp. destruct (H4 p Hp) as [F1 F2]. split; [done|]. intros b Hb. destruct (Hl _ b Hb) as (b0 & Hb0 & Hw').
    eapply no_later_rewrites; [by apply F2|done].
Qed.

Lemma ok_tell c id a : store_ok c → c_auths c !! id = Some a → store_ok (c <| published := published c ++ [Snapshot (Auth_Clone a)] |>).
Proof.
  intros [H1 H2 H3 H4 H5] Ea. destruct (H1 id a Ea) as [Hid He]. split; try done; cbn.
  - intros x f Hf. destruct (H3 x f Hf) as (F1 & F2 & F3). split_and!; [done|done|]. destruct f as [f|u b k]; cbn in *; [destruct (f_before f)|]; try done.
    destruct F3 as (F3 & F4 & F5). split_and!; [done|done|]. intros p [Hp|Hp%list_elem_of_singleton]%elem_of_app Hx; [by apply F5|]. subst p. cbn in *.
    apply F4. by rewrite <-Hx, Hid.
  - intros p [Hp|Hp%list_elem_of_singleton]%elem_of_app; [by apply H4|]. subst p. cbn. rewrite Hid. split; [done|]. intros b Hb. cbn in Hb.
    rewrite Hid, Ea in Hb. injection Hb as <-. right. cbn. lia.
  - apply sorted_snoc; [done|]. intros p Hp Hx. cbn in Hx. rewrite Hid in Hx. destruct (H4 p Hp) as [_ F2]. apply (F2 a). by rewrite Hx.
Qed.

Lemma ok_same c c' : c_auths c' = c_auths c → authEpochs c' = authEpochs c → flights c' = flights c → published c' = published c →
  store_ok c → store_ok c'.
Proof.
  destruct c as [au ep qf fl se pu], c' as [au' ep' qf' fl' se' pu']. cbn. intros -> -> -> -> [H1 H2 H3 H4 H5]. by split.
Qed.

(** An operation goes off to be saved. *)
Record launched (c : Credentials) (id : string) (f : flight) (c' : Credentials) : Prop := mkLaunched {
  la_auths : c_auths c' = c_auths c; la_log : published c' = published c; la_flights : flights c' = <[id := f]> (flights c);
  la_id : ID (flown f) = id; la_epoch : epoch_at c' id = RegistrationEpoch (flown f);
  la_others : ∀ x, x ≠ id → epoch_at c' x = epoch_at c x; la_grows : epoch_at c id ≤ epoch_at c' id; la_awaited : awaited c' id f }.

Lemma ok_launched c id f c' : store_ok c → idle c id → launched c id f c' → store_ok c'.
Proof.
  intros [H1 H2 H3 H4 H5] Hi [L1 L2 L3 L4 L5 L6 L7 L8].
  assert (∀ x, epoch_at c x ≤ epoch_at c' x) as Hmono by (intros x; destruct (decide (x = id)) as [->|Hne]; [done|by rewrite L6]).
  split.
  - rewrite L1. intros x a Ha. destruct (H1 x a Ha). specialize (Hmono x). split; [done|lia].
  - rewrite L1. intros x a Ha Hx. unfold idle in Hx. rewrite L3 in Hx.
    destruct (decide (id = x)) as [->|Hne]; [by rewrite lookup_insert_eq in Hx|]. rewrite lookup_insert_ne in Hx by done.
    rewrite L6 by done. by apply H2.
  - intros x g. rewrite L3, lookup_insert. case_decide as E; [subst x; intros [= <-]; by split_and!|]. intros Hg.
    destruct (H3 x g Hg) as (F1 & F2 & F3). rewrite L6 by done. split_and!; [done|done|].
    destruct g as [g|u b k]; cbn in *; [destruct (f_before g)|]; rewrite ?L1, ?L2, ?L6 by done; done.
  - rewrite L2. intros p Hp. destruct (H4 p Hp) as [F1 F2]. specialize (Hmono (pub_id p)). split; [lia|]. intros a. rewrite L1. apply F2.
  - by rewrite L2.
Qed.

Lemma ok_land c id : store_ok c → (∀ a, c_auths c !! id = Some a → RegistrationEpoch a = epoch_at c id) → store_ok (land c id).
Proof.
  intros [H1 H2 H3 H4 H5] He. split; try done; cbn.
  - intros x a Ha Hx. destruct (decide (id = x)) as [->|Hne]; [by apply He|]. apply H2; [done|]. unfold idle in Hx. cbn in Hx. by rewrite lookup_delete_ne in Hx.
  - intros x f. rewrite lookup_delete. case_decide; [done|]. apply H3.
Qed.

(** What has been saved is published, stamped after everything published so far. *)
Lemma ok_publish c auth : store_ok c → RegistrationEpoch auth = epoch_at c (ID auth) →
  (∀ p, p ∈ published c → pub_id p = ID auth → earlier p (Snapshot auth)) → store_ok (publish c auth).
Proof.
  intros [H1 H2 H3 H4 H5] He Hp. set (id := ID auth) in *. split; unfold publish; cbn; fold id.
  - intros x a. rewrite lookup_insert. case_decide as E; [subst x; intros [= <-]; cbn; rewrite He; done|apply H1].
  - intros x a. rewrite lookup_insert. case_decide as E; [subst x; by intros [= <-]|]. intros Ha Hx. apply H2; [done|].
    unfold idle in Hx. cbn in Hx. by rewrite lookup_delete_ne in Hx.
  - intros x f. rewrite lookup_delete. case_decide as E; [done|]. intros Hf. destruct (H3 x f Hf) as (F1 & F2 & F3). split_and!; [done|done|].
    destruct f as [f|u b k]; cbn in *; [destruct (f_before f)|]; rewrite ?lookup_insert_ne by done; try done.
    destruct F3 as (F3 & F4 & F5). split_and!; [done|done|]. intros q [Hq|Hq%list_elem_of_singleton]%elem_of_app Hx; [by apply F5|]. by subst q.
  - intros q [Hq|Hq%list_elem_of_singleton]%elem_of_app.
    + destruct (H4 q Hq) as [F1 F2]. split; [done|]. intros a. cbn. rewrite lookup_insert. case_decide as E; [|apply F2].
      intros [= <-]. destruct (earlier_no_later _ _ (Hp q Hq (eq_sym E))) as [H|H]; [by left|right; by destruct q].
    + subst q. cbn. fold id. split; [unfold epoch_at in *; cbn; lia|]. intros a. cbn. fold id. rewrite lookup_insert_eq. intros [= <-]. right. cbn. lia.
  - apply sorted_snoc; [done|]. intros q Hq Hx. cbn in Hx. fold id in Hx.
    destruct (earlier_no_later _ _ (Hp q Hq Hx)) as [H|H]; [by left|right; by destruct q].
Qed.

(** ** Going off *)

Lemma wrap_small z : 0 ≤ z < 2 ^ 64 → wrapu64 z = z.
Proof. intros. by apply wrapu64_id. Qed.

(** A step forward of the epoch of [id]. *)
Lemma launch_new c id e f : store_ok c → epoch_at c id < e → ID (flown f) = id → RegistrationEpoch (flown f) = e →
  (match f with Whole f => f_before f = None ∧ f_mint f = false | OneEntry _ _ _ => False end) → launched c id f (fly (set_epoch c id e) f).
Proof.
  intros [H1 H2 H3 H4 H5] He Hid Hr Hf. unfold fly. split; cbn; try done.
  - by rewrite Hid.
  - change (epoch_at (set_epoch c id e) id = RegistrationEpoch (flown f)). by rewrite epoch_set, decide_True.
  - intros x Hx. change (epoch_at (set_epoch c id e) x = epoch_at c x). by rewrite epoch_set, decide_False.
  - change (epoch_at c id ≤ epoch_at (set_epoch c id e) id). rewrite epoch_set, decide_True by done. lia.
  - destruct f as [f|]; [|done]. destruct Hf as [Hf1 Hf2]. unfold awaited. rewrite Hf1, Hf2. split; [done|].
    assert (epoch_at (set_epoch c id e) id = e) as Ee by (by rewrite epoch_set, decide_True).
    split; [intros a Ha; change (RegistrationEpoch a < epoch_at (set_epoch c id e) id)|
            intros p Hp Hx; change (pub_epoch p < epoch_at (set_epoch c id e) id)]; rewrite Ee.
    + destruct (H1 id a Ha). lia.
    + destruct (H4 p Hp) as [F1 _]. rewrite Hx in F1. lia.
Qed.

Definition launches (c : Credentials) (id : string) (r : Credentials * begun) : Prop :=
  r.1 = c ∧ r.2 ≠ Saving ∨ r.2 = Saving ∧ ∃ f, launched c id f r.1.

Lemma register_launches fresh rd auth c : store_ok c → roomy c → small auth →
  launches c (if String.eqb (ID auth) "" then fresh else ID auth) (Register_begin fresh rd auth c).
Proof.
  intros Hok [Hb _] [Hs _]. set (id := if String.eqb (ID auth) "" then fresh else ID auth).
  unfold Register_begin. cbv zeta. set (auth1 := with_metadata auth).
  destruct (ValidateAuthWeight (Some auth1)) as [e|]; [by left|].
  set (auth2 := if String.eqb (ID auth1) "" then auth1 <| ID := fresh |> else auth1).
  assert (ID auth2 = id ∧ RegistrationEpoch auth2 = RegistrationEpoch auth) as E2 by (unfold auth2, id; change (ID auth1) with (ID auth); by case_match).
  revert E2. generalize auth2. clear auth2. intros auth2 [Eid Eep].
  match goal with |- context [settle ?x ?n] => pose proof (ident_settle x n) as E3; set (x0 := x) in *; destruct (settle x0 n) as [auth3 ch] end.
  assert (ident (EnsureIndex auth3) = ident auth2) as E4 by (rewrite ident_index; exact E3).
  revert E4. generalize (EnsureIndex auth3). intros auth4 E4. injection E4 as E5 E6 _. rewrite Eid in E5. rewrite Eep in E6.
  rewrite E5, (raise_epoch_id c id Hok).
  set (c2 := if epoch_at c id <? RegistrationEpoch auth4 then _ else c).
  assert (epoch_at c2 id = Z.max (epoch_at c id) (RegistrationEpoch auth) ∧ ∀ e, set_epoch c2 id e = set_epoch c id e) as [Ee Eset].
  { unfold c2. destruct (Z.ltb_spec (epoch_at c id) (RegistrationEpoch auth4)); (split; [|done || intros e]).
    - rewrite epoch_set, decide_True by done. lia.
    - unfold set_epoch. cbn. by rewrite insert_insert_eq.
    - lia. }
  rewrite Ee, Eset. pose proof (Hb id). rewrite wrap_small by lia. rewrite epoch_set, decide_True by done.
  right. split; [done|]. eexists. apply launch_new; [done|lia|done|done|done].
Qed.

(** [c1] is [c] but for the epoch of [id]. *)
Definition at_epoch (c c1 : Credentials) (id : string) (e : Z) : Prop :=
  c_auths c1 = c_auths c ∧ published c1 = published c ∧ flights c1 = flights c ∧ epoch_at c1 id = e
  ∧ ∀ x, x ≠ id → epoch_at c1 x = epoch_at c x.
Lemma at_set c id e : at_epoch c (set_epoch c id e) id e.
Proof. split_and!; try done; [by rewrite epoch_set, decide_True|intros; by rewrite epoch_set, decide_False]. Qed.
Lemma at_same c id : at_epoch c c id (epoch_at c id).
Proof. by split_and!. Qed.

Lemma launch_update c c1 id e f : at_epoch c c1 id e → epoch_at c id ≤ e → ID (flown f) = id → RegistrationEpoch (flown f) = e →
  awaited (fly c1 f) id f → launched c id f (fly c1 f).
Proof.
  intros (E1 & E2 & E3 & E4 & E5) He Hid Hr Ha. split; try done.
  - unfold fly. cbn. by rewrite E3, Hid.
  - change (epoch_at c1 id = RegistrationEpoch (flown f)). congruence.
  - change (epoch_at c id ≤ epoch_at c1 id). by rewrite E4.
Qed.

Lemma update_launches mode base u on_disk rd c : store_ok c → idle c (ID (in_auth u)) →
  launches c (ID (in_auth u)) (Update_begin mode base u on_disk rd c).
Proof.
  intros Hok Hi. set (id := ID (in_auth u)) in *. unfold Update_begin. cbv zeta. change (ID (with_metadata (in_auth u))) with id.
  set (auth0 := with_metadata (in_auth u)). destruct (String.eqb id ""); [by left|]. destruct (ValidateAuthWeight _); [by left|].
  destruct (c_auths c !! id) as [existing|] eqn:Eex; [|by left]. destruct (_ && negb on_disk); [by left|]. rewrite (raise_epoch_id c id Hok).
  destruct (_ && stale_base base existing); [by left|]. destruct (_ && negb _); [by left|].
  pose proof (ok_idle _ Hok id existing Eex Hi) as Eepoch. destruct (ok_id _ Hok id existing Eex) as [Eid _].
  match goal with |- context [(negb (RegistrationEpoch ?x =? 0)) && _] => set (auth1 := x) end.
  assert (ID auth1 = id ∧ (mode ≠ updateModeReplace → RegistrationEpoch auth1 = epoch_at c id)) as [E1 E2].
  { unfold auth1. destruct mode; [done|..].
    - pose proof (ident_refreshed base existing (mkIncoming auth0 (in_patch u) (in_no_metadata u) (in_no_attributes u) (in_no_states u)) (rd 0%nat) (rd 1%nat) (rd 2%nat)) as E.
      injection E as E E' _. cbn. rewrite E, E'. done.
    - pose proof (ident_prepared base existing (mkIncoming auth0 (in_patch u) (in_no_metadata u) (in_no_attributes u) (in_no_states u))) as E.
      injection E as E E' _. cbn. rewrite E, E'. done. }
  clearbody auth1. destruct (_ && (RegistrationEpoch auth1 <? _)); [by left|].
  match goal with |- context [let '(_, _) := ?x in _] => assert (∃ e, at_epoch c x.1 id e ∧ epoch_at c id ≤ e ∧ ID x.2 = id ∧ RegistrationEpoch x.2 = e
    ∧ (mode ≠ updateModeReplace → e = epoch_at c id)) as (e & A1 & A2 & A3 & A4 & A5); [|destruct x as [c1 auth2]; cbn [fst snd] in *] end.
  { destruct (Z.leb_spec (epoch_at c id) (RegistrationEpoch auth1)).
    - exists (RegistrationEpoch auth1). split_and!; [apply at_set|done..|]. done.
    - exists (epoch_at c id). split_and!; [apply at_same|lia|done..]. }
  pose proof (prepared_ident mode (in_patch u) existing rd auth2) as E3. destruct (prepare_update _ _ _ _ _) as [auth3 ch]. cbn [fst snd] in *.
  injection E3 as E4 E5 _. right. split; [done|]. eexists. apply (launch_update c c1 id e); [done|done|cbn; congruence|cbn; congruence|].
  destruct A1 as (B1 & B2 & B3 & B4 & B5). cbn. exists existing. rewrite B1. split; [done|]. intros [Hm _]%andb_true_iff.
  change (RegistrationEpoch existing = epoch_at c1 id). rewrite B4, Eepoch. symmetry. apply A5. by apply bool_decide_eq_true in Hm.
Qed.

Lemma modify_launches id expected edit on_disk rd c : store_ok c → idle c (TrimSpace id) → edits edit →
  launches c (TrimSpace id) (Modify_begin id expected edit on_disk rd c).
Proof.
  intros Hok Hi He. unfold Modify_begin. cbv zeta. set (key := TrimSpace id) in *. destruct (String.eqb key ""); [by left|].
  destruct (c_auths c !! key) as [existing|] eqn:Eex; [|by left]. destruct (_ && _); [by left|].
  destruct (edit (Auth_Clone existing)) as [a'|] eqn:Ee; [|by left]. destruct (He _ _ Ee) as [Eid _].
  destruct (ok_id _ Hok key existing Eex) as [Eid' _].
  match goal with |- launches c key (Update_begin _ _ ?u _ _ _) => assert (ID (in_auth u) = key) as Ek end.
  { cbn. destruct (expected =? 0); cbn; rewrite Eid; exact Eid'. }
  rewrite <-Ek. apply update_launches; [done|]. by rewrite Ek.
Qed.

Lemma if_current_launches base updated on_disk rd c : store_ok c → idle c (ID base) →
  launches c (ID base) (UpdateIfRegistrationCurrent base updated on_disk rd c).
Proof.
  intros Hok Hi. unfold UpdateIfRegistrationCurrent. destruct (_ || _) eqn:Eg; [by left|].
  apply orb_false_iff in Eg as [_ Eg%negb_false_iff%String.eqb_eq]. destruct (c_auths c !! ID base); [|by left].
  case_match; [|by left]. rewrite <-Eg. apply update_launches; [done|]. cbn. by rewrite Eg.
Qed.

Lemma entry_launches id expected key value validate c : store_ok c → idle c id →
  let r := PersistMetadata_begin id expected key value validate c in r.1 = c ∨ ∃ f, launched c id f r.1.
Proof.
  intros Hok Hi. unfold PersistMetadata_begin. cbv zeta. destruct (_ || _); [by left|]. destruct (c_auths c !! id) as [existing|] eqn:Eex; [|by left].
  destruct (_ || _); [by left|]. right. eexists. destruct (ok_id _ Hok id existing Eex) as [Eid _]. pose proof (ok_idle _ Hok id existing Eex Hi) as Eepoch.
  apply (launch_update c c id (epoch_at c id)); [apply at_same|done|done|done|]. cbn. by exists existing.
Qed.

Lemma ok_launches c id r : store_ok c → idle c id → launches c id r → store_ok r.1.
Proof. intros Hok Hi [[-> _]|(_ & f & Hf)]; [done|]. by eapply ok_launched. Qed.

(** ** Coming back *)

Lemma ident_runtime f current auth : ident (merge_runtime f current auth) = ident auth.
Proof.
  unfold merge_runtime. destruct (f_before f) as [b|], current as [existing|]; try done.
  transitivity (ident (rejected_since f existing (mergeAuthSaveDelta auth b existing false))); [|by rewrite ident_rejected].
  generalize (rejected_since f existing (mergeAuthSaveDelta auth b existing false)). intros a. by destruct (Generation a <=? Generation existing).
Qed.

Lemma runtime_newer f b existing auth : f_before f = Some b → small existing → Generation existing < Generation (merge_runtime f (Some existing) auth).
Proof.
  intros Hb (_ & Hg & _). unfold merge_runtime. rewrite Hb.
  generalize (rejected_since f existing (mergeAuthSaveDelta auth b existing false)). intros a.
  destruct (Z.leb_spec (Generation a) (Generation existing)) as [Hle|Hlt]; [|exact Hlt].
  cbn. rewrite wrap_small by lia. lia.
Qed.

(** What comes back is published, stamped after all before - or, when it had to be saved
    and was not, is dropped. *)
Lemma commit_cases id saved failed c f : store_ok c → roomy c → flights c !! id = Some (Whole f) →
  f_mint f && failed = true ∧ Commit id saved failed c = (land c id, Refused PersistMeta) ∧ store_ok (land c id)
  ∨ let auth := merge_runtime f (c_auths c !! id) (mergeAuthSaveDelta (f_auth f) (f_auth f) saved true) in
    Commit id saved failed c = (publish c auth, Saving) ∧ ident auth = ident (f_auth f)
    ∧ (∀ p, p ∈ published c → pub_id p = id → earlier p (Snapshot auth)) ∧ store_ok (publish c auth).
Proof.
  intros Hok [_ Hroom] Hf. destruct (ok_flight _ Hok id _ Hf) as (F1 & F2 & F3). cbn [flown] in *. unfold Commit. rewrite Hf.
  destruct (f_mint f && failed) eqn:Em.
  { left. split_and!; [done|done|]. apply ok_land; [done|]. intros a Ha. cbn in F3. apply andb_true_iff in Em as [Em _].
    destruct (f_before f); [|by destruct F3 as [E _]; rewrite E in Em]. destruct F3 as (x & Hx & Hm). rewrite Ha in Hx. injection Hx as ->. auto. }
  set (auth1 := mergeAuthSaveDelta _ _ _ _). assert (ident auth1 = ident (f_auth f)) as E1 by apply ident_delta. revert E1. generalize auth1. clear auth1. intros auth1 E1.
  injection E1 as E2 E3 E4. rewrite E3, F2, Z.eqb_refl. right. cbn [negb].
  pose proof (ident_runtime f (c_auths c !! id) auth1) as E5. set (auth := merge_runtime f (c_auths c !! id) auth1) in *.
  injection E5 as E6 E7 E8.
  assert (∀ p, p ∈ published c → pub_id p = id → earlier p (Snapshot auth)) as Hlog.
  { intros p Hp Hx. cbn in F3. destruct (f_before f) as [b|] eqn:Eb.
    - destruct F3 as (x & Hx' & _). destruct (ok_log _ Hok p Hp) as [_ Hc]. destruct (ok_id _ Hok id x Hx') as [_ Hle].
      assert (no_later p (Snapshot x)) as Hnl by (apply Hc; by rewrite Hx). unfold no_later, earlier in *. cbn in *. rewrite E7, E3, F2.
      destruct Hnl as [Hlt|Heq]; [left; lia|]. destruct p as [p|]; [|done]. destruct (decide (RegistrationEpoch p = epoch_at c id)) as [Heq'|]; [right|left; cbn; lia].
      split; [done|]. enough (Generation x < Generation auth) by lia. unfold auth. rewrite Hx'. eapply runtime_newer; [done|]. by eapply Hroom.
    - destruct F3 as (_ & _ & F5). left. cbn. rewrite E7, E3, F2. by apply F5. }
  split_and!; [done|unfold ident; congruence|done|]. apply ok_publish; [done|congruence|]. rewrite E6, E2, F1. done.
Qed.

Lemma ok_commit id saved failed c : store_ok c → roomy c → store_ok (Commit id saved failed c).1.
Proof.
  intros Hok Hr. destruct (flights c !! id) as [[f|? ? ?]|] eqn:Hf; [|by unfold Commit; rewrite Hf..].
  destruct (commit_cases id saved failed c f Hok Hr Hf) as [(_ & -> & H)|(-> & _ & _ & H)]; exact H.
Qed.

(** A removal buries the credential under an epoch of its own. *)
Lemma remove_cases id c : store_ok c → below (2 ^ 63) c → idle c (TrimSpace id) →
  Remove id c = c ∨
  let e := epoch_at c (TrimSpace id) + 1 in
  published (Remove id c) = published c ++ [Tombstone (TrimSpace id) e] ∧ c_auths (Remove id c) !! TrimSpace id = None
  ∧ (∀ p, p ∈ published c → pub_id p = TrimSpace id → pub_epoch p < e) ∧ store_ok (Remove id c).
Proof.
  intros Hok Hb Hi. unfold Remove. cbv zeta. set (key := TrimSpace id) in *. destruct (String.eqb key ""); [by left|].
  destruct (c_auths c !! key) as [existing|] eqn:Eex; [|by left]. right. rewrite (raise_epoch_id c key Hok).
  pose proof (Hb key). rewrite wrap_small by lia. set (e := epoch_at c key + 1).
  assert (∀ p, p ∈ published c → pub_id p = key → pub_epoch p < e) as Hlog.
  { intros p Hp Hx. destruct (ok_log _ Hok p Hp) as [F1 _]. rewrite Hx in F1. unfold e. lia. }
  destruct Hok as [H1 H2 H3 H4 H5]. cbn. split_and!; [done|apply lookup_delete_eq|done|]. split; cbn.
  - intros x a. rewrite lookup_delete. case_decide as E; [done|]. intros Ha. destruct (H1 x a Ha). split; [done|].
    change (RegistrationEpoch a ≤ epoch_at (set_epoch c key e) x). by rewrite epoch_set, decide_False.
  - intros x a. rewrite lookup_delete. case_decide as E; [done|]. intros Ha Hx.
    change (RegistrationEpoch a = epoch_at (set_epoch c key e) x). rewrite epoch_set, decide_False by done. by apply H2.
  - intros x f Hf. destruct (decide (key = x)) as [->|Hne]; [unfold idle in Hi; congruence|]. destruct (H3 x f Hf) as (F1 & F2 & F3).
    split_and!; [done|change (RegistrationEpoch (flown f) = epoch_at (set_epoch c key e) x); by rewrite epoch_set, decide_False|].
    assert (epoch_at (set_epoch c key e) x = epoch_at c x) as Ee by (by rewrite epoch_set, decide_False).
    unfold awaited in *. cbn. change (epoch_at _ x) with (epoch_at (set_epoch c key e) x). rewrite Ee, lookup_delete_ne by done.
    destruct f as [f|]; [|done]. destruct (f_before f); [done|]. destruct F3 as (F3 & F4 & F5). split_and!; [done|done|].
    intros p [Hp|Hp%list_elem_of_singleton]%elem_of_app Hx; [by apply F5|]. by subst p.
  - intros p [Hp|Hp%list_elem_of_singleton]%elem_of_app.
    + destruct (H4 p Hp) as [F1 F2]. split; [change (pub_epoch p ≤ epoch_at (set_epoch c key e) (pub_id p)); rewrite epoch_set; case_decide; unfold e in *; [subst key|]; try lia|].
      * rewrite <-H0 in F1. lia.
      * intros a. cbn. rewrite lookup_delete. case_decide; [done|]. apply F2.
    + subst p. cbn. split; [change (e ≤ epoch_at (set_epoch c key e) key); by rewrite epoch_set, decide_True|]. intros a. cbn. by rewrite lookup_delete_eq.
  - apply sorted_snoc; [done|]. intros p Hp Hx. cbn in Hx. left. by apply Hlog.
Qed.

Lemma rewrites_entry u b current : ID u = ID current → RegistrationEpoch u = RegistrationEpoch current →
  rewrites current (Auth_Clone (merge_entry_save u b current)).
Proof.
  intros E1 E2. unfold merge_entry_save. pose proof (ident_delta u b current false) as E. revert E.
  generalize (mergeAuthSaveDelta u b current false). intros x [= E3 E4 _]. unfold rewrites.
  destruct (Z.ltb_spec (Generation x) (Generation current)); cbn; split_and!; congruence || lia.
Qed.

Lemma ok_entry_end id validate saved failed c : store_ok c → store_ok (PersistMetadata_end id validate saved failed c).1.
Proof.
  intros Hok. unfold PersistMetadata_end. destruct (flights c !! id) as [[|u b k]|] eqn:Ef; [done| |done].
  destruct (ok_flight _ Hok id _ Ef) as (F1 & F2 & (x & Hx & Ex)). cbn [flown] in *.
  assert (store_ok (land c id)) as Hl by (apply ok_land; [done|]; intros a Ha; congruence). cbv zeta.
  destruct failed; [done|]. change (c_auths (land c id)) with (c_auths c). rewrite Hx.
  destruct (negb _) eqn:Ee; [done|]. apply negb_false_iff, Z.eqb_eq in Ee. destruct (ok_id _ Hok id x Hx) as [Ix _].
  destruct (negb (validate x)); cbn [fst]; (eapply (ok_rewrite (land c id) id x); [done|exact Hx|]).
  - by split_and!.
  - apply rewrites_entry; rewrite ?id_delta, ?epoch_delta; congruence.
Qed.

(** ** Loading *)

Lemma ok_cleared c q : store_ok c → flights c = ∅ → store_ok (c <| c_auths := ∅ |> <| c_quotaFailures := q |>).
Proof.
  intros [H1 H2 H3 H4 H5] Hf. split; try done; cbn.
  - intros id f. by rewrite Hf.
  - intros p Hp. by destruct (H4 p Hp).
Qed.

(** A credential under an epoch after all that was published of it. *)
Lemma ok_put c id auth e : store_ok c → flights c = ∅ → ID auth = id → epoch_at c id < e → RegistrationEpoch auth = e →
  store_ok ((set_epoch c id e) <| c_auths := <[id := auth]> (c_auths c) |>).
Proof.
  intros [H1 H2 H3 H4 H5] Hf Hid He Hr.
  assert (∀ x, epoch_at c x ≤ epoch_at (set_epoch c id e) x) as Hmono by (intros x; rewrite epoch_set; case_decide; [subst; lia|done]).
  split; cbn; try done.
  - intros x a Hx. change (ID a = x ∧ RegistrationEpoch a ≤ epoch_at (set_epoch c id e) x). revert Hx. rewrite lookup_insert, epoch_set.
    case_decide as E; [subst x; intros [= <-]; split; [done|lia]|apply H1].
  - intros x a Hx Hi. change (RegistrationEpoch a = epoch_at (set_epoch c id e) x). revert Hx. rewrite lookup_insert, epoch_set.
    case_decide as E; [subst x; by intros [= <-]|]. intros Ha. by apply H2.
  - intros x f. by rewrite Hf.
  - intros p Hp. destruct (H4 p Hp) as [F1 F2]. split; [change (pub_epoch p ≤ epoch_at (set_epoch c id e) (pub_id p)); specialize (Hmono (pub_id p)); lia|].
    intros a. cbn. rewrite lookup_insert. case_decide as E; [|apply F2]. intros [= <-]. left. cbn. rewrite <-E in F1. lia.
Qed.

Lemma ok_bury c id : store_ok c → flights c = ∅ → 0 ≤ epoch_at c id < 2 ^ 64 - 1 → store_ok (bury c id).
Proof.
  intros Hok Hf Hb. unfold bury. destruct (c_auths c !! id) as [|] eqn:En; [done|]. cbv zeta. rewrite wrap_small by lia. set (e := epoch_at c id + 1).
  destruct Hok as [H1 H2 H3 H4 H5].
  assert (∀ x, epoch_at c x ≤ epoch_at (set_epoch c id e) x) as Hmono by (intros x; rewrite epoch_set; case_decide; [subst; lia|done]).
  split; cbn.
  - intros x a Ha. change (ID a = x ∧ RegistrationEpoch a ≤ epoch_at (set_epoch c id e) x). destruct (H1 x a Ha). specialize (Hmono x). split; [done|lia].
  - intros x a Ha Hi. change (RegistrationEpoch a = epoch_at (set_epoch c id e) x). rewrite epoch_set. case_decide as E; [congruence|]. by apply H2.
  - intros x f. by rewrite Hf.
  - intros p [Hp|Hp%list_elem_of_singleton]%elem_of_app.
    + destruct (H4 p Hp) as [F1 F2]. split; [change (pub_epoch p ≤ epoch_at (set_epoch c id e) (pub_id p)); specialize (Hmono (pub_id p)); lia|done].
    + subst p. cbn. split; [change (e ≤ epoch_at (set_epoch c id e) id); by rewrite epoch_set, decide_True|]. intros a. cbn. congruence.
  - apply sorted_snoc; [done|]. intros p Hp Hx. cbn in Hx. left. destruct (H4 p Hp) as [F1 _]. cbn. rewrite Hx in F1. lia.
Qed.

Lemma load_one_ok previous c item m : store_ok c → flights c = ∅ → below m c → 2 ^ 63 ≤ m → m < 2 ^ 64 - 2 → (∀ a, item = Some a → small a) →
  let c' := load_one previous c item in store_ok c' ∧ flights c' = ∅ ∧ below (m + 1) c'.
Proof.
  intros Hok Hf Hb Hm1 Hm2 Hs. assert (below (m + 1) c) as Hb' by (intros x; specialize (Hb x); lia).
  unfold load_one. destruct item as [auth|]; [|done]. destruct (Hs auth eq_refl) as [Hse _]. destruct (String.eqb (ID auth) ""); [done|].
  destruct (ValidateAuthWeight _); [done|].
  assert (ident (EnsureIndex (with_metadata auth)) = ident auth) as E by (by rewrite ident_index, ident_metadata).
  revert E. generalize (EnsureIndex (with_metadata auth)). intros a1 E. injection E as E1 E2 _. cbv zeta.
  pose proof (Hb (ID a1)). rewrite wrap_small by (rewrite E2; lia).
  match goal with |- context [<[_ := ?y]> _] => set (a2 := y) end.
  split; [|split; [done|]].
  - apply (ok_put c (ID a1) _ (Z.max (epoch_at c (ID a1)) (RegistrationEpoch a1) + 1)); [done|done|done|lia|done].
  - intros x. change (0 ≤ epoch_at (set_epoch c (ID a1) (Z.max (epoch_at c (ID a1)) (RegistrationEpoch a1) + 1)) x < m + 1). rewrite epoch_set.
    case_decide; [rewrite E2; lia|]. specialize (Hb x). lia.
Qed.

Lemma load_all_ok previous items : ∀ c m, store_ok c → flights c = ∅ → below m c → 2 ^ 63 ≤ m → m + Z.of_nat (length items) < 2 ^ 64 - 2 →
  Forall (λ i, ∀ a, i = Some a → small a) items →
  let c' := fold_left (load_one previous) items c in store_ok c' ∧ flights c' = ∅ ∧ below (m + Z.of_nat (length items)) c'.
Proof.
  induction items as [|i items IH]; intros c m Hok Hf Hb Hm1 Hm2 Hs; cbn [fold_left length] in *.
  - by rewrite Z.add_0_r.
  - apply Forall_cons in Hs as [Hi Hs]. destruct (load_one_ok previous c i m Hok Hf Hb) as (A & B & C); [lia|lia|done|].
    destruct (IH (load_one previous c i) (m + 1) A B C) as (A' & B' & C'); [lia|lia|done|]. split_and!; [done|done|].
    by replace (m + Z.of_nat (S (length items))) with (m + 1 + Z.of_nat (length items)) by lia.
Qed.

Lemma bury_all_ok ids : ∀ c m, NoDup ids → store_ok c → flights c = ∅ → (∀ x, x ∈ ids → epoch_at c x < m) → below (2 ^ 64) c → m < 2 ^ 64 - 2 →
  store_ok (fold_left bury ids c).
Proof.
  induction ids as [|id ids IH]; intros c m Hnd Hok Hf Hm Hb Hlt; cbn; [done|]. apply NoDup_cons in Hnd as [Hni Hnd].
  pose proof (Hb id). pose proof (Hm id ltac:(by left)).
  assert (∀ x, epoch_at (bury c id) x = epoch_at c x ∨ x = id ∧ epoch_at (bury c id) x = epoch_at c id + 1) as Hx.
  { intros x. unfold bury. destruct (c_auths c !! id); [by left|]. cbv zeta. rewrite wrap_small by lia.
    change (epoch_at (set_epoch c id (epoch_at c id + 1)) x = epoch_at c x ∨ x = id ∧ epoch_at (set_epoch c id (epoch_at c id + 1)) x = epoch_at c id + 1).
    rewrite epoch_set. case_decide; [by right|by left]. }
  apply (IH _ m); [done|apply ok_bury; [done|done|lia]| | | |done].
  - unfold bury. by destruct (c_auths c !! id).
  - intros x Hin. destruct (Hx x) as [->|[-> _]]; [apply Hm; by right|done].
  - intros x. destruct (Hx x) as [->|[-> ->]]; [done|lia].
Qed.

Lemma ok_load items c : store_ok c → roomy c → flights c = ∅ → Z.of_nat (length items) < 2 ^ 60 → Forall (λ i, ∀ a, i = Some a → small a) items →
  store_ok (Load items c).
Proof.
  intros Hok [Hb _] Hf Hl Hs. unfold Load. cbv zeta.
  destruct (load_all_ok (c_auths c) items (c <| c_auths := ∅ |> <| c_quotaFailures := ∅ |>) (2 ^ 63)) as (A & B & C); [by apply ok_cleared|done|done|lia|lia|done|].
  set (c1 := fold_left _ items _) in *.
  assert (store_ok (fold_left bury (map_to_list (c_auths c)).*1 c1)) as Hd.
  { apply (bury_all_ok _ c1 (2 ^ 63 + Z.of_nat (length items))); [apply NoDup_fst_map_to_list|done|done| | |lia].
    - intros x _. destruct (C x). lia.
    - intros x. destruct (C x). lia. }
  by apply (ok_same (fold_left bury (map_to_list (c_auths c)).*1 c1)).
Qed.

Lemma ok_step c c' : store_ok c → store_step c c' → store_ok c'.
Proof.
  intros Hok Hs. destruct Hs.
  - eapply ok_launches; [done| |by apply register_launches]. done.
  - eapply ok_launches; [done|done|by apply update_launches].
  - eapply ok_launches; [done|done|by apply modify_launches].
  - eapply ok_launches; [done|done|by apply if_current_launches].
  - by apply ok_commit.
  - by destruct (remove_cases id c Hok (proj1 H) H0) as [->|(_ & _ & _ & H1)].
  - destruct (entry_launches id expected key value validate c Hok H) as [->|[f Hf]]; [done|]. by eapply ok_launched.
  - by apply ok_entry_end.
  - by apply ok_load.
  - unfold Touch. assert (store_ok (c <| c_auths := <[ID auth := auth]> (c_auths c) |>)) as H1 by (by eapply ok_rewrite).
    destruct told; [|by apply (ok_same (c <| c_auths := <[ID auth := auth]> (c_auths c) |>))].
    assert (c_auths (c <| c_auths := <[ID auth := auth]> (c_auths c) |>) !! ID auth = Some auth) as Ha by (cbn; apply lookup_insert_eq).
    by eapply ok_same; [..|exact (ok_tell _ _ _ H1 Ha)].
  - unfold RefreshSchedulerEntry. destruct (c_auths c !! id) as [auth|] eqn:Ea; [|done]. destruct (String.eqb id ""); [done|].
    by eapply ok_same; [..|exact (ok_tell _ _ _ Hok Ea)].
Qed.
Lemma ok_run c0 c : store_ok c0 → rtc store_step c0 c → store_ok c.
Proof. intros H0 H. induction H as [|c1 c2 c3 H1 H2 IH]; [done|]. apply IH. by eapply ok_step. Qed.
Lemma ok_reachable c : reachable c → store_ok c.
Proof. intros Hr. exact (ok_run _ _ no_credentials_ok Hr). Qed.

(** What an operation publishes is stamped after all the log says of its credential. *)
Definition newest (c : Credentials) (q : publication) : Prop := ∀ p, p ∈ published c → pub_id p = pub_id q → earlier p q.

(** C19: publications are stamped in their order.  However registrations, updates, edits,
    saves of single entries, removals, loads and runtime writers interleave, with any store:
    what has been published of a credential was stamped, by epoch and generation, in the
    order it was published, and nothing published is ahead of the record that is held; an
    operation that comes back from its save finds its registration unchanged; and what it
    then publishes, or what a removal publishes, is stamped after everything before. *)
Theorem publications_increase (c : Credentials) :
  reachable c →
  StronglySorted in_order (published c)
  ∧ (∀ id a p, c_auths c !! id = Some a → p ∈ published c → pub_id p = id → no_later p (Snapshot a))
  ∧ (∀ id saved failed, (Commit id saved failed c).2 ≠ Refused ChangedDuringSave)
  ∧ (roomy c →
     (∀ id saved failed, (Commit id saved failed c).2 = Saving →
        ∃ a, published (Commit id saved failed c).1 = published c ++ [Snapshot a] ∧ ID a = id ∧ newest c (Snapshot a))
     ∧ ∀ id, idle c (TrimSpace id) → is_Some (c_auths c !! TrimSpace id) → TrimSpace id ≠ "" →
        published (Remove id c) = published c ++ [Tombstone (TrimSpace id) (epoch_at c (TrimSpace id) + 1)]
        ∧ newest c (Tombstone (TrimSpace id) (epoch_at c (TrimSpace id) + 1))).
Proof.
  intros Hr. pose proof (ok_reachable c Hr) as Hok. split_and!.
  - apply Hok.
  - intros id a p Ha Hp <-. by apply (ok_log _ Hok p Hp).
  - intros id saved failed. unfold Commit. destruct (flights c !! id) as [[f|u b k]|] eqn:Hf; [|done..].
    destruct (ok_flight _ Hok id _ Hf) as (_ & F2 & _). cbn [flown] in F2. destruct (f_mint f && failed); [done|].
    rewrite epoch_delta, F2, Z.eqb_refl. done.
  - intros Hroom. split.
    + intros id saved failed Hs. destruct (flights c !! id) as [[f|u b k]|] eqn:Hf; [|by unfold Commit in Hs; rewrite Hf in Hs..].
      destruct (ok_flight _ Hok id _ Hf) as (F1 & _). cbn [flown] in F1.
      destruct (commit_cases id saved failed c f Hok Hroom Hf) as [(_ & E & _)|(E & Ei & Hn & _)]; [by rewrite E in Hs|].
      injection Ei as Ei _ _. rewrite F1 in Ei. rewrite E. revert Ei Hn. generalize (merge_runtime f (c_auths c !! id) (mergeAuthSaveDelta (f_auth f) (f_auth f) saved true)).
      intros a Ei Hn. exists (Auth_Clone (ClearFileSnapshot a)). split_and!; [done|done|]. intros p Hp Hx. cbn in Hx. rewrite Ei in Hx.
      destruct (Hn p Hp Hx) as [H|H]; [by left|right]. by destruct p.
    + intros id Hi [a Ha] Hne. destruct (remove_cases id c Hok (proj1 Hroom) Hi) as [E|(E & _ & Hn & _)].
      * unfold Remove in E. rewrite (proj2 (String.eqb_neq _ _) Hne), Ha in E. apply (f_equal (λ c, length (published c))) in E. cbn in E.
        rewrite length_app, (raise_epoch_id c _ Hok) in E. cbn in E. lia.
      * split; [done|]. intros p Hp Hx. left. cbn in *. by apply Hn.
Qed.
End log.
#[export] Hint Rewrite @ident_clone @ident_metadata @ident_index @ident_normalize @ident_preserved @ident_unauthorized
  @ident_restored @ident_prepared @ident_refreshed @ident_delta @ident_rejected @ident_inherit : identity.
