(* ===== verification/CredentialSave.v ===== *)
(** * What survives a save

    The record an operation publishes after its save: what the operation and the store made
    of the credential, what runtime writers did to it meanwhile, and the version it carries. *)
From Stdlib Require Import ZArith Lia String Bool Sorted.
From stdpp Require Import prelude gmap strings.
From S2P Require Import Prelude GoStd AuthTypes Weight Availability Errors Json Classify QuotaSignals Cooldown ExecutionResult Shard Scheduler Metadata Merge CredentialStore CredentialLog.
Local Open Scope string_scope.
Local Open Scope list_scope.
Local Open Scope Z_scope.

(** ** The merge, field by field and key by key *)

Definition over {A} `{EqDecision A} (before now : A) (prepared : A) : A := if bool_decide (before = now) then prepared else now.
Lemma save_field_over {A} `{EqDecision A} (d b n : A) : save_field false d b n = over b n d.
Proof. unfold save_field, over. by repeat case_bool_decide. Qed.

Lemma assoc_units (ks : list string) k : assoc k ((λ k, (k, tt)) <$> ks) = if decide (k ∈ ks) then Some tt else None.
Proof.
  induction ks as [|x ks IH]; cbn; [by rewrite decide_False by apply not_elem_of_nil|].
  destruct (String.eqb_spec k x) as [->|Hne]; [by rewrite decide_True by left|]. rewrite IH.
  destruct (decide (k ∈ ks)); [by rewrite decide_True by by right|rewrite decide_False; [done|]]. by intros [E|?]%elem_of_cons.
Qed.
Lemma keyed_units (ks : list string) : NoDup ks → keyed ((λ k, (k, tt)) <$> ks).
Proof. intros H. unfold keyed. rewrite <-list_fmap_compose. cbn. by rewrite list_fmap_id. Qed.

Lemma save_map_lookup {A} `{EqDecision A} (d b n : gmap string A) k : save_map false d b n !! k = over (b !! k) (n !! k) (d !! k).
Proof.
  unfold save_map, over. case_bool_decide as E1; [subst b; by rewrite bool_decide_true|]. case_bool_decide as E2; [subst d; by case_bool_decide|].
  rewrite (range_local (λ key (_ : unit) m, partial_alter (λ d, save_key (λ x y, bool_decide (x = y)) false d (b !! key) (n !! key)) key m)
    (λ (m : gmap string A) k, m !! k)).
  2:{ apply keyed_units, NoDup_elements. }
  2:{ intros k1 v m k' Hne. by rewrite lookup_partial_alter_ne. }
  2:{ intros k1 v m m' Heq. by rewrite !lookup_partial_alter_eq, Heq. }
  rewrite assoc_units. case_decide as Hin.
  - rewrite lookup_partial_alter_eq. unfold save_key. rewrite orb_false_r. by case_bool_decide.
  - rewrite elem_of_elements, elem_of_union in Hin.
    assert (b !! k = None ∧ n !! k = None) as [-> ->]; [|done]. split; apply not_elem_of_dom; tauto.
Qed.

(** Deeply equal maps are deeply equal at every key. *)
Lemma deep_equal_keys m n k : deep_equal (VMap m) (VMap n) = true → keyed m → keyed n → same_entry (assoc k m) (assoc k n) = true.
Proof.
  cbn [deep_equal]. intros [Hl Hall]%andb_true_iff Hm Hn. apply Nat.eqb_eq in Hl. rewrite forallb_forall in Hall.
  assert (∀ x v, assoc x m = Some v → ∃ w, assoc x n = Some w ∧ deep_equal v w = true) as Hsub.
  { intros x v Hv%assoc_elem%list_elem_of_In%Hall. destruct (assoc x n) as [w|]; [by exists w|done]. }
  unfold same_entry. destruct (assoc k m) as [v|] eqn:Ev; [by destruct (Hsub k v Ev) as (w & -> & ?)|].
  destruct (assoc k n) as [w|] eqn:Ew; [|done]. exfalso.
  assert (m.*1 ⊆+ n.*1) as Hs.
  { apply NoDup_submseteq; [done|]. intros x (kv & -> & Hin)%list_elem_of_fmap. destruct kv as [x v].
    destruct (Hsub x v) as (w' & Hw & _); [by apply elem_assoc|]. apply assoc_elem in Hw. by apply (list_elem_of_fmap_2 fst _ (x, w')). }
  assert (m.*1 ≡ₚ n.*1) as Hp by (apply submseteq_length_Permutation; [done|]; rewrite !length_fmap; lia).
  apply assoc_notin in Ev. apply Ev. rewrite Hp. apply assoc_elem in Ew. by apply (list_elem_of_fmap_2 fst _ (k, w)).
Qed.

Lemma assoc_put k v m k' : assoc k' (put_entry k v m) = if String.eqb k' k then v else assoc k' m.
Proof. destruct v as [v|]; cbn [put_entry]; [apply assoc_set|rewrite assoc_delete; by destruct (String.eqb k' k)]. Qed.

Lemma save_metadata_lookup d b n k : keyed b → keyed n →
  if same_entry (assoc k b) (assoc k n)
  then assoc k (save_metadata false d b n) = assoc k d ∨ deep_equal (VMap d) (VMap b) = true ∧ save_metadata false d b n = n
  else assoc k (save_metadata false d b n) = assoc k n.
Proof.
  intros Hb Hn. unfold save_metadata. destruct (deep_equal (VMap b) (VMap n)) eqn:E1; [rewrite deep_equal_keys by done; by left|].
  destruct (deep_equal (VMap d) (VMap b)) eqn:E2; [destruct (same_entry _ _); auto|].
  set (f := λ key (_ : unit) m, put_entry key _ m).
  assert (assoc k (range f ((λ k, (k, tt)) <$> remove_dups (b.*1 ++ n.*1)) d) =
    if decide (k ∈ b.*1 ++ n.*1) then if same_entry (assoc k b) (assoc k n) then assoc k d else assoc k n else assoc k d) as ->.
  { rewrite (range_local f (λ m k, assoc k m)).
    - rewrite assoc_units. destruct (decide (k ∈ remove_dups _)) as [Hin|Hin]; rewrite elem_of_remove_dups in Hin;
        [rewrite decide_True by done|by rewrite decide_False by done].
      unfold f. rewrite assoc_put, String.eqb_refl. unfold save_key. by rewrite orb_false_r.
    - apply keyed_units, NoDup_remove_dups.
    - intros k1 v m k' Hne. unfold f. rewrite assoc_put. by rewrite (proj2 (String.eqb_neq k' k1)) by done.
    - intros k1 v m m' Heq. unfold f. by rewrite !assoc_put, String.eqb_refl, Heq. }
  case_decide as Hin; [destruct (same_entry _ _); auto|].
  rewrite elem_of_app in Hin. assert (assoc k b = None ∧ assoc k n = None) as [-> ->] by (split; apply assoc_notin; tauto). by left.
Qed.

Section save.
Context {gh : GoHost} {st : Settings} {ih : IndexHost}.

(** A field of what is published: the runtime's when it changed meanwhile, else the store's. *)
Definition carried {A} `{EqDecision A} (get : Auth → A) (before now saved a : Auth) : Prop := get a = over (get before) (get now) (get saved).

Lemma save_field_own {A} `{EqDecision A} (d n : A) : save_field true d d n = n.
Proof. unfold save_field. case_bool_decide; [done|]. by rewrite bool_decide_true. Qed.
Lemma save_map_own {A} `{EqDecision A} (d n : gmap string A) : save_map true d d n = n.
Proof. unfold save_map. case_bool_decide; [done|]. by rewrite bool_decide_true. Qed.

(** The scalar fields, as a list of what [mergeAuthSaveDelta] goes through. *)
Definition carried_fields (before now saved a : Auth) : Prop :=
  carried Index before now saved a ∧ carried Provider before now saved a ∧ carried Prefix before now saved a ∧ carried FileName before now saved a
  ∧ carried Label before now saved a ∧ carried A_Status before now saved a ∧ carried StatusMessage before now saved a
  ∧ carried Disabled before now saved a ∧ carried Unavailable before now saved a ∧ carried ProxyURL before now saved a
  ∧ carried Quota before now saved a ∧ carried Capacity before now saved a ∧ carried RoutingSelection before now saved a
  ∧ carried LastError before now saved a ∧ carried CreatedAt before now saved a ∧ carried UpdatedAt before now saved a
  ∧ carried LastRefreshedAt before now saved a ∧ carried NextRefreshAfter before now saved a ∧ carried RefreshFailures before now saved a
  ∧ carried NextRetryAfter before now saved a ∧ carried Success before now saved a ∧ carried Failed before now saved a.

Lemma delta_fields d before now : carried_fields before now d (mergeAuthSaveDelta d before now false).
Proof. unfold carried_fields, carried. split_and!; exact (save_field_over _ _ _). Qed.
Lemma delta_attributes d before now p : Attributes (mergeAuthSaveDelta d before now p) = save_map p (Attributes d) (Attributes before) (Attributes now).
Proof. done. Qed.
Lemma delta_metadata d before now p : Metadata (mergeAuthSaveDelta d before now p) = save_metadata p (Metadata d) (Metadata before) (Metadata now).
Proof. done. Qed.
Lemma delta_states d before now p : ModelStates (mergeAuthSaveDelta d before now p) = save_map p (ModelStates d) (ModelStates before) (ModelStates now).
Proof. done. Qed.

(** The fields [mergeAuthSaveDelta] goes through. *)
Definition scalars (a : Auth) :=
  (Index a, Provider a, Prefix a, FileName a, Label a, A_Status a, StatusMessage a, Disabled a, Unavailable a, ProxyURL a, Quota a,
   Capacity a, RoutingSelection a, LastError a, CreatedAt a, UpdatedAt a, LastRefreshedAt a, NextRefreshAfter a, RefreshFailures a,
   NextRetryAfter a, Success a, Failed a).
Definition maps (a : Auth) := (Attributes a, Metadata a, ModelStates a).

Lemma carried_scalars before now saved saved' a a' : scalars saved = scalars saved' → scalars a = scalars a' →
  carried_fields before now saved a → carried_fields before now saved' a'.
Proof.
  unfold scalars, carried_fields, carried. intros Es Ea H. repeat (apply pair_equal_spec in Es as [Es ?]). repeat (apply pair_equal_spec in Ea as [Ea ?]).
  repeat match goal with E : _ = _ |- _ => rewrite <-E; clear E end. exact H.
Qed.
Lemma own_scalars f saved : scalars (mergeAuthSaveDelta f f saved true) = scalars saved.
Proof. unfold scalars. repeat (apply pair_equal_spec; split); exact (save_field_own _ _). Qed.

Lemma runtime_body f before now auth : f_before f = Some before →
  scalars (merge_runtime f (Some now) auth) = scalars (mergeAuthSaveDelta auth before now false)
  ∧ maps (merge_runtime f (Some now) auth) = maps (mergeAuthSaveDelta auth before now false).
Proof.
  intros Hb. unfold merge_runtime. rewrite Hb. generalize (mergeAuthSaveDelta auth before now false). intros x.
  assert (scalars (rejected_since f now x) = scalars x ∧ maps (rejected_since f now x) = maps x) as [<- <-] by (unfold rejected_since; by destruct (_ || _)).
  generalize (rejected_since f now x). intros y. by destruct (Generation y <=? Generation now).
Qed.

(** C22: what happens to a credential while it is being saved is not lost.  When an update
    comes back from its save it publishes, field by field, what runtime writers made of the
    credential meanwhile where they changed it, and what the store left of the update where
    they did not; attributes, model states and metadata likewise, key by key.  It keeps its
    own identity and version, and is stamped after the record it replaces. *)
Theorem save_keeps_runtime (id : string) (saved : Auth) (failed : bool) (c : Credentials) (f : in_flight) (before now : Auth) :
  flights c !! id = Some (Whole f) → f_before f = Some before → c_auths c !! id = Some now → small now →
  keyed (Metadata before) → keyed (Metadata now) → (Commit id saved failed c).2 = Saving →
  ∃ a, c_auths (Commit id saved failed c).1 !! ID (f_auth f) = Some a
  ∧ carried_fields before now saved a
  ∧ (∀ k, Attributes a !! k = over (Attributes before !! k) (Attributes now !! k) (Attributes saved !! k))
  ∧ (∀ k, ModelStates a !! k = option_map ModelState_Clone <$> over (ModelStates before !! k) (ModelStates now !! k) (ModelStates saved !! k))
  ∧ (let prepared := save_metadata true (Metadata (f_auth f)) (Metadata (f_auth f)) (Metadata saved) in
     ∀ k, if same_entry (assoc k (Metadata before)) (assoc k (Metadata now))
          then assoc k (Metadata a) = assoc k prepared ∨ deep_equal (VMap prepared) (VMap (Metadata before)) = true ∧ Metadata a = Metadata now
          else assoc k (Metadata a) = assoc k (Metadata now))
  ∧ ident a = ident (f_auth f) ∧ Generation now < Generation a.
Proof.
  intros Hf Hb Hc Hs Kb Kn. unfold Commit. rewrite Hf. destruct (_ && failed); [done|]. destruct (negb _); [done|]. rewrite Hc. intros _.
  set (d := mergeAuthSaveDelta (f_auth f) (f_auth f) saved true). pose proof (own_scalars (f_auth f) saved) as Ed. fold d in Ed.
  assert (ident d = ident (f_auth f)) as Eid by apply ident_delta.
  assert (Attributes d = Attributes saved ∧ ModelStates d = ModelStates saved
    ∧ Metadata d = save_metadata true (Metadata (f_auth f)) (Metadata (f_auth f)) (Metadata saved)) as (Ea & Em & Emd).
  { unfold d. rewrite delta_attributes, delta_states, delta_metadata, !save_map_own. done. }
  clearbody d. destruct (runtime_body f before now d Hb) as [E1 E2]. pose proof (runtime_newer f before now d Hb Hs) as Hg.
  pose proof (ident_runtime f (Some now) d) as Ei. set (r := merge_runtime f (Some now) d) in *. clearbody r.
  unfold maps in E2. rewrite delta_attributes, delta_metadata, delta_states in E2. apply pair_equal_spec in E2 as [E2 E5]. apply pair_equal_spec in E2 as [E3 E4].
  exists (Auth_Clone (ClearFileSnapshot r)). refine (conj _ (conj _ (conj _ (conj _ (conj _ (conj _ _)))))).
  - unfold publish. cbn. replace (ID r) with (ID (f_auth f)); [apply lookup_insert_eq|]. unfold ident in Ei, Eid. congruence.
  - eapply carried_scalars; [exact Ed| |apply delta_fields]. exact (eq_sym E1).
  - intros k. change (Attributes r !! k = over (Attributes before !! k) (Attributes now !! k) (Attributes saved !! k)). by rewrite E3, Ea, save_map_lookup.
  - intros k. change ((option_map ModelState_Clone <$> ModelStates r) !! k = option_map ModelState_Clone <$> over (ModelStates before !! k) (ModelStates now !! k) (ModelStates saved !! k)).
    by rewrite lookup_fmap, E5, Em, save_map_lookup.
  - set (prepared := save_metadata true _ _ _). intros k. change (Metadata (Auth_Clone (ClearFileSnapshot r))) with (Metadata r). rewrite E4, Emd. fold prepared.
    pose proof (save_metadata_lookup prepared (Metadata before) (Metadata now) k Kb Kn) as H. exact H.
  - change (ident r = ident (f_auth f)). congruence.
  - exact Hg.
Qed.

(** ** The version of the credentials *)

Lemma secrets_ext a b : Metadata a = Metadata b → Attributes a = Attributes b → Provider a = Provider b → secrets a = secrets b.
Proof. destruct a, b. cbn. intros -> -> ->. reflexivity. Qed.
Lemma inherit_secrets a existing : secrets (inherit a existing) = secrets a.
Proof. apply secrets_ext; unfold inherit; by destruct (_ && _). Qed.
Definition own_version (existing : Auth) : Z := if CredentialVersion existing =? 0 then 1 else CredentialVersion existing.
Definition tracked_version (existing m : Auth) : Z :=
  if CredentialsChanged existing m then wrapu64 (Z.max (CredentialVersion m) (own_version existing) + 1) else own_version existing.
Lemma next_tracked a existing : next_version (inherit a existing) existing = tracked_version existing a.
Proof.
  pose proof (inherit_secrets a existing) as Es. pose proof (ident_inherit a existing) as E. revert Es E. generalize (inherit a existing). intros b Es E.
  unfold ident in E. injection E as _ _ E. unfold next_version, tracked_version, CredentialsChanged, own_version. by rewrite Es, E.
Qed.

(** The update as it is merged. *)
Definition as_merged (mode : updateAuthMode) (base : option Auth) (existing : Auth) (u : incoming) (rd : nat → time) : Auth :=
  merge_update mode base existing (mkIncoming (with_metadata (in_auth u)) (in_patch u) (in_no_metadata u) (in_no_attributes u) (in_no_states u)) rd.
Lemma merged_id mode base existing u rd : ID existing = ID (in_auth u) → ID (as_merged mode base existing u rd) = ID (in_auth u).
Proof.
  intros E0. unfold as_merged. destruct mode; cbn [merge_update]; [done| |].
  - set (v := mkIncoming _ _ _ _ _). pose proof (ident_refreshed base existing v (rd 0%nat) (rd 1%nat) (rd 2%nat)) as E. unfold ident in E. injection E as E _ _. rewrite <-E0. exact E.
  - set (v := mkIncoming _ _ _ _ _). pose proof (ident_prepared base existing v) as E. unfold ident in E. injection E as E _ _. rewrite <-E0. exact E.
Qed.

Lemma update_flight mode base u on_disk rd c : (Update_begin mode base u on_disk rd c).2 = Saving →
  (∀ e, c_auths c !! ID (in_auth u) = Some e → ID e = ID (in_auth u)) →
  ∃ existing f, c_auths c !! ID (in_auth u) = Some existing
  ∧ flights (Update_begin mode base u on_disk rd c).1 !! ID (in_auth u) = Some (Whole f) ∧ ID (f_auth f) = ID (in_auth u)
  ∧ CredentialVersion (f_auth f) = tracked_version existing (as_merged mode base existing u rd).
Proof.
  set (id := ID (in_auth u)). unfold Update_begin. cbv zeta. change (ID (with_metadata (in_auth u))) with id.
  destruct (String.eqb id ""); [done|]. destruct (ValidateAuthWeight _); [done|].
  destruct (c_auths c !! id) as [existing|] eqn:Eex; [|done]. destruct (_ && negb on_disk); [done|].
  set (c0 := raise_epoch c id). destruct (_ && stale_base base existing); [done|]. destruct (_ && negb _); [done|].
  fold (as_merged mode base existing u rd). intros Hs Hid. pose proof (merged_id mode base existing u rd (Hid existing eq_refl)) as Em. fold id in Em. revert Hs.
  remember (as_merged mode base existing u rd) as m eqn:Hm. destruct (_ && (RegistrationEpoch m <? _)); [done|].
  match goal with |- context [let '(_, _) := ?x in _] => assert (tracked_version existing x.2 = tracked_version existing m ∧ ID x.2 = ID m) as [Et Ei]; [|destruct x as [c1 a1]; cbn [snd] in Et, Ei] end.
  { by destruct (_ <=? _). }
  pose proof (prepared_ident mode (in_patch u) existing rd a1) as E. destruct (prepare_update _ _ _ _ _) as [a2 ch]. cbn [fst snd] in *. intros _.
  rewrite next_tracked, Et in E. unfold ident in E. injection E as E1 _ E2. eexists existing, (mkFlight a2 _ _ _ _ _). split; [done|].
  unfold fly. cbn. rewrite E1, Ei, Em. split; [apply lookup_insert_eq|]. rewrite <-Hm. split; [done|exact E2].
Qed.

(** C23: the version of a credential tells new credentials from old.  When an update of
    whatever kind is published, whatever happened while it was being saved, the record has
    a higher version than the one it replaces exactly when one of the tokens, keys or client
    identities of the merged record differs from what was there; if none does, the version
    stays, and is 1 where it had never been set. *)
Theorem version_tracks_credentials (mode : updateAuthMode) (base : option Auth) (u : incoming) (on_disk : bool) (rd : nat → time)
    (c c1 c2 c3 : Credentials) (saved : Auth) (failed : bool) :
  reachable c → roomy c → Update_begin mode base u on_disk rd c = (c1, Saving) →
  flights c2 !! ID (in_auth u) = flights c1 !! ID (in_auth u) → Commit (ID (in_auth u)) saved failed c2 = (c3, Saving) →
  ∃ existing a, c_auths c !! ID (in_auth u) = Some existing ∧ c_auths c3 !! ID (in_auth u) = Some a
  ∧ let m := as_merged mode base existing u rd in
    if bool_decide (secrets existing = secrets m) then CredentialVersion a = own_version existing
    else 0 ≤ CredentialVersion m < 2 ^ 63 → CredentialVersion existing < CredentialVersion a.
Proof.
  intros Hr [_ Hroom] Hu Hf Hc. pose proof (ok_reachable c Hr) as Hok.
  destruct (update_flight mode base u on_disk rd c) as (existing & f & E1 & E2 & E3 & E4); [by rewrite Hu|intros e He; by apply (ok_id _ Hok _ _ He)|].
  rewrite Hu in E2. cbn [fst] in E2. rewrite <-Hf in E2. unfold Commit in Hc. rewrite E2 in Hc.
  destruct (_ && failed); [done|]. destruct (negb _); [done|]. injection Hc as <-.
  set (d := mergeAuthSaveDelta (f_auth f) (f_auth f) saved true) in *. pose proof (ident_delta (f_auth f) (f_auth f) saved true) as Ed. fold d in Ed. clearbody d.
  pose proof (ident_runtime f (c_auths c2 !! ID (in_auth u)) d) as Ei. set (r := merge_runtime f _ d) in *. clearbody r.
  rewrite Ed in Ei. unfold ident in Ei. injection Ei as I1 _ I3.
  exists existing, (Auth_Clone (ClearFileSnapshot r)). split; [done|]. split; [unfold publish; cbn; rewrite I1, E3; apply lookup_insert_eq|].
  change (CredentialVersion (Auth_Clone (ClearFileSnapshot r))) with (CredentialVersion r). rewrite I3, E4. unfold tracked_version, CredentialsChanged.
  case_bool_decide; [done|]. intros Hm. cbn [negb]. destruct (Hroom _ _ E1) as (_ & _ & Hv). unfold own_version. destruct (Z.eqb_spec (CredentialVersion existing) 0);
    rewrite wrap_small by lia; lia.
Qed.

(** ** Late words from an earlier registration *)

Lemma published_launches c id r p : launches c id r → p ∈ published c → p ∈ published r.1.
Proof. intros [[-> _]|(_ & f & Hf)]; [done|]. by rewrite (la_log _ _ _ _ Hf). Qed.
Lemma published_bury ids p : ∀ c, p ∈ published c → p ∈ published (fold_left bury ids c).
Proof.
  induction ids as [|id ids IH]; intros c Hp; [done|]. cbn. apply IH. unfold bury. destruct (c_auths c !! id); [done|]. cbn. apply elem_of_app. by left.
Qed.
Lemma published_load previous items : ∀ c, published (fold_left (load_one previous) items c) = published c.
Proof.
  induction items as [|i items IH]; intros c; [done|]. cbn [fold_left]. rewrite IH. unfold load_one. destruct i as [a|]; [|done].
  destruct (String.eqb (ID a) ""); [done|]. by destruct (ValidateAuthWeight _).
Qed.
Lemma published_grow c c' p : store_ok c → store_step c c' → p ∈ published c → p ∈ published c'.
Proof.
  intros Hok Hs Hp. destruct Hs.
  - by eapply published_launches; [apply register_launches|].
  - by eapply published_launches; [apply update_launches|].
  - by eapply published_launches; [apply modify_launches|].
  - by eapply published_launches; [apply if_current_launches|].
  - unfold Commit. destruct (flights c !! id) as [[f|? ? ?]|]; [|done|done]. destruct (_ && failed); [done|]. destruct (negb _); [done|].
    unfold publish. cbn. apply elem_of_app. by left.
  - destruct (remove_cases id c Hok (proj1 H) H0) as [->|(-> & _)]; [done|]. apply elem_of_app. by left.
  - destruct (entry_launches id expected key value validate c Hok H) as [->|[f Hf]]; [done|]. by rewrite (la_log _ _ _ _ Hf).
  - unfold PersistMetadata_end. destruct (flights c !! id) as [[f|? ? ?]|]; [done| |done]. destruct failed; [done|]. destruct (c_auths _ !! id); [|done].
    destruct (negb _); [done|]. by destruct (negb _).
  - unfold Load. cbn. apply published_bury. by rewrite published_load.
  - unfold Touch. cbn. destruct told; [apply elem_of_app; by left|done].
  - unfold RefreshSchedulerEntry. destruct (c_auths c !! id); [|done]. destruct (String.eqb id ""); [done|]. cbn. apply elem_of_app. by left.
Qed.
Lemma published_run c c' p : store_ok c → rtc store_step c c' → p ∈ published c → p ∈ published c'.
Proof. intros Hok H. induction H as [|c1 c2 c3 H1 H2 IH]; [done|]. intros Hp. apply IH; [by eapply ok_step|by eapply published_grow]. Qed.

Lemma update_stale mode base u on_disk rd c e : store_ok c → idle c (ID (in_auth u)) →
  e < epoch_at c (ID (in_auth u)) → (∀ a, c_auths c !! ID (in_auth u) = Some a → e < RegistrationEpoch a) →
  match mode with updateModeReplace => 0 < RegistrationEpoch (in_auth u) ≤ e | _ => ∃ b, base = Some b ∧ RegistrationEpoch b ≤ e end →
  (Update_begin mode base u on_disk rd c).1 = c ∧ (Update_begin mode base u on_disk rd c).2 ≠ Saving.
Proof.
  intros Hok Hi He Ha Hm. destruct (update_launches mode base u on_disk rd c Hok Hi) as [H|[Hs _]]; [done|]. exfalso. revert Hs.
  set (id := ID (in_auth u)) in *. unfold Update_begin. cbv zeta. change (ID (with_metadata (in_auth u))) with id.
  destruct (String.eqb id ""); [done|]. destruct (ValidateAuthWeight _); [done|].
  destruct (c_auths c !! id) as [existing|] eqn:Eex; [|done]. specialize (Ha existing eq_refl). rewrite (raise_epoch_id c id Hok).
  destruct (_ && negb on_disk); [done|]. destruct mode.
  - cbn [merge_update in_auth]. rewrite bool_decide_false by (by intros H; apply H). cbn [andb].
    rewrite (bool_decide_false (updateModeReplace = updateModeRefresh)) by done. cbn [andb].
    change (RegistrationEpoch (with_metadata (in_auth u))) with (RegistrationEpoch (in_auth u)).
    rewrite (proj2 (Z.eqb_neq _ _)) by lia. rewrite (proj2 (Z.ltb_lt _ _)) by lia. done.
  - destruct Hm as (b & -> & Hb). rewrite bool_decide_true by done. cbn [andb stale_base]. rewrite (proj2 (Z.eqb_neq _ _)) by lia. done.
  - destruct Hm as (b & -> & Hb). rewrite bool_decide_true by done. cbn [andb stale_base]. rewrite (proj2 (Z.eqb_neq _ _)) by lia. done.
Qed.

(** C21: what belongs to an earlier registration stays out.  After a credential has been
    removed, whatever else happens - other registrations under the same name, loads, runtime
    writers - nothing that still refers to the removed registration gets through: an update
    that carries it, a refresh or a request preparation that started from it, and an edit
    that expects it all leave the manager as it is, and nothing is saved or published. *)
Theorem removed_stays_removed (c0 c : Credentials) (id : string) (old : Auth) :
  reachable c0 → roomy c0 → idle c0 id → TrimSpace id = id → id ≠ "" → c_auths c0 !! id = Some old → 0 < RegistrationEpoch old →
  rtc store_step (Remove id c0) c → idle c id →
  (∀ u on_disk rd, ID (in_auth u) = id → RegistrationEpoch (in_auth u) = RegistrationEpoch old →
     let r := Update_begin updateModeReplace None u on_disk rd c in r.1 = c ∧ r.2 ≠ Saving)
  ∧ (∀ mode u on_disk rd, mode ≠ updateModeReplace → ID (in_auth u) = id →
     let r := Update_begin mode (Some old) u on_disk rd c in r.1 = c ∧ r.2 ≠ Saving)
  ∧ (∀ edit on_disk rd, let r := Modify_begin id (RegistrationEpoch old) edit on_disk rd c in r.1 = c ∧ r.2 ≠ Saving).
Proof.
  intros Hr [Hbelow _] Hi Htr Hne Hold Hpos Hrun Hi'. pose proof (ok_reachable c0 Hr) as Hok0.
  assert (idle c0 (TrimSpace id)) as Hi0 by (by rewrite Htr).
  destruct (remove_cases id c0 Hok0 Hbelow Hi0) as [E|(Epub & _ & _ & Hok1)].
  { apply (f_equal (λ c, c_auths c !! id)) in E. revert E. unfold Remove. rewrite Htr, (proj2 (String.eqb_neq _ _) Hne), Hold. cbn.
    rewrite lookup_delete_eq. congruence. }
  rewrite Htr in Epub. pose proof (ok_run _ _ Hok1 Hrun) as Hok.
  assert (Tombstone id (epoch_at c0 id + 1) ∈ published c) as Hin.
  { eapply published_run; [exact Hok1|done|]. rewrite Epub. apply elem_of_app. right. by left. }
  destruct (ok_log _ Hok _ Hin) as [F1 F2]. cbn in F1. destruct (ok_id _ Hok0 id old Hold) as [_ Hle].
  assert (∀ a, c_auths c !! id = Some a → RegistrationEpoch old < RegistrationEpoch a) as Hnew.
  { intros a Ha. destruct (F2 a Ha) as [H|[]]. cbn in H. lia. }
  split_and!.
  - intros u on_disk rd Hu Heq. rewrite <-Hu in *. apply (update_stale _ _ _ _ _ _ (RegistrationEpoch old)); [done|done|lia|done|lia].
  - intros mode u on_disk rd Hmode Hu. rewrite <-Hu in *. apply (update_stale _ _ _ _ _ _ (RegistrationEpoch old)); [done|done|lia|done|].
    destruct mode; [done|by exists old..].
  - intros edit on_disk rd. unfold Modify_begin. rewrite Htr, (proj2 (String.eqb_neq _ _) Hne). destruct (c_auths c !! id) as [a|] eqn:Ea; [|done].
    specialize (Hnew a eq_refl). rewrite (proj2 (Z.eqb_neq _ _)) by lia. rewrite (proj2 (Z.ltb_lt _ _)) by lia. done.
Qed.
End save.
