(* ===== verification/CredentialDelivery.v ===== *)
(** * From the manager to the scheduler

    The manager tells its scheduler what it published after it has let go of its lock, so
    the calls arrive in any order.  Their stamps put that right: the scheduler ends up with
    what the manager holds. *)
From Stdlib Require Import ZArith Lia String Bool Sorted Permutation.
From stdpp Require Import prelude gmap strings.
From S2P Require Import Registry RegistryRouting Prelude GoStd AuthTypes Weight Availability Errors Classify Cooldown Shard Scheduler SchedulerInvariant Lifecycle Metadata Merge CredentialStore CredentialLog.
Local Open Scope string_scope.
Local Open Scope list_scope.
Local Open Scope Z_scope.

Section delivery.
Context {gh : GoHost} {st : Settings} {ih : IndexHost} {tf : TimeFormat}.

(** ** One call to the scheduler *)

Definition deliver (s : authScheduler) (reg : registryView) (now : time) (p : publication) : authScheduler :=
  match p with
  | Snapshot a => upsertAuth s reg (Some a) now
  | Tombstone id e => RecordRemovalTombstone s id e now
  end.
(** The calls as they arrive, each with the view of the registry and the time it meets. *)
Definition arrival : Type := registryView * time * publication.
Definition deliveries (l : list arrival) (s : authScheduler) : authScheduler := fold_left (λ s x, deliver s x.1.1 x.1.2 x.2) l s.

(** What the scheduler has of a credential. *)
Definition standing (s : authScheduler) (id : string) : option string * option scheduledGenerationMeta * option scheduledAuthMeta :=
  (authProviders s !! id, authGenerations s !! id, authProviders s !! id ≫= λ key, providers s !! key ≫= λ p, auths p !! id).

Lemma standing_remove s id id' : id' ≠ id → standing (removeAuthFromProvidersLocked s id') id = standing s id.
Proof.
  intros Hne. unfold removeAuthFromProvidersLocked. destruct (String.eqb _ ""); [done|]. unfold standing, update_provider. cbn.
  rewrite lookup_delete_ne by done. destruct (authProviders s !! id) as [key|]; cbn; [|done]. f_equal.
  destruct (decide (provider_of s id' = key)) as [->|Hk]; [rewrite lookup_alter_eq|by rewrite lookup_alter_ne].
  destruct (providers s !! key) as [p|]; cbn; [|done]. unfold provider_removeAuthLocked. destruct (String.eqb id' ""); [done|]. cbn. by rewrite lookup_delete_ne.
Qed.
Lemma standing_generation s id id' g : id' ≠ id → standing (set_generation s id' g) id = standing s id.
Proof. intros Hne. unfold standing, set_generation. cbn. by rewrite lookup_insert_ne. Qed.

Lemma standing_place s id id' key m now : id' ≠ id → ID (sm_auth m) = id' → standing (place s id' key m [] true now) id = standing s id.
Proof.
  intros Hne Hm. destruct (place_listed s id' key m [] true now) as [E1 E2]. unfold standing. rewrite E1, E2, lookup_insert_ne by done.
  destruct (authProviders s !! id) as [k|]; cbn [mbind option_bind]; [|done]. f_equal. rewrite place_providers. case_decide as Ek; [subst k|case_decide; [|done]].
  - cbn [mbind option_bind]. rewrite upsertForModels_auths, Hm, lookup_insert_ne by done. unfold target. destruct (providers s !! key); cbn [default mbind option_bind]; [done|]. apply lookup_empty.
  - destruct (providers s !! k) as [p|]; cbn; [|done]. unfold provider_removeAuthLocked. destruct (String.eqb id' ""); [done|]. cbn. by rewrite lookup_delete_ne.
Qed.

(** Calls about others leave a credential alone. *)
Lemma standing_other s reg now p id : clean (pub_id p) → pub_id p ≠ id → standing (deliver s reg now p) id = standing s id.
Proof.
  intros [Htr Hn] Hne. destruct p as [a|x e]; cbn [deliver pub_id] in *.
  - unfold upsertAuth, upsertAuthLifecycleLocked. rewrite Htr. cbv zeta. rewrite (proj2 (String.eqb_neq _ _) Hn).
    destruct (isStaleScheduledAuth _ _ _ _ _); [done|]. destruct (_ || _); [by rewrite standing_remove, standing_generation|].
    match goal with |- standing (install (ensureProviderLocked (leave_previous ?s1 _ ?k) _) _ _ ?m _ _ _) id = _ =>
      change (standing (place s1 (ID a) k m [] true now) id = standing s id) end.
    by rewrite standing_place, standing_generation.
  - unfold RecordRemovalTombstone, recordRemovalTombstoneLocked. rewrite Htr, (proj2 (String.eqb_neq _ _) Hn).
    assert (standing (removeAuthFromProvidersLocked (set_generation s x (mkGen e 0 now)) x) id = standing s id) as E by (by rewrite standing_remove, standing_generation).
    destruct (authGenerations s !! x); [by destruct (_ <? _)|done].
Qed.

(** ** What has arrived *)

(** The generation on record comes from something earlier than [q]. *)
Definition before_news (s : authScheduler) (q : publication) : Prop :=
  ∀ g, authGenerations s !! pub_id q = Some g →
    epoch g < pub_epoch q ∨ match q with Snapshot a => epoch g = AuthTypes.RegistrationEpoch a ∧ generation g < Generation a | Tombstone _ _ => False end.
(** The generation on record is that of [q]. *)
Definition at_news (s : authScheduler) (q : publication) : Prop :=
  ∃ g, authGenerations s !! pub_id q = Some g ∧ epoch g = pub_epoch q ∧ match q with Snapshot a => generation g = Generation a | Tombstone _ _ => True end.

Lemma standing_gens s s' id : standing s' id = standing s id → authGenerations s' !! id = authGenerations s !! id.
Proof. unfold standing. intros E. congruence. Qed.

Lemma before_step s reg now p q : clean (pub_id p) → (pub_id p = pub_id q → earlier p q) → before_news s q → before_news (deliver s reg now p) q.
Proof.
  intros Hc He Hb g. destruct (decide (pub_id p = pub_id q)) as [E|E]; [|rewrite (standing_gens _ _ _ (standing_other s reg now p (pub_id q) Hc E)); apply Hb].
  specialize (He E). pose proof Hc as [Htr Hn]. destruct p as [a|x e]; cbn [deliver pub_id] in *.
  - unfold upsertAuth. pose proof (gens_upsert s reg a now (pub_id q)) as Hg. cbn zeta in Hg. destruct Hg as [->|(_ & _ & ->)]; [apply Hb|].
    intros [= <-]. cbn. destruct He as [He|He]; [by left|]. right. destruct q; [|done]. lia.
  - unfold RecordRemovalTombstone, recordRemovalTombstoneLocked. rewrite Htr, (proj2 (String.eqb_neq _ _) Hn), <-E.
    assert (authGenerations (removeAuthFromProvidersLocked (set_generation s x (mkGen e 0 now)) x) !! x = Some (mkGen e 0 now)) as Eg.
    { rewrite remove_generations. cbn. apply lookup_insert_eq. }
    assert (epoch (mkGen e 0 now) < pub_epoch q) as Hlt by (destruct He as [He|He]; [done|by destruct q]).
    destruct (authGenerations s !! x) as [g0|] eqn:E0; [destruct (_ <? _)|].
    + intros Hg. apply Hb. by rewrite <-E.
    + rewrite Eg. intros [= <-]. by left.
    + rewrite Eg. intros [= <-]. by left.
Qed.

Lemma news_step s reg now p q : clean (pub_id p) → (pub_id p = pub_id q → earlier p q) → at_news s q →
  standing (deliver s reg now p) (pub_id q) = standing s (pub_id q).
Proof.
  intros Hc He (g & Hg & Hge & Hgg). destruct (decide (pub_id p = pub_id q)) as [E|E]; [|by apply standing_other].
  specialize (He E). pose proof Hc as [Htr Hn]. rewrite <-E in *. destruct p as [a|x e]; cbn [deliver pub_id] in *.
  - unfold upsertAuth, upsertAuthLifecycleLocked. rewrite Htr. cbv zeta. rewrite (proj2 (String.eqb_neq _ _) Hn).
    assert (isStaleScheduledAuth s (ID a) (AuthTypes.RegistrationEpoch a) (Generation a) (UpdatedAt a) = true) as ->; [|done].
    unfold isStaleScheduledAuth. rewrite Hg, Hge. destruct He as [He|He]; [cbn in He; by rewrite (proj2 (Z.ltb_lt _ _) He)|]. destruct q as [b|]; [|done].
    destruct He as [Ee Elt]. cbn. rewrite Ee, Z.ltb_irrefl, Z.eqb_refl, Hgg. by rewrite (proj2 (Z.ltb_lt _ _) Elt).
  - unfold RecordRemovalTombstone, recordRemovalTombstoneLocked. rewrite Htr, (proj2 (String.eqb_neq _ _) Hn), Hg, Hge.
    assert (e < pub_epoch q) as Hlt by (destruct He as [He|He]; [done|by destruct q]). by rewrite (proj2 (Z.ltb_lt _ _) Hlt).
Qed.

Lemma before_run q l : ∀ s, Forall (λ x : arrival, clean (pub_id x.2) ∧ (pub_id x.2 = pub_id q → earlier x.2 q)) l → before_news s q →
  before_news (deliveries l s) q.
Proof.
  induction l as [|x l IH]; intros s Hl Hb; [done|]. apply Forall_cons in Hl as [[Hc He] Hl]. cbn. apply IH; [done|]. by apply before_step.
Qed.
Lemma news_run q l : ∀ s, Forall (λ x : arrival, clean (pub_id x.2) ∧ (pub_id x.2 = pub_id q → earlier x.2 q)) l → at_news s q →
  standing (deliveries l s) (pub_id q) = standing s (pub_id q).
Proof.
  induction l as [|x l IH]; intros s Hl Hn; [done|]. apply Forall_cons in Hl as [[Hc He] Hl]. cbn.
  pose proof (news_step s x.1.1 x.1.2 x.2 q Hc He Hn) as E. rewrite IH; [done|done|].
  destruct Hn as (g & Hg & H). exists g. by rewrite (standing_gens _ _ _ E).
Qed.

(** What the scheduler has of a credential is what was last published of it. *)
Definition schedulable (a : Auth) : bool := negb (String.eqb (executorKeyFromAuth (Some a)) "") && negb (disabled a).
Definition reflects (s : authScheduler) (q : publication) : Prop :=
  match q with
  | Snapshot a =>
      if schedulable a then
        authProviders s !! ID a = Some (executorKeyFromAuth (Some a))
        ∧ authGenerations s !! ID a = Some (mkGen (AuthTypes.RegistrationEpoch a) (Generation a) (UpdatedAt a))
        ∧ ∃ meta, providers s !! executorKeyFromAuth (Some a) ≫= (λ p, auths p !! ID a) = Some meta ∧ sm_auth meta = Auth_Clone a
      else provider_of s (ID a) = ""
  | Tombstone id _ => provider_of s id = ""
  end.
Lemma reflects_standing s s' q : standing s' (pub_id q) = standing s (pub_id q) → reflects s q → reflects s' q.
Proof.
  unfold standing. intros E. apply pair_equal_spec in E as [E E3]. apply pair_equal_spec in E as [E1 E2].
  destruct q as [a|id e]; cbn [reflects pub_id] in *; [|unfold provider_of; by rewrite E1].
  destruct (schedulable a); [|unfold provider_of; by rewrite E1]. rewrite E1, E2. intros (H1 & H2 & H3). rewrite E1, H1 in E3. cbn [mbind option_bind] in E3.
  rewrite E3. done.
Qed.

Lemma provider_removed s id : provider_of (removeAuthFromProvidersLocked s id) id = "".
Proof.
  unfold removeAuthFromProvidersLocked. destruct (String.eqb_spec (provider_of s id) "") as [E|E]; [done|].
  unfold provider_of, update_provider. cbn. by rewrite lookup_delete_eq.
Qed.

Lemma news_arrive s reg now q : clean (pub_id q) → before_news s q → at_news (deliver s reg now q) q ∧ reflects (deliver s reg now q) q.
Proof.
  intros Hc Hb. pose proof Hc as [Htr Hn]. destruct q as [a|id e]; cbn [deliver pub_id reflects] in *.
  - assert (isStaleScheduledAuth s (ID a) (AuthTypes.RegistrationEpoch a) (Generation a) (UpdatedAt a) = false) as Est.
    { unfold isStaleScheduledAuth. destruct (authGenerations s !! ID a) as [g|] eqn:Eg; [|done]. destruct (Hb g Eg) as [H|[H1 H2]]; cbn in *.
      - rewrite (proj2 (Z.ltb_ge _ _)) by lia. by rewrite (proj2 (Z.eqb_neq _ _)) by lia.
      - rewrite H1, Z.ltb_irrefl, Z.eqb_refl, (proj2 (Z.ltb_ge _ _)) by lia. by rewrite (proj2 (Z.eqb_neq _ _)) by lia. }
    assert (authGenerations (upsertAuth s reg (Some a) now) !! ID a = Some (mkGen (AuthTypes.RegistrationEpoch a) (Generation a) (UpdatedAt a))
      ∧ (schedulable a = false → provider_of (upsertAuth s reg (Some a) now) (ID a) = "")) as [Eg Eoff].
    { unfold upsertAuth, upsertAuthLifecycleLocked. rewrite Htr. cbv zeta. rewrite (proj2 (String.eqb_neq _ _) Hn), Est. unfold schedulable.
      destruct (String.eqb _ "" || disabled a) eqn:Eoff.
      - split; [rewrite remove_generations; cbn; apply lookup_insert_eq|]. intros _. apply provider_removed.
      - apply orb_false_iff in Eoff as [-> ->]. split; [|done].
        match goal with |- authGenerations (install (ensureProviderLocked (leave_previous ?s1 _ ?k) _) _ _ ?m _ _ _) !! _ = _ =>
          change (authGenerations (place s1 (ID a) k m [] true now) !! ID a = Some (mkGen (AuthTypes.RegistrationEpoch a) (Generation a) (UpdatedAt a)));
          rewrite (proj2 (place_listed s1 (ID a) k m [] true now)) end. cbn. apply lookup_insert_eq. }
    split; [by eexists|]. destruct (schedulable a) eqn:Es; [|by apply Eoff].
    apply andb_true_iff in Es as [Ek%negb_true_iff%String.eqb_neq Ed%negb_true_iff].
    destruct (upsert_installs s reg a now Hc Est Ek Ed) as (H1 & H2 & H3). split_and!; [done|done|]. by eexists.
  - unfold RecordRemovalTombstone, recordRemovalTombstoneLocked. rewrite Htr, (proj2 (String.eqb_neq _ _) Hn).
    assert (at_news (removeAuthFromProvidersLocked (set_generation s id (mkGen e 0 now)) id) (Tombstone id e)
      ∧ provider_of (removeAuthFromProvidersLocked (set_generation s id (mkGen e 0 now)) id) id = "") as H.
    { split; [|apply provider_removed]. eexists. split; [rewrite remove_generations; cbn; apply lookup_insert_eq|done]. }
    destruct (authGenerations s !! id) as [g|] eqn:Eg; [|done]. destruct (Hb g Eg) as [Hlt|[]]. cbn in Hlt.
    by rewrite (proj2 (Z.ltb_ge _ _)) by lia.
Qed.

Lemma deliveries_app l1 l2 s : deliveries (l1 ++ l2) s = deliveries l2 (deliveries l1 s).
Proof. apply fold_left_app. Qed.

(** In whatever order the calls arrive, the newest has the last word. *)
Lemma newest_wins (log : list publication) (q : publication) (l : list arrival) (s : authScheduler) :
  l.*2 ≡ₚ log ++ [q] → Forall (λ p, clean (pub_id p)) (log ++ [q]) → (∀ p, p ∈ log → pub_id p = pub_id q → earlier p q) →
  authGenerations s !! pub_id q = None → reflects (deliveries l s) q.
Proof.
  intros Hp Hc He Hs. apply Forall_app in Hc as [Hc [Hcq _]%Forall_cons].
  assert (q ∈ l.*2) as (x & Hx & Hin)%list_elem_of_fmap by (rewrite Hp; apply elem_of_app; right; by left).
  apply list_elem_of_split in Hin as (l1 & l2 & ->). rewrite fmap_app, fmap_cons, <-Hx in Hp.
  assert (l1.*2 ++ l2.*2 ≡ₚ log) as Hrest.
  { apply (Permutation_cons_inv (a := q)). rewrite Permutation_middle, Hp. symmetry. apply Permutation_cons_append. }
  assert (∀ l, (∀ y, y ∈ l → y.2 ∈ log) → Forall (λ x : arrival, clean (pub_id x.2) ∧ (pub_id x.2 = pub_id q → earlier x.2 q)) l) as Hall.
  { intros l Hl. apply Forall_forall. intros y Hy. specialize (Hl y Hy). split; [by eapply Forall_forall in Hc|by apply He]. }
  assert (∀ y, y ∈ l1 ∨ y ∈ l2 → y.2 ∈ log) as Hsub.
  { intros y Hy. rewrite <-Hrest. apply elem_of_app. destruct Hy as [Hy|Hy]; [left|right]; by apply list_elem_of_fmap_2. }
  rewrite deliveries_app. change (x :: l2) with ([x] ++ l2). rewrite deliveries_app. set (s1 := deliveries l1 s). cbn [deliveries fold_left]. rewrite <-Hx.
  destruct (news_arrive s1 x.1.1 x.1.2 q Hcq) as [Ha Hr].
  { apply before_run; [apply Hall; auto|]. intros g Hg. congruence. }
  eapply reflects_standing; [|exact Hr]. apply news_run; [apply Hall; auto|done].
Qed.

(** C20: the scheduler ends up with what the manager holds.  However the store was used
    before, when an update has been published or a credential removed, and the calls that
    tell the scheduler of it and of everything before have arrived - each once, in any
    order, meeting the registry in any state - the scheduler shows that credential exactly
    as the manager holds it: under its provider with the stamp and the content of the
    record, or not at all when it is disabled or removed. *)
Theorem deliveries_converge (c c' : Credentials) (q : publication) (sel : option selectorKind) (l : list arrival) :
  reachable c → roomy c →
  (∃ id saved failed, Commit id saved failed c = (c', Saving)) ∨ (∃ id, c' = Remove id c ∧ idle c (TrimSpace id)) →
  published c' = published c ++ [q] → Forall (λ p, clean (pub_id p)) (published c') → l.*2 ≡ₚ published c' →
  let s := deliveries l (newAuthScheduler sel) in
  reflects s q ∧ match q with Snapshot a => c_auths c' !! ID a = Some a | Tombstone id _ => c_auths c' !! id = None end.
Proof.
  intros Hr Hroom Hop Epub Hclean Hl. cbv zeta. pose proof (ok_reachable c Hr) as Hok.
  assert ((∀ p, p ∈ published c → pub_id p = pub_id q → earlier p q)
    ∧ match q with Snapshot a => c_auths c' !! ID a = Some a | Tombstone id _ => c_auths c' !! id = None end) as [Hq Hheld].
  { destruct Hop as [(id & saved & failed & E)|(id & -> & Hi)].
    - destruct (flights c !! id) as [[f|u b k]|] eqn:Hf; [|by unfold Commit in E; rewrite Hf in E..].
      destruct (ok_flight _ Hok id _ Hf) as (F1 & _). cbn [flown] in F1.
      destruct (commit_cases id saved failed c f Hok Hroom Hf) as [(_ & E' & _)|(E' & Ei & Hn & _)]; [congruence|].
      rewrite E in E'. revert E' Ei Hn. generalize (merge_runtime f (c_auths c !! id) (mergeAuthSaveDelta (f_auth f) (f_auth f) saved true)).
      intros a [= ->] Ei Hn. unfold publish in Epub. cbn in Epub. apply app_inj_2 in Epub as [_ [= <-]]; [|done].
      unfold ident in Ei. injection Ei as Ei _ _. rewrite F1 in Ei. split.
      + intros p Hp Hx. cbn in Hx. rewrite Ei in Hx. destruct (Hn p Hp Hx) as [H|H]; [by left|right]. by destruct p.
      + unfold publish. cbn. apply lookup_insert_eq.
    - destruct (remove_cases id c Hok (proj1 Hroom) Hi) as [E|(E & En & Hn & _)].
      + exfalso. rewrite E in Epub. apply (f_equal length) in Epub. rewrite length_app in Epub. cbn in Epub. lia.
      + rewrite E in Epub. apply app_inj_2 in Epub as [_ [= <-]]; [|done]. split; [|exact En]. intros p Hp Hx. left. cbn in *. by apply Hn. }
  split; [|exact Hheld]. rewrite Epub in Hclean, Hl. by eapply newest_wins.
Qed.
End delivery.
