(* ===== verification/CredentialExample.v ===== *)
(** * A credential's life, run

    A registration, an update that is saved while the refresh scheduler writes, a removal,
    and a second registration, computed; the theorems on metadata, merging and the
    credential store applied to them. *)
From Stdlib Require Import ZArith Lia String Bool Sorted Permutation.
From stdpp Require Import prelude gmap strings.
From S2P Require Import Registry Prelude GoStd AuthTypes Weight Availability Errors Classify Cooldown Shard Scheduler SchedulerInvariant Metadata Merge CredentialStore CredentialLog CredentialSave CredentialDelivery.
Local Open Scope string_scope.
Local Open Scope list_scope.
Local Open Scope Z_scope.

#[local] Instance host : GoHost := no_host.
#[local] Instance settings : Settings := default_settings.
#[local] Instance index_host : IndexHost := {| filepath_Abs := λ s, Some s; filepath_Clean := λ s, s; sha256_index := λ s, s |}.
#[local] Instance rfc3339 : TimeFormat := {| FormatRFC3339 := λ _, "" |}.

(** ** The states *)

Definition rd (n : nat) : time := 100 + Z.of_nat n.
Definition with_token (t : string) (a : Auth) : Auth := a <| Metadata := [("type", VString "gemini"); ("access_token", VString t)] |>.
Definition sample : Auth := with_token "t1" (simpleAuth "a" "gemini").
Definition flown_at (c : Credentials) : Auth := match flights c !! "a" with Some f => flown f | None => zeroAuth end.
Definition held (c : Credentials) : Auth := default zeroAuth (c_auths c !! "a").

Definition c1 : Credentials := (Register_begin "" rd sample no_credentials).1.
Definition c2 : Credentials := (Commit "a" (flown_at c1) false c1).1.
Definition update : incoming := mkIncoming (with_token "t2" (held c2)) None false false false.
Definition c3 : Credentials := (Update_begin updateModeReplace None update true rd c2).1.
(** While the update is saved the refresh scheduler marks the credential. *)
Definition marked : Auth := (held c3) <| NextRefreshAfter := 777 |> <| Generation := Generation (held c3) + 1 |>.
Definition c4 : Credentials := Touch true marked c3.
(** The store adds a label. *)
Definition stored : Auth := (flown_at c4) <| Label := "disk" |>.
Definition c5 : Credentials := (Commit "a" stored false c4).1.
Definition c6 : Credentials := Remove "a" c5.
Definition c7 : Credentials := (Register_begin "" rd sample c6).1.
Definition c8 : Credentials := (Commit "a" (flown_at c7) false c7).1.

(** ** They are reached *)

Definition small_b (a : Auth) : bool :=
  (0 <=? RegistrationEpoch a) && (RegistrationEpoch a <? 2 ^ 63) && (0 <=? Generation a) && (Generation a <? 2 ^ 63)
  && (0 <=? CredentialVersion a) && (CredentialVersion a <? 2 ^ 63).
Lemma small_check a : small_b a = true → small a.
Proof. unfold small_b, small. rewrite !andb_true_iff, !Z.leb_le, !Z.ltb_lt. lia. Qed.
Definition roomy_b (c : Credentials) : bool :=
  forallb (λ kv : string * Z, (0 <=? kv.2) && (kv.2 <? 2 ^ 63)) (map_to_list (authEpochs c))
  && forallb (λ kv : string * Auth, small_b kv.2) (map_to_list (c_auths c)).
Lemma roomy_check c : roomy_b c = true → roomy c.
Proof.
  unfold roomy_b. rewrite andb_true_iff, !forallb_forall. intros [H1 H2]. split.
  - intros id. unfold epoch_at. destruct (authEpochs c !! id) as [e|] eqn:E; cbn; [|lia].
    apply elem_of_map_to_list, list_elem_of_In, H1 in E. cbn in E. apply andb_true_iff in E as [E1%Z.leb_le E2%Z.ltb_lt]. lia.
  - intros id a E. apply elem_of_map_to_list, list_elem_of_In, H2 in E. by apply small_check.
Qed.

Lemma c1_step : store_step no_credentials c1.
Proof. apply step_register; [apply roomy_check|apply small_check|]; reflexivity. Qed.
Lemma c2_step : store_step c1 c2.
Proof. apply step_commit, roomy_check. vm_compute. reflexivity. Qed.
Lemma c3_step : store_step c2 c3.
Proof. apply step_update; [apply roomy_check|apply small_check|]; vm_compute; reflexivity. Qed.
Lemma c4_step : store_step c3 c4.
Proof.
  apply (step_touch c3 true (held c3)); [vm_compute; reflexivity|]. unfold marked. generalize (held c3). intros a. unfold rewrites. cbn. split_and!; [done|done|lia].
Qed.
Lemma c5_step : store_step c4 c5.
Proof. apply step_commit, roomy_check. vm_compute. reflexivity. Qed.
Lemma c6_step : store_step c5 c6.
Proof. apply step_remove; [apply roomy_check|]; vm_compute; reflexivity. Qed.
Lemma c7_step : store_step c6 c7.
Proof. apply step_register; [apply roomy_check|apply small_check|]; vm_compute; reflexivity. Qed.
Lemma c8_step : store_step c7 c8.
Proof. apply step_commit, roomy_check. vm_compute. reflexivity. Qed.
Lemma reached_2 : reachable c2.
Proof. eapply rtc_l; [exact c1_step|]. apply rtc_once. exact c2_step. Qed.
Lemma reached_4 : reachable c4.
Proof. eapply rtc_r; [|exact c4_step]. eapply rtc_r; [exact reached_2|exact c3_step]. Qed.
Lemma reached_5 : reachable c5.
Proof. eapply rtc_r; [exact reached_4|exact c5_step]. Qed.

(** What the update left: the new token, the mark of the refresh scheduler, the store's label. *)
Example published_update : match published c5 with
  | [Snapshot x; Snapshot y; Snapshot z] =>
      (Generation x, Generation y, Generation z) = (1, 2, 3) ∧ NextRefreshAfter z = 777 ∧ Label z = "disk" ∧ CredentialVersion z = 2
      ∧ assoc "access_token" (Metadata z) = Some (VString "t2")
  | _ => False
  end.
Proof. vm_compute. repeat split. Qed.

(** ** The theorems at these states *)

Lemma roomy_4 : roomy c4.
Proof. apply roomy_check. vm_compute. reflexivity. Qed.
Lemma roomy_5 : roomy c5.
Proof. apply roomy_check. vm_compute. reflexivity. Qed.

Lemma publications_increase_witness : roomy c4 ∧ length (published c4) = 2%nat
  ∧ StronglySorted in_order (published c4)
  ∧ ∃ a, published (Commit "a" stored false c4).1 = published c4 ++ [Snapshot a] ∧ ID a = "a" ∧ newest c4 (Snapshot a).
Proof.
  split; [exact roomy_4|]. split; [vm_compute; reflexivity|]. destruct (publications_increase c4 reached_4) as (H1 & _ & _ & H2).
  split; [exact H1|]. destruct (H2 roomy_4) as [H3 _]. apply H3. vm_compute. reflexivity.
Defined.

Definition flight_4 : in_flight := match flights c4 !! "a" with Some (Whole f) => f | _ => mkFlight zeroAuth None None false false false end.
Definition before_4 : Auth := default zeroAuth (f_before flight_4).

Lemma keyed_check {A} (m : list (string * A)) : bool_decide (NoDup m.*1) = true → keyed m.
Proof. intros H. by apply bool_decide_eq_true in H. Qed.

Lemma save_keeps_runtime_witness : ∃ a, c_auths c5 !! "a" = Some a ∧ NextRefreshAfter a = 777 ∧ Label a = "disk".
Proof.
  assert (flights c4 !! "a" = Some (Whole flight_4)) as H1 by (vm_compute; reflexivity).
  assert (f_before flight_4 = Some before_4) as H2 by (vm_compute; reflexivity).
  assert (c_auths c4 !! "a" = Some (held c4)) as H3 by (vm_compute; reflexivity).
  assert (small (held c4)) as H4 by (apply small_check; vm_compute; reflexivity).
  assert (keyed (Metadata before_4)) as H5 by (apply keyed_check; vm_compute; reflexivity).
  assert (keyed (Metadata (held c4))) as H6 by (apply keyed_check; vm_compute; reflexivity).
  assert ((Commit "a" stored false c4).2 = Saving) as H7 by (vm_compute; reflexivity).
  pose proof (save_keeps_runtime "a" stored false c4 flight_4 before_4 (held c4) H1 H2 H3 H4 H5 H6 H7) as (a & E & K & _).
  exists a. split; [exact E|]. destruct K as (_ & _ & _ & _ & El & _ & _ & _ & _ & _ & _ & _ & _ & _ & _ & _ & _ & En & _). split.
  - rewrite En. vm_compute. reflexivity.
  - rewrite El. vm_compute. reflexivity.
Defined.

Lemma version_tracks_credentials_witness : ∃ existing a, c_auths c2 !! "a" = Some existing ∧ c_auths c5 !! "a" = Some a
  ∧ CredentialVersion existing < CredentialVersion a.
Proof.
  assert (roomy c2) as H1 by (apply roomy_check; vm_compute; reflexivity).
  assert (Update_begin updateModeReplace None update true rd c2 = (c3, Saving)) as H2 by (vm_compute; reflexivity).
  assert (flights c4 !! ID (in_auth update) = flights c3 !! ID (in_auth update)) as H3 by (vm_compute; reflexivity).
  assert (Commit (ID (in_auth update)) stored false c4 = (c5, Saving)) as H4 by (vm_compute; reflexivity).
  pose proof (version_tracks_credentials updateModeReplace None update true rd c2 c3 c4 c5 stored false reached_2 H1 H2 H3 H4) as (e & a & E1 & E2 & H).
  assert (ID (in_auth update) = "a") as Eid by (vm_compute; reflexivity). rewrite Eid in E1, E2.
  exists e, a. split; [exact E1|]. split; [exact E2|].
  assert (Some (held c2) = Some e) as Ee by (rewrite <-E1; vm_compute; reflexivity). injection Ee as <-.
  assert (bool_decide (secrets (held c2) = secrets (as_merged updateModeReplace None (held c2) update rd)) = false) as Eb by (vm_compute; reflexivity).
  cbv zeta in H. rewrite Eb in H. apply H. split; [apply Z.leb_le|apply Z.ltb_lt]; vm_compute; reflexivity.
Defined.

Definition late : incoming := mkIncoming (held c5) None false false false.
Lemma removed_stays_removed_witness : is_Some (c_auths c8 !! "a")
  ∧ (Update_begin updateModeReplace None late true rd c8).1 = c8 ∧ (Update_begin updateModeReplace None late true rd c8).2 ≠ Saving.
Proof.
  split; [vm_compute; eexists; reflexivity|].
  assert (idle c5 "a") as H1 by (vm_compute; reflexivity). assert (TrimSpace "a" = "a") as H2 by (vm_compute; reflexivity).
  assert ("a" ≠ "") as H3 by done. assert (c_auths c5 !! "a" = Some (held c5)) as H4 by (vm_compute; reflexivity).
  assert (0 < RegistrationEpoch (held c5)) as H5 by (apply Z.ltb_lt; vm_compute; reflexivity).
  assert (rtc store_step (Remove "a" c5) c8) as H6 by (eapply rtc_l; [exact c7_step|apply rtc_once, c8_step]).
  assert (idle c8 "a") as H7 by (vm_compute; reflexivity).
  destruct (removed_stays_removed c5 c8 "a" (held c5) reached_5 roomy_5 H1 H2 H3 H4 H5 H6 H7) as (H & _). apply H; vm_compute; reflexivity.
Defined.

Definition newest_5 : publication := default (Tombstone "" 0) (last (published c5)).
Definition no_registry : registryView := mkRegistryView (λ _, 1) (λ _, []).
Lemma clean_check (l : list publication) : forallb (λ p, String.eqb (pub_id p) "a") l = true → Forall (λ p, clean (pub_id p)) l.
Proof. rewrite forallb_forall. intros H. apply Forall_forall. intros p Hp%list_elem_of_In%H%String.eqb_eq. rewrite Hp. by split. Qed.
Definition backwards (l : list publication) : list arrival := (λ p, (no_registry, 50, p)) <$> rev l.
Lemma backwards_all (l : list publication) : (backwards l).*2 ≡ₚ l.
Proof. unfold backwards. rewrite <-list_fmap_compose. cbn. rewrite list_fmap_id. symmetry. apply Permutation_rev. Qed.
(** The calls of the registration, the mark and the update, the other way round. *)
Definition arrivals : list arrival := backwards (published c5).
Lemma reflects_snapshot (s : authScheduler) (q : publication) (a : Auth) (id key : string) : q = Snapshot a → schedulable a = true → ID a = id →
  executorKeyFromAuth (Some a) = key → Auth_Clone a = a → reflects s q →
  ∃ meta, providers s !! key ≫= (λ p, auths p !! id) = Some meta ∧ sm_auth meta = a.
Proof. intros -> E1 <- <- E2. cbn [reflects]. rewrite E1. intros (_ & _ & meta & H & Hm). exists meta. split; [exact H|congruence]. Qed.

Lemma deliveries_converge_witness : ∃ meta,
  providers (deliveries arrivals (newAuthScheduler None)) !! "gemini" ≫= (λ p, auths p !! "a") = Some meta ∧ sm_auth meta = held c5.
Proof.
  assert (Commit "a" stored false c4 = (c5, Saving)) as H1 by (vm_compute; reflexivity).
  assert (published c5 = published c4 ++ [newest_5]) as H2 by (vm_compute; reflexivity).
  assert (Forall (λ p, clean (pub_id p)) (published c5)) as H3 by (apply clean_check; vm_compute; reflexivity).
  pose proof (backwards_all (published c5)) as H4.
  pose proof (deliveries_converge c4 c5 newest_5 None (backwards (published c5)) reached_4 roomy_4
    (or_introl (ex_intro _ "a" (ex_intro _ stored (ex_intro _ false H1)))) H2 H3 H4) as T. destruct T as [H _].
  eapply reflects_snapshot; [| | | | |exact H]; vm_compute; reflexivity.
Defined.

(** ** Metadata and merging *)

Definition disk : gomap :=
  [("type", VString "codex"); ("access_token", VString "old"); ("note", VString "mine");
   ("siwc", VMap [("access_token", VString "nested"); ("expires_at", VString "soon"); ("note", VString "kept")])].
Definition refreshed : gomap :=
  [("type", VString "codex"); ("access_token", VString "new"); ("expired", VString "later");
   ("siwc", VMap [("access_token", VString "nested2"); ("note", VString "kept")])].
Definition plain_text (v : goval) : bool := match v with VString _ => true | _ => false end.
Lemma plain_check (m : gomap) : bool_decide (NoDup m.*1) = true →
  forallb (λ kv, match kv.2 with VMap n => bool_decide (NoDup n.*1) && forallb (λ kv, plain_text kv.2) n | v => plain_text v end) m = true → plain_map m.
Proof.
  rewrite bool_decide_eq_true, forallb_forall. intros H1 H2. split; [exact H1|]. intros k v Hv%assoc_elem%list_elem_of_In%H2. cbn [snd] in Hv.
  destruct v as [| | | | | | | | | | | | | | | | |n| | | |]; try done. apply andb_true_iff in Hv as [Hn%bool_decide_eq_true Hv]. split; [exact Hn|].
  clear Hn. induction n as [|[k' v'] n IH]; [exact I|]. apply andb_true_iff in Hv as [Hv' Hv]. split; [by destruct v'|by apply IH].
Qed.
Lemma patch_roundtrip_witness :
  let after := Apply (NewCredentialRefreshPatch disk refreshed true true) disk in
  assoc "access_token" after = Some (VString "new") ∧ assoc "note" after = assoc "note" disk
  ∧ assoc "note" (siwc_of after) = assoc "note" (siwc_of disk) ∧ assoc "expires_at" (siwc_of after) = None.
Proof.
  assert (plain_map disk) as H1 by (apply plain_check; vm_compute; reflexivity).
  assert (plain_map refreshed) as H2 by (apply plain_check; vm_compute; reflexivity).
  assert (∀ k, k ∈ ["client_id"; "device_id"] → assoc k disk = None) as H3.
  { intros k. rewrite !elem_of_cons, elem_of_nil. intros [->|[->|[]]]; reflexivity. }
  pose proof (patch_roundtrip disk refreshed true true H1 H2 (λ _, H3) (λ _, eq_refl)) as (_ & _ & H & _ & Hs & _).
  destruct (Hs eq_refl) as (_ & Hkeep & Hexp). split_and!; [vm_compute; reflexivity| | |exact (Hexp eq_refl)].
  - apply H; [discriminate|]. right. left. apply (bool_decide_unpack _). vm_compute. exact I.
  - apply Hkeep. left. apply (bool_decide_unpack _). vm_compute. exact I.
Defined.

(** The user changed the note while a request was prepared; the preparation minted a token. *)
Definition user_base : Auth := (simpleAuth "a" "meta") <| Metadata := [("note", VString "old"); ("access_token", VString "t1")] |>.
Definition user_current : Auth := user_base <| Metadata := [("note", VString "new"); ("access_token", VString "t1")] |>.
Definition prepared_now : incoming := mkIncoming (user_base <| Metadata := [("note", VString "old"); ("access_token", VString "t2")] |>) None false false false.

(** The user disabled a credential while it was refreshed. *)
Definition disabled_meanwhile : Auth := user_base <| Disabled := true |> <| A_Status := StatusDisabled |>.
Lemma refresh_respects_witness :
  Disabled (MergeRefreshedAuth (Some user_base) disabled_meanwhile prepared_now 10 20 30) = true
  ∧ A_Status (MergeRefreshedAuth (Some user_base) disabled_meanwhile prepared_now 10 20 30) = StatusDisabled.
Proof.
  pose proof (refresh_respects (Some user_base) disabled_meanwhile prepared_now 10 20 30) as (_ & _ & Hr).
  destruct (Hr eq_refl) as (H1 & _ & _ & H2 & _).
  assert (is_disabled disabled_meanwhile ≠ is_disabled user_base) as Hd by (vm_compute; discriminate).
  specialize (H1 Hd). split; [exact H1|]. apply H2. rewrite H1. reflexivity.
Defined.

(** An executor enables a credential that was disabled and has failed meanwhile: enabled in
    the record and in the metadata, but still [StatusDisabled], so it is not used. *)
Definition failed_meanwhile : Auth := disabled_meanwhile <| LastError := Some (mkError "" "boom" false 500) |>.
Definition enabled_again : incoming := mkIncoming user_base None false false false.
Example reenabled_stays_disabled :
  let merged := MergeRefreshedAuth (Some disabled_meanwhile) failed_meanwhile enabled_again 10 20 30 in
  Disabled merged = false ∧ assoc "disabled" (Metadata merged) = Some (VBool false) ∧ is_disabled merged = true.
Proof. vm_compute. repeat split. Qed.
