(* ===== verification/TokenAccounting.v ===== *)
(** * Token accounting

    Models [sdk/cliproxy/usage/accounting.go]: how the token counts that an upstream
    reports are sorted into buckets that do not overlap, or left unclassified when they do
    not add up.  Counts are 64-bit integers; differences and sums are written with their
    wrap-around, and are shown never to reach it. *)
From Stdlib Require Import ZArith Lia String Bool.
From stdpp Require Import prelude strings.
From S2P Require Import Prelude GoStd Errors.
Local Open Scope string_scope.
Local Open Scope list_scope.
Local Open Scope Z_scope.

(** ** Data *)

Definition TokenAccountingSchemaVersion : Z := 2.
(** [TokenAccountingQuality] is a string; the three constants. *)
Definition TokenAccountingQualityComplete := "complete".
Definition TokenAccountingQualityInconsistent := "inconsistent".
Definition TokenAccountingQualityUnclassified := "unclassified".
Inductive tokenAccountingSemantics := SemanticsUnknown | SemanticsSubset | SemanticsIndependent | SemanticsSeparateReasoning.
#[export] Instance tokenAccountingSemantics_dec : EqDecision tokenAccountingSemantics.
Proof. solve_decision. Defined.

Record TokenInputBreakdown := mkInput { I_TotalTokens : Z; UncachedTokens : Z; I_CacheReadTokens : Z; CacheWriteTokens : Z }.
Record TokenOutputBreakdown := mkOutput { O_TotalTokens : Z; NonReasoningTokens : Z; O_ReasoningTokens : Z }.
Record TokenBreakdown := mkBreakdown {
  SchemaVersion : Z; Quality : string; B_TotalTokens : Z; Input : TokenInputBreakdown; Output : TokenOutputBreakdown; UnclassifiedTokens : Z }.
Definition noInput : TokenInputBreakdown := mkInput 0 0 0 0.
Definition noOutput : TokenOutputBreakdown := mkOutput 0 0 0.

(** The zero value of a breakdown is a breakdown nobody has made; it is not [Valid]. *)
Definition zeroBreakdown : TokenBreakdown := mkBreakdown 0 "" 0 noInput noOutput 0.
Record Detail := mkDetail {
  InputTokens : Z; OutputTokens : Z; ReasoningTokens : Z; CachedTokens : Z; CacheReadTokens : Z; CacheCreationTokens : Z;
  D_TotalTokens : Z; D_Breakdown : TokenBreakdown; ResponseServiceTier : string }.
#[export] Instance Detail_eta : Eta Detail := λ d,
  mkDetail (InputTokens d) (OutputTokens d) (ReasoningTokens d) (CachedTokens d) (CacheReadTokens d) (CacheCreationTokens d)
    (D_TotalTokens d) (D_Breakdown d) (ResponseServiceTier d).

(** ** Sums *)

(** [nonNegativeSum]: [None] is its [false] (the sum is 0 then). *)
Fixpoint sum_from (total : Z) (values : list Z) : option Z :=
  match values with
  | [] => Some total
  | value :: values => if (value <? 0) || (wrap64 (MaxInt64 - value) <? total) then None else sum_from (wrap64 (total + value)) values
  end.
Definition nonNegativeSum (values : list Z) : option Z := sum_from 0 values.
#[global] Arguments nonNegativeSum _ : simpl never.
Definition sum_or_0 (s : option Z) : Z := default 0 s.
Definition resolveAccountingTotal (total expected : Z) : Z * bool :=
  if (total <? 0) || (expected <? 0) then (0, false) else if total =? 0 then (expected, true) else (total, total =? expected).

(** ** Validity *)

Definition validTokenAccountingQuality (quality : string) : bool :=
  bool_decide (quality ∈ [TokenAccountingQualityComplete; TokenAccountingQualityInconsistent; TokenAccountingQualityUnclassified]).
Definition sums_to (s : option Z) (total : Z) : bool := match s with Some x => total =? x | None => false end.
Definition Valid (b : TokenBreakdown) : bool :=
  (SchemaVersion b =? TokenAccountingSchemaVersion) && validTokenAccountingQuality (Quality b)
  && forallb (λ x, 0 <=? x) [B_TotalTokens b; UnclassifiedTokens b; I_TotalTokens (Input b); UncachedTokens (Input b); I_CacheReadTokens (Input b);
       CacheWriteTokens (Input b); O_TotalTokens (Output b); NonReasoningTokens (Output b); O_ReasoningTokens (Output b)]
  && sums_to (nonNegativeSum [UncachedTokens (Input b); I_CacheReadTokens (Input b); CacheWriteTokens (Input b)]) (I_TotalTokens (Input b))
  && sums_to (nonNegativeSum [NonReasoningTokens (Output b); O_ReasoningTokens (Output b)]) (O_TotalTokens (Output b))
  && sums_to (nonNegativeSum [I_TotalTokens (Input b); O_TotalTokens (Output b); UnclassifiedTokens b]) (B_TotalTokens b)
  && negb (String.eqb (Quality b) TokenAccountingQualityComplete && negb (UnclassifiedTokens b =? 0)).

(** ** The constructors *)

Definition inconsistentTokenBreakdown (total fallback : Z) : TokenBreakdown :=
  let resolved := if total <=? 0 then fallback else total in
  let resolved := if resolved <? 0 then 0 else resolved in
  mkBreakdown TokenAccountingSchemaVersion TokenAccountingQualityInconsistent resolved noInput noOutput resolved.
Definition complete (total : Z) (i : TokenInputBreakdown) (o : TokenOutputBreakdown) : TokenBreakdown :=
  mkBreakdown TokenAccountingSchemaVersion TokenAccountingQualityComplete total i o 0.
Definition is_none {A} (x : option A) : bool := match x with None => true | Some _ => false end.

Definition NewSubsetTokenBreakdown (inputTotal cacheRead cacheWrite outputTotal reasoning total : Z) : TokenBreakdown :=
  let cache := nonNegativeSum [cacheRead; cacheWrite] in
  let expected := nonNegativeSum [inputTotal; outputTotal] in
  let cacheTotal := sum_or_0 cache in let expectedTotal := sum_or_0 expected in
  if is_none cache || is_none expected || (reasoning <? 0) || (inputTotal <? cacheTotal) || (outputTotal <? reasoning)
  then inconsistentTokenBreakdown total expectedTotal else
  let '(resolvedTotal, okTotal) := resolveAccountingTotal total expectedTotal in
  if negb okTotal then inconsistentTokenBreakdown total expectedTotal else
  complete resolvedTotal (mkInput inputTotal (wrap64 (inputTotal - cacheTotal)) cacheRead cacheWrite)
    (mkOutput outputTotal (wrap64 (outputTotal - reasoning)) reasoning).

Definition NewPartialSubsetTokenBreakdown (inputTotal cacheRead cacheWrite outputTotal reasoning total : Z) : TokenBreakdown :=
  let cache := nonNegativeSum [cacheRead; cacheWrite] in
  let expected := nonNegativeSum [inputTotal; outputTotal] in
  let cacheTotal := sum_or_0 cache in let expectedTotal := sum_or_0 expected in
  if is_none cache || is_none expected || (inputTotal <? 0) || (outputTotal <? 0) || (reasoning <? 0)
     || (inputTotal <? cacheTotal) || (outputTotal <? reasoning) || (total <? 0)
  then inconsistentTokenBreakdown total expectedTotal else
  let resolvedTotal := if total =? 0 then expectedTotal else total in
  if resolvedTotal <? expectedTotal then inconsistentTokenBreakdown total expectedTotal else
  let unclassified := wrap64 (resolvedTotal - expectedTotal) in
  mkBreakdown TokenAccountingSchemaVersion (if 0 <? unclassified then TokenAccountingQualityUnclassified else TokenAccountingQualityComplete)
    resolvedTotal (mkInput inputTotal (wrap64 (inputTotal - cacheTotal)) cacheRead cacheWrite)
    (mkOutput outputTotal (wrap64 (outputTotal - reasoning)) reasoning) unclassified.

Definition NewIndependentTokenBreakdown (uncachedInput cacheRead cacheWrite nonReasoningOutput reasoning total : Z) : TokenBreakdown :=
  let input := nonNegativeSum [uncachedInput; cacheRead; cacheWrite] in
  let output := nonNegativeSum [nonReasoningOutput; reasoning] in
  let inputTotal := sum_or_0 input in let outputTotal := sum_or_0 output in
  let expected := nonNegativeSum [inputTotal; outputTotal] in let expectedTotal := sum_or_0 expected in
  if is_none input || is_none output || is_none expected then inconsistentTokenBreakdown total expectedTotal else
  let '(resolvedTotal, okTotal) := resolveAccountingTotal total expectedTotal in
  if negb okTotal then inconsistentTokenBreakdown total expectedTotal else
  complete resolvedTotal (mkInput inputTotal uncachedInput cacheRead cacheWrite) (mkOutput outputTotal nonReasoningOutput reasoning).

Definition NewSeparateReasoningTokenBreakdown (inputTotal cacheRead cacheWrite nonReasoningOutput reasoning total : Z) : TokenBreakdown :=
  let cache := nonNegativeSum [cacheRead; cacheWrite] in let cacheTotal := sum_or_0 cache in
  if is_none cache || (inputTotal <? 0) || (inputTotal <? cacheTotal) then inconsistentTokenBreakdown total 0 else
  let output := nonNegativeSum [nonReasoningOutput; reasoning] in let outputTotal := sum_or_0 output in
  let expected := nonNegativeSum [inputTotal; outputTotal] in let expectedTotal := sum_or_0 expected in
  if is_none output || is_none expected then inconsistentTokenBreakdown total expectedTotal else
  let '(resolvedTotal, okTotal) := resolveAccountingTotal total expectedTotal in
  if negb okTotal then inconsistentTokenBreakdown total expectedTotal else
  complete resolvedTotal (mkInput inputTotal (wrap64 (inputTotal - cacheTotal)) cacheRead cacheWrite)
    (mkOutput outputTotal nonReasoningOutput reasoning).

Definition NewUnclassifiedTokenBreakdown (total : Z) : TokenBreakdown :=
  if total <=? 0
  then mkBreakdown TokenAccountingSchemaVersion
         (if total <? 0 then TokenAccountingQualityInconsistent else TokenAccountingQualityComplete) 0 noInput noOutput 0
  else mkBreakdown TokenAccountingSchemaVersion TokenAccountingQualityUnclassified total noInput noOutput total.

(** ** By provider *)

Definition tokenAccountingSemanticsFor (provider executorType : string) : tokenAccountingSemantics :=
  let normalizedProvider := ToLower (TrimSpace provider) in
  let normalizedExecutor := ToLower (TrimSpace executorType) in
  let value := TrimSpace (normalizedProvider ++ " " ++ normalizedExecutor)%string in
  if String.eqb value "" || String.eqb value "unknown" || String.eqb value "unknown unknown" then SemanticsUnknown
  else if String.eqb normalizedExecutor "openaicompatexecutor" || String.eqb normalizedProvider "openai-compatibility"
          || HasPrefix normalizedProvider "openai-compatible-" then SemanticsSubset
  else if Contains value "claude" || Contains value "anthropic" then SemanticsIndependent
  else if existsb (Contains value) ["gemini"; "aistudio"; "antigravity"; "vertex"; "interaction"] then SemanticsSeparateReasoning
  else if existsb (Contains value) ["openai"; "codex"; "xai"; "grok"; "kimi"; "qwen"; "deepseek"; "openrouter"] then SemanticsSubset
  else SemanticsUnknown.

Definition unclassifiedTokenLowerBound (d : Detail) : option Z :=
  match nonNegativeSum [CacheReadTokens d; CacheCreationTokens d] with
  | None => None
  | Some cacheTokens =>
      if (InputTokens d <? 0) || (OutputTokens d <? 0) || (ReasoningTokens d <? 0) || (CachedTokens d <? 0) then None else
      let inputTotal := if InputTokens d <? cacheTokens then cacheTokens else InputTokens d in
      let inputTotal := if inputTotal <? CachedTokens d then CachedTokens d else inputTotal in
      let outputTotal := if OutputTokens d <? ReasoningTokens d then ReasoningTokens d else OutputTokens d in
      nonNegativeSum [inputTotal; outputTotal]
  end.

(** What the classified counts alone say, before the case that there are none. *)
Definition classified (d : Detail) (semantics : tokenAccountingSemantics) : TokenBreakdown :=
  match semantics with
  | SemanticsSubset =>
      NewSubsetTokenBreakdown (InputTokens d) (CacheReadTokens d) (CacheCreationTokens d) (OutputTokens d) (ReasoningTokens d) (D_TotalTokens d)
  | SemanticsIndependent =>
      NewIndependentTokenBreakdown (InputTokens d) (CacheReadTokens d) (CacheCreationTokens d) (OutputTokens d) (ReasoningTokens d) (D_TotalTokens d)
  | SemanticsSeparateReasoning =>
      NewSeparateReasoningTokenBreakdown (InputTokens d) (CacheReadTokens d) (CacheCreationTokens d) (OutputTokens d) (ReasoningTokens d) (D_TotalTokens d)
  | SemanticsUnknown =>
      if D_TotalTokens d =? 0 then
        match unclassifiedTokenLowerBound d with
        | None => inconsistentTokenBreakdown (D_TotalTokens d) 0
        | Some total => NewUnclassifiedTokenBreakdown total
        end
      else NewUnclassifiedTokenBreakdown (D_TotalTokens d)
  end.
Definition tokenBreakdownForSemantics (d : Detail) (semantics : tokenAccountingSemantics) : TokenBreakdown :=
  if (D_TotalTokens d =? 0) && (InputTokens d =? 0) && (OutputTokens d =? 0) then
    match unclassifiedTokenLowerBound d with
    | None => inconsistentTokenBreakdown (D_TotalTokens d) 0
    | Some total =>
        if (0 <? total)
           && (bool_decide (semantics = SemanticsUnknown) || bool_decide (semantics = SemanticsSubset)
               || (bool_decide (semantics = SemanticsSeparateReasoning)
                   && ((0 <? CacheReadTokens d) || (0 <? CacheCreationTokens d) || (0 <? CachedTokens d))))
        then NewUnclassifiedTokenBreakdown total else classified d semantics
    end
  else classified d semantics.

Definition EnsureTokenBreakdownForProvider (d : Detail) (provider executorType : string) : Detail :=
  let d :=
    if Valid (D_Breakdown d) then d else
    let semantics := tokenAccountingSemanticsFor provider executorType in
    let d := if (CacheReadTokens d =? 0) && (0 <? CachedTokens d) && (InputTokens d =? 0) && (OutputTokens d =? 0) && (ReasoningTokens d =? 0)
                && (CacheCreationTokens d =? 0) && (D_TotalTokens d =? 0)
                && (bool_decide (semantics = SemanticsSubset) || bool_decide (semantics = SemanticsSeparateReasoning))
             then d <| CacheReadTokens := CachedTokens d |> else d in
    d <| D_Breakdown := tokenBreakdownForSemantics d semantics |> in
  if D_TotalTokens d =? 0 then d <| D_TotalTokens := B_TotalTokens (D_Breakdown d) |> else d.
Definition EnsureTokenBreakdown (d : Detail) : Detail := EnsureTokenBreakdownForProvider d "" "".

(** ** What [Valid] means *)

Definition input_fields (i : TokenInputBreakdown) : list Z := [I_TotalTokens i; UncachedTokens i; I_CacheReadTokens i; CacheWriteTokens i].
Definition output_fields (o : TokenOutputBreakdown) : list Z := [O_TotalTokens o; NonReasoningTokens o; O_ReasoningTokens o].
Definition breakdown_fields (b : TokenBreakdown) : list Z :=
  [B_TotalTokens b; UnclassifiedTokens b] ++ input_fields (Input b) ++ output_fields (Output b).
Definition breakdown_int64 (b : TokenBreakdown) : Prop := Forall is_int64 (breakdown_fields b).
(** The accounting contract, in integers without bound: nothing is negative, every total is
    the sum of its buckets, and a complete breakdown leaves nothing unclassified. *)
Record well_formed (b : TokenBreakdown) : Prop := {
  wf_version : SchemaVersion b = TokenAccountingSchemaVersion;
  wf_quality : Quality b ∈ [TokenAccountingQualityComplete; TokenAccountingQualityInconsistent; TokenAccountingQualityUnclassified];
  wf_nonneg : Forall (λ x, 0 ≤ x ≤ MaxInt64) (breakdown_fields b);
  wf_input : I_TotalTokens (Input b) = UncachedTokens (Input b) + I_CacheReadTokens (Input b) + CacheWriteTokens (Input b);
  wf_output : O_TotalTokens (Output b) = NonReasoningTokens (Output b) + O_ReasoningTokens (Output b);
  wf_total : B_TotalTokens b = I_TotalTokens (Input b) + O_TotalTokens (Output b) + UnclassifiedTokens b;
  wf_complete : Quality b = TokenAccountingQualityComplete → UnclassifiedTokens b = 0 }.

(** ** Sums are exact *)

Definition all_nonneg (l : list Z) : Prop := Forall (λ x, 0 ≤ x) l.
Definition total_of (l : list Z) : Z := foldr Z.add 0 l.

Lemma sum_from_spec l : ∀ t, 0 ≤ t ≤ MaxInt64 → Forall is_int64 l →
  sum_from t l = if decide (all_nonneg l ∧ t + total_of l ≤ MaxInt64) then Some (t + total_of l) else None.
Proof.
  unfold all_nonneg, total_of. induction l as [|v l IH]; intros t Ht Hl; cbn [sum_from foldr].
  { rewrite decide_True by (split; [done|lia]). f_equal. lia. }
  apply Forall_cons in Hl as [Hv Hl]. unfold is_int64, MinInt64, MaxInt64 in *.
  destruct (Z.ltb_spec v 0) as [Hneg|Hpos]; cbn [orb].
  { rewrite decide_False; [done|]. intros [Hall _]. apply Forall_cons in Hall as [H _]. lia. }
  rewrite (wrap64_id (9223372036854775807 - v)) by (unfold is_int64, MinInt64, MaxInt64; lia).
  assert (Forall (λ x, 0 ≤ x) l → 0 ≤ foldr Z.add 0 l) as Hsum.
  { clear. induction 1; cbn; lia. }
  destruct (Z.ltb_spec (9223372036854775807 - v) t) as [Hbig|Hfit].
  - rewrite decide_False; [done|]. intros [Hall Hle]. apply Forall_cons in Hall as [_ Hall]. specialize (Hsum Hall). lia.
  - rewrite wrap64_id by (unfold is_int64, MinInt64, MaxInt64; lia). rewrite IH by (done || lia).
    destruct (decide (Forall (λ x, 0 ≤ x) l ∧ _)) as [[H1 H2]|Hn].
    + rewrite decide_True; [f_equal; lia|]. split; [by constructor|lia].
    + rewrite decide_False; [done|]. intros [H1 H2]. apply Forall_cons in H1 as [_ H1]. apply Hn. split; [done|lia].
Qed.
Lemma nonNegativeSum_spec l : Forall is_int64 l →
  nonNegativeSum l = if decide (all_nonneg l ∧ total_of l ≤ MaxInt64) then Some (total_of l) else None.
Proof. intros Hl. unfold nonNegativeSum. rewrite sum_from_spec by (done || unfold MaxInt64; lia). done. Qed.

(** What a sum of two or three counts says, in the form [lia] uses. *)
Lemma sum2 a b : is_int64 a → is_int64 b →
  nonNegativeSum [a; b] = Some (a + b) ∧ 0 ≤ a ∧ 0 ≤ b ∧ a + b ≤ MaxInt64
  ∨ nonNegativeSum [a; b] = None ∧ (a < 0 ∨ b < 0 ∨ MaxInt64 < a + b).
Proof.
  intros Ha Hb. rewrite nonNegativeSum_spec by (rewrite !Forall_cons, Forall_nil; done). unfold all_nonneg, total_of. cbn. case_decide as H.
  - left. destruct H as [H1 H2]. apply Forall_cons in H1 as [H1 H3]. apply Forall_cons in H3 as [H3 _].
    split; [f_equal; lia|lia].
  - right. split; [done|]. destruct (Z.ltb_spec a 0); [lia|]. destruct (Z.ltb_spec b 0); [lia|]. right; right.
    apply Z.nle_gt. intros H3. apply H. split; [by repeat constructor|lia].
Qed.
Lemma sum3 a b c : is_int64 a → is_int64 b → is_int64 c →
  nonNegativeSum [a; b; c] = Some (a + b + c) ∧ 0 ≤ a ∧ 0 ≤ b ∧ 0 ≤ c ∧ a + b + c ≤ MaxInt64
  ∨ nonNegativeSum [a; b; c] = None ∧ (a < 0 ∨ b < 0 ∨ c < 0 ∨ MaxInt64 < a + b + c).
Proof.
  intros Ha Hb Hc. rewrite nonNegativeSum_spec by (rewrite !Forall_cons, Forall_nil; done). unfold all_nonneg, total_of. cbn. case_decide as H.
  - left. destruct H as [H1 H2]. apply Forall_cons in H1 as [H1 H3]. apply Forall_cons in H3 as [H3 H4].
    apply Forall_cons in H4 as [H4 _]. split; [f_equal; lia|lia].
  - right. split; [done|]. destruct (Z.ltb_spec a 0); [lia|]. destruct (Z.ltb_spec b 0); [lia|].
    destruct (Z.ltb_spec c 0); [lia|]. right; right; right.
    apply Z.nle_gt. intros H3. apply H. split; [by repeat constructor|lia].
Qed.

(** ** Every breakdown is valid *)

Lemma sums_to_exact l t : Forall (λ x, 0 ≤ x) l → total_of l = t → t ≤ MaxInt64 → sums_to (nonNegativeSum l) t = true.
Proof.
  intros Hl Ht Hm. assert (Forall is_int64 l) as Hi.
  { subst t. clear - Hl Hm. induction Hl as [|v l Hv Hl IH]; [done|]. unfold total_of in *. cbn in Hm.
    assert (0 ≤ foldr Z.add 0 l) by (clear - Hl; induction Hl; cbn; lia).
    constructor; [unfold is_int64, MinInt64, MaxInt64 in *; lia|apply IH; lia]. }
  rewrite nonNegativeSum_spec by done. rewrite decide_True by (split; [done|lia]). cbn. apply Z.eqb_eq. lia.
Qed.

Lemma wf_intro q t i o u : q ∈ [TokenAccountingQualityComplete; TokenAccountingQualityInconsistent; TokenAccountingQualityUnclassified] →
  0 ≤ u → 0 ≤ UncachedTokens i → 0 ≤ I_CacheReadTokens i → 0 ≤ CacheWriteTokens i → 0 ≤ NonReasoningTokens o → 0 ≤ O_ReasoningTokens o →
  UncachedTokens i + I_CacheReadTokens i + CacheWriteTokens i = I_TotalTokens i → NonReasoningTokens o + O_ReasoningTokens o = O_TotalTokens o →
  I_TotalTokens i + O_TotalTokens o + u = t → t ≤ MaxInt64 → (q = TokenAccountingQualityComplete → u = 0) →
  well_formed (mkBreakdown TokenAccountingSchemaVersion q t i o u).
Proof.
  intros Hq Hu H1 H2 H3 H4 H5 Hi Ho Ht Hm Hc. split; unfold breakdown_fields, input_fields, output_fields; cbn; try done; try lia.
  repeat (apply Forall_cons; split; [lia|]). by apply Forall_nil.
Qed.
Lemma well_formed_valid b : well_formed b → Valid b = true.
Proof.
  intros [H1 H2 H3 H4 H5 H6 H7]. unfold breakdown_fields, input_fields, output_fields in H3. cbn [app] in H3. rewrite !Forall_cons in H3.
  unfold Valid. rewrite H1, Z.eqb_refl. unfold validTokenAccountingQuality. rewrite bool_decide_true by done. cbn [andb].
  rewrite !sums_to_exact by (first [rewrite !Forall_cons, Forall_nil; lia | cbn; lia]). rewrite !andb_true_r. apply andb_true_iff. split.
  - apply forallb_forall. intros x Hx. apply Z.leb_le. cbn in Hx. lia.
  - destruct (String.eqb_spec (Quality b) TokenAccountingQualityComplete) as [E|E]; [|done]. by rewrite (H7 E).
Qed.

Lemma valid_well_formed b : breakdown_int64 b → Valid b = true → well_formed b.
Proof.
  destruct b as [v q t [it iu ir iw] [ot on or_] u]. unfold breakdown_int64, breakdown_fields, input_fields, output_fields. cbn. rewrite !Forall_cons.
  intros (Ht & Hu & Hit & Hiu & Hir & Hiw & Hot & Hon & Hor & _). unfold Valid. cbn. rewrite !andb_true_iff, !Z.leb_le.
  intros [[[[[[Hv Hq] H0] Hi] Ho] Hb] Hc]. apply bool_decide_eq_true in Hq. apply Z.eqb_eq in Hv.
  destruct (sum3 iu ir iw) as [(Ei & ?)|(Ei & _)]; [done|done|done| |by rewrite Ei in Hi].
  destruct (sum2 on or_) as [(Eo & ?)|(Eo & _)]; [done|done| |by rewrite Eo in Ho].
  destruct (sum3 it ot u) as [(Eb & ?)|(Eb & _)]; [done|done|done| |by rewrite Eb in Hb].
  rewrite Ei in Hi. rewrite Eo in Ho. rewrite Eb in Hb. cbn in Hi, Ho, Hb. apply Z.eqb_eq in Hi, Ho, Hb.
  split; unfold breakdown_fields, input_fields, output_fields; cbn; try done; try lia.
  - repeat (apply Forall_cons; split; [unfold is_int64 in *; lia|]). by apply Forall_nil.
  - intros ->. cbn in Hc. by destruct (Z.eqb_spec u 0).
Qed.

Lemma wf_inconsistent t f : t ≤ MaxInt64 → f ≤ MaxInt64 → well_formed (inconsistentTokenBreakdown t f).
Proof.
  intros Ht Hf. unfold inconsistentTokenBreakdown. cbv zeta. apply wf_intro; cbn; try done; try lia.
  - right; left.
  - destruct (t <=? 0); [destruct (Z.ltb_spec f 0)|destruct (Z.ltb_spec t 0)]; lia.
  - unfold MaxInt64 in *. destruct (t <=? 0); [destruct (Z.ltb_spec f 0)|destruct (Z.ltb_spec t 0)]; lia.
Qed.
Lemma wf_unclassified t : t ≤ MaxInt64 → well_formed (NewUnclassifiedTokenBreakdown t).
Proof.
  intros Ht. unfold NewUnclassifiedTokenBreakdown. destruct (Z.leb_spec t 0).
  - apply wf_intro; cbn; try done; try (unfold MaxInt64; lia). destruct (t <? 0); [right; left|left].
  - apply wf_intro; cbn; try done; try lia. right; right; left.
Qed.

Lemma resolve_ok t e r : resolveAccountingTotal t e = (r, true) → 0 ≤ t ∧ 0 ≤ e ∧ r = e ∧ (t = 0 ∨ t = e).
Proof.
  unfold resolveAccountingTotal. destruct (Z.ltb_spec t 0), (Z.ltb_spec e 0); cbn [orb]; try done.
  destruct (Z.eqb_spec t 0); [intros [= <-]; lia|]. destruct (Z.eqb_spec t e); intros [=]; lia.
Qed.
Lemma resolve_bad t e r : resolveAccountingTotal t e = (r, false) → t < 0 ∨ e < 0 ∨ (t ≠ 0 ∧ t ≠ e).
Proof.
  unfold resolveAccountingTotal. destruct (Z.ltb_spec t 0), (Z.ltb_spec e 0); cbn [orb]; intros H1; try lia.
  destruct (Z.eqb_spec t 0); [done|]. destruct (Z.eqb_spec t e); [done|]. lia.
Qed.

(** ** What adds up *)

(** The counts of one usage report: input, cache reads and writes, output, reasoning, total. *)
Record counts := mkCounts { n_in : Z; n_read : Z; n_write : Z; n_out : Z; n_reason : Z; n_total : Z }.
Definition counts_int64 (n : counts) : Prop :=
  is_int64 (n_in n) ∧ is_int64 (n_read n) ∧ is_int64 (n_write n) ∧ is_int64 (n_out n) ∧ is_int64 (n_reason n) ∧ is_int64 (n_total n).
(** The sum of what was consumed, in integers without bound: caches are part of the input or
    beside it, reasoning part of the output or beside it. *)
Definition consumed (s : tokenAccountingSemantics) (n : counts) : Z :=
  match s with
  | SemanticsSubset => n_in n + n_out n
  | SemanticsIndependent => n_in n + n_read n + n_write n + n_out n + n_reason n
  | _ => n_in n + n_out n + n_reason n
  end.
Definition adds_up (s : tokenAccountingSemantics) (n : counts) : Prop :=
  0 ≤ n_read n ∧ 0 ≤ n_write n ∧ 0 ≤ n_reason n ∧ consumed s n ≤ MaxInt64 ∧ (n_total n = 0 ∨ n_total n = consumed s n)
  ∧ match s with
    | SemanticsSubset => n_read n + n_write n ≤ n_in n ∧ n_reason n ≤ n_out n
    | SemanticsIndependent => 0 ≤ n_in n ∧ 0 ≤ n_out n
    | _ => n_read n + n_write n ≤ n_in n ∧ 0 ≤ n_out n
    end.
Definition buckets (s : tokenAccountingSemantics) (n : counts) : TokenBreakdown :=
  complete (consumed s n)
    match s with
    | SemanticsIndependent => mkInput (n_in n + n_read n + n_write n) (n_in n) (n_read n) (n_write n)
    | _ => mkInput (n_in n) (n_in n - n_read n - n_write n) (n_read n) (n_write n)
    end
    match s with
    | SemanticsSubset => mkOutput (n_out n) (n_out n - n_reason n) (n_reason n)
    | _ => mkOutput (n_out n + n_reason n) (n_out n) (n_reason n)
    end.
Definition sorted_or_not (s : tokenAccountingSemantics) (n : counts) (b : TokenBreakdown) : Prop :=
  adds_up s n ∧ b = buckets s n ∨ ¬ adds_up s n ∧ ∃ f, 0 ≤ f ≤ MaxInt64 ∧ b = inconsistentTokenBreakdown (n_total n) f.

Lemma buckets_wf s n : adds_up s n → well_formed (buckets s n).
Proof.
  unfold adds_up, buckets, complete, consumed. intros (H1 & H2 & H3 & H4 & H5 & H6).
  destruct s; apply wf_intro; cbn; try (left; done); try done; lia.
Qed.
(** Closing the cases of a constructor: the counts did not add up and the breakdown is the
    inconsistent one with fallback [f], or they did and it is the buckets. *)
Ltac int64_lia := unfold is_int64, MinInt64, MaxInt64 in *; lia.
Ltac not_sorted f := right; split; [int64_lia|exists f; split; [int64_lia|reflexivity]].
Ltac sorted_end t e :=
  let Er := fresh in let ok := fresh in
  destruct (resolveAccountingTotal t e) as [? ok] eqn:Er; destruct ok; cbn [negb];
  [apply resolve_ok in Er; left; split; [int64_lia|];
   destruct Er as (? & ? & -> & ?); unfold complete; rewrite ?wrap64_id by int64_lia;
   f_equal; try lia; f_equal; lia
  |apply resolve_bad in Er; not_sorted e].

Lemma subset_sorted n : counts_int64 n →
  sorted_or_not SemanticsSubset n (NewSubsetTokenBreakdown (n_in n) (n_read n) (n_write n) (n_out n) (n_reason n) (n_total n)).
Proof.
  destruct n as [i cr cw o r t]. unfold counts_int64, sorted_or_not, adds_up, buckets, consumed. cbn. intros (Hi & Hcr & Hcw & Ho & Hr & Ht).
  unfold NewSubsetTokenBreakdown. cbv zeta.
  destruct (sum2 i o Hi Ho) as [(-> & ?)|(-> & ?)], (sum2 cr cw Hcr Hcw) as [(-> & ?)|(-> & ?)]; cbn [is_none orb sum_or_0 default from_option id].
  2: not_sorted (i + o). 2: not_sorted 0. 2: not_sorted 0.
  destruct (Z.ltb_spec r 0); cbn [orb]; [not_sorted (i + o)|].
  destruct (Z.ltb_spec i (cr + cw)); cbn [orb]; [not_sorted (i + o)|].
  destruct (Z.ltb_spec o r); cbn [orb]; [not_sorted (i + o)|]. sorted_end t (i + o).
Qed.
Lemma independent_sorted n : counts_int64 n →
  sorted_or_not SemanticsIndependent n
    (NewIndependentTokenBreakdown (n_in n) (n_read n) (n_write n) (n_out n) (n_reason n) (n_total n)).
Proof.
  destruct n as [i cr cw o r t]. unfold counts_int64, sorted_or_not, adds_up, buckets, consumed. cbn. intros (Hi & Hcr & Hcw & Ho & Hr & Ht).
  unfold NewIndependentTokenBreakdown. cbv zeta.
  destruct (sum3 i cr cw Hi Hcr Hcw) as [(-> & ?)|(-> & ?)], (sum2 o r Ho Hr) as [(-> & ?)|(-> & ?)];
    cbn [is_none orb sum_or_0 default from_option id].
  2-4: match goal with |- context [nonNegativeSum [?a; ?b]] =>
         destruct (sum2 a b) as [(-> & ?)|(-> & ?)]; [int64_lia|int64_lia|not_sorted (a + b)|not_sorted 0] end.
  destruct (sum2 (i + cr + cw) (o + r)) as [(-> & ?)|(-> & ?)]; [int64_lia|int64_lia| |not_sorted 0].
  cbn [is_none sum_or_0 default from_option id]. sorted_end t (i + cr + cw + (o + r)).
Qed.
Lemma separate_sorted n : counts_int64 n →
  sorted_or_not SemanticsSeparateReasoning n
    (NewSeparateReasoningTokenBreakdown (n_in n) (n_read n) (n_write n) (n_out n) (n_reason n) (n_total n)).
Proof.
  destruct n as [i cr cw o r t]. unfold counts_int64, sorted_or_not, adds_up, buckets, consumed. cbn. intros (Hi & Hcr & Hcw & Ho & Hr & Ht).
  unfold NewSeparateReasoningTokenBreakdown. cbv zeta.
  destruct (sum2 cr cw Hcr Hcw) as [(-> & ?)|(-> & ?)]; cbn [is_none orb sum_or_0 default from_option id]; [|not_sorted 0].
  destruct (Z.ltb_spec i 0); cbn [orb]; [not_sorted 0|].
  destruct (Z.ltb_spec i (cr + cw)); cbn [orb]; [not_sorted 0|].
  destruct (sum2 o r Ho Hr) as [(-> & ?)|(-> & ?)]; cbn [is_none orb sum_or_0 default from_option id].
  - destruct (sum2 i (o + r)) as [(-> & ?)|(-> & ?)]; [int64_lia|int64_lia| |not_sorted 0].
    cbn [is_none sum_or_0 default from_option id]. sorted_end t (i + (o + r)).
  - destruct (sum2 i 0) as [(-> & ?)|(-> & ?)]; [int64_lia|int64_lia|not_sorted (i + 0)|not_sorted 0].
Qed.

(** The remainder of a partial report is what the reported total has over its buckets. *)
Definition partial_adds_up (n : counts) : Prop :=
  0 ≤ n_read n ∧ 0 ≤ n_write n ∧ 0 ≤ n_reason n ∧ 0 ≤ n_total n ∧ n_in n + n_out n ≤ MaxInt64
  ∧ (n_total n = 0 ∨ n_in n + n_out n ≤ n_total n) ∧ n_read n + n_write n ≤ n_in n ∧ n_reason n ≤ n_out n.
Definition partial_rest (n : counts) : Z := if n_total n =? 0 then 0 else n_total n - (n_in n + n_out n).
Definition partial_buckets (n : counts) : TokenBreakdown :=
  mkBreakdown TokenAccountingSchemaVersion
    (if 0 <? partial_rest n then TokenAccountingQualityUnclassified else TokenAccountingQualityComplete)
    (n_in n + n_out n + partial_rest n) (Input (buckets SemanticsSubset n)) (Output (buckets SemanticsSubset n)) (partial_rest n).
Lemma partial_sorted n b : counts_int64 n →
  b = NewPartialSubsetTokenBreakdown (n_in n) (n_read n) (n_write n) (n_out n) (n_reason n) (n_total n) →
  partial_adds_up n ∧ b = partial_buckets n
  ∨ ¬ partial_adds_up n ∧ ∃ f, 0 ≤ f ≤ MaxInt64 ∧ b = inconsistentTokenBreakdown (n_total n) f.
Proof.
  destruct n as [i cr cw o r t]. unfold counts_int64, partial_adds_up, partial_buckets, partial_rest, buckets, complete. cbn.
  intros (Hi & Hcr & Hcw & Ho & Hr & Ht) ->. unfold NewPartialSubsetTokenBreakdown. cbv zeta.
  destruct (sum2 i o Hi Ho) as [(-> & ?)|(-> & ?)], (sum2 cr cw Hcr Hcw) as [(-> & ?)|(-> & ?)]; cbn [is_none orb sum_or_0 default from_option id].
  2: not_sorted (i + o). 2: not_sorted 0. 2: not_sorted 0.
  destruct (Z.ltb_spec i 0); cbn [orb]; [not_sorted (i + o)|]. destruct (Z.ltb_spec o 0); cbn [orb]; [not_sorted (i + o)|].
  destruct (Z.ltb_spec r 0); cbn [orb]; [not_sorted (i + o)|]. destruct (Z.ltb_spec i (cr + cw)); cbn [orb]; [not_sorted (i + o)|].
  destruct (Z.ltb_spec o r); cbn [orb]; [not_sorted (i + o)|]. destruct (Z.ltb_spec t 0); cbn [orb]; [not_sorted (i + o)|].
  destruct (Z.eqb_spec t 0) as [->|Hne].
  - rewrite Z.ltb_irrefl. left. split; [int64_lia|]. rewrite Z.sub_diag, !wrap64_id by int64_lia.
    f_equal; [lia|f_equal; lia].
  - destruct (Z.ltb_spec t (i + o)); [not_sorted (i + o)|]. left. split; [int64_lia|]. rewrite !wrap64_id by int64_lia.
    f_equal; [lia|f_equal; lia].
Qed.
Lemma partial_wf n : counts_int64 n →
  well_formed (NewPartialSubsetTokenBreakdown (n_in n) (n_read n) (n_write n) (n_out n) (n_reason n) (n_total n)).
Proof.
  intros Hn. destruct (partial_sorted n _ Hn eq_refl) as [[Ha ->]|(_ & f & Hf & ->)].
  2: { destruct Hn as (_ & _ & _ & _ & _ & Ht). apply wf_inconsistent; unfold is_int64 in *; lia. }
  unfold partial_adds_up in Ha. unfold partial_buckets, partial_rest in *. destruct Hn as (_ & _ & _ & _ & _ & Ht). unfold is_int64 in Ht.
  destruct (Z.eqb_spec (n_total n) 0); [apply wf_intro; cbn; try (left; done); try done; lia|].
  destruct (Z.ltb_spec 0 (n_total n - (n_in n + n_out n))); (apply wf_intro; cbn; try done; try lia);
    [by right; right; left|by left].
Qed.

(** ** The reports of executions *)

Definition counts_of (d : Detail) : counts :=
  mkCounts (InputTokens d) (CacheReadTokens d) (CacheCreationTokens d) (OutputTokens d) (ReasoningTokens d) (D_TotalTokens d).
Definition detail_int64 (d : Detail) : Prop := counts_int64 (counts_of d) ∧ is_int64 (CachedTokens d).
(** The count that stands in for the cache reads when it is all a provider reports. *)
Definition with_cached (d : Detail) (semantics : tokenAccountingSemantics) : Detail :=
  if (CacheReadTokens d =? 0) && (0 <? CachedTokens d) && (InputTokens d =? 0) && (OutputTokens d =? 0) && (ReasoningTokens d =? 0)
     && (CacheCreationTokens d =? 0) && (D_TotalTokens d =? 0)
     && (bool_decide (semantics = SemanticsSubset) || bool_decide (semantics = SemanticsSeparateReasoning))
  then d <| CacheReadTokens := CachedTokens d |> else d.

Lemma with_cached_int64 d s : detail_int64 d → detail_int64 (with_cached d s).
Proof. intros [Hd Hc]. unfold with_cached. destruct (_ && _); [|done]. unfold detail_int64, counts_int64 in *. cbn in *. tauto. Qed.
Lemma with_cached_total d s : D_TotalTokens (with_cached d s) = D_TotalTokens d.
Proof. unfold with_cached. by destruct (_ && _). Qed.
(** A report with a total, an input or an output is sorted as it is. *)
Lemma with_cached_reported d s : (D_TotalTokens d ≠ 0 ∨ InputTokens d ≠ 0 ∨ OutputTokens d ≠ 0) → with_cached d s = d.
Proof.
  intros H. unfold with_cached. destruct (Z.eqb_spec (D_TotalTokens d) 0), (Z.eqb_spec (InputTokens d) 0), (Z.eqb_spec (OutputTokens d) 0);
    rewrite ?andb_false_r; cbn; try done. lia.
Qed.
Lemma Ensure_fresh d p e : Valid (D_Breakdown d) = false →
  D_Breakdown (EnsureTokenBreakdownForProvider d p e)
  = tokenBreakdownForSemantics (with_cached d (tokenAccountingSemanticsFor p e)) (tokenAccountingSemanticsFor p e).
Proof.
  intros HV. unfold EnsureTokenBreakdownForProvider. rewrite HV. cbv zeta. fold (with_cached d (tokenAccountingSemanticsFor p e)).
  set (d' := with_cached _ _). set (s := tokenAccountingSemanticsFor p e). generalize (tokenBreakdownForSemantics d' s). intros b.
  by destruct (D_TotalTokens _ =? 0).
Qed.
Lemma Ensure_kept d p e : Valid (D_Breakdown d) = true → D_Breakdown (EnsureTokenBreakdownForProvider d p e) = D_Breakdown d.
Proof. intros HV. unfold EnsureTokenBreakdownForProvider. rewrite HV. cbv zeta. by destruct (D_TotalTokens _ =? 0). Qed.
Lemma Ensure_total d p e : D_TotalTokens (EnsureTokenBreakdownForProvider d p e)
  = if D_TotalTokens d =? 0 then B_TotalTokens (D_Breakdown (EnsureTokenBreakdownForProvider d p e)) else D_TotalTokens d.
Proof.
  unfold EnsureTokenBreakdownForProvider. destruct (Valid (D_Breakdown d)); cbv zeta.
  { by destruct (Z.eqb_spec (D_TotalTokens d) 0). }
  fold (with_cached d (tokenAccountingSemanticsFor p e)). pose proof (with_cached_total d (tokenAccountingSemanticsFor p e)) as E.
  set (d' := with_cached _ _) in *. generalize (tokenBreakdownForSemantics d' (tokenAccountingSemanticsFor p e)). intros b.
  cbn. rewrite E. by destruct (Z.eqb_spec (D_TotalTokens d) 0).
Qed.

(** ** The lower bound of a report nobody can sort *)

Definition bound_of (d : Detail) : Z :=
  Z.max (Z.max (InputTokens d) (CacheReadTokens d + CacheCreationTokens d)) (CachedTokens d) + Z.max (OutputTokens d) (ReasoningTokens d).
Definition nothing_negative (d : Detail) : Prop :=
  0 ≤ InputTokens d ∧ 0 ≤ CacheReadTokens d ∧ 0 ≤ CacheCreationTokens d ∧ 0 ≤ OutputTokens d ∧ 0 ≤ ReasoningTokens d ∧ 0 ≤ CachedTokens d.
Lemma lower_bound_spec d : detail_int64 d →
  unclassifiedTokenLowerBound d = Some (bound_of d) ∧ nothing_negative d ∧ bound_of d ≤ MaxInt64
  ∨ unclassifiedTokenLowerBound d = None ∧ ¬ (nothing_negative d ∧ bound_of d ≤ MaxInt64).
Proof.
  destruct d as [i o r c cr cw t b tier]. unfold detail_int64, counts_int64, unclassifiedTokenLowerBound, nothing_negative, bound_of. cbn.
  intros [(Hi & Hcr & Hcw & Ho & Hr & Ht) Hc].
  destruct (sum2 cr cw Hcr Hcw) as [(-> & H1)|(-> & H1)]; [|right; split; [done|int64_lia]].
  destruct (Z.ltb_spec i 0); cbn [orb]; [right; split; [done|int64_lia]|].
  destruct (Z.ltb_spec o 0); cbn [orb]; [right; split; [done|int64_lia]|].
  destruct (Z.ltb_spec r 0); cbn [orb]; [right; split; [done|int64_lia]|].
  destruct (Z.ltb_spec c 0); cbn [orb]; [right; split; [done|int64_lia]|]. cbv zeta.
  assert (∀ a b : Z, (if a <? b then b else a) = Z.max a b) as Hmax. { intros x y. destruct (Z.ltb_spec x y); lia. }
  rewrite !Hmax. match goal with |- context [nonNegativeSum [?a; ?b]] => destruct (sum2 a b) as [(-> & ?)|(-> & ?)] end;
    [int64_lia|int64_lia|left; split; [done|int64_lia]|right; split; [done|int64_lia]].
Qed.

(** ** What is attached *)

Lemma classified_sorted d s : s ≠ SemanticsUnknown → detail_int64 d → sorted_or_not s (counts_of d) (classified d s).
Proof.
  intros Hs [Hd _]. destruct s; [done| | |]; [apply (subset_sorted _ Hd)|apply (independent_sorted _ Hd)|apply (separate_sorted _ Hd)].
Qed.
(** A breakdown that is well formed and says what was reported. *)
Definition keeps (total : Z) (b : TokenBreakdown) : Prop := well_formed b ∧ (0 < total → B_TotalTokens b = total).
Lemma keeps_inconsistent t f : t ≤ MaxInt64 → f ≤ MaxInt64 → keeps t (inconsistentTokenBreakdown t f).
Proof.
  intros Ht Hf. split; [by apply wf_inconsistent|]. intros H. unfold inconsistentTokenBreakdown. cbv zeta. cbn.
  destruct (Z.leb_spec t 0); [lia|]. destruct (Z.ltb_spec t 0); lia.
Qed.
Lemma keeps_unclassified t x : x ≤ MaxInt64 → t ≤ 0 ∨ x = t → keeps t (NewUnclassifiedTokenBreakdown x).
Proof.
  intros Hx H. split; [by apply wf_unclassified|]. intros Ht. destruct H as [H1| ->]; [lia|].
  unfold NewUnclassifiedTokenBreakdown. destruct (Z.leb_spec t 0); [lia|done].
Qed.
Lemma keeps_sorted s n b : is_int64 (n_total n) → sorted_or_not s n b → keeps (n_total n) b.
Proof.
  intros Ht [[Ha ->]|(_ & f & Hf & ->)]; [|apply keeps_inconsistent; unfold is_int64 in *; lia].
  split; [by apply buckets_wf|]. intros H. unfold adds_up in Ha. cbn. lia.
Qed.
Lemma keeps_classified d s : detail_int64 d → keeps (D_TotalTokens d) (classified d s).
Proof.
  intros Hd. assert (is_int64 (D_TotalTokens d)) as Ht by apply Hd.
  destruct (decide (s = SemanticsUnknown)) as [->|Hs]; [|by apply (keeps_sorted s (counts_of d)), classified_sorted].
  cbn. unfold is_int64 in Ht. destruct (Z.eqb_spec (D_TotalTokens d) 0).
  - destruct (lower_bound_spec d Hd) as [(-> & ?)|(-> & ?)]; [apply keeps_unclassified; lia|apply keeps_inconsistent; unfold MaxInt64; lia].
  - apply keeps_unclassified; [lia|by right].
Qed.
Lemma keeps_semantics d s : detail_int64 d → keeps (D_TotalTokens d) (tokenBreakdownForSemantics d s).
Proof.
  intros Hd. unfold tokenBreakdownForSemantics. destruct (Z.eqb_spec (D_TotalTokens d) 0) as [E|E]; cbn [andb]; [|by apply keeps_classified].
  destruct (_ && _); [|by apply keeps_classified].
  destruct (lower_bound_spec d Hd) as [(-> & ?)|(-> & ?)]; [|rewrite E; apply keeps_inconsistent; unfold MaxInt64; lia].
  destruct (_ && _); [apply keeps_unclassified; lia|by apply keeps_classified].
Qed.
Lemma reported_sorted d s : (D_TotalTokens d ≠ 0 ∨ InputTokens d ≠ 0 ∨ OutputTokens d ≠ 0) →
  tokenBreakdownForSemantics d s = classified d s.
Proof.
  intros H. unfold tokenBreakdownForSemantics.
  destruct (Z.eqb_spec (D_TotalTokens d) 0), (Z.eqb_spec (InputTokens d) 0), (Z.eqb_spec (OutputTokens d) 0); try done. lia.
Qed.
Lemma unknown_bound d : D_TotalTokens d = 0 →
  tokenBreakdownForSemantics d SemanticsUnknown
  = match unclassifiedTokenLowerBound d with None => inconsistentTokenBreakdown 0 0 | Some x => NewUnclassifiedTokenBreakdown x end.
Proof.
  intros E. unfold tokenBreakdownForSemantics, classified. rewrite E. cbn [Z.eqb andb].
  destruct (_ && _); [|done]. destruct (unclassifiedTokenLowerBound d); [|done]. by destruct (_ && _).
Qed.
Lemma bound_consumed d s : s ≠ SemanticsUnknown → adds_up s (counts_of d) → CachedTokens d ≤ CacheReadTokens d + CacheCreationTokens d →
  bound_of d ≤ consumed s (counts_of d) ∧ 0 ≤ consumed s (counts_of d).
Proof.
  destruct d as [i o r c cr cw t b tier]. unfold adds_up, consumed, bound_of, counts_of. cbn.
  intros Hs Ha Hc. destruct s; [done| | |]; cbn in *; lia.
Qed.

(** ** Claims *)

(** C35: For every report of token counts and every provider, the breakdown that comes attached
    is well formed: nothing negative, each total the exact sum of its buckets without overflow,
    and nothing unclassified when it calls itself complete.  A valid breakdown is kept as it is,
    a positive reported total is the total of the breakdown made for it, a report without a
    total takes the breakdown's, and doing it again, for any provider, changes nothing. *)
Theorem breakdown_valid d provider executorType : detail_int64 d → breakdown_int64 (D_Breakdown d) →
  let d' := EnsureTokenBreakdownForProvider d provider executorType in
  well_formed (D_Breakdown d') ∧ Valid (D_Breakdown d') = true
  ∧ (Valid (D_Breakdown d) = true → D_Breakdown d' = D_Breakdown d)
  ∧ (Valid (D_Breakdown d) = false → 0 < D_TotalTokens d → B_TotalTokens (D_Breakdown d') = D_TotalTokens d)
  ∧ D_TotalTokens d' = (if D_TotalTokens d =? 0 then B_TotalTokens (D_Breakdown d') else D_TotalTokens d)
  ∧ ∀ provider' executorType', EnsureTokenBreakdownForProvider d' provider' executorType' = d'.
Proof.
  intros Hd Hb d'. assert (well_formed (D_Breakdown d') ∧ (Valid (D_Breakdown d) = false → 0 < D_TotalTokens d → B_TotalTokens (D_Breakdown d') = D_TotalTokens d)) as [Hwf Hkeep].
  { subst d'. destruct (Valid (D_Breakdown d)) eqn:HV; [rewrite Ensure_kept by done; split; [by apply valid_well_formed|done]|].
    rewrite Ensure_fresh by done. rewrite <-(with_cached_total d (tokenAccountingSemanticsFor provider executorType)).
    edestruct keeps_semantics as [H1 H2]; [apply with_cached_int64, Hd|]. split; [apply H1|intros _; apply H2]. }
  pose proof (Ensure_total d provider executorType) as Htot. fold d' in Htot. pose proof (well_formed_valid _ Hwf) as HV.
  split_and!; try done.
  - intros H. subst d'. by apply Ensure_kept.
  - intros p' e'. unfold EnsureTokenBreakdownForProvider at 1. rewrite HV. cbv zeta.
    destruct (Z.eqb_spec (D_TotalTokens d') 0) as [E|]; [|done].
    destruct (Z.eqb_spec (D_TotalTokens d) 0) as [E'|]; [|by rewrite Htot in E].
    rewrite <-Htot. by destruct d'.
Qed.

(** C36: For a provider with known accounting and a report with a total, an input or an output,
    the 64-bit arithmetic sorts the counts exactly when they add up in integers without bound:
    then the breakdown is complete and is the buckets of the specification; otherwise it is
    marked inconsistent and classifies nothing. *)
Theorem accounting_exact d provider executorType :
  detail_int64 d → Valid (D_Breakdown d) = false →
  D_TotalTokens d ≠ 0 ∨ InputTokens d ≠ 0 ∨ OutputTokens d ≠ 0 →
  let s := tokenAccountingSemanticsFor provider executorType in
  s ≠ SemanticsUnknown →
  let b := D_Breakdown (EnsureTokenBreakdownForProvider d provider executorType) in
  (adds_up s (counts_of d) → b = buckets s (counts_of d))
  ∧ (Quality b = TokenAccountingQualityComplete ↔ adds_up s (counts_of d))
  ∧ (¬ adds_up s (counts_of d) → Quality b = TokenAccountingQualityInconsistent ∧ Input b = noInput ∧ Output b = noOutput).
Proof.
  intros Hd HV Hrep s Hs b. assert (b = classified d s) as Eb.
  { subst b. rewrite Ensure_fresh by done. fold s. by rewrite with_cached_reported, reported_sorted by done. }
  rewrite Eb. destruct (classified_sorted d s Hs Hd) as [[Ha ->]|(Ha & f & _ & ->)]; (split_and!; [done| |done]); (split; [done|]); done.
Qed.

(** For a provider nobody knows and a report without a total, nothing is classified and
    the total is the least the counts allow: the largest of the overlapping input counts plus the
    larger of the output counts, or nothing if a count is negative or the sum leaves 64 bits.  It
    never exceeds what was consumed, whichever of the known ways of overlap the counts had. *)
Theorem lower_bound_sound d provider executorType :
  detail_int64 d → Valid (D_Breakdown d) = false → D_TotalTokens d = 0 →
  tokenAccountingSemanticsFor provider executorType = SemanticsUnknown →
  let b := D_Breakdown (EnsureTokenBreakdownForProvider d provider executorType) in
  Input b = noInput ∧ Output b = noOutput ∧ UnclassifiedTokens b = B_TotalTokens b
  ∧ B_TotalTokens b = (if decide (nothing_negative d ∧ bound_of d ≤ MaxInt64) then bound_of d else 0)
  ∧ ∀ s, s ≠ SemanticsUnknown → adds_up s (counts_of d) → CachedTokens d ≤ CacheReadTokens d + CacheCreationTokens d →
      B_TotalTokens b ≤ consumed s (counts_of d).
Proof.
  intros Hd HV Ht Hs b. assert (b = match unclassifiedTokenLowerBound d with
    None => inconsistentTokenBreakdown 0 0 | Some x => NewUnclassifiedTokenBreakdown x end) as ->.
  { subst b. rewrite Ensure_fresh, Hs by done. unfold with_cached. cbn [bool_decide]. rewrite !bool_decide_false by done.
    rewrite andb_false_r. by apply unknown_bound. }
  assert (∀ s, s ≠ SemanticsUnknown → adds_up s (counts_of d) → CachedTokens d ≤ CacheReadTokens d + CacheCreationTokens d →
    bound_of d ≤ consumed s (counts_of d) ∧ 0 ≤ consumed s (counts_of d)) as Hle by (intros; by apply bound_consumed).
  destruct (lower_bound_spec d Hd) as [(-> & Hn & Hm)|(-> & Hn)].
  - rewrite decide_True by done. assert (0 ≤ bound_of d) by (unfold nothing_negative, bound_of in *; lia).
    unfold NewUnclassifiedTokenBreakdown. destruct (Z.leb_spec (bound_of d) 0); cbn; (split_and!; try done; try lia); intros s; naive_solver lia.
  - rewrite decide_False by done. cbn. (split_and!; try done). intros s H1 H2 H3. by apply (Hle s).
Qed.

(** ** Witnesses *)

Definition legacy (i o r c cr cw t : Z) : Detail := mkDetail i o r c cr cw t zeroBreakdown "".
Definition reported : Detail := legacy 100 40 15 0 60 20 140.

Lemma legacy_int64 i o r c cr cw t : Forall is_int64 [i; o; r; c; cr; cw; t] →
  detail_int64 (legacy i o r c cr cw t) ∧ breakdown_int64 (D_Breakdown (legacy i o r c cr cw t)).
Proof.
  rewrite !Forall_cons. intros (? & ? & ? & ? & ? & ? & ? & _). split; [done|].
  unfold breakdown_int64, breakdown_fields, input_fields, output_fields. cbn.
  repeat (apply Forall_cons; split; [unfold is_int64, MinInt64, MaxInt64; lia|]). by apply Forall_nil.
Qed.
Ltac int64_fields := apply legacy_int64; repeat (apply Forall_cons; split; [unfold is_int64, MinInt64, MaxInt64; lia|]); apply Forall_nil; exact I.

Lemma breakdown_valid_witness :
  well_formed (D_Breakdown (EnsureTokenBreakdownForProvider reported "openai" ""))
  ∧ D_TotalTokens (EnsureTokenBreakdownForProvider (legacy 0 0 0 7 0 0 0) "gemini" "") = 7.
Proof.
  split; [|by vm_compute].
  assert (detail_int64 reported ∧ breakdown_int64 (D_Breakdown reported)) as [H1 H2] by int64_fields.
  exact (proj1 (breakdown_valid reported "openai" "" H1 H2)).
Defined.

(** The same counts add up for a provider that reports caches inside the input, and do not for
    one that reports them beside it: that one needs a total of 235. *)
Lemma accounting_exact_witness :
  D_Breakdown (EnsureTokenBreakdownForProvider reported "openai" "")
  = mkBreakdown 2 "complete" 140 (mkInput 100 20 60 20) (mkOutput 40 25 15) 0
  ∧ Quality (D_Breakdown (EnsureTokenBreakdownForProvider reported "claude" "")) = "inconsistent"
  ∧ D_Breakdown (EnsureTokenBreakdownForProvider (legacy 100 40 15 0 60 20 235) "claude" "")
    = mkBreakdown 2 "complete" 235 (mkInput 180 100 60 20) (mkOutput 55 40 15) 0.
Proof.
  assert (detail_int64 reported) as H1 by int64_fields.
  split; [|split; [|by vm_compute]].
  - refine (proj1 (accounting_exact reported "openai" "" H1 eq_refl _ _) _); [left; discriminate|by vm_compute|].
    unfold adds_up. vm_compute. repeat split; try discriminate. by right.
  - refine (proj1 (proj2 (proj2 (accounting_exact reported "claude" "" H1 eq_refl _ _)) _)); [left; discriminate|by vm_compute|].
    unfold adds_up. vm_compute. intros (_ & _ & _ & _ & [H|H] & _); discriminate.
Defined.

Lemma lower_bound_sound_witness :
  B_TotalTokens (D_Breakdown (EnsureTokenBreakdownForProvider (legacy 100 40 55 60 60 20 0) "" "")) = 155
  ∧ 155 ≤ consumed SemanticsIndependent (counts_of (legacy 100 40 55 60 60 20 0)).
Proof.
  assert (detail_int64 (legacy 100 40 55 60 60 20 0)) as H1 by int64_fields.
  pose proof (lower_bound_sound (legacy 100 40 55 60 60 20 0) "" "" H1 eq_refl eq_refl eq_refl) as (_ & _ & _ & Hb & Hle).
  split; [rewrite Hb; by vm_compute|].
  refine (Z.le_trans _ _ _ _ (Hle SemanticsIndependent _ _ _)); [by vm_compute|discriminate| |by vm_compute].
  unfold adds_up. vm_compute. repeat split; try discriminate. by left.
Defined.
