(* ===== verification/UsageQueue.v ===== *)
(** * The usage queue and its subscribers

    Models [internal/redisqueue/queue.go]: payloads go to the subscribers there are, or wait
    in a queue, for a limited time, until they are popped.

    What runs under [q.mu] is one step.  A channel is a reference into the channels made so
    far ([chans]), shared by the queue that sends and the subscriber that receives.  Sending
    on a closed channel and closing one twice panic in Go: the operations that could do it
    return an [outcome].  [clear] and [unsubscribe] close channels after they gave up the lock;
    until then these are in [closing]. *)
From Stdlib Require Import ZArith Lia String Bool.
From stdpp Require Import prelude gmap strings.
From S2P Require Import Prelude GoStd Json.
Local Open Scope string_scope.
Local Open Scope list_scope.
Local Open Scope Z_scope.

(** ** State *)

Definition defaultRetentionSeconds : Z := 60.
Definition maxRetentionSeconds : Z := 3600.
Definition usageSubscriberBuffer : nat := 256.
Definition errorSubscriberBuffer : nat := 256.

(** A channel of the language: what was sent and not yet received, its buffer, whether closed. *)
Record channel := mkChan { pending : list string; room : nat; closed : bool }.
Record queueItem := mkItem { enqueuedAt : time; payload : string }.
Record queue := mkQueue {
  items : list queueItem; head : nat; subscribers : gmap Z nat; nextSubscriberID : Z;
  chans : list channel; closing : list nat }.
#[export] Instance queue_eta : Eta queue := λ q, mkQueue (items q) (head q) (subscribers q) (nextSubscriberID q) (chans q) (closing q).
Definition empty_queue : queue := mkQueue [] 0 ∅ 0 [] [].

Inductive outcome (A : Type) := Next (a : A) | Panic.
Arguments Next {A} _.
Arguments Panic {A}.
Definition bind_outcome {A B} (o : outcome A) (f : A → outcome B) : outcome B :=
  match o with Next a => f a | Panic => Panic end.

(** ** Channels *)

Definition send (p : string) (r : nat) (q : queue) : outcome (queue * bool) :=
  match chans q !! r with
  | None => Panic
  | Some c =>
      if closed c then Panic
      else if Nat.ltb (length (pending c)) (room c)
      then Next (q <| chans := <[r := mkChan (pending c ++ [p]) (room c) (closed c)]> (chans q) |>, true)
      else Next (q, false)
  end.
Definition close (r : nat) (q : queue) : outcome queue :=
  match chans q !! r with
  | None => Panic
  | Some c => if closed c then Panic else Next (q <| chans := <[r := mkChan (pending c) (room c) true]> (chans q) |>)
  end.
(** What the subscriber does: [None] when it has to wait, or finds the channel closed. *)
Definition receive (r : nat) (q : queue) : option (string * queue) :=
  match chans q !! r with
  | Some c => match pending c with
              | p :: rest => Some (p, q <| chans := <[r := mkChan rest (room c) (closed c)]> (chans q) |>)
              | [] => None
              end
  | None => None
  end.

(** ** The queue *)

(** The time items stay: [retentionSeconds] as loaded. *)
Definition SetRetentionSeconds (value : Z) : Z :=
  if value <=? 0 then defaultRetentionSeconds else if maxRetentionSeconds <? value then maxRetentionSeconds else value.
Fixpoint advance (l : list queueItem) (cutoff : time) (head : nat) : nat :=
  match l with
  | [] => head
  | item :: l => if Before (enqueuedAt item) cutoff then advance l cutoff (S head) else head
  end.
Definition pruneLocked (retention : Z) (now : time) (q : queue) : queue :=
  if Nat.leb (length (items q)) (head q) then q <| items := [] |> <| head := 0%nat |> else
  let windowSeconds := if retention <=? 0 then defaultRetentionSeconds else retention in
  let cutoff := Add now (- (windowSeconds * Second)) in
  q <| head := advance (drop (head q) (items q)) cutoff (head q) |>.
Definition maybeCompactLocked (q : queue) : queue :=
  if Nat.eqb (head q) 0 then q
  else if Nat.leb (length (items q)) (head q) then q <| items := [] |> <| head := 0%nat |>
  else if Nat.ltb (head q) 1024 && Nat.ltb (head q * 2) (length (items q)) then q
  else q <| items := drop (head q) (items q) |> <| head := 0%nat |>.
Definition enqueue (retention : Z) (now : time) (p : string) (q : queue) : queue :=
  let q := pruneLocked retention now q in
  maybeCompactLocked (q <| items := items q ++ [mkItem now p] |>).
Definition popOldest (retention : Z) (now : time) (count : nat) (q : queue) : outcome (list string * queue) :=
  let q := pruneLocked retention now q in
  let available := (length (items q) - head q)%nat in
  if Nat.leb (length (items q)) (head q) then Next ([], q <| items := [] |> <| head := 0%nat |>) else
  let count := if Nat.ltb available count then available else count in
  match mapM (λ i, payload <$> items q !! (head q + i)%nat) (seq 0 count) with
  | None => Panic
  | Some out => Next (out, maybeCompactLocked (q <| head := (head q + count)%nat |>))
  end.

(** ** Subscribers *)

(** [order] is the order in which the range over the map comes by its entries. *)
Fixpoint publish_each (p : string) (order : list (Z * nat)) (q : queue) : outcome queue :=
  match order with
  | [] => Next q
  | (id, r) :: order =>
      bind_outcome (send p r q) (λ '(q, sent),
        if sent : bool then publish_each p order q
        else bind_outcome (close r (q <| subscribers := delete id (subscribers q) |>)) (publish_each p order))
  end.
Definition publishToSubscribers (order : list (Z * nat)) (p : string) (q : queue) : outcome (queue * bool) :=
  if bool_decide (subscribers q = ∅) then Next (q, false)
  else bind_outcome (publish_each p order q) (λ q, Next (q, true)).
(** The answer is the channel, and the id its [unsubscribe] closes over. *)
Definition subscribe (buffer : nat) (initialPayload : string) (q : queue) : nat * Z * queue :=
  let subscriber := length (chans q) in
  let id := wrapu64 (nextSubscriberID q + 1) in
  (subscriber, id,
   q <| chans := chans q ++ [mkChan (if Nat.ltb 0 (String.length initialPayload) then [initialPayload] else []) buffer false] |>
     <| nextSubscriberID := id |> <| subscribers := <[id := subscriber]> (subscribers q) |>).
Definition unsubscribe_locked (id : Z) (q : queue) : queue :=
  match subscribers q !! id with
  | None => q
  | Some r => q <| subscribers := delete id (subscribers q) |> <| closing := closing q ++ [r] |>
  end.
Definition clear_locked (q : queue) : queue :=
  q <| items := [] |> <| head := 0%nat |> <| subscribers := ∅ |> <| closing := closing q ++ (map_to_list (subscribers q)).*2 |>.
(** A close that follows, without the lock. *)
Definition close_one (r : nat) (q : queue) : outcome queue := close r (q <| closing := filter (λ x, x ≠ r) (closing q) |>).

(** Without anybody in between: [unsubscribe] and [clear] in one go; [order] is that of the range. *)
Fixpoint close_all (rs : list nat) (q : queue) : outcome queue :=
  match rs with [] => Next q | r :: rs => bind_outcome (close_one r q) (close_all rs) end.
Definition unsubscribe (id : Z) (q : queue) : outcome queue :=
  close_all (match subscribers q !! id with Some r => [r] | None => [] end) (unsubscribe_locked id q).
Definition clear (order : list nat) (q : queue) : outcome queue := close_all order (clear_locked q).

(** ** The package's state and functions *)

Record redisqueue := mkRedis { enabled : bool; retentionSeconds : Z; global : queue; errorGlobal : queue }.
#[export] Instance redisqueue_eta : Eta redisqueue := λ g, mkRedis (enabled g) (retentionSeconds g) (global g) (errorGlobal g).
Definition init_redisqueue : redisqueue := mkRedis false defaultRetentionSeconds empty_queue empty_queue.
Definition usageSupportRefreshPayload : string := quoted "{'support_refresh':true}".
Definition usageRefreshPayload : string := quoted "{'refresh':true}".

Definition SetEnabled (value : bool) (order eorder : list nat) (g : redisqueue) : outcome redisqueue :=
  let g := g <| enabled := value |> in
  if value then Next g else
  bind_outcome (clear order (global g)) (λ q, bind_outcome (clear eorder (errorGlobal g)) (λ e, Next (g <| global := q |> <| errorGlobal := e |>))).
Definition Enqueue (order : list (Z * nat)) (now : time) (p : string) (g : redisqueue) : outcome redisqueue :=
  if negb (enabled g) then Next g else if Nat.eqb (String.length p) 0 then Next g else
  bind_outcome (publishToSubscribers order p (global g)) (λ '(q, published),
    Next (g <| global := if published : bool then q else enqueue (retentionSeconds g) now p q |>)).
Definition EnqueueError (order : list (Z * nat)) (p : string) (g : redisqueue) : outcome redisqueue :=
  if negb (enabled g) then Next g else if Nat.eqb (String.length p) 0 then Next g else
  bind_outcome (publishToSubscribers order p (errorGlobal g)) (λ '(q, _), Next (g <| errorGlobal := q |>)).
Definition PopOldest (now : time) (count : Z) (g : redisqueue) : outcome (list string * redisqueue) :=
  if negb (enabled g) then Next ([], g) else if count <=? 0 then Next ([], g) else
  bind_outcome (popOldest (retentionSeconds g) now (Z.to_nat count) (global g)) (λ '(out, q), Next (out, g <| global := q |>)).
Definition SubscribeUsage (g : redisqueue) : nat * Z * redisqueue :=
  let '(r, id, q) := subscribe usageSubscriberBuffer usageSupportRefreshPayload (global g) in (r, id, g <| global := q |>).
Definition SubscribeErrors (g : redisqueue) : nat * Z * redisqueue :=
  let '(r, id, q) := subscribe errorSubscriberBuffer "" (errorGlobal g) in (r, id, g <| errorGlobal := q |>).
Definition NotifyUsageRefresh (order : list (Z * nat)) (g : redisqueue) : outcome redisqueue :=
  bind_outcome (publishToSubscribers order usageRefreshPayload (global g)) (λ '(q, _), Next (g <| global := q |>)).

(** ** Steps *)

(** The steps any number of threads can take on one queue, in any order. *)
Inductive event :=
  | Publish (p : string) | Append (p : string) | Pop (out : list string) | Subscribed (r : nat) (initial : string)
  | Unsubscribed | Cleared | Closed | Received (r : nat) (p : string).
Inductive step : queue → event → outcome queue → Prop :=
  | step_publish q order p o : order ≡ₚ map_to_list (subscribers q) →
      o = publishToSubscribers order p q → step q (Publish p) (bind_outcome o (λ x, Next x.1))
  | step_append q retention now p : step q (Append p) (Next (enqueue retention now p q))
  | step_pop q retention now count out q' : popOldest retention now count q = Next (out, q') → step q (Pop out) (Next q')
  | step_pop_panic q retention now count : popOldest retention now count q = Panic → step q (Pop []) Panic
  | step_subscribe q buffer initial : (0 < buffer)%nat → step q (Subscribed (length (chans q)) initial) (Next (subscribe buffer initial q).2)
  | step_unsubscribe q id : step q Unsubscribed (Next (unsubscribe_locked id q))
  | step_clear q : step q Cleared (Next (clear_locked q))
  | step_close q r : r ∈ closing q → step q Closed (close_one r q)
  | step_receive q r p q' : receive r q = Some (p, q') → step q (Received r p) (Next q').
Inductive run : queue → list event → queue → Prop :=
  | run_nil q : run q [] q
  | run_step q e q1 es q2 : step q e (Next q1) → run q1 es q2 → run q (e :: es) q2.

(** ** The invariant *)

Definition open_at (q : queue) (r : nat) : Prop := ∃ c, chans q !! r = Some c ∧ closed c = false.
Definition compact (q : queue) : Prop := head q = 0%nat ∨ (head q < 1024 ∧ head q * 2 < length (items q))%nat.
Record queue_ok (q : queue) : Prop := {
  ok_compact : compact q;
  ok_open : ∀ id r, subscribers q !! id = Some r → open_at q r ∧ r ∉ closing q;
  ok_inj : ∀ id id' r, subscribers q !! id = Some r → subscribers q !! id' = Some r → id = id';
  ok_closing : NoDup (closing q) ∧ ∀ r, r ∈ closing q → open_at q r;
  ok_room : ∀ r c, chans q !! r = Some c → (length (pending c) ≤ room c)%nat }.
Definition contents (q : queue) : list queueItem := drop (head q) (items q).

Lemma empty_ok : queue_ok empty_queue.
Proof. split; [by left|done|done|split; [constructor|intros r H; by apply not_elem_of_nil in H]|done]. Qed.

Lemma maybeCompact_compact q : compact (maybeCompactLocked q).
Proof.
  unfold maybeCompactLocked, compact. destruct (Nat.eqb_spec (head q) 0); [by left|].
  destruct (Nat.leb_spec (length (items q)) (head q)); [by left|].
  destruct (Nat.ltb_spec (head q) 1024), (Nat.ltb_spec (head q * 2) (length (items q))); cbn [andb]; try by left. by right.
Qed.
Lemma maybeCompact_contents q : contents (maybeCompactLocked q) = contents q.
Proof.
  unfold maybeCompactLocked, contents. destruct (Nat.eqb_spec (head q) 0); [done|].
  destruct (Nat.leb_spec (length (items q)) (head q)); [cbn; by rewrite drop_ge|].
  by destruct (_ && _).
Qed.
(** The channels' part of the state. *)
Definition links (q : queue) := (subscribers q, nextSubscriberID q, chans q, closing q).
Lemma maybeCompact_links q : links (maybeCompactLocked q) = links q.
Proof. unfold maybeCompactLocked. by repeat case_match. Qed.
Lemma prune_links retention now q : links (pruneLocked retention now q) = links q.
Proof. unfold pruneLocked. by case_match. Qed.
Lemma ok_of_links q q' : links q' = links q → compact q' → queue_ok q → queue_ok q'.
Proof. unfold links. intros [= H1 H2 H3 H4] Hc [? Ho Hi Hcl Hr]. split; [done|..]; unfold open_at in *; rewrite ?H1, ?H3, ?H4; done. Qed.

(** ** The queue refines a list *)

(** What is left of a list once everything before the cutoff at its front is gone. *)
Fixpoint fresh (cutoff : time) (l : list queueItem) : list queueItem :=
  match l with
  | item :: l' => if Before (enqueuedAt item) cutoff then fresh cutoff l' else l
  | [] => []
  end.
Definition cutoff_of (retention : Z) (now : time) : time :=
  Add now (- ((if retention <=? 0 then defaultRetentionSeconds else retention) * Second)).

Lemma advance_spec l cutoff h : advance l cutoff h = (h + (length l - length (fresh cutoff l)))%nat ∧ (length (fresh cutoff l) ≤ length l)%nat
  ∧ drop (length l - length (fresh cutoff l)) l = fresh cutoff l.
Proof.
  revert h. induction l as [|x l IH]; intros h; [cbn; split_and!; lia || done|]. cbn [advance fresh]. destruct (Before _ _).
  - destruct (IH (S h)) as (-> & Hle & Hd). cbn [length]. split_and!; [lia|lia|]. by rewrite Nat.sub_succ_l by lia.
  - rewrite Nat.sub_diag. split_and!; [lia|done|done].
Qed.
Lemma prune_contents retention now q : contents (pruneLocked retention now q) = fresh (cutoff_of retention now) (contents q).
Proof.
  unfold pruneLocked, contents, cutoff_of. destruct (Nat.leb_spec (length (items q)) (head q)); [cbn; by rewrite drop_ge|].
  cbv zeta. cbn. destruct (advance_spec (drop (head q) (items q)) (cutoff_of retention now) (head q)) as (E & Hle & Hd).
  unfold cutoff_of in *. rewrite E, <-drop_drop. exact Hd.
Qed.
Lemma prune_head retention now q : (head (pruneLocked retention now q) ≤ length (items (pruneLocked retention now q)))%nat.
Proof.
  unfold pruneLocked. destruct (Nat.leb_spec (length (items q)) (head q)); [cbn; lia|]. cbv zeta. cbn.
  destruct (advance_spec (drop (head q) (items q)) (cutoff_of retention now) (head q)) as (E & _). unfold cutoff_of in E. rewrite E.
  rewrite length_drop. lia.
Qed.
Lemma enqueue_contents retention now p q :
  contents (enqueue retention now p q) = fresh (cutoff_of retention now) (contents q) ++ [mkItem now p].
Proof.
  unfold enqueue. rewrite maybeCompact_contents, <-prune_contents. pose proof (prune_head retention now q) as H.
  unfold contents. cbn. by rewrite drop_app_le.
Qed.
Lemma pop_indices l h n : (h + n ≤ length l)%nat → mapM (λ i, payload <$> l !! (h + i)%nat) (seq 0 n) = Some (payload <$> take n (drop h l)).
Proof.
  intros Hle. apply mapM_Some. apply Forall2_same_length_lookup_2.
  { rewrite length_seq, length_fmap, length_take, length_drop. lia. }
  intros i x y Hx Hy. apply lookup_seq in Hx as [-> Hi]. rewrite list_lookup_fmap, lookup_take, decide_True, lookup_drop in Hy by lia. done.
Qed.
Lemma pop_spec retention now count q : ∃ q',
  popOldest retention now count q = Next (payload <$> take count (fresh (cutoff_of retention now) (contents q)), q')
  ∧ contents q' = drop count (fresh (cutoff_of retention now) (contents q)) ∧ compact q' ∧ links q' = links q.
Proof.
  unfold popOldest. cbv zeta. rewrite <-prune_contents. pose proof (prune_links retention now q) as Hl.
  pose proof (prune_head retention now q) as Hh. set (q1 := pruneLocked retention now q) in *. clearbody q1.
  destruct (Nat.leb_spec (length (items q1)) (head q1)) as [Hle|Hlt].
  { eexists. unfold contents. rewrite (drop_ge (items q1)) by done. rewrite take_nil, drop_nil. split_and!; [done|done|by left|done]. }
  set (n := if Nat.ltb _ _ then _ else _).
  assert ((head q1 + n ≤ length (items q1))%nat ∧ take n (contents q1) = take count (contents q1) ∧ drop n (contents q1) = drop count (contents q1)) as (Hn & Ht & Hd).
  { subst n. unfold contents. destruct (Nat.ltb_spec (length (items q1) - head q1) count); [|split_and!; [lia|done|done]].
    assert (length (drop (head q1) (items q1)) = (length (items q1) - head q1)%nat) as E by apply length_drop.
    rewrite !take_ge by lia. rewrite (drop_ge _ count) by lia. rewrite (drop_ge _ (length _ - _)) by lia. split_and!; [lia|done|done]. }
  rewrite pop_indices by done. eexists. split; [by rewrite <-Ht; unfold contents|]. split; [|split].
  - rewrite maybeCompact_contents. unfold contents at 1. cbn. rewrite <-drop_drop. exact Hd.
  - apply maybeCompact_compact.
  - by rewrite maybeCompact_links.
Qed.
Lemma enqueue_compact retention now p q : compact (enqueue retention now p q) ∧ links (enqueue retention now p q) = links q.
Proof.
  unfold enqueue. split; [apply maybeCompact_compact|]. rewrite maybeCompact_links, <-(prune_links retention now q).
  by destruct (pruneLocked retention now q).
Qed.
Lemma slice_bounded q : compact q → (length (items q) ≤ 2 * length (contents q))%nat.
Proof. unfold compact, contents. rewrite length_drop. lia. Qed.

(** ** What a publication does *)

Definition has_room (c : channel) : bool := Nat.ltb (length (pending c)) (room c).
Definition deliver (p : string) (c : channel) : channel :=
  if has_room c then mkChan (pending c ++ [p]) (room c) (closed c) else mkChan (pending c) (room c) true.
Definition room_at (q : queue) (r : nat) : bool := match chans q !! r with Some c => has_room c | None => false end.
Definition rest_of (q : queue) := (items q, head q, nextSubscriberID q, closing q, length (chans q)).

Lemma send_open p r q c : chans q !! r = Some c → closed c = false →
  send p r q = Next (if has_room c then (q <| chans := <[r := deliver p c]> (chans q) |>, true) else (q, false)).
Proof. intros Hc Ho. unfold send, deliver, has_room. rewrite Hc, Ho. by destruct (Nat.ltb _ _). Qed.
Lemma close_open r q c : chans q !! r = Some c → closed c = false →
  close r q = Next (q <| chans := <[r := mkChan (pending c) (room c) true]> (chans q) |>).
Proof. intros Hc Ho. unfold close. by rewrite Hc, Ho. Qed.

Record published (p : string) (order : list (Z * nat)) (q q' : queue) : Prop := {
  pub_rest : rest_of q' = rest_of q;
  pub_in : ∀ r, r ∈ order.*2 → chans q' !! r = deliver p <$> chans q !! r;
  pub_out : ∀ r, r ∉ order.*2 → chans q' !! r = chans q !! r;
  pub_kept : ∀ id, id ∉ order.*1 → subscribers q' !! id = subscribers q !! id;
  pub_subs : ∀ id r, (id, r) ∈ order → subscribers q' !! id = if room_at q r then subscribers q !! id else None }.

Lemma publish_each_spec p order : ∀ q, NoDup order.*1 → NoDup order.*2 → (∀ r, r ∈ order.*2 → open_at q r) →
  ∃ q', publish_each p order q = Next q' ∧ published p order q q'.
Proof.
  induction order as [|[id r] order IH]; intros q H1 H2 Ho.
  { exists q. split; [done|]. split; try done; intros * H; inversion H. }
  cbn in H1, H2. apply NoDup_cons in H1 as [H1 H1']. apply NoDup_cons in H2 as [H2 H2'].
  destruct (Ho r) as (c & Hc & Hopen); [by left|]. assert (r < length (chans q))%nat as Hlt by by eapply lookup_lt_Some.
  cbn [publish_each]. rewrite (send_open _ _ _ c) by done. cbn [bind_outcome].
  set (q1 := if has_room c then q <| chans := <[r := deliver p c]> (chans q) |>
             else q <| subscribers := delete id (subscribers q) |> <| chans := <[r := deliver p c]> (chans q) |>).
  assert (chans q1 = <[r := deliver p c]> (chans q) ∧ rest_of q1 = rest_of q ∧ subscribers q1 = if has_room c then subscribers q else delete id (subscribers q))
    as (Eq1 & Er1 & Es1).
  { subst q1. unfold rest_of. destruct (has_room c); cbn; by rewrite length_insert. }
  destruct (IH q1 H1' H2') as (q2 & E2 & [Pr Pi Po Pk Ps]).
  { intros r' Hr'. destruct (Ho r') as (c' & ? & ?); [by right|]. exists c'. split; [|done]. rewrite Eq1, list_lookup_insert_ne; [done|].
    intros ->. done. }
  exists q2. split.
  { rewrite <-E2. subst q1. unfold deliver. destruct (has_room c); [done|]. by rewrite (close_open _ _ c). }
  split.
  - by rewrite Pr, Er1.
  - intros r' Hr'. cbn in Hr'. apply elem_of_cons in Hr' as [->|Hr'].
    + rewrite Po, Eq1, list_lookup_insert_eq, Hc by done. done.
    + rewrite Pi, Eq1, list_lookup_insert_ne by (done || by intros ->). done.
  - intros r' Hr'. cbn in Hr'. apply not_elem_of_cons in Hr' as [Hne Hr']. by rewrite Po, Eq1, list_lookup_insert_ne by done.
  - intros id' Hid. cbn in Hid. apply not_elem_of_cons in Hid as [Hne Hid]. rewrite Pk, Es1 by done.
    destruct (has_room c); [done|]. by rewrite lookup_delete_ne by done.
  - intros id' r' H. apply elem_of_cons in H as [[= -> ->]|H].
    + rewrite Pk, Es1 by done. unfold room_at. rewrite Hc. destruct (has_room c); [done|]. by rewrite lookup_delete_eq.
    + assert (id' ≠ id ∧ r' ≠ r) as [Hni Hnr].
      { split; intros ->; [apply H1|apply H2]; apply list_elem_of_fmap; eexists; split; try done; done. }
      rewrite (Ps id' r') by done. unfold room_at. rewrite Eq1, list_lookup_insert_ne, Es1 by done.
      destruct (match chans q !! r' with Some c => has_room c | None => false end); [|done].
      destruct (has_room c); [done|]. by rewrite lookup_delete_ne by done.
Qed.

Lemma order_nodup q order : queue_ok q → order ≡ₚ map_to_list (subscribers q) → NoDup order.*1 ∧ NoDup order.*2
  ∧ (∀ r, r ∈ order.*2 ↔ ∃ id, subscribers q !! id = Some r) ∧ (∀ id r, (id, r) ∈ order ↔ subscribers q !! id = Some r).
Proof.
  intros [_ _ Hi _ _] HP.
  assert (∀ id r, (id, r) ∈ order ↔ subscribers q !! id = Some r) as Hin.
  { intros id r. rewrite HP. by rewrite elem_of_map_to_list. }
  assert (NoDup order.*1) as H1. { rewrite HP. apply NoDup_fst_map_to_list. }
  split; [done|]. split; [|split; [|done]].
  - apply NoDup_fmap_2_strong; [|by eapply NoDup_fmap_1].
    intros [i r] [i' r'] Hx Hy E. cbn in E. subst r'. apply Hin in Hx, Hy. by rewrite (Hi i i' r Hx Hy).
  - intros r. rewrite list_elem_of_fmap. split.
    + intros ([i r'] & -> & Hx). exists i. by apply Hin.
    + intros [i Hx]. exists (i, r). split; [done|]. by apply Hin.
Qed.
Lemma publish_spec q order p : queue_ok q → order ≡ₚ map_to_list (subscribers q) →
  ∃ q', publishToSubscribers order p q = Next (q', negb (bool_decide (subscribers q = ∅))) ∧ published p order q q'.
Proof.
  intros Hok HP. destruct (order_nodup q order Hok HP) as (H1 & H2 & H3 & _). unfold publishToSubscribers. case_bool_decide as He.
  - exists q. split; [done|]. rewrite He, map_to_list_empty in HP. apply Permutation_nil_r in HP as ->.
    split; try done; intros * H; inversion H.
  - destruct (publish_each_spec p order q H1 H2) as (q' & -> & HQ); [|by exists q'].
    intros r Hr. apply H3 in Hr as [id Hid]. by apply (ok_open _ Hok id).
Qed.

(** ** No step panics *)

Lemma published_ok p order q q' : queue_ok q → order ≡ₚ map_to_list (subscribers q) → published p order q q' → queue_ok q'.
Proof.
  intros Hok HP HQ. destruct (order_nodup q order Hok HP) as (H1 & H2 & H3 & H4). destruct HQ as [Pr Pi Po Pk Ps].
  unfold rest_of in Pr. injection Pr as Ei Eh En Ec El.
  assert (∀ id r, subscribers q' !! id = Some r → subscribers q !! id = Some r ∧ room_at q r = true) as Hsub.
  { intros id r H. destruct (subscribers q !! id) as [r'|] eqn:E.
    - rewrite (Ps id r') in H by by apply H4. rewrite E in H. destruct (room_at q r') eqn:Er; [|done]. by injection H as ->.
    - rewrite Pk, E in H; [done|]. intros Hin. apply list_elem_of_fmap in Hin as ([i r'] & -> & Hx). apply H4 in Hx. cbn in E. by rewrite E in Hx. }
  split.
  - unfold compact. rewrite Ei, Eh. apply Hok.
  - intros id r H. apply Hsub in H as [H Hroom]. destruct (ok_open _ Hok id r H) as [(c & Hc & Hopen) Hn]. rewrite Ec. split; [|done].
    unfold room_at in Hroom. rewrite Hc in Hroom. exists (deliver p c). rewrite Pi, Hc by (apply H3; by exists id). split; [done|].
    unfold deliver. by rewrite Hroom.
  - intros id id' r H H'. apply Hsub in H as [H _], H' as [H' _]. by apply (ok_inj _ Hok id id' r).
  - rewrite Ec. split; [apply Hok|]. intros r Hr. unfold open_at. rewrite Po; [by apply (ok_closing _ Hok)|].
    intros Hin. apply H3 in Hin as [id Hid]. by apply (ok_open _ Hok id r Hid).
  - intros r c H. destruct (decide (r ∈ order.*2)) as [Hin|Hin]; [|rewrite Po in H by done; by apply (ok_room _ Hok r)].
    rewrite Pi in H by done. destruct (chans q !! r) as [c0|] eqn:E; [|done]. injection H as <-. pose proof (ok_room _ Hok r c0 E).
    unfold deliver, has_room. destruct (Nat.ltb_spec (length (pending c0)) (room c0)); cbn; rewrite ?length_app; cbn; lia.
Qed.
Lemma subscribe_ok buffer initial q : (0 < buffer)%nat → queue_ok q → queue_ok (subscribe buffer initial q).2.
Proof.
  intros Hb [Hc Ho Hi [Hn Hcl] Hr]. unfold subscribe. cbn.
  assert (∀ r, open_at q r → (r < length (chans q))%nat) as Hlt. { intros r (c & H & _). by eapply lookup_lt_Some. }
  set (c1 := mkChan _ _ _). assert (∀ r, open_at q r → ∃ c, (chans q ++ [c1]) !! r = Some c ∧ closed c = false) as Happ.
  { intros r (c & H & Hop). exists c. by rewrite lookup_app_l by by eapply lookup_lt_Some. }
  split; unfold open_at; cbn.
  - done.
  - intros id r H. apply lookup_insert_Some in H as [[<- <-]|[Hne H]].
    + split; [exists c1; by rewrite lookup_app_r, Nat.sub_diag by lia|]. intros Hin. apply Hcl, Hlt in Hin. lia.
    + destruct (Ho id r H) as [Hop ?]. split; [by apply Happ|done].
  - intros id id' r H H'. apply lookup_insert_Some in H as [[<- <-]|[Hne H]], H' as [[<- H']|[Hne' H']]; [done| | |by apply (Hi id id' r)].
    + apply Ho in H' as [H' _]. apply Hlt in H'. lia.
    + subst r. apply Ho in H as [H _]. apply Hlt in H. lia.
  - split; [done|]. intros r Hin. by apply Happ, Hcl.
  - intros r c H. apply lookup_app_Some in H as [H|[Hge H]]; [by apply (Hr r)|]. apply list_lookup_singleton_Some in H as [_ <-].
    subst c1. cbn. repeat case_match; cbn; lia.
Qed.
Lemma unsubscribe_ok id q : queue_ok q → queue_ok (unsubscribe_locked id q).
Proof.
  intros [Hc Ho Hi [Hn Hcl] Hr]. unfold unsubscribe_locked. destruct (subscribers q !! id) as [r|] eqn:E; [|by split].
  destruct (Ho id r E) as [Hop Hni]. split; cbn; try done.
  - intros id' r' H. apply lookup_delete_Some in H as [Hne H]. destruct (Ho id' r' H) as [? Hn']. split; [done|].
    rewrite elem_of_app, list_elem_of_singleton. intros [?| ->]; [done|]. apply Hne. by apply (Hi id id' r).
  - intros i i' r' H H'. apply lookup_delete_Some in H as [_ H], H' as [_ H']. by apply (Hi i i' r').
  - split.
    + apply NoDup_app. split; [done|]. split; [|apply NoDup_singleton]. intros x Hx Hx'. apply list_elem_of_singleton in Hx' as ->. done.
    + intros x [Hx|Hx%list_elem_of_singleton]%elem_of_app; [by apply Hcl|by subst x].
Qed.
Lemma clear_ok q : queue_ok q → queue_ok (clear_locked q).
Proof.
  intros Hok. destruct (order_nodup q _ Hok (Permutation_refl _)) as (_ & H2 & H3 & _). destruct Hok as [Hc Ho Hi [Hn Hcl] Hr].
  unfold clear_locked. split; cbn; try done; [by left|].
  split.
  - apply NoDup_app. split; [done|]. split; [|done]. intros r Hx [id Hid]%H3. by apply (Ho id r Hid).
  - intros r [Hx|Hx]%elem_of_app; [by apply Hcl|]. apply H3 in Hx as [id Hid]. by apply (Ho id r Hid).
Qed.
Lemma close_ok r q : queue_ok q → r ∈ closing q →
  ∃ c, chans q !! r = Some c ∧ closed c = false
    ∧ close_one r q = Next (q <| closing := filter (λ x, x ≠ r) (closing q) |> <| chans := <[r := mkChan (pending c) (room c) true]> (chans q) |>)
    ∧ queue_ok (q <| closing := filter (λ x, x ≠ r) (closing q) |> <| chans := <[r := mkChan (pending c) (room c) true]> (chans q) |>).
Proof.
  intros [Hc Ho Hi [Hn Hcl] Hr] Hin. destruct (Hcl r Hin) as (c & E & Hop). exists c. split; [done|]. split; [done|].
  split; [unfold close_one; by rewrite (close_open _ _ c)|]. split; unfold open_at; cbn; try done.
  - intros id r' H. destruct (Ho id r' H) as [(c' & ? & ?) Hn']. assert (r' ≠ r) by by intros ->. split.
    + exists c'. by rewrite list_lookup_insert_ne by done.
    + intros [? ?]%list_elem_of_filter. done.
  - split; [by apply NoDup_filter|]. intros r' [Hne Hx]%list_elem_of_filter. destruct (Hcl r' Hx) as (c' & ? & ?). exists c'.
    by rewrite list_lookup_insert_ne by done.
  - intros r' c' H. apply list_lookup_insert_Some in H as [(<- & <- & _)|[Hne H]]; [by apply (Hr r c)|by apply (Hr r')].
Qed.
Lemma receive_ok r p q q' : queue_ok q → receive r q = Some (p, q') → queue_ok q'
  ∧ ∃ c rest, chans q !! r = Some c ∧ pending c = p :: rest ∧ q' = q <| chans := <[r := mkChan rest (room c) (closed c)]> (chans q) |>.
Proof.
  intros [Hc Ho Hi [Hn Hcl] Hr] H. unfold receive in H. destruct (chans q !! r) as [c|] eqn:E; [|done].
  destruct (pending c) as [|x rest] eqn:Ep; [done|]. injection H as -> <-. split; [|by exists c, rest].
  assert (∀ r', open_at q r' → ∃ c', <[r := mkChan rest (room c) (closed c)]> (chans q) !! r' = Some c' ∧ closed c' = false) as Hop.
  { intros r' (c' & H & Hf). destruct (decide (r' = r)) as [->|Hne].
    - rewrite list_lookup_insert_eq by by eapply lookup_lt_Some. eexists. split; [done|]. cbn. by simplify_eq.
    - exists c'. by rewrite list_lookup_insert_ne by done. }
  split; unfold open_at; cbn; try done.
  - intros id r' H. destruct (Ho id r' H) as [? Hn']. split; [by apply Hop|done].
  - split; [done|]. intros r' H. by apply Hop, Hcl.
  - intros r' c' H. apply list_lookup_insert_Some in H as [(<- & <- & _)|[Hne H]]; [|by apply (Hr r')].
    pose proof (Hr r c E) as Hle. rewrite Ep in Hle. cbn in *. lia.
Qed.

Lemma queue_step_ok q e o : queue_ok q → step q e o → ∃ q', o = Next q' ∧ queue_ok q'.
Proof.
  intros Hok Hs. destruct Hs as [q order p o HP ->|q ret now p|q ret now n out q' E|q ret now n E|q b i Hb|q id|q|q r Hr|q r p q' E].
  - destruct (publish_spec q order p Hok HP) as (q' & -> & HQ). exists q'. split; [done|]. by eapply published_ok.
  - eexists. split; [done|]. destruct (enqueue_compact ret now p q). by eapply ok_of_links.
  - destruct (pop_spec ret now n q) as (q2 & E2 & _ & H1 & H2). rewrite E2 in E. injection E as _ <-. eexists. split; [done|]. by eapply ok_of_links.
  - destruct (pop_spec ret now n q) as (q2 & E2 & _). by rewrite E2 in E.
  - eexists. split; [done|]. by apply subscribe_ok.
  - eexists. split; [done|]. by apply unsubscribe_ok.
  - eexists. split; [done|]. by apply clear_ok.
  - destruct (close_ok r q Hok Hr) as (c & _ & _ & -> & H). eexists. split; [done|]. exact H.
  - eexists. split; [done|]. by apply (receive_ok r p q).
Qed.
Lemma queue_run_ok q es q' : queue_ok q → run q es q' → queue_ok q'.
Proof. intros Hok Hr. induction Hr as [|q e q1 es q2 Hs _ IH]; [done|]. apply IH. destruct (queue_step_ok q e _ Hok Hs) as (? & [= ->] & ?). done. Qed.

(** ** What a subscriber sees *)

Definition pend (q : queue) (r : nat) : list string := match chans q !! r with Some c => pending c | None => [] end.
Definition subscribed (q : queue) (r : nat) : Prop := r ∈ (map_to_list (subscribers q)).*2.
#[export] Instance subscribed_dec q r : Decision (subscribed q r).
Proof. unfold subscribed. apply _. Defined.
Lemma subscribed_iff q r : subscribed q r ↔ ∃ id, subscribers q !! id = Some r.
Proof.
  unfold subscribed. rewrite list_elem_of_fmap. split.
  - intros ([id r'] & -> & H). exists id. by apply elem_of_map_to_list in H.
  - intros [id H]. exists (id, r). split; [done|]. by apply elem_of_map_to_list.
Qed.
Definition published_in (e : event) : list string := match e with Publish p => [p] | _ => [] end.
Definition publishes (es : list event) : list string := es ≫= published_in.
Definition received_in (r : nat) (e : event) : list string :=
  match e with Received r' p => if decide (r' = r) then [p] else [] | _ => [] end.
Definition received (r : nat) (es : list event) : list string := es ≫= received_in r.

(** One step of one channel: it gets what was published and stays, or is left out for good. *)
Definition link_step (q : queue) (e : event) (q1 : queue) (r : nat) : Prop :=
  (r < length (chans q1))%nat
  ∧ (received_in r e ++ pend q1 r = pend q r ++ published_in e ∧ (subscribed q r ∧ subscribed q1 r)
     ∨ received_in r e ++ pend q1 r = pend q r ∧ ¬ subscribed q1 r).
Lemma link_same q e q1 r : (r < length (chans q))%nat → length (chans q1) = length (chans q) →
  received_in r e ++ pend q1 r = pend q r → published_in e = [] → (subscribed q1 r → subscribed q r) → link_step q e q1 r.
Proof.
  intros Hr Hl Hp He Hs. split; [lia|]. destruct (decide (subscribed q1 r)); [left|by right]. rewrite He, app_nil_r. auto.
Qed.
Lemma of_links q q1 r : links q1 = links q → pend q1 r = pend q r ∧ length (chans q1) = length (chans q) ∧ (subscribed q1 r → subscribed q r).
Proof. unfold links, pend, subscribed. intros [= -> _ -> _]. done. Qed.

Lemma publish_link q order p q1 r : queue_ok q → order ≡ₚ map_to_list (subscribers q) → published p order q q1 →
  (r < length (chans q))%nat → link_step q (Publish p) q1 r.
Proof.
  intros Hok HP HQ Hr. destruct (order_nodup q order Hok HP) as (H1 & H2 & H3 & H4). destruct HQ as [Pr Pi Po Pk Ps].
  assert (length (chans q1) = length (chans q)) as El by by unfold rest_of in Pr; injection Pr.
  split; [lia|]. cbn [received_in published_in app]. unfold pend. destruct (decide (r ∈ order.*2)) as [Hin|Hin].
  - apply H3 in Hin as Hid. destruct Hid as [id Hid]. destruct (ok_open _ Hok id r Hid) as [(c & Hc & Hop) _].
    rewrite (Pi r Hin), Hc. pose proof (Ps id r) as Hsub. rewrite H4 in Hsub. specialize (Hsub Hid). unfold room_at in Hsub. rewrite Hc in Hsub.
    cbn. unfold deliver. destruct (has_room c) eqn:Er; [left|right]; (split; [done|]).
    + split; apply subscribed_iff; exists id; [done|]. by rewrite Hsub.
    + intros [id' H]%subscribed_iff. destruct (decide (id' = id)) as [->|Hne]; [by rewrite Hsub in H|].
      destruct (decide (id' ∈ order.*1)) as [Hi|Hi].
      * apply list_elem_of_fmap in Hi as ([i r'] & -> & Hx). pose proof Hx as Hx'. apply H4 in Hx'. cbn in *.
        rewrite (Ps i r' Hx), Hx' in H. destruct (room_at q r'); [|done]. injection H as ->. apply Hne. by apply (ok_inj _ Hok i id r).
      * rewrite Pk in H by done. apply Hne. by apply (ok_inj _ Hok id' id r).
  - right. rewrite (Po r Hin). split; [done|]. intros [id' H]%subscribed_iff. apply Hin, H3.
    destruct (decide (id' ∈ order.*1)) as [Hi|Hi]; [|rewrite Pk in H by done; by exists id'].
    apply list_elem_of_fmap in Hi as ([i r'] & -> & Hx). pose proof Hx as Hx'. apply H4 in Hx'. cbn in *.
    rewrite (Ps i r' Hx), Hx' in H. destruct (room_at q r'); [|done]. injection H as ->. by exists i.
Qed.
Lemma step_link q e q1 r : queue_ok q → step q e (Next q1) → (r < length (chans q))%nat → link_step q e q1 r.
Proof.
  intros Hok Hs Hr. remember (Next q1) as o eqn:Eo. destruct Hs as [q order p o HP ->|q ret now p|q ret now n out q' E|q ret now n E|q b i Hb|q id|q|q r' Hin|q r' p q' E].
  - destruct (publish_spec q order p Hok HP) as (q' & E & HQ). rewrite E in Eo. injection Eo as <-. by eapply publish_link.
  - injection Eo as <-. destruct (enqueue_compact ret now p q) as [_ Hl]. destruct (of_links _ _ r Hl) as (? & ? & ?). by apply link_same.
  - injection Eo as <-. destruct (pop_spec ret now n q) as (q2 & E2 & _ & _ & Hl). rewrite E2 in E. injection E as _ <-.
    destruct (of_links _ _ r Hl) as (? & ? & ?). by apply link_same.
  - done.
  - injection Eo as <-. unfold link_step, subscribe, pend. cbn. rewrite length_app. split; [lia|]. rewrite lookup_app_l by done.
    rewrite app_nil_r. assert (subscribed (subscribe b i q).2 r → subscribed q r) as Hsub.
    { intros [id H]%subscribed_iff. cbn in H. apply lookup_insert_Some in H as [[_ <-]|[_ H]]; [lia|]. apply subscribed_iff. by exists id. }
    destruct (decide (subscribed (subscribe b i q).2 r)); [left; auto|right; auto].
  - injection Eo as <-. unfold unsubscribe_locked. destruct (subscribers q !! id) as [r1|] eqn:Ei; apply link_same; try done.
    intros [id' H]%subscribed_iff. cbn in H. apply lookup_delete_Some in H as [_ H]. apply subscribed_iff. by exists id'.
  - injection Eo as <-. apply link_same; try done. intros [id' H]%subscribed_iff. done.
  - destruct (close_ok r' q Hok Hin) as (c & Hc & _ & E & _). rewrite E in Eo. injection Eo as <-. apply link_same; try done.
    + cbn. by rewrite length_insert.
    + unfold pend. cbn. destruct (decide (r = r')) as [->|Hne]; [|by rewrite list_lookup_insert_ne by done].
      by rewrite list_lookup_insert_eq, Hc by by eapply lookup_lt_Some.
  - injection Eo as <-. destruct (receive_ok r' p q q' Hok E) as (_ & c & rest & Hc & Hp & ->). apply link_same; try done.
    + cbn. by rewrite length_insert.
    + unfold pend. cbn. destruct (decide (r' = r)) as [->|Hne]; [|by rewrite list_lookup_insert_ne by done].
      rewrite list_lookup_insert_eq, Hc by by eapply lookup_lt_Some. by rewrite Hp.
Qed.
Lemma left_out q e q1 r : queue_ok q → step q e (Next q1) → (r < length (chans q))%nat → ¬ subscribed q r → ¬ subscribed q1 r.
Proof. intros Hok Hs Hr Hn Hs1. destruct (step_link q e q1 r Hok Hs Hr) as [_ [(_ & ? & _)|(_ & ?)]]; done. Qed.
Lemma run_link q es q2 r : queue_ok q → run q es q2 → (r < length (chans q))%nat →
  ∃ k, received r es ++ pend q2 r = pend q r ++ take k (publishes es)
    ∧ (¬ subscribed q r → k = 0%nat ∧ ¬ subscribed q2 r) ∧ (subscribed q2 r → k = length (publishes es)).
Proof.
  intros Hok Hrun. induction Hrun as [|q e q1 es q2 Hs Hrun IH]; intros Hr.
  { exists 0%nat. rewrite app_nil_r. split_and!; try done. }
  destruct (queue_step_ok q e _ Hok Hs) as (? & [= <-] & Hok1). destruct (step_link q e q1 r Hok Hs Hr) as [Hr1 Hcase].
  destruct (IH Hok1 Hr1) as (k & Hk & Hout & Hall). unfold received, publishes in *. cbn [mbind list_bind] in *.
  rewrite <-app_assoc, Hk, app_assoc. destruct Hcase as [(E & Hsub & Hsub1)|(E & Hn)].
  - exists (length (published_in e) + k)%nat. rewrite E, <-app_assoc, take_app_add. split; [done|]. split; [done|].
    intros H. rewrite length_app, (Hall H). done.
  - destruct (Hout Hn) as [-> Hn2]. exists 0%nat. rewrite E. split; [by rewrite !take_0|]. split; [done|]. by intros H.
Qed.

(** *** Nobody is forgotten *)

(** Its channel is closed already, or the goroutine is on its way that closes it. *)
Definition closed_at (q : queue) (r : nat) : Prop := ∃ c, chans q !! r = Some c ∧ closed c = true.
Definition ending (q : queue) (r : nat) : Prop := closed_at q r ∨ r ∈ closing q.
(** Ids are not used twice before they wrap around. *)
Definition ids_ok (q : queue) : Prop :=
  Z.of_nat (length (chans q)) < 2 ^ 64 →
  nextSubscriberID q = Z.of_nat (length (chans q)) ∧ ∀ id r, subscribers q !! id = Some r → id <= nextSubscriberID q.
Lemma ids_smaller q q' : nextSubscriberID q' = nextSubscriberID q → length (chans q') = length (chans q) →
  (∀ id r, subscribers q' !! id = Some r → subscribers q !! id = Some r) → ids_ok q → ids_ok q'.
Proof. intros En El Hs Hi Hlt. rewrite El in *. destruct (Hi Hlt) as [H1 H2]. rewrite En. split; [done|]. eauto. Qed.

Lemma published_subs p order q q' id r : queue_ok q → order ≡ₚ map_to_list (subscribers q) → published p order q q' →
  subscribers q' !! id = Some r → subscribers q !! id = Some r ∧ room_at q r = true.
Proof.
  intros Hok HP [_ _ _ Pk Ps] H. destruct (order_nodup q order Hok HP) as (_ & _ & _ & H4). destruct (subscribers q !! id) as [r'|] eqn:E.
  - rewrite (Ps id r') in H by by apply H4. rewrite E in H. destruct (room_at q r') eqn:Er; [|done]. by injection H as ->.
  - rewrite Pk, E in H; [done|]. intros Hin. apply list_elem_of_fmap in Hin as ([i r'] & -> & Hx). apply H4 in Hx. cbn in E. by rewrite E in Hx.
Qed.
Lemma step_length q e q1 : queue_ok q → step q e (Next q1) → (length (chans q) ≤ length (chans q1))%nat.
Proof.
  intros Hok Hs. destruct (chans q) as [|c l] eqn:E; [cbn; lia|]. destruct (step_link q e q1 (length l) Hok Hs) as [H _]; [rewrite E; cbn; lia|].
  cbn. lia.
Qed.
Lemma step_ids q e q1 : queue_ok q → step q e (Next q1) → ids_ok q → ids_ok q1.
Proof.
  intros Hok Hs Hi. remember (Next q1) as o eqn:Eo. destruct Hs as [q order p o HP ->|q ret now p|q ret now n out q' E|q ret now n E|q b i Hb|q id|q|q r' Hin|q r' p q' E].
  - destruct (publish_spec q order p Hok HP) as (q' & E & HQ). rewrite E in Eo. injection Eo as <-. pose proof (pub_rest _ _ _ _ HQ) as Hr.
    unfold rest_of in Hr. injection Hr as _ _ En _ El. apply (ids_smaller q); [done|done| |done]. intros id r H. by eapply published_subs.
  - injection Eo as <-. destruct (enqueue_compact ret now p q) as [_ Hl]. unfold links in Hl. injection Hl as E1 E2 E3 _.
    apply (ids_smaller q); [done|by rewrite E3|by rewrite E1|done].
  - injection Eo as <-. destruct (pop_spec ret now n q) as (q2 & E2 & _ & _ & Hl). rewrite E2 in E. injection E as _ <-.
    unfold links in Hl. injection Hl as E1 En E3 _. apply (ids_smaller q); [done|by rewrite E3|by rewrite E1|done].
  - done.
  - injection Eo as <-. intros Hlt. unfold subscribe in *. cbn in *. rewrite length_app in *. cbn in *.
    destruct (Hi ltac:(lia)) as [H1 H2]. rewrite H1, wrapu64_id by (unfold is_uint64; lia). split; [lia|].
    intros id r [[<- _]|[_ H]]%lookup_insert_Some; [lia|]. specialize (H2 id r H). lia.
  - injection Eo as <-. unfold unsubscribe_locked. destruct (subscribers q !! id); [|done]. apply (ids_smaller q); try done.
    intros id' r H. cbn in H. by apply lookup_delete_Some in H as [_ H].
  - injection Eo as <-. by apply (ids_smaller q).
  - destruct (close_ok r' q Hok Hin) as (c & _ & _ & E & _). rewrite E in Eo. injection Eo as <-. apply (ids_smaller q); try done. cbn. apply length_insert.
  - injection Eo as <-. destruct (receive_ok r' p q q' Hok E) as (_ & c & rest & _ & _ & ->). apply (ids_smaller q); try done. cbn. apply length_insert.
Qed.
Lemma publish_ending q order p q1 r : queue_ok q → order ≡ₚ map_to_list (subscribers q) → published p order q q1 →
  subscribed q r ∨ ending q r → subscribed q1 r ∨ ending q1 r.
Proof.
  intros Hok HP HQ. destruct (order_nodup q order Hok HP) as (H1 & H2 & H3 & H4). destruct HQ as [Pr Pi Po Pk Ps].
  unfold rest_of in Pr. injection Pr as _ _ _ Ec _. unfold ending, closed_at. rewrite Ec.
  destruct (decide (r ∈ order.*2)) as [Hin|Hin]; [|rewrite (Po r Hin); intros [[id Hid]%subscribed_iff|H]; [|by right]; exfalso; apply Hin, H3; by exists id].
  intros _. apply H3 in Hin as Hid. destruct Hid as [id Hid]. destruct (ok_open _ Hok id r Hid) as [(c & Hc & _) _].
  pose proof (Ps id r) as Hsub. rewrite H4 in Hsub. specialize (Hsub Hid). unfold room_at in Hsub. rewrite Hc in Hsub.
  rewrite (Pi r Hin), Hc. cbn. unfold deliver. destruct (has_room c); [left; apply subscribed_iff; exists id; by rewrite Hsub|right; left; by eexists].
Qed.
Lemma step_ending q e q1 r : queue_ok q → ids_ok q → Z.of_nat (length (chans q1)) < 2 ^ 64 → step q e (Next q1) → (r < length (chans q))%nat →
  subscribed q r ∨ ending q r → subscribed q1 r ∨ ending q1 r.
Proof.
  intros Hok Hi Hlt Hs Hr Hw. remember (Next q1) as o eqn:Eo. unfold ending, closed_at in *. rewrite !subscribed_iff in *.
  destruct Hs as [q order p o HP ->|q ret now p|q ret now n out q' E|q ret now n E|q b i Hb|q id|q|q r' Hin|q r' p q' E].
  - destruct (publish_spec q order p Hok HP) as (q' & E & HQ). rewrite E in Eo. injection Eo as <-. rewrite <-!subscribed_iff in *. by eapply publish_ending.
  - injection Eo as <-. destruct (enqueue_compact ret now p q) as [_ Hl]. unfold links in Hl. injection Hl as -> _ -> ->. exact Hw.
  - injection Eo as <-. destruct (pop_spec ret now n q) as (q2 & E2 & _ & _ & Hl). rewrite E2 in E. injection E as _ <-.
    unfold links in Hl. injection Hl as -> _ -> ->. exact Hw.
  - done.
  - injection Eo as <-. unfold subscribe in *. cbn in *. rewrite length_app in Hlt. cbn in Hlt. destruct (Hi ltac:(lia)) as [H1 H2].
    destruct Hw as [[id Hid]|[(c & Hc & Hcl)|Hcl]]; [left|right; left|right; by right].
    + exists id. rewrite lookup_insert_ne; [done|]. specialize (H2 id r Hid). rewrite wrapu64_id by (unfold is_uint64; lia). lia.
    + exists c. by rewrite lookup_app_l.
  - injection Eo as <-. unfold unsubscribe_locked. destruct (subscribers q !! id) as [r0|] eqn:Ei; [|done]. cbn.
    destruct Hw as [[id' Hid]|[H|H]]; [|right; by left|right; right; by apply elem_of_app; left].
    destruct (decide (id' = id)) as [->|Hne]; [|left; exists id'; by rewrite lookup_delete_ne].
    right. right. apply elem_of_app. right. rewrite Hid in Ei. injection Ei as ->. by left.
  - injection Eo as <-. cbn. right. destruct Hw as [[id Hid]|[H|H]]; [right; apply elem_of_app; right|by left|right; by apply elem_of_app; left].
    apply list_elem_of_fmap. exists (id, r). split; [done|]. by apply elem_of_map_to_list.
  - destruct (close_ok r' q Hok Hin) as (c & Hc & _ & E & _). rewrite E in Eo. injection Eo as <-. cbn.
    destruct (decide (r = r')) as [->|Hne]; [right; left; rewrite list_lookup_insert_eq by done; by eexists|].
    rewrite list_lookup_insert_ne by done. destruct Hw as [H|[H|H]]; [by left|right; by left|right; right]. by apply list_elem_of_filter.
  - injection Eo as <-. destruct (receive_ok r' p q q' Hok E) as (_ & c & rest & Hc & _ & ->). cbn.
    destruct Hw as [H|[(c' & Hc' & Hcl)|H]]; [by left|right; left|right; by right].
    destruct (decide (r = r')) as [->|Hne]; [rewrite list_lookup_insert_eq by done; eexists; split; [done|]; cbn; congruence|].
    exists c'. by rewrite list_lookup_insert_ne.
Qed.
Lemma run_length q es q2 : queue_ok q → run q es q2 → (length (chans q) ≤ length (chans q2))%nat.
Proof.
  intros Hok Hr. induction Hr as [|q e q1 es q2 Hs _ IH]; [done|]. pose proof (step_length q e q1 Hok Hs).
  destruct (queue_step_ok q e _ Hok Hs) as (? & [= <-] & Hok1). specialize (IH Hok1). lia.
Qed.
Lemma run_ids q es q2 : queue_ok q → ids_ok q → run q es q2 → ids_ok q2.
Proof.
  intros Hok Hi Hr. induction Hr as [|q e q1 es q2 Hs _ IH]; [done|]. destruct (queue_step_ok q e _ Hok Hs) as (? & [= <-] & Hok1).
  apply IH; [done|]. by apply (step_ids q e).
Qed.
Lemma run_ending q es q2 r : queue_ok q → ids_ok q → run q es q2 → Z.of_nat (length (chans q2)) < 2 ^ 64 → (r < length (chans q))%nat →
  subscribed q r ∨ ending q r → subscribed q2 r ∨ ending q2 r.
Proof.
  intros Hok Hi Hr Hlt. induction Hr as [|q e q1 es q2 Hs Hr IH]; [done|]. intros Hrl Hw. pose proof (step_length q e q1 Hok Hs) as Hl.
  pose proof (step_ids q e q1 Hok Hs Hi) as Hi1. destruct (queue_step_ok q e _ Hok Hs) as (? & [= <-] & Hok1).
  pose proof (run_length q1 es q2 Hok1 Hr). apply IH; [done|done|done|lia|]. apply (step_ending q e q1); try done. lia.
Qed.
(** The close that is on its way comes through. *)
Lemma ending_ends q r : queue_ok q → ending q r → closed_at q r ∨ ∃ q', step q Closed (Next q') ∧ closed_at q' r.
Proof.
  intros Hok [H|Hin]; [by left|right]. destruct (close_ok r q Hok Hin) as (c & Hc & _ & E & _). eexists. split; [rewrite <-E; by apply step_close|].
  eexists. cbn. rewrite list_lookup_insert_eq by by eapply lookup_lt_Some. done.
Qed.

(** ** The list the queue stands for *)

Inductive list_step : list queueItem → event → list queueItem → Prop :=
  | ls_append l retention now p : list_step l (Append p) (fresh (cutoff_of retention now) l ++ [mkItem now p])
  | ls_pop l retention now count :
      list_step l (Pop (payload <$> take count (fresh (cutoff_of retention now) l))) (drop count (fresh (cutoff_of retention now) l))
  | ls_clear l : list_step l Cleared []
  | ls_other l e : (∀ p, e ≠ Append p) → (∀ out, e ≠ Pop out) → e ≠ Cleared → list_step l e l.
Inductive list_run : list queueItem → list event → list queueItem → Prop :=
  | lr_nil l : list_run l [] l
  | lr_step l e l1 es l2 : list_step l e l1 → list_run l1 es l2 → list_run l (e :: es) l2.
Definition appended (es : list event) : list string := es ≫= (λ e, match e with Append p => [p] | _ => [] end).
Definition popped (es : list event) : list string := es ≫= (λ e, match e with Pop out => out | _ => [] end).

Lemma fresh_suffix cutoff l : ∃ l', l = l' ++ fresh cutoff l.
Proof.
  induction l as [|x l [l' IH]]; [by exists []|]. cbn. destruct (Before _ _); [exists (x :: l'); cbn; by rewrite <-IH|by exists []].
Qed.
Lemma fresh_sublist cutoff l : payload <$> fresh cutoff l `sublist_of` payload <$> l.
Proof. destruct (fresh_suffix cutoff l) as [l' E]. rewrite E at 2. rewrite fmap_app. by apply sublist_inserts_l. Qed.
Lemma list_step_sublist l e l1 : list_step l e l1 →
  popped [e] ++ (payload <$> l1) `sublist_of` (payload <$> l) ++ appended [e].
Proof.
  intros H. destruct H as [l ret now p|l ret now n|l|l e H1 H2 H3]; unfold popped, appended; cbn; rewrite ?app_nil_r.
  - rewrite fmap_app. apply sublist_app; [apply fresh_sublist|done].
  - rewrite <-fmap_app, take_drop. apply fresh_sublist.
  - apply sublist_nil_l.
  - destruct e; cbn; rewrite ?app_nil_r; try reflexivity; exfalso; naive_solver.
Qed.
Lemma list_run_sublist l es l2 : list_run l es l2 → popped es ++ (payload <$> l2) `sublist_of` (payload <$> l) ++ appended es.
Proof.
  intros H. induction H as [l|l e l1 es l2 Hs _ IH]; [cbn; by rewrite app_nil_r|]. apply list_step_sublist in Hs.
  unfold popped, appended in *. cbn [mbind list_bind] in *. rewrite !app_nil_r in Hs. rewrite <-app_assoc.
  etrans; [by apply sublist_app; [reflexivity|exact IH]|]. rewrite !app_assoc. by apply sublist_app.
Qed.
Lemma rest_contents q q' : rest_of q' = rest_of q → contents q' = contents q.
Proof. unfold rest_of, contents. by intros [= -> -> _ _ _]. Qed.
Lemma step_list q e q1 : queue_ok q → step q e (Next q1) → list_step (contents q) e (contents q1).
Proof.
  intros Hok Hs. remember (Next q1) as o eqn:Eo. destruct Hs as [q order p o HP ->|q ret now p|q ret now n out q' E|q ret now n E|q b i Hb|q id|q|q r' Hin|q r' p q' E].
  - destruct (publish_spec q order p Hok HP) as (q' & E & HQ). rewrite E in Eo. injection Eo as <-.
    cbn. rewrite (rest_contents q q') by apply HQ. by apply ls_other.
  - injection Eo as <-. rewrite enqueue_contents. apply ls_append.
  - injection Eo as <-. destruct (pop_spec ret now n q) as (q2 & E2 & Ec & _). rewrite E2 in E. injection E as <- <-. rewrite Ec. apply ls_pop.
  - done.
  - injection Eo as <-. by apply ls_other.
  - injection Eo as <-. unfold unsubscribe_locked. destruct (_ !! _); by apply ls_other.
  - injection Eo as <-. apply ls_clear.
  - destruct (close_ok r' q Hok Hin) as (c & _ & _ & E & _). rewrite E in Eo. injection Eo as <-. by apply ls_other.
  - injection Eo as <-. destruct (receive_ok r' p q q' Hok E) as (_ & c & rest & _ & _ & ->). by apply ls_other.
Qed.
Lemma run_list q es q2 : queue_ok q → run q es q2 → list_run (contents q) es (contents q2).
Proof.
  intros Hok Hr. induction Hr as [|q e q1 es q2 Hs _ IH]; [apply lr_nil|]. eapply lr_step; [by apply step_list|].
  apply IH. destruct (queue_step_ok q e _ Hok Hs) as (? & [= ->] & ?). done.
Qed.

(** ** Claims *)

(** C38: However publishers, poppers, subscribers, unsubscriptions and clearing interleave,
    no step of the queue panics: no channel is sent to after it was closed, none is closed twice,
    also where the close comes after the lock was given up, and no index leaves the slice.
    Whatever waits to be closed can be.  Memory stays bounded: the slice holds at most twice
    what is left in the queue, and no channel more than its buffer. *)
Theorem queue_never_panics es q : run empty_queue es q →
  (∀ e o, step q e o → o ≠ Panic)
  ∧ (∀ r, r ∈ closing q → ∃ q', step q Closed (Next q') ∧ length (closing q') = (length (closing q) - 1)%nat)
  ∧ (length (items q) ≤ 2 * length (contents q))%nat
  ∧ (∀ r c, chans q !! r = Some c → (length (pending c) ≤ room c)%nat).
Proof.
  intros Hr. assert (queue_ok q) as Hok by by apply (queue_run_ok _ _ _ empty_ok Hr). split_and!.
  - intros e o Hs. by destruct (queue_step_ok q e o Hok Hs) as (q' & -> & _).
  - intros r Hin. destruct (close_ok r q Hok Hin) as (c & _ & _ & E & _). eexists. split; [rewrite <-E; by apply step_close|]. cbn.
    destruct (ok_closing _ Hok) as [Hn _]. apply list_elem_of_split in Hin as (l1 & l2 & El). rewrite El in *.
    apply NoDup_app in Hn as (Hn1 & Hn2 & Hn3). apply NoDup_cons in Hn3 as [Hn3 _].
    rewrite filter_app, filter_cons_False by (intros H; by apply H).
    assert (∀ l : list nat, r ∉ l → filter (λ x, x ≠ r) l = l) as Hf.
    { induction l as [|x l IH]; [done|]. intros [Hne Hni]%not_elem_of_cons. rewrite filter_cons_True by done. by rewrite IH. }
    rewrite !Hf by (done || (intros H; apply (Hn2 r H); by left)). rewrite !length_app. cbn. lia.
  - apply slice_bounded, Hok.
  - apply Hok.
Qed.

(** C39: The queue is a list: whatever happens, appending drops what is too old at the front
    and adds at the end, popping gives the oldest that are not too old, and the compaction of
    the slice does not show.  So what is popped, followed by what is still there, is in the order
    in which it was appended, nothing twice.  A pop always returns, and an enqueued payload is at
    the end of the list if nobody was subscribed. *)
Theorem usage_queue_fifo es q : run empty_queue es q →
  list_run [] es (contents q)
  ∧ popped es ++ (payload <$> contents q) `sublist_of` appended es
  ∧ (∀ retention now count, ∃ q',
       popOldest retention now count q = Next (payload <$> take count (fresh (cutoff_of retention now) (contents q)), q')
       ∧ contents q' = drop count (fresh (cutoff_of retention now) (contents q)))
  ∧ ∀ g order now p, global g = q → enabled g = true → p ≠ "" → order ≡ₚ map_to_list (subscribers q) →
      ∃ g', Enqueue order now p g = Next g'
        ∧ contents (global g') = (if bool_decide (subscribers q = ∅)
                                  then fresh (cutoff_of (retentionSeconds g) now) (contents q) ++ [mkItem now p] else contents q).
Proof.
  intros Hr. assert (queue_ok q) as Hok by by apply (queue_run_ok _ _ _ empty_ok Hr).
  pose proof (run_list _ _ _ empty_ok Hr) as Hl. split_and!.
  - exact Hl.
  - by apply list_run_sublist in Hl.
  - intros ret now n. destruct (pop_spec ret now n q) as (q' & E & Ec & _). by exists q'.
  - intros g order now p <- He Hp HP. destruct (publish_spec _ order p Hok HP) as (q' & E & HQ). unfold Enqueue. rewrite He.
    cbn [negb]. destruct (Nat.eqb_spec (String.length p) 0) as [H0|_]; [by destruct p|]. rewrite E. cbn. eexists. split; [done|].
    pose proof (rest_contents _ _ (pub_rest _ _ _ _ HQ)) as Ec. case_bool_decide; cbn; [by rewrite enqueue_contents, Ec|done].
Qed.

(** C37: A subscriber sees every payload published since it subscribed, in order and each
    once: what it received, followed by what its channel holds, is the initial payload and then a
    prefix of what was published, and all of it as long as it is subscribed.  A subscriber that
    cannot follow is not skipped: it is unsubscribed and sees the end.  For whoever is not
    subscribed any more, by a full channel, by its own [unsubscribe] or by [clear], the channel
    is closed, or the close that follows without the lock is pending, can be made and closes it;
    no payload is added to it any more.  (Ids are reused only after 2^64 subscriptions.) *)
Theorem subscriber_no_gap before q buffer initial es q' :
  run empty_queue before q → (0 < buffer)%nat →
  let '(r, _, q1) := subscribe buffer initial q in
  run q1 es q' → Z.of_nat (length (chans q')) < 2 ^ 64 →
  ∃ k, received r es ++ pend q' r = (if Nat.ltb 0 (String.length initial) then [initial] else []) ++ take k (publishes es)
    ∧ (subscribed q' r → k = length (publishes es) ∧ open_at q' r)
    ∧ (¬ subscribed q' r →
        (closed_at q' r ∨ ∃ q'', step q' Closed (Next q'') ∧ closed_at q'' r)
        ∧ ∀ es' q'', run q' es' q'' → received r es' ++ pend q'' r = pend q' r).
Proof.
  intros Hr Hb. pose proof (queue_run_ok _ _ _ empty_ok Hr) as Hok. pose proof (subscribe_ok buffer initial q Hb Hok) as Hok1.
  assert (ids_ok (subscribe buffer initial q).2) as Hi1.
  { eapply step_ids; [exact Hok|by apply step_subscribe|]. apply (run_ids _ _ _ empty_ok) in Hr; [done|]. intros _. split; [done|]. intros ?? H. done. }
  assert (subscribed (subscribe buffer initial q).2 (length (chans q))) as Hs1.
  { apply subscribed_iff. eexists. unfold subscribe. cbn. apply lookup_insert_eq. }
  unfold subscribe in *. cbn [snd] in Hok1, Hi1, Hs1. set (q1 := _ <| subscribers := _ |>) in *. intros Hrun Hids.
  assert (length (chans q) < length (chans q1))%nat as Hlt by (subst q1; cbn; rewrite length_app; cbn; lia).
  destruct (run_link q1 es q' _ Hok1 Hrun Hlt) as (k & Hk & _ & Hall). pose proof (queue_run_ok _ _ _ Hok1 Hrun) as Hok'.
  exists k. split; [|split].
  - rewrite Hk. f_equal. subst q1. unfold pend. cbn. by rewrite lookup_app_r, Nat.sub_diag by lia.
  - intros Hsub. split; [by apply Hall|]. apply subscribed_iff in Hsub as [id Hid]. by apply (ok_open _ Hok' id).
  - intros Hn. split.
    { apply ending_ends; [done|]. destruct (run_ending q1 es q' (length (chans q)) Hok1 Hi1 Hrun Hids Hlt (or_introl Hs1)); [done|done]. }
    intros es' q'' Hrun'. pose proof (run_length _ _ _ Hok1 Hrun) as Hl.
    destruct (run_link q' es' q'' (length (chans q)) Hok' Hrun' ltac:(lia)) as (k' & Hk' & H0 & _). destruct (H0 Hn) as [-> _].
    by rewrite take_0, app_nil_r in Hk'.
Qed.

(** ** Witnesses *)

Definition publish_now (p : string) (q : queue) : queue :=
  match publishToSubscribers (map_to_list (subscribers q)) p q with Next (q', _) => q' | Panic => q end.
Lemma publish_now_step p q : queue_ok q → step q (Publish p) (Next (publish_now p q)).
Proof.
  intros Hok. destruct (publish_spec q _ p Hok (Permutation_refl _)) as (q' & E & _).
  pose proof (step_publish q _ p _ (Permutation_refl _) eq_refl) as H. unfold publish_now. rewrite E in *. exact H.
Qed.
(** A subscriber that comes, and one payload more than it has room for. *)
Definition joined : queue := (subscribe 1 "" empty_queue).2.
Definition flooded : queue := publish_now "b" (publish_now "a" joined).
Lemma joined_ok : queue_ok joined.
Proof. apply subscribe_ok; [lia|apply empty_ok]. Qed.
Lemma flooded_run : run joined [Publish "a"; Publish "b"] flooded.
Proof.
  pose proof (publish_now_step "a" joined joined_ok) as H1. destruct (queue_step_ok _ _ _ joined_ok H1) as (? & [= <-] & Hok).
  eapply run_step; [exact H1|]. eapply run_step; [by apply publish_now_step|]. apply run_nil.
Qed.
(** Two payloads, a second apart; the first is too old a minute after. *)
Definition two_waiting : queue := enqueue 60 (2 * Second) "y" (enqueue 60 Second "x" empty_queue).
Lemma two_run : run empty_queue [Append "x"; Append "y"] two_waiting.
Proof. eapply run_step; [apply step_append|]. eapply run_step; [apply step_append|]. apply run_nil. Qed.

Lemma queue_never_panics_witness :
  run empty_queue [Subscribed 0 ""; Publish "a"; Publish "b"] flooded ∧ (∀ e o, step flooded e o → o ≠ Panic).
Proof.
  assert (run empty_queue [Subscribed 0 ""; Publish "a"; Publish "b"] flooded) as H.
  { eapply run_step; [|apply flooded_run]. apply (step_subscribe empty_queue 1 ""). lia. }
  split; [exact H|]. exact (proj1 (queue_never_panics _ _ H)).
Defined.
Lemma usage_queue_fifo_witness :
  popOldest 60 (61 * Second) 5 two_waiting = Next (["x"; "y"], empty_queue)
  ∧ (∃ q', popOldest 60 (61 * Second + 1) 5 two_waiting = Next (["y"], q') ∧ contents q' = []).
Proof.
  split; [by vm_compute|]. exact (proj1 (proj2 (proj2 (usage_queue_fifo _ _ two_run))) 60 (61 * Second + 1) 5%nat).
Defined.
Lemma subscriber_no_gap_witness :
  pend flooded 0 = ["a"] ∧ (closed_at flooded 0 ∨ ∃ q'', step flooded Closed (Next q'') ∧ closed_at q'' 0)
  ∧ ∀ es' q'', run flooded es' q'' → received 0 es' ++ pend q'' 0 = ["a"].
Proof.
  split; [by vm_compute|].
  pose proof (subscriber_no_gap [] empty_queue 1 "" [Publish "a"; Publish "b"] flooded (run_nil _) ltac:(lia)) as H.
  cbv beta iota delta [subscribe] in H. specialize (H flooded_run ltac:(vm_compute; reflexivity)). destruct H as (k & Hk & Hall & Hend).
  assert (¬ subscribed flooded 0) as Hn.
  { intros [id Hid]%subscribed_iff. assert (subscribers flooded = ∅) as E by (vm_compute; reflexivity). rewrite E, lookup_empty in Hid. discriminate. }
  destruct (Hend Hn) as [Hclosed Hrest]. split; [exact Hclosed|].
  intros es' q'' Hrun. etransitivity; [exact (Hrest es' q'' Hrun)|by vm_compute].
Defined.
