(* ===== verification/UsageManager.v ===== *)
(** * Delivering usage records to plugins

    Models the manager of [sdk/cliproxy/usage/manager.go]: publishers complete a record from
    their context and append it to a queue; one worker takes records off it and hands each to
    every plugin registered at that moment.

    What runs under a mutex is one step.  [Signal] and [Broadcast] come after the mutex was
    given up: until then they are counted in [wakeups]; a worker inside [Wait] is [Waiting] and
    goes on only when woken.  A plugin that panics is recovered from: a call is one step either
    way, and calls are taken to return. *)
From Stdlib Require Import ZArith Lia String Bool.
From stdpp Require Import prelude gmap strings.
From S2P Require Import Prelude GoStd TokenAccounting.
Local Open Scope string_scope.
Local Open Scope list_scope.
Local Open Scope nat_scope.

(** ** Records and contexts *)

(** The fields that publishing reads or completes; the others travel as they are, in [other]. *)
Record Record_ := mkRecord {
  RequestID : string; TraceID : string; Provider : string; ExecutorType : string; APIKey : string; IsNativeKey : bool;
  AccessProvider : string; R_Detail : Detail; other : gmap string string }.
#[export] Instance Record_eta : Eta Record_ := λ r,
  mkRecord (RequestID r) (TraceID r) (Provider r) (ExecutorType r) (APIKey r) (IsNativeKey r) (AccessProvider r) (R_Detail r) (other r).
(** The values a context carries under the keys of this package; [gin] what a request handler
    has set, as text, [logged] the request id of the logging package. *)
Record context := mkContext {
  executionRequestID : option string; executionTraceID : option string; apiKey : option string; accessProvider : option string;
  isNativeKey : option bool; gin : option (gmap string string); logged : string }.
#[export] Instance context_eta : Eta context := λ c,
  mkContext (executionRequestID c) (executionTraceID c) (apiKey c) (accessProvider c) (isNativeKey c) (gin c) (logged c).
Definition Background : context := mkContext None None None None None None "".

Definition WithExecutionRequestID (c : context) (requestID : string) : context := c <| executionRequestID := Some (TrimSpace requestID) |>.
Definition ExecutionRequestIDFromContext (c : context) : string := default "" (executionRequestID c).
Definition WithTraceID (c : context) (traceID : string) : context := c <| executionTraceID := Some (TrimSpace traceID) |>.
Definition TraceIDFromContext (c : context) : string := default "" (executionTraceID c).
Definition WithAccessProvider (c : context) (provider : string) : context :=
  if String.eqb (TrimSpace provider) "" then c else c <| accessProvider := Some (TrimSpace provider) |>.
Definition WithAPIKey (c : context) (key : string) : context :=
  if String.eqb (TrimSpace key) "" then c else c <| apiKey := Some (TrimSpace key) |>.
Definition WithIsNativeKey (c : context) (isNative : bool) : context := c <| isNativeKey := Some isNative |>.
(** The value of this package's key if there is one, else what the request handler knows. *)
Definition from_context (own : option string) (gin : option (gmap string string)) (key : string) : string :=
  match own with
  | Some value => TrimSpace value
  | None => match gin ≫= (.!! key) with Some v => TrimSpace v | None => "" end
  end.
Definition APIKeyFromContext (c : context) : string := from_context (apiKey c) (gin c) "userApiKey".
Definition AccessProviderFromContext (c : context) : string := from_context (accessProvider c) (gin c) "accessProvider".
Definition IsNativeKeyFromContext (c : context) : bool * bool :=
  match isNativeKey c with Some value => (value, true) | None => (false, false) end.
Definition IsNativeAccessProvider (provider : string) : bool :=
  let p := TrimSpace provider in EqualFold p "config-inline" || EqualFold p "config-api-key".
Definition blank (s : string) : bool := String.eqb (TrimSpace s) "".

(** The first half of [Publish]; [uuid] is the identifier it would draw. *)
Definition complete_record (c : context) (uuid : string) (r : Record_) : Record_ :=
  let r := if blank (RequestID r) then
             r <| RequestID := if String.eqb (ExecutionRequestIDFromContext c) "" then uuid else ExecutionRequestIDFromContext c |> else r in
  let r := if blank (TraceID r) then
             if negb (String.eqb (TraceIDFromContext c) "") then r <| TraceID := TraceIDFromContext c |>
             else if negb (String.eqb (logged c) "") then r <| TraceID := logged c |> else r
           else r in
  let r := if blank (APIKey r) && negb (String.eqb (APIKeyFromContext c) "") then r <| APIKey := APIKeyFromContext c |> else r in
  let r := if blank (AccessProvider r) && negb (String.eqb (AccessProviderFromContext c) "")
           then r <| AccessProvider := AccessProviderFromContext c |> else r in
  if IsNativeKey r then r else
  let '(nativeExplicit, ok) := IsNativeKeyFromContext c in
  if ok then r <| IsNativeKey := nativeExplicit |>
  else if negb (String.eqb (AccessProvider r) "") then r <| IsNativeKey := IsNativeAccessProvider (AccessProvider r) |> else r.

(** ** The manager *)

Record queueItem := mkQueueItem { q_ctx : context; q_record : Record_ }.
Inductive worker := NotStarted | Checking | Waiting | Dispatching (i : queueItem) | Calling (i : queueItem) (rest : list (option nat)) | Gone.
(** A plugin is a number, [nil] is [None].  [calls] is what plugins were told, in order. *)
Record Manager := mkManager {
  m_queue : list queueItem; m_closed : bool; plugins : list (option nat); named : gmap string nat;
  m_worker : worker; wakeups : nat; calls : list (nat * queueItem) }.
#[export] Instance Manager_eta : Eta Manager := λ m,
  mkManager (m_queue m) (m_closed m) (plugins m) (named m) (m_worker m) (wakeups m) (calls m).
Definition NewManager : Manager := mkManager [] false [] ∅ NotStarted 0 [].

Definition Start (m : Manager) : Manager := match m_worker m with NotStarted => m <| m_worker := Checking |> | _ => m end.
Definition Register (p : option nat) (m : Manager) : Manager :=
  match p with None => m | Some _ => m <| plugins := plugins m ++ [p] |> end.
Definition RegisterNamed (name : string) (p : option nat) (m : Manager) : Manager :=
  match p with
  | None => m
  | Some _ =>
      let name := TrimSpace name in
      if String.eqb name "" then m else
      match named m !! name with
      | Some index => if Nat.ltb index (length (plugins m)) then m <| plugins := <[index := p]> (plugins m) |>
                      else m <| named := <[name := length (plugins m)]> (named m) |> <| plugins := plugins m ++ [p] |>
      | None => m <| named := <[name := length (plugins m)]> (named m) |> <| plugins := plugins m ++ [p] |>
      end
  end.
(** The locked part of [Publish], after it has called [Start]; and of [Stop]. *)
Definition append_locked (i : queueItem) (m : Manager) : Manager :=
  if m_closed m then m else m <| m_queue := m_queue m ++ [i] |> <| wakeups := S (wakeups m) |>.
Definition close_locked (m : Manager) : Manager := m <| m_closed := true |> <| wakeups := S (wakeups m) |>.
(** [Signal] or [Broadcast]: there is one worker to wake. *)
Definition wake (m : Manager) : Manager :=
  m <| wakeups := pred (wakeups m) |> <| m_worker := match m_worker m with Waiting => Checking | w => w end |>.
(** The loop of [run], up to the next point where it gives up or takes a lock or calls. *)
Definition worker_step (m : Manager) : option Manager :=
  match m_worker m with
  | Checking =>
      Some match m_queue m with
           | [] => m <| m_worker := if m_closed m then Gone else Waiting |>
           | i :: rest => m <| m_queue := rest |> <| m_worker := Dispatching i |>
           end
  | Dispatching i => Some (m <| m_worker := Calling i (plugins m) |>)
  | Calling i (Some p :: rest) => Some (m <| calls := calls m ++ [(p, i)] |> <| m_worker := Calling i rest |>)
  | Calling i (None :: rest) => Some (m <| m_worker := Calling i rest |>)
  | Calling i [] => Some (m <| m_worker := Checking |>)
  | NotStarted | Waiting | Gone => None
  end.

(** What others do, and what the manager does by itself. *)
Inductive event := Started | Published (i : queueItem) | Stopped | Registered | Woke | Worked.
Inductive step : Manager → event → Manager → Prop :=
  | step_start m : step m Started (Start m)
  | step_publish m c uuid r : m_worker m ≠ NotStarted →
      step m (Published (mkQueueItem c (complete_record c uuid r))) (append_locked (mkQueueItem c (complete_record c uuid r)) m)
  | step_stop m : m_closed m = false → step m Stopped (close_locked m)
  | step_register m p : step m Registered (Register p m)
  | step_register_named m name p : step m Registered (RegisterNamed name p m)
  | step_wake m : wakeups m ≠ 0 → step m Woke (wake m)
  | step_work m m' : worker_step m = Some m' → step m Worked m'.
Inductive run : Manager → list (Manager * event) → Manager → Prop :=
  | run_nil m : run m [] m
  | run_cons m e m1 es m2 : step m e m1 → run m1 es m2 → run m ((m, e) :: es) m2.
Definition own_step (m m' : Manager) : Prop := step m Woke m' ∨ step m Worked m'.

(** ** What was accepted, taken and told *)

Definition accepted_by (x : Manager * event) : list queueItem :=
  match x with (m, Published i) => if m_closed m then [] else [i] | _ => [] end.
Definition taken_by (x : Manager * event) : list queueItem :=
  match x with (m, Worked) => match m_worker m, m_queue m with Checking, i :: _ => [i] | _, _ => [] end | _ => [] end.
(** A dispatch with the plugins it copied. *)
Definition snapshot_by (x : Manager * event) : list (queueItem * list (option nat)) :=
  match x with (m, Worked) => match m_worker m with Dispatching i => [(i, plugins m)] | _ => [] end | _ => [] end.
Definition accepted (es : list (Manager * event)) : list queueItem := es ≫= accepted_by.
Definition taken (es : list (Manager * event)) : list queueItem := es ≫= taken_by.
Definition snapshots (es : list (Manager * event)) : list (queueItem * list (option nat)) := es ≫= snapshot_by.
(** The calls of a dispatch: every plugin that is one, in the order of registration. *)
Definition calls_of (x : queueItem * list (option nat)) : list (nat * queueItem) := omap (λ p, (λ p, (p, x.1)) <$> p) x.2.
Definition in_dispatch (w : worker) : list queueItem := match w with Dispatching i => [i] | _ => [] end.
Definition to_call (w : worker) : list (nat * queueItem) := match w with Calling i rest => calls_of (i, rest) | _ => [] end.

(** ** The invariant *)

Record manager_ok (m : Manager) : Prop := {
  ok_waiting : m_worker m = Waiting → m_queue m = [] ∧ m_closed m = false ∨ wakeups m ≠ 0;
  ok_gone : m_worker m = Gone → m_queue m = [] ∧ m_closed m = true;
  ok_started : m_worker m = NotStarted → m_queue m = [];
  ok_named : ∀ name k, named m !! name = Some k → k < length (plugins m) }.

Lemma step_manager_ok m e m' : manager_ok m → step m e m' → manager_ok m'.
Proof.
  intros [Hw Hg Hs Hn] H. destruct H as [m|m c uuid r Hst|m Hc|m p|m name p|m Hk|m m' H].
  - unfold Start. destruct (m_worker m) eqn:E; (split; cbn; rewrite ?E; auto; done).
  - unfold append_locked. set (i := mkQueueItem _ _). destruct (m_closed m) eqn:E; [by split; rewrite ?E|]. split; cbn; auto.
    + intros H. by destruct (Hg H).
    + done.
  - split; cbn; auto. intros H. split; [by apply Hg|done].
  - destruct p; cbn; [|by split]. split; cbn; auto. intros name k H. rewrite length_app. apply Hn in H. lia.
  - assert (∀ p, manager_ok (m <| named := <[TrimSpace name := length (plugins m)]> (named m) |> <| plugins := plugins m ++ [p] |>)) as Hadd.
    { intros p'. split; cbn; auto. intros n k H. rewrite length_app. cbn. apply lookup_insert_Some in H as [[_ <-]|[_ H]]; [lia|].
      apply Hn in H. lia. }
    unfold RegisterNamed. destruct p as [p|]; [|by split]. destruct (String.eqb _ _); [by split|].
    destruct (named m !! TrimSpace name) as [k|] eqn:E; [|by apply Hadd]. destruct (Nat.ltb _ _); [|by apply Hadd].
    split; cbn; auto. intros n k' H. rewrite length_insert. by apply Hn in H.
  - unfold wake. destruct (m_worker m) eqn:E; (split; cbn; auto; done).
  - unfold worker_step in H. destruct (m_worker m) as [| | |i|i [|[p|] rest]|] eqn:E; try done; injection H as <-; try by (split; cbn; auto; done).
    destruct (m_queue m) as [|i rest] eqn:Eq; [|by (split; cbn; auto; done)].
    split; cbn; auto; destruct (m_closed m) eqn:Ec; auto; done.
Qed.
Lemma manager_run_ok m es m' : manager_ok m → run m es m' → manager_ok m'.
Proof. intros Hok Hr. induction Hr as [|m e m1 es m2 Hs _ IH]; [done|]. apply IH. by eapply step_manager_ok. Qed.
Lemma new_ok : manager_ok NewManager.
Proof. by split. Qed.

(** ** In order, each to every plugin *)

Lemma step_taken m e m' : step m e m' → m_queue m ++ accepted_by (m, e) = taken_by (m, e) ++ m_queue m'.
Proof.
  intros H. destruct H as [m|m c uuid r Hst|m Hc|m p|m name p|m Hk|m m' H]; cbn; rewrite ?app_nil_r; try done.
  - unfold Start. by destruct (m_worker m).
  - unfold append_locked. destruct (m_closed m); cbn; by rewrite ?app_nil_r.
  - by destruct p.
  - unfold RegisterNamed. by repeat case_match.
  - unfold worker_step in H. destruct (m_worker m) as [| | |i|i [|[p|] rest]|]; try done; injection H as <-; try done. by destruct (m_queue m).
Qed.
Lemma step_snapshots m e m' : step m e m' → in_dispatch (m_worker m) ++ taken_by (m, e) = (snapshot_by (m, e)).*1 ++ in_dispatch (m_worker m').
Proof.
  intros H. destruct H as [m|m c uuid r Hst|m Hc|m p|m name p|m Hk|m m' H]; cbn; rewrite ?app_nil_r; try done.
  - unfold Start. by destruct (m_worker m) eqn:E; rewrite ?E.
  - unfold append_locked. by destruct (m_closed m).
  - by destruct p.
  - unfold RegisterNamed. by repeat case_match.
  - by destruct (m_worker m).
  - unfold worker_step in H. destruct (m_worker m) as [| | |i|i [|[p|] rest]|]; try done; injection H as <-; try done.
    destruct (m_queue m); cbn; [by destruct (m_closed m)|done].
Qed.
Lemma step_calls m e m' : step m e m' → calls m ++ to_call (m_worker m) ++ (snapshot_by (m, e) ≫= calls_of) = calls m' ++ to_call (m_worker m').
Proof.
  intros H. destruct H as [m|m c uuid r Hst|m Hc|m p|m name p|m Hk|m m' H]; cbn; rewrite ?app_nil_r; try done.
  - unfold Start. by destruct (m_worker m) eqn:E; cbn; rewrite ?E.
  - unfold append_locked. by destruct (m_closed m).
  - by destruct p.
  - unfold RegisterNamed. by repeat case_match.
  - by destruct (m_worker m).
  - unfold worker_step in H. destruct (m_worker m) as [| | |i|i [|[p|] rest]|]; try done; injection H as <-; cbn; rewrite ?app_nil_r; try done.
    + by destruct (m_queue m); cbn; [destruct (m_closed m)|]; rewrite ?app_nil_r.
    + by rewrite <-app_assoc.
Qed.
Lemma run_order m es m' : run m es m' →
  m_queue m ++ accepted es = taken es ++ m_queue m'
  ∧ in_dispatch (m_worker m) ++ taken es = (snapshots es).*1 ++ in_dispatch (m_worker m')
  ∧ calls m ++ to_call (m_worker m) ++ (snapshots es ≫= calls_of) = calls m' ++ to_call (m_worker m').
Proof.
  intros Hr. induction Hr as [|m e m1 es m2 Hs _ (IH1 & IH2 & IH3)]; [cbn; by rewrite !app_nil_r|].
  apply step_taken in Hs as H1. apply step_snapshots in Hs as H2. apply step_calls in Hs as H3.
  unfold accepted, taken, snapshots in *. cbn [mbind list_bind] in *. rewrite fmap_app, bind_app. split_and!.
  - by rewrite app_assoc, H1, <-!app_assoc, IH1.
  - by rewrite app_assoc, H2, <-!app_assoc, IH2.
  - by rewrite !app_assoc, <-(app_assoc (calls m)), H3, <-!app_assoc, IH3.
Qed.

(** A plugin registered without a name keeps its place. *)
Definition at_place (k : nat) (p : option nat) (m : Manager) : Prop := plugins m !! k = Some p ∧ ∀ name, named m !! name ≠ Some k.
Lemma step_place k p m e m' : step m e m' → at_place k p m → at_place k p m'.
Proof.
  intros H [Hp Hn]. assert (k < length (plugins m)) as Hk by by eapply lookup_lt_Some.
  destruct H as [m|m c uuid r Hst|m Hc|m p'|m name p'|m Hw|m m' H]; try by split.
  - unfold Start. by destruct (m_worker m).
  - unfold append_locked. by destruct (m_closed m).
  - destruct p'; [|by split]. split; [|done]. cbn. by rewrite lookup_app_l.
  - assert (∀ p', at_place k p (m <| named := <[TrimSpace name := length (plugins m)]> (named m) |> <| plugins := plugins m ++ [p'] |>)) as Hadd.
    { intros q. split; cbn; [by rewrite lookup_app_l|]. intros n H. apply lookup_insert_Some in H as [[_ H]|[_ H]]; [lia|by apply (Hn n)]. }
    unfold RegisterNamed. destruct p' as [p'|]; [|by split]. destruct (String.eqb _ _); [by split|].
    destruct (named m !! TrimSpace name) as [j|] eqn:E; [|by apply Hadd]. destruct (Nat.ltb _ _); [|by apply Hadd].
    split; [|done]. cbn. rewrite list_lookup_insert_ne; [done|]. intros ->. by apply (Hn (TrimSpace name)).
  - unfold worker_step in H. destruct (m_worker m) as [| | |i|i [|[q|] rest]|]; try done; injection H as <-; try by split.
    by destruct (m_queue m).
Qed.
Lemma run_place k p m es m' : run m es m' → at_place k p m → Forall (λ x, x.2 !! k = Some p) (snapshots es).
Proof.
  intros Hr. induction Hr as [|m e m1 es m2 Hs _ IH]; intros Hp; [done|]. unfold snapshots. cbn [mbind list_bind]. apply Forall_app. split.
  - destruct e; try done. cbn. destruct (m_worker m); try done. apply Forall_singleton, Hp.
  - apply IH. by eapply step_place.
Qed.
Lemma run_place_end k p m es m' : run m es m' → at_place k p m → at_place k p m'.
Proof. intros Hr. induction Hr as [|m e m1 es m2 Hs _ IH]; intros Hp; [done|]. apply IH. by eapply step_place. Qed.
(** Whoever has a place is told. *)
Lemma place_told k p l : Forall (λ x : queueItem * list (option nat), x.2 !! k = Some (Some p)) l → l.*1 `sublist_of` (filter (λ c, c.1 = p) (l ≫= calls_of)).*2.
Proof.
  induction l as [|[i ps] l IH]; intros H; [done|]. apply Forall_cons in H as [H Hl]. cbn [mbind list_bind fmap list_fmap fst].
  rewrite filter_app, fmap_app. change (i :: l.*1) with ([i] ++ l.*1). apply sublist_app; [|by apply IH].
  unfold calls_of. cbn in *. apply list_elem_of_split_length in H as (l1 & l2 & -> & _).
  rewrite omap_app. cbn. rewrite filter_app, filter_cons_True, fmap_app by done. cbn. apply sublist_inserts_l. by apply sublist_skip, sublist_nil_l.
Qed.

(** ** The manager comes to rest *)

Definition weight (n : nat) (w : worker) : nat :=
  match w with Checking => 1 | Dispatching _ => n + 3 | Calling _ rest => length rest + 2 | _ => 0 end.
Definition work_left (m : Manager) : nat :=
  2 * wakeups m + length (m_queue m) * (length (plugins m) + 4) + weight (length (plugins m)) (m_worker m).
Lemma own_step_decreases m m' : own_step m m' → work_left m' < work_left m.
Proof.
  unfold work_left. intros [H|H]; inversion H as [| | | | |? Hk|? ? Hw]; subst.
  - unfold wake. cbn. destruct (m_worker m); cbn; lia.
  - unfold worker_step in Hw. destruct (m_worker m) as [| | |i|i [|[p|] rest]|]; try done; injection Hw as <-; cbn; try lia.
    destruct (m_queue m) as [|i rest]; cbn; [destruct (m_closed m); cbn; lia|]. lia.
Qed.
Definition at_rest (m : Manager) : Prop := ∀ m', ¬ own_step m m'.
Lemma at_rest_spec m : manager_ok m → at_rest m → m_queue m = [] ∧ in_dispatch (m_worker m) = [] ∧ to_call (m_worker m) = []
  ∧ (m_closed m = true → m_worker m = NotStarted ∨ m_worker m = Gone) ∧ (m_worker m = Gone → m_closed m = true).
Proof.
  intros [Hw Hg Hs _] Hr. assert (wakeups m = 0) as Hk.
  { destruct (decide (wakeups m = 0)) as [|Hne]; [done|]. exfalso. apply (Hr (wake m)). left. by constructor. }
  assert (worker_step m = None) as Hn.
  { destruct (worker_step m) as [m'|] eqn:E; [|done]. exfalso. apply (Hr m'). right. by constructor. }
  unfold worker_step in Hn. destruct (m_worker m) as [| | |i|i [|[p|] rest]|] eqn:E; try done; cbn.
  - split_and!; auto; done.
  - destruct (Hw eq_refl) as [[H1 H2]|H]; [|done]. split_and!; auto; congruence.
  - destruct (Hg eq_refl). split_and!; auto; done.
Qed.

(** ** Claims *)

(** C40: A record that the manager accepted is delivered.  From any state the manager comes
    to rest by itself, after a number of steps of its own that is bounded in advance, and no wakeup is
    lost: where it rests, the queue is empty, nothing is in delivery, and after a stop the worker
    has gone.  By then every plugin that was registered without a name before, has been told
    every record accepted since, in the order in which they were accepted. *)
Theorem usage_delivered before m k p es m' :
  run NewManager before m → at_place k (Some p) m → run m es m' →
  (∀ n m1, nsteps own_step n m' m1 → n + work_left m1 ≤ work_left m')
  ∧ (at_rest m' →
       m_queue m' = [] ∧ (m_worker m' = NotStarted ∨ m_worker m' = Waiting ∨ m_worker m' = Gone)
       ∧ (m_closed m' = true → m_worker m' = NotStarted ∨ m_worker m' = Gone)
       ∧ accepted es `sublist_of` (filter (λ c, c.1 = p) (drop (length (calls m)) (calls m'))).*2).
Proof.
  intros Hb Hp Hr. pose proof (manager_run_ok _ _ _ (manager_run_ok _ _ _ new_ok Hb) Hr) as Hok. split.
  - intros n m1 Hn. remember (m' : Manager) as m0 eqn:E0. clear - Hn. induction Hn as [|n x y z H _ IH]; [lia|].
    apply own_step_decreases in H. lia.
  - intros Hrest. destruct (at_rest_spec m' Hok Hrest) as (Hq & Hd & Hc & Hcl & _). split; [done|]. split; [|split; [done|]].
    { destruct (m_worker m') as [| | |i|i rest|] eqn:E; auto; [|done|].
      - exfalso. apply (Hrest (default m' (worker_step m'))). right. constructor. unfold worker_step. by rewrite E.
      - exfalso. apply (Hrest (default m' (worker_step m'))). right. constructor. unfold worker_step. rewrite E. by destruct rest as [|[]]. }
    destruct (run_order _ _ _ Hr) as (H1 & H2 & H3). rewrite Hq, Hd, Hc, !app_nil_r in *.
    rewrite <-H3, drop_app_length, filter_app, fmap_app. apply sublist_inserts_l.
    etrans; [|apply (place_told k), (run_place k _ m es m' Hr Hp)]. rewrite <-H2, <-H1. by do 2 apply sublist_inserts_l.
Qed.

(** Nothing is lost, doubled or reordered on the way: at any time the accepted records are
    those taken, in order, then those in the queue; the taken ones are those dispatched and at most
    one more; and plugins are told exactly the dispatched records in that order, each to the
    plugins there were at that moment in the order of their registration. *)
Theorem usage_in_order es m : run NewManager es m →
  accepted es = taken es ++ m_queue m
  ∧ taken es = (snapshots es).*1 ++ in_dispatch (m_worker m)
  ∧ snapshots es ≫= calls_of = calls m ++ to_call (m_worker m).
Proof. intros Hr. by destruct (run_order _ _ _ Hr) as (H1 & H2 & H3). Qed.

(** ** Witnesses *)

Definition some_record (id : string) : Record_ :=
  mkRecord "" "" "openai" "" "" false "" reported {["id" := id]}.
Definition some_item (id : string) : queueItem := mkQueueItem Background (complete_record Background id (some_record id)).
(** A plugin, a record, a stop before the worker has looked, and the worker's way to the end. *)
Definition m1 : Manager := Register (Some 7) NewManager.
Definition m2 : Manager := Start m1.
Definition m3 : Manager := append_locked (some_item "a") m2.
Definition m4 : Manager := close_locked m3.
Fixpoint settle (n : nat) (m : Manager) : list (Manager * event) * Manager :=
  match n with
  | 0 => ([], m)
  | S n =>
      match wakeups m with
      | S _ => let '(es, m') := settle n (wake m) in ((m, Woke) :: es, m')
      | 0 => match worker_step m with Some m1 => let '(es, m') := settle n m1 in ((m, Worked) :: es, m') | None => ([], m) end
      end
  end.
Lemma settle_run n : ∀ m, run m (settle n m).1 (settle n m).2.
Proof.
  induction n as [|n IH]; intros m; cbn; [apply run_nil|]. destruct (wakeups m) eqn:E.
  - destruct (worker_step m) as [m0|] eqn:Ew; [|apply run_nil]. specialize (IH m0). destruct (settle n m0).
    eapply run_cons; [by constructor|done].
  - specialize (IH (wake m)). destruct (settle n (wake m)). eapply run_cons; [apply step_wake; lia|done].
Qed.
Definition m5 : Manager := (settle 20 m4).2.
Lemma m5_run : run m1 ((m1, Started) :: (m2, Published (some_item "a")) :: (m3, Stopped) :: (settle 20 m4).1) m5.
Proof.
  eapply run_cons; [apply step_start|]. eapply run_cons; [by apply (step_publish m2 Background "a" (some_record "a"))|].
  eapply run_cons; [by apply step_stop|]. apply settle_run.
Qed.
Lemma m5_rest : at_rest m5.
Proof.
  intros m' [H|H]; inversion H as [| | | | |? Hk|? ? Hw]; subst; [apply Hk; by vm_compute|].
  by vm_compute in Hw.
Qed.
Lemma usage_delivered_witness :
  m_closed m5 = true ∧ m_queue m5 = [] ∧ [some_item "a"] `sublist_of` (filter (λ c, c.1 = 7) (drop 0 (calls m5))).*2.
Proof.
  assert (run NewManager [(NewManager, Registered)] m1) as H1.
  { eapply run_cons; [apply (step_register NewManager (Some 7))|apply run_nil]. }
  assert (at_place 0 (Some 7) m1) as H2 by (split; [done|intros name H; cbn in H; by rewrite lookup_empty in H]).
  destruct (usage_delivered _ m1 0 7 _ m5 H1 H2 m5_run) as [_ H]. destruct (H m5_rest) as (Hq & _ & _ & Hs).
  split; [by vm_compute|]. split; [exact Hq|exact Hs].
Defined.
Lemma usage_in_order_witness :
  accepted ((NewManager, Registered) :: (m1, Started) :: (m2, Published (some_item "a")) :: (m3, Stopped) :: (settle 20 m4).1) = [some_item "a"]
  ∧ calls m5 ++ to_call (m_worker m5) = [(7, some_item "a")].
Proof.
  assert (run NewManager ((NewManager, Registered) :: (m1, Started) :: (m2, Published (some_item "a")) :: (m3, Stopped) :: (settle 20 m4).1) m5) as Hr.
  { eapply run_cons; [apply (step_register NewManager (Some 7))|]. apply m5_run. }
  destruct (usage_in_order _ _ Hr) as (H1 & H2 & H3). split; [by vm_compute|]. rewrite <-H3. by vm_compute.
Defined.
